(* ===== verification/_CoqProject ===== *)
-Q . S2P
Prelude.v
Types.v
Tokens.v
Sval.v
SvalFacts.v
RangeList.v
RangeFacts.v
RangeSets.v
RangeCast.v
RangeCompare.v
Comparison.v
RangeCompareFacts.v
RangeText.v
RangeTextFacts.v
RangeSplit.v
BitInfo.v
RangeBinop.v
RangeBinopFacts.v
Concrete.v
RangeTheorems.v
BinopTheorems.v
Avl.v
AvlFacts.v
Stree.v
StreeFacts.v
StreeWorld.v
StreeTheorems.v
Estate.v
EstateFacts.v
EstateTheorems.v
PtrList.v
PtrListFacts.v
PtrListOps.v
PtrListWalk.v
PtrListWorld.v
PtrListTheorems.v
Tables.v
SmState.v
Merge.v
MergeFacts.v
Syntax.v
States.v
MergeTheorems.v
Conditions.v
ConditionFacts.v
ConditionSound.v
ConditionTheorems.v
Flow.v
FlowSound.v
FlowLoops.v
FlowTheorems.v
Bits.v
Expand.v
ExpandFacts.v
ExpandSound.v
ExpandTheorems.v
Simplify.v
SimplifyFacts.v
SimplifyConst.v
SimplifyRules.v
SimplifyAlgebra.v
SimplifyCompare.v
SimplifyMask.v
SimplifyShift.v
SimplifyBinop.v
SimplifyCast.v
SimplifySelect.v
SimplifyTheorems.v
Flowgraph.v
FlowgraphDfs.v
FlowgraphDom.v
FlowgraphTheorems.v
Sort.v
SortTheorems.v
Cse.v
CseFacts.v
CsePlaces.v
CseTheorems.v
Liveness.v
LivenessTheorems.v
