(* ===== verification/Prelude.v ===== *)
(** * Smatch: a verification library

    Smatch is a static analyser for C built on the sparse front end.  While it
    walks a function it keeps, for every variable, what it knows about the value.
    This library models the parts that hold and compute this knowledge, and
    proves that they mean what the rest of the program takes them to mean.

    ** The program

    - A value is an [sval_t], 64 bits with a C type (src/smatch_sval.c), and the
      types are sparse's symbols (src/symbol.h, src/symbol.c,
      src/smatch_type.c) with the sizes of the target (src/target.c).
    - What a variable may be is a [struct range_list], a sorted list of ranges
      of values (src/smatch_ranges.c).  It is unioned where paths join, split by
      conditions, cast by assignments and computed with by operators.
    - What two variables are to each other is a comparison token, combined by
      src/smatch_comparison.c; which bits are known is a [struct bit_info]
      (src/smatch_bits.c), which the bitwise operators of range lists use.
    - The state of a variable is an extended state (src/smatch_estate.c): a range
      list, the variables equal to it (src/smatch_equiv.c) and some flags.  Its
      name is the text of the list, and the database holds lists as text too.
    - All this is stored in [struct sm_state]s in state tables, reference
      counted AVL trees that are copied on write (src/avl.c,
      src/smatch_slist.c), because every branch of a function has its own table
      and most of them are the same.  Where paths meet the tables are merged.
    - The current table and the tables of the paths that wait are the stacks of
      src/smatch_states.c.  A condition is taken apart by src/smatch_conditions.c,
      which asks the checks about its parts and puts the tables of its two outcomes
      together.
    - All of this is driven by the walk over the statements of a function
      (src/smatch_flow.c), which goes from the first line to the last once, branches at
      conditions and joins the paths after them, at the ends of loops and at labels.
    - Lists of all kinds, the stacks among them, are pointer lists, rings of blocks
      of 13 pointers (src/ptrlist.c, src/ptrlist.h), which src/sort.c sorts in place.
    - Before the walk the front end folds constant expressions (src/expand.c, with
      src/bits.h).  The other half of the front end turns functions into graphs of
      instructions over basic blocks, and the optimizer works on these: it simplifies
      instructions (src/simplify.c), orders the blocks and computes which block dominates
      which (src/flowgraph.c), lets equal instructions share their work (src/cse.c), and computes which
      values are needed where (src/liveness.c).

    ** The files

    - Prelude.v: machine integers, tactics and generic lemmas.
    - Types.v, Tokens.v: the parts of [struct symbol] and of the operator tokens
      that the analysis reads.  The target is a class, [Target], because its
      numbers are variables in target.c; [TargetOk] is what every configuration
      of target.c satisfies, and [FloatOps] stands for the floating point
      operations of the host.  Concrete.v has instances of all three.
    - Sval.v models smatch_sval.c: casts, comparison, operators, overflow checks
      and bit scans.  SvalFacts.v relates them to arithmetic on [Z] through
      [num], the number a value stands for.
    - RangeList.v, RangeCompare.v and RangeBinop.v model smatch_ranges.c: the
      lists themselves, comparison and splitting, and arithmetic.  NULL is the
      empty list; a function that can end in sm_fatal() returns an option.
      RangeFacts.v has the meaning [rl_has] of a list, a set of numbers, and the
      normal form [wf_rl]; RangeSets.v, RangeCast.v, RangeCompareFacts.v,
      RangeSplit.v and RangeBinopFacts.v prove what the operations do
      to the two.
    - RangeText.v models show_rl() and str_to_rl(), the text of range lists;
      RangeTextFacts.v proves that one undoes the other.
    - Comparison.v models the functions of smatch_comparison.c from tokens to
      tokens, and BitInfo.v the operations of smatch_bits.c on bit_infos.
    - Avl.v models the trees of avl.c over any elements with a three way
      comparison, the class [Tracker]; AvlFacts.v proves balance, order, the
      finite map and the traversal.
    - Stree.v models the reference counted tables over a heap, with the order
      cmp_tracker(), an instance of [Tracker].  StreeFacts.v has the invariant of
      the heap, StreeWorld.v programs over tables and their specification.
    - Estate.v models the extended states; EstateFacts.v proves what merging them
      does.
    - PtrList.v models the rings over a heap, with the macros that walk and edit
      them; PtrListFacts.v has the invariant of a ring, PtrListOps.v and
      PtrListWalk.v what each operation does to the sequence it holds, and
      PtrListWorld.v programs over lists and their specification.
    - Tables.v: a table is from here on the sorted list of its sm_states, as
      StreeWorld.v justifies, with its lookups.  SmState.v models the heap of
      sm_states and merging two of them, Merge.v merging two tables; the functions
      the checks register are the class [Checks].  MergeFacts.v describes the lookups
      in a merged table.
    - Syntax.v has the trees of the parser.  States.v models the machine of
      smatch_states.c, a record of its variables with one function per function.  Conditions.v models smatch_conditions.c over
      expressions; the rest of the core, which it calls, is the class [Core].
      ConditionFacts.v has the steps as equations, the meaning of conditions
      ([exec]), and the promises [MergeOk] and [CoreOk] of the checks and of the core about
      a relation [true_of] between tables and stores, which is theirs to choose: a hook
      may set a state for both outcomes of a condition, for one or for none.
      ConditionSound.v has the invariant of split_conditions() and its proof, and makes
      checks that say what each state stands for ([StandsOk]) an instance of [MergeOk].
    - Flow.v models __split_stmt() and its handlers; what they use of the rest of the
      program is the class [Walk].  FlowSound.v has the meaning of statements ([runs]), the
      promise [WalkOk], the invariant of the walk and its proof for branches, labels and
      jumps; FlowLoops.v has the proof for loops and for all statements.
    - Bits.v has the masks and extensions of bits.h and Expand.v models expand.c over the
      trees of expressions, with costs; ExpandFacts.v has the meaning of operators and
      ExpandSound.v that of expressions, with values and effects, and the proof that
      expansion keeps it.
    - Simplify.v models the graph of instructions ([dag]) and simplify.c, one function per
      rule, with the users of a pseudo computed from the graph; the dominators it asks
      for are the class [Domtree].  SimplifyFacts.v has the meaning of a graph (valuations that
      satisfy it, [sat]), what a rewriting has to keep ([sound]), and the ways to show it;
      SimplifyConst.v, SimplifyRules.v, SimplifyAlgebra.v,
      SimplifyCompare.v, SimplifyMask.v, SimplifyShift.v, SimplifyBinop.v, SimplifyCast.v
      and SimplifySelect.v go through the rules.
    - Flowgraph.v models flowgraph.c: the postorder of the blocks, the dominator tree and
      the questions to it.  FlowgraphDfs.v proves what the numbering is, FlowgraphDom.v
      that the iteration finds the dominators and that the tree and its levels hold
      them; FlowgraphTheorems.v also makes the tree an instance of [Domtree].
    - Sort.v models sort.c over the sequence of blocks of a list; SortTheorems.v compares it with insertion sort.
    - Cse.v models cse.c over the graph, the blocks and the sort; CseFacts.v proves that equal instructions have equal
      values and one can stand in for the other, CsePlaces.v that it runs before the uses and that executions along the
      paths of the function ([steps]) stay what they are.
    - Liveness.v models liveness.c over blocks with all kinds of instructions; LivenessTheorems.v compares it with paths
      to uses.
    - Concrete.v: decision procedures for the witnesses.  RangeTheorems.v,
      BinopTheorems.v, StreeTheorems.v, EstateTheorems.v,
      PtrListTheorems.v, MergeTheorems.v, ConditionTheorems.v, FlowTheorems.v,
      ExpandTheorems.v, SimplifyTheorems.v, FlowgraphTheorems.v, SortTheorems.v, CseTheorems.v and LivenessTheorems.v state the
      properties, those on merging, conditions and the walk with small checks as instances of the classes.

    ** What the theorems show

    - Values: sval_cast() is the conversion of C, sval_cmp() the comparison in
      the common type, +, - and * are exact up to the conversion and the
      overflow check tells when it matters.
    - Range lists are sets: add_range(), rl_union(), rl_filter(), rl_intersection()
      are insertion, union, difference and intersection, the results are in a
      normal form that is unique, so rl_equiv() decides equality.
      split_comparison_rl() and filter_by_comparison() compute exactly the
      numbers on either side of a condition, possibly_true_rl() is complete, and
      exact for lists of one type.
    - Casts and arithmetic over-approximate: the answer holds the C result for
      every number, or pair of numbers, under the stated conditions;
      [answers_that_miss_a_result] evaluates the model where they fail, each a
      finding about the code.
    - Text: what show_rl() prints fits its buffer and str_to_rl() reads it back,
      exactly if the list is short and as a larger list if it is cut.
    - Extended states: merge_estates() joins the numbers and meets the relations;
      [merge_estates_misses] shows why the first list has to be short.
    - Comparisons: merging is the join, intersecting the meet, chaining is sound.
      Bit masks: join, meet and the operators are sound.
    - State tables: insertion and removal keep trees balanced and sorted and are
      those of a finite map; the traversal is in order and its fixed stack cannot
      overflow; programs over tables refine programs over sorted lists, so
      sharing cannot be seen, nothing is used after it is freed, and, unless
      set_stree_id() is used, nothing is leaked.
    - Pointer lists: programs over lists refine programs over sequences, so the links
      are right whatever is added, deleted, split and packed;
      [ptr_list_surprises] shows where the comments say something else.
    - Merging: the merged table has exactly the keys of both with the merged states,
      and no possible state is lost.
    - Conditions: parsing a condition ends, leaves the stacks balanced, and the tables
      of the two outcomes are true of the stores in which the condition is true or
      false, if the states of the checks are true before and the checks keep their
      promises.  The right sides of && and || are not taken apart further in it;
      [conditions_rely_on_callers] shows why.
    - The walk over a statement ends, and wherever an execution leaves the statement the
      states that wait for it there are true, if the execution jumps forward and goes
      through each loop once at most, which is all the walk looks at; [walk_misses] shows
      executions it should see and does not.
    - Constant expressions: expansion keeps the type, the value and the effects of an expression, and the value of an
      expression of constants is found exactly where it has one; [select_divides] shows why the branches of a conditional
      must not divide.
    - Instructions: simplify_instruction() keeps the meaning of every well formed graph, for all rules but those of which
      [fragile_rules_unsound] gives counterexamples.
    - Flow graphs: the numbering is a reverse postorder of what can be reached; domtree_build() ends on every graph,
      reducible or not, with the immediate dominators; domtree_dominates() says whether a block is on every path to another, so what
      can_move_to() lets an instruction use has run before.
    - Sorting ends and permutes for every comparison, and is a stable sort for an order.
    - Common subexpressions: elimination keeps every execution along a path, with the operands and results of all loads, stores, calls
      and jumps, and leaves every use after its definition on every path, but for divisions and shifts that a branch
      guards: [cse_speculates] is about these, and [insn_compare_no_order] shows why some equal instructions are missed.
    - Liveness: a block needs exactly the values for which a path leads to a use before a definition, and the notes of deaths are exactly
      at the last uses, for the opcodes that are handled; [fmadd_is_missed] is about the one that is not.

    ** Integers, fuel and bounds

    A w-bit integer is the [Z] it stands for, with the wrap-around written out
    where C has it.  add_range() calls itself through casts and through the
    collapsing of pointer lists and gets four levels; for a list and a range of one
    type one is enough ([add_range_fuel_loop]).  rl_binop() calls itself once
    ([rl_binop_terminates]); the bit scans get 64 steps for 64 bits, the traversal of
    a tree one step per node ([foreach_spec]), a printed number 20 digits, and the
    parser of a list one turn per character ([helper_loop_fuel]).  A walk over a pointer
    list gets fifteen steps per block of the heap, the matching of two tables a step per
    sm_state ([match_loop_spec]), and split_conditions() as much fuel as the condition is
    nested ([parses_strips]), as does __split_stmt() for statements ([walks_walkable]).
    Killing instructions gets a call per operand of the graph, the walk over the blocks one per block ([label_visits]), the
    iteration for dominators two passes more than there are blocks, because after k passes the ancestors are on every path with k
    edges against the numbering ([loop_spec]), the merge of blocks a turn per entry ([loop_spec_sort]), and
    liveness a round for each pair of a block and a value that is needed ([liveness_loop_flows]).
    Reference counts, element counts, the numbers of tables and
    the addresses of sm_states are unbounded: they count objects in memory.

    ** What is not modelled

    Floating point values beyond the parameter [FloatOps] and the two functions that
    print and read them; texts of range lists that refer to the arguments of a call;
    memory management except for strees and pointer lists (the allocators never free
    what is in use, so other objects are values); debug messages.  From merging on, the
    tables are values: whether two equal tables are one struct is a parameter.
    Conditions with ?: and ({ ... }), switches, asm and the goto that is followed backwards
    are modelled but not covered by the soundness theorems; [covered] and [walkable] say
    exactly what is.  Not modelled are the walk over expressions, functions and files
    (the rest of smatch_flow.c), the implications (smatch_implied.c, but for
    __implied_case_stree()) and value tracking (smatch_extra.c), which are the [Core], the
    [Walk] and the [Checks] of the model; the database (SQLite); and the individual checks (check_*.c), which are clients of all
    this.  Of the front end, floating point, initializers, calls and statements in expand.c, memory operations, phi nodes, branches and
    floating point in simplify.c and cse.c, and the tokenizer, the preprocessor, the parser, the evaluation of types, the
    linearizer and the back ends are not modelled.  Next would be the soundness of switches, the walk over expressions
    and functions, the implications, the rest of the optimizer (flow.c, memops.c, ssa.c) and the tokenizer. *)
From Stdlib Require Export ZArith Lia Bool.
From stdpp Require Export base list option.

Declare Scope c_scope.
Delimit Scope c_scope with C.
#[global] Open Scope Z_scope.

Create HintDb smatch.
Create Rewrite HintDb smatch.

(** ** Machine integers

    [long long] and [unsigned long long] are 64 bits wide on every host the
    program supports.  A [long long] is kept as the [Z] it denotes, in
    [-2^63 .. 2^63-1]; [s64] and [u64] are the two reductions modulo [2^64]. *)

Definition two64 : Z := 18446744073709551616.
Definition two63 : Z := 9223372036854775808.

Definition u64 (z : Z) : Z := z mod two64.
Definition s64 (z : Z) : Z := (z + two63) mod two64 - two63.

(** The conversion to a [w]-bit signed or unsigned integer. *)
Definition ucast (w z : Z) : Z := z mod 2 ^ w.
Definition scast (w z : Z) : Z := (z + 2 ^ (w - 1)) mod 2 ^ w - 2 ^ (w - 1).

Definition LLONG_MAX : Z := 9223372036854775807.
Definition LLONG_MIN : Z := -9223372036854775808.
Definition ULLONG_MAX : Z := 18446744073709551615.
Definition INT_MAX : Z := 2147483647.
Definition INT_MIN : Z := -2147483648.
Definition UINT_MAX : Z := 4294967295.
Definition SHRT_MAX : Z := 32767.
Definition SHRT_MIN : Z := -32768.
Definition USHRT_MAX : Z := 65535.

Definition is_s64 (z : Z) : Prop := - two63 <= z < two63.
Definition is_u64 (z : Z) : Prop := 0 <= z < two64.

(** The three way result of a comparison function, as C returns it. *)
Definition cmpZ (a b : Z) : Z :=
  if a <? b then -1 else if a =? b then 0 else 1.

(** C's truth value of an integer used as a condition. *)
Definition truth (z : Z) : bool := negb (z =? 0).

(** ** Tactics *)

(** Unfold the machine-integer reductions and let [lia] finish. *)
Ltac wrap_lia :=
  unfold u64, s64, ucast, scast, is_s64, is_u64, two64, two63,
    LLONG_MAX, LLONG_MIN, ULLONG_MAX in *;
  Z.div_mod_to_equations; lia.

(** Turn boolean comparisons of the context and the goal into propositions. *)
Ltac zbool :=
  repeat match goal with
  | H : (_ <? _) = true |- _ => apply Z.ltb_lt in H
  | H : (_ <? _) = false |- _ => apply Z.ltb_ge in H
  | H : (_ <=? _) = true |- _ => apply Z.leb_le in H
  | H : (_ <=? _) = false |- _ => apply Z.leb_gt in H
  | H : (_ =? _) = true |- _ => apply Z.eqb_eq in H
  | H : (_ =? _) = false |- _ => apply Z.eqb_neq in H
  | H : (_ >? _) = true |- _ => rewrite Z.gtb_ltb in H
  | H : (_ >? _) = false |- _ => rewrite Z.gtb_ltb in H
  | H : (_ >=? _) = true |- _ => rewrite Z.geb_leb in H
  | H : (_ >=? _) = false |- _ => rewrite Z.geb_leb in H
  | H : negb _ = true |- _ => apply negb_true_iff in H
  | H : negb _ = false |- _ => apply negb_false_iff in H
  | H : (_ && _)%bool = true |- _ => apply andb_true_iff in H as [? ?]
  | H : (_ || _)%bool = false |- _ => apply orb_false_iff in H as [? ?]
  end.

(** Case analysis on the conditions of the goal, outermost first. *)
Ltac case_if :=
  match goal with
  | |- context [if ?b then _ else _] =>
    lazymatch b with
    | context [if _ then _ else _] => fail
    | _ => destruct b eqn:?
    end
  end.

(** ** Machine-integer lemmas *)

Lemma u64_range z : is_u64 (u64 z).
Proof. unfold u64, is_u64, two64. apply Z.mod_pos_bound. lia. Qed.

Lemma s64_range z : is_s64 (s64 z).
Proof. wrap_lia. Qed.

Lemma u64_small z : is_u64 z -> u64 z = z.
Proof. unfold u64, is_u64. apply Z.mod_small. Qed.

Lemma s64_small z : is_s64 z -> s64 z = z.
Proof. wrap_lia. Qed.

Lemma u64_s64 z : u64 (s64 z) = u64 z.
Proof. wrap_lia. Qed.

Lemma s64_u64 z : s64 (u64 z) = s64 z.
Proof. wrap_lia. Qed.

Lemma u64_u64 z : u64 (u64 z) = u64 z.
Proof. wrap_lia. Qed.

Lemma u64_nonneg z : 0 <= z -> is_s64 z -> u64 z = z.
Proof. wrap_lia. Qed.

(** Two [long long] values with the same 64 bits are equal. *)
Lemma u64_inj_s64 a b : is_s64 a -> is_s64 b -> u64 a = u64 b -> a = b.
Proof. wrap_lia. Qed.

Lemma ucast_range w z : 0 <= w -> 0 <= ucast w z < 2 ^ w.
Proof. intros. apply Z.mod_pos_bound. lia. Qed.

Lemma scast_range w z : 0 < w -> - 2 ^ (w - 1) <= scast w z < 2 ^ (w - 1).
Proof.
  intros Hw. unfold scast.
  assert (2 ^ w = 2 * 2 ^ (w - 1)) as ->
    by (rewrite <- Z.pow_succ_r by lia; f_equal; lia).
  pose proof (Z.mod_pos_bound (z + 2 ^ (w - 1)) (2 * 2 ^ (w - 1))). lia.
Qed.

Lemma ucast_small w z : 0 <= z < 2 ^ w -> ucast w z = z.
Proof. apply Z.mod_small. Qed.

Lemma scast_small w z : 0 < w -> - 2 ^ (w - 1) <= z < 2 ^ (w - 1) -> scast w z = z.
Proof.
  intros Hw Hz. unfold scast.
  assert (2 ^ w = 2 * 2 ^ (w - 1)) as ->
    by (rewrite <- Z.pow_succ_r by lia; f_equal; lia).
  rewrite Z.mod_small by lia. lia.
Qed.

(** ** Reading a three way comparison *)

Lemma cmpZ_lt a b : (cmpZ a b <? 0) = (a <? b).
Proof. unfold cmpZ. destruct (Z.ltb_spec a b), (Z.eqb_spec a b); reflexivity || lia. Qed.
Lemma cmpZ_le a b : (cmpZ a b <=? 0) = (a <=? b).
Proof. unfold cmpZ. destruct (Z.ltb_spec a b), (Z.eqb_spec a b), (Z.leb_spec a b); reflexivity || lia. Qed.
Lemma cmpZ_gt a b : (cmpZ a b >? 0) = (b <? a).
Proof. unfold cmpZ. destruct (Z.ltb_spec a b), (Z.eqb_spec a b), (Z.ltb_spec b a); reflexivity || lia. Qed.
Lemma cmpZ_ge a b : (cmpZ a b >=? 0) = (b <=? a).
Proof. unfold cmpZ. destruct (Z.ltb_spec a b), (Z.eqb_spec a b), (Z.leb_spec b a); reflexivity || lia. Qed.
Lemma cmpZ_eq a b : (cmpZ a b =? 0) = (a =? b).
Proof. unfold cmpZ. destruct (Z.ltb_spec a b), (Z.eqb_spec a b); reflexivity || lia. Qed.

#[export] Hint Rewrite cmpZ_lt cmpZ_le cmpZ_gt cmpZ_ge cmpZ_eq : smatch.
#[export] Hint Resolve u64_range s64_range : smatch.
