(* ===== verification/Types.v ===== *)
(** * Types of the analysed program

    The part of [struct symbol] (symbol.h) the value analysis reads, the
    built-in C types of symbol.c, the target parameters of target.c, and the
    type predicates of smatch.h and smatch_type.c.

    A [struct symbol *] is an [option symbol]: [None] is the NULL pointer.
    Pointer identity is equality of the records, which carry their address, so
    two symbols at different addresses are different whatever their contents.
    Types are taken after [examine_symbol_type], i.e. with [bit_size] known. *)
From S2P Require Import Prelude.

(** enum type of symbol.h *)
Inductive sym_type : Set :=
  | SYM_UNINITIALIZED | SYM_PREPROCESSOR | SYM_BASETYPE | SYM_NODE | SYM_PTR
  | SYM_FN | SYM_ARRAY | SYM_STRUCT | SYM_UNION | SYM_ENUM | SYM_TYPEOF
  | SYM_TYPEOF_UNQUAL | SYM_BITFIELD | SYM_LABEL | SYM_RESTRICT | SYM_FOULED
  | SYM_KEYWORD | SYM_BAD.

Inductive symbol : Set := Symbol {
  sym_addr : Z;
  sym_kind : sym_type;
  bit_size : Z;
  modifiers : Z;
  alignment : Z;
  base_type : option symbol
}.

Definition MOD_SIGNED : Z := 0x2000.
Definition MOD_UNSIGNED : Z := 0x4000.
Definition MOD_EXPLICITLY_SIGNED : Z := 0x8000.
Definition MOD_ESIGNED : Z := Z.lor MOD_SIGNED MOD_EXPLICITLY_SIGNED.

#[export] Instance sym_type_eq_dec : EqDecision sym_type.
Proof. solve_decision. Defined.

Definition symbol_eq_dec_fix : forall x y : symbol, {x = y} + {x <> y}.
Proof.
  refine (fix go (x y : symbol) {struct x} : {x = y} + {x <> y} :=
    match x, y with
    | Symbol a k b m al bt, Symbol a' k' b' m' al' bt' =>
      match decide (a = a'), decide (k = k'), decide (b = b'),
            decide (m = m'), decide (al = al') with
      | left _, left _, left _, left _, left _ =>
        match bt, bt' with
        | None, None => left _
        | Some s, Some s' =>
          match go s s' with left _ => left _ | right _ => right _ end
        | _, _ => right _
        end
      | _, _, _, _, _ => right _
      end
    end); congruence.
Defined.

#[export] Instance symbol_eq_dec : EqDecision symbol := symbol_eq_dec_fix.

(** [a == b] on [struct symbol *]. *)
Definition type_eqb (a b : option symbol) : bool := bool_decide (a = b).

(** The parameters of the compilation target (target.c) and the command line
    the analysis depends on. *)
Class Target := {
  bits_in_long : Z;
  bits_in_pointer : Z;
  bits_in_longdouble : Z;
  max_int_alignment : Z;
  max_fp_alignment : Z;
  (** -funsigned-char *)
  funsigned_char : bool;
  (** [option_project == PROJ_KERNEL] *)
  proj_kernel : bool
}.

(** target_init() only ever leaves 32 or 64 in these two variables. *)
Class TargetOk (T : Target) : Prop := {
  bits_in_long_ok : bits_in_long = 32 \/ bits_in_long = 64;
  bits_in_pointer_ok : bits_in_pointer = 32 \/ bits_in_pointer = 64
}.

(** The formats of [float], [double] and [long double] are the host's. *)
Inductive fp_kind : Set := FP_FLOAT | FP_DOUBLE | FP_LDOUBLE.

(** C's floating point conversions and comparisons, on the host's encoding of
    the three formats.  The encoding is kept in the same field as an integer
    value, as in the union of [sval_t]. *)
Class FloatOps := {
  fp_of_Z : fp_kind -> Z -> Z;
  fp_convert : fp_kind -> fp_kind -> Z -> Z;
  fp_to_longlong : fp_kind -> Z -> Z;
  fp_ltb : fp_kind -> Z -> Z -> bool;
  fp_eqb : fp_kind -> Z -> Z -> bool;
  fp_MAX : fp_kind -> Z;
  fp_minus_MAX : fp_kind -> Z
}.

Section types.
Context `{Tgt : Target}.

Definition bits_to_bytes (bits : Z) : Z :=
  if bits >=? 0 then (bits + 8 - 1) / 8 else -1.

(** init_ctype() of symbol.c on the entries of ctype_declaration: T_INT,
    T_SINT, T_UINT give the modifiers, T_PTR types have the pointer size.  The
    abstract types int_type and fp_type above the base types are left out:
    get_real_base_type() stops at a SYM_BASETYPE. *)
Definition T_INT (addr size mods : Z) : option symbol :=
  Some (Symbol addr SYM_BASETYPE size mods
          (Z.min (bits_to_bytes size) max_int_alignment) None).
Definition T_FLOAT (addr size : Z) : option symbol :=
  Some (Symbol addr SYM_BASETYPE size 0
          (Z.min (bits_to_bytes size) max_fp_alignment) None).

Definition bool_ctype := T_INT 1 1 MOD_UNSIGNED.
Definition char_ctype :=
  T_INT 2 8 (if funsigned_char then MOD_UNSIGNED else MOD_SIGNED).
Definition schar_ctype := T_INT 3 8 MOD_ESIGNED.
Definition uchar_ctype := T_INT 4 8 MOD_UNSIGNED.
Definition short_ctype := T_INT 5 16 MOD_SIGNED.
Definition sshort_ctype := T_INT 6 16 MOD_ESIGNED.
Definition ushort_ctype := T_INT 7 16 MOD_UNSIGNED.
Definition int_ctype := T_INT 8 32 MOD_SIGNED.
Definition sint_ctype := T_INT 9 32 MOD_ESIGNED.
Definition uint_ctype := T_INT 10 32 MOD_UNSIGNED.
Definition long_ctype := T_INT 11 bits_in_long MOD_SIGNED.
Definition slong_ctype := T_INT 12 bits_in_long MOD_ESIGNED.
Definition ulong_ctype := T_INT 13 bits_in_long MOD_UNSIGNED.
Definition llong_ctype := T_INT 14 64 MOD_SIGNED.
Definition sllong_ctype := T_INT 15 64 MOD_ESIGNED.
Definition ullong_ctype := T_INT 16 64 MOD_UNSIGNED.
Definition void_ctype : option symbol :=
  Some (Symbol 17 SYM_BASETYPE (-1) 0 0 None).
Definition float_ctype := T_FLOAT 18 32.
Definition double_ctype := T_FLOAT 19 64.
Definition ldouble_ctype := T_FLOAT 20 bits_in_longdouble.
Definition ptr_ctype : option symbol :=
  Some (Symbol 21 SYM_PTR bits_in_pointer 0 (bits_to_bytes bits_in_pointer)
          void_ctype).

(** target_init() (target.c): int for the 32 bit models, long long for LLP64,
    long for LP64. *)
Definition ssize_t_ctype : option symbol :=
  if bits_in_pointer =? 32 then int_ctype
  else if bits_in_long =? 32 then llong_ctype else long_ctype.

Definition kind_in (ks : list sym_type) (t : option symbol) : bool :=
  match t with
  | Some s => bool_decide (sym_kind s ∈ ks)
  | None => false
  end.

Definition type_is_ptr (type : option symbol) : bool :=
  kind_in [SYM_PTR; SYM_ARRAY; SYM_FN] type.

(** symbol.h: looks through one SYM_NODE. *)
Definition is_ptr_type (type : option symbol) : bool :=
  match type with
  | None => false
  | Some s =>
    kind_in [SYM_PTR; SYM_ARRAY; SYM_FN]
      (if bool_decide (sym_kind s = SYM_NODE) then base_type s else type)
  end.

Definition fp_kind_of (type : option symbol) : option fp_kind :=
  if type_eqb type float_ctype then Some FP_FLOAT
  else if type_eqb type double_ctype then Some FP_DOUBLE
  else if type_eqb type ldouble_ctype then Some FP_LDOUBLE
  else None.

Definition type_is_fp (type : option symbol) : bool :=
  match fp_kind_of type with Some _ => true | None => false end.

Definition type_bits (type : option symbol) : Z :=
  match type with
  | None => 0
  | Some s => if type_is_ptr type then bits_in_pointer else bit_size s
  end.

Definition type_unsigned (type : option symbol) : bool :=
  match type with
  | None => false
  | Some s =>
    if is_ptr_type type then true else truth (Z.land (modifiers s) MOD_UNSIGNED)
  end.

Definition type_signed (type : option symbol) : bool :=
  match type with
  | None => false
  | Some s => truth (Z.land (modifiers s) MOD_SIGNED)
  end.

Definition type_positive_bits (type : option symbol) : Z :=
  match type with
  | None => 0
  | Some _ =>
    if is_ptr_type type then bits_in_pointer
    else if type_unsigned type then type_bits type
    else type_bits type - 1
  end.

(** smatch_type.c *)
Fixpoint get_real_base_type_sym (sym : symbol) : option symbol :=
  if bool_decide (sym_kind sym = SYM_BASETYPE) then Some sym
  else match base_type sym with
  | None => None
  | Some ret =>
    if kind_in [SYM_RESTRICT; SYM_NODE] (Some ret)
    then get_real_base_type_sym ret else Some ret
  end.

Definition get_real_base_type (sym : option symbol) : option symbol :=
  match sym with Some s => get_real_base_type_sym s | None => None end.

Definition get_promoted_type (left right : option symbol) : option symbol :=
  let ret := int_ctype in
  let ret := if type_positive_bits left >? type_positive_bits ret then left else ret in
  let ret := if type_positive_bits right >? type_positive_bits ret then right else ret in
  let ret := if type_is_ptr left then left else ret in
  if type_is_ptr right then right else ret.

(** ** The types the integer theorems are about

    A standard type is one whose values smatch holds exactly in 64 bits: an
    integer type of 8, 16, 32 or 64 bits, [_Bool], or a pointer. *)
Definition std_width (t : option symbol) : Prop :=
  type_bits t = 8 \/ type_bits t = 16 \/ type_bits t = 32 \/ type_bits t = 64.

Record std_type (t : option symbol) : Prop := {
  std_not_fp : type_is_fp t = false;
  std_ptr : is_ptr_type t = type_is_ptr t;
  std_signed : type_signed t = negb (type_unsigned t);
  std_bits : std_width t \/ (type_bits t = 1 /\ type_unsigned t = true)
}.

(** The smallest and the largest number of a type. *)
Definition tmin (t : option symbol) : Z :=
  if type_unsigned t then 0 else - 2 ^ (type_bits t - 1).
Definition tmax (t : option symbol) : Z :=
  if type_unsigned t then 2 ^ type_bits t - 1 else 2 ^ (type_bits t - 1) - 1.

(** [z] is a number of type [t]. *)
Definition in_type (t : option symbol) (z : Z) : Prop := tmin t <= z <= tmax t.

Lemma std_type_some t : std_type t -> exists s, t = Some s.
Proof.
  intros [_ _ H _]. destruct t as [s|]; [by exists s|]. discriminate.
Qed.

Lemma type_positive_bits_std t :
  std_type t ->
  type_positive_bits t = if type_unsigned t then type_bits t else type_bits t - 1.
Proof.
  intros Ht. pose proof (std_ptr _ Ht) as Hp.
  destruct (std_type_some t Ht) as [s ->].
  unfold type_positive_bits, type_unsigned, type_bits. rewrite Hp.
  by destruct (type_is_ptr (Some s)).
Qed.

Lemma std_bits_cases t :
  std_type t ->
  (type_unsigned t = true /\ type_bits t = 1) \/ std_width t.
Proof. intros [_ _ _ [?|[? ?]]]; auto. Qed.

Lemma std_bits_range t : std_type t -> 1 <= type_bits t <= 64.
Proof. intros Ht. destruct (std_bits_cases t Ht) as [[_ H]|H]; unfold std_width in *; lia. Qed.

(** Split a standard type into its nine shapes, with the bounds computed. *)
Lemma std_bounds t :
  std_type t ->
  type_unsigned t = true /\ tmin t = 0 /\ tmax t = 2 ^ type_bits t - 1 /\
    (type_bits t = 1 \/ std_width t) \/
  type_unsigned t = false /\ tmin t = - 2 ^ (type_bits t - 1) /\
    tmax t = 2 ^ (type_bits t - 1) - 1 /\ std_width t.
Proof.
  intros Ht. unfold tmin, tmax.
  destruct (std_bits_cases t Ht) as [[Hu Hb]|Hw].
  - left. rewrite Hu. auto.
  - destruct (type_unsigned t); [left|right]; auto.
Qed.

End types.

Arguments fp_kind_of : simpl never.
Arguments type_is_fp : simpl never.
Arguments type_bits : simpl never.
Arguments type_unsigned : simpl never.
Arguments type_signed : simpl never.
Arguments type_positive_bits : simpl never.
Arguments tmin : simpl never.
Arguments tmax : simpl never.

(** The default target: an LP64 machine, the kernel project. *)
Definition lp64_kernel : Target :=
  {| bits_in_long := 64; bits_in_pointer := 64; bits_in_longdouble := 128;
     max_int_alignment := 8; max_fp_alignment := 16; funsigned_char := false;
     proj_kernel := true |}.

Lemma lp64_kernel_ok : TargetOk lp64_kernel.
Proof. split; right; reflexivity. Qed.

(** A concrete instance of the floating point operations, in which a value of
    any of the three formats is the integer it rounds to. *)
Definition integral_floats : FloatOps :=
  {| fp_of_Z := fun _ z => z; fp_convert := fun _ _ z => z;
     fp_to_longlong := fun _ z => z;
     fp_ltb := fun _ => Z.ltb; fp_eqb := fun _ => Z.eqb;
     fp_MAX := fun _ => LLONG_MAX; fp_minus_MAX := fun _ => - LLONG_MAX |}.

(** Evaluate the powers of two of a hypothesis. *)
Ltac pow_cst H :=
  repeat match type of H with
  | context [2 ^ ?n] =>
    let v := eval vm_compute in (2 ^ n) in
    lazymatch isZcst v with true => change (2 ^ n) with v in H end
  end.

(** Case analysis on the width of a standard type. *)
Ltac std_cases Ht :=
  let Hu := fresh "Hu" in let H0 := fresh "Hmin" in
  let H1 := fresh "Hmax" in let Hw := fresh "Hw" in
  destruct (std_bounds _ Ht) as [(Hu & H0 & H1 & Hw)|(Hu & H0 & H1 & Hw)];
  unfold std_width in Hw;
  repeat match type of Hw with _ \/ _ => destruct Hw as [Hw|Hw] end;
  try rewrite Hw in H0; try rewrite Hw in H1; pow_cst H0; pow_cst H1.
