(* ===== verification/Tokens.v ===== *)
(** * Operator tokens

    The operator codes of token.h as the value analysis uses them, and
    show_special() of tokenize.c.  In C an operator is an [int]: a character
    code below [SPECIAL_BASE] or a member of [enum special_token].  The
    operators the analysis dispatches on are constructors, every other code is
    [OTHER_OP]. *)
From S2P Require Import Prelude.
From Stdlib Require Import String Ascii.

Inductive op_tok : Set :=
  | OP_MUL | OP_DIV | OP_ADD | OP_SUB | OP_MOD        (* '*' '/' '+' '-' '%' *)
  | OP_OR | OP_AND | OP_XOR | OP_NOT | OP_TILDE       (* '|' '&' '^' '!' '~' *)
  | OP_LT | OP_GT                                     (* '<' '>' *)
  | SPECIAL_LTE | SPECIAL_GTE | SPECIAL_EQUAL | SPECIAL_NOTEQUAL
  | SPECIAL_LEFTSHIFT | SPECIAL_RIGHTSHIFT
  | SPECIAL_UNSIGNED_LT | SPECIAL_UNSIGNED_GT
  | SPECIAL_UNSIGNED_LTE | SPECIAL_UNSIGNED_GTE
  | UNKNOWN_COMPARISON | IMPOSSIBLE_COMPARISON
  | OTHER_OP (code : Z).

#[export] Instance op_tok_eq_dec : EqDecision op_tok.
Proof. solve_decision. Defined.

Definition op_eqb (a b : op_tok) : bool := bool_decide (a = b).

Definition SPECIAL_BASE : Z := 256.

(** COMBINATION_STRINGS *)
Definition combinations : list string :=
  ["+="; "++"; "-="; "--"; "->"; "*="; "/="; "%="; "<="; ">="; "=="; "!=";
   "&&"; "&="; "||"; "|="; "^="; "##"; "<<"; ">>"; ".."; "<<="; ">>="; "...";
   ""; "<"; ">"; "<="; ">="]%string.

(** The integer an operator is in C. *)
Definition op_code (op : op_tok) : Z :=
  match op with
  | OP_MUL => 42 | OP_DIV => 47 | OP_ADD => 43 | OP_SUB => 45 | OP_MOD => 37
  | OP_OR => 124 | OP_AND => 38 | OP_XOR => 94 | OP_NOT => 33 | OP_TILDE => 126
  | OP_LT => 60 | OP_GT => 62
  | SPECIAL_LTE => 264 | SPECIAL_GTE => 265 | SPECIAL_EQUAL => 266
  | SPECIAL_NOTEQUAL => 267
  | SPECIAL_LEFTSHIFT => 274 | SPECIAL_RIGHTSHIFT => 275
  | SPECIAL_UNSIGNED_LT => 281 | SPECIAL_UNSIGNED_GT => 282
  | SPECIAL_UNSIGNED_LTE => 283 | SPECIAL_UNSIGNED_GTE => 284
  | UNKNOWN_COMPARISON => 0 | IMPOSSIBLE_COMPARISON => -1
  | OTHER_OP c => c
  end.

(** show_special(): one character, or the string of a combination. *)
Definition show_special (op : op_tok) : string :=
  let val := op_code op in
  if val >=? SPECIAL_BASE
  then List.nth (Z.to_nat (val - SPECIAL_BASE)) combinations EmptyString
  else String (ascii_of_N (Z.to_N (ucast 8 val))) EmptyString.

(** [show_special(op)[i] == c] *)
Definition show_special_at (op : op_tok) (i : nat) (c : ascii) : bool :=
  match String.get i (show_special op) with
  | Some d => Ascii.eqb c d
  | None => false
  end.

(** smatch_helper.c *)
Definition invert_op (op : op_tok) : op_tok :=
  match op with
  | OP_MUL => OP_DIV
  | OP_DIV => OP_MUL
  | OP_ADD => OP_SUB
  | OP_SUB => OP_ADD
  | SPECIAL_LEFTSHIFT => SPECIAL_RIGHTSHIFT
  | SPECIAL_RIGHTSHIFT => SPECIAL_LEFTSHIFT
  | _ => OTHER_OP 0
  end.

(** ** What a comparison operator means on numbers *)

Definition cmp_rel (op : op_tok) (a b : Z) : Prop :=
  match op with
  | OP_LT | SPECIAL_UNSIGNED_LT => a < b
  | OP_GT | SPECIAL_UNSIGNED_GT => a > b
  | SPECIAL_LTE | SPECIAL_UNSIGNED_LTE => a <= b
  | SPECIAL_GTE | SPECIAL_UNSIGNED_GTE => a >= b
  | SPECIAL_EQUAL => a = b
  | SPECIAL_NOTEQUAL => a <> b
  | UNKNOWN_COMPARISON => True
  | _ => False
  end.

(** The operators that are comparisons of two numbers. *)
Definition is_cmp (op : op_tok) : bool :=
  match op with
  | OP_LT | OP_GT | SPECIAL_LTE | SPECIAL_GTE | SPECIAL_EQUAL | SPECIAL_NOTEQUAL
  | SPECIAL_UNSIGNED_LT | SPECIAL_UNSIGNED_GT
  | SPECIAL_UNSIGNED_LTE | SPECIAL_UNSIGNED_GTE => true
  | _ => false
  end.
