(* ===== verification/Sval.v ===== *)
(** * Values: smatch_sval.c

    [sval_t] is a type and a union of a 64 bit integer and the floating point
    formats.  [value] is the [long long] member, a [Z] in [-2^63 .. 2^63-1];
    [uvalue] is the same 64 bits read as [unsigned long long].  Arithmetic on
    [long long] that leaves its range wraps around (two's complement), shift
    counts are taken modulo 64 as the host's shift instruction does. *)
From S2P Require Import Prelude Types Tokens.

Record sval_t : Set := Sval {
  sv_type : option symbol;
  value : Z
}.

#[export] Instance sval_t_eq_dec : EqDecision sval_t.
Proof. solve_decision. Defined.

Definition uvalue (s : sval_t) : Z := u64 (value s).

(** [s.value = v] and [s.uvalue = v] *)
Definition set_value (s : sval_t) (v : Z) : sval_t := Sval (sv_type s) (s64 v).

Section sval.
Context `{Tgt : Target} `{Fp : FloatOps}.

(** ** Predicates *)

Definition sval_is_ptr (sval : sval_t) : bool :=
  kind_in [SYM_PTR; SYM_ARRAY] (sv_type sval).

Definition sval_is_fp (sval : sval_t) : bool := type_is_fp (sv_type sval).

Definition sval_unsigned (sval : sval_t) : bool :=
  if is_ptr_type (sv_type sval) then true else type_unsigned (sv_type sval).

Definition sval_signed (sval : sval_t) : bool := negb (type_unsigned (sv_type sval)).

Definition sval_bits (sval : sval_t) : Z := type_bits (sv_type sval).

Definition sval_positive_bits (sval : sval_t) : Z := type_positive_bits (sv_type sval).

(** [for (i = n; i >= 1; i--) if (uvalue & (1ULL << (i - 1))) return i;] *)
Fixpoint bits_used_from (n : nat) (v : Z) : Z :=
  match n with
  | O => 0
  | S m => if Z.testbit v (Z.of_nat m) then Z.of_nat n else bits_used_from m v
  end.

Definition sval_bits_used (sval : sval_t) : Z := bits_used_from 64 (uvalue sval).

Definition sval_is_negative (sval : sval_t) : bool :=
  if type_unsigned (sv_type sval) then false else value sval <? 0.

Definition sval_is_positive (sval : sval_t) : bool := negb (sval_is_negative sval).

(** ** Construction *)

Definition sval_type_val (type : option symbol) (val : Z) : sval_t :=
  Sval (match type with None => llong_ctype | Some _ => type end) val.

Definition ll_to_sval (val : Z) : sval_t := Sval llong_ctype val.

Definition int_zero : sval_t := Sval int_ctype 0.
Definition int_one : sval_t := Sval int_ctype 1.
Definition int_minus_one : sval_t := Sval int_ctype (-1).

(** fp_max(), fp_min() of smatch_type.c *)
Definition fp_max (type : option symbol) : sval_t :=
  Sval type (fp_MAX (default FP_LDOUBLE (fp_kind_of type))).
Definition fp_min (type : option symbol) : sval_t :=
  Sval type (fp_minus_MAX (default FP_LDOUBLE (fp_kind_of type))).

(** [if (!base_type || !type_bits(base_type)) base_type = &llong_ctype;] *)
Definition bounds_type (base_type : option symbol) : option symbol :=
  match base_type with
  | None => llong_ctype
  | Some _ => if type_bits base_type =? 0 then llong_ctype else base_type
  end.

Definition sval_type_max (base_type : option symbol) : sval_t :=
  if type_is_fp base_type then fp_max base_type
  else
    let base_type := bounds_type base_type in
    Sval base_type
      (s64 (Z.shiftr ULLONG_MAX (64 - type_positive_bits base_type))).

Definition sval_type_min (base_type : option symbol) : sval_t :=
  if type_is_fp base_type then fp_min base_type
  else
    let base_type := bounds_type base_type in
    if type_unsigned base_type || is_ptr_type base_type
    then Sval base_type 0
    else Sval base_type
           (s64 (Z.shiftl ULLONG_MAX (type_positive_bits base_type))).

(** ** Casts *)

(** cast_to_fp(): the three branches differ only in the member they write. *)
Definition cast_to_fp (type : option symbol) (sval : sval_t) : sval_t :=
  match fp_kind_of type with
  | Some k =>
    match fp_kind_of (sv_type sval) with
    | None =>
      Sval type (fp_of_Z k (if sval_unsigned sval then uvalue sval else value sval))
    | Some k' => Sval type (fp_convert k' k (value sval))
    end
  | None => Sval type 0
  end.

(** The integer part of sval_cast(). *)
Definition cast_int (type : option symbol) (sval : sval_t) : sval_t :=
  let ret := Sval type 0 in
  let v := value sval in
  Sval type
    (if sval_bits ret =? 1 then (if v =? 0 then 0 else 1)
     else if sval_bits ret =? 8 then
       if sval_unsigned ret then ucast 8 v else scast 8 v
     else if sval_bits ret =? 16 then
       if sval_unsigned ret then ucast 16 v else scast 16 v
     else if sval_bits ret =? 32 then
       if sval_unsigned ret then ucast 32 v else scast 32 v
     else v).

Definition cast_type (type : option symbol) : option symbol :=
  match type with None => int_ctype | Some _ => type end.

(** cast_from_fp() converts to long long and casts that to an integer type. *)
Definition cast_from_fp (type : option symbol) (sval : sval_t) : sval_t :=
  cast_int (cast_type type)
    (Sval llong_ctype
      match fp_kind_of (sv_type sval) with
      | Some k => s64 (fp_to_longlong k (value sval))
      | None => 0
      end).

Definition sval_cast (type : option symbol) (sval : sval_t) : sval_t :=
  let type := cast_type type in
  if type_is_fp type then cast_to_fp type sval
  else if type_is_fp (sv_type sval) then cast_from_fp type sval
  else cast_int type sval.

Definition sval_type_fval (type : option symbol) (fval : Z) : sval_t :=
  sval_cast type (Sval ldouble_ctype fval).

(** ** Comparison *)

Definition fp_cmp (one two : sval_t) : Z :=
  let type :=
    if sval_is_fp one && sval_is_fp two then
      if type_bits (sv_type one) >? type_bits (sv_type two)
      then sv_type one else sv_type two
    else if sval_is_fp one then sv_type one else sv_type two in
  let one := sval_cast type one in
  let two := sval_cast type two in
  match fp_kind_of (sv_type one) with
  | Some k =>
    if fp_ltb k (value one) (value two) then -1
    else if fp_eqb k (value one) (value two) then 0 else 1
  | None => 1
  end.

(** The type sval_cmp() compares in. *)
Definition cmp_type (one two : sval_t) : option symbol :=
  let type := sv_type one in
  let type := if sval_positive_bits two >? sval_positive_bits one
              then sv_type two else type in
  if type_bits type <? 31 then int_ctype else type.

Definition sval_cmp (one two : sval_t) : Z :=
  if sval_is_fp one || sval_is_fp two then fp_cmp one two
  else
    let type := cmp_type one two in
    let one := sval_cast type one in
    let two := sval_cast type two in
    if type_unsigned type then cmpZ (uvalue one) (uvalue two)
    else cmpZ (value one) (value two).

Definition sval_cmp_t (type : option symbol) (one two : sval_t) : Z :=
  sval_cmp (sval_cast type one) (sval_cast type two).

Definition sval_cmp_val (one : sval_t) (val : Z) : Z :=
  sval_cmp one (sval_type_val llong_ctype val).

Definition sval_min (one two : sval_t) : sval_t :=
  if sval_cmp one two >? 0 then two else one.

Definition sval_max (one two : sval_t) : sval_t :=
  if sval_cmp one two <? 0 then two else one.

Definition sval_min_nonneg (one two : sval_t) : sval_t :=
  if sval_is_negative one && sval_is_negative two then set_value one 0
  else if sval_is_negative one then two
  else if sval_is_negative two then one
  else sval_min one two.

(** ** Extreme values *)

Definition fp_is_min (sval : sval_t) : bool :=
  match fp_kind_of (sv_type sval) with
  | Some k => fp_eqb k (value sval) (fp_minus_MAX k)
  | None => false
  end.

Definition fp_is_max (sval : sval_t) : bool :=
  match fp_kind_of (sv_type sval) with
  | Some k => fp_eqb k (value sval) (fp_MAX k)
  | None => false
  end.

Definition sval_is_min (sval : sval_t) : bool :=
  let min := sval_type_min (sv_type sval) in
  if sval_is_fp sval then fp_is_min sval
  else if sval_unsigned sval then uvalue sval =? 0
  else value sval <=? value min.

(** [sval.uvalue >= max.value] is an unsigned comparison in C. *)
Definition sval_is_max (sval : sval_t) : bool :=
  let max := sval_type_max (sv_type sval) in
  if sval_is_fp sval then fp_is_max sval
  else if sval_unsigned sval then uvalue sval >=? uvalue max
  else value sval >=? value max.

(** alloc_ptr_constants() of smatch_flow.c *)
Definition valid_ptr_min : Z := 4096.
Definition valid_ptr_max : Z :=
  Z.land (uvalue (sval_type_max ulong_ctype)) (u64 (Z.lnot 0xfff)).
Definition valid_ptr_min_sval : sval_t := Sval ptr_ctype valid_ptr_min.
Definition valid_ptr_max_sval : sval_t := Sval ptr_ctype (s64 valid_ptr_max).
Definition ulong_ULONG_MAX : sval_t := sval_type_max ulong_ctype.

Definition sval_is_a_min (sval : sval_t) : bool :=
  if sval_is_min sval then true
  else if sval_is_fp sval then false
  else sval_signed sval &&
    ((value sval =? SHRT_MIN) || (value sval =? INT_MIN) || (value sval =? LLONG_MIN)).

(** The last test mixes [long long] and [unsigned long]: it is unsigned. *)
Definition sval_is_a_max (sval : sval_t) : bool :=
  if sval_is_max sval then true
  else if sval_is_fp sval then false
  else
    (uvalue sval =? SHRT_MAX) || (uvalue sval =? INT_MAX) ||
    (uvalue sval =? LLONG_MAX) || (uvalue sval =? USHRT_MAX) ||
    (uvalue sval =? UINT_MAX) ||
    (sval_unsigned sval && (uvalue sval =? ULLONG_MAX)) ||
    ((uvalue sval >? u64 (valid_ptr_max - 1000)) &&
     (uvalue sval <? u64 (valid_ptr_max + 1000))).

Definition sval_is_negative_min (sval : sval_t) : bool :=
  if sval_is_fp sval then false
  else if negb (sval_is_negative sval) then false
  else sval_is_min sval.

(** ** Does a value fit into a type *)

Definition sval_too_low (type : option symbol) (sval : sval_t) : bool :=
  if sval_is_negative sval && type_unsigned type then true
  else if type_signed type && sval_unsigned sval then false
  else if type_signed (sv_type sval) && (value sval <? value (sval_type_min type))
  then true
  else sval_cmp sval (sval_type_min type) <? 0.

Definition sval_too_high (type : option symbol) (sval : sval_t) : bool :=
  if sval_is_negative sval then false
  else uvalue sval >? uvalue (sval_type_max type).

Definition sval_fits (type : option symbol) (sval : sval_t) : bool :=
  if type_is_fp type then true
  else if type_is_fp (sv_type sval) then false
  else if sval_too_low type sval then false
  else if sval_too_high type sval then false
  else true.

(** ** Operators *)

Definition sval_preop (sval : sval_t) (op : op_tok) : sval_t :=
  match op with
  | OP_NOT => set_value sval (if value sval =? 0 then 1 else 0)
  | OP_TILDE => sval_cast (sv_type sval) (set_value sval (Z.lnot (value sval)))
  | OP_SUB => sval_cast (sv_type sval) (set_value sval (- value sval))
  | _ => sval
  end.

Definition shift_count (z : Z) : Z := z mod 64.

Definition sval_binop_unsigned (type : option symbol) (left : sval_t) (op : op_tok)
    (right : sval_t) : sval_t :=
  let l := uvalue left in
  let r := uvalue right in
  Sval type (s64
    match op with
    | OP_MUL => l * r
    | OP_DIV => if r =? 0 then 123456789 else l / r
    | OP_ADD => l + r
    | OP_SUB => l - r
    | OP_MOD => if r =? 0 then 123456789 else l mod r
    | OP_OR => Z.lor l r
    | OP_AND => Z.land l r
    | SPECIAL_RIGHTSHIFT => Z.shiftr l (shift_count r)
    | SPECIAL_LEFTSHIFT => Z.shiftl l (shift_count r)
    | OP_XOR => Z.lxor l r
    | _ => 1234567
    end).

Definition sval_binop_signed (type : option symbol) (left : sval_t) (op : op_tok)
    (right : sval_t) : sval_t :=
  let l := value left in
  let r := value right in
  Sval type (s64
    match op with
    | OP_MUL => l * r
    | OP_DIV =>
      if r =? 0 then 123456789
      else if (l =? LLONG_MIN) && (r =? -1) then 12345678
      else Z.quot l r
    | OP_ADD => l + r
    | OP_SUB => l - r
    | OP_MOD => if r =? 0 then 123456789 else Z.rem l r
    | OP_OR => Z.lor l r
    | OP_AND => Z.land l r
    | SPECIAL_RIGHTSHIFT => Z.shiftr l (shift_count r)
    | SPECIAL_LEFTSHIFT => Z.shiftl l (shift_count r)
    | OP_XOR => Z.lxor l r
    | _ => 1234567
    end).

(** [if (type->type == SYM_PTR) type = get_real_base_type(type);] *)
Definition ptr_step_type (type : option symbol) : option symbol :=
  if kind_in [SYM_PTR] type then get_real_base_type type else type.

(** [align = type->ctype.alignment; if (align <= 0) align = 1;] *)
Definition ptr_align (type : option symbol) : Z :=
  match type with
  | Some s => if alignment s <=? 0 then 1 else alignment s
  | None => 1
  end.

(** ptr_binop() with op == '+'. *)
Definition ptr_binop_add (type : option symbol) (left right : sval_t) : sval_t :=
  let align := ptr_align (ptr_step_type type) in
  Sval type (s64
    (if type_is_ptr (sv_type left) then value left + value right * align
     else value left * align + value right)).

Definition ptr_binop (type : option symbol) (left : sval_t) (op : op_tok)
    (right : sval_t) : sval_t :=
  match op with
  | OP_ADD => ptr_binop_add type left right
  | OP_SUB =>
    let step := ptr_step_type type in
    let align := ptr_align step in
    let ret :=
      if negb (type_is_ptr (sv_type left)) then
        ptr_binop_add step (set_value left (- value left)) right
      else if negb (type_is_ptr (sv_type right)) then
        ptr_binop_add step left (set_value right (- value right))
      else Sval type (s64 (Z.quot (s64 (value left - value right)) align)) in
    Sval ssize_t_ctype (value ret)
  | _ => sval_binop_unsigned type left op right
  end.

Definition sval_binop (left : sval_t) (op : op_tok) (right : sval_t) : sval_t :=
  let type := get_promoted_type (sv_type left) (sv_type right) in
  let ret :=
    if type_is_ptr type then ptr_binop type left op right
    else if type_unsigned type then sval_binop_unsigned type left op right
    else sval_binop_signed type left op right in
  sval_cast type ret.

(** ** Overflow checks *)

Definition sval_unop_overflows (sval : sval_t) (op : op_tok) : bool :=
  match op with
  | OP_SUB =>
    if (sval_positive_bits sval =? 32) && (value sval =? INT_MIN) then true
    else if (sval_positive_bits sval =? 64) && (value sval =? LLONG_MIN) then true
    else if sval_is_negative sval then false
    else if sval_signed sval then false
    else if (sval_bits sval =? 32) && (uvalue sval >? INT_MAX) then true
    else (sval_bits sval =? 64) && (uvalue sval >? LLONG_MAX)
  | _ => false
  end.

(** type_overflow(): the operands are converted to the type, then the builtin
    says whether the exact result leaves it. *)
Definition type_overflow (conv : Z -> Z) (a : Z) (op : op_tok) (b : Z) : bool :=
  let a := conv a in
  let b := conv b in
  match op with
  | OP_MUL => negb (conv (a * b) =? a * b)
  | OP_ADD => negb (conv (a + b) =? a + b)
  | OP_SUB => negb (conv (a - b) =? a - b)
  | _ => true
  end.

(** The type of the result: int, or the operand type with more bits. *)
Definition overflow_type (left right : option symbol) : option symbol :=
  let type := int_ctype in
  let type := if type_positive_bits left >? type_positive_bits type
              then left else type in
  if type_positive_bits right >? type_positive_bits type then right else type.

Definition sval_binop_overflows (left : sval_t) (op : op_tok) (right : sval_t) : bool :=
  let type := overflow_type (sv_type left) (sv_type right) in
  match op with
  | SPECIAL_LEFTSHIFT =>
    sval_cmp left (sval_binop (sval_type_max type) (invert_op op) right) >? 0
  | OP_MUL | OP_ADD | OP_SUB =>
    let bits := type_positive_bits type in
    if bits =? 31 then type_overflow (scast 32) (value left) op (value right)
    else if bits =? 32 then type_overflow (ucast 32) (value left) op (value right)
    else if bits =? 63 then type_overflow s64 (value left) op (value right)
    else if bits =? 64 then type_overflow u64 (value left) op (value right)
    else false
  | _ => false
  end.

Definition sval_binop_overflows_no_sign (left : sval_t) (op : op_tok)
    (right : sval_t) : bool :=
  let type := sv_type left in
  let type := if type_positive_bits (sv_type right) >? type_positive_bits type
              then sv_type right else type in
  let type := if type_positive_bits type <=? 31 then uint_ctype else ullong_ctype in
  sval_binop_overflows (sval_cast type left) op (sval_cast type right).

End sval.

(** ** Bit scans *)

(** [for (i = 0; i < 64; i++) if (!(uvalue & (1ULL << i))) return i; return i;] *)
Fixpoint first_zero_from (n : nat) (i : Z) (v : Z) : Z :=
  match n with
  | O => i
  | S m => if Z.testbit v i then first_zero_from m (i + 1) v else i
  end.

Definition find_first_zero_bit (v : Z) : Z := first_zero_from 64 0 v.

(** [while (uvalue) { uvalue >>= 1; high_bit++; }]; 64 rounds empty a 64 bit
    value. *)
Fixpoint fls_loop (fuel : nat) (v : Z) (high_bit : Z) : Z :=
  match fuel with
  | O => high_bit
  | S f => if v =? 0 then high_bit else fls_loop f (Z.shiftr v 1) (high_bit + 1)
  end.

Definition sm_fls64 (v : Z) : Z := fls_loop 64 v 0.

Definition fls_mask (v : Z) : Z :=
  let high_bit := sm_fls64 v in
  if high_bit =? 0 then 0 else Z.shiftr ULLONG_MAX (64 - high_bit).

Definition sval_fls_mask (sval : sval_t) : Z := fls_mask (uvalue sval).
