(* ===== verification/SvalFacts.v ===== *)
(** * Facts about values

    The number an [sval_t] stands for, well-formed values, and what casts,
    comparisons, bounds and operators of smatch_sval.c do to these numbers. *)
From S2P Require Import Prelude Types Tokens Sval.

Section facts.
Context `{Tgt : Target} `{Fp : FloatOps}.

(** The number a value stands for. *)
Definition num (s : sval_t) : Z :=
  if type_unsigned (sv_type s) then uvalue s else value s.

(** [s] is a canonical value of type [t]. *)
Record wf_sval (t : option symbol) (s : sval_t) : Prop := {
  wf_type : sv_type s = t;
  wf_s64 : is_s64 (value s);
  wf_num : in_type t (num s)
}.

(** The value of type [t] that stands for [z]. *)
Definition sval_of (t : option symbol) (z : Z) : sval_t := Sval t (s64 z).

(** Conversion of a number to a type, as C defines it. *)
Definition wrap (t : option symbol) (z : Z) : Z :=
  if type_bits t =? 1 then (if z =? 0 then 0 else 1)
  else if type_unsigned t then ucast (type_bits t) z else scast (type_bits t) z.

Lemma num_sval_of t z : std_type t -> in_type t z -> num (sval_of t z) = z.
Proof.
  intros Ht Hz. unfold in_type in Hz. unfold num, uvalue, sval_of; simpl.
  std_cases Ht; rewrite Hu; rewrite ?u64_s64; wrap_lia.
Qed.

Lemma wf_sval_of t z : std_type t -> in_type t z -> wf_sval t (sval_of t z).
Proof.
  intros Ht Hz. split; [done|apply s64_range|]. by rewrite num_sval_of.
Qed.

Lemma wf_sval_eq t s : std_type t -> wf_sval t s -> s = sval_of t (num s).
Proof.
  intros Ht [Hty Hs Hn]. destruct s as [ty v]; simpl in *; subst ty.
  unfold sval_of, num, uvalue; simpl. f_equal.
  destruct (type_unsigned t); rewrite ?s64_u64; by rewrite s64_small.
Qed.

Lemma num_inj t a b : std_type t -> wf_sval t a -> wf_sval t b -> num a = num b -> a = b.
Proof.
  intros Ht Ha Hb E. rewrite (wf_sval_eq t a Ht Ha), (wf_sval_eq t b Ht Hb). by rewrite E.
Qed.

Lemma num_u64 t s : wf_sval t s -> u64 (num s) = uvalue s.
Proof. intros _. unfold num, uvalue. destruct (type_unsigned _); by rewrite ?u64_u64. Qed.

Lemma num_mod_value s : u64 (num s) = u64 (value s).
Proof. unfold num, uvalue. destruct (type_unsigned _); by rewrite ?u64_u64. Qed.

Lemma num_bound t s : std_type t -> wf_sval t s -> - two63 <= num s < two64.
Proof.
  intros Ht [_ _ Hn]. unfold in_type in Hn. std_cases Ht; unfold two63, two64; lia.
Qed.

(** ** Casts *)

Lemma cast_type_std t : std_type t -> cast_type t = t.
Proof. intros Ht. by destruct (std_type_some t Ht) as [s ->]. Qed.

Lemma sval_cast_int t s :
  std_type t -> type_is_fp (sv_type s) = false -> sval_cast t s = cast_int t s.
Proof.
  intros Ht Hs. unfold sval_cast. by rewrite (cast_type_std t Ht), (std_not_fp _ Ht), Hs.
Qed.

Lemma sval_unsigned_std t v : std_type t -> sval_unsigned (Sval t v) = type_unsigned t.
Proof.
  intros Ht. unfold sval_unsigned; simpl. destruct (std_type_some t Ht) as [s ->].
  unfold type_unsigned. by destruct (is_ptr_type (Some s)).
Qed.

Lemma sval_unsigned_wf t s : std_type t -> sv_type s = t -> sval_unsigned s = type_unsigned t.
Proof. destruct s as [ty v]; simpl; intros Ht ->. by apply sval_unsigned_std. Qed.

Lemma cast_int_std t s :
  std_type t -> is_s64 (value s) ->
  wf_sval t (cast_int t s) /\ num (cast_int t s) = wrap t (value s).
Proof.
  intros Ht Hs.
  assert (sval_unsigned (Sval t 0) = type_unsigned t) as E by by apply sval_unsigned_std.
  assert (num (cast_int t s) = wrap t (value s) /\ is_s64 (value (cast_int t s)) /\
          in_type t (wrap t (value s))) as (H1 & H2 & H3).
  { unfold num, cast_int, wrap, sval_bits, uvalue, in_type in *; simpl. rewrite E.
    std_cases Ht; rewrite Hu, Hw; simpl; repeat case_if; wrap_lia. }
  split; [|done]. split; [done|done|]. by rewrite H1.
Qed.

Lemma sval_cast_wf t s :
  std_type t -> type_is_fp (sv_type s) = false -> is_s64 (value s) ->
  wf_sval t (sval_cast t s).
Proof. intros Ht Hf Hs. rewrite sval_cast_int by done. by apply cast_int_std. Qed.

Lemma wrap_u64 t z z' : std_type t -> u64 z = u64 z' -> type_bits t <> 1 -> wrap t z = wrap t z'.
Proof.
  intros Ht E Hb. unfold wrap. rewrite (proj2 (Z.eqb_neq _ _) Hb).
  std_cases Ht; try done; rewrite Hu, Hw; wrap_lia.
Qed.

(** The number after a cast is the number before it, converted. *)
Lemma num_sval_cast t u s :
  std_type t -> std_type u -> wf_sval u s -> num (sval_cast t s) = wrap t (num s).
Proof.
  intros Ht Hu [Hty Hs Hn].
  rewrite sval_cast_int by (rewrite ?Hty; auto using std_not_fp).
  rewrite (proj2 (cast_int_std t s Ht Hs)).
  pose proof (num_mod_value s) as E. pose proof (num_bound u s Hu (Build_wf_sval _ _ Hty Hs Hn)) as B.
  destruct (Z.eq_dec (type_bits t) 1) as [H1|H1].
  - unfold wrap. rewrite H1; simpl.
    assert (value s = 0 <-> num s = 0) by wrap_lia.
    destruct (Z.eqb_spec (value s) 0), (Z.eqb_spec (num s) 0); tauto.
  - by apply wrap_u64.
Qed.

Lemma sval_cast_wf' t u s :
  std_type t -> std_type u -> wf_sval u s -> wf_sval t (sval_cast t s).
Proof.
  intros Ht Hu [Hty Hs Hn]. apply sval_cast_wf; [done| |done].
  rewrite Hty. by apply std_not_fp.
Qed.

Lemma wrap_id t z : std_type t -> in_type t z -> wrap t z = z.
Proof.
  intros Ht Hz. unfold wrap, in_type in *.
  std_cases Ht; rewrite Hu, Hw; simpl; repeat case_if; zbool; wrap_lia.
Qed.

Lemma wrap_in_type t z : std_type t -> in_type t (wrap t z).
Proof.
  intros Ht. unfold wrap, in_type.
  std_cases Ht; rewrite Hu, Hw; simpl; repeat case_if; wrap_lia.
Qed.

(** A cast keeps a number that is in the new type. *)
Lemma num_sval_cast_in t u s :
  std_type t -> std_type u -> wf_sval u s -> in_type t (num s) ->
  num (sval_cast t s) = num s.
Proof. intros. rewrite (num_sval_cast t u) by done. by apply wrap_id. Qed.

(** Casting to the type a value already has changes nothing. *)
Lemma sval_cast_id t s : std_type t -> wf_sval t s -> sval_cast t s = s.
Proof.
  intros Ht Hs. eapply (num_inj t); eauto using sval_cast_wf'.
  apply (num_sval_cast_in t t); auto. apply Hs.
Qed.

Lemma sval_cast_of t u z :
  std_type t -> std_type u -> in_type u z ->
  sval_cast t (sval_of u z) = sval_of t (wrap t z).
Proof.
  intros Ht Hu Hz. pose proof (wf_sval_of u z Hu Hz) as Hwf.
  apply (num_inj t); eauto using sval_cast_wf'.
  - apply wf_sval_of; auto using wrap_in_type.
  - rewrite (num_sval_cast t u) by done. rewrite !num_sval_of; auto using wrap_in_type.
Qed.

(** ** Bounds of a type *)

Lemma bounds_type_std t : std_type t -> bounds_type t = t.
Proof.
  intros Ht. pose proof (std_bits_range t Ht). destruct (std_type_some t Ht) as [s ->].
  unfold bounds_type. by rewrite (proj2 (Z.eqb_neq _ 0)) by lia.
Qed.

Lemma tmin_in_type t : std_type t -> in_type t (tmin t).
Proof. intros Ht. unfold in_type. std_cases Ht; lia. Qed.
Lemma tmax_in_type t : std_type t -> in_type t (tmax t).
Proof. intros Ht. unfold in_type. std_cases Ht; lia. Qed.

Lemma sval_type_min_std t : std_type t -> sval_type_min t = sval_of t (tmin t).
Proof.
  intros Ht. unfold sval_type_min. rewrite (std_not_fp _ Ht), (bounds_type_std t Ht).
  rewrite (type_positive_bits_std t Ht).
  assert ((type_unsigned t || is_ptr_type t) = type_unsigned t) as ->.
  { destruct (std_type_some t Ht) as [s ->]. unfold type_unsigned.
    destruct (is_ptr_type (Some s)); by rewrite ?orb_false_r. }
  std_cases Ht; rewrite Hu, Hmin, ?Hw; reflexivity.
Qed.

Lemma sval_type_max_std t : std_type t -> sval_type_max t = sval_of t (tmax t).
Proof.
  intros Ht. unfold sval_type_max. rewrite (std_not_fp _ Ht), (bounds_type_std t Ht).
  rewrite (type_positive_bits_std t Ht).
  std_cases Ht; rewrite Hu, Hw, Hmax; reflexivity.
Qed.

Lemma wf_type_min t : std_type t -> wf_sval t (sval_type_min t).
Proof. intros Ht. rewrite sval_type_min_std by done. apply wf_sval_of; auto using tmin_in_type. Qed.
Lemma wf_type_max t : std_type t -> wf_sval t (sval_type_max t).
Proof. intros Ht. rewrite sval_type_max_std by done. apply wf_sval_of; auto using tmax_in_type. Qed.
Lemma num_type_min t : std_type t -> num (sval_type_min t) = tmin t.
Proof. intros Ht. rewrite sval_type_min_std by done. apply num_sval_of; auto using tmin_in_type. Qed.
Lemma num_type_max t : std_type t -> num (sval_type_max t) = tmax t.
Proof. intros Ht. rewrite sval_type_max_std by done. apply num_sval_of; auto using tmax_in_type. Qed.

Lemma sval_is_min_spec t s : std_type t -> wf_sval t s -> sval_is_min s = (num s =? tmin t).
Proof.
  intros Ht [Hty Hs Hn]. unfold sval_is_min, sval_is_fp.
  rewrite Hty, (std_not_fp _ Ht), (sval_type_min_std t Ht).
  rewrite (sval_unsigned_wf t s Ht Hty).
  unfold num in *. rewrite Hty in *. unfold sval_of, uvalue, in_type in *; simpl.
  std_cases Ht; rewrite Hu, Hmin in *; try reflexivity;
    apply eq_true_iff_eq; rewrite Z.leb_le, Z.eqb_eq; wrap_lia.
Qed.

Lemma sval_is_max_spec t s : std_type t -> wf_sval t s -> sval_is_max s = (num s =? tmax t).
Proof.
  intros Ht [Hty Hs Hn]. unfold sval_is_max, sval_is_fp.
  rewrite Hty, (std_not_fp _ Ht), (sval_type_max_std t Ht).
  rewrite (sval_unsigned_wf t s Ht Hty).
  unfold num in *. rewrite Hty in *. unfold sval_of, uvalue, in_type in *; simpl.
  rewrite !Z.geb_leb.
  std_cases Ht; rewrite Hu, Hmin, Hmax in *; 
    apply eq_true_iff_eq; rewrite Z.leb_le, Z.eqb_eq; wrap_lia.
Qed.

Lemma sval_is_negative_spec t s :
  std_type t -> wf_sval t s -> sval_is_negative s = (num s <? 0).
Proof.
  intros Ht [Hty Hs Hn]. unfold sval_is_negative, num, uvalue in *. rewrite Hty in *.
  destruct (type_unsigned t); [|done].
  symmetry; apply Z.ltb_ge. pose proof (u64_range (value s)); unfold is_u64 in *; lia.
Qed.

Lemma sval_is_positive_spec t s :
  std_type t -> wf_sval t s -> sval_is_positive s = (0 <=? num s).
Proof.
  intros Ht Hs. unfold sval_is_positive. rewrite (sval_is_negative_spec t) by done.
  by rewrite Z.leb_antisym.
Qed.

(** ** Comparison *)

Lemma int_ctype_std : std_type int_ctype.
Proof. split; try reflexivity. left. unfold std_width. auto. Qed.

(** The type a comparison is done in is standard, and it is [int] or the
    operand type with more positive bits. *)
Lemma cmp_type_cases t u a b :
  std_type t -> std_type u -> sv_type a = t -> sv_type b = u ->
  let c := cmp_type a b in
  c = (if type_positive_bits u >? type_positive_bits t then u else t) /\ 32 <= type_bits c
  \/ c = int_ctype /\ type_bits t < 32 /\ type_bits u < 32.
Proof.
  intros Ht Hu <- <- c. subst c. unfold cmp_type, sval_positive_bits.
  pose proof (type_positive_bits_std _ Ht) as Pt. pose proof (type_positive_bits_std _ Hu) as Pu.
  destruct (std_bits_cases _ Ht) as [[Su Bt]|Bt], (std_bits_cases _ Hu) as [[Su' Bu]|Bu];
    unfold std_width in *;
    destruct (type_unsigned (sv_type a)), (type_unsigned (sv_type b)); try done;
    destruct (Z.gtb_spec (type_positive_bits (sv_type b)) (type_positive_bits (sv_type a)));
    repeat case_if; zbool; try (left; split; [done|lia]); right; repeat split; lia.
Qed.

Lemma cmp_type_std t u a b :
  std_type t -> std_type u -> sv_type a = t -> sv_type b = u -> std_type (cmp_type a b).
Proof.
  intros Ht Hu Ha Hb. destruct (cmp_type_cases t u a b Ht Hu Ha Hb) as [[-> _]|[-> _]].
  - by destruct (_ >? _).
  - apply int_ctype_std.
Qed.

(** A comparison converts both numbers to the common type. *)
Lemma sval_cmp_wrap t u a b :
  std_type t -> std_type u -> wf_sval t a -> wf_sval u b ->
  let c := cmp_type a b in
  sval_cmp a b = cmpZ (wrap c (num a)) (wrap c (num b)).
Proof.
  intros Ht Hu Ha Hb c. pose proof (cmp_type_std t u a b Ht Hu (wf_type _ _ Ha) (wf_type _ _ Hb)) as Hc.
  fold c in Hc. unfold sval_cmp, sval_is_fp.
  rewrite (wf_type _ _ Ha), (wf_type _ _ Hb), (std_not_fp _ Ht), (std_not_fp _ Hu); simpl.
  fold c. rewrite <- (num_sval_cast c t a), <- (num_sval_cast c u b) by done.
  unfold num.
  rewrite (wf_type _ _ (sval_cast_wf' c t a Hc Ht Ha)), (wf_type _ _ (sval_cast_wf' c u b Hc Hu Hb)).
  by destruct (type_unsigned c).
Qed.

(** Values of one type compare as the numbers they stand for. *)
Lemma sval_cmp_spec t a b :
  std_type t -> wf_sval t a -> wf_sval t b -> sval_cmp a b = cmpZ (num a) (num b).
Proof.
  intros Ht Ha Hb. rewrite (sval_cmp_wrap t t) by done.
  destruct (cmp_type_cases t t a b Ht Ht (wf_type _ _ Ha) (wf_type _ _ Hb)) as [[E _]|[E [B _]]];
    rewrite E.
  - assert ((if type_positive_bits t >? type_positive_bits t then t else t) = t) as ->
      by by destruct (_ >? _).
    rewrite !wrap_id; auto; apply Ha || apply Hb.
  - assert (forall z, in_type t z -> in_type int_ctype z) as I.
    { unfold in_type. intros z Hz. change (tmin int_ctype) with (-2147483648).
      change (tmax int_ctype) with 2147483647. std_cases Ht; lia. }
    rewrite !wrap_id; auto using int_ctype_std; apply I; apply Ha || apply Hb.
Qed.

(** The comparison tests of the code, on values of one type. *)
Lemma sval_cmp_ltb t a b :
  std_type t -> wf_sval t a -> wf_sval t b -> (sval_cmp a b <? 0) = (num a <? num b).
Proof. intros. by rewrite (sval_cmp_spec t), cmpZ_lt. Qed.
Lemma sval_cmp_leb t a b :
  std_type t -> wf_sval t a -> wf_sval t b -> (sval_cmp a b <=? 0) = (num a <=? num b).
Proof. intros. by rewrite (sval_cmp_spec t), cmpZ_le. Qed.
Lemma sval_cmp_gtb t a b :
  std_type t -> wf_sval t a -> wf_sval t b -> (sval_cmp a b >? 0) = (num b <? num a).
Proof. intros. by rewrite (sval_cmp_spec t), cmpZ_gt. Qed.
Lemma sval_cmp_geb t a b :
  std_type t -> wf_sval t a -> wf_sval t b -> (sval_cmp a b >=? 0) = (num b <=? num a).
Proof. intros. by rewrite (sval_cmp_spec t), cmpZ_ge. Qed.
Lemma sval_cmp_eqb t a b :
  std_type t -> wf_sval t a -> wf_sval t b -> (sval_cmp a b =? 0) = (num a =? num b).
Proof. intros. by rewrite (sval_cmp_spec t), cmpZ_eq. Qed.

(** The bounds of a type by its positive bits. *)
Lemma tmax_positive_bits t : std_type t -> tmax t = 2 ^ type_positive_bits t - 1.
Proof.
  intros Ht. rewrite type_positive_bits_std by done. unfold tmax. by destruct (type_unsigned t).
Qed.
Lemma tmin_positive_bits t :
  std_type t -> tmin t = if type_unsigned t then 0 else - 2 ^ type_positive_bits t.
Proof.
  intros Ht. rewrite type_positive_bits_std by done. unfold tmin. by destruct (type_unsigned t).
Qed.
Lemma positive_bits_nonneg t : std_type t -> 0 <= type_positive_bits t.
Proof.
  intros Ht. rewrite type_positive_bits_std by done. pose proof (std_bits_range t Ht).
  destruct (type_unsigned t); lia.
Qed.

(** A type with at least as many positive bits holds every number of another
    that is nonnegative, and all of them when it is signed. *)
Lemma in_type_mono t c z :
  std_type t -> std_type c -> type_positive_bits t <= type_positive_bits c ->
  in_type t z -> 0 <= z \/ type_unsigned c = false -> in_type c z.
Proof.
  intros Ht Hc Hle Hz Hs. unfold in_type in *.
  rewrite tmax_positive_bits, tmin_positive_bits in * by done.
  pose proof (positive_bits_nonneg t Ht).
  pose proof (Z.pow_le_mono_r 2 (type_positive_bits t) (type_positive_bits c)).
  destruct (type_unsigned t), (type_unsigned c); destruct Hs; try done; lia.
Qed.

Lemma cmp_type_positive_bits t u a b :
  std_type t -> std_type u -> sv_type a = t -> sv_type b = u ->
  type_positive_bits t <= type_positive_bits (cmp_type a b) /\
  type_positive_bits u <= type_positive_bits (cmp_type a b).
Proof.
  intros Ht Hu Ha Hb. pose proof (cmp_type_cases t u a b Ht Hu Ha Hb) as C. simpl in C.
  destruct C as [[-> _]|[-> [B B']]].
  - destruct (Z.gtb_spec (type_positive_bits u) (type_positive_bits t)); lia.
  - change (type_positive_bits int_ctype) with 31.
    rewrite !type_positive_bits_std by done. destruct (type_unsigned t), (type_unsigned u); 
      destruct (std_bits_cases _ Ht) as [[_ W]|W], (std_bits_cases _ Hu) as [[_ W']|W'];
      unfold std_width in *; lia.
Qed.

(** Values of two types compare as the numbers they stand for, unless a
    negative number is converted to an unsigned common type. *)
Lemma sval_cmp_exact t u a b :
  std_type t -> std_type u -> wf_sval t a -> wf_sval u b ->
  0 <= num a /\ 0 <= num b \/ type_unsigned (cmp_type a b) = false ->
  sval_cmp a b = cmpZ (num a) (num b).
Proof.
  intros Ht Hu Ha Hb Hs. rewrite (sval_cmp_wrap t u) by done.
  pose proof (wf_type _ _ Ha) as Ea. pose proof (wf_type _ _ Hb) as Eb.
  pose proof (cmp_type_std t u a b Ht Hu Ea Eb) as Hc.
  destruct (cmp_type_positive_bits t u a b Ht Hu Ea Eb).
  rewrite !wrap_id; auto.
  - apply (in_type_mono u); auto; [apply Hb|tauto].
  - apply (in_type_mono t); auto; [apply Ha|tauto].
Qed.

(** ** Fitting into a type *)

Lemma num_signed t s : sv_type s = t -> type_unsigned t = false -> num s = value s.
Proof. unfold num. by intros -> ->. Qed.
Lemma num_unsigned t s : sv_type s = t -> type_unsigned t = true -> num s = uvalue s.
Proof. unfold num. by intros -> ->. Qed.

(** A nonnegative number is its 64 bits. *)
Lemma num_uvalue t s : std_type t -> wf_sval t s -> 0 <= num s -> uvalue s = num s.
Proof.
  intros Ht Hs H. rewrite <- (num_u64 t s Hs). apply u64_small.
  pose proof (num_bound t s Ht Hs). unfold is_u64. lia.
Qed.

Lemma sval_too_high_spec t u s :
  std_type t -> std_type u -> wf_sval u s ->
  sval_too_high t s = (tmax t <? num s).
Proof.
  intros Ht Hu Hs. unfold sval_too_high. rewrite (sval_is_negative_spec u) by done.
  assert (0 <= tmax t) by (std_cases Ht; lia).
  destruct (Z.ltb_spec (num s) 0).
  - symmetry; apply Z.ltb_ge. lia.
  - rewrite Z.gtb_ltb, (num_uvalue u s) by done.
    rewrite (num_uvalue t) by (auto using wf_type_max; rewrite num_type_max; done).
    by rewrite num_type_max.
Qed.

Lemma sval_too_low_spec t u s :
  std_type t -> std_type u -> wf_sval u s ->
  sval_too_low t s = (num s <? tmin t).
Proof.
  intros Ht Hu Hs. unfold sval_too_low.
  rewrite (sval_is_negative_spec u) by done.
  rewrite (wf_type _ _ Hs), (std_signed _ Ht), (std_signed _ Hu).
  rewrite (sval_unsigned_wf u s Hu (wf_type _ _ Hs)).
  pose proof (wf_type_min t Ht) as Hm. pose proof (num_type_min t Ht) as Nm.
  destruct (type_unsigned t) eqn:Et.
  - assert (tmin t = 0) as E0 by (unfold tmin; by rewrite Et). rewrite E0 in *.
    destruct (Z.ltb_spec (num s) 0); simpl; [done|].
    assert (value (sval_type_min t) = 0) as -> by by rewrite (sval_type_min_std t Ht), E0.
    assert (negb (type_unsigned u) && (value s <? 0) = false) as ->.
    { destruct (type_unsigned u) eqn:Eu; [done|]. simpl. apply Z.ltb_ge.
      by rewrite <- (num_signed u s (wf_type _ _ Hs) Eu). }
    rewrite (sval_cmp_exact u t), Nm, cmpZ_lt by (auto; left; lia). by apply Z.ltb_ge.
  - simpl. rewrite andb_false_r.
    assert (tmin t < 0) by (unfold tmin; rewrite Et; pose proof (std_bits_range t Ht); lia).
    destruct (type_unsigned u) eqn:Eu; simpl.
    + symmetry; apply Z.ltb_ge. rewrite (num_unsigned u) by (try done; apply Hs).
      pose proof (u64_range (value s)). unfold uvalue, is_u64 in *. lia.
    + rewrite <- (num_signed u s (wf_type _ _ Hs) Eu).
      rewrite <- (num_signed t _ (wf_type _ _ Hm) Et), Nm.
      destruct (Z.ltb_spec (num s) (tmin t)); [done|].
      rewrite (sval_cmp_exact u t), Nm, cmpZ_lt; [by apply Z.ltb_ge|done..|].
      right. pose proof (cmp_type_cases u t s (sval_type_min t) Hu Ht (wf_type _ _ Hs) (wf_type _ _ Hm)) as C.
      destruct C as [[-> _]|[-> _]]; [by destruct (_ >? _)|done].
Qed.

(** sval_fits() decides whether the number is one of the type. *)
Lemma sval_fits_spec t u s :
  std_type t -> std_type u -> wf_sval u s ->
  sval_fits t s = true <-> in_type t (num s).
Proof.
  intros Ht Hu Hs. unfold sval_fits.
  rewrite (std_not_fp _ Ht), (wf_type _ _ Hs), (std_not_fp _ Hu).
  rewrite (sval_too_low_spec t u), (sval_too_high_spec t u) by done. unfold in_type.
  destruct (Z.ltb_spec (num s) (tmin t)), (Z.ltb_spec (tmax t) (num s));
    split; intros; (done || lia).
Qed.

(** ** Operators *)

(** The exact result of an operator the overflow check covers. *)
Definition arith (op : op_tok) (a b : Z) : Z :=
  match op with
  | OP_ADD => a + b
  | OP_SUB => a - b
  | OP_MUL => a * b
  | _ => 0
  end.

Definition arith_op (op : op_tok) : Prop := op = OP_ADD \/ op = OP_SUB \/ op = OP_MUL.

Lemma arith_u64 op a b a' b' :
  u64 a = u64 a' -> u64 b = u64 b' -> u64 (arith op a b) = u64 (arith op a' b').
Proof.
  unfold u64. intros Ha Hb. destruct op; try reflexivity; cbn [arith].
  - by rewrite Z.mul_mod, Ha, Hb, <- Z.mul_mod by done.
  - by rewrite Z.add_mod, Ha, Hb, <- Z.add_mod by done.
  - by rewrite Zminus_mod, Ha, Hb, <- Zminus_mod.
Qed.

(** The common type of two integer operands. *)
Lemma promoted_overflow_type t u :
  type_is_ptr t = false -> type_is_ptr u = false ->
  get_promoted_type t u = overflow_type t u.
Proof. intros Ht Hu. unfold get_promoted_type, overflow_type. by rewrite Ht, Hu. Qed.

Lemma overflow_type_std t u :
  std_type t -> std_type u ->
  std_type (overflow_type t u) /\ 32 <= type_bits (overflow_type t u) /\
  type_positive_bits t <= type_positive_bits (overflow_type t u) /\
  type_positive_bits u <= type_positive_bits (overflow_type t u).
Proof.
  intros Ht Hu. unfold overflow_type. change (type_positive_bits int_ctype) with 31.
  rewrite !(type_positive_bits_std t), !(type_positive_bits_std u) by done.
  destruct (std_bits_cases _ Ht) as [[St W]|W], (std_bits_cases _ Hu) as [[Su W']|W'];
    unfold std_width in *;
    destruct (type_unsigned t) eqn:Et, (type_unsigned u) eqn:Eu; try done;
    repeat case_if; zbool; rewrite ?(type_positive_bits_std t), ?(type_positive_bits_std u), ?Et, ?Eu in * by done;
    change (type_positive_bits int_ctype) with 31 in *;
    change (type_bits int_ctype) with 32 in *;
    (split; [done || apply int_ctype_std|split; [|split]; lia]).
Qed.

Lemma overflow_type_not_ptr t u :
  type_is_ptr t = false -> type_is_ptr u = false -> type_is_ptr (overflow_type t u) = false.
Proof. intros Ht Hu. unfold overflow_type. by repeat case_if. Qed.

(** An integer addition, subtraction or multiplication is the exact result
    converted to the promoted type. *)
Lemma sval_binop_arith t u a b op :
  std_type t -> std_type u -> type_is_ptr t = false -> type_is_ptr u = false ->
  wf_sval t a -> wf_sval u b -> arith_op op ->
  let c := overflow_type t u in
  wf_sval c (sval_binop a op b) /\
  num (sval_binop a op b) = wrap c (arith op (num a) (num b)).
Proof.
  intros Ht Hu Pt Pu Ha Hb Hop c.
  destruct (overflow_type_std t u Ht Hu) as (Hc & Bc & _). fold c in Hc, Bc.
  unfold sval_binop. rewrite (wf_type _ _ Ha), (wf_type _ _ Hb).
  rewrite promoted_overflow_type by done. fold c.
  pose proof (overflow_type_not_ptr t u Pt Pu) as Pc. fold c in Pc. rewrite Pc.
  set (r := if type_unsigned c then _ else _).
  assert (sv_type r = c /\ is_s64 (value r) /\ u64 (value r) = u64 (arith op (num a) (num b)))
    as (E1 & E2 & E3).
  { pose proof (num_mod_value a) as Na. pose proof (num_mod_value b) as Nb.
    subst r. unfold sval_binop_unsigned, sval_binop_signed, uvalue.
    destruct (type_unsigned c), Hop as [->|[->| ->]]; simpl;
      (split; [done|split; [apply s64_range|rewrite u64_s64]]).
    all: (apply (arith_u64 OP_SUB) || apply (arith_u64 OP_MUL) || apply (arith_u64 OP_ADD));
      rewrite ?u64_u64; congruence. }
  assert (type_is_fp (sv_type r) = false) by (rewrite E1; by apply std_not_fp).
  split; [by apply sval_cast_wf|].
  rewrite sval_cast_int by done. rewrite (proj2 (cast_int_std c r Hc E2)).
  apply wrap_u64; [done|done|lia].
Qed.

Lemma type_overflow_arith conv a op b :
  arith_op op ->
  type_overflow conv a op b =
  negb (conv (arith op (conv a) (conv b)) =? arith op (conv a) (conv b)).
Proof. by intros [->|[->| ->]]. Qed.

(** The overflow check converts the operands to the common type and says
    whether the exact result is one of its numbers. *)
Lemma sval_binop_overflows_spec t u a b op :
  std_type t -> std_type u -> wf_sval t a -> wf_sval u b -> arith_op op ->
  let c := overflow_type t u in
  sval_binop_overflows a op b = false <->
  in_type c (arith op (wrap c (num a)) (wrap c (num b))).
Proof.
  intros Ht Hu Ha Hb Hop c.
  destruct (overflow_type_std t u Ht Hu) as (Hc & Bc & _). fold c in Hc, Bc.
  unfold sval_binop_overflows. rewrite (wf_type _ _ Ha), (wf_type _ _ Hb). fold c.
  rewrite (type_positive_bits_std c Hc).
  assert (type_bits c <> 1) as B1 by lia.
  rewrite (wrap_u64 c (num a) (value a) Hc (num_mod_value a) B1).
  rewrite (wrap_u64 c (num b) (value b) Hc (num_mod_value b) B1).
  unfold wrap. rewrite (proj2 (Z.eqb_neq _ 1)) by lia. unfold in_type.
  assert (forall x y : bool, match op with
            | SPECIAL_LEFTSHIFT => x | OP_MUL | OP_ADD | OP_SUB => y | _ => false end = y) as Em
    by (intros; by destruct Hop as [->|[->| ->]]).
  rewrite Em. clear Em.
  std_cases Hc; try lia; rewrite Hu0, Hw, Hmin, Hmax; simpl.
  all: rewrite type_overflow_arith by done; rewrite negb_false_iff, Z.eqb_eq.
  all: try (change (ucast 64) with u64; change (scast 64) with s64).
  all: set (x := arith op _ _); clearbody x; wrap_lia.
Qed.

(** Without overflow the result is exact. *)
Lemma sval_binop_no_overflow t u a b op :
  std_type t -> std_type u -> type_is_ptr t = false -> type_is_ptr u = false ->
  wf_sval t a -> wf_sval u b -> arith_op op ->
  let c := overflow_type t u in
  in_type c (num a) -> in_type c (num b) ->
  sval_binop_overflows a op b = false ->
  num (sval_binop a op b) = arith op (num a) (num b).
Proof.
  intros Ht Hu Pt Pu Ha Hb Hop c Ia Ib Ho.
  destruct (overflow_type_std t u Ht Hu) as (Hc & _). fold c in Hc.
  apply (sval_binop_overflows_spec t u) in Ho; [|done..]. fold c in Ho.
  rewrite !wrap_id in Ho by done.
  rewrite (proj2 (sval_binop_arith t u a b op Ht Hu Pt Pu Ha Hb Hop)). by apply wrap_id.
Qed.
End facts.

(** ** Bit scans *)

Lemma fls_loop_spec fuel v h :
  0 <= v < 2 ^ Z.of_nat fuel ->
  fls_loop fuel v h = h + (if v =? 0 then 0 else Z.log2 v + 1).
Proof.
  revert v h. induction fuel as [|fuel IH]; intros v h Hv; simpl.
  - assert (v = 0) as -> by (change (2 ^ Z.of_nat 0) with 1 in Hv; lia). simpl. lia.
  - destruct (Z.eqb_spec v 0); [lia|].
    rewrite Nat2Z.inj_succ, Z.pow_succ_r in Hv by lia.
    rewrite IH by (rewrite Z.shiftr_div_pow2 by lia; change (2 ^ 1) with 2; Z.div_mod_to_equations; lia).
    rewrite Z.log2_shiftr by lia.
    destruct (Z.eqb_spec (Z.shiftr v 1) 0) as [E|E].
    + rewrite Z.shiftr_div_pow2 in E by lia. change (2 ^ 1) with 2 in E.
      assert (v = 1) as -> by (Z.div_mod_to_equations; lia). simpl. lia.
    + assert (1 <= Z.log2 v).
      { apply Z.log2_le_pow2; [lia|]. rewrite Z.shiftr_div_pow2 in E by lia.
        change (2 ^ 1) with 2 in *. Z.div_mod_to_equations; lia. }
      lia.
Qed.

Lemma sm_fls64_spec v : is_u64 v -> sm_fls64 v = if v =? 0 then 0 else Z.log2 v + 1.
Proof. intros Hv. unfold sm_fls64. rewrite fls_loop_spec; [lia|exact Hv]. Qed.

Lemma bits_used_from_spec n v :
  0 <= v < 2 ^ Z.of_nat n -> bits_used_from n v = if v =? 0 then 0 else Z.log2 v + 1.
Proof.
  induction n as [|n IH]; intros Hv; cbn [bits_used_from].
  - change (2 ^ Z.of_nat 0) with 1 in Hv. assert (v = 0) as -> by lia. done.
  - rewrite Nat2Z.inj_succ, Z.pow_succ_r in Hv by lia.
    destruct (Z.testbit v (Z.of_nat n)) eqn:E.
    + assert (v <> 0) by (intros E0; by rewrite E0, Z.testbit_0_l in E).
      rewrite (proj2 (Z.eqb_neq v 0)) by done.
      assert (Z.log2 v = Z.of_nat n); [|lia].
      apply Z.log2_unique; [lia|]. split; [|rewrite Z.pow_succ_r by lia; lia].
      destruct (Z.le_gt_cases (2 ^ Z.of_nat n) v); [done|].
      rewrite Z.bits_above_log2 in E; [done|lia|]. apply Z.log2_lt_pow2; lia.
    + apply IH. split; [lia|].
      destruct (Z.lt_ge_cases v (2 ^ Z.of_nat n)) as [?|G]; [done|].
      exfalso.
      assert (Z.testbit v (Z.of_nat n) = true); [|congruence].
      assert (Z.log2 v = Z.of_nat n) as <-.
      { apply Z.log2_unique; [lia|]. rewrite Z.pow_succ_r by lia. lia. }
      apply Z.bit_log2. lia.
Qed.

(** [fls_mask v] is the least [2^k - 1] that is at least [v]. *)
Lemma fls_mask_spec v :
  is_u64 v ->
  fls_mask v = (if v =? 0 then 0 else 2 ^ (Z.log2 v + 1) - 1).
Proof.
  intros Hv. unfold fls_mask. rewrite sm_fls64_spec by done.
  destruct (Z.eqb_spec v 0); [done|].
  assert (0 <= Z.log2 v <= 63).
  { split; [apply Z.log2_nonneg|]. assert (Z.log2 v < 64); [|lia].
    apply Z.log2_lt_pow2; unfold is_u64, two64 in Hv; lia. }
  rewrite (proj2 (Z.eqb_neq _ 0)) by lia.
  change ULLONG_MAX with (Z.ones 64). rewrite Z.shiftr_div_pow2 by lia.
  rewrite Z.ones_div_pow2 by lia. rewrite Z.ones_equiv.
  replace (64 - (64 - (Z.log2 v + 1))) with (Z.log2 v + 1) by lia. lia.
Qed.

Lemma fls_mask_ge v : is_u64 v -> v <= fls_mask v.
Proof.
  intros Hv. rewrite fls_mask_spec by done. destruct (Z.eqb_spec v 0); [lia|].
  unfold is_u64 in Hv. pose proof (Z.log2_spec v). rewrite Z.add_1_r. lia.
Qed.
