(* ===== verification/RangeList.v ===== *)
(** * Range lists: the core of smatch_ranges.c

    A [struct range_list] is a pointer list of [data_range]; NULL is the empty
    list.  A data_range is never written to after it has been put into a list
    (add_range() only changes the one it has just allocated), so lists are
    values here although clone_rl() shares their elements.

    add_range(), cast_rl(), add_range_t(), alloc_rl() and alloc_whole_rl() call
    each other.  They are written over the add_range() they use, and the knot
    is tied by [add_range_fuel]; [recurse] is the static flag of
    collapse_pointer_rl().  A call whose list and range have one type needs one
    level ([add_range_fuel_loop] in RangeFacts.v); a list that has to be cast
    first needs a second one, for the calls of add_range_t(), and a pointer list
    that collapses a third, for the calls with the flag set. *)
From S2P Require Import Prelude Types Tokens Sval.

Record data_range : Set := Range { rmin : sval_t; rmax : sval_t }.

#[export] Instance data_range_eq_dec : EqDecision data_range.
Proof. solve_decision. Defined.

Abbreviation range_list := (list data_range) (only parsing).

Section ranges.
Context `{Tgt : Target} `{Fp : FloatOps}.

(** ** Observers *)

Definition rl_min (rl : range_list) : sval_t :=
  match rl with
  | [] => Sval llong_ctype LLONG_MIN
  | drange :: _ => rmin drange
  end.

Definition rl_max (rl : range_list) : sval_t :=
  match list.last rl with
  | None => Sval llong_ctype LLONG_MAX
  | Some drange => rmax drange
  end.

Definition rl_type (rl : range_list) : option symbol :=
  match rl with [] => None | _ => sv_type (rl_min rl) end.

Definition rl_to_sval (rl : range_list) : option sval_t :=
  match rl with
  | [] => None
  | _ => if sval_cmp (rl_min rl) (rl_max rl) =? 0 then Some (rl_min rl) else None
  end.

Definition is_whole_rl (rl : range_list) : bool :=
  match rl with
  | [] => false
  | drange :: _ => sval_is_min (rmin drange) && sval_is_max (rmax drange)
  end.

Definition is_whole_rl_non_zero (rl : range_list) : bool :=
  match rl with
  | [] => false
  | drange :: _ =>
    if sval_unsigned (rmin drange) && (value (rmin drange) =? 1) &&
       sval_is_max (rmax drange) then true
    else if negb (sval_is_min (rmin drange)) || negb (value (rmax drange) =? -1)
    then false
    else match list.last rl with
    | Some drange => (value (rmin drange) =? 1) && sval_is_max (rmax drange)
    | None => false
    end
  end.

Definition rl_has_sval (rl : range_list) (sval : sval_t) : bool :=
  existsb (fun tmp => (sval_cmp (rmin tmp) sval <=? 0) && (sval_cmp (rmax tmp) sval >=? 0)) rl.

Definition rl_is_sane (rl : range_list) : bool :=
  let type := rl_type rl in
  forallb (fun tmp => sval_fits type (rmin tmp) && sval_fits type (rmax tmp) &&
                      negb (sval_cmp (rmin tmp) (rmax tmp) >? 0)) rl.

Definition rl_type_consistent (rl : range_list) : bool :=
  let type := rl_type rl in
  forallb (fun tmp => type_eqb type (sv_type (rmin tmp)) &&
                      type_eqb type (sv_type (rmax tmp))) rl.

Definition is_err_ptr (sval : sval_t) : bool :=
  if negb proj_kernel then false
  else if negb (type_is_ptr (sv_type sval)) then false
  else sval_cmp sval valid_ptr_max_sval >? 0.

(** ** Casting one range *)

(** (1ULL << type_bits(type)) - 1 has no meaning in C for a type of 64 bits, where [u64] gives 0 for the shift; no value of
    an integer type comes there, as the first test returns for it. *)
Definition sval_too_big (type : option symbol) (sval : sval_t) : bool :=
  if (type_bits type >=? 32) && (type_bits (sv_type sval) <=? type_bits type) then false
  else if uvalue sval <=? u64 (2 ^ type_bits type - 1) then false
  else if type_signed (sv_type sval) then
    if type_unsigned type &&
       (u64 (Z.lnot (uvalue sval)) <=? uvalue (sval_type_max type)) then false
    else if value sval <? value (sval_type_min type) then true
    else value sval >? value (sval_type_max type)
  else uvalue sval >? uvalue (sval_type_max type).

Definition truncates_nicely (type : option symbol) (min max : sval_t) : bool :=
  let bits := type_bits type in
  if type_is_fp (sv_type min) && negb (type_is_fp type) then false
  else if bits >=? type_bits (sv_type min) then false
  else
    let mask := u64 (Z.shiftl ULLONG_MAX bits) in
    Z.land (uvalue min) mask =? Z.land (uvalue max) mask.

(** The type alloc_whole_rl() takes the bounds of. *)
Definition whole_type (type : option symbol) : option symbol :=
  let type := match type with
    | None => llong_ctype
    | Some _ => if type_positive_bits type <? 0 then llong_ctype else type
    end in
  let type := if kind_in [SYM_ARRAY] type then ptr_ctype else type in
  let type := if kind_in [SYM_FN] type then ptr_ctype else type in
  if kind_in [SYM_NODE] type then get_real_base_type type else type.

Section with_add_range.
(** The add_range() these functions call. *)
Variable add_range : range_list -> sval_t -> sval_t -> range_list.

(** The bounds of a type are in order, so alloc_rl() goes straight to
    add_range() when it is called from here. *)
Definition alloc_whole_rl_with (type : option symbol) : range_list :=
  let type := whole_type type in
  add_range [] (sval_type_min type) (sval_type_max type).

Definition alloc_rl_with (min max : sval_t) : range_list :=
  if sval_cmp min max >? 0 then alloc_whole_rl_with (sv_type min)
  else add_range [] min max.

(** "Cast high positive numbers to negative" and what follows it. *)
Definition add_range_t_high (type : option symbol) (rl : range_list)
    (min max : sval_t) : range_list :=
  let '(rl, min, max) :=
    if sval_unsigned max && sval_is_negative (sval_cast type max) then
      let '(rl, min) :=
        if negb (sval_is_negative (sval_cast type min))
        then (add_range rl (sval_cast type min) (sval_type_max type), sval_type_min type)
        else (rl, sval_cast type min) in
      let max := sval_cast type max in
      (add_range rl min max, min, max)
    else (rl, min, max) in
  add_range rl (sval_cast type min) (sval_cast type max).

Definition add_range_t_with (type : option symbol) (rl : range_list)
    (min max : sval_t) : range_list :=
  if sval_cmp min max =? 0
  then add_range rl (sval_cast type min) (sval_cast type max)
  else if sval_fits type min && sval_fits type max
  then add_range rl (sval_cast type min) (sval_cast type max)
  else if truncates_nicely type min max
  then add_range rl (sval_cast type min) (sval_cast type max)
  else if sval_too_big type min || sval_too_big type max
  then add_range rl (sval_type_min type) (sval_type_max type)
  else if sval_is_negative min && type_unsigned type then
    if sval_is_positive max then
      if sval_too_high type max
      then add_range rl (sval_type_min type) (sval_type_max type)
      else
        let rl := add_range rl (sval_type_val type 0) (sval_cast type max) in
        let max := sval_type_max type in
        let min := sval_cast type min in
        add_range_t_high type (add_range rl min max) min max
    else
      let max := sval_cast type max in
      let min := sval_cast type min in
      add_range_t_high type (add_range rl min max) min max
  else add_range_t_high type rl min max.

Definition cast_to_bool_with (rl : range_list) : range_list :=
  let has_one := existsb (fun tmp => truth (value (rmin tmp)) || truth (value (rmax tmp))) rl in
  let has_zero := existsb (fun tmp =>
      if sval_is_negative (rmin tmp) && sval_is_negative (rmax tmp) then false
      else if (value (rmin tmp) =? 0) || (value (rmax tmp) =? 0) then true
      else sval_is_negative (rmin tmp) && (value (rmax tmp) >? 0)) rl in
  add_range []
    (Sval bool_ctype (if has_zero then 0 else 1))
    (Sval bool_ctype (if has_one then 1 else 0)).

Definition cast_rl_with (type : option symbol) (rl : range_list) : range_list :=
  match rl, type with
  | [], _ => []
  | _, None => rl
  | _, Some _ =>
    if negb (rl_is_sane rl) then alloc_whole_rl_with type
    else if type_eqb type (rl_type rl) && rl_type_consistent rl then rl
    else if type_eqb type bool_ctype then cast_to_bool_with rl
    else
      let ret := fold_left (fun ret tmp => add_range_t_with type ret (rmin tmp) (rmax tmp)) rl [] in
      match ret with [] => alloc_whole_rl_with type | _ => ret end
  end.

(** collapse_pointer_rl(): the new list when it collapses. *)
Definition collapse_pointer_rl (recurse : bool) (rl : range_list) (min max : sval_t)
    : option range_list :=
  if recurse then None
  else if negb (type_is_ptr (sv_type min)) then None
  else if (length rl <? 8)%nat then None
  else if (length (List.filter (fun tmp => negb (is_err_ptr (rmin tmp))) rl) <? 8)%nat then None
  else
    let new_rl := fold_left (fun new_rl tmp =>
      if (sval_cmp (rmin tmp) valid_ptr_min_sval >=? 0) &&
         (sval_cmp (rmax tmp) valid_ptr_max_sval <=? 0)
      then add_range new_rl valid_ptr_min_sval valid_ptr_max_sval
      else add_range new_rl (rmin tmp) (rmax tmp)) rl [] in
    Some (add_range new_rl min max).

End with_add_range.

(** ** add_range() *)

(** The [check_next] part of the loop: [new] has replaced an element, the
    ranges after it are joined to it, deleted or kept. *)
Fixpoint check_next (new : data_range) (max : sval_t) (rest : range_list) : range_list :=
  match rest with
  | [] => [new]
  | tmp :: rest' =>
    if negb (sval_is_max max) && (s64 (value max + 1) =? value (rmin tmp))
    then Range (rmin new) (rmax tmp) :: rest'
    else if sval_cmp max (rmin tmp) <? 0 then new :: rest
    else if sval_cmp max (rmax tmp) <=? 0 then Range (rmin new) (rmax tmp) :: rest'
    else check_next new max rest'
  end.

Fixpoint add_range_loop (lst : range_list) (min max : sval_t) : range_list :=
  match lst with
  | [] => [Range min max]
  | tmp :: rest =>
    if negb (sval_is_max max) && (s64 (value max + 1) =? value (rmin tmp))
    then Range min (rmax tmp) :: rest
    else if sval_cmp max (rmin tmp) <? 0
    then Range min max :: lst
    else if sval_cmp min (rmin tmp) <? 0 then
      if sval_cmp max (rmax tmp) <? 0
      then Range min (rmax tmp) :: rest
      else check_next (Range min max) max rest
    else if sval_cmp max (rmax tmp) <=? 0 then lst
    else if sval_cmp min (rmax tmp) <=? 0
    then check_next (Range (rmin tmp) max) max rest
    else if negb (sval_is_min min) && (s64 (value min - 1) =? value (rmax tmp))
    then check_next (Range (rmin tmp) max) max rest
    else tmp :: add_range_loop rest min max
  end.

(** The type reconciliation at the start of add_range(). *)
Definition add_range_types (cast_rl : option symbol -> range_list -> range_list)
    (lst : range_list) (min max : sval_t) : range_list * sval_t * sval_t :=
  match lst with
  | [] => (lst, min, max)
  | _ =>
    if type_eqb (rl_type lst) (sv_type min) then (lst, min, max)
    else if kind_in [SYM_PTR] (rl_type lst)
    then (lst, sval_cast (rl_type lst) min, sval_cast (rl_type lst) max)
    else if kind_in [SYM_PTR] (sv_type min)
    then (cast_rl (sv_type min) lst, min, max)
    else if type_bits (rl_type lst) >=? type_bits (sv_type min)
    then (lst, sval_cast (rl_type lst) min, sval_cast (rl_type lst) max)
    else (cast_rl (sv_type min) lst, min, max)
  end.

Fixpoint add_range_fuel (fuel : nat) (recurse : bool) (lst : range_list)
    (min max : sval_t) : range_list :=
  match fuel with
  | O => lst
  | S f =>
    let '(lst, min, max) :=
      add_range_types (cast_rl_with (add_range_fuel f recurse)) lst min max in
    let '(min, max) :=
      if sval_cmp min max >? 0 then
        let min := sval_type_min (sv_type min) in
        (min, sval_type_max (sv_type min))
      else (min, max) in
    match collapse_pointer_rl (add_range_fuel f true) recurse lst min max with
    | Some new_rl => new_rl
    | None => add_range_loop lst min max
    end
  end.

Definition add_range : range_list -> sval_t -> sval_t -> range_list :=
  add_range_fuel 4 false.

Definition add_range_t := add_range_t_with add_range.
Definition cast_to_bool := cast_to_bool_with add_range.
Definition cast_rl := cast_rl_with add_range.
Definition alloc_whole_rl := alloc_whole_rl_with add_range.
Definition alloc_rl := alloc_rl_with add_range.

(** ** Lists of ranges *)

(** clone_rl() and clone_rl_permanent(), which differ in the allocator. *)
Definition clone_rl (lst : range_list) : range_list :=
  fold_left (fun ret tmp => ret ++ [tmp]) lst [].

Definition rl_union (one two : range_list) : range_list :=
  let add := fold_left (fun ret tmp => add_range ret (rmin tmp) (rmax tmp)) in
  add two (add one []).

(** One step of remove_range(): the state is [ret], [min] and [max], which the
    loop changes. *)
Definition remove_range_step (st : range_list * sval_t * sval_t) (tmp : data_range)
    : range_list * sval_t * sval_t :=
  let '(ret, min, max) := st in
  if sval_cmp (rmax tmp) min <? 0 then (add_range ret (rmin tmp) (rmax tmp), min, max)
  else if sval_cmp (rmin tmp) max >? 0 then (add_range ret (rmin tmp) (rmax tmp), min, max)
  else if (sval_cmp (rmin tmp) min >=? 0) && (sval_cmp (rmax tmp) max <=? 0)
  then (ret, min, max)
  else if sval_cmp (rmin tmp) min >=? 0 then
    let max := set_value max (value max + 1) in
    (add_range ret max (rmax tmp), min, max)
  else if sval_cmp (rmax tmp) max <=? 0 then
    let min := set_value min (value min - 1) in
    (add_range ret (rmin tmp) min, min, max)
  else
    let min := set_value min (value min - 1) in
    let max := set_value max (value max + 1) in
    (add_range (add_range ret (rmin tmp) min) max (rmax tmp), min, max).

Definition remove_range (lst : range_list) (min max : sval_t) : range_list :=
  match lst with
  | [] => []
  | _ =>
    let min := sval_cast (rl_type lst) min in
    let max := sval_cast (rl_type lst) max in
    let '(min, max) := if sval_cmp min max >? 0 then (max, min) else (min, max) in
    fst (fst (fold_left remove_range_step lst ([], min, max)))
  end.

Definition rl_filter (rl filter : range_list) : range_list :=
  fold_left (fun rl tmp => remove_range rl (rmin tmp) (rmax tmp)) filter rl.

(** do_intersection(): [None] is the sm_fatal() exit. *)
Fixpoint do_intersection_loop (one_rl : range_list) : range_list -> range_list -> option range_list :=
  fix go (two_rl ret : range_list) : option range_list :=
    match one_rl, two_rl with
    | [], _ => Some ret
    | _, [] => Some ret
    | one :: one_rl', two :: two_rl' =>
      if sval_cmp (rmax one) (rmin two) <? 0
      then do_intersection_loop one_rl' two_rl ret
      else if (sval_cmp (rmin one) (rmin two) <? 0) && (sval_cmp (rmax one) (rmax two) <=? 0)
      then do_intersection_loop one_rl' two_rl (add_range ret (rmin two) (rmax one))
      else if (sval_cmp (rmin one) (rmin two) >=? 0) && (sval_cmp (rmax one) (rmax two) <=? 0)
      then do_intersection_loop one_rl' two_rl (add_range ret (rmin one) (rmax one))
      else if (sval_cmp (rmin one) (rmin two) <? 0) && (sval_cmp (rmax one) (rmax two) >? 0)
      then go two_rl' (add_range ret (rmin two) (rmax two))
      else if (sval_cmp (rmin one) (rmax two) <=? 0) && (sval_cmp (rmax one) (rmax two) >? 0)
      then go two_rl' (add_range ret (rmin one) (rmax two))
      else if sval_cmp (rmin one) (rmax two) <=? 0
      then None
      else go two_rl' ret
    end.

Definition do_intersection (one_rl two_rl : range_list) : option range_list :=
  do_intersection_loop one_rl two_rl [].

(** rl_intersection(): a fatal error ends the program, the result is [None]. *)
Definition rl_intersection (one two : range_list) : option range_list :=
  match one, two with
  | [], _ => Some []
  | _, [] => Some []
  | _, _ =>
    let ret_type := rl_type one in
    let large_type :=
      if type_bits (rl_type two) <? type_bits (rl_type one)
      then rl_type one else rl_type two in
    ret ← do_intersection (cast_rl large_type one) (cast_rl large_type two);
    Some (cast_rl ret_type ret)
  end.

End ranges.
