(* ===== verification/RangeFacts.v ===== *)
(** * Facts about the core of the range lists

    The set of numbers a range list stands for, the normal form of a range
    list, and what add_range() does to both. *)
From S2P Require Import Prelude Types Tokens Sval SvalFacts RangeList.

Section facts.
Context `{Tgt : Target} `{Fp : FloatOps}.

(** ** What a range list stands for *)

Definition in_range (d : data_range) (z : Z) : Prop :=
  num (rmin d) <= z <= num (rmax d).

(** [z] is one of the numbers of the list. *)
Definition rl_has (rl : range_list) (z : Z) : Prop := Exists (fun d => in_range d z) rl.

Record wf_range (t : option symbol) (d : data_range) : Prop := {
  wf_rmin : wf_sval t (rmin d);
  wf_rmax : wf_sval t (rmax d);
  wf_order : num (rmin d) <= num (rmax d)
}.

(** The ranges are in increasing order, start at [lo] or above, and there is
    at least one number between two of them. *)
Fixpoint separated (lo : Z) (rl : range_list) : Prop :=
  match rl with
  | [] => True
  | d :: rl' => lo <= num (rmin d) /\ separated (num (rmax d) + 2) rl'
  end.

(** The normal form of a list of ranges of type [t]. *)
Record wf_rl (t : option symbol) (rl : range_list) : Prop := {
  wf_rl_ranges : Forall (wf_range t) rl;
  wf_rl_separated : separated (tmin t) rl
}.

#[export] Instance in_range_dec d z : Decision (in_range d z).
Proof. unfold in_range. apply _. Defined.
#[export] Instance rl_has_dec rl z : Decision (rl_has rl z).
Proof. unfold rl_has. apply _. Defined.

Lemma rl_has_nil z : rl_has [] z <-> False.
Proof. unfold rl_has. by rewrite Exists_nil. Qed.
Lemma rl_has_cons d rl z : rl_has (d :: rl) z <-> in_range d z \/ rl_has rl z.
Proof. unfold rl_has. by rewrite Exists_cons. Qed.
Lemma rl_has_app a b z : rl_has (a ++ b) z <-> rl_has a z \/ rl_has b z.
Proof. unfold rl_has. by rewrite Exists_app. Qed.

Lemma separated_mono lo lo' rl : lo' <= lo -> separated lo rl -> separated lo' rl.
Proof. destruct rl; simpl; [done|]. intros; split; [lia|tauto]. Qed.

Lemma separated_above t lo rl z :
  Forall (wf_range t) rl -> separated lo rl -> rl_has rl z -> lo <= z.
Proof.
  intros Hf. revert lo. induction Hf as [|d rl Hd Hf IH]; intros lo Hs Hz.
  - by rewrite rl_has_nil in Hz.
  - destruct Hs as [H1 H2]. pose proof (wf_order _ _ Hd).
    apply rl_has_cons in Hz as [Hz|Hz]; [unfold in_range in Hz; lia|].
    apply IH in H2; [lia|done].
Qed.

Lemma wf_rl_nil t : wf_rl t [].
Proof. by split. Qed.

Lemma wf_rl_cons_inv t d rl :
  wf_rl t (d :: rl) -> wf_range t d /\ Forall (wf_range t) rl /\ separated (num (rmax d) + 2) rl.
Proof. intros [Hf [_ Hs]]. by inversion_clear Hf. Qed.

Lemma wf_range_in_type t d z : wf_range t d -> in_range d z -> in_type t z.
Proof.
  intros [[_ _ H1] [_ _ H2] _]. unfold in_range, in_type in *. lia.
Qed.

Lemma rl_has_in_type t rl z : Forall (wf_range t) rl -> rl_has rl z -> in_type t z.
Proof.
  intros Hf Hz. unfold rl_has in Hz. rewrite Exists_exists in Hz.
  destruct Hz as (d & Hd & Hz). rewrite Forall_forall in Hf.
  eapply wf_range_in_type; eauto.
Qed.

(** A list whose ranges are wf and separated from any bound is in normal form. *)
Lemma wf_rl_intro t lo rl : Forall (wf_range t) rl -> separated lo rl -> wf_rl t rl.
Proof.
  intros Hf Hs. split; [done|]. destruct rl as [|d rl]; [done|].
  destruct Hs as [_ Hs]. split; [|done]. inversion_clear Hf as [|? ? Hd _].
  apply (wf_num _ _ (wf_rmin _ _ Hd)).
Qed.

(** ** The add_range() loop *)

Section one_type.
Context (t : option symbol) (Ht : std_type t).

(** [!sval_is_max(a) && a.value + 1 == b.value] *)
Lemma next_value_spec a b :
  wf_sval t a -> wf_sval t b ->
  negb (sval_is_max a) && (s64 (value a + 1) =? value b) = (num a + 1 =? num b).
Proof.
  intros Ha Hb. rewrite (sval_is_max_spec t) by done.
  pose proof (wf_num _ _ Ha) as Na. pose proof (wf_num _ _ Hb) as Nb. unfold in_type in *.
  destruct (Z.eqb_spec (num a) (tmax t)) as [E|E]; simpl.
  - symmetry. apply Z.eqb_neq. lia.
  - pose proof (wf_s64 _ _ Ha) as Sa. pose proof (wf_s64 _ _ Hb) as Sb.
    apply eq_true_iff_eq. rewrite !Z.eqb_eq.
    unfold num in *. rewrite (wf_type _ _ Ha), (wf_type _ _ Hb) in *. unfold uvalue in *.
    std_cases Ht; rewrite Hu in *; rewrite Hmax, Hmin in *; wrap_lia.
Qed.

(** [!sval_is_min(a) && a.value - 1 == b.value] *)
Lemma prev_value_spec a b :
  wf_sval t a -> wf_sval t b ->
  negb (sval_is_min a) && (s64 (value a - 1) =? value b) = (num a - 1 =? num b).
Proof.
  intros Ha Hb. rewrite (sval_is_min_spec t) by done.
  pose proof (wf_num _ _ Ha) as Na. pose proof (wf_num _ _ Hb) as Nb. unfold in_type in *.
  destruct (Z.eqb_spec (num a) (tmin t)) as [E|E]; simpl.
  - symmetry. apply Z.eqb_neq. lia.
  - pose proof (wf_s64 _ _ Ha) as Sa. pose proof (wf_s64 _ _ Hb) as Sb.
    apply eq_true_iff_eq. rewrite !Z.eqb_eq.
    unfold num in *. rewrite (wf_type _ _ Ha), (wf_type _ _ Hb) in *. unfold uvalue in *.
    std_cases Ht; rewrite Hu in *; rewrite Hmax, Hmin in *; wrap_lia.
Qed.

Lemma wf_range_intro a b : wf_sval t a -> wf_sval t b -> num a <= num b -> wf_range t (Range a b).
Proof. by split. Qed.

Lemma check_next_spec new max rest lo :
  wf_range t new -> rmax new = max -> Forall (wf_range t) rest ->
  separated lo rest -> num (rmin new) <= lo ->
  let r := check_next new max rest in
  Forall (wf_range t) r /\ separated (num (rmin new)) r /\
  (forall z, rl_has r z <-> in_range new z \/ rl_has rest z).
Proof.
  intros Hn <- Hf. revert lo. induction Hf as [|d rest Hd Hf IH]; intros lo Hs Hlo r; subst r.
  - simpl. split; [by constructor|]. split; [split; [lia|done]|].
    intros z. by rewrite rl_has_cons, rl_has_nil.
  - destruct Hs as [H1 H2]. cbn [check_next].
    destruct Hn as [Wn Xn On], Hd as [Wd Xd Od].
    rewrite next_value_spec, (sval_cmp_ltb t), (sval_cmp_leb t) by done.
    destruct (Z.eqb_spec (num (rmax new) + 1) (num (rmin d))).
    { split; [constructor; [split; simpl; auto; lia|done]|]. split; [split; simpl; [lia|done]|].
      intros z. rewrite !rl_has_cons. unfold in_range; simpl. intuition lia. }
    destruct (Z.ltb_spec (num (rmax new)) (num (rmin d))).
    { split; [repeat (constructor; [by split|]); done|].
      split; [simpl; repeat split; [lia|lia|done]|]. intros z. by rewrite !rl_has_cons. }
    destruct (Z.leb_spec (num (rmax new)) (num (rmax d))).
    { split; [constructor; [split; simpl; auto; lia|done]|]. split; [split; simpl; [lia|done]|].
      intros z. rewrite !rl_has_cons. unfold in_range; simpl. intuition lia. }
    destruct (IH (num (rmax d) + 2)) as (I1 & I2 & I3); [done|lia|].
    split; [done|]. split; [done|]. intros z. rewrite I3, rl_has_cons. unfold in_range. intuition lia.
Qed.

(** The loop adds the numbers of the new range, and nothing else, and keeps
    the list in normal form. *)
Lemma add_range_loop_spec rl min max lo :
  Forall (wf_range t) rl -> separated lo rl ->
  wf_sval t min -> wf_sval t max -> num min <= num max ->
  let r := add_range_loop rl min max in
  Forall (wf_range t) r /\ separated (Z.min lo (num min)) r /\
  (forall z, rl_has r z <-> num min <= z <= num max \/ rl_has rl z).
Proof.
  intros Hf. revert lo. induction Hf as [|d rl Hd Hf IH]; intros lo Hs Wm Wx O r; subst r.
  - simpl. split; [constructor; [by split|done]|]. split; [split; [lia|done]|].
    intros z. by rewrite rl_has_cons, rl_has_nil.
  - destruct Hs as [H1 H2]. cbn [add_range_loop].
    destruct Hd as [Wd Xd Od].
    rewrite next_value_spec, prev_value_spec, !(sval_cmp_ltb t), !(sval_cmp_leb t) by done.
    destruct (Z.eqb_spec (num max + 1) (num (rmin d))).
    { split; [constructor; [split; simpl; auto; lia|done]|]. split; [split; simpl; [lia|done]|].
      intros z. rewrite !rl_has_cons. unfold in_range; simpl. intuition lia. }
    destruct (Z.ltb_spec (num max) (num (rmin d))).
    { split; [repeat (constructor; [by split|]); done|].
      split; [simpl; repeat split; [lia|lia|done]|]. intros z. by rewrite !rl_has_cons. }
    destruct (Z.ltb_spec (num min) (num (rmin d))).
    { destruct (Z.ltb_spec (num max) (num (rmax d))).
      - split; [constructor; [split; simpl; auto; lia|done]|]. split; [split; simpl; [lia|done]|].
        intros z. rewrite !rl_has_cons. unfold in_range; simpl. intuition lia.
      - edestruct (check_next_spec (Range min max) max rl (num (rmax d) + 2)) as (I1 & I2 & I3);
          simpl; [by split|done|done|done|lia|].
        split; [done|]. split; [eapply separated_mono; [|exact I2]; simpl; lia|].
        intros z. rewrite I3, rl_has_cons. unfold in_range; simpl. intuition lia. }
    destruct (Z.leb_spec (num max) (num (rmax d))).
    { split; [constructor; [by split|done]|]. split; [split; [lia|done]|].
      intros z. rewrite rl_has_cons. unfold in_range. intuition lia. }
    destruct (Z.leb_spec (num min) (num (rmax d))).
    { edestruct (check_next_spec (Range (rmin d) max) max rl (num (rmax d) + 2)) as (I1 & I2 & I3);
        simpl; [split; simpl; auto; lia|done|done|done|lia|].
      split; [done|]. split; [eapply separated_mono; [|exact I2]; simpl; lia|].
      intros z. rewrite I3, rl_has_cons. unfold in_range; simpl. intuition lia. }
    destruct (Z.eqb_spec (num min - 1) (num (rmax d))).
    { edestruct (check_next_spec (Range (rmin d) max) max rl (num (rmax d) + 2)) as (I1 & I2 & I3);
        simpl; [split; simpl; auto; lia|done|done|done|lia|].
      split; [done|]. split; [eapply separated_mono; [|exact I2]; simpl; lia|].
      intros z. rewrite I3, rl_has_cons. unfold in_range; simpl. intuition lia. }
    destruct (IH (num (rmax d) + 2) H2 Wm Wx O) as (I1 & I2 & I3).
    split; [constructor; [by split|done]|]. split.
    { simpl. split; [lia|]. eapply separated_mono; [|exact I2]. lia. }
    intros z. rewrite !rl_has_cons, I3. tauto.
Qed.

Lemma check_next_length new max rest : (length (check_next new max rest) <= S (length rest))%nat.
Proof. induction rest as [|d rest IH]; simpl; [lia|]. repeat case_if; simpl; lia. Qed.

Lemma add_range_loop_length rl min max :
  (length (add_range_loop rl min max) <= S (length rl))%nat.
Proof.
  induction rl as [|d rl IH]; simpl; [lia|].
  pose proof (check_next_length (Range min max) max rl).
  pose proof (check_next_length (Range (rmin d) max) max rl).
  repeat case_if; simpl; lia.
Qed.

Lemma add_range_loop_nonnil rl min max : add_range_loop rl min max <> [].
Proof.
  assert (forall new m rest, check_next new m rest <> []) as C.
  { intros new m rest. induction rest as [|d rest IH]; simpl; [done|]. by repeat case_if. }
  destruct rl; simpl; [done|]. repeat case_if; done || apply C.
Qed.

(** ** add_range() on values of one type *)

Lemma rl_type_wf rl : Forall (wf_range t) rl -> rl <> [] -> rl_type rl = t.
Proof. intros [|d rl' Hd Hf]; [done|]. intros _. apply (wf_rmin _ _ Hd). Qed.

Lemma type_eqb_refl u : type_eqb u u = true.
Proof. unfold type_eqb. by apply bool_decide_eq_true. Qed.

Lemma add_range_types_same cast rl min max :
  Forall (wf_range t) rl -> wf_sval t min -> add_range_types cast rl min max = (rl, min, max).
Proof.
  intros Hf Hm. destruct rl as [|d rl]; [done|]. unfold add_range_types.
  rewrite (rl_type_wf (d :: rl)), (wf_type _ _ Hm), type_eqb_refl; done.
Qed.

(** No list of [n] ranges of this type is collapsed by an addition. *)
Definition no_collapse (n : nat) : Prop := type_is_ptr t = false \/ (n < 8)%nat.

Lemma collapse_none add rec rl min max :
  wf_sval t min -> rec = true \/ no_collapse (length rl) ->
  collapse_pointer_rl add rec rl min max = None.
Proof.
  intros Hm H. unfold collapse_pointer_rl. destruct rec; [done|].
  destruct H as [?|[H|H]]; [done| |].
  - by rewrite (wf_type _ _ Hm), H.
  - destruct (type_is_ptr _); [|done]. simpl. by rewrite (proj2 (Nat.ltb_lt _ _) H).
Qed.

Lemma add_range_fuel_loop f rec rl min max :
  Forall (wf_range t) rl -> wf_sval t min -> wf_sval t max -> num min <= num max ->
  rec = true \/ no_collapse (length rl) ->
  add_range_fuel (S f) rec rl min max = add_range_loop rl min max.
Proof.
  intros Hf Wm Wx O Hc. cbn [add_range_fuel]. rewrite add_range_types_same by done.
  rewrite (sval_cmp_gtb t) by done. rewrite (proj2 (Z.ltb_ge _ _)) by lia.
  by rewrite collapse_none.
Qed.

Lemma add_range_loop_eq rl min max :
  Forall (wf_range t) rl -> wf_sval t min -> wf_sval t max -> num min <= num max ->
  no_collapse (length rl) ->
  add_range rl min max = add_range_loop rl min max.
Proof. intros. apply add_range_fuel_loop; auto. Qed.

(** add_range() adds exactly the numbers of the range. *)
Lemma add_range_wf rl min max :
  wf_rl t rl -> wf_sval t min -> wf_sval t max -> num min <= num max ->
  no_collapse (length rl) ->
  wf_rl t (add_range rl min max) /\
  (forall z, rl_has (add_range rl min max) z <-> num min <= z <= num max \/ rl_has rl z).
Proof.
  intros [Hf Hs] Wm Wx O Hc. rewrite add_range_loop_eq by done.
  destruct (add_range_loop_spec rl min max (tmin t)) as (I1 & I2 & I3); auto.
  split; [|done]. eapply wf_rl_intro; eauto.
Qed.

(** ** A sequence of additions *)

Definition adds (rs acc : range_list) : range_list :=
  fold_left (fun ret tmp => add_range ret (rmin tmp) (rmax tmp)) rs acc.

Lemma adds_spec rs acc :
  wf_rl t acc -> Forall (wf_range t) rs ->
  type_is_ptr t = false \/ (length acc + length rs <= 8)%nat ->
  wf_rl t (adds rs acc) /\ (length (adds rs acc) <= length acc + length rs)%nat /\
  (forall z, rl_has (adds rs acc) z <-> rl_has rs z \/ rl_has acc z).
Proof.
  intros Ha Hf. revert acc Ha. induction Hf as [|d rs Hd Hf IH]; intros acc Ha Hn; simpl.
  - split; [done|]. split; [lia|]. intros z. rewrite rl_has_nil. tauto.
  - destruct Hd as [W X O].
    assert (no_collapse (length acc)) as Hc by (unfold no_collapse; simpl in Hn; destruct Hn; [by left|right; lia]).
    destruct (add_range_wf acc (rmin d) (rmax d)) as [I1 I2]; auto.
    assert (length (add_range acc (rmin d) (rmax d)) <= S (length acc))%nat.
    { rewrite add_range_loop_eq; auto using add_range_loop_length. apply Ha. }
    destruct (IH (add_range acc (rmin d) (rmax d)) I1) as (J1 & J2 & J3).
    { simpl in Hn. destruct Hn; [by left|right; lia]. }
    split; [done|]. split; [lia|].
    intros z. rewrite J3, I2, rl_has_cons. unfold in_range. tauto.
Qed.

End one_type.

Lemma clone_rl_id (lst : range_list) : clone_rl lst = lst.
Proof.
  assert (forall l acc : range_list, fold_left (fun ret tmp => ret ++ [tmp]) l acc = acc ++ l) as H.
  { induction l as [|d l IH]; intros acc; simpl; [by rewrite app_nil_r|].
    by rewrite IH, <- app_assoc. }
  apply H.
Qed.
End facts.
