(* ===== verification/RangeSets.v ===== *)
(** * Range lists as sets

    rl_union(), remove_range(), rl_filter() and rl_intersection() on lists of
    one type: they are union, removal of an interval, set difference and
    intersection of the numbers, and the results are in normal form. *)
From S2P Require Import Prelude Types Tokens Sval SvalFacts RangeList RangeFacts.

Section sets.
Context `{Tgt : Target} `{Fp : FloatOps}.
Context (t : option symbol) (Ht : std_type t).

(** [n] ranges of this type can be added to an empty list one by one without
    any of them being collapsed. *)
Definition can_add (n : nat) : Prop := type_is_ptr t = false \/ (n <= 8)%nat.

Lemma can_add_le n m : (m <= n)%nat -> can_add n -> can_add m.
Proof. intros H [?|?]; [by left|right; lia]. Qed.

Lemma adds_nil rs :
  Forall (wf_range t) rs -> can_add (length rs) ->
  wf_rl t (adds rs []) /\ (length (adds rs []) <= length rs)%nat /\
  (forall z, rl_has (adds rs []) z <-> rl_has rs z).
Proof.
  intros Hf Hn. destruct (adds_spec t Ht rs []) as (H1 & H2 & H3); auto using wf_rl_nil.
  split; [done|]. split; [done|]. intros z. rewrite H3, rl_has_nil. tauto.
Qed.

Lemma adds_app a b acc : adds (a ++ b) acc = adds b (adds a acc).
Proof. unfold adds. by rewrite fold_left_app. Qed.

(** ** Union *)

Lemma rl_union_adds one two : rl_union one two = adds (one ++ two) [].
Proof. by rewrite adds_app. Qed.

Lemma rl_union_wf one two :
  Forall (wf_range t) one -> Forall (wf_range t) two -> can_add (length one + length two) ->
  wf_rl t (rl_union one two) /\
  (forall z, rl_has (rl_union one two) z <-> rl_has one z \/ rl_has two z).
Proof.
  intros H1 H2 Hn. rewrite rl_union_adds.
  destruct (adds_nil (one ++ two)) as (I1 & _ & I3); [by apply Forall_app|by rewrite length_app|].
  split; [done|]. intros z. by rewrite I3, rl_has_app.
Qed.

(** ** Removal *)

Lemma wf_succ a : wf_sval t a -> num a < tmax t ->
  wf_sval t (set_value a (value a + 1)) /\ num (set_value a (value a + 1)) = num a + 1.
Proof.
  intros Ha H. pose proof (wf_num _ _ Ha) as Na. unfold in_type in Na.
  assert (set_value a (value a + 1) = sval_of t (num a + 1)) as ->.
  { unfold set_value, sval_of. rewrite (wf_type _ _ Ha). f_equal.
    pose proof (num_mod_value a). wrap_lia. }
  assert (in_type t (num a + 1)) by (unfold in_type; lia).
  split; [by apply wf_sval_of|by apply num_sval_of].
Qed.

Lemma wf_pred a : wf_sval t a -> tmin t < num a ->
  wf_sval t (set_value a (value a - 1)) /\ num (set_value a (value a - 1)) = num a - 1.
Proof.
  intros Ha H. pose proof (wf_num _ _ Ha) as Na. unfold in_type in Na.
  assert (set_value a (value a - 1) = sval_of t (num a - 1)) as ->.
  { unfold set_value, sval_of. rewrite (wf_type _ _ Ha). f_equal.
    pose proof (num_mod_value a). wrap_lia. }
  assert (in_type t (num a - 1)) by (unfold in_type; lia).
  split; [by apply wf_sval_of|by apply num_sval_of].
Qed.

(** What the loop of remove_range() maintains: it has added some ranges [rs],
    and [min], [max] moved by at most one, past numbers that are not in the
    rest of the list. *)
Record removed (lo hi : Z) (rest : range_list) (st : range_list * sval_t * sval_t)
    (rs : range_list) : Prop := {
  rem_ret : fst (fst st) = adds rs [];
  rem_wf : Forall (wf_range t) rs;
  rem_min : wf_sval t (snd (fst st));
  rem_max : wf_sval t (snd st);
  rem_lo : num (snd (fst st)) = lo \/
           num (snd (fst st)) = lo - 1 /\ separated (lo + 1) rest;
  rem_hi : num (snd st) = hi \/ num (snd st) = hi + 1 /\ separated (hi + 2) rest
}.

(** One range and its numbers, in the shape the case analyses need. *)
Lemma rl_has_one d z : rl_has [d] z <-> in_range d z.
Proof. rewrite rl_has_cons, rl_has_nil. tauto. Qed.

Lemma rl_has_two d e z : rl_has [d; e] z <-> in_range d z \/ in_range e z.
Proof. by rewrite rl_has_cons, rl_has_one. Qed.

(** The loop goes on with [rs'] added and the ends [min], [max] where they are
    now, which the separation of the rest of the list allows. *)
Lemma removed_add lo hi d rest ret min max min' max' rs rs' :
  removed lo hi (d :: rest) (ret, min, max) rs -> Forall (wf_range t) rs' ->
  separated (num (rmax d) + 2) rest ->
  num (rmin d) <= num (rmax d) ->
  min' = min \/ wf_sval t min' /\ num min' = lo - 1 /\ lo <= num (rmax d) + 1 ->
  max' = max \/ wf_sval t max' /\ num max' = hi + 1 /\ hi <= num (rmax d) ->
  removed lo hi rest (adds rs' ret, min', max') (rs ++ rs').
Proof.
  intros [R1 R2 R3 R4 R5 R6] Hf Hs Hd Hmin Hmax. simpl in *. split; simpl.
  - by rewrite adds_app, <- R1.
  - by apply Forall_app.
  - by destruct Hmin as [->|[? _]].
  - by destruct Hmax as [->|[? _]].
  - destruct Hmin as [->|(_ & -> & ?)].
    + destruct R5 as [?|(? & ? & ?)]; [by left|right]. split; [done|].
      eapply separated_mono; [|done]. lia.
    + right. split; [done|]. eapply separated_mono; [|exact Hs]. lia.
  - destruct Hmax as [->|(_ & -> & ?)].
    + destruct R6 as [?|(? & ? & ?)]; [by left|right]. split; [done|].
      eapply separated_mono; [|done]. lia.
    + right. split; [done|]. eapply separated_mono; [|exact Hs]. lia.
Qed.

Lemma remove_range_step_spec lo hi d rest st rs :
  lo <= hi -> wf_range t d -> Forall (wf_range t) rest ->
  separated (tmin t) (d :: rest) -> removed lo hi (d :: rest) st rs ->
  exists rs', removed lo hi rest (remove_range_step st d) (rs ++ rs') /\
    (length rs' <= (if bool_decide (num (rmin d) < lo /\ hi < num (rmax d))%Z then 2 else 1))%nat /\
    (forall z, rl_has rs' z <-> in_range d z /\ ~ (lo <= z <= hi)).
Proof.
  intros Hlh Hd Hf [_ Hs] HR. destruct st as [[ret min] max]. pose proof HR as [R1 R2 R3 R4 R5 R6].
  pose proof Hd as [Wd Xd Od]. simpl in *.
  pose proof (wf_num _ _ Wd) as Nd. pose proof (wf_num _ _ Xd) as Nx. unfold in_type in Nd, Nx.
  assert (num min = lo \/ num min = lo - 1 /\ lo + 1 <= num (rmin d)) as P5 by tauto.
  assert (num max = hi \/ num max = hi + 1 /\ hi + 2 <= num (rmin d)) as P6 by tauto.
  unfold remove_range_step.
  rewrite !(sval_cmp_ltb t), !(sval_cmp_gtb t), !(sval_cmp_geb t), !(sval_cmp_leb t) by done.
  clear R5 R6.
  destruct (Z.ltb_spec (num (rmax d)) (num min));
    [|destruct (Z.ltb_spec (num max) (num (rmin d)));
      [|destruct (Z.leb_spec (num min) (num (rmin d))), (Z.leb_spec (num (rmax d)) (num max))]];
    cbn [andb].
  - exists [d]. split; [apply (removed_add _ _ d _ _ min max _ _ _ [d]); auto|]. split; [simpl; case_if; lia|].
    intros z. rewrite rl_has_one. unfold in_range. intuition lia.
  - exists [d]. split; [apply (removed_add _ _ d _ _ min max _ _ _ [d]); auto|]. split; [simpl; case_if; lia|].
    intros z. rewrite rl_has_one. unfold in_range. intuition lia.
  - exists []. split; [apply (removed_add _ _ d _ _ min max _ _ _ []); auto|]. split; [simpl; case_if; lia|].
    intros z. rewrite rl_has_nil. unfold in_range. intuition lia.
  - destruct (wf_succ max R4) as [Ws Ns]; [lia|].
    exists [Range (set_value max (value max + 1)) (rmax d)]. split; [|split; [simpl; case_if; lia|]].
    + apply (removed_add _ _ d _ _ min max _ _ _ [Range (set_value max (value max + 1)) (rmax d)]); auto; [|right; split; [done|lia]].
      constructor; [split; simpl; auto; lia|done].
    + intros z. rewrite rl_has_one. unfold in_range; simpl. intuition lia.
  - destruct (wf_pred min R3) as [Wp Np]; [lia|].
    exists [Range (rmin d) (set_value min (value min - 1))]. split; [|split; [simpl; case_if; lia|]].
    + apply (removed_add _ _ d _ _ min max _ _ _ [Range (rmin d) (set_value min (value min - 1))]); auto; [|right; split; [done|lia]].
      constructor; [split; simpl; auto; lia|done].
    + intros z. rewrite rl_has_one. unfold in_range; simpl. intuition lia.
  - destruct (wf_succ max R4) as [Ws Ns]; [lia|]. destruct (wf_pred min R3) as [Wp Np]; [lia|].
    exists [Range (rmin d) (set_value min (value min - 1)); Range (set_value max (value max + 1)) (rmax d)].
    split; [|split; [rewrite bool_decide_true by lia; simpl; lia|]].
    + apply (removed_add _ _ d _ _ min max _ _ _ [Range (rmin d) (set_value min (value min - 1)); Range (set_value max (value max + 1)) (rmax d)]); auto; [|right; split; [done|lia]..].
      repeat (constructor; [split; simpl; auto; lia|]). done.
    + intros z. rewrite rl_has_two. unfold in_range; simpl. intuition lia.
Qed.

Lemma remove_range_loop_spec lo hi lst st rs :
  lo <= hi -> Forall (wf_range t) lst -> separated (tmin t) lst ->
  removed lo hi lst st rs ->
  exists rs', removed lo hi [] (fold_left remove_range_step lst st) (rs ++ rs') /\
    (length rs' <= S (length lst))%nat /\
    (separated lo lst -> (length rs' <= length lst)%nat) /\
    (forall z, rl_has rs' z <-> rl_has lst z /\ ~ (lo <= z <= hi)).
Proof.
  intros Hlh Hf. revert st rs. induction Hf as [|d lst Hd Hf IH]; intros st rs Hs HR; simpl.
  - exists []. rewrite app_nil_r. split; [done|]. split; [simpl; lia|]. split; [simpl; lia|].
    intros z. rewrite rl_has_nil. tauto.
  - destruct (remove_range_step_spec lo hi d lst st rs) as (r1 & A1 & A2 & A3); auto.
    assert (separated (tmin t) lst) as Hs'.
    { destruct Hs as [? Hs]. eapply separated_mono; [|exact Hs]. pose proof (wf_order _ _ Hd). lia. }
    destruct (IH _ _ Hs' A1) as (r2 & B1 & B2 & B3 & B4).
    exists (r1 ++ r2). rewrite app_assoc, length_app. split; [done|].
    destruct Hs as [_ Hs]. pose proof (wf_order _ _ Hd).
    split; [|split].
    + case_bool_decide; [|lia]. assert (length r2 <= length lst)%nat; [|lia].
      apply B3. eapply separated_mono; [|exact Hs]. lia.
    + intros [S1 S2]. rewrite bool_decide_false in A2 by lia.
      assert (length r2 <= length lst)%nat; [|lia].
      apply B3. eapply separated_mono; [|exact S2]. lia.
    + intros z. rewrite rl_has_app, A3, B4, rl_has_cons. tauto.
Qed.

(** The bounds remove_range() works with, in order. *)
Lemma remove_range_wf lst min max :
  wf_rl t lst -> wf_sval t min -> wf_sval t max -> can_add (S (length lst)) ->
  wf_rl t (remove_range lst min max) /\
  (length (remove_range lst min max) <= S (length lst))%nat /\
  (forall z, rl_has (remove_range lst min max) z <->
    rl_has lst z /\ ~ (Z.min (num min) (num max) <= z <= Z.max (num min) (num max))).
Proof.
  intros [Hf Hs] Wm Wx Hn. unfold remove_range. destruct lst as [|d l] eqn:El.
  - split; [apply wf_rl_nil|]. split; [simpl; lia|]. intros z. rewrite rl_has_nil. tauto.
  - rewrite <- El in *. assert (rl_type lst = t) as -> by (apply (rl_type_wf t); subst; done).
    rewrite !(sval_cast_id t) by done. rewrite (sval_cmp_gtb t) by done.
    set (mm := if num max <? num min then (max, min) else (min, max)).
    assert (wf_sval t (fst mm) /\ wf_sval t (snd mm) /\
            num (fst mm) = Z.min (num min) (num max) /\ num (snd mm) = Z.max (num min) (num max))
      as (M1 & M2 & M3 & M4).
    { subst mm. destruct (Z.ltb_spec (num max) (num min)); simpl; repeat split;
        try apply Wm; try apply Wx; lia. }
    destruct mm as [lo hi]; simpl in *.
    destruct (remove_range_loop_spec (num lo) (num hi) lst ([], lo, hi) []) as (rs & R & L & _ & H);
      [lia|done|done|split; simpl; auto|].
    rewrite (rem_ret _ _ _ _ _ R); simpl.
    destruct (adds_nil rs) as (I1 & I2 & I3); [apply R|by eapply can_add_le; [exact L|]|].
    split; [done|]. split; [lia|]. intros z. by rewrite I3, H, M3, M4.
Qed.

(** ** Intersection *)

(** What the loop owes for the lists [one], [two] when it has [ret]: it ends,
    having added ranges that hold the numbers of both. *)
Definition intersected (one two ret : range_list) (res : option range_list) : Prop :=
  exists rs, res = Some (adds rs ret) /\
    Forall (wf_range t) rs /\ (length rs <= length one + length two)%nat /\
    (forall z, rl_has rs z <-> rl_has one z /\ rl_has two z).

Lemma intersected_nil one two ret :
  one = [] \/ two = [] -> intersected one two ret (Some ret).
Proof.
  intros H. exists []. split; [done|]. split; [done|]. split; [simpl; lia|].
  intros z. destruct H as [-> | ->]; rewrite !rl_has_nil; tauto.
Qed.

Lemma intersected_sym one two ret res :
  intersected one two ret res -> intersected two one ret res.
Proof.
  intros (rs & E & F & L & H). exists rs. split; [done|]. split; [done|]. split; [lia|].
  intros z. rewrite H. tauto.
Qed.

(** Leaving the range [d] of the first list, which ends no later than the
    range [e] of the second, after [r], the numbers of both ranges. *)
Lemma intersected_advance d e one two ret r res :
  Forall (wf_range t) r -> (length r <= 1)%nat -> num (rmax d) <= num (rmax e) ->
  Forall (wf_range t) two -> separated (num (rmax e) + 2) two ->
  (forall z, rl_has r z <-> in_range d z /\ in_range e z) ->
  intersected one (e :: two) (adds r ret) res ->
  intersected (d :: one) (e :: two) ret res.
Proof.
  intros Hr Lr Hle Hf Hs Hz (rs & E1 & E2 & E3 & E4). exists (r ++ rs). rewrite adds_app.
  split; [done|]. split; [by apply Forall_app|]. rewrite length_app. simpl in *. split; [lia|].
  intros z. assert (rl_has two z -> num (rmax e) + 2 <= z) as Ab by (by apply (separated_above t)).
  rewrite rl_has_app, Hz, E4, !rl_has_cons. unfold in_range. intuition lia.
Qed.

(** Advance the list whose current range ends first. *)
Lemma do_intersection_loop_spec one two ret :
  Forall (wf_range t) one -> Forall (wf_range t) two -> forall lo,
  separated lo one -> separated lo two ->
  intersected one two ret (do_intersection_loop one two ret).
Proof.
  intros Ho. revert two ret. induction Ho as [|d one Hd Ho IHone]; intros two ret Hw lo Hs1 Hs2.
  { destruct two; apply intersected_nil; auto. }
  revert ret lo Hs1 Hs2. induction Hw as [|e two He Hw IHtwo]; intros ret lo Hs1 Hs2.
  { apply intersected_nil; auto. }
  pose proof Hd as [Wd Xd Od]. pose proof He as [We Xe Oe].
  assert (forall r, Forall (wf_range t) r -> (length r <= 1)%nat -> num (rmax d) <= num (rmax e) ->
    (forall z, rl_has r z <-> in_range d z /\ in_range e z) ->
    intersected (d :: one) (e :: two) ret (do_intersection_loop one (e :: two) (adds r ret))) as Adv1.
  { intros r ? ? ? ?. eapply intersected_advance; eauto; [apply Hs2|].
    apply IHone with (lo := Z.min (num (rmax d) + 2) lo); [by constructor| |];
      (eapply separated_mono; [|apply Hs1 || apply Hs2]); lia. }
  assert (forall r, Forall (wf_range t) r -> (length r <= 1)%nat -> num (rmax e) < num (rmax d) ->
    (forall z, rl_has r z <-> in_range d z /\ in_range e z) ->
    intersected (d :: one) (e :: two) ret (do_intersection_loop (d :: one) two (adds r ret))) as Adv2.
  { intros r ? ? ? Hz. apply intersected_sym. eapply (intersected_advance e d _ _ _ r); eauto;
      [lia|apply Hs1|intros z; rewrite Hz; tauto|]. apply intersected_sym.
    apply IHtwo with (lo := Z.min (num (rmax e) + 2) lo);
      (eapply separated_mono; [|exact Hs1 || apply Hs2]); lia. }
  cbn [do_intersection_loop].
  rewrite !(sval_cmp_ltb t), !(sval_cmp_gtb t), !(sval_cmp_geb t), !(sval_cmp_leb t) by done.
  destruct (Z.ltb_spec (num (rmax d)) (num (rmin e)));
    [|destruct (Z.ltb_spec (num (rmin d)) (num (rmin e))), (Z.leb_spec (num (rmin e)) (num (rmin d))),
        (Z.leb_spec (num (rmax d)) (num (rmax e))), (Z.ltb_spec (num (rmax e)) (num (rmax d))),
        (Z.leb_spec (num (rmin d)) (num (rmax e))); try lia]; cbn [andb];
    [apply (Adv1 [])|apply (Adv1 [Range (rmin e) (rmax d)])|apply (Adv2 [Range (rmin e) (rmax e)])
    |apply (Adv1 [Range (rmin d) (rmax d)])|apply (Adv2 [Range (rmin d) (rmax e)])|apply (Adv2 [])];
    try (simpl; lia); try done; try (constructor; [by split|done]);
    intros z; rewrite ?rl_has_one, ?rl_has_nil; unfold in_range; simpl; intuition lia.
Qed.

(** cast_rl() to the type the list already has does nothing. *)
Lemma rl_is_sane_wf rl : Forall (wf_range t) rl -> rl_is_sane rl = true.
Proof.
  intros Hf. unfold rl_is_sane. apply forallb_forall. intros d Hd.
  assert (rl_type rl = t) as -> by (apply (rl_type_wf t); [done|by destruct rl]).
  rewrite List.Forall_forall in Hf. destruct (Hf d Hd) as [W X O].
  rewrite (proj2 (sval_fits_spec t t (rmin d) Ht Ht W)) by apply W.
  rewrite (proj2 (sval_fits_spec t t (rmax d) Ht Ht X)) by apply X.
  rewrite (sval_cmp_gtb t) by done. by rewrite (proj2 (Z.ltb_ge _ _)).
Qed.

Lemma cast_rl_same rl : Forall (wf_range t) rl -> cast_rl t rl = rl.
Proof.
  intros Hf. destruct rl as [|d l] eqn:El; [done|]. rewrite <- El in *.
  assert (rl_type rl = t) as Et by (apply (rl_type_wf t); subst; done).
  unfold cast_rl, cast_rl_with. destruct (std_type_some t Ht) as [s Es].
  rewrite El at 1. rewrite Es at 1. rewrite (rl_is_sane_wf rl Hf); simpl. rewrite Et, type_eqb_refl; simpl.
  assert (rl_type_consistent rl = true) as ->; [|done].
  unfold rl_type_consistent. apply forallb_forall. intros e He. rewrite Et.
  rewrite List.Forall_forall in Hf. destruct (Hf e He) as [[W _ _] [X _ _] _].
  by rewrite W, X, type_eqb_refl.
Qed.

Lemma rl_intersection_wf one two :
  wf_rl t one -> wf_rl t two -> can_add (length one + length two) ->
  exists ret, rl_intersection one two = Some ret /\ wf_rl t ret /\
    (length ret <= length one + length two)%nat /\
    (forall z, rl_has ret z <-> rl_has one z /\ rl_has two z).
Proof.
  intros [F1 S1] [F2 S2] Hn.
  destruct (do_intersection_loop_spec one two [] F1 F2 (tmin t) S1 S2) as (rs & E & Fr & L & H).
  destruct (adds_nil rs Fr) as (I1 & I2 & I3); [by eapply can_add_le; [exact L|]|].
  unfold rl_intersection. destruct one as [|d one']; [|destruct two as [|e two']].
  - exists []. split; [done|]. split; [apply wf_rl_nil|]. split; [simpl; lia|].
    intros z. rewrite rl_has_nil. tauto.
  - exists []. split; [done|]. split; [apply wf_rl_nil|]. split; [simpl; lia|].
    intros z. rewrite rl_has_nil. tauto.
  - set (one := d :: one') in *. set (two := e :: two') in *.
    rewrite (rl_type_wf t one), (rl_type_wf t two), Z.ltb_irrefl by done.
    rewrite !cast_rl_same by done. unfold do_intersection. rewrite E; simpl.
    rewrite cast_rl_same by apply I1.
    exists (adds rs []). split; [done|]. split; [done|]. split; [etransitivity; [exact I2|exact L]|].
    intros z. by rewrite I3, H.
Qed.

(** ** Filter *)

Lemma rl_filter_wf rl flt :
  type_is_ptr t = false -> wf_rl t rl -> Forall (wf_range t) flt ->
  wf_rl t (rl_filter rl flt) /\
  (forall z, rl_has (rl_filter rl flt) z <-> rl_has rl z /\ ~ rl_has flt z).
Proof.
  intros Hp Hrl Hf. revert rl Hrl. induction Hf as [|d flt Hd Hf IH]; intros rl Hrl; simpl.
  - split; [done|]. intros z. rewrite rl_has_nil. tauto.
  - destruct Hd as [W X O].
    destruct (remove_range_wf rl (rmin d) (rmax d)) as (I1 & _ & I2); auto; [by left|].
    destruct (IH _ I1) as (J1 & J2). split; [done|]. intros z.
    rewrite J2, I2, rl_has_cons, Z.min_l, Z.max_r by done. unfold in_range. tauto.
Qed.
End sets.
