(* ===== verification/RangeCast.v ===== *)
(** * Casting range lists

    cast_rl() keeps the set of numbers when they all fit into the new type,
    and otherwise the result holds at least the converted numbers, with the
    exception of narrowing from a signed type to a signed type. *)
From S2P Require Import Prelude Types Tokens Sval SvalFacts RangeList RangeFacts RangeSets.

Section cast.
Context `{Tgt : Target} `{Fp : FloatOps}.

(** One range, after the cast of both ends. *)
Definition cast_range (u : option symbol) (d : data_range) : data_range :=
  Range (sval_cast u (rmin d)) (sval_cast u (rmax d)).

Lemma cast_range_wf t u d :
  std_type t -> std_type u -> wf_range t d ->
  in_type u (num (rmin d)) -> in_type u (num (rmax d)) ->
  wf_range u (cast_range u d) /\ (forall z, in_range (cast_range u d) z <-> in_range d z).
Proof.
  intros Ht Hu [W X O] I J. unfold cast_range, in_range; simpl.
  pose proof (num_sval_cast_in u t (rmin d) Hu Ht W I) as E1.
  pose proof (num_sval_cast_in u t (rmax d) Hu Ht X J) as E2.
  split; [|intros z; by rewrite E1, E2].
  split; simpl; [by apply (sval_cast_wf' u t)|by apply (sval_cast_wf' u t)|by rewrite E1, E2].
Qed.

(** A range that fits is cast end by end. *)
Lemma add_range_t_fits t u rl d :
  std_type t -> std_type u -> wf_range t d ->
  in_type u (num (rmin d)) -> in_type u (num (rmax d)) ->
  add_range_t u rl (rmin d) (rmax d) =
  add_range rl (rmin (cast_range u d)) (rmax (cast_range u d)).
Proof.
  intros Ht Hu [W X O] I J. unfold add_range_t, add_range_t_with.
  destruct (sval_cmp _ _ =? 0); [done|].
  by rewrite (proj2 (sval_fits_spec u t _ Hu Ht W) I), (proj2 (sval_fits_spec u t _ Hu Ht X) J).
Qed.

(** The general branch of cast_rl(). *)
Lemma cast_rl_eq t u rl :
  std_type t -> std_type u -> Forall (wf_range t) rl -> rl <> [] -> u <> t -> type_bits u <> 1 ->
  cast_rl u rl =
  let ret := fold_left (fun ret tmp => add_range_t u ret (rmin tmp) (rmax tmp)) rl [] in
  match ret with [] => alloc_whole_rl u | _ => ret end.
Proof.
  intros Ht Hu Hf Hne Hut Hb. destruct rl as [|d l] eqn:El; [done|]. rewrite <- El in *.
  unfold cast_rl, cast_rl_with. destruct (std_type_some u Hu) as [s Es].
  rewrite El at 1. rewrite Es at 1. rewrite (rl_is_sane_wf t Ht rl Hf); simpl.
  rewrite (rl_type_wf t rl Hf Hne).
  assert (type_eqb u t = false) as -> by (unfold type_eqb; by apply bool_decide_eq_false).
  assert (type_eqb u bool_ctype = false) as ->; [|done].
  unfold type_eqb. apply bool_decide_eq_false. intros ->. apply Hb. reflexivity.
Qed.

(** add_range() never returns an empty list. *)
Lemma add_range_fuel_nonnil f rec rl min max :
  rec = true \/ (0 < f)%nat -> add_range_fuel (S f) rec rl min max <> [].
Proof.
  intros H. cbn [add_range_fuel].
  destruct (add_range_types _ _ _ _) as [[l' m] x].
  destruct (if sval_cmp m x >? 0 then _ else _) as [m' x'].
  unfold collapse_pointer_rl. repeat case_if; try apply add_range_loop_nonnil.
  destruct H as [H|H]; [by subst rec|]. destruct f as [|f]; [lia|]. cbn [add_range_fuel].
  destruct (add_range_types _ _ _ _) as [[l'' m''] x''].
  destruct (if sval_cmp m'' x'' >? 0 then _ else _) as [m3 x3]. simpl. apply add_range_loop_nonnil.
Qed.

Lemma add_range_nonnil rl min max : add_range rl min max <> [].
Proof. apply add_range_fuel_nonnil. right. lia. Qed.

Lemma adds_nonnil rs acc : acc <> [] -> adds rs acc <> [].
Proof.
  revert acc. induction rs as [|d rs IH]; intros acc Ha; simpl; [done|].
  apply IH, add_range_nonnil.
Qed.

(** add_range() with the ends in any order: ends in the wrong order stand for
    the whole type. *)
Definition added (u : option symbol) (a b z : Z) : Prop :=
  a <= z <= b \/ b < a /\ in_type u z.

Lemma add_range_any u rl min max :
  std_type u -> type_is_ptr u = false -> wf_rl u rl -> wf_sval u min -> wf_sval u max ->
  wf_rl u (add_range rl min max) /\
  (forall z, rl_has (add_range rl min max) z <-> added u (num min) (num max) z \/ rl_has rl z).
Proof.
  intros Hu Hp Hrl Wm Wx. unfold added.
  destruct (Z.le_gt_cases (num min) (num max)) as [O|O].
  { destruct (add_range_wf u Hu rl min max) as [I1 I2]; auto; [by left|].
    split; [done|]. intros z. rewrite I2. intuition lia. }
  pose proof (wf_type_min u Hu) as Wa. pose proof (wf_type_max u Hu) as Wb.
  pose proof (num_type_min u Hu) as Ea. pose proof (num_type_max u Hu) as Eb.
  pose proof (wf_num _ _ Wa) as [_ Na]. rewrite Ea in Na.
  assert (add_range rl min max = add_range rl (sval_type_min u) (sval_type_max u)) as ->.
  { unfold add_range. cbn [add_range_fuel].
    rewrite !(add_range_types_same u) by (done || apply Hrl).
    rewrite !(sval_cmp_gtb u) by done. rewrite (proj2 (Z.ltb_lt _ _)) by lia.
    rewrite (proj2 (Z.ltb_ge (num (sval_type_max u)) _)) by lia.
    rewrite (wf_type _ _ Wm), (wf_type _ _ Wa).
    by rewrite !(collapse_none u) by (done || by right; left). }
  destruct (add_range_wf u Hu rl (sval_type_min u) (sval_type_max u)) as [I1 I2]; auto; [lia|by left|].
  split; [done|]. intros z. rewrite I2, Ea, Eb. unfold in_type in *. intuition lia.
Qed.

(** *** The numbers a cast moves *)

(** The casts whose results hold every converted number. *)
Definition safe_cast (t u : option symbol) : Prop :=
  type_unsigned u = true \/ type_unsigned t = true \/ type_bits t <= type_bits u.

Lemma not_too_big t u s :
  std_type t -> std_type u -> wf_sval t s -> safe_cast t u ->
  sval_too_big u s = false -> - 2 ^ type_bits u <= num s < 2 ^ type_bits u.
Proof.
  intros Tt Tu Hs Hsafe. unfold sval_too_big.
  rewrite (sval_type_max_std u Tu), (sval_type_min_std u Tu). unfold sval_of, uvalue; simpl.
  pose proof (wf_num _ _ Hs) as Hn. pose proof (wf_s64 _ _ Hs) as Hv. unfold in_type in Hn.
  unfold safe_cast, num, uvalue in *. rewrite (wf_type _ _ Hs), (std_signed t Tt) in *.
  std_cases Tt; std_cases Tu; rewrite ?Hu, ?Hu0, ?Hw, ?Hw0, ?Hmin, ?Hmax, ?Hmin0, ?Hmax0 in *; simpl.
  all: try (exfalso; destruct Hsafe as [Hsafe|[Hsafe|Hsafe]];
            [discriminate Hsafe|discriminate Hsafe|lia]).
  all: clear Hsafe; unfold Z.lnot, Z.pred; repeat case_if; intros X; try discriminate X; zbool;
    try match goal with H : (_ && _)%bool = false |- _ => apply andb_false_iff in H as [H|H] end;
    zbool; wrap_lia.
Qed.

(** Conversion in the reach of one period. *)
Lemma wrap_cases u z :
  std_type u -> type_bits u <> 1 -> - 2 ^ type_bits u <= z < 2 ^ type_bits u ->
  wrap u z = z /\ in_type u z \/
  z < 0 /\ wrap u z = z + 2 ^ type_bits u /\ (type_unsigned u = true \/ z < tmin u) \/
  tmax u < z /\ wrap u z = z - 2 ^ type_bits u.
Proof.
  intros Tu Hb Hz. unfold wrap, in_type. rewrite (proj2 (Z.eqb_neq _ _) Hb).
  std_cases Tu; try done; rewrite Hu, Hw, Hmin, Hmax in *; wrap_lia.
Qed.

(** The bits from [b] up. *)
Lemma high_bits x b : 0 <= b <= 64 ->
  Z.land (u64 x) (u64 (Z.shiftl ULLONG_MAX b)) = u64 x - u64 x mod 2 ^ b.
Proof.
  intros Hb. replace (u64 x - u64 x mod 2 ^ b) with (Z.shiftl (Z.shiftr (u64 x) b) b).
  2: { rewrite Z.shiftl_mul_pow2, Z.shiftr_div_pow2 by lia. rewrite (Z.mod_eq (u64 x) (2 ^ b)) by lia. lia. }
  apply Z.bits_inj'. intros n Hn. rewrite Z.land_spec, Z.shiftl_spec by done.
  unfold u64, two64. change 18446744073709551616 with (2 ^ 64).
  destruct (Z.lt_ge_cases n 64).
  - rewrite !Z.mod_pow2_bits_low by lia. rewrite Z.shiftl_spec by lia.
    destruct (Z.lt_ge_cases n b).
    + rewrite !(Z.testbit_neg_r _ (n - b)) by lia. apply andb_false_r.
    + rewrite Z.shiftr_spec, Z.mod_pow2_bits_low by lia.
      replace (Z.testbit ULLONG_MAX (n - b)) with true; [rewrite andb_true_r; f_equal; lia|].
      change ULLONG_MAX with (Z.ones 64). symmetry. apply Z.ones_spec_low. lia.
  - rewrite !Z.mod_pow2_bits_high by lia. simpl.
    rewrite Z.shiftr_spec by lia. rewrite Z.mod_pow2_bits_high by lia. done.
Qed.

Lemma truncates_nicely_spec t u a b z :
  std_type t -> std_type u -> type_bits u <> 1 -> wf_sval t a -> wf_sval t b ->
  truncates_nicely u a b = true -> num a <= z <= num b ->
  added u (wrap u (num a)) (wrap u (num b)) (wrap u z).
Proof.
  intros Tt Tu Hb Ha Hb' H Hz. unfold truncates_nicely in H.
  rewrite (wf_type _ _ Ha), (std_not_fp _ Tt) in H. simpl in H.
  destruct (type_bits u >=? type_bits t) eqn:E; [done|]. zbool.
  pose proof (wrap_in_type u z Tu) as Hw.
  rewrite <- (num_u64 t a Ha), <- (num_u64 t b Hb') in H.
  pose proof (wf_num _ _ Ha) as Na. pose proof (wf_num _ _ Hb') as Nb.
  rewrite !high_bits in H by (pose proof (std_bits_range u Tu); lia). unfold added, wrap, in_type in *. rewrite (proj2 (Z.eqb_neq _ _) Hb) in *.
  std_cases Tu; try done; std_cases Tt; rewrite ?Hu, ?Hu0, ?Hw0, ?Hw1, ?Hmin, ?Hmax, ?Hmin0, ?Hmax0 in *; try lia; wrap_lia.
Qed.

(** [rl'] is a list of type [u] that holds the numbers of [rl] and those of [S]. *)
Definition covers (u : option symbol) (rl rl' : range_list) (S : Z -> Prop) : Prop :=
  wf_rl u rl' /\ forall z, rl_has rl z \/ S z -> rl_has rl' z.

Section casting.
Context (t u : option symbol) (Tt : std_type t) (Tu : std_type u).
Context (Hp : type_is_ptr u = false) (Hb : type_bits u <> 1) (Hsafe : safe_cast t u).

Lemma covers_add rl min max (S : Z -> Prop) :
  wf_rl u rl -> wf_sval u min -> wf_sval u max ->
  (forall z, S z -> added u (num min) (num max) z) ->
  covers u rl (add_range rl min max) S.
Proof.
  intros Hrl Wm Wx HS. destruct (add_range_any u rl min max) as [I1 I2]; auto.
  split; [done|]. intros z [Hz|Hz]; rewrite I2; auto.
Qed.

Lemma covers_add2 rl a b c d (S : Z -> Prop) :
  wf_rl u rl -> wf_sval u a -> wf_sval u b -> wf_sval u c -> wf_sval u d ->
  (forall z, S z -> added u (num a) (num b) z \/ added u (num c) (num d) z) ->
  covers u rl (add_range (add_range rl a b) c d) S.
Proof.
  intros Hrl Wa Wb Wc Wd HS. destruct (add_range_any u rl a b) as [I1 I2]; auto.
  destruct (add_range_any u (add_range rl a b) c d) as [J1 J2]; auto.
  split; [done|]. intros z [Hz|Hz]; rewrite J2, I2; [auto|]. destruct (HS z Hz); auto.
Qed.

Lemma covers_more rl rl' a b (S : Z -> Prop) :
  covers u rl rl' S -> wf_sval u a -> wf_sval u b -> covers u rl (add_range rl' a b) S.
Proof.
  intros [H1 H2] Wa Wb. destruct (add_range_any u rl' a b) as [I1 I2]; auto.
  split; [done|]. intros z Hz. rewrite I2. auto.
Qed.

(** The converted numbers of a range. *)
Definition converted (d : data_range) (y : Z) : Prop :=
  exists z, in_range d z /\ y = wrap u z.

Lemma add_range_whole rl d : wf_rl u rl ->
  covers u rl (add_range rl (sval_type_min u) (sval_type_max u)) (converted d).
Proof.
  intros Hrl. apply covers_add; auto using wf_type_min, wf_type_max.
  rewrite (num_type_min u Tu), (num_type_max u Tu). intros y (z & _ & ->). left.
  apply wrap_in_type, Tu.
Qed.

(** add_range_t_high() is left with an unsigned range that reaches into the
    numbers which become negative. *)
Lemma high_branch d :
  wf_range t d ->
  - 2 ^ type_bits u <= num (rmin d) -> num (rmax d) < 2 ^ type_bits u ->
  ~ (in_type u (num (rmin d)) /\ in_type u (num (rmax d))) ->
  ~ (num (rmin d) < 0 /\ type_unsigned u = true) ->
  type_unsigned t = true /\ type_unsigned u = false /\
  0 <= num (rmin d) /\ wrap u (num (rmax d)) < 0.
Proof.
  intros [W X O] Lo Hi Hf Hn. pose proof (wf_num _ _ W) as Nw. pose proof (wf_num _ _ X) as Nx.
  destruct (type_unsigned u) eqn:Uu.
  { destruct Hf. unfold in_type, tmin, tmax. rewrite Uu. lia. }
  destruct (type_unsigned t) eqn:Ut.
  - assert (0 <= num (rmin d)) by (unfold in_type, tmin in Nw; rewrite Ut in Nw; lia).
    repeat (split; [done|]). destruct (wrap_cases u (num (rmax d)) Tu Hb ltac:(lia)) as [?|[?|?]]; [|lia|lia].
    destruct Hf. unfold in_type in *. pose proof (tmin_in_type u Tu) as [? ?].
    split; [|lia]. unfold tmin in *. rewrite Uu in *. pose proof (std_bits_range u Tu).
    pose proof (Z.pow_pos_nonneg 2 (type_bits u - 1)). lia.
  - destruct Hf. destruct Hsafe as [?|[?|Hle]]; [congruence|congruence|].
    split; apply (in_type_mono t u); auto;
      rewrite !type_positive_bits_std by done; rewrite Ut, Uu; lia.
Qed.

Lemma zero_in_type v : std_type v -> in_type v 0.
Proof. intros Tv. unfold in_type. std_cases Tv; lia. Qed.

(** Compare the conversions of the ends of [d] and of [z]. *)
Ltac period_lia d z :=
  match goal with Hz : in_range d z |- _ => unfold in_range in Hz end;
  pose proof (tmin_in_type u Tu); pose proof (zero_in_type u Tu);
  pose proof (wrap_cases u (num (rmax d)) Tu Hb ltac:(lia));
  pose proof (wrap_cases u (num (rmin d)) Tu Hb ltac:(lia));
  pose proof (wrap_cases u z Tu Hb ltac:(lia)); pose proof (wrap_in_type u z Tu); unfold in_type in *; lia.

(** Negative numbers that become large ones. *)
Lemma negative_branch rl d :
  wf_rl u rl -> wf_range t d -> num (rmin d) < 0 -> type_unsigned u = true ->
  - 2 ^ type_bits u <= num (rmin d) -> num (rmax d) < 2 ^ type_bits u ->
  covers u rl
    (if 0 <=? num (rmax d) then
       if sval_too_high u (rmax d) then add_range rl (sval_type_min u) (sval_type_max u)
       else add_range_t_high add_range u
              (add_range (add_range rl (sval_type_val u 0) (sval_cast u (rmax d)))
                 (sval_cast u (rmin d)) (sval_type_max u))
              (sval_cast u (rmin d)) (sval_type_max u)
     else add_range_t_high add_range u
            (add_range rl (sval_cast u (rmin d)) (sval_cast u (rmax d)))
            (sval_cast u (rmin d)) (sval_cast u (rmax d)))
    (converted d).
Proof.
  intros Hrl [W X O] Hn Uu Lo Hi.
  pose proof (sval_cast_wf' u t _ Tu Tt W) as Wc. pose proof (sval_cast_wf' u t _ Tu Tt X) as Xc.
  pose proof (num_sval_cast u t _ Tu Tt W) as Ec. pose proof (num_sval_cast u t _ Tu Tt X) as Fc.
  pose proof (wf_type_max u Tu) as Wb. pose proof (num_type_max u Tu) as Eb.
  assert (forall rl a b, wf_sval u a -> wf_sval u b ->
    add_range_t_high add_range u rl a b = add_range rl a b) as Hh.
  { intros l a b Ha Hb'. unfold add_range_t_high. rewrite (sval_cast_id u b) by done.
    rewrite (sval_is_negative_spec u) by done. pose proof (wf_num _ _ Hb') as [Hx _].
    unfold tmin in Hx. rewrite Uu in Hx. rewrite (proj2 (Z.ltb_ge _ _)) by lia. rewrite andb_false_r.
    by rewrite !(sval_cast_id u). }
  rewrite !Hh by done. clear Hh.
  assert (tmin u = 0 /\ tmax u = 2 ^ type_bits u - 1) as [M0 M1] by (unfold tmin, tmax; by rewrite Uu).
  destruct (Z.leb_spec 0 (num (rmax d))).
  - rewrite (sval_too_high_spec u t) by done.
    destruct (Z.ltb_spec (tmax u) (num (rmax d))); [by apply add_range_whole|].
    apply covers_more; auto. pose proof (zero_in_type u Tu) as Z0.
    assert (sval_type_val u 0 = sval_of u 0) as ->
      by (unfold sval_type_val; by destruct (std_type_some u Tu) as [? ->]).
    apply covers_add2; auto using wf_sval_of.
    rewrite (num_sval_of u 0), Ec, Fc, Eb by done. intros y (z & Hz & ->).
    destruct (Z.lt_ge_cases z 0); [right; left|left; left]; period_lia d z.
  - apply covers_more; auto. apply covers_add; auto. rewrite Ec, Fc. intros y (z & Hz & ->).
    left. period_lia d z.
Qed.

Lemma add_range_t_high_sound rl d :
  wf_rl u rl -> wf_range t d ->
  - 2 ^ type_bits u <= num (rmin d) -> num (rmax d) < 2 ^ type_bits u ->
  ~ (in_type u (num (rmin d)) /\ in_type u (num (rmax d))) ->
  ~ (num (rmin d) < 0 /\ type_unsigned u = true) ->
  covers u rl (add_range_t_high add_range u rl (rmin d) (rmax d)) (converted d).
Proof.
  intros Hrl [W X O] Lo Hi Hf Hn.
  pose proof (sval_cast_wf' u t _ Tu Tt W) as Wc. pose proof (sval_cast_wf' u t _ Tu Tt X) as Xc.
  pose proof (num_sval_cast u t _ Tu Tt W) as Ec. pose proof (num_sval_cast u t _ Tu Tt X) as Fc.
  pose proof (wf_type_min u Tu) as Wa. pose proof (wf_type_max u Tu) as Wb.
  pose proof (num_type_min u Tu) as Ea. pose proof (num_type_max u Tu) as Eb.
  unfold add_range_t_high.
  rewrite (sval_unsigned_wf t _ Tt (wf_type _ _ X)).
  rewrite !(sval_is_negative_spec u) by done. rewrite Ec, Fc.
  destruct (high_branch d) as (Ut & Uu & Hmin & Hneg); auto; [by split|].
  rewrite Ut, (proj2 (Z.ltb_lt _ _) Hneg); simpl.
  destruct (Z.ltb_spec (wrap u (num (rmin d))) 0) as [Hm|Hm]; simpl;
    rewrite (sval_cast_id u (sval_cast u (rmax d))), ?(sval_cast_id u (sval_cast u (rmin d))),
      ?(sval_cast_id u (sval_type_min u)) by done.
  - apply covers_more; auto. apply covers_add; auto.
    rewrite Ec, Fc. intros y (z & Hz & ->). left. period_lia d z.
  - apply covers_more; auto. apply covers_add2; auto.
    rewrite Ec, Fc, Ea, Eb. intros y (z & Hz & ->).
    destruct (Z.le_gt_cases z (tmax u)); [left; left|right; left]; period_lia d z.
Qed.

(** add_range_t(): whatever branch it takes, every converted number is added. *)
Lemma add_range_t_sound rl d :
  wf_rl u rl -> wf_range t d ->
  covers u rl (add_range_t u rl (rmin d) (rmax d)) (converted d).
Proof.
  intros Hrl [W X O].
  pose proof (sval_cast_wf' u t _ Tu Tt W) as Wc. pose proof (sval_cast_wf' u t _ Tu Tt X) as Xc.
  pose proof (num_sval_cast u t _ Tu Tt W) as Ec. pose proof (num_sval_cast u t _ Tu Tt X) as Fc.
  unfold add_range_t, add_range_t_with.
  rewrite (sval_cmp_eqb t) by done. destruct (Z.eqb_spec (num (rmin d)) (num (rmax d))) as [E|E].
  { apply covers_add; auto. rewrite Ec, Fc. intros y (z & Hz & ->). unfold in_range in Hz.
    assert (z = num (rmin d)) as -> by lia. rewrite <- E. left. lia. }
  destruct (sval_fits u (rmin d) && sval_fits u (rmax d)) eqn:Fit.
  { apply andb_true_iff in Fit as [F1 F2]. rewrite (sval_fits_spec u t) in F1, F2 by done.
    apply covers_add; auto. rewrite Ec, Fc. intros y (z & Hz & ->). unfold in_range, in_type in *.
    left. rewrite !wrap_id; auto; unfold in_type; lia. }
  destruct (truncates_nicely u (rmin d) (rmax d)) eqn:Tr.
  { apply covers_add; auto. rewrite Ec, Fc. intros y (z & Hz & ->).
    by apply (truncates_nicely_spec t u (rmin d) (rmax d)). }
  destruct (sval_too_big u (rmin d) || sval_too_big u (rmax d)) eqn:Big; [by apply add_range_whole|].
  apply orb_false_iff in Big as [B1 B2]. apply (not_too_big t u) in B1, B2; auto.
  assert (~ (in_type u (num (rmin d)) /\ in_type u (num (rmax d)))) as Hf.
  { intros [F1 F2]. rewrite <- (sval_fits_spec u t) in F1, F2 by done. by rewrite F1, F2 in Fit. }
  rewrite (sval_is_negative_spec t), (sval_is_positive_spec t) by done.
  destruct (Z.ltb_spec (num (rmin d)) 0) as [Hn|Hn]; destruct (type_unsigned u) eqn:Uu; cbn [andb].
  1: apply negative_branch; auto; [by split|lia|lia].
  all: apply add_range_t_high_sound; auto; try lia; try by split.
  all: intros [? ?]; lia || congruence.
Qed.

(** The loop of cast_rl(). *)
Lemma cast_loop_sound rl acc :
  wf_rl u acc -> Forall (wf_range t) rl ->
  covers u acc (fold_left (fun ret tmp => add_range_t u ret (rmin tmp) (rmax tmp)) rl acc)
    (fun y => exists z, rl_has rl z /\ y = wrap u z).
Proof.
  intros Ha Hf. revert acc Ha. induction Hf as [|d rl Hd Hf IH]; intros acc Ha; simpl.
  - split; [done|]. intros y [Hy|(z & Hz & _)]; [done|]. by rewrite rl_has_nil in Hz.
  - destruct (add_range_t_sound acc d Ha Hd) as [I1 I2]. destruct (IH _ I1) as [J1 J2].
    split; [done|]. intros y Hy. apply J2. destruct Hy as [Hy|(z & Hz & ->)]; [auto|].
    apply rl_has_cons in Hz as [Hz|Hz]; [left|right; eauto]. apply I2. right. by exists z.
Qed.

(** cast_rl() holds every converted number. *)
Lemma cast_rl_sound rl :
  Forall (wf_range t) rl -> rl <> [] -> u <> t ->
  wf_rl u (cast_rl u rl) /\ (forall z, rl_has rl z -> rl_has (cast_rl u rl) (wrap u z)).
Proof.
  intros Hf Hne Hut. rewrite (cast_rl_eq t) by done.
  destruct (cast_loop_sound rl [] (wf_rl_nil u) Hf) as [I1 I2]. cbv zeta.
  destruct (fold_left _ rl []) as [|e r] eqn:E; [|split; [done|eauto]].
  exfalso. destruct Hf as [|d l [W X O] Hf]; [done|].
  destruct (proj1 (rl_has_nil (wrap u (num (rmin d))))). apply I2. right. exists (num (rmin d)).
  split; [|done]. apply rl_has_cons. left. unfold in_range. lia.
Qed.
End casting.

(** *** Casts that change no number *)

Lemma cast_loop_exact t u rl acc :
  std_type t -> std_type u -> Forall (wf_range t) rl -> (forall z, rl_has rl z -> in_type u z) ->
  fold_left (fun ret tmp => add_range_t u ret (rmin tmp) (rmax tmp)) rl acc =
    adds (cast_range u <$> rl) acc /\
  Forall (wf_range u) (cast_range u <$> rl) /\
  (forall z, rl_has (cast_range u <$> rl) z <-> rl_has rl z).
Proof.
  intros Tt Tu Hf. revert acc. induction Hf as [|d rl Hd Hf IH]; intros acc Hin; simpl.
  { split; [done|]. split; [constructor|done]. }
  assert (in_type u (num (rmin d)) /\ in_type u (num (rmax d))) as [I J].
  { destruct Hd as [W X O]. split; apply Hin, rl_has_cons; left; unfold in_range; lia. }
  destruct (cast_range_wf t u d Tt Tu Hd I J) as [C1 C2].
  destruct (IH (add_range acc (sval_cast u (rmin d)) (sval_cast u (rmax d)))) as (E & F & G).
  { intros z Hz. apply Hin, rl_has_cons. by right. }
  rewrite (add_range_t_fits t) by done. simpl. split; [by rewrite E|]. split; [by constructor|].
  intros z. by rewrite !rl_has_cons, C2, G.
Qed.

Lemma cast_rl_exact t u rl :
  std_type t -> std_type u -> type_bits u <> 1 -> wf_rl t rl ->
  (forall z, rl_has rl z -> in_type u z) -> can_add u (length rl) ->
  wf_rl u (cast_rl u rl) /\ (length (cast_rl u rl) <= length rl)%nat /\
  (forall z, rl_has (cast_rl u rl) z <-> rl_has rl z).
Proof.
  intros Tt Tu Hb [Hf Hs] Hin Hc. destruct (decide (rl = [])) as [->|Hne].
  { split; [apply wf_rl_nil|done]. }
  destruct (decide (u = t)) as [->|Hut].
  { rewrite cast_rl_same by done. split; [by split|done]. }
  rewrite (cast_rl_eq t) by done. cbv zeta.
  destruct (cast_loop_exact t u rl [] Tt Tu Hf Hin) as (-> & F & G).
  destruct (adds_nil u Tu (cast_range u <$> rl) F) as (A & B & C); [by rewrite length_fmap|].
  assert (adds (cast_range u <$> rl) [] <> []) as Hn.
  { destruct rl as [|d l]; [done|]. simpl. apply adds_nonnil, add_range_nonnil. }
  destruct (adds (cast_range u <$> rl) []) eqn:E; [done|]. rewrite <- E in *.
  split; [done|]. split; [by rewrite length_fmap in B|]. intros z. by rewrite C.
Qed.

(** *** Casts to _Bool *)

Lemma bool_ctype_std : std_type bool_ctype.
Proof. split; [reflexivity..|]. right. by split. Qed.

Lemma bool_value (b : bool) :
  wf_sval bool_ctype (Sval bool_ctype (if b then 1 else 0)) /\
  num (Sval bool_ctype (if b then 1 else 0)) = if b then 1 else 0.
Proof.
  assert (in_type bool_ctype (if b then 1 else 0)) as H.
  { pose proof bool_ctype_std as Tb. unfold in_type, tmin, tmax.
    change (type_unsigned bool_ctype) with true. change (type_bits bool_ctype) with 1. destruct b; lia. }
  assert (Sval bool_ctype (if b then 1 else 0) = sval_of bool_ctype (if b then 1 else 0)) as ->
    by (unfold sval_of; by destruct b).
  split; [by apply (wf_sval_of _ _ bool_ctype_std)|by apply (num_sval_of _ _ bool_ctype_std)].
Qed.

(** The two flags of cast_to_bool(). *)
Lemma cast_to_bool_flags t rl :
  std_type t -> Forall (wf_range t) rl ->
  (existsb (fun tmp => truth (value (rmin tmp)) || truth (value (rmax tmp))) rl = true <->
     exists z, rl_has rl z /\ z <> 0) /\
  (existsb (fun tmp =>
      if sval_is_negative (rmin tmp) && sval_is_negative (rmax tmp) then false
      else if (value (rmin tmp) =? 0) || (value (rmax tmp) =? 0) then true
      else sval_is_negative (rmin tmp) && (value (rmax tmp) >? 0)) rl = true <-> rl_has rl 0).
Proof.
  intros Tt Hf.
  assert (forall s, wf_sval t s -> value s = 0 <-> num s = 0) as V.
  { intros s Ws. pose proof (num_mod_value s) as M. pose proof (num_bound t s Tt Ws).
    pose proof (wf_s64 _ _ Ws). split; intros E; rewrite E in M; wrap_lia. }
  induction Hf as [|d rl [W X O] Hf [IH1 IH2]]; cbn [existsb].
  { split; [|by rewrite rl_has_nil]. split; [done|]. intros (z & Hz & _). by apply rl_has_nil in Hz. }
  rewrite !orb_true_iff, IH1, IH2. unfold truth. setoid_rewrite rl_has_cons. unfold in_range. split.
  - rewrite !negb_true_iff, !Z.eqb_neq, (V _ W), (V _ X). split.
    + intros [[H|H]|(z & Hz & H)]; [exists (num (rmin d))|exists (num (rmax d))|exists z]; split; auto; left; lia.
    + intros (z & [Hz|Hz] & H); [left|right; eauto]. lia.
  - rewrite !(sval_is_negative_spec t) by done.
    assert (forall s, wf_sval t s -> 0 <= num s -> (value s >? 0) = true -> 0 < num s) as P.
    { intros s Ws H0 Hv. zbool. assert (num s <> 0); [|lia]. rewrite <- (V s Ws). lia. }
    assert ((value (rmin d) =? 0) = (num (rmin d) =? 0)) as ->
      by (apply eq_true_iff_eq; rewrite !Z.eqb_eq; by apply V).
    assert ((value (rmax d) =? 0) = (num (rmax d) =? 0)) as ->
      by (apply eq_true_iff_eq; rewrite !Z.eqb_eq; by apply V).
    assert (num (rmin d) < 0 -> (value (rmax d) >? 0) = (0 <? num (rmax d))) as G.
    { intros Hn. pose proof (wf_num _ _ W) as [L _]. destruct (type_unsigned t) eqn:Hu.
      - unfold tmin in L. rewrite Hu in L. lia.
      - rewrite (num_signed t _ (wf_type _ _ X) Hu). by rewrite Z.gtb_ltb. }
    destruct (Z.ltb_spec (num (rmin d)) 0) as [Hn|Hn]; cbn [andb]; [rewrite (G Hn)|];
      repeat case_if; zbool; rewrite ?orb_true_iff, ?Z.eqb_eq, ?Z.ltb_lt in *; intuition (lia || discriminate).
Qed.

Lemma cast_rl_bool t rl :
  std_type t -> wf_rl t rl -> rl <> [] -> t <> bool_ctype ->
  wf_rl bool_ctype (cast_rl bool_ctype rl) /\
  (forall y, rl_has (cast_rl bool_ctype rl) y <-> exists z, rl_has rl z /\ y = wrap bool_ctype z).
Proof.
  intros Tt [Hf _] Hne Htb. destruct (cast_to_bool_flags t rl Tt Hf) as [F1 F0].
  assert (cast_rl bool_ctype rl = cast_to_bool rl) as ->.
  { unfold cast_rl, cast_rl_with. destruct rl as [|d l] eqn:El; [done|]. rewrite <- El in *.
    rewrite (rl_is_sane_wf t Tt rl Hf), (rl_type_wf t rl Hf Hne).
    assert (type_eqb bool_ctype t = false) as -> by (unfold type_eqb; apply bool_decide_eq_false; congruence).
    by rewrite type_eqb_refl. }
  unfold cast_to_bool, cast_to_bool_with. revert F1 F0.
  set (one := existsb _ rl). set (zero := existsb _ rl). clearbody one zero. intros F1 F0.
  assert (exists z, rl_has rl z) as (z0 & Hz0).
  { destruct Hf as [|d l [W X O] Hf]; [done|]. exists (num (rmin d)). apply rl_has_cons. left. unfold in_range. lia. }
  assert (zero = true \/ one = true) as Hor.
  { destruct (Z.eq_dec z0 0) as [->|]; [left; by apply F0|right; apply F1; eauto]. }
  assert (Sval bool_ctype (if zero then 0 else 1) = Sval bool_ctype (if negb zero then 1 else 0)) as ->
    by (by destruct zero).
  destruct (bool_value (negb zero)) as [A1 A2]. destruct (bool_value one) as [B1 B2].
  destruct (add_range_any bool_ctype [] _ _ bool_ctype_std eq_refl (wf_rl_nil _) A1 B1) as [C1 C2].
  split; [done|]. intros y. rewrite C2, A2, B2, rl_has_nil. unfold added, wrap.
  change (type_bits bool_ctype =? 1) with true. cbn match. split.
  - intros [H|[]]. assert (y = 0 /\ zero = true \/ y = 1 /\ one = true) as [[-> H0]|[-> H1]].
    { destruct zero, one; simpl in H; intuition (lia || discriminate). }
    + exists 0. split; [by apply F0|done].
    + apply F1 in H1 as (z & Hz & Nz). exists z. split; [done|]. by rewrite (proj2 (Z.eqb_neq _ _) Nz).
  - intros (z & Hz & ->). left. destruct (Z.eqb_spec z 0) as [->|Nz].
    + apply F0 in Hz as ->. left. simpl. destruct one; lia.
    + assert (one = true) as -> by (apply F1; eauto). left. destruct zero; simpl; lia.
Qed.
End cast.
