(* ===== verification/RangeCompare.v ===== *)
(** * Comparing range lists: smatch_ranges.c, second part

    Which comparisons between two range lists may be true or false, and the
    lists that remain on each side of a condition. *)
From S2P Require Import Prelude Types Tokens Sval RangeList.

Section compare.
Context `{Tgt : Target} `{Fp : FloatOps}.

Definition add_one (sval : sval_t) : sval_t := set_value sval (value sval + 1).
Definition sub_one (sval : sval_t) : sval_t := set_value sval (value sval - 1).

(** The type two lists are compared in: int, or the type with more bits. *)
Definition get_binop_type (left right : range_list) : option symbol :=
  let type := int_ctype in
  let type := if type_positive_bits (rl_type left) >? type_positive_bits type
              then rl_type left else type in
  if type_positive_bits (rl_type right) >? type_positive_bits type
  then rl_type right else type.

(** ** Pairs of ranges *)

Definition true_comparison_range (left : data_range) (comparison : op_tok)
    (right : data_range) : bool :=
  match comparison with
  | OP_LT | SPECIAL_UNSIGNED_LT => sval_cmp (rmin left) (rmax right) <? 0
  | SPECIAL_UNSIGNED_LTE | SPECIAL_LTE => sval_cmp (rmin left) (rmax right) <=? 0
  | SPECIAL_EQUAL =>
    if sval_cmp (rmax left) (rmin right) <? 0 then false
    else if sval_cmp (rmin left) (rmax right) >? 0 then false
    else true
  | SPECIAL_UNSIGNED_GTE | SPECIAL_GTE => sval_cmp (rmax left) (rmin right) >=? 0
  | OP_GT | SPECIAL_UNSIGNED_GT => sval_cmp (rmax left) (rmin right) >? 0
  | SPECIAL_NOTEQUAL =>
    if negb (sval_cmp (rmin left) (rmax left) =? 0) then true
    else if negb (sval_cmp (rmin right) (rmax right) =? 0) then true
    else negb (sval_cmp (rmin left) (rmin right) =? 0)
  | _ => false
  end.

Definition true_comparison_range_LR (comparison : op_tok) (var val : data_range)
    (left : bool) : bool :=
  if left then true_comparison_range var comparison val
  else true_comparison_range val comparison var.

Definition false_comparison_range_sval (left : data_range) (comparison : op_tok)
    (right : data_range) : bool :=
  match comparison with
  | OP_LT | SPECIAL_UNSIGNED_LT => sval_cmp (rmax left) (rmin right) >=? 0
  | SPECIAL_UNSIGNED_LTE | SPECIAL_LTE => sval_cmp (rmax left) (rmin right) >? 0
  | SPECIAL_EQUAL =>
    if negb (sval_cmp (rmin left) (rmax left) =? 0) then true
    else if negb (sval_cmp (rmin right) (rmax right) =? 0) then true
    else negb (sval_cmp (rmin left) (rmin right) =? 0)
  | SPECIAL_UNSIGNED_GTE | SPECIAL_GTE => sval_cmp (rmin left) (rmax right) <? 0
  | OP_GT | SPECIAL_UNSIGNED_GT => sval_cmp (rmin left) (rmax right) <=? 0
  | SPECIAL_NOTEQUAL =>
    if sval_cmp (rmax left) (rmin right) <? 0 then false
    else if sval_cmp (rmin left) (rmax right) >? 0 then false
    else true
  | _ => false
  end.

Definition false_comparison_range_LR (comparison : op_tok) (var val : data_range)
    (left : bool) : bool :=
  if left then false_comparison_range_sval var comparison val
  else false_comparison_range_sval val comparison var.

(** ** Lists *)

(** The two nested FOR_EACH_PTR loops that stop at the first hit. *)
Definition exists_pair (f : data_range -> data_range -> bool)
    (left_ranges right_ranges : range_list) : bool :=
  existsb (fun left_tmp => existsb (f left_tmp) right_ranges) left_ranges.

Definition possibly_true_rl (left_ranges : range_list) (comparison : op_tok)
    (right_ranges : range_list) : bool :=
  if bool_decide (left_ranges = []) || bool_decide (right_ranges = []) ||
     op_eqb comparison UNKNOWN_COMPARISON then true
  else if op_eqb comparison IMPOSSIBLE_COMPARISON then false
  else
    let type := get_binop_type left_ranges right_ranges in
    exists_pair (fun l r => true_comparison_range l comparison r)
      (cast_rl type left_ranges) (cast_rl type right_ranges).

Definition possibly_false_rl (left_ranges : range_list) (comparison : op_tok)
    (right_ranges : range_list) : bool :=
  if bool_decide (left_ranges = []) || bool_decide (right_ranges = []) ||
     op_eqb comparison UNKNOWN_COMPARISON then true
  else if op_eqb comparison IMPOSSIBLE_COMPARISON then false
  else
    let type := get_binop_type left_ranges right_ranges in
    exists_pair (fun l r => false_comparison_range_sval l comparison r)
      (cast_rl type left_ranges) (cast_rl type right_ranges).

Definition possibly_true_rl_LR (comparison : op_tok) (a b : range_list) (left : bool) : bool :=
  if left then possibly_true_rl a comparison b else possibly_true_rl b comparison a.

Definition possibly_false_rl_LR (comparison : op_tok) (a b : range_list) (left : bool) : bool :=
  if left then possibly_false_rl a comparison b else possibly_false_rl b comparison a.

(** smatch_comparison.c: the comparison two lists imply. *)
Definition get_comparison_rl (left_rl right_rl : range_list) : op_tok :=
  match left_rl, right_rl with
  | [], _ => UNKNOWN_COMPARISON
  | _, [] => UNKNOWN_COMPARISON
  | _, _ =>
    let type := get_binop_type left_rl right_rl in
    let left_rl := cast_rl type left_rl in
    let right_rl := cast_rl type right_rl in
    let left_min := rl_min left_rl in
    let left_max := rl_max left_rl in
    let right_min := rl_min right_rl in
    let right_max := rl_max right_rl in
    if (value left_min =? value left_max) && (value right_min =? value right_max) &&
       (value left_min =? value right_min) then SPECIAL_EQUAL
    else if sval_cmp left_max right_min <? 0 then OP_LT
    else if sval_cmp left_max right_min =? 0 then SPECIAL_LTE
    else if sval_cmp left_min right_max >? 0 then OP_GT
    else if sval_cmp left_min right_max =? 0 then SPECIAL_GTE
    else UNKNOWN_COMPARISON
  end.

Definition ranges_equiv (one two : option data_range) : bool :=
  match one, two with
  | None, None => true
  | Some one, Some two =>
    (sval_cmp (rmin one) (rmin two) =? 0) && (sval_cmp (rmax one) (rmax two) =? 0)
  | _, _ => false
  end.

(** The loop of rl_equiv(): both lists are walked together. *)
Fixpoint rl_equiv_loop (one two : range_list) : bool :=
  match one, two with
  | [], [] => true
  | a :: one', b :: two' => ranges_equiv (Some a) (Some b) && rl_equiv_loop one' two'
  | _, _ => false
  end.

(** [one == two] on the list pointers only makes the answer for one list and
    itself faster; equal lists are equivalent either way. *)
Definition rl_equiv (one two : range_list) : bool :=
  match one, two with
  | [], [] => true
  | [], _ => false
  | _, [] => false
  | _, _ =>
    let '(one, two) :=
      if type_eqb (rl_type one) (rl_type two) then (one, two)
      else let type := get_binop_type one two in (cast_rl type one, cast_rl type two) in
    rl_equiv_loop one two
  end.

(** ** The two sides of a condition *)

(** filter_by_comparison(): what is left of [rl] when [rl comparison right]
    holds.  [None] is the fatal exit of rl_intersection(). *)
Definition filter_by_comparison (rl : range_list) (comparison : op_tok)
    (right : range_list) : option range_list :=
  match comparison with
  | UNKNOWN_COMPARISON | IMPOSSIBLE_COMPARISON => Some rl
  | _ =>
    let cast_type := get_binop_type rl right in
    let min := sval_type_min cast_type in
    let max := sval_type_max cast_type in
    let left_orig := cast_rl cast_type rl in
    let right_orig := cast_rl cast_type right in
    let done ret_rl := Some (cast_rl (rl_type rl) ret_rl) in
    match comparison with
    | OP_LT | SPECIAL_UNSIGNED_LT =>
      done (remove_range left_orig (rl_max right_orig) max)
    | SPECIAL_LTE | SPECIAL_UNSIGNED_LTE =>
      done (if negb (sval_is_max (rl_max right_orig))
            then remove_range left_orig (add_one (rl_max right_orig)) max else rl)
    | SPECIAL_EQUAL => ret_rl ← rl_intersection left_orig right_orig; done ret_rl
    | SPECIAL_GTE | SPECIAL_UNSIGNED_GTE =>
      done (if negb (sval_is_min (rl_min right_orig))
            then remove_range left_orig min (sub_one (rl_min right_orig)) else rl)
    | OP_GT | SPECIAL_UNSIGNED_GT =>
      done (remove_range left_orig min (rl_min right_orig))
    | SPECIAL_NOTEQUAL =>
      done (if sval_cmp (rl_min right_orig) (rl_max right_orig) =? 0
            then remove_range left_orig (rl_min right_orig) (rl_min right_orig) else rl)
    | _ => Some rl
    end
  end.

(** The four lists of split_comparison_rl(). *)
Record split : Set := Split {
  left_true : range_list;
  left_false : range_list;
  right_true : range_list;
  right_false : range_list
}.

Definition split_comparison_rl (left_orig : range_list) (op : op_tok)
    (right_orig : range_list) : option split :=
  let min := sval_type_min (rl_type left_orig) in
  let max := sval_type_max (rl_type left_orig) in
  let s := Split (clone_rl left_orig) (clone_rl left_orig)
                 (clone_rl right_orig) (clone_rl right_orig) in
  match op with
  | OP_LT | SPECIAL_UNSIGNED_LT => Some (Split
      (remove_range left_orig (rl_max right_orig) max)
      (if negb (sval_is_min (rl_min right_orig))
       then remove_range left_orig min (sub_one (rl_min right_orig)) else left_false s)
      (remove_range right_orig min (rl_min left_orig))
      (if negb (sval_is_max (rl_max left_orig))
       then remove_range right_orig (add_one (rl_max left_orig)) max else right_false s))
  | SPECIAL_UNSIGNED_LTE | SPECIAL_LTE =>
    let lf := remove_range left_orig min (rl_min right_orig) in
    let rf := remove_range right_orig (rl_max left_orig) max in
    Some (Split
      (if negb (sval_is_max (rl_max right_orig))
       then remove_range left_orig (add_one (rl_max right_orig)) max else left_true s)
      (if sval_cmp (rl_min left_orig) (rl_min right_orig) =? 0
       then remove_range lf (rl_min left_orig) (rl_min left_orig) else lf)
      (if negb (sval_is_min (rl_min left_orig))
       then remove_range right_orig min (sub_one (rl_min left_orig)) else right_true s)
      (if sval_cmp (rl_max left_orig) (rl_max right_orig) =? 0
       then remove_range rf (rl_max left_orig) (rl_max left_orig) else rf))
  | SPECIAL_EQUAL =>
    lt ← rl_intersection left_orig right_orig;
    Some (Split lt
      (if sval_cmp (rl_min right_orig) (rl_max right_orig) =? 0
       then remove_range left_orig (rl_min right_orig) (rl_min right_orig) else left_false s)
      (clone_rl lt)
      (if sval_cmp (rl_min left_orig) (rl_max left_orig) =? 0
       then remove_range right_orig (rl_min left_orig) (rl_min left_orig) else right_false s))
  | SPECIAL_UNSIGNED_GTE | SPECIAL_GTE =>
    let lf := remove_range left_orig (rl_max right_orig) max in
    let rf := remove_range right_orig min (rl_min left_orig) in
    Some (Split
      (if negb (sval_is_min (rl_min right_orig))
       then remove_range left_orig min (sub_one (rl_min right_orig)) else left_true s)
      (if sval_cmp (rl_max left_orig) (rl_max right_orig) =? 0
       then remove_range lf (rl_max left_orig) (rl_max left_orig) else lf)
      (if negb (sval_is_max (rl_max left_orig))
       then remove_range right_orig (add_one (rl_max left_orig)) max else right_true s)
      (if sval_cmp (rl_min left_orig) (rl_min right_orig) =? 0
       then remove_range rf (rl_min left_orig) (rl_min left_orig) else rf))
  | OP_GT | SPECIAL_UNSIGNED_GT => Some (Split
      (remove_range left_orig min (rl_min right_orig))
      (if negb (sval_is_max (rl_max right_orig))
       then remove_range left_orig (add_one (rl_max right_orig)) max else left_false s)
      (remove_range right_orig (rl_max left_orig) max)
      (if negb (sval_is_min (rl_min left_orig))
       then remove_range right_orig min (sub_one (rl_min left_orig)) else right_false s))
  | SPECIAL_NOTEQUAL =>
    lf ← rl_intersection left_orig right_orig;
    Some (Split
      (if sval_cmp (rl_min right_orig) (rl_max right_orig) =? 0
       then remove_range left_orig (rl_min right_orig) (rl_min right_orig) else left_true s)
      lf
      (if sval_cmp (rl_min left_orig) (rl_max left_orig) =? 0
       then remove_range right_orig (rl_min left_orig) (rl_min left_orig) else right_true s)
      (clone_rl lf))
  | _ => Some s
  end.

(** ** Pointer values *)

Definition is_err_or_null (rl : range_list) : bool :=
  match rl with
  | [] => false
  | _ =>
    if (value (rl_min rl) =? 0) && (value (rl_max rl) =? 0) then true
    else
      let no_null := if negb (value (rl_min rl) =? 0) then rl
                     else remove_range rl (rl_min rl) (rl_min rl) in
      is_err_ptr (rl_min no_null) && is_err_ptr (rl_max no_null)
  end.

Definition is_oxdead (rl : range_list) : bool :=
  match rl_to_sval rl with
  | None => false
  | Some sval => Z.shiftr (uvalue sval) (bits_in_pointer - 16) =? 0xdead
  end.

Definition rl_is_zero (rl : range_list) : bool :=
  match rl with
  | [] => false
  | _ => (value (rl_min rl) =? 0) && (value (rl_max rl) =? 0)
  end.

Definition is_noderef_ptr_rl (rl : range_list) : bool :=
  match rl with
  | [] => false
  | _ =>
    if (value (rl_min rl) =? 0) && (value (rl_max rl) =? 0) then true
    else if is_err_or_null rl then true
    else is_oxdead rl
  end.

Definition sign_extend_err_ptr (v : Z) : Z :=
  if value (sval_type_max ulong_ctype) =? UINT_MAX then scast 32 v else v.

(** is_unknown_ptr() looks at the first two ranges. *)
Definition is_unknown_ptr (rl : range_list) : bool :=
  if is_whole_rl rl then true
  else existsb (fun drange =>
      (sval_cmp (rmin drange) valid_ptr_min_sval =? 0) &&
      (sval_cmp (rmax drange) valid_ptr_max_sval =? 0)) (take 2 rl).

Definition is_whole_ptr_rl (rl : range_list) : bool :=
  if is_whole_rl rl then true
  else match rl with
  | [one; two] =>
    (value (rmin one) =? 0) && (value (rmax one) =? 0) &&
    (uvalue (rmin two) =? valid_ptr_min) &&
    ((sval_cmp (rmax two) ulong_ULONG_MAX =? 0) ||
     (sval_cmp (rmax two) valid_ptr_max_sval =? 0))
  | _ => false
  end.

(** ** Casts of lists *)

Definition rl_truncate_cast (type : option symbol) (rl : range_list) : range_list :=
  match rl, type with
  | [], _ => []
  | _, None => rl
  | _, Some _ =>
    if type_eqb type (rl_type rl) then rl
    else fold_left (fun ret tmp =>
      let mask := u64 (2 ^ type_bits type - 1) in
      let '(min, max) :=
        if type_bits type <? type_bits (rl_type rl)
        then (set_value (rmin tmp) (Z.land (uvalue (rmin tmp)) mask),
              set_value (rmax tmp) (Z.land (uvalue (rmax tmp)) mask))
        else (rmin tmp, rmax tmp) in
      let '(min, max) := if sval_cmp min max >? 0
                         then (sval_cast type min, sval_cast type max) else (min, max) in
      add_range_t type ret min max) rl []
  end.

Definition rl_fits_in_type (rl : range_list) (type : option symbol) : bool :=
  if type_bits (rl_type rl) <=? type_bits type then true
  else if sval_cmp (rl_max rl) (sval_type_max type) >? 0 then false
  else if sval_is_negative (rl_min rl) && (sval_cmp (rl_min rl) (sval_type_min type) <? 0)
  then false
  else true.

(** ** Stacks of lists: the top is the last element *)

Definition tack_on (lst : range_list) (drange : data_range) : range_list := lst ++ [drange].

Definition push_rl (rl_stack : list range_list) (rl : range_list) : list range_list :=
  rl_stack ++ [rl].

Definition top_rl (rl_stack : list range_list) : range_list :=
  default [] (list.last rl_stack).

Definition pop_rl (rl_stack : list range_list) : range_list * list range_list :=
  (top_rl rl_stack, removelast rl_stack).

Definition filter_top_rl (rl_stack : list range_list) (flt : range_list) : list range_list :=
  let '(rl, rl_stack) := pop_rl rl_stack in
  push_rl rl_stack (rl_filter rl flt).

End compare.
