(* ===== verification/Comparison.v ===== *)
(** * The algebra of comparisons: smatch_comparison.c

    A relation two variables are known to have is an operator token, or
    [UNKNOWN_COMPARISON] (0), or [IMPOSSIBLE_COMPARISON] on a path that cannot
    be taken.  This file models the functions that turn comparisons into
    comparisons.  The sm_perror() message of an operator that is not a
    comparison has no other effect than the message. *)
From S2P Require Import Prelude Tokens.

Definition flip_comparison (op : op_tok) : op_tok :=
  match op with
  | UNKNOWN_COMPARISON => UNKNOWN_COMPARISON
  | OP_LT => OP_GT
  | SPECIAL_UNSIGNED_LT => SPECIAL_UNSIGNED_GT
  | SPECIAL_LTE => SPECIAL_GTE
  | SPECIAL_UNSIGNED_LTE => SPECIAL_UNSIGNED_GTE
  | SPECIAL_EQUAL => SPECIAL_EQUAL
  | SPECIAL_NOTEQUAL => SPECIAL_NOTEQUAL
  | SPECIAL_GTE => SPECIAL_LTE
  | SPECIAL_UNSIGNED_GTE => SPECIAL_UNSIGNED_LTE
  | OP_GT => OP_LT
  | SPECIAL_UNSIGNED_GT => SPECIAL_UNSIGNED_LT
  | IMPOSSIBLE_COMPARISON => UNKNOWN_COMPARISON
  | op => op
  end.

Definition negate_comparison (op : op_tok) : op_tok :=
  match op with
  | UNKNOWN_COMPARISON => UNKNOWN_COMPARISON
  | OP_LT => SPECIAL_GTE
  | SPECIAL_UNSIGNED_LT => SPECIAL_UNSIGNED_GTE
  | SPECIAL_LTE => OP_GT
  | SPECIAL_UNSIGNED_LTE => SPECIAL_UNSIGNED_GT
  | SPECIAL_EQUAL => SPECIAL_NOTEQUAL
  | SPECIAL_NOTEQUAL => SPECIAL_EQUAL
  | SPECIAL_GTE => OP_LT
  | SPECIAL_UNSIGNED_GTE => SPECIAL_UNSIGNED_LT
  | OP_GT => SPECIAL_LTE
  | SPECIAL_UNSIGNED_GT => SPECIAL_UNSIGNED_LTE
  | IMPOSSIBLE_COMPARISON => UNKNOWN_COMPARISON
  | op => op
  end.

Definition remove_unsigned_from_comparison (op : op_tok) : op_tok :=
  match op with
  | SPECIAL_UNSIGNED_LT => OP_LT
  | SPECIAL_UNSIGNED_LTE => SPECIAL_LTE
  | SPECIAL_UNSIGNED_GTE => SPECIAL_GTE
  | SPECIAL_UNSIGNED_GT => OP_GT
  | op => op
  end.

(** The counters the switches of the next functions set. *)
Record counts : Set := Counts { LT : nat; EQ : nat; GT : nat }.

Definition count_comparison (op : op_tok) (c : counts) : counts :=
  match op with
  | OP_LT => Counts (S (LT c)) (EQ c) (GT c)
  | SPECIAL_LTE => Counts (S (LT c)) (S (EQ c)) (GT c)
  | SPECIAL_EQUAL => Counts (LT c) (S (EQ c)) (GT c)
  | SPECIAL_GTE => Counts (LT c) (S (EQ c)) (S (GT c))
  | OP_GT => Counts (LT c) (EQ c) (S (GT c))
  | _ => c
  end.

Definition pos (n : nat) : bool := negb (Nat.eqb n 0).

(** merge_comparisons() sets the counters to 1 where combine_comparisons()
    increments them; it only asks whether they are zero. *)
Definition merge_comparisons (one two : op_tok) : op_tok :=
  if op_eqb one UNKNOWN_COMPARISON || op_eqb two UNKNOWN_COMPARISON then UNKNOWN_COMPARISON
  else if op_eqb one IMPOSSIBLE_COMPARISON then two
  else if op_eqb two IMPOSSIBLE_COMPARISON then one
  else
    let one := remove_unsigned_from_comparison one in
    let two := remove_unsigned_from_comparison two in
    if op_eqb one two then one
    else
      let c := count_comparison two (count_comparison one (Counts 0 0 0)) in
      if pos (LT c) && pos (EQ c) && pos (GT c) then UNKNOWN_COMPARISON
      else if pos (LT c) && pos (EQ c) then SPECIAL_LTE
      else if pos (LT c) && pos (GT c) then SPECIAL_NOTEQUAL
      else if pos (LT c) then OP_LT
      else if pos (EQ c) && pos (GT c) then SPECIAL_GTE
      else if pos (GT c) then OP_GT
      else UNKNOWN_COMPARISON.

Definition combine_comparisons (left_compare right_compare : op_tok) : op_tok :=
  let left_compare := remove_unsigned_from_comparison left_compare in
  let right_compare := remove_unsigned_from_comparison right_compare in
  if op_eqb left_compare SPECIAL_EQUAL then right_compare
  else if op_eqb right_compare SPECIAL_EQUAL then left_compare
  else
    let c := count_comparison right_compare (count_comparison left_compare (Counts 0 0 0)) in
    if Nat.eqb (LT c) 2 then if Nat.eqb (EQ c) 2 then SPECIAL_LTE else OP_LT
    else if Nat.eqb (GT c) 2 then if Nat.eqb (EQ c) 2 then SPECIAL_GTE else OP_GT
    else UNKNOWN_COMPARISON.

(** The switch of comparison_intersection(): the counters of [op], NE and the
    increment of [total]; [None] is the default case. *)
Definition intersection_counts (op : op_tok) : option (counts * nat * nat) :=
  match op with
  | OP_LT => Some (Counts 1 0 0, 0%nat, 1%nat)
  | SPECIAL_LTE => Some (Counts 1 1 0, 0%nat, 2%nat)
  | SPECIAL_EQUAL => Some (Counts 0 1 0, 0%nat, 1%nat)
  | SPECIAL_NOTEQUAL => Some (Counts 0 0 0, 1%nat, 1%nat)
  | SPECIAL_GTE => Some (Counts 0 1 1, 0%nat, 2%nat)
  | OP_GT => Some (Counts 0 0 1, 0%nat, 1%nat)
  | _ => None
  end.

Definition comparison_intersection (left_compare right_compare : op_tok) : op_tok :=
  if op_eqb left_compare IMPOSSIBLE_COMPARISON || op_eqb right_compare IMPOSSIBLE_COMPARISON
  then IMPOSSIBLE_COMPARISON
  else
    let left_compare := remove_unsigned_from_comparison left_compare in
    let right_compare := remove_unsigned_from_comparison right_compare in
    if op_code left_compare =? 0 then right_compare
    else if op_code right_compare =? 0 then left_compare
    else
      match intersection_counts left_compare, intersection_counts right_compare with
      | Some (cl, nl, tl), Some (cr, nr, tr) =>
        let LT := (LT cl + LT cr)%nat in
        let EQ := (EQ cl + EQ cr)%nat in
        let GT := (GT cl + GT cr)%nat in
        let NE := (nl + nr)%nat in
        let total := (tl + tr)%nat in
        if Nat.eqb LT 2 then if Nat.eqb EQ 2 then SPECIAL_LTE else OP_LT
        else if Nat.eqb GT 2 then if Nat.eqb EQ 2 then SPECIAL_GTE else OP_GT
        else if Nat.eqb EQ 2 then SPECIAL_EQUAL
        else if Nat.eqb total 2 && pos EQ && pos NE then IMPOSSIBLE_COMPARISON
        else if pos GT && pos LT then IMPOSSIBLE_COMPARISON
        else if pos GT && pos NE then OP_GT
        else if pos LT && pos NE then OP_LT
        else if Nat.eqb NE 2 then SPECIAL_NOTEQUAL
        else if Nat.eqb total 2 && (pos LT || pos GT) && pos EQ then IMPOSSIBLE_COMPARISON
        else UNKNOWN_COMPARISON
      | _, _ => UNKNOWN_COMPARISON
      end.

(** ** What the functions mean *)

(** A comparison of two numbers, or nothing known, or no path. *)
Definition is_comparison (op : op_tok) : bool :=
  is_cmp op || op_eqb op UNKNOWN_COMPARISON || op_eqb op IMPOSSIBLE_COMPARISON.

Lemma negate_comparison_rel op a b :
  is_cmp op = true -> cmp_rel (negate_comparison op) a b <-> ~ cmp_rel op a b.
Proof. destruct op; try discriminate; simpl; lia. Qed.

Lemma negate_comparison_is_cmp op : is_cmp op = true -> is_cmp (negate_comparison op) = true.
Proof. by destruct op. Qed.

Lemma flip_comparison_rel op a b :
  is_cmp op = true -> cmp_rel (flip_comparison op) a b <-> cmp_rel op b a.
Proof. destruct op; try discriminate; simpl; lia. Qed.

(** Evaluate a function applied to two operators, and read the results. *)
Ltac eval_comparison :=
  repeat match goal with
  | |- context [?f ?x ?y] =>
    lazymatch f with
    | merge_comparisons => idtac | combine_comparisons => idtac | comparison_intersection => idtac
    end;
    let v := eval vm_compute in (f x y) in change (f x y) with v
  end; cbn [cmp_rel] in *.

Lemma merge_comparisons_sound one two a b :
  is_comparison one = true -> is_comparison two = true ->
  one = two \/ one <> SPECIAL_NOTEQUAL /\ two <> SPECIAL_NOTEQUAL ->
  cmp_rel one a b \/ cmp_rel two a b -> cmp_rel (merge_comparisons one two) a b.
Proof.
  intros H1 H2. destruct one; try discriminate H1; destruct two; try discriminate H2;
    intros H; eval_comparison; intuition (congruence || lia).
Qed.

(** The result is the strongest of the comparisons that both imply. *)
Lemma merge_comparisons_least one two op :
  is_cmp one = true -> is_cmp two = true ->
  one = two \/ one <> SPECIAL_NOTEQUAL /\ two <> SPECIAL_NOTEQUAL ->
  is_comparison op = true ->
  (forall a b, cmp_rel one a b \/ cmp_rel two a b -> cmp_rel op a b) ->
  forall a b, cmp_rel (merge_comparisons one two) a b -> cmp_rel op a b.
Proof.
  intros H1 H2 H H3 Hop a b.
  pose proof (Hop 0 0) as E0. pose proof (Hop 0 1) as E1. pose proof (Hop 1 0) as E2. clear Hop.
  destruct one; try discriminate H1; destruct two; try discriminate H2;
    eval_comparison; try lia; destruct op; try discriminate H3; cbn [cmp_rel] in *; intuition (congruence || lia).
Qed.

Lemma combine_comparisons_sound l r a b c :
  is_comparison l = true -> is_comparison r = true ->
  cmp_rel l a b -> cmp_rel r b c -> cmp_rel (combine_comparisons l r) a c.
Proof.
  intros H1 H2. destruct l; try discriminate H1; destruct r; try discriminate H2;
    eval_comparison; lia || tauto.
Qed.

Lemma comparison_intersection_exact l r a b :
  is_comparison l = true -> is_comparison r = true ->
  cmp_rel (comparison_intersection l r) a b <-> cmp_rel l a b /\ cmp_rel r a b.
Proof.
  intros H1 H2. destruct l; try discriminate H1; destruct r; try discriminate H2;
    eval_comparison; lia || tauto.
Qed.

(** Merging [a != b] with [a < b] keeps [a < b] although [a > b] is possible. *)
Lemma merge_notequal_unsound :
  merge_comparisons SPECIAL_NOTEQUAL OP_LT = OP_LT /\
  cmp_rel SPECIAL_NOTEQUAL 2 1 /\ ~ cmp_rel OP_LT 2 1.
Proof. split; [reflexivity|]. simpl. lia. Qed.
