(* ===== verification/RangeCompareFacts.v ===== *)
(** * Facts about comparing range lists

    rl_min() and rl_max() are the least and the greatest number of a list;
    the tests on pairs of ranges ask for two numbers that compare; the lists
    a condition splits a variable into hold exactly the numbers they should. *)
From S2P Require Import Prelude Types Tokens Sval SvalFacts RangeList RangeFacts RangeSets RangeCast RangeCompare Comparison.

Section compare_facts.
Context `{Tgt : Target} `{Fp : FloatOps}.

Section one_type.
Context (t : option symbol) (Ht : std_type t).

(** ** The ends of a list *)

Lemma rl_min_spec rl :
  wf_rl t rl -> rl <> [] ->
  wf_sval t (rl_min rl) /\ rl_has rl (num (rl_min rl)) /\
  (forall z, rl_has rl z -> num (rl_min rl) <= z).
Proof.
  intros Hrl Hne. destruct rl as [|d rl]; [done|]. simpl.
  destruct (wf_rl_cons_inv _ _ _ Hrl) as ([W X O] & Hf & Hs).
  split; [done|]. split; [apply rl_has_cons; left; unfold in_range; lia|].
  intros z Hz. apply rl_has_cons in Hz as [Hz|Hz]; [unfold in_range in Hz; lia|].
  apply (separated_above t _ _ _ Hf Hs) in Hz. lia.
Qed.

Lemma rl_max_cons d e rl : rl_max (d :: e :: rl) = rl_max (e :: rl).
Proof. done. Qed.

Lemma rl_max_spec rl :
  wf_rl t rl -> rl <> [] ->
  wf_sval t (rl_max rl) /\ rl_has rl (num (rl_max rl)) /\
  (forall z, rl_has rl z -> z <= num (rl_max rl)).
Proof.
  intros [Hf Hs] Hne. generalize dependent (tmin t). induction Hf as [|d rl [W X O] Hf IH]; [done|].
  intros lo [H1 H2]. destruct rl as [|e rl].
  { unfold rl_max; simpl. split; [done|]. split; [apply rl_has_cons; left; unfold in_range; lia|].
    intros z Hz. rewrite rl_has_cons, rl_has_nil in Hz. unfold in_range in Hz. intuition lia. }
  rewrite rl_max_cons. destruct (IH ltac:(done) _ H2) as (I1 & I2 & I3).
  split; [done|]. split; [apply rl_has_cons; by right|].
  intros z Hz. apply rl_has_cons in Hz as [Hz|Hz]; [|auto].
  apply (separated_above t _ _ _ Hf H2) in I2. unfold in_range in Hz. lia.
Qed.

Lemma rl_min_le_max rl : wf_rl t rl -> rl <> [] -> num (rl_min rl) <= num (rl_max rl).
Proof.
  intros Hrl Hne. destruct (rl_min_spec rl Hrl Hne) as (_ & H & _).
  by apply (proj2 (proj2 (rl_max_spec rl Hrl Hne))).
Qed.

Lemma rl_has_sval_wf rl s :
  Forall (wf_range t) rl -> wf_sval t s -> rl_has_sval rl s = true <-> rl_has rl (num s).
Proof.
  intros Hf Hs. unfold rl_has_sval. induction Hf as [|d rl [W X O] Hf IH]; simpl.
  - by rewrite rl_has_nil.
  - rewrite rl_has_cons, orb_true_iff, IH, andb_true_iff, (sval_cmp_leb t), (sval_cmp_geb t) by done.
    rewrite !Z.leb_le. done.
Qed.

(** A list with one number. *)
Lemma rl_to_sval_wf rl s :
  wf_rl t rl -> rl_to_sval rl = Some s <->
  wf_sval t s /\ (forall z, rl_has rl z <-> z = num s).
Proof.
  intros Hrl. destruct (decide (rl = [])) as [->|Hne].
  { split; [done|]. intros [_ H]. exfalso. by apply (proj1 (rl_has_nil (num s))), H. }
  destruct (rl_min_spec rl Hrl Hne) as (W & M & L). destruct (rl_max_spec rl Hrl Hne) as (X & N & U).
  assert (rl_to_sval rl = if num (rl_min rl) =? num (rl_max rl) then Some (rl_min rl) else None) as ->.
  { rewrite <- (sval_cmp_eqb t) by done. by destruct rl. }
  destruct (Z.eqb_spec (num (rl_min rl)) (num (rl_max rl))) as [E|E]; split.
  - intros [= <-]. split; [done|]. intros z. split; [|by intros ->].
    intros Hz. apply L in Hz as ?. apply U in Hz. lia.
  - intros [Ws H]. f_equal. apply (num_inj t); auto. by apply H.
  - done.
  - intros [Ws H]. apply H in M, N. lia.
Qed.

(** ** Equivalence *)

(** The normal form is unique. *)
Lemma wf_rl_canonical one two :
  wf_rl t one -> wf_rl t two -> (forall z, rl_has one z <-> rl_has two z) -> one = two.
Proof.
  intros [F1 S1] [F2 S2]. generalize dependent (tmin t). revert two F2.
  induction F1 as [|d one [W X O] F1 IH]; intros two F2 lo S1 S2 H.
  { destruct F2 as [|e two [W' X' O'] F2]; [done|]. exfalso.
    apply (proj1 (rl_has_nil (num (rmin e)))), H, rl_has_cons. left. unfold in_range. lia. }
  destruct F2 as [|e two [W' X' O'] F2].
  { exfalso. apply (proj1 (rl_has_nil (num (rmin d)))), H, rl_has_cons. left. unfold in_range. lia. }
  destruct S1 as [A1 A2], S2 as [B1 B2].
  pose proof (fun z => separated_above t _ _ z F1 A2) as U1.
  pose proof (fun z => separated_above t _ _ z F2 B2) as U2.
  assert (forall z, in_range d z \/ rl_has one z <-> in_range e z \/ rl_has two z) as K
    by (intros z; by rewrite <- !rl_has_cons).
  unfold in_range in K.
  assert (num (rmin d) = num (rmin e)) as Em.
  { destruct (proj1 (K (num (rmin d))) ltac:(left; lia)) as [?|?%U2];
    destruct (proj2 (K (num (rmin e))) ltac:(left; lia)) as [?|?%U1]; lia. }
  assert (num (rmax d) = num (rmax e)) as Ex.
  { destruct (Z.lt_trichotomy (num (rmax d)) (num (rmax e))) as [?|[?|?]]; [|done|].
    - destruct (proj2 (K (num (rmax d) + 1)) ltac:(left; lia)) as [?|?%U1]; lia.
    - destruct (proj1 (K (num (rmax e) + 1)) ltac:(left; lia)) as [?|?%U2]; lia. }
  destruct d as [dm dx], e as [em ex]; simpl in *.
  f_equal; [f_equal; by apply (num_inj t)|].
  apply (IH two F2 (num dx + 2)); [done|by rewrite Ex|].
  intros z. specialize (K z). split; intros Hz.
  - destruct (proj1 K (or_intror Hz)); [apply U1 in Hz; lia|done].
  - destruct (proj2 K (or_intror Hz)); [apply U2 in Hz; lia|done].
Qed.

Lemma rl_equiv_loop_wf one two :
  Forall (wf_range t) one -> Forall (wf_range t) two -> rl_equiv_loop one two = true <-> one = two.
Proof.
  intros F1. revert two. induction F1 as [|d one [W X O] F1 IH]; intros two F2.
  - by destruct two.
  - destruct F2 as [|e two [W' X' O'] F2]; [done|]. cbn [rl_equiv_loop].
    rewrite andb_true_iff, IH by done. simpl.
    rewrite andb_true_iff, !(sval_cmp_eqb t), !Z.eqb_eq by done.
    split; [|intros [= -> ->]; done]. intros [[E1 E2] ->]. f_equal.
    destruct d, e; simpl in *. f_equal; by apply (num_inj t).
Qed.

Lemma rl_equiv_wf one two :
  wf_rl t one -> wf_rl t two ->
  rl_equiv one two = true <-> (forall z, rl_has one z <-> rl_has two z).
Proof.
  intros H1 H2. transitivity (one = two).
  - rewrite <- (rl_equiv_loop_wf one two) by (apply H1 || apply H2).
    unfold rl_equiv. destruct one as [|d one], two as [|e two]; try done.
    by rewrite !(rl_type_wf t), type_eqb_refl by (done || apply H1 || apply H2).
  - split; [by intros ->|by apply wf_rl_canonical].
Qed.

(** ** Pairs of ranges *)

Definition pair_sat (P : Z -> Z -> Prop) (left right : range_list) : Prop :=
  exists a b, rl_has left a /\ rl_has right b /\ P a b.

Lemma cmp_rel_dec op a b : cmp_rel op a b \/ ~ cmp_rel op a b.
Proof. destruct op; simpl; lia || tauto. Qed.

Lemma true_comparison_range_wf l op r :
  is_cmp op = true -> wf_range t l -> wf_range t r ->
  true_comparison_range l op r = true <->
  exists a b, in_range l a /\ in_range r b /\ cmp_rel op a b.
Proof.
  intros Hop [W X O] [W' X' O']. unfold in_range.
  destruct op; try discriminate Hop; cbn [true_comparison_range cmp_rel].
  all: rewrite ?(sval_cmp_ltb t), ?(sval_cmp_leb t), ?(sval_cmp_gtb t), ?(sval_cmp_geb t),
         ?(sval_cmp_eqb t) by done.
  all: repeat case_if; zbool; rewrite ?Z.ltb_lt, ?Z.leb_le, ?negb_true_iff, ?Z.eqb_neq.
  all: split; [intros|intros (a & b & ?)]; try discriminate; try done; try lia.
  all: first [by exists (num (rmin l)), (num (rmax r)); lia
             |by exists (num (rmax l)), (num (rmin r)); lia
             |by exists (Z.max (num (rmin l)) (num (rmin r))), (Z.max (num (rmin l)) (num (rmin r))); lia
             |destruct (Z.eq_dec (num (rmin l)) (num (rmin r)));
              [by exists (num (rmin l)), (num (rmax r)); lia
              |by exists (num (rmin l)), (num (rmin r)); lia]
             |destruct (Z.eq_dec (num (rmin l)) (num (rmin r)));
              [by exists (num (rmax l)), (num (rmin r)); lia
              |by exists (num (rmin l)), (num (rmin r)); lia]].
Qed.

Lemma false_comparison_range_negate l op r :
  false_comparison_range_sval l op r = true_comparison_range l (negate_comparison op) r.
Proof. by destruct op. Qed.

Lemma exists_pair_wf f (P : Z -> Z -> Prop) left right :
  Forall (wf_range t) left -> Forall (wf_range t) right ->
  (forall l r, wf_range t l -> wf_range t r ->
    f l r = true <-> exists a b, in_range l a /\ in_range r b /\ P a b) ->
  exists_pair f left right = true <-> pair_sat P left right.
Proof.
  rewrite !Forall_forall. intros Hl Hr Hf. unfold exists_pair, pair_sat, rl_has.
  setoid_rewrite Exists_exists. rewrite existsb_exists. split.
  - intros (l & Il & H). apply existsb_exists in H as (r & Ir & H).
    apply Hf in H as (a & b & Ha & Hb & HP); auto.
    exists a, b. split; [by exists l|]. split; [by exists r|done].
  - intros (a & b & (l & Il & Ha) & (r & Ir & Hb) & HP). exists l.
    split; [done|]. apply existsb_exists. exists r. split; [done|]. apply Hf; eauto.
Qed.
End one_type.

(** ** Lists of two types *)

Lemma cast_rl_converts t c rl :
  std_type t -> std_type c -> type_is_ptr c = false -> type_bits c <> 1 -> safe_cast t c ->
  wf_rl t rl -> rl <> [] ->
  wf_rl c (cast_rl c rl) /\ (forall z, rl_has rl z -> rl_has (cast_rl c rl) (wrap c z)).
Proof.
  intros Tt Tc Hp Hb Hs Hrl Hne. destruct (decide (c = t)) as [->|Hct].
  - rewrite cast_rl_same by (done || apply Hrl). split; [done|]. intros z Hz.
    rewrite wrap_id; auto. eapply rl_has_in_type; [apply Hrl|done].
  - apply (cast_rl_sound t); auto. apply Hrl.
Qed.

Section two_types.
Context (t u : option symbol) (Tt : std_type t) (Tu : std_type u).
Context (Pt : type_is_ptr t = false) (Pu : type_is_ptr u = false).
Context (left right : range_list).
Context (Hl : wf_rl t left) (Hr : wf_rl u right) (Nl : left <> []) (Nr : right <> []).

Abbreviation common := (get_binop_type left right).

Lemma get_binop_type_cases :
  common = int_ctype /\ type_positive_bits t <= 31 /\ type_positive_bits u <= 31 \/
  common = t /\ 31 < type_positive_bits t /\ type_positive_bits u <= type_positive_bits t \/
  common = u /\ 31 < type_positive_bits u /\ type_positive_bits t < type_positive_bits u.
Proof.
  unfold get_binop_type. rewrite (rl_type_wf t left), (rl_type_wf u right) by (done || apply Hl || apply Hr).
  change (type_positive_bits int_ctype) with 31.
  repeat case_if; zbool; change (type_positive_bits int_ctype) with 31 in *; intuition lia.
Qed.

(** The common type is at least as wide as int, and a cast to it loses no
    number. *)
Lemma get_binop_type_ok :
  std_type common /\ type_is_ptr common = false /\ type_bits common <> 1 /\
  safe_cast t common /\ safe_cast u common.
Proof.
  pose proof (type_positive_bits_std t Tt) as Bt. pose proof (type_positive_bits_std u Tu) as Bu.
  destruct get_binop_type_cases as [(-> & H1 & H2)|[(-> & H1 & H2)|(-> & H1 & H2)]].
  - split; [apply int_ctype_std|]. split; [done|]. split; [done|]. unfold safe_cast.
    change (type_bits int_ctype) with 32.
    split; right; [destruct (type_unsigned t)|destruct (type_unsigned u)]; (by left) || (right; lia).
  - split; [done|]. split; [done|].
    split; [intros E; rewrite E in Bt; destruct (type_unsigned t); lia|].
    split; [right; right; lia|]. unfold safe_cast.
    destruct (type_unsigned t), (type_unsigned u); auto. right; right; lia.
  - split; [done|]. split; [done|].
    split; [intros E; rewrite E in Bu; destruct (type_unsigned u); lia|].
    split; [|right; right; lia]. unfold safe_cast.
    destruct (type_unsigned t), (type_unsigned u); auto. right; right; lia.
Qed.

(** Both sides in the common type. *)
Lemma common_lists :
  std_type common /\
  wf_rl common (cast_rl common left) /\ wf_rl common (cast_rl common right) /\
  (forall z, rl_has left z -> rl_has (cast_rl common left) (wrap common z)) /\
  (forall z, rl_has right z -> rl_has (cast_rl common right) (wrap common z)).
Proof.
  destruct get_binop_type_ok as (Tc & Pc & Bc & Sl & Sr).
  destruct (cast_rl_converts t common left) as [L1 L2]; auto.
  destruct (cast_rl_converts u common right) as [R1 R2]; auto.
Qed.

Lemma possibly_true_rl_eq op : is_cmp op = true ->
  possibly_true_rl left op right =
  exists_pair (fun l r => true_comparison_range l op r) (cast_rl common left) (cast_rl common right).
Proof.
  intros Hop. unfold possibly_true_rl. rewrite !bool_decide_eq_false_2 by done.
  by destruct op.
Qed.

Lemma possibly_false_rl_eq op : is_cmp op = true ->
  possibly_false_rl left op right =
  exists_pair (fun l r => true_comparison_range l (negate_comparison op) r)
    (cast_rl common left) (cast_rl common right).
Proof.
  intros Hop. unfold possibly_false_rl. rewrite !bool_decide_eq_false_2 by done.
  by destruct op.
Qed.

Lemma possible_pair op a b :
  is_cmp op = true -> rl_has left a -> rl_has right b ->
  cmp_rel op (wrap common a) (wrap common b) ->
  exists_pair (fun l r => true_comparison_range l op r)
    (cast_rl common left) (cast_rl common right) = true.
Proof.
  intros Hop Ha Hb Hc. destruct common_lists as (Tc & L1 & R1 & L2 & R2).
  apply (exists_pair_wf common _ (cmp_rel op)); [apply L1|apply R1| |].
  - intros l r Wl Wr. by apply (true_comparison_range_wf common).
  - exists (wrap common a), (wrap common b). auto.
Qed.

(** get_comparison_rl(): what it says holds of every pair of numbers. *)
Lemma get_comparison_rl_sound_aux a b :
  rl_has left a -> rl_has right b ->
  cmp_rel (get_comparison_rl left right) (wrap common a) (wrap common b).
Proof.
  intros Ha Hb. destruct common_lists as (Tc & L1 & R1 & L2 & R2).
  specialize (L2 a Ha). specialize (R2 b Hb).
  assert (cast_rl common left <> []) as NL by (intros E; rewrite E in L2; by apply rl_has_nil in L2).
  assert (cast_rl common right <> []) as NR by (intros E; rewrite E in R2; by apply rl_has_nil in R2).
  destruct (rl_min_spec common _ L1 NL) as (A1 & _ & A3).
  destruct (rl_max_spec common _ L1 NL) as (B1 & _ & B3).
  destruct (rl_min_spec common _ R1 NR) as (C1 & _ & C3).
  destruct (rl_max_spec common _ R1 NR) as (D1 & _ & D3).
  apply A3 in L2 as ?. apply B3 in L2 as ?. apply C3 in R2 as ?. apply D3 in R2 as ?.
  unfold get_comparison_rl. destruct left as [|l0 ll] eqn:El; [done|]. rewrite <- El in *.
  destruct right as [|r0 rr] eqn:Er; [done|]. rewrite <- Er in *. cbv zeta.
  set (cl := cast_rl common left) in *. set (cr := cast_rl common right) in *.
  destruct ((value (rl_min cl) =? value (rl_max cl)) && _ && _) eqn:E.
  { zbool. simpl.
    assert (forall x y, wf_sval common x -> wf_sval common y -> value x = value y -> num x = num y) as V
      by (intros x y [Tx _ _] [Ty _ _] V; unfold num, uvalue; by rewrite Tx, Ty, V).
    assert (num (rl_min cl) = num (rl_max cl)) by auto.
    assert (num (rl_min cr) = num (rl_max cr)) by auto.
    assert (num (rl_min cl) = num (rl_min cr)) by auto. lia. }
  rewrite (sval_cmp_ltb common), !(sval_cmp_eqb common), (sval_cmp_gtb common) by done.
  repeat case_if; zbool; simpl; lia || done.
Qed.
End two_types.
End compare_facts.
