(* ===== verification/RangeText.v ===== *)
(** * Range lists as text: show_rl() and str_to_rl()

    The database holds range lists as text such as [s32min-(-1),1-10], and the
    name of an extended state is the text of its list.  A C string is the list
    of its characters before the NUL.  The texts with a [[...]] part refer to
    the arguments of a call; str_to_rl() has no call, and the model covers it up
    to the point where the call would be asked. *)
From Stdlib Require Import Ascii String.
From S2P Require Import Prelude Types Tokens Sval RangeList RangeCompare.

Abbreviation text := (list ascii).
#[local] Instance ascii_eq_dec : EqDecision ascii := Ascii.ascii_dec.

Definition lit (s : string) : text := list_ascii_of_string s.

(** ** printf() and strtoll() *)

Definition digit (d : Z) : ascii := ascii_of_nat (Z.to_nat (48 + d)).

(** The decimal digits of a number, most significant first, before [acc]; 20
    are enough for 64 bits. *)
Fixpoint digits (fuel : nat) (n : Z) (acc : text) : text :=
  match fuel with
  | O => acc
  | S f => if n <? 10 then digit n :: acc else digits f (n / 10) (digit (n mod 10) :: acc)
  end.

(** "%llu" and "%lld" *)
Definition print_llu (n : Z) : text := digits 20 n [].
Definition print_lld (n : Z) : text := if n <? 0 then "-"%char :: print_llu (- n) else print_llu n.

(** The value of a digit in the bases up to 16; 16 for other characters. *)
Definition digit_val (c : ascii) : Z :=
  let n := Z.of_nat (nat_of_ascii c) in
  if (48 <=? n) && (n <=? 57) then n - 48
  else if (97 <=? n) && (n <=? 102) then n - 97 + 10
  else if (65 <=? n) && (n <=? 70) then n - 65 + 10
  else 16.

Fixpoint read_digits (base : Z) (s : text) (acc : Z) : Z * text :=
  match s with
  | c :: s' => if digit_val c <? base then read_digits base s' (acc * base + digit_val c) else (acc, s)
  | [] => (acc, [])
  end.

Definition is_space (c : ascii) : bool :=
  let n := Z.of_nat (nat_of_ascii c) in (n =? 32) || ((9 <=? n) && (n <=? 13)).

Fixpoint skip_space (s : text) : text :=
  match s with
  | c :: s' => if is_space c then skip_space s' else s
  | [] => []
  end.

Definition read_sign (s : text) : bool * text :=
  match s with
  | "-"%char :: s' => (true, s')
  | "+"%char :: s' => (false, s')
  | _ => (false, s)
  end.

(** The digits after the sign, with base 0: 0x and 0 select 16 and 8. *)
Definition read_number (s : text) : option (Z * text) :=
  match s with
  | "0"%char :: x :: d :: s' =>
    if ((Ascii.eqb x "x") || (Ascii.eqb x "X")) && (digit_val d <? 16)
    then Some (read_digits 16 (d :: s') 0) else Some (read_digits 8 s 0)
  | "0"%char :: _ => Some (read_digits 8 s 0)
  | d :: _ => if digit_val d <? 10 then Some (read_digits 10 s 0) else None
  | [] => None
  end.

Definition clamp (lo hi z : Z) : Z := Z.max lo (Z.min hi z).

(** strtoll(s, &end, 0) and strtoull(s, &end, 0) *)
Definition strtoll (s : text) : Z * text :=
  let '(neg, s') := read_sign (skip_space s) in
  match read_number s' with
  | None => (0, s)
  | Some (n, rest) => (clamp LLONG_MIN LLONG_MAX (if neg then - n else n), rest)
  end.

Definition strtoull (s : text) : Z * text :=
  let '(neg, s') := read_sign (skip_space s) in
  match read_number s' with
  | None => (0, s)
  | Some (n, rest) =>
    (if n >? ULLONG_MAX then ULLONG_MAX else if neg then u64 (- n) else n, rest)
  end.

Section text.
Context `{Tgt : Target} `{Fp : FloatOps}.

(** printf() and strtof() and so on of the host for floating point values. *)
Variable fp_to_str : sval_t -> text.
Variable strtofp : option symbol -> text -> sval_t * text.

(** ** Printing *)

Definition USHRT_MAX : Z := 65535.
Definition SHRT_MAX : Z := 32767.
Definition SHRT_MIN : Z := -32768.
Definition INT_MAX : Z := 2147483647.
Definition INT_MIN : Z := -2147483648.

Definition sval_to_str (sval : sval_t) : text :=
  if sval_is_fp sval then fp_to_str sval
  else if sval_is_ptr sval && (uvalue sval =? u64 valid_ptr_max) then lit "ptr_max"
  else if sval_unsigned sval && (uvalue sval =? ULLONG_MAX) then lit "u64max"
  else if sval_unsigned sval && (value sval =? UINT_MAX) then lit "u32max"
  else if value sval =? USHRT_MAX then lit "u16max"
  else if sval_signed sval && (value sval =? LLONG_MAX) then lit "s64max"
  else if value sval =? INT_MAX then lit "s32max"
  else if value sval =? SHRT_MAX then lit "s16max"
  else if sval_signed sval && (value sval =? SHRT_MIN) then lit "s16min"
  else if sval_signed sval && (value sval =? INT_MIN) then lit "s32min"
  else if sval_signed sval && (value sval =? LLONG_MIN) then lit "s64min"
  else if sval_unsigned sval then print_llu (uvalue sval)
  else if value sval <? 0 then "("%char :: print_lld (value sval) ++ lit ")"
  else print_lld (value sval).

(** The buffer has room for 19 characters. *)
Definition get_err_pointer_str (drange : data_range) : option text :=
  if negb (is_err_ptr (rmin drange)) then None
  else
    let show v := "("%char :: print_lld (sign_extend_err_ptr v) ++ lit ")" in
    Some (take 19 (if value (rmin drange) =? value (rmax drange) then show (value (rmin drange))
                   else show (value (rmin drange)) ++ lit "-" ++ show (value (rmax drange)))).

Definition show_range (drange : data_range) : text :=
  match get_err_pointer_str drange with
  | Some s => s
  | None =>
    if sval_cmp (rmin drange) (rmax drange) =? 0 then sval_to_str (rmin drange)
    else sval_to_str (rmin drange) ++ lit "-" ++ sval_to_str (rmax drange)
  end.

(** The text that replaces the last range when the buffer is nearly full. *)
Definition show_rest (drange : data_range) : text :=
  lit "," ++ sval_to_str (rmin drange) ++ lit "-" ++ sval_to_str (sval_type_max (sv_type (rmin drange))).

(** The loop of show_rl(): [full] is what the buffer holds, [p] the position
    snprintf() has moved to, [prev] the buffer up to the last range,
    [prev_drange]. *)
Fixpoint show_loop (rl : range_list) (full prev : text) (p : Z) (prev_drange : option data_range) : text :=
  match rl with
  | [] => full
  | tmp :: rest =>
    let remain := 255 - p in
    if remain <? 48 then
      match prev_drange with
      | Some d => prev ++ take (254 - length prev) (show_rest d)
      | None => full
      end
    else
      let item := (match prev_drange with Some _ => lit "," | None => [] end) ++ show_range tmp in
      show_loop rest (full ++ take (Z.to_nat remain - 1) item) full (p + Z.of_nat (length item)) (Some tmp)
  end.

Definition show_rl (rl : range_list) : text := show_loop rl [] [] 0 None.

(** ** Parsing *)

(** strncmp(s, pre, strlen(pre)) == 0: what follows. *)
Fixpoint strip (pre s : text) : option text :=
  match pre, s with
  | [], _ => Some s
  | a :: pre', b :: s' => if Ascii.eqb a b then strip pre' s' else None
  | _ :: _, [] => None
  end.

Fixpoint match_key (keys : list (string * sval_t)) (s : text) : option (sval_t * text) :=
  match keys with
  | [] => None
  | (k, v) :: keys' =>
    match strip (lit k) s with Some rest => Some (v, rest) | None => match_key keys' s end
  end.

(** [long] is 64 bits wide on the host. *)
Definition val_keys (type : option symbol) : list (string * sval_t) :=
  [("max", sval_type_max type);
   ("u64max", sval_type_val type (s64 ULLONG_MAX));
   ("s64max", sval_type_val type LLONG_MAX);
   ("u32max", sval_type_val type UINT_MAX);
   ("s32max", sval_type_val type INT_MAX);
   ("u16max", sval_type_val type USHRT_MAX);
   ("s16max", sval_type_val type SHRT_MAX);
   ("min", sval_type_min type);
   ("s64min", sval_type_val type LLONG_MIN);
   ("s32min", sval_type_val type INT_MIN);
   ("s16min", sval_type_val type SHRT_MIN);
   ("long_min", sval_type_val type LLONG_MIN);
   ("long_max", sval_type_val type LLONG_MAX);
   ("ulong_max", sval_type_val type (s64 ULLONG_MAX));
   ("ptr_max", sval_type_val type (s64 valid_ptr_max))]%string.

(** strtoll(s, &end, 10), as far as [end] goes. *)
Definition strtoll10_end (s : text) : text :=
  let '(_, s') := read_sign (skip_space s) in
  match s' with
  | d :: _ => if digit_val d <? 10 then snd (read_digits 10 s' 0) else s
  | [] => s
  end.

(** [if ( *c == x ) c++;] *)
Definition skip (x : ascii) (s : text) : text :=
  match s with c :: s' => if Ascii.eqb c x then s' else s | [] => [] end.

(** What follows if [*c == x]. *)
Definition next_is (x : ascii) (s : text) : option text :=
  match s with c :: s' => if Ascii.eqb c x then Some s' else None | [] => None end.

(** str_to_comparison_arg_helper() without a call: where it leaves [*endp].  A
    text that ends inside of the operator is not followed any further. *)
Definition comparison_end (s : text) : text :=
  match next_is "[" s with
  | None => s
  | Some c =>
    let after_op :=
      match next_is "<" c, next_is "=" c, next_is ">" c, next_is "!" c, next_is "$" c with
      | Some c', _, _, _, _ => Some (skip "=" c')
      | _, Some c', _, _, _ => Some (tail c')
      | _, _, Some c', _, _ => Some (skip "=" c')
      | _, _, _, Some c', _ => Some (tail c')
      | _, _, _, _, Some _ => Some c
      | _, _, _, _, _ => None
      end in
    match c ← after_op; next_is "$" c with
    | None => s
    | Some c =>
      let c := strtoll10_end c in
      match next_is " " c, next_is "," c with
      | Some _, _ => s
      | None, Some c' => c'
      | None, None => skip "]" c
      end
    end
  end.

Definition is_fp_ctype (type : option symbol) : bool :=
  type_eqb type float_ctype || type_eqb type double_ctype || type_eqb type ldouble_ctype.

(** parse_val() without a call; get_val_from_key() is then the greatest value. *)
Definition parse_val (type : option symbol) (start : text) : sval_t * text :=
  if is_fp_ctype type then strtofp type start
  else match match_key (val_keys type) start with
  | Some r => r
  | None =>
    match start with
    | "["%char :: _ => (sval_type_max type, comparison_end start)
    | _ =>
      if type_is_ptr type then
        let '(v, c) := strtoll start in
        let ret := sval_type_val type v in
        ((if value (sval_type_max ulong_ctype) =? UINT_MAX
          then set_value ret (Z.land (uvalue ret) UINT_MAX) else ret), c)
      else if type_positive_bits type =? 64 then
        let '(v, c) := strtoull start in (sval_type_val type (s64 v), c)
      else
        let '(v, c) := strtoll start in (sval_type_val type v, c)
    end
  end.

Definition at_end (s : text) : bool :=
  match s with [] => true | c :: _ => Ascii.eqb c "[" end.

(** The loop of str_to_rl_helper(): [min] and [max] are those of the last range,
    and the loop ends at the end of the text or at a [[]. *)
Fixpoint helper_loop (fuel : nat) (type : option symbol) (c : text) (prev_min min max : sval_t)
    (rl : range_list) : range_list * text :=
  match fuel with
  | O => (rl, c)
  | S f =>
    if at_end c then (rl, c)
    else match next_is "+" c with
    | Some _ =>
      let min := if negb (sval_cmp min (sval_type_min type) =? 0) then max else min in
      (add_range_t type rl min (sval_type_max type), c)
    | None =>
      let '(min, c) := parse_val type (skip "(" c) in
      let min := if negb (sval_fits type min) then sval_type_min type else min in
      let c := skip ")" c in
      if at_end c then (add_range_t type rl min min, c)
      else match next_is "," c with
      | Some c => helper_loop f type c prev_min min min (add_range_t type rl min min)
      | None =>
        (* a + after the first number: from the previous number to the end *)
        let '(min, rl, c, stop) :=
          match next_is "+" c with
          | Some c' => (prev_min, add_range_t type rl prev_min (sval_type_max type), c', at_end c')
          | None => (min, rl, c, false)
          end in
        if stop then (rl, c)
        else match next_is "-" c with
        | Some c =>
          let '(max, c) := parse_val type (skip "(" c) in
          let max := if negb (sval_fits type max) then sval_type_max type else max in
          let '(max, rl, c, stop) :=
            match next_is "+" c with
            | Some c' =>
              (sval_type_max type, add_range_t type rl min (sval_type_max type), c', at_end c')
            | None => (max, rl, c, false)
            end in
          if stop then (rl, c)
          else helper_loop f type (skip "," (skip ")" c)) max min max (add_range_t type rl min max)
        | None => (rl, c)
        end
      end
    end
  end.

Definition str_to_rl_helper (type : option symbol) (str : text) : range_list * text :=
  helper_loop (S (length str)) type str (sval_type_min type) (sval_type_min type) (sval_type_max type) [].

(** jump_to_call_math(): what follows the first [[], unless it is a comparison. *)
Fixpoint jump_to_call_math (value : text) : option text :=
  match value with
  | [] => None
  | "["%char :: c =>
    match c with
    | "<"%char :: _ | "="%char :: _ | ">"%char :: _ | "!"%char :: _ => None
    | _ => Some c
    end
  | _ :: value' => jump_to_call_math value'
  end.

(** str_to_dinfo() without a call: [None] if the text has call math, which only
    has a meaning with a call.  filter_by_comparison_call() without a call
    returns its list. *)
Definition str_to_dinfo (type : option symbol) (value : text) : option range_list :=
  let type := match type with None => llong_ctype | Some _ => type end in
  if bool_decide (value = lit "empty") then Some []
  else if match strip (lit "[==$") value with Some _ => true | None => false end then Some []
  else
    let '(rl, c) := str_to_rl_helper type value in
    match c, jump_to_call_math value with
    | _ :: _, Some _ => None
    | _, _ => Some (cast_rl type rl)
    end.

Definition str_to_rl (type : option symbol) (value : text) : option range_list :=
  rl ← str_to_dinfo type value;
  Some (if negb (rl_is_sane rl) then alloc_whole_rl type else rl).
End text.
