(* ===== verification/RangeTextFacts.v ===== *)
(** * Facts about the text of range lists

    Printing a value and parsing it gives the value back; the text of a list
    that fits the buffer gives the list back, and the text of a longer one a
    list that holds its numbers. *)
From Stdlib Require Import Ascii String.
From S2P Require Import Prelude Types Tokens Sval SvalFacts RangeList RangeFacts RangeSets RangeCast RangeCompare RangeCompareFacts RangeText.

(** ** Numbers *)

Lemma digit_val_digit d : 0 <= d < 10 -> digit_val (digit d) = d.
Proof.
  intros H. assert (d = 0 \/ d = 1 \/ d = 2 \/ d = 3 \/ d = 4 \/ d = 5 \/ d = 6 \/ d = 7 \/ d = 8 \/ d = 9) as C by lia.
  by repeat destruct C as [->|C]; [..|subst].
Qed.

Lemma digits_app fuel n acc rest : digits fuel n acc ++ rest = digits fuel n (acc ++ rest).
Proof. revert n acc. induction fuel as [|f IH]; intros n acc; simpl; [done|]. case_if; [done|]. by rewrite IH. Qed.

Lemma read_digits_digits fuel n acc :
  0 <= n < 10 ^ Z.of_nat fuel -> (0 < fuel)%nat -> read_digits 10 (digits fuel n acc) 0 = read_digits 10 acc n.
Proof.
  revert n acc. induction fuel as [|f IH]; intros n acc Hn Hf; [lia|]. cbn [digits].
  destruct (Z.ltb_spec n 10).
  - cbn [read_digits]. rewrite digit_val_digit by lia. rewrite (proj2 (Z.ltb_lt _ _)) by lia. done.
  - rewrite Nat2Z.inj_succ, Z.pow_succ_r in Hn by lia. destruct f as [|f]; [simpl in Hn; lia|].
    rewrite IH; [|split; [apply Z.div_pos; lia|apply Z.div_lt_upper_bound; lia]|lia].
    pose proof (Z.mod_pos_bound n 10 ltac:(lia)). cbn [read_digits].
    rewrite digit_val_digit by lia. rewrite (proj2 (Z.ltb_lt _ _)) by lia.
    f_equal. rewrite (Z.div_mod n 10) at 3 by lia. lia.
Qed.

Lemma digits_head fuel n acc :
  0 <= n -> (0 < fuel)%nat ->
  exists d s, digits fuel n acc = digit d :: s /\ 0 <= d < 10 /\ (n <> 0 -> n < 10 ^ Z.of_nat fuel -> d <> 0).
Proof.
  revert n acc. induction fuel as [|f IH]; intros n acc Hn Hf; [lia|]. cbn [digits].
  destruct (Z.ltb_spec n 10); [exists n, acc; repeat split; lia|].
  destruct f as [|f].
  { exists (n mod 10), acc. pose proof (Z.mod_pos_bound n 10 ltac:(lia)). repeat split; lia. }
  assert (0 < n / 10) by (apply Z.div_str_pos; lia).
  destruct (IH (n / 10) (digit (n mod 10) :: acc)) as (d & s & E & B & N); [lia|lia|].
  exists d, s. split; [done|]. split; [done|]. intros _ Hlt. apply N; [lia|].
  rewrite Nat2Z.inj_succ, Z.pow_succ_r in Hlt by lia. apply Z.div_lt_upper_bound; lia.
Qed.

Lemma digits_length fuel k n acc :
  (1 <= k <= fuel)%nat -> 0 <= n < 10 ^ Z.of_nat k -> (length (digits fuel n acc) <= k + length acc)%nat.
Proof.
  revert k n acc. induction fuel as [|f IH]; intros k n acc Hk Hn; [lia|]. cbn [digits].
  destruct (Z.ltb_spec n 10); [simpl; lia|]. destruct k as [|[|k]]; [lia|simpl in Hn; lia|].
  rewrite Nat2Z.inj_succ, Z.pow_succ_r in Hn by lia.
  specialize (IH (S k) (n / 10) (digit (n mod 10) :: acc)). simpl in IH.
  assert (0 <= n / 10 < 10 ^ Z.of_nat (S k)); [|lia].
  split; [apply Z.div_pos; lia|apply Z.div_lt_upper_bound; lia].
Qed.

(** What follows a value in the text of a list. *)
Definition stops (s : text) : Prop :=
  s = [] \/ exists s', s = ","%char :: s' \/ s = "-"%char :: s' \/ s = ")"%char :: s'.

Lemma read_digits_stops base s a : base <= 16 -> stops s -> read_digits base s a = (a, s).
Proof.
  intros Hb [->|(s' & [->|[->| ->]])]; [done|..]; cbn [read_digits];
    (assert (forall c, digit_val c = 16 -> (digit_val c <? base) = false) as E
      by (intros c ->; apply Z.ltb_ge; lia)); by rewrite E.
Qed.

Lemma read_number_digits n rest :
  0 <= n < 10 ^ 20 -> stops rest -> read_number (print_llu n ++ rest) = Some (n, rest).
Proof.
  intros Hn Hs. unfold print_llu. rewrite digits_app. cbn [app].
  destruct (Z.eq_dec n 0) as [->|N0].
  - assert (digits 20 0 rest = "0"%char :: rest) as -> by reflexivity.
    assert (read_digits 8 ("0"%char :: rest) 0 = (0, rest)) as R
      by (cbn [read_digits]; change (digit_val "0" <? 8) with true; by apply read_digits_stops).
    destruct Hs as [->|(s' & [->|[->| ->]])]; [done|..]; destruct s'; unfold read_number; cbn [Ascii.eqb orb andb Bool.eqb]; by rewrite R.
  - pose proof (read_digits_digits 20 n rest Hn ltac:(lia)) as R. rewrite (read_digits_stops 10 rest n) in R by (done || lia).
    destruct (digits_head 20 n rest ltac:(lia) ltac:(lia)) as (d & s & E & B & Nd).
    rewrite E in *. specialize (Nd N0 (proj2 Hn)).
    assert (read_number (digit d :: s) = Some (read_digits 10 (digit d :: s) 0)) as ->; [|by rewrite R].
    assert (d = 1 \/ d = 2 \/ d = 3 \/ d = 4 \/ d = 5 \/ d = 6 \/ d = 7 \/ d = 8 \/ d = 9) as C by lia.
    clear -C. by repeat destruct C as [->|C]; [..|subst].
Qed.

(** The first character of a number. *)
Lemma print_llu_head n rest :
  0 <= n -> exists d s, print_llu n ++ rest = digit d :: s /\ 0 <= d < 10.
Proof.
  intros Hn. unfold print_llu. rewrite digits_app.
  destruct (digits_head 20 n ([] ++ rest) Hn ltac:(lia)) as (d & s & E & B & _). eauto.
Qed.

(** A property of characters that holds of the ten digits. *)
Ltac digit_case d :=
  let C := fresh in
  assert (d = 0 \/ d = 1 \/ d = 2 \/ d = 3 \/ d = 4 \/ d = 5 \/ d = 6 \/ d = 7 \/ d = 8 \/ d = 9) as C by lia;
  repeat destruct C as [->|C]; [..|subst d].

Lemma strtoll_print z rest :
  LLONG_MIN <= z <= LLONG_MAX -> stops rest -> strtoll (print_lld z ++ rest) = (z, rest).
Proof.
  intros Hz Hs. unfold print_lld. unfold LLONG_MIN, LLONG_MAX in Hz. destruct (Z.ltb_spec z 0).
  - pose proof (read_number_digits (- z) rest ltac:(lia) Hs) as R. unfold strtoll.
    cbn [app skip_space]. change (is_space "-") with false. cbn [read_sign]. rewrite R.
    unfold clamp, LLONG_MIN, LLONG_MAX. f_equal. lia.
  - pose proof (read_number_digits z rest ltac:(lia) Hs) as R. unfold strtoll.
    destruct (print_llu_head z rest ltac:(lia)) as (d & s & E & B). rewrite E in *.
    assert (read_sign (skip_space (digit d :: s)) = (false, digit d :: s)) as -> by (by digit_case d).
    rewrite R. unfold clamp, LLONG_MIN, LLONG_MAX. f_equal. lia.
Qed.

Lemma strtoull_print n rest :
  0 <= n <= ULLONG_MAX -> stops rest -> strtoull (print_llu n ++ rest) = (n, rest).
Proof.
  intros Hz Hs. unfold ULLONG_MAX in Hz.
  pose proof (read_number_digits n rest ltac:(lia) Hs) as R. unfold strtoull.
  destruct (print_llu_head n rest ltac:(lia)) as (d & s & E & B). rewrite E in *.
  assert (read_sign (skip_space (digit d :: s)) = (false, digit d :: s)) as -> by (by digit_case d).
  rewrite R. unfold ULLONG_MAX. rewrite Z.gtb_ltb, (proj2 (Z.ltb_ge _ _)) by lia. done.
Qed.

(** ** The parser only moves forward *)

Lemma read_digits_length base s a : (length (snd (read_digits base s a)) <= length s)%nat.
Proof. revert a. induction s as [|c s IH]; intros a; simpl; [lia|]. case_if; [|simpl; lia]. specialize (IH (a * base + digit_val c)). lia. Qed.

Lemma skip_space_length s : (length (skip_space s) <= length s)%nat.
Proof. induction s as [|c s IH]; simpl; [lia|]. case_if; simpl; lia. Qed.

Lemma read_sign_length s : (length (snd (read_sign s)) <= length s)%nat.
Proof. destruct s as [|c s]; simpl; [lia|]. destruct c as [[] [] [] [] [] [] [] []]; simpl; lia. Qed.

Lemma read_number_length s n rest : read_number s = Some (n, rest) -> (length rest <= length s)%nat.
Proof.
  assert (forall base s' a, Some (read_digits base s' a) = Some (n, rest) -> (length rest <= length s')%nat) as D.
  { intros base s' a [= E]. pose proof (read_digits_length base s' a) as L. by rewrite E in L. }
  destruct s as [|c s]; [done|]. unfold read_number.
  assert (forall x y : option (Z * text), (x = Some (n, rest) -> (length rest <= S (length s))%nat) ->
    (y = Some (n, rest) -> (length rest <= S (length s))%nat) ->
    match c with "0"%char => x | _ => y end = Some (n, rest) -> (length rest <= S (length s))%nat) as M.
  { intros x y Hx Hy. destruct c as [[] [] [] [] [] [] [] []]; auto. }
  cbn [length]. destruct s as [|x [|d s]].
  - apply M; [apply D|]. case_if; [apply D|done].
  - apply M; [apply D|]. case_if; [apply D|done].
  - apply M; [|case_if; [apply D|done]]. case_if; [|apply D]. intros H%D. simpl in *. lia.
Qed.

Lemma strtoll_length s : (length (snd (strtoll s)) <= length s)%nat /\ (length (snd (strtoull s)) <= length s)%nat.
Proof.
  unfold strtoll, strtoull. pose proof (skip_space_length s) as L1. pose proof (read_sign_length (skip_space s)) as L2.
  destruct (read_sign (skip_space s)) as [neg s']. simpl in L2.
  destruct (read_number s') as [[n rest]|] eqn:E; [|simpl; lia]. apply read_number_length in E. simpl. lia.
Qed.

Lemma strip_length pre s rest : strip pre s = Some rest -> (length rest <= length s)%nat.
Proof.
  revert s. induction pre as [|a pre IH]; intros [|b s]; simpl; try (intros [= <-]; simpl; lia); try done.
  case_if; [|done]. intros H%IH. lia.
Qed.

Lemma match_key_length keys s v rest : match_key keys s = Some (v, rest) -> (length rest <= length s)%nat.
Proof.
  induction keys as [|[k w] keys IH]; simpl; [done|].
  destruct (strip (lit k) s) eqn:E; [|done]. intros [= _ <-]. by eapply strip_length.
Qed.

Lemma skip_length x s : (length (skip x s) <= length s)%nat.
Proof. destruct s as [|c s]; simpl; [lia|]. case_if; simpl; lia. Qed.

Lemma next_is_length x s s' : next_is x s = Some s' -> length s = S (length s').
Proof. destruct s as [|c s]; simpl; [done|]. case_if; [|done]. by intros [= <-]. Qed.

Lemma strtoll10_end_length s : (length (strtoll10_end s) <= length s)%nat.
Proof.
  unfold strtoll10_end. pose proof (skip_space_length s) as L1. pose proof (read_sign_length (skip_space s)) as L2.
  destruct (read_sign (skip_space s)) as [neg s']. simpl in L2. destruct s' as [|d s']; [lia|].
  case_if; [|lia]. pose proof (read_digits_length 10 (d :: s') 0). lia.
Qed.

Lemma comparison_end_length s : (length (comparison_end s) <= length s)%nat.
Proof.
  unfold comparison_end. destruct (next_is "[" s) as [c|] eqn:E; [|done]. apply next_is_length in E.
  set (after_op := match next_is "<" c with Some _ => _ | None => _ end).
  assert (forall c', after_op = Some c' -> (length c' <= length c)%nat) as A.
  { subst after_op. assert (forall c' : text, (length (tail c') <= length c')%nat) as T by (intros [|? ?]; simpl; lia).
    repeat match goal with |- context [next_is ?x c] => destruct (next_is x c) eqn:?; simpl end; intros c' [= <-];
      repeat match goal with H : next_is _ _ = Some _ |- _ => apply next_is_length in H end;
      repeat match goal with |- context [skip ?x ?y] => pose proof (skip_length x y); generalize dependent (skip x y); intros end;
      repeat match goal with |- context [tail ?y] => pose proof (T y); generalize dependent (tail y); intros end; lia. }
  destruct after_op as [c1|]; simpl; [|lia]. specialize (A c1 eq_refl).
  destruct (next_is "$" c1) as [c2|] eqn:E2; [|lia]. apply next_is_length in E2.
  pose proof (strtoll10_end_length c2). pose proof (skip_length "]" (strtoll10_end c2)).
  destruct (next_is " " _); [lia|]. destruct (next_is "," _) eqn:E3; [apply next_is_length in E3|]; lia.
Qed.

Section forward.
Context `{Tgt : Target} `{Fp : FloatOps} (strtofp : option symbol -> text -> sval_t * text).

Lemma parse_val_length t s : is_fp_ctype t = false -> (length (snd (parse_val strtofp t s)) <= length s)%nat.
Proof.
  intros Hf. unfold parse_val. rewrite Hf.
  destruct (match_key (val_keys t) s) as [[v rest]|] eqn:E; [by apply match_key_length in E|].
  destruct (strtoll_length s) as [L1 L2]. destruct s as [|c s]; [repeat case_if; simpl; lia|].
  assert (forall x y : sval_t * text, (length (snd x) <= length (c :: s))%nat -> (length (snd y) <= length (c :: s))%nat ->
    (length (snd match c with "["%char => x | _ => y end) <= length (c :: s))%nat) as M.
  { intros x y Hx Hy. destruct c as [[] [] [] [] [] [] [] []]; auto. }
  apply M; [apply (comparison_end_length (c :: s))|].
  repeat case_if; destruct (strtoll (c :: s)), (strtoull (c :: s)); exact L1 || exact L2.
Qed.

(** The loop of str_to_rl_helper() ends: a turn for every character is enough,
    whatever the text is. *)
Lemma helper_loop_fuel t : is_fp_ctype t = false -> forall f1 f2 c pm mn mx rl,
  (length c < f1)%nat -> (length c < f2)%nat ->
  helper_loop strtofp f1 t c pm mn mx rl = helper_loop strtofp f2 t c pm mn mx rl.
Proof.
  intros Hf. induction f1 as [|f1 IH]; intros [|f2] c pm mn mx rl L1 L2; [lia..|]. cbn [helper_loop].
  destruct (at_end c); [done|]. destruct (next_is "+" c); [done|].
  pose proof (skip_length "(" c) as K0. pose proof (parse_val_length t (skip "(" c) Hf) as K1.
  destruct (parse_val strtofp t (skip "(" c)) as [min c1]. simpl in K1.
  pose proof (skip_length ")" c1) as K2. set (c2 := skip ")" c1) in *. clearbody c2.
  destruct (at_end c2); [done|]. destruct (next_is "," c2) as [c3|] eqn:E3.
  { apply next_is_length in E3. apply IH; lia. }
  set (st := match next_is "+" c2 with Some _ => _ | None => _ end).
  assert (length (snd (fst st)) <= length c2)%nat as K3.
  { subst st. destruct (next_is "+" c2) eqn:E; [apply next_is_length in E|]; simpl; lia. }
  destruct st as [[[min' rl'] c3] stop]. simpl in K3. destruct stop; [done|].
  destruct (next_is "-" c3) as [c4|] eqn:E4; [|done]. apply next_is_length in E4.
  pose proof (skip_length "(" c4) as K4. pose proof (parse_val_length t (skip "(" c4) Hf) as K5.
  destruct (parse_val strtofp t (skip "(" c4)) as [max c5]. simpl in K5.
  set (st := match next_is "+" c5 with Some _ => _ | None => _ end).
  assert (length (snd (fst st)) <= length c5)%nat as K6.
  { subst st. destruct (next_is "+" c5) eqn:E; [apply next_is_length in E|]; simpl; lia. }
  destruct st as [[[max' rl2] c6] stop]. simpl in K6. destruct stop; [done|].
  pose proof (skip_length ")" c6). pose proof (skip_length "," (skip ")" c6)). apply IH; lia.
Qed.
End forward.

Section values.
Context `{Tgt : Target} `{Fp : FloatOps}.
Context (fp_to_str : sval_t -> text) (strtofp : option symbol -> text -> sval_t * text).
Context (t : option symbol) (Ht : std_type t) (Np : type_is_ptr t = false).

(** What follows a value outside of parentheses. *)
Definition ends (s : text) : Prop := s = [] \/ exists s', s = ","%char :: s' \/ s = "-"%char :: s'.

Lemma ends_stops s : ends s -> stops s.
Proof. intros [->|(s' & [->| ->])]; [by left|right..]; exists s'; auto. Qed.

Lemma skip_ends s : ends s -> skip ")" s = s.
Proof. by intros [->|(s' & [->| ->])]. Qed.

Lemma no_fp_ctype : is_fp_ctype t = false.
Proof.
  pose proof (std_not_fp _ Ht) as H. unfold is_fp_ctype. unfold type_is_fp, fp_kind_of in H.
  destruct (type_eqb t float_ctype), (type_eqb t double_ctype), (type_eqb t ldouble_ctype); done.
Qed.

Lemma match_key_number c s : (exists d, 0 <= d < 10 /\ c = digit d) \/ c = "-"%char -> match_key (val_keys t) (c :: s) = None.
Proof.
  intros H. unfold val_keys, match_key, lit, list_ascii_of_string, strip.
  assert (forall a, In a ["m"; "u"; "s"; "l"; "p"]%char -> Ascii.eqb a c = false) as E.
  { intros a Ha. simpl in Ha. destruct H as [(d & B & ->)| ->]; [digit_case d|];
      destruct Ha as [<-|[<-|[<-|[<-|[<-|[]]]]]]; reflexivity. }
  rewrite !E by (simpl; tauto). done.
Qed.

(** A number in the text, with or without a sign. *)
Lemma parse_val_number c s v rest :
  (exists d, 0 <= d < 10 /\ c = digit d) \/ c = "-"%char ->
  (if type_positive_bits t =? 64
   then strtoull (c :: s) = (v, rest) else strtoll (c :: s) = (v, rest)) ->
  parse_val strtofp t (c :: s) = (sval_type_val t (if type_positive_bits t =? 64 then s64 v else v), rest).
Proof.
  intros Hc Hv. unfold parse_val. rewrite no_fp_ctype, (match_key_number c s Hc), Np.
  assert (forall A (x y : A), match c with "["%char => x | _ => y end = y) as E.
  { intros A x y. destruct Hc as [(d & B & ->)| ->]; [by digit_case d|done]. }
  rewrite E. destruct (type_positive_bits t =? 64); by rewrite Hv.
Qed.

(** A keyword of the text stands for its entry of [val_keys]. *)
Lemma parse_val_key k v rest :
  match_key (val_keys t) (lit k ++ rest) = Some (v, rest) -> parse_val strtofp t (lit k ++ rest) = (v, rest).
Proof. intros H. unfold parse_val. by rewrite no_fp_ctype, H. Qed.

Lemma wf_value s : wf_sval t s ->
  s = Sval t (value s) /\ is_s64 (value s) /\
  (type_unsigned t = true -> uvalue s <= ULLONG_MAX /\ 0 <= uvalue s /\ (type_positive_bits t <> 64 -> value s = uvalue s)) /\
  (type_unsigned t = false -> type_positive_bits t <> 64).
Proof.
  intros W. pose proof (wf_type _ _ W) as E. pose proof (wf_s64 _ _ W) as S. pose proof (wf_num _ _ W) as N.
  split; [destruct s; simpl in *; by subst|]. split; [done|].
  rewrite (type_positive_bits_std t Ht). unfold num in N. rewrite E in N. unfold in_type in N.
  unfold uvalue in *. std_cases Ht; rewrite Hu in *; rewrite ?Hmax, ?Hmin in *; split; intros; try done; try lia;
    repeat split; intros; wrap_lia.
Qed.

Lemma sval_type_val_std v : sval_type_val t v = Sval t v.
Proof. unfold sval_type_val. by destruct (std_type_some t Ht) as [? ->]. Qed.

Lemma not_ptr s : sv_type s = t -> sval_is_ptr s = false.
Proof.
  intros E. unfold sval_is_ptr. rewrite E. unfold type_is_ptr, kind_in in *. destruct t as [u|]; [|done].
  apply bool_decide_eq_false in Np. apply bool_decide_eq_false. intros H. apply Np.
  rewrite list_elem_of_In in *. simpl in *. tauto.
Qed.

(** A shown value [txt] is parsed back as [s]. *)
Definition parses (s : sval_t) (txt rest : text) : Prop :=
  exists c, parse_val strtofp t (skip "(" (txt ++ rest)) = (s, c) /\ (c = rest \/ c = ")"%char :: rest).

Lemma parses_key k s v rest :
  wf_sval t s -> value s = v -> match_key (val_keys t) (lit k ++ rest) = Some (Sval t v, rest) ->
  skip "(" (lit k ++ rest) = lit k ++ rest -> parses s (lit k) rest.
Proof.
  intros W Hv Hm Hsk. destruct (wf_value s W) as (Es & _). exists rest. rewrite Hsk. split; [|by left].
  rewrite (parse_val_key _ _ _ Hm), <- Hv. by f_equal.
Qed.

Lemma parses_unsigned s rest :
  wf_sval t s -> ends rest -> type_unsigned t = true -> parses s (print_llu (uvalue s)) rest.
Proof.
  intros W R U. destruct (wf_value s W) as (Es & S64 & Un & _). destruct (Un U) as (B1 & B2 & B3).
  pose proof (ends_stops _ R) as St.
  destruct (print_llu_head (uvalue s) rest B2) as (d & s' & Eh & Bd). exists rest. split; [|by left].
  assert (skip "(" (print_llu (uvalue s) ++ rest) = print_llu (uvalue s) ++ rest) as -> by (rewrite Eh; by digit_case d).
  pose proof (strtoull_print (uvalue s) rest ltac:(lia) St) as P1.
  rewrite Eh in *. rewrite (parse_val_number (digit d) s' (uvalue s) rest).
  - rewrite sval_type_val_std. f_equal. transitivity (Sval t (value s)); [f_equal|by symmetry].
    destruct (Z.eqb_spec (type_positive_bits t) 64) as [_|N]; [|by rewrite B3].
    unfold uvalue. rewrite s64_u64. by apply s64_small.
  - left. eauto.
  - destruct (Z.eqb_spec (type_positive_bits t) 64) as [_|N]; [done|]. specialize (B3 N).
    rewrite <- B3 in Eh |- *. rewrite <- Eh. unfold is_s64 in S64.
    assert (print_llu (value s) = print_lld (value s)) as ->
      by (unfold print_lld; by rewrite (proj2 (Z.ltb_ge _ _)) by lia).
    apply strtoll_print; [unfold LLONG_MIN, LLONG_MAX, two63 in *; lia|done].
Qed.

Lemma parses_signed s rest :
  wf_sval t s -> ends rest -> type_unsigned t = false ->
  parses s (if value s <? 0 then "("%char :: print_lld (value s) ++ lit ")" else print_lld (value s)) rest.
Proof.
  intros W R U. destruct (wf_value s W) as (Es & S64 & _ & Si). specialize (Si U).
  assert (LLONG_MIN <= value s <= LLONG_MAX) as B by (unfold is_s64, LLONG_MIN, LLONG_MAX, two63 in *; lia).
  pose proof (proj2 (Z.eqb_neq _ _) Si) as P64. unfold parses.
  assert (forall c s' rest', (exists d, 0 <= d < 10 /\ c = digit d) \/ c = "-"%char ->
    print_lld (value s) ++ rest' = c :: s' -> stops rest' ->
    parse_val strtofp t (print_lld (value s) ++ rest') = (s, rest')) as Num.
  { intros c s' rest' Hc Eh St. pose proof (strtoll_print (value s) rest' B St) as P. rewrite Eh in *.
    rewrite (parse_val_number c s' (value s) rest') by (try done; by rewrite P64).
    by rewrite P64, sval_type_val_std, <- Es. }
  destruct (Z.ltb_spec (value s) 0) as [Neg|Pos].
  - exists (")"%char :: rest). split; [|by right]. cbn [app skip Ascii.eqb Bool.eqb]. rewrite <- app_assoc.
    eapply (Num "-"%char); [by right| |right; exists rest; auto].
    unfold print_lld. rewrite (proj2 (Z.ltb_lt _ _)) by lia. reflexivity.
  - exists rest. split; [|by left].
    assert (print_lld (value s) = print_llu (value s)) as El
      by (unfold print_lld; by rewrite (proj2 (Z.ltb_ge _ _)) by lia).
    destruct (print_llu_head (value s) rest Pos) as (d & s' & Eh & Bd). rewrite <- El in Eh.
    assert (skip "(" (print_lld (value s) ++ rest) = print_lld (value s) ++ rest) as -> by (rewrite Eh; by digit_case d).
    eapply (Num (digit d)); [left; eauto|exact Eh|by apply ends_stops].
Qed.

(** What is shown is parsed back. *)
Lemma parse_shown s rest : wf_sval t s -> ends rest -> parses s (sval_to_str fp_to_str s) rest.
Proof.
  intros W R. pose proof (wf_type _ _ W) as E. pose proof sval_type_val_std as V.
  unfold sval_to_str, sval_is_fp, sval_signed. rewrite (not_ptr s E), E, (std_not_fp _ Ht), (sval_unsigned_wf t s Ht E).
  cbn [andb]. pose proof (parses_unsigned s rest W R) as PU. pose proof (parses_signed s rest W R) as PS.
  destruct (type_unsigned t) eqn:U; cbn [andb negb].
  - destruct (Z.eqb_spec (uvalue s) ULLONG_MAX).
    { eapply parses_key; [done|reflexivity|simpl; rewrite V|done]. do 2 f_equal. f_equal.
      pose proof (wf_s64 _ _ W). unfold uvalue in *. wrap_lia. }
    repeat (match goal with |- context [value s =? ?k] => destruct (Z.eqb_spec (value s) k) as [Hv|_] end;
      [eapply parses_key; [done|exact Hv|simpl; by rewrite V|done]|]).
    by apply PU.
  - repeat (match goal with |- context [value s =? ?k] => destruct (Z.eqb_spec (value s) k) as [Hv|_] end;
      [eapply parses_key; [done|exact Hv|simpl; by rewrite V|done]|]).
    by apply PS.
Qed.

(** A shown value is short, and does not look like the end of a list. *)
Definition value_text (txt : text) : Prop :=
  (length txt <= 22)%nat /\ exists c s, txt = c :: s /\ Ascii.eqb c "[" = false /\ Ascii.eqb c "+" = false /\ Ascii.eqb c "e" = false.

Lemma print_llu_text k n : (1 <= k <= 20)%nat -> 0 <= n < 10 ^ Z.of_nat k -> value_text (print_llu n) /\ (length (print_llu n) <= k)%nat.
Proof.
  intros Hk Hn. pose proof (digits_length 20 k n [] Hk Hn) as L.
  change (digits 20 n []) with (print_llu n) in L. cbn [length] in L.
  split; [split; [lia|]|lia]. destruct (print_llu_head n [] (proj1 Hn)) as (d & s' & E & B). rewrite app_nil_r in E.
  exists (digit d), s'. split; [done|]. by digit_case d.
Qed.

Lemma shown_text s : wf_sval t s -> value_text (sval_to_str fp_to_str s).
Proof.
  intros W. pose proof (wf_type _ _ W) as E. destruct (wf_value s W) as (_ & S64 & Un & _).
  assert (forall k, (length (lit k) <=? 22)%nat = true ->
    match lit k with c :: _ => Ascii.eqb c "[" || (Ascii.eqb c "+" || Ascii.eqb c "e") | [] => true end = false -> value_text (lit k)) as K.
  { intros k Hl Hk. split; [by apply Nat.leb_le|]. destruct (lit k) as [|c s']; [done|].
    rewrite !orb_false_iff in Hk. by exists c, s'. }
  unfold sval_to_str, sval_is_fp, sval_signed. rewrite (not_ptr s E), E, (std_not_fp _ Ht), (sval_unsigned_wf t s Ht E).
  cbn [andb]. unfold is_s64, two63 in S64. destruct (type_unsigned t) eqn:U; cbn [andb negb].
  - destruct (Un eq_refl) as (B1 & B2 & _). unfold ULLONG_MAX in B1.
    repeat (case_if; [by apply K|]). apply (print_llu_text 20); [lia|lia].
  - repeat (case_if; [first [by apply K|idtac]|]).
    + zbool. unfold print_lld. rewrite (proj2 (Z.ltb_lt _ _)) by lia.
      destruct (print_llu_text 19 (- value s)) as [_ L]; [lia|lia|].
      split; [simpl; rewrite length_app; simpl; lia|]. by eexists _, _.
    + zbool. unfold print_lld. rewrite (proj2 (Z.ltb_ge _ _)) by lia. apply (print_llu_text 19); lia.
Qed.

(** ** One range *)

Lemma show_range_eq d : wf_range t d ->
  show_range fp_to_str d =
  if num (rmin d) =? num (rmax d) then sval_to_str fp_to_str (rmin d)
  else sval_to_str fp_to_str (rmin d) ++ lit "-" ++ sval_to_str fp_to_str (rmax d).
Proof.
  intros [W X O]. unfold show_range, get_err_pointer_str, is_err_ptr. rewrite (wf_type _ _ W), Np.
  rewrite (sval_cmp_eqb t) by done. by destruct proj_kernel.
Qed.

Lemma value_head txt rest : value_text txt -> at_end (txt ++ rest) = false /\ next_is "+" (txt ++ rest) = None.
Proof. intros (_ & c & s & -> & H1 & H2 & _). simpl. rewrite H2. done. Qed.

Lemma fits_self s : wf_sval t s -> sval_fits t s = true.
Proof. intros W. apply (sval_fits_spec t t); [done|done|done|]. apply (wf_num _ _ W). Qed.

(** The rest of the text of a list, after a range. *)
Definition tail_text (rest : text) : Prop := rest = [] \/ exists more, rest = ","%char :: more.

Lemma tail_ends rest : tail_text rest -> ends rest.
Proof. intros [->|(more & ->)]; [by left|right; eauto]. Qed.

Lemma helper_one f d rest pm mn mx rl :
  wf_range t d -> tail_text rest ->
  exists pm' mn' mx',
  helper_loop strtofp (S f) t (show_range fp_to_str d ++ rest) pm mn mx rl =
  match rest with
  | [] => (add_range_t t rl (rmin d) (rmax d), [])
  | _ :: more => helper_loop strtofp f t more pm' mn' mx' (add_range_t t rl (rmin d) (rmax d))
  end.
Proof.
  intros Wd R. rewrite (show_range_eq d Wd). destruct Wd as [W X O]. pose proof (tail_ends _ R) as Re.
  destruct (Z.eqb_spec (num (rmin d)) (num (rmax d))) as [Eq|Ne].
  - assert (rmax d = rmin d) as -> by (symmetry; by apply (num_inj t)).
    destruct (parse_shown (rmin d) rest W Re) as (c & P & Hc). exists pm, (rmin d), (rmin d).
    destruct (value_head _ rest (shown_text _ W)) as [H1 H2]. cbn [helper_loop]. rewrite H1, H2, P.
    rewrite (fits_self _ W). cbn [negb].
    assert (skip ")" c = rest) as -> by (destruct Hc as [->| ->]; [by apply skip_ends|done]).
    by destruct R as [->|(more & ->)].
  - set (mid := lit "-" ++ sval_to_str fp_to_str (rmax d) ++ rest).
    assert (ends mid) as Rm by (right; eexists; right; reflexivity).
    rewrite <- !app_assoc. fold mid.
    destruct (parse_shown (rmin d) mid W Rm) as (c & P & Hc).
    destruct (parse_shown (rmax d) rest X Re) as (c2 & P2 & Hc2). exists (rmax d), (rmin d), (rmax d).
    destruct (value_head _ mid (shown_text _ W)) as [H1 H2]. cbn [helper_loop]. rewrite H1, H2, P.
    rewrite (fits_self _ W). cbn [negb].
    assert (skip ")" c = mid) as -> by (destruct Hc as [->| ->]; done).
    unfold mid. cbn [lit list_ascii_of_string app at_end next_is Ascii.eqb Bool.eqb]. rewrite P2, (fits_self _ X). cbn [negb].
    assert (next_is "+" c2 = None /\ skip ")" c2 = rest) as [-> ->].
    { destruct Hc2 as [->| ->]; [|done]. split; [|by apply skip_ends]. by destruct R as [->|(more & ->)]. }
    destruct R as [->|(more & ->)]; [|done]. by destruct f.
Qed.

(** ** Lists *)

Fixpoint join (ds : range_list) : text :=
  match ds with
  | [] => []
  | [d] => show_range fp_to_str d
  | d :: ds' => show_range fp_to_str d ++ ","%char :: join ds'
  end.

Lemma join_snoc ds d : ds <> [] -> join (ds ++ [d]) = join ds ++ ","%char :: show_range fp_to_str d.
Proof.
  induction ds as [|e ds IH]; [done|]. intros _. destruct ds as [|e' ds]; [done|].
  change (join ((e :: e' :: ds) ++ [d])) with (show_range fp_to_str e ++ ","%char :: join ((e' :: ds) ++ [d])).
  rewrite IH by done. change (join (e :: e' :: ds)) with (show_range fp_to_str e ++ ","%char :: join (e' :: ds)).
  by rewrite <- app_assoc.
Qed.

Lemma show_range_length d : wf_range t d -> (1 <= length (show_range fp_to_str d) <= 45)%nat.
Proof.
  intros Wd. rewrite (show_range_eq d Wd). destruct Wd as [W X _].
  destruct (shown_text _ W) as (L1 & c & s & E & _). destruct (shown_text _ X) as (L2 & _).
  case_if; rewrite ?length_app; simpl; rewrite E in *; simpl in *; lia.
Qed.

Lemma join_length ds : Forall (wf_range t) ds -> (length ds <= length (join ds) <= 46 * length ds)%nat.
Proof.
  induction 1 as [|d ds Hd Hds IH]; [simpl; lia|]. pose proof (show_range_length d Hd).
  destruct ds as [|e ds]; [simpl; lia|].
  change (join (d :: e :: ds)) with (show_range fp_to_str d ++ ","%char :: join (e :: ds)).
  rewrite length_app. cbn [length] in *. lia.
Qed.

Lemma add_range_t_same rl d : wf_range t d -> add_range_t t rl (rmin d) (rmax d) = add_range rl (rmin d) (rmax d).
Proof.
  intros Wd. rewrite (add_range_t_fits t t) by (done || apply Wd).
  unfold cast_range. cbn [rmin rmax]. by rewrite !(sval_cast_id t) by (done || apply Wd).
Qed.

Lemma helper_join ds : Forall (wf_range t) ds -> forall fuel pm mn mx rl, ds <> [] -> (length ds <= fuel)%nat ->
  helper_loop strtofp fuel t (join ds) pm mn mx rl = (adds ds rl, []).
Proof.
  induction 1 as [|d ds Hd Hds IH]; intros fuel pm mn mx rl Hne Hf; [done|]. destruct fuel as [|f]; [simpl in Hf; lia|].
  cbn [adds fold_left]. rewrite <- (add_range_t_same rl d Hd).
  destruct ds as [|e ds].
  - destruct (helper_one f d [] pm mn mx rl Hd ltac:(by left)) as (? & ? & ? & E). rewrite app_nil_r in E. exact E.
  - change (join (d :: e :: ds)) with (show_range fp_to_str d ++ ","%char :: join (e :: ds)).
    destruct (helper_one f d (","%char :: join (e :: ds)) pm mn mx rl Hd ltac:(right; eauto)) as (a & b & c & E).
    rewrite E. apply IH; [done|simpl in *; lia].
Qed.

(** ** The buffer of show_rl() *)

(** The list that show_rl() shows of [rl]: all of it, or the ranges that fit and
    one that goes up to the end of the type. *)
Definition shows (rl ds : range_list) : Prop :=
  ds = rl \/
  (5 < length rl)%nat /\
  exists a d x b, rl = a ++ d :: x :: b /\ ds = a ++ [Range (rmin d) (sval_type_max t)].

Lemma show_rest_eq d : wf_sval t (rmin d) -> num (rmin d) < tmax t ->
  show_rest fp_to_str d = ","%char :: show_range fp_to_str (Range (rmin d) (sval_type_max t)).
Proof.
  intros W Hlt. pose proof (wf_type_max t Ht) as X. pose proof (num_type_max t Ht) as E.
  rewrite show_range_eq by (split; simpl; [done|done|lia]). cbn [rmin rmax].
  rewrite (proj2 (Z.eqb_neq _ _)) by lia. unfold show_rest. by rewrite (wf_type _ _ W).
Qed.

(** A range that is not the last one does not reach the end of the type. *)
Lemma before_last a d x b : wf_rl t (a ++ d :: x :: b) -> wf_range t d /\ num (rmin d) < tmax t.
Proof.
  intros [F S]. apply Forall_app in F as [_ F]. inversion_clear F as [|? ? Hd F']. inversion_clear F' as [|? ? Hx _].
  split; [done|]. revert S. generalize (tmin t). induction a as [|e a IH]; intros lo; cbn [app separated].
  - intros (_ & H & _). pose proof (wf_order _ _ Hd). pose proof (proj2 (wf_num _ _ (wf_rmin _ _ Hx))). lia.
  - intros [_ H]. by eapply IH.
Qed.

Lemma shown_prefix done d rl : wf_rl t (done ++ d :: rl) -> Forall (wf_range t) (done ++ [d]).
Proof.
  intros [F _]. apply Forall_app in F as [F1 F2]. apply Forall_app. split; [done|]. inversion_clear F2. constructor; [done|constructor].
Qed.

Lemma show_loop_spec rl : forall done d,
  wf_rl t (done ++ d :: rl) -> (length (join done) <= 207)%nat -> (length (join (done ++ [d])) <= 253)%nat ->
  exists ds, shows (done ++ d :: rl) ds /\ (length (join ds) <= 253)%nat /\
    show_loop fp_to_str rl (join (done ++ [d])) (join done) (Z.of_nat (length (join (done ++ [d])))) (Some d) = join ds.
Proof.
  induction rl as [|x rl IH]; intros done d W Lp Lf; cbn [show_loop].
  { eexists. split; [by left|by split]. }
  pose proof (shown_prefix _ _ _ W) as F.
  pose proof (join_length _ F) as JL. rewrite length_app in JL. cbn [length] in JL.
  destruct (before_last _ _ _ _ W) as [Wd Ld].
  destruct (Z.ltb_spec (255 - Z.of_nat (length (join (done ++ [d])))) 48) as [Full|Room].
  - assert (done <> []) as Nd.
    { intros ->. cbn [app join length] in *. pose proof (show_range_length d Wd). lia. }
    exists (done ++ [Range (rmin d) (sval_type_max t)]). split.
    { right. split; [rewrite length_app; simpl; lia|]. eauto 8. }
    rewrite (show_rest_eq d (wf_rmin _ _ Wd) Ld), join_snoc by done.
    assert (wf_range t (Range (rmin d) (sval_type_max t))) as Wm.
    { split; cbn [rmin rmax]; [apply Wd|by apply wf_type_max|rewrite (num_type_max t Ht); lia]. }
    pose proof (show_range_length _ Wm). split; [rewrite length_app; cbn [length]; lia|].
    f_equal. apply take_ge. cbn [length]. lia.
  - assert (wf_range t x) as Wx by (destruct W as [W _]; apply Forall_app in W as [_ W]; inversion_clear W as [|? ? _ W'];
      by inversion_clear W').
    pose proof (show_range_length x Wx) as Lx.
    assert (take (Z.to_nat (255 - Z.of_nat (length (join (done ++ [d])))) - 1) (lit "," ++ show_range fp_to_str x) =
      ","%char :: show_range fp_to_str x) as -> by (apply take_ge; cbn [lit list_ascii_of_string app length]; lia).
    rewrite <- join_snoc by (by destruct done).
    replace (Z.of_nat (length (join (done ++ [d]))) + Z.of_nat (length (lit "," ++ show_range fp_to_str x)))
      with (Z.of_nat (length (join ((done ++ [d]) ++ [x]))))
      by (rewrite join_snoc by (by destruct done); rewrite length_app; cbn [lit list_ascii_of_string app length]; lia).
    destruct (IH (done ++ [d]) x) as (ds & S & E); [by rewrite <- app_assoc|lia| |].
    { rewrite join_snoc by (by destruct done). rewrite length_app. cbn [length]. lia. }
    exists ds. rewrite <- app_assoc in S. done.
Qed.

(** What is shown holds the list, and is in normal form. *)
Lemma shows_wf rl ds : wf_rl t rl -> shows rl ds -> wf_rl t ds /\ (forall z, rl_has rl z -> rl_has ds z).
Proof.
  intros W [->|(_ & a & d & x & b & -> & ->)]; [done|]. destruct (before_last _ _ _ _ W) as [Wd Ld].
  destruct W as [F S]. assert (wf_range t (Range (rmin d) (sval_type_max t))) as Wm.
  { split; cbn [rmin rmax]; [apply Wd|by apply wf_type_max|rewrite (num_type_max t Ht); lia]. }
  pose proof F as F'. apply Forall_app in F' as [Fa Fd].
  assert (forall lo, separated lo (a ++ d :: x :: b) -> separated lo (a ++ [Range (rmin d) (sval_type_max t)]) /\
    separated (num (rmin d)) (d :: x :: b)) as Hs.
  { clear. induction a as [|e a IH]; intros lo; cbn [app separated].
    - intros (H1 & H2 & H3). repeat split; auto; lia.
    - intros (H1 & H2). destruct (IH _ H2). auto. }
  destruct (Hs _ S) as [S1 S2]. split.
  - split; [apply Forall_app; split; [done|constructor; [done|constructor]]|done].
  - intros z. rewrite !rl_has_app. intros [Hz|Hz]; [by left|right]. apply rl_has_cons. left. unfold in_range.
    cbn [rmin rmax]. rewrite (num_type_max t Ht). pose proof (separated_above t _ _ z Fd S2 Hz).
    pose proof (rl_has_in_type t _ z Fd Hz) as [_ ?]. lia.
Qed.

Lemma show_rl_spec rl : wf_rl t rl -> rl <> [] -> exists ds, shows rl ds /\ (length (join ds) <= 253)%nat /\ show_rl fp_to_str rl = join ds.
Proof.
  intros W Hne. destruct rl as [|d rl]; [done|]. unfold show_rl. cbn [show_loop].
  assert (wf_range t d) as Wd by (destruct W as [W _]; by inversion_clear W).
  pose proof (show_range_length d Wd) as L. change (255 - 0 <? 48) with false. cbn [app].
  rewrite take_ge by (simpl; lia). rewrite Z.add_0_l.
  exact (show_loop_spec rl [] d W ltac:(simpl; lia) ltac:(simpl; lia)).
Qed.

Lemma join_head ds : Forall (wf_range t) ds -> ds <> [] ->
  exists c s, join ds = c :: s /\ Ascii.eqb c "[" = false /\ Ascii.eqb c "e" = false.
Proof.
  intros F Hne. destruct F as [|d ds Hd _]; [done|].
  assert (exists c s, show_range fp_to_str d = c :: s /\ Ascii.eqb c "[" = false /\ Ascii.eqb c "e" = false) as (c & s & E & H).
  { rewrite (show_range_eq d Hd). destruct (shown_text _ (wf_rmin _ _ Hd)) as (_ & c & s & E & H1 & _ & H2).
    rewrite E. case_if; eauto. }
  destruct ds as [|e ds]; [by exists c, s|].
  change (join (d :: e :: ds)) with (show_range fp_to_str d ++ ","%char :: join (e :: ds)). rewrite E. by eexists c, _.
Qed.

(** The text of a list in normal form is parsed back. *)
Lemma str_to_rl_join ds : wf_rl t ds -> ds <> [] -> str_to_rl strtofp t (join ds) = Some ds.
Proof.
  intros W Hne. pose proof (wf_rl_ranges _ _ W) as F.
  destruct (join_head ds F Hne) as (c & s & E & H1 & H2).
  pose proof (proj1 (join_length ds F)) as JL.
  unfold str_to_rl, str_to_dinfo, str_to_rl_helper.
  assert (match t with Some _ => t | None => llong_ctype end = t) as -> by (by destruct (std_type_some t Ht) as [? ->]).
  rewrite bool_decide_eq_false_2 by (rewrite E; intros [= -> _]; discriminate).
  assert (strip (lit "[==$") (join ds) = None) as ->.
  { rewrite E. cbn [lit list_ascii_of_string strip]. rewrite Ascii.eqb_sym, H1. done. }
  rewrite (helper_join ds F) by (done || lia).
  destruct (adds_spec t Ht ds [] (wf_rl_nil t) F ltac:(by left)) as (A & _ & B).
  assert (adds ds [] = ds) as ->.
  { apply (wf_rl_canonical t Ht); [done|done|]. intros z. rewrite B, rl_has_nil. tauto. }
  rewrite (cast_rl_same t Ht ds F). simpl. by rewrite (rl_is_sane_wf t Ht ds F).
Qed.
End values.
