(* ===== verification/RangeSplit.v ===== *)
(** * The two sides of a condition

    split_comparison_rl() and filter_by_comparison() on lists of one type:
    each list they return holds exactly the numbers for which the condition
    has the wanted value with some number of the other list. *)
From S2P Require Import Prelude Types Tokens Sval SvalFacts RangeList RangeFacts RangeSets RangeCast RangeCompare RangeCompareFacts Comparison.

Section split_facts.
Context `{Tgt : Target} `{Fp : FloatOps}.

Section one_type.
Context (t : option symbol) (Ht : std_type t).

(** [r] holds the numbers of [l] that satisfy [P]. *)
Definition keeps (l r : range_list) (P : Z -> Prop) : Prop :=
  wf_rl t r /\ forall z, rl_has r z <-> rl_has l z /\ P z.

Lemma keeps_iff l r (P Q : Z -> Prop) :
  keeps l r P -> (forall z, rl_has l z -> P z <-> Q z) -> keeps l r Q.
Proof. intros [H1 H2] H. split; [done|]. intros z. rewrite H2.
  split; intros [Hz HP]; (split; [done|]); by apply (H z Hz).
Qed.

Lemma keeps_id l (P : Z -> Prop) : wf_rl t l -> (forall z, rl_has l z -> P z) -> keeps l l P.
Proof. intros Hl H. split; [done|]. intros z. split; [auto|tauto]. Qed.

Section one_list.
Context (l : range_list) (Hl : wf_rl t l) (Hc : can_add t (S (length l))).

Abbreviation lo := (sval_type_min t).
Abbreviation hi := (sval_type_max t).

Lemma in_type_bounds z : rl_has l z -> tmin t <= z <= tmax t.
Proof. intros Hz. by apply (rl_has_in_type t l z (wf_rl_ranges _ _ Hl)). Qed.

Lemma keep_between min max :
  wf_sval t min -> wf_sval t max -> num min <= num max ->
  keeps l (remove_range l min max) (fun z => ~ (num min <= z <= num max)).
Proof.
  intros Wm Wx O. destruct (remove_range_wf t Ht l min max) as (H1 & _ & H3); auto.
  split; [done|]. intros z. rewrite H3. by rewrite Z.min_l, Z.max_r by lia.
Qed.

Lemma keep_below x : wf_sval t x -> keeps l (remove_range l x hi) (fun z => z < num x).
Proof.
  intros Wx. pose proof (wf_num _ _ Wx) as [? ?]. eapply keeps_iff.
  { apply keep_between; [done|by apply wf_type_max|]. by rewrite num_type_max. }
  intros z Hz%in_type_bounds. simpl. rewrite num_type_max by done. lia.
Qed.

Lemma keep_above x : wf_sval t x -> keeps l (remove_range l lo x) (fun z => num x < z).
Proof.
  intros Wx. pose proof (wf_num _ _ Wx) as [? ?]. eapply keeps_iff.
  { apply keep_between; [by apply wf_type_min|done|]. by rewrite num_type_min. }
  intros z Hz%in_type_bounds. simpl. rewrite num_type_min by done. lia.
Qed.

Lemma keep_upto x : wf_sval t x ->
  keeps l (if negb (sval_is_max x) then remove_range l (add_one x) hi else l) (fun z => z <= num x).
Proof.
  intros Wx. rewrite (sval_is_max_spec t) by done. pose proof (wf_num _ _ Wx) as [? ?].
  destruct (Z.eqb_spec (num x) (tmax t)) as [E|E]; simpl.
  - apply keeps_id; [done|]. intros z Hz%in_type_bounds. lia.
  - destruct (wf_succ t Ht x Wx ltac:(lia)) as [W' E'].
    eapply keeps_iff; [by apply keep_below|]. intros z _. unfold add_one. simpl. rewrite E'. lia.
Qed.

Lemma keep_from x : wf_sval t x ->
  keeps l (if negb (sval_is_min x) then remove_range l lo (sub_one x) else l) (fun z => num x <= z).
Proof.
  intros Wx. rewrite (sval_is_min_spec t) by done. pose proof (wf_num _ _ Wx) as [? ?].
  destruct (Z.eqb_spec (num x) (tmin t)) as [E|E]; simpl.
  - apply keeps_id; [done|]. intros z Hz%in_type_bounds. lia.
  - destruct (wf_pred t Ht x Wx ltac:(lia)) as [W' E'].
    eapply keeps_iff; [by apply keep_above|]. intros z _. unfold sub_one. simpl. rewrite E'. lia.
Qed.

Lemma keep_other x : wf_sval t x -> keeps l (remove_range l x x) (fun z => z <> num x).
Proof.
  intros Wx. eapply keeps_iff; [by apply keep_between|]. intros z _. simpl. lia.
Qed.
End one_list.

(** The second removal of the <= and >= cases takes away nothing more. *)
Lemma remove_again l r (P : Z -> Prop) (b : bool) x :
  keeps l r P -> can_add t (S (length r)) -> wf_sval t x -> (b = true -> ~ P (num x)) ->
  keeps l (if b then remove_range r x x else r) P.
Proof.
  intros [H1 H2] Hc Wx Hb. destruct b; [|by split].
  destruct (keep_other r H1 Hc x Wx) as [I1 I2]. split; [done|].
  intros z. rewrite I2, H2. split; [tauto|]. intros [Hz HP]. split; [done|].
  intros ->. by apply Hb.
Qed.

Section two_lists.
Context (l r : range_list) (Hl : wf_rl t l) (Hr : wf_rl t r) (Nl : l <> []) (Nr : r <> []).

(** The numbers of [l] that compare with some number of [r]. *)
Definition some_right (op : op_tok) (a : Z) : Prop := exists b, rl_has r b /\ cmp_rel op a b.
Definition some_left (op : op_tok) (b : Z) : Prop := exists a, rl_has l a /\ cmp_rel op a b.

Lemma some_right_spec op a :
  some_right op a <->
  match op with
  | OP_LT | SPECIAL_UNSIGNED_LT => a < num (rl_max r)
  | OP_GT | SPECIAL_UNSIGNED_GT => num (rl_min r) < a
  | SPECIAL_LTE | SPECIAL_UNSIGNED_LTE => a <= num (rl_max r)
  | SPECIAL_GTE | SPECIAL_UNSIGNED_GTE => num (rl_min r) <= a
  | SPECIAL_EQUAL => rl_has r a
  | SPECIAL_NOTEQUAL => ~ (num (rl_min r) = a /\ num (rl_max r) = a)
  | UNKNOWN_COMPARISON => True
  | _ => False
  end.
Proof.
  destruct (rl_min_spec t r Hr Nr) as (_ & A & A').
  destruct (rl_max_spec t r Hr Nr) as (_ & B & B'). unfold some_right.
  destruct op; simpl; split; try (by intros (b & Hb & H)); try (by eauto).
  all: try (intros (b & Hb & H); apply A' in Hb as ?; apply B' in Hb as ?; lia || by subst).
  all: intros H; first [by exists (num (rl_max r)); split; [done|lia]
    |by exists (num (rl_min r)); split; [done|lia]|idtac].
  destruct (Z.eq_dec (num (rl_min r)) a); [|by exists (num (rl_min r)); split; [done|lia]].
  exists (num (rl_max r)). split; [done|]. lia.
Qed.
End two_lists.

Lemma some_left_right l op b :
  is_cmp op = true -> some_left l op b <-> some_right l (flip_comparison op) b.
Proof.
  intros Hop. unfold some_left, some_right.
  split; intros (a & Ha & H); exists a; (split; [done|]); by apply flip_comparison_rel.
Qed.

Section split_lists.
Context (l r : range_list) (Hl : wf_rl t l) (Hr : wf_rl t r) (Nl : l <> []) (Nr : r <> []).
Context (Hc : can_add t (2 + length l + length r)).

Abbreviation lo := (sval_type_min t).
Abbreviation hi := (sval_type_max t).

(** [r'] is what is left of [l] when some number of [r] is in the relation. *)
Lemma keeps_right l' op (P : Z -> Prop) :
  keeps l l' P -> (forall a, rl_has l a -> P a <-> some_right r op a) ->
  keeps l l' (some_right r op).
Proof. apply keeps_iff. Qed.

Lemma can_add_l : can_add t (S (length l)).
Proof. eapply can_add_le; [|exact Hc]. lia. Qed.
Lemma can_add_r : can_add t (S (length r)).
Proof. eapply can_add_le; [|exact Hc]. lia. Qed.

(** One list [l] filtered by the ends of [r], for every operator. *)
Definition kept (op : op_tok) : range_list :=
  match op with
  | OP_LT | SPECIAL_UNSIGNED_LT => remove_range l (rl_max r) hi
  | OP_GT | SPECIAL_UNSIGNED_GT => remove_range l lo (rl_min r)
  | SPECIAL_LTE | SPECIAL_UNSIGNED_LTE =>
    if negb (sval_is_max (rl_max r)) then remove_range l (add_one (rl_max r)) hi else l
  | SPECIAL_GTE | SPECIAL_UNSIGNED_GTE =>
    if negb (sval_is_min (rl_min r)) then remove_range l lo (sub_one (rl_min r)) else l
  | SPECIAL_NOTEQUAL =>
    if sval_cmp (rl_min r) (rl_max r) =? 0 then remove_range l (rl_min r) (rl_min r) else l
  | _ => l
  end.

Lemma kept_spec op :
  is_cmp op = true -> op <> SPECIAL_EQUAL -> keeps l (kept op) (some_right r op).
Proof.
  intros Hop Hne. pose proof can_add_l as Hcl.
  destruct (rl_min_spec t r Hr Nr) as (Wm & _ & _). destruct (rl_max_spec t r Hr Nr) as (Wx & _ & _).
  pose proof (rl_min_le_max t r Hr Nr).
  destruct op; try discriminate Hop; try done; cbn [kept].
  all: try (eapply keeps_iff; [by (apply keep_below || apply keep_above || apply keep_upto || apply keep_from)|];
            intros a _; rewrite some_right_spec by done; simpl; lia).
  rewrite (sval_cmp_eqb t) by done. destruct (Z.eqb_spec (num (rl_min r)) (num (rl_max r))).
  - eapply keeps_iff; [by apply keep_other|]. intros a _. rewrite some_right_spec by done. simpl. lia.
  - apply keeps_id; [done|]. intros a _. rewrite some_right_spec by done. lia.
Qed.

Lemma kept_length op : (length (kept op) <= S (length l))%nat.
Proof.
  pose proof can_add_l as Hcl.
  destruct (rl_min_spec t r Hr Nr) as (Wm & _ & _). destruct (rl_max_spec t r Hr Nr) as (Wx & _ & _).
  assert (forall a b, wf_sval t a -> wf_sval t b -> (length (remove_range l a b) <= S (length l))%nat) as L
    by (intros a b Wa Wb; by apply (remove_range_wf t Ht)).
  pose proof (wf_type_min t Ht). pose proof (wf_type_max t Ht).
  destruct op; cbn [kept]; rewrite ?(sval_is_max_spec t), ?(sval_is_min_spec t) by done; repeat case_if;
    try apply L; auto; try lia; zbool; (apply wf_succ || apply wf_pred); auto.
  all: pose proof (wf_num _ _ Wm) as [? ?]; pose proof (wf_num _ _ Wx) as [? ?]; lia.
Qed.
End split_lists.

Lemma keeps_clone l r P : keeps l r P -> keeps l (clone_rl r) P.
Proof. by rewrite clone_rl_id. Qed.

Section both.
Context (l r : range_list) (Hl : wf_rl t l) (Hr : wf_rl t r) (Nl : l <> []) (Nr : r <> []).
Context (Hc : can_add t (2 + length l + length r)).

(** The four lists of a split are the right ones. *)
Definition splits (op : op_tok) (s : split) : Prop :=
  keeps l (left_true s) (some_right r op) /\
  keeps l (left_false s) (some_right r (negate_comparison op)) /\
  keeps r (right_true s) (some_left l op) /\
  keeps r (right_false s) (some_left l (negate_comparison op)).

Lemma can_add_sym : can_add t (2 + length r + length l).
Proof. eapply can_add_le; [|exact Hc]. lia. Qed.

(** The right-hand list is the left-hand list of the flipped comparison. *)
Lemma keeps_left r' op :
  is_cmp op = true -> keeps r r' (some_right l (flip_comparison op)) -> keeps r r' (some_left l op).
Proof. intros Hop H. eapply keeps_iff; [exact H|]. intros b _. simpl. by rewrite some_left_right. Qed.

Lemma kept_left op :
  is_cmp op = true -> op <> SPECIAL_EQUAL -> keeps r (kept r l (flip_comparison op)) (some_left l op).
Proof.
  intros Hop Hne. apply keeps_left; [done|].
  apply kept_spec; auto using can_add_sym; by destruct op.
Qed.

Lemma intersection_keeps :
  exists ret, rl_intersection l r = Some ret /\
    keeps l ret (some_right r SPECIAL_EQUAL) /\ keeps r ret (some_left l SPECIAL_EQUAL).
Proof.
  destruct (rl_intersection_wf t Ht l r Hl Hr) as (ret & E & W & _ & H).
  { eapply can_add_le; [|exact Hc]. lia. }
  exists ret. split; [done|]. split; (split; [done|]); intros z; rewrite H.
  - rewrite some_right_spec by done. done.
  - rewrite some_left_right, some_right_spec by done. simpl. tauto.
Qed.

(** The ends the extra removals of <= and >= look at. *)
Lemma split_lte_gte op (b c : bool) :
  op = OP_LT \/ op = OP_GT ->
  forall x y, wf_sval t x -> wf_sval t y ->
  (b = true -> ~ some_right r op (num x)) ->
  (c = true -> ~ some_left l op (num y)) ->
  keeps l (if b then remove_range (kept l r op) x x else kept l r op) (some_right r op) /\
  keeps r (if c then remove_range (kept r l (flip_comparison op)) y y
           else kept r l (flip_comparison op)) (some_left l op).
Proof.
  intros Hop x y Wx Wy Hb Hcc. split; apply remove_again; auto.
  - apply kept_spec; auto; by destruct Hop as [->| ->].
  - eapply can_add_le; [|exact Hc]. pose proof (kept_length l r Hl Hr Nr Hc op). lia.
  - apply kept_left; by destruct Hop as [->| ->].
  - eapply can_add_le; [|exact Hc].
    pose proof (kept_length r l Hr Hl Nl can_add_sym (flip_comparison op)). lia.
Qed.

Lemma end_not_related :
  ((sval_cmp (rl_min l) (rl_min r) =? 0) = true -> ~ some_right r OP_GT (num (rl_min l))) /\
  ((sval_cmp (rl_max l) (rl_max r) =? 0) = true -> ~ some_left l OP_GT (num (rl_max l))) /\
  ((sval_cmp (rl_max l) (rl_max r) =? 0) = true -> ~ some_right r OP_LT (num (rl_max l))) /\
  ((sval_cmp (rl_min l) (rl_min r) =? 0) = true -> ~ some_left l OP_LT (num (rl_min l))).
Proof.
  destruct (rl_min_spec t l Hl Nl) as (Am & _ & _). destruct (rl_max_spec t l Hl Nl) as (Ax & _ & _).
  destruct (rl_min_spec t r Hr Nr) as (Bm & _ & _). destruct (rl_max_spec t r Hr Nr) as (Bx & _ & _).
  rewrite !some_left_right, !some_right_spec, !(sval_cmp_eqb t), !Z.eqb_eq by done. simpl. lia.
Qed.

Lemma split_comparison_rl_wf op :
  is_cmp op = true -> exists s, split_comparison_rl l op r = Some s /\ splits op s.
Proof.
  intros Hop. pose proof (rl_type_wf t l (wf_rl_ranges _ _ Hl) Nl) as Et.
  destruct (rl_min_spec t l Hl Nl) as (Am & _ & _). destruct (rl_max_spec t l Hl Nl) as (Ax & _ & _).
  destruct (rl_min_spec t r Hr Nr) as (Bm & _ & _). destruct (rl_max_spec t r Hr Nr) as (Bx & _ & _).
  pose proof (fun op => kept_spec l r Hl Hr Nr Hc op) as KL. pose proof kept_left as KR.
  destruct intersection_keeps as (ret & E & IL & IR).
  unfold split_comparison_rl, splits. rewrite !clone_rl_id, Et.
  destruct op; try discriminate Hop; rewrite ?E; simpl; rewrite ?clone_rl_id;
    eexists; (split; [reflexivity|]);
    cbn [left_true left_false right_true right_false negate_comparison].
  all: try (split; [by apply (KL OP_LT)|split; [by apply (KL SPECIAL_GTE)|
            split; [by apply (KR OP_LT)|by apply (KR SPECIAL_GTE)]]]).
  all: try (split; [by apply (KL OP_GT)|split; [by apply (KL SPECIAL_LTE)|
            split; [by apply (KR OP_GT)|by apply (KR SPECIAL_LTE)]]]).
  all: try (split; [done|split; [by apply (KL SPECIAL_NOTEQUAL)|
            split; [done|by apply (KR SPECIAL_NOTEQUAL)]]]).
  all: try (split; [by apply (KL SPECIAL_NOTEQUAL)|split; [done|
            split; [by apply (KR SPECIAL_NOTEQUAL)|done]]]).
  1, 3: destruct (split_lte_gte OP_GT (sval_cmp (rl_min l) (rl_min r) =? 0)
      (sval_cmp (rl_max l) (rl_max r) =? 0) (or_intror eq_refl) (rl_min l) (rl_max l)) as [L1 L2];
    auto; [by apply end_not_related..|];
    split; [by apply (KL SPECIAL_LTE)|split; [exact L1|split; [by apply (KR SPECIAL_LTE)|exact L2]]].
  all: destruct (split_lte_gte OP_LT (sval_cmp (rl_max l) (rl_max r) =? 0)
      (sval_cmp (rl_min l) (rl_min r) =? 0) (or_introl eq_refl) (rl_max l) (rl_min l)) as [L1 L2];
    auto; [by apply end_not_related..|];
    split; [by apply (KL SPECIAL_GTE)|split; [exact L1|split; [by apply (KR SPECIAL_GTE)|exact L2]]].
Qed.
End both.
End one_type.

(** ** filter_by_comparison() *)

Section filter.
Context (t : option symbol) (Ht : std_type t) (Hb : type_bits t <> 1).
Context (l r : range_list) (Hl : wf_rl t l) (Hr : wf_rl t r) (Nl : l <> []) (Nr : r <> []).
Context (Hc : can_add t (2 + length l + length r)).

Abbreviation common := (get_binop_type l r).

Lemma common_same :
  std_type common /\ type_bits common <> 1 /\ (forall z, in_type t z -> in_type common z) /\
  (forall n, can_add t n -> can_add common n).
Proof.
  destruct (get_binop_type_cases t t l r Hl Hr Nl Nr) as [(-> & H & _)|[(-> & _)|(-> & _)]]; [|done..].
  split; [apply int_ctype_std|]. split; [done|]. split; [|by left].
  intros z Hz. apply (in_type_mono t); auto using int_ctype_std.
Qed.

Lemma cast_common x :
  wf_rl t x -> can_add t (length x) ->
  wf_rl common (cast_rl common x) /\ (length (cast_rl common x) <= length x)%nat /\
  (forall z, rl_has (cast_rl common x) z <-> rl_has x z).
Proof.
  intros Hx Hn. destruct common_same as (Tc & Bc & In & Cn).
  apply (cast_rl_exact t); auto. intros z Hz. eapply In, rl_has_in_type; [apply Hx|done].
Qed.

(** A part of the list goes back to the type of the list unchanged. *)
Lemma cast_back ret (P : Z -> Prop) :
  keeps common (cast_rl common l) ret P -> (length ret <= S (length l + length r))%nat ->
  keeps t l (cast_rl t ret) P.
Proof.
  intros [W H] Hn. destruct common_same as (Tc & Bc & In & Cn).
  destruct (cast_common l Hl) as (_ & _ & Hk); [by eapply can_add_le; [|exact Hc]; lia|].
  destruct (cast_rl_exact common t ret) as (A & _ & C); auto.
  - intros z Hz. apply H in Hz as [Hz _]. eapply rl_has_in_type; [apply Hl|by apply Hk].
  - eapply can_add_le; [|exact Hc]. lia.
  - split; [done|]. intros z. by rewrite C, H, Hk.
Qed.

Lemma filter_by_comparison_wf op :
  is_cmp op = true ->
  exists ret, filter_by_comparison l op r = Some ret /\ keeps t l ret (some_right r op).
Proof.
  intros Hop. destruct common_same as (Tc & Bc & In & Cn).
  destruct (cast_common l Hl) as (Wl & Ll & El); [by eapply can_add_le; [|exact Hc]; lia|].
  destruct (cast_common r Hr) as (Wr & Lr & Er); [by eapply can_add_le; [|exact Hc]; lia|].
  assert (cast_rl common l <> []) as Nl'.
  { intros E. destruct (rl_min_spec t l Hl Nl) as (_ & M & _). apply El in M. rewrite E in M. by apply rl_has_nil in M. }
  assert (cast_rl common r <> []) as Nr'.
  { intros E. destruct (rl_min_spec t r Hr Nr) as (_ & M & _). apply Er in M. rewrite E in M. by apply rl_has_nil in M. }
  assert (can_add common (2 + length (cast_rl common l) + length (cast_rl common r))) as Hc'
    by (apply Cn; eapply can_add_le; [|exact Hc]; lia).
  assert (forall op a, some_right (cast_rl common r) op a <-> some_right r op a) as Sr
    by (intros o a; unfold some_right; by setoid_rewrite Er).
  pose proof (rl_type_wf t l (wf_rl_ranges _ _ Hl) Nl) as Et.
  pose proof (cast_rl_same t Ht l (wf_rl_ranges _ _ Hl)) as Es.
  destruct (decide (op = SPECIAL_EQUAL)) as [->|Hne].
  { destruct (rl_intersection_wf common Tc (cast_rl common l) (cast_rl common r) Wl Wr)
      as (ret & E & W & L & H); [eapply can_add_le; [|exact Hc']; lia|].
    exists (cast_rl t ret). unfold filter_by_comparison. rewrite E, Et. split; [done|].
    apply cast_back; [|by etransitivity; [exact L|lia]].
    split; [done|]. intros z. rewrite H, Er, some_right_spec by done. done. }
  pose proof (kept_spec common Tc (cast_rl common l) (cast_rl common r) Wl Wr Nr' Hc' op Hop Hne) as K.
  pose proof (kept_length common Tc (cast_rl common l) (cast_rl common r) Wl Wr Nr' Hc' op) as Lk.
  assert (keeps t l (cast_rl t (kept common (cast_rl common l) (cast_rl common r) op)) (some_right r op)) as D.
  { apply cast_back; [|lia]. eapply keeps_iff; [exact K|]. intros z _. apply Sr. }
  assert (kept common (cast_rl common l) (cast_rl common r) op = cast_rl common l ->
    keeps t l (cast_rl t l) (some_right r op)) as I.
  { intros E. rewrite E in K. rewrite Es. apply keeps_id; [done|]. intros z Hz.
    apply Sr. apply El in Hz. by apply K in Hz as [_ ?]. }
  unfold filter_by_comparison. rewrite Et.
  destruct op; try discriminate Hop; try done; cbn [kept] in D, I;
    repeat case_if; eexists; (split; [reflexivity|]); auto.
Qed.
End filter.
End split_facts.
