(* ===== verification/BitInfo.v ===== *)
(** * Bit masks of values: smatch_bits.c

    A [struct bit_info] says which bits of a value are set for sure and which
    may be set.  The functions that read a [struct bit_info] out of the state
    tables take it as an argument here. *)
From S2P Require Import Prelude Types Tokens Sval SvalFacts RangeList RangeFacts RangeCompareFacts.

Record bit_info : Set := BitInfo { set : Z; possible : Z }.

#[export] Instance bit_info_eq_dec : EqDecision bit_info.
Proof. solve_decision. Defined.

Section bits.
Context `{Tgt : Target} `{Fp : FloatOps}.

Definition get_type_possible (type : option symbol) : Z :=
  let type := match type with None => ullong_ctype | Some _ => type end in
  if type_bits type =? 64 then ULLONG_MAX
  else u64 (u64 (Z.shiftl 1 (type_bits type)) - 1).

Definition alloc_unknown_binfo (type : option symbol) : bit_info :=
  BitInfo 0 (get_type_possible type).

Definition rl_to_binfo (rl : range_list) : bit_info :=
  match rl_to_sval rl with
  | Some sval => BitInfo (uvalue sval) (uvalue sval)
  | None => BitInfo 0 (sval_fls_mask (rl_max rl))
  end.

Definition is_unknown_binfo (type : option symbol) (binfo : bit_info) : bool :=
  let type := match type with None => ullong_ctype | Some _ => type end in
  if negb (set binfo =? 0) then false
  else if possible binfo <? Z.shiftr ULLONG_MAX (64 - type_bits type) then false
  else true.

Definition binfo_equiv (one two : bit_info) : bool :=
  (set one =? set two) && (possible one =? possible two).

(** merge_bstates(), on the data of the two states. *)
Definition merge_bstates (one two : bit_info) : bit_info :=
  if binfo_equiv one two then one
  else BitInfo (Z.land (set one) (set two)) (Z.lor (possible one) (possible two)).

Definition combine_bit_info (one two : bit_info) : bit_info :=
  if negb (Z.land (set one) (possible two) =? set one) then BitInfo 0 ULLONG_MAX
  else if negb (Z.land (set two) (possible one) =? set two) then BitInfo 0 ULLONG_MAX
  else BitInfo (Z.lor (set one) (set two)) (Z.land (possible one) (possible two)).

Definition binfo_AND (left right : option bit_info) : bit_info :=
  match left, right with
  | None, None => BitInfo 0 ULLONG_MAX
  | None, Some r => BitInfo 0 (possible r)
  | Some l, None => BitInfo 0 (possible l)
  | Some l, Some r =>
    BitInfo (Z.land (set l) (set r)) (Z.land (possible l) (possible r))
  end.

Definition binfo_OR (left right : option bit_info) : bit_info :=
  match left, right with
  | None, None => BitInfo 0 ULLONG_MAX
  | None, Some r => BitInfo (set r) ULLONG_MAX
  | Some l, None => BitInfo (set l) ULLONG_MAX
  | Some l, Some r =>
    BitInfo (Z.lor (set l) (set r)) (Z.lor (possible l) (possible r))
  end.

(** binfo_LEFTSHIFT(): [type] is get_type(left), [bits] is get_bit_info(left)
    and [right] the value get_implied_value() found for the right side. *)
Definition binfo_LEFTSHIFT (type : option symbol) (bits : option bit_info)
    (right : option sval_t) : option bit_info :=
  match type with
  | None => None
  | Some _ =>
    let bits := default (alloc_unknown_binfo type) bits in
    sval ← right;
    let shl v := u64 (Z.shiftl v (shift_count (uvalue sval))) in
    Some (BitInfo (Z.land (shl (set bits)) (get_type_possible type))
                  (Z.land (shl (possible bits)) (get_type_possible type)))
  end.

(** ** What the masks mean *)

(** The 64 bits [x] are described by [b]: every sure bit is set in [x] and
    every bit of [x] is possible. *)
Definition binfo_has (b : bit_info) (x : Z) : Prop :=
  Z.land (set b) x = set b /\ Z.land x (possible b) = x.

Lemma land_subset a x : Z.land a x = a <-> forall i, 0 <= i -> Z.testbit a i = true -> Z.testbit x i = true.
Proof.
  split.
  - intros E i _ H. rewrite <- E, Z.land_spec in H. by apply andb_true_iff in H as [_ H].
  - intros H. apply Z.bits_inj'. intros i Hi. rewrite Z.land_spec.
    destruct (Z.testbit a i) eqn:E; [by rewrite (H i Hi E)|done].
Qed.

Lemma binfo_has_bits b x : binfo_has b x <->
  forall i, 0 <= i -> (Z.testbit (set b) i = true -> Z.testbit x i = true) /\
                      (Z.testbit x i = true -> Z.testbit (possible b) i = true).
Proof.
  unfold binfo_has. rewrite !land_subset. split; [intros [A B] i Hi; auto|].
  intros H. split; intros i Hi; by apply H.
Qed.

Ltac bits_tac :=
  intros; repeat match goal with H : binfo_has _ _ |- _ => rewrite binfo_has_bits in H end;
  rewrite ?binfo_has_bits; simpl in *;
  let i := fresh "i" in let Hi := fresh "Hi" in intros i Hi;
  repeat match goal with H : forall i, 0 <= i -> _ |- _ => specialize (H i Hi) end;
  rewrite ?Z.land_spec, ?Z.lor_spec, ?Z.bits_0, ?andb_true_iff, ?orb_true_iff in *.

Lemma all_possible x i : is_u64 x -> 0 <= i -> Z.testbit x i = true -> Z.testbit ULLONG_MAX i = true.
Proof.
  intros Hx Hi H. change ULLONG_MAX with (Z.ones 64). apply Z.ones_spec_low. split; [done|].
  destruct (Z.lt_ge_cases i 64) as [?|?]; [done|]. exfalso.
  rewrite <- (u64_small x Hx) in H. unfold u64 in H. change two64 with (2 ^ 64) in H.
  by rewrite Z.mod_pow2_bits_high in H by lia.
Qed.

Lemma unknown_has x : is_u64 x -> binfo_has (BitInfo 0 ULLONG_MAX) x.
Proof. bits_tac. split; [done|]. by apply all_possible. Qed.

Lemma merge_bstates_has one two x :
  binfo_has one x \/ binfo_has two x -> binfo_has (merge_bstates one two) x.
Proof.
  unfold merge_bstates, binfo_equiv. intros H.
  destruct (_ && _) eqn:E; zbool.
  - destruct one, two; simpl in *; subst. tauto.
  - destruct H; bits_tac; intuition.
Qed.

(** Both descriptions hold of [x] exactly if their combination does, unless
    they contradict each other; then they hold of no value. *)
Lemma combine_bit_info_has one two x :
  is_u64 x -> binfo_has one x -> binfo_has two x -> binfo_has (combine_bit_info one two) x.
Proof.
  intros Hx H1 H2. unfold combine_bit_info. repeat case_if; [by apply unknown_has..|].
  bits_tac. intuition.
Qed.

Lemma combine_bit_info_only one two x :
  Z.land (set one) (possible two) = set one -> Z.land (set two) (possible one) = set two ->
  binfo_has (combine_bit_info one two) x -> binfo_has one x /\ binfo_has two x.
Proof.
  intros E1 E2. unfold combine_bit_info. rewrite E1, E2, !Z.eqb_refl. simpl.
  intros H. split; revert H; bits_tac; intuition.
Qed.

Lemma combine_bit_info_impossible one two x :
  binfo_has one x -> binfo_has two x ->
  Z.land (set one) (possible two) = set one /\ Z.land (set two) (possible one) = set two.
Proof.
  intros [A B] [C D]. rewrite !land_subset in *.
  split; intros i Hi H; auto.
Qed.

Definition opt_has (b : option bit_info) (x : Z) : Prop :=
  match b with Some b => binfo_has b x | None => True end.

Lemma binfo_AND_has l r x y :
  is_u64 x -> is_u64 y -> opt_has l x -> opt_has r y -> binfo_has (binfo_AND l r) (Z.land x y).
Proof.
  intros Hx Hy. destruct l, r; simpl; bits_tac; intuition;
    done || by apply (all_possible x).
Qed.

Lemma binfo_OR_has l r x y :
  is_u64 x -> is_u64 y -> opt_has l x -> opt_has r y -> binfo_has (binfo_OR l r) (Z.lor x y).
Proof.
  intros Hx Hy. destruct l, r; simpl; bits_tac; intuition;
    done || (by apply (all_possible x)) || by apply (all_possible y).
Qed.

Lemma fls_mask_covers v z : is_u64 v -> 0 <= z <= v -> Z.land z (fls_mask v) = z.
Proof.
  intros Hv Hz. rewrite fls_mask_spec by done. destruct (Z.eqb_spec v 0) as [->|Hn].
  { assert (z = 0) as -> by lia. done. }
  unfold is_u64 in Hv. pose proof (Z.log2_spec v ltac:(lia)) as L. pose proof (Z.log2_nonneg v).
  replace (2 ^ (Z.log2 v + 1) - 1) with (Z.ones (Z.log2 v + 1))
    by (rewrite Z.ones_equiv; lia).
  rewrite Z.land_ones by lia. apply Z.mod_small. rewrite Z.add_1_r. lia.
Qed.

(** A list of nonnegative numbers is described by its masks. *)
Lemma rl_to_binfo_has t rl z :
  std_type t -> wf_rl t rl -> 0 <= num (rl_min rl) -> rl_has rl z -> binfo_has (rl_to_binfo rl) z.
Proof.
  intros Ht Hrl Hmin Hz.
  assert (rl <> []) as Hne by (intros ->; by apply rl_has_nil in Hz).
  unfold rl_to_binfo. destruct (rl_to_sval rl) as [s|] eqn:E.
  - apply (rl_to_sval_wf t Ht) in E as [Ws H]; [|done]. apply H in Hz as ->.
    assert (rl_has rl (num s)) as Hs by by apply H.
    assert (0 <= num s) by (by etransitivity; [exact Hmin|apply (rl_min_spec t rl Hrl Hne)]).
    rewrite (num_uvalue t s Ht Ws) by done. unfold binfo_has; simpl. by rewrite Z.land_diag.
  - destruct (rl_min_spec t rl Hrl Hne) as (_ & _ & L). destruct (rl_max_spec t rl Hrl Hne) as (W & Hx & U).
    specialize (L z Hz). specialize (U z Hz). unfold binfo_has; simpl. rewrite Z.land_0_l.
    split; [done|]. unfold sval_fls_mask. rewrite (num_uvalue t _ Ht W) by lia.
    apply fls_mask_covers; [|lia]. pose proof (num_bound t _ Ht W). unfold is_u64. lia.
Qed.
Lemma shl_testbit v k i : 0 <= k -> 0 <= i ->
  Z.testbit (u64 (Z.shiftl v k)) i = (i <? 64) && (k <=? i) && Z.testbit v (i - k).
Proof.
  intros Hk Hi. unfold u64. change two64 with (2 ^ 64). destruct (Z.ltb_spec i 64); simpl.
  - rewrite Z.mod_pow2_bits_low, Z.shiftl_spec by lia. destruct (Z.leb_spec k i); simpl; [done|].
    by apply Z.testbit_neg_r; lia.
  - by rewrite Z.mod_pow2_bits_high by lia.
Qed.

(** A left shift moves the masks with the value, and drops the same bits. *)
Lemma binfo_LEFTSHIFT_has type bits sval x b' :
  binfo_has (default (alloc_unknown_binfo type) bits) x ->
  binfo_LEFTSHIFT type bits (Some sval) = Some b' ->
  binfo_has b' (Z.land (u64 (Z.shiftl x (shift_count (uvalue sval)))) (get_type_possible type)).
Proof.
  unfold binfo_LEFTSHIFT. destruct type as [s|]; [|done]. simpl. intros H [= <-].
  assert (0 <= shift_count (uvalue sval)) by (unfold shift_count; apply Z.mod_pos_bound; lia).
  rewrite binfo_has_bits in *. simpl. intros i Hi.
  rewrite !Z.land_spec, !shl_testbit by done. destruct (Z.leb_spec (shift_count (uvalue sval)) i).
  - specialize (H (i - shift_count (uvalue sval)) ltac:(lia)). rewrite !andb_true_iff. intuition.
  - by rewrite !andb_false_r.
Qed.
End bits.
