(* ===== verification/RangeBinop.v ===== *)
(** * Arithmetic on range lists: rl_binop() of smatch_ranges.c

    NULL, the empty list, is the answer "nothing is known".  rl_binop() calls
    itself through mod_rl_helper() (a multiplication) and rl_handle_OR() (an
    addition), and no further: the handlers take the rl_binop() they call as
    an argument and [rl_binop_fuel] ties the knot. *)
From S2P Require Import Prelude Types Tokens Sval RangeList RangeCompare BitInfo.
From Stdlib Require Import Ascii.

Section binop.
Context `{Tgt : Target} `{Fp : FloatOps}.

(** smatch_flow.c, alloc_ptr_constants() *)
Definition valid_ptr_rl : range_list :=
  clone_rl (cast_rl ptr_ctype (alloc_rl valid_ptr_min_sval valid_ptr_max_sval)).

(** ** The negative and the positive part *)

Fixpoint get_neg_loop (rl ret : range_list) : range_list :=
  match rl with
  | [] => ret
  | tmp :: rl' =>
    if sval_is_positive (rmin tmp) then ret
    else if sval_is_positive (rmax tmp)
    then add_range ret (rmin tmp) (set_value (rmax tmp) (-1))
    else get_neg_loop rl' (add_range ret (rmin tmp) (rmax tmp))
  end.

Definition get_neg_rl (rl : range_list) : range_list :=
  match rl with
  | [] => []
  | _ => if sval_is_positive (rl_min rl) then [] else get_neg_loop rl []
  end.

Definition get_pos_step (ret : range_list) (tmp : data_range) : range_list :=
  if sval_is_negative (rmax tmp) then ret
  else if sval_is_positive (rmin tmp) then add_range ret (rmin tmp) (rmax tmp)
  else add_range ret (set_value (rmin tmp) 0) (rmax tmp).

Definition get_pos_rl (rl : range_list) : range_list :=
  match rl with
  | [] => []
  | _ => if sval_is_negative (rl_max rl) then [] else fold_left get_pos_step rl []
  end.

Inductive pos_neg : Set := POS_POS | POS_NEG | NEG_POS | NEG_NEG.

Definition has_negative_information (rl : range_list) : bool :=
  match rl with
  | [] => false
  | drange :: _ =>
    if negb (sval_is_negative (rmin drange)) then false
    else if negb (sval_is_min (rmin drange)) then true
    else if negb (sval_is_negative (rmax drange)) then false
    else if value (rmax drange) =? -1 then false
    else true
  end.

(** [rl_to_sval(rl, &sval) && sval.value == 0] *)
Definition rl_to_zero (rl : range_list) : option sval_t :=
  match rl_to_sval rl with
  | Some sval => if value sval =? 0 then Some sval else None
  | None => None
  end.

Definition zero_rl : range_list := alloc_rl int_zero int_zero.

(** The results for the four combinations of signs, put together. *)
Definition union4 (neg_neg neg_pos pos_neg pos_pos : range_list) : range_list :=
  rl_union (rl_union (rl_union neg_neg neg_pos) pos_neg) pos_pos.

(** ** Modulo *)

Section mod_rl.
Variable rl_binop : range_list -> op_tok -> range_list -> range_list.

(** [self] is the recursive call mod_rl_helper(POS_POS, ...), which the
    POS_POS case does not make. *)
Definition mod_rl_helper_with (self : range_list -> range_list -> range_list)
    (pn : pos_neg) (left right : range_list) : range_list :=
  let zero := Sval (rl_type left) 0 in
  let minus_one := alloc_rl int_minus_one int_minus_one in
  let right := match pn with
    | POS_POS | NEG_POS => rl_filter right zero_rl
    | _ => right
    end in
  match left, right with
  | [], _ => []
  | _, [] => []
  | _, _ =>
    match pn with
    | POS_POS =>
      let max := set_value (rl_max right) (value (rl_max right) - 1) in
      if sval_cmp (rl_max left) max <? 0 then left else alloc_rl zero max
    | POS_NEG =>
      let right := rl_binop right OP_MUL minus_one in
      rl_binop (self left right) OP_MUL minus_one
    | NEG_POS =>
      let left := rl_binop left OP_MUL minus_one in
      rl_binop (self left right) OP_MUL minus_one
    | NEG_NEG =>
      let left := rl_binop left OP_MUL minus_one in
      let right := rl_binop right OP_MUL minus_one in
      self left right
    end
  end.

Definition mod_rl_helper : pos_neg -> range_list -> range_list -> range_list :=
  mod_rl_helper_with (mod_rl_helper_with (fun _ _ => []) POS_POS).

Definition rl_handle_mod (left right : range_list) : range_list :=
  let zero := Sval (rl_type left) 0 in
  match rl_to_zero left with
  | Some left_sval => alloc_rl left_sval left_sval
  | None =>
    if is_whole_rl right then
      let min := if sval_is_negative (rl_min left) then rl_min left else zero in
      alloc_rl min (rl_max left)
    else if sval_is_max (rl_max right) then left
    else
      let no_neg := negb (has_negative_information left) &&
                    negb (has_negative_information right) in
      let left_neg := if no_neg then [] else get_neg_rl left in
      let right_neg := if no_neg then [] else get_neg_rl right in
      let left_pos := get_pos_rl left in
      let right_pos := get_pos_rl right in
      union4 (mod_rl_helper NEG_NEG left_neg right_neg)
             (mod_rl_helper NEG_POS left_neg right_pos)
             (mod_rl_helper POS_NEG left_pos right_neg)
             (mod_rl_helper POS_POS left_pos right_pos)
  end.
End mod_rl.

(** ** Division *)

Definition divide_rl_helper (pn : pos_neg) (left right : range_list) : range_list :=
  let right := match pn with
    | POS_POS | NEG_POS => rl_filter right zero_rl
    | _ => right
    end in
  match left, right with
  | [], _ => []
  | _, [] => []
  | _, _ =>
    let '(low_left, low_right, high_left, high_right) :=
      match pn with
      | POS_POS => (rl_min left, rl_max right, rl_max left, rl_min right)
      | POS_NEG => (rl_max left, rl_max right, rl_min left, rl_min right)
      | NEG_POS => (rl_min left, rl_min right, rl_max left, rl_max right)
      | NEG_NEG => (rl_max left, rl_min right, rl_min left, rl_max right)
      end in
    alloc_rl (sval_binop low_left OP_DIV low_right) (sval_binop high_left OP_DIV high_right)
  end.

Definition rl_handle_divide (left right : range_list) : range_list :=
  match rl_to_zero left with
  | Some left_sval => alloc_rl left_sval left_sval
  | None =>
    if is_whole_rl left then []
    else if is_whole_rl right then left
    else
      let left_neg := get_neg_rl left in
      let left_pos := get_pos_rl left in
      let right_neg := get_neg_rl right in
      let right_pos := get_pos_rl right in
      union4 (divide_rl_helper NEG_NEG left_neg right_neg)
             (divide_rl_helper NEG_POS left_neg right_pos)
             (divide_rl_helper POS_NEG left_pos right_neg)
             (divide_rl_helper POS_POS left_pos right_pos)
  end.

(** ** Multiplication and addition *)

Definition ptr_add_mult (left : range_list) (op : op_tok) (right : range_list) : range_list :=
  match rl_to_sval left, rl_to_sval right with
  | Some l_sval, Some r_sval =>
    let res := sval_binop l_sval op r_sval in alloc_rl res res
  | _, _ =>
    if negb (value (rl_min left) =? 0) || negb (value (rl_max right) =? 0)
    then cast_rl (rl_type left) (alloc_rl valid_ptr_min_sval valid_ptr_max_sval)
    else alloc_whole_rl (rl_type left)
  end.

Definition mult_rl_helper (pn : pos_neg) (left right : range_list) : range_list :=
  match left, right with
  | [], _ => []
  | _, [] => []
  | _, _ =>
    let '(low_left, low_right, high_left, high_right) :=
      match pn with
      | POS_POS => (rl_min left, rl_min right, rl_max left, rl_max right)
      | POS_NEG => (rl_max left, rl_min right, rl_min left, rl_max right)
      | NEG_POS => (rl_min left, rl_max right, rl_max left, rl_min right)
      | NEG_NEG => (rl_max left, rl_max right, rl_min left, rl_min right)
      end in
    if sval_binop_overflows low_left OP_MUL low_right ||
       sval_binop_overflows high_left OP_MUL high_right
    then alloc_whole_rl (rl_type left)
    else alloc_rl (sval_binop low_left OP_MUL low_right) (sval_binop high_left OP_MUL high_right)
  end.

Definition rl_handle_mult (left right : range_list) : range_list :=
  match rl_to_zero left, rl_to_zero right with
  | Some sval, _ => alloc_rl sval sval
  | None, Some sval => alloc_rl sval sval
  | None, None =>
    if is_whole_rl left || is_whole_rl right then []
    else
      let left_neg := get_neg_rl left in
      let left_pos := get_pos_rl left in
      let right_neg := get_neg_rl right in
      let right_pos := get_pos_rl right in
      union4 (mult_rl_helper NEG_NEG left_neg right_neg)
             (mult_rl_helper NEG_POS left_neg right_pos)
             (mult_rl_helper POS_NEG left_pos right_neg)
             (mult_rl_helper POS_POS left_pos right_pos)
  end.

Definition rl_handle_add (left right : range_list) : range_list :=
  match rl_to_zero left, rl_to_zero right with
  | Some _, _ => right
  | None, Some _ => left
  | None, None =>
    if type_is_ptr (rl_type left) || type_is_ptr (rl_type right)
    then ptr_add_mult left OP_ADD right
    else if sval_binop_overflows (rl_min left) OP_ADD (rl_min right) then []
    else if sval_binop_overflows (rl_max left) OP_ADD (rl_max right) then []
    else alloc_rl (sval_binop (rl_min left) OP_ADD (rl_min right))
                  (sval_binop (rl_max left) OP_ADD (rl_max right))
  end.

(** ** Subtraction *)

Definition get_signed_equivalent (type : option symbol) : option symbol :=
  if type_positive_bits type =? 32 then int_ctype
  else if type_positive_bits type =? 64 then llong_ctype
  else None.

(** [comparison && show_special(comparison)[0] == '>'] *)
Definition is_greater (comparison : op_tok) : bool :=
  negb (op_code comparison =? 0) && show_special_at comparison 0 ">"%char.

Definition sub_rl_helper (left right : range_list) (comparison : op_tok) : range_list :=
  match left, right with
  | [], _ => []
  | _, [] => []
  | _, _ =>
    let low_left := rl_min left in
    let low_right := rl_max right in
    let high_left := rl_max left in
    let high_right := rl_min right in
    let low_right := if is_greater comparison && (sval_cmp low_left low_right <? 0)
                     then low_left else low_right in
    if sval_binop_overflows low_left OP_SUB low_right ||
       sval_binop_overflows high_left OP_SUB high_right
    then alloc_whole_rl (rl_type left)
    else alloc_rl (sval_binop low_left OP_SUB low_right) (sval_binop high_left OP_SUB high_right)
  end.

(** The second half of rl_handle_sub(), after the lists are known to be
    signed or in the right order; [type] is the type of the original list. *)
Definition sub_signed (type : option symbol) (left right : range_list)
    (comparison : op_tok) : range_list :=
  let minus_one := Sval type (-1) in
  let zero := Sval type 0 in
  let left_pos := get_pos_rl left in
  let right_pos := get_pos_rl right in
  let unknown := op_code comparison =? 0 in
  let top rl := match rl with [] => false | _ => sval_is_max (rl_max rl) end in
  if top left_pos && unknown then []
  else if top right_pos && unknown then []
  else
    let no_neg := is_greater comparison && negb (has_negative_information left) &&
                  negb (has_negative_information right) in
    let left_neg := if no_neg then [] else get_neg_rl left in
    let right_neg := if no_neg then [] else get_neg_rl right in
    let ret := union4 (sub_rl_helper left_neg right_neg comparison)
                      (sub_rl_helper left_neg right_pos comparison)
                      (sub_rl_helper left_pos right_neg comparison)
                      (sub_rl_helper left_pos right_pos comparison) in
    let ret := if type_signed (rl_type left) && no_neg
               then rl_filter ret (alloc_rl (sval_type_min type) minus_one) else ret in
    let ret := cast_rl type ret in
    if negb unknown && negb (show_special_at comparison 1 "="%char)
    then rl_filter ret (alloc_rl zero zero) else ret.

Definition rl_handle_sub (left right : range_list) (comparison : op_tok) : range_list :=
  let type := rl_type left in
  match rl_to_zero right with
  | Some _ => left
  | None =>
    if is_whole_rl left || is_whole_rl right then []
    else if type_is_ptr (rl_type left) && bool_decide (rl_to_sval right <> None)
    then valid_ptr_rl
    else if type_unsigned (rl_type left) && (sval_cmp (rl_min left) (rl_max right) <? 0)
    then match get_signed_equivalent type with
         | None => []
         | Some signed_type =>
           sub_signed type (cast_rl (Some signed_type) left) (cast_rl (Some signed_type) right)
             comparison
         end
    else sub_signed type left right comparison
  end.

(** ** Bit operations *)

Definition rl_bits_always_set (rl : range_list) : Z := sval_fls_mask (rl_min rl).
Definition rl_bits_maybe_set (rl : range_list) : Z := sval_fls_mask (rl_max rl).

(** The C library's ffsll(): 1 + the lowest set bit, 0 if there is none. *)
Definition ffsll (v : Z) : Z :=
  match List.find (fun i => Z.testbit v (Z.of_nat i)) (List.seq 0 64) with
  | Some i => Z.of_nat i + 1
  | None => 0
  end.

(** [1 << (low_bit - 1)] is done in [int]; the shift count is the hardware's,
    modulo 32. *)
Definition rl_handle_OR (rl_binop : range_list -> op_tok -> range_list -> range_list)
    (left right : range_list) : range_list :=
  let zero := Sval (rl_type left) 0 in
  if (bool_decide (rl_to_sval left <> None) || bool_decide (rl_to_sval right <> None)) &&
     negb (sval_binop_overflows (rl_max left) OP_ADD (rl_max right))
  then rl_binop left OP_ADD right
  else
    let l_binfo := rl_to_binfo left in
    let r_binfo := rl_to_binfo right in
    let low_bit := Z.max (ffsll (possible l_binfo)) (ffsll (possible r_binfo)) in
    if low_bit =? 0 then []
    else
      let min := Sval (rl_type left) (scast 32 (Z.shiftl 1 ((low_bit - 1) mod 32))) in
      let max := Sval (rl_type left) (s64 (fls_mask (Z.lor (possible l_binfo) (possible r_binfo)))) in
      add_range (alloc_rl min max) zero zero.

Definition rl_handle_XOR (left right : range_list) : range_list :=
  match rl_to_zero left, rl_to_zero right with
  | Some _, _ => right
  | None, Some _ => left
  | None, None =>
    let left_set := rl_bits_always_set left in
    let left_maybe := rl_bits_maybe_set left in
    let right_set := rl_bits_always_set right in
    let right_maybe := rl_bits_maybe_set right in
    let zero := set_value (rl_min left) 0 in
    let max := set_value (rl_min left)
      (fls_mask (Z.lxor (Z.lor left_maybe right_maybe) (Z.land left_set right_set))) in
    cast_rl (rl_type left) (alloc_rl zero max)
  end.

Definition sval_lowest_set_bit (sval : sval_t) : sval_t :=
  match List.find (fun i => Z.testbit (uvalue sval) (Z.of_nat i)) (List.seq 0 64) with
  | Some i => set_value sval (2 ^ Z.of_nat i)
  | None => set_value sval 0
  end.

(** [if (!sval_is_max(max) || fls(max) > fls(bits)) max.value &= bits] *)
Definition mask_max (max bits : sval_t) : sval_t :=
  if negb (sval_is_max max) || (sm_fls64 (uvalue max) >? sm_fls64 (uvalue bits))
  then set_value max (Z.land (uvalue max) (uvalue bits)) else max.

Definition rl_AND_mask (rl : range_list) (mask : Z) : range_list :=
  let zero := Sval (rl_type rl) 0 in
  let min := rl_min rl in
  let max := rl_max rl in
  match rl with
  | [] => []
  | _ =>
    if mask =? 0 then alloc_rl zero zero
    else
      let bits := Sval (rl_type rl) (s64 (Z.land (possible (rl_to_binfo rl)) mask)) in
      let '(min, add_zero) :=
        if negb (Z.land (uvalue min) (uvalue bits) =? uvalue bits) then
          if Z.land (uvalue min) (uvalue bits) =? 0
          then (sval_lowest_set_bit bits, true)
          else (set_value min (Z.land (uvalue min) (uvalue bits)), false)
        else (min, false) in
      let ret := alloc_rl min (mask_max max bits) in
      if add_zero then add_range ret zero zero else ret
  end.

Definition rl_handle_AND (left right : range_list) : range_list :=
  let zero := Sval (rl_type left) 0 in
  match rl_to_sval left, rl_to_sval right with
  | Some left_sval, Some right_sval =>
    let sval := sval_binop left_sval OP_AND right_sval in alloc_rl sval sval
  | Some left_sval, None => rl_AND_mask right (uvalue left_sval)
  | None, Some right_sval => rl_AND_mask left (uvalue right_sval)
  | None, None =>
    let bits := Sval (rl_type left)
      (s64 (Z.land (possible (rl_to_binfo left)) (possible (rl_to_binfo right)))) in
    let min := sval_lowest_set_bit bits in
    let max := sval_min_nonneg (rl_max left) (rl_max right) in
    add_range (alloc_rl min (mask_max max bits)) zero zero
  end.

(** ** Shifts *)

(** One range of rl_handle_lshift(); the state is [ret] and [add_zero]. *)
Definition lshift_step (shift : sval_t) (st : range_list * bool) (tmp : data_range)
    : range_list * bool :=
  let '(ret, add_zero) := st in
  let min := rmin tmp in
  let max := rmax tmp in
  let add_zero := add_zero || (value min =? 0) ||
    (uvalue max >? Z.shiftr (uvalue (sval_type_max (sv_type max))) (shift_count (uvalue shift))) in
  if (value min =? 0) && (value max =? 0) then (ret, add_zero)
  else
    let min := if value min =? 0 then set_value min 1 else min in
    (add_range ret (sval_binop min SPECIAL_LEFTSHIFT shift)
                   (sval_binop max SPECIAL_LEFTSHIFT shift), add_zero).

Definition rl_handle_lshift (left_orig right_orig : range_list) : range_list :=
  let zero := Sval (rl_type left_orig) 0 in
  match rl_to_sval right_orig with
  | None => []
  | Some shift =>
    if sval_is_negative shift then []
    else if value shift =? 0 then left_orig
    else
      let left :=
        if type_positive_bits (rl_type left_orig) <? 32 then cast_rl uint_ctype left_orig
        else if type_positive_bits (rl_type left_orig) =? 63 then cast_rl ullong_ctype left_orig
        else left_orig in
      let '(ret, add_zero) := fold_left (lshift_step shift) left ([], false) in
      let add_zero := add_zero || negb (rl_fits_in_type ret (rl_type left_orig)) in
      let ret := cast_rl (rl_type left_orig) ret in
      if add_zero then add_range ret zero zero else ret
  end.

Definition rl_handle_rshift (left_orig right_orig : range_list) : range_list :=
  match rl_to_sval right_orig with
  | None => []
  | Some shift =>
    if sval_is_negative shift then []
    else if value shift =? 0 then left_orig
    else fold_left (fun ret tmp =>
           add_range ret (sval_binop (rmin tmp) SPECIAL_RIGHTSHIFT shift)
                         (sval_binop (rmax tmp) SPECIAL_RIGHTSHIFT shift)) left_orig []
  end.

(** ** The operator *)

Definition rl_binop_helper_with (rl_binop : range_list -> op_tok -> range_list -> range_list)
    (left : range_list) (op : op_tok) (right : range_list) : range_list :=
  match op with
  | OP_MOD => rl_handle_mod rl_binop left right
  | OP_DIV => rl_handle_divide left right
  | OP_MUL => rl_handle_mult left right
  | OP_ADD => rl_handle_add left right
  | OP_SUB => rl_handle_sub left right UNKNOWN_COMPARISON
  | SPECIAL_RIGHTSHIFT => rl_handle_rshift left right
  | SPECIAL_LEFTSHIFT => rl_handle_lshift left right
  | OP_AND => rl_handle_AND left right
  | OP_XOR => rl_handle_XOR left right
  | OP_OR => rl_handle_OR rl_binop left right
  | _ => []
  end.

(** The nested loops over the ranges of both sides. *)
Definition binop_parts (helper : range_list -> op_tok -> range_list -> range_list)
    (left : range_list) (op : op_tok) (right : range_list) : range_list :=
  fold_left (fun ret drange_left =>
    fold_left (fun ret drange_right =>
      rl_union ret (helper (alloc_rl (rmin drange_left) (rmax drange_left)) op
                           (alloc_rl (rmin drange_right) (rmax drange_right))))
      right ret) left [].

Definition rl_binop_with (helper : range_list -> op_tok -> range_list -> range_list)
    (left : range_list) (op : op_tok) (right : range_list) : range_list :=
  match left, right with
  | [], _ => []
  | _, [] => []
  | _, _ =>
    match rl_to_sval left, rl_to_sval right with
    | Some left_sval, Some right_sval =>
      let val := sval_binop left_sval op right_sval in alloc_rl val val
    | _, _ =>
      let '(lhs, rhs) :=
        match op with
        | SPECIAL_RIGHTSHIFT | SPECIAL_LEFTSHIFT =>
          ((if type_positive_bits (rl_type left) <? 31 then cast_rl int_ctype left else left), right)
        | _ =>
          let cast_type := get_binop_type left right in
          (cast_rl cast_type left, cast_rl cast_type right)
        end in
      if (6 <? length lhs * length rhs)%nat
      then helper lhs op rhs
      else binop_parts helper lhs op rhs
    end
  end.

Fixpoint rl_binop_fuel (fuel : nat) (left : range_list) (op : op_tok)
    (right : range_list) : range_list :=
  match fuel with
  | O => []
  | S f => rl_binop_with (rl_binop_helper_with (rl_binop_fuel f)) left op right
  end.

Definition rl_binop : range_list -> op_tok -> range_list -> range_list := rl_binop_fuel 2.
Definition rl_binop_helper : range_list -> op_tok -> range_list -> range_list :=
  rl_binop_helper_with rl_binop.

End binop.
