(* ===== verification/RangeBinopFacts.v ===== *)
(** * Facts about arithmetic on range lists

    Each handler of rl_binop() on lists of one type: when it answers at all,
    the answer holds the result of the operator for every pair of numbers. *)
From S2P Require Import Prelude Types Tokens Sval SvalFacts RangeList RangeFacts RangeSets RangeCast RangeCompare RangeCompareFacts BitInfo RangeBinop.

Section binop_facts.
Context `{Tgt : Target} `{Fp : FloatOps}.

(** The types arithmetic is done in: integers no promotion changes. *)
Record arith_type (t : option symbol) : Prop := {
  at_std : std_type t;
  at_not_ptr : type_is_ptr t = false;
  at_self : overflow_type t t = t;
  at_whole : whole_type t = t
}.

Section one_type.
Context (t : option symbol) (At : arith_type t).
#[local] Abbreviation Ht := (at_std t At).

Lemma at_can_add n : can_add t n.
Proof. left. apply At. Qed.

Lemma at_bits : 32 <= type_bits t.
Proof. destruct (overflow_type_std t t Ht Ht) as (_ & H & _). by rewrite (at_self t At) in H. Qed.

(** ** Building blocks *)

Lemma alloc_whole_rl_spec :
  wf_rl t (alloc_whole_rl t) /\ (forall z, rl_has (alloc_whole_rl t) z <-> in_type t z).
Proof.
  unfold alloc_whole_rl, alloc_whole_rl_with. rewrite (at_whole t At).
  destruct (add_range_any t [] (sval_type_min t) (sval_type_max t)) as [H1 H2];
    auto using wf_rl_nil, wf_type_min, wf_type_max, at_std, at_not_ptr.
  split; [done|]. intros z. rewrite H2, rl_has_nil. unfold added.
  rewrite num_type_min, num_type_max by apply Ht. unfold in_type.
  pose proof (tmin_in_type t Ht) as [? ?]. intuition lia.
Qed.

Lemma alloc_rl_spec min max :
  wf_sval t min -> wf_sval t max ->
  wf_rl t (alloc_rl min max) /\
  (forall z, rl_has (alloc_rl min max) z <-> added t (num min) (num max) z).
Proof.
  intros Wm Wx. unfold alloc_rl, alloc_rl_with. rewrite (sval_cmp_gtb t) by (done || apply Ht).
  destruct (Z.ltb_spec (num max) (num min)).
  - rewrite (wf_type _ _ Wm). destruct alloc_whole_rl_spec as [H1 H2]. split; [done|].
    intros z. unfold alloc_whole_rl in H2. rewrite H2. unfold added, in_type. intuition lia.
  - destruct (add_range_any t [] min max) as [H1 H2]; auto using wf_rl_nil, at_std, at_not_ptr.
    split; [done|]. intros z. rewrite H2, rl_has_nil. tauto.
Qed.

(** An operation on two values that does not overflow. *)
Lemma overflows_false a b op :
  wf_sval t a -> wf_sval t b -> arith_op op ->
  sval_binop_overflows a op b = false <-> in_type t (arith op (num a) (num b)).
Proof.
  intros Wa Wb Hop. rewrite (sval_binop_overflows_spec t t) by (done || apply Ht).
  rewrite (at_self t At), !wrap_id by (apply Ht || apply Wa || apply Wb). done.
Qed.

Lemma binop_exact a b op :
  wf_sval t a -> wf_sval t b -> arith_op op ->
  wf_sval t (sval_binop a op b) /\
  (in_type t (arith op (num a) (num b)) -> num (sval_binop a op b) = arith op (num a) (num b)).
Proof.
  intros Wa Wb Hop. pose proof (at_not_ptr t At) as Pt.
  destruct (sval_binop_arith t t a b op) as [H1 H2]; auto using at_std.
  rewrite (at_self t At) in *. split; [done|]. intros Hin. rewrite H2. by apply wrap_id, Hin; apply Ht.
Qed.

(** The list between two results, or the whole type on overflow. *)
Lemma corners_spec a b c d op :
  wf_sval t a -> wf_sval t b -> wf_sval t c -> wf_sval t d -> arith_op op ->
  let ret := if sval_binop_overflows a op b || sval_binop_overflows c op d
             then alloc_whole_rl t
             else alloc_rl (sval_binop a op b) (sval_binop c op d) in
  wf_rl t ret /\
  (forall x, arith op (num a) (num b) <= x <= arith op (num c) (num d) -> rl_has ret (wrap t x)).
Proof.
  intros Wa Wb Wc Wd Hop ret. destruct alloc_whole_rl_spec as [A1 A2].
  destruct (binop_exact a b op Wa Wb Hop) as [P1 P2]. destruct (binop_exact c d op Wc Wd Hop) as [Q1 Q2].
  destruct (sval_binop_overflows a op b || sval_binop_overflows c op d) eqn:E; subst ret.
  - split; [done|]. intros x _. apply A2. apply wrap_in_type, Ht.
  - apply orb_false_iff in E as [E1 E2]. rewrite overflows_false in E1, E2 by done.
    destruct (alloc_rl_spec _ _ P1 Q1) as [B1 B2]. split; [done|]. intros x Hx.
    rewrite B2, P2, Q2, wrap_id by (done || apply Ht || (unfold in_type in *; lia)). by left.
Qed.

(** ** The negative and the positive part *)

Lemma wf_set_value a v : wf_sval t a -> in_type t v ->
  wf_sval t (set_value a v) /\ num (set_value a v) = v.
Proof.
  intros Wa Hv. unfold set_value. rewrite (wf_type _ _ Wa).
  split; [by apply (wf_sval_of t v Ht)|by apply (num_sval_of t v Ht)].
Qed.

Lemma add_any rl min max :
  wf_rl t rl -> wf_sval t min -> wf_sval t max -> num min <= num max ->
  wf_rl t (add_range rl min max) /\
  (forall z, rl_has (add_range rl min max) z <-> num min <= z <= num max \/ rl_has rl z).
Proof. intros. apply add_range_wf; auto using at_std. left. apply At. Qed.

Lemma get_neg_loop_spec rl ret lo :
  Forall (wf_range t) rl -> separated lo rl -> wf_rl t ret ->
  wf_rl t (get_neg_loop rl ret) /\
  (forall z, rl_has (get_neg_loop rl ret) z <-> (rl_has rl z /\ z < 0) \/ rl_has ret z).
Proof.
  intros Hf. revert ret lo. induction Hf as [|d rl [W X O] Hf IH]; intros ret lo Hs Hr; simpl.
  { split; [done|]. intros z. rewrite rl_has_nil. tauto. }
  destruct Hs as [S1 S2]. pose proof (fun z => separated_above t _ _ z Hf S2) as Up.
  rewrite !(sval_is_positive_spec t) by (done || apply Ht).
  destruct (Z.leb_spec 0 (num (rmin d))).
  { split; [done|]. intros z. rewrite rl_has_cons. specialize (Up z). unfold in_range. intuition lia. }
  destruct (Z.leb_spec 0 (num (rmax d))).
  - pose proof (wf_num _ _ W) as [? ?]. pose proof (wf_num _ _ X) as [? ?].
    destruct (wf_set_value (rmax d) (-1) X) as [V1 V2]; [unfold in_type; lia|].
    destruct (add_any ret (rmin d) (set_value (rmax d) (-1))) as [A1 A2]; auto; [lia|].
    split; [done|]. intros z. rewrite A2, V2, rl_has_cons. specialize (Up z). unfold in_range. intuition lia.
  - destruct (add_any ret (rmin d) (rmax d)) as [A1 A2]; auto.
    destruct (IH _ _ S2 A1) as [B1 B2]. split; [done|].
    intros z. rewrite B2, A2, rl_has_cons. unfold in_range. intuition lia.
Qed.

Lemma get_neg_rl_spec rl :
  wf_rl t rl -> wf_rl t (get_neg_rl rl) /\
  (forall z, rl_has (get_neg_rl rl) z <-> rl_has rl z /\ z < 0).
Proof.
  intros Hrl. destruct (decide (rl = [])) as [->|Hne].
  { split; [done|]. intros z. simpl. rewrite rl_has_nil. tauto. }
  destruct (rl_min_spec t rl Hrl Hne) as (W & _ & L).
  assert (get_neg_rl rl = if sval_is_positive (rl_min rl) then [] else get_neg_loop rl []) as ->
    by (by destruct rl).
  rewrite (sval_is_positive_spec t) by (done || apply Ht).
  destruct (Z.leb_spec 0 (num (rl_min rl))).
  - split; [apply wf_rl_nil|]. intros z. rewrite rl_has_nil. specialize (L z). intuition lia.
  - destruct (get_neg_loop_spec rl [] (tmin t)) as [A1 A2]; auto using wf_rl_nil; [apply Hrl..|].
    split; [done|]. intros z. rewrite A2, rl_has_nil. tauto.
Qed.

Lemma get_pos_loop_spec rl ret :
  Forall (wf_range t) rl -> wf_rl t ret ->
  wf_rl t (fold_left get_pos_step rl ret) /\
  (forall z, rl_has (fold_left get_pos_step rl ret) z <-> (rl_has rl z /\ 0 <= z) \/ rl_has ret z).
Proof.
  intros Hf. revert ret. induction Hf as [|d rl [W X O] Hf IH]; intros ret Hr; simpl.
  { split; [done|]. intros z. rewrite rl_has_nil. tauto. }
  assert (wf_rl t (get_pos_step ret d) /\
    forall z, rl_has (get_pos_step ret d) z <-> (in_range d z /\ 0 <= z) \/ rl_has ret z) as [A1 A2].
  { unfold get_pos_step. rewrite (sval_is_positive_spec t), (sval_is_negative_spec t) by (done || apply Ht).
    unfold in_range. destruct (Z.ltb_spec (num (rmax d)) 0).
    { split; [done|]. intros z. intuition lia. }
    destruct (Z.leb_spec 0 (num (rmin d))).
    - destruct (add_any ret (rmin d) (rmax d)) as [A1 A2]; auto.
      split; [done|]. intros z. rewrite A2. intuition lia.
    - pose proof (wf_num _ _ W) as [? ?]. pose proof (wf_num _ _ X) as [? ?].
      destruct (wf_set_value (rmin d) 0 W) as [V1 V2]; [unfold in_type; lia|].
      destruct (add_any ret (set_value (rmin d) 0) (rmax d)) as [A1 A2]; auto; [lia|].
      split; [done|]. intros z. rewrite A2, V2. intuition lia. }
  destruct (IH _ A1) as [B1 B2]. split; [done|].
  intros z. rewrite B2, A2, rl_has_cons. tauto.
Qed.

Lemma get_pos_rl_spec rl :
  wf_rl t rl -> wf_rl t (get_pos_rl rl) /\
  (forall z, rl_has (get_pos_rl rl) z <-> rl_has rl z /\ 0 <= z).
Proof.
  intros Hrl. destruct (decide (rl = [])) as [->|Hne].
  { split; [done|]. intros z. simpl. rewrite rl_has_nil. tauto. }
  destruct (rl_max_spec t rl Hrl Hne) as (W & _ & U).
  assert (get_pos_rl rl = if sval_is_negative (rl_max rl) then [] else fold_left get_pos_step rl []) as ->
    by (by destruct rl).
  rewrite (sval_is_negative_spec t) by (done || apply Ht).
  destruct (Z.ltb_spec (num (rl_max rl)) 0).
  - split; [apply wf_rl_nil|]. intros z. rewrite rl_has_nil. specialize (U z). intuition lia.
  - destruct (get_pos_loop_spec rl []) as [A1 A2]; auto using wf_rl_nil; [apply Hrl|].
    split; [done|]. intros z. rewrite A2, rl_has_nil. tauto.
Qed.

(** One part of a result: it holds [f a b] for the numbers of both sides for
    which the operator is defined.  It is empty when a side is. *)
Definition part_of (ok : Z -> Prop) (ret l r : range_list) (f : Z -> Z -> Z) : Prop :=
  wf_rl t ret /\ forall a b, rl_has l a -> rl_has r b -> ok b -> rl_has ret (f a b).

Abbreviation part := (part_of (fun _ => True)).

(** A handler's answer: unknown, or a list in normal form that holds [f a b]
    for the numbers of both sides. *)
Definition answers (ret l r : range_list) (f : Z -> Z -> Z) : Prop :=
  ret = [] \/ part ret l r f.

Lemma rl_to_zero_spec rl s :
  wf_rl t rl -> rl_to_zero rl = Some s -> wf_sval t s /\ num s = 0 /\ (forall z, rl_has rl z <-> z = 0).
Proof.
  intros Hrl. unfold rl_to_zero. destruct (rl_to_sval rl) as [s'|] eqn:E; [|done].
  destruct (Z.eqb_spec (value s') 0) as [E0|]; [|done]. intros [= ->].
  apply (rl_to_sval_wf t Ht) in E as [W H]; [|done].
  assert (num s = 0) as N by (unfold num, uvalue; rewrite E0; by destruct (type_unsigned _)).
  by rewrite N in H.
Qed.

Lemma rl_union_spec a b :
  wf_rl t a -> wf_rl t b ->
  wf_rl t (rl_union a b) /\ (forall z, rl_has (rl_union a b) z <-> rl_has a z \/ rl_has b z).
Proof. intros [A _] [B _]. apply rl_union_wf; auto using at_std, at_can_add. Qed.

Lemma part_nil_l ok r f : part_of ok [] [] r f.
Proof. split; [apply wf_rl_nil|]. intros a b H _ _. by apply rl_has_nil in H. Qed.
Lemma part_nil_r ok l f : part_of ok [] l [] f.
Proof. split; [apply wf_rl_nil|]. intros a b _ H _. by apply rl_has_nil in H. Qed.

(** The four parts make up the whole. *)
Lemma union4_part ok l r f nn np pn pp :
  wf_rl t l -> wf_rl t r ->
  part_of ok nn (get_neg_rl l) (get_neg_rl r) f -> part_of ok np (get_neg_rl l) (get_pos_rl r) f ->
  part_of ok pn (get_pos_rl l) (get_neg_rl r) f -> part_of ok pp (get_pos_rl l) (get_pos_rl r) f ->
  part_of ok (union4 nn np pn pp) l r f.
Proof.
  intros Hl Hr [A1 A2] [B1 B2] [C1 C2] [D1 D2]. unfold union4.
  destruct (rl_union_spec nn np) as [U1 E1]; auto.
  destruct (rl_union_spec (rl_union nn np) pn) as [U2 E2]; auto.
  destruct (rl_union_spec (rl_union (rl_union nn np) pn) pp) as [U3 E3]; auto.
  split; [done|]. intros a b Ha Hb Hok. rewrite E3, E2, E1.
  destruct (get_neg_rl_spec l Hl) as [_ Nl], (get_neg_rl_spec r Hr) as [_ Nr].
  destruct (get_pos_rl_spec l Hl) as [_ Pl], (get_pos_rl_spec r Hr) as [_ Pr].
  destruct (Z.lt_ge_cases a 0), (Z.lt_ge_cases b 0).
  - left; left; left. apply A2; [by apply Nl|by apply Nr|done].
  - left; left; right. apply B2; [by apply Nl|by apply Pr|done].
  - left; right. apply C2; [by apply Pl|by apply Nr|done].
  - right. apply D2; [by apply Pl|by apply Pr|done].
Qed.

(** ** Multiplication *)

(** The signs of the two sides of a helper. *)
Definition signs (pn : pos_neg) (l r : range_list) : Prop :=
  (forall a, rl_has l a -> match pn with POS_POS | POS_NEG => 0 <= a | _ => a < 0 end) /\
  (forall b, rl_has r b -> match pn with POS_POS | NEG_POS => 0 <= b | _ => b < 0 end).

Lemma signs_parts l r :
  wf_rl t l -> wf_rl t r ->
  signs NEG_NEG (get_neg_rl l) (get_neg_rl r) /\ signs NEG_POS (get_neg_rl l) (get_pos_rl r) /\
  signs POS_NEG (get_pos_rl l) (get_neg_rl r) /\ signs POS_POS (get_pos_rl l) (get_pos_rl r).
Proof.
  intros Hl Hr. unfold signs.
  destruct (get_neg_rl_spec l Hl) as [_ Nl], (get_neg_rl_spec r Hr) as [_ Nr].
  destruct (get_pos_rl_spec l Hl) as [_ Pl], (get_pos_rl_spec r Hr) as [_ Pr].
  repeat split; intros z Hz; first [apply Nl in Hz|apply Nr in Hz|apply Pl in Hz|apply Pr in Hz]; tauto.
Qed.

(** The ends of a list bound its numbers. *)
Lemma ends l : wf_rl t l -> l <> [] ->
  wf_sval t (rl_min l) /\ wf_sval t (rl_max l) /\
  rl_has l (num (rl_min l)) /\ rl_has l (num (rl_max l)) /\
  (forall a, rl_has l a -> num (rl_min l) <= a <= num (rl_max l)).
Proof.
  intros Hl Hne. destruct (rl_min_spec t l Hl Hne) as (A & B & C).
  destruct (rl_max_spec t l Hl Hne) as (D & E & F).
  split; [done|]. split; [done|]. split; [done|]. split; [done|]. intros a Ha. auto.
Qed.

Lemma mult_rl_helper_part pn l r :
  wf_rl t l -> wf_rl t r -> signs pn l r ->
  part (mult_rl_helper pn l r) l r (fun a b => wrap t (a * b)).
Proof.
  intros Hl Hr [Sl Sr]. destruct (decide (l = [])) as [->|Nl]; [apply part_nil_l|].
  destruct (decide (r = [])) as [->|Nr]; [destruct l; apply part_nil_r|].
  destruct (ends l Hl Nl) as (A1 & A2 & A3 & A4 & A5).
  destruct (ends r Hr Nr) as (B1 & B2 & B3 & B4 & B5).
  apply Sl in A3, A4. apply Sr in B3, B4.
  pose proof (rl_type_wf t l (wf_rl_ranges _ _ Hl) Nl) as Et.
  unfold mult_rl_helper. destruct l as [|d l'] eqn:El; [done|]. rewrite <- El in *.
  destruct r as [|e r'] eqn:Er; [done|]. rewrite <- Er in *. rewrite Et.
  destruct pn.
  all: match goal with
    | |- part (if sval_binop_overflows ?a _ ?b || sval_binop_overflows ?c _ ?d then _ else _) _ _ _ =>
      destruct (corners_spec a b c d OP_MUL) as [P1 P2]; auto; [by right; right|]
    end; (split; [done|]); intros a b Ha Hb _; apply P2; simpl;
    specialize (A5 a Ha); specialize (B5 b Hb); specialize (Sl a Ha); specialize (Sr b Hb); simpl in *; nia.
Qed.

Lemma rl_handle_mult_answers l r :
  wf_rl t l -> wf_rl t r -> answers (rl_handle_mult l r) l r (fun a b => wrap t (a * b)).
Proof.
  intros Hl Hr. unfold rl_handle_mult, answers.
  assert (forall s, wf_sval t s -> num s = 0 ->
    wf_rl t (alloc_rl s s) /\ rl_has (alloc_rl s s) (wrap t 0)) as Z0.
  { intros s Ws Es. destruct (alloc_rl_spec s s Ws Ws) as [A B]. split; [done|].
    rewrite wrap_id by (apply Ht || apply zero_in_type, Ht). apply B. left. lia. }
  destruct (rl_to_zero l) as [s|] eqn:El.
  { right. apply rl_to_zero_spec in El as (Ws & Es & H); [|done]. destruct (Z0 s Ws Es) as [A B].
    split; [done|]. intros a b Ha _ _. by apply H in Ha as ->. }
  destruct (rl_to_zero r) as [s|] eqn:Er.
  { right. apply rl_to_zero_spec in Er as (Ws & Es & H); [|done]. destruct (Z0 s Ws Es) as [A B].
    split; [done|]. intros a b _ Hb _. apply H in Hb as ->. by rewrite Z.mul_0_r. }
  destruct (_ || _); [by left|]. right.
  destruct (signs_parts l r Hl Hr) as (S1 & S2 & S3 & S4).
  pose proof (proj1 (get_neg_rl_spec l Hl)). pose proof (proj1 (get_neg_rl_spec r Hr)).
  pose proof (proj1 (get_pos_rl_spec l Hl)). pose proof (proj1 (get_pos_rl_spec r Hr)).
  apply union4_part; auto; by apply mult_rl_helper_part.
Qed.

(** ** Addition *)

Lemma rl_handle_add_answers l r :
  wf_rl t l -> wf_rl t r -> l <> [] -> r <> [] ->
  answers (rl_handle_add l r) l r (fun a b => a + b).
Proof.
  intros Hl Hr Nl Nr. unfold rl_handle_add, answers.
  destruct (rl_to_zero l) as [s|] eqn:El.
  { right. apply rl_to_zero_spec in El as (_ & _ & H); [|done]. split; [done|].
    intros a b Ha Hb _. by apply H in Ha as ->. }
  destruct (rl_to_zero r) as [s|] eqn:Er.
  { right. apply rl_to_zero_spec in Er as (_ & _ & H); [|done]. split; [done|].
    intros a b Ha Hb _. apply H in Hb as ->. by rewrite Z.add_0_r. }
  rewrite (rl_type_wf t l (wf_rl_ranges _ _ Hl) Nl), (rl_type_wf t r (wf_rl_ranges _ _ Hr) Nr).
  rewrite (at_not_ptr t At). cbn [orb].
  destruct (ends l Hl Nl) as (A1 & A2 & _ & _ & A5). destruct (ends r Hr Nr) as (B1 & B2 & _ & _ & B5).
  destruct (sval_binop_overflows (rl_min l) OP_ADD (rl_min r)) eqn:E1; [by left|].
  destruct (sval_binop_overflows (rl_max l) OP_ADD (rl_max r)) eqn:E2; [by left|]. right.
  destruct (corners_spec (rl_min l) (rl_min r) (rl_max l) (rl_max r) OP_ADD) as [P1 P2]; auto; [by left|].
  rewrite E1, E2 in P1, P2. cbn [orb arith] in P1, P2. split; [done|]. intros a b Ha Hb _.
  rewrite overflows_false in E1, E2 by (done || by left). cbn [arith] in E1, E2.
  specialize (A5 a Ha). specialize (B5 b Hb). unfold in_type in *.
  rewrite <- (wrap_id t (a + b)); [apply P2; lia|apply Ht|unfold in_type; lia].
Qed.

(** ** Subtraction *)

Lemma sub_rl_helper_part l r :
  wf_rl t l -> wf_rl t r ->
  part (sub_rl_helper l r UNKNOWN_COMPARISON) l r (fun a b => wrap t (a - b)).
Proof.
  intros Hl Hr. destruct (decide (l = [])) as [->|Nl]; [apply part_nil_l|].
  destruct (decide (r = [])) as [->|Nr]; [destruct l; apply part_nil_r|].
  destruct (ends l Hl Nl) as (A1 & A2 & _ & _ & A5). destruct (ends r Hr Nr) as (B1 & B2 & _ & _ & B5).
  pose proof (rl_type_wf t l (wf_rl_ranges _ _ Hl) Nl) as Et.
  destruct (corners_spec (rl_min l) (rl_max r) (rl_max l) (rl_min r) OP_SUB) as [P1 P2]; auto;
    [by right; left|].
  unfold sub_rl_helper. destruct l as [|d l'] eqn:El; [done|]. rewrite <- El in *.
  destruct r as [|e r'] eqn:Er; [done|]. rewrite <- Er in *. rewrite Et.
  change (is_greater UNKNOWN_COMPARISON) with false. cbn [andb].
  split; [done|]. intros a b Ha Hb _. apply P2. cbn [arith].
  specialize (A5 a Ha). specialize (B5 b Hb). lia.
Qed.

Lemma sub_signed_spec type l r :
  wf_rl t l -> wf_rl t r ->
  sub_signed type l r UNKNOWN_COMPARISON = [] \/
  exists u, sub_signed type l r UNKNOWN_COMPARISON = cast_rl type u /\
            part u l r (fun a b => wrap t (a - b)).
Proof.
  intros Hl Hr. unfold sub_signed. change (op_code UNKNOWN_COMPARISON =? 0) with true.
  change (is_greater UNKNOWN_COMPARISON) with false. rewrite !andb_true_r, !andb_false_l, andb_false_r.
  cbn [negb andb].
  repeat (match goal with |- (if ?b then _ else _) = _ \/ _ => destruct b; [by left|] end).
  right. eexists; split; [reflexivity|].
  pose proof (proj1 (get_neg_rl_spec l Hl)). pose proof (proj1 (get_neg_rl_spec r Hr)).
  pose proof (proj1 (get_pos_rl_spec l Hl)). pose proof (proj1 (get_pos_rl_spec r Hr)).
  apply union4_part; auto; by apply sub_rl_helper_part.
Qed.
End one_type.

Lemma llong_ctype_std : std_type llong_ctype.
Proof. split; [reflexivity..|]. left. right; right; right. reflexivity. Qed.

Lemma arith_type_int : arith_type int_ctype.
Proof. split; [apply int_ctype_std|reflexivity..]. Qed.

Lemma arith_type_llong : arith_type llong_ctype.
Proof. split; [apply llong_ctype_std|reflexivity..]. Qed.

(** Subtraction modulo the width does not care about the sign. *)
Lemma wrap_sub_wrap t s a b :
  std_type t -> std_type s -> type_bits s = type_bits t -> type_bits t <> 1 ->
  wrap t (wrap s (wrap s a - wrap s b)) = wrap t (a - b).
Proof.
  intros Tt Ts E Hb. unfold wrap. rewrite E, (proj2 (Z.eqb_neq _ _) Hb).
  std_cases Tt; try done; destruct (type_unsigned s); rewrite Hu, Hw; wrap_lia.
Qed.

Lemma get_signed_equivalent_spec t :
  arith_type t -> type_unsigned t = true ->
  exists s, get_signed_equivalent t = s /\ arith_type s /\ s <> None /\ s <> t /\ type_bits s = type_bits t.
Proof.
  intros At Hu. pose proof (at_bits t At) as B. pose proof (at_std t At) as Ht.
  unfold get_signed_equivalent. rewrite (type_positive_bits_std t Ht), Hu.
  destruct (std_bits_cases t Ht) as [[_ W]|W]; [lia|]. unfold std_width in W.
  destruct (Z.eqb_spec (type_bits t) 32) as [E|E].
  - exists int_ctype. split; [done|]. split; [apply arith_type_int|]. split; [done|].
    split; [by intros <-|by rewrite E].
  - destruct (Z.eqb_spec (type_bits t) 64) as [E'|E']; [|lia].
    exists llong_ctype. split; [done|]. split; [apply arith_type_llong|]. split; [done|].
    split; [by intros <-|by rewrite E'].
Qed.

Lemma rl_handle_sub_answers t l r :
  arith_type t -> wf_rl t l -> wf_rl t r -> l <> [] -> r <> [] ->
  answers t (rl_handle_sub l r UNKNOWN_COMPARISON) l r (fun a b => wrap t (a - b)).
Proof.
  intros At Hl Hr Nl Nr. pose proof (at_std t At) as Ht. pose proof (at_not_ptr t At) as Pt.
  pose proof (at_bits t At) as Bt. unfold rl_handle_sub, answers.
  assert (forall z, rl_has l z -> in_type t z) as Il by (intros z; apply rl_has_in_type, Hl).
  destruct (rl_to_zero r) as [s|] eqn:Er.
  { right. apply (rl_to_zero_spec t At) in Er as (_ & _ & H); [|done]. split; [done|].
    intros a b Ha Hb _. apply H in Hb as ->. rewrite Z.sub_0_r, wrap_id; auto. }
  destruct (is_whole_rl l || is_whole_rl r); [by left|].
  rewrite (rl_type_wf t l (wf_rl_ranges _ _ Hl) Nl), Pt. cbn [andb].
  destruct (type_unsigned t && (sval_cmp (rl_min l) (rl_max r) <? 0)) eqn:E.
  - apply andb_true_iff in E as [Hu _].
    destruct (get_signed_equivalent_spec t At Hu) as (s & -> & As & Ns & Nst & Bs).
    destruct s as [s|]; [|done]. pose proof (at_std _ As) as Ts. pose proof (at_not_ptr _ As) as Ps.
    assert (safe_cast t (Some s)) by (right; by left).
    destruct (cast_rl_converts t (Some s) l) as [L1 L2]; auto; [lia|].
    destruct (cast_rl_converts t (Some s) r) as [R1 R2]; auto; [lia|].
    destruct (sub_signed_spec (Some s) As t (cast_rl (Some s) l) (cast_rl (Some s) r) L1 R1)
      as [->|(u & -> & U1 & U2)]; [by left|right].
    destruct (rl_min_spec t l Hl Nl) as (_ & Ml & _). destruct (rl_min_spec t r Hr Nr) as (_ & Mr & _).
    assert (u <> []) as Nu.
    { intros ->. by apply (proj1 (rl_has_nil _) (U2 _ _ (L2 _ Ml) (R2 _ Mr) I)). }
    destruct (cast_rl_converts (Some s) t u) as [C1 C2]; auto; [lia|by left|].
    split; [done|]. intros a b Ha Hb _.
    rewrite <- (wrap_sub_wrap t (Some s)) by (done || lia). apply C2, U2; auto.
  - destruct (sub_signed_spec t At t l r Hl Hr) as [->|(u & -> & U1 & U2)]; [by left|right].
    rewrite cast_rl_same by (done || apply U1). by split.
Qed.
End binop_facts.

(** ** rl_binop()

    The recursion of rl_binop() is two calls deep, and for addition,
    subtraction and multiplication the list it returns holds the results for
    every pair of numbers, as long as no pair of ranges is unknown. *)

Section top.
Context `{Tgt : Target} `{Fp : FloatOps}.

(** ** The depth of the recursion *)

Lemma binop_parts_ext h h' op l r :
  (forall x y, h x op y = h' x op y) -> binop_parts h l op r = binop_parts h' l op r.
Proof.
  intros H. unfold binop_parts. generalize (@nil data_range). induction l as [|d l IH]; intros acc; simpl; [done|].
  rewrite IH. f_equal. clear IH. revert acc. induction r as [|e r IHr]; intros acc; simpl; [done|].
  by rewrite H, IHr.
Qed.

Lemma rl_binop_with_ext h h' op l r :
  (forall x y, h x op y = h' x op y) -> rl_binop_with h l op r = rl_binop_with h' l op r.
Proof.
  intros H. unfold rl_binop_with. destruct l as [|d l], r as [|e r]; try done.
  destruct (rl_to_sval (d :: l)), (rl_to_sval (e :: r)); try done;
    destruct (match op with SPECIAL_RIGHTSHIFT | SPECIAL_LEFTSHIFT => _ | _ => _ end) as [lhs rhs];
    rewrite H, (binop_parts_ext h h') by done; done.
Qed.

(** The handlers use rl_binop() for one operator only. *)
Lemma mod_rl_helper_ext b b' pn l r :
  (forall x y, b x OP_MUL y = b' x OP_MUL y) -> mod_rl_helper b pn l r = mod_rl_helper b' pn l r.
Proof.
  intros H. unfold mod_rl_helper.
  assert (forall x y, mod_rl_helper_with b (fun _ _ => []) POS_POS x y =
                      mod_rl_helper_with b' (fun _ _ => []) POS_POS x y) as E by done.
  unfold mod_rl_helper_with at 1 3.
  destruct l; [done|]. destruct pn; cbv zeta; rewrite ?H, ?E; try done;
  destruct (rl_filter r zero_rl) || destruct r; try done; by rewrite ?H, ?E.
Qed.

Lemma rl_binop_helper_ext b b' op l r :
  (forall x y, b x OP_MUL y = b' x OP_MUL y) -> (forall x y, b x OP_ADD y = b' x OP_ADD y) ->
  rl_binop_helper_with b l op r = rl_binop_helper_with b' l op r.
Proof.
  intros Hm Ha. destruct op; try done; cbn [rl_binop_helper_with].
  - unfold rl_handle_mod. by rewrite !(mod_rl_helper_ext b b') by done.
  - unfold rl_handle_OR. by rewrite Ha.
Qed.

Lemma rl_binop_one op f l r :
  op = OP_MUL \/ op = OP_ADD -> rl_binop_fuel (S f) l op r = rl_binop_fuel 1 l op r.
Proof. intros Hop. apply rl_binop_with_ext. intros x y. by destruct Hop as [->| ->]. Qed.

Lemma rl_binop_fuel_enough f op l r :
  rl_binop_fuel (S (S f)) l op r = rl_binop l op r.
Proof.
  apply rl_binop_with_ext. intros x y. apply rl_binop_helper_ext; intros; apply rl_binop_one; auto.
Qed.

(** ** Pieces *)

Section one_type.
Context (t : option symbol) (At : arith_type t).
#[local] Abbreviation Ht := (at_std t At).

Abbreviation piece d := (alloc_rl (rmin d) (rmax d)).

Lemma piece_spec d : wf_range t d ->
  wf_rl t (piece d) /\ (forall z, rl_has (piece d) z <-> in_range d z) /\ piece d <> [].
Proof.
  intros [W X O]. destruct (alloc_rl_spec t At (rmin d) (rmax d) W X) as [A B].
  assert (forall z, rl_has (piece d) z <-> in_range d z) as H.
  { intros z. rewrite B. unfold added, in_range. intuition lia. }
  split; [done|]. split; [done|]. intros E. rewrite E in H.
  apply (proj1 (rl_has_nil (num (rmin d)))), H. unfold in_range. lia.
Qed.

(** A loop of unions holds what each of the united lists holds. *)
Lemma union_fold {A} (g : A -> range_list) (xs : list A) acc :
  wf_rl t acc -> (forall x, In x xs -> wf_rl t (g x)) ->
  wf_rl t (fold_left (fun ret x => rl_union ret (g x)) xs acc) /\
  (forall z, rl_has (fold_left (fun ret x => rl_union ret (g x)) xs acc) z <->
    rl_has acc z \/ exists x, In x xs /\ rl_has (g x) z).
Proof.
  revert acc. induction xs as [|x xs IH]; intros acc Ha Hx; simpl.
  { split; [done|]. intros z. split; [auto|]. intros [?|(? & [] & _)]; done. }
  destruct (rl_union_spec t At acc (g x) Ha (Hx x (or_introl eq_refl))) as [U1 U2].
  destruct (IH (rl_union acc (g x)) U1) as [I1 I2]; [intros y Hy; apply Hx; by right|].
  split; [done|]. intros z. rewrite I2, U2. split.
  - intros [[?|?]|(y & ? & ?)]; eauto.
  - intros [?|(y & [->|?] & ?)]; eauto.
Qed.

Lemma binop_parts_flat (h : range_list -> op_tok -> range_list -> range_list) op l r acc :
  fold_left (fun ret dl => fold_left (fun ret dr => rl_union ret (h (piece dl) op (piece dr))) r ret) l acc =
  fold_left (fun ret p => rl_union ret (h (piece (fst p)) op (piece (snd p)))) (list_prod l r) acc.
Proof.
  revert acc. induction l as [|d l IH]; intros acc; simpl; [done|].
  rewrite fold_left_app, <- IH. f_equal. clear IH. revert acc.
  induction r as [|e r IHr]; intros acc; simpl; [done|]. apply IHr.
Qed.

Lemma binop_parts_part ok (h : range_list -> op_tok -> range_list -> range_list) op l r f :
  Forall (wf_range t) l -> Forall (wf_range t) r ->
  (forall d e, In d l -> In e r -> part_of t ok (h (piece d) op (piece e)) (piece d) (piece e) f) ->
  part_of t ok (binop_parts h l op r) l r f.
Proof.
  intros Hl Hr H. unfold binop_parts. rewrite binop_parts_flat.
  destruct (union_fold (fun p => h (piece (fst p)) op (piece (snd p))) (list_prod l r) [] (wf_rl_nil t)) as [A B].
  { intros [d e] Hp. apply in_prod_iff in Hp as [? ?]. by apply H. }
  split; [done|]. intros a b Ha Hb Hok. apply B. right.
  unfold rl_has in Ha, Hb. rewrite List.Exists_exists in Ha, Hb.
  destruct Ha as (d & Id & Ha), Hb as (e & Ie & Hb).
  rewrite List.Forall_forall in Hl, Hr.
  exists (d, e). split; [by apply in_prod|]. apply H; auto.
  - by apply (piece_spec d (Hl d Id)).
  - by apply (piece_spec e (Hr e Ie)).
Qed.

(** ** Addition, subtraction and multiplication *)

Lemma get_binop_type_same l r :
  wf_rl t l -> wf_rl t r -> l <> [] -> r <> [] -> get_binop_type l r = t.
Proof.
  intros Hl Hr Nl Nr. change (overflow_type (rl_type l) (rl_type r) = t).
  rewrite (rl_type_wf t l (wf_rl_ranges _ _ Hl) Nl), (rl_type_wf t r (wf_rl_ranges _ _ Hr) Nr). apply At.
Qed.

(** What is proved of the handlers, for the three operators. *)
Lemma helper_answers b op l r :
  arith_op op -> wf_rl t l -> wf_rl t r -> l <> [] -> r <> [] ->
  answers t (rl_binop_helper_with b l op r) l r (fun x y => wrap t (arith op x y)).
Proof.
  intros [->|[->| ->]] Hl Hr Nl Nr; cbn [rl_binop_helper_with arith].
  - destruct (rl_handle_add_answers t At l r Hl Hr Nl Nr) as [E|[W H]]; [by left|right].
    split; [done|]. intros x y Hx Hy Hok. specialize (H x y Hx Hy Hok).
    rewrite wrap_id; [done|apply Ht|]. eapply rl_has_in_type; [apply W|done].
  - by apply (rl_handle_sub_answers t l r At).
  - by apply (rl_handle_mult_answers t At).
Qed.

(** No pair of ranges is unknown. *)
Definition all_known (l : range_list) (op : op_tok) (r : range_list) : Prop :=
  forall d e, In d l -> In e r -> rl_binop_helper (piece d) op (piece e) <> [].

Lemma rl_binop_answers op l r :
  arith_op op -> wf_rl t l -> wf_rl t r -> l <> [] -> r <> [] -> all_known l op r ->
  answers t (rl_binop l op r) l r (fun x y => wrap t (arith op x y)).
Proof.
  intros Hop Hl Hr Nl Nr Hk. unfold rl_binop. cbn [rl_binop_fuel].
  set (h := rl_binop_helper_with _).
  assert (rl_binop_with h l op r =
    match rl_to_sval l, rl_to_sval r with
    | Some x, Some y => alloc_rl (sval_binop x op y) (sval_binop x op y)
    | _, _ => if (6 <? length l * length r)%nat then h l op r else binop_parts h l op r
    end) as ->.
  { unfold rl_binop_with. rewrite (get_binop_type_same l r) by done.
    rewrite (cast_rl_same t Ht l (wf_rl_ranges _ _ Hl)), (cast_rl_same t Ht r (wf_rl_ranges _ _ Hr)).
    destruct l, r; try done. by destruct Hop as [->|[->| ->]]. }
  assert (forall x y, h x op y = rl_binop_helper x op y) as Hh
    by (intros x y; by destruct Hop as [->|[->| ->]]).
  assert (answers t (if (6 <? length l * length r)%nat then h l op r else binop_parts h l op r) l r
            (fun x y => wrap t (arith op x y))) as K.
  { destruct (6 <? _)%nat; [by apply helper_answers|]. right.
    apply binop_parts_part; [apply Hl|apply Hr|]. intros d e Id Ie.
    pose proof (proj1 (List.Forall_forall _ _) (wf_rl_ranges _ _ Hl) d Id) as Wd.
    pose proof (proj1 (List.Forall_forall _ _) (wf_rl_ranges _ _ Hr) e Ie) as We.
    destruct (piece_spec d Wd) as (P1 & _ & P3), (piece_spec e We) as (Q1 & _ & Q3).
    rewrite Hh. destruct (helper_answers rl_binop op (piece d) (piece e)) as [E|?]; auto.
    by destruct (Hk d e Id Ie). }
  destruct (rl_to_sval l) as [x|] eqn:El; [|done]. destruct (rl_to_sval r) as [y|] eqn:Er; [|done].
  apply (rl_to_sval_wf t Ht) in El as [Wx Hx]; [|done]. apply (rl_to_sval_wf t Ht) in Er as [Wy Hy]; [|done].
  pose proof (at_not_ptr t At) as Pt.
  destruct (sval_binop_arith t t x y op) as [A B]; auto using at_std. rewrite (at_self t At) in A, B.
  destruct (alloc_rl_spec t At _ _ A A) as [C D]. right. split; [done|].
  intros a b Ha Hb _. apply Hx in Ha as ->. apply Hy in Hb as ->. apply D. left. rewrite B. lia.
Qed.
End one_type.
End top.

(** ** Division, remainder and shifts of range lists

    rl_handle_divide() and rl_handle_rshift(), and that the recursion of
    rl_binop() is two calls deep. *)

(** ** Quotients of intervals *)

Lemma quot_mono a1 a a2 b1 b b2 :
  0 <= a1 <= a -> a <= a2 -> 0 < b1 <= b -> b <= b2 ->
  Z.quot a1 b2 <= Z.quot a b <= Z.quot a2 b1.
Proof.
  intros. rewrite !Z.quot_div_nonneg by lia. split.
  - transitivity (a1 / b); [apply Z.div_le_compat_l; lia|apply Z.div_le_mono; lia].
  - transitivity (a2 / b); [apply Z.div_le_mono; lia|apply Z.div_le_compat_l; lia].
Qed.

Lemma quot_opp a b : b <> 0 -> Z.quot (- a) b = - Z.quot a b /\ Z.quot a (- b) = - Z.quot a b.
Proof. intros Hb. by rewrite Z.quot_opp_l, Z.quot_opp_r. Qed.

(** A quotient with the signs of both sides pulled out. *)
Lemma quot_abs a b : b <> 0 -> Z.quot a b = Z.sgn a * Z.sgn b * Z.quot (Z.abs a) (Z.abs b).
Proof.
  intros Hb. destruct (Z.lt_trichotomy a 0) as [Ha|[->|Ha]]; [| |].
  - destruct (Z.lt_ge_cases b 0).
    + rewrite !Z.abs_neq, !Z.sgn_neg, Z.quot_opp_opp by lia. lia.
    + rewrite Z.abs_neq, (Z.abs_eq b), Z.sgn_neg, Z.sgn_pos, Z.quot_opp_l by lia. lia.
  - rewrite Z.quot_0_l by done. simpl. lia.
  - destruct (Z.lt_ge_cases b 0).
    + rewrite Z.abs_eq, (Z.abs_neq b), Z.sgn_pos, Z.sgn_neg, Z.quot_opp_r by lia. lia.
    + rewrite !Z.abs_eq, !Z.sgn_pos by lia. lia.
Qed.

Lemma quot_bound a b : b <> 0 -> Z.abs (Z.quot a b) <= Z.abs a.
Proof.
  intros Hb. rewrite quot_abs by done. rewrite !Z.abs_mul.
  assert (0 <= Z.quot (Z.abs a) (Z.abs b) <= Z.abs a).
  { rewrite Z.quot_div_nonneg by lia. split; [apply Z.div_pos; lia|].
    apply Z.div_le_upper_bound; nia. }
  destruct (Z.sgn_spec a) as [[? ->]|[[? ->]|[? ->]]], (Z.sgn_spec b) as [[? ->]|[[? ->]|[? ->]]];
    simpl; lia.
Qed.

Section divide.
Context `{Tgt : Target} `{Fp : FloatOps}.
Context (t : option symbol) (At : arith_type t).
#[local] Abbreviation Ht := (at_std t At).

(** One operation that the promoted type does not change. *)
Lemma sval_binop_same a b op :
  wf_sval t a -> wf_sval t b ->
  sval_binop a op b =
  sval_cast t (if type_unsigned t then sval_binop_unsigned t a op b else sval_binop_signed t a op b).
Proof.
  intros Wa Wb. unfold sval_binop. rewrite (wf_type _ _ Wa), (wf_type _ _ Wb).
  rewrite promoted_overflow_type by apply At. rewrite (at_self t At). by rewrite (at_not_ptr t At).
Qed.

(** The value an operation computes in 64 bits, when it is a number of the type. *)
Lemma sval_cast_result z : in_type t z -> wf_sval t (sval_cast t (Sval t (s64 z))) /\
  num (sval_cast t (Sval t (s64 z))) = z.
Proof.
  intros Hz. change (Sval t (s64 z)) with (sval_of t z).
  rewrite (sval_cast_id t) by (apply Ht || by apply (wf_sval_of t z Ht)).
  split; [by apply (wf_sval_of t z Ht)|by apply (num_sval_of t z Ht)].
Qed.

Lemma sval_div_exact a b :
  wf_sval t a -> wf_sval t b -> num b <> 0 -> tmin t < num a \/ type_unsigned t = true ->
  wf_sval t (sval_binop a OP_DIV b) /\ num (sval_binop a OP_DIV b) = Z.quot (num a) (num b).
Proof.
  intros Wa Wb Nb Hm. rewrite sval_binop_same by done.
  pose proof (wf_num _ _ Wa) as Ia. pose proof (wf_num _ _ Wb) as Ib.
  pose proof (quot_bound (num a) (num b) Nb) as Q.
  destruct (type_unsigned t) eqn:Hu.
  - rewrite (num_unsigned t a (wf_type _ _ Wa) Hu), (num_unsigned t b (wf_type _ _ Wb) Hu) in *.
    unfold sval_binop_unsigned. rewrite (proj2 (Z.eqb_neq _ _) Nb).
    unfold in_type in *. rewrite <- Z.quot_div_nonneg by (unfold tmin in *; rewrite Hu in *; lia).
    apply sval_cast_result. unfold in_type, tmin in *. rewrite Hu in *.
    rewrite Z.quot_div_nonneg in * by lia. pose proof (Z.div_pos (uvalue a) (uvalue b)). lia.
  - destruct Hm as [Hm|?]; [|done].
    rewrite (num_signed t a (wf_type _ _ Wa) Hu), (num_signed t b (wf_type _ _ Wb) Hu) in *.
    unfold sval_binop_signed. rewrite (proj2 (Z.eqb_neq _ _) Nb).
    pose proof (std_bounds t Ht) as [(C & _)|(_ & M0 & M1 & _)]; [congruence|].
    assert ((value a =? LLONG_MIN) = false) as ->.
    { apply Z.eqb_neq. pose proof (std_bits_range t Ht). 
      assert (LLONG_MIN <= tmin t); [|lia]. rewrite M0. change LLONG_MIN with (- 2 ^ 63).
      pose proof (Z.pow_le_mono_r 2 (type_bits t - 1) 63). lia. }
    simpl. apply sval_cast_result. unfold in_type in *. lia.
Qed.

(** ** Zero is no divisor *)

Lemma zero_rl_eq : zero_rl = [Range int_zero int_zero].
Proof. reflexivity. Qed.

Lemma sval_cast_zero : wf_sval t (sval_cast t int_zero) /\ num (sval_cast t int_zero) = 0.
Proof.
  assert (wf_sval int_ctype int_zero) as W.
  { split; [done|unfold is_s64, two63; simpl; lia|]. apply zero_in_type, int_ctype_std. }
  split; [apply (sval_cast_wf' t int_ctype); auto using int_ctype_std, at_std|].
  rewrite (num_sval_cast t int_ctype) by (apply Ht || apply int_ctype_std || done).
  apply wrap_id; [apply Ht|]. apply zero_in_type, Ht.
Qed.

Lemma filter_zero r :
  wf_rl t r -> wf_rl t (rl_filter r zero_rl) /\
  (forall z, rl_has (rl_filter r zero_rl) z <-> rl_has r z /\ z <> 0).
Proof.
  intros Hr. rewrite zero_rl_eq. cbn [rl_filter fold_left rmin rmax].
  destruct (decide (r = [])) as [->|Nr].
  { split; [apply wf_rl_nil|]. intros z. cbn [remove_range]. rewrite rl_has_nil. tauto. }
  destruct sval_cast_zero as [W E].
  assert (remove_range r int_zero int_zero =
          remove_range r (sval_cast t int_zero) (sval_cast t int_zero)) as ->.
  { unfold remove_range. rewrite (rl_type_wf t r (wf_rl_ranges _ _ Hr) Nr).
    by rewrite (sval_cast_id t (sval_cast t int_zero)) by (done || apply Ht). }
  destruct (remove_range_wf t Ht r (sval_cast t int_zero) (sval_cast t int_zero)) as (A & _ & B); auto.
  { apply at_can_add, At. }
  split; [done|]. intros z. rewrite B, E. intuition lia.
Qed.

(** ** Division *)

Lemma divide_rl_helper_part pn l r :
  wf_rl t l -> wf_rl t r -> signs pn l r ->
  (forall a, rl_has l a -> tmin t < a \/ type_unsigned t = true) ->
  part_of t (fun b => b <> 0) (divide_rl_helper pn l r) l r Z.quot.
Proof.
  intros Hl Hr [Sl Sr] Hm.
  assert (exists r0, wf_rl t r0 /\ (forall z, rl_has r0 z <-> rl_has r z /\ z <> 0) /\
    divide_rl_helper pn l r =
      match l, r0 with [], _ => [] | _, [] => [] | _, _ =>
      let '(low_left, low_right, high_left, high_right) :=
      match pn with
      | POS_POS => (rl_min l, rl_max r0, rl_max l, rl_min r0)
      | POS_NEG => (rl_max l, rl_max r0, rl_min l, rl_min r0)
      | NEG_POS => (rl_min l, rl_min r0, rl_max l, rl_max r0)
      | NEG_NEG => (rl_max l, rl_min r0, rl_min l, rl_max r0)
      end in
      alloc_rl (sval_binop low_left OP_DIV low_right) (sval_binop high_left OP_DIV high_right) end)
    as (r0 & Hr0 & H0 & ->).
  { destruct (filter_zero r Hr) as [F1 F2].
    destruct pn; [exists (rl_filter r zero_rl)|exists r|exists (rl_filter r zero_rl)|exists r];
      (split; [done|split; [|done]]); auto; intros z; split; try tauto; intros Hz; (split; [done|]);
      specialize (Sr z Hz); simpl in Sr; lia. }
  destruct (decide (l = [])) as [->|Nl]; [apply part_nil_l|].
  destruct (decide (r0 = [])) as [->|Nr].
  { destruct l; [done|]. split; [apply wf_rl_nil|]. intros a b _ Hb Nb. exfalso.
    by apply (proj1 (rl_has_nil b)), H0. }
  destruct (ends t l Hl Nl) as (A1 & A2 & A3 & A4 & A5).
  destruct (ends t r0 Hr0 Nr) as (B1 & B2 & B3 & B4 & B5).
  apply H0 in B3 as [B3 N3], B4 as [B4 N4]. pose proof (Hm _ A3) as Hma. pose proof (Hm _ A4) as Hmb.
  apply Sl in A3, A4. apply Sr in B3, B4.
  pose proof (sval_div_exact (rl_min l) (rl_min r0) A1 B1 N3 Hma) as [D1 E1].
  pose proof (sval_div_exact (rl_min l) (rl_max r0) A1 B2 N4 Hma) as [D2 E2].
  pose proof (sval_div_exact (rl_max l) (rl_min r0) A2 B1 N3 Hmb) as [D3 E3].
  pose proof (sval_div_exact (rl_max l) (rl_max r0) A2 B2 N4 Hmb) as [D4 E4].
  destruct l as [|dl l'] eqn:El; [done|]. rewrite <- El in *.
  destruct r0 as [|dr r'] eqn:Er; [done|]. rewrite <- Er in *.
  destruct pn; cbv beta iota.
  all: match goal with |- part_of _ _ (alloc_rl ?m ?x) _ _ _ =>
         destruct (alloc_rl_spec t At m x) as [P1 P2]; [done|done|] end;
       (split; [done|]); intros a b Ha Hb Nb; apply P2; left; rewrite ?E1, ?E2, ?E3, ?E4;
       specialize (A5 a Ha); assert (rl_has r0 b) as Hb' by (by apply H0); specialize (B5 b Hb');
       specialize (Sl a Ha); specialize (Sr b Hb); simpl in *.
  - apply quot_mono; lia.
  - pose proof (quot_mono (num (rl_min l)) a (num (rl_max l)) (- num (rl_max r0)) (- b) (- num (rl_min r0))) as M.
    rewrite !Z.quot_opp_r in M by lia. lia.
  - pose proof (quot_mono (- num (rl_max l)) (- a) (- num (rl_min l)) (num (rl_min r0)) b (num (rl_max r0))) as M.
    rewrite !Z.quot_opp_l in M by lia. lia.
  - pose proof (quot_mono (- num (rl_max l)) (- a) (- num (rl_min l)) (- num (rl_max r0)) (- b) (- num (rl_min r0))) as M.
    rewrite !Z.quot_opp_opp in M by lia. lia.
Qed.

(** Division by a list that is not the whole type, of a list without the
    smallest number of a signed type. *)
Lemma rl_handle_divide_answers l r :
  wf_rl t l -> wf_rl t r -> is_whole_rl r = false ->
  (forall a, rl_has l a -> tmin t < a \/ type_unsigned t = true) ->
  rl_handle_divide l r = [] \/ part_of t (fun b => b <> 0) (rl_handle_divide l r) l r Z.quot.
Proof.
  intros Hl Hr Hw Hm. unfold rl_handle_divide.
  destruct (rl_to_zero l) as [s|] eqn:El.
  { right. apply (rl_to_zero_spec t At) in El as (Ws & Es & H); [|done].
    destruct (alloc_rl_spec t At s s Ws Ws) as [A B]. split; [done|].
    intros a b Ha _ Hb. apply H in Ha as ->. rewrite Z.quot_0_l by done. apply B. left. lia. }
  destruct (is_whole_rl l); [by left|]. rewrite Hw. right.
  destruct (signs_parts t At l r Hl Hr) as (S1 & S2 & S3 & S4).
  destruct (get_neg_rl_spec t At l Hl) as [Nl Nl'], (get_neg_rl_spec t At r Hr) as [Nr _].
  destruct (get_pos_rl_spec t At l Hl) as [Pl Pl'], (get_pos_rl_spec t At r Hr) as [Pr _].
  apply union4_part; auto; apply divide_rl_helper_part; auto; intros a Ha; apply Hm;
    (by apply Nl' in Ha as [? _]) || by apply Pl' in Ha as [? _].
Qed.

(** ** Right shift *)

Lemma sval_shr_exact a b :
  wf_sval t a -> wf_sval t b ->
  wf_sval t (sval_binop a SPECIAL_RIGHTSHIFT b) /\
  num (sval_binop a SPECIAL_RIGHTSHIFT b) = Z.shiftr (num a) (shift_count (uvalue b)).
Proof.
  intros Wa Wb. rewrite sval_binop_same by done. pose proof (wf_num _ _ Wa) as Ia.
  assert (shift_count (value b) = shift_count (uvalue b)) as Es.
  { unfold shift_count, uvalue, u64, two64. symmetry. apply Z.mod_mod_divide. by exists 288230376151711744. }
  assert (0 <= shift_count (uvalue b)) as Hk by (unfold shift_count; apply Z.mod_pos_bound; lia).
  assert (in_type t (Z.shiftr (num a) (shift_count (uvalue b)))) as I.
  { pose proof (zero_in_type t Ht) as [Z0 Z1]. unfold in_type in *. rewrite Z.shiftr_div_pow2 by done.
    pose proof (Z.pow_pos_nonneg 2 (shift_count (uvalue b)) ltac:(lia) Hk).
    split; [apply Z.div_le_lower_bound; [lia|]; nia|].
    destruct (Z.lt_ge_cases (num a) 0).
    - assert (num a / 2 ^ shift_count (uvalue b) < 0); [|lia].
      apply Z.div_lt_upper_bound; lia.
    - transitivity (num a); [|lia]. apply Z.div_le_upper_bound; [lia|]. nia. }
  destruct (type_unsigned t) eqn:Hu; unfold sval_binop_unsigned, sval_binop_signed;
    rewrite ?(num_unsigned t a (wf_type _ _ Wa) Hu), ?(num_signed t a (wf_type _ _ Wa) Hu), ?Es in *;
    by apply sval_cast_result.
Qed.

Lemma rl_handle_rshift_answers l r :
  wf_rl t l -> wf_rl t r -> r <> [] ->
  answers t (rl_handle_rshift l r) l r (fun a b => Z.shiftr a (b mod 64)).
Proof.
  intros Hl Hr Nr. unfold rl_handle_rshift, answers.
  destruct (rl_to_sval r) as [s|] eqn:E; [|by left].
  apply (rl_to_sval_wf t Ht) in E as [Ws Hs]; [|done].
  rewrite (sval_is_negative_spec t) by (done || apply Ht).
  destruct (Z.ltb_spec (num s) 0); [by left|].
  pose proof (num_uvalue t s Ht Ws ltac:(lia)) as Eu.
  destruct (Z.eqb_spec (value s) 0) as [E0|E0].
  { right. split; [done|]. intros a b Ha Hb _. apply Hs in Hb as ->.
    rewrite <- Eu. unfold uvalue. rewrite E0. done. }
  right. unfold part_of.
  assert (forall x acc, Forall (wf_range t) x -> wf_rl t acc ->
    let ret := fold_left (fun ret tmp =>
           add_range ret (sval_binop (rmin tmp) SPECIAL_RIGHTSHIFT s)
                         (sval_binop (rmax tmp) SPECIAL_RIGHTSHIFT s)) x acc in
    wf_rl t ret /\ forall a, (rl_has acc a -> rl_has ret a) /\
      (rl_has x a -> rl_has ret (Z.shiftr a (shift_count (uvalue s))))) as L.
  { intros x acc Hx. revert acc. induction Hx as [|d x [W X O] Hx IH]; intros acc Ha; simpl.
    { split; [done|]. intros a. split; [done|]. intros Hn. by apply rl_has_nil in Hn. }
    destruct (sval_shr_exact (rmin d) s W Ws) as [M1 M2]. destruct (sval_shr_exact (rmax d) s X Ws) as [X1 X2].
    destruct (add_range_any t acc _ _ Ht (at_not_ptr t At) Ha M1 X1) as [A1 A2].
    destruct (IH _ A1) as [B1 B2]. split; [done|]. intros a. split.
    - intros Hacc. apply (proj1 (B2 _)), A2. by right.
    - intros Hh. apply rl_has_cons in Hh as [Hh|Hh]; [|by apply B2].
      apply (proj1 (B2 _)), A2. left. left. rewrite M2, X2. unfold in_range in Hh.
      rewrite !Z.shiftr_div_pow2 by (unfold shift_count; apply Z.mod_pos_bound; lia).
      assert (0 < 2 ^ shift_count (uvalue s)) by (apply Z.pow_pos_nonneg; [lia|unfold shift_count; apply Z.mod_pos_bound; lia]).
      split; apply Z.div_le_mono; lia. }
  destruct (L l [] (wf_rl_ranges _ _ Hl) (wf_rl_nil t)) as [A B]. split; [done|].
  intros a b Ha Hb _. apply Hs in Hb as ->. rewrite <- Eu. by apply B.
Qed.
End divide.
