(* ===== verification/Concrete.v ===== *)
(** * Concrete inputs

    A boolean form of the well-formedness of values and lists, and the lists
    on an LP64 kernel target that the witnesses of the theorems evaluate. *)
From S2P Require Import Prelude Types Sval SvalFacts RangeList RangeFacts RangeBinopFacts.

Section decide.
Context `{Tgt : Target} `{Fp : FloatOps}.

Definition wf_svalb (t : option symbol) (s : sval_t) : bool :=
  bool_decide (sv_type s = t) && (- two63 <=? value s) && (value s <? two63) &&
  (tmin t <=? num s) && (num s <=? tmax t).

Definition wf_rangeb (t : option symbol) (d : data_range) : bool :=
  wf_svalb t (rmin d) && wf_svalb t (rmax d) && (num (rmin d) <=? num (rmax d)).

Fixpoint separatedb (lo : Z) (rl : range_list) : bool :=
  match rl with
  | [] => true
  | d :: rl' => (lo <=? num (rmin d)) && separatedb (num (rmax d) + 2) rl'
  end.

Definition wf_rlb (t : option symbol) (rl : range_list) : bool :=
  forallb (wf_rangeb t) rl && separatedb (tmin t) rl.

Lemma wf_svalb_sound t s : wf_svalb t s = true -> wf_sval t s.
Proof.
  unfold wf_svalb. rewrite !andb_true_iff, bool_decide_eq_true, !Z.leb_le, Z.ltb_lt.
  intros ((((E & A) & B) & C) & D). split; [done|by split|by split].
Qed.

Lemma wf_rangeb_sound t d : wf_rangeb t d = true -> wf_range t d.
Proof.
  unfold wf_rangeb. rewrite !andb_true_iff, Z.leb_le. intros [[A B] C].
  split; [by apply wf_svalb_sound|by apply wf_svalb_sound|done].
Qed.

Lemma wf_rlb_sound t rl : wf_rlb t rl = true -> wf_rl t rl.
Proof.
  unfold wf_rlb. rewrite andb_true_iff. intros [A B]. split.
  - clear B. induction rl as [|d rl IH]; [constructor|]. simpl in A.
    apply andb_true_iff in A as [A1 A2]. constructor; [by apply wf_rangeb_sound|auto].
  - clear A. revert B. generalize (tmin t). induction rl as [|d rl IH]; intros lo B; simpl; [done|].
    simpl in B. apply andb_true_iff in B as [B1 B2]. split; [by apply Z.leb_le|auto].
Qed.
End decide.

(** The range list of a list of pairs. *)
Definition mk_rl (t : option symbol) (l : list (Z * Z)) : range_list :=
  map (fun p => Range (sval_of t (fst p)) (sval_of t (snd p))) l.

Definition in_typeb `{Tgt : Target} (t : option symbol) (z : Z) : bool := (tmin t <=? z) && (z <=? tmax t).

Lemma rl_has_mk `{Tgt : Target} t l z :
  std_type t -> forallb (fun p => in_typeb t (fst p) && in_typeb t (snd p)) l = true ->
  rl_has (mk_rl t l) z <-> Exists (fun p => fst p <= z <= snd p) l.
Proof.
  intros Ht. unfold in_typeb. induction l as [|[a b] l IH]; intros H; simpl.
  { by rewrite rl_has_nil, Exists_nil. }
  simpl in H. rewrite !andb_true_iff, !Z.leb_le in H. destruct H as [[[? ?] [? ?]] H].
  rewrite rl_has_cons, Exists_cons, IH by done. unfold in_range; simpl.
  by rewrite !(num_sval_of t) by (done || split; done).
Qed.

#[export] Existing Instance lp64_kernel.
#[export] Existing Instance integral_floats.

Lemma std_int : std_type int_ctype.
Proof. apply int_ctype_std. Qed.
Lemma std_uint : std_type uint_ctype.
Proof. split; [reflexivity..|]. left. right; right; left. reflexivity. Qed.
Lemma std_uchar : std_type uchar_ctype.
Proof. split; [reflexivity..|]. left. left. reflexivity. Qed.
Lemma std_llong : std_type llong_ctype.
Proof. apply llong_ctype_std. Qed.
Lemma arith_uint : arith_type uint_ctype.
Proof. split; [apply std_uint|reflexivity..]. Qed.

(** Discharge a side condition on concrete inputs by evaluation. *)
Ltac concrete :=
  match goal with
  | |- std_type int_ctype => exact std_int
  | |- std_type uint_ctype => exact std_uint
  | |- std_type uchar_ctype => exact std_uchar
  | |- std_type llong_ctype => exact std_llong
  | |- arith_type int_ctype => exact arith_type_int
  | |- arith_type uint_ctype => exact arith_uint
  | |- wf_rl _ _ => apply wf_rlb_sound; vm_compute; reflexivity
  | |- wf_sval _ _ => apply wf_svalb_sound; vm_compute; reflexivity
  | |- rl_has _ _ => apply (bool_decide_unpack _); vm_compute; exact I
  | |- _ = _ => vm_compute; reflexivity
  | |- _ <> _ => vm_compute; discriminate
  | |- _ <> _ => vm_compute; let H := fresh in intros H; discriminate H
  end.

(** The numbers of a concrete list in a hypothesis, as inequalities. *)
Ltac concrete_in H :=
  rewrite rl_has_mk in H by (concrete || (vm_compute; reflexivity));
  rewrite ?Exists_cons, ?Exists_nil in H; simpl in H.
