(* ===== verification/RangeTheorems.v ===== *)
(** * The theorems about range lists

    Range lists stand for sets of numbers in a unique normal form; the
    operations of smatch_ranges.c are the operations on these sets. *)
From S2P Require Import Prelude Types Tokens Sval SvalFacts RangeList RangeFacts RangeSets RangeCast RangeCompare RangeCompareFacts RangeSplit Comparison Concrete.

Section theorems.
Context `{Tgt : Target} `{Fp : FloatOps}.

(** C3: on two lists in normal form of one type, split_comparison_rl() never
    hits the fatal exit, and for each of the ten comparison operators its
    four lists are in normal form and hold exactly the numbers of the left
    (right) side for which some number of the other side makes the comparison
    true (false).  Lists of pointers are short, as add_range() collapses long ones. *)
Theorem split_comparison_rl_exact t l r op :
  std_type t -> wf_rl t l -> wf_rl t r -> l <> [] -> r <> [] ->
  can_add t (2 + length l + length r) -> is_cmp op = true ->
  exists s, split_comparison_rl l op r = Some s /\
    (wf_rl t (left_true s) /\ forall a, rl_has (left_true s) a <->
       rl_has l a /\ exists b, rl_has r b /\ cmp_rel op a b) /\
    (wf_rl t (left_false s) /\ forall a, rl_has (left_false s) a <->
       rl_has l a /\ exists b, rl_has r b /\ ~ cmp_rel op a b) /\
    (wf_rl t (right_true s) /\ forall b, rl_has (right_true s) b <->
       rl_has r b /\ exists a, rl_has l a /\ cmp_rel op a b) /\
    (wf_rl t (right_false s) /\ forall b, rl_has (right_false s) b <->
       rl_has r b /\ exists a, rl_has l a /\ ~ cmp_rel op a b).
Proof.
  intros Ht Hl Hr Nl Nr Hc Hop.
  destruct (split_comparison_rl_wf t Ht l r Hl Hr Nl Nr Hc op Hop) as (s & E & [A1 A2] & [B1 B2] & [C1 C2] & [D1 D2]).
  exists s. split; [done|].
  split; [by split|]. split; [split; [done|]; intros a; rewrite B2; unfold some_right;
    by setoid_rewrite (fun b => negate_comparison_rel op a b Hop)|].
  split; [by split|]. split; [done|]. intros b. rewrite D2. unfold some_left.
  by setoid_rewrite (fun a => negate_comparison_rel op a b Hop).
Qed.

(** C4: add_range() on a list in normal form and a range of the same type
    keeps the normal form (sorted, no overlapping and no adjacent ranges) and
    adds exactly the numbers of the range; a list of pointers is not so long that
    it is collapsed. *)
Theorem add_range_exact t rl min max :
  std_type t -> wf_rl t rl -> wf_sval t min -> wf_sval t max -> num min <= num max ->
  type_is_ptr t = false \/ (length rl < 8)%nat ->
  wf_rl t (add_range rl min max) /\
  (forall z, rl_has (add_range rl min max) z <-> num min <= z <= num max \/ rl_has rl z).
Proof. intros Ht. by apply add_range_wf. Qed.

(** C38: rl_union() is the union of the numbers, in normal form, whatever the
    order and overlap of the ranges of its arguments. *)
Theorem rl_union_exact t one two :
  std_type t -> Forall (wf_range t) one -> Forall (wf_range t) two ->
  can_add t (length one + length two) ->
  wf_rl t (rl_union one two) /\
  (forall z, rl_has (rl_union one two) z <-> rl_has one z \/ rl_has two z).
Proof. intros Ht. by apply rl_union_wf. Qed.

(** C7: rl_intersection() of two lists of one type does not reach the fatal
    exit of do_intersection() and returns the intersection, in normal form. *)
Theorem rl_intersection_exact t one two :
  std_type t -> wf_rl t one -> wf_rl t two -> can_add t (length one + length two) ->
  exists ret, rl_intersection one two = Some ret /\ wf_rl t ret /\
    (forall z, rl_has ret z <-> rl_has one z /\ rl_has two z).
Proof.
  intros Ht H1 H2 Hc. destruct (rl_intersection_wf t Ht one two H1 H2 Hc) as (ret & A & B & _ & C).
  by exists ret.
Qed.

(** C37: rl_filter() is the set difference, in normal form; each step of it is
    a remove_range(). *)
Theorem rl_filter_exact t rl flt :
  std_type t -> type_is_ptr t = false -> wf_rl t rl -> Forall (wf_range t) flt ->
  wf_rl t (rl_filter rl flt) /\
  (forall z, rl_has (rl_filter rl flt) z <-> rl_has rl z /\ ~ rl_has flt z).
Proof. intros Ht. by apply rl_filter_wf. Qed.

(** C11: cast_rl() to an integer type other than _Bool and pointers is sound: the result is in normal
    form and holds the C conversion of every number of the list, through all
    the branches of add_range_t() (fits, truncates nicely, too big, negative to
    unsigned, high positive to negative).  A cast from a
    signed type to a narrower signed type is left out ([safe_cast]): there the code loses numbers. *)
Theorem cast_rl_holds_conversions t u rl :
  std_type t -> std_type u -> type_is_ptr u = false -> type_bits u <> 1 -> safe_cast t u ->
  wf_rl t rl -> rl <> [] ->
  wf_rl u (cast_rl u rl) /\ (forall z, rl_has rl z -> rl_has (cast_rl u rl) (wrap u z)).
Proof. apply cast_rl_converts. Qed.

(** cast_rl() to a type that has all the numbers of the list changes the
    type and no number. *)
Theorem cast_rl_keeps_numbers t u rl :
  std_type t -> std_type u -> type_bits u <> 1 -> wf_rl t rl ->
  (forall z, rl_has rl z -> in_type u z) -> can_add u (length rl) ->
  wf_rl u (cast_rl u rl) /\ (forall z, rl_has (cast_rl u rl) z <-> rl_has rl z).
Proof.
  intros Ht Hu Hb Hrl Hin Hc. by destruct (cast_rl_exact t u rl Ht Hu Hb Hrl Hin Hc) as (A & _ & B).
Qed.

(** a cast to _Bool gives exactly the truth values of the numbers. *)
Theorem cast_rl_to_bool_exact t rl :
  std_type t -> wf_rl t rl -> rl <> [] -> t <> bool_ctype ->
  wf_rl bool_ctype (cast_rl bool_ctype rl) /\
  (forall y, rl_has (cast_rl bool_ctype rl) y <->
             exists z, rl_has rl z /\ y = (if z =? 0 then 0 else 1)).
Proof. apply cast_rl_bool. Qed.

(** C33: possibly_true_rl() and possibly_false_rl() miss nothing: if two
    numbers of the lists, converted to the common type, compare true (false),
    the answer is true. *)
Theorem possibly_rl_complete t u l r op a b :
  std_type t -> std_type u -> type_is_ptr t = false -> type_is_ptr u = false ->
  wf_rl t l -> wf_rl u r -> is_cmp op = true -> rl_has l a -> rl_has r b ->
  let c := get_binop_type l r in
  (cmp_rel op (wrap c a) (wrap c b) -> possibly_true_rl l op r = true) /\
  (~ cmp_rel op (wrap c a) (wrap c b) -> possibly_false_rl l op r = true).
Proof.
  intros Tt Tu Pt Pu Hl Hr Hop Ha Hb c.
  assert (l <> []) as Nl by (intros ->; by apply rl_has_nil in Ha).
  assert (r <> []) as Nr by (intros ->; by apply rl_has_nil in Hb).
  split; intros H.
  - rewrite possibly_true_rl_eq by done. by apply (possible_pair t u Tt Tu Pt Pu l r Hl Hr Nl Nr op a b).
  - rewrite possibly_false_rl_eq by done.
    apply (possible_pair t u Tt Tu Pt Pu l r Hl Hr Nl Nr _ a b); auto using negate_comparison_is_cmp.
    by apply negate_comparison_rel.
Qed.

(** on lists of one type of at least int's width, possibly_true_rl() is
    true exactly if some pair of numbers compares true. *)
Theorem possibly_true_rl_exact t l r op :
  std_type t -> get_binop_type l r = t -> wf_rl t l -> wf_rl t r -> l <> [] -> r <> [] ->
  is_cmp op = true ->
  possibly_true_rl l op r = true <-> exists a b, rl_has l a /\ rl_has r b /\ cmp_rel op a b.
Proof.
  intros Ht Ec Hl Hr Nl Nr Hop. rewrite possibly_true_rl_eq by done. rewrite Ec.
  rewrite !(cast_rl_same t Ht) by (apply Hl || apply Hr).
  apply (exists_pair_wf t); [apply Hl|apply Hr|]. intros. by apply (true_comparison_range_wf t).
Qed.

(** C35: What get_comparison_rl() answers is true of every pair of numbers of
    the two lists, converted to their common type. *)
Theorem get_comparison_rl_sound t u l r a b :
  std_type t -> std_type u -> type_is_ptr t = false -> type_is_ptr u = false ->
  wf_rl t l -> wf_rl u r -> rl_has l a -> rl_has r b ->
  cmp_rel (get_comparison_rl l r) (wrap (get_binop_type l r) a) (wrap (get_binop_type l r) b).
Proof.
  intros Tt Tu Pt Pu Hl Hr Ha Hb.
  assert (l <> []) as Nl by (intros ->; by apply rl_has_nil in Ha).
  assert (r <> []) as Nr by (intros ->; by apply rl_has_nil in Hb).
  by apply (get_comparison_rl_sound_aux t u).
Qed.

(** C36: filter_by_comparison() keeps exactly the numbers of the list that
    compare with some number of the right side, in the type of the list. *)
Theorem filter_by_comparison_exact t l r op :
  std_type t -> type_bits t <> 1 -> wf_rl t l -> wf_rl t r -> l <> [] -> r <> [] ->
  can_add t (2 + length l + length r) -> is_cmp op = true ->
  exists ret, filter_by_comparison l op r = Some ret /\ wf_rl t ret /\
    (forall a, rl_has ret a <-> rl_has l a /\ exists b, rl_has r b /\ cmp_rel op a b).
Proof.
  intros Ht Hb Hl Hr Nl Nr Hc Hop.
  destruct (filter_by_comparison_wf t Ht Hb l r Hl Hr Nl Nr Hc op Hop) as (ret & E & A & B).
  by exists ret.
Qed.

(** C28: rl_equiv() on lists of one type in normal form decides whether they
    hold the same numbers; the normal form is unique. *)
Theorem rl_equiv_exact t one two :
  std_type t -> wf_rl t one -> wf_rl t two ->
  (rl_equiv one two = true <-> (forall z, rl_has one z <-> rl_has two z)) /\
  (rl_equiv one two = true -> one = two).
Proof.
  intros Ht H1 H2. pose proof (rl_equiv_wf t Ht one two H1 H2) as E. split; [done|].
  intros H. by apply (wf_rl_canonical t Ht), E.
Qed.

(** rl_min() and rl_max() are the least and the greatest number of a list,
    rl_has_sval() is membership, and rl_to_sval() finds the value of a list
    with one number. *)
Theorem rl_observers_exact t rl s :
  std_type t -> wf_rl t rl -> rl <> [] -> wf_sval t s ->
  (rl_has rl (num (rl_min rl)) /\ forall z, rl_has rl z -> num (rl_min rl) <= z) /\
  (rl_has rl (num (rl_max rl)) /\ forall z, rl_has rl z -> z <= num (rl_max rl)) /\
  (rl_has_sval rl s = true <-> rl_has rl (num s)) /\
  (rl_to_sval rl = Some s <-> forall z, rl_has rl z <-> z = num s).
Proof.
  intros Ht Hrl Hne Hs. destruct (rl_min_spec t rl Hrl Hne) as (_ & A & B).
  destruct (rl_max_spec t rl Hrl Hne) as (_ & C & D). split; [done|]. split; [done|].
  split; [by apply (rl_has_sval_wf t Ht), Hs; apply Hrl|].
  rewrite (rl_to_sval_wf t Ht) by done. tauto.
Qed.
End theorems.

(** ** Witnesses *)

Lemma split_comparison_rl_exact_witness :
  exists s, split_comparison_rl (mk_rl int_ctype [(0, 10)]) OP_LT (mk_rl int_ctype [(5, 7)]) = Some s /\
    rl_has (left_true s) 6 /\ ~ rl_has (left_true s) 7.
Proof.
  destruct (split_comparison_rl_exact int_ctype (mk_rl int_ctype [(0, 10)]) (mk_rl int_ctype [(5, 7)]) OP_LT)
    as (s & E & (_ & H) & _); [concrete..|by left|concrete|].
  exists s. split; [done|]. rewrite !H. split.
  - split; [concrete|]. exists 7. split; [concrete|]. simpl. lia.
  - intros (_ & b & Hb & Hlt). simpl in Hlt. concrete_in Hb. lia.
Defined.

Lemma add_range_exact_witness :
  rl_has (add_range (mk_rl int_ctype [(0, 3); (10, 12)]) (sval_of int_ctype 4) (sval_of int_ctype 9)) 7.
Proof.
  apply (add_range_exact int_ctype); [concrete..|vm_compute; discriminate|by left|].
  left. vm_compute. split; discriminate.
Defined.

Lemma rl_intersection_exact_witness :
  exists ret, rl_intersection (mk_rl int_ctype [(0, 6)]) (mk_rl int_ctype [(4, 9)]) = Some ret /\ rl_has ret 5.
Proof.
  destruct (rl_intersection_exact int_ctype (mk_rl int_ctype [(0, 6)]) (mk_rl int_ctype [(4, 9)]))
    as (ret & E & _ & H); [concrete..|by left|].
  exists ret. split; [done|]. apply H. split; concrete.
Defined.

Lemma cast_rl_holds_conversions_witness :
  rl_has (cast_rl uchar_ctype (mk_rl int_ctype [(-3, 20)])) 253.
Proof.
  apply (cast_rl_holds_conversions int_ctype uchar_ctype (mk_rl int_ctype [(-3, 20)])) with (z := -3);
    [concrete..|by left|concrete|concrete|concrete].
Defined.

Lemma rl_equiv_exact_witness :
  rl_equiv (mk_rl int_ctype [(0, 5)]) (mk_rl int_ctype [(0, 5)]) = true.
Proof.
  apply (rl_equiv_exact int_ctype (mk_rl int_ctype [(0, 5)]) (mk_rl int_ctype [(0, 5)])); [concrete..|done].
Defined.

Lemma rl_union_exact_witness :
  rl_has (rl_union (mk_rl int_ctype [(5, 6)]) (mk_rl int_ctype [(0, 1)])) 1.
Proof.
  apply (rl_union_exact int_ctype); [concrete| | |by left|right; concrete].
  - apply wf_rl_ranges. concrete.
  - apply wf_rl_ranges. concrete.
Defined.

Lemma rl_filter_exact_witness :
  ~ rl_has (rl_filter (mk_rl int_ctype [(0, 6)]) (mk_rl int_ctype [(4, 9)])) 5.
Proof.
  intros H. apply (rl_filter_exact int_ctype) in H as [_ H]; [|concrete..|apply wf_rl_ranges; concrete].
  apply H. concrete.
Defined.

Lemma possibly_rl_complete_witness :
  possibly_true_rl (mk_rl int_ctype [(-3, 20)]) OP_GT (mk_rl uint_ctype [(100, 200)]) = true.
Proof.
  destruct (possibly_rl_complete int_ctype uint_ctype (mk_rl int_ctype [(-3, 20)])
    (mk_rl uint_ctype [(100, 200)]) OP_GT (-1) 100) as [H _]; [concrete..|].
  apply H. vm_compute. reflexivity.
Defined.

Lemma get_comparison_rl_sound_witness :
  cmp_rel (get_comparison_rl (mk_rl int_ctype [(0, 5)]) (mk_rl int_ctype [(7, 9)])) 5 7.
Proof.
  apply (get_comparison_rl_sound int_ctype int_ctype (mk_rl int_ctype [(0, 5)]) (mk_rl int_ctype [(7, 9)]) 5 7);
    concrete.
Defined.

Lemma filter_by_comparison_exact_witness :
  exists ret, filter_by_comparison (mk_rl int_ctype [(0, 10); (20, 30)]) OP_LT (mk_rl int_ctype [(5, 7); (25, 25)]) = Some ret /\
    rl_has ret 24 /\ ~ rl_has ret 25.
Proof.
  destruct (filter_by_comparison_exact int_ctype (mk_rl int_ctype [(0, 10); (20, 30)]) (mk_rl int_ctype [(5, 7); (25, 25)]) OP_LT)
    as (ret & E & _ & H); [concrete..|by left|concrete|].
  exists ret. split; [done|]. rewrite !H. split.
  - split; [concrete|]. exists 25. split; [concrete|]. simpl. lia.
  - intros (_ & b & Hb & Hlt). simpl in Hlt. concrete_in Hb. lia.
Defined.
