(* ===== verification/BinopTheorems.v ===== *)
(** * The theorems about values, arithmetic on lists, comparisons and bit masks

    An sval_t is a typed 64 bit value; its number [num] is what the C program
    sees.  The functions of smatch_sval.c compute with these numbers. *)
From S2P Require Import Prelude Types Tokens Sval SvalFacts RangeList RangeFacts RangeCompare Comparison BitInfo RangeBinop RangeBinopFacts Concrete.

Section theorems.
Context `{Tgt : Target} `{Fp : FloatOps}.

(** sval_cast() between integer types is the conversion C prescribes: the
    result is a canonical value of the new type whose number is the old one
    reduced to the width and signedness of the type (0 or 1 for _Bool). *)
Theorem sval_cast_converts t u s :
  std_type t -> std_type u -> wf_sval u s ->
  wf_sval t (sval_cast t s) /\ num (sval_cast t s) = wrap t (num s).
Proof. intros Ht Hu Hs. split; [by apply (sval_cast_wf' t u)|by apply (num_sval_cast t u)]. Qed.

(** sval_cmp() of two values of any integer types compares their numbers
    after the conversion to the common type, and compares the numbers
    themselves when both are nonnegative or the common type is signed. *)
Theorem sval_cmp_compares t u a b :
  std_type t -> std_type u -> wf_sval t a -> wf_sval u b ->
  let c := cmp_type a b in
  sval_cmp a b = cmpZ (wrap c (num a)) (wrap c (num b)) /\
  (0 <= num a /\ 0 <= num b \/ type_unsigned c = false -> sval_cmp a b = cmpZ (num a) (num b)).
Proof.
  intros Ht Hu Ha Hb c. split; [by apply (sval_cmp_wrap t u)|by apply (sval_cmp_exact t u)].
Qed.

(** sval_fits(), sval_too_low() and sval_too_high() decide whether the
    number of a value is a number of the type. *)
Theorem sval_fits_decides t u s :
  std_type t -> std_type u -> wf_sval u s ->
  (sval_fits t s = true <-> tmin t <= num s <= tmax t) /\
  sval_too_low t s = (num s <? tmin t) /\ sval_too_high t s = (tmax t <? num s).
Proof.
  intros Ht Hu Hs. split; [by apply (sval_fits_spec t u)|].
  split; [by apply (sval_too_low_spec t u)|by apply (sval_too_high_spec t u)].
Qed.

(** C30: for +, - and *, sval_binop() is the exact result converted to the
    promoted type, sval_binop_overflows() says whether the exact result on the
    converted operands is a number of that type, and without overflow the
    result is exact. *)
Theorem sval_binop_overflow_check t u a b op :
  std_type t -> std_type u -> type_is_ptr t = false -> type_is_ptr u = false ->
  wf_sval t a -> wf_sval u b -> arith_op op ->
  let c := overflow_type t u in
  wf_sval c (sval_binop a op b) /\
  num (sval_binop a op b) = wrap c (arith op (num a) (num b)) /\
  (sval_binop_overflows a op b = false <-> in_type c (arith op (wrap c (num a)) (wrap c (num b)))) /\
  (in_type c (num a) -> in_type c (num b) -> sval_binop_overflows a op b = false ->
   num (sval_binop a op b) = arith op (num a) (num b)).
Proof.
  intros Ht Hu Pt Pu Ha Hb Hop c.
  destruct (sval_binop_arith t u a b op Ht Hu Pt Pu Ha Hb Hop) as [A B].
  split; [done|]. split; [done|]. split; [by apply (sval_binop_overflows_spec t u)|].
  by apply (sval_binop_no_overflow t u).
Qed.

End theorems.

(** ** Witnesses *)

Lemma sval_binop_overflow_check_witness :
  num (sval_binop (sval_of int_ctype 2147483647) OP_ADD (sval_of int_ctype 1)) = -2147483648.
Proof.
  destruct (sval_binop_overflow_check int_ctype int_ctype (sval_of int_ctype 2147483647)
    (sval_of int_ctype 1) OP_ADD) as (_ & H & _); [concrete..|by left|].
  rewrite H. vm_compute. reflexivity.
Defined.

(** ** The theorems about arithmetic on lists, comparisons and bit masks *)

Section theorems.
Context `{Tgt : Target} `{Fp : FloatOps}.

(** the recursion of rl_binop() through mod_rl_helper() and
    rl_handle_OR() ends after two calls: more fuel changes nothing, for any
    operator and any two lists. *)
Theorem rl_binop_terminates f op l r :
  (2 <= f)%nat -> rl_binop_fuel f l op r = rl_binop l op r.
Proof.
  intros Hf. destruct f as [|[|f]]; [lia|lia|]. apply rl_binop_fuel_enough.
Qed.

(** C29: rl_binop() with +, - or * on two lists of one arithmetic type holds the
    C result for every pair of numbers, wrapped to the type on overflow, if
    it answers at all and the handler has an answer for every pair of
    ranges. *)
Theorem rl_binop_sound t op l r :
  arith_type t -> arith_op op -> wf_rl t l -> wf_rl t r -> l <> [] -> r <> [] ->
  (forall d e, In d l -> In e r ->
     rl_binop_helper (alloc_rl (rmin d) (rmax d)) op (alloc_rl (rmin e) (rmax e)) <> []) ->
  rl_binop l op r = [] \/
  wf_rl t (rl_binop l op r) /\
  forall a b, rl_has l a -> rl_has r b -> rl_has (rl_binop l op r) (wrap t (arith op a b)).
Proof.
  intros At Hop Hl Hr Nl Nr Hk.
  destruct (rl_binop_answers t At op l r Hop Hl Hr Nl Nr Hk) as [E|[W H]]; [by left|right].
  split; [done|]. intros a b Ha Hb. by apply H.
Qed.

(** the answer of rl_handle_mult(), put together from the four
    combinations of signs, holds every product. *)
Theorem rl_handle_mult_sound t l r :
  arith_type t -> wf_rl t l -> wf_rl t r ->
  rl_handle_mult l r = [] \/
  wf_rl t (rl_handle_mult l r) /\
  forall a b, rl_has l a -> rl_has r b -> rl_has (rl_handle_mult l r) (wrap t (a * b)).
Proof.
  intros At Hl Hr. destruct (rl_handle_mult_answers t At l r Hl Hr) as [E|[W H]]; [by left|right].
  split; [done|]. intros a b Ha Hb. by apply H.
Qed.

(** the answer of rl_handle_sub() without a known comparison holds every
    difference, also where an unsigned subtraction wraps and the lists are
    cast to the signed type and back. *)
Theorem rl_handle_sub_sound t l r :
  arith_type t -> wf_rl t l -> wf_rl t r -> l <> [] -> r <> [] ->
  rl_handle_sub l r UNKNOWN_COMPARISON = [] \/
  wf_rl t (rl_handle_sub l r UNKNOWN_COMPARISON) /\
  forall a b, rl_has l a -> rl_has r b ->
    rl_has (rl_handle_sub l r UNKNOWN_COMPARISON) (wrap t (a - b)).
Proof.
  intros At Hl Hr Nl Nr. destruct (rl_handle_sub_answers t l r At Hl Hr Nl Nr) as [E|[W H]]; [by left|right].
  split; [done|]. intros a b Ha Hb. by apply H.
Qed.

(** the answer of rl_handle_divide() holds every quotient by a number
    other than zero, if the divisor is not the whole type and the dividend
    has not the smallest number of a signed type. *)
Theorem rl_handle_divide_sound t l r :
  arith_type t -> wf_rl t l -> wf_rl t r -> is_whole_rl r = false ->
  (forall a, rl_has l a -> tmin t < a \/ type_unsigned t = true) ->
  rl_handle_divide l r = [] \/
  wf_rl t (rl_handle_divide l r) /\
  forall a b, rl_has l a -> rl_has r b -> b <> 0 -> rl_has (rl_handle_divide l r) (Z.quot a b).
Proof.
  intros At Hl Hr Hw Hm.
  destruct (rl_handle_divide_answers t At l r Hl Hr Hw Hm) as [E|[W H]]; [by left|right].
  split; [done|]. exact H.
Qed.

(** the answer of rl_handle_rshift() holds every number of the left list
    shifted right. *)
Theorem rl_handle_rshift_sound t l r :
  arith_type t -> wf_rl t l -> wf_rl t r -> r <> [] ->
  rl_handle_rshift l r = [] \/
  wf_rl t (rl_handle_rshift l r) /\
  forall a b, rl_has l a -> rl_has r b -> rl_has (rl_handle_rshift l r) (Z.shiftr a (b mod 64)).
Proof.
  intros At Hl Hr Nr. destruct (rl_handle_rshift_answers t At l r Hl Hr Nr) as [E|[W H]]; [by left|right].
  split; [done|]. intros a b Ha Hb. by apply H.
Qed.

(** rl_to_binfo() describes every number of a list of nonnegative
    numbers: the bits it calls set are set and no other bit than the possible
    ones is. *)
Theorem rl_to_binfo_sound t rl z :
  std_type t -> wf_rl t rl -> 0 <= num (rl_min rl) -> rl_has rl z ->
  Z.land (set (rl_to_binfo rl)) z = set (rl_to_binfo rl) /\
  Z.land z (possible (rl_to_binfo rl)) = z.
Proof. intros Ht Hrl H0 Hz. exact (rl_to_binfo_has t rl z Ht Hrl H0 Hz). Qed.

(** merge_bstates() describes what either of its arguments describes, and
    combine_bit_info() exactly what both describe unless they contradict each
    other, in which case they have no value in common. *)
Theorem bit_info_lattice one two x :
  is_u64 x ->
  (binfo_has one x \/ binfo_has two x -> binfo_has (merge_bstates one two) x) /\
  (binfo_has one x -> binfo_has two x -> binfo_has (combine_bit_info one two) x) /\
  (combine_bit_info one two <> BitInfo 0 ULLONG_MAX ->
   binfo_has (combine_bit_info one two) x -> binfo_has one x /\ binfo_has two x).
Proof.
  intros Hx. split; [apply merge_bstates_has|]. split; [by apply combine_bit_info_has|].
  intros Hne H. revert H. unfold combine_bit_info in Hne.
  destruct (Z.eqb_spec (Z.land (set one) (possible two)) (set one)) as [E1|E1]; [|done]. simpl in Hne.
  destruct (Z.eqb_spec (Z.land (set two) (possible one)) (set two)) as [E2|E2]; [|done].
  by apply combine_bit_info_only.
Qed.

End theorems.

(** merge_comparisons() gives a comparison that holds whenever one of the
    two holds, and the strongest such comparison, unless != is merged with
    another comparison. *)
Theorem merge_comparisons_is_join one two :
  is_comparison one = true -> is_comparison two = true ->
  one = two \/ one <> SPECIAL_NOTEQUAL /\ two <> SPECIAL_NOTEQUAL ->
  (forall a b, cmp_rel one a b \/ cmp_rel two a b -> cmp_rel (merge_comparisons one two) a b) /\
  (is_cmp one = true -> is_cmp two = true -> forall op, is_comparison op = true ->
   (forall a b, cmp_rel one a b \/ cmp_rel two a b -> cmp_rel op a b) ->
   forall a b, cmp_rel (merge_comparisons one two) a b -> cmp_rel op a b).
Proof.
  intros H1 H2 H. split; [intros a b; by apply merge_comparisons_sound|].
  intros C1 C2 op Hop Hab a b. by apply merge_comparisons_least.
Qed.

(** combine_comparisons() is sound for chains: if a compares to b and b to
    c, a compares to c as it says. *)
Theorem combine_comparisons_transitive l r a b c :
  is_comparison l = true -> is_comparison r = true ->
  cmp_rel l a b -> cmp_rel r b c -> cmp_rel (combine_comparisons l r) a c.
Proof. apply combine_comparisons_sound. Qed.

(** comparison_intersection() holds exactly when both comparisons hold;
    it is IMPOSSIBLE_COMPARISON for contradicting ones. *)
Theorem comparison_intersection_is_meet l r a b :
  is_comparison l = true -> is_comparison r = true ->
  cmp_rel (comparison_intersection l r) a b <-> cmp_rel l a b /\ cmp_rel r a b.
Proof. apply comparison_intersection_exact. Qed.

(** ** Where the lists lose a number

    Inputs for which an answer of the code misses a possible result. *)

(** the limits of the theorems above are real.  A cast to a narrower signed
    type loses 0; a sum that wraps is dropped when another pair of ranges is
    known; [5-10] & 3 misses 3; [5-10] | 3 misses 7; [5-10] divided by an
    unknown unsigned number misses 0; and merging != with < gives <. *)
Theorem answers_that_miss_a_result :
  ~ rl_has (cast_rl schar_ctype (mk_rl int_ctype [(-100, 200)])) (wrap schar_ctype 0) /\
  ~ rl_has (rl_binop (mk_rl uint_ctype [(0, 1); (4294967295, 4294967295)]) OP_ADD
              (mk_rl uint_ctype [(1, 2)])) (wrap uint_ctype (4294967295 + 1)) /\
  ~ rl_has (rl_AND_mask (mk_rl int_ctype [(5, 10)]) 3) (Z.land 7 3) /\
  ~ rl_has (rl_binop (mk_rl int_ctype [(5, 10)]) OP_OR (mk_rl int_ctype [(3, 3)])) (Z.lor 5 3) /\
  ~ rl_has (rl_handle_divide (mk_rl uint_ctype [(5, 10)]) (mk_rl uint_ctype [(0, 4294967295)])) (Z.quot 5 6) /\
  (cmp_rel SPECIAL_NOTEQUAL 2 1 /\ ~ cmp_rel (merge_comparisons SPECIAL_NOTEQUAL OP_LT) 2 1).
Proof.
  do 5 (split; [apply (bool_decide_unpack _); vm_compute; exact I|]).
  destruct merge_notequal_unsound as (-> & H1 & H2). split; [exact H1|exact H2].
Qed.

(** ** Witnesses *)

Lemma rl_binop_sound_witness :
  rl_has (rl_binop (mk_rl int_ctype [(0, 3); (10, 20)]) OP_ADD (mk_rl int_ctype [(5, 6)])) 26.
Proof.
  destruct (rl_binop_sound int_ctype OP_ADD (mk_rl int_ctype [(0, 3); (10, 20)]) (mk_rl int_ctype [(5, 6)]))
    as [E|[_ H]]; [concrete|by left|concrete..| | |].
  - intros d e [<-|[<-|[]]] [<-|[]]; concrete.
  - vm_compute in E. discriminate E.
  - apply (H 20 6); concrete.
Defined.

