(* ===== verification/Avl.v ===== *)
(** * AVL trees: avl.c

    The nodes of a tree belong to that tree alone, so a tree is a value and an
    update through [AvlNode **p] returns the new subtree.  The elements are
    ordered by a three way comparison, cmp_tracker() in the program: the class
    [Tracker] states what avl.c needs of it.  [side] is 0 or 1 in C; [false] is
    the left side, [true] the right one. *)
From S2P Require Import Prelude.

(** What the trees need of the elements and their comparison. *)
Class Tracker (K : Type) := {
  cmp_tracker : K -> K -> Z;
  cmp_values a b : cmp_tracker a b = -1 \/ cmp_tracker a b = 0 \/ cmp_tracker a b = 1;
  cmp_refl a : cmp_tracker a a = 0;
  cmp_opp a b : cmp_tracker b a = - cmp_tracker a b;
  cmp_trans a b c : cmp_tracker a b <= 0 -> cmp_tracker b c <= 0 ->
    cmp_tracker a c <= 0 /\ (cmp_tracker a c = 0 -> cmp_tracker a b = 0 /\ cmp_tracker b c = 0)
}.

Section avl.
Context {K : Type} `{Tr : Tracker K}.

Inductive AvlNode : Type :=
  | NULL
  | Node (lr0 : AvlNode) (sm : K) (balance : Z) (lr1 : AvlNode).

(** bal() and side() *)
Definition bal (side : bool) : Z := if side then 1 else -1.
Definition side (b : Z) : bool := b =? 1.

(** [node->lr[side]] *)
Definition lr (node : AvlNode) (sd : bool) : AvlNode :=
  match node with
  | NULL => NULL
  | Node l _ _ r => if sd then r else l
  end.

(** A node with [x] on [sd] and [y] on the opposite side. *)
Definition mk (sd : bool) (x : AvlNode) (sm : K) (b : Z) (y : AvlNode) : AvlNode :=
  if sd then Node y sm b x else Node x sm b y.

Definition mkNode (sm : K) : AvlNode := Node NULL sm 0 NULL.

Definition node_balance (node : AvlNode) : Z :=
  match node with NULL => 0 | Node _ _ b _ => b end.

Fixpoint lookup (node : AvlNode) (sm : K) : option K :=
  match node with
  | NULL => None
  | Node l k _ r =>
    let cmp := cmp_tracker sm k in
    if cmp <? 0 then lookup l sm
    else if cmp >? 0 then lookup r sm
    else Some k
  end.

(** balance(): a node or child that is NULL is never dereferenced, see
    [balance_spec]; the model leaves the tree alone. *)
Definition balance (node : AvlNode) (sd : bool) : AvlNode :=
  let b := bal sd in
  match node, lr node sd with
  | Node _ sm nb _, Node _ csm cb _ as child =>
    if negb (cb =? - b) then
      let cb := cb - b in
      mk sd (lr child sd) csm cb
        (mk sd (lr child (negb sd)) sm (- cb) (lr node (negb sd)))
    else
      match lr child (negb sd) with
      | Node _ gsm gb _ as grandchild =>
        let nb := if gb =? b then - b else 0 in
        let cb := if gb =? b then 0 else if gb =? - b then b else 0 in
        mk sd (mk sd (lr child sd) csm cb (lr grandchild sd)) gsm 0
          (mk sd (lr grandchild (negb sd)) sm nb (lr node (negb sd)))
      | NULL => node
      end
  | _, _ => node
  end.

(** sway(): the new subtree; its balance is the return value. *)
Definition sway (node : AvlNode) (s : Z) : AvlNode :=
  match node with
  | NULL => NULL
  | Node l sm b r =>
    if negb (b =? s) then Node l sm (b + s) r else balance node (side s)
  end.

(** [node->lr[sd] = x] *)
Definition set_lr (node : AvlNode) (sd : bool) (x : AvlNode) : AvlNode :=
  match node with
  | NULL => NULL
  | Node l sm b r => if sd then Node l sm b x else Node x sm b r
  end.

(** insert_sm(): the subtree, whether its height increased, and what is added
    to avl->count. *)
Fixpoint insert_sm (p : AvlNode) (sm : K) : AvlNode * bool * Z :=
  match p with
  | NULL => (mkNode sm, true, 1)
  | Node l k b r =>
    let cmp := cmp_tracker sm k in
    if cmp =? 0 then (Node l sm b r, false, 0)
    else
      let '(x, grew, cnt) := insert_sm (if side cmp then r else l) sm in
      let node := set_lr p (side cmp) x in
      if negb grew then (node, false, cnt)
      else
        let node := sway node cmp in
        (node, negb (node_balance node =? 0), cnt)
  end.

(** removeExtremum(): the subtree, whether its height decreased, and the
    element of the node that is taken out. *)
Fixpoint removeExtremum (p : AvlNode) (sd : bool) : AvlNode * bool * option K :=
  match p with
  | NULL => (NULL, false, None)
  | Node l k b r =>
    match (if sd then r else l) with
    | NULL => ((if sd then l else r), true, Some k)
    | _ =>
      let '(x, shrunk, ret) := removeExtremum (if sd then r else l) sd in
      let node := set_lr p sd x in
      if negb shrunk then (node, false, ret)
      else
        let node := sway node (- bal sd) in
        (node, node_balance node =? 0, ret)
    end
  end.

(** remove_sm(): the subtree, whether its height decreased, and the removed
    element; avl->count goes down by one if there is one. *)
Fixpoint remove_sm (p : AvlNode) (sm : K) : AvlNode * bool * option K :=
  match p with
  | NULL => (NULL, false, None)
  | Node l k b r =>
    let cmp := cmp_tracker sm k in
    if cmp =? 0 then
      match l, r with
      | Node _ _ _ _, Node _ _ _ _ =>
        let sd := negb (b <=? 0) in
        let '(x, shrunk, replacement) := removeExtremum (if sd then r else l) (negb sd) in
        match replacement with
        | None => (p, false, Some k)
        | Some rk =>
          let node := if sd then Node l rk b x else Node x rk b r in
          if negb shrunk then (node, false, Some k)
          else
            let b' := b - bal sd in
            ((if sd then Node l rk b' x else Node x rk b' r), b' =? 0, Some k)
        end
      | Node _ _ _ _, NULL => (l, true, Some k)
      | NULL, _ => (r, true, Some k)
      end
    else
      let '(x, shrunk, ret) := remove_sm (if side cmp then r else l) sm in
      let node := set_lr p (side cmp) x in
      if negb shrunk then (node, false, ret)
      else
        let node := sway node (- cmp) in
        (node, node_balance node =? 0, ret)
  end.

(** ** avl_check_invariants() *)

(** checkBalances(): the height, or [None] for false. *)
Fixpoint checkBalances (node : AvlNode) : option Z :=
  match node with
  | NULL => Some 0
  | Node l _ b r =>
    h0 ← checkBalances l;
    h1 ← checkBalances r;
    if negb (b =? h1 - h0) || (b <? -1) || (b >? 1) then None
    else Some ((if h0 >? h1 then h0 else h1) + 1)
  end.

Fixpoint countNode (node : AvlNode) : Z :=
  match node with
  | NULL => 0
  | Node l _ _ r => 1 + countNode l + countNode r
  end.

(** ** Traversal *)

(** The iterator: the current node and the stack of the nodes to return to,
    top first. *)
Record AvlIter : Type := Iter { it_node : AvlNode; it_stack : list AvlNode }.

(** [while (node->lr[dir] != NULL) { push node; node = node->lr[dir]; }] *)
Fixpoint descend (dir : bool) (node : AvlNode) (stack : list AvlNode) : AvlIter :=
  match node with
  | NULL => Iter NULL stack
  | Node l _ _ r =>
    match (if dir then r else l) with
    | NULL => Iter node stack
    | _ => descend dir (if dir then r else l) (node :: stack)
    end
  end.

Definition avl_iter_begin (root : AvlNode) (dir : bool) : AvlIter := descend dir root [].

Definition iter_sm (it : AvlIter) : option K :=
  match it_node it with NULL => None | Node _ sm _ _ => Some sm end.

Definition avl_iter_next (dir : bool) (it : AvlIter) : AvlIter :=
  match it_node it with
  | NULL => it
  | node =>
    match lr node (negb dir) with
    | NULL =>
      match it_stack it with
      | top :: stack => Iter top stack
      | [] => Iter NULL []
      end
    | next => descend dir next (it_stack it)
    end
  end.

(** avl_foreach(): the elements the loop visits, and the deepest stack. *)
Fixpoint traverse (fuel : nat) (dir : bool) (it : AvlIter) : list K * nat :=
  match fuel, iter_sm it with
  | S f, Some sm =>
    let '(sms, depth) := traverse f dir (avl_iter_next dir it) in
    (sm :: sms, Nat.max (length (it_stack it)) depth)
  | _, _ => ([], length (it_stack it))
  end.

(** checkOrder() *)
Fixpoint check_order (sms : list K) : bool :=
  match sms with
  | a :: (b :: _) as rest => negb (cmp_tracker a b >=? 0) && check_order rest
  | _ => true
  end.

End avl.
Arguments AvlNode K : clear implicits.
Arguments AvlIter K : clear implicits.
