(* ===== verification/AvlFacts.v ===== *)
(** * Facts about AVL trees

    Balance and order are kept by insertion and removal, the trees are finite
    maps, the traversal visits the elements in order, and its stack is never
    higher than the tree. *)
From S2P Require Import Prelude Avl.
From Stdlib Require Import Sorted.

Section facts.
Context {K : Type} `{Tr : Tracker K}.
Implicit Types (t : AvlNode K) (k sm : K).

(** ** Shape *)

Fixpoint height t : Z :=
  match t with NULL => 0 | Node l _ _ r => 1 + Z.max (height l) (height r) end.

Fixpoint balanced t : Prop :=
  match t with
  | NULL => True
  | Node l _ b r => balanced l /\ balanced r /\ b = height r - height l /\ -1 <= b <= 1
  end.

Fixpoint elements t : list K :=
  match t with NULL => [] | Node l k _ r => elements l ++ k :: elements r end.

Lemma height_nonneg t : 0 <= height t.
Proof. induction t; simpl; lia. Qed.

Lemma height_0 t : height t = 0 -> t = NULL.
Proof. destruct t as [|l k b r]; [done|]. simpl. pose proof (height_nonneg l). pose proof (height_nonneg r). lia. Qed.

Lemma null_or_not t : t = NULL \/ t <> NULL.
Proof. destruct t; [by left|by right]. Qed.

Lemma mk_height sd x k b y : height (mk sd x k b y) = 1 + Z.max (height x) (height y).
Proof. destruct sd; simpl; lia. Qed.

(** [d] is how much higher the [sd] side is, as the balance has it. *)
Lemma mk_balanced sd x k b y :
  balanced x -> balanced y -> b = bal sd * (height x - height y) -> -1 <= b <= 1 ->
  balanced (mk sd x k b y).
Proof. destruct sd; cbn [mk balanced bal]; intuition lia. Qed.

Lemma mk_elements sd x k b y :
  elements (mk sd x k b y) = if sd then elements y ++ k :: elements x else elements x ++ k :: elements y.
Proof. by destruct sd. Qed.

Lemma node_mk sd t l k b r :
  t = Node l k b r -> t = mk sd (lr t sd) k b (lr t (negb sd)).
Proof. intros ->. by destruct sd. Qed.

Lemma lr_balanced t sd : balanced t -> balanced (lr t sd).
Proof. destruct t; [done|]. destruct sd; simpl; tauto. Qed.

(** Read a node with its children named by side. *)
Lemma balanced_mk sd x k b y :
  balanced (mk sd x k b y) <->
  balanced x /\ balanced y /\ b = bal sd * (height x - height y) /\ -1 <= b <= 1.
Proof. destruct sd; cbn [mk balanced bal]; intuition lia. Qed.

Lemma mk_lr sd x k b y : lr (mk sd x k b y) sd = x /\ lr (mk sd x k b y) (negb sd) = y.
Proof. by destruct sd. Qed.

Lemma mk_cases sd t : t = NULL \/ exists x k b y, t = mk sd x k b y.
Proof.
  destruct t as [|l k b r]; [by left|right]. destruct sd; [by exists r, k, b, l|by exists l, k, b, r].
Qed.

(** ** Rotations *)

(** balance() on a node whose [sd] side is two higher: the result is balanced,
    has the same elements, and is one lower unless the child was even. *)
Lemma balance_spec sd x k y b :
  balanced x -> balanced y -> height x = height y + 2 ->
  let t' := balance (mk sd x k b y) sd in
  balanced t' /\ elements t' = elements (mk sd x k b y) /\
  (node_balance x <> 0 -> height t' = height x /\ node_balance t' = 0) /\
  (node_balance x = 0 -> height t' = height x + 1 /\ node_balance t' <> 0).
Proof.
  intros Bx By Hh. destruct (mk_cases sd x) as [->|(cx & ck & cb & cy & ->)].
  { simpl in Hh. pose proof (height_nonneg y). lia. }
  rewrite balanced_mk in Bx. destruct Bx as (B1 & B2 & Ecb & Rcb). rewrite mk_height in Hh.
  assert (node_balance (mk sd cx ck cb cy) = cb) as -> by (by destruct sd).
  pose proof (height_nonneg cx). pose proof (height_nonneg cy). pose proof (height_nonneg y).
  destruct (Z.eq_dec cb (- bal sd)) as [E|E].
  - (* double rotation *)
    destruct (mk_cases sd cy) as [->|(gx & gk & gb & gy & ->)].
    { simpl in Ecb. destruct sd; simpl in *; lia. }
    rewrite balanced_mk in B2. destruct B2 as (B3 & B4 & Egb & Rgb). rewrite mk_height in *.
    assert (balance (mk sd (mk sd cx ck cb (mk sd gx gk gb gy)) k b y) sd =
      mk sd (mk sd cx ck (if gb =? bal sd then 0 else if gb =? - bal sd then bal sd else 0) gx) gk 0
            (mk sd gy k (if gb =? bal sd then - bal sd else 0) y)) as ->.
    { rewrite E. destruct sd; reflexivity. }
    split.
    { rewrite !balanced_mk, !mk_height.
      destruct (Z.eqb_spec gb (bal sd)), (Z.eqb_spec gb (- bal sd)); destruct sd; cbn [bal] in *;
        intuition lia. }
    split; [destruct sd; simpl; rewrite <- ?app_assoc; simpl; by rewrite <- ?app_assoc|].
    rewrite !mk_height. split; [|destruct sd; simpl in *; lia].
    intros _. destruct sd; cbn [bal mk node_balance] in *; lia.
  - (* single rotation *)
    assert (balance (mk sd (mk sd cx ck cb cy) k b y) sd =
      mk sd cx ck (cb - bal sd) (mk sd cy k (- (cb - bal sd)) y)) as ->.
    { destruct sd; cbn [mk balance lr bal negb] in *; rewrite (proj2 (Z.eqb_neq _ _)) by lia; reflexivity. }
    split.
    { rewrite !balanced_mk, !mk_height. destruct sd; cbn [bal] in *; intuition lia. }
    split; [destruct sd; simpl; rewrite <- ?app_assoc; simpl; by rewrite <- ?app_assoc|].
    rewrite !mk_height. destruct sd; cbn [bal mk node_balance] in *; lia.
Qed.

(** ** sway(): one side of a balanced node changed its height by one *)

(** The node before: sides [x0] (on [sd]) and [y]; [x] is the new side. *)
Lemma sway_grow sd x0 x k b y :
  balanced (mk sd x0 k b y) -> balanced x -> height x = height x0 + 1 ->
  (x0 <> NULL -> node_balance x <> 0) ->
  let t' := sway (mk sd x k b y) (bal sd) in
  balanced t' /\ elements t' = elements (mk sd x k b y) /\
  height t' = height (mk sd x0 k b y) + (if negb (node_balance t' =? 0) then 1 else 0).
Proof.
  intros Bt Bx Hx Hb. rewrite balanced_mk in Bt. destruct Bt as (_ & By & Eb & Rb).
  assert (sway (mk sd x k b y) (bal sd) =
    if negb (b =? bal sd) then mk sd x k (b + bal sd) y else balance (mk sd x k b y) sd) as ->
    by (destruct sd; reflexivity).
  destruct (Z.eqb_spec b (bal sd)) as [E|E]; cbn [negb].
  - destruct (balance_spec sd x k y b Bx By) as (A & B & C & _); [destruct sd; cbn [bal] in *; lia|].
    split; [done|]. split; [done|].
    destruct C as [C1 C2].
    { apply Hb. intros ->. simpl in *. pose proof (height_nonneg y). destruct sd; cbn [bal] in *; lia. }
    rewrite C2, C1, mk_height. simpl. destruct sd; cbn [bal] in *; lia.
  - assert (node_balance (mk sd x k (b + bal sd) y) = b + bal sd) as -> by (by destruct sd).
    split; [rewrite balanced_mk; destruct sd; cbn [bal] in *; intuition lia|].
    split; [by rewrite !mk_elements|]. rewrite !mk_height.
    destruct (Z.eqb_spec (b + bal sd) 0); cbn [negb]; destruct sd; cbn [bal] in *; lia.
Qed.

Lemma sway_shrink sd x0 x k b y :
  balanced (mk sd x0 k b y) -> balanced x -> height x = height x0 - 1 ->
  let t' := sway (mk sd x k b y) (- bal sd) in
  balanced t' /\ elements t' = elements (mk sd x k b y) /\
  height t' = height (mk sd x0 k b y) - (if node_balance t' =? 0 then 1 else 0).
Proof.
  intros Bt Bx Hx. rewrite balanced_mk in Bt. destruct Bt as (_ & By & Eb & Rb).
  assert (mk sd x k b y = mk (negb sd) y k b x) as Em by (by destruct sd).
  assert (sway (mk sd x k b y) (- bal sd) =
    if negb (b =? - bal sd) then mk sd x k (b - bal sd) y else balance (mk (negb sd) y k b x) (negb sd)) as ->
    by (destruct sd; reflexivity).
  destruct (Z.eqb_spec b (- bal sd)) as [E|E]; cbn [negb].
  - destruct (balance_spec (negb sd) y k x b By Bx) as (A & B & C & D); [destruct sd; cbn [bal] in *; lia|].
    split; [done|]. split; [by rewrite B, Em|]. rewrite mk_height.
    destruct (Z.eq_dec (node_balance y) 0) as [Ey|Ey].
    + destruct (D Ey) as [D1 D2]. rewrite D1, (proj2 (Z.eqb_neq _ _) D2). destruct sd; cbn [bal] in *; lia.
    + destruct (C Ey) as [C1 C2]. rewrite C1, C2. simpl. destruct sd; cbn [bal] in *; lia.
  - assert (node_balance (mk sd x k (b - bal sd) y) = b - bal sd) as -> by (by destruct sd).
    split; [rewrite balanced_mk; destruct sd; cbn [bal] in *; intuition lia|].
    split; [by rewrite !mk_elements|]. rewrite !mk_height.
    destruct (Z.eqb_spec (b - bal sd) 0); destruct sd; cbn [bal] in *; lia.
Qed.

(** ** Order *)

Definition lt_sm (a b : K) : Prop := cmp_tracker a b < 0.
Abbreviation sorted := (StronglySorted lt_sm).

Lemma lt_trans a b c : lt_sm a b -> lt_sm b c -> lt_sm a c.
Proof.
  unfold lt_sm. intros H1 H2. destruct (cmp_trans a b c) as [A B]; [lia|lia|].
  destruct (Z.eq_dec (cmp_tracker a c) 0) as [E|E]; [destruct (B E)|]; lia.
Qed.

Lemma eq_lt_trans a b c : cmp_tracker a b = 0 -> lt_sm b c -> lt_sm a c.
Proof.
  unfold lt_sm. intros H1 H2. destruct (cmp_trans a b c) as [A B]; [lia|lia|].
  destruct (Z.eq_dec (cmp_tracker a c) 0) as [E|E]; [destruct (B E)|]; lia.
Qed.

Lemma lt_eq_trans a b c : lt_sm a b -> cmp_tracker b c = 0 -> lt_sm a c.
Proof.
  unfold lt_sm. intros H1 H2. destruct (cmp_trans a b c) as [A B]; [lia|lia|].
  destruct (Z.eq_dec (cmp_tracker a c) 0) as [E|E]; [destruct (B E)|]; lia.
Qed.

Lemma gt_lt a b : cmp_tracker a b > 0 <-> lt_sm b a.
Proof. unfold lt_sm. rewrite (cmp_opp a b). lia. Qed.

(** The three outcomes of a comparison. *)
Lemma cmp_cases a b :
  cmp_tracker a b = 0 \/ cmp_tracker a b = -1 /\ lt_sm a b \/ cmp_tracker a b = 1 /\ lt_sm b a.
Proof.
  rewrite <- (gt_lt a b). unfold lt_sm. destruct (cmp_values a b) as [E|[E|E]]; rewrite E; intuition lia.
Qed.

Lemma sorted_app_inv (l : list K) k r :
  sorted (l ++ k :: r) ->
  sorted l /\ sorted r /\ Forall (fun a => lt_sm a k) l /\ Forall (lt_sm k) r.
Proof.
  induction l as [|a l IH]; simpl; intros H.
  - inversion_clear H. repeat split; auto; constructor.
  - inversion_clear H as [|? ? H1 H2]. destruct (IH H1) as (A & B & C & D).
    apply Forall_app in H2 as [H2 H3]. inversion_clear H3. repeat split; auto; constructor; auto.
Qed.

Lemma sorted_app (l : list K) k r :
  sorted l -> sorted r -> Forall (fun a => lt_sm a k) l -> Forall (lt_sm k) r -> sorted (l ++ k :: r).
Proof.
  intros Hl Hr. induction Hl as [|a l Hl IH Ha]; simpl; intros Fl Fr; [by constructor|].
  inversion_clear Fl. constructor; [auto|]. apply Forall_app. split; [done|]. constructor; [done|].
  eapply Forall_impl; [|exact Fr]. intros c. by apply lt_trans.
Qed.

(** ** The list a tree stands for *)

Fixpoint ins (sm : K) (ks : list K) : list K :=
  match ks with
  | [] => [sm]
  | k :: ks' =>
    if cmp_tracker sm k =? 0 then sm :: ks'
    else if cmp_tracker sm k <? 0 then sm :: ks
    else k :: ins sm ks'
  end.

Fixpoint del (sm : K) (ks : list K) : list K :=
  match ks with
  | [] => []
  | k :: ks' => if cmp_tracker sm k =? 0 then ks' else k :: del sm ks'
  end.

Definition find_sm (sm : K) (ks : list K) : option K :=
  List.find (fun k => cmp_tracker sm k =? 0) ks.

(** The element is below [k]: the operations stay left of it. *)
Lemma ins_left sm l k r : lt_sm sm k -> ins sm (l ++ k :: r) = ins sm l ++ k :: r.
Proof.
  intros H. induction l as [|a l IH]; simpl.
  - unfold lt_sm in H. rewrite (proj2 (Z.eqb_neq _ _)), (proj2 (Z.ltb_lt _ _)) by lia. done.
  - repeat case_if; [done..|]. simpl. by rewrite IH.
Qed.

Lemma ins_right sm l k r :
  Forall (fun a => lt_sm a k) l -> lt_sm k sm -> ins sm (l ++ k :: r) = l ++ k :: ins sm r.
Proof.
  intros Hl H. assert (forall a, lt_sm a sm -> forall ks, ins sm (a :: ks) = a :: ins sm ks) as S.
  { intros a Ha ks. apply gt_lt in Ha. simpl.
    by rewrite (proj2 (Z.eqb_neq _ _)), (proj2 (Z.ltb_ge _ _)) by lia. }
  induction Hl as [|a l Ha Hl IH]; cbn [app]; [by apply S|].
  rewrite S by (eapply lt_trans; eauto). by rewrite IH.
Qed.

Lemma ins_here sm l k r :
  Forall (fun a => lt_sm a k) l -> cmp_tracker sm k = 0 -> ins sm (l ++ k :: r) = l ++ sm :: r.
Proof.
  intros Hl H. induction Hl as [|a l Ha Hl IH]; simpl.
  - by rewrite (proj2 (Z.eqb_eq _ _) H).
  - assert (lt_sm a sm) as Hs by (eapply lt_eq_trans; [exact Ha|]; rewrite cmp_opp; lia).
    apply gt_lt in Hs. rewrite (proj2 (Z.eqb_neq _ _)), (proj2 (Z.ltb_ge _ _)) by lia. by rewrite IH.
Qed.

(** No element of the list is equal to [sm]. *)
Definition absent (sm : K) (ks : list K) : Prop := Forall (fun a => cmp_tracker sm a <> 0) ks.

Lemma absent_above sm k r : lt_sm sm k -> Forall (lt_sm k) r -> absent sm (k :: r).
Proof.
  intros H Hr. constructor; [unfold lt_sm in H; lia|].
  eapply Forall_impl; [|exact Hr]. intros a Ha. pose proof (lt_trans _ _ _ H Ha) as L. unfold lt_sm in L. lia.
Qed.

Lemma absent_below sm k l : lt_sm k sm -> Forall (fun a => lt_sm a k) l -> absent sm (l ++ [k]).
Proof.
  intros H Hl. apply Forall_app. split; [|constructor; [|constructor]].
  - eapply Forall_impl; [|exact Hl]. intros a Ha. pose proof (lt_trans _ _ _ Ha H) as L. apply gt_lt in L. lia.
  - apply gt_lt in H. lia.
Qed.

Lemma absent_eq sm k ks : cmp_tracker sm k = 0 -> Forall (fun a => lt_sm a k) ks -> absent sm ks.
Proof.
  intros H Hl. eapply Forall_impl; [|exact Hl]. intros a Ha.
  assert (lt_sm a sm) as L by (eapply lt_eq_trans; [exact Ha|]; rewrite cmp_opp; lia). apply gt_lt in L. lia.
Qed.

Lemma del_absent sm ks : absent sm ks -> del sm ks = ks.
Proof. induction 1 as [|a l Ha Hl IH]; simpl; [done|]. by rewrite (proj2 (Z.eqb_neq _ _) Ha), IH. Qed.
Lemma del_app_l sm l r : absent sm r -> del sm (l ++ r) = del sm l ++ r.
Proof.
  intros H. induction l as [|a l IH]; simpl; [by apply del_absent|]. case_if; [done|]. by rewrite IH.
Qed.
Lemma del_app_r sm l r : absent sm l -> del sm (l ++ r) = l ++ del sm r.
Proof. induction 1 as [|a l Ha Hl IH]; simpl; [done|]. by rewrite (proj2 (Z.eqb_neq _ _) Ha), IH. Qed.

Lemma find_absent sm ks : absent sm ks -> find_sm sm ks = None.
Proof. unfold find_sm. induction 1 as [|a l Ha Hl IH]; simpl; [done|]. by rewrite (proj2 (Z.eqb_neq _ _) Ha). Qed.
Lemma find_app_l sm l r : absent sm r -> find_sm sm (l ++ r) = find_sm sm l.
Proof.
  intros H. induction l as [|a l IH]; [by apply find_absent|]. cbn [app]. unfold find_sm in *. simpl. by rewrite IH.
Qed.
Lemma find_app_r sm l r : absent sm l -> find_sm sm (l ++ r) = find_sm sm r.
Proof.
  unfold find_sm. induction 1 as [|a l Ha Hl IH]; simpl; [done|]. by rewrite (proj2 (Z.eqb_neq _ _) Ha).
Qed.

Lemma lookup_spec t sm : sorted (elements t) -> lookup t sm = find_sm sm (elements t).
Proof.
  induction t as [|l IHl k b r IHr]; intros Hs; [done|]. simpl in *.
  apply sorted_app_inv in Hs as (Sl & Sr & Fl & Fr).
  destruct (cmp_cases sm k) as [E|[[E L]|[E L]]]; rewrite E; simpl.
  - rewrite find_app_r by (by eapply absent_eq). unfold find_sm. simpl. by rewrite E.
  - rewrite IHl by done. symmetry. apply find_app_l. by apply absent_above.
  - rewrite IHr by done. symmetry. change (k :: elements r) with ([k] ++ elements r).
    rewrite app_assoc. apply find_app_r. by apply absent_below.
Qed.

(** ** Insertion *)

Lemma set_lr_mk l k b r sd x : set_lr (Node l k b r) sd x = mk sd x k b (if sd then l else r).
Proof. by destruct sd. Qed.

Lemma insert_sm_spec t sm :
  balanced t -> sorted (elements t) ->
  let '(t', grew, cnt) := insert_sm t sm in
  balanced t' /\ elements t' = ins sm (elements t) /\
  height t' = height t + (if grew then 1 else 0) /\
  (grew = true -> t <> NULL -> node_balance t' <> 0) /\
  Z.of_nat (length (elements t')) = Z.of_nat (length (elements t)) + cnt /\ t' <> NULL.
Proof.
  induction t as [|l IHl k b r IHr]; intros Bt Hs; [simpl; repeat split; done || lia|].
  pose proof Bt as (Bl & Br & _). cbn [insert_sm].
  pose proof Hs as Hs'. simpl in Hs'. apply sorted_app_inv in Hs' as (Sl & Sr & Fl & Fr).
  destruct (Z.eqb_spec (cmp_tracker sm k) 0) as [E|E].
  { split; [exact Bt|]. split; [simpl; by rewrite ins_here|]. split; [simpl; lia|]. split; [done|].
    split; [|done]. simpl. rewrite !length_app. simpl. lia. }
  set (sd := side (cmp_tracker sm k)).
  assert (cmp_tracker sm k = bal sd /\ if sd then lt_sm k sm else lt_sm sm k) as [Ec Hlt].
  { subst sd. destruct (cmp_cases sm k) as [?|[[-> L]|[-> L]]]; [done|by split..]. }
  assert (let '(t', grew, cnt) := insert_sm (if sd then r else l) sm in
    balanced t' /\ elements t' = ins sm (elements (if sd then r else l)) /\
    height t' = height (if sd then r else l) + (if grew then 1 else 0) /\
    (grew = true -> (if sd then r else l) <> NULL -> node_balance t' <> 0) /\
    Z.of_nat (length (elements t')) = Z.of_nat (length (elements (if sd then r else l))) + cnt /\ t' <> NULL) as IH
    by (destruct sd; [exact (IHr Br Sr)|exact (IHl Bl Sl)]).
  destruct (insert_sm (if sd then r else l) sm) as [[x grew] cnt]. clear IHl IHr.
  destruct IH as (B1 & E1 & H1 & N1 & C1 & _). rewrite set_lr_mk, Ec.
  assert (Node l k b r = mk sd (if sd then r else l) k b (if sd then l else r)) as Et by (by destruct sd).
  assert (elements (mk sd x k b (if sd then l else r)) = ins sm (elements (Node l k b r))) as Ee.
  { rewrite mk_elements. simpl. destruct sd; rewrite E1; [by rewrite ins_right|by rewrite ins_left]. }
  assert (Z.of_nat (length (elements (mk sd x k b (if sd then l else r)))) =
          Z.of_nat (length (elements (Node l k b r))) + cnt) as El.
  { rewrite mk_elements. simpl. destruct sd; rewrite !length_app; simpl; lia. }
  rewrite Et in Bt. destruct grew; cbn [negb].
  - destruct (sway_grow sd (if sd then r else l) x k b (if sd then l else r) Bt B1) as (A & B & C); auto.
    split; [done|]. split; [by rewrite B|]. split; [rewrite C, Et; lia|].
    split; [intros Hg _; by destruct (Z.eqb_spec (node_balance (sway (mk sd x k b (if sd then l else r)) (bal sd))) 0)|].
    split; [by rewrite B|]. intros Hn. rewrite Hn in B. apply (f_equal length) in B. rewrite mk_elements in B.
    destruct sd; rewrite length_app in B; simpl in B; lia.
  - split; [apply balanced_mk; apply balanced_mk in Bt; rewrite H1, Z.add_0_r; tauto|].
    split; [done|]. split; [rewrite Et, !mk_height, H1; lia|]. split; [done|]. split; [done|]. by destruct sd.
Qed.

(** ** Removal *)

Lemma removeExtremum_spec t sd :
  t <> NULL -> balanced t ->
  let '(x, shrunk, ret) := removeExtremum t sd in
  balanced x /\ height x = height t - (if shrunk then 1 else 0) /\
  exists k, ret = Some k /\
    elements t = if sd then elements x ++ [k] else k :: elements x.
Proof.
  induction t as [|l IHl k b r IHr]; intros Hne Bt; [done|].
  pose proof Bt as (Bl & Br & Eb & Rb). cbn [removeExtremum].
  destruct (null_or_not (if sd then r else l)) as [E|E].
  { rewrite E. pose proof (height_nonneg l). pose proof (height_nonneg r).
    destruct sd; subst; cbn [height elements app] in *; (split; [done|]; split; [lia|]; by exists k). }
  assert (let '(x, shrunk, ret) := removeExtremum (if sd then r else l) sd in
    balanced x /\ height x = height (if sd then r else l) - (if shrunk then 1 else 0) /\
    exists k, ret = Some k /\
      elements (if sd then r else l) = if sd then elements x ++ [k] else k :: elements x) as IH
    by (destruct sd; [exact (IHr E Br)|exact (IHl E Bl)]).
  assert (forall A (a b : A), match (if sd then r else l) with NULL => a | Node _ _ _ _ => b end = b) as Em
    by (intros A a c; by destruct (if sd then r else l)).
  rewrite Em. clear Em IHl IHr.
  destruct (removeExtremum (if sd then r else l) sd) as [[x shrunk] ret].
  destruct IH as (B1 & H1 & rk & -> & E1). rewrite set_lr_mk.
  assert (Node l k b r = mk sd (if sd then r else l) k b (if sd then l else r)) as Et by (by destruct sd).
  assert (elements (Node l k b r) =
    if sd then elements (mk sd x k b (if sd then l else r)) ++ [rk]
    else rk :: elements (mk sd x k b (if sd then l else r))) as Ee.
  { destruct sd; simpl; rewrite E1; [|done]. by rewrite <- app_assoc. }
  rewrite Et in Bt. destruct shrunk; cbn [negb].
  - destruct (sway_shrink sd (if sd then r else l) x k b (if sd then l else r) Bt B1 ltac:(lia)) as (A & B & C).
    split; [done|]. split; [by rewrite C, Et|]. exists rk. split; [done|]. by rewrite Ee, B.
  - split; [apply balanced_mk; apply balanced_mk in Bt; rewrite H1, Z.sub_0_r; tauto|].
    split; [rewrite Et, !mk_height, H1; lia|]. by exists rk.
Qed.

(** The node of the removed element has two children. *)
Lemma remove_here l k b r :
  l <> NULL -> r <> NULL -> balanced (Node l k b r) ->
  let sd := negb (b <=? 0) in
  let '(x, shrunk, replacement) := removeExtremum (if sd then r else l) (negb sd) in
  exists rk, replacement = Some rk /\
    let b' := if shrunk then b - bal sd else b in
    let t' := if sd then Node l rk b' x else Node x rk b' r in
    balanced t' /\ elements t' = elements l ++ elements r /\
    height t' = height (Node l k b r) - (if shrunk && (b' =? 0) then 1 else 0).
Proof.
  intros Nl Nr (Bl & Br & Eb & Rb) sd.
  pose proof (removeExtremum_spec (if sd then r else l) (negb sd)) as S.
  destruct (removeExtremum (if sd then r else l) (negb sd)) as [[x shrunk] ret].
  destruct S as (B1 & H1 & rk & -> & E1); [by destruct sd|by destruct sd|].
  exists rk. split; [done|].
  destruct (Z.leb_spec b 0); subst sd; cbn [negb bal] in *.
  - split; [cbn [balanced]; rewrite H1; destruct shrunk; intuition lia|].
    split; [cbn [elements]; rewrite E1, <- app_assoc; done|]. cbn [height]. rewrite H1.
    destruct shrunk; cbn [andb]; [|lia]. destruct (Z.eqb_spec (b - -1) 0); lia.
  - split; [cbn [balanced]; rewrite H1; destruct shrunk; intuition lia|].
    split; [cbn [elements]; rewrite E1; done|]. cbn [height]. rewrite H1.
    destruct shrunk; cbn [andb]; [|lia]. destruct (Z.eqb_spec (b - 1) 0); lia.
Qed.

Lemma remove_sm_spec t sm :
  balanced t -> sorted (elements t) ->
  let '(t', shrunk, ret) := remove_sm t sm in
  balanced t' /\ elements t' = del sm (elements t) /\
  height t' = height t - (if shrunk then 1 else 0) /\
  ret = find_sm sm (elements t).
Proof.
  induction t as [|l IHl k b r IHr]; intros Bt Hs; [simpl; repeat split; done || lia|].
  pose proof Bt as (Bl & Br & Eb & Rb). cbn [remove_sm].
  pose proof Hs as Hs'. simpl in Hs'. apply sorted_app_inv in Hs' as (Sl & Sr & Fl & Fr).
  destruct (Z.eqb_spec (cmp_tracker sm k) 0) as [E|E].
  - assert (del sm (elements (Node l k b r)) = elements l ++ elements r) as Ed.
    { simpl. rewrite del_app_r by (by eapply absent_eq). simpl. by rewrite E. }
    assert (find_sm sm (elements (Node l k b r)) = Some k) as Ef.
    { simpl. rewrite find_app_r by (by eapply absent_eq). unfold find_sm. simpl. by rewrite E. }
    rewrite Ed, Ef. pose proof (height_nonneg l). pose proof (height_nonneg r).
    destruct l as [|l1 lk lb l2] eqn:El; [split; [done|]; split; [done|]; cbn [height] in *; split; [lia|done]|].
    destruct r as [|r1 rk rb r2] eqn:Er;
      [split; [done|]; split; [by rewrite app_nil_r|]; cbn [height] in *; split; [lia|done]|].
    rewrite <- El, <- Er in *.
    pose proof (remove_here l k b r ltac:(by subst) ltac:(by subst) Bt) as S. cbv zeta in S.
    destruct (removeExtremum _ _) as [[x shrunk] ret]. destruct S as (nk & -> & A & B & C).
    destruct shrunk; cbn [negb andb] in *; (split; [done|]); (split; [done|]); (split; [|done]); rewrite C; done.
  - set (sd := side (cmp_tracker sm k)).
    assert (cmp_tracker sm k = bal sd /\ if sd then lt_sm k sm else lt_sm sm k) as [Ec Hlt].
    { subst sd. destruct (cmp_cases sm k) as [?|[[-> L]|[-> L]]]; [done|by split..]. }
    assert (let '(t', shrunk, ret) := remove_sm (if sd then r else l) sm in
      balanced t' /\ elements t' = del sm (elements (if sd then r else l)) /\
      height t' = height (if sd then r else l) - (if shrunk then 1 else 0) /\
      ret = find_sm sm (elements (if sd then r else l))) as IH
      by (destruct sd; [exact (IHr Br Sr)|exact (IHl Bl Sl)]).
    destruct (remove_sm (if sd then r else l) sm) as [[x shrunk] ret]. clear IHl IHr.
    destruct IH as (B1 & E1 & H1 & R1). rewrite set_lr_mk, Ec.
    assert (Node l k b r = mk sd (if sd then r else l) k b (if sd then l else r)) as Et by (by destruct sd).
    assert (elements (mk sd x k b (if sd then l else r)) = del sm (elements (Node l k b r)) /\
            ret = find_sm sm (elements (Node l k b r))) as [Ee Ef].
    { rewrite mk_elements. simpl. destruct sd; rewrite E1, R1.
      - assert (k :: elements r = [k] ++ elements r) as -> by done. rewrite !app_assoc.
        rewrite del_app_r, find_app_r by (by apply absent_below). by rewrite <- app_assoc.
      - rewrite del_app_l, find_app_l by (by apply absent_above). done. }
    rewrite Et in Bt. destruct shrunk; cbn [negb].
    + destruct (sway_shrink sd (if sd then r else l) x k b (if sd then l else r) Bt B1 ltac:(lia)) as (A & B & C).
      split; [done|]. split; [by rewrite B|]. split; [by rewrite C, Et|done].
    + split; [apply balanced_mk; apply balanced_mk in Bt; rewrite H1, Z.sub_0_r; tauto|].
      split; [done|]. split; [rewrite Et, !mk_height, H1; lia|done].
Qed.
(** ** Sorted lists as finite maps *)

Lemma Forall_ins (P : K -> Prop) sm ks : P sm -> Forall P ks -> Forall P (ins sm ks).
Proof. intros Hs. induction 1 as [|k ks Hk Hks IH]; simpl; [by constructor|]. repeat case_if; auto. Qed.

Lemma Forall_del (P : K -> Prop) sm ks : Forall P ks -> Forall P (del sm ks).
Proof. induction 1; simpl; [constructor|]. case_if; auto. Qed.

Lemma sorted_ins sm ks : sorted ks -> sorted (ins sm ks).
Proof.
  induction 1 as [|k ks Hk IH Hf]; simpl; [repeat constructor|].
  destruct (cmp_cases sm k) as [E|[[E L]|[E L]]]; rewrite E; simpl.
  - constructor; [done|]. eapply Forall_impl; [|exact Hf]. intros x. by apply eq_lt_trans.
  - constructor; [by constructor|]. constructor; [done|]. eapply Forall_impl; [|exact Hf].
    intros x. by apply lt_trans.
  - constructor; [done|]. by apply Forall_ins.
Qed.

Lemma sorted_del sm ks : sorted ks -> sorted (del sm ks).
Proof. induction 1 as [|k ks Hk IH Hf]; simpl; [constructor|]. case_if; [done|]. constructor; [done|]. by apply Forall_del. Qed.

(** An element above all others goes to the end. *)
Lemma ins_last sm ks : Forall (fun a => lt_sm a sm) ks -> ins sm ks = ks ++ [sm].
Proof.
  induction 1 as [|a ks Ha Hks IH]; simpl; [done|]. apply gt_lt in Ha.
  by rewrite (proj2 (Z.eqb_neq _ _)), (proj2 (Z.ltb_ge _ _)), IH by lia.
Qed.

Lemma cmp_eq_l a b c : cmp_tracker a b = 0 -> cmp_tracker a c = cmp_tracker b c.
Proof.
  intros H. assert (cmp_tracker b a = 0) as H' by (rewrite cmp_opp; lia).
  pose proof (cmp_opp a c) as Oac. pose proof (cmp_opp b c) as Obc.
  destruct (cmp_cases b c) as [E|[[E L]|[E L]]]; rewrite E.
  - pose proof (cmp_trans a b c). pose proof (cmp_trans c b a). lia.
  - pose proof (eq_lt_trans a b c H L) as L'. unfold lt_sm in L'. pose proof (cmp_values a c). lia.
  - pose proof (lt_eq_trans c b a L H') as L'. unfold lt_sm in L'. pose proof (cmp_values c a). lia.
Qed.

(** Looking up after an insertion or a removal. *)
Lemma find_ins sm k ks :
  find_sm k (ins sm ks) = if cmp_tracker k sm =? 0 then Some sm else find_sm k ks.
Proof.
  unfold find_sm. induction ks as [|a ks IH]; simpl; [done|].
  destruct (cmp_cases sm a) as [E|[[E L]|[E L]]]; rewrite E; simpl; [|done|].
  - destruct (cmp_tracker k sm =? 0) eqn:Es; [done|]. assert (cmp_tracker k a = cmp_tracker k sm) as ->; [|by rewrite Es].
    rewrite (cmp_opp a k), (cmp_opp sm k), (cmp_eq_l sm a k); done.
  - rewrite IH. destruct (Z.eqb_spec (cmp_tracker k a) 0) as [Ea|]; [|done].
    rewrite (proj2 (Z.eqb_neq _ _)); [done|]. rewrite (cmp_eq_l k a sm Ea), (cmp_opp sm a). lia.
Qed.

Lemma find_del sm k ks :
  sorted ks -> find_sm k (del sm ks) = if cmp_tracker k sm =? 0 then None else find_sm k ks.
Proof.
  unfold find_sm. induction 1 as [|a ks Hk IH Hf]; simpl; [by case_if|].
  destruct (Z.eqb_spec (cmp_tracker sm a) 0) as [E|E].
  - destruct (Z.eqb_spec (cmp_tracker k sm) 0) as [Es|Es].
    + assert (absent k ks) as Ha; [|exact (find_absent k ks Ha)]. eapply Forall_impl; [|exact Hf].
      intros x Hx. rewrite (cmp_eq_l k sm x Es), (cmp_eq_l sm a x E). unfold lt_sm in Hx. lia.
    + assert (cmp_tracker k a = cmp_tracker k sm) as ->; [|by rewrite (proj2 (Z.eqb_neq _ _) Es)].
      rewrite (cmp_opp a k), (cmp_opp sm k), (cmp_eq_l sm a k); done.
  - simpl. rewrite IH. destruct (Z.eqb_spec (cmp_tracker k a) 0) as [Ea|Ea]; [|done].
    rewrite (proj2 (Z.eqb_neq _ _)); [done|]. rewrite (cmp_eq_l k a sm Ea), (cmp_opp sm a). lia.
Qed.

Lemma length_ins sm ks :
  sorted ks -> length (ins sm ks) = match find_sm sm ks with Some _ => length ks | None => S (length ks) end.
Proof.
  induction 1 as [|a ks Hk IH Hf]; [done|]. cbn [ins].
  destruct (cmp_cases sm a) as [E|[[E L]|[E L]]].
  - unfold find_sm. simpl. by rewrite E.
  - rewrite (find_absent sm (a :: ks)) by (by apply absent_above). by rewrite E.
  - rewrite E. unfold find_sm in *. simpl. rewrite E. simpl. rewrite IH.
    by destruct (List.find _ ks).
Qed.

Lemma length_del sm ks :
  length ks = match find_sm sm ks with Some _ => S (length (del sm ks)) | None => length (del sm ks) end.
Proof.
  induction ks as [|a ks IH]; [done|]. unfold find_sm in *. simpl. case_if; [done|]. simpl.
  rewrite IH at 1. by destruct (List.find _ ks).
Qed.
End facts.

Abbreviation sorted := (StronglySorted lt_sm).

(** ** Traversal and invariants of AVL trees

    avl_foreach() visits the elements in order, with a stack that is lower
    than the tree; a tree with less than 2^64 elements is at most 91 high, so
    the stack of 100 nodes of an AvlIter does not overflow; and
    avl_check_invariants() is true of every balanced and sorted tree. *)

Section iter.
Context {K : Type} `{Tr : Tracker K}.
Implicit Types (t : AvlNode K).

(** ** Order of the traversal *)

Definition walk (dir : bool) t : list K := if dir then rev (elements t) else elements t.

(** What is visited from a node on: the node and its second side. *)
Definition rest (dir : bool) t : list K :=
  match t with NULL => [] | Node _ k _ _ => k :: walk dir (lr t (negb dir)) end.

Definition remaining (dir : bool) (it : AvlIter K) : list K :=
  rest dir (it_node it) ++ flat_map (rest dir) (it_stack it).

Lemma walk_node (dir : bool) l k b r :
  walk dir (Node l k b r) = walk dir (if dir then r else l) ++ k :: walk dir (if dir then l else r).
Proof. unfold walk. destruct dir; simpl; [|done]. rewrite rev_app_distr. simpl. by rewrite <- app_assoc. Qed.

Lemma descend_remaining dir t stack :
  t <> NULL ->
  remaining dir (descend dir t stack) = walk dir t ++ flat_map (rest dir) stack /\
  it_node (descend dir t stack) <> NULL.
Proof.
  revert stack. induction t as [|l IHl k b r IHr]; intros stack Ht; [done|]. rewrite walk_node.
  cbn [descend]. destruct (null_or_not (if dir then r else l)) as [E|E].
  - rewrite E. split; [|done]. unfold remaining, walk. simpl. by destruct dir.
  - assert (match (if dir then r else l) with
            | NULL => Iter (Node l k b r) stack
            | Node _ _ _ _ => descend dir (if dir then r else l) (Node l k b r :: stack)
            end = descend dir (if dir then r else l) (Node l k b r :: stack)) as ->
      by (by destruct (if dir then r else l)).
    destruct dir; [destruct (IHr (Node l k b r :: stack) E) as [A B]|destruct (IHl (Node l k b r :: stack) E) as [A B]];
      (split; [|done]); rewrite A; simpl; by rewrite <- ?app_assoc.
Qed.

(** The two ways avl_iter_next() goes on. *)
Lemma next_down (dir : bool) (l : AvlNode K) k b r stack :
  (if dir then l else r) <> NULL ->
  avl_iter_next dir (Iter (Node l k b r) stack) = descend dir (if dir then l else r) stack.
Proof. intros H. unfold avl_iter_next. destruct dir; cbn [it_node lr negb it_stack]; [by destruct l|by destruct r]. Qed.

Lemma next_up (dir : bool) (l : AvlNode K) k b r stack :
  (if dir then l else r) = NULL ->
  avl_iter_next dir (Iter (Node l k b r) stack) =
  match stack with top :: stack' => Iter top stack' | [] => Iter NULL [] end.
Proof. intros H. unfold avl_iter_next. destruct dir; cbn [it_node lr negb it_stack]; by rewrite H. Qed.

Lemma rest_node (dir : bool) (l : AvlNode K) k b r : rest dir (Node l k b r) = k :: walk dir (if dir then l else r).
Proof. by destruct dir. Qed.

Lemma next_remaining (dir : bool) (l : AvlNode K) k b r stack :
  Forall (fun t => t <> NULL) stack ->
  let it := avl_iter_next dir (Iter (Node l k b r) stack) in
  remaining dir (Iter (Node l k b r) stack) = k :: remaining dir it /\
  (it_node it = NULL -> remaining dir it = []).
Proof.
  intros Hn. unfold remaining at 1. cbn [it_node it_stack]. rewrite rest_node. cbv zeta.
  destruct (null_or_not (if dir then l else r)) as [N|N].
  - rewrite (next_up dir l k b r stack N), N. destruct Hn as [|top stack' Ht Hn]; [by destruct dir|].
    split; [by destruct dir|]. simpl. done.
  - rewrite (next_down dir l k b r stack N). destruct (descend_remaining dir _ stack N) as [A B].
    rewrite A. split; [done|]. intros E. by rewrite E in B.
Qed.

(** ** Depth of the stack *)

(** The nodes of the stack are ancestors: each is higher than the one above. *)
Definition path_ok (h : Z) (it : AvlIter K) : Prop :=
  StronglySorted (fun a b => height a < height b) (it_node it :: it_stack it) /\
  Forall (fun t => height t <= h) (it_node it :: it_stack it) /\
  Forall (fun t => t <> NULL) (it_stack it).

Lemma sorted_heights (ts : list (AvlNode K)) lo h :
  StronglySorted (fun a b => height a < height b) ts ->
  Forall (fun t => lo < height t <= h) ts -> ts <> [] -> Z.of_nat (length ts) <= h - lo.
Proof.
  intros Hs. revert lo. induction Hs as [|t ts Hs IH Ht]; intros lo Hf Hne; [done|].
  inversion_clear Hf as [|? ? [H1 H2] Hf']. destruct ts as [|u ts]; [simpl; lia|].
  assert (Z.of_nat (length (u :: ts)) <= h - (lo + 1)); [|simpl in *; lia].
  apply IH; [|done]. rewrite List.Forall_forall in *. intros y Hy. specialize (Hf' y Hy). specialize (Ht y Hy). lia.
Qed.

Lemma path_depth h it : path_ok h it -> Z.of_nat (length (it_stack it)) <= Z.max 0 (h - height (it_node it)).
Proof.
  intros (Hs & Hf & _). inversion_clear Hs as [|? ? Hs' Ht]. inversion_clear Hf as [|? ? H1 Hf'].
  destruct (it_stack it) as [|u ts] eqn:E; [simpl; lia|]. rewrite <- E in *.
  assert (Z.of_nat (length (it_stack it)) <= h - height (it_node it)); [|lia].
  apply sorted_heights; [done| |by rewrite E].
  rewrite List.Forall_forall in *. intros y Hy. specialize (Hf' y Hy). specialize (Ht y Hy). lia.
Qed.

Lemma descend_path h dir t stack :
  t <> NULL -> StronglySorted (fun a b => height a < height b) (t :: stack) ->
  Forall (fun t => height t <= h) (t :: stack) -> Forall (fun t => t <> NULL) stack ->
  path_ok h (descend dir t stack).
Proof.
  revert stack. induction t as [|l IHl k b r IHr]; intros stack Ht Hs Hf Hn; [done|].
  cbn [descend]. destruct (null_or_not (if dir then r else l)) as [E|E]; [by rewrite E|].
  assert (match (if dir then r else l) with
          | NULL => Iter (Node l k b r) stack
          | Node _ _ _ _ => descend dir (if dir then r else l) (Node l k b r :: stack)
          end = descend dir (if dir then r else l) (Node l k b r :: stack)) as ->
    by (by destruct (if dir then r else l)).
  assert (height (if dir then r else l) < height (Node l k b r)) as Hlt.
  { simpl. pose proof (height_nonneg l). pose proof (height_nonneg r). destruct dir; lia. }
  assert (StronglySorted (fun a b => height a < height b) ((if dir then r else l) :: Node l k b r :: stack)) as Hs'.
  { constructor; [done|]. inversion_clear Hs as [|? ? _ Hg]. constructor; [done|].
    eapply Forall_impl; [|exact Hg]. intros x Hx. cbv beta in Hx. lia. }
  assert (Forall (fun t => height t <= h) ((if dir then r else l) :: Node l k b r :: stack)) as Hf'.
  { constructor; [|done]. inversion_clear Hf. lia. }
  destruct dir; [apply IHr|apply IHl]; auto.
Qed.

Lemma next_path h dir it : path_ok h it -> path_ok h (avl_iter_next dir it).
Proof.
  destruct it as [node stack]. intros (Hs & Hf & Hn). cbn [it_node it_stack] in *.
  destruct node as [|l k b r]; [by repeat split|].
  inversion_clear Hs as [|? ? Hs' Hg]. inversion_clear Hf as [|? ? H1 Hf'].
  assert (height (if dir then l else r) < height (Node l k b r)) as Hlt.
  { simpl. pose proof (height_nonneg l). pose proof (height_nonneg r). destruct dir; lia. }
  destruct (null_or_not (if dir then l else r)) as [N|N].
  - rewrite (next_up dir l k b r stack N). destruct stack as [|top stack'].
    + split; simpl; [repeat constructor|]. split; [|constructor]. constructor; [|constructor].
      pose proof (height_nonneg (Node l k b r)). simpl in *. lia.
    + inversion_clear Hn. by split.
  - rewrite (next_down dir l k b r stack N). apply descend_path; [done| | |done].
    + constructor; [done|]. eapply Forall_impl; [|exact Hg]. intros x Hx. cbv beta in Hx. lia.
    + constructor; [lia|done].
Qed.

(** ** The whole traversal *)

Lemma traverse_spec h dir fuel it :
  path_ok h it -> (it_node it = NULL -> remaining dir it = []) ->
  (length (remaining dir it) <= fuel)%nat ->
  fst (traverse fuel dir it) = remaining dir it /\
  Z.of_nat (snd (traverse fuel dir it)) <= Z.max 0 h.
Proof.
  revert it. induction fuel as [|fuel IH]; intros it Hp Hnil Hlen.
  - destruct (remaining dir it) eqn:E; [|simpl in Hlen; lia]. split; [done|]. simpl.
    pose proof (path_depth h it Hp). pose proof (height_nonneg (it_node it)). lia.
  - pose proof (path_depth h it Hp) as D. pose proof (height_nonneg (it_node it)).
    destruct it as [[|l k b r] stack]; cbn [traverse iter_sm it_node it_stack] in *.
    { rewrite Hnil by done. split; [done|]. simpl. lia. }
    destruct (next_remaining dir l k b r stack) as [A B]; [apply Hp|].
    rewrite A in *. destruct (IH (avl_iter_next dir (Iter (Node l k b r) stack))) as [C E].
    + by apply next_path.
    + done.
    + simpl in Hlen. lia.
    + destruct (traverse fuel dir _) as [sms depth]. simpl in *. split; [by rewrite C|lia].
Qed.

(** avl_foreach() over a tree. *)
Lemma foreach_spec dir fuel t :
  (length (elements t) <= fuel)%nat ->
  fst (traverse fuel dir (avl_iter_begin t dir)) = walk dir t /\
  Z.of_nat (snd (traverse fuel dir (avl_iter_begin t dir))) <= Z.max 0 (height t).
Proof.
  intros Hlen. unfold avl_iter_begin. destruct (null_or_not t) as [->|Ht].
  { destruct fuel, dir; simpl; split; done || lia. }
  destruct (descend_remaining dir t [] Ht) as [A B].
  assert (remaining dir (descend dir t []) = walk dir t) as E by (rewrite A; apply app_nil_r).
  rewrite <- E. apply traverse_spec; [|by intros|].
  - apply descend_path; [done|repeat constructor|repeat constructor; lia|constructor].
  - rewrite E. unfold walk. destruct dir; by rewrite ?length_rev.
Qed.

(** ** Height and size *)

(** The least number of nodes of a tree of height [n], and of height [n + 1]. *)
Fixpoint least_nodes (n : nat) : Z * Z :=
  match n with
  | O => (0, 1)
  | S m => let '(a, b) := least_nodes m in (b, 1 + a + b)
  end.

Lemma countNode_length t : countNode t = Z.of_nat (length (elements t)).
Proof. induction t as [|l IHl k b r IHr]; simpl; [done|]. rewrite IHl, IHr, length_app. simpl. lia. Qed.

Lemma countNode_least t n :
  balanced t -> Z.of_nat n <= height t -> fst (least_nodes n) <= countNode t.
Proof.
  revert n. induction t as [|l IHl k b r IHr]; intros n Bt Hn; simpl in Hn.
  { destruct n; [simpl; lia|lia]. }
  destruct Bt as (Bl & Br & Eb & Rb).
  pose proof (height_nonneg l). pose proof (height_nonneg r).
  destruct n as [|[|m]]; cbn [countNode].
  - rewrite !countNode_length. simpl. lia.
  - rewrite !countNode_length. simpl. lia.
  - assert (fst (least_nodes (S (S m))) = 1 + fst (least_nodes m) + fst (least_nodes (S m))) as ->
      by (simpl; by destruct (least_nodes m)).
    destruct (Z.le_gt_cases (height l) (height r)).
    + pose proof (IHr (S m) Br ltac:(lia)). pose proof (IHl m Bl ltac:(lia)). lia.
    + pose proof (IHl (S m) Bl ltac:(lia)). pose proof (IHr m Br ltac:(lia)). lia.
Qed.

(** Less than 2^64 elements: at most 91 levels. *)
Lemma height_bound t : balanced t -> countNode t < two64 -> height t <= 91.
Proof.
  intros Bt Hc. destruct (Z.le_gt_cases (height t) 91) as [?|H]; [done|]. exfalso.
  pose proof (countNode_least t 92 Bt ltac:(lia)) as L.
  assert (two64 <= fst (least_nodes 92)) by (vm_compute; discriminate). lia.
Qed.

(** ** avl_check_invariants() *)

Lemma checkBalances_spec t : checkBalances t = Some (height t) <-> balanced t.
Proof.
  induction t as [|l IHl k b r IHr]; simpl; [done|].
  assert (forall (x : AvlNode K) h, checkBalances x = Some h -> h = height x) as Hh.
  { clear. induction x as [|l IHl k b r IHr]; simpl; [congruence|]. intros h.
    destruct (checkBalances l) as [h0|]; [|done]. destruct (checkBalances r) as [h1|]; [|done]. simpl.
    rewrite (IHl h0 eq_refl), (IHr h1 eq_refl). case_if; [done|]. intros [= <-]. case_if; zbool; lia. }
  split.
  - destruct (checkBalances l) as [h0|] eqn:E0; [|done]. destruct (checkBalances r) as [h1|] eqn:E1; [|done].
    simpl. apply Hh in E0 as ->. apply Hh in E1 as ->. case_if; [done|]. zbool. intros _.
    split; [by apply IHl|]. split; [by apply IHr|]. lia.
  - intros (Bl & Br & Eb & Rb). rewrite (proj2 IHl Bl), (proj2 IHr Br). simpl.
    rewrite (proj2 (Z.eqb_eq _ _) Eb), (proj2 (Z.ltb_ge _ _)) by lia. rewrite Z.gtb_ltb, (proj2 (Z.ltb_ge _ _)) by lia.
    simpl. f_equal. rewrite Z.gtb_ltb. destruct (Z.ltb_spec (height r) (height l)); lia.
Qed.

Lemma check_order_spec (ks : list K) : check_order ks = true <-> StronglySorted lt_sm ks.
Proof.
  induction ks as [|a ks IH]; [split; [constructor|done]|].
  destruct ks as [|b ks]; [split; [repeat constructor|done]|].
  assert (check_order (a :: b :: ks) = negb (cmp_tracker a b >=? 0) && check_order (b :: ks)) as -> by done.
  rewrite andb_true_iff, IH, negb_true_iff, Z.geb_leb, Z.leb_gt. split.
  - intros [H1 H2]. constructor; [done|]. inversion_clear H2 as [|? ? H3 H4].
    constructor; [done|]. eapply Forall_impl; [|exact H4]. intros c Hc. by apply (lt_trans a b c).
  - intros H. inversion_clear H as [|? ? H1 H2]. inversion_clear H2. done.
Qed.
End iter.
