(* ===== verification/Stree.v ===== *)
(** * State tables: the strees of avl.c and cmp_tracker() of smatch_slist.c

    An stree is a reference counted AVL tree of [struct sm_state] pointers.
    clone_stree() only counts a reference; a change of a tree with more than
    one reference first copies it.  The heap of strees is modelled with the
    reference counts, so that copies and aliases can be told apart: a handle is
    an address, a use of a freed stree or a failed assertion is [None]. *)
From S2P Require Import Prelude Avl.
From stdpp Require Import gmap.
#[local] Open Scope Z_scope.

(** ** sm_states and their order *)

(** The fields of [struct sm_state] the tables look at.  [sm_addr] is the
    address, which tells two sm_states with the same fields apart; a C string is
    the list of its bytes before the NUL, as unsigned char; [sym] and [state]
    are addresses, 0 for NULL. *)
Record sm_state : Set := SmState {
  sm_addr : Z;
  sm_name : list Z;
  owner : Z;
  sm_sym : Z;
  sm_line : Z;
  sm_st : Z
}.

#[export] Instance sm_state_eq_dec : EqDecision sm_state.
Proof. solve_decision. Defined.

Fixpoint strcmp (a b : list Z) : Z :=
  match a, b with
  | [], [] => 0
  | [], _ :: _ => -1
  | _ :: _, [] => 1
  | x :: a', y :: b' => if x <? y then -1 else if y <? x then 1 else strcmp a' b'
  end.

(** cmp_tracker() on two sm_states. *)
Definition cmp_sm (a b : sm_state) : Z :=
  if decide (a = b) then 0
  else if owner a <? owner b then -1
  else if owner a >? owner b then 1
  else
    let ret := strcmp (sm_name a) (sm_name b) in
    if ret <? 0 then -1
    else if ret >? 0 then 1
    else if (sm_sym b =? 0) && negb (sm_sym a =? 0) then -1
    else if (sm_sym a =? 0) && negb (sm_sym b =? 0) then 1
    else if sm_sym a <? sm_sym b then -1
    else if sm_sym a >? sm_sym b then 1
    else 0.

(** cmp_tracker() on pointers that may be NULL: NULL goes last. *)
Definition cmp_tracker_ptr (a b : option sm_state) : Z :=
  match a, b with
  | None, None => 0
  | Some _, None => -1
  | None, Some _ => 1
  | Some a, Some b => cmp_sm a b
  end.

(** *** cmp_tracker() is an order *)

(** A comparison the trees can use. *)
Record good_cmp {A} (f : A -> A -> Z) : Prop := {
  gc_values a b : f a b = -1 \/ f a b = 0 \/ f a b = 1;
  gc_refl a : f a a = 0;
  gc_opp a b : f b a = - f a b;
  gc_trans a b c : f a b <= 0 -> f b c <= 0 -> f a c <= 0 /\ (f a c = 0 -> f a b = 0 /\ f b c = 0)
}.

Definition on {A B} (p : A -> B) (f : B -> B -> Z) (a b : A) : Z := f (p a) (p b).
Definition lex {A} (f g : A -> A -> Z) (a b : A) : Z := if f a b =? 0 then g a b else f a b.
Definition ord3 (a b : Z) : Z := if a <? b then -1 else if a >? b then 1 else 0.

(** NULL symbols come after the others. *)
Definition null_last (a b : Z) : Z :=
  if (b =? 0) && negb (a =? 0) then -1 else if (a =? 0) && negb (b =? 0) then 1 else ord3 a b.

Ltac zcases :=
  rewrite ?Z.gtb_ltb; cbn [andb negb] in *;
  repeat match goal with
  | |- context [?a <? ?b] => destruct (Z.ltb_spec a b); cbn [andb negb] in *
  | |- context [?a =? ?b] => destruct (Z.eqb_spec a b); cbn [andb negb] in *
  end.

Lemma good_ord3 : good_cmp ord3.
Proof. split; unfold ord3; intros *; zcases; lia. Qed.

Lemma good_null_last : good_cmp null_last.
Proof. split; unfold null_last, ord3; intros *; zcases; lia. Qed.

Lemma good_on {A B} (p : A -> B) f : good_cmp f -> good_cmp (on p f).
Proof. intros [H1 H2 H3 H4]. unfold on. split; intros; auto. Qed.

Lemma good_lex {A} (f g : A -> A -> Z) : good_cmp f -> good_cmp g -> good_cmp (lex f g).
Proof.
  intros [F1 F2 F3 F4] [G1 G2 G3 G4]. unfold lex. split.
  - intros a b. destruct (f a b =? 0); auto.
  - intros a. rewrite F2. apply G2.
  - intros a b. rewrite (F3 a b). destruct (Z.eqb_spec (f a b) 0) as [->|]; simpl; [apply G3|].
    rewrite (proj2 (Z.eqb_neq _ _)); [done|lia].
  - intros a b c. pose proof (F4 a b c). pose proof (F4 c b a). pose proof (G4 a b c).
    pose proof (F3 a b). pose proof (F3 b c). pose proof (F3 a c).
    destruct (Z.eqb_spec (f a b) 0), (Z.eqb_spec (f b c) 0), (Z.eqb_spec (f a c) 0); intros; lia.
Qed.

Lemma strcmp_0 a b : strcmp a b = 0 <-> a = b.
Proof.
  revert b. induction a as [|x a IH]; intros [|y b]; simpl; try done.
  destruct (Z.ltb_spec x y), (Z.ltb_spec y x); [split; [done|intros [= -> ->]; lia]..|].
  assert (x = y) as -> by lia. rewrite IH. split; [by intros ->|by intros [= ->]].
Qed.

Lemma good_strcmp : good_cmp strcmp.
Proof.
  split.
  - induction a as [|x a IH]; destruct b as [|y b]; simpl; auto. zcases; auto.
  - induction a as [|x a IH]; simpl; [done|]. zcases; auto; lia.
  - induction a as [|x a IH]; destruct b as [|y b]; simpl; try done. zcases; auto; lia.
  - induction a as [|x a IH]; destruct b as [|y b], c as [|z c]; simpl; try lia.
    specialize (IH b c). zcases; lia.
Qed.

Definition cmp_fields : sm_state -> sm_state -> Z :=
  lex (on owner ord3) (lex (on sm_name strcmp) (on sm_sym null_last)).

Lemma good_cmp_fields : good_cmp cmp_fields.
Proof.
  apply good_lex; [apply good_on, good_ord3|]. apply good_lex; apply good_on; [apply good_strcmp|apply good_null_last].
Qed.

(** The address shortcut of cmp_tracker() changes nothing. *)
Lemma cmp_sm_fields a b : cmp_sm a b = cmp_fields a b.
Proof.
  unfold cmp_sm. destruct (decide (a = b)) as [<-|_]; [by rewrite gc_refl by apply good_cmp_fields|].
  unfold cmp_fields, lex, on, null_last, ord3.
  destruct (gc_values _ good_strcmp (sm_name a) (sm_name b)) as [->|[->| ->]]; zcases; try done; lia.
Qed.

#[export] Program Instance sm_tracker : Tracker sm_state := {| cmp_tracker := cmp_sm |}.
Next Obligation. intros. rewrite cmp_sm_fields. apply gc_values, good_cmp_fields. Qed.
Next Obligation. intros. rewrite cmp_sm_fields. apply gc_refl, good_cmp_fields. Qed.
Next Obligation. intros a b. rewrite !cmp_sm_fields. apply gc_opp, good_cmp_fields. Qed.
Next Obligation. intros a b c. rewrite !cmp_sm_fields. apply gc_trans, good_cmp_fields. Qed.

(** ** strees *)

(** [has_states] is the set of the owners whose byte is 1. *)
Record stree : Type := Stree {
  root : AvlNode sm_state;
  base_stree : option nat;
  has_states : gset Z;
  count : Z;
  stree_id : Z;
  references : Z;
  line : Z
}.

(** The strees that are allocated, the next address malloc() gives, and the
    counter unfree_stree. *)
Record heap : Type := Heap {
  trees : gmap nat stree;
  next_addr : nat;
  unfree_stree : Z
}.

(** [struct stree *] *)
Abbreviation ptr := (option nat).

Definition USHRT_MAX : Z := 65535.

Definition upd (h : heap) (a : nat) (t : stree) : heap :=
  Heap (<[a := t]> (trees h)) (next_addr h) (unfree_stree h).

Definition set_references (t : stree) (r : Z) : stree :=
  Stree (root t) (base_stree t) (has_states t) (count t) (stree_id t) r (line t).

Definition new_stree : stree := Stree NULL None ∅ 0 0 1 0.

(** Allocate a given stree: malloc() and unfree_stree. *)
Definition alloc (h : heap) (t : stree) : heap * nat :=
  (Heap (<[next_addr h := t]> (trees h)) (S (next_addr h)) (unfree_stree h + 1), next_addr h).

Definition avl_new (h : heap) : heap * nat := alloc h new_stree.

(** The handle is NULL afterwards. *)
Definition free_stree (h : heap) (avl : ptr) : option heap :=
  match avl with
  | None => Some h
  | Some a =>
    t ← trees h !! a;
    if negb (references t >? 0) then None
    else
      let r := references t - 1 in
      if negb (r =? 0) then Some (upd h a (set_references t r))
      else Some (Heap (base.delete a (trees h)) (next_addr h) (unfree_stree h - 1))
  end.

Definition avl_lookup (h : heap) (avl : ptr) (sm : sm_state) : option (option sm_state) :=
  match avl with
  | None => Some None
  | Some a =>
    t ← trees h !! a;
    if negb (owner sm =? USHRT_MAX) && negb (bool_decide (owner sm ∈ has_states t)) then Some None
    else Some (Avl.lookup (root t) sm)
  end.

Definition stree_count (h : heap) (avl : ptr) : option Z :=
  match avl with
  | None => Some 0
  | Some a => t ← trees h !! a; Some (count t)
  end.

(** What avl_insert() does to a tree with one reference: the owner is noted,
    and insert_sm() sets the line. *)
Definition insert_owned (t : stree) (sm : sm_state) : stree :=
  let has := if negb (owner sm =? USHRT_MAX) then {[owner sm]} ∪ has_states t else has_states t in
  let '(r, _, cnt) := insert_sm (root t) sm in
  Stree r (base_stree t) has (count t + cnt) (stree_id t) (references t) (sm_line sm).

(** avl_foreach(i, avl) *)
Definition foreach (t : stree) (dir : bool) : list sm_state :=
  fst (traverse (Z.to_nat (countNode (root t))) dir (avl_iter_begin (root t) dir)).

(** clone_stree_real(): the elements are inserted one by one in a new tree,
    which has one reference all along. *)
Definition clone_stree_real (h : heap) (orig : nat) : option (heap * nat) :=
  t ← trees h !! orig;
  let new := foldl insert_owned new_stree (foreach t false) in
  Some (alloc h (Stree (root new) (base_stree t) (has_states new) (count new) (stree_id new)
                       (references new) (line new))).

(** The tree a change through [avl] may be made in: a tree with other
    references is left to them, and copied. *)
Definition own (h : heap) (a : nat) : option (heap * nat) :=
  t ← trees h !! a;
  if references t >? 1 then clone_stree_real (upd h a (set_references t (references t - 1))) a
  else Some (h, a).

(** The heap, the handle and the return value. *)
Definition avl_insert (h : heap) (avl : ptr) (sm : sm_state) : option (heap * ptr * bool) :=
  let '(h, a) := match avl with None => avl_new h | Some a => (h, a) end in
  '(h, a) ← own h a;
  t ← trees h !! a;
  let t' := insert_owned t sm in
  Some (upd h a t', Some a, negb (count t' =? count t)).

Definition avl_remove (h : heap) (avl : ptr) (sm : sm_state) : option (heap * ptr * bool) :=
  match avl with
  | None => Some (h, None, false)
  | Some a =>
    '(h, a) ← own h a;
    t ← trees h !! a;
    let '(r, _, node) := remove_sm (root t) sm in
    let cnt := match node with Some _ => count t - 1 | None => count t end in
    let found := match node with Some _ => true | None => false end in
    let h := upd h a (Stree r (base_stree t) (has_states t) cnt (stree_id t) (references t) (line t)) in
    if cnt =? 0 then h ← free_stree h (Some a); Some (h, None, found)
    else Some (h, Some a, found)
  end.

Definition clone_stree (h : heap) (orig : ptr) : option (heap * ptr) :=
  match orig with
  | None => Some (h, None)
  | Some a => t ← trees h !! a; Some (upd h a (set_references t (references t + 1)), Some a)
  end.

Definition set_stree_id (h : heap) (avl : ptr) (id : Z) : option (heap * ptr) :=
  match avl with
  | None => None
  | Some a =>
    t ← trees h !! a;
    '(h, a) ← (if negb (stree_id t =? 0) then clone_stree_real h a else Some (h, a));
    t ← trees h !! a;
    Some (upd h a (Stree (root t) (base_stree t) (has_states t) (count t) id (references t) (line t)), Some a)
  end.

Definition get_stree_id (h : heap) (avl : ptr) : option Z :=
  match avl with
  | None => Some (-1)
  | Some a => t ← trees h !! a; Some (stree_id t)
  end.

Definition avl_check_invariants (t : stree) : bool :=
  bool_decide (is_Some (checkBalances (root t))) && check_order (foreach t false) &&
  (countNode (root t) =? count t).

(** ** Lookup and update by owner, name and symbol: smatch_slist.c *)

(** The [struct tracker] a table is searched with: it starts like an sm_state;
    its owner is an unsigned short. *)
Definition tracker (own : Z) (name : list Z) (sym : Z) : sm_state :=
  SmState 0 name (own mod (USHRT_MAX + 1)) sym 0 0.

(** A name that is NULL is [None]. *)
Definition get_sm_state_stree (h : heap) (s : ptr) (own : Z) (name : option (list Z)) (sym : Z) :
    option (option sm_state) :=
  match name with
  | None => Some None
  | Some name => avl_lookup h s (tracker own name sym)
  end.

(** The address of the smatch_state, 0 for NULL. *)
Definition get_state_stree (h : heap) (s : ptr) (own : Z) (name : option (list Z)) (sym : Z) : option Z :=
  match name with
  | None => Some 0
  | Some _ => sm ← get_sm_state_stree h s own name sym; Some (match sm with Some sm => sm_st sm | None => 0 end)
  end.

Definition overwrite_sm_state_stree (h : heap) (s : ptr) (new : sm_state) : option (heap * ptr) :=
  '(h, s, _) ← avl_insert h s new; Some (h, s).

(** delete_state_stree() *)
Definition delete_state_stree (h : heap) (s : ptr) (own : Z) (name : list Z) (sym : Z) : option (heap * ptr) :=
  '(h, s, _) ← avl_remove h s (tracker own name sym); Some (h, s).

(** The elements FOR_EACH_SM() visits. *)
Definition for_each_sm (h : heap) (s : ptr) : option (list sm_state) :=
  match s with
  | None => Some []
  | Some a => t ← trees h !! a; Some (foreach t false)
  end.

Fixpoint overwrite_all (h : heap) (s : ptr) (sms : list sm_state) : option (heap * ptr) :=
  match sms with
  | [] => Some (h, s)
  | tmp :: rest => '(h, s) ← overwrite_sm_state_stree h s tmp; overwrite_all h s rest
  end.

Definition overwrite_stree (h : heap) (from to : ptr) : option (heap * ptr) :=
  sms ← for_each_sm h from; overwrite_all h to sms.

(** The loop of filter_stree(): two iterators, and the elements that are put
    in [results]. *)
Fixpoint filter_loop (fuel : nat) (one two : list sm_state) : list sm_state :=
  match fuel with
  | O => []
  | S f =>
    match head one, head two with
    | None, None => []
    | a, b =>
      if cmp_tracker_ptr a b <? 0 then
        match a with Some sm => sm :: filter_loop f (tail one) two | None => [] end
      else if cmp_tracker_ptr a b =? 0 then
        match a with
        | Some sm =>
          if bool_decide (a = b) then filter_loop f (tail one) (tail two)
          else sm :: filter_loop f (tail one) (tail two)
        | None => []
        end
      else filter_loop f one (tail two)
    end
  end.

Definition filter_stree (h : heap) (s filter : ptr) : option (heap * ptr) :=
  one ← for_each_sm h s;
  two ← for_each_sm h filter;
  '(h, results) ← overwrite_all h None (filter_loop (length one + length two) one two);
  h ← free_stree h s;
  Some (h, results).
