(* ===== verification/StreeFacts.v ===== *)
(** * Facts about strees: sharing and copy on write

    The handles of the program are a list of pointers.  In a well formed heap
    every handle points to a live stree, every stree is a balanced and sorted
    tree with the right count, and its reference count is the number of handles
    to it plus a slack, the references that were never given back.  Every
    operation on one handle keeps the heap well formed, acts on the elements
    behind that handle as an operation on sorted lists, and leaves the elements
    behind every other handle alone. *)
From Stdlib Require Import Sorted.
From stdpp Require Import gmap.
From S2P Require Import Prelude Avl AvlFacts Stree.
#[local] Open Scope Z_scope.

(** ** One tree *)

Definition wf_stree (t : stree) : Prop :=
  balanced (root t) /\ sorted (elements (root t)) /\
  count t = Z.of_nat (length (elements (root t))) /\
  Forall (fun sm => owner sm = USHRT_MAX \/ owner sm ∈ has_states t) (elements (root t)).

Lemma foreach_elements t : foreach t false = elements (root t).
Proof. unfold foreach. apply (foreach_spec false). rewrite countNode_length. lia. Qed.

Lemma foreach_walk t dir : foreach t dir = walk dir (root t).
Proof. unfold foreach. apply (foreach_spec dir). rewrite countNode_length. lia. Qed.

Lemma check_invariants_wf t : wf_stree t -> avl_check_invariants t = true.
Proof.
  intros (B & S & C & _). unfold avl_check_invariants.
  rewrite (proj2 (checkBalances_spec _) B), foreach_elements, (proj2 (check_order_spec _) S), countNode_length, C.
  by rewrite Z.eqb_refl.
Qed.

Lemma wf_new_stree : wf_stree new_stree.
Proof. repeat split; constructor. Qed.

Lemma insert_owned_spec t sm :
  wf_stree t ->
  wf_stree (insert_owned t sm) /\ elements (root (insert_owned t sm)) = ins sm (elements (root t)) /\
  references (insert_owned t sm) = references t /\ base_stree (insert_owned t sm) = base_stree t /\
  1 <= count (insert_owned t sm).
Proof.
  intros (B & S & C & F). unfold insert_owned. pose proof (insert_sm_spec (root t) sm B S) as I.
  destruct (insert_sm (root t) sm) as [[r grew] cnt]. destruct I as (B' & E & _ & _ & L & N).
  unfold wf_stree. cbn [root count has_states references base_stree]. rewrite E.
  assert (1 <= Z.of_nat (length (elements r))).
  { destruct r as [|l k b r]; [done|]. simpl. rewrite length_app. simpl. lia. }
  rewrite E in *. repeat split; auto; [by apply sorted_ins|lia| |lia].
  apply Forall_ins.
  - destruct (Z.eqb_spec (owner sm) USHRT_MAX); [by left|right]. cbn [negb]. set_solver.
  - eapply Forall_impl; [|exact F]. intros x [Hx|Hx]; [by left|right]. case_if; set_solver.
Qed.

(** Whether the count changes tells if the key was there. *)
Lemma insert_owned_count t sm :
  wf_stree t ->
  negb (count (insert_owned t sm) =? count t) =
  match find_sm sm (elements (root t)) with Some _ => false | None => true end.
Proof.
  intros W. destruct (insert_owned_spec t sm W) as ((_ & _ & C' & _) & E & _). destruct W as (_ & S & C & _).
  rewrite C', C, E, length_ins by done. destruct (find_sm sm (elements (root t))).
  - by rewrite Z.eqb_refl.
  - rewrite (proj2 (Z.eqb_neq _ _)); [done|lia].
Qed.

(** The copy of clone_stree_real(). *)
Lemma foldl_insert_owned ks t :
  wf_stree t -> sorted (elements (root t) ++ ks) -> (ks <> [] \/ 1 <= count t) ->
  let t' := foldl insert_owned t ks in
  wf_stree t' /\ elements (root t') = elements (root t) ++ ks /\ references t' = references t /\ 1 <= count t'.
Proof.
  revert t. induction ks as [|k ks IH]; intros t W S N; simpl.
  { rewrite app_nil_r. destruct N; [done|]. auto. }
  destruct (insert_owned_spec t k W) as (W' & E & R & _ & P).
  apply sorted_app_inv in S as S'. destruct S' as (_ & _ & Fl & _).
  rewrite (ins_last k _ Fl) in E.
  destruct (IH (insert_owned t k)) as (A & B & C & D); [done| |by right|].
  - by rewrite E, <- app_assoc.
  - rewrite B, E, <- app_assoc, C. auto.
Qed.

(** ** Heaps and handles *)

Definition handles (a : nat) (vs : list ptr) : Z := Z.of_nat (length (filter (fun p => p = Some a) vs)).

Record wf_heap (slack : nat -> Z) (h : heap) (vs : list ptr) : Prop := {
  wf_trees a t : trees h !! a = Some t ->
    wf_stree t /\ 1 <= count t /\ references t = handles a vs + slack a /\ 1 <= references t;
  wf_live a : Some a ∈ vs -> is_Some (trees h !! a);
  wf_fresh a : (next_addr h <= a)%nat -> trees h !! a = None /\ slack a = 0;
  wf_slack a : 0 <= slack a;
  wf_unfree : unfree_stree h = Z.of_nat (size (trees h))
}.

Definition contents (h : heap) (p : ptr) : list sm_state :=
  match p with
  | None => []
  | Some a => match trees h !! a with Some t => elements (root t) | None => [] end
  end.

#[global] Arguments contents : simpl never.

(** The elements behind the handles [vs] are the same in both heaps. *)
Definition unchanged (vs : list ptr) (h h' : heap) : Prop := Forall (fun p => contents h' p = contents h p) vs.

Lemma handles_cons a p vs : handles a (p :: vs) = (if decide (p = Some a) then 1 else 0) + handles a vs.
Proof. unfold handles. rewrite filter_cons. case_decide; simpl; lia. Qed.

Lemma handles_nonneg a vs : 0 <= handles a vs.
Proof. unfold handles. lia. Qed.

Lemma handles_0 a vs : handles a vs = 0 -> Some a ∉ vs.
Proof.
  induction vs as [|p vs IH]; [set_solver|]. rewrite handles_cons. pose proof (handles_nonneg a vs).
  case_decide; [lia|]. intros. apply not_elem_of_cons. split; [congruence|]. apply IH. lia.
Qed.

Lemma handles_notin a vs : Some a ∉ vs -> handles a vs = 0.
Proof.
  induction vs as [|p vs IH]; [done|]. rewrite not_elem_of_cons, handles_cons. intros [H1 H2].
  rewrite decide_False by congruence. by apply IH.
Qed.

#[export] Instance wf_heap_perm slack h : Proper ((≡ₚ) ==> iff) (wf_heap slack h).
Proof.
  assert (forall vs vs', vs ≡ₚ vs' -> wf_heap slack h vs -> wf_heap slack h vs') as D.
  { intros vs vs' P [W1 W2 W3 W4 W5]. split; auto.
    - intros a t Ht. specialize (W1 a t Ht). unfold handles in *. by rewrite <- P.
    - intros a. rewrite <- P. apply W2. }
  intros vs vs' P. split; apply D; [done|by symmetry].
Qed.

#[export] Instance unchanged_perm : Proper ((≡ₚ) ==> (=) ==> (=) ==> iff) unchanged.
Proof. intros vs vs' P h ? <- h' ? <-. unfold unchanged. by rewrite P. Qed.

Lemma wf_heap_null slack h vs : wf_heap slack h (None :: vs) <-> wf_heap slack h vs.
Proof.
  split; intros [W1 W2 W3 W4 W5]; (split; [intros a t Ht|intros a Ha|done|done|done]).
  - specialize (W1 a t Ht). by rewrite handles_cons in W1.
  - apply W2. by right.
  - rewrite handles_cons. by apply W1.
  - apply W2. by apply elem_of_cons in Ha as [?|?].
Qed.

Lemma unchanged_intro vs h h' :
  (forall b, Some b ∈ vs -> contents h' (Some b) = contents h (Some b)) -> unchanged vs h h'.
Proof. intros H. apply List.Forall_forall. intros [b|] Hb; [|done]. apply H. by apply list_elem_of_In. Qed.

Lemma unchanged_refl vs h : unchanged vs h h.
Proof. by apply Forall_true. Qed.

Lemma unchanged_trans vs h1 h2 h3 : unchanged vs h1 h2 -> unchanged vs h2 h3 -> unchanged vs h1 h3.
Proof.
  unfold unchanged. rewrite !List.Forall_forall. intros A B p Hp. by rewrite B, A.
Qed.

(** ** The steps the operations are made of *)

(** A change of a tree that keeps its elements and its reference count in
    step with the handles. *)
Lemma wf_upd slack h vs vs' a t t' :
  wf_heap slack h vs -> trees h !! a = Some t ->
  wf_stree t' -> 1 <= count t' -> references t' = handles a vs' + slack a -> 1 <= references t' ->
  (forall b, b <> a -> handles b vs' = handles b vs) ->
  (forall b, Some b ∈ vs' -> Some b ∈ vs \/ b = a) ->
  wf_heap slack (upd h a t') vs'.
Proof.
  intros [W1 W2 W3 W4 W5] Ht Wt C R R1 Hh Hv. split; cbn [trees upd next_addr unfree_stree].
  - intros b u. rewrite lookup_insert. case_decide as E; [intros [= <-]; by subst|].
    intros Hu. rewrite Hh by done. by apply W1.
  - intros b Hb. rewrite lookup_insert. case_decide; [done|]. apply W2. destruct (Hv b Hb); [done|congruence].
  - intros b Hb. destruct (W3 b Hb) as [A B]. split; [|done]. rewrite lookup_insert. case_decide; [congruence|done].
  - done.
  - rewrite map_size_insert, Ht. done.
Qed.

(** The elements of the other handles are unchanged. *)
Lemma unchanged_upd_same h a t t' vs :
  trees h !! a = Some t -> elements (root t') = elements (root t) -> unchanged vs h (upd h a t').
Proof.
  intros Ht E. apply unchanged_intro. intros b _. unfold contents. cbn [trees upd].
  rewrite lookup_insert. case_decide as Eb; [subst; by rewrite Ht|done].
Qed.

Lemma unchanged_upd_other h a t' vs : Some a ∉ vs -> unchanged vs h (upd h a t').
Proof.
  intros Hn. apply unchanged_intro. intros b Hb. unfold contents. cbn [trees upd].
  rewrite lookup_insert_ne; [done|]. intros ->. contradiction.
Qed.

Lemma wf_alloc slack h vs t :
  wf_heap slack h vs -> wf_stree t -> 1 <= count t -> references t = 1 ->
  let '(h', a) := alloc h t in
  wf_heap slack h' (Some a :: vs) /\ trees h' !! a = Some t /\ unchanged vs h h' /\ Some a ∉ vs.
Proof.
  intros W Wt C R. unfold alloc. pose proof W as [W1 W2 W3 W4 W5].
  destruct (W3 (next_addr h) ltac:(done)) as [N S0].
  assert (Some (next_addr h) ∉ vs) as Hv.
  { intros Hin. destruct (W2 _ Hin). congruence. }
  pose proof (handles_notin _ _ Hv) as H0.
  split; [split; cbn [trees next_addr unfree_stree]|split; [cbn [trees]; by rewrite lookup_insert_eq|]].
  - intros b u. rewrite lookup_insert, handles_cons. case_decide as E.
    + intros [= <-]. subst b. rewrite decide_True by done. repeat split; try done; try apply Wt; lia.
    + intros Hu. rewrite decide_False by congruence. by apply W1.
  - intros b Hb. rewrite lookup_insert. case_decide; [done|]. apply W2.
    apply elem_of_cons in Hb as [?|?]; [congruence|done].
  - intros b Hb. destruct (W3 b ltac:(lia)) as [A B]. split; [|done]. rewrite lookup_insert_ne; [done|lia].
  - done.
  - rewrite map_size_insert, N. lia.
  - split; [|done]. apply unchanged_intro. intros b Hb. unfold contents. cbn [trees].
    rewrite lookup_insert_ne; [done|]. intros <-. contradiction.
Qed.

(** The last reference goes, with the tree. *)
Lemma wf_delete slack h vs a t :
  wf_heap slack h (Some a :: vs) -> trees h !! a = Some t -> references t = 1 ->
  let h' := Heap (base.delete a (trees h)) (next_addr h) (unfree_stree h - 1) in
  wf_heap slack h' vs /\ unchanged vs h h'.
Proof.
  intros W Ht R. pose proof W as [W1 W2 W3 W4 W5].
  destruct (W1 a t Ht) as (_ & _ & Hr & _). rewrite handles_cons, decide_True in Hr by done.
  pose proof (handles_nonneg a vs). pose proof (W4 a).
  assert (Some a ∉ vs) as Hn by (apply handles_0; lia).
  split; [split; cbn [trees next_addr unfree_stree]|].
  - intros b u. rewrite lookup_delete_Some. intros [Hb Hu]. specialize (W1 b u Hu).
    rewrite handles_cons, decide_False in W1 by congruence. done.
  - intros b Hb. rewrite lookup_delete_ne; [apply W2; by right|]. intros <-. contradiction.
  - intros b Hb. destruct (W3 b Hb) as [A B]. split; [|done]. by rewrite lookup_delete_None; right.
  - done.
  - rewrite W5. rewrite map_size_delete, Ht. assert (size (trees h) <> 0)%nat; [|lia].
    apply map_size_non_empty_iff. intros E. by rewrite E, lookup_empty in Ht.
  - apply unchanged_intro. intros b Hb. unfold contents. cbn [trees].
    rewrite lookup_delete_ne; [done|]. intros <-. contradiction.
Qed.

(** ** The operations on one handle, the others being [vs] *)

Lemma clone_real_spec slack h vs a t :
  wf_heap slack h vs -> trees h !! a = Some t ->
  exists h' a' t', clone_stree_real h a = Some (h', a') /\ wf_heap slack h' (Some a' :: vs) /\
    trees h' !! a' = Some t' /\ references t' = 1 /\ elements (root t') = elements (root t) /\
    unchanged vs h h' /\ Some a' ∉ vs.
Proof.
  intros W Ht. destruct (wf_trees _ _ _ W a t Ht) as ((_ & S & C & _) & C1 & _).
  unfold clone_stree_real. rewrite Ht. simpl. rewrite foreach_elements.
  destruct (foldl_insert_owned (elements (root t)) new_stree wf_new_stree S) as (A & B & R & D).
  { left. intros E. rewrite E in C. simpl in C. lia. }
  set (new := foldl insert_owned new_stree (elements (root t))) in *.
  set (new' := Stree (root new) (base_stree t) (has_states new) (count new) (stree_id new) (references new) (line new)).
  pose proof (wf_alloc slack h vs new' W A D R) as P. destruct (alloc h new') as [h' a'].
  destruct P as (P1 & P2 & P3 & P4). exists h', a', new'. auto 8.
Qed.

Lemma own_spec slack h vs a :
  wf_heap slack h (Some a :: vs) ->
  exists h' a' t', own h a = Some (h', a') /\ wf_heap slack h' (Some a' :: vs) /\
    trees h' !! a' = Some t' /\ references t' = 1 /\ elements (root t') = contents h (Some a) /\
    unchanged vs h h' /\ Some a' ∉ vs.
Proof.
  intros W. destruct (wf_live _ _ _ W a) as [t Ht]; [by left|].
  destruct (wf_trees _ _ _ W a t Ht) as (Wt & C & R & R1). pose proof R as R'.
  rewrite handles_cons, decide_True in R by done.
  unfold own, contents. rewrite Ht. simpl. rewrite Z.gtb_ltb. destruct (Z.ltb_spec 1 (references t)).
  - set (t1 := set_references t (references t - 1)).
    assert (wf_heap slack (upd h a t1) vs) as W1.
    { refine (wf_upd slack h (Some a :: vs) vs a t t1 W Ht Wt C _ _ _ _); subst t1; cbn [references set_references].
      - lia.
      - lia.
      - intros b Hb. rewrite handles_cons, decide_False by congruence. done.
      - intros b Hb. left. by right. }
    assert (trees (upd h a t1) !! a = Some t1) as Ht1 by (apply lookup_insert_eq).
    destruct (clone_real_spec slack (upd h a t1) vs a t1 W1 Ht1) as (h' & a' & t' & E & A & B & D & F & G & I).
    exists h', a', t'. rewrite E. split_and!; auto.
    eapply unchanged_trans; [|exact G]. by eapply unchanged_upd_same.
  - exists h, a, t. split_and!; auto; [lia|apply unchanged_refl|]. apply handles_0.
    pose proof (handles_nonneg a vs). pose proof (wf_slack _ _ _ W a). lia.
Qed.

(** The tree of an owned handle is replaced. *)
Lemma upd_owned slack h vs a t t' :
  wf_heap slack h (Some a :: vs) -> trees h !! a = Some t -> references t = 1 -> Some a ∉ vs ->
  wf_stree t' -> 1 <= count t' -> references t' = 1 ->
  wf_heap slack (upd h a t') (Some a :: vs) /\ contents (upd h a t') (Some a) = elements (root t') /\
  unchanged vs h (upd h a t').
Proof.
  intros W Ht R Hn Wt C R'. split; [|split].
  - destruct (wf_trees _ _ _ W a t Ht) as (_ & _ & E & _).
    refine (wf_upd slack h (Some a :: vs) (Some a :: vs) a t t' W Ht Wt C _ _ _ _); [lia|lia|done|by left].
  - unfold contents. cbn [trees upd]. by rewrite lookup_insert_eq.
  - by apply unchanged_upd_other.
Qed.

(** The result of an operation on the handle [p] with the others [vs]: a new
    handle whose elements are [ks], and nothing else has changed. *)
Definition becomes (slack : nat -> Z) (h : heap) (vs : list ptr) (h' : heap) (p' : ptr) (ks : list sm_state) : Prop :=
  wf_heap slack h' (p' :: vs) /\ contents h' p' = ks /\ unchanged vs h h'.

Lemma avl_insert_spec slack h vs p sm :
  wf_heap slack h (p :: vs) ->
  exists h' p', avl_insert h p sm =
      Some (h', p', match find_sm sm (contents h p) with Some _ => false | None => true end) /\
    becomes slack h vs h' p' (ins sm (contents h p)).
Proof.
  intros W. unfold avl_insert. destruct p as [a|].
  - destruct (own_spec slack h vs a W) as (h1 & a1 & t1 & E & W1 & Ht & R & Ec & U & N).
    rewrite E. simpl. rewrite Ht. simpl.
    destruct (wf_trees _ _ _ W1 a1 t1 Ht) as (Wt & _).
    destruct (insert_owned_spec t1 sm Wt) as (A & B & C & _ & D).
    destruct (upd_owned slack h1 vs a1 t1 _ W1 Ht R N A D ltac:(lia)) as (X & Y & Z).
    eexists _, _. split; [by rewrite insert_owned_count, Ec|]. split; [exact X|].
    split; [by rewrite Y, B, Ec|]. by eapply unchanged_trans.
  - apply (proj1 (wf_heap_null _ _ _)) in W. destruct (insert_owned_spec new_stree sm wf_new_stree) as (A & B & C & _ & D).
    pose proof (wf_alloc slack h vs _ W A D C) as P. unfold alloc in P. destruct P as (P1 & P2 & P3 & P4).
    unfold avl_new, alloc, own. simpl. rewrite lookup_insert_eq. simpl. rewrite lookup_insert_eq. simpl.
    unfold upd. simpl. rewrite insert_insert_eq.
    eexists _, _. split; [reflexivity|]. split; [exact P1|]. split; [|exact P3].
    unfold contents. cbn [trees]. by rewrite lookup_insert_eq, B.
Qed.

Lemma free_stree_spec slack h vs p :
  wf_heap slack h (p :: vs) ->
  exists h', free_stree h p = Some h' /\ wf_heap slack h' vs /\ unchanged vs h h'.
Proof.
  intros W. destruct p as [a|]; simpl.
  2:{ exists h. split; [done|]. split; [by apply (proj1 (wf_heap_null _ _ _)) in W|apply unchanged_refl]. }
  destruct (wf_live _ _ _ W a) as [t Ht]; [by left|]. rewrite Ht. simpl.
  destruct (wf_trees _ _ _ W a t Ht) as (Wt & C & R & R1). rewrite handles_cons, decide_True in R by done.
  rewrite Z.gtb_ltb, (proj2 (Z.ltb_lt _ _)) by lia. cbn [negb].
  destruct (Z.eqb_spec (references t - 1) 0) as [E|E]; cbn [negb].
  - destruct (wf_delete slack h vs a t W Ht ltac:(lia)) as [A B]. eauto.
  - eexists. split; [reflexivity|]. split; [|by eapply unchanged_upd_same].
    refine (wf_upd slack h (Some a :: vs) vs a t (set_references t (references t - 1)) W Ht Wt C _ _ _ _);
      cbn [references set_references]; [lia|lia| |].
    + intros b Hb. rewrite handles_cons, decide_False by congruence. done.
    + intros b Hb. left. by right.
Qed.

Lemma avl_remove_spec slack h vs p sm :
  wf_heap slack h (p :: vs) ->
  exists h' p', avl_remove h p sm =
      Some (h', p', match find_sm sm (contents h p) with Some _ => true | None => false end) /\
    becomes slack h vs h' p' (del sm (contents h p)).
Proof.
  intros W. unfold avl_remove. destruct p as [a|].
  2:{ exists h, None. split; [done|]. split; [done|]. split; [done|apply unchanged_refl]. }
  destruct (own_spec slack h vs a W) as (h1 & a1 & t1 & E & W1 & Ht & R & Ec & U & N).
  rewrite E. simpl. rewrite Ht. simpl. rewrite <- Ec.
  destruct (wf_trees _ _ _ W1 a1 t1 Ht) as ((B & S & C & F) & C1 & _).
  pose proof (remove_sm_spec (root t1) sm B S) as P. destruct (remove_sm (root t1) sm) as [[r shrunk] node].
  destruct P as (B' & E' & _ & Ef). subst node. set (node := find_sm sm (elements (root t1))) in *.
  set (cnt := match node with Some _ => count t1 - 1 | None => count t1 end).
  assert (cnt = Z.of_nat (length (elements r))) as Ecnt.
  { rewrite E'. subst cnt. pose proof (length_del sm (elements (root t1))) as L. fold node in L.
    rewrite C. destruct node; lia. }
  set (t2 := Stree r (base_stree t1) (has_states t1) cnt (stree_id t1) (references t1) (line t1)).
  destruct (Z.eqb_spec cnt 0) as [Z0|Z0].
  - simpl. rewrite lookup_insert_eq. simpl. rewrite R. simpl. rewrite delete_insert_eq.
    destruct (wf_delete slack h1 vs a1 t1 W1 Ht R) as [X Y].
    eexists _, _. split; [reflexivity|]. split; [by apply wf_heap_null|].
    split; [|by eapply unchanged_trans]. rewrite <- E'. destruct (elements r); [done|simpl in Ecnt; lia].
  - assert (wf_stree t2) as W2.
    { split_and!; cbn [root count has_states t2]; [done|by rewrite E'; apply sorted_del|done|].
      rewrite E'. by apply Forall_del. }
    destruct (upd_owned slack h1 vs a1 t1 t2 W1 Ht R N W2) as (X & Y & Z); [cbn; lia|done|].
    eexists _, _. split; [reflexivity|]. split; [exact X|]. split; [by rewrite Y, <- E'|].
    by eapply unchanged_trans.
Qed.

Lemma clone_stree_spec slack h vs p :
  wf_heap slack h (p :: vs) ->
  exists h', clone_stree h p = Some (h', p) /\ wf_heap slack h' (p :: p :: vs) /\ unchanged (p :: vs) h h'.
Proof.
  intros W. destruct p as [a|]; simpl.
  2:{ exists h. split; [done|]. split; [by apply (proj2 (wf_heap_null _ _ _))|apply unchanged_refl]. }
  destruct (wf_live _ _ _ W a) as [t Ht]; [by left|]. rewrite Ht. simpl.
  destruct (wf_trees _ _ _ W a t Ht) as (Wt & C & R & R1).
  eexists. split; [reflexivity|]. split; [|by eapply unchanged_upd_same].
  refine (wf_upd slack h (Some a :: vs) _ a t (set_references t (references t + 1)) W Ht Wt C _ _ _ _);
    cbn [references set_references].
  - rewrite handles_cons, decide_True by done. lia.
  - lia.
  - intros b Hb. rewrite handles_cons, decide_False by congruence. done.
  - intros b Hb. apply elem_of_cons in Hb as [?|?]; [|by left]. right. congruence.
Qed.

(** set_stree_id() of a tree that has an id copies it, and never gives the
    reference to the old tree back. *)
Lemma set_stree_id_spec slack h vs p id :
  wf_heap slack h (p :: vs) -> p <> None ->
  exists h' p' slack', set_stree_id h p id = Some (h', p') /\
    becomes slack' h vs h' p' (contents h p) /\ get_stree_id h' p' = Some id /\
    (get_stree_id h p = Some 0 -> slack' = slack /\ p' = p).
Proof.
  intros W Hp. destruct p as [a|]; [|done]. simpl.
  destruct (wf_live _ _ _ W a) as [t Ht]; [by left|]. rewrite Ht. simpl.
  destruct (wf_trees _ _ _ W a t Ht) as (Wt & C & R & R1).
  destruct (Z.eqb_spec (stree_id t) 0) as [E|E]; simpl.
  - rewrite Ht. simpl. eexists _, _, slack. split; [reflexivity|]. unfold becomes. split_and!.
    + refine (wf_upd slack h (Some a :: vs) _ a t _ W Ht _ _ _ _ _ _).
      * exact Wt.
      * exact C.
      * exact R.
      * exact R1.
      * done.
      * by left.
    + unfold contents. cbn [trees upd]. by rewrite lookup_insert_eq, Ht.
    + by eapply unchanged_upd_same.
    + simpl. by rewrite lookup_insert_eq.
    + done.
  - rewrite handles_cons, decide_True in R by done.
    set (slack' := fun b => if decide (b = a) then slack b + 1 else slack b).
    assert (wf_heap slack' h vs) as W'.
    { destruct W as [W1 W2 W3 W4 W5]. split; [intros b u Hu|intros b Hb|intros b Hb|intros b|done]; subst slack'; cbv beta.
      - specialize (W1 b u Hu). rewrite handles_cons in W1. case_decide; case_decide; try congruence; [|done].
        intuition lia.
      - apply W2. by right.
      - destruct (W3 b Hb) as [A B]. split; [done|]. rewrite decide_False by congruence. done.
      - specialize (W4 b). case_decide; lia. }
    destruct (clone_real_spec slack' h vs a t W' Ht) as (h1 & a1 & t1 & Ec & W1 & Ht1 & R' & Ee & U & N).
    rewrite Ec. simpl. rewrite Ht1. simpl.
    destruct (wf_trees _ _ _ W1 a1 t1 Ht1) as (Wt1 & C1' & _).
    set (t2 := Stree (root t1) (base_stree t1) (has_states t1) (count t1) id (references t1) (line t1)).
    destruct (upd_owned slack' h1 vs a1 t1 t2 W1 Ht1 R' N Wt1 C1' R') as (X & Y & Z).
    exists (upd h1 a1 t2), (Some a1), slack'. split; [reflexivity|]. unfold becomes. split_and!.
    + exact X.
    + rewrite Y. unfold contents. rewrite Ht. exact Ee.
    + by eapply unchanged_trans.
    + simpl. by rewrite lookup_insert_eq.
    + intros [= E']. contradiction.
Qed.

(** ** Reading *)

(** Two sm_states that compare equal have the same owner. *)
Lemma cmp_sm_owner a b : cmp_tracker a b = 0 -> owner a = owner b.
Proof.
  cbn [cmp_tracker sm_tracker]. rewrite cmp_sm_fields. unfold cmp_fields.
  set (g := lex (on sm_name strcmp) (on sm_sym null_last)). unfold lex, on, ord3. zcases; lia.
Qed.

Lemma avl_lookup_spec slack h vs p sm :
  wf_heap slack h vs -> p ∈ vs -> avl_lookup h p sm = Some (find_sm sm (contents h p)).
Proof.
  intros W Hp. destruct p as [a|]; [|done]. unfold contents. simpl.
  destruct (wf_live _ _ _ W a Hp) as [t Ht]. rewrite Ht. simpl.
  destruct (wf_trees _ _ _ W a t Ht) as ((B & S & C & F) & _).
  rewrite lookup_spec by done. destruct (_ && _) eqn:H; [|done]. apply andb_true_iff in H as [H1 H2].
  apply negb_true_iff, Z.eqb_neq in H1. apply negb_true_iff, bool_decide_eq_false in H2.
  rewrite find_absent; [done|]. eapply Forall_impl; [|exact F]. intros x Hx E. cbv beta in Hx.
  apply cmp_sm_owner in E. rewrite <- E in Hx. tauto.
Qed.

Lemma stree_count_spec slack h vs p :
  wf_heap slack h vs -> p ∈ vs -> stree_count h p = Some (Z.of_nat (length (contents h p))).
Proof.
  intros W Hp. destruct p as [a|]; [|done]. unfold contents. simpl.
  destruct (wf_live _ _ _ W a Hp) as [t Ht]. rewrite Ht. simpl.
  destruct (wf_trees _ _ _ W a t Ht) as ((B & S & C & F) & _). by rewrite C.
Qed.

Lemma for_each_sm_spec slack h vs p :
  wf_heap slack h vs -> p ∈ vs -> for_each_sm h p = Some (contents h p).
Proof.
  intros W Hp. destruct p as [a|]; [|done]. unfold contents. simpl.
  destruct (wf_live _ _ _ W a Hp) as [t Ht]. rewrite Ht. simpl. by rewrite foreach_elements.
Qed.

(** A handle is NULL exactly when it has no elements. *)
Lemma contents_null slack h vs p : wf_heap slack h vs -> p ∈ vs -> (contents h p = [] <-> p = None).
Proof.
  intros W Hp. destruct p as [a|]; [|done]. unfold contents.
  destruct (wf_live _ _ _ W a Hp) as [t Ht]. rewrite Ht.
  destruct (wf_trees _ _ _ W a t Ht) as ((B & S & C & F) & C1 & _).
  split; [|done]. intros E. rewrite E in C. simpl in C. lia.
Qed.

Lemma contents_sorted slack h vs p : wf_heap slack h vs -> p ∈ vs -> sorted (contents h p).
Proof.
  intros W Hp. destruct p as [a|]; [|constructor]. unfold contents.
  destruct (wf_live _ _ _ W a Hp) as [t Ht]. rewrite Ht.
  apply (wf_trees _ _ _ W a t Ht).
Qed.

(** ** overwrite_stree() and filter_stree() *)

Lemma unchanged_cons p vs h h' : unchanged (p :: vs) h h' <-> contents h' p = contents h p /\ unchanged vs h h'.
Proof. unfold unchanged. split; [intros H; by inversion_clear H|intros [? ?]; by constructor]. Qed.

Lemma overwrite_all_spec slack vs sms : forall h p,
  wf_heap slack h (p :: vs) ->
  exists h' p', overwrite_all h p sms = Some (h', p') /\
    becomes slack h vs h' p' (foldl (fun ks sm => ins sm ks) (contents h p) sms).
Proof.
  induction sms as [|sm sms IH]; intros h p W; cbn [overwrite_all foldl].
  { exists h, p. split; [done|]. split; [done|]. split; [done|apply unchanged_refl]. }
  unfold overwrite_sm_state_stree.
  destruct (avl_insert_spec slack h vs p sm W) as (h1 & p1 & E & W1 & C1 & U1). rewrite E. simpl.
  destruct (IH h1 p1 W1) as (h2 & p2 & E2 & W2 & C2 & U2). rewrite E2, C1 in *.
  exists h2, p2. split; [done|]. split; [done|]. split; [done|]. by eapply unchanged_trans.
Qed.

(** Sorted lists: inserting all the elements from the empty table. *)
Lemma foldl_ins_sorted (ks acc : list sm_state) :
  sorted (acc ++ ks) -> foldl (fun ks sm => ins sm ks) acc ks = acc ++ ks.
Proof.
  revert acc. induction ks as [|k ks IH]; intros acc S; simpl; [by rewrite app_nil_r|].
  pose proof S as S'. apply sorted_app_inv in S' as (_ & _ & F & _).
  rewrite (ins_last k acc F), IH by (by rewrite <- app_assoc). by rewrite <- app_assoc.
Qed.

Lemma filter_loop_nil_l fuel two : filter_loop fuel [] two = [].
Proof. revert two. induction fuel as [|f IH]; intros [|b two]; simpl; auto. Qed.

Lemma lt_sm_ne (a b : sm_state) : lt_sm a b -> a <> b.
Proof. intros H ->. unfold lt_sm in H. rewrite cmp_refl in H. lia. Qed.

Lemma above_notin (a : sm_state) ks : Forall (lt_sm a) ks -> a ∉ ks.
Proof. induction 1 as [|k ks Hk Hks IH]; [apply not_elem_of_nil|]. apply not_elem_of_cons. split; [by apply lt_sm_ne|done]. Qed.

Lemma filter_notin_cons (b : sm_state) two ks :
  Forall (fun x => x <> b) ks -> filter (fun sm => sm ∉ b :: two) ks = filter (fun sm => sm ∉ two) ks.
Proof.
  induction 1 as [|x l Hx Hl IH]; [done|]. rewrite !filter_cons, IH.
  destruct (decide (x ∉ b :: two)) as [A|A], (decide (x ∉ two)) as [B|B]; rewrite not_elem_of_cons in A; tauto || done.
Qed.

(** filter_stree() keeps what is not also in the filter. *)
Lemma filter_loop_spec fuel one two :
  sorted one -> sorted two -> (length one + length two <= fuel)%nat ->
  filter_loop fuel one two = filter (fun sm => sm ∉ two) one.
Proof.
  revert one two. induction fuel as [|f IH]; intros one two S1 S2 L.
  { destruct one; [done|simpl in L; lia]. }
  destruct one as [|a one]; [apply filter_loop_nil_l|]. destruct two as [|b two]; simpl in L.
  { cbn [filter_loop head cmp_tracker_ptr tail]. simpl. apply StronglySorted_inv in S1 as [S1 _].
    rewrite IH by (done || (simpl; lia)).
    rewrite filter_cons, decide_True by (apply not_elem_of_nil). done. }
  inversion S1 as [|? ? S3 F1]; subst. inversion S2 as [|? ? S4 F2]; subst.
  cbn [filter_loop head cmp_tracker_ptr tail].
  destruct (cmp_cases a b) as [E|[[E Lt]|[E Lt]]]; cbn [cmp_tracker sm_tracker] in E; rewrite E; simpl.
  - assert (Forall (fun x => x <> b) one) as Fb.
    { eapply Forall_impl; [|exact F1]. intros x Hx. apply not_eq_sym, lt_sm_ne. eapply eq_lt_trans; [|exact Hx].
      rewrite (cmp_opp a b). simpl. lia. }
    assert (a ∉ two) as Ha.
    { apply above_notin. eapply Forall_impl; [|exact F2]. intros x. by apply eq_lt_trans. }
    rewrite filter_cons, filter_notin_cons by done. rewrite IH by (done || lia). case_bool_decide as Eab.
    + injection Eab as ->. rewrite decide_False by set_solver. done.
    + rewrite decide_True; [done|]. apply not_elem_of_cons. split; [congruence|done].
  - rewrite IH by (done || (simpl; lia)). rewrite filter_cons, decide_True; [done|].
    apply above_notin. constructor; [done|]. eapply Forall_impl; [|exact F2]. intros x. by apply lt_trans.
  - rewrite IH by (done || (simpl; lia)). rewrite (filter_notin_cons b two (a :: one)); [done|].
    constructor; [by apply not_eq_sym, lt_sm_ne|]. eapply Forall_impl; [|exact F1]. intros x Hx.
    apply not_eq_sym, lt_sm_ne. by eapply lt_trans.
Qed.

Lemma sorted_filter (P : sm_state -> Prop) `{!forall x, Decision (P x)} ks : sorted ks -> sorted (filter P ks).
Proof.
  induction 1 as [|k ks S IH F]; [constructor|]. rewrite filter_cons. case_decide; [|done].
  constructor; [done|]. clear -F. induction F; [constructor|]. rewrite filter_cons. case_decide; auto.
Qed.

Lemma overwrite_stree_spec slack h vs from p :
  wf_heap slack h (p :: vs) -> from ∈ p :: vs ->
  exists h' p', overwrite_stree h from p = Some (h', p') /\
    becomes slack h vs h' p' (foldl (fun ks sm => ins sm ks) (contents h p) (contents h from)).
Proof.
  intros W Hf. unfold overwrite_stree. rewrite (for_each_sm_spec slack h (p :: vs) from W Hf). simpl.
  by apply overwrite_all_spec.
Qed.

Lemma filter_stree_spec slack h vs f p :
  wf_heap slack h (p :: vs) -> f ∈ p :: vs ->
  exists h' p', filter_stree h p f = Some (h', p') /\
    becomes slack h vs h' p' (filter (fun sm => sm ∉ contents h f) (contents h p)).
Proof.
  intros W Hf. assert (p ∈ p :: vs) as Hp by (by left).
  pose proof (contents_sorted _ _ _ _ W Hp) as Sp. pose proof (contents_sorted _ _ _ _ W Hf) as Sf.
  unfold filter_stree. rewrite (for_each_sm_spec slack h (p :: vs) p W Hp). simpl.
  rewrite (for_each_sm_spec slack h (p :: vs) f W Hf). simpl. rewrite filter_loop_spec by done.
  set (ks := filter _ (contents h p)).
  destruct (overwrite_all_spec slack (p :: vs) ks h None) as (h1 & p1 & E & W1 & C1 & U1);
    [by apply (proj2 (wf_heap_null _ _ _))|].
  rewrite E. simpl. rewrite foldl_ins_sorted in C1 by (by apply sorted_filter). cbn [app] in C1.
  assert (wf_heap slack h1 (p :: p1 :: vs)) as W1' by (by rewrite (Permutation_swap p1 p vs)).
  destruct (free_stree_spec slack h1 (p1 :: vs) p W1') as (h2 & E2 & W2 & U2). rewrite E2. simpl.
  apply unchanged_cons in U1 as [_ U1]. apply unchanged_cons in U2 as [U2' U2].
  exists h2, p1. split; [done|]. split; [done|]. split; [by rewrite U2', C1|]. by eapply unchanged_trans.
Qed.
