(* ===== verification/StreeWorld.v ===== *)
(** * A program that works with state tables

    The program's variables of type [struct stree *] and the heap of strees,
    with the operations of avl.c and smatch_slist.c on variables as one step
    each, and an abstract machine in which every variable simply holds its own
    sorted list of sm_states.  The machine with reference counts, shared trees
    and copies on write implements the abstract one. *)
From stdpp Require Import gmap.
From S2P Require Import Prelude Avl AvlFacts Stree StreeFacts.
#[local] Open Scope Z_scope.

(** ** Operations on variables *)

Inductive op : Type :=
  | Insert (v : nat) (sm : sm_state)     (* avl_insert(&v, sm) *)
  | Remove (v : nat) (sm : sm_state)     (* avl_remove(&v, sm) *)
  | Lookup (v : nat) (sm : sm_state)     (* avl_lookup(v, sm) *)
  | Count (v : nat)                      (* stree_count(v) *)
  | ForEach (v : nat)                    (* FOR_EACH_SM(v, sm) *)
  | Clone (dst src : nat)                (* free_stree(&dst); dst = clone_stree(src) *)
  | Free (v : nat)                       (* free_stree(&v) *)
  | Overwrite (from to : nat)            (* overwrite_stree(from, &to) *)
  | Filter (v f : nat)                   (* filter_stree(&v, f) *)
  | SetId (v : nat) (id : Z).            (* set_stree_id(&v, id) *)

(** What an operation returns or visits. *)
Inductive out : Type :=
  | Unit
  | Bool (b : bool)
  | Num (n : Z)
  | Sms (sms : list sm_state).

Record world : Type := World { mem : heap; vars : list ptr }.

Definition set_var (w : world) (v : nat) (r : heap * ptr) : world := World r.1 (<[v := r.2]> (vars w)).

(** A use of freed memory, a failed assertion, a NULL dereference or a variable
    that is not declared is [None]. *)
Definition run_op (w : world) (o : op) : option (world * out) :=
  let h := mem w in
  match o with
  | Insert v sm =>
    p ← vars w !! v; '(h, p, b) ← avl_insert h p sm; Some (set_var w v (h, p), Bool b)
  | Remove v sm =>
    p ← vars w !! v; '(h, p, b) ← avl_remove h p sm; Some (set_var w v (h, p), Bool b)
  | Lookup v sm =>
    p ← vars w !! v; r ← avl_lookup h p sm; Some (w, Sms (match r with Some sm => [sm] | None => [] end))
  | Count v => p ← vars w !! v; n ← stree_count h p; Some (w, Num n)
  | ForEach v => p ← vars w !! v; sms ← for_each_sm h p; Some (w, Sms sms)
  | Clone dst src =>
    p ← vars w !! dst; h ← free_stree h p;
    let w := set_var w dst (h, None) in
    q ← vars w !! src; '(h, q) ← clone_stree h q; Some (set_var w dst (h, q), Unit)
  | Free v => p ← vars w !! v; h ← free_stree h p; Some (set_var w v (h, None), Unit)
  | Overwrite from to =>
    q ← vars w !! from; p ← vars w !! to; r ← overwrite_stree h q p; Some (set_var w to r, Unit)
  | Filter v f =>
    p ← vars w !! v; q ← vars w !! f; r ← filter_stree h p q; Some (set_var w v r, Unit)
  | SetId v id => p ← vars w !! v; r ← set_stree_id h p id; Some (set_var w v r, Unit)
  end.

Fixpoint run (w : world) (os : list op) : option (world * list out) :=
  match os with
  | [] => Some (w, [])
  | o :: os => '(w, x) ← run_op w o; '(w, xs) ← run w os; Some (w, x :: xs)
  end.

(** The program starts with [n] variables that are NULL. *)
Definition start (n : nat) : world := World (Heap ∅ 0 0) (replicate n None).

(** ** The abstract machine: one list per variable *)

Abbreviation tables := (list (list sm_state)).

(** The elements of [ks] that are not, as the same sm_state, in [fs]. *)
Definition minus (fs ks : list sm_state) : list sm_state := filter (fun sm => sm ∉ fs) ks.

Definition spec_op (m : tables) (o : op) : option (tables * out) :=
  match o with
  | Insert v sm =>
    ks ← m !! v;
    Some (<[v := ins sm ks]> m, Bool (match find_sm sm ks with Some _ => false | None => true end))
  | Remove v sm =>
    ks ← m !! v;
    Some (<[v := del sm ks]> m, Bool (match find_sm sm ks with Some _ => true | None => false end))
  | Lookup v sm => ks ← m !! v; Some (m, Sms (match find_sm sm ks with Some sm => [sm] | None => [] end))
  | Count v => ks ← m !! v; Some (m, Num (Z.of_nat (length ks)))
  | ForEach v => ks ← m !! v; Some (m, Sms ks)
  | Clone dst src =>
    _ ← m !! dst; let m := <[dst := []]> m in ks ← m !! src; Some (<[dst := ks]> m, Unit)
  | Free v => _ ← m !! v; Some (<[v := []]> m, Unit)
  | Overwrite from to =>
    fs ← m !! from; ks ← m !! to; Some (<[to := foldl (fun ks sm => ins sm ks) ks fs]> m, Unit)
  | Filter v f => ks ← m !! v; fs ← m !! f; Some (<[v := minus fs ks]> m, Unit)
  | SetId v id => ks ← m !! v; match ks with [] => None | _ => Some (m, Unit) end
  end.

Fixpoint spec_run (m : tables) (os : list op) : option (tables * list out) :=
  match os with
  | [] => Some (m, [])
  | o :: os => '(m, x) ← spec_op m o; '(m, xs) ← spec_run m os; Some (m, x :: xs)
  end.

(** ** Refinement *)

Definition tables_of (w : world) : tables := map (contents (mem w)) (vars w).
Definition wf_world (slack : nat -> Z) (w : world) : Prop := wf_heap slack (mem w) (vars w).

Lemma vars_perm (vs : list ptr) v p : vs !! v = Some p -> vs ≡ₚ p :: base.delete v vs.
Proof. intros H. by apply delete_Permutation. Qed.

Lemma vars_insert_perm (vs : list ptr) v p q : vs !! v = Some p -> <[v := q]> vs ≡ₚ q :: base.delete v vs.
Proof.
  intros H. rewrite insert_take_drop by (by eapply lookup_lt_Some). rewrite delete_take_drop.
  symmetry. apply Permutation_middle.
Qed.

Lemma tables_set w v h' p p' ks :
  vars w !! v = Some p -> contents h' p' = ks -> unchanged (base.delete v (vars w)) (mem w) h' ->
  tables_of (set_var w v (h', p')) = <[v := ks]> (tables_of w).
Proof.
  intros Hv Hk U. unfold tables_of, set_var. cbn [mem vars fst snd].
  pose proof (lookup_lt_Some _ _ _ Hv) as L.
  rewrite (insert_take_drop (vars w)), (insert_take_drop (map _ _)) by (by rewrite ?length_map).
  rewrite map_app. cbn [map]. rewrite firstn_map, skipn_map.
  unfold unchanged in U. rewrite delete_take_drop in U. apply Forall_app in U as [U1 U2].
  f_equal; [|f_equal; [done|]]; by apply map_ext_Forall.
Qed.

Lemma tables_lookup w v ks : tables_of w !! v = Some ks -> exists p, vars w !! v = Some p /\ contents (mem w) p = ks.
Proof. intros H. apply list_lookup_fmap_Some in H as (p & -> & H). eauto. Qed.

(** One variable changes: the others see nothing of it. *)
Lemma set_var_spec slack slack' w v p h' p' ks :
  wf_world slack w -> vars w !! v = Some p ->
  becomes slack' (mem w) (base.delete v (vars w)) h' p' ks ->
  wf_world slack' (set_var w v (h', p')) /\ tables_of (set_var w v (h', p')) = <[v := ks]> (tables_of w).
Proof.
  intros W Hv (W' & C & U). split; [|by eapply tables_set].
  unfold wf_world, set_var. cbn [mem vars fst snd]. by rewrite (vars_insert_perm _ _ _ _ Hv).
Qed.

Lemma wf_at slack w v p :
  wf_world slack w -> vars w !! v = Some p -> wf_heap slack (mem w) (p :: base.delete v (vars w)).
Proof. intros W Hv. unfold wf_world in W. by rewrite (vars_perm _ _ _ Hv) in W. Qed.

Lemma var_in w v q u p :
  vars w !! v = Some q -> vars w !! u = Some p -> q ∈ p :: base.delete u (vars w).
Proof. intros Hv Hu. rewrite <- (vars_perm _ _ _ Hu). by eapply list_elem_of_lookup_2. Qed.

(** free_stree(&v) *)
Lemma free_var_spec slack w v p :
  wf_world slack w -> vars w !! v = Some p ->
  exists h', free_stree (mem w) p = Some h' /\ wf_world slack (set_var w v (h', None)) /\
    tables_of (set_var w v (h', None)) = <[v := []]> (tables_of w).
Proof.
  intros W Hv. destruct (free_stree_spec _ _ _ _ (wf_at _ _ _ _ W Hv)) as (h' & E & W' & U).
  exists h'. split; [done|]. eapply set_var_spec; [done|done|].
  split; [by apply (proj2 (wf_heap_null _ _ _))|]. by split.
Qed.

(** clone_stree(src) into a variable that is NULL *)
Lemma clone_var_spec slack w dst src q :
  wf_world slack w -> vars w !! dst = Some None -> vars w !! src = Some q ->
  exists h', clone_stree (mem w) q = Some (h', q) /\ wf_world slack (set_var w dst (h', q)) /\
    tables_of (set_var w dst (h', q)) = <[dst := contents (mem w) q]> (tables_of w).
Proof.
  intros W Hd Hs. pose proof (wf_at _ _ _ _ W Hs) as Wq.
  destruct (clone_stree_spec _ _ _ _ Wq) as (h' & E & W' & U). exists h'. split; [done|].
  rewrite <- (vars_perm _ _ _ Hs) in W', U.
  rewrite (vars_perm _ _ _ Hd), (Permutation_swap None q) in W'. apply (proj1 (wf_heap_null _ _ _)) in W'.
  eapply set_var_spec; [done|done|]. split; [exact W'|].
  pose proof U as Uq. unfold unchanged in Uq. rewrite List.Forall_forall in Uq.
  split; [apply Uq, list_elem_of_In; by eapply list_elem_of_lookup_2|].
  rewrite (vars_perm _ _ _ Hd) in U. by apply unchanged_cons in U as [_ U].
Qed.

Definition is_set_id (o : op) : bool := match o with SetId _ _ => true | _ => false end.

(** Every step of the abstract machine is a step of the program. *)
Lemma run_op_refines slack w o m' x :
  wf_world slack w -> spec_op (tables_of w) o = Some (m', x) ->
  exists w' slack', run_op w o = Some (w', x) /\ wf_world slack' w' /\ tables_of w' = m' /\
    (is_set_id o = false -> slack' = slack).
Proof.
  intros W Hs.
  destruct o as [v sm|v sm|v sm|v|v|dst src|v|from to|v f|v id]; cbn [spec_op run_op] in *;
    apply bind_Some in Hs as (ks & Hk & Hs); apply tables_lookup in Hk as (p & Hv & Hc); rewrite Hv; cbn [mbind option_bind];
    pose proof (wf_at _ _ _ _ W Hv) as Wp; pose proof (list_elem_of_lookup_2 _ _ _ Hv) as Hin.
  - destruct (avl_insert_spec _ _ _ _ sm Wp) as (h' & p' & E & B). rewrite E, Hc in *. simplify_eq/=.
    destruct (set_var_spec _ _ _ _ _ _ _ _ W Hv B). eauto 8.
  - destruct (avl_remove_spec _ _ _ _ sm Wp) as (h' & p' & E & B). rewrite E, Hc in *. simplify_eq/=.
    destruct (set_var_spec _ _ _ _ _ _ _ _ W Hv B). eauto 8.
  - rewrite (avl_lookup_spec _ _ _ _ sm W Hin), Hc. simplify_eq/=. eauto 8.
  - rewrite (stree_count_spec _ _ _ _ W Hin), Hc. simplify_eq/=. eauto 8.
  - rewrite (for_each_sm_spec _ _ _ _ W Hin), Hc. simplify_eq/=. eauto 8.
  - apply bind_Some in Hs as (qs & Hq & Hs). simplify_eq/=.
    destruct (free_var_spec _ _ _ _ W Hv) as (h1 & E1 & W1 & T1). rewrite E1. cbn [mbind option_bind].
    rewrite <- T1 in Hq. apply tables_lookup in Hq as (q & Hq & <-).
    assert (vars (set_var w dst (h1, None)) !! dst = Some None) as Hd
      by (cbn; apply list_lookup_insert_eq; by eapply lookup_lt_Some).
    destruct (clone_var_spec _ _ _ _ _ W1 Hd Hq) as (h2 & E2 & W2 & T2).
    cbn [set_var vars mem fst snd] in Hq, E2 |- *. rewrite Hq. cbn [mbind option_bind]. rewrite E2. cbn [mbind option_bind].
    eexists _, _. split; [reflexivity|]. split; [exact W2|]. split; [by rewrite T2, T1|done].
  - simplify_eq/=. destruct (free_var_spec _ _ _ _ W Hv) as (h1 & E1 & W1 & T1). rewrite E1. simpl. eauto 8.
  - apply bind_Some in Hs as (fs & Hf & Hs). apply tables_lookup in Hf as (q & Hq & Hcq). rewrite Hq. simplify_eq/=.
    destruct (overwrite_stree_spec _ _ _ _ _ (wf_at _ _ _ _ W Hq) (var_in _ _ _ _ _ Hv Hq)) as (h' & p' & E & B).
    rewrite E. simpl. destruct (set_var_spec _ _ _ _ _ _ _ _ W Hq B). eauto 8.
  - apply bind_Some in Hs as (fs & Hf & Hs). apply tables_lookup in Hf as (q & Hq & Hcq). rewrite Hq. simplify_eq/=.
    destruct (filter_stree_spec _ _ _ _ _ Wp (var_in _ _ _ _ _ Hq Hv)) as (h' & p' & E & B).
    rewrite E. simpl. destruct (set_var_spec _ _ _ _ _ _ _ _ W Hv B) . eauto 8.
  - assert (p <> None) as Hp by (intros ->; by rewrite <- Hc in Hs).
    destruct (set_stree_id_spec _ _ _ _ id Wp Hp) as (h' & p' & slack' & E & B & _). rewrite E, Hc in *. simpl.
    destruct (set_var_spec _ _ _ _ _ _ _ _ W Hv B) as [W' T'].
    destruct ks; simplify_eq/=. eexists _, _. split; [done|]. split; [done|]. split; [|done]. rewrite T'.
    apply list_insert_id. unfold tables_of. rewrite list_lookup_fmap, Hv. simpl. by rewrite Hc.
Qed.

Lemma run_refines slack w os m' xs :
  wf_world slack w -> spec_run (tables_of w) os = Some (m', xs) ->
  exists w' slack', run w os = Some (w', xs) /\ wf_world slack' w' /\ tables_of w' = m' /\
    (forallb (fun o => negb (is_set_id o)) os = true -> slack' = slack).
Proof.
  revert slack w m' xs. induction os as [|o os IH]; intros slack w m' xs W Hs; simpl in *.
  { simplify_eq. eauto 8. }
  apply bind_Some in Hs as ([m1 x] & H1 & Hs). apply bind_Some in Hs as ([m2 ys] & H2 & Hs). simplify_eq/=.
  destruct (run_op_refines _ _ _ _ _ W H1) as (w1 & slack1 & E1 & W1 & T1 & S1). rewrite E1. simpl.
  subst m1. destruct (IH _ _ _ _ W1 H2) as (w2 & slack2 & E2 & W2 & T2 & S2). rewrite E2. simpl.
  exists w2, slack2. split_and!; auto. intros H. apply andb_true_iff in H as [Ha Hb].
  rewrite S2, S1; [done|by apply negb_true_iff|done].
Qed.

Lemma wf_start n : wf_world (fun _ => 0) (start n).
Proof.
  split; cbn [start mem vars trees next_addr unfree_stree].
  - intros a t. by rewrite lookup_empty.
  - intros a Ha. apply elem_of_replicate in Ha as [? _]. done.
  - intros a _. by rewrite lookup_empty.
  - done.
  - by rewrite map_size_empty.
Qed.

Lemma tables_start n : tables_of (start n) = replicate n [].
Proof. unfold tables_of, start. cbn [mem vars]. induction n; simpl; [done|]. by f_equal. Qed.

(** A heap that no variable points into and in which no reference was lost is
    empty. *)
Lemma wf_no_handles h vs : wf_heap (fun _ => 0) h vs -> Forall (fun p => p = None) vs -> trees h = ∅ /\ unfree_stree h = 0.
Proof.
  intros W Hn. assert (trees h = ∅) as E.
  { apply map_eq. intros a. rewrite lookup_empty. destruct (trees h !! a) as [t|] eqn:Ht; [|done].
    destruct (wf_trees _ _ _ W a t Ht) as (_ & _ & R & R1). rewrite handles_notin in R; [lia|].
    intros Hin. apply list_elem_of_In in Hin. rewrite List.Forall_forall in Hn. by specialize (Hn _ Hin). }
  split; [done|]. rewrite (wf_unfree _ _ _ W), E. done.
Qed.
