(* ===== verification/StreeTheorems.v ===== *)
(** * Properties of state tables

    The claims about AVL trees and strees: insertion and removal, traversal,
    and the programs that share and change tables. *)
From stdpp Require Import gmap.
From S2P Require Import Prelude Avl AvlFacts Stree StreeFacts StreeWorld.
#[local] Open Scope Z_scope.

(** ** Sample tables *)

Definition sm_of (addr own sym : Z) : sm_state := SmState addr [97; own] own sym addr 0.
Definition small_tree : AvlNode sm_state :=
  fst (fst (insert_sm (fst (fst (insert_sm (fst (fst (insert_sm NULL (sm_of 1 1 0)))) (sm_of 2 2 0)))) (sm_of 3 3 0))).

Lemma small_tree_ok : balanced small_tree /\ sorted (elements small_tree).
Proof.
  split; [apply checkBalances_spec; by vm_compute|]. apply check_order_spec. by vm_compute.
Defined.

(** ** Trees *)

(** C24: inserting in a balanced and sorted tree keeps it balanced and sorted;
    afterwards the new sm_state is found under its key, every other key is
    found as before; the return value says whether the tree grew higher, and
    the count goes up by one exactly if the key is new. *)
Theorem insert_sm_correct (K : Type) (Tr : Tracker K) (t : AvlNode K) (sm : K) :
  balanced t -> sorted (elements t) ->
  let '(t', grew, cnt) := insert_sm t sm in
  balanced t' /\ sorted (elements t') /\
  (forall k, lookup t' k = if cmp_tracker k sm =? 0 then Some sm else lookup t k) /\
  height t' = height t + (if grew then 1 else 0) /\
  cnt = (match lookup t sm with Some _ => 0 | None => 1 end) /\
  countNode t' = countNode t + cnt.
Proof.
  intros B S. pose proof (insert_sm_spec t sm B S) as P. pose proof (lookup_spec t sm S) as Lk.
  destruct (insert_sm t sm) as [[t' grew] cnt]. destruct P as (B' & E & H & _ & C & _).
  assert (sorted (elements t')) as S' by (rewrite E; by apply sorted_ins).
  split_and!; [done|done| |done| |by rewrite !countNode_length].
  - intros k. rewrite (lookup_spec t' k), (lookup_spec t k), E by done. apply find_ins.
  - rewrite E, length_ins in C by done. rewrite Lk. destruct (find_sm sm (elements t)); lia.
Qed.

Lemma insert_sm_correct_witness :
  balanced small_tree /\
  let '(t', grew, cnt) := insert_sm small_tree (sm_of 4 5 0) in
  balanced t' /\ sorted (elements t') /\
  (forall k, lookup t' k = if cmp_tracker k (sm_of 4 5 0) =? 0 then Some (sm_of 4 5 0) else lookup small_tree k) /\
  height t' = height small_tree + (if grew then 1 else 0) /\
  cnt = (match lookup small_tree (sm_of 4 5 0) with Some _ => 0 | None => 1 end) /\
  countNode t' = countNode small_tree + cnt.
Proof.
  split; [apply small_tree_ok|]. exact (insert_sm_correct sm_state _ small_tree (sm_of 4 5 0) (proj1 small_tree_ok) (proj2 small_tree_ok)).
Defined.

(** C25: removing from a balanced and sorted tree keeps it balanced and sorted;
    afterwards the key is not found, every other key is found as before; what
    was found under the key is returned, and the height goes down exactly as
    the return value says. *)
Theorem remove_sm_correct (K : Type) (Tr : Tracker K) (t : AvlNode K) (sm : K) :
  balanced t -> sorted (elements t) ->
  let '(t', shrunk, ret) := remove_sm t sm in
  balanced t' /\ sorted (elements t') /\
  (forall k, lookup t' k = if cmp_tracker k sm =? 0 then None else lookup t k) /\
  height t' = height t - (if shrunk then 1 else 0) /\
  ret = lookup t sm /\
  countNode t' = countNode t - (match ret with Some _ => 1 | None => 0 end).
Proof.
  intros B S. pose proof (remove_sm_spec t sm B S) as P. pose proof (lookup_spec t sm S) as Lk.
  destruct (remove_sm t sm) as [[t' shrunk] ret]. destruct P as (B' & E & H & R).
  assert (sorted (elements t')) as S' by (rewrite E; by apply sorted_del).
  split_and!; [done|done| |done|by rewrite Lk|].
  - intros k. rewrite (lookup_spec t' k), (lookup_spec t k), E by done. by apply find_del.
  - rewrite !countNode_length, E, R. pose proof (length_del sm (elements t)). destruct (find_sm sm (elements t)); lia.
Qed.

Lemma remove_sm_correct_witness :
  balanced small_tree /\
  let '(t', shrunk, ret) := remove_sm small_tree (sm_of 2 2 0) in
  balanced t' /\ sorted (elements t') /\
  (forall k, lookup t' k = if cmp_tracker k (sm_of 2 2 0) =? 0 then None else lookup small_tree k) /\
  height t' = height small_tree - (if shrunk then 1 else 0) /\
  ret = lookup small_tree (sm_of 2 2 0) /\
  countNode t' = countNode small_tree - (match ret with Some _ => 1 | None => 0 end).
Proof.
  split; [apply small_tree_ok|]. exact (remove_sm_correct sm_state _ small_tree (sm_of 2 2 0) (proj1 small_tree_ok) (proj2 small_tree_ok)).
Defined.

(** C27: the loop avl_foreach() over a tree with less than 2^64 nodes ends after
    countNode() turns, visits every element once, in order or in reverse
    order, and never has more than 91 nodes on the stack of the iterator,
    which has room for 100. *)
Theorem avl_foreach_correct (K : Type) (Tr : Tracker K) (t : AvlNode K) (dir : bool) (fuel : nat) :
  balanced t -> countNode t < two64 -> countNode t <= Z.of_nat fuel ->
  fst (traverse fuel dir (avl_iter_begin t dir)) = (if dir then rev (elements t) else elements t) /\
  Z.of_nat (snd (traverse fuel dir (avl_iter_begin t dir))) <= 91 < 100.
Proof.
  intros B C F. rewrite (countNode_length t) in F.
  destruct (foreach_spec dir fuel t) as [A D]; [lia|]. pose proof (height_bound t B C).
  pose proof (height_nonneg t). split; [exact A|]. lia.
Qed.

Lemma avl_foreach_correct_witness :
  countNode small_tree < two64 /\
  fst (traverse 3 true (avl_iter_begin small_tree true)) = rev (elements small_tree) /\
  Z.of_nat (snd (traverse 3 true (avl_iter_begin small_tree true))) <= 91 < 100.
Proof.
  split; [by vm_compute|].
  apply (avl_foreach_correct sm_state _ small_tree true 3); [apply small_tree_ok|by vm_compute|by vm_compute].
Defined.

(** ** Programs *)

(** C5: a program that starts with NULL tables and inserts, removes, looks up,
    counts, visits, clones, frees, overwrites, filters and numbers them behaves
    as if every variable had its own sorted list of sm_states: it never uses
    freed memory or fails an assertion, every operation returns what the lists
    say, a change through one variable is not seen through any other, although
    clone_stree() shares the tree, and every tree in memory passes
    avl_check_invariants(). *)
Theorem stree_programs_correct (n : nat) (os : list op) (m : list (list sm_state)) (xs : list out) :
  spec_run (replicate n []) os = Some (m, xs) ->
  exists w, run (start n) os = Some (w, xs) /\ tables_of w = m /\
    forall a t, trees (mem w) !! a = Some t -> avl_check_invariants t = true.
Proof.
  intros H. rewrite <- (tables_start n) in H.
  destruct (run_refines _ _ _ _ _ (wf_start n) H) as (w & slack & E & W & T & _).
  exists w. split_and!; [done|done|]. intros a t Ht. apply check_invariants_wf.
  apply (wf_trees _ _ _ W a t Ht).
Qed.

(** Two variables: the first is filled, the second a clone of it; then the first
    loses an element and the second gets one. *)
Definition sample_program : list op :=
  [Insert 0 (sm_of 1 1 0); Insert 0 (sm_of 2 2 0); Clone 1 0; Remove 0 (sm_of 9 1 0);
   Insert 1 (sm_of 3 3 7); ForEach 0; ForEach 1; Filter 1 0; Count 1; Free 0; Lookup 1 (sm_of 9 3 7)].

Lemma stree_programs_correct_witness :
  exists m xs,
  spec_run (replicate 2 []) sample_program = Some (m, xs) /\
  m = [[]; [sm_of 1 1 0; sm_of 3 3 7]] /\
  exists w, run (start 2) sample_program = Some (w, xs) /\ tables_of w = m /\
    forall a t, trees (mem w) !! a = Some t -> avl_check_invariants t = true.
Proof.
  eexists _, _. split; [vm_compute; reflexivity|]. split; [reflexivity|].
  apply (stree_programs_correct 2 sample_program). vm_compute. reflexivity.
Defined.

(** C31: reference counts lose nothing: when a program that does not number its
    tables ends with every variable NULL, no stree is left in memory and
    unfree_stree is 0. *)
Theorem stree_programs_free_everything (n : nat) (os : list op) (m : list (list sm_state)) (xs : list out) :
  forallb (fun o => negb (is_set_id o)) os = true ->
  spec_run (replicate n []) os = Some (m, xs) ->
  Forall (fun ks => ks = []) m ->
  exists w, run (start n) os = Some (w, xs) /\ trees (mem w) = ∅ /\ unfree_stree (mem w) = 0.
Proof.
  intros Ni H Hm. rewrite <- (tables_start n) in H.
  destruct (run_refines _ _ _ _ _ (wf_start n) H) as (w & slack & E & W & T & S).
  exists w. split; [done|]. rewrite (S Ni) in W. apply (wf_no_handles _ (vars w)); [exact W|].
  subst m. unfold tables_of in Hm. apply List.Forall_map in Hm. rewrite List.Forall_forall in Hm |- *.
  intros p Hp. apply (contents_null _ _ _ p W); [by apply list_elem_of_In|]. by apply Hm.
Qed.

Lemma stree_programs_free_everything_witness :
  exists m xs,
  spec_run (replicate 2 []) (sample_program ++ [Free 1]) = Some (m, xs) /\
  exists w, run (start 2) (sample_program ++ [Free 1]) = Some (w, xs) /\ trees (mem w) = ∅ /\ unfree_stree (mem w) = 0.
Proof.
  eexists _, _. split; [vm_compute; reflexivity|].
  apply (stree_programs_free_everything 2 (sample_program ++ [Free 1]) [[]; []]);
    [reflexivity|vm_compute; reflexivity|repeat constructor].
Defined.

(** set_stree_id() of a table that has an id copies it without giving its
    reference to the old table back: after numbering a table twice and freeing
    it, one stree is left that nothing points to. *)
Theorem set_stree_id_leaks :
  exists w, run (start 1) [Insert 0 (sm_of 1 1 0); SetId 0 1; SetId 0 2; Free 0] = Some (w, [Bool true; Unit; Unit; Unit]) /\
    vars w = [None] /\ unfree_stree (mem w) = 1.
Proof. eexists. split; [vm_compute; reflexivity|]. split; reflexivity. Qed.
