(* ===== verification/Estate.v ===== *)
(** * Extended states: smatch_estate.c and the relations of smatch_equiv.c

    The state of a variable in SMATCH_EXTRA: a range list with what else is
    known of it.  The name of such a state is the text of its list, and the name
    is what estates_equiv() compares.  A [struct data_info] is only written to
    by the function that has just allocated it, so an estate is a value and the
    estate_set_...() functions return the new one. *)
From Stdlib Require Import Ascii String.
From S2P Require Import Prelude Types Tokens Sval RangeList RangeCompare RangeText Avl Stree.
#[local] Open Scope Z_scope.

Record relation : Set := Relation { rel_name : list Z; rel_sym : Z }.

#[export] Instance relation_eq_dec : EqDecision relation.
Proof. solve_decision. Defined.

Record data_info : Set := DataInfo {
  related : list relation;
  value_ranges : range_list;
  fuzzy_max : sval_t;
  hard_max : bool;
  capped : bool;
  treat_untagged : bool;
  assigned : bool;
  set : bool
}.

(** A [struct smatch_state] whose data is a data_info. *)
Record estate : Set := Estate { state_name : text; get_dinfo : data_info }.

(** ** Relations: smatch_equiv.c *)

(** The sign of cmp_relation(). *)
Definition cmp_relation (a b : relation) : Z :=
  if decide (a = b) then 0
  else if rel_sym a >? rel_sym b then -1
  else if rel_sym a <? rel_sym b then 1
  else strcmp (rel_name a) (rel_name b).

Definition clone_related_list (l : list relation) : list relation := fold_left (fun to rel => to ++ [rel]) l [].

Fixpoint get_shared_relations (one : list relation) : list relation -> list relation :=
  fix go (two : list relation) : list relation :=
    match one, two with
    | one_rel :: one', two_rel :: two' =>
      if cmp_relation one_rel two_rel <? 0 then get_shared_relations one' two
      else if cmp_relation one_rel two_rel =? 0 then one_rel :: get_shared_relations one' two'
      else go two'
    | _, _ => []
    end.

Fixpoint add_related (rlist : list relation) (name : list Z) (sym : Z) : list relation :=
  let tmp := Relation name sym in
  match rlist with
  | [] => [tmp]
  | rel :: rest =>
    if cmp_relation rel tmp <? 0 then rel :: add_related rest name sym
    else if cmp_relation rel tmp =? 0 then rlist
    else tmp :: rlist
  end.

Definition del_related (rlist : list relation) (name : list Z) (sym : Z) : list relation :=
  fold_left (fun ret tmp => if negb (cmp_relation tmp (Relation name sym) =? 0) then ret ++ [tmp] else ret) rlist [].

Section estate.
Context `{Tgt : Target} `{Fp : FloatOps}.
Variable fp_to_str : sval_t -> text.

(** ** Reading; a state that is NULL is [None] *)

Definition estate_rl (state : option estate) : range_list :=
  match state with None => [] | Some s => value_ranges (get_dinfo s) end.

Definition estate_related (state : option estate) : list relation :=
  match state with None => [] | Some s => related (get_dinfo s) end.

(** [sval_t empty = {};] *)
Definition empty_sval : sval_t := Sval None 0.

Definition estate_get_fuzzy_max (state : option estate) : sval_t :=
  match state with None => empty_sval | Some s => fuzzy_max (get_dinfo s) end.

Definition estate_has_fuzzy_max (state : option estate) : bool :=
  match sv_type (estate_get_fuzzy_max state) with Some _ => true | None => false end.

Definition has_rl (state : option estate) : bool := match estate_rl state with [] => false | _ => true end.

Definition estate_has_hard_max (state : option estate) : bool :=
  match state with None => false | Some s => if negb (has_rl state) then false else hard_max (get_dinfo s) end.

Definition estate_get_hard_max (state : option estate) : option sval_t :=
  match state with
  | None => None
  | Some s => if negb (hard_max (get_dinfo s)) || negb (has_rl state) then None else Some (rl_max (estate_rl state))
  end.

Definition estate_capped (state : option estate) : bool :=
  match state with None => false | Some s => if negb (has_rl state) then true else capped (get_dinfo s) end.

Definition estate_treat_untagged (state : option estate) : bool :=
  match state with None => false | Some s => if negb (has_rl state) then true else treat_untagged (get_dinfo s) end.

Definition estate_assigned (state : option estate) : bool :=
  match state with None => false | Some s => if negb (has_rl state) then false else assigned (get_dinfo s) end.

Definition estate_new (state : option estate) : bool :=
  match state with None => false | Some s => if negb (has_rl state) then false else set (get_dinfo s) end.

Definition estate_min (state : option estate) : sval_t := rl_min (estate_rl state).
Definition estate_max (state : option estate) : sval_t := rl_max (estate_rl state).

Definition estate_type (state : option estate) : option symbol :=
  match state with None => None | Some _ => sv_type (rl_max (estate_rl state)) end.

Definition estate_is_whole (state : option estate) : bool := is_whole_rl (estate_rl state).

Definition estate_is_empty (state : option estate) : bool :=
  match state with None => false | Some _ => negb (has_rl state) end.

Definition estate_is_unknown (state : option estate) : bool :=
  if negb (estate_is_whole state) then false
  else if bool_decide (estate_related state <> []) then false
  else negb (estate_has_fuzzy_max state).

Definition estate_get_single_value (state : option estate) : option sval_t :=
  if negb (has_rl state) then None
  else
    let min := rl_min (estate_rl state) in
    let max := rl_max (estate_rl state) in
    if negb (sval_cmp min max =? 0) then None else Some min.

(** ** Writing *)

Definition upd_dinfo (s : estate) (f : data_info -> data_info) : estate := Estate (state_name s) (f (get_dinfo s)).

Definition set_related (s : estate) (rlist : list relation) : estate :=
  if bool_decide (related (get_dinfo s) = []) && bool_decide (rlist = []) then s
  else upd_dinfo s (fun d => DataInfo rlist (value_ranges d) (fuzzy_max d) (hard_max d) (capped d)
                                      (treat_untagged d) (assigned d) (set d)).

Definition estate_set_fuzzy_max (s : estate) (fmax : sval_t) : estate :=
  if is_ptr_type (estate_type (Some s)) then s
  else if negb (rl_has_sval (estate_rl (Some s)) fmax) then s
  else upd_dinfo s (fun d => DataInfo (related d) (value_ranges d) fmax (hard_max d) (capped d)
                                      (treat_untagged d) (assigned d) (set d)).

Definition estate_copy_fuzzy_max (new : estate) (old : option estate) : estate :=
  if is_ptr_type (estate_type (Some new)) then new
  else if negb (estate_has_fuzzy_max old) then new
  else estate_set_fuzzy_max new (estate_get_fuzzy_max old).

Definition estate_clear_fuzzy_max (s : estate) : estate :=
  upd_dinfo s (fun d => DataInfo (related d) (value_ranges d) empty_sval (hard_max d) (capped d)
                                 (treat_untagged d) (assigned d) (set d)).

Definition write_hard_max (s : estate) (b : bool) : estate :=
  upd_dinfo s (fun d => DataInfo (related d) (value_ranges d) (fuzzy_max d) b (capped d)
                                 (treat_untagged d) (assigned d) (set d)).

Definition estate_set_hard_max (s : estate) : estate :=
  if is_ptr_type (estate_type (Some s)) then s else write_hard_max s true.

Definition estate_clear_hard_max (s : estate) : estate := write_hard_max s false.

Definition estate_set_capped (s : estate) : estate :=
  upd_dinfo s (fun d => DataInfo (related d) (value_ranges d) (fuzzy_max d) (hard_max d) true
                                 (treat_untagged d) (assigned d) (set d)).

Definition estate_set_treat_untagged (s : estate) : estate :=
  upd_dinfo s (fun d => DataInfo (related d) (value_ranges d) (fuzzy_max d) (hard_max d) (capped d)
                                 true (assigned d) (set d)).

Definition estate_set_assigned (s : estate) : estate :=
  upd_dinfo s (fun d => DataInfo (related d) (value_ranges d) (fuzzy_max d) (hard_max d) (capped d)
                                 (treat_untagged d) true (set d)).

Definition estate_set_new (s : estate) : estate :=
  upd_dinfo s (fun d => DataInfo (related d) (value_ranges d) (fuzzy_max d) (hard_max d) (capped d)
                                 (treat_untagged d) (assigned d) true).

(** ** Allocation *)

Definition alloc_dinfo : data_info := DataInfo [] [] empty_sval false false false false false.

Definition alloc_dinfo_range_list (rl : range_list) : data_info :=
  DataInfo [] rl empty_sval false false false false false.

Definition alloc_dinfo_range (min max : sval_t) : data_info := alloc_dinfo_range_list (add_range [] min max).

Definition clone_dinfo (d : data_info) : data_info :=
  DataInfo (clone_related_list (related d)) (clone_rl (value_ranges d)) (fuzzy_max d) (hard_max d)
           false false false false.

Definition clone_estate (state : option estate) : option estate :=
  match state with None => None | Some s => Some (Estate (state_name s) (clone_dinfo (get_dinfo s))) end.

Definition alloc_estate_empty : estate := Estate (lit "") alloc_dinfo.
Definition extra_empty : estate := Estate (lit "empty") alloc_dinfo.

Definition alloc_estate_rl (rl : range_list) : estate :=
  match rl with
  | [] => extra_empty
  | _ => Estate (show_rl fp_to_str rl) (alloc_dinfo_range_list rl)
  end.

Definition alloc_estate_whole (type : option symbol) : estate := alloc_estate_rl (alloc_whole_rl type).

Definition alloc_estate_range (min max : sval_t) : estate :=
  let d := alloc_dinfo_range min max in Estate (show_rl fp_to_str (value_ranges d)) d.

Definition alloc_estate_sval (sval : sval_t) : estate :=
  estate_set_fuzzy_max (estate_set_hard_max (alloc_estate_range sval sval)) sval.

Definition clone_partial_estate (state : option estate) (rl : range_list) : option estate :=
  match state with
  | None => None
  | Some _ =>
    let rl := cast_rl (estate_type state) rl in
    let ret := set_related (alloc_estate_rl rl) (clone_related_list (estate_related state)) in
    let ret := if estate_has_hard_max state then estate_set_hard_max ret else ret in
    Some (if estate_has_fuzzy_max state then estate_set_fuzzy_max ret (estate_get_fuzzy_max state) else ret)
  end.

Definition clone_estate_cast (type : option symbol) (state : option estate) : option estate :=
  match state with
  | None => None
  | Some _ =>
    let rl := clone_rl (cast_rl type (estate_rl state)) in
    Some (Estate (show_rl fp_to_str rl) (alloc_dinfo_range_list rl))
  end.

Definition clone_dinfo_perm (d : data_info) : data_info :=
  DataInfo [] (clone_rl (value_ranges d)) (fuzzy_max d) false false false false false.

(** ** Equivalence and merging *)

Fixpoint rlists_equiv (one two : list relation) : bool :=
  match one, two with
  | [], [] => true
  | one_rel :: one', two_rel :: two' =>
    if negb (rel_sym one_rel =? rel_sym two_rel) then false
    else if negb (strcmp (rel_name one_rel) (rel_name two_rel) =? 0) then false
    else rlists_equiv one' two'
  | _, _ => false
  end.

(** States at one address are equal, and then the other tests succeed. *)
Definition estates_equiv (one two : option estate) : bool :=
  match one, two with
  | Some s1, Some s2 =>
    if negb (rlists_equiv (estate_related one) (estate_related two)) then false
    else if negb (eqb (estate_capped one) (estate_capped two)) then false
    else if negb (eqb (estate_treat_untagged one) (estate_treat_untagged two)) then false
    else if negb (eqb (estate_has_hard_max one) (estate_has_hard_max two)) then false
    else if negb (eqb (estate_new one) (estate_new two)) then false
    else bool_decide (state_name s1 = state_name s2)
  | _, _ => false
  end.

(** The conditions of merge_estates() *)
Definition merged_hard_max (s1 s2 : option estate) : bool :=
  (estate_has_hard_max s1 && (negb (has_rl s2) || estate_has_hard_max s2)) ||
  (estate_has_hard_max s2 && (negb (has_rl s1) || estate_has_hard_max s1)).

Definition merged_capped (s1 s2 : option estate) : bool :=
  (estate_capped s1 && estate_capped s2) ||
  (has_rl s1 && has_rl s2 &&
   ((estate_capped s1 && (uvalue (estate_max s2) <? 100)) || (estate_capped s2 && (uvalue (estate_max s1) <? 100)))).

Definition merge_estates (s1 s2 : option estate) : option estate :=
  if estates_equiv s1 s2 then s1
  else
    let tmp := alloc_estate_rl (rl_union (estate_rl s1) (estate_rl s2)) in
    let tmp := set_related tmp (get_shared_relations (estate_related s1) (estate_related s2)) in
    let tmp := if merged_hard_max s1 s2 then estate_set_hard_max tmp else tmp in
    let tmp := estate_set_fuzzy_max tmp (sval_max (estate_get_fuzzy_max s1) (estate_get_fuzzy_max s2)) in
    let tmp := if merged_capped s1 s2 then estate_set_capped tmp else tmp in
    let tmp := if estate_treat_untagged s1 && estate_treat_untagged s2 then estate_set_treat_untagged tmp else tmp in
    let tmp := if estate_assigned s1 || estate_assigned s2 then estate_set_assigned tmp else tmp in
    Some (if estate_new s1 || estate_new s2 then estate_set_new tmp else tmp).
End estate.
