(* ===== verification/EstateFacts.v ===== *)
(** * Facts about extended states

    Relations are sorted lists and get_shared_relations() is intersection; an
    extended state is well formed if its list is in normal form and its name is
    the text of the list; merging joins the lists. *)
From Stdlib Require Import Ascii String Sorted.
From S2P Require Import Prelude Types Tokens Sval SvalFacts RangeList RangeFacts RangeSets RangeCast RangeCompare RangeCompareFacts RangeText RangeTextFacts Avl AvlFacts Stree Estate.
#[local] Open Scope Z_scope.

(** ** Relations *)

(** Higher symbols come first. *)
Definition cmp_rel_fields : relation -> relation -> Z :=
  lex (on (fun r => - rel_sym r) ord3) (on rel_name strcmp).

Lemma good_cmp_rel : good_cmp cmp_rel_fields.
Proof. apply good_lex; apply good_on; [apply good_ord3|apply good_strcmp]. Qed.

Lemma cmp_relation_fields a b : cmp_relation a b = cmp_rel_fields a b.
Proof.
  unfold cmp_relation. destruct (decide (a = b)) as [<-|_]; [by rewrite gc_refl by apply good_cmp_rel|].
  unfold cmp_rel_fields, lex, on, ord3. zcases; try done; lia.
Qed.

#[export] Program Instance relation_tracker : Tracker relation := {| cmp_tracker := cmp_relation |}.
Next Obligation. intros. rewrite cmp_relation_fields. apply gc_values, good_cmp_rel. Qed.
Next Obligation. intros. rewrite cmp_relation_fields. apply gc_refl, good_cmp_rel. Qed.
Next Obligation. intros a b. rewrite !cmp_relation_fields. apply gc_opp, good_cmp_rel. Qed.
Next Obligation. intros a b c. rewrite !cmp_relation_fields. apply gc_trans, good_cmp_rel. Qed.

Lemma cmp_relation_0 a b : cmp_relation a b = 0 -> a = b.
Proof.
  rewrite cmp_relation_fields. unfold cmp_rel_fields, lex, on, ord3. destruct a as [n s], b as [n' s']. simpl.
  zcases; try lia. intros Hn%strcmp_0. subst. f_equal. lia.
Qed.

Lemma rel_lt_ne (a b : relation) : lt_sm a b -> a <> b.
Proof. intros H ->. unfold lt_sm in H. rewrite cmp_refl in H. lia. Qed.

Lemma rel_above_notin (a : relation) l : Forall (lt_sm a) l -> ~ In a l.
Proof. induction 1 as [|k l Hk Hl IH]; [intros []|]. intros [->|H]; [by apply rel_lt_ne in Hk|by apply IH]. Qed.

Lemma get_shared_relations_spec one : forall two,
  sorted one -> sorted two ->
  sorted (get_shared_relations one two) /\
  (forall r, In r (get_shared_relations one two) <-> In r one /\ In r two).
Proof.
  induction one as [|a one IH1]; intros two S1 S2.
  { destruct two; (split; [constructor|]); simpl; tauto. }
  induction two as [|b two IH2]; [split; [constructor|]; simpl; tauto|].
  inversion S1 as [|? ? S1' F1]; subst. inversion S2 as [|? ? S2' F2]; subst.
  destruct (cmp_cases a b) as [E|[[E L]|[E L]]]; cbn [cmp_tracker relation_tracker] in E.
  - apply cmp_relation_0 in E as E'. subst b. destruct (IH1 two S1' S2') as [A B].
    assert (get_shared_relations (a :: one) (a :: two) = a :: get_shared_relations one two) as ->
      by (simpl; by rewrite E).
    pose proof (rel_above_notin a one F1). pose proof (rel_above_notin a two F2). split.
    + constructor; [done|]. apply List.Forall_forall. intros r Hr. apply B in Hr as [Hr _].
      rewrite List.Forall_forall in F1. by apply F1.
    + intros r. simpl. rewrite B. split; [intros [->|[]]; tauto|]. intros [[->|H1] [Hr|H2]]; auto.
  - destruct (IH1 (b :: two) S1' S2) as [A B].
    assert (get_shared_relations (a :: one) (b :: two) = get_shared_relations one (b :: two)) as ->
      by (simpl; by rewrite E).
    split; [done|]. intros r. rewrite B. split; [intros []; split; [by right|done]|].
    intros [[->|H1] H2]; [|done]. exfalso. apply (rel_above_notin r (b :: two)); [|done].
    constructor; [done|]. eapply Forall_impl; [|exact F2]. intros x. by apply lt_trans.
  - destruct (IH2 S2') as [A B].
    assert (get_shared_relations (a :: one) (b :: two) = get_shared_relations (a :: one) two) as ->
      by (simpl; by rewrite E).
    split; [done|]. intros r. rewrite B. split; [intros []; split; [done|by right]|].
    intros [H1 [->|H2]]; [|done]. exfalso. apply (rel_above_notin r (a :: one)); [|done].
    constructor; [done|]. eapply Forall_impl; [|exact F1]. intros x. by apply lt_trans.
Qed.

Lemma rlists_equiv_eq one two : rlists_equiv one two = true -> one = two.
Proof.
  revert two. induction one as [|a one IH]; intros [|b two]; simpl; try done.
  destruct (Z.eqb_spec (rel_sym a) (rel_sym b)) as [Es|]; [|done].
  destruct (Z.eqb_spec (strcmp (rel_name a) (rel_name b)) 0) as [En|]; [|done].
  apply strcmp_0 in En. intros H%IH. destruct a, b. simpl in *. by subst.
Qed.

(** add_related() and del_related() keep the list sorted. *)
Lemma add_related_spec l name sym :
  sorted l -> sorted (add_related l name sym) /\
  (forall r, In r (add_related l name sym) <-> r = Relation name sym \/ In r l).
Proof.
  set (n := Relation name sym). induction 1 as [|a l S IH F].
  { split; [repeat constructor|]. simpl. intros r. split; intros [H|[]]; auto. }
  cbn [add_related]. fold n. destruct IH as [A B].
  destruct (cmp_cases a n) as [E|[[E L]|[E L]]]; cbn [cmp_tracker relation_tracker] in E; rewrite E; simpl.
  - apply cmp_relation_0 in E as ->. split; [by constructor|]. intros r. intuition congruence.
  - split; [|intros r; rewrite B; tauto]. constructor; [done|]. apply List.Forall_forall. intros r Hr.
    apply B in Hr as [->|Hr]; [done|]. rewrite List.Forall_forall in F. by apply F.
  - split; [|intros r; intuition congruence]. constructor; [by constructor|]. constructor; [done|].
    eapply Forall_impl; [|exact F]. intros x. by apply lt_trans.
Qed.

Section estates.
Context `{Tgt : Target} `{Fp : FloatOps}.
Context (fp_to_str : sval_t -> text) (strtofp : option symbol -> text -> sval_t * text).
Context (t : option symbol) (Ht : std_type t) (Np : type_is_ptr t = false).

(** ** Well-formed states *)

Record wf_estate (s : estate) : Prop := {
  we_rl : wf_rl t (value_ranges (get_dinfo s));
  we_name : state_name s = show_rl fp_to_str (value_ranges (get_dinfo s)) \/
            value_ranges (get_dinfo s) = [] /\ state_name s = lit "empty";
  we_related : sorted (related (get_dinfo s))
}.

(** The fields the setters leave alone. *)
Definition same_core (a b : estate) : Prop :=
  state_name a = state_name b /\ value_ranges (get_dinfo a) = value_ranges (get_dinfo b) /\
  related (get_dinfo a) = related (get_dinfo b).

Lemma set_fuzzy_max_core s v : same_core (estate_set_fuzzy_max s v) s.
Proof. unfold estate_set_fuzzy_max. by repeat case_if. Qed.
Lemma set_hard_max_core s : same_core (estate_set_hard_max s) s.
Proof. unfold estate_set_hard_max. by case_if. Qed.

Lemma set_related_spec s l :
  state_name (set_related s l) = state_name s /\
  value_ranges (get_dinfo (set_related s l)) = value_ranges (get_dinfo s) /\
  related (get_dinfo (set_related s l)) = l.
Proof.
  unfold set_related. destruct (_ && _) eqn:E; [|done]. apply andb_true_iff in E as [E1 E2].
  apply bool_decide_eq_true in E1. apply bool_decide_eq_true in E2. by rewrite E1, E2.
Qed.

Lemma same_core_trans a b c : same_core a b -> same_core b c -> same_core a c.
Proof. unfold same_core. intuition congruence. Qed.

Lemma wf_same_core a b : same_core a b -> wf_estate b -> wf_estate a.
Proof. intros (E1 & E2 & E3) [W1 W2 W3]. split; by rewrite ?E1, ?E2, ?E3. Qed.

Lemma alloc_estate_rl_wf rl : wf_rl t rl ->
  wf_estate (alloc_estate_rl fp_to_str rl) /\ value_ranges (get_dinfo (alloc_estate_rl fp_to_str rl)) = rl.
Proof.
  intros W. destruct rl as [|d rl]; (split; [split|done]); simpl; try done; try (by right); try (by left); constructor.
Qed.

(** A name tells the list, if the list is short. *)
Lemma same_name_has s1 s2 z :
  wf_estate s1 -> wf_estate s2 -> (length (value_ranges (get_dinfo s1)) <= 5)%nat ->
  state_name s1 = state_name s2 ->
  rl_has (value_ranges (get_dinfo s2)) z -> rl_has (value_ranges (get_dinfo s1)) z.
Proof.
  intros [W1 N1 _] [W2 N2 _] L E Hz.
  set (r1 := value_ranges (get_dinfo s1)) in *. set (r2 := value_ranges (get_dinfo s2)) in *.
  assert (r2 <> []) as Ne2 by (intros E2; rewrite E2 in Hz; by apply rl_has_nil in Hz).
  destruct N2 as [N2|[? _]]; [|done].
  destruct (show_rl_spec fp_to_str strtofp t Ht Np r2 W2 Ne2) as (d2 & S2 & _ & E2).
  destruct (shows_wf t Ht r2 d2 W2 S2) as [Wd2 Hd2].
  assert (d2 <> []) as Nd2 by (intros ->; apply Hd2 in Hz; by apply rl_has_nil in Hz).
  destruct (join_head fp_to_str strtofp t Ht Np d2 (wf_rl_ranges _ _ Wd2) Nd2) as (c & s & Ej & _ & He).
  destruct (decide (r1 = [])) as [Z1|Ne1].
  { exfalso. rewrite E2, Ej in N2. rewrite Z1 in N1. change (show_rl fp_to_str []) with (@nil ascii) in N1.
    destruct N1 as [N1|[_ N1]]; rewrite E, N2 in N1; [done|]. injection N1 as -> _. done. }
  destruct N1 as [N1|[? _]]; [|done].
  destruct (show_rl_spec fp_to_str strtofp t Ht Np r1 W1 Ne1) as (d1 & S1 & _ & E1).
  assert (d1 = r1) as -> by (destruct S1 as [?|[? _]]; [done|lia]).
  assert (join fp_to_str r1 = join fp_to_str d2) as J by congruence.
  pose proof (str_to_rl_join fp_to_str strtofp t Ht Np r1 W1 Ne1) as P1.
  pose proof (str_to_rl_join fp_to_str strtofp t Ht Np d2 Wd2 Nd2) as P2.
  rewrite J, P2 in P1. injection P1 as <-. by apply Hd2.
Qed.

(** ** Merging *)

Lemma estates_equiv_true s1 s2 : estates_equiv (Some s1) (Some s2) = true ->
  related (get_dinfo s1) = related (get_dinfo s2) /\ state_name s1 = state_name s2 /\
  estate_capped (Some s1) = estate_capped (Some s2) /\
  estate_treat_untagged (Some s1) = estate_treat_untagged (Some s2) /\
  estate_has_hard_max (Some s1) = estate_has_hard_max (Some s2) /\
  estate_new (Some s1) = estate_new (Some s2).
Proof.
  unfold estates_equiv. destruct (rlists_equiv _ _) eqn:Er; [|done]. apply rlists_equiv_eq in Er.
  repeat (match goal with |- context [eqb ?a ?b] => destruct (eqb a b) eqn:?; [|done] end).
  cbn [negb]. intros H%bool_decide_eq_true.
  repeat match goal with H : eqb _ _ = true |- _ => apply eqb_prop in H end. by split_and!.
Qed.

(** The flags merge_estates() sets on the new state [e]. *)
Definition with_flags (e : estate) (hm : bool) (fm : sval_t) (cp tu asg nw : bool) : estate :=
  let tmp := if hm then estate_set_hard_max e else e in
  let tmp := estate_set_fuzzy_max tmp fm in
  let tmp := if cp then estate_set_capped tmp else tmp in
  let tmp := if tu then estate_set_treat_untagged tmp else tmp in
  let tmp := if asg then estate_set_assigned tmp else tmp in
  if nw then estate_set_new tmp else tmp.

Lemma set_fuzzy_max_flags e v :
  hard_max (get_dinfo (estate_set_fuzzy_max e v)) = hard_max (get_dinfo e) /\
  capped (get_dinfo (estate_set_fuzzy_max e v)) = capped (get_dinfo e) /\
  treat_untagged (get_dinfo (estate_set_fuzzy_max e v)) = treat_untagged (get_dinfo e) /\
  assigned (get_dinfo (estate_set_fuzzy_max e v)) = assigned (get_dinfo e) /\
  set (get_dinfo (estate_set_fuzzy_max e v)) = set (get_dinfo e).
Proof. unfold estate_set_fuzzy_max. by repeat case_if. Qed.

Lemma with_flags_spec e hm fm cp tu asg nw :
  same_core (with_flags e hm fm cp tu asg nw) e /\
  (hard_max (get_dinfo (with_flags e hm fm cp tu asg nw)) = true -> hm = true \/ hard_max (get_dinfo e) = true) /\
  capped (get_dinfo (with_flags e hm fm cp tu asg nw)) = capped (get_dinfo e) || cp /\
  treat_untagged (get_dinfo (with_flags e hm fm cp tu asg nw)) = treat_untagged (get_dinfo e) || tu /\
  assigned (get_dinfo (with_flags e hm fm cp tu asg nw)) = assigned (get_dinfo e) || asg /\
  set (get_dinfo (with_flags e hm fm cp tu asg nw)) = set (get_dinfo e) || nw.
Proof.
  unfold with_flags. set (e1 := if hm then estate_set_hard_max e else e).
  assert (same_core e1 e /\ (hard_max (get_dinfo e1) = true -> hm = true \/ hard_max (get_dinfo e) = true) /\
    capped (get_dinfo e1) = capped (get_dinfo e) /\ treat_untagged (get_dinfo e1) = treat_untagged (get_dinfo e) /\
    assigned (get_dinfo e1) = assigned (get_dinfo e) /\ set (get_dinfo e1) = set (get_dinfo e)) as (C1 & H1 & I1 & J1 & K1 & L1).
  { subst e1. destruct hm; [|split_and!; auto; done]. unfold estate_set_hard_max. case_if; split_and!; auto; done. }
  clearbody e1. pose proof (same_core_trans _ _ _ (set_fuzzy_max_core e1 fm) C1) as C2.
  destruct (set_fuzzy_max_flags e1 fm) as (H2 & I2 & J2 & K2 & L2).
  set (e2 := estate_set_fuzzy_max e1 fm) in *. clearbody e2.
  rewrite <- I1, <- J1, <- K1, <- L1, <- I2, <- J2, <- K2, <- L2. rewrite <- H2 in H1.
  destruct cp, tu, asg, nw; cbn; rewrite ?orb_true_r, ?orb_false_r; by split_and!.
Qed.

(** merge_estates() of two states that are not equivalent. *)
Lemma merge_estates_eq s1 s2 : estates_equiv s1 s2 = false ->
  merge_estates fp_to_str s1 s2 = Some (with_flags
    (set_related (alloc_estate_rl fp_to_str (rl_union (estate_rl s1) (estate_rl s2)))
                 (get_shared_relations (estate_related s1) (estate_related s2)))
    (merged_hard_max s1 s2) (sval_max (estate_get_fuzzy_max s1) (estate_get_fuzzy_max s2))
    (merged_capped s1 s2) (estate_treat_untagged s1 && estate_treat_untagged s2)
    (estate_assigned s1 || estate_assigned s2) (estate_new s1 || estate_new s2)).
Proof. intros E. unfold merge_estates. by rewrite E. Qed.

Lemma set_related_flags e l :
  hard_max (get_dinfo (set_related e l)) = hard_max (get_dinfo e) /\
  treat_untagged (get_dinfo (set_related e l)) = treat_untagged (get_dinfo e) /\
  set (get_dinfo (set_related e l)) = set (get_dinfo e).
Proof. unfold set_related. by case_if. Qed.

Lemma alloc_estate_rl_flags rl :
  hard_max (get_dinfo (alloc_estate_rl fp_to_str rl)) = false /\
  treat_untagged (get_dinfo (alloc_estate_rl fp_to_str rl)) = false /\
  set (get_dinfo (alloc_estate_rl fp_to_str rl)) = false.
Proof. by destruct rl. Qed.

(** A list in normal form is empty if it has no numbers. *)
Lemma has_rl_false s : wf_estate s -> has_rl (Some s) = false <-> forall z, ~ rl_has (value_ranges (get_dinfo s)) z.
Proof.
  intros [[F _] _ _]. unfold has_rl. cbn [estate_rl]. destruct (value_ranges (get_dinfo s)) as [|d rl].
  - split; [intros _ z H; by apply rl_has_nil in H|done].
  - split; [done|]. intros H. exfalso. apply (H (num (rmin d))), rl_has_cons. left. inversion_clear F as [|? ? Wd _].
    pose proof (wf_order _ _ Wd). unfold in_range. lia.
Qed.

(** What merging does to the numbers and the flags of two states. *)
Record joins (s1 s2 s : estate) : Prop := {
  join_wf : wf_estate s;
  join_numbers z : rl_has (value_ranges (get_dinfo s)) z <->
    rl_has (value_ranges (get_dinfo s1)) z \/ rl_has (value_ranges (get_dinfo s2)) z;
  join_relations r : In r (related (get_dinfo s)) <-> In r (related (get_dinfo s1)) /\ In r (related (get_dinfo s2));
  join_hard_max : estate_has_hard_max (Some s) = true ->
    (has_rl (Some s1) = true -> estate_has_hard_max (Some s1) = true) /\
    (has_rl (Some s2) = true -> estate_has_hard_max (Some s2) = true);
  join_untagged : estate_treat_untagged (Some s) = estate_treat_untagged (Some s1) && estate_treat_untagged (Some s2);
  join_new : estate_new (Some s) = estate_new (Some s1) || estate_new (Some s2)
}.

Lemma merge_equiv_joins s1 s2 :
  wf_estate s1 -> wf_estate s2 -> (length (value_ranges (get_dinfo s1)) <= 5)%nat ->
  estates_equiv (Some s1) (Some s2) = true -> joins s1 s2 s1.
Proof.
  intros W1 W2 L E. destruct (estates_equiv_true _ _ E) as (Er & En & _ & Et & Eh & Ew). split.
  - done.
  - intros z. pose proof (same_name_has s1 s2 z W1 W2 L En). tauto.
  - intros r. rewrite Er. tauto.
  - intros H. by rewrite <- Eh, H.
  - by rewrite <- Et, andb_diag.
  - by rewrite <- Ew, orb_diag.
Qed.

Lemma joins_has_rl s1 s2 s :
  wf_estate s1 -> wf_estate s2 -> wf_estate s ->
  (forall z, rl_has (value_ranges (get_dinfo s)) z <->
    rl_has (value_ranges (get_dinfo s1)) z \/ rl_has (value_ranges (get_dinfo s2)) z) ->
  has_rl (Some s) = has_rl (Some s1) || has_rl (Some s2).
Proof.
  intros W1 W2 W H. pose proof (has_rl_false s1 W1) as H1. pose proof (has_rl_false s2 W2) as H2.
  pose proof (has_rl_false s W) as H3.
  assert (has_rl (Some s) = false <-> has_rl (Some s1) = false /\ has_rl (Some s2) = false) as E.
  { rewrite H1, H2, H3. split; [intros A; split; intros z Hz; apply (A z), H; tauto|].
    intros [A B] z Hz. apply H in Hz as [Hz|Hz]; [by apply (A z)|by apply (B z)]. }
  destruct (has_rl (Some s)), (has_rl (Some s1)), (has_rl (Some s2)); simpl; intuition congruence.
Qed.

Lemma joins_intro s1 s2 s :
  wf_estate s1 -> wf_estate s2 -> wf_estate s ->
  (forall z, rl_has (value_ranges (get_dinfo s)) z <->
    rl_has (value_ranges (get_dinfo s1)) z \/ rl_has (value_ranges (get_dinfo s2)) z) ->
  (forall r, In r (related (get_dinfo s)) <-> In r (related (get_dinfo s1)) /\ In r (related (get_dinfo s2))) ->
  (hard_max (get_dinfo s) = true -> merged_hard_max (Some s1) (Some s2) = true) ->
  treat_untagged (get_dinfo s) = estate_treat_untagged (Some s1) && estate_treat_untagged (Some s2) ->
  set (get_dinfo s) = estate_new (Some s1) || estate_new (Some s2) ->
  joins s1 s2 s.
Proof.
  intros W1 W2 W Hn Hr Hh Hu Hw. pose proof (joins_has_rl _ _ _ W1 W2 W Hn) as E.
  split; [done|done|done| | |].
  - unfold estate_has_hard_max at 1. case_if; [done|]. intros H%Hh. unfold merged_hard_max in H.
    destruct (estate_has_hard_max (Some s1)), (estate_has_hard_max (Some s2)), (has_rl (Some s1)), (has_rl (Some s2));
      simpl in H; auto.
  - unfold estate_treat_untagged at 1. rewrite E, Hu. unfold estate_treat_untagged.
    by destruct (has_rl (Some s1)), (has_rl (Some s2)).
  - unfold estate_new at 1. rewrite E, Hw. unfold estate_new.
    by destruct (has_rl (Some s1)), (has_rl (Some s2)).
Qed.

Lemma merge_new_joins s1 s2 :
  wf_estate s1 -> wf_estate s2 -> estates_equiv (Some s1) (Some s2) = false ->
  exists s, merge_estates fp_to_str (Some s1) (Some s2) = Some s /\ joins s1 s2 s.
Proof.
  intros W1 W2 Eq. rewrite (merge_estates_eq _ _ Eq). eexists. split; [reflexivity|]. cbn [estate_rl estate_related].
  set (r1 := value_ranges (get_dinfo s1)). set (r2 := value_ranges (get_dinfo s2)).
  destruct (rl_union_wf t Ht r1 r2 (wf_rl_ranges _ _ (we_rl _ W1)) (wf_rl_ranges _ _ (we_rl _ W2)) ltac:(by left)) as [Wu Hu].
  set (rels := get_shared_relations _ _). set (e0 := alloc_estate_rl fp_to_str (rl_union r1 r2)).
  destruct (alloc_estate_rl_wf _ Wu) as [[A1 A2 _] A4]. fold e0 in A1, A2, A4.
  destruct (alloc_estate_rl_flags (rl_union r1 r2)) as (F1 & F2 & F3). fold e0 in F1, F2, F3.
  destruct (set_related_spec e0 rels) as (B1 & B2 & B3). destruct (set_related_flags e0 rels) as (G1 & G2 & G3).
  destruct (with_flags_spec (set_related e0 rels) (merged_hard_max (Some s1) (Some s2))
    (sval_max (estate_get_fuzzy_max (Some s1)) (estate_get_fuzzy_max (Some s2))) (merged_capped (Some s1) (Some s2))
    (estate_treat_untagged (Some s1) && estate_treat_untagged (Some s2))
    (estate_assigned (Some s1) || estate_assigned (Some s2)) (estate_new (Some s1) || estate_new (Some s2)))
    as (C & Hh & _ & Hut & _ & Hn). rewrite G1, F1 in Hh. rewrite G2, F2 in Hut. rewrite G3, F3 in Hn.
  destruct (get_shared_relations_spec _ _ (we_related _ W1) (we_related _ W2)) as [R1 R2].
  assert (wf_estate (set_related e0 rels)) as Wr by (split; rewrite ?B1, ?B2, ?B3; done).
  pose proof (wf_same_core _ _ C Wr) as We. destruct C as (_ & C2 & C3).
  apply joins_intro; auto; [| |intros H; by destruct (Hh H)].
  - intros z. rewrite C2, B2, A4. apply Hu.
  - intros r. rewrite C3, B3. apply R2.
Qed.
End estates.
