(* ===== verification/EstateTheorems.v ===== *)
(** * The theorems about the text of range lists and about extended states *)
From Stdlib Require Import Ascii String.
From S2P Require Import Prelude Types Tokens Sval SvalFacts RangeList RangeFacts RangeCompare RangeText RangeTextFacts Avl AvlFacts Stree Estate EstateFacts Concrete.
#[local] Open Scope Z_scope.

Section theorems.
Context `{Tgt : Target} `{Fp : FloatOps}.

(** C9: the text show_rl() makes of a list in normal form of an integer type
    fits its buffer of 255 bytes, and str_to_rl() reads it: the result is in
    normal form and holds every number of the list, and it is the list itself
    if it has no more than five ranges (a longer one may be cut, and then its
    last range goes up to the end of the type). *)
Theorem show_rl_str_to_rl (fp_to_str : sval_t -> text) (strtofp : option symbol -> text -> sval_t * text) t rl :
  std_type t -> type_is_ptr t = false -> wf_rl t rl ->
  (length (show_rl fp_to_str rl) <= 254)%nat /\
  exists rl', str_to_rl strtofp t (show_rl fp_to_str rl) = Some rl' /\ wf_rl t rl' /\
    (forall z, rl_has rl z -> rl_has rl' z) /\
    ((length rl <= 5)%nat -> rl' = rl).
Proof.
  intros Ht Np W. destruct (decide (rl = [])) as [->|Ne].
  { split; [simpl; lia|]. exists []. split; [|auto]. by destruct (std_type_some t Ht) as [s ->]. }
  destruct (show_rl_spec fp_to_str strtofp t Ht Np rl W Ne) as (ds & S & L & E).
  destruct (shows_wf t Ht rl ds W S) as [Wd Hd]. rewrite E. split; [lia|]. exists ds.
  assert (ds <> []) as Nd.
  { destruct rl as [|d rl]; [done|]. intros ->. assert (rl_has [] (num (rmin d))) as H; [|by apply rl_has_nil in H].
    apply Hd, rl_has_cons. left. destruct W as [F _]. inversion_clear F as [|? ? Wr _].
    pose proof (wf_order _ _ Wr). unfold in_range. lia. }
  split; [by apply (str_to_rl_join fp_to_str strtofp t Ht Np)|]. split; [done|]. split; [done|].
  intros H5. destruct S as [?|[? _]]; [done|lia].
Qed.

(** C8: merging two extended states of one integer type gives a well-formed
    state that holds exactly the numbers of both and exactly the relations they
    share; it has a hard maximum only if both have one (or no numbers), it is
    untagged if both are, and new if one is.  The first list has no more than
    five ranges: estates_equiv() compares texts, which cut longer lists
    ([merge_estates_misses]).  Nothing is said of the assigned and capped flags and the fuzzy maximum. *)
Theorem merge_estates_joins (fp_to_str : sval_t -> text) t s1 s2 :
  std_type t -> type_is_ptr t = false -> wf_estate fp_to_str t s1 -> wf_estate fp_to_str t s2 ->
  (length (value_ranges (get_dinfo s1)) <= 5)%nat ->
  exists s, merge_estates fp_to_str (Some s1) (Some s2) = Some s /\ joins fp_to_str t s1 s2 s.
Proof.
  intros Ht Np W1 W2 L. destruct (estates_equiv (Some s1) (Some s2)) eqn:E.
  - exists s1. split; [unfold merge_estates; by rewrite E|].
    by apply (merge_equiv_joins fp_to_str (fun t s => (Sval t 0, s)) t Ht Np).
  - by apply (merge_new_joins fp_to_str (fun t s => (Sval t 0, s)) t Ht Np).
Qed.
End theorems.

(** ** Samples *)

Definition no_fp_text (s : sval_t) : text := lit "nan".
Definition no_fp_value (t : option symbol) (s : text) : sval_t * text := (sval_type_val t 0, s).

Definition sample_rl : range_list := mk_rl int_ctype [(-9, -1); (1, 32767)].

Lemma show_rl_str_to_rl_witness :
  (length (show_rl no_fp_text sample_rl) <= 254)%nat /\
  exists rl', str_to_rl no_fp_value int_ctype (show_rl no_fp_text sample_rl) = Some rl' /\ rl' = sample_rl.
Proof.
  destruct (show_rl_str_to_rl no_fp_text no_fp_value int_ctype sample_rl
    ltac:(concrete) ltac:(concrete) ltac:(concrete)) as (L & rl' & E & _ & _ & H).
  split; [exact L|]. exists rl'. split; [exact E|]. apply H. vm_compute. lia.
Defined.

Definition sample_estate (l : list (Z * Z)) : estate := alloc_estate_rl no_fp_text (mk_rl int_ctype l).

Lemma sample_estate_wf l : wf_rlb int_ctype (mk_rl int_ctype l) = true -> wf_estate no_fp_text int_ctype (sample_estate l).
Proof. intros H. apply (alloc_estate_rl_wf no_fp_text int_ctype). by apply wf_rlb_sound. Defined.

Lemma merge_estates_joins_witness :
  exists s, merge_estates no_fp_text (Some (sample_estate [(0, 3)])) (Some (sample_estate [(4, 9); (20, 20)])) = Some s /\
    joins no_fp_text int_ctype (sample_estate [(0, 3)]) (sample_estate [(4, 9); (20, 20)]) s.
Proof.
  apply (merge_estates_joins no_fp_text int_ctype); [concrete|concrete| | |vm_compute; lia];
    apply sample_estate_wf; vm_compute; reflexivity.
Defined.

(** Sixty ranges, and the same with a longer last one. *)
Definition many : list (Z * Z) := map (fun i => (10 * Z.of_nat i, 10 * Z.of_nat i + 5)) (seq 0 59).
Definition long_one : estate := sample_estate (many ++ [(590, 595)]).
Definition long_two : estate := sample_estate (many ++ [(590, 599)]).

(** without the bound merging loses numbers: two lists that differ after
    the place where the text is cut have the same name, so merge_estates() takes
    them for equivalent and returns the first, which does not have 597.  Merging
    also loses that the second state was assigned, which estates_equiv() does
    not look at. *)
Theorem merge_estates_misses :
  (state_name long_one = state_name long_two /\
   merge_estates no_fp_text (Some long_one) (Some long_two) = Some long_one /\
   rl_has (value_ranges (get_dinfo long_two)) 597 /\ ~ rl_has (value_ranges (get_dinfo long_one)) 597) /\
  (estate_assigned (Some (estate_set_assigned (sample_estate [(0, 3)]))) = true /\
   estate_assigned (merge_estates no_fp_text (Some (sample_estate [(0, 3)]))
                                  (Some (estate_set_assigned (sample_estate [(0, 3)])))) = false).
Proof.
  split; [split_and!|split; vm_compute; reflexivity].
  - vm_compute. reflexivity.
  - vm_compute. reflexivity.
  - apply (bool_decide_unpack _). vm_compute. exact I.
  - apply (bool_decide_unpack _). vm_compute. exact I.
Qed.
