(* ===== verification/PtrList.v ===== *)
(** * Pointer lists: the block lists of ptrlist.c

    A list of pointers is a ring of blocks of at most [LIST_NODE_NR] entries,
    linked both ways; the handle of a list is the address of its first block, NULL
    for the empty list.  The blocks live in a heap, so the links are the ones the
    code sets, and a use of a block that was freed, of NULL, or an assertion that
    fails is [None].  Entries are addresses, 0 for NULL. *)
From stdpp Require Import gmap.
From S2P Require Import Prelude.
#[local] Open Scope Z_scope.

Definition LIST_NODE_NR : Z := 13.

(** [blk] is the array [list] up to [nr]; what is behind is never read. *)
Record ptr_list : Set := PtrList {
  pl_prev : Z;
  pl_next : Z;
  pl_rm : Z;
  blk : list Z
}.

Definition nr (b : ptr_list) : Z := Z.of_nat (length (blk b)).

Definition set_prev (p : Z) (b : ptr_list) : ptr_list := PtrList p (pl_next b) (pl_rm b) (blk b).
Definition set_next (p : Z) (b : ptr_list) : ptr_list := PtrList (pl_prev b) p (pl_rm b) (blk b).
Definition set_list (l : list Z) (b : ptr_list) : ptr_list := PtrList (pl_prev b) (pl_next b) (pl_rm b) l.
Definition set_rm (r : Z) (b : ptr_list) : ptr_list := PtrList (pl_prev b) (pl_next b) r (blk b).

(** The blocks in use, and the address the allocator gives out next. *)
Record blocks : Set := Blocks { cells : gmap Z ptr_list; brk : Z }.

(** ** Programs over blocks *)

Definition M (A : Type) : Type := blocks -> option (A * blocks).

#[export] Instance M_ret : MRet M := fun A x h => Some (x, h).
#[export] Instance M_bind : MBind M := fun A B f m h =>
  match m h with Some (x, h') => f x h' | None => None end.
#[export] Instance M_fail : MFail M := fun A _ h => None.

Definition deref (a : Z) : M ptr_list := fun h => match cells h !! a with Some b => Some (b, h) | None => None end.
Definition modify (a : Z) (f : ptr_list -> ptr_list) : M unit := fun h =>
  match cells h !! a with Some b => Some (tt, Blocks (<[a := f b]> (cells h)) (brk h)) | None => None end.

(** The allocator returns zeroed memory. *)
Definition alloc_ptrlist : M Z := fun h =>
  Some (brk h, Blocks (<[brk h := PtrList 0 0 0 []]> (cells h)) (brk h + 1)).

(** The blocks of range lists come from an allocator of their own; they are freed by __free_ptrlist() as all others are.  What
    tells the two apart is free_all_rl(), which forgets all blocks of the second one after every function. *)
Definition alloc_rl_ptrlist : M Z := fun h =>
  Some (brk h, Blocks (<[brk h := PtrList 0 0 0 []]> (cells h)) (brk h + 1)).

Definition free_ptrlist (a : Z) : M unit := fun h =>
  match cells h !! a with Some _ => Some (tt, Blocks (delete a (cells h)) (brk h)) | None => None end.

(** More steps than a walk over the entries and blocks of any list can take. *)
Definition fuel : M nat := fun h => Some (S (15 * size (cells h)), h).

(** [do body while ((list = list->next) != head)]: the body answers a new state,
    or [inr] to leave the function. *)
Fixpoint do_blocks {S R} (body : S -> ptr_list -> S + R) (n : nat) (head list : Z) (s : S) : M (S + R) :=
  match n with
  | O => mfail
  | Datatypes.S n =>
    b ← deref list;
    match body s b with
    | inr r => mret (inr r)
    | inl s => if pl_next b =? head then mret (inl s) else do_blocks body n head (pl_next b) s
    end
  end.

(** The same from the last block to the first, [list = list->prev] first. *)
Fixpoint do_blocks_rev {S R} (body : S -> ptr_list -> S + R) (n : nat) (head list : Z) (s : S) : M (S + R) :=
  match n with
  | O => mfail
  | Datatypes.S n =>
    c ← deref list;
    b ← deref (pl_prev c);
    match body s b with
    | inr r => mret (inr r)
    | inl s => if pl_prev c =? head then mret (inl s) else do_blocks_rev body n head (pl_prev c) s
    end
  end.

(** ** Reading *)

Definition ptr_list_size (head : Z) : M Z :=
  if head =? 0 then mret 0 else
    n ← fuel;
    r ← do_blocks (R := Z) (fun s b => inl (s + (nr b - pl_rm b))) n head head 0;
    match r with inl s => mret s | inr r => mret r end.

Definition ptr_list_empty (head : Z) : M bool :=
  if head =? 0 then mret true else
    n ← fuel;
    r ← do_blocks (fun s b => if truth (nr b - pl_rm b) then inr false else inl s) n head head tt;
    match r with inl _ => mret true | inr r => mret r end.

Definition ptr_list_multiple (head : Z) : M bool :=
  if head =? 0 then mret false else
    n ← fuel;
    r ← do_blocks (fun s b => let s := s + (nr b - pl_rm b) in if s >? 1 then inr true else inl s) n head head 0;
    match r with inl _ => mret false | inr r => mret r end.

(** The entry at index [i] of a block. *)
Definition entry (b : ptr_list) (i : Z) : Z := nth (Z.to_nat i) (blk b) 0.

Definition PTR_UNTAG (p : Z) : Z := Z.land (Z.lnot 3) p.

Definition first_ptr_list (head : Z) : M Z :=
  if head =? 0 then mret 0 else
    n ← fuel;
    r ← do_blocks (fun s b => if nr b =? 0 then inl s else inr (entry b 0)) n head head tt;
    match r with inl _ => mret 0 | inr r => mret r end.

Definition last_ptr_list (head : Z) : M Z :=
  if head =? 0 then mret 0 else
    n ← fuel;
    r ← do_blocks_rev (fun s b => if nr b =? 0 then inl s else inr (entry b (nr b - 1))) n head head tt;
    match r with inl _ => mret 0 | inr r => mret r end.

Definition ptr_list_nth_entry (list idx : Z) : M Z :=
  if list =? 0 then mret 0 else
    n ← fuel;
    r ← do_blocks (fun idx b => if idx <? nr b then inr (entry b idx) else inl (idx - nr b)) n list list idx;
    match r with inl _ => mret 0 | inr r => mret r end.

(** One turn of linearize_ptr_list(): what is in [arr], the room left, the count. *)
Definition linearize_step : list Z * Z * Z -> ptr_list -> list Z * Z * Z + Empty_set := fun '(arr, max, s) b =>
  let s := s + nr b in
  if max =? 0 then inl (arr, max, s) else
    let i := if nr b >? max then max else nr b in
    inl (arr ++ take (Z.to_nat i) (blk b), max - i, s).

(** What linearize_ptr_list() stores in [arr], and the number it returns. *)
Definition linearize_ptr_list (head max : Z) : M (list Z * Z) :=
  if negb (head =? 0) && (max >? 0) then
    n ← fuel;
    r ← do_blocks linearize_step n head head ([], max, 0);
    match r with inl (arr, _, s) => mret (arr, s) | inr r => match r : Empty_set with end end
  else mret ([], 0).

Definition lookup_ptr_list_entry (head e : Z) : M bool :=
  if head =? 0 then mret false else
    n ← fuel;
    r ← do_blocks (fun s b => if existsb (Z.eqb e) (blk b) then inr true else inl s) n head head tt;
    match r with inl _ => mret false | inr r => mret r end.

(** ** Adding *)

(** The address the entry is stored at is the block and the index in it.  rl_ptrlist_hack, which add_range() sets around its
    call, is an argument. *)
Definition add_ptr_list_at (rl_ptrlist_hack : bool) (listp ptr : Z) : M (Z * (Z * Z)) :=
  let alloc := if rl_ptrlist_hack then alloc_rl_ptrlist else alloc_ptrlist in
  '(listp, l, n) ← (
    if listp =? 0 then
      a ← alloc;
      modify a (set_next a);; modify a (set_prev a);; mret (a, a, 0)
    else
      b ← deref listp;
      let l := pl_prev b in
      c ← deref l;
      if nr c >=? LIST_NODE_NR then
        a ← alloc;
        modify a (set_prev l);; modify a (set_next listp);;
        modify listp (set_prev a);; modify l (set_next a);; mret (listp, a, 0)
      else mret (listp, l, nr c));
  modify l (fun b => set_list (take (Z.to_nat n) (blk b) ++ [ptr]) b);;
  mret (listp, (l, n)).

(** The handle after __add_ptr_list(). *)
Definition add_ptr_list (rl_ptrlist_hack : bool) (listp ptr : Z) : M Z :=
  '(listp, _) ← add_ptr_list_at rl_ptrlist_hack listp ptr; mret listp.

Definition add_ptr_list_tag (rl_ptrlist_hack : bool) (listp ptr tag : Z) : M Z :=
  if negb (Z.land 3 ptr =? 0) then mfail
  else if negb (Z.land (Z.lnot 3) tag =? 0) then mfail
  else add_ptr_list rl_ptrlist_hack listp (Z.lor tag ptr).

(** ** Walking and changing a list while walking it *)

(** The entries a walk sees: __list, __nr and *THIS_ADDRESS(ptr). *)
Definition cursor : Set := Z * Z.

(** FOR_EACH_PTR() and FOR_EACH_PTR_TAG(): [get] is the identity for the former and
    [PTR_UNTAG] for the latter.  The body may move the cursor, and answers [true] to
    leave the loop. *)
Fixpoint for_each_from {S} (get : Z -> Z) (body : cursor -> Z -> S -> M (cursor * S * bool))
    (n : nat) (head : Z) (c : cursor) (s : S) : M S :=
  match n with
  | O => mfail
  | Datatypes.S n =>
    let '(list, i) := c in
    b ← deref list;
    if i <? nr b then
      let ptr := get (entry b i) in
      if truth (pl_rm b) && (ptr =? 0) then for_each_from get body n head (list, i + 1) s
      else
        '((list, i), s, stop) ← body (list, i) ptr s;
        if (stop : bool) then mret s else for_each_from get body n head (list, i + 1) s
    else if pl_next b =? head then mret s
    else for_each_from get body n head (pl_next b, 0) s
  end.

Definition for_each_ptr {S} (get : Z -> Z) (head : Z) (body : cursor -> Z -> S -> M (cursor * S * bool)) (s : S) : M S :=
  if head =? 0 then mret s else n ← fuel; for_each_from get body n head (head, 0) s.

(** FOR_EACH_PTR_REVERSE() with a body that only reads: the entries in the order seen. *)
Definition reverse_step (s : list Z) (b : ptr_list) : list Z + Empty_set :=
  inl (s ++ List.filter (fun p => negb (truth (pl_rm b) && (p =? 0))) (rev (blk b))).

Definition for_each_ptr_reverse (head : Z) : M (list Z) :=
  if head =? 0 then mret [] else
    n ← fuel;
    r ← do_blocks_rev reverse_step n head head [];
    match r with inl s => mret s | inr r => match r : Empty_set with end end.

Definition replace_current_ptr (c : cursor) (new : Z) : M unit :=
  modify c.1 (fun b => set_list (<[Z.to_nat c.2 := new]> (blk b)) b).

Definition mark_current_deleted (c : cursor) : M unit :=
  replace_current_ptr c 0;; modify c.1 (fun b => set_rm (pl_rm b + 1) b).

(** DELETE_CURRENT_PTR() leaves the cursor one before the deleted entry. *)
Definition delete_current_ptr (c : cursor) : M cursor :=
  modify c.1 (fun b => set_list (take (Z.to_nat c.2) (blk b) ++ drop (S (Z.to_nat c.2)) (blk b)) b);;
  mret (c.1, c.2 - 1).

Definition split_ptr_list_head (head : Z) : M unit :=
  b ← deref head;
  let old := nr b in
  let n := Z.quot old 2 in
  newlist ← alloc_ptrlist;
  b ← deref head;
  let next := pl_next b in
  let old := old - n in
  modify head (fun b => set_list (take (Z.to_nat old) (blk b)) b);;
  modify newlist (set_next next);; modify next (set_prev newlist);;
  modify newlist (set_prev head);; modify head (set_next newlist);;
  modify newlist (set_list (take (Z.to_nat n) (drop (Z.to_nat old) (blk b)))).

(** INSERT_CURRENT() puts [new] before the current entry; the cursor stays on the
    index, where [new] is now. *)
Definition insert_current (c : cursor) (new : Z) : M cursor :=
  let '(list, i) := c in
  b ← deref list;
  '(list, i) ← (
    if nr b =? LIST_NODE_NR then
      split_ptr_list_head list;;
      b ← deref list;
      if i >=? nr b then mret (pl_next b, i - nr b) else mret (list, i)
    else mret (list, i));
  modify list (fun b => set_list (take (Z.to_nat i) (blk b) ++ [new] ++ drop (Z.to_nat i) (blk b)) b);;
  mret (list, i).

(** PREPARE_PTR_LIST() and NEXT_PTR_LIST(): the cursor and the pointer they give, NULL
    at the end. *)
Fixpoint ptr_next_from (n : nat) (head : Z) (c : cursor) : M (cursor * Z) :=
  match n with
  | O => mfail
  | S n =>
    let '(list, i) := c in
    b ← deref list;
    if i <? nr b then mret ((list, i + 1), PTR_UNTAG (entry b i))
    else if pl_next b =? head then mret ((head, 0), 0)
    else ptr_next_from n head (pl_next b, 0)
  end.

Definition prepare_ptr_list (head : Z) : M (cursor * Z) :=
  if head =? 0 then mret ((head, 0), 0) else n ← fuel; ptr_next_from n head (head, 0).

Definition next_ptr_list (head : Z) (c : cursor) (ptr : Z) : M (cursor * Z) :=
  if truth ptr then n ← fuel; ptr_next_from n head c else mret (c, ptr).

(** ** Deleting, joining, freeing *)

(** pack_ptr_list() from the block [entry]; the answer is the handle. *)
Fixpoint pack_from (n : nat) (head entry : Z) : M Z :=
  match n with
  | O => mfail
  | S n =>
    b ← deref entry;
    let next := pl_next b in
    if nr b =? 0 then
      if next =? entry then free_ptrlist entry;; mret 0
      else
        let prev := pl_prev b in
        modify prev (set_next next);; modify next (set_prev prev);; free_ptrlist entry;;
        if entry =? head then pack_from n next next
        else if next =? head then mret head else pack_from n head next
    else if next =? head then mret head else pack_from n head next
  end.

Definition pack_ptr_list (listp : Z) : M Z :=
  if listp =? 0 then mret 0 else n ← fuel; pack_from n listp listp.

(** The handle and the count; the assertion fails if there were not [count] of them. *)
Definition delete_ptr_list_entry (list e count : Z) : M (Z * Z) :=
  '(count, out) ← for_each_ptr id list (fun c ptr '(count, out) =>
    if ptr =? e then
      c ← delete_current_ptr c;
      let count := count - 1 in
      if count =? 0 then mret (c, (count, true), true) else mret (c, (count, out), false)
    else mret (c, (count, out), false)) (count, false);
  if (out : bool) || (count <=? 0) then list ← pack_ptr_list list; mret (list, count) else mfail.

Definition replace_ptr_list_entry (list old_ptr new_ptr count : Z) : M Z :=
  '(count, out) ← for_each_ptr id list (fun c ptr '(count, out) =>
    if ptr =? old_ptr then
      replace_current_ptr c new_ptr;;
      let count := count - 1 in
      if count =? 0 then mret (c, (count, true), true) else mret (c, (count, out), false)
    else mret (c, (count, out), false)) (count, false);
  if (out : bool) || (count <=? 0) then mret count else mfail.

(** The blocks are searched backwards from the last one for an entry. *)
Fixpoint undo_from (n : nat) (first list : Z) : M Z :=
  match n with
  | O => mfail
  | S n =>
    c ← deref list;
    let l := pl_prev c in
    b ← deref l;
    if truth (nr b) then
      modify l (fun b => set_list (removelast (blk b)) b);; mret (entry b (nr b - 1))
    else if l =? first then mret 0 else undo_from n first l
  end.

Definition undo_ptr_list_last (head : Z) : M Z :=
  if head =? 0 then mret 0 else n ← fuel; undo_from n head head.

Definition delete_ptr_list_last (first : Z) : M (Z * Z) :=
  if first =? 0 then mret (0, 0) else
    c ← deref first;
    let l := pl_prev c in
    b ← deref l;
    ptr ← (if truth (nr b) then
             modify l (fun b => set_list (removelast (blk b)) b);; mret (entry b (nr b - 1))
           else mret 0);
    b ← deref l;
    if nr b <=? 0 then
      modify first (set_prev (pl_prev b));;
      b ← deref l;
      modify (pl_prev b) (set_next first);;
      free_ptrlist l;;
      mret (if l =? first then 0 else first, ptr)
    else mret (first, ptr).

Definition concat_ptr_list (rl_ptrlist_hack : bool) (a b : Z) : M Z :=
  for_each_ptr id a (fun c e b => b ← add_ptr_list rl_ptrlist_hack b e; mret (c, b, false)) b.

(** The inner loop of copy_ptr_list(): the entries of a block go behind the [idx]
    entries of the block [tail].  The block's [nr] is set when it is full. *)
Fixpoint copy_entries (es : list Z) (tail idx : Z) : M (Z * Z) :=
  match es with
  | [] => mret (tail, idx)
  | ptr :: es =>
    if ptr =? 0 then copy_entries es tail idx else
      '(tail, idx) ← (
        if idx >=? LIST_NODE_NR then
          a ← alloc_ptrlist;
          modify tail (set_next a);; modify a (set_prev tail);; mret (a, 0)
        else mret (tail, idx));
      modify tail (fun b => set_list (take (Z.to_nat idx) (blk b) ++ [ptr]) b);;
      copy_entries es tail (idx + 1)
  end.

Fixpoint copy_blocks (n : nat) (src cur tail idx : Z) : M (Z * Z) :=
  match n with
  | O => mfail
  | S n =>
    b ← deref cur;
    '(tail, idx) ← copy_entries (blk b) tail idx;
    b ← deref cur;
    free_ptrlist cur;;
    if pl_next b =? src then mret (tail, idx) else copy_blocks n src (pl_next b) tail idx
  end.

Definition copy_ptr_list (listp src : Z) : M Z :=
  if src =? 0 then mret listp
  else if listp =? 0 then mret src
  else
    b ← deref listp;
    let tail := pl_prev b in
    c ← deref tail;
    n ← fuel;
    '(tail, idx) ← copy_blocks n src src tail (nr c);
    modify tail (fun b => set_list (take (Z.to_nat idx) (blk b)) b);;
    modify listp (set_prev tail);; modify tail (set_next listp);;
    mret listp.

Fixpoint free_from (n : nat) (list : Z) : M unit :=
  match n with
  | O => mfail
  | S n =>
    if list =? 0 then mret tt
    else b ← deref list; free_ptrlist list;; free_from n (pl_next b)
  end.

Definition free_ptr_list (listp : Z) : M Z :=
  if listp =? 0 then mret 0 else
    b ← deref listp;
    modify (pl_prev b) (set_next 0);;
    n ← fuel;
    free_from n listp;; mret 0.
