(* ===== verification/PtrListFacts.v ===== *)
(** * Rings of blocks

    [ring h head ns]: in the blocks [h], [head] is the handle of a list with the
    nodes [ns], in order.  A node is an address with what the block holds.  A segment
    [dseg h p ns q] is linked both ways, with [p] before it and [q] behind it; a ring
    is a segment that has its own ends there, so it can be turned. *)
From stdpp Require Import gmap.
From S2P Require Import Prelude PtrList.
#[local] Open Scope Z_scope.

Abbreviation node := (Z * (Z * list Z))%type.
Abbreviation addrs := (map (fst (A := Z) (B := Z * list Z))).

Lemma NoDup_addrs_cons (n : node) ns : NoDup (addrs (n :: ns)) -> (n.1 ∉ addrs ns) /\ NoDup (addrs ns).
Proof. apply list.NoDup_cons. Qed.

Lemma NoDup_last (ns : list node) n : NoDup (addrs (ns ++ [n])) -> n.1 ∉ addrs ns.
Proof.
  rewrite map_app. intros Hd. apply list.NoDup_app in Hd as (_ & Hd & _).
  intros Hk. apply (Hd _ Hk), list_elem_of_here.
Qed.

Definition front (ns : list node) (q : Z) : Z := match ns with [] => q | n :: _ => n.1 end.
Definition back (p : Z) (ns : list node) : Z := foldl (fun _ n => n.1) p ns.

Fixpoint dseg (h : gmap Z ptr_list) (p : Z) (ns : list node) (q : Z) : Prop :=
  match ns with
  | [] => True
  | (a, (r, l)) :: ns => h !! a = Some (PtrList p (front ns q) r l) /\ dseg h a ns q
  end.

Definition closed (h : gmap Z ptr_list) (ns : list node) : Prop := dseg h (back 0 ns) ns (front ns 0).

Lemma front_app ns ms q : front (ns ++ ms) q = front ns (front ms q).
Proof. by destruct ns. Qed.

Lemma back_app p ns ms : back p (ns ++ ms) = back (back p ns) ms.
Proof. apply foldl_app. Qed.

Lemma back_cons p p' n ns : back p (n :: ns) = back p' (n :: ns).
Proof. done. Qed.

Lemma front_ne ns q q' : ns <> [] -> front ns q = front ns q'.
Proof. by destruct ns. Qed.

Lemma back_ne p p' ns : ns <> [] -> back p ns = back p' ns.
Proof. by destruct ns. Qed.

Lemma front_in ns q : ns <> [] -> front ns q ∈ addrs ns.
Proof. destruct ns; [done|]. intros _. apply list_elem_of_here. Qed.

Lemma back_in p ns : ns <> [] -> back p ns ∈ addrs ns.
Proof.
  destruct ns as [|n ns _] using rev_ind; [done|]. intros _.
  rewrite back_app, map_app. apply elem_of_app. right. apply list_elem_of_here.
Qed.

Lemma dseg_app h p ns ms q : dseg h p (ns ++ ms) q <-> dseg h p ns (front ms q) /\ dseg h (back p ns) ms q.
Proof.
  revert p. induction ns as [|[a [r l]] ns IH]; intros p; cbn [app dseg]; [tauto|].
  rewrite IH, front_app. cbn [back foldl fst]. tauto.
Qed.

Lemma dseg_ext h h' p ns q :
  (forall a, a ∈ addrs ns -> h' !! a = h !! a) -> dseg h p ns q -> dseg h' p ns q.
Proof.
  revert p. induction ns as [|[a [r l]] ns IH]; intros p E; cbn [dseg]; [done|].
  intros [H1 H2]. split; [rewrite E; [done|apply list_elem_of_here]|].
  apply IH; [|done]. intros b Hb. apply E. cbn [map]. by apply list_elem_of_further.
Qed.

Lemma dseg_insert h p ns q a b : a ∉ addrs ns -> dseg h p ns q -> dseg (<[a := b]> h) p ns q.
Proof. intros Ha. apply dseg_ext. intros c Hc. rewrite lookup_insert_ne; [done|]. by intros ->. Qed.

Lemma dseg_delete h p ns q a : a ∉ addrs ns -> dseg h p ns q -> dseg (delete a h) p ns q.
Proof. intros Ha. apply dseg_ext. intros c Hc. rewrite lookup_delete_ne; [done|]. by intros ->. Qed.

Lemma dseg_lookup h p ns q a r l ms :
  dseg h p (ns ++ (a, (r, l)) :: ms) q -> h !! a = Some (PtrList (back p ns) (front ms q) r l).
Proof. rewrite dseg_app. cbn [dseg]. tauto. Qed.

(** ** Setting one field *)

Lemma dseg_alter h p ns q a f : a ∉ addrs ns -> dseg h p ns q -> dseg (alter f a h) p ns q.
Proof. intros Ha. apply dseg_ext. intros c Hc. rewrite lookup_alter_ne; [done|]. by intros ->. Qed.

Lemma dseg_set_prev h p p' n ns q :
  n.1 ∉ addrs ns -> dseg h p (n :: ns) q -> dseg (alter (set_prev p') n.1 h) p' (n :: ns) q.
Proof.
  destruct n as [a [r l]]. cbn [dseg fst]. intros Ha [H1 H2].
  split; [by rewrite lookup_alter_eq, H1|]. by apply dseg_alter.
Qed.

Lemma dseg_set_next h p ns n q q' :
  n.1 ∉ addrs ns -> dseg h p (ns ++ [n]) q -> dseg (alter (set_next q') n.1 h) p (ns ++ [n]) q'.
Proof.
  destruct n as [a [r l]]. cbn [fst]. rewrite !dseg_app. cbn [dseg front fst]. intros Ha (H1 & H2 & _).
  split; [by apply dseg_alter|]. by rewrite lookup_alter_eq, H2.
Qed.

(** [f] changes what the block holds and keeps the links. *)
Definition rewrites (f : ptr_list -> ptr_list) (x x' : Z * list Z) : Prop :=
  forall p q, f (PtrList p q x.1 x.2) = PtrList p q x'.1 x'.2.

Lemma dseg_set_payload h p ns a x x' ms q f :
  rewrites f x x' -> NoDup (addrs (ns ++ (a, x) :: ms)) ->
  dseg h p (ns ++ (a, x) :: ms) q -> dseg (alter f a h) p (ns ++ (a, x') :: ms) q.
Proof.
  destruct x as [r l], x' as [r' l'].
  rewrite !dseg_app. cbn [dseg front fst]. intros Hf Hd (H1 & H2 & H3).
  rewrite map_app in Hd. cbn [map fst] in Hd. apply list.NoDup_app in Hd as (_ & Hx & Hy).
  apply list.NoDup_cons in Hy as [Hy _].
  split; [apply dseg_alter; [|done]|split; [|by apply dseg_alter]].
  - intros Hin. apply (Hx _ Hin). apply list_elem_of_here.
  - rewrite lookup_alter_eq, H2. cbn. f_equal. apply Hf.
Qed.

Lemma alter_set_prev_next (h : gmap Z ptr_list) a b p q :
  alter (set_prev p) a (alter (set_next q) b h) = alter (set_next q) b (alter (set_prev p) a h).
Proof.
  destruct (decide (a = b)) as [->|N]; [|by apply alter_alter_ne].
  rewrite !alter_alter_eq. by apply alter_ext.
Qed.

(** ** Turning a ring *)

Lemma closed_rotate h ns ms : closed h (ns ++ ms) -> closed h (ms ++ ns).
Proof.
  unfold closed. destruct ns as [|n ns]; [by rewrite app_nil_r|]. destruct ms as [|m ms]; [by rewrite app_nil_r|].
  rewrite !dseg_app, !back_app, !front_app. cbn [front]. intros [H1 H2].
  split; [exact H2|exact H1].
Qed.

Lemma closed_ext h h' ns : (forall a, a ∈ addrs ns -> h' !! a = h !! a) -> closed h ns -> closed h' ns.
Proof. apply dseg_ext. Qed.

Lemma NoDup_rotate (ns ms : list node) : NoDup (addrs (ns ++ ms)) -> NoDup (addrs (ms ++ ns)).
Proof. rewrite !map_app. intros H. by rewrite Permutation_app_comm. Qed.


(** ** Ownership

    [holds h ns]: the blocks of [ns] are a ring, none has more than [LIST_NODE_NR]
    entries.  [evolves h h' ns ns'] is what an operation on the list may do to all
    blocks: its new blocks come from the allocator, those it no longer has are freed,
    every other block is as it was. *)

Definition wf_blocks (h : blocks) : Prop :=
  0 < brk h /\ forall a, is_Some (cells h !! a) -> 0 < a < brk h.

Definition small (n : node) : Prop := Z.of_nat (length n.2.2) <= LIST_NODE_NR.

Record holds (h : blocks) (ns : list node) : Prop := Holds {
  holds_wf : wf_blocks h;
  holds_closed : closed (cells h) ns;
  holds_nodup : NoDup (addrs ns);
  holds_small : Forall small ns
}.

Record evolves (h h' : blocks) (ns ns' : list node) : Prop := Evolves {
  ev_holds : holds h' ns';
  ev_frame : forall a, a ∉ addrs ns -> a ∉ addrs ns' -> cells h' !! a = cells h !! a;
  ev_freed : forall a, a ∈ addrs ns -> a ∉ addrs ns' -> cells h' !! a = None;
  ev_fresh : forall a, a ∈ addrs ns' -> a ∈ addrs ns \/ brk h <= a;
  ev_brk : brk h <= brk h'
}.

Lemma wf_fresh h a : wf_blocks h -> brk h <= a -> cells h !! a = None.
Proof.
  intros [_ W] Ha. destruct (cells h !! a) eqn:E; [|done]. specialize (W a). rewrite E in W.
  destruct W as [? ?]; [by eexists|lia].
Qed.

Lemma evolves_refl h ns : holds h ns -> evolves h h ns ns.
Proof. intros H. split; [done|done|done|by left|done]. Qed.

Lemma evolves_trans h1 h2 h3 ns1 ns2 ns3 :
  wf_blocks h1 -> evolves h1 h2 ns1 ns2 -> evolves h2 h3 ns2 ns3 -> evolves h1 h3 ns1 ns3.
Proof.
  intros W E1 E2. split; [apply E2| | | |pose proof (ev_brk _ _ _ _ E1); pose proof (ev_brk _ _ _ _ E2); lia].
  - intros a H1 H3. destruct (decide (a ∈ addrs ns2)) as [H2|H2].
    + rewrite (ev_freed _ _ _ _ E2) by done. destruct (ev_fresh _ _ _ _ E1 _ H2); [done|]. by rewrite wf_fresh.
    + rewrite (ev_frame _ _ _ _ E2) by done. by apply (ev_frame _ _ _ _ E1).
  - intros a H1 H3. destruct (decide (a ∈ addrs ns2)) as [H2|H2]; [by apply (ev_freed _ _ _ _ E2)|].
    rewrite (ev_frame _ _ _ _ E2) by done. by apply (ev_freed _ _ _ _ E1).
  - intros a H3. destruct (ev_fresh _ _ _ _ E2 _ H3) as [H2|H2]; [by apply (ev_fresh _ _ _ _ E1)|].
    right. pose proof (ev_brk _ _ _ _ E1). lia.
Qed.


Lemma holds_in h ns n : holds h ns -> n ∈ ns -> exists b, cells h !! n.1 = Some b /\ pl_rm b = n.2.1 /\ blk b = n.2.2.
Proof.
  intros H Hn. apply list_elem_of_split in Hn as (l1 & l2 & ->). destruct n as [a [r l]].
  pose proof (holds_closed _ _ H) as C. apply dseg_lookup in C. by eexists.
Qed.

Lemma holds_pos h ns a : holds h ns -> a ∈ addrs ns -> 0 < a < brk h.
Proof.
  intros H Ha. apply list_elem_of_fmap in Ha as (n & -> & Hn).
  destruct (holds_in _ _ _ H Hn) as (b & Hb & _). apply (holds_wf _ _ H). by rewrite Hb.
Qed.

Lemma holds_front h ns : holds h ns -> front ns 0 = 0 -> ns = [].
Proof.
  intros H. destruct ns as [|n ns]; [done|]. intros E.
  pose proof (holds_pos _ _ _ H (front_in (n :: ns) 0 ltac:(discriminate))). lia.
Qed.

(** Turned so that a given block comes first. *)
Lemma holds_rotate h ns ms : holds h (ns ++ ms) -> holds h (ms ++ ns).
Proof.
  intros [W C N S]. split; [exact W|exact (closed_rotate _ _ _ C)|exact (NoDup_rotate _ _ N)|].
  apply List.Forall_app in S as [S1 S2]. apply List.Forall_app. by split.
Qed.

Lemma rotated_elem (ns ms : list node) a : a ∈ addrs (ms ++ ns) <-> a ∈ addrs (ns ++ ms).
Proof. rewrite !map_app, !elem_of_app. tauto. Qed.

Lemma evolves_rotate h h' ns ms ns' ms' :
  evolves h h' (ms ++ ns) (ms' ++ ns') -> evolves h h' (ns ++ ms) (ns' ++ ms').
Proof.
  intros [A B C D E]. split; [exact (holds_rotate _ _ _ A)| | | |exact E]; intros a;
    rewrite ?(rotated_elem ms ns), ?(rotated_elem ms' ns').
  - apply B. - apply C. - apply D.
Qed.

(** ** Changing the links of a ring *)

Lemma alter_is_Some (h : gmap Z ptr_list) f a b : is_Some (alter f a h !! b) <-> is_Some (h !! b).
Proof. apply lookup_alter_is_Some. Qed.

(** The block at the front of a ring is taken out. *)
Lemma closed_unlink h n ns :
  ns <> [] -> NoDup (addrs (n :: ns)) -> closed h (n :: ns) ->
  closed (delete n.1 (alter (set_prev (back 0 ns)) (front ns 0) (alter (set_next (front ns 0)) (back 0 ns) h))) ns.
Proof.
  intros Hne Hd. unfold closed. destruct n as [a [r l]]. cbn [dseg front fst]. intros [_ H].
  apply NoDup_addrs_cons in Hd as [Ha Hd].
  apply dseg_delete; [done|].
  destruct ns as [|m ns]; [done|]. cbn [front]. 
  apply dseg_set_prev with (p := a); [by apply NoDup_addrs_cons in Hd as [? _]|].
  destruct (exists_last (l := m :: ns) ltac:(discriminate)) as (ns' & k & E).
  rewrite E in *.
  rewrite back_app. apply dseg_set_next with (q := a); [|done].
  by apply NoDup_last.
Qed.

(** A block [a] is put behind the last block. *)
Lemma closed_append h ns a r l :
  ns <> [] -> a ∉ addrs ns -> NoDup (addrs ns) -> closed h ns ->
  closed (alter (set_next a) (back 0 ns) (alter (set_prev a) (front ns 0)
    (<[a := PtrList (back 0 ns) (front ns 0) r l]> h))) (ns ++ [(a, (r, l))]).
Proof.
  intros Hne Ha Hd. unfold closed. rewrite dseg_app, back_app, front_app. cbn [back foldl fst front dseg].
  intros H. split.
  - destruct (exists_last Hne) as (ns' & k & ->). rewrite back_app. cbn [back foldl].
    apply dseg_set_next with (q := front (ns' ++ [k]) 0).
    { by apply NoDup_last. }
    destruct (ns' ++ [k]) as [|m ms] eqn:E; [by destruct ns'|]. cbn [front fst].
    apply dseg_set_prev with (p := back 0 (m :: ms)); [by apply NoDup_addrs_cons in Hd as [? _]|].
    by apply dseg_insert.
  - split; [|done]. rewrite (front_ne ns a 0) by done. rewrite (back_ne a 0) by done.
    assert (Hb : back 0 ns ∈ addrs ns) by by apply back_in.
    assert (Hf : front ns 0 ∈ addrs ns) by by apply front_in.
    rewrite !lookup_alter_ne; [by rewrite lookup_insert_eq| |]; intros E; apply Ha; by rewrite <- E.
Qed.

(** ** Running programs *)

Lemma bind_run {A B} (m : M A) (f : A -> M B) h x h' : m h = Some (x, h') -> (m ≫= f) h = f x h'.
Proof. intros H. unfold mbind, M_bind. by rewrite H. Qed.

Lemma deref_run h a b : cells h !! a = Some b -> deref a h = Some (b, h).
Proof. intros H. unfold deref. by rewrite H. Qed.

Lemma modify_run h a f : is_Some (cells h !! a) -> modify a f h = Some (tt, Blocks (alter f a (cells h)) (brk h)).
Proof. intros [b H]. unfold modify. rewrite H. do 3 f_equal. symmetry. by apply alter_alt_Some. Qed.

Lemma free_run h a : is_Some (cells h !! a) -> free_ptrlist a h = Some (tt, Blocks (delete a (cells h)) (brk h)).
Proof. intros [b H]. unfold free_ptrlist. by rewrite H. Qed.

Lemma wf_alter c k a f : wf_blocks (Blocks c k) -> wf_blocks (Blocks (alter f a c) k).
Proof. intros [W1 W2]. split; [done|]. intros b. cbn [cells brk]. rewrite alter_is_Some. apply W2. Qed.

Lemma wf_blocks_delete c k a : wf_blocks (Blocks c k) -> wf_blocks (Blocks (delete a c) k).
Proof.
  intros [W1 W2]. split; [done|]. intros b [d Hc]. cbn [cells brk] in *.
  apply lookup_delete_Some in Hc as [_ Hc]. apply W2. by eexists.
Qed.

Lemma wf_blocks_alloc h b : wf_blocks h -> wf_blocks (Blocks (<[brk h := b]> (cells h)) (brk h + 1)).
Proof.
  intros [W1 W2]. split; cbn [cells brk]; [lia|]. intros a [c Hc].
  apply lookup_insert_Some in Hc as [[<- _]|[_ Hc]]; [lia|].
  destruct (W2 a); [by eexists|lia].
Qed.

Lemma holds_is_Some h ns a : holds h ns -> a ∈ addrs ns -> is_Some (cells h !! a).
Proof.
  intros H Ha. apply list_elem_of_fmap in Ha as (n & -> & Hn).
  destruct (holds_in _ _ _ H Hn) as (b & Hb & _). by rewrite Hb.
Qed.

Lemma in_middle (ns ms : list node) a x : a ∈ addrs (ns ++ (a, x) :: ms).
Proof. rewrite map_app. apply elem_of_app. right. apply list_elem_of_here. Qed.

(** One block changes what it holds. *)
Lemma payload_spec h ns a x x' ms f :
  rewrites f x x' -> small (a, x') -> holds h (ns ++ (a, x) :: ms) ->
  exists h', modify a f h = Some (tt, h') /\ evolves h h' (ns ++ (a, x) :: ms) (ns ++ (a, x') :: ms).
Proof.
  intros Hf Hs H. pose proof (holds_is_Some _ _ a H (in_middle _ _ _ _)) as Ha.
  eexists. split; [by apply modify_run|]. destruct H as [W C N S].
  assert (E : addrs (ns ++ (a, x') :: ms) = addrs (ns ++ (a, x) :: ms)) by by rewrite !map_app.
  split; rewrite ?E; cbn [cells brk]; [|intros b Hb _|intros b ? ?; done|intros b ?; by left|lia].
  - split; [apply wf_alter, W| |by rewrite E|].
    + unfold closed in *. rewrite back_app, front_app in C |- *. cbn [front back foldl fst] in *.
      cbn [cells]. eapply dseg_set_payload; [done|done|]. destruct ns, ms; exact C.
    + apply List.Forall_app in S as [S1 S2]. apply List.Forall_app. split; [done|].
      inversion S2; subst. by constructor.
  - apply lookup_alter_ne. intros ->. apply Hb, in_middle.
Qed.

Lemma brk_not_in h ns : holds h ns -> brk h ∉ addrs ns.
Proof. intros H Hin. pose proof (holds_pos _ _ _ H Hin). lia. Qed.

Lemma alloc_run h : alloc_ptrlist h = Some (brk h, Blocks (<[brk h := PtrList 0 0 0 []]> (cells h)) (brk h + 1)).
Proof. done. Qed.

(** A block is still there after the changes. *)
Ltac block_known :=
  cbn [cells brk]; rewrite ?alter_is_Some;
  first [done | by rewrite lookup_insert_eq | by rewrite lookup_insert_ne | by rewrite lookup_delete_ne].

(** Do one step of a program on blocks that are known. *)
Ltac run_step :=
  match goal with
  | |- context [(modify ?a ?f ≫= _) ?h] =>
    rewrite (bind_run (modify a f) _ h tt (Blocks (alter f a (cells h)) (brk h))) by (apply modify_run; block_known)
  | |- context [(free_ptrlist ?a ≫= _) ?h] =>
    rewrite (bind_run (free_ptrlist a) _ h tt (Blocks (delete a (cells h)) (brk h))) by (apply free_run; block_known)
  | |- context [(alloc_ptrlist ≫= _) ?h] =>
    rewrite (bind_run alloc_ptrlist _ h _ _ (alloc_run h))
  end; cbn [cells brk].

(** A fresh block is put behind the last one, with [alter]s in this order. *)
Lemma evolves_append h ns :
  ns <> [] -> holds h ns ->
  evolves h (Blocks (alter (set_next (brk h)) (back 0 ns) (alter (set_prev (brk h)) (front ns 0)
               (<[brk h := PtrList (back 0 ns) (front ns 0) 0 []]> (cells h)))) (brk h + 1))
          ns (ns ++ [(brk h, (0, []))]).
Proof.
  intros Hne H. pose proof (brk_not_in _ _ H) as Hb.
  assert (W : wf_blocks (Blocks (<[brk h := PtrList (back 0 ns) (front ns 0) 0 []]> (cells h)) (brk h + 1)))
    by apply wf_blocks_alloc, H.
  split; cbn [cells brk].
  - split.
    + do 2 apply wf_alter. exact W.
    + cbn [cells]. apply closed_append; [done|done|apply H|apply H].
    + rewrite map_app. apply list.NoDup_app. split; [apply H|]. split; [|apply NoDup_singleton].
      intros a Ha ->%list_elem_of_singleton. done.
    + apply List.Forall_app. split; [apply H|]. by constructor.
  - intros a Ha Ha'. rewrite map_app in Ha'. 
    rewrite !lookup_alter_ne, lookup_insert_ne; [done| | |].
    + intros <-. apply Ha'. apply elem_of_app. right. apply list_elem_of_here.
    + intros <-. by apply Ha, front_in.
    + intros <-. by apply Ha, back_in.
  - intros a Ha Ha'. exfalso. apply Ha'. rewrite map_app. apply elem_of_app. by left.
  - intros a. rewrite map_app. intros [Ha|Ha]%elem_of_app; [by left|]. right.
    apply list_elem_of_singleton in Ha. cbn in Ha. lia.
  - lia.
Qed.

(** The first block is taken out of a ring and freed. *)
Lemma evolves_unlink h n ns :
  ns <> [] -> holds h (n :: ns) ->
  evolves h (Blocks (delete n.1 (alter (set_prev (back 0 ns)) (front ns 0)
                        (alter (set_next (front ns 0)) (back 0 ns) (cells h)))) (brk h)) (n :: ns) ns.
Proof.
  intros Hne H. pose proof (NoDup_addrs_cons _ _ (holds_nodup _ _ H)) as [Hn Hd].
  split; cbn [cells brk].
  - split; [|by apply closed_unlink; [|apply H|apply H]|done|].
    + apply wf_blocks_delete. do 2 apply wf_alter. apply H.
    + pose proof (holds_small _ _ H) as S. by inversion S.
  - intros a Ha Ha'. rewrite lookup_delete_ne, !lookup_alter_ne; [done| | |].
    + intros <-. by apply Ha', back_in.
    + intros <-. by apply Ha', front_in.
    + intros <-. apply Ha, list_elem_of_here.
  - intros a Ha Ha'. cbn [map] in Ha. apply elem_of_cons in Ha as [->|Ha]; [|done]. by rewrite lookup_delete_eq.
  - intros a Ha. left. by apply list_elem_of_further.
  - lia.
Qed.

(** The only block of a list is freed. *)
Lemma evolves_last h n : holds h [n] -> evolves h (Blocks (delete n.1 (cells h)) (brk h)) [n] [].
Proof.
  intros H. split; cbn [cells brk].
  - split; [apply wf_blocks_delete, H|done|constructor|constructor].
  - intros a Ha _. rewrite lookup_delete_ne; [done|]. intros <-. apply Ha, list_elem_of_here.
  - intros a ->%list_elem_of_singleton _. by rewrite lookup_delete_eq.
  - intros a Ha. by apply not_elem_of_nil in Ha.
  - lia.
Qed.

(** The first block of a list. *)
Lemma evolves_first h :
  wf_blocks h -> evolves h (Blocks (<[brk h := PtrList (brk h) (brk h) 0 []]> (cells h)) (brk h + 1)) [] [(brk h, (0, []))].
Proof.
  intros W. split; cbn [cells brk].
  - split; [by apply wf_blocks_alloc| |apply NoDup_singleton|by constructor].
    unfold closed. cbn. by rewrite lookup_insert_eq.
  - intros a _ Ha. rewrite lookup_insert_ne; [done|]. intros <-. apply Ha, list_elem_of_here.
  - intros a Ha. by apply not_elem_of_nil in Ha.
  - intros a Ha. apply list_elem_of_singleton in Ha. cbn in Ha. right. lia.
  - lia.
Qed.
