(* ===== verification/PtrListOps.v ===== *)
(** * What the operations on pointer lists do

    Every operation is specified by the nodes of its list before and after, and with
    that by the entries of the list; the other blocks are not touched ([evolves]). *)
From stdpp Require Import gmap.
From S2P Require Import Prelude PtrList PtrListFacts.
#[local] Open Scope Z_scope.

(** The entries of a list, and the handle. *)
Definition entries (ns : list node) : list Z := concat (map (fun n => n.2.2) ns).
Abbreviation handle ns := (front ns 0).

(** No entry was marked as deleted; there is no empty block. *)
Definition unmarked (n : node) : Prop := n.2.1 = 0.
Definition occupied (n : node) : Prop := n.2.2 <> [].

Lemma entries_app ns ms : entries (ns ++ ms) = entries ns ++ entries ms.
Proof. unfold entries. by rewrite map_app, concat_app. Qed.

Lemma entries_cons n ns : entries (n :: ns) = n.2.2 ++ entries ns.
Proof. done. Qed.

Lemma holds_at h ns a r l ms :
  holds h (ns ++ (a, (r, l)) :: ms) ->
  cells h !! a = Some (PtrList (back (back a ms) ns) (front ms (front ns a)) r l).
Proof.
  intros H. pose proof (holds_closed _ _ H) as C. unfold closed in C.
  rewrite back_app, front_app in C. cbn [back foldl fst front] in C. by apply dseg_lookup in C.
Qed.

Lemma holds_size h ns : holds h ns -> (length ns <= size (cells h))%nat.
Proof.
  intros H. assert (E : length ns = length (addrs ns)) by (symmetry; apply length_map). rewrite E.
  rewrite <- (size_list_to_set (C := gset Z) (addrs ns)) by apply H.
  rewrite <- size_dom. apply subseteq_size. intros a Ha. apply elem_of_list_to_set in Ha.
  apply elem_of_dom. by eapply holds_is_Some.
Qed.

Lemma fuel_run h ns : holds h ns -> exists n, fuel h = Some (n, h) /\ (15 * length ns < n)%nat.
Proof. intros H. pose proof (holds_size _ _ H). eexists. split; [done|]. lia. Qed.

Lemma holds_front_at h ns :
  holds h ns -> ns <> [] -> exists c, cells h !! handle ns = Some c /\ pl_prev c = back 0 ns.
Proof.
  destruct ns as [|[a [r l]] ns]; [done|]. intros H _. eexists.
  split; [apply (holds_at _ [] _ _ _ _ H)|done].
Qed.

(** ** Walks that only read *)

Fixpoint fold_nodes {S R} (body : S -> ptr_list -> S + R) (s : S) (ns : list node) : S + R :=
  match ns with
  | [] => inl s
  | (a, (r, l)) :: ns =>
    match body s (PtrList 0 0 r l) with inr x => inr x | inl s => fold_nodes body s ns end
  end.

Definition linkless {S R} (body : S -> ptr_list -> S + R) : Prop :=
  forall s p q r l, body s (PtrList p q r l) = body s (PtrList 0 0 r l).

Lemma front_new (ns ms : list node) a q : NoDup (addrs (ns ++ ms)) -> a ∈ addrs ns -> ms <> [] -> (front ms q =? a) = false.
Proof.
  intros N Ha Hm. apply Z.eqb_neq. rewrite map_app in N. apply list.NoDup_app in N as (_ & N & _).
  intros E. apply (N a Ha). rewrite <- E. by apply front_in.
Qed.

Lemma do_blocks_spec {S R} (body : S -> ptr_list -> S + R) h n ns ms s :
  linkless body -> holds h (ns ++ ms) -> ms <> [] -> (length ms <= n)%nat ->
  do_blocks body n (handle (ns ++ ms)) (handle ms) s h = Some (fold_nodes body s ms, h).
Proof.
  intros Hb. revert ns ms s. induction n as [|n IH]; intros ns ms s H Hm Hl; [by destruct ms; [|cbn in Hl; lia]|].
  destruct ms as [|[a [r l]] ms]; [done|]. cbn [do_blocks front fst].
  rewrite (bind_run _ _ _ _ _ (deref_run _ _ _ (holds_at _ _ _ _ _ _ H))). rewrite Hb.
  cbn [fold_nodes]. destruct (body s _) as [s'|x]; [|done]. cbn [pl_next].
  destruct ms as [|m ms].
  - cbn [front]. rewrite front_app. cbn [front fst]. by rewrite Z.eqb_refl.
  - rewrite (front_new (ns ++ [(a, (r, l))]) (m :: ms)); [| |by rewrite front_app; destruct ns; cbn; (left || right)|done].
    + specialize (IH (ns ++ [(a, (r, l))]) (m :: ms) s'). rewrite <- app_assoc in IH. cbn [app] in IH.
      rewrite (front_ne (m :: ms) _ 0), IH; [done|done|done| |done]. cbn in *. lia.
    + rewrite <- app_assoc. apply H.
Qed.

Lemma do_blocks_rev_spec {S R} (body : S -> ptr_list -> S + R) h n ns ms s :
  linkless body -> holds h (ns ++ ms) -> ns <> [] -> (length ns <= n)%nat ->
  do_blocks_rev body n (handle ns) (handle (ms ++ ns)) s h = Some (fold_nodes body s (rev ns), h).
Proof.
  intros Hb. revert ns ms s. induction n as [|n IH]; intros ns ms s H Hn Hl; [by destruct ns; [|cbn in Hl; lia]|].
  destruct (exists_last Hn) as (ns' & [a [r l]] & ->). cbn [do_blocks_rev].
  assert (exists c, cells h !! handle (ms ++ ns' ++ [(a, (r, l))]) = Some c /\ pl_prev c = a) as (c & Hc & Ec).
  { apply holds_rotate in H. rewrite app_assoc in *. destruct (ms ++ ns') as [|[a' [r' l']] k].
    - eexists. split; [apply (holds_at _ [] _ _ _ [] H)|done].
    - eexists. split; [apply (holds_at _ [] _ _ _ _ H)|]. cbn [pl_prev]. exact (back_app _ k _). }
  rewrite (bind_run _ _ _ _ _ (deref_run _ _ _ Hc)), Ec. clear c Hc Ec. rewrite <- app_assoc in H. cbn [app] in H.
  rewrite (bind_run _ _ _ _ _ (deref_run _ _ _ (holds_at _ _ _ _ _ _ H))). rewrite Hb.
  rewrite rev_app_distr. cbn [rev app fold_nodes]. destruct (body s _) as [s'|x]; [|done].
  destruct ns' as [|m ns'].
  - cbn [app front fst]. by rewrite Z.eqb_refl.
  - cbn [app front]. assert ((a =? m.1) = false) as ->.
    { rewrite Z.eqb_sym. pose proof (holds_nodup _ _ H) as N. cbn [app] in N.
      apply NoDup_addrs_cons in N as [N _]. apply Z.eqb_neq. intros E. apply N. rewrite E. apply in_middle. }
    specialize (IH (m :: ns') ((a, (r, l)) :: ms) s' H). cbn [app front fst] in *. rewrite IH; [done|done|].
    cbn [length] in *. rewrite length_app in Hl. cbn in *. lia.
Qed.

Lemma walk_run {S R A} (body : S -> ptr_list -> S + R) (k : S + R -> M A) h ns s :
  linkless body -> holds h ns -> ns <> [] ->
  (n ← fuel; r ← do_blocks body n (handle ns) (handle ns) s; k r) h = k (fold_nodes body s ns) h.
Proof.
  intros Hb H Hn. destruct (fuel_run _ _ H) as (n & Hf & Hl). rewrite (bind_run _ _ _ _ _ Hf).
  apply bind_run, (do_blocks_spec body h n [] ns); [done|done|done|lia].
Qed.

Lemma walk_rev_run {S R A} (body : S -> ptr_list -> S + R) (k : S + R -> M A) h ns s :
  linkless body -> holds h ns -> ns <> [] ->
  (n ← fuel; r ← do_blocks_rev body n (handle ns) (handle ns) s; k r) h = k (fold_nodes body s (rev ns)) h.
Proof.
  intros Hb H Hn. destruct (fuel_run _ _ H) as (n & Hf & Hl). rewrite (bind_run _ _ _ _ _ Hf).
  apply bind_run, (do_blocks_rev_spec body h n ns []); [done|by rewrite app_nil_r|done|lia].
Qed.

(** An operation starts with a test for NULL, which holds of the empty list only. *)
Lemma null_run {A} (x : A) (m : M A) h ns y :
  holds h ns -> (ns = [] -> x = y) -> (ns <> [] -> m h = Some (y, h)) ->
  (if handle ns =? 0 then mret x else m) h = Some (y, h).
Proof.
  intros H Hx Hm. destruct (Z.eqb_spec (handle ns) 0) as [E|E].
  - apply (holds_front _ _ H) in E. by rewrite Hx.
  - apply Hm. by intros ->.
Qed.

(** The walks, as functions on the entries. *)
Lemma fold_size ns s :
  Forall unmarked ns ->
  fold_nodes (R := Z) (fun s b => inl (s + (nr b - pl_rm b))) s ns = inl (s + Z.of_nat (length (entries ns))).
Proof.
  intros U. revert s. induction U as [|[a [r l]] ns Hr U IH]; intros s; [cbn; f_equal; lia|].
  cbn [fold_nodes pl_rm nr blk]. unfold unmarked in Hr. cbn in Hr. subst r.
  rewrite IH, entries_cons, length_app. unfold nr. cbn [blk snd fst pl_rm]. f_equal. lia.
Qed.

Lemma fold_empty ns :
  Forall unmarked ns ->
  fold_nodes (fun (s : unit) b => if truth (nr b - pl_rm b) then inr false else inl s) tt ns =
  match entries ns with [] => inl tt | _ => inr false end.
Proof.
  induction 1 as [|[a [r l]] ns Hr U IH]; [done|]. cbn in Hr. unfold unmarked in Hr. cbn in Hr. subst r.
  rewrite entries_cons. cbn [fold_nodes snd]. unfold nr. cbn [blk pl_rm]. rewrite Z.sub_0_r.
  destruct l as [|x l]; [apply IH|done].
Qed.

Lemma fold_multiple ns s :
  Forall unmarked ns -> 0 <= s <= 1 ->
  (match fold_nodes (fun s b => let s := s + (nr b - pl_rm b) in if s >? 1 then inr true else inl s) s ns with
   | inl _ => false | inr r => r end) = (s + Z.of_nat (length (entries ns)) >? 1).
Proof.
  intros U. revert s. induction U as [|[a [r l]] ns Hr U IH]; intros s Hs.
  { cbn. symmetry. rewrite Z.gtb_ltb. apply Z.ltb_ge. lia. }
  unfold unmarked in Hr. cbn in Hr. subst r. rewrite entries_cons, length_app. cbn [fold_nodes snd].
  unfold nr in *. cbn [blk pl_rm]. rewrite Z.sub_0_r. destruct (Z.gtb_spec (s + Z.of_nat (length l)) 1).
  - symmetry. apply Z.gtb_lt. lia.
  - rewrite IH by lia. f_equal. lia.
Qed.

Lemma fold_first ns :
  fold_nodes (fun (s : unit) b => if nr b =? 0 then inl s else inr (entry b 0)) tt ns =
  match entries ns with [] => inl tt | x :: _ => inr x end.
Proof.
  induction ns as [|[a [r l]] ns IH]; [done|]. rewrite entries_cons. cbn [fold_nodes snd].
  destruct l as [|x l]; [apply IH|]. unfold nr, entry. cbn [blk length]. by destruct (Z.eqb_spec (Z.of_nat (S (length l))) 0); [lia|].
Qed.

Lemma last_app_ne {A} (l k : list A) d : k <> [] -> List.last (l ++ k) d = List.last k d.
Proof.
  intros Hk. destruct (exists_last Hk) as (k' & x & ->). by rewrite app_assoc, !last_last.
Qed.

Lemma entry_last b : blk b <> [] -> entry b (nr b - 1) = List.last (blk b) 0.
Proof.
  intros Hb. destruct (exists_last Hb) as (l & x & E). unfold entry, nr. rewrite E, last_last, length_app.
  cbn [length]. rewrite app_nth2; [|lia]. by replace (Z.to_nat _ - length l)%nat with 0%nat by lia.
Qed.

Lemma fold_last ns :
  fold_nodes (fun (s : unit) b => if nr b =? 0 then inl s else inr (entry b (nr b - 1))) tt (rev ns) =
  match entries ns with [] => inl tt | es => inr (List.last es 0) end.
Proof.
  induction ns as [|[a [r l]] ns IH] using rev_ind; [done|].
  rewrite rev_app_distr, entries_app, entries_cons. cbn [rev app fold_nodes snd]. 
  destruct l as [|x l].
  - replace (nr (PtrList 0 0 r []) =? 0) with true by done. rewrite IH. cbn [entries map concat app]. by rewrite app_nil_r.
  - rewrite entry_last by done. cbn [blk]. replace (nr (PtrList 0 0 r (x :: l)) =? 0) with false by done. change (entries []) with (@nil Z). rewrite app_nil_r.
    destruct (entries ns ++ x :: l) as [|y k] eqn:E; [by destruct (entries ns)|].
    by rewrite <- E, last_app_ne.
Qed.

Lemma fold_nth ns idx :
  0 <= idx ->
  match fold_nodes (fun idx b => if idx <? nr b then inr (entry b idx) else inl (idx - nr b)) idx ns with
  | inl _ => 0 | inr r => r end = nth (Z.to_nat idx) (entries ns) 0.
Proof.
  revert idx. induction ns as [|[a [r l]] ns IH]; intros idx Hi; [by destruct (Z.to_nat idx)|].
  rewrite entries_cons. cbn [fold_nodes snd]. unfold nr in *. cbn [blk]. destruct (Z.ltb_spec idx (Z.of_nat (length l))).
  - rewrite app_nth1 by lia. done.
  - rewrite app_nth2, IH by lia. f_equal. lia.
Qed.

Lemma fold_lookup ns e :
  match fold_nodes (fun (s : unit) b => if existsb (Z.eqb e) (blk b) then inr true else inl s) tt ns with
  | inl _ => false | inr r => r end = bool_decide (e ∈ entries ns).
Proof.
  induction ns as [|[a [r l]] ns IH].
  - symmetry. apply bool_decide_eq_false. apply not_elem_of_nil.
  - rewrite entries_cons. cbn [fold_nodes snd blk]. destruct (existsb (Z.eqb e) l) eqn:E.
    + symmetry. apply bool_decide_eq_true. apply existsb_exists in E as (x & Hx & ->%Z.eqb_eq).
      apply elem_of_app. left. by apply list_elem_of_In.
    + rewrite IH. apply bool_decide_ext. rewrite elem_of_app. split; [by right|]. intros [Hl|]; [|done].
      exfalso. apply list_elem_of_In in Hl. assert (existsb (Z.eqb e) l = true); [|congruence].
      apply existsb_exists. exists e. split; [done|apply Z.eqb_refl].
Qed.

Lemma fold_linearize ns arr max s :
  0 <= max ->
  exists max', fold_nodes linearize_step (arr, max, s) ns =
    inl (arr ++ take (Z.to_nat max) (entries ns), max', s + Z.of_nat (length (entries ns))).
Proof.
  revert arr max s. induction ns as [|[a [r l]] ns IH]; intros arr max s Hm.
  - exists max. cbn. rewrite take_nil, app_nil_r. do 2 f_equal. lia.
  - rewrite entries_cons. cbn [fold_nodes snd linearize_step]. unfold nr. cbn [blk]. rewrite length_app.
    destruct (Z.eqb_spec max 0) as [->|Hz].
    + destruct (IH arr 0 (s + Z.of_nat (length l)) ltac:(lia)) as [m' ->]. exists m'.
      cbn [Z.to_nat take]. do 2 f_equal. lia.
    + destruct (Z.gtb_spec (Z.of_nat (length l)) max).
      * destruct (IH (arr ++ take (Z.to_nat max) l) (max - max) (s + Z.of_nat (length l)) ltac:(lia)) as [m' ->].
        exists m'. rewrite Z.sub_diag. cbn [Z.to_nat take]. rewrite app_nil_r, take_app_le by lia. do 2 f_equal. lia.
      * destruct (IH (arr ++ take (Z.to_nat (Z.of_nat (length l))) l) (max - Z.of_nat (length l)) (s + Z.of_nat (length l)) ltac:(lia)) as [m' ->].
        exists m'. rewrite Nat2Z.id, firstn_all, take_app_ge by lia. rewrite <- app_assoc.
        replace (Z.to_nat max - length l)%nat with (Z.to_nat (max - Z.of_nat (length l))) by lia. do 2 f_equal. lia.
Qed.

Lemma fold_reverse ns s : Forall unmarked ns -> fold_nodes reverse_step s (rev ns) = inl (s ++ rev (entries ns)).
Proof.
  revert s. induction ns as [|[a [r l]] ns IH] using rev_ind; intros s U; [cbn; by rewrite app_nil_r|].
  apply List.Forall_app in U as [U Ur]. inversion Ur as [|? ? Hr _]; subst. unfold unmarked in Hr. cbn in Hr. subst r.
  rewrite rev_app_distr, entries_app. cbn [rev app fold_nodes]. unfold reverse_step at 1. cbn [pl_rm blk].
  change (truth 0) with false. cbn [andb negb]. rewrite forallb_filter_id by (by apply forallb_forall).
  rewrite IH by done. rewrite rev_app_distr. cbn [entries map concat snd]. by rewrite app_nil_r, app_assoc.
Qed.

(** ** What is read *)

Section reading.
Context (h : blocks) (ns : list node) (H : holds h ns).

Lemma ptr_list_size_spec :
  Forall unmarked ns -> ptr_list_size (handle ns) h = Some (Z.of_nat (length (entries ns)), h).
Proof using H.
  intros U. apply null_run; [done|by intros ->|]. intros Hn. rewrite walk_run by done. by rewrite fold_size.
Qed.

Lemma ptr_list_empty_spec :
  Forall unmarked ns ->
  ptr_list_empty (handle ns) h = Some (match entries ns with [] => true | _ => false end, h).
Proof using H.
  intros U. apply null_run; [done|by intros ->|]. intros Hn. rewrite walk_run by done. rewrite fold_empty by done.
  by destruct (entries ns).
Qed.

Lemma ptr_list_multiple_spec :
  Forall unmarked ns ->
  ptr_list_multiple (handle ns) h = Some (Z.of_nat (length (entries ns)) >? 1, h).
Proof using H.
  intros U. apply null_run; [done|by intros ->|]. intros Hn. rewrite walk_run by done.
  pose proof (fold_multiple _ 0 U ltac:(lia)) as E. rewrite Z.add_0_l in E. rewrite <- E.
  by destruct (fold_nodes _ _ _).
Qed.

Lemma first_ptr_list_spec : first_ptr_list (handle ns) h = Some (hd 0 (entries ns), h).
Proof using H.
  apply null_run; [done|by intros ->|]. intros Hn. rewrite walk_run by done. rewrite fold_first. by destruct (entries ns).
Qed.

Lemma last_ptr_list_spec : last_ptr_list (handle ns) h = Some (List.last (entries ns) 0, h).
Proof using H.
  apply null_run; [done|by intros ->|]. intros Hn. rewrite walk_rev_run by done. rewrite fold_last. by destruct (entries ns).
Qed.

Lemma ptr_list_nth_entry_spec idx :
  0 <= idx -> ptr_list_nth_entry (handle ns) idx h = Some (nth (Z.to_nat idx) (entries ns) 0, h).
Proof using H.
  intros Hi. apply null_run; [done|by intros ->; destruct (Z.to_nat idx)|]. intros Hn. rewrite walk_run by done.
  rewrite <- fold_nth by done. by destruct (fold_nodes _ _ _).
Qed.

Lemma lookup_ptr_list_entry_spec e :
  lookup_ptr_list_entry (handle ns) e h = Some (bool_decide (e ∈ entries ns), h).
Proof using H.
  apply null_run; [done| |].
  - intros ->. symmetry. apply bool_decide_eq_false, not_elem_of_nil.
  - intros Hn. rewrite walk_run by done. rewrite <- fold_lookup. by destruct (fold_nodes _ _ _).
Qed.

Lemma for_each_ptr_reverse_spec : Forall unmarked ns -> for_each_ptr_reverse (handle ns) h = Some (rev (entries ns), h).
Proof using H.
  intros U. apply null_run; [done|by intros ->|]. intros Hn. rewrite walk_rev_run by done. by rewrite fold_reverse.
Qed.

(** The count is 0 if nothing is asked for. *)
Lemma linearize_ptr_list_spec max :
  linearize_ptr_list (handle ns) max h =
  Some (if max >? 0 then (take (Z.to_nat max) (entries ns), Z.of_nat (length (entries ns))) else ([], 0), h).
Proof using H.
  unfold linearize_ptr_list. destruct (Z.gtb_spec max 0) as [Hm|]; [|by rewrite andb_false_r].
  rewrite andb_true_r. destruct (Z.eqb_spec (handle ns) 0) as [E|E].
  - apply (holds_front _ _ H) in E as ->. cbn. by rewrite take_nil.
  - cbn [negb]. rewrite walk_run; [|by intros [[? ?] ?]|done|by intros ->].
    destruct (fold_linearize ns [] max 0 ltac:(lia)) as [m' ->]. done.
Qed.
End reading.

(** ** Operations that change a list *)

Definition runs {A} (m : M A) (h : blocks) (ns : list node) (Q : A -> list node -> Prop) : Prop :=
  exists x h' ns', m h = Some (x, h') /\ evolves h h' ns ns' /\ Q x ns'.

Lemma runs_ret {A} (x : A) h ns Q : holds h ns -> Q x ns -> runs (mret x) h ns Q.
Proof. intros H HQ. exists x, h, ns. split; [done|]. split; [by apply evolves_refl|done]. Qed.

Lemma runs_bind {A B} (m : M A) (f : A -> M B) h ns Q R :
  holds h ns -> runs m h ns R -> (forall x h' ns', holds h' ns' -> R x ns' -> runs (f x) h' ns' Q) -> runs (m ≫= f) h ns Q.
Proof.
  intros H (x & h1 & ns1 & E1 & V1 & R1) Hf.
  destruct (Hf x h1 ns1 (ev_holds _ _ _ _ V1) R1) as (y & h2 & ns2 & E2 & V2 & Q2).
  exists y, h2, ns2. rewrite (bind_run _ _ _ _ _ E1). split; [done|]. split; [|done].
  eapply evolves_trans; [apply H|done|done].
Qed.

Lemma runs_read {A B} (m : M A) (f : A -> M B) h ns x Q : m h = Some (x, h) -> runs (f x) h ns Q -> runs (m ≫= f) h ns Q.
Proof. intros E (y & h' & ns' & R). exists y, h', ns'. by rewrite (bind_run _ _ _ _ _ E). Qed.

Lemma runs_mono {A} (m : M A) h ns (Q R : A -> list node -> Prop) :
  runs m h ns Q -> (forall x ns', Q x ns' -> R x ns') -> runs m h ns R.
Proof. intros (x & h' & ns' & E & V & HQ) HR. exists x, h', ns'. auto. Qed.

Lemma runs_payload h ns a x x' ms f :
  rewrites f x x' -> small (a, x') -> holds h (ns ++ (a, x) :: ms) ->
  runs (modify a f) h (ns ++ (a, x) :: ms) (fun _ ns' => ns' = ns ++ (a, x') :: ms).
Proof.
  intros Hf Hs H. destruct (payload_spec h ns a x x' ms f Hf Hs H) as (h' & E & V). by exists tt, h', (ns ++ (a, x') :: ms).
Qed.

(** What does not depend on the entries: the kind of every block. *)
Definition keeps (ns ns' : list node) : Prop :=
  (Forall unmarked ns -> Forall unmarked ns') /\ (Forall occupied ns -> Forall occupied ns').

Lemma runs_first h :
  holds h [] ->
  runs (a ← alloc_ptrlist; modify a (set_next a);; modify a (set_prev a);; mret (a, a, 0)) h []
    (fun '(l, b, i) ns' => ns' = [(b, (0, []))] /\ l = b /\ i = 0).
Proof.
  intros H. pose proof (evolves_first h (holds_wf _ _ H)) as V.
  eexists (brk h, brk h, 0), _, _. split; [|split; [exact V|done]].
  do 3 run_step. unfold mret, M_ret. do 3 f_equal. by rewrite alter_insert_eq, alter_insert_eq.
Qed.

Lemma runs_append h ns :
  holds h ns -> ns <> [] ->
  runs (a ← alloc_ptrlist; modify a (set_prev (back 0 ns));; modify a (set_next (handle ns));;
        modify (handle ns) (set_prev a);; modify (back 0 ns) (set_next a);; mret (handle ns, a, 0)) h ns
    (fun '(l, b, i) ns' => ns' = ns ++ [(b, (0, []))] /\ l = handle ns /\ i = 0).
Proof.
  intros H Hn. pose proof (evolves_append h ns Hn H) as V.
  assert (Hf : is_Some (cells h !! handle ns)) by (eapply holds_is_Some; [done|by apply front_in]).
  assert (Hb : is_Some (cells h !! back 0 ns)) by (eapply holds_is_Some; [done|by apply back_in]).
  pose proof (brk_not_in _ _ H) as Nb.
  assert (Nf : brk h <> handle ns) by (intros E; apply Nb; rewrite E; by apply front_in).
  assert (Nk : brk h <> back 0 ns) by (intros E; apply Nb; rewrite E; by apply back_in).
  eexists (handle ns, brk h, 0), _, _. split; [|split; [exact V|done]].
  do 5 run_step. unfold mret, M_ret. do 3 f_equal. by rewrite alter_insert_eq, alter_insert_eq.
Qed.

(** The two allocators do the same to the heap. *)
Lemma alloc_block (hack : bool) : (if hack then alloc_rl_ptrlist else alloc_ptrlist) = alloc_ptrlist.
Proof. by destruct hack. Qed.

Lemma add_ptr_list_at_spec hack h ns ptr :
  holds h ns ->
  runs (add_ptr_list_at hack (handle ns) ptr) h ns (fun '(l, _) ns' =>
    l = handle ns' /\ entries ns' = entries ns ++ [ptr] /\ keeps ns ns').
Proof.
  intros H. unfold add_ptr_list_at. rewrite alloc_block.
  apply runs_bind with (R := fun '(l, b, i) ns' => exists ms r k,
    ns' = ms ++ [(b, (r, k))] /\ l = handle ns' /\ i = Z.of_nat (length k) /\ i < LIST_NODE_NR /\
    entries ns' = entries ns /\ (Forall unmarked ns -> Forall unmarked ns') /\ (Forall occupied ns -> Forall occupied ms)); [done| |].
  - destruct (Z.eqb_spec (handle ns) 0) as [E|E].
    + apply (holds_front _ _ H) in E as ->. eapply runs_mono; [by apply runs_first|].
      intros [[l b] i] ns' (-> & -> & ->). exists [], 0, []. split_and!; try done. intros _. by repeat constructor.
    + assert (Hn : ns <> []) by (by intros ->). destruct (holds_front_at _ _ H Hn) as (c & Hc & Ec).
      eapply runs_read; [by apply deref_run|]. rewrite Ec. destruct (exists_last Hn) as (ms & [b [r k]] & ->).
      rewrite back_app. cbn [back foldl fst].
      eapply runs_read; [by eapply deref_run, holds_at|]. unfold nr. cbn [blk].
      destruct (Z.geb_spec (Z.of_nat (length k)) LIST_NODE_NR).
      * pose proof (runs_append h _ H Hn) as R. rewrite back_app in R. cbn [back foldl fst] in R.
        eapply runs_mono; [exact R|].
        intros [[l b'] i] ns' (-> & -> & ->). exists (ms ++ [(b, (r, k))]), 0, []. split_and!; try done.
        -- rewrite (front_app (ms ++ _)). by apply front_ne.
        -- by rewrite !entries_app, !app_nil_r.
        -- intros U. apply List.Forall_app. split; [done|]. by repeat constructor.
      * apply runs_ret; [done|]. exists ms, r, k. split_and!; try done. intros O. by apply List.Forall_app in O as [? _].
  - intros [[l b] i] h' ns' H' (ms & r & k & -> & -> & -> & Hi & He & Hu & Ho).
    eapply runs_bind; [done| |].
    { apply (runs_payload _ _ _ _ (r, k ++ [ptr])); [|unfold small; cbn; rewrite length_app; cbn; lia|done].
      intros p q. unfold set_list. cbn. by rewrite Nat2Z.id, firstn_all. }
    cbv beta. intros _ h2 ns2 H2 ->. apply runs_ret; [done|]. split_and!.
    + by rewrite !front_app.
    + rewrite <- He, !entries_app. cbn. by rewrite !app_nil_r, <- app_assoc.
    + split; [intros U; apply Hu, List.Forall_app in U as [? U]; apply List.Forall_app; split; [done|];
        by inversion U; subst; constructor|].
      intros O. apply List.Forall_app. split; [by apply Ho|]. constructor; [|constructor]. unfold occupied. cbn. by destruct k.
Qed.

(** ** Taking out blocks *)

Lemma evolves_unlink_at h ps a x ms :
  ms ++ ps <> [] -> holds h (ps ++ (a, x) :: ms) ->
  evolves h (Blocks (delete a (alter (set_prev (back (back a ms) ps)) (front ms (front ps a))
                        (alter (set_next (front ms (front ps a))) (back (back a ms) ps) (cells h)))) (brk h))
    (ps ++ (a, x) :: ms) (ps ++ ms).
Proof.
  intros Hn H. rewrite <- front_app, <- back_app, (front_ne _ _ 0), (back_ne _ 0) by done.
  apply evolves_rotate. apply (evolves_unlink h (a, x) (ms ++ ps)); [done|]. exact (holds_rotate _ _ _ H).
Qed.

(** The neighbours of a block of a longer list are other blocks of the list. *)
Lemma neighbours h ps a x ms :
  ms ++ ps <> [] -> holds h (ps ++ (a, x) :: ms) ->
  let p := back (back a ms) ps in let q := front ms (front ps a) in
  p <> a /\ q <> a /\ is_Some (cells h !! p) /\ is_Some (cells h !! q) /\ is_Some (cells h !! a).
Proof.
  intros Hn H. cbv zeta. rewrite <- front_app, <- back_app, (front_ne _ _ 0), (back_ne _ 0) by done.
  pose proof (NoDup_rotate _ _ (holds_nodup _ _ H)) as N. cbn [app] in N. apply NoDup_addrs_cons in N as [N _].
  pose proof (front_in (ms ++ ps) 0 Hn) as Hf. pose proof (back_in 0 (ms ++ ps) Hn) as Hb.
  assert (I : forall b, b ∈ addrs (ms ++ ps) -> is_Some (cells h !! b)).
  { intros b Hin. eapply holds_is_Some; [done|]. rewrite map_app in *. cbn [map].
    rewrite elem_of_app in *. rewrite elem_of_cons. tauto. }
  split_and!; [intros E|intros E|by apply I|by apply I|eapply holds_is_Some; [done|apply in_middle]];
    apply N; rewrite <- E; done.
Qed.

Lemma runs_unlink {A} h ps a x ms (k : M A) Q :
  ms ++ ps <> [] -> holds h (ps ++ (a, x) :: ms) ->
  (forall h', holds h' (ps ++ ms) -> runs k h' (ps ++ ms) Q) ->
  runs (modify (back (back a ms) ps) (set_next (front ms (front ps a)));;
        modify (front ms (front ps a)) (set_prev (back (back a ms) ps));; free_ptrlist a;; k) h (ps ++ (a, x) :: ms) Q.
Proof.
  intros Hn H Hk. pose proof (evolves_unlink_at _ _ _ _ _ Hn H) as V.
  destruct (neighbours _ _ _ _ _ Hn H) as (P1 & P2 & S1 & S2 & S3).
  destruct (Hk _ (ev_holds _ _ _ _ V)) as (y & h' & ns' & E & V' & HQ).
  exists y, h', ns'. split; [|split; [eapply evolves_trans; [apply H|done|done]|done]].
  do 3 run_step. exact E.
Qed.

#[export] Instance occupied_dec n : Decision (occupied n).
Proof. unfold occupied. apply _. Defined.

Definition packed (ns : list node) : list node := filter occupied ns.

Lemma packed_app ns ms : packed (ns ++ ms) = packed ns ++ packed ms.
Proof. apply list.filter_app. Qed.

Lemma entries_packed ns : entries (packed ns) = entries ns.
Proof.
  induction ns as [|n ns IH]; [done|]. unfold packed. rewrite list.filter_cons, entries_cons.
  destruct (decide (occupied n)) as [O|O]; [by rewrite entries_cons; f_equal|].
  unfold occupied in O. destruct n.2.2; [done|]. by exfalso; apply O.
Qed.

Lemma packed_occupied ns : Forall occupied (packed ns).
Proof. apply list.Forall_forall. intros n Hn. by apply list_elem_of_filter in Hn as [? _]. Qed.

Lemma packed_unmarked ns : Forall unmarked ns -> Forall unmarked (packed ns).
Proof.
  rewrite !list.Forall_forall. intros U n Hn. apply list_elem_of_filter in Hn as [_ Hn]. by apply U.
Qed.

Lemma pack_from_spec h n ps ms :
  holds h (ps ++ ms) -> ms <> [] -> (length ms <= n)%nat ->
  runs (pack_from n (handle (ps ++ ms)) (handle ms)) h (ps ++ ms)
    (fun l ns' => l = handle ns' /\ ns' = ps ++ packed ms).
Proof.
  revert h ps ms. induction n as [|n IH]; intros h ps ms H Hm Hl; [by destruct ms; [|cbn in Hl; lia]|].
  destruct ms as [|[a [r l]] ms]; [done|]. cbn [pack_from front fst].
  eapply runs_read; [by eapply deref_run, holds_at|]. cbn [pl_next pl_prev]. unfold nr. cbn [blk].
  rewrite front_app. cbn [front fst].
  assert (Hhead : forall ms', ms = ms' -> ms' <> [] -> (front ms' (front ps a) =? front ps a) = false).
  { intros ? <- Hms. apply (front_new (ps ++ [(a, (r, l))])).
    - rewrite <- app_assoc. apply H.
    - destruct ps; cbn; left.
    - done. }
  destruct l as [|x l].
  - change (Z.of_nat (length (A := Z) []) =? 0) with true. cbv iota. replace (packed ((a, (r, [])) :: ms)) with (packed ms) by done.
    destruct (decide (ms ++ ps = [])) as [[-> ->]%app_eq_nil|Hne].
    + cbn [front app]. rewrite !Z.eqb_refl. cbv iota. pose proof (evolves_last _ _ H) as V. cbn [fst] in V.
      eexists 0, _, []. split; [|split; [exact V|done]].
      pose proof (holds_is_Some _ _ a H (in_middle [] [] _ _)) as S. by run_step.
    + destruct (neighbours _ _ _ _ _ Hne H) as (_ & Hq & _).
      destruct (Z.eqb_spec (front ms (front ps a)) a) as [|_]; [done|].
      apply runs_unlink; [done|done|]. intros h' H'. destruct ps as [|p ps].
      * cbn [front app] in *. rewrite Z.eqb_refl, app_nil_r in *.
        rewrite (front_ne ms a 0) by done. apply (IH h' [] ms); [done|done|]. cbn in Hl. lia.
      * cbn [front app] in *. pose proof (holds_nodup _ _ H) as N. apply NoDup_addrs_cons in N as [N _].
        destruct (Z.eqb_spec a p.1) as [->|_]; [exfalso; apply N, in_middle|].
        destruct ms as [|m ms]; cbn [front]; [rewrite Z.eqb_refl; by apply runs_ret|].
        specialize (Hhead _ eq_refl ltac:(done)). cbn [front] in Hhead. rewrite Hhead.
        apply (IH h' (p :: ps) (m :: ms)); [done|done|]. cbn in *. lia.
  - replace (Z.of_nat (length (x :: l)) =? 0) with false by done.
    replace (packed ((a, (r, x :: l)) :: ms)) with ((a, (r, x :: l)) :: packed ms) by done.
    destruct ms as [|m ms]; cbn [front].
    + rewrite Z.eqb_refl. apply runs_ret; [done|]. rewrite front_app. done.
    + specialize (Hhead _ eq_refl ltac:(done)). cbn [front] in Hhead. rewrite Hhead.
      specialize (IH h (ps ++ [(a, (r, x :: l))]) (m :: ms)). rewrite <- !app_assoc in IH. cbn [app] in IH.
      rewrite front_app in IH. cbn [front fst] in IH. apply IH; [done|done|]. cbn in *. lia.
Qed.

Lemma pack_ptr_list_spec h ns :
  holds h ns -> runs (pack_ptr_list (handle ns)) h ns (fun l ns' => l = handle ns' /\ ns' = packed ns).
Proof.
  intros H. unfold pack_ptr_list. destruct (Z.eqb_spec (handle ns) 0) as [E|E].
  - apply (holds_front _ _ H) in E as ->. by apply runs_ret.
  - destruct (fuel_run _ _ H) as (n & Hf & Hl). eapply runs_read; [exact Hf|].
    apply (pack_from_spec h n [] ns); [done|by intros ->|lia].
Qed.

(** ** Taking the last entry *)

Lemma removelast_app_ne {A} (l k : list A) : k <> [] -> removelast (l ++ k) = l ++ removelast k.
Proof. apply removelast_app. Qed.

Lemma small_shorter a r l a' r' l' : small (a, (r, l)) -> (length l' <= length l)%nat -> small (a', (r', l')).
Proof. unfold small. cbn. lia. Qed.

Lemma holds_small_at h ns a x ms : holds h (ns ++ (a, x) :: ms) -> small (a, x).
Proof. intros H. pose proof (holds_small _ _ H) as S. apply List.Forall_app in S as [_ S]. by inversion S. Qed.

Lemma length_removelast {A} (l : list A) : (length (removelast l) <= length l)%nat.
Proof. destruct l as [|x l _] using rev_ind; [done|]. rewrite removelast_last, length_app. lia. Qed.

(** The block before the one at the front, over the end of the list. *)
Lemma holds_prev_at h ns ms a x :
  holds h ((ns ++ [(a, x)]) ++ ms) -> exists c, cells h !! handle (ms ++ ns ++ [(a, x)]) = Some c /\ pl_prev c = a.
Proof.
  intros H. apply holds_rotate in H. destruct (holds_front_at _ _ H) as (c & Hc & Ec); [by destruct ms, ns|].
  exists c. split; [done|]. by rewrite Ec, app_assoc, back_app.
Qed.

Lemma undo_from_spec h n ns ms :
  holds h (ns ++ ms) -> ns <> [] -> (length ns <= n)%nat ->
  runs (undo_from n (handle ns) (handle (ms ++ ns))) h (ns ++ ms) (fun p ns' =>
    p = List.last (entries ns) 0 /\ exists ns2, ns' = ns2 ++ ms /\ entries ns2 = removelast (entries ns) /\
    addrs ns2 = addrs ns /\ (Forall unmarked ns -> Forall unmarked ns2)).
Proof.
  revert h ns ms. induction n as [|n IH]; intros h ns ms H Hn Hl; [by destruct ns; [|cbn in Hl; lia]|].
  destruct (exists_last Hn) as (ns' & [a [r l]] & ->). cbn [undo_from].
  destruct (holds_prev_at _ _ _ _ _ H) as (c & Hc & Ec).
  eapply runs_read; [by apply deref_run|]. rewrite Ec. clear c Hc Ec. rewrite <- app_assoc in *. cbn [app] in *.
  eapply runs_read; [by eapply deref_run, holds_at|]. rewrite entries_app. cbn [entries map concat snd]. rewrite app_nil_r.
  destruct (decide (l = [])) as [->|Hl0].
  - change (truth (nr (PtrList _ _ r []))) with false. cbv iota. rewrite app_nil_r.
    destruct ns' as [|m ns'].
    + cbn [app front fst]. rewrite Z.eqb_refl. apply runs_ret; [done|]. split; [done|].
      by exists [(a, (r, []))].
    + cbn [app front fst]. destruct (Z.eqb_spec a m.1) as [->|_].
      { exfalso. pose proof (holds_nodup _ _ H) as N. apply NoDup_addrs_cons in N as [N _]. apply N, in_middle. }
      eapply runs_mono; [apply (IH h (m :: ns') ((a, (r, [])) :: ms) H); [done|]|].
      { cbn [length] in *. rewrite length_app in Hl. cbn in *. lia. }
      intros p ns2 (-> & ns3 & -> & E & A & U). split; [done|]. exists (ns3 ++ [(a, (r, []))]).
      rewrite <- app_assoc. split_and!; [done|by rewrite entries_app, app_nil_r| |].
      * rewrite app_comm_cons, (map_app _ ns3), (map_app _ (m :: ns')). by f_equal.
      * intros V. rewrite app_comm_cons in V. apply List.Forall_app in V as [V1 V2]. apply List.Forall_app. by split; [apply U|].
  - replace (truth (nr _)) with true by (unfold truth, nr; by destruct l).
    eapply runs_bind; [done| |].
    { apply (runs_payload _ _ _ _ (r, removelast l)); [by intros p q| |done].
      eapply small_shorter; [by eapply holds_small_at|apply length_removelast]. }
    intros _ h' ns2 H' ->. apply runs_ret; [done|]. rewrite entry_last by done. cbn [blk].
    split; [by rewrite last_app_ne|]. exists (ns' ++ [(a, (r, removelast l))]). rewrite <- app_assoc. split_and!.
    + done.
    + rewrite entries_app. cbn. rewrite app_nil_r. symmetry. by apply removelast_app_ne.
    + by rewrite !map_app.
    + intros V. apply List.Forall_app in V as [V1 V2]. apply List.Forall_app. split; [done|]. by inversion V2; subst; repeat constructor.
Qed.

Lemma undo_ptr_list_last_spec h ns :
  holds h ns ->
  runs (undo_ptr_list_last (handle ns)) h ns (fun p ns' =>
    p = List.last (entries ns) 0 /\ entries ns' = removelast (entries ns) /\ handle ns' = handle ns /\
    (Forall unmarked ns -> Forall unmarked ns')).
Proof.
  intros H. unfold undo_ptr_list_last. destruct (Z.eqb_spec (handle ns) 0) as [E|E].
  - apply (holds_front _ _ H) in E as ->. by apply runs_ret.
  - destruct (fuel_run _ _ H) as (n & Hf & Hl). eapply runs_read; [exact Hf|].
    assert (Hn : ns <> []) by by intros ->.
    pose proof (undo_from_spec h n ns []) as R. rewrite app_nil_r in R. cbn [app] in R.
    eapply runs_mono; [apply R; [done|done|lia]|]. intros p ns' (-> & ns2 & -> & E2 & A & U). rewrite app_nil_r.
    split_and!; [done|done| |done]. destruct ns, ns2; try done. cbn in *. congruence.
Qed.

Lemma delete_alter (c : gmap Z ptr_list) f a : delete a (alter f a c) = delete a c.
Proof.
  apply map_eq. intros b. destruct (decide (b = a)) as [->|N]; [by rewrite !lookup_delete_eq|].
  by rewrite !lookup_delete_ne, lookup_alter_ne.
Qed.

(** The links of delete_ptr_list_last(), when the last block [a] became empty. *)
Lemma runs_drop_last {A} h ms a r (y : A) :
  holds h (ms ++ [(a, (r, []))]) ->
  runs (modify (front ms a) (set_prev (back a ms));;
        b ← deref a;
        modify (pl_prev b) (set_next (front ms a));;
        free_ptrlist a;; mret y) h (ms ++ [(a, (r, []))]) (fun z ns' => z = y /\ ns' = ms).
Proof.
  intros H. pose proof (holds_at _ _ _ _ _ _ H) as Ha. destruct ms as [|m ms].
  - pose proof (evolves_last _ _ H) as V. eexists y, _, _. split; [|split; [exact V|done]]. cbn [front back foldl fst] in *.
    assert (S : is_Some (cells h !! a)) by by eexists.
    run_step. erewrite bind_run; [|apply deref_run; cbn [cells]; by rewrite lookup_alter_eq, Ha]. cbn [set_prev pl_prev pl_next].
    do 2 run_step. by rewrite !delete_alter.
  - pose proof (evolves_unlink_at h (m :: ms) a (r, []) [] ltac:(done) H) as V. rewrite app_nil_r in V.
    destruct (neighbours h (m :: ms) a (r, []) [] ltac:(done) H) as (P1 & P2 & S1 & S2 & S3).
    eexists y, _, _. split; [|split; [exact V|done]]. cbn [front] in *. change (back a []) with a in *.
    run_step. erewrite bind_run; [|apply deref_run; cbn [cells]; by rewrite lookup_alter_ne].
    cbn [pl_prev pl_next]. change (back a []) with a. do 2 run_step. by rewrite alter_set_prev_next.
Qed.

(** Without empty blocks the last entry is in the last block. *)
Lemma delete_ptr_list_last_spec h ns :
  holds h ns -> Forall occupied ns ->
  runs (delete_ptr_list_last (handle ns)) h ns (fun '(l, p) ns' =>
    l = handle ns' /\ p = List.last (entries ns) 0 /\ entries ns' = removelast (entries ns) /\
    Forall occupied ns' /\ (Forall unmarked ns -> Forall unmarked ns')).
Proof.
  intros H O. unfold delete_ptr_list_last. destruct (Z.eqb_spec (handle ns) 0) as [E|E].
  { apply (holds_front _ _ H) in E as ->. by apply runs_ret. }
  assert (Hn : ns <> []) by by intros ->. destruct (holds_front_at _ _ H Hn) as (c & Hc & Ec).
  eapply runs_read; [by apply deref_run|]. rewrite Ec. destruct (exists_last Hn) as (ms & [a [r l]] & ->).
  rewrite back_app. cbn [back foldl fst]. eapply runs_read; [by eapply deref_run, holds_at|].
  apply List.Forall_app in O as [O1 O2]. inversion O2 as [|? ? O3 _]; subst. unfold occupied in O3. cbn in O3.
  destruct (exists_last O3) as (k & x & ->).
  replace (truth (nr _)) with true by (unfold truth, nr; cbn [blk]; by destruct k).
  rewrite entry_last by done. cbn [blk]. rewrite last_last.
  apply runs_bind with (R := fun p ns' => p = x /\ ns' = ms ++ [(a, (r, k))]); [done| |].
  { eapply runs_bind; [done| |].
    - apply (runs_payload _ _ _ _ (r, k)); [intros p q; unfold set_list; cbn; by rewrite removelast_last| |done].
      eapply small_shorter; [by eapply holds_small_at|]. rewrite length_app. lia.
    - intros _ h' ns' H' ->. by apply runs_ret. }
  intros p h1 ns1 H1 [-> ->]. rewrite entries_app. cbn [entries map concat snd]. rewrite app_nil_r.
  change (concat (map _ ms)) with (entries ms).
  rewrite last_app_ne, last_last, removelast_app_ne, removelast_last by (by destruct k).
  eapply runs_read; [by eapply deref_run, holds_at|]. cbn [pl_prev]. change (back a []) with a. unfold nr. cbn [blk].
  rewrite front_app. cbn [front fst].
  assert (U : Forall unmarked (ms ++ [(a, (r, k ++ [x]))]) -> Forall unmarked ms /\ Forall unmarked [(a, (r, k))]).
  { intros V. apply List.Forall_app in V as [V1 V2]. split; [done|]. by inversion V2; subst; repeat constructor. }
  destruct k as [|z k].
  - change (Z.of_nat (length (A := Z) []) <=? 0) with true. cbv iota.
    eapply runs_mono; [by apply runs_drop_last|]. intros [l p] ns' [[= -> ->] ->]. rewrite app_nil_r. split_and!; try done; [|intros V; by apply U in V as [? _]].
    destruct ms as [|m ms]; cbn [front]; [by rewrite Z.eqb_refl|].
    destruct (Z.eqb_spec a m.1) as [->|]; [|done].
    exfalso. pose proof (holds_nodup _ _ H) as N. apply NoDup_addrs_cons in N as [N _]. apply N, in_middle.
  - replace (Z.of_nat (length (z :: k)) <=? 0) with false by done. apply runs_ret; [done|].
    split_and!; [by rewrite front_app|done|by rewrite entries_app; cbn; rewrite app_nil_r| |].
    + apply List.Forall_app. split; [done|]. by repeat constructor.
    + intros V. apply List.Forall_app. by apply U.
Qed.

(** ** Freeing a list *)

Lemma free_from_spec c k p ns n :
  dseg c p ns 0 -> NoDup (addrs ns) -> (0 ∉ addrs ns) -> (length ns < n)%nat ->
  exists c', free_from n (handle ns) (Blocks c k) = Some (tt, Blocks c' k) /\
    forall a, c' !! a = if decide (a ∈ addrs ns) then None else c !! a.
Proof.
  revert c p n. induction ns as [|[a [r l]] ns IH]; intros c p n D N Z0 Hn; (destruct n as [|n]; [cbn in Hn; lia|]).
  - exists c. split; [done|]. intros a. destruct (decide (a ∈ addrs [])) as [Ha|]; [by apply not_elem_of_nil in Ha|done].
  - cbn [free_from front fst]. destruct D as [Ha D]. apply NoDup_addrs_cons in N as [Na N]. cbn [fst] in Na.
    cbn [map fst] in Z0. rewrite not_elem_of_cons in Z0. destruct Z0 as [Z1 Z0].
    destruct (Z.eqb_spec a 0) as [->|_]; [done|].
    rewrite (bind_run _ _ _ _ _ (deref_run (Blocks c k) _ _ Ha)).
    assert (S : is_Some (c !! a)) by by eexists. run_step. cbn [pl_next].
    destruct (IH (delete a c) a n) as (c' & -> & Hc); [by apply dseg_delete|done|done|cbn in Hn; lia|].
    exists c'. split; [done|]. intros b. rewrite Hc. cbn [map fst].
    destruct (decide (b ∈ addrs ns)) as [Hb|Hb]; [by rewrite decide_True by (by right)|].
    destruct (decide (b = a)) as [->|Hba]; [by rewrite lookup_delete_eq, decide_True by (by left)|].
    rewrite lookup_delete_ne, decide_False; [done| |done]. by rewrite not_elem_of_cons.
Qed.

Lemma free_ptr_list_spec h ns :
  holds h ns -> runs (free_ptr_list (handle ns)) h ns (fun l ns' => l = 0 /\ ns' = []).
Proof.
  intros H. unfold free_ptr_list. destruct (Z.eqb_spec (handle ns) 0) as [E|E].
  { apply (holds_front _ _ H) in E as ->. by apply runs_ret. }
  assert (Hn : ns <> []) by by intros ->. destruct (holds_front_at _ _ H Hn) as (c & Hc & Ec).
  eapply runs_read; [by apply deref_run|]. rewrite Ec.
  assert (S : is_Some (cells h !! back 0 ns)) by (eapply holds_is_Some; [done|by apply back_in]).
  destruct (fuel_run _ _ H) as (n & Hf & Hl).
  destruct (free_from_spec (alter (set_next 0) (back 0 ns) (cells h)) (brk h) (back 0 ns) ns n) as (c' & Hc' & L).
  - destruct (exists_last Hn) as (ms & m & ->). rewrite back_app. cbn [back foldl].
    pose proof (holds_closed _ _ H) as C. unfold closed in C. rewrite back_app in C.
    eapply dseg_set_next; [apply NoDup_last, H|exact C].
  - apply H.
  - intros Z0. pose proof (holds_pos _ _ _ H Z0). lia.
  - lia.
  - eexists 0, (Blocks c' (brk h)), []. split; [|split; [|done]].
    + run_step. rewrite (bind_run fuel _ _ n (Blocks (alter (set_next 0) (back 0 ns) (cells h)) (brk h))).
      { by rewrite (bind_run _ _ _ _ _ Hc'). }
      assert (Es : size (alter (set_next 0) (back 0 ns) (cells h)) = size (cells h))
        by by rewrite <- (size_dom (alter _ _ _)), <- (size_dom (cells h)), dom_alter_L.
      unfold fuel in *. cbn [cells]. rewrite Es. congruence.
    + split; cbn [cells brk]; [split|..].
      * pose proof (holds_wf _ _ H) as [W0 W]. split; [exact W0|].
        intros a [b Hb]. cbn [cells brk] in *. rewrite L in Hb. case_decide; [done|]. apply W. rewrite <- (alter_is_Some _ (set_next 0) (back 0 ns)). by eexists.
      * done.
      * constructor.
      * constructor.
      * intros a Ha _. rewrite L, decide_False by done. apply lookup_alter_ne. intros <-. by apply Ha, back_in.
      * intros a Ha _. by rewrite L, decide_True.
      * intros a Ha. by apply not_elem_of_nil in Ha.
      * lia.
Qed.
