(* ===== verification/PtrListWalk.v ===== *)
(** * Walks over pointer lists that change them

    FOR_EACH_PTR() with a body that deletes or replaces the current entry is [edit] on
    the entries; a body that changes another list cannot be seen by the walk.  Then
    the operations made of such walks, insertion at the cursor, and copy_ptr_list(). *)
From stdpp Require Import gmap.
From S2P Require Import Prelude PtrList PtrListFacts PtrListOps.
#[local] Open Scope Z_scope.

(** ** Editing the current entry *)

(** The step answers what the entry becomes, nothing or one entry. *)
Fixpoint edit {S} (step : Z -> S -> list Z * S * bool) (s : S) (es : list Z) : list Z * S :=
  match es with
  | [] => ([], s)
  | e :: es =>
    let '(o, s, stop) := step e s in
    if (stop : bool) then (o ++ es, s) else let '(es, s) := edit step s es in (o ++ es, s)
  end.

Definition edits {S} (body : cursor -> Z -> S -> M (cursor * S * bool)) (step : Z -> S -> list Z * S * bool) : Prop :=
  forall h ns a l1 e l2 ms s,
    holds h (ns ++ (a, (0, l1 ++ e :: l2)) :: ms) ->
    runs (body (a, Z.of_nat (length l1)) e s) h (ns ++ (a, (0, l1 ++ e :: l2)) :: ms) (fun '(c, s', stop) ns' =>
      let '(o, s0, stop0) := step e s in
      s' = s0 /\ stop = stop0 /\ c = (a, Z.of_nat (length l1) + Z.of_nat (length o) - 1) /\
      ns' = ns ++ (a, (0, l1 ++ o ++ l2)) :: ms).

Lemma entry_at p q r l1 e l2 : entry (PtrList p q r (l1 ++ e :: l2)) (Z.of_nat (length l1)) = e.
Proof. unfold entry. cbn [blk]. by rewrite Nat2Z.id, nth_middle. Qed.

(** No step takes an entry out. *)
Definition leaves_entries {S} (step : Z -> S -> list Z * S * bool) : Prop := forall e s, (step e s).1.1 <> [].

Lemma occupied_at ns a (x y : Z * list Z) ms : y.2 <> [] -> Forall occupied (ns ++ (a, x) :: ms) -> Forall occupied (ns ++ (a, y) :: ms).
Proof. intros Hy H. apply List.Forall_app in H as [H1 H2]. apply List.Forall_app. split; [done|]. inversion H2; subst. by constructor. Qed.

Lemma for_each_from_spec {S} (body : cursor -> Z -> S -> M (cursor * S * bool)) step n h ns a l1 l2 ms s :
  edits body step -> holds h (ns ++ (a, (0, l1 ++ l2)) :: ms) -> Forall unmarked ms ->
  (length l2 + length (entries ms) + length ms < n)%nat ->
  runs (for_each_from id body n (front ns a) (a, Z.of_nat (length l1)) s) h (ns ++ (a, (0, l1 ++ l2)) :: ms) (fun s' ns' =>
    s' = (edit step s (l2 ++ entries ms)).2 /\ entries ns' = entries ns ++ l1 ++ (edit step s (l2 ++ entries ms)).1 /\
    handle ns' = front ns a /\ (Forall unmarked ns -> Forall unmarked ns') /\
    (leaves_entries step -> Forall occupied (ns ++ (a, (0, l1 ++ l2)) :: ms) -> Forall occupied ns')).
Proof.
  intros Hb. revert h ns a l1 l2 ms s. induction n as [|n IH]; intros h ns a l1 l2 ms s H U Hn; [lia|].
  cbn [for_each_from]. eapply runs_read; [by eapply deref_run, holds_at|]. cbn [pl_rm pl_next].
  replace (truth 0) with false by done. cbn [andb]. unfold nr. cbn [blk]. rewrite length_app.
  destruct l2 as [|e l2].
  - rewrite Nat.add_0_r, Z.ltb_irrefl, app_nil_r in *.
    destruct ms as [|[b [r l]] ms].
    + cbn [front]. rewrite Z.eqb_refl. apply runs_ret; [done|]. cbn [app edit entries map concat fst snd].
      split_and!; [done|by rewrite entries_app|by rewrite front_app| |done].
      intros V. apply List.Forall_app. split; [done|]. by repeat constructor.
    + inversion U as [|? ? Ur U']; subst. unfold unmarked in Ur. cbn in Ur. subst r. cbn [front fst].
      rewrite (front_new (ns ++ [(a, (0, l1))]) ((b, (0, l)) :: ms) _ 0); [| |by destruct ns; cbn; left|done].
      2: { rewrite <- app_assoc. apply H. }
      specialize (IH h (ns ++ [(a, (0, l1))]) b [] l ms s). rewrite <- app_assoc, front_app in IH. cbn [app front fst length] in IH.
      eapply runs_mono; [apply IH; [done|done|rewrite entries_cons, length_app in Hn; cbn [length snd] in Hn; lia]|].
      intros s' ns' (-> & E & A & V & O). rewrite entries_cons. cbn [snd app]. split_and!; [done| |done| |done].
      * rewrite E, entries_app. cbn [entries map concat snd app]. by rewrite app_nil_r, <- app_assoc.
      * intros W. apply V, List.Forall_app. split; [done|]. by repeat constructor.
  - destruct (Z.ltb_spec (Z.of_nat (length l1)) (Z.of_nat (length l1 + length (e :: l2)))); [|cbn in *; lia].
    rewrite entry_at. cbn [app edit].
    eapply runs_bind; [exact H|exact (Hb h ns a l1 e l2 ms s H)|].
    intros [[[a' i] s'] stop] h' ns' H'. destruct (step e s) as [[o s0] stop0] eqn:Es.
    intros (-> & -> & [= -> ->] & ->). destruct stop0.
    + apply runs_ret; [done|]. cbn [fst snd]. split_and!; [done| |by rewrite front_app| |].
      * rewrite entries_app, entries_cons. cbn [snd]. by rewrite <- !app_assoc.
      * intros V. apply List.Forall_app. split; [done|]. by constructor.
      * intros L. apply occupied_at. specialize (L e s). rewrite Es in L. cbn in *. intros [_ [? _]%app_eq_nil]%app_eq_nil. done.
    + rewrite app_assoc in H'. specialize (IH h' ns a (l1 ++ o) l2 ms s0 H' U ltac:(cbn in Hn; lia)).
      rewrite length_app in IH. replace (_ + Z.of_nat (length o) - 1 + 1) with (Z.of_nat (length l1 + length o)) by lia.
      rewrite (app_assoc l1). eapply runs_mono; [exact IH|]. intros s' ns' (-> & E & A & V & O).
      destruct (edit step s0 (l2 ++ entries ms)) as [es s2]. cbn [fst snd] in *. split_and!; [done| |done|done|].
      * by rewrite E, <- !app_assoc.
      * intros L Ho. apply (O L). eapply occupied_at; [|exact Ho]. specialize (L e s). rewrite Es in L. cbn in *.
        by intros [[_ ?]%app_eq_nil _]%app_eq_nil.
Qed.

Lemma entries_bound ns : Forall small ns -> (length (entries ns) <= 13 * length ns)%nat.
Proof.
  induction 1 as [|n ns Hs _ IH]; [done|]. rewrite entries_cons, length_app. cbn [length].
  unfold small, LIST_NODE_NR in Hs. lia.
Qed.

Lemma for_each_ptr_spec {S} (body : cursor -> Z -> S -> M (cursor * S * bool)) step h ns s :
  edits body step -> holds h ns -> Forall unmarked ns ->
  runs (for_each_ptr id (handle ns) body s) h ns (fun s' ns' =>
    s' = (edit step s (entries ns)).2 /\ entries ns' = (edit step s (entries ns)).1 /\
    handle ns' = handle ns /\ Forall unmarked ns' /\ (leaves_entries step -> Forall occupied ns -> Forall occupied ns')).
Proof.
  intros Hb H U. unfold for_each_ptr. destruct (Z.eqb_spec (handle ns) 0) as [E|E].
  { apply (holds_front _ _ H) in E as ->. by apply runs_ret. }
  destruct (fuel_run _ _ H) as (n & Hf & Hl). eapply runs_read; [exact Hf|].
  destruct ns as [|[a [r l]] ns]; [done|]. inversion U as [|? ? Ur U']; subst. unfold unmarked in Ur. cbn in Ur. subst r.
  eapply runs_mono; [apply (for_each_from_spec body step n h [] a [] l ns s Hb H U')|].
  - pose proof (entries_bound _ (holds_small _ _ H)) as L. rewrite entries_cons, length_app in L. cbn [length snd] in *. lia.
  - intros s' ns' (-> & E2 & A & V & O). rewrite entries_cons. cbn [snd]. by split_and!; [|rewrite E2| |apply V|].
Qed.

(** ** Deleting and replacing entries *)

(** The entries after deleting up to [count] times [e], all of them if [count] is 0, and
    the count that is left. *)
Fixpoint delete_up_to (e count : Z) (es : list Z) : list Z * Z :=
  match es with
  | [] => ([], count)
  | x :: es =>
    if x =? e then if count - 1 =? 0 then (es, 0) else delete_up_to e (count - 1) es
    else let '(es, c) := delete_up_to e count es in (x :: es, c)
  end.

Fixpoint replace_up_to (old new count : Z) (es : list Z) : list Z * Z :=
  match es with
  | [] => ([], count)
  | x :: es =>
    if x =? old then
      if count - 1 =? 0 then (new :: es, 0)
      else let '(es, c) := replace_up_to old new (count - 1) es in (new :: es, c)
    else let '(es, c) := replace_up_to old new count es in (x :: es, c)
  end.

(** The bodies of the two loops. *)
Definition change_step (e : Z) (o : list Z) (x : Z) (s : Z * bool) : list Z * (Z * bool) * bool :=
  if x =? e then (o, (s.1 - 1, if s.1 - 1 =? 0 then true else s.2), s.1 - 1 =? 0) else ([x], s, false).

Lemma edit_delete e count es :
  exists out, edit (change_step e []) (count, false) es = ((delete_up_to e count es).1, ((delete_up_to e count es).2, out)) /\
    (out = true -> (delete_up_to e count es).2 = 0).
Proof.
  revert count. induction es as [|x es IH]; intros count; [by exists false|]. cbn [edit delete_up_to]. unfold change_step at 1.
  destruct (Z.eqb_spec x e) as [->|Hx]; cbn [fst snd].
  - destruct (Z.eqb_spec (count - 1) 0) as [->|Hc]; [by exists true|].
    destruct (IH (count - 1)) as (out & -> & Ho). by exists out.
  - destruct (IH count) as (out & -> & Ho). exists out. by destruct (delete_up_to e count es).
Qed.

Lemma edit_replace e new count es :
  exists out, edit (change_step e [new]) (count, false) es = ((replace_up_to e new count es).1, ((replace_up_to e new count es).2, out)) /\
    (out = true -> (replace_up_to e new count es).2 = 0).
Proof.
  revert count. induction es as [|x es IH]; intros count; [by exists false|]. cbn [edit replace_up_to]. unfold change_step at 1.
  destruct (Z.eqb_spec x e) as [->|Hx]; cbn [fst snd].
  - destruct (Z.eqb_spec (count - 1) 0) as [->|Hc]; [by exists true|].
    destruct (IH (count - 1)) as (out & -> & Ho). exists out. by destruct (replace_up_to e new (count - 1) es).
  - destruct (IH count) as (out & -> & Ho). exists out. by destruct (replace_up_to e new count es).
Qed.

Lemma runs_delete_current h ns a l1 e l2 ms :
  holds h (ns ++ (a, (0, l1 ++ e :: l2)) :: ms) ->
  runs (delete_current_ptr (a, Z.of_nat (length l1))) h (ns ++ (a, (0, l1 ++ e :: l2)) :: ms) (fun c ns' =>
    c = (a, Z.of_nat (length l1) - 1) /\ ns' = ns ++ (a, (0, l1 ++ l2)) :: ms).
Proof.
  intros H. unfold delete_current_ptr. eapply runs_bind; [exact H| |].
  - apply (runs_payload _ _ _ _ (0, l1 ++ l2)); [|eapply small_shorter; [by eapply holds_small_at|rewrite !length_app; cbn; lia]|done].
    intros p q. unfold set_list. cbn [pl_prev pl_next pl_rm blk fst snd]. rewrite Nat2Z.id. f_equal.
    rewrite take_app_length. f_equal. rewrite cons_middle, app_assoc. apply drop_app_length'. rewrite length_app. cbn. lia.
  - intros _ h' ns' H' ->. by apply runs_ret.
Qed.

Lemma runs_replace_current h ns a l1 e l2 ms new :
  holds h (ns ++ (a, (0, l1 ++ e :: l2)) :: ms) ->
  runs (replace_current_ptr (a, Z.of_nat (length l1)) new) h (ns ++ (a, (0, l1 ++ e :: l2)) :: ms) (fun _ ns' =>
    ns' = ns ++ (a, (0, l1 ++ new :: l2)) :: ms).
Proof.
  intros H. apply (runs_payload _ _ _ _ (0, l1 ++ new :: l2)); [|eapply small_shorter; [by eapply holds_small_at|by rewrite !length_app]|done].
  intros p q. unfold set_list. cbn [pl_prev pl_next pl_rm blk fst snd]. rewrite Nat2Z.id.
  by rewrite insert_app_r_alt, Nat.sub_diag by lia.
Qed.

Lemma delete_ptr_list_entry_spec h ns e count :
  holds h ns -> Forall unmarked ns -> (delete_up_to e count (entries ns)).2 <= 0 ->
  runs (delete_ptr_list_entry (handle ns) e count) h ns (fun '(l, c) ns' =>
    l = handle ns' /\ entries ns' = (delete_up_to e count (entries ns)).1 /\ c = (delete_up_to e count (entries ns)).2 /\
    Forall unmarked ns' /\ Forall occupied ns').
Proof.
  intros H U Hc. unfold delete_ptr_list_entry. eapply runs_bind; [exact H| |].
  { apply (for_each_ptr_spec _ (change_step e [])); [|done|done].
    intros h0 ks a l1 x l2 ms [c out] H0. unfold change_step. cbn [fst snd]. destruct (Z.eqb_spec x e).
    - eapply runs_bind; [exact H0|by apply runs_delete_current|]. intros c' h1 ns1 H1 [-> ->].
      destruct (c - 1 =? 0); apply runs_ret; try done; cbn [length app]; split_and!; try done; f_equal; lia.
    - apply runs_ret; [done|]. cbn [length app]. split_and!; try done. f_equal; lia. }
  intros [c out] h1 ns1 H1. destruct (edit_delete e count (entries ns)) as (out' & -> & Ho). cbn [fst snd].
  intros ([= -> ->] & E & A & V & _). rewrite (proj2 (Z.leb_le _ _) Hc), orb_true_r.
  eapply runs_bind; [exact H1|rewrite <- A; by apply pack_ptr_list_spec|]. intros l h2 ns2 H2 [-> ->].
  apply runs_ret; [done|]. split_and!; try done; [by rewrite entries_packed|by apply packed_unmarked|apply packed_occupied].
Qed.

Lemma replace_ptr_list_entry_spec h ns old new count :
  holds h ns -> Forall unmarked ns -> (replace_up_to old new count (entries ns)).2 <= 0 ->
  runs (replace_ptr_list_entry (handle ns) old new count) h ns (fun c ns' =>
    handle ns' = handle ns /\ entries ns' = (replace_up_to old new count (entries ns)).1 /\
    c = (replace_up_to old new count (entries ns)).2 /\ Forall unmarked ns' /\ (Forall occupied ns -> Forall occupied ns')).
Proof.
  intros H U Hc. unfold replace_ptr_list_entry. eapply runs_bind; [exact H| |].
  { apply (for_each_ptr_spec _ (change_step old [new])); [|done|done].
    intros h0 ks a l1 x l2 ms [c out] H0. unfold change_step. cbn [fst snd]. destruct (Z.eqb_spec x old).
    - eapply runs_bind; [exact H0|by apply runs_replace_current|]. intros _ h1 ns1 H1 ->.
      destruct (c - 1 =? 0); apply runs_ret; try done; cbn [length app]; split_and!; try done; f_equal; lia.
    - apply runs_ret; [done|]. cbn [length app]. split_and!; try done. f_equal; lia. }
  intros [c out] h1 ns1 H1. destruct (edit_replace old new count (entries ns)) as (out' & -> & Ho). cbn [fst snd].
  intros ([= -> ->] & E & A & V & O). rewrite (proj2 (Z.leb_le _ _) Hc), orb_true_r. apply runs_ret; [done|]. split_and!; try done.
  apply O. intros x [n b]. unfold change_step. by destruct (x =? old).
Qed.

(** ** Two lists *)

Definition apart (ns ms : list node) : Prop := forall a, a ∈ addrs ns -> a ∉ addrs ms.

(** A list does not see what happens to another one. *)
Lemma evolves_other h h' ns ns' ms :
  evolves h h' ns ns' -> holds h ms -> apart ns ms -> holds h' ms /\ apart ns' ms.
Proof.
  intros V [W C N S] D. assert (D' : apart ns' ms).
  { intros a Ha Hm. destruct (ev_fresh _ _ _ _ V _ Ha) as [Hn|Hb]; [by apply (D a)|].
    destruct (holds_pos h ms a (Holds _ _ W C N S) Hm). lia. }
  split; [|done]. split; [apply V| |done|done].
  eapply closed_ext; [|exact C]. intros a Ha. apply (ev_frame _ _ _ _ V); intros Hn; [by apply (D a)|by apply (D' a)].
Qed.

(** A walk over [ns] with a body that changes other blocks: [P] is about the entries
    seen so far. *)
Lemma for_each_from_read {S} (body : cursor -> Z -> S -> M (cursor * S * bool)) (P : list Z -> S -> blocks -> Prop)
    n h ns a l1 l2 ms s es :
  (forall h c e s es, holds h (ns ++ (a, (0, l1 ++ l2)) :: ms) -> P es s h ->
     exists s' h', body c e s h = Some ((c, s', false), h') /\ holds h' (ns ++ (a, (0, l1 ++ l2)) :: ms) /\ P (es ++ [e]) s' h') ->
  holds h (ns ++ (a, (0, l1 ++ l2)) :: ms) -> Forall unmarked ms -> P es s h ->
  (length l2 + length (entries ms) + length ms < n)%nat ->
  exists s' h', for_each_from id body n (front ns a) (a, Z.of_nat (length l1)) s h = Some (s', h') /\
    holds h' (ns ++ (a, (0, l1 ++ l2)) :: ms) /\ P (es ++ l2 ++ entries ms) s' h'.
Proof.
  revert h ns a l1 l2 ms s es. induction n as [|n IH]; intros h ns a l1 l2 ms s es Hb H U HP Hn; [lia|].
  cbn [for_each_from]. rewrite (bind_run _ _ _ _ _ (deref_run _ _ _ (holds_at _ _ _ _ _ _ H))). cbn [pl_rm pl_next].
  replace (truth 0) with false by done. cbn [andb]. unfold nr. cbn [blk]. rewrite length_app.
  destruct l2 as [|e l2].
  - rewrite Nat.add_0_r, Z.ltb_irrefl, app_nil_r in *. destruct ms as [|[b [r l]] ms].
    + cbn [front]. rewrite Z.eqb_refl. exists s, h. by rewrite !app_nil_r.
    + inversion U as [|? ? Ur U']; subst. unfold unmarked in Ur. cbn in Ur. subst r. cbn [front fst].
      rewrite (front_new (ns ++ [(a, (0, l1))]) ((b, (0, l)) :: ms) _ 0); [| |by destruct ns; cbn; left|done].
      2: { rewrite <- app_assoc. apply H. }
      specialize (IH h (ns ++ [(a, (0, l1))]) b [] l ms s es). rewrite <- app_assoc, front_app in IH. cbn [app front fst length] in IH.
      apply IH; [done|done|done|done|]. rewrite entries_cons, length_app in Hn; cbn [length snd] in Hn; lia.
  - destruct (Z.ltb_spec (Z.of_nat (length l1)) (Z.of_nat (length l1 + length (e :: l2)))); [|cbn in *; lia].
    rewrite entry_at. destruct (Hb h (a, Z.of_nat (length l1)) e s es H HP) as (s' & h' & E & H' & P').
    unfold id at 1. rewrite (bind_run _ _ _ _ _ E).
    specialize (IH h' ns a (l1 ++ [e]) l2 ms s' (es ++ [e])). rewrite length_app in IH.
    replace (Z.of_nat (length l1) + 1) with (Z.of_nat (length l1 + length [e])) by (cbn; lia).
    rewrite <- !app_assoc in IH. apply IH; [done|done|done|done|cbn in Hn; lia].
Qed.

Lemma for_each_ptr_read {S} (body : cursor -> Z -> S -> M (cursor * S * bool)) (P : list Z -> S -> blocks -> Prop) h ns s :
  (forall h c e s es, holds h ns -> P es s h ->
     exists s' h', body c e s h = Some ((c, s', false), h') /\ holds h' ns /\ P (es ++ [e]) s' h') ->
  holds h ns -> Forall unmarked ns -> P [] s h ->
  exists s' h', for_each_ptr id (handle ns) body s h = Some (s', h') /\ holds h' ns /\ P (entries ns) s' h'.
Proof.
  intros Hb H U HP. unfold for_each_ptr. destruct (Z.eqb_spec (handle ns) 0) as [E|E].
  { apply (holds_front _ _ H) in E as ->. by exists s, h. }
  destruct (fuel_run _ _ H) as (n & Hf & Hl). rewrite (bind_run _ _ _ _ _ Hf).
  destruct ns as [|[a [r l]] ns]; [done|]. inversion U as [|? ? Ur U']; subst. unfold unmarked in Ur. cbn in Ur. subst r.
  destruct (for_each_from_read body P n h [] a [] l ns s [] Hb H U' HP) as (s' & h' & E2 & H' & HP').
  - pose proof (entries_bound _ (holds_small _ _ H)) as L. rewrite entries_cons, length_app in L. cbn [length snd] in *. lia.
  - by exists s', h'.
Qed.

Lemma add_ptr_list_spec hack h ns ptr :
  holds h ns ->
  runs (add_ptr_list hack (handle ns) ptr) h ns (fun l ns' => l = handle ns' /\ entries ns' = entries ns ++ [ptr] /\ keeps ns ns').
Proof.
  intros H. unfold add_ptr_list. eapply runs_bind; [exact H|by apply add_ptr_list_at_spec|].
  intros [l c] h' ns' H' Q. by apply runs_ret.
Qed.

Lemma keeps_refl ns : keeps ns ns.
Proof. by split. Qed.

Lemma keeps_trans ns1 ns2 ns3 : keeps ns1 ns2 -> keeps ns2 ns3 -> keeps ns1 ns3.
Proof. intros [A B] [C D]. split; auto. Qed.

Lemma concat_ptr_list_spec hack h ns ms :
  holds h ns -> holds h ms -> apart ns ms -> Forall unmarked ms ->
  runs (concat_ptr_list hack (handle ms) (handle ns)) h ns (fun l ns' =>
    l = handle ns' /\ entries ns' = entries ns ++ entries ms /\ keeps ns ns').
Proof.
  intros H Hm D U. unfold concat_ptr_list.
  destruct (for_each_ptr_read (fun c e b => b ← add_ptr_list hack b e; mret (c, b, false))
    (fun es b h' => exists ns', b = handle ns' /\ evolves h h' ns ns' /\ entries ns' = entries ns ++ es /\ keeps ns ns')
    h ms (handle ns)) as (b & h' & E & _ & ns' & -> & V & En & K); [|done|done| |by exists (handle ns'), h', ns'].
  - intros h1 c e b es Hm1 (ns1 & -> & V1 & E1 & K1).
    destruct (add_ptr_list_spec hack h1 ns1 e (ev_holds _ _ _ _ V1)) as (l & h2 & ns2 & E2 & V2 & -> & En & K2).
    exists (handle ns2), h2. rewrite (bind_run _ _ _ _ _ E2). split; [done|].
    assert (V : evolves h h2 ns ns2) by (eapply evolves_trans; [apply H|done|done]).
    split; [by eapply evolves_other|]. exists ns2. split_and!; [done|done|by rewrite En, E1, <- app_assoc|by eapply keeps_trans].
  - exists ns. split_and!; [done|by apply evolves_refl|by rewrite app_nil_r|apply keeps_refl].
Qed.

(** ** copy_ptr_list() *)

(** The list while it grows: its ends are not linked to each other, nothing says what
    is before the first block or behind the last. *)
Record grows (h : blocks) (p : Z) (ns : list node) : Prop := Grows {
  grows_wf : wf_blocks h;
  grows_seg : exists q, dseg (cells h) p ns q;
  grows_nodup : NoDup (addrs ns);
  grows_small : Forall small ns
}.

(** Only blocks of the list and fresh ones were changed. *)
Definition within (h h' : blocks) (ns ns' : list node) : Prop :=
  (forall a, a ∉ addrs ns -> a < brk h -> cells h' !! a = cells h !! a) /\
  (forall a, a ∈ addrs ns' -> a ∈ addrs ns \/ brk h <= a) /\
  (forall a, a ∈ addrs ns -> a ∈ addrs ns') /\
  (forall a, a ∉ addrs ns' -> brk h <= a -> cells h' !! a = None) /\ brk h <= brk h'.

Lemma within_refl h ns : wf_blocks h -> within h h ns ns.
Proof. intros W. split_and!; [done|by left|done|by intros; apply wf_fresh|lia]. Qed.

Lemma within_trans h1 h2 h3 ns1 ns2 ns3 : within h1 h2 ns1 ns2 -> within h2 h3 ns2 ns3 -> within h1 h3 ns1 ns3.
Proof.
  intros (A1 & B1 & C1 & D1 & E1) (A2 & B2 & C2 & D2 & E2). split_and!.
  - intros a Ha Hb. rewrite A2; [by apply A1| |lia]. intros Hi. destruct (B1 _ Hi); [done|lia].
  - intros a Ha. destruct (B2 _ Ha) as [Hi|Hi]; [by apply B1|]. right. lia.
  - auto.
  - intros a Ha Hb. destruct (decide (brk h2 <= a)); [by apply D2|]. rewrite A2; [|by intros ?; apply Ha, C2|lia].
    apply D1; [|done]. by intros ?; apply Ha, C2.
  - lia.
Qed.

Lemma grows_payload h p ns a x x' f :
  rewrites f x x' -> small (a, x') -> grows h p (ns ++ [(a, x)]) ->
  exists h', modify a f h = Some (tt, h') /\ grows h' p (ns ++ [(a, x')]) /\ within h h' (ns ++ [(a, x)]) (ns ++ [(a, x')]).
Proof.
  intros Hf Hs [W [q D] N S].
  assert (Ha : is_Some (cells h !! a)) by (destruct x as [r l]; eexists; by eapply dseg_lookup).
  assert (E : addrs (ns ++ [(a, x')]) = addrs (ns ++ [(a, x)])) by by rewrite !map_app.
  eexists. split; [by apply modify_run|]. split; [split|].
  - by apply wf_alter.
  - exists q. by eapply dseg_set_payload.
  - by rewrite E.
  - apply List.Forall_app in S as [S1 S2]. apply List.Forall_app. split; [done|]. by repeat constructor.
  - split_and!; rewrite ?E; cbn [cells brk]; [|by left|done| |lia].
    + intros b Hb _. apply lookup_alter_ne. intros ->. apply Hb, in_middle.
    + intros b Hb Hk. rewrite lookup_alter_ne; [by apply wf_fresh|]. intros ->. apply Hb, in_middle.
Qed.

Lemma grows_append h p ns a x :
  grows h p (ns ++ [(a, x)]) ->
  exists h', (b ← alloc_ptrlist; modify a (set_next b);; modify b (set_prev a);; mret (b, 0)) h = Some ((brk h, 0), h') /\
    grows h' p ((ns ++ [(a, x)]) ++ [(brk h, (0, []))]) /\ within h h' (ns ++ [(a, x)]) ((ns ++ [(a, x)]) ++ [(brk h, (0, []))]).
Proof.
  intros [W [q D] N S].
  assert (Ha : is_Some (cells h !! a)) by (destruct x as [r l]; eexists; by eapply dseg_lookup).
  assert (Nb : brk h ∉ addrs (ns ++ [(a, x)])).
  { intros Hin. apply list_elem_of_fmap in Hin as ([b [r l]] & E & Hin). apply list_elem_of_split in Hin as (k1 & k2 & E2).
    rewrite E2 in D. apply dseg_lookup in D. cbn in E. subst b. by rewrite wf_fresh in D. }
  assert (Nab : brk h <> a) by (intros E; apply Nb; rewrite E; apply in_middle).
  eexists. split; [do 3 run_step; reflexivity|]. split; [split|].
  - do 2 apply wf_alter. by apply wf_blocks_alloc.
  - exists 0. cbn [cells]. rewrite dseg_app, back_app. cbn [front fst back foldl dseg]. split; [|split; [|done]].
    + apply dseg_alter; [done|]. apply (dseg_set_next _ p ns (a, x) q); [by apply (NoDup_last ns (a, x))|]. by apply dseg_insert.
    + by rewrite lookup_alter_eq, lookup_alter_ne, lookup_insert_eq.
  - rewrite map_app. apply list.NoDup_app. split; [done|]. split; [|apply NoDup_singleton].
    intros b Hb ->%list_elem_of_singleton. done.
  - apply List.Forall_app. split; [done|]. by repeat constructor.
  - split_and!; cbn [cells brk]; [| | | |lia]; intros b; rewrite ?(map_app _ (ns ++ [(a, x)])), ?elem_of_app.
    + intros Hb Hk. rewrite !lookup_alter_ne, lookup_insert_ne; [done|lia| |lia].
      intros ->. apply Hb, in_middle.
    + intros [Hb|Hb]; [by left|]. apply list_elem_of_singleton in Hb. cbn in Hb. right. lia.
    + by left.
    + intros Hb Hk. rewrite lookup_alter_ne, lookup_alter_ne, lookup_insert_ne; [by apply wf_fresh| | |].
      * intros <-. apply Hb. right. left.
      * intros ->. apply Hb. left. apply in_middle.
      * intros <-. apply Hb. right. left.
Qed.

(** The entries that are copied. *)
Abbreviation live := (List.filter (fun e => negb (e =? 0))).

Lemma copy_entries_spec es h p ns t r l :
  grows h p (ns ++ [(t, (r, l))]) ->
  exists h' ns' t' r' l', copy_entries es t (Z.of_nat (length l)) h = Some ((t', Z.of_nat (length l')), h') /\
    grows h' p (ns' ++ [(t', (r', l'))]) /\ within h h' (ns ++ [(t, (r, l))]) (ns' ++ [(t', (r', l'))]) /\
    entries (ns' ++ [(t', (r', l'))]) = entries (ns ++ [(t, (r, l))]) ++ live es /\
    front (ns' ++ [(t', (r', l'))]) 0 = front (ns ++ [(t, (r, l))]) 0 /\
    (Forall unmarked (ns ++ [(t, (r, l))]) -> Forall unmarked (ns' ++ [(t', (r', l'))])) /\
    (Forall occupied (ns ++ [(t, (r, l))]) -> Forall occupied (ns' ++ [(t', (r', l'))])).
Proof.
  revert h ns t r l. induction es as [|e es IH]; intros h ns t r l G; cbn [copy_entries].
  { exists h, ns, t, r, l. rewrite app_nil_r. split_and!; try done. by apply within_refl, G. }
  cbn [List.filter]. destruct (Z.eqb_spec e 0) as [->|He]; [by apply IH|]. cbn [negb].
  assert (exists h1 ns1 t1 r1 l1,
    (if Z.of_nat (length l) >=? LIST_NODE_NR then
       b ← alloc_ptrlist; modify t (set_next b);; modify b (set_prev t);; mret (b, 0)
     else mret (t, Z.of_nat (length l))) h = Some ((t1, Z.of_nat (length l1)), h1) /\
    grows h1 p (ns1 ++ [(t1, (r1, l1))]) /\ within h h1 (ns ++ [(t, (r, l))]) (ns1 ++ [(t1, (r1, l1))]) /\
    Z.of_nat (length l1) < LIST_NODE_NR /\ entries (ns1 ++ [(t1, (r1, l1))]) = entries (ns ++ [(t, (r, l))]) /\
    front (ns1 ++ [(t1, (r1, l1))]) 0 = front (ns ++ [(t, (r, l))]) 0 /\
    (Forall unmarked (ns ++ [(t, (r, l))]) -> Forall unmarked (ns1 ++ [(t1, (r1, l1))])) /\
    (Forall occupied (ns ++ [(t, (r, l))]) -> Forall occupied ns1)) as (h1 & ns1 & t1 & r1 & l1 & E1 & G1 & I1 & L1 & En1 & F1 & U1 & O1).
  { destruct (Z.geb_spec (Z.of_nat (length l)) LIST_NODE_NR).
    - destruct (grows_append _ _ _ _ _ G) as (h1 & E1 & G1 & I1).
      exists h1, (ns ++ [(t, (r, l))]), (brk h), 0, []. split_and!; try done.
      + by rewrite entries_app, app_nil_r.
      + rewrite (front_app (ns ++ _)). apply front_ne. by destruct ns.
      + intros U. apply List.Forall_app. split; [done|]. by repeat constructor.
    - exists h, ns, t, r, l. split_and!; try done; [by apply within_refl, G|].
      intros O. by apply List.Forall_app in O as [? _]. }
  rewrite (bind_run _ _ _ _ _ E1).
  destruct (grows_payload h1 p ns1 t1 (r1, l1) (r1, l1 ++ [e]) (fun b => set_list (take (Z.to_nat (Z.of_nat (length l1))) (blk b) ++ [e]) b))
    as (h2 & E2 & G2 & I2); [|unfold small; cbn; rewrite length_app; cbn; lia|done|].
  { intros a b. unfold set_list. cbn. by rewrite Nat2Z.id, firstn_all. }
  rewrite (bind_run _ _ _ _ _ E2).
  destruct (IH h2 ns1 t1 r1 (l1 ++ [e]) G2) as (h3 & ns3 & t3 & r3 & l3 & E3 & G3 & I3 & En3 & F3 & U3 & O3).
  replace (Z.of_nat (length l1) + 1) with (Z.of_nat (length (l1 ++ [e]))) by (rewrite length_app; cbn; lia).
  exists h3, ns3, t3, r3, l3. split_and!; [done|done| | | | |].
  - eapply within_trans; [done|]. by eapply within_trans.
  - rewrite En3, <- En1, !entries_app. cbn [entries map concat snd]. by rewrite !app_nil_r, <- !app_assoc.
  - rewrite F3, <- F1. by rewrite !front_app.
  - intros U. apply U3. apply U1, List.Forall_app in U as [Ua Ub]. apply List.Forall_app. split; [done|].
    inversion Ub; subst. by repeat constructor.
  - intros O. apply O3, List.Forall_app. split; [by apply O1|]. repeat constructor. unfold occupied. cbn. by destruct l1.
Qed.

Lemma within_app h h' ns ns' ms : within h h' ns ns' -> within h h' (ns ++ ms) (ns' ++ ms).
Proof.
  intros (A & B & C & D & E). unfold within. setoid_rewrite map_app. setoid_rewrite elem_of_app. split_and!; [| | | |lia].
  - intros a Ha Hk. apply A; tauto.
  - intros a [Ha|Ha]; [destruct (B a Ha); tauto|tauto].
  - intros a [Ha|Ha]; [left; auto|tauto].
  - intros a Ha Hk. apply D; tauto.
Qed.

Lemma within_ext h h' ns ns' ms ms' :
  within h h' ns ns' -> (forall a, a ∈ addrs ns <-> a ∈ addrs ms) -> (forall a, a ∈ addrs ns' <-> a ∈ addrs ms') ->
  within h h' ms ms'.
Proof. intros I E E'. unfold within in *. setoid_rewrite <- E. by setoid_rewrite <- E'. Qed.

Lemma within_apart h h' ns ns' ms :
  within h h' ns ns' -> (forall a, a ∈ addrs ms -> a < brk h) -> apart ns ms -> apart ns' ms.
Proof. intros (_ & B & _) L D a Ha Hm. destruct (B a Ha) as [Hn|]; [by apply (D a)|]. specialize (L a Hm). lia. Qed.

Lemma dseg_pos h p ns q a : wf_blocks h -> dseg (cells h) p ns q -> a ∈ addrs ns -> 0 < a < brk h.
Proof.
  intros W D Ha. apply list_elem_of_fmap in Ha as ([b [r l]] & -> & Hin). apply list_elem_of_split in Hin as (k1 & k2 & ->).
  apply dseg_lookup in D. apply W. cbn. by rewrite D.
Qed.

Lemma grows_ext h h' p ns :
  grows h p ns -> wf_blocks h' -> (forall a, a ∈ addrs ns -> cells h' !! a = cells h !! a) -> grows h' p ns.
Proof. intros [W [q D] N S] W' E. split; [done| |done|done]. exists q. by eapply dseg_ext. Qed.

Lemma copy_blocks_spec n h p ns t r l x ms src :
  grows h p (ns ++ [(t, (r, l))]) -> dseg (cells h) x ms src -> ms <> [] -> NoDup (addrs ms) ->
  apart (ns ++ [(t, (r, l))]) ms -> (src ∉ addrs (tail ms)) -> (length ms <= n)%nat ->
  exists h' ns' t' r' l', copy_blocks n src (handle ms) t (Z.of_nat (length l)) h = Some ((t', Z.of_nat (length l')), h') /\
    grows h' p (ns' ++ [(t', (r', l'))]) /\
    within h h' ((ns ++ [(t, (r, l))]) ++ ms) ((ns' ++ [(t', (r', l'))]) ++ ms) /\
    (forall a, a ∈ addrs ms -> cells h' !! a = None) /\
    entries (ns' ++ [(t', (r', l'))]) = entries (ns ++ [(t, (r, l))]) ++ live (entries ms) /\
    front (ns' ++ [(t', (r', l'))]) 0 = front (ns ++ [(t, (r, l))]) 0 /\
    (Forall unmarked (ns ++ [(t, (r, l))]) -> Forall unmarked (ns' ++ [(t', (r', l'))])) /\
    (Forall occupied (ns ++ [(t, (r, l))]) -> Forall occupied (ns' ++ [(t', (r', l'))])).
Proof.
  revert h ns t r l x ms. induction n as [|n IH]; intros h ns t r l x ms G D Hm N A Hs Hn; [by destruct ms; [|cbn in Hn; lia]|].
  destruct ms as [|[a [ra la]] ms]; [done|]. cbn [copy_blocks front fst tail] in *. destruct D as [Da D].
  rewrite (bind_run _ _ _ _ _ (deref_run _ _ _ Da)). cbn [blk].
  pose proof (grows_wf _ _ _ G) as W. pose proof (fun b => dseg_pos h x ((a, (ra, la)) :: ms) src b W (conj Da D)) as Pos.
  destruct (copy_entries_spec la h p ns t r l G) as (h1 & ns1 & t1 & r1 & l1 & E1 & G1 & I1 & En1 & F1 & U1 & O1).
  rewrite (bind_run _ _ _ _ _ E1). clear E1.
  assert (Ha1 : cells h1 !! a = cells h !! a).
  { apply I1; [intros Hin; apply (A a Hin), list_elem_of_here|]. apply Pos, list_elem_of_here. }
  rewrite Da in Ha1. rewrite (bind_run _ _ _ _ _ (deref_run _ _ _ Ha1)). clear Da. cbn [pl_next].
  assert (Sa : is_Some (cells h1 !! a)) by by eexists. run_step. set (h2 := Blocks (delete a (cells h1)) (brk h1)).
  assert (A1 : apart (ns1 ++ [(t1, (r1, l1))]) ((a, (ra, la)) :: ms)) by (eapply within_apart; [done|apply Pos|done]).
  assert (W2 : wf_blocks h2) by apply wf_blocks_delete, G1.
  assert (G2 : grows h2 p (ns1 ++ [(t1, (r1, l1))])).
  { eapply grows_ext; [exact G1|done|]. intros b Hb. cbn. rewrite lookup_delete_ne; [done|].
    intros <-. apply (A1 a Hb), list_elem_of_here. }
  assert (I2 : within h h2 ((ns ++ [(t, (r, l))]) ++ (a, (ra, la)) :: ms) ((ns1 ++ [(t1, (r1, l1))]) ++ (a, (ra, la)) :: ms)).
  { eapply within_trans; [by apply within_app|]. split_and!; unfold h2; cbn [cells brk]; [|by left|done| |lia].
    - intros b Hb _. rewrite lookup_delete_ne; [done|]. intros <-. apply Hb, in_middle.
    - intros b Hb Hk. rewrite lookup_delete_ne; [by apply wf_fresh; [apply G1|]|]. intros <-. apply Hb, in_middle. }
  pose proof (NoDup_addrs_cons _ _ N) as [Na N']. cbn [fst] in Na.
  rewrite entries_cons, filter_app. cbn [snd].
  destruct ms as [|m ms].
  - cbn [front]. rewrite Z.eqb_refl. exists h2, ns1, t1, r1, l1. split_and!; try done.
    + intros b ->%list_elem_of_singleton. cbn. by rewrite lookup_delete_eq.
    + by rewrite app_nil_r.
  - cbn [front tail] in *. assert (Hms : (m.1 =? src) = false).
    { apply Z.eqb_neq. intros E. apply Hs. rewrite <- E. apply list_elem_of_here. }
    rewrite Hms. destruct (IH h2 ns1 t1 r1 l1 a (m :: ms)) as (h3 & ns3 & t3 & r3 & l3 & E3 & G3 & I3 & Fr & En3 & F3 & U3 & O3); try done.
    + change (dseg (delete a (cells h1)) a (m :: ms) src). apply dseg_delete; [done|]. eapply dseg_ext; [|exact D]. intros b Hb.
      apply I1; [intros Hin; apply (A b Hin); by right|]. apply Pos. by right.
    + intros b Hb Hm'. apply (A1 b Hb). by right.
    + intros Hin. apply Hs. by right.
    + cbn in *. lia.
    + exists h3, ns3, t3, r3, l3. split_and!; [done|done| | | | | |].
      * eapply within_trans; [exact I2|].
        eapply within_ext; [exact (within_app _ _ _ _ [(a, (ra, la))] I3)| |]; intros b;
          rewrite !map_app; cbn [map fst]; rewrite !elem_of_app, !elem_of_cons, elem_of_nil; tauto.
      * intros b Hb. cbn [map fst] in Hb. apply elem_of_cons in Hb as [->|Hb]; [|by apply Fr].
        rewrite (proj1 I3); [cbn; by rewrite lookup_delete_eq| |].
        -- rewrite map_app, elem_of_app. intros [Hb|Hb]; [|done]. apply (A1 a Hb), list_elem_of_here.
        -- cbn [brk h2]. pose proof (Pos a (list_elem_of_here _ _)) as Pa. destruct I1 as (_ & _ & _ & _ & Hk). lia.
      * by rewrite En3, En1, <- app_assoc.
      * by rewrite F3.
      * auto.
      * auto.
Qed.

(** The ends are linked again. *)
Lemma grows_close h p ns t x :
  grows h p (ns ++ [(t, x)]) ->
  holds (Blocks (alter (set_next (handle (ns ++ [(t, x)]))) t (alter (set_prev t) (handle (ns ++ [(t, x)])) (cells h))) (brk h))
    (ns ++ [(t, x)]).
Proof.
  intros [W [q D] N S]. split; [by do 2 apply wf_alter| |done|done].
  unfold closed. cbn [cells]. rewrite back_app. cbn [back foldl fst].
  apply (dseg_set_next _ _ ns (t, x) q); [by apply (NoDup_last ns (t, x))|].
  destruct (ns ++ [(t, x)]) as [|n k] eqn:E; [by destruct ns|]. apply dseg_set_prev with (p := p); [|done].
  by apply NoDup_addrs_cons in N as [? _].
Qed.

Lemma within_evolves h h1 h2 ns ns' ms :
  wf_blocks h -> within h h1 (ns ++ ms) (ns' ++ ms) -> (forall a, a ∈ addrs ms -> cells h1 !! a = None) -> apart ns' ms ->
  holds h2 ns' -> brk h2 = brk h1 -> (forall a, a ∉ addrs ns' -> cells h2 !! a = cells h1 !! a) ->
  evolves h h2 (ns ++ ms) ns'.
Proof.
  intros W (A & B & C & D & E) F P H Hk Hc. split; [done| | | |lia].
  - intros a Ha Ha'. rewrite Hc by done. destruct (decide (brk h <= a)); [|apply A; [done|lia]].
    rewrite (wf_fresh h) by done. apply D; [|done]. rewrite map_app, elem_of_app in *. tauto.
  - intros a Ha Ha'. rewrite Hc by done. apply F. specialize (C a Ha). rewrite map_app, elem_of_app in C. tauto.
  - intros a Ha. apply B. rewrite map_app, elem_of_app. by left.
Qed.

Lemma live_all es : (0 ∉ es) -> live es = es.
Proof.
  induction es as [|e es IH]; [done|]. rewrite not_elem_of_cons. intros [He Hes]. cbn [List.filter].
  destruct (Z.eqb_spec e 0); [by subst|]. cbn [negb]. by rewrite IH.
Qed.

Lemma copy_ptr_list_spec h ns ms :
  holds h ns -> holds h ms -> apart ns ms -> (0 ∉ entries ms) ->
  exists h' ns', copy_ptr_list (handle ns) (handle ms) h = Some (handle ns', h') /\
    evolves h h' (ns ++ ms) ns' /\ entries ns' = entries ns ++ entries ms /\
    (Forall unmarked ns -> Forall unmarked ms -> Forall unmarked ns') /\
    (Forall occupied ns -> Forall occupied ms -> Forall occupied ns').
Proof.
  intros H Hm A Nz. unfold copy_ptr_list. destruct (Z.eqb_spec (handle ms) 0) as [E|E].
  { apply (holds_front _ _ Hm) in E as ->. exists h, ns. rewrite !app_nil_r. split_and!; try done. by apply evolves_refl. }
  destruct (Z.eqb_spec (handle ns) 0) as [E2|E2].
  { apply (holds_front _ _ H) in E2 as ->. exists h, ms. split_and!; try done. by apply evolves_refl. }
  assert (Hn : ns <> []) by by intros ->. assert (Hmn : ms <> []) by by intros ->.
  destruct (holds_front_at _ _ H Hn) as (c & Hc & Ec). rewrite (bind_run _ _ _ _ _ (deref_run _ _ _ Hc)), Ec.
  destruct (exists_last Hn) as (k & [t [r l]] & ->). rewrite back_app. cbn [back foldl fst].
  rewrite (bind_run _ _ _ _ _ (deref_run _ _ _ (holds_at _ _ _ _ _ _ H))). unfold nr. cbn [blk].
  destruct (fuel_run _ _ Hm) as (n & Hf & Hl). rewrite (bind_run _ _ _ _ _ Hf).
  assert (G : grows h (back 0 (k ++ [(t, (r, l))])) (k ++ [(t, (r, l))])).
  { destruct H as [W C N S]. split; [done|by eexists|done|done]. }
  destruct (copy_blocks_spec n h _ k t r l (back 0 ms) ms (handle ms) G) as
    (h1 & k1 & t1 & r1 & l1 & E1 & G1 & I1 & F1 & En & Fr & U1 & O1); [apply Hm|done|apply Hm|done| |lia|].
  { destruct ms as [|m ms]; [done|]. cbn [front tail]. pose proof (holds_nodup _ _ Hm) as N. by apply NoDup_addrs_cons in N as [? _]. }
  rewrite (bind_run _ _ _ _ _ E1).
  destruct (grows_payload h1 (back 0 (k ++ [(t, (r, l))])) k1 t1 (r1, l1) (r1, l1) (fun b => set_list (take (Z.to_nat (Z.of_nat (length l1))) (blk b)) b)) as (h2 & E3 & G2 & I2).
  { intros p q. unfold set_list. cbn. by rewrite Nat2Z.id, firstn_all. }
  { pose proof (grows_small _ _ _ G1) as S. apply List.Forall_app in S as [_ S]. by inversion S. }
  { done. }
  rewrite (bind_run _ _ _ _ _ E3). pose proof (grows_close _ _ _ _ _ G2) as H3. rewrite <- Fr.
  set (ns' := k1 ++ [(t1, (r1, l1))]) in *.
  assert (Hin : forall a, a ∈ addrs ns' -> is_Some (cells h2 !! a)).
  { intros a Ha. pose proof (holds_is_Some _ _ _ H3 Ha) as S. cbn [cells] in S. by rewrite !alter_is_Some in S. }
  assert (Sf : is_Some (cells h2 !! handle ns')) by (apply Hin, front_in; unfold ns'; by destruct k1).
  assert (St : is_Some (cells h2 !! t1)) by (apply Hin, in_middle).
  eexists _, ns'. split; [do 2 run_step; reflexivity|]. split; [|split_and!].
  - assert (A1 : apart ns' ms).
    { intros a Ha Hma. destruct (Hin a Ha) as [b Hb]. 
      assert (Hb1 : is_Some (cells h1 !! a)).
      { destruct (grows_seg _ _ _ G1) as [q D]. apply list_elem_of_fmap in Ha as ([a' [r' l']] & -> & Hi).
        apply list_elem_of_split in Hi as (x1 & x2 & Ex). fold ns' in D. rewrite Ex in D. apply dseg_lookup in D. by eexists. }
      rewrite F1 in Hb1 by done. by destruct Hb1. }
    eapply within_evolves; [apply H|exact (within_trans _ _ _ _ _ _ I1 (within_app _ _ _ _ ms I2))| |done|exact H3|done|].
    + intros a Ha. rewrite (proj1 I2); [by apply F1|by intros Hi; apply (A1 a)|].
      destruct I1 as (_ & _ & _ & _ & Hk). pose proof (holds_pos _ _ _ Hm Ha). lia.
    + intros a Ha. cbn [cells]. rewrite !lookup_alter_ne; [done| |].
      * intros <-. apply Ha, front_in. unfold ns'. by destruct k1.
      * intros <-. apply Ha, in_middle.
  - by rewrite En, live_all.
  - auto.
  - auto.
Qed.

(** ** Inserting at the cursor *)

(** A fresh block behind any block of the ring. *)
Lemma evolves_link h ns a x ms :
  holds h (ns ++ (a, x) :: ms) ->
  evolves h (Blocks (alter (set_next (brk h)) a (alter (set_prev (brk h)) (front ms (front ns a))
               (<[brk h := PtrList a (front ms (front ns a)) 0 []]> (cells h)))) (brk h + 1))
    (ns ++ (a, x) :: ms) (ns ++ (a, x) :: (brk h, (0, [])) :: ms).
Proof.
  intros H. assert (H' : holds h (ms ++ ns ++ [(a, x)])).
  { rewrite app_assoc. rewrite cons_middle, app_assoc in H. apply holds_rotate in H. by rewrite <- app_assoc. }
  pose proof (evolves_append h (ms ++ ns ++ [(a, x)]) ltac:(by destruct ms, ns) H') as V.
  rewrite app_assoc, back_app, <- app_assoc in V. cbn [back foldl fst] in V.
  rewrite !front_app in V. cbn [front fst] in V. rewrite <- !app_assoc in V. cbn [app] in V.
  rewrite (cons_middle (a, x)), (app_assoc ns).
  replace (ns ++ (a, x) :: (brk h, (0, [])) :: ms) with ((ns ++ [(a, x); (brk h, (0, []))]) ++ ms) by by rewrite <- app_assoc.
  by apply evolves_rotate.
Qed.

(** Look up through changes at addresses that are known to be equal or not. *)
Ltac look :=
  repeat first [rewrite lookup_alter_eq | rewrite lookup_alter_ne by congruence |
                rewrite lookup_insert_eq | rewrite lookup_insert_ne by congruence].

Lemma runs_split h ns a l ms :
  holds h (ns ++ (a, (0, l)) :: ms) ->
  let k := (length l - length l / 2)%nat in
  runs (split_ptr_list_head a) h (ns ++ (a, (0, l)) :: ms) (fun _ ns' => exists b,
    ns' = ns ++ (a, (0, take k l)) :: (b, (0, drop k l)) :: ms).
Proof.
  intros H k. pose proof (evolves_link _ _ _ _ _ H) as V.
  set (h1 := Blocks (alter (set_next (brk h)) a _) _) in V.
  destruct (payload_spec h1 ns a (0, l) (0, take k l) ((brk h, (0, [])) :: ms) (fun b => set_list (take k (blk b)) b)) as (h2 & E2 & V2).
  { done. }
  { eapply small_shorter; [by eapply holds_small_at|]. rewrite length_take. lia. }
  { apply V. }
  pose proof (ev_holds _ _ _ _ V2) as H2. rewrite cons_middle, app_assoc in H2.
  destruct (payload_spec h2 (ns ++ [(a, (0, take k l))]) (brk h) (0, []) (0, drop k l) ms (set_list (drop k l))) as (h3 & E3 & V3).
  { done. }
  { eapply small_shorter; [by eapply (holds_small_at h)|]. rewrite length_drop. lia. }
  { done. }
  rewrite <- !app_assoc in V3. cbn [app] in V3.
  exists tt, h3, (ns ++ (a, (0, take k l)) :: (brk h, (0, drop k l)) :: ms). split; [|split; [|by eexists]].
  2: { eapply evolves_trans; [apply H|exact V|]. eapply evolves_trans; [apply V|exact V2|exact V3]. }
  clear V V2 V3 H2. pose proof (holds_at _ _ _ _ _ _ H) as Ha. set (q := front ms (front ns a)) in *.
  assert (Nb : brk h <> a /\ brk h <> q /\ is_Some (cells h !! q)).
  { assert (Hq : q ∈ addrs (ns ++ (a, (0, l)) :: ms)).
    { unfold q. rewrite map_app. apply elem_of_app. destruct ms as [|m ms]; [|right; right; left].
      destruct ns; [right; left|left; left]. }
    pose proof (brk_not_in _ _ H) as Nb. split_and!; [intros E|intros E|by eapply holds_is_Some]; apply Nb; rewrite E; [apply in_middle|done]. }
  destruct Nb as (Nba & Nbq & Sq). assert (Sa : is_Some (cells h !! a)) by by eexists.
  unfold split_ptr_list_head. rewrite (bind_run _ _ _ _ _ (deref_run _ _ _ Ha)). run_step.
  rewrite (bind_run (deref a) _ _ (PtrList (back (back a ms) ns) q 0 l) (Blocks (<[brk h := PtrList 0 0 0 []]> (cells h)) (brk h + 1))).
  2: { apply deref_run. cbn. by rewrite lookup_insert_ne. }
  cbn [pl_next]. do 5 run_step. rewrite modify_run by block_known. cbn [cells brk].
  rewrite modify_run in E2; [|unfold h1; block_known]. injection E2 as <-.
  rewrite modify_run in E3; [|cbn [cells]; block_known]. injection E3 as <-. do 2 f_equal. cbn [cells].
  unfold nr. cbn [blk]. rewrite Z.quot_div_nonneg by lia.
  assert (E1 : Z.to_nat (Z.of_nat (length l) - Z.of_nat (length l) / 2) = k) by (unfold k; change 2 with (Z.of_nat 2); rewrite <- Nat2Z.inj_div; lia).
  rewrite E1. rewrite firstn_all2.
  2: { rewrite length_drop. unfold k. change 2 with (Z.of_nat 2). rewrite <- Nat2Z.inj_div, Nat2Z.id.
       pose proof (Nat.Div0.div_le_upper_bound (length l) 2 (length l)). lia. }
  f_equal. apply map_eq. intros b.
  destruct (decide (b = brk h)) as [->|Nb]; [look; done|].
  destruct (decide (b = a)) as [->|Nab]; destruct (decide (a = q)) as [Eaq|Naq]; try rewrite <- Eaq in *;
    look; rewrite ?Ha; try done.
  destruct (decide (b = q)) as [->|Nbq']; look; done.
Qed.

Lemma insert_current_spec h ns a l1 l2 ms new :
  holds h (ns ++ (a, (0, l1 ++ l2)) :: ms) ->
  runs (insert_current (a, Z.of_nat (length l1)) new) h (ns ++ (a, (0, l1 ++ l2)) :: ms) (fun '(b, j) ns' =>
    exists ns1 k1 k2 ms1, ns' = ns1 ++ (b, (0, k1 ++ new :: k2)) :: ms1 /\ j = Z.of_nat (length k1) /\
      entries ns1 ++ k1 = entries ns ++ l1 /\ k2 ++ entries ms1 = l2 ++ entries ms /\ handle ns' = front ns a /\
      (Forall unmarked ns -> Forall unmarked ms -> Forall unmarked ns')).
Proof.
  intros H. unfold insert_current. eapply runs_read; [by eapply deref_run, holds_at|]. unfold nr. cbn [blk].
  apply runs_bind with (R := fun '(b, j) ns' => exists ns1 k1 k2 ms1,
    ns' = ns1 ++ (b, (0, k1 ++ k2)) :: ms1 /\ j = Z.of_nat (length k1) /\ Z.of_nat (length (k1 ++ k2)) < LIST_NODE_NR /\
    entries ns1 ++ k1 = entries ns ++ l1 /\ k2 ++ entries ms1 = l2 ++ entries ms /\ front ns1 b = front ns a /\
    (Forall unmarked ns -> Forall unmarked ns1) /\ (Forall unmarked ms -> Forall unmarked ms1)); [exact H| |].
  - destruct (Z.eqb_spec (Z.of_nat (length (l1 ++ l2))) LIST_NODE_NR) as [E|E].
    + unfold LIST_NODE_NR in *. eapply runs_bind; [exact H|by apply runs_split|]. cbv beta zeta.
      intros _ h1 ns1 H1 (b & ->). set (k := (length (l1 ++ l2) - length (l1 ++ l2) `div` 2)%nat) in *.
      assert (Ek : k = 7%nat) by (unfold k; replace (length (l1 ++ l2)) with 13%nat by lia; done).
      eapply runs_read; [by eapply deref_run, holds_at|]. unfold nr. cbn [blk pl_next front fst]. rewrite length_take, Ek in *.
      destruct (Z.geb_spec (Z.of_nat (length l1)) (Z.of_nat (7 `min` length (l1 ++ l2)))) as [Hi|Hi].
      * apply runs_ret; [done|]. exists (ns ++ [(a, (0, take 7 (l1 ++ l2)))]), (drop 7 l1), l2, ms.
        rewrite length_app in *. rewrite <- (app_assoc ns), take_app_le, drop_app_le by lia.
        split_and!; [done|rewrite length_drop; lia|rewrite length_app, length_drop; lia| |done|by rewrite front_app| |done].
        -- rewrite entries_app. cbn [entries map concat snd]. by rewrite app_nil_r, <- app_assoc, take_drop.
        -- intros U. apply List.Forall_app. split; [done|]. by repeat constructor.
      * apply runs_ret; [done|].
        exists ns, l1, (take (7 - length l1) l2), ((b, (0, drop 7 (l1 ++ l2))) :: ms).
        rewrite length_app in *. split_and!; try done.
        -- by rewrite take_app_ge by lia.
        -- rewrite ?length_app, length_take. lia.
        -- rewrite entries_cons. cbn [snd]. rewrite drop_app_ge by lia. by rewrite app_assoc, take_drop.
        -- intros U. by constructor.
    + apply runs_ret; [done|]. pose proof (holds_small_at _ _ _ _ _ H) as S. unfold small in S. cbn in S.
      exists ns, l1, l2, ms. split_and!; try done. lia.
  - intros [b j] h1 ns1 H1 (ks & k1 & k2 & ms1 & -> & -> & Hlt & E1 & E2 & F & U1 & U2).
    eapply runs_bind; [exact H1| |].
    + apply (runs_payload _ _ _ _ (0, k1 ++ new :: k2)); [|unfold small; cbn; rewrite !length_app in *; cbn; lia|done].
      intros p q. unfold set_list. cbn [pl_prev pl_next pl_rm blk fst snd]. rewrite Nat2Z.id.
      by rewrite take_app_length, drop_app_length.
    + intros _ h2 ns2 H2 ->. apply runs_ret; [done|]. exists ks, k1, k2, ms1. split_and!; try done.
      * by rewrite front_app.
      * intros V1 V2. apply List.Forall_app. split; [by apply U1|]. constructor; [done|by apply U2].
Qed.

(** ** PREPARE_PTR_LIST() and NEXT_PTR_LIST() *)

(** The cursor [c] has the entries [es] before it. *)
Definition cursor_at (ns : list node) (c : cursor) (es : list Z) : Prop :=
  exists ns1 a r l1 l2 ms, ns = ns1 ++ (a, (r, l1 ++ l2)) :: ms /\ c = (a, Z.of_nat (length l1)) /\ es = l2 ++ entries ms.

Lemma ptr_next_from_spec h n ns a r l1 l2 ms :
  holds h (ns ++ (a, (r, l1 ++ l2)) :: ms) -> (length ms < n)%nat ->
  exists c, ptr_next_from n (front ns a) (a, Z.of_nat (length l1)) h = Some ((c, PTR_UNTAG (hd 0 (l2 ++ entries ms))), h) /\
    (l2 ++ entries ms <> [] -> cursor_at (ns ++ (a, (r, l1 ++ l2)) :: ms) c (tail (l2 ++ entries ms))).
Proof.
  revert ns a r l1 l2 ms. induction n as [|n IH]; intros ns a r l1 l2 ms H Hn; [lia|].
  cbn [ptr_next_from]. rewrite (bind_run _ _ _ _ _ (deref_run _ _ _ (holds_at _ _ _ _ _ _ H))). unfold nr. cbn [blk pl_next].
  rewrite length_app. destruct l2 as [|e l2].
  - rewrite Nat.add_0_r, Z.ltb_irrefl. rewrite app_nil_r in *. destruct ms as [|[b [r' l]] ms].
    + cbn [front]. rewrite Z.eqb_refl. eexists. by split.
    + cbn [front fst app]. rewrite (front_new (ns ++ [(a, (r, l1))]) ((b, (r', l)) :: ms) _ 0); [| |by destruct ns; cbn; left|done].
      2: { rewrite <- app_assoc. apply H. }
      specialize (IH (ns ++ [(a, (r, l1))]) b r' [] l ms). rewrite <- app_assoc, front_app in IH. cbn [app front fst length] in IH.
      change (Z.of_nat 0) with 0 in IH. destruct (IH H ltac:(cbn in Hn; lia)) as (c & -> & A). by exists c.
  - destruct (Z.ltb_spec (Z.of_nat (length l1)) (Z.of_nat (length l1 + length (e :: l2)))); [|cbn in *; lia].
    rewrite entry_at. eexists. split; [done|]. intros _. exists ns, a, r, (l1 ++ [e]), l2, ms.
    rewrite <- app_assoc, length_app. split_and!; [done| |done]. f_equal. cbn. lia.
Qed.

Lemma prepare_ptr_list_spec h ns :
  holds h ns ->
  exists c, prepare_ptr_list (handle ns) h = Some ((c, PTR_UNTAG (hd 0 (entries ns))), h) /\
    (entries ns <> [] -> cursor_at ns c (tail (entries ns))).
Proof.
  intros H. unfold prepare_ptr_list. destruct (Z.eqb_spec (handle ns) 0) as [E|E].
  { apply (holds_front _ _ H) in E as ->. eexists. by split. }
  destruct (fuel_run _ _ H) as (n & Hf & Hl). rewrite (bind_run _ _ _ _ _ Hf). destruct ns as [|[a [r l]] ns]; [done|].
  apply (ptr_next_from_spec h n [] a r [] l ns H). cbn in Hl. lia.
Qed.

Lemma next_ptr_list_spec h ns c es ptr :
  holds h ns -> cursor_at ns c es -> ptr <> 0 ->
  exists c', next_ptr_list (handle ns) c ptr h = Some ((c', PTR_UNTAG (hd 0 es)), h) /\ (es <> [] -> cursor_at ns c' (tail es)).
Proof.
  intros H A Hp. unfold next_ptr_list. unfold truth. destruct (Z.eqb_spec ptr 0); [done|]. cbn [negb].
  destruct (fuel_run _ _ H) as (n' & Hf & Hl). rewrite (bind_run _ _ _ _ _ Hf).
  destruct A as (ns1 & a & r & l1 & l2 & ms & -> & -> & ->). rewrite front_app. cbn [front fst].
  apply (ptr_next_from_spec h n' ns1 a r l1 l2 ms H). rewrite length_app in Hl. cbn in Hl. lia.
Qed.
