(* ===== verification/PtrListWorld.v ===== *)
(** * Programs over pointer lists

    The variables of type [struct ptr_list *] and the blocks, with the operations of
    ptrlist.c on variables as one step each, and an abstract machine in which every
    variable holds a sequence of pointers.  The blocks implement the sequences. *)
From stdpp Require Import gmap.
From S2P Require Import Prelude PtrList PtrListFacts PtrListOps PtrListWalk.
#[local] Open Scope Z_scope.

Inductive lop : Type :=
  | Add (hack : bool) (v : nat) (ptr : Z)    (* __add_ptr_list(&v, ptr) *)
  | AddTag (hack : bool) (v : nat) (ptr tag : Z) (* __add_ptr_list_tag(&v, ptr, tag) *)
  | Size (v : nat)                           (* ptr_list_size(v) *)
  | Empty (v : nat)                          (* ptr_list_empty(v) *)
  | Multiple (v : nat)                       (* ptr_list_multiple(v) *)
  | First (v : nat)                          (* first_ptr_list(v) *)
  | Last (v : nat)                           (* last_ptr_list(v) *)
  | Nth (v : nat) (i : nat)                  (* ptr_list_nth_entry(v, i) *)
  | Linearize (v : nat) (max : Z)            (* linearize_ptr_list(v, arr, max) *)
  | LookupEntry (v : nat) (e : Z)            (* lookup_ptr_list_entry(v, e) *)
  | ForEachPtr (v : nat)                     (* FOR_EACH_PTR(v, ptr) *)
  | ForEachReverse (v : nat)                 (* FOR_EACH_PTR_REVERSE(v, ptr) *)
  | DeleteEntry (v : nat) (e count : Z)      (* delete_ptr_list_entry(&v, e, count) *)
  | ReplaceEntry (v : nat) (o n count : Z)   (* replace_ptr_list_entry(&v, o, n, count) *)
  | UndoLast (v : nat)                       (* undo_ptr_list_last(&v) *)
  | DeleteLast (v : nat)                     (* delete_ptr_list_last(&v) *)
  | Pack (v : nat)                           (* pack_ptr_list(&v) *)
  | Concat (hack : bool) (src dst : nat)     (* concat_ptr_list(src, &dst) *)
  | Copy (dst src : nat)                     (* copy_ptr_list(&dst, src); src = NULL *)
  | FreeList (v : nat).                      (* free_ptr_list(&v) *)

(** What an operation returns or visits. *)
Inductive lout : Type :=
  | LUnit
  | LBool (b : bool)
  | LPtr (p : Z)
  | LPtrs (ps : list Z) (n : Z).

Record lworld : Type := LWorld { lmem : blocks; lvars : list Z }.

(** Run an operation on the handle of one variable. *)
Definition on_list (w : lworld) (v : nat) (m : Z -> M (Z * lout)) : option (lworld * lout) :=
  p ← lvars w !! v; '((q, x), h) ← m p (lmem w); Some (LWorld h (<[v := q]> (lvars w)), x).

Definition lrun_op (w : lworld) (o : lop) : option (lworld * lout) :=
  match o with
  | Add hack v ptr => on_list w v (fun p => q ← add_ptr_list hack p ptr; mret (q, LUnit))
  | AddTag hack v ptr tag => on_list w v (fun p => q ← add_ptr_list_tag hack p ptr tag; mret (q, LUnit))
  | Size v => on_list w v (fun p => n ← ptr_list_size p; mret (p, LPtr n))
  | Empty v => on_list w v (fun p => b ← ptr_list_empty p; mret (p, LBool b))
  | Multiple v => on_list w v (fun p => b ← ptr_list_multiple p; mret (p, LBool b))
  | First v => on_list w v (fun p => e ← first_ptr_list p; mret (p, LPtr e))
  | Last v => on_list w v (fun p => e ← last_ptr_list p; mret (p, LPtr e))
  | Nth v i => on_list w v (fun p => e ← ptr_list_nth_entry p (Z.of_nat i); mret (p, LPtr e))
  | Linearize v max => on_list w v (fun p => '(arr, n) ← linearize_ptr_list p max; mret (p, LPtrs arr n))
  | LookupEntry v e => on_list w v (fun p => b ← lookup_ptr_list_entry p e; mret (p, LBool b))
  | ForEachPtr v =>
    on_list w v (fun p => es ← for_each_ptr id p (fun c e es => mret (c, es ++ [e], false)) []; mret (p, LPtrs es 0))
  | ForEachReverse v => on_list w v (fun p => es ← for_each_ptr_reverse p; mret (p, LPtrs es 0))
  | DeleteEntry v e count => on_list w v (fun p => '(q, c) ← delete_ptr_list_entry p e count; mret (q, LPtr c))
  | ReplaceEntry v o n count => on_list w v (fun p => c ← replace_ptr_list_entry p o n count; mret (p, LPtr c))
  | UndoLast v => on_list w v (fun p => e ← undo_ptr_list_last p; mret (p, LPtr e))
  | DeleteLast v => on_list w v (fun p => '(q, e) ← delete_ptr_list_last p; mret (q, LPtr e))
  | Pack v => on_list w v (fun p => q ← pack_ptr_list p; mret (q, LUnit))
  | Concat hack src dst =>
    s ← lvars w !! src; on_list w dst (fun p => q ← concat_ptr_list hack s p; mret (q, LUnit))
  | Copy dst src =>
    s ← lvars w !! src; '(w, x) ← on_list w dst (fun p => q ← copy_ptr_list p s; mret (q, LUnit));
    Some (LWorld (lmem w) (<[src := 0]> (lvars w)), x)
  | FreeList v => on_list w v (fun p => q ← free_ptr_list p; mret (q, LUnit))
  end.

Fixpoint lrun (w : lworld) (os : list lop) : option (lworld * list lout) :=
  match os with
  | [] => Some (w, [])
  | o :: os => '(w, x) ← lrun_op w o; '(w, xs) ← lrun w os; Some (w, x :: xs)
  end.

(** [n] variables that are NULL, and no blocks. *)
Definition lstart (n : nat) : lworld := LWorld (Blocks ∅ 1) (replicate n 0).

(** ** The abstract machine

    A variable holds a sequence.  The flag tells whether the list may have no empty
    block, which delete_ptr_list_last() relies on: undo_ptr_list_last() can leave one. *)

Abbreviation seqs := (list (list Z * bool)).

Definition lspec_op (m : seqs) (o : lop) : option (seqs * lout) :=
  match o with
  | Add hack v ptr => '(es, k) ← m !! v; Some (<[v := (es ++ [ptr], k)]> m, LUnit)
  | AddTag hack v ptr tag =>
    '(es, k) ← m !! v;
    if (Z.land 3 ptr =? 0) && (Z.land (Z.lnot 3) tag =? 0) then Some (<[v := (es ++ [Z.lor tag ptr], k)]> m, LUnit) else None
  | Size v => '(es, k) ← m !! v; Some (m, LPtr (Z.of_nat (length es)))
  | Empty v => '(es, k) ← m !! v; Some (m, LBool (match es with [] => true | _ => false end))
  | Multiple v => '(es, k) ← m !! v; Some (m, LBool (Z.of_nat (length es) >? 1))
  | First v => '(es, k) ← m !! v; Some (m, LPtr (hd 0 es))
  | Last v => '(es, k) ← m !! v; Some (m, LPtr (List.last es 0))
  | Nth v i => '(es, k) ← m !! v; Some (m, LPtr (nth i es 0))
  | Linearize v max =>
    '(es, k) ← m !! v;
    Some (m, if max >? 0 then LPtrs (take (Z.to_nat max) es) (Z.of_nat (length es)) else LPtrs [] 0)
  | LookupEntry v e => '(es, k) ← m !! v; Some (m, LBool (bool_decide (e ∈ (es : list Z))))
  | ForEachPtr v => '(es, k) ← m !! v; Some (m, LPtrs es 0)
  | ForEachReverse v => '(es, k) ← m !! v; Some (m, LPtrs (rev es) 0)
  | DeleteEntry v e count =>
    '(es, k) ← m !! v; let '(es, c) := delete_up_to e count es in
    if c <=? 0 then Some (<[v := (es, true)]> m, LPtr c) else None
  | ReplaceEntry v o n count =>
    '(es, k) ← m !! v; let '(es, c) := replace_up_to o n count es in
    if c <=? 0 then Some (<[v := (es, k)]> m, LPtr c) else None
  | UndoLast v => '(es, k) ← m !! v; Some (<[v := (removelast es, false)]> m, LPtr (List.last es 0))
  | DeleteLast v =>
    '(es, k) ← m !! v; if (k : bool) then Some (<[v := (removelast es, true)]> m, LPtr (List.last es 0)) else None
  | Pack v => '(es, k) ← m !! v; Some (<[v := (es, true)]> m, LUnit)
  | Concat hack src dst =>
    '(fs, j) ← m !! src; '(es, k) ← m !! dst;
    if Nat.eqb src dst then None else Some (<[dst := (es ++ fs, k)]> m, LUnit)
  | Copy dst src =>
    '(fs, j) ← m !! src; '(es, k) ← m !! dst;
    if Nat.eqb src dst || bool_decide (0 ∈ (fs : list Z)) then None
    else Some (<[src := ([], true)]> (<[dst := (es ++ fs, k && j)]> m), LUnit)
  | FreeList v => _ ← m !! v; Some (<[v := ([], true)]> m, LUnit)
  end.

Fixpoint lspec_run (m : seqs) (os : list lop) : option (seqs * list lout) :=
  match os with
  | [] => Some (m, [])
  | o :: os => '(m, x) ← lspec_op m o; '(m, xs) ← lspec_run m os; Some (m, x :: xs)
  end.

(** ** Refinement *)

(** All lists of the program: they share no block, and every block is in one of them. *)
Record lists (h : blocks) (nss : list (list node)) : Prop := Lists {
  lists_wf : wf_blocks h;
  lists_holds : forall i ns, nss !! i = Some ns -> holds h ns;
  lists_apart : forall i j ns ms, i <> j -> nss !! i = Some ns -> nss !! j = Some ms -> apart ns ms;
  lists_all : forall a, is_Some (cells h !! a) -> exists i ns, nss !! i = Some ns /\ a ∈ addrs ns
}.

Definition var_ok (p : Z) (ns : list node) (s : list Z * bool) : Prop :=
  p = handle ns /\ entries ns = s.1 /\ Forall unmarked ns /\ (s.2 = true -> Forall occupied ns).

Definition represents (w : lworld) (m : seqs) : Prop :=
  exists nss, lists (lmem w) nss /\ Forall3 var_ok (lvars w) nss m.

(** The list [v] and the lists [us], which were given away, become the list [ns']. *)
Lemma lists_update h h' nss v ns ns' :
  lists h nss -> nss !! v = Some ns -> evolves h h' ns ns' -> lists h' (<[v := ns']> nss).
Proof.
  intros L Hv V. assert (O : forall i ms, i <> v -> nss !! i = Some ms -> holds h' ms /\ apart ns' ms).
  { intros i ms Hi Hm. eapply evolves_other; [done|by eapply (lists_holds _ _ L)|]. by eapply (lists_apart _ _ L v i). }
  split.
  - apply V.
  - intros i ms. rewrite list_lookup_insert_Some. intros [(-> & <- & _)|[Hi Hm]]; [apply V|]. by eapply O.
  - intros i j ks ms Hij. rewrite !list_lookup_insert_Some.
    intros [(-> & <- & _)|[Hi Hk]] [(-> & <- & _)|[Hj Hm]]; [done| | |by eapply (lists_apart _ _ L i j)].
    + by eapply O.
    + intros a Ha Hb. destruct (O i ks) as [_ A]; [done|done|]. by apply (A a).
  - intros a Ha. destruct (decide (a ∈ addrs ns')) as [Hn|Hn].
    { exists v, ns'. split; [|done]. apply list_lookup_insert_eq. by eapply lookup_lt_Some. }
    destruct (decide (a ∈ addrs ns)) as [Hi|Hi]; [by rewrite (ev_freed _ _ _ _ V) in Ha; [destruct Ha|..]|].
    rewrite (ev_frame _ _ _ _ V) in Ha by done. destruct (lists_all _ _ L a Ha) as (i & ms & Hm & Hin).
    exists i, ms. split; [|done]. rewrite list_lookup_insert_ne; [done|]. intros ->. congruence.
Qed.

Lemma lists_split h nss u ms : lists h nss -> nss !! u = Some ms -> 
  forall v ns, u <> v -> nss !! v = Some ns -> holds h ns /\ holds h ms /\ apart ns ms.
Proof.
  intros L Hu v ns Huv Hv. split_and!; [by eapply (lists_holds _ _ L)|by eapply (lists_holds _ _ L)|].
  by eapply (lists_apart _ _ L v u).
Qed.

(** [u] is given to [v]. *)
Lemma lists_give h h' nss u v ns ms ns' :
  lists h nss -> nss !! v = Some ns -> nss !! u = Some ms -> u <> v -> evolves h h' (ns ++ ms) ns' ->
  lists h' (<[u := []]> (<[v := ns']> nss)).
Proof.
  intros L Hv Hu Huv V. assert (O : forall i ks, i <> v -> i <> u -> nss !! i = Some ks -> holds h' ks /\ apart ns' ks).
  { intros i ks Hi Hiu Hk. eapply evolves_other; [done|by eapply (lists_holds _ _ L)|].
    intros a. rewrite map_app, elem_of_app. intros [Ha|Ha]; [by eapply (lists_apart _ _ L v i)|by eapply (lists_apart _ _ L u i)]. }
  pose proof (lookup_lt_Some _ _ _ Hv) as Lv. pose proof (lookup_lt_Some _ _ _ Hu) as Lu.
  assert (I : forall i ks, <[u := []]> (<[v := ns']> nss) !! i = Some ks ->
    (i = u /\ ks = []) \/ (i = v /\ ks = ns') \/ (i <> u /\ i <> v /\ nss !! i = Some ks)).
  { intros i ks. rewrite !list_lookup_insert_Some. intros [(-> & <- & _)|[Hi [(-> & <- & _)|[Hj Hk]]]]; auto. }
  split.
  - apply V.
  - intros i ks Hk. destruct (I i ks Hk) as [[-> ->]|[[-> ->]|(Hiu & Hiv & Hk')]]; [|apply V|by eapply O].
    split; [apply V|done|constructor|constructor].
  - intros i j ks ls Hij Hk Hl.
    destruct (I i ks Hk) as [[-> ->]|[[-> ->]|(Hiu & Hiv & Hk')]]; destruct (I j ls Hl) as [[-> ->]|[[-> ->]|(Hju & Hjv & Hl')]]; try done;
      try (intros a Ha Hb; by apply not_elem_of_nil in Ha || by apply not_elem_of_nil in Hb).
    + by eapply O.
    + intros a Ha Hb. destruct (O i ks) as [_ A]; [done|done|done|]. by apply (A a).
    + by eapply (lists_apart _ _ L i j).
  - intros a Ha. destruct (decide (a ∈ addrs ns')) as [Hn|Hn].
    { exists v, ns'. split; [|done]. rewrite list_lookup_insert_ne by done. by apply list_lookup_insert_eq. }
    destruct (decide (a ∈ addrs (ns ++ ms))) as [Hi|Hi]; [by rewrite (ev_freed _ _ _ _ V) in Ha; [destruct Ha|..]|].
    rewrite (ev_frame _ _ _ _ V) in Ha by done. destruct (lists_all _ _ L a Ha) as (i & ks & Hk & Hin).
    rewrite map_app, elem_of_app in Hi. exists i, ks. split; [|done].
    rewrite !list_lookup_insert_ne; [done|intros ->; apply Hi; left|intros ->; apply Hi; right]; congruence.
Qed.

Lemma represents_start n : represents (lstart n) (replicate n ([], true)).
Proof.
  exists (replicate n []). split; [split|].
  - split; cbn; [lia|]. intros a [b Hb]. by rewrite lookup_empty in Hb.
  - intros i ns Hi. apply lookup_replicate in Hi as [-> _]. split; [|done|constructor|constructor].
    split; cbn; [lia|]. intros a [b Hb]. by rewrite lookup_empty in Hb.
  - intros i j ns ms _ Hi _ a Ha. apply lookup_replicate in Hi as [-> _]. by apply not_elem_of_nil in Ha.
  - intros a [b Hb]. cbn in Hb. by rewrite lookup_empty in Hb.
  - cbn [lstart lvars]. induction n; cbn; constructor; [|done]. by repeat split.
Qed.

Lemma Forall3_insert {A B C} (P : A -> B -> C -> Prop) l k j i x y z :
  Forall3 P l k j -> P x y z -> Forall3 P (<[i := x]> l) (<[i := y]> k) (<[i := z]> j).
Proof. intros F H. revert i. induction F; intros [|i]; cbn; constructor; auto. Qed.

(** One operation on one variable. *)
Lemma on_list_spec w m v es k f s' x :
  represents w m -> m !! v = Some (es, k) ->
  (forall h ns, holds h ns -> var_ok (handle ns) ns (es, k) ->
     runs (f (handle ns)) h ns (fun '(q, y) ns' => y = x /\ var_ok q ns' s')) ->
  exists w', on_list w v f = Some (w', x) /\ represents w' (<[v := s']> m).
Proof.
  intros (nss & L & R) Hm Hf. destruct (Forall3_lookup_r _ _ _ _ _ _ R Hm) as (p & ns & Hp & Hn & Ok).
  pose proof Ok as (-> & _). unfold on_list. rewrite Hp. cbn [mbind option_bind].
  destruct (Hf (lmem w) ns (lists_holds _ _ L _ _ Hn) Ok) as ([q y] & h' & ns' & -> & V & -> & Ok'). 
  eexists. split; [done|]. exists (<[v := ns']> nss). cbn [lmem lvars]. split; [by eapply lists_update|].
  by apply Forall3_insert.
Qed.

(** One that only reads. *)
Lemma on_list_read w m v es k (f : Z -> M (Z * lout)) x :
  represents w m -> m !! v = Some (es, k) ->
  (forall h ns, holds h ns -> var_ok (handle ns) ns (es, k) -> f (handle ns) h = Some ((handle ns, x), h)) ->
  exists w', on_list w v f = Some (w', x) /\ represents w' m.
Proof.
  intros R Hm Hf. rewrite <- (list_insert_id m v (es, k)) by done. apply on_list_spec with (es := es) (k := k); [done|done|].
  intros h ns H Ok. exists (handle ns, x), h, ns. split; [by apply Hf|]. split; [by apply evolves_refl|done].
Qed.

Lemma bind_ret {A B} (m : M A) (f : A -> B) h x h' : m h = Some (x, h') -> (y ← m; mret (f y)) h = Some (f x, h').
Proof. intros E. by rewrite (bind_run _ _ _ _ _ E). Qed.

(** An operation with a specification by [runs]. *)
Lemma runs_map {A B} (m : M A) (f : A -> B) h ns (Q : B -> list node -> Prop) R :
  runs m h ns R -> (forall x ns', R x ns' -> Q (f x) ns') -> runs (y ← m; mret (f y)) h ns Q.
Proof.
  intros (x & h' & ns' & E & V & HR) HQ. exists (f x), h', ns'. split; [by rewrite (bind_run _ _ _ _ _ E)|]. auto.
Qed.

Ltac one_list :=
  match goal with
  | E : (_ ← ?m !! ?v; _) = Some _ |- _ =>
    let es := fresh "es" in let k := fresh "k" in let Hm := fresh "Hm" in
    destruct (m !! v) as [[es k]|] eqn:Hm; [cbn [mbind option_bind] in E|done]
  end.

Ltac open_list :=
  let En := fresh "En" in
  intros h ns H (_ & En & U & O); cbn [fst snd] in En, O; subst.

Ltac read_list spec :=
  one_list; simplify_eq; eapply on_list_read; [done|done|];
  open_list; erewrite bind_run by (by apply spec); done.

(** The two operations on two variables. *)
Lemma concat_correct w m hack src dst m' x :
  represents w m -> lspec_op m (Concat hack src dst) = Some (m', x) ->
  exists w', lrun_op w (Concat hack src dst) = Some (w', x) /\ represents w' m'.
Proof.
  intros (nss & L & R) E. cbn [lspec_op lrun_op] in *. one_list. one_list. destruct (Nat.eqb_spec src dst) as [|Hne]; [done|].
  injection E as <- <-.
  destruct (Forall3_lookup_r _ _ _ _ _ _ R Hm) as (s & ms & Hs & Hms & -> & Ems & Ums & _). cbn in Ems. subst es.
  destruct (Forall3_lookup_r _ _ _ _ _ _ R Hm0) as (p & ns & Hp & Hns & -> & Ens & Uns & Ons). cbn in Ens, Ons. subst es0.
  destruct (lists_split _ _ _ _ L Hms _ _ Hne Hns) as (H1 & H2 & A).
  rewrite Hs. cbn [mbind option_bind]. unfold on_list. rewrite Hp. cbn [mbind option_bind].
  destruct (concat_ptr_list_spec hack _ _ _ H1 H2 A Ums) as (q & h' & ns' & E & V & -> & En & K1 & K2).
  rewrite (bind_run _ _ _ _ _ E). eexists. split; [done|]. exists (<[dst := ns']> nss). cbn [lmem lvars].
  split; [by eapply lists_update|]. apply Forall3_insert; [done|]. split_and!; [done|done|auto|auto].
Qed.

Lemma copy_correct w m dst src m' x :
  represents w m -> lspec_op m (Copy dst src) = Some (m', x) ->
  exists w', lrun_op w (Copy dst src) = Some (w', x) /\ represents w' m'.
Proof.
  intros (nss & L & R) E. cbn [lspec_op lrun_op] in *. one_list. one_list. destruct (Nat.eqb_spec src dst) as [|Hne]; [done|].
  cbn [orb] in E. case_bool_decide as Nz; [done|]. injection E as <- <-.
  destruct (Forall3_lookup_r _ _ _ _ _ _ R Hm) as (s & ms & Hs & Hms & -> & Ems & Ums & Oms). cbn in Ems, Oms. subst es.
  destruct (Forall3_lookup_r _ _ _ _ _ _ R Hm0) as (p & ns & Hp & Hns & -> & Ens & Uns & Ons). cbn in Ens, Ons. subst es0.
  destruct (lists_split _ _ _ _ L Hms _ _ Hne Hns) as (H1 & H2 & A).
  rewrite Hs. cbn [mbind option_bind]. unfold on_list. rewrite Hp. cbn [mbind option_bind].
  destruct (copy_ptr_list_spec _ _ _ H1 H2 A Nz) as (h' & ns' & E & V & En & K1 & K2).
  rewrite (bind_run _ _ _ _ _ E). eexists. split; [done|]. exists (<[src := []]> (<[dst := ns']> nss)). cbn [lmem lvars].
  split; [by eapply lists_give|]. apply Forall3_insert; [apply Forall3_insert; [done|]|by repeat split].
  split_and!; [done|done|auto|]. cbn [snd]. intros [Ha Hb]%andb_true_iff. auto.
Qed.

Lemma lspec_op_correct w m o m' x :
  represents w m -> lspec_op m o = Some (m', x) -> exists w', lrun_op w o = Some (w', x) /\ represents w' m'.
Proof.
  intros R E. destruct o as [hack v ptr|hack v ptr tag|v|v|v|v|v|v i|v max|v e|v|v|v e count|v o n count|v|v|v|hack src dst|dst src|v];
    cbn [lspec_op lrun_op] in *.
  - one_list. injection E as <- <-. eapply on_list_spec; [done|done|].
    open_list. eapply runs_map; [by apply add_ptr_list_spec|]. intros q ns' (-> & En & K1 & K2).
    split; [done|]. split_and!; [done|by rewrite En|by apply K1|auto].
  - one_list. destruct (Z.land 3 ptr =? 0) eqn:E1, (Z.land (Z.lnot 3) tag =? 0) eqn:E2; try done. cbn [andb] in E.
    injection E as <- <-. eapply on_list_spec; [done|done|]. unfold add_ptr_list_tag. rewrite E1, E2. cbn [negb].
    open_list. eapply runs_map; [by apply add_ptr_list_spec|]. intros q ns' (-> & En & K1 & K2).
    split; [done|]. split_and!; [done|by rewrite En|by apply K1|auto].
  - read_list ptr_list_size_spec.
  - read_list ptr_list_empty_spec.
  - read_list ptr_list_multiple_spec.
  - read_list first_ptr_list_spec.
  - read_list last_ptr_list_spec.
  - one_list; simplify_eq. eapply on_list_read; [done|done|]. open_list.
    erewrite bind_run by (apply ptr_list_nth_entry_spec; [done|lia]). cbn. by rewrite Nat2Z.id.
  - one_list; simplify_eq. eapply on_list_read; [done|done|]. open_list.
    erewrite bind_run by (by apply linearize_ptr_list_spec). by destruct (max >? 0).
  - read_list lookup_ptr_list_entry_spec.
  - one_list; simplify_eq. eapply on_list_read; [done|done|]. open_list.
    destruct (for_each_ptr_read (fun c e es => mret (c, es ++ [e], false)) (fun es s h' => s = es /\ h' = h) h ns [])
      as (s & h' & Ew & _ & -> & ->); [|done|done|done|by rewrite (bind_run _ _ _ _ _ Ew)].
    intros h1 c e s es1 H1 [-> ->]. by exists (es1 ++ [e]), h.
  - read_list for_each_ptr_reverse_spec.
  - one_list. destruct (delete_up_to e count es) as [es' c] eqn:Ed. destruct (Z.leb_spec c 0) as [Hc|]; [|done].
    injection E as <- <-. eapply on_list_spec; [done|done|]. open_list.
    eapply runs_bind; [done|by apply delete_ptr_list_entry_spec; [| |rewrite Ed]|].
    intros [q c'] h' ns' H' Q. rewrite Ed in Q. destruct Q as (-> & En & -> & U' & O'). by apply runs_ret.
  - one_list. destruct (replace_up_to o n count es) as [es' c] eqn:Ed. destruct (Z.leb_spec c 0) as [Hc|]; [|done].
    injection E as <- <-. eapply on_list_spec; [done|done|]. open_list.
    eapply runs_bind; [done|by apply replace_ptr_list_entry_spec; [| |rewrite Ed]|].
    intros c' h' ns' H' Q. rewrite Ed in Q. destruct Q as (<- & En & -> & U' & O'). apply runs_ret; [done|]. split; [done|]. split_and!; [done|done|done|auto].
  - one_list. injection E as <- <-. eapply on_list_spec; [done|done|]. open_list.
    eapply runs_bind; [done|by apply undo_ptr_list_last_spec|]. intros e h' ns' H' (-> & En & <- & U').
    apply runs_ret; [done|]. split; [done|]. split_and!; [done|done|auto|done].
  - one_list. destruct k; [|done]. injection E as <- <-. eapply on_list_spec; [done|done|].
    open_list. eapply runs_bind; [done|by apply delete_ptr_list_last_spec; [|apply O]|].
    intros [q e] h' ns' H' (-> & -> & En & O' & U'). apply runs_ret; [done|]. split; [done|]. split_and!; [done|done|auto|done].
  - one_list. injection E as <- <-. eapply on_list_spec; [done|done|]. open_list.
    eapply runs_map; [by apply pack_ptr_list_spec|]. intros q ns' (-> & ->). split; [done|].
    split_and!; [done|apply entries_packed|by apply packed_unmarked|intros _; apply packed_occupied].
  - by eapply concat_correct.
  - by eapply copy_correct.
  - one_list. injection E as <- <-. eapply on_list_spec; [done|done|]. open_list.
    eapply runs_map; [by apply free_ptr_list_spec|]. intros q ns' (-> & ->). split; [done|]. by repeat split.
Qed.

Lemma lspec_run_correct os : forall w m m' xs,
  represents w m -> lspec_run m os = Some (m', xs) -> exists w', lrun w os = Some (w', xs) /\ represents w' m'.
Proof.
  induction os as [|o os IH]; intros w m m' xs R E; cbn [lspec_run lrun] in *.
  { injection E as <- <-. by exists w. }
  destruct (lspec_op m o) as [[m1 x]|] eqn:E1; [|done]. cbn [mbind option_bind] in E.
  destruct (lspec_run m1 os) as [[m2 ys]|] eqn:E2; [|done]. injection E as <- <-.
  destruct (lspec_op_correct _ _ _ _ _ R E1) as (w1 & -> & R1). cbn [mbind option_bind].
  destruct (IH _ _ _ _ R1 E2) as (w2 & -> & R2). by exists w2.
Qed.

(** Lists that are NULL have no blocks. *)
Lemma represents_empty w m : represents w m -> Forall (fun s => s = ([], true)) m -> cells (lmem w) = ∅ /\ Forall (Z.eq 0) (lvars w).
Proof.
  intros (nss & L & R) F.
  assert (E : forall i ns, nss !! i = Some ns -> ns = []).
  { intros i ns Hi. destruct (Forall3_lookup_m _ _ _ _ _ _ R Hi) as (p & s & _ & Hs & _ & En & _ & O).
    rewrite list.Forall_forall in F. rewrite (F s) in * by (by eapply list_elem_of_lookup_2). cbn in *.
    specialize (O eq_refl). destruct ns as [|n ns]; [done|]. inversion O as [|? ? On _]; subst. unfold occupied in On.
    rewrite entries_cons in En. by destruct n.2.2. }
  split.
  - apply map_eq. intros a. rewrite lookup_empty. destruct (cells (lmem w) !! a) eqn:Ha; [|done].
    destruct (lists_all _ _ L a) as (i & ns & Hi & Hin); [by rewrite Ha|]. rewrite (E i ns Hi) in Hin. by apply not_elem_of_nil in Hin.
  - apply list.Forall_forall. intros p Hp. apply list_elem_of_lookup in Hp as [i Hp].
    destruct (Forall3_lookup_l _ _ _ _ _ _ R Hp) as (ns & s & Hn & _ & -> & _). by rewrite (E i ns Hn).
Qed.
