(* ===== verification/PtrListTheorems.v ===== *)
(** * Pointer lists: the properties

    Programs over pointer lists behave like programs over sequences; insertion at the
    cursor of a walk; what marking an entry as deleted breaks. *)
From stdpp Require Import gmap.
From S2P Require Import Prelude PtrList PtrListFacts PtrListOps PtrListWalk PtrListWorld.
#[local] Open Scope Z_scope.

(** C22: Every program that an abstract machine with one sequence per variable accepts
    runs on the rings of blocks, with the same results.  It accepts all programs but those
    that fail an assertion of the code, that copy or concatenate a list to itself or copy one that holds NULL,
    and that call delete_ptr_list_last() when undo_ptr_list_last() may have left an empty block.  So no operation reads a block
    that was freed or follows NULL, no loop runs for ever, deletion, replacement,
    concatenation and copying are those of sequences, and lists do not disturb each
    other.  At the end every block belongs to the list of a variable, and if all are
    empty no block is left. *)
Theorem ptr_list_programs_correct n os m xs :
  lspec_run (replicate n ([], true)) os = Some (m, xs) ->
  exists w, lrun (lstart n) os = Some (w, xs) /\ represents w m /\
    (Forall (fun s => s = ([], true)) m -> cells (lmem w) = ∅ /\ Forall (Z.eq 0) (lvars w)).
Proof.
  intros E. destruct (lspec_run_correct os _ _ _ _ (represents_start n) E) as (w & Hw & R).
  exists w. split_and!; [done|done|]. by apply represents_empty.
Qed.

(** Two lists, three blocks, every way to change them. *)
Definition sample : list lop :=
  map (fun i => Add (Nat.even i) 0 (Z.of_nat i)) (seq 1 30) ++
  [Size 0; First 0; Last 0; Nth 0 13; AddTag false 1 40 2; Concat false 0 1; UndoLast 1; DeleteEntry 0 14 1; DeleteEntry 0 99 0;
   LookupEntry 0 14; DeleteLast 0; ReplaceEntry 0 3 77 1; DeleteLast 0; Linearize 0 4; ForEachPtr 0; ForEachReverse 0; Pack 0; Copy 1 0; Size 1; Multiple 1;
   Empty 0; FreeList 1].

Lemma ptr_list_programs_correct_witness :
  exists w xs, lrun (lstart 2) sample = Some (w, xs) /\ cells (lmem w) = ∅.
Proof.
  destruct (lspec_run (replicate 2 ([], true)) sample) as [[m xs]|] eqn:E; [|vm_compute in E; discriminate E].
  destruct (ptr_list_programs_correct 2 sample m xs E) as (w & Hw & _ & He).
  exists w, xs. split; [exact Hw|]. apply He. vm_compute in E. injection E as <- _. repeat constructor.
Defined.

(** C23: INSERT_CURRENT() in a walk over a list puts the new entry directly before the
    current one, whether or not the full block has to be split, leaves the cursor on
    it, and every block within its bounds. *)
Theorem insert_current_exact h ns a l1 l2 ms new :
  holds h (ns ++ (a, (0, l1 ++ l2)) :: ms) -> Forall unmarked ns -> Forall unmarked ms ->
  exists b j h' ns', insert_current (a, Z.of_nat (length l1)) new h = Some ((b, j), h') /\
    evolves h h' (ns ++ (a, (0, l1 ++ l2)) :: ms) ns' /\
    entries ns' = entries ns ++ l1 ++ new :: l2 ++ entries ms /\ handle ns' = handle (ns ++ (a, (0, l1 ++ l2)) :: ms) /\
    (c ← deref b; mret (entry c j)) h' = Some (new, h').
Proof.
  intros H U1 U2. destruct (insert_current_spec h ns a l1 l2 ms new H) as ([b j] & h' & ns' & E & V & ks & k1 & k2 & ms1 & -> & -> & E1 & E2 & F & U).
  exists b, (Z.of_nat (length k1)), h', (ks ++ (b, (0, k1 ++ new :: k2)) :: ms1). split_and!; [done|done| | |].
  - rewrite entries_app, entries_cons. cbn [snd]. rewrite <- app_assoc. cbn [app].
    rewrite app_assoc, E1, <- app_assoc. by rewrite E2.
  - rewrite F. by rewrite front_app.
  - rewrite (bind_run _ _ _ _ _ (deref_run _ _ _ (holds_at _ _ _ _ _ _ (ev_holds _ _ _ _ V)))). by rewrite entry_at.
Qed.

(** A full block whose last entry is the current one. *)
Definition full_block : blocks := Blocks {[ 1 := PtrList 1 1 0 (map Z.of_nat (seq 101 13)) ]} 2.

Lemma full_block_holds : holds full_block [(1, (0, map Z.of_nat (seq 101 13)))].
Proof.
  split; [split; [done|]|by vm_compute|apply NoDup_singleton|by repeat constructor].
  intros a [b Hb]. unfold full_block in *. cbn [cells brk] in *. apply lookup_singleton_Some in Hb as [<- _]. lia.
Qed.

Lemma insert_current_exact_witness :
  exists b j h' ns', insert_current (1, 12) 55 full_block = Some ((b, j), h') /\
    entries ns' = map Z.of_nat (seq 101 12) ++ [55; 113].
Proof.
  destruct (insert_current_exact full_block [] 1 (map Z.of_nat (seq 101 12)) [113] [] 55 full_block_holds
    ltac:(constructor) ltac:(constructor)) as (b & j & h' & ns' & E & _ & En & _).
  exists b, j, h', ns'. split; [exact E|exact En].
Defined.

(** ** What the comments promise and the code does not do *)

(** A list of the numbers 1 .. [k]. *)
Fixpoint add_all (p : Z) (es : list Z) : M Z :=
  match es with [] => mret p | e :: es => p ← add_ptr_list false p e; add_all p es end.
Definition numbers (k : nat) : M Z := add_all 0 (map Z.of_nat (seq 1 k)).
Definition result {A} (m : M A) : option A := option_map fst (m (Blocks ∅ 1)).

(** delete_ptr_list_last() answers NULL, the answer for an empty list, if undo_ptr_list_last()
    left an empty last block; linearize_ptr_list() with room for nothing answers 0
    and not the number of entries; first_ptr_list() answers NULL for a list whose first
    entry was marked as deleted, and ptr_list_nth_entry() counts it; and when a block
    with a deleted entry is split, a walk sees the NULL, which MARK_CURRENT_DELETED()
    exists to hide. *)
Theorem ptr_list_surprises :
  result (p ← numbers 14; _ ← undo_ptr_list_last p; '(p, e) ← delete_ptr_list_last p; n ← ptr_list_size p; mret (e, n)) = Some (0, 13) /\
  result (p ← numbers 3; r ← linearize_ptr_list p 0; mret r) = Some ([], 0) /\
  result (p ← numbers 3; mark_current_deleted (p, 0);; e ← first_ptr_list p; n ← ptr_list_size p; f ← ptr_list_nth_entry p 1; mret (e, n, f))
    = Some (0, 2, 2) /\
  result (p ← numbers 13; mark_current_deleted (p, 12);; es ← for_each_ptr id p (fun c e es => mret (c, es ++ [e], false)) [];
          _ ← insert_current (p, 0) 99; fs ← for_each_ptr id p (fun c e es => mret (c, es ++ [e], false)) []; mret (es, fs))
    = Some (map Z.of_nat (seq 1 12), 99 :: map Z.of_nat (seq 1 12) ++ [0]).
Proof. vm_compute. done. Qed.
