(* ===== verification/Tables.v ===== *)
(** * State tables as finite maps

    StreeWorld.v proves that a [struct stree *] behaves as the sorted list of its
    sm_states, with NULL the empty list.  From here on a table is that list.  [tget]
    looks a key up, a key being any sm_state with the right owner, name and symbol, and
    every operation is characterised by the lookups after it. *)
From S2P Require Import Prelude Avl AvlFacts Stree StreeWorld.
#[local] Open Scope Z_scope.

Abbreviation table := (list sm_state).

Definition tget (k : sm_state) (t : table) : option sm_state := find_sm k t.

(** Two sm_states are states of the same thing. *)
Definition same_key (a b : sm_state) : Prop := cmp_tracker a b = 0.

#[export] Instance same_key_dec a b : Decision (same_key a b).
Proof. unfold same_key. apply _. Defined.

#[export] Instance same_key_equiv : Equivalence same_key.
Proof.
  split.
  - intros a. apply cmp_refl.
  - intros a b H. unfold same_key in *. rewrite cmp_opp. lia.
  - intros a b c H1 H2. unfold same_key in *. by rewrite (cmp_eq_l a b c H1).
Qed.

(** overwrite_stree(from, &to) *)
Definition overwrite (from to : table) : table := foldl (fun ks sm => ins sm ks) to from.

(** [x ?: y] *)
Definition orelse {A} (x y : option A) : option A := match x with Some _ => x | None => y end.
Infix "?:" := orelse (at level 50, left associativity) : c_scope.
#[global] Open Scope c_scope.

Lemma orelse_assoc {A} (x y z : option A) : (x ?: y) ?: z = x ?: (y ?: z).
Proof. by destruct x. Qed.

Lemma orelse_none {A} (x : option A) : x ?: None = x.
Proof. by destruct x. Qed.

Lemma tget_key a b t : same_key a b -> tget a t = tget b t.
Proof.
  intros H. unfold tget, find_sm. induction t as [|k t IH]; [done|]. cbn [List.find].
  by rewrite (cmp_eq_l a b k H), IH.
Qed.

#[export] Instance tget_proper : Proper (same_key ==> eq ==> eq) tget.
Proof. intros a b H t ? <-. by apply tget_key. Qed.

Lemma tget_some k t s : tget k t = Some s -> s ∈ t /\ same_key k s.
Proof.
  intros H. apply find_some in H as [H1 H2]. split; [by apply list_elem_of_In|]. by apply Z.eqb_eq.
Qed.

Lemma tget_elem s t : sorted t -> s ∈ t -> tget s t = Some s.
Proof.
  intros S H. apply list_elem_of_split in H as (l1 & l2 & ->). apply sorted_app_inv in S as (_ & _ & F & _).
  unfold tget. rewrite find_app_r.
  - unfold find_sm. cbn [List.find]. by rewrite cmp_refl.
  - eapply Forall_impl; [|exact F]. intros a L E. unfold lt_sm in L. rewrite cmp_opp in L. lia.
Qed.

Lemma tget_nil k : tget k [] = None.
Proof. done. Qed.

Lemma tget_ins k sm t : tget k (ins sm t) = if decide (same_key k sm) then Some sm else tget k t.
Proof.
  unfold tget. rewrite find_ins. unfold same_key. destruct (Z.eqb_spec (cmp_tracker k sm) 0); [by rewrite decide_True|by rewrite decide_False].
Qed.

Lemma tget_del k sm t : sorted t -> tget k (del sm t) = if decide (same_key k sm) then None else tget k t.
Proof.
  intros S. unfold tget. rewrite find_del by done. unfold same_key.
  destruct (Z.eqb_spec (cmp_tracker k sm) 0); [by rewrite decide_True|by rewrite decide_False].
Qed.

Lemma tget_overwrite k from to : sorted from -> tget k (overwrite from to) = tget k from ?: tget k to.
Proof.
  intros S. revert to. induction S as [|a l S IH F]; intros to; [done|]. cbn [overwrite foldl].
  change (foldl (fun ks sm => ins sm ks) (ins a to) l) with (overwrite l (ins a to)). rewrite IH, tget_ins.
  unfold tget, find_sm. cbn [List.find]. unfold same_key. destruct (Z.eqb_spec (cmp_tracker k a) 0) as [E|E].
  - rewrite decide_True by done. assert (absent k l) as Ha.
    { eapply Forall_impl; [|exact F]. intros x Hx. rewrite (cmp_eq_l k a x E). unfold lt_sm in Hx. lia. }
    pose proof (find_absent k l Ha) as Hf. unfold find_sm in Hf. by rewrite Hf.
  - by rewrite decide_False.
Qed.

Lemma tget_minus k fs t :
  sorted t -> tget k (minus fs t) = match tget k t with Some s => if decide (s ∈ fs) then None else Some s | None => None end.
Proof.
  unfold minus. induction 1 as [|a t S IH F]; [done|]. rewrite list.filter_cons. unfold tget, find_sm in *. cbn [List.find].
  destruct (Z.eqb_spec (cmp_tracker k a) 0) as [E|E].
  - assert (absent k t) as Ha.
    { eapply Forall_impl; [|exact F]. intros x Hx. rewrite (cmp_eq_l k a x E). unfold lt_sm in Hx. lia. }
    destruct (decide (a ∈ fs)) as [Hin|Hin].
    + rewrite decide_False by tauto. pose proof (find_absent k t Ha) as Hf. unfold find_sm in Hf. by rewrite IH, Hf.
    + rewrite decide_True by done. cbn [List.find]. by rewrite E.
  - destruct (decide (a ∉ fs)); [|done]. cbn [List.find]. by rewrite (proj2 (Z.eqb_neq _ _) E).
Qed.

Lemma sorted_overwrite from to : sorted to -> sorted (overwrite from to).
Proof. revert to. induction from as [|a l IH]; intros to S; [done|]. cbn. by apply IH, sorted_ins. Qed.

Lemma table_filter_sorted {P : sm_state -> Prop} `{!forall x, Decision (P x)} t : sorted t -> sorted (filter P t).
Proof.
  induction 1 as [|a t S IH F]; [constructor|]. rewrite list.filter_cons. case_decide; [|done]. constructor; [done|].
  apply list.Forall_forall. intros x Hx. apply list_elem_of_filter in Hx as [_ Hx]. rewrite list.Forall_forall in F. by apply F.
Qed.

Lemma sorted_minus fs t : sorted t -> sorted (minus fs t).
Proof. apply table_filter_sorted. Qed.

Lemma ins_not_nil sm t : ins sm t <> [].
Proof. destruct t as [|k t]; cbn [ins]; [done|]. by repeat case_if. Qed.

Lemma overwrite_nil from to : overwrite from to = [] -> from = [] /\ to = [].
Proof.
  revert to. induction from as [|a l IH]; intros to H; [done|]. cbn in H. apply IH in H as [_ H]. by apply ins_not_nil in H.
Qed.

Lemma overwrite_empty from : overwrite from [] = [] -> from = [].
Proof. intros H. by apply overwrite_nil in H as [? _]. Qed.

(** Sorted tables with the same lookups are the same. *)
Lemma tget_ext s t : sorted s -> sorted t -> (forall k, tget k s = tget k t) -> s = t.
Proof.
  intros S. revert t. induction S as [|a s S IH F]; intros t T E.
  - destruct t as [|b t]; [done|]. specialize (E b). by rewrite (tget_elem b (b :: t)) in E by (done || left).
  - destruct T as [|b t T G]; [specialize (E a); by rewrite (tget_elem a (a :: s)) in E by (by constructor || left)|].
    pose proof (E a) as Ea. rewrite (tget_elem a (a :: s)) in Ea by (by constructor || left).
    pose proof (E b) as Eb. rewrite (tget_elem b (b :: t)) in Eb by (by constructor || left).
    symmetry in Ea. apply tget_some in Ea as [Ha _]. apply tget_some in Eb as [Hb _].
    assert (a = b) as <-.
    { apply elem_of_cons in Ha as [|Ha]; [done|]. apply elem_of_cons in Hb as [->|Hb]; [done|].
      rewrite list.Forall_forall in F, G. pose proof (lt_trans _ _ _ (F b Hb) (G a Ha)) as L.
      unfold lt_sm in L. rewrite cmp_refl in L. lia. }
    f_equal. apply IH; [done|]. intros k. specialize (E k). unfold tget, find_sm in *. cbn [List.find] in E.
    destruct (Z.eqb_spec (cmp_tracker k a) 0) as [E0|]; [|done].
    assert (A : forall l, Forall (lt_sm a) l -> List.find (fun x => cmp_tracker k x =? 0) l = None).
    { intros l Hl. apply (find_absent k l). eapply Forall_impl; [|exact Hl]. intros x Hx. rewrite (cmp_eq_l k a x E0). unfold lt_sm in Hx. lia. }
    by rewrite !A.
Qed.
