(* ===== verification/SmState.v ===== *)
(** * sm_states: possible states and merging, smatch_slist.c

    An sm_state is allocated once; its key, its state and its line do not change, and
    the record [sm_state] has them with its address.  What is written later, or points
    to other sm_states, is kept in a heap: the states it was merged from, the list of
    possible states, and the pool, the table of the path it comes from.  The checks
    that are registered with the core, and the memory of the host, are parameters. *)
From stdpp Require Import gmap.
From S2P Require Import Prelude Avl AvlFacts Stree Tables.
#[local] Open Scope Z_scope.

(** A pool is the number and the contents of an stree that is not changed any more. *)
Record sm_info : Type := SmInfo {
  merged : bool;
  pool : option (Z * table);
  sm_left : option sm_state;
  sm_right : option sm_state;
  possible : list sm_state
}.

(** The sm_states of the function that is parsed, the counter __stree_id, the list
    all_pools, and the line. *)
Record sms : Type := Sms {
  infos : gmap Z sm_info;
  next_sm : Z;
  next_stree_id : Z;
  all_pools : list table;
  lineno : Z
}.

(** What the core knows about the checks: how many there are, which use dynamic states,
    the functions they registered, the names of their states, and the addresses of the
    states the core itself provides.  A hook may look at the table that lies over the
    current one and at the current one; a hook before a merge sets states, each given
    by its owner, name, symbol and state.  [stree_line] is the line of the last sm_state
    that was put in a table, for messages; [out_of_memory] asks the host; [same_stree]
    tells whether two variables that hold this table hold the same pointer, which they
    do from clone_stree() until one of them is written; [keep_out_of_scope] are the checks
    whose states outlive the symbol. *)
Class Checks : Type := {
  num_checks : Z;
  SMATCH_EXTRA : Z;
  dynamic_states : Z -> bool;
  state_name : Z -> option (list Z);
  state_undefined : Z;
  state_merged : Z;
  state_true : Z;
  merge_funcs : list (Z * (Z -> Z -> Z));
  unmatched_state_funcs : list (Z * (table -> table -> sm_state -> Z));
  pre_merge_hooks : Z -> option (table -> table -> sm_state -> sm_state -> list (Z * list Z * Z * Z));
  stree_line : table -> Z;
  out_of_memory : sms -> bool;
  same_stree : sms -> table -> bool;
  keep_out_of_scope : Z -> bool
}.

Definition SM (A : Type) : Type := sms -> A * sms.
#[export] Instance SM_ret : MRet SM := fun A x w => (x, w).
#[export] Instance SM_bind : MBind SM := fun A B f m w => let '(x, w') := m w in f x w'.

Definition update_info (a : Z) (f : sm_info -> sm_info) : SM unit := fun w =>
  (tt, Sms (alter f a (infos w)) (next_sm w) (next_stree_id w) (all_pools w) (lineno w)).

Definition new_info : sm_info := SmInfo false None None None [].

(** The heap of an sm_state; all that are in tables have been allocated. *)
Definition info (w : sms) (sm : sm_state) : sm_info := default new_info (infos w !! sm_addr sm).

Section checks.
Context `{Chk : Checks}.

Definition has_dynamic_states (own : Z) : bool := if own >=? num_checks then false else dynamic_states own.

(** ** Allocation *)

(** alloc_sm_state() with the line that is set right after it, if any. *)
Definition alloc_sm_state_at (line : Z) (own : Z) (name : list Z) (sym state : Z) : SM sm_state := fun w =>
  let sm := SmState (next_sm w) name (own mod (USHRT_MAX + 1)) sym line state in
  (sm, Sms (<[next_sm w := SmInfo false None None None [sm]]> (infos w)) (next_sm w + 1) (next_stree_id w) (all_pools w) (lineno w)).

Definition alloc_sm_state (own : Z) (name : list Z) (sym state : Z) : SM sm_state := fun w =>
  alloc_sm_state_at (lineno w) own name sym state w.

(** clone_sm() *)
Definition clone_sm (s : sm_state) : SM sm_state := fun w =>
  let '(ret, w) := alloc_sm_state_at (sm_line s) (owner s) (sm_name s) (sm_sym s) (sm_st s) w in
  let i := info w s in
  let '(_, w) := update_info (sm_addr ret) (fun j => SmInfo (merged i) (pool j) (sm_left i) (sm_right i) (possible i)) w in
  (ret, w).

(** ** The possible states of an sm_state *)

Definition cmp_possible_sm (w : sms) (a b : sm_state) (preserve : bool) : Z :=
  if decide (a = b) then 0
  else if negb (has_dynamic_states (owner a)) then
    if sm_st a >? sm_st b then -1 else if sm_st a <? sm_st b then 1 else 0
  else
    let ret := if owner a =? SMATCH_EXTRA then
                 let ret := cmp_sm a b in
                 if truth ret then ret
                 else if preserve then
                   if merged (info w a) && negb (merged (info w b)) then -1
                   else if negb (merged (info w a)) then 1 else 0
                 else 0
               else 0 in
    if truth ret then ret
    else match state_name (sm_st a), state_name (sm_st b) with
         | Some x, Some y => strcmp x y
         | _, _ => 0
         end.

Definition too_many_possible (w : sms) (sm : sm_state) : bool := Z.of_nat (length (possible (info w sm))) >=? 100.

(** The walk of add_possible_sm() over the list, with INSERT_CURRENT(). *)
Fixpoint add_possible_loop (w : sms) (preserve : bool) (new : sm_state) (l : list sm_state) : list sm_state :=
  match l with
  | [] => [new]
  | tmp :: l' =>
    let cmp := cmp_possible_sm w tmp new preserve in
    if cmp <? 0 then tmp :: add_possible_loop w preserve new l'
    else if cmp =? 0 then l
    else new :: l
  end.

Definition set_possible (l : list sm_state) (i : sm_info) : sm_info :=
  SmInfo (merged i) (pool i) (sm_left i) (sm_right i) l.

Definition add_possible_sm (to new : sm_state) : SM unit := fun w =>
  update_info (sm_addr to) (set_possible (add_possible_loop w (negb (too_many_possible w to)) new (possible (info w to)))) w.

Fixpoint add_possible_all (to : sm_state) (l : list sm_state) : SM unit :=
  match l with
  | [] => mret tt
  | tmp :: l => add_possible_sm to tmp;; add_possible_all to l
  end.

Definition copy_possibles (to one two : sm_state) : SM unit := fun w =>
  let p1 := possible (info w one) in
  let p2 := possible (info w two) in
  let '(large, small) := if Z.of_nat (length p2) >? Z.of_nat (length p1) then (p2, p1) else (p1, p2) in
  (update_info (sm_addr to) (set_possible large);;
   add_possible_sm to to;;
   add_possible_all to small) w.

(** ** Merging two states *)

Definition has_merge_function (client_id : Z) : bool := existsb (fun tmp => fst tmp =? client_id) merge_funcs.

(** The first function of an owner. *)
Definition first_hook {A} (own : Z) (l : list (Z * A)) : option A :=
  option_map snd (List.find (fun tmp => fst tmp =? own) l).

Definition client_merge_function (own s1 s2 : Z) : Z :=
  let name s := default [] (state_name s) in
  let '(s1, s2) :=
    if (s2 =? 0) || (negb (s1 =? 0) && (strcmp (name s2) (name s1) <? 0)) then (s2, s1) else (s1, s2) in
  match first_hook own merge_funcs with Some f => f s1 s2 | None => state_undefined end.

Definition client_unmatched_state_function (over cur : table) (sm : sm_state) : Z :=
  match first_hook (owner sm) unmatched_state_funcs with Some f => f over cur sm | None => state_undefined end.

Definition merge_states (own s1 s2 : Z) : Z :=
  if s1 =? s2 then s1
  else if has_merge_function own then client_merge_function own s1 s2
  else if (s1 =? 0) || (s2 =? 0) then state_undefined
  else state_merged.

(** The line of the merged state is the one of the state it has, the second if both do. *)
Definition merge_sm_states (one two : sm_state) : SM sm_state := fun w =>
  if decide (one = two) then (one, w)
  else if out_of_memory w then (one, w)
  else
    let s := merge_states (owner one) (sm_st one) (sm_st two) in
    let line := if s =? sm_st two then sm_line two else if s =? sm_st one then sm_line one else lineno w in
    (result ← alloc_sm_state_at line (owner one) (sm_name one) (sm_sym one) s;
     update_info (sm_addr result) (fun i => SmInfo true (pool i) (Some one) (Some two) (possible i));;
     copy_possibles result one two;;
     mret result) w.

End checks.
