(* ===== verification/Merge.v ===== *)
(** * Merging state tables, smatch_slist.c

    Where two paths meet their tables are merged.  A thing that only one of the tables
    knows gets a state in the other from the check it belongs to, the checks may then
    look at what is about to be merged, and the sm_states are merged in pairs.  The two
    tables are kept as the pools of the merged states, for smatch_implied.c.

    [cur] is cur_stree, which the hooks of the checks see below the table they are asked
    about. *)
From S2P Require Import Prelude Avl AvlFacts Stree StreeWorld Tables SmState.
#[local] Open Scope Z_scope.

Section checks.
Context `{Chk : Checks}.

(** ** match_states_stree() *)

(** The loop with two iterators, which gives what has to be added to each table. *)
Fixpoint match_loop (fuel : nat) (cur one two : table) (one_iter two_iter : list sm_state) : SM (table * table) :=
  match fuel with
  | O => mret ([], [])
  | S fuel =>
    let a := head one_iter in
    let b := head two_iter in
    match a, b with
    | None, None => mret ([], [])
    | _, _ =>
      if cmp_tracker_ptr a b <? 0 then
        match a with
        | Some a =>
          let tmp_state := client_unmatched_state_function two cur a in
          sm ← alloc_sm_state_at (stree_line two) (owner a) (sm_name a) (sm_sym a) tmp_state;
          r ← match_loop fuel cur one two (tail one_iter) two_iter;
          mret (r.1, sm :: r.2)
        | None => mret ([], [])
        end
      else if cmp_tracker_ptr a b =? 0 then match_loop fuel cur one two (tail one_iter) (tail two_iter)
      else
        match b with
        | Some b =>
          let tmp_state := client_unmatched_state_function one cur b in
          sm ← alloc_sm_state_at (stree_line one) (owner b) (sm_name b) (sm_sym b) tmp_state;
          r ← match_loop fuel cur one two one_iter (tail two_iter);
          mret (sm :: r.1, r.2)
        | None => mret ([], [])
        end
    end
  end.

Definition match_states_stree (cur one two : table) : SM (table * table) :=
  add ← match_loop (length one + length two) cur one two one two;
  mret (overwrite add.1 one, overwrite add.2 two).

(** ** call_pre_merge_hooks() *)

(** set_state(own, name, sym, state) with one table on fake_cur_stree_stack; the result
    is that table and cur_stree.  The sm_states in the two are different. *)
Definition set_state_fake (set : Z * list Z * Z * Z) (tabs : table * table) : SM (table * table) :=
  let '(own, name, sym, state) := set in
  let '(fake, cur) := tabs in
  if state =? 0 then mret tabs
  else if negb (own =? -1) && bool_decide (cur = []) then mret tabs
  else
    sm ← alloc_sm_state own name sym state;
    ret ← alloc_sm_state own name sym state;
    mret (ins sm fake, ins ret cur).

Fixpoint set_states_fake (sets : list (Z * list Z * Z * Z)) (tabs : table * table) : SM (table * table) :=
  match sets with
  | [] => mret tabs
  | set :: sets => tabs ← set_state_fake set tabs; set_states_fake sets tabs
  end.

(** call_pre_merge_hook(): the states it sets. *)
Definition call_pre_merge_hook (over cur : table) (cur_sm other : sm_state) : list (Z * list Z * Z * Z) :=
  if owner cur_sm >=? num_checks then []
  else match pre_merge_hooks (owner cur_sm) with Some f => f over cur cur_sm other | None => [] end.

(** One of the two loops: the tables are those of [set_state_fake].  The lookup always
    succeeds, because the tables have been matched. *)
Fixpoint pre_merge_loop (over : table) (sms : list sm_state) (tabs : table * table) : SM (table * table) :=
  match sms with
  | [] => mret tabs
  | sm :: sms =>
    match tget sm over ?: tget sm tabs.2 with
    | Some cur_sm =>
      if decide (cur_sm = sm) then pre_merge_loop over sms tabs
      else tabs ← set_states_fake (call_pre_merge_hook over tabs.2 cur_sm sm) tabs; pre_merge_loop over sms tabs
    | None => pre_merge_loop over sms tabs
    end
  end.

(** The overlay is *[over], and cur_stree is what it was when the fake table is popped. *)
Definition pre_merge_pass (cur over other : table) : SM table :=
  tabs ← pre_merge_loop over other ([], cur);
  mret (overwrite tabs.1 over).

Definition call_pre_merge_hooks (cur one two : table) : SM (table * table) :=
  one ← pre_merge_pass cur one two;
  two ← pre_merge_pass cur two one;
  mret (one, two).

(** ** __merge_stree() *)

Fixpoint clone_pool_loop (stree : table) : SM table :=
  match stree with
  | [] => mret []
  | sm :: stree => fun w =>
    match pool (info w sm) with
    | Some _ => (tmp ← clone_sm sm; slist ← clone_pool_loop stree; mret (tmp :: slist)) w
    | None => clone_pool_loop stree w
    end
  end.

Definition clone_pool_havers_stree (stree : table) : SM table :=
  slist ← clone_pool_loop stree; mret (overwrite slist stree).

Definition set_pool (p : Z * table) (sm : sm_state) : SM unit :=
  update_info (sm_addr sm) (fun i => SmInfo (merged i) (Some p) (sm_left i) (sm_right i) (possible i)).

(** ++__stree_id *)
Definition new_stree_id : SM Z := fun w =>
  (next_stree_id w + 1, Sms (infos w) (next_sm w) (next_stree_id w + 1) (all_pools w) (lineno w)).

Definition push_all_pools (t : table) : SM unit := fun w =>
  (tt, Sms (infos w) (next_sm w) (next_stree_id w) (t :: all_pools w) (lineno w)).

(** The pool of the states of a table: the table, or its base_stree if it has one. *)
Definition number_pools (one two : table) (base_one base_two : option table) : SM ((Z * table) * (Z * table)) :=
  id1 ← new_stree_id;
  id2 ← new_stree_id;
  p1 ← match base_one with Some b => id ← new_stree_id; mret (id, b) | None => mret (id1, one) end;
  p2 ← match base_two with Some b => id ← new_stree_id; mret (id, b) | None => mret (id2, two) end;
  mret (p1, p2).

(** The loop that merges the sm_states in pairs. *)
Fixpoint merge_loop (pools : option ((Z * table) * (Z * table))) (one_iter two_iter results : table) : SM table :=
  match one_iter, two_iter with
  | one :: one_iter, two :: two_iter =>
    if decide (one = two) then merge_loop pools one_iter two_iter (ins one results)
    else
      match pools with Some (p1, p2) => set_pool p1 one;; set_pool p2 two | None => mret tt end;;
      res ← merge_sm_states one two;
      add_possible_sm res one;;
      add_possible_sm res two;;
      merge_loop pools one_iter two_iter (ins res results)
  | _, _ => mret results
  end.

(** __merge_stree(&to, stree, add_pool) is the new value of [to].  The bases are the
    base_stree of the two tables, which only merge_fake_stree() sets. *)
Definition merge_stree_base (cur to stree : table) (base_one base_two : option table) (add_pool : bool) : SM table := fun w =>
  if out_of_memory w then (to, w)
  else match stree with
  | [] => (to, w)
  | _ =>
    if bool_decide (to = stree) && same_stree w to then (to, w)
    else match to with
    | [] => (stree, w)
    | _ =>
      (implied ← match_states_stree cur to stree;
       implied ← call_pre_merge_hooks cur implied.1 implied.2;
       if add_pool then
         implied_one ← clone_pool_havers_stree implied.1;
         implied_two ← clone_pool_havers_stree implied.2;
         pools ← number_pools implied_one implied_two base_one base_two;
         push_all_pools implied_one;; push_all_pools implied_two;;
         merge_loop (Some pools) implied_one implied_two []
       else
         push_all_pools implied.1;; push_all_pools implied.2;;
         merge_loop None implied.1 implied.2 []) w
    end
  end.

Definition merge_stree (cur to stree : table) : SM table := merge_stree_base cur to stree None None true.
Definition merge_stree_no_pools (cur to stree : table) : SM table := merge_stree_base cur to stree None None false.

(** ** merge_fake_stree() *)

(** What is added to each table: the current state of what only the other one sets. *)
Fixpoint match_fake_loop (fuel : nat) (cur one_iter two_iter : table) : table * table :=
  match fuel with
  | O => ([], [])
  | S fuel =>
    let a := head one_iter in
    let b := head two_iter in
    match a, b with
    | None, None => ([], [])
    | _, _ =>
      if cmp_tracker_ptr a b <? 0 then
        match a with
        | Some a =>
          let r := match_fake_loop fuel cur (tail one_iter) two_iter in
          match tget a cur with Some sm => (r.1, sm :: r.2) | None => r end
        | None => ([], [])
        end
      else if cmp_tracker_ptr a b =? 0 then match_fake_loop fuel cur (tail one_iter) (tail two_iter)
      else
        match b with
        | Some b =>
          let r := match_fake_loop fuel cur one_iter (tail two_iter) in
          match tget b cur with Some sm => (sm :: r.1, r.2) | None => r end
        | None => ([], [])
        end
    end
  end.

(** The new value of [to]; there is no overlay when it is called. *)
Definition merge_fake_stree (cur to stree : table) : SM table := fun w =>
  match stree with
  | [] => (to, w)
  | _ =>
    if bool_decide (to = stree) && same_stree w to then (to, w)
    else match to with
    | [] => (stree, w)
    | _ =>
      let add := match_fake_loop (length to + length stree) cur to stree in
      let one := overwrite add.1 to in
      let two := overwrite add.2 stree in
      merge_stree_base cur one two (Some (overwrite one cur)) (Some (overwrite two cur)) true w
    end
  end.

End checks.
