(* ===== verification/MergeFacts.v ===== *)
(** * What merging does to tables

    The sm_states that the checks are asked for when only one table knows a thing, the
    states they set before a merge, the copies of those that have a pool and the merged
    ones are all new; what is looked up in the result is described by what is looked up
    in the two tables. *)
From stdpp Require Import gmap.
From S2P Require Import Prelude Avl AvlFacts Stree StreeFacts StreeWorld Tables SmState Merge.
#[local] Open Scope Z_scope.

(** ** Keys and tables *)

Lemma strcmp_eq a b : strcmp a b = 0 -> a = b.
Proof.
  revert b. induction a as [|x a IH]; destruct b as [|y b]; simpl; try done. zcases; try done.
  intros Hs. f_equal; [lia|auto].
Qed.

Lemma same_key_fields a b :
  same_key a b <-> owner a = owner b /\ sm_name a = sm_name b /\ sm_sym a = sm_sym b.
Proof.
  unfold same_key. cbn [cmp_tracker sm_tracker]. rewrite cmp_sm_fields. unfold cmp_fields, lex, on, null_last, ord3.
  pose proof (strcmp_eq (sm_name a) (sm_name b)) as Hn. split.
  - zcases; intros; try lia; repeat split; auto; lia.
  - intros (-> & -> & ->). rewrite (gc_refl _ good_strcmp). zcases; try done; lia.
Qed.

(** All the sm_states of a table have been allocated before the address [n]. *)
Definition allocated (n : Z) (sm : sm_state) : Prop := 0 <= owner sm <= USHRT_MAX /\ sm_addr sm < n.

Definition wf_table (n : Z) (t : table) : Prop := sorted t /\ Forall (allocated n) t.

Lemma allocated_le n n' sm : n <= n' -> allocated n sm -> allocated n' sm.
Proof. intros L [H1 H2]. split; [done|lia]. Qed.

Lemma wf_table_le n n' t : n <= n' -> wf_table n t -> wf_table n' t.
Proof. intros L [S F]. split; [done|]. eapply Forall_impl; [|exact F]. intros sm. by apply allocated_le. Qed.

Lemma wf_table_nil n : wf_table n [].
Proof. split; constructor. Qed.

Lemma wf_ins n sm t : allocated n sm -> wf_table n t -> wf_table n (ins sm t).
Proof. intros H [S F]. split; [by apply sorted_ins|by apply Forall_ins]. Qed.

Lemma wf_overwrite n from to : wf_table n from -> wf_table n to -> wf_table n (overwrite from to).
Proof.
  intros [_ F] W. revert to W. induction F as [|sm from A F IH]; intros to W; [done|]. cbn. by apply IH, wf_ins.
Qed.

Lemma wf_minus n fs t : wf_table n t -> wf_table n (minus fs t).
Proof.
  intros [S F]. split; [by apply sorted_minus|]. apply list.Forall_forall. intros x [_ Hx]%list_elem_of_filter.
  rewrite list.Forall_forall in F. auto.
Qed.

Lemma wf_tget n k t sm : wf_table n t -> tget k t = Some sm -> allocated n sm /\ same_key k sm.
Proof. intros [_ F] [Hin K]%tget_some. rewrite list.Forall_forall in F. auto. Qed.

#[export] Hint Resolve wf_table_nil wf_ins wf_overwrite wf_minus : core.

Lemma filter_ext_in {A} (P Q : A -> Prop) `{!forall x, Decision (P x), !forall x, Decision (Q x)} (l : list A) :
  (forall x, x ∈ l -> P x <-> Q x) -> filter P l = filter Q l.
Proof.
  induction l as [|a l IH]; intros PQ; [done|]. rewrite !list.filter_cons, IH by (intros; apply PQ; by right).
  assert (P a <-> Q a) as E by (apply PQ; by left). by destruct (decide (P a)), (decide (Q a)); tauto || done.
Qed.

Lemma tget_cons k a t : tget k (a :: t) = if decide (same_key k a) then Some a else tget k t.
Proof.
  unfold tget, find_sm, same_key. cbn [List.find].
  destruct (Z.eqb_spec (cmp_tracker k a) 0); [by rewrite decide_True|by rewrite decide_False].
Qed.

Lemma tget_above k t : Forall (lt_sm k) t -> tget k t = None.
Proof. intros F. apply find_absent. eapply Forall_impl; [|exact F]. unfold lt_sm. intros x Hx. lia. Qed.

(** Tables whose elements correspond have corresponding lookups. *)
Lemma tget_Forall2 (R : sm_state -> sm_state -> Prop) s t k :
  (forall a b, R a b -> same_key a b) -> Forall2 R s t -> option_Forall2 R (tget k s) (tget k t).
Proof.
  intros HR F. induction F as [|a b s t Hab F IH]; [constructor|]. rewrite !tget_cons.
  pose proof (HR _ _ Hab) as K. case_decide as E.
  - rewrite decide_True by (by rewrite <- K). by constructor.
  - rewrite decide_False by (by rewrite <- K). done.
Qed.

Lemma sorted_Forall2 s t : Forall2 same_key s t -> sorted s -> sorted t.
Proof.
  intros F. induction F as [|a b s t Hab F IH]; intros S; [done|]. inversion_clear S as [|? ? S' L].
  constructor; [auto|]. clear IH S'. induction F as [|c d s t Hcd F IH]; [constructor|]. inversion_clear L as [|? ? L1 L2].
  constructor; [|auto]. eapply lt_eq_trans; [|exact Hcd]. eapply eq_lt_trans; [|exact L1]. by symmetry in Hab.
Qed.

Lemma tget_filter_none k s t :
  tget k (filter (fun a => tget a t = None) s) = match tget k t with None => tget k s | Some _ => None end.
Proof.
  induction s as [|a s IH]; [by destruct (tget k t)|]. rewrite list.filter_cons, (tget_cons k a s). case_decide as E; [rewrite tget_cons|].
  - case_decide as K; [|done]. by rewrite (tget_key k a t K), E.
  - case_decide as K; [|done]. rewrite (tget_key k a t K) in IH |- *. destruct (tget a t) eqn:Ea; [done|]. by contradiction E.
Qed.

(** ** Computations *)

Lemma SM_bind_inv {A B} (m : SM A) (f : A -> SM B) w r w' :
  mbind f m w = (r, w') -> exists x w1, m w = (x, w1) /\ f x w1 = (r, w').
Proof. unfold mbind, SM_bind. destruct (m w) as [x w1]. eauto. Qed.

Lemma SM_ret_inv {A} (x : A) (w : sms) r w' : (mret x : SM A) w = (r, w') -> r = x /\ w' = w.
Proof. by intros [= <- <-]. Qed.

(** Takes the steps of a computation apart. *)
Ltac sm_steps H :=
  lazymatch type of H with
  | mbind _ _ _ = (_, _) =>
    let x := fresh "x" in let w := fresh "w" in let H1 := fresh "Hs" in
    apply SM_bind_inv in H as (x & w & H1 & H); sm_steps H
  | mret _ _ = (_, _) => apply SM_ret_inv in H as [-> ->]
  | _ => idtac
  end.

(** A new sm_state with the key of another. *)
Definition new_for (w w' : sms) (a sm : sm_state) : Prop :=
  same_key a sm /\ allocated (next_sm w') sm /\ next_sm w <= sm_addr sm.

Lemma new_for_mono w0 w w' w1 a sm :
  next_sm w0 <= next_sm w -> next_sm w' <= next_sm w1 -> new_for w w' a sm -> new_for w0 w1 a sm.
Proof. intros L1 L2 (K & A & L). split; [done|]. split; [by eapply allocated_le|lia]. Qed.

Lemma alloc_sm_state_at_spec line a st w sm w' :
  0 <= owner a <= USHRT_MAX -> alloc_sm_state_at line (owner a) (sm_name a) (sm_sym a) st w = (sm, w') ->
  new_for w w' a sm /\ sm_st sm = st /\ sm_addr sm = next_sm w /\ next_sm w' = next_sm w + 1.
Proof.
  intros O [= <- <-]. unfold new_for, allocated. cbn [sm_st sm_addr next_sm owner].
  rewrite Z.mod_small by (unfold USHRT_MAX in *; lia). split; [|lia]. split; [|lia].
  by apply same_key_fields.
Qed.

(** ** Matching *)

Section checks.
Context `{Chk : Checks}.

(** What the check of [a] says about it on the path of the table [over]. *)
Definition unmatched_for (over cur : table) (w w' : sms) (a sm : sm_state) : Prop :=
  new_for w w' a sm /\ sm_st sm = client_unmatched_state_function over cur a.

Lemma unmatched_mono over cur w0 w w' w1 l l' :
  next_sm w0 <= next_sm w -> next_sm w' <= next_sm w1 ->
  Forall2 (unmatched_for over cur w w') l l' -> Forall2 (unmatched_for over cur w0 w1) l l'.
Proof. intros L1 L2 F. eapply Forall2_impl; [|exact F]. intros a b [N E]. split; [by eapply new_for_mono|done]. Qed.

Lemma tget_lt a b t : lt_sm a b -> sorted (b :: t) -> tget a (b :: t) = None.
Proof.
  intros L S. inversion_clear S as [|? ? _ F]. apply tget_above. constructor; [done|].
  eapply Forall_impl; [|exact F]. intros x. by apply lt_trans.
Qed.

(** Nothing above [b] has the key of the smaller [a]. *)
Lemma filter_drop_lt a s l :
  Forall (lt_sm a) l -> filter (fun y => tget y (a :: s) = None) l = filter (fun y => tget y s = None) l.
Proof.
  intros F. apply filter_ext_in. intros x Hx. rewrite list.Forall_forall in F. specialize (F x Hx).
  rewrite tget_cons, decide_False; [done|]. unfold same_key. intros E. unfold lt_sm in F. rewrite cmp_opp in F. lia.
Qed.

(** The loop adds to each table what only the other one has. *)
Definition matched (cur one two : table) (w w' : sms) (it1 it2 : list sm_state) (r : table * table) : Prop :=
  next_sm w <= next_sm w' /\
  Forall2 (unmatched_for one cur w w') (filter (fun b => tget b it1 = None) it2) r.1 /\
  Forall2 (unmatched_for two cur w w') (filter (fun a => tget a it2 = None) it1) r.2.

Lemma matched_l cur one two a it1 it2 w r w' line fuel :
  0 <= owner a <= USHRT_MAX -> Forall (lt_sm a) it2 ->
  (forall w r w', match_loop fuel cur one two it1 it2 w = (r, w') -> matched cur one two w w' it1 it2 r) ->
  (sm ← alloc_sm_state_at line (owner a) (sm_name a) (sm_sym a) (client_unmatched_state_function two cur a);
   r ← match_loop fuel cur one two it1 it2; mret (r.1, sm :: r.2)) w = (r, w') ->
  matched cur one two w w' (a :: it1) it2 r.
Proof.
  intros O F IH H. sm_steps H. apply alloc_sm_state_at_spec in Hs as (N & St & Ad & Nx); [|done].
  apply IH in Hs0 as (L & F1 & F2). unfold matched. cbn [fst snd].
  rewrite filter_drop_lt, list.filter_cons, decide_True by (done || by apply tget_above).
  split; [lia|]. split; [eapply unmatched_mono; [| |exact F1]; lia|].
  constructor; [|eapply unmatched_mono; [| |exact F2]; lia]. split; [|done]. eapply new_for_mono; [| |exact N]; lia.
Qed.

Lemma matched_r cur one two b it1 it2 w r w' line fuel :
  0 <= owner b <= USHRT_MAX -> Forall (lt_sm b) it1 ->
  (forall w r w', match_loop fuel cur one two it1 it2 w = (r, w') -> matched cur one two w w' it1 it2 r) ->
  (sm ← alloc_sm_state_at line (owner b) (sm_name b) (sm_sym b) (client_unmatched_state_function one cur b);
   r ← match_loop fuel cur one two it1 it2; mret (sm :: r.1, r.2)) w = (r, w') ->
  matched cur one two w w' it1 (b :: it2) r.
Proof.
  intros O F IH H. sm_steps H. apply alloc_sm_state_at_spec in Hs as (N & St & Ad & Nx); [|done].
  apply IH in Hs0 as (L & F1 & F2). unfold matched. cbn [fst snd].
  rewrite filter_drop_lt, list.filter_cons, decide_True by (done || by apply tget_above).
  split; [lia|]. split; [|eapply unmatched_mono; [| |exact F2]; lia].
  constructor; [|eapply unmatched_mono; [| |exact F1]; lia]. split; [|done]. eapply new_for_mono; [| |exact N]; lia.
Qed.

Lemma matched_both cur one two a b it1 it2 w r w' :
  same_key a b -> Forall (lt_sm a) it1 -> Forall (lt_sm b) it2 ->
  matched cur one two w w' it1 it2 r -> matched cur one two w w' (a :: it1) (b :: it2) r.
Proof.
  intros K Fa Fb (L & F1 & F2). split; [done|].
  rewrite !list.filter_cons, !decide_False by (rewrite tget_cons, decide_True; [done|done || by symmetry]).
  rewrite !filter_drop_lt; [done| |].
  - eapply Forall_impl; [|exact Fa]. intros x Hx. eapply eq_lt_trans; [|exact Hx]. by symmetry in K.
  - eapply Forall_impl; [|exact Fb]. intros x Hx. by eapply eq_lt_trans.
Qed.

Definition owned (sm : sm_state) : Prop := 0 <= owner sm <= USHRT_MAX.

Lemma match_loop_spec fuel cur one two it1 it2 w r w' :
  sorted it1 -> sorted it2 -> Forall owned it1 -> Forall owned it2 -> (length it1 + length it2 <= fuel)%nat ->
  match_loop fuel cur one two it1 it2 w = (r, w') -> matched cur one two w w' it1 it2 r.
Proof.
  revert it1 it2 w r w'. induction fuel as [|fuel IH]; intros it1 it2 w r w' S1 S2 O1 O2 L H.
  { destruct it1, it2; simpl in L; try lia. apply SM_ret_inv in H as [-> ->]. split; [lia|done]. }
  destruct S1 as [|a it1 S1 F1], S2 as [|b it2 S2 F2]; cbn [match_loop head tail cmp_tracker_ptr Z.ltb Z.compare Z.eqb] in H;
    simpl in L; try (inversion_clear O1 as [|? ? Oa O1']); try (inversion_clear O2 as [|? ? Ob O2']).
  - apply SM_ret_inv in H as [-> ->]. split; [lia|done].
  - eapply matched_r; [done|constructor| |exact H]. intros. eapply IH; eauto; try constructor; simpl; lia.
  - eapply matched_l; [done|constructor| |exact H]. intros. eapply IH; eauto; try constructor; simpl; lia.
  - destruct (cmp_cases a b) as [E|[[E Lt]|[E Lt]]]; cbn [cmp_tracker sm_tracker] in E; rewrite E in H; cbn [Z.ltb Z.compare Z.eqb] in H.
    + apply matched_both; [done..|]. eapply IH; eauto. lia.
    + eapply matched_l; [done| | |exact H]; [|intros; eapply IH; eauto; try (by constructor); simpl; lia].
      constructor; [done|]. eapply Forall_impl; [|exact F2]. intros x. by apply lt_trans.
    + eapply matched_r; [done| | |exact H]; [|intros; eapply IH; eauto; try (by constructor); simpl; lia].
      constructor; [done|]. eapply Forall_impl; [|exact F1]. intros x. by apply lt_trans.
Qed.

(** What a matched table holds for [k]: its own sm_state, or a new one if only the other
    table has one. *)
Definition filled (cur over other : table) (w w' : sms) (k : sm_state) (o : option sm_state) : Prop :=
  match tget k over, tget k other with
  | Some s, _ => o = Some s
  | None, Some b => exists sm, o = Some sm /\ unmatched_for over cur w w' b sm
  | None, None => o = None
  end.

Lemma wf_owned n t : wf_table n t -> Forall owned t.
Proof. intros [_ F]. eapply Forall_impl; [|exact F]. by intros a [? _]. Qed.

Lemma filled_overwrite cur over other w w' add :
  sorted over -> sorted other ->
  Forall2 (unmatched_for over cur w w') (filter (fun b => tget b over = None) other) add ->
  (wf_table (next_sm w) over -> next_sm w <= next_sm w' -> wf_table (next_sm w') (overwrite add over)) /\
  forall k, filled cur over other w w' k (tget k (overwrite add over)).
Proof.
  intros S1 S2 F.
  assert (forall a b, unmatched_for over cur w w' a b -> same_key a b) as K by (intros a b [[? _] _]; done).
  assert (sorted add) as Sa.
  { eapply sorted_Forall2; [eapply Forall2_impl; [exact K|exact F]|]. by apply table_filter_sorted. }
  split.
  - intros W L. apply wf_overwrite; [|by eapply wf_table_le]. split; [done|]. clear -F.
    induction F as [|a b l l' [(_ & A & _) _] F IH]; by constructor.
  - intros k. rewrite tget_overwrite by done. pose proof (tget_Forall2 _ _ _ k K F) as G.
    rewrite tget_filter_none in G. unfold filled. destruct (tget k over) as [x|]; [by inversion G|].
    destruct (tget k other) as [b|]; [|by inversion G]. inversion G as [? y U|]; subst. eexists. by split.
Qed.

Lemma match_states_spec cur one two w r w' :
  wf_table (next_sm w) one -> wf_table (next_sm w) two -> match_states_stree cur one two w = (r, w') ->
  next_sm w <= next_sm w' /\ wf_table (next_sm w') r.1 /\ wf_table (next_sm w') r.2 /\
  (forall k, filled cur one two w w' k (tget k r.1)) /\ (forall k, filled cur two one w w' k (tget k r.2)).
Proof.
  intros W1 W2 H. unfold match_states_stree in H. sm_steps H.
  apply match_loop_spec in Hs as (L & F1 & F2); [|apply W1|apply W2|by eapply wf_owned..|lia]. cbn [fst snd].
  destruct (filled_overwrite cur one two w w0 x.1) as [A1 B1]; [apply W1|apply W2|done|].
  destruct (filled_overwrite cur two one w w0 x.2) as [A2 B2]; [apply W2|apply W1|done|]. auto.
Qed.

(** ** The hooks before a merge *)

(** A hook only sets the state it is asked about. *)
Definition local_hooks : Prop :=
  forall over cur sm other set, set ∈ call_pre_merge_hook over cur sm other ->
  exists st, set = (owner sm, sm_name sm, sm_sym sm, st).

(** The check of [s] set a new state for it, with [over] as the overlay. *)
Definition set_by_hook (over : table) (w w' : sms) (s sm : sm_state) : Prop :=
  new_for w w' s sm /\ exists cur other, (owner s, sm_name s, sm_sym s, sm_st sm) ∈ call_pre_merge_hook over cur s other.

Definition hooked (over : table) (w w' : sms) (sm : sm_state) : Prop :=
  exists s, tget sm over = Some s /\ set_by_hook over w w' s sm.

Lemma hooked_mono over w w' w1 t :
  next_sm w' <= next_sm w1 -> Forall (hooked over w w') t -> Forall (hooked over w w1) t.
Proof.
  intros L F. eapply Forall_impl; [|exact F]. intros sm (s & G & N & E). exists s. split; [done|]. split; [|done].
  by eapply new_for_mono; [| |exact N].
Qed.

Lemma set_states_fake_spec over s sets tabs w0 w r w' :
  tget s over = Some s -> owned s -> next_sm w0 <= next_sm w ->
  (forall set, set ∈ sets -> exists st, set = (owner s, sm_name s, sm_sym s, st) /\
     exists cur other, set ∈ call_pre_merge_hook over cur s other) ->
  sorted tabs.1 -> Forall (hooked over w0 w) tabs.1 -> set_states_fake sets tabs w = (r, w') ->
  next_sm w <= next_sm w' /\ sorted r.1 /\ Forall (hooked over w0 w') r.1.
Proof.
  intros Gs O. revert tabs w. induction sets as [|set sets IH]; intros [fake cur] w L0 Hk S F H; cbn in H.
  { apply SM_ret_inv in H as [-> ->]. split; [lia|done]. }
  destruct (Hk set) as (st & -> & cur1 & other & E); [by left|]. sm_steps H. unfold set_state_fake in Hs.
  assert (forall set', set' ∈ sets -> exists st, set' = (owner s, sm_name s, sm_sym s, st) /\
     exists cur other, set' ∈ call_pre_merge_hook over cur s other) as Hk' by (intros; apply Hk; by right).
  destruct (st =? 0); [|destruct (negb (owner s =? -1) && bool_decide (cur = []))].
  1, 2: apply SM_ret_inv in Hs as [-> ->]; by eapply IH.
  sm_steps Hs. unfold alloc_sm_state in Hs0, Hs1.
  apply alloc_sm_state_at_spec in Hs0 as (N1 & <- & A1 & X1); [|done].
  apply alloc_sm_state_at_spec in Hs1 as (N2 & _ & A2 & X2); [|done].
  eapply IH in H as (L' & S' & F'); [split; [lia|done]|lia|done|by apply sorted_ins|].
  apply Forall_ins; [|eapply hooked_mono; [|exact F]; lia].
  exists s. split; [|split; [by eapply new_for_mono; [| |exact N1]; lia|eauto]].
  rewrite <- (tget_key s); [done|]. apply N1.
Qed.

Hypothesis Hlocal : local_hooks.

Lemma pre_merge_loop_spec over sms tabs w0 w r w' :
  sorted over -> Forall owned over -> next_sm w0 <= next_sm w ->
  Forall (fun sm => exists s, tget sm over = Some s) sms ->
  sorted tabs.1 -> Forall (hooked over w0 w) tabs.1 -> pre_merge_loop over sms tabs w = (r, w') ->
  next_sm w <= next_sm w' /\ sorted r.1 /\ Forall (hooked over w0 w') r.1.
Proof.
  intros So O L0 Fm. revert tabs w L0. induction Fm as [|sm sms [s G] Fm IH]; intros tabs w L0 S F H; cbn in H.
  { apply SM_ret_inv in H as [-> ->]. split; [lia|done]. }
  rewrite G in H. cbn [orelse] in H. destruct (decide (s = sm)); [by eapply IH|]. sm_steps H.
  apply tget_some in G as [Hin K].
  eapply set_states_fake_spec in Hs as (L1 & S1 & F1).
  - eapply IH in H as (L2 & S2 & F2); [|lia|done..]. split; [lia|done].
  - by apply tget_elem.
  - rewrite list.Forall_forall in O. auto.
  - done.
  - intros set Hset. destruct (Hlocal _ _ _ _ _ Hset) as [st E]. eauto.
  - done.
  - done.
Qed.

(** What a table holds after the hooks: what it held, or a state its check set. *)
Definition premerged (over : table) (w w' : sms) (k : sm_state) (o : option sm_state) : Prop :=
  match tget k over with
  | Some s => o = Some s \/ exists sm, o = Some sm /\ set_by_hook over w w' s sm
  | None => o = None
  end.

Lemma pre_merge_pass_spec cur over other w r w' :
  wf_table (next_sm w) over -> Forall (fun sm => exists s, tget sm over = Some s) other ->
  pre_merge_pass cur over other w = (r, w') ->
  next_sm w <= next_sm w' /\ wf_table (next_sm w') r /\ forall k, premerged over w w' k (tget k r).
Proof.
  intros W F H. unfold pre_merge_pass in H. sm_steps H. pose proof W as [S _].
  eapply pre_merge_loop_spec in Hs as (L & Sx & Fx); [|done|by eapply wf_owned|done..|constructor|constructor].
  split; [done|]. split.
  - apply wf_overwrite; [|by eapply wf_table_le]. split; [done|]. eapply Forall_impl; [|exact Fx].
    by intros sm (s & _ & (_ & A & _) & _).
  - intros k. rewrite tget_overwrite by done. unfold premerged. destruct (tget k x.1) as [sm|] eqn:G; cbn [orelse].
    + apply tget_some in G as [Hin K]. rewrite list.Forall_forall in Fx. apply Fx in Hin as (s & G & B).
      rewrite (tget_key k sm over K), G. right. eauto.
    + destruct (tget k over); [by left|done].
Qed.

(** ** Copies of the sm_states that have a pool *)

Definition cloned (w w' : sms) (a o : option sm_state) : Prop :=
  match a with
  | Some s => o = Some s \/ exists sm, o = Some sm /\ new_for w w' s sm /\ sm_st sm = sm_st s
  | None => o = None
  end.

Lemma clone_sm_spec s w sm w' :
  owned s -> clone_sm s w = (sm, w') ->
  new_for w w' s sm /\ sm_st sm = sm_st s /\ next_sm w' = next_sm w + 1.
Proof.
  intros O H. unfold clone_sm in H. destruct (alloc_sm_state_at (sm_line s) (owner s) (sm_name s) (sm_sym s) (sm_st s) w) as [x w1] eqn:E.
  apply alloc_sm_state_at_spec in E as (N & St & _ & X); [|done]. by injection H as <- <-.
Qed.

Definition clone_of (w w' : sms) (s sm : sm_state) : Prop := new_for w w' s sm /\ sm_st sm = sm_st s.

Lemma clone_pool_loop_spec t w r w' :
  Forall owned t -> clone_pool_loop t w = (r, w') ->
  next_sm w <= next_sm w' /\ exists l, l `sublist_of` t /\ Forall2 (clone_of w w') l r.
Proof.
  intros O. revert w r w'. induction O as [|s t Os O IH]; intros w r w' H; cbn in H.
  { apply SM_ret_inv in H as [-> ->]. split; [lia|]. exists []. by split. }
  destruct (pool (info w s)).
  - sm_steps H. apply clone_sm_spec in Hs as (N & St & X); [|done]. apply IH in Hs0 as (L & l & Sl & F).
    split; [lia|]. exists (s :: l). split; [by constructor|]. constructor.
    + split; [|done]. eapply new_for_mono; [| |exact N]; lia.
    + eapply Forall2_impl; [|exact F]. intros a b [Na Ea]. split; [|done]. eapply new_for_mono; [| |exact Na]; lia.
  - apply IH in H as (L & l & Sl & F). split; [done|]. exists l. split; [by constructor|done].
Qed.

Lemma sublist_elem (l t : list sm_state) x : l `sublist_of` t -> x ∈ l -> x ∈ t.
Proof. intros S H. eapply elem_of_submseteq; [exact H|by apply sublist_submseteq]. Qed.

Lemma sorted_sublist l t : l `sublist_of` t -> sorted t -> sorted l.
Proof.
  induction 1 as [|x l t Sl IH|x l t Sl IH]; intros S; [done|..]; inversion_clear S as [|? ? S' F]; [|auto].
  constructor; [auto|]. rewrite list.Forall_forall in F |- *. intros y Hy. by apply F, (sublist_elem l).
Qed.

Lemma clone_pool_havers_spec t w r w' :
  wf_table (next_sm w) t -> clone_pool_havers_stree t w = (r, w') ->
  next_sm w <= next_sm w' /\ wf_table (next_sm w') r /\ forall k, cloned w w' (tget k t) (tget k r).
Proof.
  intros W H. unfold clone_pool_havers_stree in H. sm_steps H. pose proof W as [S _].
  apply clone_pool_loop_spec in Hs as (L & l & Sl & F); [|by eapply wf_owned].
  assert (forall a b, clone_of w w0 a b -> same_key a b) as K by (intros a b [[? _] _]; done).
  assert (sorted x) as Sx.
  { eapply sorted_Forall2; [eapply Forall2_impl; [exact K|exact F]|]. by eapply sorted_sublist. }
  split; [done|]. split.
  - apply wf_overwrite; [|by eapply wf_table_le]. split; [done|]. clear -F.
    induction F as [|a b l l' [(_ & A & _) _] F IH]; by constructor.
  - intros k. rewrite tget_overwrite by done. pose proof (tget_Forall2 _ _ _ k K F) as G. unfold cloned.
    destruct (tget k l) as [s|] eqn:E; inversion G as [? y [N Es]|]; subst; cbn [orelse].
    + apply tget_some in E as [Hin Ks]. apply (sublist_elem _ _ _ Sl) in Hin.
      rewrite (tget_key k s t Ks), (tget_elem s t) by done. right. eauto.
    + destruct (tget k t); [by left|done].
Qed.

(** ** Merging in pairs *)

Hypothesis Hmem : forall w, out_of_memory w = false.

Definition pair_merged (w w' : sms) (a b m : sm_state) : Prop :=
  (a = b /\ m = a) \/ (new_for w w' a m /\ sm_st m = merge_states (owner a) (sm_st a) (sm_st b)).

Lemma add_possible_next to new w r w' : add_possible_sm to new w = (r, w') -> next_sm w' = next_sm w.
Proof. by intros [= _ <-]. Qed.

Lemma add_possible_all_next to l w r w' : add_possible_all to l w = (r, w') -> next_sm w' = next_sm w.
Proof.
  revert w. induction l as [|x l IH]; intros w H; cbn in H; sm_steps H; [done|].
  apply add_possible_next in Hs. apply IH in H. congruence.
Qed.

Lemma copy_possibles_next to one two w r w' : copy_possibles to one two w = (r, w') -> next_sm w' = next_sm w.
Proof.
  unfold copy_possibles. destruct (_ >? _); intros H; sm_steps H; apply add_possible_next in Hs0; apply add_possible_all_next in H;
    injection Hs as _ <-; cbn in Hs0; congruence.
Qed.

Lemma merge_sm_states_spec one two w m w' :
  owned one -> one <> two -> merge_sm_states one two w = (m, w') ->
  new_for w w' one m /\ sm_st m = merge_states (owner one) (sm_st one) (sm_st two) /\ next_sm w' = next_sm w + 1.
Proof.
  intros O N H. unfold merge_sm_states in H. rewrite decide_False, Hmem in H by done. sm_steps H.
  apply alloc_sm_state_at_spec in Hs as (Nf & St & _ & X); [|done].
  apply copy_possibles_next in Hs1. injection Hs0 as _ <-. cbn in Hs1.
  split; [eapply new_for_mono; [| |exact Nf]; lia|]. split; [done|lia].
Qed.

Lemma pair_merged_mono w0 w w' w1 a b m :
  next_sm w0 <= next_sm w -> next_sm w' <= next_sm w1 -> pair_merged w w' a b m -> pair_merged w0 w1 a b m.
Proof. intros L1 L2 [E|[N E]]; [by left|right]. split; [by eapply new_for_mono|done]. Qed.

Lemma merge_loop_spec pools it1 it2 res w r w' :
  Forall2 same_key it1 it2 -> Forall owned it1 -> merge_loop pools it1 it2 res w = (r, w') ->
  next_sm w <= next_sm w' /\ exists l, r = overwrite l res /\ Forall3 (pair_merged w w') it1 it2 l.
Proof.
  intros F. revert res w. induction F as [|a b it1 it2 K F IH]; intros res w O H; cbn in H.
  { apply SM_ret_inv in H as [-> ->]. split; [lia|]. exists []. split; [done|constructor]. }
  inversion_clear O as [|? ? Oa O1]. case_decide as E.
  - apply IH in H as (L & l & -> & Fl); [|done]. split; [done|]. exists (a :: l). split; [done|]. constructor; [by left|done].
  - sm_steps H. apply merge_sm_states_spec in Hs0 as (N & St & X); [|done..].
    apply add_possible_next in Hs1, Hs2. apply IH in H as (L & l & -> & Fl); [|done].
    assert (next_sm w0 = next_sm w) as E0 by (destruct pools as [[p1 p2]|]; by injection Hs as _ <-).
    split; [lia|]. exists (x0 :: l). split; [done|]. constructor.
    + right. split; [|done]. eapply new_for_mono; [| |exact N]; lia.
    + eapply Forall3_impl; [exact Fl|]. intros ? ? ?. apply pair_merged_mono; lia.
Qed.

(** ** __merge_stree() *)

(** Two tables that know the same things. *)
Definition aligned (s t : table) : Prop := forall k, tget k s = None <-> tget k t = None.

Lemma aligned_Forall2 s t : sorted s -> sorted t -> aligned s t -> Forall2 same_key s t.
Proof.
  intros S. revert t. induction S as [|a s S IH F]; intros t T A.
  - destruct t as [|b t]; [constructor|]. specialize (A b). rewrite (tget_elem b (b :: t)) in A by (done || left). by destruct A as [A _]; discriminate A.
  - destruct T as [|b t T G].
    { specialize (A a). rewrite (tget_elem a (a :: s)) in A by (by constructor || left). by destruct A as [_ A]; discriminate A. }
    assert (same_key a b) as K.
    { destruct (cmp_cases a b) as [E|[[E L]|[E L]]]; [done|..]; exfalso.
      - specialize (A a). rewrite (tget_elem a (a :: s)), tget_lt in A by (done || left || by constructor). by destruct A as [_ A]; discriminate A.
      - specialize (A b). rewrite (tget_elem b (b :: t)), tget_lt in A by (done || left || by constructor). by destruct A as [A _]; discriminate A. }
    constructor; [done|]. apply IH; [done|]. intros k. specialize (A k). rewrite !tget_cons in A. case_decide as E.
    + rewrite !tget_above; [done|..]; (eapply Forall_impl; [|eassumption]); intros x Hx; (eapply eq_lt_trans; [|exact Hx]); first [exact E | exact (transitivity E K)].
    + rewrite decide_False in A by (by rewrite <- K). done.
Qed.

(** What the path of [over] says about [k] before the hooks. *)
Definition matched_state (cur over other : table) (k : sm_state) : Z :=
  match tget k over, tget k other with
  | Some s, _ => sm_st s
  | None, Some b => client_unmatched_state_function over cur b
  | None, None => 0
  end.

(** The sm_state of [k] on one side, when the merging in pairs begins. *)
Definition merge_side (cur over other : table) (w w' : sms) (k : sm_state) (o : option sm_state) : Prop :=
  match o with
  | None => tget k over = None /\ tget k other = None
  | Some m =>
    (tget k over = Some m \/ (new_for w w' k m /\ (tget k over <> None \/ tget k other <> None))) /\
    (pre_merge_hooks (owner k) = None -> sm_st m = matched_state cur over other k)
  end.

Lemma no_hook over w w' s sm : pre_merge_hooks (owner s) = None -> ~ set_by_hook over w w' s sm.
Proof.
  intros N (_ & cur & other & E). unfold call_pre_merge_hook in E. rewrite N in E.
  destruct (owner s >=? num_checks); by apply elem_of_nil in E.
Qed.

Lemma new_for_key w w' a b sm : same_key a b -> new_for w w' a sm -> new_for w w' b sm.
Proof. intros K (K1 & A & L). split; [|done]. by rewrite <- K. Qed.

Lemma same_key_owner a b : same_key a b -> owner a = owner b.
Proof. intros K. by apply same_key_fields in K as [? _]. Qed.

(** The three steps that prepare a side, together. *)
Lemma merge_side_steps cur over other over1 w w1 w2 w3 w4 k a b c :
  next_sm w <= next_sm w1 -> next_sm w1 <= next_sm w2 -> next_sm w2 <= next_sm w3 -> next_sm w3 <= next_sm w4 ->
  filled cur over other w w1 k a -> tget k over1 = a -> premerged over1 w1 w2 k b -> cloned w3 w4 b c ->
  merge_side cur over other w w4 k c.
Proof.
  intros L1 L2 L3 L4 F Ea P C. unfold premerged in P. rewrite Ea in P. unfold filled in F.
  assert (match a with
          | Some x => (tget k over = Some x \/ (new_for w w1 k x /\ (tget k over <> None \/ tget k other <> None))) /\
                      sm_st x = matched_state cur over other k /\ same_key k x
          | None => tget k over = None /\ tget k other = None end) as Ha.
  { unfold matched_state. destruct (tget k over) as [s|] eqn:Es; [subst a; split; [by left|split; [done|by eapply tget_some]]|].
    destruct (tget k other) as [o|] eqn:Eo; [|by subst a]. destruct F as (sm & -> & N & St).
    apply tget_some in Eo as [_ Ko]. split; [right; split; [by eapply new_for_key; [symmetry|]|by right]|].
    split; [done|]. etransitivity; [exact Ko|apply N]. }
  clear F. destruct a as [x|]; [|subst b; unfold cloned in C; by subst c]. destruct Ha as (H1 & H2 & Kx).
  assert (exists y, b = Some y /\ same_key k y /\
    (tget k over = Some y \/ (new_for w w2 k y /\ (tget k over <> None \/ tget k other <> None))) /\
    (pre_merge_hooks (owner k) = None -> sm_st y = matched_state cur over other k)) as (y & -> & Ky & H3 & H4).
  { destruct P as [->|(sm & -> & B)].
    - exists x. split; [done|]. split; [done|]. split; [|done]. destruct H1 as [?|[N D]]; [by left|right].
      split; [by eapply new_for_mono; [| |exact N]; lia|done].
    - exists sm. split; [done|]. pose proof B as [N _]. split; [etransitivity; [exact Kx|apply N]|]. split.
      + right. split; [eapply new_for_key; [symmetry; exact Kx|]; eapply new_for_mono; [| |exact N]; lia|].
        destruct H1 as [->|[_ D]]; [by left|done].
      + intros Hn. exfalso. revert B. apply no_hook. by rewrite <- (same_key_owner k x Kx). }
  destruct C as [->|(sm & -> & N & St)].
  - split; [|done]. destruct H3 as [?|[N D]]; [by left|right]. split; [by eapply new_for_mono; [| |exact N]; lia|done].
  - split; [|intros Hn; rewrite St; auto]. right. split; [eapply new_for_key; [symmetry; exact Ky|]; eapply new_for_mono; [| |exact N]; lia|].
    destruct H3 as [->|[_ D]]; [by left|done].
Qed.

(** What the merged table holds for [k]. *)
Definition merged_at (cur to stree : table) (w w' : sms) (k : sm_state) (o : option sm_state) : Prop :=
  match o with
  | None => tget k to = None /\ tget k stree = None
  | Some r =>
    (tget k to <> None \/ tget k stree <> None) /\
    (new_for w w' k r \/ (tget k to = Some r /\ tget k stree = Some r)) /\
    (pre_merge_hooks (owner k) = None ->
     sm_st r = merge_states (owner k) (matched_state cur to stree k) (matched_state cur stree to k))
  end.

Lemma side_key cur over other w w' k m : merge_side cur over other w w' k (Some m) -> same_key k m.
Proof. intros [[E|[N _]] _]; [by eapply tget_some|apply N]. Qed.

Lemma merge_states_same own s : merge_states own s s = s.
Proof. unfold merge_states. by rewrite Z.eqb_refl. Qed.

Lemma merged_pair cur to stree w w' w'' k a b m :
  wf_table (next_sm w) to -> wf_table (next_sm w) stree -> next_sm w <= next_sm w' -> next_sm w' <= next_sm w'' ->
  merge_side cur to stree w w' k (Some a) -> merge_side cur stree to w w' k (Some b) -> pair_merged w' w'' a b m ->
  merged_at cur to stree w w'' k (Some m).
Proof.
  intros W1 W2 L1 L2 Sa Sb P. pose proof (side_key _ _ _ _ _ _ _ Sa) as Ka. destruct Sa as [Da Ea], Sb as [Db Eb].
  assert (tget k to <> None \/ tget k stree <> None) as D by (destruct Da as [->|[_ ?]]; [by left|done]).
  split; [done|]. destruct P as [[<- ->]|[N St]]; split.
  - destruct Da as [Da|[Na _]]; [|left; eapply new_for_mono; [| |exact Na]; lia].
    destruct Db as [Db|[Nb _]]; [by right|]. apply (wf_tget _ _ _ _ W1) in Da as [[_ Ad] _].
    destruct Nb as (_ & _ & ?). lia.
  - intros Hn. rewrite <- Ea, <- Eb by done. by rewrite merge_states_same.
  - left. eapply new_for_key; [symmetry; exact Ka|]. eapply new_for_mono; [| |exact N]; lia.
  - intros Hn. by rewrite St, Ea, Eb, (same_key_owner k a Ka).
Qed.

Lemma tget_Forall3 (R : sm_state -> sm_state -> sm_state -> Prop) s t l k :
  (forall a b c, R a b c -> same_key a c) -> Forall2 same_key s t -> Forall3 R s t l ->
  match tget k s, tget k t with
  | Some a, Some b => exists c, tget k l = Some c /\ R a b c
  | None, None => tget k l = None
  | _, _ => False
  end.
Proof.
  intros HR F2 F. induction F as [|a b c s t l Hab F IH]; [done|]. inversion_clear F2 as [|? ? ? ? K F2'].
  rewrite !tget_cons. pose proof (HR _ _ _ Hab) as K2.
  assert (same_key k b <-> same_key k a) as Eb by (by rewrite K).
  assert (same_key k c <-> same_key k a) as Ec by (by rewrite K2). case_decide as E.
  - rewrite !decide_True by tauto. eauto.
  - rewrite !decide_False by tauto. exact (IH F2').
Qed.

Lemma pair_merged_key w w' a b m : pair_merged w w' a b m -> same_key a m.
Proof. intros [[_ ->]|[N _]]; [done|apply N]. Qed.

Lemma merge_sides cur to stree pools i1 i2 w w1 r w2 :
  wf_table (next_sm w) to -> wf_table (next_sm w) stree -> next_sm w <= next_sm w1 ->
  wf_table (next_sm w1) i1 -> wf_table (next_sm w1) i2 ->
  (forall k, merge_side cur to stree w w1 k (tget k i1)) -> (forall k, merge_side cur stree to w w1 k (tget k i2)) ->
  merge_loop pools i1 i2 [] w1 = (r, w2) ->
  next_sm w1 <= next_sm w2 /\ wf_table (next_sm w2) r /\ forall k, merged_at cur to stree w w2 k (tget k r).
Proof.
  intros W1 W2 L V1 V2 S1 S2 H.
  assert (aligned i1 i2) as A.
  { intros k. specialize (S1 k). specialize (S2 k). destruct (tget k i1), (tget k i2); try done; exfalso; cbn in *.
    - destruct S2 as [E1 E2], S1 as [[E|[_ [E|E]]] _]; congruence.
    - destruct S1 as [E1 E2], S2 as [[E|[_ [E|E]]] _]; congruence. }
  pose proof (aligned_Forall2 _ _ (proj1 V1) (proj1 V2) A) as F.
  apply merge_loop_spec in H as (L2 & l & -> & Fl); [|done|by eapply wf_owned].
  assert (Forall2 same_key i1 l) as F1 by (clear -Fl; induction Fl; constructor; [by eapply pair_merged_key|done]).
  assert (sorted l) as Sl by (eapply sorted_Forall2; [exact F1|apply V1]).
  split; [done|]. split.
  - apply wf_overwrite; [|by apply wf_table_nil]. split; [done|]. destruct V1 as [_ V1]. clear -Fl V1 L2.
    induction Fl as [|a b c ? ? ? P Fl IH]; [constructor|]. inversion_clear V1 as [|? ? Aa V1']. constructor; [|auto].
    destruct P as [[_ ->]|[(_ & ? & _) _]]; [by eapply allocated_le|done].
  - intros k. rewrite tget_overwrite, tget_nil, orelse_none by done.
    pose proof (tget_Forall3 _ _ _ _ k (pair_merged_key w1 w2) F Fl) as G. specialize (S1 k). specialize (S2 k).
    destruct (tget k i1), (tget k i2); try done.
    + destruct G as (c & -> & P). by eapply merged_pair.
    + by rewrite G.
Qed.

Lemma premerged_some over w w' k o s : premerged over w w' k o -> tget k over = Some s -> exists s', o = Some s'.
Proof. unfold premerged. intros H E. rewrite E in H. destruct H as [->|(sm & -> & _)]; eauto. Qed.

Lemma premerged_mono over w0 w w' w1 k o :
  next_sm w0 <= next_sm w -> next_sm w' <= next_sm w1 -> premerged over w w' k o -> premerged over w0 w1 k o.
Proof.
  intros L1 L2. unfold premerged. destruct (tget k over) as [s|]; [|done]. intros [?|(sm & E & N & B)]; [by left|right].
  exists sm. split; [done|]. split; [|done]. by eapply new_for_mono; [| |exact N].
Qed.

Lemma filled_some cur over other w w' k o :
  filled cur over other w w' k o -> tget k over <> None \/ tget k other <> None -> exists s, o = Some s.
Proof.
  unfold filled. intros H D. destruct (tget k over) as [s|]; [eauto|]. destruct (tget k other) as [b|]; [|tauto].
  destruct H as (sm & -> & _). eauto.
Qed.

Lemma filled_known cur over other w w' k s : filled cur over other w w' k (Some s) -> tget k over <> None \/ tget k other <> None.
Proof. unfold filled. destruct (tget k over), (tget k other); intros H; try done; solve [by left|by right]. Qed.

Lemma number_pools_next one two b1 b2 w r w' : number_pools one two b1 b2 w = (r, w') -> next_sm w' = next_sm w.
Proof. unfold number_pools. by destruct b1, b2; intros [= _ <-]. Qed.

(** The tables before the merging in pairs. *)
Lemma prepare_spec cur to stree w implied w' :
  wf_table (next_sm w) to -> wf_table (next_sm w) stree ->
  (implied ← match_states_stree cur to stree; call_pre_merge_hooks cur implied.1 implied.2) w = (implied, w') ->
  next_sm w <= next_sm w' /\ wf_table (next_sm w') implied.1 /\ wf_table (next_sm w') implied.2 /\
  (forall i1 w1 w2 k, next_sm w' <= next_sm w1 -> next_sm w1 <= next_sm w2 ->
     cloned w1 w2 (tget k implied.1) i1 -> merge_side cur to stree w w2 k i1) /\
  (forall i2 w1 w2 k, next_sm w' <= next_sm w1 -> next_sm w1 <= next_sm w2 ->
     cloned w1 w2 (tget k implied.2) i2 -> merge_side cur stree to w w2 k i2).
Proof.
  intros W1 W2 H. sm_steps H. apply match_states_spec in Hs as (L1 & V1 & V2 & F1 & F2); [|done..].
  unfold call_pre_merge_hooks in H. sm_steps H. cbn [fst snd].
  pose proof Hs as Hs'. apply pre_merge_pass_spec in Hs as (L2 & V3 & P1); [|done|].
  2:{ apply list.Forall_forall. intros sm Hsm. eapply filled_some; [apply F1|].
      pose proof (tget_elem sm x.2 (proj1 V2) Hsm) as E. specialize (F2 sm). rewrite E in F2.
      apply filled_known in F2. tauto. }
  apply pre_merge_pass_spec in Hs0 as (L3 & V4 & P2); [|by eapply wf_table_le|].
  2:{ apply list.Forall_forall. intros sm Hsm. eapply filled_some; [apply F2|].
      pose proof (tget_elem sm x0 (proj1 V3) Hsm) as E. specialize (P1 sm). rewrite E in P1. unfold premerged in P1.
      destruct (tget sm x.1) as [s|] eqn:Es; [|done]. specialize (F1 sm). rewrite Es in F1. apply filled_known in F1. tauto. }
  split; [lia|]. split; [by eapply wf_table_le|]. split; [done|]. split; intros i w3 w4 k L4 L5 C.
  - eapply (merge_side_steps cur to stree x.1 w w0 w1 w3 w4 k); [lia..|apply F1|reflexivity|apply P1|exact C].
  - eapply (merge_side_steps cur stree to x.2 w w0 w2 w3 w4 k); [lia..|apply F2|reflexivity| |exact C].
    eapply premerged_mono; [| |apply P2]; lia.
Qed.

Lemma cloned_mono w0 w w' w1 a o :
  next_sm w0 <= next_sm w -> next_sm w' <= next_sm w1 -> cloned w w' a o -> cloned w0 w1 a o.
Proof.
  intros L1 L2. unfold cloned. destruct a as [s|]; [|done]. intros [?|(sm & E & N & B)]; [by left|right].
  exists sm. split; [done|]. split; [|done]. by eapply new_for_mono; [| |exact N].
Qed.

Lemma cloned_refl w w' o : cloned w w' o o.
Proof. destruct o; [by left|done]. Qed.

Lemma merge_tail cur to stree b1 b2 (add_pool : bool) im w w1 r w' :
  wf_table (next_sm w) to -> wf_table (next_sm w) stree ->
  (implied ← match_states_stree cur to stree; call_pre_merge_hooks cur implied.1 implied.2) w = (im, w1) ->
  (if add_pool then
     implied_one ← clone_pool_havers_stree im.1; implied_two ← clone_pool_havers_stree im.2;
     pools ← number_pools implied_one implied_two b1 b2;
     push_all_pools implied_one;; push_all_pools implied_two;;
     merge_loop (Some pools) implied_one implied_two []
   else push_all_pools im.1;; push_all_pools im.2;; merge_loop None im.1 im.2 []) w1 = (r, w') ->
  next_sm w <= next_sm w' /\ wf_table (next_sm w') r /\ forall k, merged_at cur to stree w w' k (tget k r).
Proof.
  intros W1 W2 (L1 & V1 & V2 & S1 & S2)%prepare_spec H; [|done..]. destruct add_pool; sm_steps H.
  - apply clone_pool_havers_spec in Hs as (L2 & V3 & C1); [|done].
    apply clone_pool_havers_spec in Hs0 as (L3 & V4 & C2); [|by eapply wf_table_le].
    apply number_pools_next in Hs1. injection Hs2 as _ <-. injection Hs3 as _ <-.
    eapply (merge_sides cur to stree _ _ _ w) in H as (L4 & W3 & M); cbn [next_sm] in *; rewrite ?Hs1 in *.
    + split; [lia|]. split; [done|exact M].
    + done.
    + done.
    + lia.
    + by eapply wf_table_le.
    + done.
    + intros k. eapply (S1 _ w1); [lia|cbn; lia|]. eapply cloned_mono; [| |apply C1]; cbn; lia.
    + intros k. eapply (S2 _ w0); [lia|cbn; lia|]. eapply cloned_mono; [| |apply C2]; cbn; lia.
  - injection Hs as _ <-. injection Hs0 as _ <-. eapply (merge_sides cur to stree _ _ _ w) in H as (L4 & W3 & M); cbn [next_sm] in *.
    + split; [lia|]. split; [done|exact M].
    + done.
    + done.
    + lia.
    + done.
    + done.
    + intros k. eapply (S1 _ w1); [lia|cbn; lia|]. apply cloned_refl.
    + intros k. eapply (S2 _ w1); [lia|cbn; lia|]. apply cloned_refl.
Qed.

Lemma merged_same cur t w k : merged_at cur t t w w k (tget k t).
Proof.
  unfold merged_at, matched_state. destruct (tget k t); [|done]. split; [by left|]. split; [by right|]. by rewrite merge_states_same.
Qed.

Lemma merge_stree_base_spec cur to stree b1 b2 add_pool w r w' :
  wf_table (next_sm w) to -> wf_table (next_sm w) stree -> to <> [] -> stree <> [] ->
  merge_stree_base cur to stree b1 b2 add_pool w = (r, w') ->
  next_sm w <= next_sm w' /\ wf_table (next_sm w') r /\ forall k, merged_at cur to stree w w' k (tget k r).
Proof.
  intros W1 W2 N1 N2 H. unfold merge_stree_base in H. rewrite Hmem in H.
  destruct stree as [|b stree]; [done|]. remember (b :: stree) as str eqn:Es.
  case_bool_decide as E; cbn [andb] in H; [destruct (same_stree w to)|].
  { injection H as <- <-. split; [lia|]. split; [done|]. intros k. rewrite E. apply merged_same. }
  all: destruct to as [|a to]; [done|]; remember (a :: to) as too eqn:Et.
  all: apply SM_bind_inv in H as (im & w0 & H0 & H); apply SM_bind_inv in H as (im' & w1 & H1 & H).
  all: eapply merge_tail; [done|done| |exact H]; unfold mbind, SM_bind in H0, H1 |- *; by rewrite H0.
Qed.

(** ** Possible states *)

(** [q] stands for [p] in a list of possible states. *)
Definition stands_for (w : sms) (q p : sm_state) : Prop := exists preserve, cmp_possible_sm w q p preserve = 0.

Lemma stands_for_refl w p : stands_for w p p.
Proof. exists false. unfold cmp_possible_sm. by rewrite decide_True. Qed.

(** Only the merged flag is looked at in the heap. *)
Definition same_merged (w w' : sms) : Prop := forall sm, merged (info w sm) = merged (info w' sm).

Lemma stands_for_same w w' q p : same_merged w w' -> stands_for w q p -> stands_for w' q p.
Proof.
  intros E [pr H]. exists pr. rewrite <- H. unfold cmp_possible_sm. by rewrite <- !E.
Qed.

Lemma add_possible_loop_keeps w pr new l p : p ∈ l -> p ∈ add_possible_loop w pr new l.
Proof.
  induction l as [|t l IH]; [by intros ?%elem_of_nil|]. intros H. cbn. apply elem_of_cons in H as [->|H].
  - repeat case_match; rewrite ?elem_of_cons; auto.
  - specialize (IH H). repeat case_match; rewrite ?elem_of_cons; auto.
Qed.

Lemma add_possible_loop_adds w pr new l : exists q, q ∈ add_possible_loop w pr new l /\ stands_for w q new.
Proof.
  induction l as [|t l (q & Hq & Sq)]; cbn.
  - exists new. split; [by apply elem_of_cons; left|apply stands_for_refl].
  - destruct (cmp_possible_sm w t new pr <? 0); [|destruct (cmp_possible_sm w t new pr =? 0) eqn:E].
    + exists q. by rewrite elem_of_cons; auto.
    + exists t. split; [by apply elem_of_cons; left|]. exists pr. by apply Z.eqb_eq.
    + exists new. split; [by apply elem_of_cons; left|apply stands_for_refl].
Qed.

(** An sm_state that has been allocated has a record in the heap. *)
Definition in_heap (w : sms) (sm : sm_state) : Prop := is_Some (infos w !! sm_addr sm).

Lemma info_update a f (w : sms) r w' :
  update_info a f w = (r, w') -> forall sm, info w' sm = if decide (sm_addr sm = a /\ in_heap w sm) then f (info w sm) else info w sm.
Proof.
  intros [= _ <-] sm. unfold info. cbn [infos]. unfold in_heap. destruct (decide (sm_addr sm = a)) as [E|E].
  - rewrite <- E, lookup_alter_eq. destruct (infos w !! sm_addr sm) as [i|] eqn:G; [rewrite decide_True by (split; [done|by eexists])|]; [done|].
    rewrite decide_False by (by intros [_ [? ?]]). done.
  - rewrite lookup_alter_ne by congruence. by rewrite decide_False by tauto.
Qed.

Lemma in_heap_update a f (w : sms) r w' sm : update_info a f w = (r, w') -> in_heap w sm -> in_heap w' sm.
Proof. intros [= _ <-] [i H]. unfold in_heap. cbn. by apply lookup_alter_is_Some; eexists. Qed.

(** [to] gains a representative of [p] and keeps those it has. *)
Definition has_possible (w : sms) (to p : sm_state) : Prop := exists q, q ∈ possible (info w to) /\ stands_for w q p.

Lemma set_possible_merged a g (w : sms) r w' : update_info a (fun i => set_possible (g i) i) w = (r, w') -> same_merged w w'.
Proof. intros H sm. rewrite (info_update _ _ _ _ _ H sm). by case_decide. Qed.

Lemma add_possible_spec to new w r w' :
  in_heap w to -> add_possible_sm to new w = (r, w') ->
  in_heap w' to /\ same_merged w w' /\ has_possible w' to new /\ forall p, has_possible w to p -> has_possible w' to p.
Proof.
  intros Hin H. unfold add_possible_sm in H.
  assert (same_merged w w') as Sm by (by eapply (set_possible_merged _ (fun _ => _))).
  pose proof (info_update _ _ _ _ _ H to) as E. rewrite decide_True in E by done.
  split; [by eapply in_heap_update|]. split; [done|]. unfold has_possible. rewrite E. cbn [set_possible possible]. split.
  - destruct (add_possible_loop_adds w (negb (too_many_possible w to)) new (possible (info w to))) as (q & Hq & Sq).
    exists q. split; [done|]. by eapply stands_for_same.
  - intros p (q & Hq & Sq). exists q. split; [by apply add_possible_loop_keeps|by eapply stands_for_same].
Qed.

Lemma add_possible_all_spec to l w r w' :
  in_heap w to -> add_possible_all to l w = (r, w') ->
  in_heap w' to /\ same_merged w w' /\ (forall p, p ∈ l -> has_possible w' to p) /\ forall p, has_possible w to p -> has_possible w' to p.
Proof.
  revert w. induction l as [|x l IH]; intros w Hin H; cbn in H; sm_steps H.
  { split; [done|]. split; [done|]. split; [|done]. by intros p ?%elem_of_nil. }
  apply add_possible_spec in Hs as (I1 & M1 & N1 & K1); [|done]. apply IH in H as (I2 & M2 & N2 & K2); [|done].
  split; [done|]. split; [intros sm; by rewrite M1, M2|]. split; [|auto].
  intros p [->|Hp]%elem_of_cons; auto.
Qed.

Lemma copy_possibles_spec to one two w r w' :
  in_heap w to -> copy_possibles to one two w = (r, w') ->
  in_heap w' to /\ same_merged w w' /\ has_possible w' to to /\
  (forall p, p ∈ possible (info w one) \/ p ∈ possible (info w two) -> has_possible w' to p).
Proof.
  intros Hin H. unfold copy_possibles in H. destruct (_ >? _); sm_steps H.
  all: pose proof (info_update _ _ _ _ _ Hs to) as E; rewrite decide_True in E by done.
  all: pose proof (set_possible_merged _ (fun _ => _) _ _ _ Hs) as M0; apply (in_heap_update _ _ _ _ _ _ Hs) in Hin.
  all: apply add_possible_spec in Hs0 as (I1 & M1 & N1 & K1); [|done].
  all: apply add_possible_all_spec in H as (I2 & M2 & N2 & K2); [|done].
  all: split; [done|]; split; [intros sm; by rewrite M0, M1, M2|]; split; [auto|].
  all: intros p [Hp|Hp]; auto; apply K2, K1; exists p; (split; [by rewrite E|apply stands_for_refl]).
Qed.

Lemma alloc_info line own name sym st (w : sms) sm w' :
  alloc_sm_state_at line own name sym st w = (sm, w') ->
  in_heap w' sm /\ forall x, sm_addr x <> next_sm w -> info w' x = info w x.
Proof.
  intros [= <- <-]. split.
  - unfold in_heap. cbn. rewrite lookup_insert_eq. by eexists.
  - intros x N. unfold info. cbn. by rewrite lookup_insert_ne by congruence.
Qed.

(** Merging two sm_states keeps every possible state of both. *)
Lemma merge_sm_states_possible one two w m w' :
  sm_addr one < next_sm w -> sm_addr two < next_sm w -> one <> two -> merge_sm_states one two w = (m, w') ->
  in_heap w' m /\ has_possible w' m m /\
  forall p, p ∈ possible (info w one) \/ p ∈ possible (info w two) -> has_possible w' m p.
Proof.
  intros A1 A2 N H. unfold merge_sm_states in H. rewrite decide_False, Hmem in H by done. sm_steps H.
  apply alloc_info in Hs as [I1 E1]. pose proof (info_update _ _ _ _ _ Hs0) as E2.
  apply (in_heap_update _ _ _ _ _ _ Hs0) in I1. apply copy_possibles_spec in Hs1 as (I3 & _ & N3 & K3); [|done].
  split; [done|]. split; [done|]. intros p Hp. apply K3.
  rewrite !E2. destruct Hp as [Hp|Hp]; [left|right]; case_decide; cbn [possible]; by rewrite E1 by lia.
Qed.

End checks.
