(* ===== verification/Syntax.v ===== *)
(** * Expressions and statements, parse.h and expression.h

    The trees the parser makes, as far as the walk over a function looks into them.
    Pointers are trees; an [addr] is the address of a statement where the walk compares
    statements.  Expressions the walk does not look into are [EXPR_OTHER].  A label is its
    name and the address of its symbol; the symbols of a declaration are a number. *)
From S2P Require Import Prelude Tokens.
#[local] Open Scope Z_scope.
#[local] Set Warnings "-register-all".

(** A position: the number of the file and the line. *)
Record position : Set := Position { pos_stream : Z; pos_line : Z }.

(** What a goto names: a node ("break" or "continue") or a label. *)
Inductive goto_label : Set :=
  | SYM_NODE (ident : list Z)
  | SYM_LABEL (ident : list Z) (sym : Z).

Inductive expression : Type :=
  | EXPR_LOGICAL (is_and : bool) (left right : expression)       (* && and || *)
  | EXPR_BINOP (op : op_tok) (left right : expression)
  | EXPR_COMPARE (op : op_tok) (left right : expression)
  | EXPR_CALL (fn : expression) (args : list expression)
  | EXPR_PREOP (op : op_tok) (unop : expression)
  | EXPR_PAREN (unop : expression)                               (* EXPR_PREOP with op '(' *)
  | EXPR_POSTOP (op : Z) (unop : expression)
  | EXPR_CONDITIONAL (conditional : expression) (cond_true : option expression) (cond_false : expression)
  | EXPR_COMMA (left right : expression)
  | EXPR_ASSIGNMENT (op : Z) (left right : expression)
  | EXPR_STATEMENT (stmt : statement)
  | EXPR_SYMBOL (name : list Z)
  | EXPR_VALUE (value : Z)
  | EXPR_OTHER (id : Z)
with statement : Type :=
  | STMT_NONE (pos : position)
  | STMT_DECLARATION (declaration : Z)
  | STMT_EXPRESSION (expr : option expression)
  | STMT_COMPOUND (addr : Z) (stmts : list statement)
  | STMT_IF (if_conditional : expression) (if_true if_false : option statement)
  | STMT_RETURN (ret_value : option expression)
  | STMT_CASE (case_expression case_to : option expression) (case_statement : statement)
  | STMT_SWITCH (switch_expression : expression) (switch_statement : statement)
  | STMT_ITERATOR (iterator_syms : Z) (iterator_pre_statement : option statement) (iterator_pre_condition : option expression)
      (iterator_statement iterator_post_statement : option statement) (iterator_post_condition : option expression)
  | STMT_LABEL (label : list Z) (sym : Z) (label_statement : option statement)
  | STMT_GOTO (addr : Z) (goto_expression : option expression) (target : option goto_label)
  | STMT_ASM (asm_string : option expression) (asm_outputs asm_inputs asm_clobbers : list expression) (asm_labels : list (list Z * Z))
  | STMT_CONTEXT
  | STMT_RANGE (range_expression range_low range_high : expression).
