(* ===== verification/States.v ===== *)
(** * The current states and the stacks, smatch_states.c

    The core walks a function in the order of its text.  [cur_stree] holds the states of
    the path it is on, NULL when the path cannot be reached; what is known about the
    other paths waits on stacks.  A stack is a list whose head is its top; popping an
    empty stack gives NULL, as last_ptr_list() does, and a stack that becomes empty is
    NULL.  The functions take the machine before and give the one after. *)
From stdpp Require Import gmap.
From S2P Require Import Prelude Syntax RangeList Avl AvlFacts Stree StreeWorld Tables SmState Merge.
#[local] Open Scope Z_scope.

Abbreviation stack := (list table).

(** What waits at a label: struct named_stree. *)
Record named_stree : Type := NamedStree { ns_name : list Z; ns_sym : Z; ns_stree : table }.

(** The pointers save_all_states() puts on one untyped list. *)
Inductive backup_ptr : Type :=
  | PTable (t : table)
  | PStack (s : stack)
  | PCases (l : list range_list)
  | PGotos (l : list named_stree).

(** The variables of smatch_conditions.c (the first) and smatch_flow.c that the walk over a
    function reads. *)
Record variables : Type := Variables {
  confidence_implied : Z;
  loop_num : Z;
  loop_count : Z;
  __in_pre_condition : Z;
  __bail_on_rest_of_function : bool;
  final_pass : Z;
  last_goto_statement_handled : bool;
  __reparsing_code : bool;
  indent_cnt : Z;
  __fake_state_cnt : Z;
  in_fake_env : bool;
  current_pos : position;
  switch_expr_stack : list expression
}.

Definition set_confidence_implied (x : Z) (v : variables) : variables :=
  Variables x (loop_num v) (loop_count v) (__in_pre_condition v) (__bail_on_rest_of_function v) (final_pass v) (last_goto_statement_handled v) (__reparsing_code v) (indent_cnt v) (__fake_state_cnt v) (in_fake_env v) (current_pos v) (switch_expr_stack v).
Definition set_loop_num (x : Z) (v : variables) : variables :=
  Variables (confidence_implied v) x (loop_count v) (__in_pre_condition v) (__bail_on_rest_of_function v) (final_pass v) (last_goto_statement_handled v) (__reparsing_code v) (indent_cnt v) (__fake_state_cnt v) (in_fake_env v) (current_pos v) (switch_expr_stack v).
Definition set_loop_count (x : Z) (v : variables) : variables :=
  Variables (confidence_implied v) (loop_num v) x (__in_pre_condition v) (__bail_on_rest_of_function v) (final_pass v) (last_goto_statement_handled v) (__reparsing_code v) (indent_cnt v) (__fake_state_cnt v) (in_fake_env v) (current_pos v) (switch_expr_stack v).
Definition set___in_pre_condition (x : Z) (v : variables) : variables :=
  Variables (confidence_implied v) (loop_num v) (loop_count v) x (__bail_on_rest_of_function v) (final_pass v) (last_goto_statement_handled v) (__reparsing_code v) (indent_cnt v) (__fake_state_cnt v) (in_fake_env v) (current_pos v) (switch_expr_stack v).
Definition set___bail_on_rest_of_function (x : bool) (v : variables) : variables :=
  Variables (confidence_implied v) (loop_num v) (loop_count v) (__in_pre_condition v) x (final_pass v) (last_goto_statement_handled v) (__reparsing_code v) (indent_cnt v) (__fake_state_cnt v) (in_fake_env v) (current_pos v) (switch_expr_stack v).
Definition set_final_pass (x : Z) (v : variables) : variables :=
  Variables (confidence_implied v) (loop_num v) (loop_count v) (__in_pre_condition v) (__bail_on_rest_of_function v) x (last_goto_statement_handled v) (__reparsing_code v) (indent_cnt v) (__fake_state_cnt v) (in_fake_env v) (current_pos v) (switch_expr_stack v).
Definition set_last_goto_statement_handled (x : bool) (v : variables) : variables :=
  Variables (confidence_implied v) (loop_num v) (loop_count v) (__in_pre_condition v) (__bail_on_rest_of_function v) (final_pass v) x (__reparsing_code v) (indent_cnt v) (__fake_state_cnt v) (in_fake_env v) (current_pos v) (switch_expr_stack v).
Definition set___reparsing_code (x : bool) (v : variables) : variables :=
  Variables (confidence_implied v) (loop_num v) (loop_count v) (__in_pre_condition v) (__bail_on_rest_of_function v) (final_pass v) (last_goto_statement_handled v) x (indent_cnt v) (__fake_state_cnt v) (in_fake_env v) (current_pos v) (switch_expr_stack v).
Definition set_indent_cnt (x : Z) (v : variables) : variables :=
  Variables (confidence_implied v) (loop_num v) (loop_count v) (__in_pre_condition v) (__bail_on_rest_of_function v) (final_pass v) (last_goto_statement_handled v) (__reparsing_code v) x (__fake_state_cnt v) (in_fake_env v) (current_pos v) (switch_expr_stack v).
Definition set___fake_state_cnt (x : Z) (v : variables) : variables :=
  Variables (confidence_implied v) (loop_num v) (loop_count v) (__in_pre_condition v) (__bail_on_rest_of_function v) (final_pass v) (last_goto_statement_handled v) (__reparsing_code v) (indent_cnt v) x (in_fake_env v) (current_pos v) (switch_expr_stack v).
Definition set_in_fake_env (x : bool) (v : variables) : variables :=
  Variables (confidence_implied v) (loop_num v) (loop_count v) (__in_pre_condition v) (__bail_on_rest_of_function v) (final_pass v) (last_goto_statement_handled v) (__reparsing_code v) (indent_cnt v) (__fake_state_cnt v) x (current_pos v) (switch_expr_stack v).
Definition set_current_pos (x : position) (v : variables) : variables :=
  Variables (confidence_implied v) (loop_num v) (loop_count v) (__in_pre_condition v) (__bail_on_rest_of_function v) (final_pass v) (last_goto_statement_handled v) (__reparsing_code v) (indent_cnt v) (__fake_state_cnt v) (in_fake_env v) x (switch_expr_stack v).
Definition set_switch_expr_stack (x : list expression) (v : variables) : variables :=
  Variables (confidence_implied v) (loop_num v) (loop_count v) (__in_pre_condition v) (__bail_on_rest_of_function v) (final_pass v) (last_goto_statement_handled v) (__reparsing_code v) (indent_cnt v) (__fake_state_cnt v) (in_fake_env v) (current_pos v) x.

Record machine : Type := Machine {
  cur_stree : table;
  true_stack : stack;
  false_stack : stack;
  pre_cond_stack : stack;
  cond_true_stack : stack;
  cond_false_stack : stack;
  fake_cur_stree_stack : stack;
  break_stack : stack;
  fake_break_stack : stack;
  switch_stack : stack;
  remaining_cases : list range_list;
  default_stack : stack;
  continue_stack : stack;
  goto_stack : list named_stree;
  backup : list backup_ptr;
  vars : variables;
  heap_sms : sms
}.

Definition set_cur_stree (x : table) (m : machine) : machine :=
  Machine x (true_stack m) (false_stack m) (pre_cond_stack m) (cond_true_stack m) (cond_false_stack m) (fake_cur_stree_stack m) (break_stack m) (fake_break_stack m) (switch_stack m) (remaining_cases m) (default_stack m) (continue_stack m) (goto_stack m) (backup m) (vars m) (heap_sms m).
Definition set_true_stack (x : stack) (m : machine) : machine :=
  Machine (cur_stree m) x (false_stack m) (pre_cond_stack m) (cond_true_stack m) (cond_false_stack m) (fake_cur_stree_stack m) (break_stack m) (fake_break_stack m) (switch_stack m) (remaining_cases m) (default_stack m) (continue_stack m) (goto_stack m) (backup m) (vars m) (heap_sms m).
Definition set_false_stack (x : stack) (m : machine) : machine :=
  Machine (cur_stree m) (true_stack m) x (pre_cond_stack m) (cond_true_stack m) (cond_false_stack m) (fake_cur_stree_stack m) (break_stack m) (fake_break_stack m) (switch_stack m) (remaining_cases m) (default_stack m) (continue_stack m) (goto_stack m) (backup m) (vars m) (heap_sms m).
Definition set_pre_cond_stack (x : stack) (m : machine) : machine :=
  Machine (cur_stree m) (true_stack m) (false_stack m) x (cond_true_stack m) (cond_false_stack m) (fake_cur_stree_stack m) (break_stack m) (fake_break_stack m) (switch_stack m) (remaining_cases m) (default_stack m) (continue_stack m) (goto_stack m) (backup m) (vars m) (heap_sms m).
Definition set_cond_true_stack (x : stack) (m : machine) : machine :=
  Machine (cur_stree m) (true_stack m) (false_stack m) (pre_cond_stack m) x (cond_false_stack m) (fake_cur_stree_stack m) (break_stack m) (fake_break_stack m) (switch_stack m) (remaining_cases m) (default_stack m) (continue_stack m) (goto_stack m) (backup m) (vars m) (heap_sms m).
Definition set_cond_false_stack (x : stack) (m : machine) : machine :=
  Machine (cur_stree m) (true_stack m) (false_stack m) (pre_cond_stack m) (cond_true_stack m) x (fake_cur_stree_stack m) (break_stack m) (fake_break_stack m) (switch_stack m) (remaining_cases m) (default_stack m) (continue_stack m) (goto_stack m) (backup m) (vars m) (heap_sms m).
Definition set_fake_cur_stree_stack (x : stack) (m : machine) : machine :=
  Machine (cur_stree m) (true_stack m) (false_stack m) (pre_cond_stack m) (cond_true_stack m) (cond_false_stack m) x (break_stack m) (fake_break_stack m) (switch_stack m) (remaining_cases m) (default_stack m) (continue_stack m) (goto_stack m) (backup m) (vars m) (heap_sms m).
Definition set_break_stack (x : stack) (m : machine) : machine :=
  Machine (cur_stree m) (true_stack m) (false_stack m) (pre_cond_stack m) (cond_true_stack m) (cond_false_stack m) (fake_cur_stree_stack m) x (fake_break_stack m) (switch_stack m) (remaining_cases m) (default_stack m) (continue_stack m) (goto_stack m) (backup m) (vars m) (heap_sms m).
Definition set_fake_break_stack (x : stack) (m : machine) : machine :=
  Machine (cur_stree m) (true_stack m) (false_stack m) (pre_cond_stack m) (cond_true_stack m) (cond_false_stack m) (fake_cur_stree_stack m) (break_stack m) x (switch_stack m) (remaining_cases m) (default_stack m) (continue_stack m) (goto_stack m) (backup m) (vars m) (heap_sms m).
Definition set_switch_stack (x : stack) (m : machine) : machine :=
  Machine (cur_stree m) (true_stack m) (false_stack m) (pre_cond_stack m) (cond_true_stack m) (cond_false_stack m) (fake_cur_stree_stack m) (break_stack m) (fake_break_stack m) x (remaining_cases m) (default_stack m) (continue_stack m) (goto_stack m) (backup m) (vars m) (heap_sms m).
Definition set_remaining_cases (x : list range_list) (m : machine) : machine :=
  Machine (cur_stree m) (true_stack m) (false_stack m) (pre_cond_stack m) (cond_true_stack m) (cond_false_stack m) (fake_cur_stree_stack m) (break_stack m) (fake_break_stack m) (switch_stack m) x (default_stack m) (continue_stack m) (goto_stack m) (backup m) (vars m) (heap_sms m).
Definition set_default_stack (x : stack) (m : machine) : machine :=
  Machine (cur_stree m) (true_stack m) (false_stack m) (pre_cond_stack m) (cond_true_stack m) (cond_false_stack m) (fake_cur_stree_stack m) (break_stack m) (fake_break_stack m) (switch_stack m) (remaining_cases m) x (continue_stack m) (goto_stack m) (backup m) (vars m) (heap_sms m).
Definition set_continue_stack (x : stack) (m : machine) : machine :=
  Machine (cur_stree m) (true_stack m) (false_stack m) (pre_cond_stack m) (cond_true_stack m) (cond_false_stack m) (fake_cur_stree_stack m) (break_stack m) (fake_break_stack m) (switch_stack m) (remaining_cases m) (default_stack m) x (goto_stack m) (backup m) (vars m) (heap_sms m).
Definition set_goto_stack (x : list named_stree) (m : machine) : machine :=
  Machine (cur_stree m) (true_stack m) (false_stack m) (pre_cond_stack m) (cond_true_stack m) (cond_false_stack m) (fake_cur_stree_stack m) (break_stack m) (fake_break_stack m) (switch_stack m) (remaining_cases m) (default_stack m) (continue_stack m) x (backup m) (vars m) (heap_sms m).
Definition set_backup (x : list backup_ptr) (m : machine) : machine :=
  Machine (cur_stree m) (true_stack m) (false_stack m) (pre_cond_stack m) (cond_true_stack m) (cond_false_stack m) (fake_cur_stree_stack m) (break_stack m) (fake_break_stack m) (switch_stack m) (remaining_cases m) (default_stack m) (continue_stack m) (goto_stack m) x (vars m) (heap_sms m).
Definition set_vars (x : variables) (m : machine) : machine :=
  Machine (cur_stree m) (true_stack m) (false_stack m) (pre_cond_stack m) (cond_true_stack m) (cond_false_stack m) (fake_cur_stree_stack m) (break_stack m) (fake_break_stack m) (switch_stack m) (remaining_cases m) (default_stack m) (continue_stack m) (goto_stack m) (backup m) x (heap_sms m).
Definition set_heap_sms (x : sms) (m : machine) : machine :=
  Machine (cur_stree m) (true_stack m) (false_stack m) (pre_cond_stack m) (cond_true_stack m) (cond_false_stack m) (fake_cur_stree_stack m) (break_stack m) (fake_break_stack m) (switch_stack m) (remaining_cases m) (default_stack m) (continue_stack m) (goto_stack m) (backup m) (vars m) x.

(** A machine before anything is parsed. *)
Definition empty_machine (h : sms) : machine := Machine [] [] [] [] [] [] [] [] [] [] [] [] [] [] [] (Variables 0 0 0 0 false 0 false false 0 0 false (Position 0 0) []) h.

(** ** Stacks: smatch_slist.c *)

Definition push_stree (st : stack) (stree : table) : stack := stree :: st.
Definition pop_stree (st : stack) : table * stack := (hd [] st, tl st).
Definition top_stree (st : stack) : table := hd [] st.

Definition overwrite_sm_state_stree_stack (st : stack) (sm : sm_state) : stack :=
  let '(stree, st) := pop_stree st in push_stree st (ins sm stree).

Definition delete_state_stree_stack (st : stack) (own : Z) (name : list Z) (sym : Z) : stack :=
  let '(stree, st) := pop_stree st in push_stree st (del (tracker own name sym) stree).

Definition get_sm_state_stree_stack (st : stack) (own : Z) (name : list Z) (sym : Z) : option sm_state :=
  let '(stree, st) := pop_stree st in tget (tracker own name sym) stree.

Definition set_state_stree (stree : table) (own : Z) (name : list Z) (sym state : Z) : SM (sm_state * table) :=
  new ← alloc_sm_state own name sym state; mret (new, ins new stree).

Definition set_state_stree_stack (st : stack) (own : Z) (name : list Z) (sym state : Z) : SM (sm_state * stack) :=
  let '(stree, st) := pop_stree st in
  r ← set_state_stree stree own name sym state; mret (r.1, push_stree st r.2).

(** and_stree_stack() *)
Definition and_stree_stack (st : stack) : stack :=
  let '(right_stree, st) := pop_stree st in foldl overwrite_sm_state_stree_stack st right_stree.

(** get_named_stree() gives the position, so that the table can be written. *)
Fixpoint get_named_stree (st : list named_stree) (name : list Z) (sym : Z) : option nat :=
  match st with
  | [] => None
  | tmp :: st =>
    if (ns_sym tmp =? sym) && bool_decide (strcmp (ns_name tmp) name = 0) then Some O
    else S <$> get_named_stree st name sym
  end.

Section checks.
Context `{Chk : Checks}.

(** A computation on the sm_states. *)
Definition run {A} (c : SM A) (m : machine) : A * machine :=
  let '(x, h) := c (heap_sms m) in (x, set_heap_sms h m).

(** or_stree_stack(): the two stacks afterwards. *)
Definition or_stree_stack (pre_conds : stack) (cur : table) (st : stack) : SM (stack * stack) :=
  let '(new, st) := pop_stree st in
  let '(old, st) := pop_stree st in
  let '(pre_stree, pre_conds) := pop_stree pre_conds in
  let pre_conds := push_stree pre_conds pre_stree in
  let res := overwrite old pre_stree in
  let tmp_stree := overwrite new cur in
  res ← merge_stree cur res tmp_stree;
  mret (pre_conds, push_stree st (minus pre_stree res)).

(** ** Reading *)

Definition is_unreachable (m : machine) : bool := bool_decide (cur_stree m = []).
Definition is_reachable (m : machine) : bool := negb (is_unreachable m).
Definition __path_is_null (m : machine) : bool := is_unreachable m.

(** There is no overlay outside of a merge. *)
Definition get_sm_state (m : machine) (own : Z) (name : list Z) (sym : Z) : option sm_state :=
  tget (tracker own name sym) (cur_stree m).

Definition __get_state (m : machine) (own : Z) (name : list Z) (sym : Z) : Z :=
  match get_sm_state m own name sym with Some sm => sm_st sm | None => 0 end.

Definition slist_has_state (l : list sm_state) (state : Z) : bool := existsb (fun sm => sm_st sm =? state) l.

Definition has_possible_state (m : machine) (own : Z) (name : list Z) (sym state : Z) : bool :=
  match get_sm_state m own name sym with
  | Some sm => slist_has_state (possible (info (heap_sms m) sm)) state
  | None => false
  end.

Definition get_possible_states (m : machine) (own : Z) (name : list Z) (sym : Z) : list sm_state :=
  match get_sm_state m own name sym with Some sm => possible (info (heap_sms m) sm) | None => [] end.

Definition get_all_states_from_stree (own : Z) (source : table) : table :=
  foldl (fun ret tmp => if owner tmp =? own then ins tmp ret else ret) [] source.

Definition get_all_states_stree (m : machine) (own : Z) : table := get_all_states_from_stree own (cur_stree m).

(** ** Fake states *)

Definition __save_pre_cond_states (m : machine) : machine :=
  set_pre_cond_stack (push_stree (pre_cond_stack m) (cur_stree m)) m.

Definition __discard_pre_cond_states (m : machine) : machine :=
  set_pre_cond_stack (pop_stree (pre_cond_stack m)).2 m.

Definition __use_pre_cond_states (m : machine) : machine :=
  let '(cur, st) := pop_stree (pre_cond_stack m) in set_cur_stree cur (set_pre_cond_stack st m).

Definition __push_fake_cur_stree (m : machine) : machine :=
  __save_pre_cond_states (set_fake_cur_stree_stack (push_stree (fake_cur_stree_stack m) []) m).

Definition __pop_fake_cur_stree (m : machine) : table * machine :=
  let m := __use_pre_cond_states m in
  let '(stree, st) := pop_stree (fake_cur_stree_stack m) in
  (stree, set_fake_cur_stree_stack st m).

Definition __free_fake_cur_stree (m : machine) : machine := (__pop_fake_cur_stree m).2.

Definition __swap_cur_stree (stree : table) (m : machine) : table * machine := (cur_stree m, set_cur_stree stree m).

(** ** Setting states *)

(** A name or a state that is NULL does nothing; the tracker hooks of a check are never
    registered. *)
Definition set_state (own : Z) (name : list Z) (sym state : Z) (m : machine) : option sm_state * machine :=
  if state =? 0 then (None, m)
  else if negb (own =? -1) && is_unreachable m then (None, m)
  else
    let m := match fake_cur_stree_stack m with
             | [] => m
             | st => let '(r, m) := run (set_state_stree_stack st own name sym state) m in
                     set_fake_cur_stree_stack r.2 m
             end in
    let '(r, m) := run (set_state_stree (cur_stree m) own name sym state) m in
    (Some r.1, set_cur_stree r.2 m).

Definition __set_sm (sm : sm_state) (m : machine) : machine :=
  if is_unreachable m then m
  else
    let m := match fake_cur_stree_stack m with
             | [] => m
             | st => set_fake_cur_stree_stack (overwrite_sm_state_stree_stack st sm) m
             end in
    set_cur_stree (ins sm (cur_stree m)) m.

Definition __set_sm_cur_stree (sm : sm_state) (m : machine) : machine :=
  if is_unreachable m then m else set_cur_stree (ins sm (cur_stree m)) m.

Definition __merge_stree_into_cur (stree : table) (m : machine) : machine :=
  foldl (fun m sm =>
    let '(merged, m) :=
      match tget sm (cur_stree m) with
      | Some orig => run (merge_sm_states orig sm) m
      | None => (sm, m)
      end in
    __set_sm merged m) m stree.

(** States that are NULL are 0. *)
Definition set_true_false_states (own : Z) (name : list Z) (sym true_state false_state : Z) (m : machine) : machine :=
  if (true_state =? 0) && (false_state =? 0) then m
  else if is_unreachable m then m
  else match cond_false_stack m, cond_true_stack m with
  | [], _ | _, [] => m
  | _, _ =>
    let m := if negb (true_state =? 0) then
               let '(r, m) := run (set_state_stree_stack (cond_true_stack m) own name sym true_state) m in
               set_cond_true_stack r.2 m
             else m in
    if negb (false_state =? 0) then
      let '(r, m) := run (set_state_stree_stack (cond_false_stack m) own name sym false_state) m in
      set_cond_false_stack r.2 m
    else m
  end.

Definition __set_true_false_sm (true_sm false_sm : option sm_state) (m : machine) : machine :=
  match true_sm, false_sm with
  | None, None => m
  | _, _ =>
    if is_unreachable m then m
    else match cond_false_stack m, cond_true_stack m with
    | [], _ | _, [] => m
    | _, _ =>
      let m := match true_sm with
               | Some sm => set_cond_true_stack (overwrite_sm_state_stree_stack (cond_true_stack m) sm) m
               | None => m
               end in
      match false_sm with
      | Some sm => set_cond_false_stack (overwrite_sm_state_stree_stack (cond_false_stack m) sm) m
      | None => m
      end
    end
  end.

(** The end of a path.  Under a fake table the states set on it are dropped. *)
Definition nullify_path (m : machine) : machine :=
  let m := match fake_cur_stree_stack m with
           | [] => m
           | _ => __push_fake_cur_stree (__free_fake_cur_stree m)
           end in
  set_cur_stree [] m.

(** "unnull_path" *)
Definition unnull_path : list Z := [117; 110; 110; 117; 108; 108; 95; 112; 97; 116; 104].

Definition __unnullify_path (m : machine) : machine :=
  if is_unreachable m then (set_state (-1) unnull_path 0 state_true m).2 else m.

(** ** Deleting states *)

Definition __delete_state (own : Z) (name : list Z) (sym : Z) (m : machine) : machine :=
  let m := set_cur_stree (del (tracker own name sym) (cur_stree m)) m in
  match cond_true_stack m with
  | [] => m
  | _ =>
    let m := set_pre_cond_stack (delete_state_stree_stack (pre_cond_stack m) own name sym) m in
    let m := set_cond_true_stack (delete_state_stree_stack (cond_true_stack m) own name sym) m in
    set_cond_false_stack (delete_state_stree_stack (cond_false_stack m) own name sym) m
  end.

(** The states of a symbol that goes out of scope, but for the checks that keep them. *)
Definition delete_all_states_stree_sym (stree : table) (sym : Z) : table :=
  foldl (fun t sm => del (tracker (owner sm) (sm_name sm) (sm_sym sm)) t) stree
    (filter (fun sm => sm_sym sm = sym /\ keep_out_of_scope (owner sm) = false) stree).

Definition delete_all_states_stree_stack_sym (st : stack) (sym : Z) : stack :=
  match st with
  | [] => []
  | _ => let '(stree, st) := pop_stree st in push_stree st (delete_all_states_stree_sym stree sym)
  end.

Definition __delete_all_states_sym (sym : Z) (m : machine) : machine :=
  let d st := delete_all_states_stree_stack_sym st sym in
  let m := set_cur_stree (delete_all_states_stree_sym (cur_stree m) sym) m in
  let m := set_true_stack (d (true_stack m)) m in
  let m := set_true_stack (d (true_stack m)) m in
  let m := set_false_stack (d (false_stack m)) m in
  let m := set_pre_cond_stack (d (pre_cond_stack m)) m in
  let m := set_cond_true_stack (d (cond_true_stack m)) m in
  let m := set_cond_false_stack (d (cond_false_stack m)) m in
  let m := set_fake_cur_stree_stack (d (fake_cur_stree_stack m)) m in
  let m := set_break_stack (d (break_stack m)) m in
  let m := set_fake_break_stack (d (fake_break_stack m)) m in
  let m := set_switch_stack (d (switch_stack m)) m in
  set_continue_stack (d (continue_stack m)) m.

(** ** Saving everything while another function is parsed *)

Definition save_all_states (m : machine) : machine :=
  let push p m := set_backup (p :: backup m) m in
  let m := set_cur_stree [] (push (PTable (cur_stree m)) m) in
  let m := set_true_stack [] (push (PStack (true_stack m)) m) in
  let m := set_false_stack [] (push (PStack (false_stack m)) m) in
  let m := set_pre_cond_stack [] (push (PStack (pre_cond_stack m)) m) in
  let m := set_cond_true_stack [] (push (PStack (cond_true_stack m)) m) in
  let m := set_cond_false_stack [] (push (PStack (cond_false_stack m)) m) in
  let m := set_fake_cur_stree_stack [] (push (PStack (fake_cur_stree_stack m)) m) in
  let m := set_break_stack [] (push (PStack (break_stack m)) m) in
  let m := set_fake_break_stack [] (push (PStack (fake_break_stack m)) m) in
  let m := set_switch_stack [] (push (PStack (switch_stack m)) m) in
  let m := set_remaining_cases [] (push (PCases (remaining_cases m)) m) in
  let m := set_default_stack [] (push (PStack (default_stack m)) m) in
  let m := set_continue_stack [] (push (PStack (continue_stack m)) m) in
  set_goto_stack [] (push (PGotos (goto_stack m)) m).

(** pop_backup(): a [void *], NULL if there is none.  A pointer is only read as what it
    was saved as when the calls are nested; [None] is any other use. *)
Definition pop_backup {A} (cast : backup_ptr -> option A) (null : A) (m : machine) : option (A * machine) :=
  match backup m with
  | [] => Some (null, m)
  | p :: l => match cast p with Some x => Some (x, set_backup l m) | None => None end
  end.

Definition as_table (p : backup_ptr) : option table := match p with PTable t => Some t | _ => None end.
Definition as_stack (p : backup_ptr) : option stack := match p with PStack t => Some t | _ => None end.
Definition as_cases (p : backup_ptr) : option (list range_list) := match p with PCases t => Some t | _ => None end.
Definition as_gotos (p : backup_ptr) : option (list named_stree) := match p with PGotos t => Some t | _ => None end.

Definition restore_all_states (m : machine) : option machine :=
  '(x, m) ← pop_backup as_gotos [] m; let m := set_goto_stack x m in
  '(x, m) ← pop_backup as_stack [] m; let m := set_continue_stack x m in
  '(x, m) ← pop_backup as_stack [] m; let m := set_default_stack x m in
  '(x, m) ← pop_backup as_cases [] m; let m := set_remaining_cases x m in
  '(x, m) ← pop_backup as_stack [] m; let m := set_switch_stack x m in
  '(x, m) ← pop_backup as_stack [] m; let m := set_fake_break_stack x m in
  '(x, m) ← pop_backup as_stack [] m; let m := set_break_stack x m in
  '(x, m) ← pop_backup as_stack [] m; let m := set_fake_cur_stree_stack x m in
  '(x, m) ← pop_backup as_stack [] m; let m := set_cond_false_stack x m in
  '(x, m) ← pop_backup as_stack [] m; let m := set_cond_true_stack x m in
  '(x, m) ← pop_backup as_stack [] m; let m := set_pre_cond_stack x m in
  '(x, m) ← pop_backup as_stack [] m; let m := set_false_stack x m in
  '(x, m) ← pop_backup as_stack [] m; let m := set_true_stack x m in
  '(x, m) ← pop_backup as_table [] m; Some (set_cur_stree x m).

Definition free_goto_stack (m : machine) : machine := set_goto_stack [] m.

(** free_every_single_sm_state(): the heap is empty, addresses are not used again. *)
Definition free_every_single_sm_state (h : sms) : sms := Sms ∅ (next_sm h) (next_stree_id h) [] (lineno h).

Definition clear_all_states (m : machine) : machine :=
  let m := nullify_path m in
  let m := set_true_stack [] m in
  let m := set_false_stack [] m in
  let m := set_pre_cond_stack [] m in
  let m := set_cond_true_stack [] m in
  let m := set_cond_false_stack [] m in
  let m := set_break_stack [] m in
  let m := set_fake_break_stack [] m in
  let m := set_switch_stack [] m in
  let m := set_continue_stack [] m in
  let m := set_fake_cur_stree_stack [] m in
  let m := free_goto_stack m in
  set_heap_sms (free_every_single_sm_state (heap_sms m)) m.

(** ** Conditions *)

Definition __push_cond_stacks (m : machine) : machine :=
  let m := set_cond_true_stack (push_stree (cond_true_stack m) []) m in
  let m := set_cond_false_stack (push_stree (cond_false_stack m) []) m in
  __push_fake_cur_stree m.

Definition __fold_in_set_states (m : machine) : machine :=
  let '(new_states, m) := __pop_fake_cur_stree m in
  foldl (fun m sm => __set_true_false_sm (Some sm) (Some sm) (__set_sm sm m)) m new_states.

Definition __free_set_states (m : machine) : machine := (__pop_fake_cur_stree m).2.

Definition __copy_cond_true_states (m : machine) : table * machine :=
  let '(ret, st) := pop_stree (cond_true_stack m) in (ret, set_cond_true_stack (push_stree st ret) m).

Definition __copy_cond_false_states (m : machine) : table * machine :=
  let '(ret, st) := pop_stree (cond_false_stack m) in (ret, set_cond_false_stack (push_stree st ret) m).

Definition __pop_cond_true_stack (m : machine) : table * machine :=
  let '(ret, st) := pop_stree (cond_true_stack m) in (ret, set_cond_true_stack st m).

Definition __pop_cond_false_stack (m : machine) : table * machine :=
  let '(ret, st) := pop_stree (cond_false_stack m) in (ret, set_cond_false_stack st m).

(** __use_cond_stack(): cur_stree and the two stacks. *)
Definition __use_cond_stack (st : stack) (m : machine) : stack * machine :=
  let '(cur, pre) := pop_stree (pre_cond_stack m) in
  let m := set_pre_cond_stack (push_stree pre cur) m in
  let '(stree, st) := pop_stree st in
  (push_stree st stree, set_cur_stree (overwrite stree cur) m).

Definition __use_cond_true_states (m : machine) : machine :=
  let '(st, m) := __use_cond_stack (cond_true_stack m) m in set_cond_true_stack st m.

Definition __use_cond_false_states (m : machine) : machine :=
  let '(st, m) := __use_cond_stack (cond_false_stack m) m in set_cond_false_stack st m.

Definition __negate_cond_stacks (m : machine) : machine :=
  let '(old_false, f) := pop_stree (cond_false_stack m) in
  let '(old_true, t) := pop_stree (cond_true_stack m) in
  set_cond_true_stack (push_stree t old_false) (set_cond_false_stack (push_stree f old_true) m).

Definition __and_cond_states (m : machine) : machine :=
  let m := set_cond_true_stack (and_stree_stack (cond_true_stack m)) m in
  let '(r, m) := run (or_stree_stack (pre_cond_stack m) (cur_stree m) (cond_false_stack m)) m in
  set_cond_false_stack r.2 (set_pre_cond_stack r.1 m).

Definition __or_cond_states (m : machine) : machine :=
  let '(r, m) := run (or_stree_stack (pre_cond_stack m) (cur_stree m) (cond_true_stack m)) m in
  let m := set_cond_true_stack r.2 (set_pre_cond_stack r.1 m) in
  set_cond_false_stack (and_stree_stack (cond_false_stack m)) m.

Definition __get_true_states (m : machine) : table := top_stree (cond_true_stack m).
Definition __get_false_states (m : machine) : table := top_stree (cond_false_stack m).

Definition __use_cond_states (m : machine) : machine :=
  let '(pre, st) := pop_stree (pre_cond_stack m) in
  let m := set_pre_cond_stack st m in
  let '(true_states, st) := pop_stree (cond_true_stack m) in
  let m := set_cur_stree (overwrite true_states pre) (set_cond_true_stack st m) in
  let '(false_states, st) := pop_stree (cond_false_stack m) in
  let m := set_cond_false_stack st m in
  set_false_stack (push_stree (false_stack m) (overwrite false_states pre)) m.

Definition __push_true_states (m : machine) : machine := set_true_stack (push_stree (true_stack m) (cur_stree m)) m.

Definition __use_false_states (m : machine) : machine :=
  let '(stree, st) := pop_stree (false_stack m) in set_cur_stree stree (set_false_stack st m).

Definition __discard_false_states (m : machine) : machine := set_false_stack (pop_stree (false_stack m)).2 m.

(** merge_stree(&cur_stree, stree) *)
Definition merge_into_cur (stree : table) (m : machine) : machine :=
  let '(cur, m) := run (merge_stree (cur_stree m) (cur_stree m) stree) m in set_cur_stree cur m.

Definition __merge_false_states (m : machine) : machine :=
  let '(stree, st) := pop_stree (false_stack m) in merge_into_cur stree (set_false_stack st m).

Definition update_stree_with_merged (m : machine) (stree : table) : table :=
  foldl (fun t sm => ins sm t) stree (omap (fun sm => tget sm (cur_stree m)) stree).

Definition update_fake_stree_with_merged (m : machine) : machine :=
  match fake_cur_stree_stack m with
  | [] => m
  | st => let '(stree, st) := pop_stree st in set_fake_cur_stree_stack (push_stree st (update_stree_with_merged m stree)) m
  end.

Definition __merge_true_states (m : machine) : machine :=
  let '(stree, st) := pop_stree (true_stack m) in
  update_fake_stree_with_merged (merge_into_cur stree (set_true_stack st m)).

(** ** Loops *)

Definition __push_continues (m : machine) : machine := set_continue_stack (push_stree (continue_stack m) []) m.
Definition __discard_continues (m : machine) : machine := set_continue_stack (pop_stree (continue_stack m)).2 m.

(** [stree] with the table [other] merged in: a NULL [stree] becomes a copy. *)
Definition merge_or_clone (stree other : table) (m : machine) : table * machine :=
  match stree with
  | [] => (other, m)
  | _ => run (merge_stree (cur_stree m) stree other) m
  end.

Definition __process_continues (m : machine) : machine :=
  let '(stree, st) := pop_stree (continue_stack m) in
  let '(stree, m) := merge_or_clone stree (cur_stree m) m in
  set_continue_stack (push_stree st stree) m.

Definition __merge_continues (m : machine) : machine :=
  let '(stree, st) := pop_stree (continue_stack m) in merge_into_cur stree (set_continue_stack st m).

Definition __push_breaks (m : machine) : machine :=
  let m := set_break_stack (push_stree (break_stack m) []) m in
  match fake_cur_stree_stack m with
  | [] => m
  | _ => set_fake_break_stack (push_stree (fake_break_stack m) []) m
  end.

Definition __process_breaks (m : machine) : machine :=
  let '(stree, st) := pop_stree (break_stack m) in
  let '(stree, m) := merge_or_clone stree (cur_stree m) m in
  let m := set_break_stack (push_stree st stree) m in
  match fake_cur_stree_stack m with
  | [] => m
  | fake =>
    let '(stree, st) := pop_stree (fake_break_stack m) in
    let '(stree, m) := merge_or_clone stree (top_stree fake) m in
    set_fake_break_stack (push_stree st stree) m
  end.

Definition __has_breaks (m : machine) : bool * machine :=
  let '(stree, st) := pop_stree (break_stack m) in
  (negb (bool_decide (stree = [])), set_break_stack (push_stree st stree) m).

(** The states of the breaks go on the fake table. *)
Definition fold_fake_breaks (stree : table) (m : machine) : machine :=
  set_fake_cur_stree_stack (foldl overwrite_sm_state_stree_stack (fake_cur_stree_stack m) stree) m.

Definition __merge_breaks (m : machine) : machine :=
  let '(stree, st) := pop_stree (break_stack m) in
  let m := merge_into_cur stree (set_break_stack st m) in
  match fake_cur_stree_stack m with
  | [] => m
  | _ =>
    let '(stree, st) := pop_stree (fake_break_stack m) in
    fold_fake_breaks (update_stree_with_merged m stree) (set_fake_break_stack st m)
  end.

Definition __use_breaks (m : machine) : machine :=
  let '(cur, st) := pop_stree (break_stack m) in
  let m := set_cur_stree cur (set_break_stack st m) in
  match fake_cur_stree_stack m with
  | [] => m
  | _ => let '(stree, st) := pop_stree (fake_break_stack m) in fold_fake_breaks stree (set_fake_break_stack st m)
  end.

(** ** Switches *)

(** get_absolute_rl() of the expression is [rl]. *)
Definition __save_switch_states (rl : range_list) (m : machine) : machine :=
  let m := set_remaining_cases (rl :: remaining_cases m) m in
  set_switch_stack (push_stree (switch_stack m) (cur_stree m)) m.

Definition have_remaining_cases (m : machine) : bool := negb (bool_decide (length (hd [] (remaining_cases m)) = O)).

(** __implied_case_stree() of smatch_implied.c, for one expression and case: the states of
    the case and what is left of the states of the switch. *)
Definition __merge_switches (implied_case_stree : table -> machine -> table * table * machine) (m : machine) : machine :=
  let '(stree, st) := pop_stree (switch_stack m) in
  match stree with
  | [] => set_switch_stack (push_stree st stree) m
  | _ =>
    let '(implied_stree, stree, m) := implied_case_stree stree (set_switch_stack st m) in
    let m := merge_into_cur implied_stree m in
    set_switch_stack (push_stree (switch_stack m) stree) m
  end.

Definition __discard_switches (m : machine) : machine :=
  set_switch_stack (pop_stree (switch_stack m)).2 (set_remaining_cases (tl (remaining_cases m)) m).

Definition __push_default (m : machine) : machine := set_default_stack (push_stree (default_stack m) []) m.

(** "has_default" *)
Definition has_default : list Z := [104; 97; 115; 95; 100; 101; 102; 97; 117; 108; 116].

Definition __set_default (m : machine) : machine :=
  let '(r, m) := run (set_state_stree_stack (default_stack m) 0 has_default 0 state_true) m in set_default_stack r.2 m.

Definition __has_default_case (m : machine) : bool := negb (bool_decide (top_stree (default_stack m) = [])).

Definition __pop_default (m : machine) : bool * machine :=
  let '(stree, st) := pop_stree (default_stack m) in (negb (bool_decide (stree = [])), set_default_stack st m).

(** ** Gotos *)

Definition __save_gotos (name : list Z) (sym : Z) (m : machine) : machine :=
  match get_named_stree (goto_stack m) name sym with
  | Some i =>
    match goto_stack m !! i with
    | Some ns =>
      let '(stree, m) := run (merge_stree (cur_stree m) (ns_stree ns) (cur_stree m)) m in
      set_goto_stack (<[i := NamedStree (ns_name ns) (ns_sym ns) stree]> (goto_stack m)) m
    | None => m
    end
  | None => set_goto_stack (goto_stack m ++ [NamedStree name sym (cur_stree m)]) m
  end.

Definition __merge_gotos (name : list Z) (sym : Z) (m : machine) : machine :=
  match get_named_stree (goto_stack m) name sym with
  | Some i => match goto_stack m !! i with Some ns => merge_into_cur (ns_stree ns) m | None => m end
  | None => m
  end.

(** ** Fake parameters *)

(** "__fake_param_" *)
Definition fake_param : list Z := [95; 95; 102; 97; 107; 101; 95; 112; 97; 114; 97; 109; 95].

(** strncmp() with the length of the prefix is 0. *)
Definition has_prefix (prefix name : list Z) : bool := bool_decide (take (length prefix) name = prefix).

(** __discard_fake_states(); the prefix has the address of the call, if there is one. *)
Definition __discard_fake_states (call : option (list Z)) (m : machine) : machine :=
  if __fake_state_cnt (vars m) =? 0 then m
  else
    let keep sm := negb (has_prefix (default fake_param call) (sm_name sm)) in
    let new := foldl (fun t sm => if keep sm then ins sm t else t) [] (cur_stree m) in
    set_vars (set___fake_state_cnt 0 (vars m)) (set_cur_stree new m).

End checks.
