(* ===== verification/MergeTheorems.v ===== *)
(** * The theorems about merging and about saving all states *)
From stdpp Require Import gmap.
From S2P Require Import Prelude Syntax RangeList Avl AvlFacts Stree StreeWorld Tables SmState Merge MergeFacts States.
#[local] Open Scope Z_scope.

Section theorems.
Context `{Chk : Checks}.

(** C6: merging two tables gives a table with exactly the keys of both.  The state of a key is
    the merge of its states on the two paths, where the check is asked for the state on a path
    that does not know the key, unless the check has a hook before merges.  A table that is
    NULL is the identity.  The hooks before merges set only the state they are asked about,
    and there is memory. *)
Theorem merge_stree_exact cur to stree w :
  local_hooks -> (forall w, out_of_memory w = false) ->
  wf_table (next_sm w) to -> wf_table (next_sm w) stree ->
  exists r w', merge_stree cur to stree w = (r, w') /\ wf_table (next_sm w') r /\
    (stree = [] -> r = to) /\ (to = [] -> r = stree) /\
    forall k, (tget k r = None <-> tget k to = None /\ tget k stree = None) /\
      (to <> [] -> stree <> [] -> pre_merge_hooks (owner k) = None -> tget k r <> None ->
       sm_st <$> tget k r = Some (merge_states (owner k) (matched_state cur to stree k) (matched_state cur stree to k))).
Proof.
  intros Hl Hm W1 W2. destruct (merge_stree cur to stree w) as [r w'] eqn:E. exists r, w'. split; [done|].
  destruct stree as [|b stree].
  { unfold merge_stree, merge_stree_base in E. rewrite Hm in E. injection E as <- <-. split; [done|]. split; [done|]. split; [by intros ->|].
    intros k. split; [by rewrite tget_nil; intuition|done]. }
  destruct to as [|a to].
  { unfold merge_stree, merge_stree_base in E. rewrite Hm, bool_decide_false in E by done. injection E as <- <-. split; [done|]. split; [done|]. split; [done|].
    intros k. split; [by rewrite tget_nil; intuition|done]. }
  apply (merge_stree_base_spec Hl Hm) in E as (_ & W & M); [|done..]. split; [done|]. split; [done|]. split; [done|].
  intros k. specialize (M k). destruct (tget k r) as [sm|].
  - destruct M as (H1 & _ & H2). split; [|intros _ _ Hn _; cbn; by rewrite H2]. split; [done|]. by intros [E1 E2]; destruct H1.
  - by split.
Qed.


(** C10: restore_all_states() brings back everything save_all_states() put away, whatever was done
    with the machine in between, if the list of saved pointers is as it was. *)
Theorem restore_all_states_saved m m' :
  backup m' = backup (save_all_states m) ->
    restore_all_states m' = Some (set_vars (vars m') (set_heap_sms (heap_sms m') m)).
Proof. intros E. destruct m, m'. cbn in E. subst. reflexivity. Qed.

End theorems.

(** ** A check

    Its states are sets of bits and merging is union; what is not known is 255.  The hook
    before a merge clears the highest bit. *)
Module Bits.

#[export] Instance checks : Checks := {|
  num_checks := 3;
  SMATCH_EXTRA := 2;
  dynamic_states := fun _ => false;
  state_name := fun _ => None;
  state_undefined := 255;
  state_merged := 255;
  state_true := 3;
  merge_funcs := [(1, Z.lor)];
  unmatched_state_funcs := [];
  pre_merge_hooks := fun own => if own =? 2 then
    Some (fun over cur sm other => [(owner sm, sm_name sm, sm_sym sm, Z.land (sm_st sm) 127)]) else None;
  stree_line := fun _ => 0;
  out_of_memory := fun _ => false;
  same_stree := fun _ _ => false;
  keep_out_of_scope := fun _ => false
|}.

Lemma hooks_local : local_hooks.
Proof.
  intros over cur sm other set. unfold call_pre_merge_hook. cbn. destruct (owner sm >=? 3); [by intros ?%elem_of_nil|].
  destruct (owner sm =? 2); [|by intros ?%elem_of_nil]. intros ->%list_elem_of_singleton. eauto.
Qed.

Definition sm (addr sym st : Z) : sm_state := SmState addr [120] 1 sym 7 st.

Definition one : table := [sm 1 8 1; sm 2 9 1].
Definition two : table := [sm 3 9 4].
Definition sample_sms : sms := Sms (list_to_map (map (fun s => (sm_addr s, SmInfo false None None None [s])) (one ++ two))) 4 0 [] 7.

End Bits.

Section witness.
Import Bits.

Lemma merge_stree_exact_witness :
  exists r w', merge_stree one one two sample_sms = (r, w') /\
    sm_st <$> tget (sm 0 9 0) r = Some 5 /\ sm_st <$> tget (sm 0 8 0) r = Some 255.
Proof.
  destruct (merge_stree_exact one one two sample_sms) as (r & w' & E & _ & _ & _ & H).
  - apply hooks_local.
  - done.
  - split; [by repeat constructor|]. repeat constructor; cbn; unfold USHRT_MAX; lia.
  - split; [by repeat constructor|]. repeat constructor; cbn; unfold USHRT_MAX; lia.
  - exists r, w'. split; [done|]. destruct (H (sm 0 9 0)) as [D9 H9]. destruct (H (sm 0 8 0)) as [D8 H8]. split.
    + rewrite H9; [done..|]. rewrite D9. by intros [? _].
    + rewrite H8; [done..|]. rewrite D8. by intros [? _].
Defined.

Lemma restore_all_states_saved_witness :
  let m := set_cur_stree one (empty_machine sample_sms) in
  let inner := clear_all_states (set_state 1 [121] 5 6 (__unnullify_path (save_all_states m))).2 in
  cur_stree inner = [] /\
    restore_all_states inner = Some (set_vars (vars m) (set_heap_sms (heap_sms inner) m)).
Proof.
  intros m inner. split; [by vm_compute|]. apply (restore_all_states_saved m inner). by vm_compute.
Defined.


End witness.
