(* ===== verification/Conditions.v ===== *)
(** * Conditions, smatch_conditions.c

    split_conditions() takes a condition apart at its logical operators and passes the
    parts to the checks, which say what holds if the part is true and if it is false.
    The states for the two outcomes of the condition are put together on cond_true_stack
    and cond_false_stack.

    The rest of the core, which conditions call, is the class [Core]: parsing
    expressions and statements, and what is known about an expression.  The stacks of
    expressions, which hooks read, and debug messages are left out. *)
From stdpp Require Import gmap.
From S2P Require Import Prelude Tokens Syntax RangeList Avl AvlFacts Stree StreeWorld Tables SmState Merge States.
#[local] Open Scope Z_scope.

Inductive hook_type : Set := CONDITION_HOOK | WHOLE_CONDITION_HOOK | LOGIC_HOOK | SELECT_HOOK | ASSIGNMENT_HOOK | RETURN_HOOK.

(** What conditions use of the rest of the program. *)
Class Core : Type := {
  __split_expr : expression -> machine -> machine;
  __split_stmt : statement -> machine -> machine;
  __split_label_stmt : statement -> machine -> machine;
  __process_post_op_stack : machine -> machine;
  __pass_to_client : hook_type -> option expression -> machine -> machine;
  __push_scope_hooks : machine -> machine;
  __call_scope_hooks : machine -> machine;
  strip_expr_set_parent : machine -> expression -> option expression;
  strip_expr : machine -> expression -> expression;
  expr_is_zero : machine -> expression -> bool;
  type_unsigned : expression -> bool;
  implied_condition_true : machine -> option expression -> bool;
  implied_condition_false : machine -> option expression -> bool;
  known_condition_true : machine -> option expression -> bool;
  known_condition_false : machine -> option expression -> bool
}.

Definition is_value (e : expression) : bool := match e with EXPR_VALUE _ => true | _ => false end.
Definition is_binop (e : expression) : bool := match e with EXPR_BINOP _ _ _ => true | _ => false end.
Definition is_postop (e : expression) : bool := match e with EXPR_POSTOP _ _ => true | _ => false end.

(** "__builtin_expect" *)
Definition builtin_expect : list Z := [95; 95; 98; 117; 105; 108; 116; 105; 110; 95; 101; 120; 112; 101; 99; 116].

Definition sym_name_is (name : list Z) (e : expression) : bool :=
  match e with EXPR_SYMBOL n => bool_decide (strcmp n name = 0) | _ => false end.

(** The statement of ({ ... }). *)
Definition get_expression_statement (e : expression) : option (list statement) :=
  match e with EXPR_PAREN (EXPR_STATEMENT (STMT_COMPOUND _ stmts)) => Some stmts | _ => None end.

Fixpoint strip_parens (e : expression) : expression :=
  match e with
  | EXPR_PAREN unop => match get_expression_statement e with Some _ => e | None => strip_parens unop end
  | _ => e
  end.

Definition compare_expression (left : expression) (op : op_tok) (right : expression) : expression :=
  EXPR_COMPARE op left right.

Definition make_op_unsigned (op : op_tok) : op_tok :=
  match op with
  | OP_LT => SPECIAL_UNSIGNED_LT
  | SPECIAL_LTE => SPECIAL_UNSIGNED_LTE
  | OP_GT => SPECIAL_UNSIGNED_GT
  | SPECIAL_GTE => SPECIAL_UNSIGNED_GTE
  | op => op
  end.

(** known_tf is 1, 0 or -1 when it is not known. *)
Definition negate_tf (known_tf : Z) : Z := if known_tf =? -1 then -1 else if known_tf =? 0 then 1 else 0.

Section core.
Context `{Chk : Checks} `{Cor : Core}.

Definition hackup_unsigned_compares (e : expression) : expression :=
  match e with
  | EXPR_COMPARE op l r => if type_unsigned e then EXPR_COMPARE (make_op_unsigned op) l r else e
  | _ => e
  end.

(** do_condition() *)
Definition do_condition (e : expression) (m : machine) : machine :=
  let m := __fold_in_set_states m in
  let m := __push_fake_cur_stree m in
  let m := __pass_to_client CONDITION_HOOK (Some e) m in
  __fold_in_set_states m.

(** What is parsed before the checks are asked, and what after: x++ and x-- come after. *)
Definition split_side (after : bool) (e : expression) (m : machine) : machine :=
  if eqb (is_postop e) after then __split_expr e m else m.

Definition split_sides (after : bool) (e : expression) (m : machine) : machine :=
  match e with
  | EXPR_COMPARE _ l r => split_side after r (split_side after l m)
  | _ => split_side after e m
  end.

Definition __set_confidence_implied (m : machine) : machine :=
  set_vars (set_confidence_implied (confidence_implied (vars m) + 1) (vars m)) m.

Definition __unset_confidence (m : machine) : machine :=
  set_vars (set_confidence_implied (confidence_implied (vars m) - 1) (vars m)) m.

(** The end of split_conditions(), for what is not taken apart. *)
Definition split_atom (e : expression) (known_tf : Z) (m : machine) : Z * machine :=
  let m := split_sides false e m in
  let m := do_condition e m in
  let m := split_sides true e m in
  let known_tf :=
    if truth (confidence_implied (vars m)) then
      let known_tf := if implied_condition_true m (Some e) then 1 else known_tf in
      if implied_condition_false m (Some e) then 0 else known_tf
    else if known_condition_true m (Some e) then 1
    else if known_condition_false m (Some e) then 0
    else known_tf in
  let m := __push_fake_cur_stree m in
  let m := __process_post_op_stack m in
  (known_tf, __fold_in_set_states m).

(** combine_strees() *)
Definition combine_strees (orig fake new : table) : table := overwrite new (overwrite fake (overwrite orig [])).

(** The last statement of ({ ... }) and its expression, if it is one. *)
Definition last_expression (s : statement) : option expression :=
  match s with
  | STMT_EXPRESSION e => e
  | STMT_LABEL _ _ (Some (STMT_EXPRESSION e)) => e
  | _ => None
  end.

Definition ends_in_expression (s : statement) : bool :=
  match s with STMT_EXPRESSION _ | STMT_LABEL _ _ (Some (STMT_EXPRESSION _)) => true | _ => false end.

Definition is_label (s : statement) : bool := match s with STMT_LABEL _ _ _ => true | _ => false end.

Section split.
(** split_conditions() for what is inside; [None] is NULL. *)
Context (split_conditions : option expression -> Z -> machine -> option (Z * machine)).

(** Whether the comparison was handled, with known_tf and the machine. *)
Definition handle_zero_comparisons (op : op_tok) (l r : expression) (known_tf : Z) (m : machine) : option (bool * Z * machine) :=
  let compare (tmp : expression) (m : machine) : option (bool * Z * machine) :=
    if op_eqb op SPECIAL_NOTEQUAL then
      '(known_tf, m) ← split_conditions (Some tmp) known_tf m; Some (true, known_tf, m)
    else if op_eqb op SPECIAL_EQUAL then
      '(known_tf, m) ← split_conditions (Some tmp) known_tf m;
      Some (true, negate_tf known_tf, __negate_cond_stacks m)
    else Some (false, known_tf, m) in
  if expr_is_zero m l then compare r (if is_value (strip_expr m l) then m else __split_expr l m)
  else if expr_is_zero m r then compare l (if is_value (strip_expr m l) then m else __split_expr r m)
  else Some (false, known_tf, m).

(** handle_compound_stmt(); an empty statement is a NULL dereference. *)
Definition handle_compound_stmt (stmts : list statement) (known_tf : Z) (m : machine) : option (Z * machine) :=
  match List.rev stmts with
  | [] => None
  | last :: init =>
    let init := List.rev init in
    if ends_in_expression last then
      let m := foldl (fun m s => __split_stmt s m) m init in
      let m := if is_label last then __split_label_stmt last m else m in
      split_conditions (last_expression last) known_tf m
    else split_conditions None known_tf (foldl (fun m s => __split_stmt s m) m stmts)
  end.

(** Whether it was ({ ... }) with an expression at the end. *)
Definition handle_expr_statement_conditions (e : expression) (known_tf : Z) (m : machine) : option (bool * Z * machine) :=
  let e := match e with EXPR_PAREN unop => unop | _ => e end in
  match e with
  | EXPR_STATEMENT (STMT_COMPOUND _ stmts) =>
    match List.rev stmts with
    | [] => Some (false, known_tf, m)
    | last :: init =>
      if ends_in_expression last then
        let m := __push_scope_hooks m in
        let m := foldl (fun m s => __split_stmt s m) m (List.rev init) in
        let m := if is_label last then __split_label_stmt last m else m in
        '(known_tf, m) ← split_conditions (last_expression last) known_tf m;
        Some (true, known_tf, __call_scope_hooks m)
      else Some (false, known_tf, m)
    end
  | _ => Some (false, known_tf, m)
  end.

Definition handle_logical (is_and : bool) (l r : expression) (known_tf : Z) (m : machine) : option (Z * machine) :=
  '(left_tf, m) ← split_conditions (Some l) (-1) m;
  let m := if is_and then __use_cond_true_states m else __use_cond_false_states m in
  let m := __push_cond_stacks m in
  let m := __save_pre_cond_states m in
  '(right_tf, m) ← split_conditions (Some r) (-1) m;
  let m := __discard_pre_cond_states m in
  let m := if is_and then __and_cond_states m else __or_cond_states m in
  let m := __use_cond_true_states m in
  let known_tf :=
    if is_and then
      let known_tf := if (left_tf =? 1) && (right_tf =? 1) then 1 else known_tf in
      if (left_tf =? 0) || (right_tf =? 0) then 0 else known_tf
    else
      let known_tf := if (left_tf =? 1) || (right_tf =? 1) then 1 else known_tf in
      if (left_tf =? 0) && (right_tf =? 0) then 0 else known_tf in
  Some (known_tf, m).

(** What is left of the two tables of one branch when its condition is implied. *)
Definition implied_branch (m : machine) (e : option expression) (a fake : table) (tf : table * table) : table * table :=
  let tf := if implied_condition_true m e then (overwrite fake a, []) else tf in
  if implied_condition_false m e then ([], overwrite fake a) else tf.

Definition handle_select (cond : expression) (on_true : option expression) (on_false : expression) (known_tf : Z) (m : machine) :
    option (Z * machine) :=
  let m := __save_pre_cond_states m in
  '(cond_tf, m) ← split_conditions (Some cond) (-1) m;
  let '(a_T, m) := __copy_cond_true_states m in
  let '(a_F, m) := __copy_cond_false_states m in
  let m := __use_cond_true_states m in
  let m := __push_cond_stacks m in
  let m := __push_fake_cur_stree m in
  '(true_tf, m) ← split_conditions on_true (-1) m;
  let m := __process_post_op_stack m in
  let '(a_T_b_fake, m) := __pop_fake_cur_stree m in
  let '(t, m) := __pop_cond_true_stack m in
  let a_T_b_T := combine_strees a_T a_T_b_fake t in
  let '(f, m) := __pop_cond_false_stack m in
  let a_T_b_F := combine_strees a_T a_T_b_fake f in
  let m := __use_cond_false_states m in
  let m := __push_cond_stacks m in
  let m := __push_fake_cur_stree m in
  '(false_tf, m) ← split_conditions (Some on_false) (-1) m;
  let '(a_F_c_fake, m) := __pop_fake_cur_stree m in
  let '(t, m) := __pop_cond_true_stack m in
  let a_F_c_T := combine_strees a_F a_F_c_fake t in
  let '(f, m) := __pop_cond_false_stack m in
  let a_F_c_F := combine_strees a_F a_F_c_fake f in
  let m := __use_pre_cond_states m in
  let '(a_T_b_T, a_T_b_F) := implied_branch m on_true a_T a_T_b_fake (a_T_b_T, a_T_b_F) in
  let '(a_F_c_T, a_F_c_F) := implied_branch m (Some on_false) a_F a_F_c_fake (a_F_c_T, a_F_c_F) in
  let '(a_T_b_T, m) := run (merge_stree (cur_stree m) a_T_b_T a_F_c_T) m in
  let '(a_T_b_F, m) := run (merge_stree (cur_stree m) a_T_b_F a_F_c_F) m in
  let m := (__pop_cond_true_stack m).2 in
  let m := (__pop_cond_false_stack m).2 in
  let m := __push_cond_stacks m in
  let m := foldl (fun m sm => __set_true_false_sm (Some sm) None m) m a_T_b_T in
  let m := foldl (fun m sm => __set_true_false_sm None (Some sm) m) m a_T_b_F in
  let m := __free_set_states m in
  let known_tf := if (cond_tf =? 1) && (true_tf =? 1) then 1 else known_tf in
  let known_tf := if (cond_tf =? 0) && (false_tf =? 0) then 0 else known_tf in
  Some (known_tf, m).

Definition handle_comma (l r : expression) (known_tf : Z) (m : machine) : option (Z * machine) :=
  split_conditions (Some r) known_tf (__split_expr l m).

(** The comparison that is parsed instead of a difference, if it is. *)
Definition handle_subtract_condition (l r : expression) : option expression :=
  if is_binop (strip_parens l) || is_binop (strip_parens r) then None
  else Some (compare_expression l SPECIAL_NOTEQUAL r).

(** handle_preop() for ! and for ({ ... }). *)
Definition handle_preop (e : expression) (known_tf : Z) (m : machine) : option (bool * Z * machine) :=
  match e with
  | EXPR_PREOP OP_NOT unop =>
    '(known_tf, m) ← split_conditions (Some unop) known_tf m;
    Some (true, negate_tf known_tf, __negate_cond_stacks m)
  | _ =>
    match get_expression_statement e with
    | Some stmts => '(known_tf, m) ← handle_compound_stmt stmts known_tf m; Some (true, known_tf, m)
    | None => Some (false, known_tf, m)
    end
  end.

(** ignore_builtin_expect() *)
Definition ignore_builtin_expect (fn : expression) (args : list expression) (known_tf : Z) (m : machine) : option (bool * Z * machine) :=
  if sym_name_is builtin_expect fn then
    '(known_tf, m) ← split_conditions (head args) known_tf m; Some (true, known_tf, m)
  else Some (false, known_tf, m).

(** What was not handled is passed to the checks. *)
Definition otherwise_atom (e : expression) (r : option (bool * Z * machine)) : option (Z * machine) :=
  '(handled, known_tf, m) ← r;
  if (handled : bool) then Some (known_tf, m) else Some (split_atom e known_tf m).

(** The body of split_conditions() for an expression that has been stripped. *)
Definition split_stripped (e : expression) (known_tf : Z) (m : machine) : option (Z * machine) :=
  '(handled, known_tf, m) ← handle_expr_statement_conditions e known_tf m;
  if (handled : bool) then Some (known_tf, m)
  else
    match e with
    | EXPR_BINOP OP_OR l r => handle_logical false l r known_tf m
    | EXPR_BINOP OP_SUB l r =>
      match handle_subtract_condition l r with
      | Some tmp => split_conditions (Some tmp) known_tf m
      | None => Some (split_atom e known_tf m)
      end
    | EXPR_LOGICAL is_and l r => handle_logical is_and l r known_tf (__pass_to_client LOGIC_HOOK (Some e) m)
    | EXPR_COMPARE op l r =>
      match hackup_unsigned_compares e with
      | EXPR_COMPARE op l r as e => otherwise_atom e (handle_zero_comparisons op l r known_tf m)
      | e => Some (split_atom e known_tf m)
      end
    | EXPR_CALL fn args => otherwise_atom e (ignore_builtin_expect fn args known_tf m)
    | EXPR_PREOP _ _ | EXPR_PAREN _ => otherwise_atom e (handle_preop e known_tf m)
    | EXPR_CONDITIONAL cond on_true on_false => handle_select cond on_true on_false known_tf m
    | EXPR_COMMA l r => handle_comma l r known_tf m
    | _ => Some (split_atom e known_tf m)
    end.

End split.

(** split_conditions(): [None] is a NULL dereference, or too little fuel. *)
Fixpoint split_conditions (fuel : nat) (e : option expression) (known_tf : Z) (m : machine) : option (Z * machine) :=
  match fuel with
  | O => None
  | S fuel =>
    match e ≫= strip_expr_set_parent m with
    | None => Some (known_tf, __fold_in_set_states m)
    | Some e => split_stripped (split_conditions fuel) e known_tf m
    end
  end.

(** ** Whole conditions *)

Definition __split_whole_condition_tf (fuel : nat) (e : option expression) (m : machine) : option (Z * machine) :=
  let m := __save_pre_cond_states m in
  let m := __push_cond_stacks m in
  '(known_tf, m) ← split_conditions fuel e (-1) m;
  let m := __use_cond_states m in
  Some (known_tf, __pass_to_client WHOLE_CONDITION_HOOK e m).

Definition __split_whole_condition (fuel : nat) (e : option expression) (m : machine) : option machine :=
  '(_, m) ← __split_whole_condition_tf fuel e m; Some m.

Definition __handle_logic (fuel : nat) (e : option expression) (m : machine) : option machine :=
  let m := __save_pre_cond_states m in
  let m := __push_cond_stacks m in
  '(_, m) ← match e with Some _ => split_conditions fuel e (-1) m | None => Some (-1, m) end;
  let m := __use_cond_states m in
  let m := __pass_to_client WHOLE_CONDITION_HOOK e m in
  Some (__merge_false_states m).

(** ** Assignments of conditions *)

(** is_condition(); [get_value] tells whether the expression is a constant. *)
Definition is_condition (get_value : expression -> bool) (m : machine) (e : expression) : bool :=
  let e := strip_expr m e in
  if get_value e then false
  else match e with
  | EXPR_LOGICAL _ _ _ | EXPR_COMPARE _ _ _ | EXPR_PREOP OP_NOT _ => true
  | _ => false
  end.

(** The states that [set_extra], which sets the left side to 0 or 1, sets over a table. *)
Definition set_bool (set_extra : Z -> machine -> machine) (v : Z) (stree : table) (m : machine) : table * machine :=
  let m := __push_fake_cur_stree m in
  let m := set_extra v m in
  let '(fake_stree, m) := __pop_fake_cur_stree m in
  (overwrite fake_stree stree, m).

(** '=' *)
Definition op_assign : Z := 61.

(** __handle_condition_assigns(): whether it was an assignment of a condition. *)
Definition __handle_condition_assigns (get_value : expression -> bool) (set_extra_expr_mod : expression -> Z -> machine -> machine)
    (fuel : nat) (op : Z) (l r : expression) (m : machine) : option (bool * machine) :=
  if negb (op =? op_assign) then Some (false, m)
  else if negb (is_condition get_value m r) then Some (false, m)
  else
    let right := strip_expr m r in
    let pre_stree := cur_stree m in
    let m := __save_pre_cond_states m in
    let m := __push_cond_stacks m in
    let m := __pass_to_client WHOLE_CONDITION_HOOK (Some right) m in
    '(_, m) ← split_conditions fuel (Some right) (-1) m;
    let true_stree := __get_true_states m in
    let false_stree := __get_false_states m in
    let m := __use_cond_states m in
    let '(true_stree, m) := set_bool (set_extra_expr_mod l) 1 true_stree m in
    let m := __push_true_states m in
    let m := __use_false_states m in
    let '(false_stree, m) := set_bool (set_extra_expr_mod l) 0 false_stree m in
    let m := __merge_true_states m in
    let '(orig, m) := __swap_cur_stree pre_stree m in
    let '(true_stree, m) := run (merge_fake_stree (cur_stree m) true_stree false_stree) m in
    let '(_, m) := __swap_cur_stree orig m in
    let m := foldl (fun m sm => __set_sm sm m) m true_stree in
    Some (true, __pass_to_client ASSIGNMENT_HOOK (Some (EXPR_ASSIGNMENT op l r)) m).

(** __handle_select_assigns(); [create_fake_assign] makes the assignment of the condition of
    x ?: y to a new variable, and NULL if it cannot. *)
Definition __handle_select_assigns (create_fake_assign : expression -> option (expression * expression))
    (fuel : nat) (op : Z) (l r : expression) (m : machine) : option (bool * machine) :=
  match strip_expr m r with
  | EXPR_CONDITIONAL cond on_true on_false as right =>
    if negb (op =? op_assign) then Some (false, m)
    else
      let parse_assign e m := __process_post_op_stack (__split_expr (EXPR_ASSIGNMENT op l e) m) in
      let m := __pass_to_client SELECT_HOOK (Some right) m in
      let is_true := implied_condition_true m (Some cond) in
      let is_false := implied_condition_false m (Some cond) in
      let go m :=
        let '(final_states, m) :=
          if negb is_false then
            let m := match on_true with Some e => parse_assign e m | None => m end in (cur_stree m, m)
          else ([], m) in
        let m := if is_true then __discard_false_states m else parse_assign on_false (__use_false_states m) in
        let '(final_states, m) := run (merge_stree (cur_stree m) final_states (cur_stree m)) m in
        let m := __use_pre_cond_states m in
        Some (true, foldl (fun m sm => __set_sm sm m) m final_states) in
      match on_true with
      | Some _ => m ← __split_whole_condition fuel (Some cond) (__save_pre_cond_states m); go m
      | None =>
        match create_fake_assign cond with
        | None => Some (false, m)
        | Some (fake_left, fake_right) =>
          m ← __split_whole_condition fuel (Some (EXPR_ASSIGNMENT op_assign fake_left fake_right)) (__save_pre_cond_states m);
          go (parse_assign fake_left m)
        end
      end
  | _ => Some (false, m)
  end.

End core.
