(* ===== verification/ConditionFacts.v ===== *)
(** * What a condition does to the states

    While a condition is parsed only cur_stree, the fake tables, the tables saved before
    it, the two tables of its outcomes and the heap change.  This file has these steps
    as equations, the contract of the checks, and the meaning of conditions. *)
From stdpp Require Import gmap.
From S2P Require Import Prelude Tokens Syntax RangeList Avl AvlFacts Stree StreeWorld Tables SmState Merge MergeFacts States Conditions.
#[local] Open Scope Z_scope.

(** ** The part of the machine that changes *)

Definition put (cur : table) (fake pre ct cf : stack) (h : sms) (m : machine) : machine :=
  set_cur_stree cur (set_fake_cur_stree_stack fake (set_pre_cond_stack pre
    (set_cond_true_stack ct (set_cond_false_stack cf (set_heap_sms h m))))).

Lemma put_self m :
  put (cur_stree m) (fake_cur_stree_stack m) (pre_cond_stack m) (cond_true_stack m) (cond_false_stack m) (heap_sms m) m = m.
Proof. by destruct m. Qed.

(** The fake tables when the states [e] are set. *)
Definition below (fake : stack) (e : table) : stack :=
  match fake with [] => [] | h :: t => overwrite e h :: t end.

Section checks.
Context `{Chk : Checks}.

Lemma overwrite_cons a e t : overwrite (a :: e) t = overwrite e (ins a t).
Proof. done. Qed.

Lemma fold_loop e : forall cur fake pre t ts f fs h m,
  cur <> [] ->
  foldl (fun m sm => __set_true_false_sm (Some sm) (Some sm) (__set_sm sm m)) (put cur fake pre (t :: ts) (f :: fs) h m) e =
  put (overwrite e cur) (below fake e) pre (overwrite e t :: ts) (overwrite e f :: fs) h m.
Proof.
  induction e as [|a e IH]; intros cur fake pre t ts f fs h m N; [by destruct fake|]. cbn [foldl].
  replace (__set_true_false_sm (Some a) (Some a) (__set_sm a (put cur fake pre (t :: ts) (f :: fs) h m)))
    with (put (ins a cur) (below fake [a]) pre (ins a t :: ts) (ins a f :: fs) h m).
  - rewrite IH by apply ins_not_nil. rewrite !overwrite_cons. by destruct fake.
  - unfold __set_sm, is_unreachable. cbn [cur_stree put set_cur_stree]. rewrite bool_decide_false by done.
    unfold __set_true_false_sm, is_unreachable. destruct fake; cbn; rewrite bool_decide_false by apply ins_not_nil; done.
Qed.

(** __fold_in_set_states() sets the states of the fake table for good, on both outcomes. *)
Lemma fold_in_put cur e fake q pre t ts f fs h m :
  q <> [] ->
  __fold_in_set_states (put cur (e :: fake) (q :: pre) (t :: ts) (f :: fs) h m) =
  put (overwrite e q) (below fake e) pre (overwrite e t :: ts) (overwrite e f :: fs) h m.
Proof. intros N. unfold __fold_in_set_states. cbn. by apply (fold_loop e q fake pre t ts f fs h m). Qed.

Lemma push_fake_put cur fake pre ct cf h m :
  __push_fake_cur_stree (put cur fake pre ct cf h m) = put cur ([] :: fake) (cur :: pre) ct cf h m.
Proof. done. Qed.

Lemma use_true_put cur fake p pre t ct cf h m :
  __use_cond_true_states (put cur fake (p :: pre) (t :: ct) cf h m) = put (overwrite t p) fake (p :: pre) (t :: ct) cf h m.
Proof. done. Qed.

Lemma use_false_put cur fake p pre ct f cf h m :
  __use_cond_false_states (put cur fake (p :: pre) ct (f :: cf) h m) = put (overwrite f p) fake (p :: pre) ct (f :: cf) h m.
Proof. done. Qed.

Lemma negate_put cur fake pre t ct f cf h m :
  __negate_cond_stacks (put cur fake pre (t :: ct) (f :: cf) h m) = put cur fake pre (f :: ct) (t :: cf) h m.
Proof. done. Qed.

Lemma and_stack t2 t1 ts : and_stree_stack (t2 :: t1 :: ts) = overwrite t2 t1 :: ts.
Proof.
  unfold and_stree_stack. cbn [pop_stree hd tl]. revert t1. induction t2 as [|a t2 IH]; intros t1; [done|]. exact (IH (ins a t1)).
Qed.

Lemma and_states_put cur fake p pre t2 t1 ct f2 f1 cf h m r h' :
  merge_stree cur (overwrite f1 p) (overwrite f2 cur) h = (r, h') ->
  __and_cond_states (put cur fake (p :: pre) (t2 :: t1 :: ct) (f2 :: f1 :: cf) h m) =
  put cur fake (p :: pre) (overwrite t2 t1 :: ct) (minus p r :: cf) h' m.
Proof.
  intros E. unfold __and_cond_states, run, or_stree_stack. cbn [cond_true_stack put set_cur_stree set_fake_cur_stree_stack
    set_pre_cond_stack set_cond_true_stack set_cond_false_stack set_heap_sms cond_false_stack pre_cond_stack cur_stree heap_sms pop_stree hd tl].
  unfold mbind, SM_bind. rewrite and_stack, E. done.
Qed.

Lemma or_states_put cur fake p pre t2 t1 ct f2 f1 cf h m r h' :
  merge_stree cur (overwrite t1 p) (overwrite t2 cur) h = (r, h') ->
  __or_cond_states (put cur fake (p :: pre) (t2 :: t1 :: ct) (f2 :: f1 :: cf) h m) =
  put cur fake (p :: pre) (minus p r :: ct) (overwrite f2 f1 :: cf) h' m.
Proof.
  intros E. unfold __or_cond_states, run, or_stree_stack. cbn [cond_true_stack put set_cur_stree set_fake_cur_stree_stack
    set_pre_cond_stack set_cond_true_stack set_cond_false_stack set_heap_sms cond_false_stack pre_cond_stack cur_stree heap_sms pop_stree hd tl].
  unfold mbind, SM_bind. rewrite E. cbn -[and_stree_stack]. by rewrite and_stack.
Qed.

End checks.

(** ** What the states mean *)

(** [true_of h t s]: the table [t], with the history that the heap [h] has of its states, says
    something true about the store [s].  The relation is whatever the checks promise to
    each other; it may speak of the pools and of the states of all checks. *)
Section truth.
Context {store : Type} (true_of : sms -> table -> store -> Prop).

(** The heap only grows, and no table of it becomes false. *)
Record grows (h h' : sms) : Prop := {
  grows_next : next_sm h <= next_sm h';
  grows_keeps t s : wf_table (next_sm h) t -> true_of h t s -> true_of h' t s
}.

Lemma grows_refl h : grows h h.
Proof. by split. Qed.

Lemma grows_trans h1 h2 h3 : grows h1 h2 -> grows h2 h3 -> grows h1 h3.
Proof. intros [L1 K1] [L2 K2]. split; [lia|]. intros t s W T. apply K2; [by eapply wf_table_le|auto]. Qed.

Lemma grows_wf h h' t : grows h h' -> wf_table (next_sm h) t -> wf_table (next_sm h') t.
Proof. intros [L _]. by apply wf_table_le. Qed.

(** The promise of the checks to the merging of tables: what was true on one of the two paths
    is true of the merged table. *)
Class MergeOk `{Chk : Checks} : Prop := {
  merge_true cur to stree h r h' s :
    wf_table (next_sm h) to -> wf_table (next_sm h) stree -> to <> [] -> stree <> [] -> merge_stree cur to stree h = (r, h') ->
    true_of h to s \/ true_of h stree s -> true_of h' r s;
  merge_keeps cur to stree h r h' t s :
    wf_table (next_sm h) to -> wf_table (next_sm h) stree -> to <> [] -> stree <> [] -> merge_stree cur to stree h = (r, h') ->
    wf_table (next_sm h) t -> true_of h t s -> true_of h' t s;
  hooks_are_local : local_hooks;
  memory_suffices w : out_of_memory w = false
}.

(** Merging two paths that can be reached. *)
Lemma merge_stree_true `{MOk : MergeOk} cur to stree h r h' :
  wf_table (next_sm h) to -> wf_table (next_sm h) stree -> to <> [] -> stree <> [] -> merge_stree cur to stree h = (r, h') ->
  grows h h' /\ wf_table (next_sm h') r /\ (forall k, merged_at cur to stree h h' k (tget k r)) /\
  forall s, true_of h to s \/ true_of h stree s -> true_of h' r s.
Proof.
  intros W1 W2 N1 N2 E. pose proof E as M. apply (merge_stree_base_spec hooks_are_local memory_suffices) in M as (L & W & M); [|done..].
  split; [split; [done|]|]; eauto using merge_keeps. split; [done|]. split; [done|]. eauto using merge_true.
Qed.

End truth.

(** A condition is a test of some expressions that are evaluated first, and increments
    that are done afterwards.  [eval] is the evaluation of an expression for its effects,
    [test] its truth, [post] what the increments do.  An expression is [plain] if parsing it
    only sets states: there is no statement in it and no call that does not return. *)
Class Meaning (store : Type) : Type := {
  plain : expression -> bool;
  eval : expression -> store -> store -> Prop;
  test : expression -> store -> bool -> Prop;
  post : store -> store -> Prop
}.

(** An expression that is passed to the checks as it is. *)
Definition is_prim (e : expression) : bool :=
  match e with
  | EXPR_LOGICAL _ _ _ | EXPR_COMMA _ _ | EXPR_CONDITIONAL _ _ _ | EXPR_STATEMENT _ | EXPR_PAREN _ | EXPR_PREOP OP_NOT _
  | EXPR_BINOP OP_OR _ _ | EXPR_POSTOP _ _ => false
  | EXPR_BINOP OP_SUB l r => match handle_subtract_condition l r with Some _ => false | None => true end
  | EXPR_CALL fn _ => negb (sym_name_is builtin_expect fn)
  | EXPR_COMPARE _ l r => negb (is_postop l) && negb (is_postop r)
  | _ => true
  end.

Section meaning.
Context {store : Type} `{Mean : Meaning store}.

Definition sides (e : expression) (s s' : store) : Prop :=
  match e with
  | EXPR_COMPARE _ l r => exists s1, eval l s s1 /\ eval r s1 s'
  | _ => eval e s s'
  end.

Definition plain_sides (e : expression) : bool :=
  match e with EXPR_COMPARE _ l r => plain l && plain r | _ => plain e end.

(** The outcomes of a condition: [exec e s b s'] if it can be [b] and leave [s']. *)
Inductive exec : expression -> store -> bool -> store -> Prop :=
  | exec_short (is_and : bool) l r s s' :
    exec l s (negb is_and) s' -> exec (EXPR_LOGICAL is_and l r) s (negb is_and) s'
  | exec_long (is_and : bool) l r s s1 b s' :
    exec l s is_and s1 -> exec r s1 b s' -> exec (EXPR_LOGICAL is_and l r) s b s'
  | exec_bitor l r s b1 s1 b2 s' :
    exec l s b1 s1 -> exec r s1 b2 s' -> exec (EXPR_BINOP OP_OR l r) s (b1 || b2) s'
  | exec_sub l r s b s' :
    handle_subtract_condition l r <> None ->
    exec (compare_expression l SPECIAL_NOTEQUAL r) s b s' -> exec (EXPR_BINOP OP_SUB l r) s b s'
  | exec_not e s b s' : exec e s b s' -> exec (EXPR_PREOP OP_NOT e) s (negb b) s'
  | exec_comma l r s s1 b s' : eval l s s1 -> exec r s1 b s' -> exec (EXPR_COMMA l r) s b s'
  | exec_expect fn e args s b s' :
    sym_name_is builtin_expect fn = true -> exec e s b s' -> exec (EXPR_CALL fn (e :: args)) s b s'
  | exec_paren e s b s' : exec e s b s' -> exec (EXPR_PAREN e) s b s'
  | exec_prim e s s1 b s' : is_prim e = true -> sides e s s1 -> test e s1 b -> post s1 s' -> exec e s b s'.

End meaning.

Section sound.
Context `{Chk : Checks} `{Cor : Core} {store : Type} `{Mean : Meaning store}.
Context (true_of : sms -> table -> store -> Prop).

(** A part of the core only sets states: the current table, true of a store before [effect], is
    true after it. *)
Definition sets_states (f : machine -> machine) (effect : store -> store -> Prop) : Prop :=
  forall c fake pre ct cf h m, c <> [] -> wf_table (next_sm h) c -> Forall sorted fake ->
  exists d h', f (put c fake pre ct cf h m) = put (overwrite d c) (below fake d) pre ct cf h' m /\
    grows true_of h h' /\ wf_table (next_sm h') d /\
    forall s s', true_of h c s -> effect s s' -> true_of h' (overwrite d c) s'.

(** The same for states that are also set over the tables of the two outcomes. *)
Definition sets_later (f : machine -> machine) (effect : store -> store -> Prop) : Prop :=
  forall c fake pre ct cf h m, c <> [] -> wf_table (next_sm h) c -> Forall sorted fake ->
  exists d h', f (put c fake pre ct cf h m) = put (overwrite d c) (below fake d) pre ct cf h' m /\
    grows true_of h h' /\ wf_table (next_sm h') d /\
    forall x s s', wf_table (next_sm h) x -> true_of h c s -> true_of h x s -> effect s s' -> true_of h' (overwrite d x) s'.

(** The checks, asked about a condition, set states [d], and [dt] or [df] for one outcome.  A
    check may set a state for one of the outcomes only, and the states need not be new. *)
Definition sets_outcomes (e : expression) : Prop :=
  forall c fake pre t ts f fs h m, c <> [] -> wf_table (next_sm h) c -> Forall sorted fake ->
  exists d dt df h',
    __pass_to_client CONDITION_HOOK (Some e) (put c fake pre (t :: ts) (f :: fs) h m) =
      put (overwrite d c) (below fake d) pre (overwrite dt t :: ts) (overwrite df f :: fs) h' m /\
    grows true_of h h' /\ wf_table (next_sm h') d /\ wf_table (next_sm h') dt /\ wf_table (next_sm h') df /\
    forall s b, true_of h c s -> test e s b ->
      true_of h' (overwrite d c) s /\ true_of h' (overwrite d (overwrite (if b then dt else df) c)) s.

(** On a path that cannot be reached no state is set. *)
Definition idle (f : machine -> machine) : Prop :=
  forall fake pre ct cf h m, exists h',
    f (put [] fake pre ct cf h m) = put [] fake pre ct cf h' m /\ grows true_of h h'.

(** The promise of the rest of the core. *)
Class CoreOk : Prop := {
  split_expr_sets e : plain e = true -> sets_states (__split_expr e) (eval e);
  split_expr_idle e : plain e = true -> idle (__split_expr e);
  post_op_idle : idle __process_post_op_stack;
  hook_idle hook e : idle (__pass_to_client hook e);
  post_op_sets : sets_later __process_post_op_stack post;
  logic_hook_sets e : sets_states (__pass_to_client LOGIC_HOOK e) eq;
  whole_hook_sets e : sets_states (__pass_to_client WHOLE_CONDITION_HOOK e) eq;
  condition_hook_sets e : is_prim e = true -> sets_outcomes e;
  known_true_is m e s b :
    true_of (heap_sms m) (cur_stree m) s ->
    known_condition_true m (Some e) = true \/ implied_condition_true m (Some e) = true -> test e s b -> b = true;
  known_false_is m e s b :
    true_of (heap_sms m) (cur_stree m) s ->
    known_condition_false m (Some e) = true \/ implied_condition_false m (Some e) = true -> test e s b -> b = false;
  unsigned_same op l r s b :
    type_unsigned (EXPR_COMPARE op l r) = true ->
    test (EXPR_COMPARE op l r) s b -> test (EXPR_COMPARE (make_op_unsigned op) l r) s b
}.

(** ** The conditions that are covered *)

(** The path can be reached and its states are true. *)
Definition here (m : machine) (s : store) : Prop := cur_stree m <> [] /\ true_of (heap_sms m) (cur_stree m) s.

(** A constant has no effects. *)
Definition no_effect (m : machine) (e : expression) : Prop := forall s, here m s -> eval e s s.

(** A comparison with 0 is a condition on the other side. *)
Definition zero_is (m : machine) (op : op_tok) (other e : expression) : Prop :=
  forall s b s', here m s -> exec e s b s' -> exec other s (if op_eqb op SPECIAL_EQUAL then negb b else b) s'.

(** [covered leaf n e]: parsing the stripped [e] takes [n] nested calls.  If [leaf] then there is
    no && or || in it that is taken apart.  Select expressions, ({ ... }) and x++ are left
    out, the right side of &&, || and | is a leaf, and that of | has no effects. *)
Inductive covered : bool -> nat -> expression -> Prop :=
  | covered_logical n is_and l r : strips false n l -> strips true n r -> covered false (S n) (EXPR_LOGICAL is_and l r)
  | covered_bitor n l r :
    strips false n l -> strips true n r -> (forall s b s', exec r s b s' -> s' = s) -> covered false (S n) (EXPR_BINOP OP_OR l r)
  | covered_sub leaf n l r e :
    handle_subtract_condition l r = Some e -> strips leaf n e -> covered leaf (S n) (EXPR_BINOP OP_SUB l r)
  | covered_not leaf n e : strips leaf n e -> covered leaf (S n) (EXPR_PREOP OP_NOT e)
  | covered_comma leaf n l r : plain l = true -> strips leaf n r -> covered leaf (S n) (EXPR_COMMA l r)
  | covered_expect leaf n fn e args :
    sym_name_is builtin_expect fn = true -> strips leaf n e -> covered leaf (S n) (EXPR_CALL fn (e :: args))
  | covered_compare leaf n op l r :
    is_prim (EXPR_COMPARE op l r) = true -> plain l = true -> plain r = true ->
    (forall m, expr_is_zero m l = true -> no_effect m l /\
       (op = SPECIAL_EQUAL \/ op = SPECIAL_NOTEQUAL -> strips leaf n r /\ zero_is m op r (EXPR_COMPARE op l r))) ->
    (forall m, expr_is_zero m l = false -> expr_is_zero m r = true -> no_effect m r /\
       (op = SPECIAL_EQUAL \/ op = SPECIAL_NOTEQUAL -> strips leaf n l /\ zero_is m op l (EXPR_COMPARE op l r))) ->
    covered leaf (S n) (EXPR_COMPARE op l r)
  | covered_prim leaf n e :
    is_prim e = true -> plain e = true -> (forall op l r, e <> EXPR_COMPARE op l r) -> covered leaf (S n) e
with strips : bool -> nat -> expression -> Prop :=
  | Strips leaf n e :
    (forall m, exists e', strip_expr_set_parent m e = Some e' /\ covered leaf n e' /\
       (forall s b s', here m s -> exec e s b s' -> exec e' s b s')) ->
    strips leaf n e.

End sound.
