(* ===== verification/ConditionSound.v ===== *)
(** * Conditions are taken apart correctly

    The invariant of split_conditions(), and its proof for every condition that is
    [covered].  With [p] the table before the condition, [t] and [f] the tables of the
    two outcomes and [c] cur_stree after it, [p] overwritten with [t] is true when the
    condition was.  or_stree_stack() puts the outcome of the right side of && or || over
    [c] instead: for a leaf this is the same table. *)
From stdpp Require Import gmap.
From S2P Require Import Prelude Tokens Syntax RangeList Avl AvlFacts Stree StreeWorld Tables SmState Merge MergeFacts States Conditions ConditionFacts.
#[local] Open Scope Z_scope.

(** ** Tables *)

Lemma overwrite_not_nil d t : t <> [] -> overwrite d t <> [].
Proof. intros N [_ E]%overwrite_nil. done. Qed.

Lemma overwrite_overwrite a b t : sorted a -> sorted b -> sorted t -> overwrite a (overwrite b t) = overwrite (overwrite a b) t.
Proof.
  intros Sa Sb St. apply tget_ext; [by repeat apply sorted_overwrite..|]. intros k.
  rewrite !tget_overwrite by (done || by apply sorted_overwrite). by rewrite orelse_assoc.
Qed.

Lemma overwrite_nil_r t : sorted t -> overwrite t [] = t.
Proof.
  intros S. apply tget_ext; [by apply sorted_overwrite; constructor|done|]. intros k. by rewrite tget_overwrite, tget_nil, orelse_none.
Qed.

Lemma below_overwrite fake a b :
  Forall sorted fake -> sorted a -> sorted b -> below (below fake b) a = below fake (overwrite a b).
Proof. intros F Sa Sb. destruct F; [done|]. cbn. by rewrite overwrite_overwrite. Qed.

Lemma below_sorted fake e : Forall sorted fake -> Forall sorted (below fake e).
Proof. intros F. destruct F; [constructor|]. constructor; [by apply sorted_overwrite|done]. Qed.

Lemma below_app fake a b : below (below fake a) b = below fake (a ++ b).
Proof. destruct fake; [done|]. cbn. unfold overwrite. by rewrite foldl_app. Qed.

Lemma below_nil fake : below fake [] = fake.
Proof. by destruct fake. Qed.

(** What is set for an outcome hides what is set for both. *)
Lemma overwrite_atom d3 d2 x e1 p :
  sorted d3 -> sorted d2 -> sorted x -> sorted e1 -> sorted p ->
  let t := overwrite d3 (overwrite d2 (overwrite x e1)) in
  overwrite t p = overwrite d3 (overwrite d2 (overwrite x (overwrite e1 p))) /\
  overwrite t (overwrite d3 (overwrite d2 (overwrite e1 p))) = overwrite t p.
Proof.
  intros S3 S2 Sx S1 Sp t. split; apply tget_ext; try (by repeat apply sorted_overwrite); intros k; unfold t;
    rewrite !tget_overwrite by (repeat apply sorted_overwrite; done);
    by destruct (tget k d3), (tget k d2), (tget k x), (tget k e1).
Qed.

(** filter_stree() and the table before: the merged table comes back. *)
Lemma overwrite_minus `{Chk : Checks} cur to stree h h' p r :
  sorted p -> sorted r -> (forall k, merged_at cur to stree h h' k (tget k r)) -> (forall k, tget k to = None -> tget k p = None) ->
  overwrite (minus p r) p = r.
Proof.
  intros Sp Sr M N. apply tget_ext; [by apply sorted_overwrite|done|]. intros k.
  rewrite tget_overwrite, tget_minus by (done || by apply sorted_minus). specialize (M k).
  destruct (tget k r) as [x|] eqn:Er; [|apply N, M]. destruct (decide (x ∈ p)) as [Hin|]; [|done]. cbn [orelse].
  rewrite <- (tget_elem x p Sp Hin). apply tget_key. by apply tget_some in Er as [_ ?].
Qed.

(** known_tf is right. *)
Definition known (tf : Z) (b : bool) : Prop := tf = -1 \/ (tf = 1 /\ b = true) \/ (tf = 0 /\ b = false).

Section sound.
Context `{Chk : Checks} `{Cor : Core} {store : Type} `{Mean : Meaning store}.
Context (true_of : sms -> table -> store -> Prop) `{MOk : !MergeOk true_of} `{COk : !CoreOk true_of}.

#[local] Abbreviation covered := (covered true_of).
#[local] Abbreviation strips := (strips true_of).
#[local] Abbreviation grows := (grows true_of).
#[local] Abbreviation sets_states := (sets_states true_of).
#[local] Abbreviation idle := (idle true_of).

(** ** The invariant *)

(** What [split] makes of a machine in which the states [e] have been set since the table [p]
    was saved, for a condition with the meaning [sem]. *)
Definition parses_at (leaf : bool) (sem : store -> bool -> store -> Prop) (split : Z -> machine -> option (Z * machine))
    (e : table) (fake : stack) (p : table) (pre ct cf : stack) (h : sms) (m : machine) : Prop :=
  p <> [] -> wf_table (next_sm h) p -> wf_table (next_sm h) e -> Forall sorted fake ->
  exists tf' t f c e' h',
    split (-1) (put (overwrite e p) (e :: fake) (p :: p :: pre) ([] :: ct) ([] :: cf) h m) =
      Some (tf', put c (below fake e') (p :: pre) (t :: ct) (f :: cf) h' m) /\
    grows h h' /\ wf_table (next_sm h') t /\ wf_table (next_sm h') f /\ wf_table (next_sm h') c /\
    (leaf = true -> overwrite t c = overwrite t p /\ overwrite f c = overwrite f p) /\
    forall s b s', true_of h (overwrite e p) s -> sem s b s' ->
      known tf' b /\ true_of h' (overwrite (if b then t else f) p) s'.

Definition parses leaf sem split : Prop :=
  forall e fake p pre ct cf h m, parses_at leaf sem split e fake p pre ct cf h m.

(** ** Setting states one after the other *)

Lemma later_sets f r : sets_later true_of f r -> sets_states f r.
Proof.
  intros F c fake pre ct cf h m N W Sf. destruct (F c fake pre ct cf h m N W Sf) as (d & h' & E & G & Wd & H).
  exists d, h'. split; [done|]. split; [done|]. split; [done|]. intros s s' D R. by apply (H c s s').
Qed.

Lemma sets_then f g (r q : store -> store -> Prop) :
  sets_states f r -> sets_states g q ->
  sets_states (fun m => g (f m)) (fun s s' => exists s1, r s s1 /\ q s1 s').
Proof.
  intros F G c fake pre ct cf h m N W Sf.
  destruct (F c fake pre ct cf h m N W Sf) as (d1 & h1 & -> & L1 & W1 & M1). pose proof W1 as [S1 _]. pose proof W as [Sc _].
  destruct (G (overwrite d1 c) (below fake d1) pre ct cf h1 m) as (d2 & h2 & -> & L2 & W2 & M2).
  { by apply overwrite_not_nil. } { apply wf_overwrite; [done|by eapply grows_wf]. } { by apply below_sorted. }
  pose proof W2 as [S2 _]. exists (overwrite d2 d1), h2.
  rewrite overwrite_overwrite, below_overwrite by done. split; [done|]. split; [by eapply grows_trans|].
  split; [apply wf_overwrite; [done|by eapply grows_wf]|].
  intros s s' D (s1 & R1 & R2). rewrite <- overwrite_overwrite by done. eauto.
Qed.

(** ** Conditions that are passed to the checks *)

Lemma prim_not_postop e : is_prim e = true -> is_postop e = false.
Proof. by destruct e. Qed.

Lemma prim_sides_after e m : is_prim e = true -> split_sides true e m = m.
Proof.
  intros P. destruct e; try reflexivity; try discriminate P. cbn in P. unfold split_sides, split_side. apply andb_prop in P as [->%negb_true_iff ->%negb_true_iff]. done.
Qed.

Lemma prim_sides_before e :
  is_prim e = true -> plain_sides e = true -> sets_states (split_sides false e) (sides e).
Proof.
  intros P Pl. pose proof (prim_not_postop e P) as N. destruct e; try discriminate P; try exact (split_expr_sets true_of _ Pl).
  cbn in P, Pl. apply andb_prop in P as [Hl%negb_true_iff Hr%negb_true_iff]. apply andb_prop in Pl as [P1 P2].
  unfold split_sides, split_side. rewrite Hl, Hr. cbn [eqb].
  apply (sets_then (__split_expr _) (__split_expr _)); by apply (split_expr_sets true_of).
Qed.

(** What the end of split_conditions() knows. *)
Lemma known_tf_is m e s b :
  true_of (heap_sms m) (cur_stree m) s -> test e s b ->
  let tf := if truth (confidence_implied (vars m)) then
              if implied_condition_false m (Some e) then 0 else if implied_condition_true m (Some e) then 1 else -1
            else if known_condition_true m (Some e) then 1 else if known_condition_false m (Some e) then 0 else -1 in
  known tf b.
Proof.
  intros D T. pose proof (known_true_is true_of m e s b D) as Kt. pose proof (known_false_is true_of m e s b D) as Kf.
  destruct (truth (confidence_implied (vars m))).
  - destruct (implied_condition_false m (Some e)), (implied_condition_true m (Some e)); unfold known; naive_solver.
  - destruct (known_condition_false m (Some e)), (known_condition_true m (Some e)); unfold known; naive_solver.
Qed.

Lemma exec_prim_inv e s b s' :
  is_prim e = true -> exec e s b s' -> exists s1, sides e s s1 /\ test e s1 b /\ post s1 s'.
Proof.
  intros P X. inversion X; subst; try discriminate P; eauto.
  - cbn in P. by destruct (handle_subtract_condition l r).
  - cbn in P. by rewrite H in P.
Qed.

Lemma parses_atom leaf e : is_prim e = true -> plain_sides e = true -> parses leaf (exec e) (fun tf m => Some (split_atom e tf m)).
Proof.
  intros P Pl e0 fake p pre ct cf h m Np Wp We Sf. pose proof Wp as [Sp _]. pose proof We as [Se _].
  unfold split_atom, do_condition. rewrite (prim_sides_after e _ P).
  destruct (prim_sides_before e P Pl (overwrite e0 p) (e0 :: fake) (p :: p :: pre) ([] :: ct) ([] :: cf) h m)
    as (d1 & h1 & -> & L1 & W1 & M1); [by apply overwrite_not_nil|by apply wf_overwrite|by constructor|].
  pose proof W1 as [S1 _]. cbn [below]. rewrite fold_in_put by done. set (e1 := overwrite d1 e0).
  assert (wf_table (next_sm h1) e1) as We1 by (apply wf_overwrite; [done|by eapply grows_wf]). pose proof We1 as [Se1 _].
  assert (wf_table (next_sm h1) (overwrite e1 p)) as Wc1 by (apply wf_overwrite; [done|by eapply grows_wf]).
  rewrite overwrite_nil_r, push_fake_put by done.
  destruct (condition_hook_sets true_of e P (overwrite e1 p) ([] :: below fake e1) (overwrite e1 p :: p :: pre) e1 ct e1 cf h1 m)
    as (d2 & dt & df & h2 & -> & L2 & W2 & Wt & Wf & M2).
  { by apply overwrite_not_nil. } { done. } { constructor; [constructor|by apply below_sorted]. }
  pose proof W2 as [S2 _]. pose proof Wt as [St _]. pose proof Wf as [Sdf _]. pose proof (grows_wf _ _ _ _ L2 Wc1) as Wc2.
  cbn [below]. rewrite fold_in_put by (by apply overwrite_not_nil). rewrite overwrite_nil_r, push_fake_put by done.
  destruct (post_op_sets true_of (overwrite d2 (overwrite e1 p)) ([] :: below (below fake e1) d2) (overwrite d2 (overwrite e1 p) :: p :: pre)
    (overwrite d2 (overwrite dt e1) :: ct) (overwrite d2 (overwrite df e1) :: cf) h2 m) as (d3 & h3 & -> & L3 & W3 & M3).
  { by repeat apply overwrite_not_nil. } { by apply wf_overwrite. } { constructor; [constructor|by repeat apply below_sorted]. }
  pose proof W3 as [S3 _]. cbn [below]. rewrite fold_in_put by (by repeat apply overwrite_not_nil). rewrite overwrite_nil_r by done.
  rewrite !below_app, <- app_assoc.
  destruct (overwrite_atom d3 d2 dt e1 p S3 S2 St Se1 Sp) as [Et Lt]. destruct (overwrite_atom d3 d2 df e1 p S3 S2 Sdf Se1 Sp) as [Ef Lf].
  pose proof (grows_trans _ _ _ _ L2 L3) as L23.
  eexists _, _, _, _, (e1 ++ d2 ++ d3), h3. split; [reflexivity|]. split; [exact (grows_trans _ _ _ _ L1 L23)|].
  pose proof (grows_wf _ _ _ _ L3 W2). pose proof (grows_wf _ _ _ _ L3 Wt). pose proof (grows_wf _ _ _ _ L3 Wf).
  pose proof (grows_wf _ _ _ _ L23 We1). pose proof (grows_wf _ _ _ _ L23 (grows_wf _ _ _ _ L1 Wp)). do 3 (split; [by repeat (done || apply wf_overwrite)|]).
  split; [done|]. intros s b s' D (s1 & X1 & X2 & X3)%exec_prim_inv; [|done].
  assert (true_of h1 (overwrite e1 p) s1) as D1 by (unfold e1; rewrite <- overwrite_overwrite by done; eauto).
  destruct (M2 s1 b D1 X2) as [D2 Db]. split; [by apply (known_tf_is _ e s1 b)|].
  assert (true_of h3 (overwrite d3 (overwrite d2 (overwrite (if b then dt else df) (overwrite e1 p)))) s') as Main.
  { apply (M3 _ s1); [|done..]. repeat (done || apply wf_overwrite); by destruct b. }
  destruct b; [by rewrite Et|by rewrite Ef].
Qed.

(** ** && and || *)

(** The steps of handle_logical() after its right side. *)
Definition join (is_and : bool) (m : machine) : machine :=
  __use_cond_true_states (if is_and then __and_cond_states m else __or_cond_states m).

Lemma join_put (is_and : bool) cur fake p pre t2 t1 ct f2 f1 cf h m r h' :
  let '(a1, b1, a2, b2) := if is_and then (t1, f1, t2, f2) else (f1, t1, f2, t2) in
  merge_stree cur (overwrite b1 p) (overwrite b2 cur) h = (r, h') ->
  join is_and (put cur fake (p :: pre) (t2 :: t1 :: ct) (f2 :: f1 :: cf) h m) =
  let a := overwrite a2 a1 in
  let b := minus p r in
  let t := if is_and then a else b in
  let f := if is_and then b else a in
  put (overwrite t p) fake (p :: pre) (t :: ct) (f :: cf) h' m.
Proof.
  destruct is_and; intros E; unfold join; [erewrite and_states_put by exact E|erewrite or_states_put by exact E]; by rewrite use_true_put.
Qed.

(** known_tf of the two sides and of the whole. *)
Lemma logical_known (is_and b : bool) (tf1 tf2 : Z) :
  (known tf1 (negb is_and) /\ b = negb is_and) \/ (known tf1 is_and /\ known tf2 b) ->
  known (if is_and then if (tf1 =? 0) || (tf2 =? 0) then 0 else if (tf1 =? 1) && (tf2 =? 1) then 1 else -1
         else if (tf1 =? 0) && (tf2 =? 0) then 0 else if (tf1 =? 1) || (tf2 =? 1) then 1 else -1) b.
Proof.
  unfold known. destruct is_and, b; cbn [negb]; intros [[[->|[[-> ?]|[-> ?]]] ?]|[[->|[[-> ?]|[-> ?]]] [->|[[-> ?]|[-> ?]]]]]; cbn; auto; try congruence;
    by destruct (tf2 =? 0), (tf2 =? 1); auto.
Qed.

(** The tables after && or ||: [a1] leads to the right side and [a2] on, [b1] and [b2] end it. *)
Lemma logical_tables p a1 b1 a2 b2 c2 h2 :
  p <> [] -> wf_table (next_sm h2) p -> wf_table (next_sm h2) a1 -> wf_table (next_sm h2) b1 -> wf_table (next_sm h2) a2 -> wf_table (next_sm h2) b2 ->
  overwrite b2 c2 = overwrite b2 (overwrite a1 p) ->
  exists r h3, merge_stree c2 (overwrite b1 p) (overwrite b2 c2) h2 = (r, h3) /\ grows h2 h3 /\
    wf_table (next_sm h3) (overwrite a2 a1) /\ wf_table (next_sm h3) (minus p r) /\
    (forall s, true_of h2 (overwrite a2 (overwrite a1 p)) s -> true_of h3 (overwrite (overwrite a2 a1) p) s) /\
    (forall s, true_of h2 (overwrite b1 p) s \/ true_of h2 (overwrite b2 (overwrite a1 p)) s -> true_of h3 (overwrite (minus p r) p) s).
Proof.
  intros Np Wp Wa1 Wb1 Wa2 Wb2 ->. pose proof Wp as [Sp _]. pose proof Wa1 as [Sa1 _]. pose proof Wa2 as [Sa2 _]. pose proof Wb1 as [Sb1 _].
  destruct (merge_stree c2 (overwrite b1 p) (overwrite b2 (overwrite a1 p)) h2) as [r h3] eqn:E. exists r, h3. split; [done|].
  apply (merge_stree_true true_of) in E as (G & Wr & M & T); [|by repeat apply wf_overwrite|by repeat apply wf_overwrite|by repeat apply overwrite_not_nil|by repeat apply overwrite_not_nil].
  split; [done|]. split; [apply wf_overwrite; by eapply grows_wf|]. split; [by apply wf_minus|]. split; intros s H.
  - rewrite <- overwrite_overwrite by done. eapply grows_keeps; [done|by repeat apply wf_overwrite|done].
  - rewrite (overwrite_minus _ _ _ _ _ _ _ Sp (proj1 Wr) M); [by apply T|].
    intros k. rewrite tget_overwrite by done. by destruct (tget k b1).
Qed.

Lemma parses_logical split (is_and : bool) l r (sem : store -> bool -> store -> Prop) :
  (forall s b s', sem s b s' ->
     (exec l s (negb is_and) s' /\ b = negb is_and) \/ exists s1, exec l s is_and s1 /\ exec r s1 b s') ->
  parses false (exec l) (split (Some l)) -> parses true (exec r) (split (Some r)) ->
  parses false sem (handle_logical split is_and l r).
Proof.
  intros Sem Hl Hr e fake p pre ct cf h m Np Wp We Sf. unfold handle_logical.
  destruct (Hl e fake p pre ct cf h m Np Wp We Sf) as (tf1 & t1 & f1 & c1 & e1 & h1 & -> & L1 & Wt1 & Wf1 & _ & _ & M1).
  cbn [mbind option_bind]. set (a1 := if is_and then t1 else f1). set (b1 := if is_and then f1 else t1).
  assert (wf_table (next_sm h1) a1) as Wa1 by (by destruct is_and). assert (wf_table (next_sm h1) b1) as Wb1 by (by destruct is_and).
  set (q := overwrite a1 p).
  replace (if is_and then __use_cond_true_states _ else __use_cond_false_states _)
    with (put q (below fake e1) (p :: pre) (t1 :: ct) (f1 :: cf) h1 m) by (by destruct is_and).
  change (__save_pre_cond_states _) with (put q ([] :: below fake e1) (q :: q :: p :: pre) ([] :: t1 :: ct) ([] :: f1 :: cf) h1 m).
  pose proof (grows_wf _ _ _ _ L1 Wp) as Wp1.
  destruct (Hr [] (below fake e1) q (p :: pre) (t1 :: ct) (f1 :: cf) h1 m) as
    (tf2 & t2 & f2 & c2 & e2 & h2 & E2 & L2 & Wt2 & Wf2 & Wc2 & Leaf & M2);
    [by apply overwrite_not_nil|by apply wf_overwrite|apply wf_table_nil|by apply below_sorted|].
  cbn [overwrite foldl] in E2, M2. rewrite E2. cbn [mbind option_bind]. clear E2. destruct (Leaf eq_refl) as [Lt Lf].
  set (a2 := if is_and then t2 else f2). set (b2 := if is_and then f2 else t2).
  destruct (logical_tables p a1 b1 a2 b2 c2 h2) as (res & h3 & Em & L3 & Wa & Wb & Ta & Tb);
    [done|by eapply grows_wf|by eapply grows_wf|by eapply grows_wf|by destruct is_and|by destruct is_and|by destruct is_and|].
  change (__use_cond_true_states _) with (join is_and (put c2 (below (below fake e1) e2) (p :: pre) (t2 :: t1 :: ct) (f2 :: f1 :: cf) h2 m)).
  pose proof (join_put is_and c2 (below (below fake e1) e2) p pre t2 t1 ct f2 f1 cf h2 m res h3) as J.
  set (a := overwrite a2 a1) in *. set (b := minus p res) in *. set (t := if is_and then a else b). set (f := if is_and then b else a).
  pose proof (grows_trans _ _ _ _ L2 L3) as L23.
  assert (wf_table (next_sm h3) t) as Wt by (unfold t; by destruct is_and). assert (wf_table (next_sm h3) f) as Wf by (unfold f; by destruct is_and).
  eexists _, t, f, (overwrite t p), (e1 ++ e2), h3.
  split. { rewrite <- below_app. f_equal. f_equal. by destruct is_and; apply J. }
  split; [by eapply grows_trans|]. do 2 (split; [done|]). split; [apply wf_overwrite; [done|by eapply grows_wf]|]. split; [done|].
  intros s b0 s' D X. replace (if b0 then t else f) with (if eqb b0 is_and then a else b) by (unfold t, f; by destruct b0, is_and).
  destruct (Sem s b0 s' X) as [[X1 ->]|(s1 & X1 & X2)].
  - destruct (M1 s _ s' D X1) as [K1 D1]. split; [apply logical_known; by left|].
    replace (eqb (negb is_and) is_and) with false by (by destruct is_and). apply Tb. left.
    eapply grows_keeps; [done|by apply wf_overwrite|]. unfold b1. by destruct is_and.
  - destruct (M1 s _ s1 D X1) as [K1 D1]. assert (true_of h1 q s1) as Dq by (unfold q, a1; by destruct is_and).
    destruct (M2 s1 _ s' Dq X2) as [K2 D2]. split; [apply logical_known; by right|]. destruct (eqb b0 is_and) eqn:Eb.
    + apply eqb_prop in Eb as ->. apply Ta. unfold a2. by destruct is_and.
    + apply Tb. right. unfold b2. by destruct b0, is_and.
Qed.

(** ** The other conditions *)

(** The meaning may be used for the stores of which the tables are true. *)
Lemma parses_at_weaken leaf (sem sem' : store -> bool -> store -> Prop) split split' e fake p pre ct cf h m :
  let start := put (overwrite e p) (e :: fake) (p :: p :: pre) ([] :: ct) ([] :: cf) h m in
  split' (-1) start = split (-1) start ->
  (forall s b s', p <> [] -> true_of h (overwrite e p) s -> sem' s b s' -> sem s b s') ->
  parses_at leaf sem split e fake p pre ct cf h m -> parses_at leaf sem' split' e fake p pre ct cf h m.
Proof.
  intros start Es W H Np Wp We Sf. destruct (H Np Wp We Sf) as (tf' & t & f & c & e' & h' & E & L & Wt & Wf & Wc & Leaf & M).
  exists tf', t, f, c, e', h'. fold start in E |- *. rewrite Es. do 6 (split; [done|]). intros s b s' D X. by apply (M s b s' D), W.
Qed.

(** A condition is parsed after states have been set. *)
Lemma parses_after leaf g (r : store -> store -> Prop) sem split :
  sets_states g r -> parses leaf sem split ->
  parses leaf (fun s b s' => exists s1, r s s1 /\ sem s1 b s') (fun tf m => split tf (g m)).
Proof.
  intros G H e fake p pre ct cf h m Np Wp We Sf. pose proof (proj1 Wp) as Sp. pose proof (proj1 We) as Se.
  destruct (G (overwrite e p) (e :: fake) (p :: p :: pre) ([] :: ct) ([] :: cf) h m) as (d & h1 & -> & L1 & Wd & Md);
    [by apply overwrite_not_nil|by apply wf_overwrite|by constructor|].
  pose proof (proj1 Wd) as Sd. cbn [below]. rewrite overwrite_overwrite in Md |- * by done.
  destruct (H (overwrite d e) fake p pre ct cf h1 m Np) as (tf' & t & f & c & e' & h' & E & L & Wt & Wf & Wc & Leaf & M);
    [by eapply grows_wf|apply wf_overwrite; [done|by eapply grows_wf]|done|].
  exists tf', t, f, c, e', h'. split; [done|]. split; [by eapply grows_trans|]. do 4 (split; [done|]).
  intros s b s' D (s1 & R & X). apply (M s1 b s'); eauto.
Qed.

Lemma negate_known tf b : known tf (negb b) -> known (negate_tf tf) b.
Proof. unfold known. intros [->|[[-> E]|[-> E]]]; cbn; destruct b; auto; discriminate E. Qed.

Lemma parses_negate leaf sem split :
  parses leaf sem split ->
  parses leaf (fun s b s' => sem s (negb b) s') (fun tf m => '(tf, m) ← split tf m; Some (negate_tf tf, __negate_cond_stacks m)).
Proof.
  intros H e fake p pre ct cf h m Np Wp We Sf.
  destruct (H e fake p pre ct cf h m Np Wp We Sf) as (tf' & t & f & c & e' & h' & -> & L & Wt & Wf & Wc & Leaf & M).
  exists (negate_tf tf'), f, t, c, e', h'. cbn [mbind option_bind]. rewrite negate_put. split; [done|]. split; [done|]. do 3 (split; [done|]).
  split; [by intros [? ?]%Leaf|]. intros s b s' D X. destruct (M s _ s' D X) as [K D']. split; [by apply negate_known|]. by destruct b.
Qed.

(** ** Comparisons *)

Lemma make_op_unsigned_eq op : op_eqb (make_op_unsigned op) SPECIAL_EQUAL = op_eqb op SPECIAL_EQUAL.
Proof. by destruct op. Qed.

Lemma make_op_unsigned_ne op : op_eqb (make_op_unsigned op) SPECIAL_NOTEQUAL = op_eqb op SPECIAL_NOTEQUAL.
Proof. by destruct op. Qed.

Lemma hackup_compare op l r : exists op', hackup_unsigned_compares (EXPR_COMPARE op l r) = EXPR_COMPARE op' l r /\
  op_eqb op' SPECIAL_EQUAL = op_eqb op SPECIAL_EQUAL /\ op_eqb op' SPECIAL_NOTEQUAL = op_eqb op SPECIAL_NOTEQUAL /\
  forall s b s', exec (EXPR_COMPARE op l r) s b s' -> exec (EXPR_COMPARE op' l r) s b s'.
Proof.
  unfold hackup_unsigned_compares. destruct (type_unsigned (EXPR_COMPARE op l r)) eqn:U; [|by exists op].
  exists (make_op_unsigned op). rewrite make_op_unsigned_eq, make_op_unsigned_ne. do 3 (split; [done|]).
  intros s b s' X. inversion X; subst. eapply exec_prim; eauto. by apply (unsigned_same true_of).
Qed.

(** The constant side of a comparison, which is parsed if it is not a literal. *)
Definition parse_zero (literal : bool) (zero : expression) (m : machine) : machine :=
  if literal then m else __split_expr zero m.

Lemma parses_zero leaf literal zero sem split :
  plain zero = true -> parses leaf sem split ->
  parses leaf (fun s b s' => eval zero s s /\ sem s b s') (fun tf m => split tf (parse_zero literal zero m)).
Proof.
  intros Pl H. unfold parse_zero. destruct literal; intros e fake p pre ct cf h m.
  - eapply parses_at_weaken; [reflexivity| |apply H]. by intros s b s' _ _ [_ X].
  - eapply parses_at_weaken; [| |apply (parses_after _ _ _ _ _ (split_expr_sets true_of zero Pl) H)]; [reflexivity|]. intros s b s' _ _ [E X]. eauto.
Qed.

(** What handle_zero_comparisons() and the rest of split_conditions() do with the side that is
    not 0. *)
Definition compare_other (split : option expression -> Z -> machine -> option (Z * machine)) (op : op_tok) (e other : expression)
    (tf : Z) (m : machine) : option (Z * machine) :=
  if op_eqb op SPECIAL_NOTEQUAL then split (Some other) tf m
  else if op_eqb op SPECIAL_EQUAL then '(tf, m) ← split (Some other) tf m; Some (negate_tf tf, __negate_cond_stacks m)
  else Some (split_atom e tf m).

Lemma handle_zero_cases split op l r tf m :
  otherwise_atom (EXPR_COMPARE op l r) (handle_zero_comparisons split op l r tf m) =
  if expr_is_zero m l then compare_other split op (EXPR_COMPARE op l r) r tf (parse_zero (is_value (strip_expr m l)) l m)
  else if expr_is_zero m r then compare_other split op (EXPR_COMPARE op l r) l tf (parse_zero (is_value (strip_expr m l)) r m)
  else Some (split_atom (EXPR_COMPARE op l r) tf m).
Proof.
  unfold handle_zero_comparisons, compare_other, otherwise_atom, parse_zero.
  destruct (expr_is_zero m l), (expr_is_zero m r), (op_eqb op SPECIAL_NOTEQUAL), (op_eqb op SPECIAL_EQUAL), (is_value (strip_expr m l)); try done;
    by destruct (split (Some _) tf _) as [[? ?]|].
Qed.

Lemma parses_other leaf split op e other :
  is_prim e = true -> plain_sides e = true ->
  (op = SPECIAL_EQUAL \/ op = SPECIAL_NOTEQUAL -> parses leaf (exec other) (split (Some other))) ->
  parses leaf (fun s b s' => exec e s b s' /\ (op = SPECIAL_EQUAL \/ op = SPECIAL_NOTEQUAL ->
                                          exec other s (if op_eqb op SPECIAL_EQUAL then negb b else b) s'))
    (compare_other split op e other).
Proof.
  intros P Pl H e0 fake p pre ct cf h m. unfold compare_other.
  destruct (op_eqb op SPECIAL_NOTEQUAL) eqn:E1; [|destruct (op_eqb op SPECIAL_EQUAL) eqn:E2].
  - apply bool_decide_eq_true in E1 as ->. eapply parses_at_weaken; [| |apply H; by right]; [reflexivity|]. intros s b s' _ _ [_ X]. apply X. by right.
  - apply bool_decide_eq_true in E2 as ->. eapply parses_at_weaken; [| |apply parses_negate, H; by left]; [reflexivity|]. intros s b s' _ _ [_ X]. apply X. by left.
  - eapply parses_at_weaken; [| |by apply (parses_atom leaf e)]; [reflexivity|]. by intros s b s' _ _ [X _].
Qed.

Lemma op_eqb_cases op op' :
  op_eqb op' SPECIAL_EQUAL = op_eqb op SPECIAL_EQUAL -> op_eqb op' SPECIAL_NOTEQUAL = op_eqb op SPECIAL_NOTEQUAL ->
  op' = SPECIAL_EQUAL \/ op' = SPECIAL_NOTEQUAL -> op = op'.
Proof. intros E1 E2 [-> | ->]; [symmetry in E1; by apply bool_decide_eq_true in E1|symmetry in E2; by apply bool_decide_eq_true in E2]. Qed.

Lemma parses_compare leaf split k op l r :
  covered leaf (S k) (EXPR_COMPARE op l r) -> (forall e, strips leaf k e -> parses leaf (exec e) (split (Some e))) ->
  parses leaf (exec (EXPR_COMPARE op l r)) (split_stripped split (EXPR_COMPARE op l r)).
Proof.
  intros C IH. assert (is_prim (EXPR_COMPARE op l r) = true) as P by (inversion C; subst; done).
  destruct (hackup_compare op l r) as (op' & Eh & Q1 & Q2 & Ex).
  pose proof (op_eqb_cases op op' Q1 Q2) as Eo.
  intros e0 fake p pre ct cf h m.
  set (start := put (overwrite e0 p) (e0 :: fake) (p :: p :: pre) ([] :: ct) ([] :: cf) h m).
  assert (forall s, p <> [] -> true_of h (overwrite e0 p) s -> here true_of start s) as Hh by (intros; split; [by apply overwrite_not_nil|done]).
  assert (split_stripped split (EXPR_COMPARE op l r) (-1) start =
    otherwise_atom (EXPR_COMPARE op' l r) (handle_zero_comparisons split op' l r (-1) start)) as Es.
  { unfold split_stripped. cbn [handle_expr_statement_conditions mbind option_bind]. by rewrite Eh. }
  rewrite handle_zero_cases in Es.
  inversion C as [| | | | | |? ? ? ? ? _ P1 P2 Zl Zr|? ? ? ? ? N]; subst; [|by destruct (N op l r)].
  assert (plain_sides (EXPR_COMPARE op' l r) = true) as Pl by (cbn; by rewrite P1, P2).
  specialize (Zl start). specialize (Zr start).
  destruct (expr_is_zero start l) eqn:El; [|destruct (expr_is_zero start r) eqn:Er].
  - destruct (Zl eq_refl) as [Ne Zo]. eapply (parses_at_weaken _ _ _ (fun tf m => compare_other split op' (EXPR_COMPARE op' l r) r tf (parse_zero (is_value (strip_expr start l)) l m)));
      [exact Es| |apply parses_zero; [done|idtac]].
    2:{ apply (parses_other leaf split op' (EXPR_COMPARE op' l r) r); [done..|]. intros H. apply IH, Zo. rewrite (Eo H). done. }
    intros s b s' Np D X. specialize (Hh s Np D). split; [by apply Ne|]. split; [by apply Ex|]. intros H. destruct Zo as [_ Zo]; [by rewrite (Eo H)|].
    rewrite Q1. by apply Zo.
  - destruct (Zr eq_refl eq_refl) as [Ne Zo]. eapply (parses_at_weaken _ _ _ (fun tf m => compare_other split op' (EXPR_COMPARE op' l r) l tf (parse_zero (is_value (strip_expr start l)) r m)));
      [exact Es| |apply parses_zero; [done|idtac]].
    2:{ apply (parses_other leaf split op' (EXPR_COMPARE op' l r) l); [done..|]. intros H. apply IH, Zo. rewrite (Eo H). done. }
    intros s b s' Np D X. specialize (Hh s Np D). split; [by apply Ne|]. split; [by apply Ex|]. intros H. destruct Zo as [_ Zo]; [by rewrite (Eo H)|].
    rewrite Q1. by apply Zo.
  - eapply (parses_at_weaken _ _ _ (fun tf m => Some (split_atom (EXPR_COMPARE op' l r) tf m))); [exact Es| |by apply parses_atom]. intros s b s' _ _. apply Ex.
Qed.

(** ** All covered conditions *)

Lemma not_statement e tf m split :
  match e with EXPR_PAREN _ | EXPR_STATEMENT _ => False | _ => True end ->
  handle_expr_statement_conditions split e tf m = Some (false, tf, m).
Proof. by destruct e. Qed.

Lemma split_prim split e tf m :
  is_prim e = true -> (forall op l r, e <> EXPR_COMPARE op l r) -> split_stripped split e tf m = Some (split_atom e tf m).
Proof.
  intros P N. destruct e; try discriminate P; try done.
  - unfold split_stripped. cbn. cbn in P. destruct op; try done. by destruct (handle_subtract_condition e1 e2).
  - by destruct (N op e1 e2).
  - unfold split_stripped. cbn. cbn in P. unfold ignore_builtin_expect. apply negb_true_iff in P. by rewrite P.
  - unfold split_stripped. cbn. by destruct op.
Qed.

Lemma plain_sides_prim e : plain e = true -> (forall op l r, e <> EXPR_COMPARE op l r) -> plain_sides e = true.
Proof. intros P N. destruct e; try done. by destruct (N op e1 e2). Qed.

Lemma parses_covered leaf split k e :
  covered leaf (S k) e -> (forall leaf e, strips leaf k e -> parses leaf (exec e) (split (Some e))) -> parses leaf (exec e) (split_stripped split e).
Proof.
  intros C IH. inversion C as [? is_and l r Hl Hr|? l r Hl Hr Pr|? ? l r e' Es He|? ? e' He|? ? l r Pl Hr|? ? fn e' args Hf He|? ? op l r P P1 P2 Z1 Z2|? ? ? P Pl N]; subst.
  - assert (parses false (exec (EXPR_LOGICAL is_and l r)) (handle_logical split is_and l r)) as H.
    { apply parses_logical; [|by apply IH..]. intros s b s' X. inversion X; subst; [by left|by right; eauto|done]. }
    intros e0 fake p pre ct cf h m.
    eapply parses_at_weaken; [| |apply (parses_after _ _ _ _ _ (logic_hook_sets true_of (Some (EXPR_LOGICAL is_and l r))) H)]; [reflexivity|].
    intros s b s' _ _ X. by exists s.
  - assert (parses false (exec (EXPR_BINOP OP_OR l r)) (handle_logical split false l r)) as H; [|exact H].
    apply parses_logical; [|by apply IH..]. intros s b s' X. inversion X as [| |? ? ? b1 s1 b2 ? X1 X2| | | | | |]; subst; [|done].
    destruct b1; [left|right; eauto]. pose proof (Pr _ _ _ X2). by subst.
  - intros e0 fake p pre ct cf h m. eapply parses_at_weaken; [| |apply (IH _ _ He)].
    + unfold split_stripped. cbn. by rewrite Es.
    + intros s b s' _ _ X. inversion X as [| | |? ? ? ? ? N X1| | | | |? ? ? ? ? P]; subst; [|cbn in P; by rewrite Es in P].
      unfold handle_subtract_condition in Es. destruct (is_binop (strip_parens l) || is_binop (strip_parens r)); [done|]. by injection Es as <-.
  - intros e0 fake p pre ct cf h m. eapply parses_at_weaken; [| |apply (parses_negate _ _ _ (IH _ _ He))].
    + unfold split_stripped. cbn. by destruct (split (Some e') (-1) _) as [[? ?]|].
    + intros s b s' _ _ X. inversion X; subst; [by rewrite negb_involutive|done].
  - intros e0 fake p pre ct cf h m. eapply parses_at_weaken; [| |apply (parses_after _ _ _ _ _ (split_expr_sets true_of l Pl) (IH _ _ Hr))]; [reflexivity|].
    intros s b s' _ _ X. inversion X; subst; [by eauto|done].
  - intros e0 fake p pre ct cf h m. eapply parses_at_weaken; [| |apply (IH _ _ He)].
    + unfold split_stripped. cbn. unfold ignore_builtin_expect. rewrite Hf. cbn. by destruct (split (Some e') (-1) _) as [[? ?]|].
    + intros s b s' _ _ X. inversion X as [| | | | | |? ? ? ? ? ? ? X1| |? ? ? ? ? P]; subst; [done|]. cbn in P. by rewrite Hf in P.
  - by apply parses_compare with k; auto.
  - intros e0 fake p pre ct cf h m. eapply parses_at_weaken; [| |by apply (parses_atom leaf e), plain_sides_prim]; [by apply split_prim|done].
Qed.

Lemma covered_pos leaf n e : covered leaf n e -> exists k, n = S k.
Proof. intros C. inversion C; eauto. Qed.

(** Parsing a condition, with as much fuel as its nesting. *)
Lemma parses_strips leaf n e : strips leaf n e -> parses leaf (exec e) (split_conditions n (Some e)).
Proof.
  revert leaf e. induction n as [|k IH]; intros leaf e H e0 fake p pre ct cf h m;
    set (start := put (overwrite e0 p) (e0 :: fake) (p :: p :: pre) ([] :: ct) ([] :: cf) h m);
    inversion H as [? ? ? Hs]; subst; destruct (Hs start) as (e' & Es & C & X).
  - by apply covered_pos in C as [? ?].
  - eapply (parses_at_weaken _ _ _ (split_stripped (split_conditions k) e')); [| |by apply parses_covered with k].
    + cbn [split_conditions mbind option_bind]. fold start. by rewrite Es.
    + intros s b s' Np D. apply X. split; [by apply overwrite_not_nil|done].
Qed.

(** ** Paths that cannot be reached *)

(** Nothing is set while a condition is parsed on a path that cannot be reached. *)
Definition parses_dead (split : Z -> machine -> option (Z * machine)) : Prop :=
  forall fake pre ct cf h m, exists tf h',
    split (-1) (put [] ([] :: fake) ([] :: [] :: pre) ([] :: ct) ([] :: cf) h m) =
      Some (tf, put [] fake ([] :: pre) ([] :: ct) ([] :: cf) h' m) /\ grows h h'.

Lemma fold_in_dead cur fake q pre ct cf h m :
  __fold_in_set_states (put cur ([] :: fake) (q :: pre) ct cf h m) = put q fake pre ct cf h m.
Proof. done. Qed.

Lemma idle_then f g : idle f -> idle g -> idle (fun m => g (f m)).
Proof.
  intros F G fake pre ct cf h m. destruct (F fake pre ct cf h m) as (h1 & -> & L1).
  destruct (G fake pre ct cf h1 m) as (h2 & -> & L2). exists h2. split; [done|by eapply grows_trans].
Qed.

Lemma idle_sides e : is_prim e = true -> plain_sides e = true -> idle (split_sides false e).
Proof.
  intros P Pl. pose proof (prim_not_postop e P) as N. destruct e; try discriminate P; try exact (split_expr_idle true_of _ Pl).
  cbn in P, Pl. apply andb_prop in P as [Hl%negb_true_iff Hr%negb_true_iff]. apply andb_prop in Pl as [P1 P2].
  unfold split_sides, split_side. rewrite Hl, Hr. cbn [eqb].
  apply (idle_then (__split_expr _) (__split_expr _)); by apply (split_expr_idle true_of).
Qed.

Lemma dead_atom e : is_prim e = true -> plain_sides e = true -> parses_dead (fun tf m => Some (split_atom e tf m)).
Proof.
  intros P Pl fake pre ct cf h m. unfold split_atom, do_condition. rewrite (prim_sides_after e _ P).
  destruct (idle_sides e P Pl ([] :: fake) ([] :: [] :: pre) ([] :: ct) ([] :: cf) h m) as (h1 & -> & L1).
  rewrite fold_in_dead, push_fake_put.
  destruct (hook_idle true_of CONDITION_HOOK (Some e) ([] :: fake) ([] :: [] :: pre) ([] :: ct) ([] :: cf) h1 m) as (h2 & -> & L2).
  rewrite fold_in_dead, push_fake_put.
  destruct (post_op_idle true_of ([] :: fake) ([] :: [] :: pre) ([] :: ct) ([] :: cf) h2 m) as (h3 & -> & L3).
  rewrite fold_in_dead. eexists _, h3. split; [reflexivity|exact (grows_trans _ _ _ _ L1 (grows_trans _ _ _ _ L2 L3))].
Qed.

Lemma dead_after g split : idle g -> parses_dead split -> parses_dead (fun tf m => split tf (g m)).
Proof.
  intros G H fake pre ct cf h m. destruct (G ([] :: fake) ([] :: [] :: pre) ([] :: ct) ([] :: cf) h m) as (h1 & -> & L1).
  destruct (H fake pre ct cf h1 m) as (tf & h2 & -> & L2). exists tf, h2. split; [done|by eapply grows_trans].
Qed.

Lemma dead_negate split :
  parses_dead split -> parses_dead (fun tf m => '(tf, m) ← split tf m; Some (negate_tf tf, __negate_cond_stacks m)).
Proof.
  intros H fake pre ct cf h m. destruct (H fake pre ct cf h m) as (tf & h' & -> & L). by eexists _, h'.
Qed.

Lemma dead_logical split (is_and : bool) l r :
  parses_dead (split (Some l)) -> parses_dead (split (Some r)) -> parses_dead (handle_logical split is_and l r).
Proof.
  intros Hl Hr fake pre ct cf h m. unfold handle_logical. destruct (Hl fake pre ct cf h m) as (tf1 & h1 & -> & L1). cbn [mbind option_bind].
  replace (if is_and then __use_cond_true_states _ else __use_cond_false_states _)
    with (put [] fake ([] :: pre) ([] :: ct) ([] :: cf) h1 m) by (by destruct is_and).
  change (__save_pre_cond_states _) with (put [] ([] :: fake) ([] :: [] :: [] :: pre) ([] :: [] :: ct) ([] :: [] :: cf) h1 m).
  destruct (Hr fake ([] :: pre) ([] :: ct) ([] :: cf) h1 m) as (tf2 & h2 & -> & L2). cbn [mbind option_bind].
  change (__use_cond_true_states _) with (join is_and (put [] fake ([] :: pre) ([] :: [] :: ct) ([] :: [] :: cf) h2 m)).
  pose proof (join_put is_and [] fake [] pre [] [] ct [] [] cf h2 m [] h2) as J.
  eexists _, h2. split; [|by eapply grows_trans]. f_equal. f_equal.
  destruct is_and; apply J; unfold merge_stree, merge_stree_base; by rewrite (memory_suffices true_of).
Qed.

Lemma dead_zero literal zero split :
  plain zero = true -> parses_dead split -> parses_dead (fun tf m => split tf (parse_zero literal zero m)).
Proof.
  intros Pl H. unfold parse_zero. destruct literal; [exact H|]. apply dead_after; [by apply (split_expr_idle true_of)|done].
Qed.

Lemma dead_other split op e other :
  is_prim e = true -> plain_sides e = true ->
  (op = SPECIAL_EQUAL \/ op = SPECIAL_NOTEQUAL -> parses_dead (split (Some other))) -> parses_dead (compare_other split op e other).
Proof.
  intros P Pl H. unfold compare_other.
  destruct (op_eqb op SPECIAL_NOTEQUAL) eqn:E1; [|destruct (op_eqb op SPECIAL_EQUAL) eqn:E2].
  - apply bool_decide_eq_true in E1 as ->. apply H. by right.
  - apply bool_decide_eq_true in E2 as ->. apply dead_negate, H. by left.
  - by apply dead_atom.
Qed.

Lemma dead_compare leaf split k op l r :
  covered leaf (S k) (EXPR_COMPARE op l r) -> (forall e, strips leaf k e -> parses_dead (split (Some e))) ->
  parses_dead (split_stripped split (EXPR_COMPARE op l r)).
Proof.
  intros C IH fake pre ct cf h m. destruct (hackup_compare op l r) as (op' & Eh & Q1 & Q2 & _). pose proof (op_eqb_cases op op' Q1 Q2) as Eo.
  set (start := put [] ([] :: fake) ([] :: [] :: pre) ([] :: ct) ([] :: cf) h m).
  assert (split_stripped split (EXPR_COMPARE op l r) (-1) start =
    otherwise_atom (EXPR_COMPARE op' l r) (handle_zero_comparisons split op' l r (-1) start)) as ->.
  { unfold split_stripped. cbn [handle_expr_statement_conditions mbind option_bind]. by rewrite Eh. }
  rewrite handle_zero_cases.
  inversion C as [| | | | | |? ? ? ? ? P P1 P2 Zl Zr|? ? ? ? ? N]; subst; [|by destruct (N op l r)].
  assert (plain_sides (EXPR_COMPARE op' l r) = true) as Pl by (cbn; by rewrite P1, P2).
  specialize (Zl start). specialize (Zr start).
  destruct (expr_is_zero start l) eqn:El; [|destruct (expr_is_zero start r) eqn:Er]; [| |by apply dead_atom].
  - destruct (Zl eq_refl) as [_ Zo]. apply (dead_zero _ l (compare_other split op' (EXPR_COMPARE op' l r) r)); [done|].
    apply dead_other; [done..|]. intros H. apply IH, Zo. by rewrite (Eo H).
  - destruct (Zr eq_refl eq_refl) as [_ Zo]. apply (dead_zero _ r (compare_other split op' (EXPR_COMPARE op' l r) l)); [done|].
    apply dead_other; [done..|]. intros H. apply IH, Zo. by rewrite (Eo H).
Qed.

Lemma dead_covered leaf split k e :
  covered leaf (S k) e -> (forall leaf e, strips leaf k e -> parses_dead (split (Some e))) -> parses_dead (split_stripped split e).
Proof.
  intros C IH. inversion C as [? is_and l r Hl Hr|? l r Hl Hr Pr|? ? l r e' Es He|? ? e' He|? ? l r Pl Hr|? ? fn e' args Hf He|? ? op l r P P1 P2 Z1 Z2|? ? ? P Pl N]; subst.
  - apply (dead_after (__pass_to_client LOGIC_HOOK (Some (EXPR_LOGICAL is_and l r))) (handle_logical split is_and l r));
      [apply (hook_idle true_of)|apply dead_logical; by eapply IH].
  - apply (dead_logical split false l r); by eapply IH.
  - intros fake pre ct cf h m. unfold split_stripped. cbn. rewrite Es. by eapply IH.
  - intros fake pre ct cf h m. destruct (dead_negate _ (IH _ _ He) fake pre ct cf h m) as (tf & h' & E & L). exists tf, h'. split; [|done].
    rewrite <- E. unfold split_stripped. cbn. by destruct (split (Some e') (-1) _) as [[? ?]|].
  - apply (dead_after (__split_expr l) (split (Some r))); [by apply (split_expr_idle true_of)|by eapply IH].
  - intros fake pre ct cf h m. destruct (IH _ _ He fake pre ct cf h m) as (tf & h' & E & L). exists tf, h'. split; [|done].
    rewrite <- E. unfold split_stripped. cbn. unfold ignore_builtin_expect. rewrite Hf. cbn. by destruct (split (Some e') (-1) _) as [[? ?]|].
  - apply dead_compare with leaf k; eauto.
  - intros fake pre ct cf h m. rewrite split_prim by done. by apply dead_atom, plain_sides_prim.
Qed.

Lemma dead_strips leaf n e : strips leaf n e -> parses_dead (split_conditions n (Some e)).
Proof.
  revert leaf e. induction n as [|k IH]; intros leaf e H fake pre ct cf h m;
    set (start := put [] ([] :: fake) ([] :: [] :: pre) ([] :: ct) ([] :: cf) h m);
    inversion H as [? ? ? Hs]; subst; destruct (Hs start) as (e' & Es & C & _).
  - by apply covered_pos in C as [? ?].
  - cbn [split_conditions mbind option_bind]. rewrite Es. by apply dead_covered with leaf k.
Qed.

(** ** Whole conditions *)

Lemma split_whole_live leaf n e m :
  strips leaf n e -> cur_stree m <> [] -> wf_table (next_sm (heap_sms m)) (cur_stree m) ->
  Forall sorted (fake_cur_stree_stack m) ->
  exists tf cur fls set h,
    __split_whole_condition_tf n (Some e) m =
      Some (tf, put cur (below (fake_cur_stree_stack m) set) (pre_cond_stack m) (cond_true_stack m) (cond_false_stack m) h
                    (set_false_stack (fls :: false_stack m) m)) /\
    grows (heap_sms m) h /\ cur <> [] /\ fls <> [] /\ wf_table (next_sm h) cur /\ wf_table (next_sm h) fls /\
    forall s b s', true_of (heap_sms m) (cur_stree m) s -> exec e s b s' -> known tf b /\ true_of h (if b then cur else fls) s'.
Proof.
  intros St Nc Wc Sf. unfold __split_whole_condition_tf.
  set (p := cur_stree m) in *. set (fake := fake_cur_stree_stack m) in *. set (h := heap_sms m) in *.
  replace (__push_cond_stacks (__save_pre_cond_states m))
    with (put (overwrite [] p) ([] :: fake) (p :: p :: pre_cond_stack m) ([] :: cond_true_stack m) ([] :: cond_false_stack m) h m) by (by destruct m).
  destruct (parses_strips leaf n e St [] fake p (pre_cond_stack m) (cond_true_stack m) (cond_false_stack m) h m Nc Wc)
    as (tf & t & f & c & e' & h1 & -> & L & Wt & Wf & _ & _ & M); [apply wf_table_nil|done|]. cbn [mbind option_bind].
  pose proof (grows_wf _ _ _ _ L Wc) as Wp.
  change (__use_cond_states (put c (below fake e') (p :: pre_cond_stack m) (t :: cond_true_stack m) (f :: cond_false_stack m) h1 m)) with (put (overwrite t p) (below fake e') (pre_cond_stack m) (cond_true_stack m) (cond_false_stack m) h1
    (set_false_stack (overwrite f p :: false_stack m) m)).
  destruct (whole_hook_sets true_of (Some e) (overwrite t p) (below fake e') (pre_cond_stack m) (cond_true_stack m) (cond_false_stack m) h1
    (set_false_stack (overwrite f p :: false_stack m) m)) as (d & h2 & -> & L2 & Wd & Md);
    [by apply overwrite_not_nil|by apply wf_overwrite|by apply below_sorted|].
  exists tf, (overwrite d (overwrite t p)), (overwrite f p), (e' ++ d), h2. rewrite below_app. split; [done|]. split; [by eapply grows_trans|].
  do 2 (split; [by repeat apply overwrite_not_nil|]). do 2 (split; [repeat apply wf_overwrite; (done || by eapply grows_wf)|]).
  intros s b s' D X. destruct (M s b s' D X) as [K D']. split; [done|]. destruct b; [by apply (Md s')|].
  eapply grows_keeps; [done|by apply wf_overwrite|done].
Qed.

Lemma split_whole_dead leaf n e m :
  strips leaf n e -> cur_stree m = [] ->
  exists tf h,
    __split_whole_condition_tf n (Some e) m =
      Some (tf, put [] (fake_cur_stree_stack m) (pre_cond_stack m) (cond_true_stack m) (cond_false_stack m) h
                    (set_false_stack ([] :: false_stack m) m)) /\
    grows (heap_sms m) h.
Proof.
  intros St Ec. unfold __split_whole_condition_tf.
  set (fake := fake_cur_stree_stack m). set (h := heap_sms m).
  replace (__push_cond_stacks (__save_pre_cond_states m))
    with (put [] ([] :: fake) ([] :: [] :: pre_cond_stack m) ([] :: cond_true_stack m) ([] :: cond_false_stack m) h m)
    by (destruct m; cbn in Ec; by subst).
  destruct (dead_strips leaf n e St fake (pre_cond_stack m) (cond_true_stack m) (cond_false_stack m) h m) as (tf & h1 & -> & L). cbn [mbind option_bind].
  change (__use_cond_states _) with (put [] fake (pre_cond_stack m) (cond_true_stack m) (cond_false_stack m) h1 (set_false_stack ([] :: false_stack m) m)).
  destruct (hook_idle true_of WHOLE_CONDITION_HOOK (Some e) fake (pre_cond_stack m) (cond_true_stack m) (cond_false_stack m) h1
    (set_false_stack ([] :: false_stack m) m)) as (h2 & -> & L2).
  exists tf, h2. split; [done|by eapply grows_trans].
Qed.

End sound.

(** ** States that mean something by themselves

    The states of one check, each of which says something about the store whatever its
    history: then the promise to the merging of tables is one about merge_states() and the
    function for unmatched states of this check. *)
Section owned.
Context `{Chk : Checks} {store : Type} (own : Z) (stands : sm_state -> store -> Prop).

Definition ok (s : store) (o : option sm_state) : Prop :=
  match o with Some sm => owner sm = own -> stands sm s | None => True end.

Definition describes (h : sms) (t : table) (s : store) : Prop := forall k, ok s (tget k t).

Class StandsOk : Prop := {
  merge_stands a b r s :
    owner r = own -> same_key a r -> same_key b r -> sm_st r = merge_states own (sm_st a) (sm_st b) ->
    stands a s \/ stands b s -> stands r s;
  unmatched_stands over cur b r s :
    owner r = own -> same_key b r -> sm_st r = client_unmatched_state_function over cur b -> stands r s;
  no_pre_merge_hook : pre_merge_hooks own = None;
  stands_local : local_hooks;
  stands_memory w : out_of_memory w = false
}.

Context `{SOk : !StandsOk}.

Lemma merged_ok cur to stree w w' k o s :
  merged_at cur to stree w w' k o -> ok s (tget k to) \/ ok s (tget k stree) -> ok s o.
Proof.
  intros M D. destruct o as [r|]; [|done]. intros Ow. destruct M as (Hk & Hn & St).
  assert (same_key k r) as K by (destruct Hn as [[K _]|[E _]]; [done|by apply tget_some in E as [_ K]]).
  pose proof (same_key_owner k r K) as Ok. rewrite Ow in Ok. rewrite Ok in St. specialize (St no_pre_merge_hook).
  unfold matched_state in St. set (u st := SmState 0 (sm_name r) (owner r) (sm_sym r) 0 st).
  assert (forall st, same_key (u st) r) as Ku by (intros st; by apply same_key_fields).
  assert (forall a, tget k to = Some a \/ tget k stree = Some a -> same_key a r) as Ka.
  { intros a [E|E]; apply tget_some in E as [_ E]; by rewrite <- E. }
  destruct (tget k to) as [a|] eqn:Ea, (tget k stree) as [b|] eqn:Eb; [| | |by destruct Hk].
  - apply (merge_stands a b); [done|auto|auto|done|]. destruct D as [D|D]; [left|right]; apply D.
    + rewrite (same_key_owner a r); auto.
    + rewrite (same_key_owner b r); auto.
  - apply (merge_stands a (u (client_unmatched_state_function stree cur a))); [done|auto|auto|done|].
    right. apply (unmatched_stands stree cur a); [done| |done]. rewrite (Ku _). auto.
  - apply (merge_stands (u (client_unmatched_state_function to cur b)) b); [done|auto|auto|done|].
    left. apply (unmatched_stands to cur b); [done| |done]. rewrite (Ku _). auto.
Qed.

#[export] Instance stands_merge_ok : MergeOk describes.
Proof.
  split; [|by intros; eauto|exact stands_local|exact stands_memory].
  intros cur to stree h r h' s W1 W2 N1 N2 E D.
  apply (merge_stree_base_spec stands_local stands_memory) in E as (_ & _ & M); [|done..].
  intros k. apply (merged_ok _ _ _ _ _ _ _ _ (M k)). destruct D as [D|D]; [left|right]; apply D.
Qed.

Lemma describes_overwrite h h' d t s : sorted d -> describes h' d s -> describes h t s -> describes h' (overwrite d t) s.
Proof. intros S D H k. rewrite tget_overwrite by done. specialize (D k). specialize (H k). destruct (tget k d); cbn [orelse]; auto. Qed.

Lemma describes_grows h h' : next_sm h <= next_sm h' -> grows describes h h'.
Proof. by split. Qed.

End owned.
