(* ===== verification/ConditionTheorems.v ===== *)
(** * The theorems about merging, the stacks and conditions *)
From stdpp Require Import gmap.
From S2P Require Import Prelude Tokens Syntax RangeList Avl AvlFacts Stree StreeWorld Tables SmState Merge MergeFacts States MergeTheorems Conditions ConditionFacts ConditionSound.
#[local] Open Scope Z_scope.

Section sound.
Context `{Chk : Checks} `{Cor : Core} {store : Type} `{Mean : Meaning store}.
Context (true_of : sms -> table -> store -> Prop) `{MOk : !MergeOk true_of} `{COk : !CoreOk true_of}.


End sound.

(** ** A small check

    It knows whether variables are 0: a variable is a symbol, its value the integer the store
    has for it, and a condition is a variable.  For a symbol with an even number it sets a
    state for the true outcome only. *)
Module Sample.

Definition NONZERO : Z := 10.
Definition ZERO : Z := 11.

#[export] Instance checks : Checks := {|
  num_checks := 3;
  SMATCH_EXTRA := 2;
  dynamic_states := fun _ => false;
  state_name := fun _ => None;
  state_undefined := 1;
  state_merged := 2;
  state_true := 3;
  merge_funcs := [];
  unmatched_state_funcs := [];
  pre_merge_hooks := fun _ => None;
  stree_line := fun _ => 0;
  out_of_memory := fun _ => false;
  same_stree := fun _ _ => false;
  keep_out_of_scope := fun _ => false
|}.

Definition condition_hook (hook : hook_type) (e : option expression) (m : machine) : machine :=
  match hook, e with
  | CONDITION_HOOK, Some (EXPR_OTHER id) => set_true_false_states 1 [120] id NONZERO (if Z.even id then 0 else ZERO) m
  | _, _ => m
  end.

#[export] Instance core : Core := {|
  __split_expr := fun _ m => m;
  __split_stmt := fun _ m => m;
  __split_label_stmt := fun _ m => m;
  __process_post_op_stack := fun m => m;
  __pass_to_client := condition_hook;
  __push_scope_hooks := fun m => m;
  __call_scope_hooks := fun m => m;
  strip_expr_set_parent := fun _ e => Some e;
  strip_expr := fun _ e => e;
  expr_is_zero := fun _ _ => false;
  type_unsigned := fun _ => false;
  implied_condition_true := fun _ _ => false;
  implied_condition_false := fun _ _ => false;
  known_condition_true := fun _ _ => false;
  known_condition_false := fun _ _ => false
|}.

#[export] Instance meaning : Meaning (Z -> Z) := {|
  plain := fun _ => true;
  eval := fun _ s s' => s' = s;
  test := fun e s b => match e with EXPR_OTHER id => b = negb (s id =? 0) | _ => True end;
  post := fun s s' => s' = s
|}.

Definition stands (sm : sm_state) (s : Z -> Z) : Prop :=
  (sm_st sm = NONZERO -> s (sm_sym sm) <> 0) /\ (sm_st sm = ZERO -> s (sm_sym sm) = 0).

#[export] Instance stands_ok : StandsOk 1 stands.
Proof.
  split; try done.
  - intros a b r s _ (_ & _ & E1)%same_key_fields (_ & _ & E2)%same_key_fields E H. unfold stands in *. rewrite E.
    unfold merge_states. cbn. destruct (Z.eqb_spec (sm_st a) (sm_st b)) as [Eq|].
    { destruct H as [H|H]; [by rewrite E1 in H|by rewrite E2, <- Eq in H]. }
    unfold NONZERO, ZERO. destruct ((sm_st a =? 0) || (sm_st b =? 0)); split; discriminate.
  - intros over cur b r s _ _ E. unfold stands. rewrite E. by split.
  - intros over cur sm other set. unfold call_pre_merge_hook. cbn. destruct (owner sm >=? 3); by intros ?%elem_of_nil.
Qed.

(** The states of this check are true of the store. *)
Abbreviation true_of := (describes 1 stands).

Lemma nothing_later (f : machine -> machine) (r : (Z -> Z) -> (Z -> Z) -> Prop) :
  (forall m, f m = m) -> (forall s s', r s s' -> s' = s) -> sets_later true_of f r.
Proof.
  intros F R c fake pre ct cf h m _ W _. exists [], h. rewrite F. split; [by rewrite below_nil|]. split; [apply grows_refl|]. split; [apply wf_table_nil|].
  by intros x s s' _ _ D ->%R.
Qed.

Lemma nothing_set (f : machine -> machine) (r : (Z -> Z) -> (Z -> Z) -> Prop) :
  (forall m, f m = m) -> (forall s s', r s s' -> s' = s) -> sets_states true_of f r.
Proof. intros F R. apply later_sets. by apply nothing_later. Qed.

(** A table with one state of the check. *)
Lemma describes_one h sm s : stands sm s -> true_of h [sm] s.
Proof. intros H k. unfold tget, find_sm. cbn [List.find]. destruct (cmp_tracker k sm =? 0); [by intros _|done]. Qed.

Lemma outcomes_set e : sets_outcomes true_of e.
Proof.
  intros c fake pre t ts f fs h m N W _.
  assert (below fake [] = fake) as Ef by (by destruct fake).
  destruct e; try (exists [], [], [], h; rewrite Ef; split; [done|]; split; [apply grows_refl|]; do 3 (split; [apply wf_table_nil|]); by intros s [] D T).
  cbn [__pass_to_client core condition_hook]. unfold set_true_false_states, is_unreachable. cbn [cur_stree put set_cur_stree].
  rewrite bool_decide_false by done.
  set (h1 := (alloc_sm_state 1 [120] id NONZERO h).2). set (h2 := (alloc_sm_state 1 [120] id ZERO h1).2).
  set (a := SmState (next_sm h) [120] 1 id (lineno h) NONZERO). set (b := SmState (next_sm h + 1) [120] 1 id (lineno h) ZERO).
  assert (grows true_of h h1) as G1 by (apply describes_grows; cbn; lia). assert (grows true_of h h2) as G2 by (apply describes_grows; cbn; lia).
  assert (forall s, negb (s id =? 0) = true -> true_of h2 [a] s /\ true_of h1 [a] s) as Ta.
  { intros s E%negb_true_iff%Z.eqb_neq. by split; apply describes_one. }
  assert (forall s, negb (s id =? 0) = false -> true_of h2 [b] s) as Tb.
  { intros s E%negb_false_iff%Z.eqb_eq. by apply describes_one. }
  assert (forall n, next_sm h < n -> wf_table n [a]) as Wa.
  { intros n L. split; [by repeat constructor|]. constructor; [|constructor]. split; cbn; unfold USHRT_MAX; lia. }
  destruct (Z.even id).
  - exists [], [a], [], h1. rewrite Ef. split; [reflexivity|]. split; [done|]. split; [apply wf_table_nil|].
    split; [apply Wa; cbn; lia|]. split; [apply wf_table_nil|]. intros s x D T. split; [done|]. cbn in T. destruct x; [|done].
    apply (describes_overwrite 1 stands h h1 [a] c); [by repeat constructor|by apply Ta|done].
  - exists [], [a], [b], h2. rewrite Ef. split; [reflexivity|]. split; [done|]. split; [apply wf_table_nil|].
    split; [apply Wa; cbn; lia|]. split; [split; [by repeat constructor|constructor; [|constructor]; split; cbn; unfold USHRT_MAX; lia]|].
    intros s x D T. split; [done|]. cbn in T.
    destruct x; [apply (describes_overwrite 1 stands h h2 [a] c)|apply (describes_overwrite 1 stands h h2 [b] c)];
      [by repeat constructor|by apply Ta|done|by repeat constructor|by apply Tb|done].
Qed.

#[export] Instance core_ok : CoreOk true_of.
Proof.
  split; try (intros; by apply nothing_set); try (intros; intros fake pre ct cf h m; exists h; split; [done|apply grows_refl]).
  - intros hook e fake pre ct cf h m. exists h. split; [|apply grows_refl]. destruct hook, e as [[]|]; try reflexivity.
  - by apply nothing_later.
  - intros e _. apply outcomes_set.
  - intros m e s b _ [E|E]; discriminate E.
  - intros m e s b _ [E|E]; discriminate E.
  - intros op l r s b E. discriminate E.
Qed.

(** The table of a path that can be reached and on which nothing is known. *)
Definition reachable : table := [SmState 0 unnull_path USHRT_MAX 0 0 3].

Definition start : machine := set_cur_stree reachable (empty_machine (Sms ∅ 1 0 [] 1)).






End Sample.

Section witness.
Import Sample.


End witness.

(** ** What is not sound *)

(** States are sets of bits, and a table knows one thing, the symbol 9. *)
Module OneSided.
#[local] Existing Instance Bits.checks.

Definition x : list Z := [120].

(** a is true in the states 2 and 4 and false in 1; if b or c is true the state is 4, and if
    they are false it is what it was. *)
Definition a : expression := EXPR_OTHER 1.
Definition b : expression := EXPR_OTHER 2.
Definition c : expression := EXPR_OTHER 3.

Definition condition_hook (hook : hook_type) (e : option expression) (m : machine) : machine :=
  match hook, e with
  | CONDITION_HOOK, Some (EXPR_OTHER 1) => set_true_false_states 1 x 9 6 1 m
  | CONDITION_HOOK, Some (EXPR_OTHER (2 | 3)) => set_true_false_states 1 x 9 4 0 m
  | _, _ => m
  end.

(** Parsing a call, or x++ with a call inside of it, sets a state. *)
Definition split_expr (e : expression) (m : machine) : machine :=
  match e with EXPR_CALL _ _ | EXPR_POSTOP _ (EXPR_CALL _ _) => (set_state 1 x 9 4 m).2 | _ => m end.

Definition call : expression := EXPR_CALL c [].

#[export] Instance core : Core := {|
  __split_expr := split_expr;
  __split_stmt := fun _ m => m;
  __split_label_stmt := fun _ m => m;
  __process_post_op_stack := fun m => m;
  __pass_to_client := condition_hook;
  __push_scope_hooks := fun m => m;
  __call_scope_hooks := fun m => m;
  strip_expr_set_parent := fun _ e => Some e;
  strip_expr := fun _ e => e;
  expr_is_zero := fun _ _ => false;
  type_unsigned := fun _ => false;
  implied_condition_true := fun _ _ => false;
  implied_condition_false := fun _ _ => false;
  known_condition_true := fun _ _ => false;
  known_condition_false := fun _ _ => false
|}.

Definition start : machine := set_cur_stree Sample.reachable (empty_machine (Sms ∅ 1 0 [] 1)).

(** The states of x when the condition is true and when it is false. *)
Definition outcomes (e : expression) : option (option Z * option Z) :=
  '(_, m) ← __split_whole_condition_tf 9 (Some e) start;
  let st t := sm_st <$> tget (tracker 1 x 9) t in
  Some (st (cur_stree m), st (top_stree (false_stack m))).

End OneSided.

(** split_conditions() relies on its callers in two ways.  A check that sets a state for one
    outcome only gets a wrong one for the other: in a && (b || c), where b and c set the state 4
    if they are true and nothing if they are false, the state on the false path is 1|4, although
    a may be true in the state 2 with b and c false; for a && b it is 1|2|4, and [covered] asks for
    such a right side.  And a state that is set while x++ is parsed
    is lost on both paths, because x++ is parsed between two fake tables; for another
    expression it is kept. *)
Theorem conditions_rely_on_callers :
  OneSided.outcomes (EXPR_LOGICAL true OneSided.a (EXPR_LOGICAL false OneSided.b OneSided.c)) = Some (Some 4, Some 5) /\
  OneSided.outcomes (EXPR_LOGICAL true OneSided.a OneSided.b) = Some (Some 4, Some 7) /\
  OneSided.outcomes (EXPR_POSTOP 0 OneSided.call) = Some (None, None) /\
  OneSided.outcomes OneSided.call = Some (Some 4, Some 4).
Proof. by vm_compute. Qed.
