(* ===== verification/Flow.v ===== *)
(** * The walk over a function, smatch_flow.c

    __split_stmt() and the handlers of the statements, over the machine of States.v.  A
    function is walked once, from its first line to its last: a branch is parsed with the
    states of its condition, and what is known at a goto, a break or a continue waits on a
    stack until the walk comes to the place it leads to.

    The class [Walk] has what the walk uses of the rest of the program: the value of
    constants, the function that is parsed, the options, smatch_extra.c for loops and
    smatch_implied.c for cases.  [None] is a read through NULL or of the wrong member of a
    union, or too little fuel.  Left out are messages, parents of expressions and
    statements, and the stacks of expressions and statements, __prev_stmt, __cur_stmt and
    __next_stmt, which only hooks read. *)
From Stdlib Require Import Ascii String.
From stdpp Require Import gmap.
From S2P Require Import Prelude Types Tokens Sval Syntax RangeList RangeCompare RangeText Avl AvlFacts Stree StreeWorld Tables SmState Merge States Conditions.
#[local] Open Scope Z_scope.

Inductive stmt_hook : Set := STMT_HOOK | STMT_HOOK_AFTER | PRELOOP_HOOK | POSTLOOP_HOOK | AFTER_LOOP_NO_BREAKS | ASM_HOOK.

Class Walk : Type := {
  __pass_stmt_to_client : stmt_hook -> statement -> machine -> machine;
  __pass_case_to_client : expression -> range_list -> machine -> machine;
  __call_all_scope_hooks : machine -> machine;
  split_declaration : Z -> machine -> machine;
  fake_a_variable_assign : expression -> expression;            (* for a return value *)
  get_value : expression -> option sval_t;
  get_type : expression -> option symbol;
  get_absolute_rl : machine -> expression -> range_list;
  parsed_pos : statement -> position;                           (* of what the parser made *)
  option_assume_loops : bool;
  option_project_kernel : bool;                                 (* option_project == PROJ_KERNEL *)
  once_through_hooks : list (machine -> statement -> bool);
  is_skipped_function : bool;
  taking_too_long : machine -> bool;
  fn_stmt : option statement;                                   (* of the type of cur_func_sym *)
  fn_inline_stmt : option statement;
  cur_func_returns_void : bool;
  unknown_value_expression : expression;
  __extra_handle_canonical_loops : statement -> machine -> option sm_state * table * machine;
  __iterator_unchanged : machine -> option sm_state -> bool;
  __extra_pre_loop_hook_after : sm_state -> option statement -> option expression -> machine -> machine;
  expr_to_chunk_sym_vsl : expression -> option (list Z * Z);
  separate_and_filter : sm_state -> range_list -> table -> machine -> table * machine;
  set_extra_nomod_vsl : list Z -> Z -> range_list -> machine -> machine
}.

(** The characters of a name. *)
Definition chars (s : text) : list Z := map (fun c => Z.of_nat (nat_of_ascii c)) s.

Definition get_loop_name (num : Z) : list Z := chars (lit "-loop" ++ print_lld num).

(** "break" and "continue" *)
Definition name_break : list Z := [98; 114; 101; 97; 107].
Definition name_continue : list Z := [99; 111; 110; 116; 105; 110; 117; 101].

Definition u32 (z : Z) : Z := z mod 2 ^ 32.

Definition is_case (s : statement) : bool := match s with STMT_CASE _ _ _ => true | _ => false end.

(** ** Variables *)

Definition upd (f : variables -> variables) (m : machine) : machine := set_vars (f (vars m)) m.

Definition incr_loop_num : machine -> machine := upd (fun v => set_loop_num (loop_num v + 1) v).
Definition incr_loop_count : machine -> machine := upd (fun v => set_loop_count (u32 (loop_count v + 1)) v).
Definition decr_loop_count : machine -> machine := upd (fun v => set_loop_count (u32 (loop_count v - 1)) v).
Definition incr_in_pre_condition : machine -> machine := upd (fun v => set___in_pre_condition (__in_pre_condition v + 1) v).
Definition decr_in_pre_condition : machine -> machine := upd (fun v => set___in_pre_condition (__in_pre_condition v - 1) v).

Definition inside_loop (m : machine) : bool := truth (loop_count (vars m)).
Definition definitely_inside_loop (m : machine) : bool :=
  truth (Z.land (loop_count (vars m)) (Z.lxor 0x08000000 0xffffffff)).

Definition push_switch_expr (e : expression) : machine -> machine := upd (fun v => set_switch_expr_stack (e :: switch_expr_stack v) v).
Definition pop_switch_expr : machine -> machine := upd (fun v => set_switch_expr_stack (tl (switch_expr_stack v)) v).
Definition get_switch_expr (m : machine) : option expression := head (switch_expr_stack (vars m)).

(** __smatch_lineno = line *)
Definition set_lineno (line : Z) (m : machine) : machine :=
  let h := heap_sms m in
  set_heap_sms (Sms (infos h) (next_sm h) (next_stree_id h) (all_pools h) line) m.

Definition set_position (pos : position) (m : machine) : machine :=
  if in_fake_env (vars m) then m
  else if (pos_stream pos =? 0) && (pos_line pos =? 0) then m
  else upd (set_current_pos pos) (set_lineno (pos_line pos) m).

Section walk.
Context `{Tgt : Target} `{Fp : FloatOps} `{Chk : Checks} `{Cor : Core} `{Wlk : Walk}.

(** The member pos; an empty statement is also made by fake_an_empty_default(). *)
Definition stmt_pos (s : statement) : position := match s with STMT_NONE pos => pos | _ => parsed_pos s end.

(** __split_expr() of a pointer that may be NULL. *)
Definition split_expr (e : option expression) (m : machine) : machine :=
  match e with Some e => __split_expr e m | None => m end.

(** ** Parts of the function *)

Definition get_last_stmt : option statement :=
  match match fn_stmt with Some s => Some s | None => fn_inline_stmt end with
  | Some (STMT_COMPOUND _ stmts) =>
    match head (List.rev stmts) with
    | Some (STMT_LABEL _ _ s) => s
    | s => s
    end
  | _ => None
  end.

(** is_last_stmt() for the goto with this address. *)
Definition is_last_stmt (addr : Z) : bool :=
  match get_last_stmt with Some (STMT_GOTO a _ _) => a =? addr | _ => false end.

(** is_function_scope() for the compound statement with this address. *)
Definition is_function_scope (addr : Z) : bool :=
  let same s := match s with Some (STMT_COMPOUND a _) => a =? addr | _ => false end in
  same fn_stmt || same fn_inline_stmt.

Definition is_forever_loop (m : machine) (pre_condition post_condition : option expression) : bool :=
  let expr := match pre_condition with Some e => Some (strip_expr m e) | None => post_condition end in
  match expr with
  | None => true
  | Some e => match get_value e with Some sval => negb (value sval =? 0) | None => false end
  end.

Definition call_once_through_hooks (m : machine) (stmt : statement) : bool :=
  if option_assume_loops then true else existsb (fun fn => fn m stmt) once_through_hooks.

Definition do_scope_hooks (m : machine) : machine :=
  let orig := current_pos (vars m) in set_position orig (__call_scope_hooks m).

(** The label among the last three statements of the if in the body. *)
Definition get_scoped_guard_label (iterator : option statement) : option (list Z) :=
  match iterator with
  | Some (STMT_IF _ (Some (STMT_COMPOUND _ stmts)) _) =>
    head (omap (fun s => match s with STMT_LABEL name _ _ => Some name | _ => None end) (take 3 (List.rev stmts)))
  | _ => None
  end.

(** An empty expression statement is a NULL dereference. *)
Definition is_scoped_guard_goto (m : machine) (iterator post_stmt : option statement) : option bool :=
  if negb option_project_kernel then Some false
  else match get_scoped_guard_label iterator with
  | None => Some false
  | Some label =>
    match post_stmt with
    | Some (STMT_EXPRESSION None) => None
    | Some (STMT_EXPRESSION (Some e)) =>
      Some match strip_expr m e with
           | EXPR_PAREN (EXPR_STATEMENT (STMT_COMPOUND _ (STMT_GOTO _ _ (Some (SYM_LABEL name _)) :: _))) =>
             bool_decide (strcmp name label = 0)
           | _ => false
           end
    | _ => Some false
    end
  end.

(** ** Cases *)

Definition get_case_rl (switch_expr case_expr case_to : option expression) : range_list :=
  let switch_type := switch_expr ≫= get_type in
  match case_to ≫= get_value, case_expr ≫= get_value with
  | Some end_, Some start => add_range [] (sval_cast switch_type start) (sval_cast switch_type end_)
  | None, Some start => let start := sval_cast switch_type start in add_range [] start start
  | _, None => []
  end.

(** filter_top_rl() *)
Definition filter_remaining_cases (rl : range_list) (m : machine) : machine :=
  set_remaining_cases (rl_filter (hd [] (remaining_cases m)) rl :: tl (remaining_cases m)) m.

(** __implied_case_stree() of smatch_implied.c: the states of the case and the states of the
    switch, which it does not change. *)
Definition __implied_case_stree (switch_expr : option expression) (rl : range_list) (raw_stree : table) (m : machine) : table * table * machine :=
  let name := switch_expr ≫= expr_to_chunk_sym_vsl in
  let '(rl, m) := match rl with
                  | [] => (hd [] (remaining_cases m), m)
                  | _ => (rl, filter_remaining_cases rl m)
                  end in
  let '(true_states, m) :=
    match name with
    | Some (name, sym) =>
      match tget (tracker SMATCH_EXTRA name sym) raw_stree with
      | Some sm => separate_and_filter sm rl raw_stree m
      | None => ([], m)
      end
    | None => ([], m)
    end in
  let m := __unnullify_path (__push_fake_cur_stree m) in
  let m := match name with Some (name, sym) => set_extra_nomod_vsl name sym rl m | None => m end in
  let m := match switch_expr with Some e => __pass_case_to_client e rl m | None => m end in
  let '(extra_states, m) := __pop_fake_cur_stree m in
  (overwrite (overwrite extra_states true_states) raw_stree, raw_stree, m).

Definition merge_switches (rl : range_list) (m : machine) : machine :=
  __merge_switches (__implied_case_stree (get_switch_expr m) rl) m.

Definition is_case_val (stmt : statement) (sval : sval_t) (m : machine) : bool * machine :=
  match stmt with
  | STMT_CASE None _ _ => (true, __set_default m)
  | STMT_CASE (Some e) _ _ => (match get_value e with Some case_sval => value case_sval =? value sval | None => false end, m)
  | _ => (false, m)
  end.

(** The loop of split_case() over case labels that follow one another: the values, whether the
    last label is default, its statement, and the machine. *)
Fixpoint case_labels (switch_expr : option expression) (rl : range_list) (case_expression : option expression) (case_statement : statement)
    (m : machine) : range_list * option expression * statement * machine :=
  match case_statement with
  | STMT_CASE e to s =>
    let '(rl, m) :=
      match get_case_rl switch_expr e to with
      | [] => (rl, m)
      | tmp => (rl_union rl tmp, match case_expression with None => __set_default m | Some _ => m end)
      end in
    case_labels switch_expr rl e s m
  | _ => (rl, case_expression, case_statement, m)
  end.

(** ** Statements *)

(** Giving up. *)
Definition fake_a_return (m : machine) : machine :=
  let m := __unnullify_path (nullify_path m) in
  let ret := if cur_func_returns_void then None else Some unknown_value_expression in
  nullify_path (__pass_to_client RETURN_HOOK ret m).

Definition __split_label_stmt (label : list Z) (sym : Z) (m : machine) : machine :=
  __merge_gotos label sym (upd (fun v => set_loop_count (Z.lor (loop_count v) 0x0800000) v) m).

Definition split_ret_value (e : option expression) (m : machine) : machine :=
  match e with Some e => __split_expr (fake_a_variable_assign e) m | None => m end.

Definition free_parsed_call_stuff (free_fake_states : bool) (m : machine) : machine :=
  if free_fake_states then __discard_fake_states None m else m.

Section split.
(** __split_stmt() for what is inside, and the fuel for conditions. *)
Context (split_stmt : option statement -> machine -> option machine) (fuel : nat).

Fixpoint split_stmts (stmts : list statement) (m : machine) : option machine :=
  match stmts with
  | [] => Some m
  | cur :: next => m ← split_stmt (Some cur) m; split_stmts next m
  end.

Definition split_compound (addr : Z) (stmts : list statement) (m : machine) : option machine :=
  m ← split_stmts stmts (__push_scope_hooks m);
  Some (if is_function_scope addr then m else do_scope_hooks m).

Definition split_if_statement (cond : expression) (if_true if_false : option statement) (m : machine) : option machine :=
  '(known_tf, m) ← __split_whole_condition_tf fuel (Some cond) m;
  if known_tf =? 1 then m ← split_stmt if_true m; Some (__discard_false_states m)
  else if known_tf =? 0 then split_stmt if_false (__use_false_states m)
  else
    m ← split_stmt if_true m;
    let m := __use_false_states (__push_true_states m) in
    m ← split_stmt if_false m;
    Some (__merge_true_states m).

(** The condition of a loop at its start: whether the loop is gone through at least once.  The
    states [stree] are those of a canonical loop. *)
Definition test_loop (stmt : statement) (pre_condition : option expression) (stree : table) (m : machine) : option (bool * machine) :=
  let m := __set_confidence_implied (incr_in_pre_condition m) in
  '(tf, m) ← __split_whole_condition_tf fuel pre_condition m;
  let once_through := match pre_condition with None => true | Some _ => tf =? 1 end in
  let m := __unset_confidence m in
  let once_through := if once_through then true else call_once_through_hooks m stmt in
  let m := decr_in_pre_condition m in
  Some (once_through, foldl (fun m sm => (set_state (owner sm) (sm_name sm) (sm_sym sm) (sm_st sm) m).2) m stree).

(** handle_pre_loop() up to the body: the name of the loop, whether it is gone through at least
    once, and the state of the iterator. *)
Definition pre_loop_head (stmt : statement) (syms : Z) (pre_statement : option statement) (pre_condition : option expression)
    (m : machine) : option (list Z * bool * option sm_state * machine) :=
  let m := __push_scope_hooks m in
  let loop_name := get_loop_name (loop_num (vars m)) in
  let m := split_declaration syms (incr_loop_num m) in
  m ← match pre_statement with Some s => split_stmt (Some s) m | None => Some m end;
  let m := __push_breaks (__push_continues (incr_loop_count m)) in
  let m := __merge_gotos loop_name 0 m in
  let m := __pass_stmt_to_client PRELOOP_HOOK stmt m in
  let '(extra_sm, stree, m) := __extra_handle_canonical_loops stmt m in
  '(once_through, m) ← test_loop stmt pre_condition stree m;
  let extra_sm := match extra_sm with Some sm => get_sm_state m (owner sm) (sm_name sm) (sm_sym sm) | None => None end in
  Some (loop_name, once_through, extra_sm, m).

(** The states of the loop that is not gone through. *)
Definition leave_false_states (once_through : bool) (m : machine) : machine :=
  if once_through then __discard_false_states m else __merge_false_states m.

(** The three ends of handle_pre_loop(). *)
Definition pre_loop_scoped_guard (stmt : statement) (loop_name : list Z) (once_through : bool) (m : machine) : machine :=
  let m := __save_gotos loop_name 0 (__merge_continues m) in
  let m := leave_false_states once_through m in
  __merge_breaks (__pass_stmt_to_client AFTER_LOOP_NO_BREAKS stmt m).

Definition pre_loop_forever (stmt : statement) (loop_name : list Z) (post_statement : option statement) (m : machine) : option machine :=
  let m := __save_gotos loop_name 0 (__merge_continues m) in
  m ← split_stmt post_statement (__push_fake_cur_stree m);
  let '(stree, m) := __pop_fake_cur_stree m in
  let m := __pass_stmt_to_client AFTER_LOOP_NO_BREAKS stmt (__discard_false_states m) in
  let m := __use_breaks m in
  Some (if negb (__path_is_null m) then __merge_stree_into_cur stree m else m).

Definition pre_loop_end (stmt : statement) (loop_name : list Z) (once_through : bool) (extra_sm : option sm_state) (post_statement : option statement)
    (pre_condition : option expression) (m : machine) : option machine :=
  let m := __merge_continues m in
  let unchanged := __iterator_unchanged m extra_sm in
  m ← split_stmt post_statement m;
  let m := incr_in_pre_condition (__save_gotos loop_name 0 m) in
  m ← __split_whole_condition fuel pre_condition m;
  let m := __merge_false_states (nullify_path (decr_in_pre_condition m)) in
  let m := leave_false_states once_through m in
  let m := match extra_sm with
           | Some sm => if unchanged then __extra_pre_loop_hook_after sm post_statement pre_condition m else m
           | None => m
           end in
  Some (__merge_breaks (__pass_stmt_to_client AFTER_LOOP_NO_BREAKS stmt m)).

Definition handle_pre_loop (stmt : statement) (syms : Z) (pre_statement : option statement) (pre_condition : option expression)
    (body post_statement : option statement) (post_condition : option expression) (m : machine) : option machine :=
  '(loop_name, once_through, extra_sm, m) ← pre_loop_head stmt syms pre_statement pre_condition m;
  m ← split_stmt body m;
  scoped_guard ← is_scoped_guard_goto m body post_statement;
  m ← (if (scoped_guard : bool) then Some (pre_loop_scoped_guard stmt loop_name once_through m)
       else if is_forever_loop m pre_condition post_condition then pre_loop_forever stmt loop_name post_statement m
       else pre_loop_end stmt loop_name once_through extra_sm post_statement pre_condition m);
  Some (do_scope_hooks (decr_loop_count m)).

Definition handle_post_loop (stmt : statement) (body : option statement) (post_condition : option expression) (m : machine) : option machine :=
  let loop_name := get_loop_name (loop_num (vars m)) in
  let m := incr_loop_count (incr_loop_num m) in
  let m := __pass_stmt_to_client POSTLOOP_HOOK stmt m in
  let m := __push_breaks (__push_continues m) in
  let m := __merge_gotos loop_name 0 m in
  m ← split_stmt body m;
  let m := __merge_continues m in
  let m := if match post_condition with Some e => expr_is_zero m e | None => false end then m else __save_gotos loop_name 0 m in
  m ← (if is_forever_loop m None post_condition then Some (__use_breaks (__pass_stmt_to_client AFTER_LOOP_NO_BREAKS stmt m))
       else
         m ← __split_whole_condition fuel post_condition m;
         Some (__merge_breaks (__pass_stmt_to_client AFTER_LOOP_NO_BREAKS stmt (__use_false_states m))));
  Some (decr_loop_count m).

(** The loop of split_known_switch(), which ends at the first statement after the case that
    does not go on. *)
Fixpoint known_cases (sval : sval_t) (stmts : list statement) (m : machine) : option machine :=
  match stmts with
  | [] => Some m
  | tmp :: stmts =>
    let next m := if __path_is_null m then Some (__set_default m) else known_cases sval stmts m in
    let m := set_lineno (pos_line (stmt_pos tmp)) m in
    let '(is_val, m) := is_case_val tmp sval m in
    match is_val, tmp with
    | true, STMT_CASE _ _ case_statement =>
      let rl := alloc_rl sval sval in
      let m := merge_switches rl m in
      let m := match get_switch_expr m with Some e => __pass_case_to_client e rl m | None => m end in
      m ← split_stmt (Some case_statement) m; next m
    | _, _ =>
      if __path_is_null m then known_cases sval stmts m
      else m ← split_stmt (Some tmp) m; next m
    end
  end.

(** What both kinds of switch do before their cases. *)
Definition enter_switch (e : expression) (m : machine) : machine :=
  let m := push_switch_expr e (__split_expr e m) in
  let m := nullify_path (__save_switch_states (get_absolute_rl m e) m) in
  __push_breaks (__push_default m).

Definition leave_switch (m : machine) : machine := pop_switch_expr (__merge_breaks (__discard_switches m)).

(** A body that is not { ... } is read as one all the same. *)
Definition split_known_switch (e : expression) (body : statement) (sval : sval_t) (m : machine) : option machine :=
  let m := enter_switch e m in
  let sval := sval_cast (get_type e) sval in
  match body with
  | STMT_COMPOUND _ stmts =>
    m ← known_cases sval stmts (__push_scope_hooks m);
    let m := do_scope_hooks m in
    let '(has_default, m) := __pop_default m in
    let m := if has_default then m else merge_switches [] m in
    Some (leave_switch m)
  | _ => None
  end.

(** fake_an_empty_default() *)
Definition fake_an_empty_default (pos : position) (m : machine) : option machine :=
  split_stmt (Some (STMT_NONE pos)) (merge_switches [] m).

Definition split_switch (pos : position) (e : expression) (body : statement) (m : machine) : option machine :=
  m ← split_stmt (Some body) (enter_switch e m);
  let '(has_default, m) := __pop_default m in
  m ← (if negb has_default && have_remaining_cases m then fake_an_empty_default pos m else Some m);
  Some (leave_switch m).

Definition split_case (case_expression case_to : option expression) (case_statement : statement) (m : machine) : option machine :=
  let switch_expr := get_switch_expr m in
  let rl := get_case_rl switch_expr case_expression case_to in
  let '(rl, case_expression, case_statement, m) := case_labels switch_expr rl case_expression case_statement m in
  let m := merge_switches rl m in
  let m := match case_expression with None => __set_default m | Some _ => m end in
  split_stmt (Some case_statement) m.

(** The statements of the function from a label on. *)
Fixpoint from_label (name : list Z) (stmts : list statement) : list statement :=
  match stmts with
  | [] => []
  | STMT_LABEL label _ _ :: rest => if bool_decide (strcmp name label = 0) then stmts else from_label name rest
  | _ :: rest => from_label name rest
  end.

(** A goto that is the last statement is followed backwards, once. *)
Definition handle_backward_goto_at_end (addr : Z) (target : option goto_label) (m : machine) : option machine :=
  if negb (is_last_stmt addr) then Some m
  else if last_goto_statement_handled (vars m) then Some m
  else
    let m := upd (set_last_goto_statement_handled true) m in
    match target with
    | Some (SYM_LABEL name _) =>
      match match fn_stmt with Some s => Some s | None => fn_inline_stmt end with
      | Some (STMT_COMPOUND _ stmts) =>
        let again := from_label name stmts in
        let m := match again with [] => m | _ => upd (set___reparsing_code true) m end in
        m ← split_stmts again m;
        Some (upd (set___reparsing_code false) m)
      | _ => Some m
      end
    | _ => Some m
    end.

Definition split_goto (addr : Z) (goto_expression : option expression) (target : option goto_label) (m : machine) : option machine :=
  let m := split_expr goto_expression m in
  let m := match target with
           | Some (SYM_NODE name) =>
             if bool_decide (strcmp name name_break = 0) then __process_breaks m
             else if bool_decide (strcmp name name_continue = 0) then __process_continues m
             else m
           | Some (SYM_LABEL name sym) => __save_gotos name sym m
           | None => m
           end in
  m ← handle_backward_goto_at_end addr target m;
  Some (nullify_path m).

Definition split_asm (asm_string : option expression) (outputs inputs clobbers : list expression) (labels : list (list Z * Z))
    (stmt : statement) (m : machine) : machine :=
  let m := foldl (fun m l => __save_gotos l.1 l.2 m) m labels in
  let m := split_expr asm_string (__pass_stmt_to_client ASM_HOOK stmt m) in
  let m := foldl (fun m e => __split_expr e m) m (outputs ++ inputs) in
  foldl (fun m e => __process_post_op_stack (__split_expr e m)) m clobbers.

(** The switch over the types of statements; the hook after a label comes before its
    statement. *)
Definition split_by_type (stmt : statement) (m : machine) : option machine :=
  match stmt with
  | STMT_NONE _ | STMT_CONTEXT => Some m
  | STMT_DECLARATION syms => Some (split_declaration syms m)
  | STMT_RETURN e =>
    let m := __call_all_scope_hooks (__process_post_op_stack (split_ret_value e m)) in
    Some (nullify_path (__pass_to_client RETURN_HOOK e m))
  | STMT_EXPRESSION e => Some (split_expr e m)
  | STMT_COMPOUND addr stmts => split_compound addr stmts m
  | STMT_IF cond if_true if_false => split_if_statement cond if_true if_false m
  | STMT_ITERATOR syms pre_statement pre_condition body post_statement post_condition =>
    match pre_condition, post_condition with
    | None, Some _ => handle_post_loop stmt body post_condition m
    | _, _ => handle_pre_loop stmt syms pre_statement pre_condition body post_statement post_condition m
    end
  | STMT_SWITCH e body =>
    match get_value e with
    | Some sval => split_known_switch e body sval m
    | None => split_switch (stmt_pos stmt) e body m
    end
  | STMT_CASE e to s => split_case e to s m
  | STMT_LABEL label sym s => split_stmt s (__pass_stmt_to_client STMT_HOOK_AFTER stmt (__split_label_stmt label sym m))
  | STMT_GOTO addr e target => split_goto addr e target m
  | STMT_ASM s outputs inputs clobbers labels => Some (split_asm s outputs inputs clobbers labels stmt m)
  | STMT_RANGE e low high => Some (__split_expr high (__split_expr low (__split_expr e m)))
  end.

End split.

Definition stop_parsing (m : machine) : machine :=
  let m := upd (fun v => set_final_pass 1 (set___bail_on_rest_of_function true v)) m in
  upd (set_final_pass 0) (fake_a_return m).

(** What is done before every statement. *)
Definition enter_stmt (stmt : statement) (m : machine) : machine :=
  let m := upd (fun v => set_indent_cnt (indent_cnt v + 1) v) m in
  let m := free_parsed_call_stuff (indent_cnt (vars m) =? 1) m in
  __pass_stmt_to_client STMT_HOOK stmt (set_position (stmt_pos stmt) m).

(** And after it. *)
Definition leave_stmt (stmt : statement) (m : machine) : machine :=
  let m := if is_label stmt then m else __pass_stmt_to_client STMT_HOOK_AFTER stmt m in
  let m := upd (fun v => set_indent_cnt (indent_cnt v - 1) v) m in
  __process_post_op_stack (free_parsed_call_stuff (indent_cnt (vars m) =? 1) m).

Fixpoint __split_stmt (fuel : nat) (stmt : option statement) (m : machine) : option machine :=
  match fuel with
  | O => None
  | S fuel =>
    match stmt with
    | None => Some (__process_post_op_stack m)
    | Some stmt =>
      if __bail_on_rest_of_function (vars m) || is_skipped_function then Some m
      else if out_of_memory (heap_sms m) || taking_too_long m then Some (stop_parsing m)
      else
        m ← split_by_type (__split_stmt fuel) fuel stmt (enter_stmt stmt m);
        Some (leave_stmt stmt m)
    end
  end.

End walk.
