(* ===== verification/FlowSound.v ===== *)
(** * What the walk promises

    The meaning of statements, the promises of the rest of the program, and the invariant
    of the walk: a table that is on a stack is true of every store with which an execution
    can come to the place the table waits for.

    The walk goes over a function once, so this is about executions that go through every
    loop at most once and jump forward only. *)
From stdpp Require Import gmap.
From S2P Require Import Prelude Types Tokens Sval RangeList Avl AvlFacts Stree StreeWorld Tables SmState Merge MergeFacts Syntax States Conditions ConditionFacts ConditionSound Flow.
#[local] Open Scope Z_scope.

(** ** Executions of statements *)

(** How a statement is entered and left. *)
Inductive way_in : Set := Start | At (label : list Z) (sym : Z).
Inductive way_out : Set := Falls | Breaks | Continues | Goes (label : list Z) (sym : Z) | Returns.

#[export] Instance way_out_eq_dec : EqDecision way_out.
Proof. solve_decision. Defined.

(** What a declaration does, and the loops that can be left before they are gone through. *)
Class StmtMeaning (store : Type) : Type := {
  declares : Z -> store -> store -> Prop;
  skips : statement -> store -> Prop
}.

Section meaning.
Context {store : Type} `{Mean : Meaning store} `{SMean : StmtMeaning store}.

(** The condition of a loop; none is true. *)
Definition passes (c : option expression) (s : store) (b : bool) (s' : store) : Prop :=
  match c with Some e => exec e s b s' | None => b = true /\ s' = s end.

(** A loop that is not do { } while. *)
Definition is_pre_loop (c post_c : option expression) : Prop := c <> None \/ post_c = None.

(** [runs stmt i s o s']: entered by [i] in the store [s], the statement can be left by [o] in
    [s'].  At the end of every statement that is not left by a jump the increments are
    done.  A jump out of a statement is followed if the label is in a later statement of
    the same block or of one around it. *)
Inductive runs : option statement -> way_in -> store -> way_out -> store -> Prop :=
  | runs_null s s' : post s s' -> runs None Start s Falls s'
  | runs_falls stmt i s s1 s' : performs stmt i s Falls s1 -> post s1 s' -> runs (Some stmt) i s Falls s'
  | runs_leaves stmt i s o s' : performs stmt i s o s' -> o <> Falls -> runs (Some stmt) i s o s'
with performs : statement -> way_in -> store -> way_out -> store -> Prop :=
  | performs_none pos s : performs (STMT_NONE pos) Start s Falls s
  | performs_context s : performs STMT_CONTEXT Start s Falls s
  | performs_declaration d s s' : declares d s s' -> performs (STMT_DECLARATION d) Start s Falls s'
  | performs_empty s : performs (STMT_EXPRESSION None) Start s Falls s
  | performs_expression e s s' : eval e s s' -> performs (STMT_EXPRESSION (Some e)) Start s Falls s'
  | performs_return e s : performs (STMT_RETURN e) Start s Returns s
  | performs_compound addr l i s o s' : runs_all l i s o s' -> performs (STMT_COMPOUND addr l) i s o s'
  | performs_if c t f s (b : bool) s1 o s' :
    exec c s b s1 -> runs (if b then t else f) Start s1 o s' -> performs (STMT_IF c t f) Start s o s'
  | performs_into_if c t f (b : bool) label sym s o s' :
    runs (if b then t else f) (At label sym) s o s' -> performs (STMT_IF c t f) (At label sym) s o s'
  | performs_label label sym stmt i s o s' :
    i = Start \/ i = At label sym -> runs stmt Start s o s' -> performs (STMT_LABEL label sym stmt) i s o s'
  | performs_into_label label sym stmt label' sym' s o s' :
    runs stmt (At label' sym') s o s' -> performs (STMT_LABEL label sym stmt) (At label' sym') s o s'
  | performs_break addr name s :
    strcmp name name_break = 0 -> performs (STMT_GOTO addr None (Some (SYM_NODE name))) Start s Breaks s
  | performs_continue addr name s :
    strcmp name name_break <> 0 -> strcmp name name_continue = 0 ->
    performs (STMT_GOTO addr None (Some (SYM_NODE name))) Start s Continues s
  | performs_goto addr label sym s : performs (STMT_GOTO addr None (Some (SYM_LABEL label sym))) Start s (Goes label sym) s
  | performs_no_turn syms pre c body stmt post_c s s0 s1 s' :
    is_pre_loop c post_c -> declares syms s s0 -> (pre = None /\ s1 = s0) \/ (pre <> None /\ runs pre Start s0 Falls s1) ->
    skips (STMT_ITERATOR syms pre c body stmt post_c) s1 -> passes c s1 false s' ->
    performs (STMT_ITERATOR syms pre c body stmt post_c) Start s Falls s'
  | performs_one_turn syms pre c body stmt post_c s s0 s1 s2 o s' :
    is_pre_loop c post_c -> declares syms s s0 -> (pre = None /\ s1 = s0) \/ (pre <> None /\ runs pre Start s0 Falls s1) ->
    passes c s1 true s2 -> turns c body stmt Start s2 o s' ->
    performs (STMT_ITERATOR syms pre c body stmt post_c) Start s o s'
  | performs_into_loop syms pre c body stmt post_c label sym s o s' :
    is_pre_loop c post_c -> turns c body stmt (At label sym) s o s' ->
    performs (STMT_ITERATOR syms pre c body stmt post_c) (At label sym) s o s'
  | performs_do syms pre body stmt c i s o s' :
    does c body i s o s' -> performs (STMT_ITERATOR syms pre None body stmt (Some c)) i s o s'
(** One turn of a loop, from its body on. *)
with turns : option expression -> option statement -> option statement -> way_in -> store -> way_out -> store -> Prop :=
  | turns_breaks c body stmt i s s' : runs body i s Breaks s' -> turns c body stmt i s Falls s'
  | turns_jumps c body stmt i s label sym s' : runs body i s (Goes label sym) s' -> turns c body stmt i s (Goes label sym) s'
  | turns_returns c body stmt i s s' : runs body i s Returns s' -> turns c body stmt i s Returns s'
  | turns_ends c body stmt i s o s1 s2 s' :
    runs body i s o s1 -> o = Falls \/ o = Continues -> runs stmt Start s1 Falls s2 -> passes c s2 false s' ->
    turns c body stmt i s Falls s'
with does : expression -> option statement -> way_in -> store -> way_out -> store -> Prop :=
  | does_breaks c body i s s' : runs body i s Breaks s' -> does c body i s Falls s'
  | does_jumps c body i s label sym s' : runs body i s (Goes label sym) s' -> does c body i s (Goes label sym) s'
  | does_returns c body i s s' : runs body i s Returns s' -> does c body i s Returns s'
  | does_ends c body i s o s1 s' :
    runs body i s o s1 -> o = Falls \/ o = Continues -> exec c s1 false s' -> does c body i s Falls s'
with runs_all : list statement -> way_in -> store -> way_out -> store -> Prop :=
  | runs_nil s : runs_all [] Start s Falls s
  | runs_next c l i s s1 o s' : runs (Some c) i s Falls s1 -> runs_all l Start s1 o s' -> runs_all (c :: l) i s o s'
  | runs_forward c l i s label sym s1 o s' :
    runs (Some c) i s (Goes label sym) s1 -> runs_all l (At label sym) s1 o s' -> runs_all (c :: l) i s o s'
  | runs_out c l i s o s' : runs (Some c) i s o s' -> o <> Falls -> runs_all (c :: l) i s o s'
  | runs_past c l label sym s o s' : runs_all l (At label sym) s o s' -> runs_all (c :: l) (At label sym) s o s'.

End meaning.

(** ** The promise of the rest of the program *)

Section promise.
Context `{Tgt : Target} `{Fp : FloatOps} `{Chk : Checks} `{Cor : Core} `{Wlk : Walk}.
Context {store : Type} `{Mean : Meaning store} `{SMean : StmtMeaning store}.
Context (true_of : sms -> table -> store -> Prop).

(** The table is of a path that can be reached, and true. *)
Definition holds (h : sms) (t : table) (s : store) : Prop := t <> [] /\ true_of h t s.

(** A part of the program changes the current states in some way, and what it makes of states
    that are true is true after [effect]. *)
Definition plain_step (f : machine -> machine) (effect : store -> store -> Prop) : Prop :=
  forall cur pre ct cf h m, wf_table (next_sm h) cur ->
  exists cur' h', f (put cur [] pre ct cf h m) = put cur' [] pre ct cf h' m /\
    grows true_of h h' /\ wf_table (next_sm h') cur' /\
    forall s s', holds h cur s -> effect s s' -> holds h' cur' s'.

(** From the heap [h0] on the state may be set in every table that is true of the store. *)
Definition settable (h0 : sms) (s : store) (sm : sm_state) : Prop :=
  forall h t r h', grows true_of h0 h -> wf_table (next_sm h) t -> holds h t s ->
  set_state_stree t (owner sm) (sm_name sm) (sm_sym sm) (sm_st sm) h = (r, h') -> true_of h' r.2 s.

(** __extra_handle_canonical_loops() gives states that are true in the body. *)
Definition canonical_states (stmt : statement) (c : option expression) : Prop :=
  forall cur fake pre ct cf h m, wf_table (next_sm h) cur -> Forall sorted fake ->
  exists sm stree h',
    __extra_handle_canonical_loops stmt (put cur fake pre ct cf h m) = (sm, stree, put cur fake pre ct cf h' m) /\
    grows true_of h h' /\ wf_table (next_sm h') stree /\
    forall s s', holds h cur s -> passes c s true s' -> Forall (settable h' s') stree.

Class WalkOk : Prop := {
  stmt_hook_sets hook stmt : plain_step (__pass_stmt_to_client hook stmt) eq;
  return_hook_sets e : plain_step (__pass_to_client RETURN_HOOK e) (fun _ _ => False);
  all_scope_hooks_set : plain_step __call_all_scope_hooks (fun _ _ => False);
  push_scope_hooks_set : plain_step __push_scope_hooks eq;
  call_scope_hooks_set : plain_step __call_scope_hooks eq;
  declaration_sets d : plain_step (split_declaration d) (declares d);
  after_loop_sets sm stmt c : plain_step (__extra_pre_loop_hook_after sm stmt c) eq;
  canonical_loops_ok syms pre c body stmt post_c : canonical_states (STMT_ITERATOR syms pre c body stmt post_c) c;
  once_through_is m stmt s : call_once_through_hooks m stmt = true -> ~ skips stmt s;
  forever_is m c post_c s b s' : is_forever_loop m c post_c = true -> passes (match c with Some _ => c | None => post_c end) s b s' -> b = true;
  alloc_keeps own name sym st h : grows true_of h (alloc_sm_state own name sym st h).2;
  line_keeps n h : grows true_of h (Sms (infos h) (next_sm h) (next_stree_id h) (all_pools h) n);
  not_skipped : is_skipped_function = false;
  fast_enough m : taking_too_long m = false
}.

(** ** The statements that are covered *)

(** The statement has no label that is jumped to. *)
Definition no_labels (stmt : option statement) : Prop := forall label sym s o s', ~ runs stmt (At label sym) s o s'.

(** Nothing is incremented later. *)
Definition no_increments : Prop := forall cur fake pre ct cf h m, exists h',
  __process_post_op_stack (put cur fake pre ct cf h m) = put cur fake pre ct cf h' m /\ grows true_of h h'.

Definition walkable_condition (n : nat) (c : option expression) : Prop :=
  match c with Some e => strips true_of false n e | None => n <> O end.

(** [walkable n stmt]: the statement is walked over with fuel [n].  A branch of a condition that
    may be known has no labels, a goto is not the last statement, and the statement that
    ends a turn of a loop without end is empty. *)
Inductive walkable : nat -> option statement -> Prop :=
  | walkable_null n : walkable (S n) None
  | walkable_some n stmt : walkable_stmt n stmt -> walkable (S n) (Some stmt)
with walkable_stmt : nat -> statement -> Prop :=
  | walkable_none n pos : walkable_stmt n (STMT_NONE pos)
  | walkable_context n : walkable_stmt n STMT_CONTEXT
  | walkable_declaration n d : walkable_stmt n (STMT_DECLARATION d)
  | walkable_empty n : walkable_stmt n (STMT_EXPRESSION None)
  | walkable_expression n e : plain e = true -> walkable_stmt n (STMT_EXPRESSION (Some e))
  | walkable_return n e : (forall r, e = Some r -> plain (fake_a_variable_assign r) = true) -> walkable_stmt n (STMT_RETURN e)
  | walkable_compound n addr l : Forall (fun stmt => walkable n (Some stmt)) l -> walkable_stmt n (STMT_COMPOUND addr l)
  | walkable_if n c t f :
    strips true_of false n c -> walkable n t -> walkable n f ->
    (no_labels t /\ no_labels f) \/ (forall m tf m', __split_whole_condition_tf n (Some c) m = Some (tf, m') -> tf = -1) ->
    walkable_stmt n (STMT_IF c t f)
  | walkable_label n label sym stmt : walkable n stmt -> walkable_stmt n (STMT_LABEL label sym stmt)
  | walkable_goto n addr target : is_last_stmt addr = false -> walkable_stmt n (STMT_GOTO addr None target)
  | walkable_loop n syms pre c body stmt post_c :
    is_pre_loop c post_c -> (pre <> None -> walkable n pre) -> walkable_condition n c -> walkable n body -> walkable n stmt ->
    (forall m, is_scoped_guard_goto m body stmt = Some false) ->
    (forall m, is_forever_loop m c post_c = false) \/
      ((forall m, is_forever_loop m c post_c = true) /\ stmt = None /\ no_increments) ->
    walkable_stmt n (STMT_ITERATOR syms pre c body stmt post_c)
  | walkable_do n syms pre body stmt c :
    strips true_of false n c -> walkable n body -> walkable_stmt n (STMT_ITERATOR syms pre None body stmt (Some c)).

End promise.

(** ** The walk is sound

    The invariant of __split_stmt(), and its proof for every statement that is [walkable].
    The part of the machine that a statement changes is a [place]: the current table, the
    tables of breaks, continues and gotos, the variables and the heap.  [load] puts it in a
    machine. *)

Record place : Type := Place {
  cur : table;
  breaks : stack;
  continues : stack;
  gotos : list named_stree;
  variables_of : variables;
  heap_of : sms
}.

Definition load (x : place) (ts fs : stack) (m : machine) : machine :=
  Machine (cur x) ts fs (pre_cond_stack m) (cond_true_stack m) (cond_false_stack m) (fake_cur_stree_stack m) (breaks x) (fake_break_stack m)
    (switch_stack m) (remaining_cases m) (default_stack m) (continues x) (gotos x) (backup m) (variables_of x) (heap_of x).

(** And this takes it out. *)
Definition place_of (m : machine) : place :=
  Place (cur_stree m) (break_stack m) (continue_stack m) (goto_stack m) (vars m) (heap_sms m).

Lemma load_self m : load (place_of m) (true_stack m) (false_stack m) m = m.
Proof. by destruct m. Qed.

(** The table that waits at a label. *)
Definition goto_table (gs : list named_stree) (label : list Z) (sym : Z) : table :=
  match get_named_stree gs label sym ≫= fun i => gs !! i with Some ns => ns_stree ns | None => [] end.

Section sound.
Context `{Tgt : Target} `{Fp : FloatOps} `{Chk : Checks} `{Cor : Core} `{Wlk : Walk}.
Context {store : Type} `{Mean : Meaning store} `{SMean : StmtMeaning store}.
Context (true_of : sms -> table -> store -> Prop).
Context `{MOk : !MergeOk true_of} `{COk : !CoreOk true_of} `{WOk : !WalkOk true_of}.

#[local] Abbreviation grows := (grows true_of).
#[local] Abbreviation holds := (holds true_of).
#[local] Abbreviation plain_step := (plain_step true_of).
#[local] Abbreviation walkable := (walkable true_of).
#[local] Abbreviation walkable_stmt := (walkable_stmt true_of).

(** ** The invariant *)

Definition enters (x : place) (i : way_in) (s : store) : Prop :=
  match i with
  | Start => holds (heap_of x) (cur x) s
  | At label sym => holds (heap_of x) (goto_table (gotos x) label sym) s
  end.

Definition leaves (x : place) (o : way_out) (s : store) : Prop :=
  match o with
  | Falls => holds (heap_of x) (cur x) s
  | Breaks => holds (heap_of x) (hd [] (breaks x)) s
  | Continues => holds (heap_of x) (hd [] (continues x)) s
  | Goes label sym => holds (heap_of x) (goto_table (gotos x) label sym) s
  | Returns => True
  end.

#[local] Abbreviation next x := (next_sm (heap_of x)).

Record good (x : place) : Prop := {
  good_cur : wf_table (next x) (cur x);
  good_breaks : Forall (wf_table (next x)) (breaks x);
  good_continues : Forall (wf_table (next x)) (continues x);
  good_gotos : Forall (fun ns => wf_table (next x) (ns_stree ns)) (gotos x);
  good_bail : __bail_on_rest_of_function (variables_of x) = false;
  good_fakes : __fake_state_cnt (variables_of x) = 0
}.

(** What a statement does to the place: what waits elsewhere is still true. *)
Record leads (x y : place) : Prop := {
  leads_good : good y;
  leads_grows : grows (heap_of x) (heap_of y);
  leads_breaks : tl (breaks y) = tl (breaks x);
  leads_continues : tl (continues y) = tl (continues x);
  leads_keeps o s : o <> Falls -> leaves x o s -> leaves y o s
}.

(** [sem] is the meaning of what [split] walks over. *)
Definition walks_at (split : machine -> option machine) (sem : way_in -> store -> way_out -> store -> Prop) (x : place) (ts fs : stack) (m : machine) : Prop :=
  exists y, split (load x ts fs m) = Some (load y ts fs m) /\ leads x y /\
    forall i s o s', enters x i s -> sem i s o s' -> leaves y o s'.

Definition walks (split : machine -> option machine) (sem : way_in -> store -> way_out -> store -> Prop) : Prop :=
  forall x ts fs m, good x -> fake_cur_stree_stack m = [] -> walks_at split sem x ts fs m.

(** ** Places *)

Lemma leads_refl x : good x -> leads x x.
Proof. by split. Qed.

Lemma leads_trans x y z : leads x y -> leads y z -> leads x z.
Proof.
  intros [G1 N1 B1 K1 H1] [G2 N2 B2 K2 H2]. split; [done|by eapply grows_trans|congruence|congruence|]. intros o s N L. auto.
Qed.

Lemma leads_next x y : leads x y -> next x <= next y.
Proof. intros L. apply (grows_next _ _ _ (leads_grows _ _ L)). Qed.

Lemma holds_grows h h' t s : grows h h' -> wf_table (next_sm h) t -> holds h t s -> holds h' t s.
Proof. intros G W [N T]. split; [done|]. by eapply grows_keeps. Qed.

Lemma wf_le n n' (l : stack) : n <= n' -> Forall (wf_table n) l -> Forall (wf_table n') l.
Proof. intros L. apply Forall_impl. intros t. by apply wf_table_le. Qed.

Lemma wf_gotos_le n n' (l : list named_stree) :
  n <= n' -> Forall (fun ns => wf_table n (ns_stree ns)) l -> Forall (fun ns => wf_table n' (ns_stree ns)) l.
Proof. intros L. apply Forall_impl. intros t. by apply wf_table_le. Qed.

Lemma good_build x c b k g h : good x -> next x <= next_sm h -> wf_table (next_sm h) c -> Forall (wf_table (next_sm h)) b ->
  Forall (wf_table (next_sm h)) k -> Forall (fun ns => wf_table (next_sm h) (ns_stree ns)) g -> good (Place c b k g (variables_of x) h).
Proof. intros []. by split. Qed.

Lemma good_set x t h : good x -> next x <= next_sm h -> wf_table (next_sm h) t ->
  good (Place t (breaks x) (continues x) (gotos x) (variables_of x) h).
Proof. intros G L W. apply good_build; [done..|by apply (wf_le (next x)), G|by apply (wf_le (next x)), G|by apply (wf_gotos_le (next x)), G]. Qed.

Lemma goto_table_good x label sym : good x -> wf_table (next x) (goto_table (gotos x) label sym).
Proof.
  intros G. unfold goto_table. destruct (get_named_stree (gotos x) label sym) as [i|]; [|apply wf_table_nil]. cbn.
  destruct (gotos x !! i) as [ns|] eqn:E; [|apply wf_table_nil]. pose proof (good_gotos x G) as F. by apply (proj1 (Forall_lookup _ _) F i).
Qed.

Lemma hd_good n (l : stack) : Forall (wf_table n) l -> wf_table n (hd [] l).
Proof. intros []; [apply wf_table_nil|done]. Qed.

Lemma tl_good n (l : stack) : Forall (wf_table n) l -> Forall (wf_table n) (tl l).
Proof. by intros []. Qed.

(** What waits elsewhere when the heap grows. *)
Lemma leaves_grows x t v h o s : good x -> grows (heap_of x) h -> o <> Falls -> leaves x o s ->
  leaves (Place t (breaks x) (continues x) (gotos x) v h) o s.
Proof.
  intros G Gr No. destruct o; try done; apply (holds_grows _ _ _ _ Gr); [apply hd_good, G|apply hd_good, G|by apply goto_table_good].
Qed.

(** Only the current table changes. *)
Lemma leads_set x t h : good x -> grows (heap_of x) h -> wf_table (next_sm h) t ->
  leads x (Place t (breaks x) (continues x) (gotos x) (variables_of x) h).
Proof. intros G L W. split; [by apply good_set; [|apply (grows_next _ _ _ L)|]|done..|]. intros o s N. by apply leaves_grows. Qed.

Definition calm (f : variables -> variables) : Prop := forall v,
  __bail_on_rest_of_function (f v) = __bail_on_rest_of_function v /\ __fake_state_cnt (f v) = __fake_state_cnt v.

Lemma leads_vars x f h : good x -> calm f -> next_sm h = next x -> grows (heap_of x) h ->
  leads x (Place (cur x) (breaks x) (continues x) (gotos x) (f (variables_of x)) h).
Proof.
  intros G C E Gr. destruct (C (variables_of x)) as [C1 C2]. split; [|done..|intros o s; by apply leaves_grows].
  destruct G. split; cbn; rewrite ?E; congruence || done.
Qed.

(** ** Steps that set states *)

Lemma sets_plain f r : sets_states true_of f r -> idle true_of f -> plain_step f r.
Proof.
  intros F I c pre ct cf h m W. destruct (decide (c = [])) as [->|N].
  - destruct (I [] pre ct cf h m) as (h' & E & G). exists [], h'. split; [done|]. split; [done|]. split; [apply wf_table_nil|]. by intros s s' [? _].
  - destruct (F c [] pre ct cf h m N W) as (d & h' & E & G & Wd & H); [constructor|]. exists (overwrite d c), h'. split; [done|]. split; [done|].
    split; [apply wf_overwrite; [done|by eapply grows_wf]|]. intros s s' [_ T] R. split; [by apply overwrite_not_nil|]. by apply (H s).
Qed.

Lemma plain_load f r x ts fs m : plain_step f r -> good x -> fake_cur_stree_stack m = [] ->
  exists t h, f (load x ts fs m) = load (Place t (breaks x) (continues x) (gotos x) (variables_of x) h) ts fs m /\
    grows (heap_of x) h /\ wf_table (next_sm h) t /\
    forall s s', holds (heap_of x) (cur x) s -> r s s' -> holds h t s'.
Proof.
  intros F G Ef. assert (load x ts fs m = put (cur x) [] (pre_cond_stack m) (cond_true_stack m)
    (cond_false_stack m) (heap_of x) (load x ts fs m)) as E by (destruct m, x; cbn in Ef; by subst).
  destruct (F (cur x) (pre_cond_stack m) (cond_true_stack m) (cond_false_stack m) (heap_of x) (load x ts fs m) (good_cur x G)) as (t & h & E1 & H).
  exists t, h. rewrite E, E1. split; [destruct m; cbn in Ef; by subst|done].
Qed.

(** Entered at the start, it falls through. *)
Definition simply (r : store -> store -> Prop) (i : way_in) (s : store) (o : way_out) (s' : store) : Prop :=
  i = Start /\ o = Falls /\ r s s'.

Lemma walks_plain f r : plain_step f r -> walks (fun m => Some (f m)) (simply r).
Proof.
  intros P x ts fs m G Ef. destruct (plain_load f r x ts fs m P G Ef) as (t & h & E & L & W & H).
  eexists. rewrite E. split; [reflexivity|]. split; [by apply leads_set|]. intros i s o s' En (-> & -> & R). by apply (H s s').
Qed.

Lemma walks_vars f : calm f -> walks (fun m => Some (upd f m)) (simply eq).
Proof.
  intros C x ts fs m G Ef. eexists (Place (cur x) (breaks x) (continues x) (gotos x) (f (variables_of x)) (heap_of x)).
  split; [reflexivity|]. split; [apply leads_vars; try done; apply grows_refl|]. by intros i s o s' En (-> & -> & <-).
Qed.

(** ** One after the other *)

Definition then_ (a b : way_in -> store -> way_out -> store -> Prop) (i : way_in) (s : store) (o : way_out) (s' : store) : Prop :=
  (exists s1, a i s Falls s1 /\ b Start s1 o s') \/
  (exists label sym s1, a i s (Goes label sym) s1 /\ b (At label sym) s1 o s') \/
  (a i s o s' /\ o <> Falls) \/
  (exists label sym, i = At label sym /\ b i s o s').

Lemma walks_then f g a b : walks f a -> walks g b -> walks (fun m => m ← f m; g m) (then_ a b).
Proof.
  intros F G x ts fs m Gx Ef. destruct (F x ts fs m Gx Ef) as (y & E1 & L1 & H1).
  destruct (G y ts fs m (leads_good _ _ L1) Ef) as (z & E2 & L2 & H2). exists z. rewrite E1. cbn [mbind option_bind].
  split; [done|]. split; [by eapply leads_trans|].
  intros i s o s' En [(s1 & A & B)|[(label & sym & s1 & A & B)|[[A N]|(label & sym & -> & B)]]].
  - apply (H2 Start s1); [|done]. by apply (H1 i s Falls).
  - apply (H2 (At label sym) s1); [|done]. by apply (H1 i s (Goes label sym)).
  - apply (leads_keeps _ _ L2); [done|]. by apply (H1 i s).
  - apply (H2 (At label sym) s); [|done]. by apply (leads_keeps _ _ L1 (Goes label sym)).
Qed.

Lemma walks_impl f g a b :
  (forall m, g m = f m) -> (forall i s o s', b i s o s' -> a i s o s') -> walks f a -> walks g b.
Proof.
  intros E I F x ts fs m G Ef. destruct (F x ts fs m G Ef) as (y & E1 & L & H). exists y. rewrite E. split; [done|]. split; [done|].
  intros i s o s' En B. eapply H; [done|]. by apply I.
Qed.

(** A step before or after that does nothing to the store. *)
Lemma walks_before f g a r : walks (fun m => Some (f m)) (simply r) -> (forall s, r s s) -> walks g a -> walks (fun m => g (f m)) a.
Proof.
  intros F R G. eapply walks_impl; [| |exact (walks_then _ _ _ _ F G)]; [done|].
  intros i s o s' A. destruct i as [|label sym]; [left; exists s; by split|]. do 3 right. eauto.
Qed.

Lemma walks_after f g a r : walks f a -> walks (fun m => Some (g m)) (simply r) ->
  walks (fun m => m ← f m; Some (g m)) (fun i s o s' => (o <> Falls /\ a i s o s') \/ (o = Falls /\ exists s1, a i s Falls s1 /\ r s1 s')).
Proof.
  intros F G. eapply walks_impl; [| |exact (walks_then _ _ _ _ F G)]; [done|].
  intros i s o s' [[N A]|[-> (s1 & A & R)]]; [do 2 right; by left|left]. exists s1. by split.
Qed.

(** Nothing happens at a label that is not there. *)
Lemma walks_nothing : walks Some (simply eq).
Proof. intros x ts fs m G Ef. exists x. split; [done|]. split; [by apply leads_refl|]. by intros i s o s' En (-> & -> & <-). Qed.

(** ** Merging *)

Lemma merge_holds c to stree h r h' :
  wf_table (next_sm h) to -> wf_table (next_sm h) stree -> merge_stree c to stree h = (r, h') ->
  grows h h' /\ wf_table (next_sm h') r /\ forall s, holds h to s \/ holds h stree s -> holds h' r s.
Proof.
  intros W1 W2 E. destruct (decide (stree = [])) as [->|N2]; [|destruct (decide (to = [])) as [->|N1]].
  - unfold merge_stree, merge_stree_base in E. rewrite (memory_suffices true_of) in E. injection E as <- <-.
    split; [apply grows_refl|]. split; [done|]. by intros s [H|[N _]].
  - unfold merge_stree, merge_stree_base in E. rewrite (memory_suffices true_of) in E.
    destruct stree as [|sm l]; [done|]. cbn in E. injection E as <- <-. split; [apply grows_refl|]. split; [done|]. by intros s [[N _]|H].
  - apply (merge_stree_true true_of) in E as (L & W & M & T); [|done..].
    split; [done|]. split; [done|]. intros s H. split.
    + intros ->. destruct to as [|a to]; [done|]. specialize (M a). rewrite tget_nil in M. destruct M as [M _].
      rewrite tget_elem in M; [done|apply W1|by left].
    + apply T. destruct H as [[_ D]|[_ D]]; auto.
Qed.

Lemma merge_into_cur_load t x ts fs m : good x -> wf_table (next x) t ->
  exists r h, merge_into_cur t (load x ts fs m) = load (Place r (breaks x) (continues x) (gotos x) (variables_of x) h) ts fs m /\
    grows (heap_of x) h /\ wf_table (next_sm h) r /\ forall s, holds (heap_of x) (cur x) s \/ holds (heap_of x) t s -> holds h r s.
Proof.
  intros G W. unfold merge_into_cur, run. cbn [cur_stree load heap_sms].
  destruct (merge_stree (cur x) (cur x) t (heap_of x)) as [r h] eqn:E. apply merge_holds in E as (L & Wr & H); [|apply G|done].
  by exists r, h.
Qed.

(** ** Conditions *)

Lemma condition_some n e x ts fs m : strips true_of false n e -> good x -> fake_cur_stree_stack m = [] ->
  exists tf t f h, __split_whole_condition_tf n (Some e) (load x ts fs m) =
      Some (tf, load (Place t (breaks x) (continues x) (gotos x) (variables_of x) h) ts (f :: fs) m) /\
    grows (heap_of x) h /\ wf_table (next_sm h) t /\ wf_table (next_sm h) f /\
    forall s b s', holds (heap_of x) (cur x) s -> exec e s b s' -> known tf b /\ holds h (if b then t else f) s'.
Proof.
  intros St G Ef. assert (fake_cur_stree_stack (load x ts fs m) = []) as Ef' by done. destruct (decide (cur x = [])) as [Ec|Nc].
  - destruct (split_whole_dead true_of false n e (load x ts fs m) St Ec) as (tf & h & -> & L). rewrite Ef'.
    exists tf, [], [], h. split; [destruct m; cbn in Ef; by subst|]. split; [done|]. do 2 (split; [apply wf_table_nil|]). intros s b s' [N _]. done.
  - destruct (split_whole_live true_of false n e (load x ts fs m) St Nc (good_cur x G)) as (tf & t & f & d & h & -> & L & N1 & N2 & W1 & W2 & H).
    { rewrite Ef'. constructor. }
    rewrite Ef'. exists tf, t, f, h. split; [destruct m; cbn in Ef; by subst|]. split; [done|]. split; [done|]. split; [done|].
    intros s b s' [_ D] X. destruct (H s b s' D X) as [K D']. split; [done|]. by destruct b.
Qed.

Lemma whole_hook_plain e : plain_step (__pass_to_client WHOLE_CONDITION_HOOK e) eq.
Proof. apply sets_plain; [apply (whole_hook_sets true_of)|apply (hook_idle true_of)]. Qed.

Lemma condition_load n c x ts fs m : walkable_condition true_of n c -> good x -> fake_cur_stree_stack m = [] ->
  exists tf t f h, __split_whole_condition_tf n c (load x ts fs m) =
      Some (tf, load (Place t (breaks x) (continues x) (gotos x) (variables_of x) h) ts (f :: fs) m) /\
    grows (heap_of x) h /\ wf_table (next_sm h) t /\ wf_table (next_sm h) f /\
    forall s b s', holds (heap_of x) (cur x) s -> passes c s b s' -> known tf b /\ holds h (if b then t else f) s'.
Proof.
  destruct c as [e|]; cbn [walkable_condition passes]; intros St G Ef; [by apply condition_some|]. destruct n as [|n]; [done|].
  destruct (plain_load (__pass_to_client WHOLE_CONDITION_HOOK None) eq x ts (cur x :: fs) m (whole_hook_plain None) G Ef) as (t & h & E & L & W & H).
  exists (-1), t, (cur x), h. rewrite <- E. split; [destruct m; cbn in Ef; by subst|]. split; [done|]. split; [done|].
  split; [by eapply grows_wf, (good_cur x)|]. intros s b s' D [-> ->]. split; [by left|]. by apply (H s s).
Qed.

(** ** Branches *)

Lemma known_is tf b : known tf b -> (tf = 1 -> b = true) /\ (tf = 0 -> b = false).
Proof. intros [->|[[-> ->]|[-> ->]]]; split; done. Qed.

(** A branch without labels is only entered at its start. *)
Lemma enters_start stmt i s o s' : no_labels stmt -> runs stmt i s o s' -> i = Start.
Proof. intros N R. destruct i as [|label sym]; [done|]. by apply N in R. Qed.

Lemma walks_if n split (c : expression) (t f : option statement) :
  strips true_of false n c -> walks (split t) (runs t) -> walks (split f) (runs f) ->
  (no_labels t /\ no_labels f) \/ (forall m tf m', __split_whole_condition_tf n (Some c) m = Some (tf, m') -> tf = -1) ->
  walks (split_if_statement split n c t f) (performs (STMT_IF c t f)).
Proof.
  intros St Wt Wf NL x ts fs m G Ef. unfold walks_at, split_if_statement.
  destruct (condition_some n c x ts fs m St G Ef) as (tf & tt & ff & h & E & L & Wtt & Wff & H).
  assert (no_labels t /\ no_labels f \/ tf = -1) as NL' by (destruct NL as [?|K]; [by left|right; exact (K _ _ _ E)]).
  rewrite E. cbn [mbind option_bind]. clear E NL.
  set (xt := Place tt (breaks x) (continues x) (gotos x) (variables_of x) h).
  set (xf := Place ff (breaks x) (continues x) (gotos x) (variables_of x) h).
  assert (leads x xt) as Lt by (by apply leads_set). assert (leads x xf) as Lf by (by apply leads_set).
  destruct (Z.eqb_spec tf 1) as [E1|N1]; [|destruct (Z.eqb_spec tf 0) as [E0|N0]].
  - destruct (Wt xt ts (ff :: fs) m (leads_good _ _ Lt) Ef) as (y & -> & Ly & Hy). exists y. cbn [mbind option_bind].
    split; [by destruct m|]. split; [exact (leads_trans _ _ _ Lt Ly)|]. intros i s o s' En P. destruct NL' as [[Nt Nf]|]; [|lia].
    inversion P as [| | | | | | |? ? ? ? b s1 ? ? X R|? ? ? b ? ? ? ? ? R| | | | | | | | |]; subst.
    + destruct (H s b s1 En X) as [[K _]%known_is D]. rewrite (K eq_refl) in *. by apply (Hy Start s1).
    + by destruct b; [apply Nt in R|apply Nf in R].
  - destruct (Wf xf ts fs m (leads_good _ _ Lf) Ef) as (y & Ey & Ly & Hy). exists y.
    split; [exact Ey|]. split; [exact (leads_trans _ _ _ Lf Ly)|]. intros i s o s' En P. destruct NL' as [[Nt Nf]|]; [|lia].
    inversion P as [| | | | | | |? ? ? ? b s1 ? ? X R|? ? ? b ? ? ? ? ? R| | | | | | | | |]; subst.
    + destruct (H s b s1 En X) as [[_ K]%known_is D]. rewrite (K eq_refl) in *. by apply (Hy Start s1).
    + by destruct b; [apply Nt in R|apply Nf in R].
  - destruct (Wt xt ts (ff :: fs) m (leads_good _ _ Lt) Ef) as (y & -> & Ly & Hy). cbn [mbind option_bind].
    set (yf := Place ff (breaks y) (continues y) (gotos y) (variables_of y) (heap_of y)).
    assert (wf_table (next y) ff) as Wff' by (eapply grows_wf; [apply (leads_grows _ _ Ly)|done]).
    pose proof (leads_good _ _ Ly) as Gy. assert (leads y yf) as Lyf by (apply leads_set; [done|apply grows_refl|done]).
    destruct (Wf yf (cur y :: ts) fs m (leads_good _ _ Lyf) Ef) as (z & Ez & Lz & Hz).
    change (__use_false_states (__push_true_states (load y ts (ff :: fs) m))) with (load yf (cur y :: ts) fs m).
    rewrite Ez. cbn [mbind option_bind]. pose proof (leads_good _ _ Lz) as Gz.
    destruct (merge_into_cur_load (cur y) z ts fs m Gz) as (r & h' & Er & Lr & Wr & Hr).
    { eapply grows_wf; [apply (leads_grows _ _ Lz)|apply Gy]. }
    exists (Place r (breaks z) (continues z) (gotos z) (variables_of z) h'). split.
    { unfold __merge_true_states. change (pop_stree (true_stack (load z (cur y :: ts) fs m))) with (cur y, ts). cbn iota beta.
      change (set_true_stack ts (load z (cur y :: ts) fs m)) with (load z ts fs m). rewrite Er.
      unfold update_fake_stree_with_merged. cbn [load fake_cur_stree_stack]. by rewrite Ef. }
    pose proof (leads_set z r h' Gz Lr Wr) as Lzr. pose proof (leads_trans _ _ _ Lyf Lz) as Lyz.
    split; [exact (leads_trans _ _ _ Lt (leads_trans _ _ _ Ly (leads_trans _ _ _ Lyz Lzr)))|].
    intros i s o s' En P.
    assert (forall (b : bool) j s1, (if b then enters xt j s1 else enters yf j s1) -> runs (if b then t else f) j s1 o s' ->
      leaves (Place r (breaks z) (continues z) (gotos z) (variables_of z) h') o s') as Out.
    { intros b j s1 Ej R. destruct (decide (o = Falls)) as [->|No].
      - apply Hr. destruct b; [right|left; by apply (Hz j s1 Falls)].
        apply (holds_grows _ _ _ _ (leads_grows _ _ Lz)); [apply Gy|]. by apply (Hy j s1 Falls).
      - apply (leads_keeps _ _ Lzr); [done|]. destruct b; [apply (leads_keeps _ _ Lyz); [done|]; by apply (Hy j s1)|by apply (Hz j s1)]. }
    inversion P as [| | | | | | |? ? ? ? b s1 ? ? X R|? ? ? b ? ? ? ? ? R| | | | | | | | |]; subst.
    + destruct (H s b s1 En X) as [_ D]. apply (Out b Start s1); [|done]. destruct b; [done|].
      by apply (holds_grows _ _ _ _ (leads_grows _ _ Ly)).
    + apply (Out b (At label sym) s); [|done]. destruct b; [by apply (leads_keeps _ _ Lt (Goes label sym) s)|].
      apply (leads_keeps _ _ Ly (Goes label sym) s); [done|]. by apply (leads_keeps _ _ Lt (Goes label sym) s).
Qed.

(** ** Labels and jumps *)

Lemma named_lookup gs label sym i : get_named_stree gs label sym = Some i -> exists ns, gs !! i = Some ns.
Proof.
  revert i. induction gs as [|ns gs IH]; intros i E; [done|]. cbn in E. destruct ((ns_sym ns =? sym) && _); [injection E as <-; by exists ns|].
  destruct (get_named_stree gs label sym) as [j|]; [|done]. injection E as <-. by apply IH.
Qed.

Lemma named_app gs label sym ns : get_named_stree gs label sym = None ->
  forall label' sym', get_named_stree (gs ++ [ns]) label' sym' =
    match get_named_stree gs label' sym' with
    | Some i => Some i
    | None => if (ns_sym ns =? sym') && bool_decide (strcmp (ns_name ns) label' = 0) then Some (length gs) else None
    end.
Proof.
  intros _ label' sym'. induction gs as [|x gs IH]; cbn; [by destruct (_ && _)|].
  destruct ((ns_sym x =? sym') && _); [done|]. rewrite IH. by destruct (get_named_stree gs label' sym'), (_ && _).
Qed.

Lemma named_insert gs i t label sym label' sym' ns : gs !! i = Some ns -> ns_name ns = label -> ns_sym ns = sym ->
  get_named_stree (<[i := NamedStree label sym t]> gs) label' sym' = get_named_stree gs label' sym'.
Proof.
  revert i. induction gs as [|x gs IH]; intros [|i] E El Es; try done; cbn; [injection E as ->; by rewrite El, Es|].
  destruct ((ns_sym x =? sym') && _); [done|]. by rewrite IH.
Qed.

Lemma named_self ns : (ns_sym ns =? ns_sym ns) && bool_decide (strcmp (ns_name ns) (ns_name ns) = 0) = true.
Proof. rewrite Z.eqb_refl, bool_decide_true; [done|]. by apply strcmp_0. Qed.

Lemma goto_table_insert gs i ns r label sym : gs !! i = Some ns ->
  goto_table (<[i := NamedStree (ns_name ns) (ns_sym ns) r]> gs) label sym =
  if decide (get_named_stree gs label sym = Some i) then r else goto_table gs label sym.
Proof.
  intros En. unfold goto_table. rewrite (named_insert _ i r _ _ label sym ns En eq_refl eq_refl).
  destruct (get_named_stree gs label sym) as [j|] eqn:Ej; [|done]. cbn. destruct (decide (Some j = Some i)) as [[= ->]|N].
  - rewrite list_lookup_insert_eq; [done|]. by apply lookup_lt_Some in En.
  - rewrite list_lookup_insert_ne; [done|]. congruence.
Qed.

Lemma goto_table_app gs label sym t label' sym' : get_named_stree gs label sym = None ->
  goto_table (gs ++ [NamedStree label sym t]) label' sym' =
  match get_named_stree gs label' sym' with
  | Some _ => goto_table gs label' sym'
  | None => if (sym =? sym') && bool_decide (strcmp label label' = 0) then t else []
  end.
Proof.
  intros Ei. unfold goto_table. rewrite (named_app _ _ _ _ Ei label' sym'). cbn [ns_sym ns_name].
  destruct (get_named_stree gs label' sym') as [j|] eqn:Ej; cbn.
  - destruct (named_lookup _ _ _ _ Ej) as [ns En]. by rewrite (lookup_app_l_Some _ _ _ _ En), En.
  - destruct (_ && _); [|done]. cbn. by rewrite list_lookup_middle.
Qed.

(** Only the gotos change. *)
Lemma leads_gotos x gs h : good x -> grows (heap_of x) h -> Forall (fun ns => wf_table (next_sm h) (ns_stree ns)) gs ->
  (forall label sym s, holds (heap_of x) (goto_table (gotos x) label sym) s -> holds h (goto_table gs label sym) s) ->
  leads x (Place (cur x) (breaks x) (continues x) gs (variables_of x) h).
Proof.
  intros G Gr W H. pose proof (grows_next _ _ _ Gr) as L. split; [|done..|].
  2:{ intros o s No Hs. destruct o; try done; [| |by apply H]; exact (leaves_grows x (cur x) (variables_of x) h _ s G Gr No Hs). }
  apply good_build; [done|done|by apply (wf_table_le (next x)), G|by apply (wf_le (next x)), G|by apply (wf_le (next x)), G|done].
Qed.

Lemma save_gotos_new label sym x ts fs m : get_named_stree (gotos x) label sym = None ->
  __save_gotos label sym (load x ts fs m) =
  load (Place (cur x) (breaks x) (continues x) (gotos x ++ [NamedStree label sym (cur x)]) (variables_of x) (heap_of x)) ts fs m.
Proof. intros E. unfold __save_gotos. change (goto_stack (load x ts fs m)) with (gotos x). by rewrite E. Qed.

Lemma save_gotos_old label sym x ts fs m i ns r h :
  get_named_stree (gotos x) label sym = Some i -> gotos x !! i = Some ns -> merge_stree (cur x) (ns_stree ns) (cur x) (heap_of x) = (r, h) ->
  __save_gotos label sym (load x ts fs m) =
  load (Place (cur x) (breaks x) (continues x) (<[i := NamedStree (ns_name ns) (ns_sym ns) r]> (gotos x)) (variables_of x) h) ts fs m.
Proof.
  intros E1 E2 E3. unfold __save_gotos, run. change (goto_stack (load x ts fs m)) with (gotos x). rewrite E1, E2.
  change (cur_stree (load x ts fs m)) with (cur x). change (heap_sms (load x ts fs m)) with (heap_of x). by rewrite E3.
Qed.

Lemma save_gotos_load label sym x ts fs m : good x ->
  exists gs h, __save_gotos label sym (load x ts fs m) = load (Place (cur x) (breaks x) (continues x) gs (variables_of x) h) ts fs m /\
    leads x (Place (cur x) (breaks x) (continues x) gs (variables_of x) h) /\
    forall s, holds (heap_of x) (cur x) s -> holds h (goto_table gs label sym) s.
Proof.
  intros G. pose proof (good_gotos x G) as Gg. destruct (get_named_stree (gotos x) label sym) as [i|] eqn:Ei.
  - destruct (named_lookup _ _ _ _ Ei) as [ns En]. pose proof (proj1 (Forall_lookup _ _) Gg i ns En) as Wn.
    destruct (merge_stree (cur x) (ns_stree ns) (cur x) (heap_of x)) as [r h] eqn:Em.
    exists (<[i := NamedStree (ns_name ns) (ns_sym ns) r]> (gotos x)), h. split; [by apply save_gotos_old|].
    apply merge_holds in Em as (L & W & H); [|done|apply G]. split.
    + apply leads_gotos; [done|done|apply Forall_insert; [by apply (wf_gotos_le (next x)), G; apply (grows_next _ _ _ L)|done]|].
      intros l' s' s. rewrite goto_table_insert by done. case_decide as Ed; [|by apply holds_grows; [|apply goto_table_good]]. intros Hx. apply H. left.
      unfold goto_table in Hx. rewrite Ed in Hx. cbn in Hx. by rewrite En in Hx.
    + intros s Hs. rewrite goto_table_insert, decide_True by done. apply H. by right.
  - exists (gotos x ++ [NamedStree label sym (cur x)]), (heap_of x). split; [by apply save_gotos_new|]. split.
    + apply leads_gotos; [done|apply grows_refl|apply Forall_app; split; [done|constructor; [apply G|constructor]]|].
      intros l' s' s. rewrite goto_table_app by done. unfold goto_table.
      destruct (get_named_stree (gotos x) l' s') eqn:Ej; [done|]. by intros [N _].
    + intros s Hs. rewrite goto_table_app, Ei by done. pose proof (named_self (NamedStree label sym [])) as E. cbn in E. by rewrite E.
Qed.

Lemma merge_gotos_load label sym x ts fs m : good x ->
  exists r h, __merge_gotos label sym (load x ts fs m) = load (Place r (breaks x) (continues x) (gotos x) (variables_of x) h) ts fs m /\
    leads x (Place r (breaks x) (continues x) (gotos x) (variables_of x) h) /\
    forall s, holds (heap_of x) (cur x) s \/ holds (heap_of x) (goto_table (gotos x) label sym) s -> holds h r s.
Proof.
  intros G. unfold __merge_gotos. change (goto_stack (load x ts fs m)) with (gotos x).
  pose proof (goto_table_good x label sym G) as W. unfold goto_table in W |- *.
  destruct (get_named_stree (gotos x) label sym) as [i|] eqn:Ei; cbn [mbind option_bind] in W |- *.
  - destruct (named_lookup _ _ _ _ Ei) as [ns En]. rewrite En in W |- *.
    destruct (merge_into_cur_load (ns_stree ns) x ts fs m G W) as (r & h & E & L & Wr & H). exists r, h. split; [done|].
    split; [by apply leads_set|done].
  - exists (cur x), (heap_of x). split; [by destruct x|]. split; [destruct x; by apply leads_refl|]. by intros s [H|[N _]].
Qed.

(** A label is entered from before it or by a goto. *)
Definition comes_to (label : list Z) (sym : Z) (i : way_in) (s : store) (o : way_out) (s' : store) : Prop :=
  (i = Start \/ i = At label sym) /\ o = Falls /\ s' = s.

Lemma walks_label label sym : walks (fun m => Some (__split_label_stmt label sym m)) (comes_to label sym).
Proof.
  intros x ts fs m G Ef. unfold walks_at, __split_label_stmt.
  set (f := fun v => set_loop_count (Z.lor (loop_count v) 0x0800000) v).
  assert (leads x (Place (cur x) (breaks x) (continues x) (gotos x) (f (variables_of x)) (heap_of x))) as Lx by (apply leads_vars; try done; apply grows_refl).
  set (y := Place (cur x) (breaks x) (continues x) (gotos x) (f (variables_of x)) (heap_of x)) in *.
  change (upd f (load x ts fs m)) with (load y ts fs m).
  destruct (merge_gotos_load label sym y ts fs m (leads_good _ _ Lx)) as (r & h & E & L & H). eexists. rewrite E. split; [reflexivity|].
  split; [by eapply leads_trans|]. intros i s o s' En (I & -> & ->). apply H. destruct I as [->| ->]; [by left|by right].
Qed.

Lemma merge_or_clone_holds x ts fs m t t' : good x -> wf_table (next x) t -> wf_table (next x) t' ->
  exists r h, merge_or_clone t t' (load x ts fs m) = (r, load (Place (cur x) (breaks x) (continues x) (gotos x) (variables_of x) h) ts fs m) /\
    grows (heap_of x) h /\ wf_table (next_sm h) r /\ forall s, holds (heap_of x) t s \/ holds (heap_of x) t' s -> holds h r s.
Proof.
  intros G W W'. unfold merge_or_clone, run. destruct t as [|a t].
  - exists t', (heap_of x). split; [by destruct x, m|]. split; [apply grows_refl|]. split; [done|]. by intros s [[N _]|H].
  - change (cur_stree (load x ts fs m)) with (cur x). change (heap_sms (load x ts fs m)) with (heap_of x).
    destruct (merge_stree (cur x) (a :: t) t' (heap_of x)) as [r h] eqn:E. apply merge_holds in E as (L & Wr & H); [|done..].
    by exists r, h.
Qed.

(** A break keeps the states, then the path ends. *)
Lemma walks_break : walks (fun m => Some (nullify_path (__process_breaks m))) (fun i s o s' => i = Start /\ o = Breaks /\ s' = s).
Proof.
  intros x ts fs m G Ef. unfold walks_at, __process_breaks. change (pop_stree (break_stack (load x ts fs m))) with (hd [] (breaks x), tl (breaks x)).
  cbn iota beta. change (cur_stree (load x ts fs m)) with (cur x).
  destruct (merge_or_clone_holds x ts fs m (hd [] (breaks x)) (cur x) G) as (r & h & E & L & W & H); [by apply hd_good, G|apply G|].
  pose proof (grows_next _ _ _ L) as L'. rewrite E. cbn iota beta. exists (Place [] (r :: tl (breaks x)) (continues x) (gotos x) (variables_of x) h). split.
  { destruct m; cbn in Ef; by subst. }
  split; [split; cbn|].
  - apply (good_build x); [done|done|apply wf_table_nil|constructor; [done|]; by apply tl_good, (wf_le (next x)), G|
      by apply (wf_le (next x)), G|by apply (wf_gotos_le (next x)), G].
  - done.
  - done.
  - done.
  - intros o s No Hs. destruct o; try done; [apply H; by left|idtac|idtac]; try exact (leaves_grows x [] (variables_of x) h _ s G L No Hs).
  - intros i s o s' En (-> & -> & ->). apply H. by right.
Qed.

Lemma walks_continue : walks (fun m => Some (nullify_path (__process_continues m))) (fun i s o s' => i = Start /\ o = Continues /\ s' = s).
Proof.
  intros x ts fs m G Ef. unfold walks_at, __process_continues. change (pop_stree (continue_stack (load x ts fs m))) with (hd [] (continues x), tl (continues x)).
  cbn iota beta. change (cur_stree (load x ts fs m)) with (cur x).
  destruct (merge_or_clone_holds x ts fs m (hd [] (continues x)) (cur x) G) as (r & h & E & L & W & H); [by apply hd_good, G|apply G|].
  pose proof (grows_next _ _ _ L) as L'. rewrite E. cbn iota beta. exists (Place [] (breaks x) (r :: tl (continues x)) (gotos x) (variables_of x) h). split.
  { destruct m; cbn in Ef; by subst. }
  split; [split; cbn|].
  - apply (good_build x); [done|done|apply wf_table_nil|by apply (wf_le (next x)), G|constructor; [done|]; by apply tl_good, (wf_le (next x)), G|
      by apply (wf_gotos_le (next x)), G].
  - done.
  - done.
  - done.
  - intros o s No Hs. destruct o; try done; [idtac|apply H; by left|idtac]; try exact (leaves_grows x [] (variables_of x) h _ s G L No Hs).
  - intros i s o s' En (-> & -> & ->). apply H. by right.
Qed.

(** The path ends. *)
Lemma walks_nullify : walks (fun m => Some (nullify_path m)) (fun _ _ _ _ => False).
Proof.
  intros x ts fs m G Ef. exists (Place [] (breaks x) (continues x) (gotos x) (variables_of x) (heap_of x)).
  split; [destruct m; cbn in Ef; by subst|]. split; [apply leads_set; [done|apply grows_refl|apply wf_table_nil]|done].
Qed.

Lemma walks_goto label sym : walks (fun m => Some (nullify_path (__save_gotos label sym m))) (fun i s o s' => i = Start /\ o = Goes label sym /\ s' = s).
Proof.
  intros x ts fs m G Ef. destruct (save_gotos_load label sym x ts fs m G) as (gs & h & E & L & H).
  destruct (walks_nullify _ ts fs m (leads_good _ _ L) Ef) as (z & E2 & L2 & _). exists z. unfold walks_at. rewrite E. split; [done|].
  split; [by eapply leads_trans|]. intros i s o s' En (-> & -> & ->). apply (leads_keeps _ _ L2 (Goes label sym) s); [done|]. by apply H.
Qed.

Lemma walks_split_goto split addr target :
  is_last_stmt addr = false -> walks (split_goto split addr None target) (performs (STMT_GOTO addr None target)).
Proof.
  intros Nl. assert (forall m, split_goto split addr None target m = Some (nullify_path match target with
    | Some (SYM_NODE name) => if bool_decide (strcmp name name_break = 0) then __process_breaks m
                              else if bool_decide (strcmp name name_continue = 0) then __process_continues m else m
    | Some (SYM_LABEL name sym) => __save_gotos name sym m
    | None => m end)) as E.
  { intros m. unfold split_goto, handle_backward_goto_at_end. rewrite Nl. done. }
  destruct target as [[name|name sym]|].
  - destruct (decide (strcmp name name_break = 0)) as [Eb|Nb]; [|destruct (decide (strcmp name name_continue = 0)) as [Ec|Nc]].
    + eapply walks_impl; [| |exact walks_break]; [intros m; by rewrite E, bool_decide_true|]. intros i s o s' P. by inversion P.
    + eapply walks_impl; [| |exact walks_continue]; [intros m; by rewrite E, bool_decide_false, bool_decide_true|]. intros i s o s' P. by inversion P.
    + eapply walks_impl; [| |exact walks_nullify]; [intros m; by rewrite E, !bool_decide_false|]. intros i s o s' P. by inversion P.
  - eapply walks_impl; [| |exact (walks_goto name sym)]; [done|]. intros i s o s' P. by inversion P.
  - eapply walks_impl; [| |exact walks_nullify]; [done|]. intros i s o s' P. by inversion P.
Qed.

(** ** Before and after every statement *)

Lemma walks_comp f g r q :
  walks (fun m => Some (f m)) (simply r) -> walks (fun m => Some (g m)) (simply q) ->
  walks (fun m => Some (g (f m))) (simply (fun s s' => exists s1, r s s1 /\ q s1 s')).
Proof.
  intros F G. eapply walks_impl; [| |exact (walks_then _ _ _ _ F G)]; [done|].
  intros i s o s' (-> & -> & s1 & R & Q). left. by exists s1.
Qed.

Lemma walks_comp_eq f g r :
  walks (fun m => Some (f m)) (simply eq) -> walks (fun m => Some (g m)) (simply r) -> walks (fun m => Some (g (f m))) (simply r).
Proof.
  intros F G. eapply walks_impl; [| |exact (walks_comp _ _ _ _ F G)]; [done|]. intros i s o s' (-> & -> & R). do 2 (split; [done|]). by exists s.
Qed.

Lemma walks_free b : walks (fun m => Some (free_parsed_call_stuff b m)) (simply eq).
Proof.
  intros x ts fs m G Ef. exists x. unfold free_parsed_call_stuff, __discard_fake_states. cbn [vars load]. rewrite (good_fakes x G).
  split; [by destruct b|]. split; [by apply leads_refl|]. by intros i s o s' En (-> & -> & <-).
Qed.

(** The same, when it depends on the machine. *)
Lemma walks_free_if (b : machine -> bool) : walks (fun m => Some (free_parsed_call_stuff (b m) m)) (simply eq).
Proof. intros x ts fs m G Ef. exact (walks_free (b (load x ts fs m)) x ts fs m G Ef). Qed.

Lemma walks_set_position pos : walks (fun m => Some (set_position pos m)) (simply eq).
Proof.
  intros x ts fs m G Ef. unfold walks_at, set_position. cbn [vars load]. destruct (in_fake_env (variables_of x)); [by apply walks_nothing|].
  destruct (_ && _); [by apply walks_nothing|].
  eexists (Place (cur x) (breaks x) (continues x) (gotos x) (set_current_pos pos (variables_of x)) _). split; [reflexivity|].
  split; [apply leads_vars; try done; apply (line_keeps true_of)|]. intros i s o s' En (-> & -> & <-). destruct En as [N En].
  split; [done|]. by apply (grows_keeps _ _ _ (line_keeps true_of _ _)); [apply G|].
Qed.

Lemma walks_enter stmt : walks (fun m => Some (enter_stmt stmt m)) (simply eq).
Proof.
  unfold enter_stmt. apply (walks_comp_eq (fun m => set_position (stmt_pos stmt) (free_parsed_call_stuff _ (upd _ m))));
    [|apply walks_plain, (stmt_hook_sets true_of)].
  apply (walks_comp_eq (fun m => free_parsed_call_stuff _ (upd _ m))); [|apply walks_set_position].
  apply (walks_comp_eq (upd (fun v => set_indent_cnt (indent_cnt v + 1) v)) (fun m => free_parsed_call_stuff (indent_cnt (vars m) =? 1) m));
    [by apply walks_vars|apply walks_free_if].
Qed.

Lemma post_op_plain : plain_step __process_post_op_stack post.
Proof. apply sets_plain; [apply later_sets, (post_op_sets true_of)|apply (post_op_idle true_of)]. Qed.

Lemma walks_leave stmt : walks (fun m => Some (leave_stmt stmt m)) (simply post).
Proof.
  unfold leave_stmt. apply (walks_comp_eq (fun m => free_parsed_call_stuff _ (upd _ _)));
    [|apply walks_plain, post_op_plain].
  apply (walks_comp_eq (fun m => upd (fun v => set_indent_cnt (indent_cnt v - 1) v) (if is_label stmt then m else __pass_stmt_to_client STMT_HOOK_AFTER stmt m))
    (fun m => free_parsed_call_stuff (indent_cnt (vars m) =? 1) m)); [|apply walks_free_if].
  apply (walks_comp_eq (fun m => if is_label stmt then m else __pass_stmt_to_client STMT_HOOK_AFTER stmt m)); [|by apply walks_vars].
  destruct (is_label stmt); [exact walks_nothing|]. apply walks_plain, (stmt_hook_sets true_of).
Qed.

Lemma walks_stmt n stmt :
  walks (split_by_type (__split_stmt n) n stmt) (performs stmt) -> walks (__split_stmt (S n) (Some stmt)) (runs (Some stmt)).
Proof.
  intros H x ts fs m G Ef. unfold walks_at. cbn [__split_stmt load vars heap_sms].
  rewrite (good_bail x G), (not_skipped true_of), (memory_suffices true_of), (fast_enough true_of). cbn [orb].
  change (walks_at (fun m => m ← split_by_type (__split_stmt n) n stmt (enter_stmt stmt m); Some (leave_stmt stmt m)) (runs (Some stmt)) x ts fs m).
  revert x ts fs m G Ef. eapply walks_impl; [| |exact (walks_after _ _ _ _ (walks_before _ _ _ _ (walks_enter stmt) (fun s => eq_refl) H) (walks_leave stmt))]; [done|].
  intros i s o s' R. inversion R; subst; [right|left]; eauto.
Qed.

Lemma walks_null n : walks (__split_stmt (S n) None) (runs None).
Proof.
  eapply walks_impl; [| |exact (walks_plain _ _ post_op_plain)]; [done|]. intros i s o s' R. by inversion R.
Qed.

(** ** Simple statements *)

Lemma walks_stmts split l :
  Forall (fun stmt => walks (split (Some stmt)) (runs (Some stmt))) l -> walks (split_stmts split l) (runs_all l).
Proof.
  induction 1 as [|c l Hc Hl IH].
  - eapply walks_impl; [| |exact walks_nothing]; [done|]. intros i s o s' R. by inversion R.
  - eapply walks_impl; [| |exact (walks_then _ _ _ _ Hc IH)]; [done|]. intros i s o s' R. inversion R; subst; unfold then_; eauto 10.
Qed.

Lemma walks_do_scope : walks (fun m => Some (do_scope_hooks m)) (simply eq).
Proof.
  intros x ts fs m G Ef. unfold walks_at, do_scope_hooks. cbn [vars load].
  exact (walks_comp_eq _ _ _ (walks_plain _ _ (call_scope_hooks_set true_of)) (walks_set_position _) x ts fs m G Ef).
Qed.

Lemma walks_then_eq f g a : walks f a -> walks (fun m => Some (g m)) (simply eq) -> walks (fun m => m ← f m; Some (g m)) a.
Proof.
  intros F G. eapply walks_impl; [| |exact (walks_after _ _ _ _ F G)]; [done|].
  intros i s o s' A. destruct (decide (o = Falls)) as [->|N]; [right|left]; eauto.
Qed.

Lemma walks_compound split addr l :
  Forall (fun stmt => walks (split (Some stmt)) (runs (Some stmt))) l -> walks (split_compound split addr l) (performs (STMT_COMPOUND addr l)).
Proof.
  intros H. eapply walks_impl; [| |]; [done| |].
  2:{ apply (walks_then_eq (fun m => split_stmts split l (__push_scope_hooks m)) (fun m => if is_function_scope addr then m else do_scope_hooks m)).
      - apply (walks_before _ _ _ eq (walks_plain _ _ (push_scope_hooks_set true_of)) (fun s => eq_refl)). by apply walks_stmts.
      - destruct (is_function_scope addr); [exact walks_nothing|exact walks_do_scope]. }
  intros i s o s' P. by inversion P.
Qed.

Lemma split_expr_plain e : plain e = true -> plain_step (__split_expr e) (eval e).
Proof. intros P. apply sets_plain; [by apply (split_expr_sets true_of)|by apply (split_expr_idle true_of)]. Qed.

(** Nothing comes after a return. *)
Lemma walks_returns f a : walks f a -> walks f (fun _ _ o _ => o = Returns).
Proof. intros F x ts fs m G Ef. destruct (F x ts fs m G Ef) as (y & E & L & _). exists y. split; [done|]. split; [done|]. by intros i s o s' _ ->. Qed.

Lemma walks_return e :
  (forall r, e = Some r -> plain (fake_a_variable_assign r) = true) ->
  walks (fun m => Some (nullify_path (__pass_to_client RETURN_HOOK e (__call_all_scope_hooks (__process_post_op_stack (split_ret_value e m))))))
    (performs (STMT_RETURN e)).
Proof.
  intros P. assert (exists r, walks (fun m => Some (split_ret_value e m)) (simply r)) as [r H].
  { destruct e as [e|]; [eexists; apply walks_plain, split_expr_plain; by apply P|exists eq; exact walks_nothing]. }
  eapply walks_impl; [| |exact (walks_returns _ _ (walks_then _ _ _ _ (walks_comp _ _ _ _ (walks_comp _ _ _ _ (walks_comp _ _ _ _ H (walks_plain _ _ post_op_plain))
    (walks_plain _ _ (all_scope_hooks_set true_of))) (walks_plain _ _ (return_hook_sets true_of e))) walks_nullify))]; [done|].
  intros i s o s' R. by inversion R.
Qed.

Lemma walks_label_stmt split label sym stmt :
  walks (split stmt) (runs stmt) ->
  walks (fun m => split stmt (__pass_stmt_to_client STMT_HOOK_AFTER (STMT_LABEL label sym stmt) (__split_label_stmt label sym m)))
    (performs (STMT_LABEL label sym stmt)).
Proof.
  intros H. eapply walks_impl; [| |exact (walks_then _ _ _ _ (walks_label label sym) (walks_before _ _ _ eq
    (walks_plain _ _ (stmt_hook_sets true_of STMT_HOOK_AFTER (STMT_LABEL label sym stmt))) (fun s => eq_refl) H))]; [done|].
  intros i s o s' P. inversion P; subst; [left; exists s|do 3 right; eauto]. by split.
Qed.

End sound.
