(* ===== verification/FlowLoops.v ===== *)
(** * Loops

    Between the start of a loop and its end there are two more tables, for its breaks and its
    continues.  A loop is parsed once; the states after it are those of the turns that were
    parsed and, unless the loop is known to be gone through, those before it. *)
From stdpp Require Import gmap.
From S2P Require Import Prelude Types Tokens Sval Syntax RangeList Avl AvlFacts Stree StreeWorld Tables SmState Merge MergeFacts States Conditions ConditionFacts ConditionSound Flow FlowSound.
#[local] Open Scope Z_scope.

(** The place inside a loop. *)
Definition inner (x : place) : place := Place (cur x) ([] :: breaks x) ([] :: continues x) (gotos x) (variables_of x) (heap_of x).

Section sound.
Context `{Tgt : Target} `{Fp : FloatOps} `{Chk : Checks} `{Cor : Core} `{Wlk : Walk}.
Context {store : Type} `{Mean : Meaning store} `{SMean : StmtMeaning store}.
Context (true_of : sms -> table -> store -> Prop).
Context `{MOk : !MergeOk true_of} `{COk : !CoreOk true_of} `{WOk : !WalkOk true_of}.

#[local] Abbreviation grows := (grows true_of).
#[local] Abbreviation plain_step := (plain_step true_of).
#[local] Abbreviation holds := (holds true_of).
#[local] Abbreviation leads := (leads true_of).
#[local] Abbreviation leaves := (leaves true_of).
#[local] Abbreviation walks := (walks true_of).
#[local] Abbreviation next x := (next_sm (heap_of x)).

(** ** Entering and leaving *)

Lemma push_load x ts fs m : fake_cur_stree_stack m = [] -> __push_breaks (__push_continues (load x ts fs m)) = load (inner x) ts fs m.
Proof. intros Ef. unfold __push_breaks. cbn. by rewrite Ef. Qed.

Lemma inner_good x : good x -> good (inner x).
Proof. intros G. apply (good_build x); [done|lia|apply G|constructor; [apply wf_table_nil|apply G]..|apply G]. Qed.

(** The continues come back. *)
Record continued (y z : place) : Prop := {
  c_good : good z;
  c_grows : grows (heap_of y) (heap_of z);
  c_breaks : breaks z = breaks y;
  c_continues : continues z = tl (continues y);
  c_gotos : gotos z = gotos y;
  c_holds s : holds (heap_of y) (cur y) s \/ holds (heap_of y) (hd [] (continues y)) s -> holds (heap_of z) (cur z) s
}.

Lemma merge_continues_load y ts fs m : good y -> exists z, __merge_continues (load y ts fs m) = load z ts fs m /\ continued y z.
Proof.
  intros G. set (y' := Place (cur y) (breaks y) (tl (continues y)) (gotos y) (variables_of y) (heap_of y)).
  assert (good y') as G' by (apply (good_build y); [done|lia|apply G|apply G|apply tl_good, G|apply G]).
  destruct (merge_into_cur_load true_of (hd [] (continues y)) y' ts fs m G') as (r & h & E & L & W & H); [apply hd_good, G|].
  eexists. split; [exact E|]. split; cbn; [|done..]. apply (good_set y'); [done|apply (grows_next _ _ _ L)|done].
Qed.

(** The loop is left: [l] says of which stores the table after it is true. *)
Record left_ (l : place -> store -> Prop) (y z : place) : Prop := {
  l_good : good z;
  l_grows : grows (heap_of y) (heap_of z);
  l_breaks : breaks z = tl (breaks y);
  l_continues : continues z = continues y;
  l_gotos : gotos z = gotos y;
  l_holds s : l y s -> holds (heap_of z) (cur z) s
}.

Lemma merge_breaks_load y ts fs m : good y -> fake_cur_stree_stack m = [] ->
  exists z, __merge_breaks (load y ts fs m) = load z ts fs m /\ left_ (fun y s => holds (heap_of y) (cur y) s \/ holds (heap_of y) (hd [] (breaks y)) s) y z.
Proof.
  intros G Ef. set (y' := Place (cur y) (tl (breaks y)) (continues y) (gotos y) (variables_of y) (heap_of y)).
  assert (good y') as G' by (apply (good_build y); [done|lia|apply G|apply tl_good, G|apply G|apply G]).
  destruct (merge_into_cur_load true_of (hd [] (breaks y)) y' ts fs m G') as (r & h & E & L & W & H); [apply hd_good, G|].
  eexists. split.
  - unfold __merge_breaks. change (pop_stree (break_stack (load y ts fs m))) with (hd [] (breaks y), tl (breaks y)). cbn iota beta.
    change (set_break_stack (tl (breaks y)) (load y ts fs m)) with (load y' ts fs m). rewrite E. cbn [fake_cur_stree_stack load]. by rewrite Ef.
  - split; cbn; [|done..]. apply (good_set y'); [done|apply (grows_next _ _ _ L)|done].
Qed.

Lemma use_breaks_load y ts fs m : good y -> fake_cur_stree_stack m = [] ->
  exists z, __use_breaks (load y ts fs m) = load z ts fs m /\ left_ (fun y s => holds (heap_of y) (hd [] (breaks y)) s) y z.
Proof.
  intros G Ef. exists (Place (hd [] (breaks y)) (tl (breaks y)) (continues y) (gotos y) (variables_of y) (heap_of y)). split.
  - unfold __use_breaks. cbn. by rewrite Ef.
  - split; cbn; try done. apply (good_build y); [done|lia|apply hd_good, G|apply tl_good, G|apply G|apply G].
Qed.

(** The jumps out of the body. *)
Lemma loop_jumps l y z y' z' label sym s :
  good y -> continued y z -> leads z y' -> left_ l y' z' -> leaves y (Goes label sym) s -> leaves z' (Goes label sym) s.
Proof.
  intros G C L B Hs. cbn. rewrite (l_gotos _ _ _ B). apply (holds_grows true_of _ _ _ _ (l_grows _ _ _ B)); [apply goto_table_good, (leads_good true_of _ _ L)|].
  apply (leads_keeps true_of _ _ L (Goes label sym)); [done|]. cbn. rewrite (c_gotos _ _ C).
  apply (holds_grows true_of _ _ _ _ (c_grows _ _ C)); [by apply goto_table_good|done].
Qed.

Lemma loop_breaks y z y' s : good y -> continued y z -> leads z y' -> leaves y Breaks s -> leaves y' Breaks s.
Proof.
  intros G C L Hs. apply (leads_keeps true_of _ _ L Breaks); [done|]. cbn. rewrite (c_breaks _ _ C).
  apply (holds_grows true_of _ _ _ _ (c_grows _ _ C)); [apply hd_good, G|done].
Qed.

(** From the start of a loop to its end. *)
Lemma loop_leads l x y z y' z' :
  good x -> leads (inner x) y -> continued y z -> leads z y' -> left_ l y' z' -> leads x z'.
Proof.
  intros G L1 C L2 B. pose proof (leads_good true_of _ _ L1) as Gy. pose proof (leads_good true_of _ _ L2) as Gy'.
  assert (grows (heap_of x) (heap_of z')) as Gr.
  { exact (grows_trans _ _ _ _ (leads_grows true_of _ _ L1) (grows_trans _ _ _ _ (c_grows _ _ C) (grows_trans _ _ _ _ (leads_grows true_of _ _ L2) (l_grows _ _ _ B)))). }
  pose proof (leads_breaks true_of _ _ L1) as B1. pose proof (leads_breaks true_of _ _ L2) as B3.
  pose proof (leads_continues true_of _ _ L1) as K1. cbn in B1, K1.
  split; [apply (l_good _ _ _ B)|done| | |].
  - rewrite (l_breaks _ _ _ B), B3, (c_breaks _ _ C), B1. done.
  - rewrite (l_continues _ _ _ B), (leads_continues true_of _ _ L2), (c_continues _ _ C), K1. done.
  - intros o s No Hs. destruct o as [| | |label sym|]; try done; cbn.
    + rewrite (l_breaks _ _ _ B), B3, (c_breaks _ _ C), B1. apply (holds_grows true_of _ _ _ _ Gr); [apply hd_good, G|done].
    + rewrite (l_continues _ _ _ B). apply (holds_grows true_of _ _ _ _ (l_grows _ _ _ B)); [apply hd_good, Gy'|].
      apply (leads_keeps true_of _ _ L2 Continues s); [done|]. cbn. rewrite (c_continues _ _ C), K1.
      apply (holds_grows true_of _ _ _ _ (grows_trans _ _ _ _ (leads_grows true_of _ _ L1) (c_grows _ _ C))); [apply hd_good, G|done].
    + apply (loop_jumps l y z y' z' label sym s Gy C L2 B). by apply (leads_keeps true_of _ _ L1 (Goes label sym) s).
Qed.

(** ** do { } while *)

Lemma walks_hook hook stmt : walks (fun m => Some (__pass_stmt_to_client hook stmt m)) (simply eq).
Proof. apply walks_plain, (stmt_hook_sets true_of). Qed.

(** A step that changes nothing, on a place. *)
Lemma quiet_step f x ts fs m : walks (fun m => Some (f m)) (simply eq) -> good x -> fake_cur_stree_stack m = [] ->
  exists y, f (load x ts fs m) = load y ts fs m /\ leads x y /\ forall s, holds (heap_of x) (cur x) s -> holds (heap_of y) (cur y) s.
Proof.
  intros W G Ef. destruct (W x ts fs m G Ef) as (y & [= E] & L & H). exists y. split; [done|]. split; [done|].
  intros s Hs. by apply (H Start s Falls s).
Qed.

(** The start of both kinds of loops. *)
Lemma enter_loop label x ts fs m : good x -> fake_cur_stree_stack m = [] ->
  exists y, __merge_gotos label 0 (__push_breaks (__push_continues (load x ts fs m))) = load y ts fs m /\
    leads (inner x) y /\ forall s, holds (heap_of x) (cur x) s -> holds (heap_of y) (cur y) s.
Proof.
  intros G Ef. rewrite push_load by done.
  destruct (merge_gotos_load true_of label 0 (inner x) ts fs m (inner_good x G)) as (r & h & E & L & H).
  eexists. split; [exact E|]. split; [exact L|]. intros s Hs. apply H. by left.
Qed.

Lemma save_loop (b : bool) label x ts fs m : good x ->
  exists y, (if b then load x ts fs m else __save_gotos label 0 (load x ts fs m)) = load y ts fs m /\ leads x y /\ cur y = cur x.
Proof.
  intros G. destruct b; [exists x; split; [done|]; split; [by apply leads_refl|done]|].
  destruct (save_gotos_load true_of label 0 x ts fs m G) as (gs & h & E & L & _). eexists. split; [exact E|]. by split.
Qed.

(** The end of do { } while (c), from the body on. *)
Definition post_loop_end (n : nat) (stmt : statement) (c : expression) (m : machine) : option machine :=
  if is_forever_loop m None (Some c) then Some (__use_breaks (__pass_stmt_to_client AFTER_LOOP_NO_BREAKS stmt m))
  else m ← __split_whole_condition n (Some c) m;
       Some (__merge_breaks (__pass_stmt_to_client AFTER_LOOP_NO_BREAKS stmt (__use_false_states m))).

Lemma post_loop_end_load n stmt c z ts fs m : strips true_of false n c -> good z -> fake_cur_stree_stack m = [] ->
  exists y z', post_loop_end n stmt c (load z ts fs m) = Some (load z' ts fs m) /\ leads z y /\
    left_ (fun y s => holds (heap_of y) (hd [] (breaks y)) s) y z' /\
    forall s s', holds (heap_of z) (cur z) s -> exec c s false s' -> holds (heap_of z') (cur z') s'.
Proof.
  intros St G Ef. unfold post_loop_end. destruct (is_forever_loop _ None (Some c)) eqn:Fo.
  - destruct (quiet_step _ z ts fs m (walks_hook AFTER_LOOP_NO_BREAKS stmt) G Ef) as (y & -> & L & _).
    destruct (use_breaks_load y ts fs m (leads_good true_of _ _ L) Ef) as (z' & -> & B). exists y, z'. do 3 (split; [done|]).
    intros s s' _ X. by apply (forever_is true_of _ None (Some c) s false s' Fo) in X.
  - unfold __split_whole_condition. destruct (condition_some true_of n c z ts fs m St G Ef) as (tf & t & f & h & -> & L & Wt & Wf & H).
    cbn [mbind option_bind]. pose proof (leads_set true_of z f h G L Wf) as Lf. set (y0 := Place f _ _ _ _ h) in Lf.
    change (__use_false_states (load (Place t (breaks z) (continues z) (gotos z) (variables_of z) h) ts (f :: fs) m)) with (load y0 ts fs m).
    destruct (quiet_step _ y0 ts fs m (walks_hook AFTER_LOOP_NO_BREAKS stmt) (leads_good true_of _ _ Lf) Ef) as (y & -> & L1 & H1).
    destruct (merge_breaks_load y ts fs m (leads_good true_of _ _ L1) Ef) as (z' & -> & B). exists y, z'. split; [done|].
    split; [exact (leads_trans true_of _ _ _ Lf L1)|]. destruct B as [B1 B2 B3 B4 B5 B6]. split; [split; auto|].
    intros s s' Hs X. apply B6. left. apply H1. by destruct (H s false s' Hs X).
Qed.

Lemma walks_do n split syms pre body stmt c :
  strips true_of false n c -> walks (split body) (runs body) ->
  let it := STMT_ITERATOR syms pre None body stmt (Some c) in
  walks (handle_post_loop split n it body (Some c)) (performs it).
Proof.
  intros St Wb it x ts fs m G Ef. unfold walks_at, handle_post_loop. set (name := get_loop_name _).
  destruct (quiet_step _ x ts fs m (walks_comp_eq true_of _ _ _ (walks_comp_eq true_of _ _ _ (walks_vars true_of (fun v => set_loop_num (loop_num v + 1) v) ltac:(done))
    (walks_vars true_of (fun v => set_loop_count (u32 (loop_count v + 1)) v) ltac:(done))) (walks_hook POSTLOOP_HOOK it)) G Ef) as (x1 & E1 & L1 & H1).
  change (__pass_stmt_to_client POSTLOOP_HOOK it (incr_loop_count (incr_loop_num (load x ts fs m)))) with
    (__pass_stmt_to_client POSTLOOP_HOOK it (upd (fun v => set_loop_count (u32 (loop_count v + 1)) v) (upd (fun v => set_loop_num (loop_num v + 1) v) (load x ts fs m)))).
  rewrite E1. pose proof (leads_good true_of _ _ L1) as G1.
  destruct (enter_loop name x1 ts fs m G1 Ef) as (y0 & -> & L2 & H2).
  destruct (Wb y0 ts fs m (leads_good true_of _ _ L2) Ef) as (y & -> & L3 & H3). cbn [mbind option_bind].
  pose proof (leads_trans true_of _ _ _ L2 L3) as Ly.
  destruct (merge_continues_load y ts fs m (leads_good true_of _ _ Ly)) as (z & -> & C).
  destruct (save_loop (expr_is_zero (load z ts fs m) c) name z ts fs m (c_good _ _ C)) as (z1 & -> & L4 & Ec).
  destruct (post_loop_end_load n it c z1 ts fs m St (leads_good true_of _ _ L4) Ef) as (y' & z' & E & L5 & B & H5).
  unfold post_loop_end in E. rewrite E. cbn [mbind option_bind].
  pose proof (leads_trans true_of _ _ _ L4 L5) as L6. pose proof (loop_leads _ x1 y z y' z' G1 Ly C L6 B) as L7.
  destruct (quiet_step _ z' ts fs m (walks_vars true_of (fun v => set_loop_count (u32 (loop_count v - 1)) v) ltac:(done)) (l_good _ _ _ B) Ef) as (z2 & E2 & L8 & H8).
  exists z2. split; [f_equal; exact E2|].
  split; [exact (leads_trans true_of _ _ _ L1 (leads_trans true_of _ _ _ L7 L8))|].
  assert (forall i s, enters true_of x i s -> enters true_of y0 i s) as En.
  { intros i s Hs. destruct i as [|label sym]; [by apply H2, H1|].
    apply (leads_keeps true_of _ _ L2 (Goes label sym)); [done|]. by apply (leads_keeps true_of _ _ L1 (Goes label sym)). }
  intros i s o s' Hi%En P. inversion P as [| | | | | | | | | | | | | |? ? ? ? ? ? ? ? ? ? IP|? ? ? ? ? ? ? ? ? ? ? ? IP|? ? ? ? ? ? ? ? ? ? ? IP|? ? ? ? ? ? ? ? ? D]; subst;
    [destruct IP as [IP|IP]; done..|].
  inversion D as [? ? ? ? ? R|? ? ? ? ? ? ? R|? ? ? ? ? R|? ? ? ? o1 s1 ? R Ho X]; subst.
  - apply H8, (l_holds _ _ _ B), (loop_breaks y z y' s' (leads_good true_of _ _ Ly) C L6). by apply (H3 i s Breaks).
  - apply (leads_keeps true_of _ _ L8 (Goes label sym)); [done|]. apply (loop_jumps _ y z y' z' label sym s' (leads_good true_of _ _ Ly) C L6 B). by apply (H3 i s (Goes label sym)).
  - done.
  - apply H8, (H5 s1); [|done]. rewrite Ec. apply (holds_grows true_of _ _ _ _ (leads_grows true_of _ _ L4)); [apply (c_good _ _ C)|]. apply (c_holds _ _ C). destruct Ho as [->| ->]; [left|right]; [by apply (H3 i s Falls)|by apply (H3 i s Continues)].
Qed.

(** ** while and for *)

(** What comes before the loop. *)
Definition loop_begins (syms : Z) (pre : option statement) (s s' : store) : Prop :=
  exists s0, declares syms s s0 /\ ((pre = None /\ s' = s0) \/ (pre <> None /\ runs pre Start s0 Falls s')).

Lemma walks_begin split syms pre : (pre <> None -> walks (split pre) (runs pre)) ->
  walks (fun m => match pre with
                  | Some s => split (Some s) (split_declaration syms (incr_loop_num (__push_scope_hooks m)))
                  | None => Some (split_declaration syms (incr_loop_num (__push_scope_hooks m)))
                  end) (simply (loop_begins syms pre)).
Proof.
  intros Wp. pose proof (walks_comp_eq true_of _ _ _ (walks_comp_eq true_of _ _ _ (walks_plain true_of _ _ (push_scope_hooks_set true_of))
    (walks_vars true_of (fun v => set_loop_num (loop_num v + 1) v) ltac:(done))) (walks_plain true_of _ _ (declaration_sets true_of syms))) as W.
  destruct pre as [pre|].
  - eapply walks_impl; [| |exact (walks_then true_of _ _ _ _ W (Wp ltac:(done)))]; [done|].
    intros i s o s' (-> & -> & s0 & D & [[? _]|[_ R]]); [done|]. left. by exists s0.
  - eapply walks_impl; [| |exact W]; [done|]. intros i s o s' (-> & -> & s0 & D & [[_ ->]|[? _]]); done.
Qed.

Lemma canonical_load it c x ts fs m : canonical_states true_of it c -> good x -> fake_cur_stree_stack m = [] ->
  exists sm stree h, __extra_handle_canonical_loops it (load x ts fs m) =
      (sm, stree, load (Place (cur x) (breaks x) (continues x) (gotos x) (variables_of x) h) ts fs m) /\
    grows (heap_of x) h /\ wf_table (next_sm h) stree /\
    forall s s', holds (heap_of x) (cur x) s -> passes c s true s' -> Forall (settable true_of h s') stree.
Proof.
  intros C G Ef. assert (load x ts fs m = put (cur x) [] (pre_cond_stack m) (cond_true_stack m)
    (cond_false_stack m) (heap_of x) (load x ts fs m)) as E by (destruct m, x; cbn in Ef; by subst).
  destruct (C (cur x) [] (pre_cond_stack m) (cond_true_stack m) (cond_false_stack m) (heap_of x) (load x ts fs m) (good_cur x G)) as
    (sm & stree & h & E1 & L & W & H); [constructor|].
  exists sm, stree, h. rewrite E, E1. split; [destruct m; cbn in Ef; by subst|done].
Qed.

(** One state of a canonical loop is set again. *)
Lemma set_state_load sm x ts fs m : good x -> fake_cur_stree_stack m = [] -> allocated (next x) sm ->
  exists t h, (set_state (owner sm) (sm_name sm) (sm_sym sm) (sm_st sm) (load x ts fs m)).2 =
      load (Place t (breaks x) (continues x) (gotos x) (variables_of x) h) ts fs m /\
    grows (heap_of x) h /\ wf_table (next_sm h) t /\
    forall h0 s, grows h0 (heap_of x) -> holds (heap_of x) (cur x) s -> settable true_of h0 s sm -> holds h t s.
Proof.
  intros G Ef A.
  assert (exists t h, load x ts fs m = load (Place t (breaks x) (continues x) (gotos x) (variables_of x) h) ts fs m /\
    grows (heap_of x) h /\ wf_table (next_sm h) t /\
    forall h0 s, grows h0 (heap_of x) -> holds (heap_of x) (cur x) s -> settable true_of h0 s sm -> holds h t s) as Same.
  { exists (cur x), (heap_of x). split; [by destruct x|]. split; [apply grows_refl|]. split; [apply G|]. done. }
  unfold set_state. destruct (Z.eqb_spec (sm_st sm) 0); [done|]. destruct (_ && _); [done|]. clear Same.
  cbn [fake_cur_stree_stack load]. rewrite Ef. unfold run. cbn [cur_stree heap_sms load].
  destruct (set_state_stree (cur x) (owner sm) (sm_name sm) (sm_sym sm) (sm_st sm) (heap_of x)) as [r h] eqn:E.
  exists r.2, h. split; [reflexivity|]. assert (h = (alloc_sm_state (owner sm) (sm_name sm) (sm_sym sm) (sm_st sm) (heap_of x)).2) as Eh by (by injection E).
  assert (r.2 = ins (SmState (next x) (sm_name sm) (owner sm mod (USHRT_MAX + 1)) (sm_sym sm) (lineno (heap_of x)) (sm_st sm)) (cur x)) as Er by (by injection E as <- _).
  assert (grows (heap_of x) h) as Gr by (rewrite Eh; apply (alloc_keeps true_of)). split; [done|]. split.
  - rewrite Er. apply wf_ins; [|by apply (grows_wf _ _ _ _ Gr), G]. rewrite Eh. destruct A as [A _]. unfold USHRT_MAX in *.
    split; cbn; [rewrite Z.mod_small by (unfold USHRT_MAX; lia); unfold USHRT_MAX; lia|lia].
  - intros h0 s G0 Hs S. split; [rewrite Er; apply ins_not_nil|]. apply (S (heap_of x) (cur x)); [done|apply G|done|done].
Qed.

(** The states of a canonical loop are set again. *)
Lemma set_states_load l : forall x ts fs m, good x -> fake_cur_stree_stack m = [] -> Forall (allocated (next x)) l ->
  exists t h, foldl (fun m sm => (set_state (owner sm) (sm_name sm) (sm_sym sm) (sm_st sm) m).2) (load x ts fs m) l =
      load (Place t (breaks x) (continues x) (gotos x) (variables_of x) h) ts fs m /\
    grows (heap_of x) h /\ wf_table (next_sm h) t /\
    forall h0 s, grows h0 (heap_of x) -> holds (heap_of x) (cur x) s -> Forall (settable true_of h0 s) l -> holds h t s.
Proof.
  induction l as [|sm l IH]; intros x ts fs m G Ef F; cbn [foldl].
  { exists (cur x), (heap_of x). split; [by destruct x|]. split; [apply grows_refl|]. split; [apply G|]. done. }
  inversion F as [|? ? A F']; subst. destruct (set_state_load sm x ts fs m G Ef A) as (t & h & E & L & W & H).
  rewrite E. destruct (IH (Place t (breaks x) (continues x) (gotos x) (variables_of x) h) ts fs m) as (t' & h' & E' & L' & W' & H').
  { apply (good_set x); [done|apply (grows_next _ _ _ L)|done]. } { done. }
  { eapply Forall_impl; [|exact F']. intros y. apply allocated_le, (grows_next _ _ _ L). }
  exists t', h'. split; [exact E'|]. cbn in L', W', H'. split; [by eapply grows_trans|]. split; [done|]. intros h0 s G0 Hs Fs. inversion Fs; subst.
  apply (H' h0); [by eapply grows_trans| |done]. by apply (H h0).
Qed.

Lemma test_loop_load n syms pre c body stmt post_c stree x ts fs m :
  let it := STMT_ITERATOR syms pre c body stmt post_c in
  walkable_condition true_of n c -> good x -> fake_cur_stree_stack m = [] -> wf_table (next x) stree ->
  exists once y f, test_loop n it c stree (load x ts fs m) = Some (once, load y ts (f :: fs) m) /\ leads x y /\ wf_table (next y) f /\
    (forall s s', holds (heap_of x) (cur x) s -> passes c s true s' -> Forall (settable true_of (heap_of x) s') stree -> holds (heap_of y) (cur y) s') /\
    (forall s s', holds (heap_of x) (cur x) s -> passes c s false s' -> skips it s -> once = false /\ holds (heap_of y) f s').
Proof.
  intros it Wc G Ef Ws. unfold test_loop.
  destruct (quiet_step _ x ts fs m (walks_comp_eq true_of _ _ _ (walks_vars true_of (fun v => set___in_pre_condition (__in_pre_condition v + 1) v) ltac:(done))
    (walks_vars true_of (fun v => set_confidence_implied (confidence_implied v + 1) v) ltac:(done))) G Ef) as (y3 & E6 & L6 & H6).
  change (__set_confidence_implied (incr_in_pre_condition (load x ts fs m))) with
    (upd (fun v => set_confidence_implied (confidence_implied v + 1) v) (upd (fun v => set___in_pre_condition (__in_pre_condition v + 1) v) (load x ts fs m))).
  rewrite E6. clear E6. pose proof (leads_good true_of _ _ L6) as G6.
  destruct (condition_load true_of n c y3 ts fs m Wc G6 Ef) as (tf & t & f & h7 & -> & N7 & Wt & Wf & H7). cbn [mbind option_bind].
  pose proof (leads_set true_of y3 t h7 G6 N7 Wt) as L7. set (y4 := Place t _ _ _ _ h7) in L7.
  destruct (quiet_step _ y4 ts (f :: fs) m (walks_vars true_of (fun v => set_confidence_implied (confidence_implied v - 1) v) ltac:(done))
    (leads_good true_of _ _ L7) Ef) as (y5 & E8 & L8 & H8).
  change (__unset_confidence (load (Place t (breaks y3) (continues y3) (gotos y3) (variables_of y3) h7) ts (f :: fs) m)) with
    (upd (fun v => set_confidence_implied (confidence_implied v - 1) v) (load y4 ts (f :: fs) m)).
  rewrite E8. clear E8. set (once := if match c with None => true | Some _ => tf =? 1 end then true else call_once_through_hooks (load y5 ts (f :: fs) m) it).
  destruct (quiet_step _ y5 ts (f :: fs) m (walks_vars true_of (fun v => set___in_pre_condition (__in_pre_condition v - 1) v) ltac:(done))
    (leads_good true_of _ _ L8) Ef) as (y6 & E9 & L9 & H9).
  change (decr_in_pre_condition (load y5 ts (f :: fs) m)) with (upd (fun v => set___in_pre_condition (__in_pre_condition v - 1) v) (load y5 ts (f :: fs) m)).
  rewrite E9. clear E9. pose proof (leads_good true_of _ _ L9) as G9. pose proof (leads_trans true_of _ _ _ L8 L9) as L89.
  pose proof (leads_trans true_of _ _ _ L6 (leads_trans true_of _ _ _ L7 L89)) as L69.
  assert (wf_table (next y6) stree) as Ws' by (eapply grows_wf; [exact (leads_grows true_of _ _ L69)|exact Ws]).
  destruct (set_states_load stree y6 ts (f :: fs) m G9 Ef (proj2 Ws')) as (t' & h10 & -> & N10 & W10 & H10).
  pose proof (leads_set true_of y6 t' h10 G9 N10 W10) as L10.
  eexists once, _, f. split; [reflexivity|]. split; [exact (leads_trans true_of _ _ _ L69 L10)|].
  pose proof (leads_grows true_of _ _ (leads_trans true_of _ _ _ L89 L10)) as Gf. split; [by eapply grows_wf|]. split.
  - intros s s' Hx X Hs. apply (H10 (heap_of x)); [exact (leads_grows true_of _ _ L69)| |done]. apply H9, H8. by destruct (H7 s true s' (H6 s Hx) X).
  - intros s s' Hx X Sk. destruct (H7 s false s' (H6 s Hx) X) as [K ?]. split; [|by apply (holds_grows true_of _ _ _ _ Gf)].
    unfold once. destruct c as [e|]; [|by destruct X]. destruct (Z.eqb_spec tf 1) as [->|]; [by destruct K as [?|[[_ ?]|[? _]]]|].
    destruct (call_once_through_hooks _ it) eqn:O; [|done]. by apply (once_through_is true_of _ _ s) in O.
Qed.

Lemma pre_loop_head_load n split syms pre c body stmt post_c x ts fs m :
  let it := STMT_ITERATOR syms pre c body stmt post_c in
  (pre <> None -> walks (split pre) (runs pre)) -> walkable_condition true_of n c -> good x -> fake_cur_stree_stack m = [] ->
  exists name once sm x1 y f, pre_loop_head split n it syms pre c (load x ts fs m) = Some (name, once, sm, load y ts (f :: fs) m) /\
    leads x x1 /\ leads (inner x1) y /\ wf_table (next y) f /\
    (forall s s1 s2, holds (heap_of x) (cur x) s -> loop_begins syms pre s s1 -> passes c s1 true s2 -> holds (heap_of y) (cur y) s2) /\
    (forall s s1 s2, holds (heap_of x) (cur x) s -> loop_begins syms pre s s1 -> passes c s1 false s2 -> skips it s1 -> once = false /\ holds (heap_of y) f s2).
Proof.
  intros it Wp Wc G Ef. unfold pre_loop_head. set (name := get_loop_name _).
  destruct (walks_begin split syms pre Wp x ts fs m G Ef) as (x1 & E1 & L1 & H1). rewrite E1. cbn [mbind option_bind]. clear E1.
  destruct (quiet_step _ x1 ts fs m (walks_vars true_of (fun v => set_loop_count (u32 (loop_count v + 1)) v) ltac:(done)) (leads_good true_of _ _ L1) Ef) as (x2 & E2 & L2 & H2).
  change (incr_loop_count (load x1 ts fs m)) with (upd (fun v => set_loop_count (u32 (loop_count v + 1)) v) (load x1 ts fs m)). rewrite E2. clear E2.
  destruct (enter_loop name x2 ts fs m (leads_good true_of _ _ L2) Ef) as (y0 & -> & L3 & H3).
  destruct (quiet_step _ y0 ts fs m (walks_hook PRELOOP_HOOK it) (leads_good true_of _ _ L3) Ef) as (y1 & -> & L4 & H4).
  pose proof (leads_good true_of _ _ L4) as G4.
  destruct (canonical_load it c y1 ts fs m (canonical_loops_ok true_of syms pre c body stmt post_c) G4 Ef) as (sm & stree & h5 & -> & N5 & W5 & H5).
  pose proof (leads_set true_of y1 (cur y1) h5 G4 N5 ltac:(apply (grows_wf _ _ _ _ N5), G4)) as L5.
  destruct (test_loop_load n syms pre c body stmt post_c stree _ ts fs m Wc (leads_good true_of _ _ L5) Ef W5) as (once & y & f & E6 & L6 & Wf & Ht & Hf).
  fold it in E6. rewrite E6. cbn [mbind option_bind]. clear E6. eexists name, once, _, x2, y, f. split; [reflexivity|].
  split; [exact (leads_trans true_of _ _ _ L1 L2)|].
  split; [exact (leads_trans true_of _ _ _ L3 (leads_trans true_of _ _ _ L4 (leads_trans true_of _ _ _ L5 L6)))|].
  split; [done|]. assert (forall s s1, holds (heap_of x) (cur x) s -> loop_begins syms pre s s1 -> holds (heap_of y1) (cur y1) s1) as Begin.
  { intros s s1 Hs B. apply H4, H3, H2. by apply (H1 Start s Falls s1). }
  split; [intros s s1 s2 Hs B X|intros s s1 s2 Hs B X Sk]; pose proof (Begin s s1 Hs B) as H1'; [apply (Ht s1); [|done|by apply (H5 s1)]|apply (Hf s1); [|done|done]];
    by apply (holds_grows true_of _ _ _ _ (leads_grows true_of _ _ L5)); [apply G4|].
Qed.

(** ** The ends of a loop *)

Lemma merge_false_load x ts f fs m : good x -> wf_table (next x) f ->
  exists y, __merge_false_states (load x ts (f :: fs) m) = load y ts fs m /\ leads x y /\ forall s, holds (heap_of x) (cur x) s \/ holds (heap_of x) f s -> holds (heap_of y) (cur y) s.
Proof.
  intros G W. destruct (merge_into_cur_load true_of f x ts fs m G W) as (r & h & E & L & Wr & H). eexists. split; [exact E|].
  split; [by apply leads_set|done].
Qed.

Lemma leave_false_load once x ts f fs m : good x -> wf_table (next x) f ->
  exists y, leave_false_states once (load x ts (f :: fs) m) = load y ts fs m /\ leads x y /\
    forall s, holds (heap_of x) (cur x) s \/ (once = false /\ holds (heap_of x) f s) -> holds (heap_of y) (cur y) s.
Proof.
  intros G W. destruct once.
  - exists x. split; [done|]. split; [by apply leads_refl|]. by intros s [?|[? _]].
  - destruct (merge_false_load x ts f fs m G W) as (y & E & L & H). exists y. split; [done|]. split; [done|]. intros s [?|[_ ?]]; apply H; auto.
Qed.

(** What the hooks after a loop do. *)
Lemma after_loop_step (b : bool) sm stmt c it x ts fs m : good x -> fake_cur_stree_stack m = [] ->
  exists y, __pass_stmt_to_client AFTER_LOOP_NO_BREAKS it
      (match sm with Some sm => if b then __extra_pre_loop_hook_after sm stmt c (load x ts fs m) else load x ts fs m | None => load x ts fs m end) =
      load y ts fs m /\ leads x y /\ forall s, holds (heap_of x) (cur x) s -> holds (heap_of y) (cur y) s.
Proof.
  intros G Ef. assert (walks (fun m => Some (match sm with Some sm => if b then __extra_pre_loop_hook_after sm stmt c m else m | None => m end)) (simply eq)) as W.
  { destruct sm as [sm|]; [|exact (walks_nothing true_of)]. destruct b; [|exact (walks_nothing true_of)].
    apply walks_plain, (after_loop_sets true_of). }
  exact (quiet_step _ x ts fs m (walks_comp_eq true_of _ _ _ W (walks_hook AFTER_LOOP_NO_BREAKS it)) G Ef).
Qed.

Lemma pre_loop_end_load n split it name once sm stmt c y ts f fs m :
  walkable_condition true_of n c -> walks (split stmt) (runs stmt) -> good y -> fake_cur_stree_stack m = [] -> wf_table (next y) f ->
  exists z y' z', pre_loop_end split n it name once sm stmt c (load y ts (f :: fs) m) = Some (load z' ts fs m) /\
    continued y z /\ leads z y' /\ left_ (fun y s => holds (heap_of y) (hd [] (breaks y)) s) y' z' /\
    (forall s s1 s', holds (heap_of z) (cur z) s -> runs stmt Start s Falls s1 -> passes c s1 false s' -> holds (heap_of z') (cur z') s') /\
    (once = false -> forall s, holds (heap_of y) f s -> holds (heap_of z') (cur z') s).
Proof.
  intros Wc Wp G Ef Wf. unfold pre_loop_end.
  destruct (merge_continues_load y ts (f :: fs) m G) as (z & -> & C). set (unch := __iterator_unchanged _ _).
  destruct (Wp z ts (f :: fs) m (c_good _ _ C) Ef) as (z1 & -> & L1 & H1). cbn [mbind option_bind].
  destruct (save_loop false name z1 ts (f :: fs) m (leads_good true_of _ _ L1)) as (z2 & -> & L2 & E2).
  destruct (quiet_step _ z2 ts (f :: fs) m (walks_vars true_of (fun v => set___in_pre_condition (__in_pre_condition v + 1) v) ltac:(done))
    (leads_good true_of _ _ L2) Ef) as (z3 & E3 & L3 & H3).
  change (incr_in_pre_condition (load z2 ts (f :: fs) m)) with (upd (fun v => set___in_pre_condition (__in_pre_condition v + 1) v) (load z2 ts (f :: fs) m)).
  rewrite E3. clear E3. pose proof (leads_good true_of _ _ L3) as G3. unfold __split_whole_condition.
  destruct (condition_load true_of n c z3 ts (f :: fs) m Wc G3 Ef) as (tf & t & f2 & h4 & -> & N4 & Wt & Wf2 & H4). cbn [mbind option_bind].
  pose proof (leads_set true_of z3 t h4 G3 N4 Wt) as L4. set (z4 := Place t _ _ _ _ h4) in L4.
  destruct (walks_then true_of _ _ _ _ (walks_vars true_of (fun v => set___in_pre_condition (__in_pre_condition v - 1) v) ltac:(done)) (walks_nullify true_of)
    z4 ts (f2 :: f :: fs) m (leads_good true_of _ _ L4) Ef) as (z5 & E5 & L5 & _). cbn [mbind option_bind] in E5. apply (inj Some) in E5.
  change (nullify_path (decr_in_pre_condition _)) with (nullify_path (upd (fun v => set___in_pre_condition (__in_pre_condition v - 1) v) (load z4 ts (f2 :: f :: fs) m))).
  rewrite E5. clear E5.
  destruct (merge_false_load z5 ts f2 (f :: fs) m (leads_good true_of _ _ L5)) as (z6 & -> & L6 & H6).
  { eapply grows_wf; [exact (leads_grows true_of _ _ L5)|exact Wf2]. }
  pose proof (leads_trans true_of _ _ _ L1 (leads_trans true_of _ _ _ L2 (leads_trans true_of _ _ _ L3 (leads_trans true_of _ _ _ L4 (leads_trans true_of _ _ _ L5 L6))))) as L16.
  pose proof (grows_trans _ _ _ _ (c_grows _ _ C) (leads_grows true_of _ _ L16)) as Gf.
  destruct (leave_false_load once z6 ts f fs m (leads_good true_of _ _ L6)) as (z7 & -> & L7 & H7).
  { eapply grows_wf; [exact Gf|exact Wf]. }
  destruct (after_loop_step unch sm stmt c it z7 ts fs m (leads_good true_of _ _ L7) Ef) as (y' & -> & L8 & H8).
  destruct (merge_breaks_load y' ts fs m (leads_good true_of _ _ L8) Ef) as (z' & -> & B). exists z, y', z'. split; [done|]. split; [done|].
  split; [exact (leads_trans true_of _ _ _ L16 (leads_trans true_of _ _ _ L7 L8))|]. destruct B as [B1 B2 B3 B4 B5 B6]. split; [split; auto|]. split.
  - intros s s1 s' Hs R X. apply B6. left. apply H8, H7. left. apply H6. right. destruct (H4 s1 false s') as [_ ?]; [|done|by apply (holds_grows true_of _ _ _ _ (leads_grows true_of _ _ L5))].
    apply H3. rewrite E2. apply (holds_grows true_of _ _ _ _ (leads_grows true_of _ _ L2)); [apply (leads_good true_of _ _ L1)|]. by apply (H1 Start s Falls s1).
  - intros O s Hs. apply B6. left. apply H8, H7. right. split; [done|]. by apply (holds_grows true_of _ _ _ _ Gf).
Qed.

Lemma pre_loop_forever_load split it name y ts f fs m :
  (forall m, split None m = Some (__process_post_op_stack m)) -> no_increments true_of -> good y -> fake_cur_stree_stack m = [] ->
  exists z y' z', pre_loop_forever split it name None (load y ts (f :: fs) m) = Some (load z' ts fs m) /\
    continued y z /\ leads z y' /\ left_ (fun y s => holds (heap_of y) (hd [] (breaks y)) s) y' z'.
Proof.
  intros Sp Ni G Ef. unfold pre_loop_forever. destruct (merge_continues_load y ts (f :: fs) m G) as (z & -> & C).
  destruct (save_loop false name z ts (f :: fs) m (c_good _ _ C)) as (z1 & -> & L1 & _). rewrite Sp. cbn [mbind option_bind].
  pose proof (leads_good true_of _ _ L1) as G1.
  destruct (Ni (cur z1) [[]] (cur z1 :: pre_cond_stack m) (cond_true_stack m) (cond_false_stack m) (heap_of z1) (load z1 ts (f :: fs) m)) as (h & E & L).
  replace (__push_fake_cur_stree (load z1 ts (f :: fs) m)) with
    (put (cur z1) [[]] (cur z1 :: pre_cond_stack m) (cond_true_stack m) (cond_false_stack m) (heap_of z1) (load z1 ts (f :: fs) m))
    by (destruct m; cbn in Ef; by subst).
  rewrite E. clear E.
  pose proof (leads_set true_of z1 (cur z1) h G1 L ltac:(apply (grows_wf _ _ _ _ L), G1)) as L2. set (z2 := Place (cur z1) _ _ _ _ h) in L2.
  replace (__pop_fake_cur_stree (put (cur z1) [[]] (cur z1 :: pre_cond_stack m) (cond_true_stack m) (cond_false_stack m) h (load z1 ts (f :: fs) m)))
    with (@nil sm_state, load z2 ts (f :: fs) m) by (destruct m; cbn in Ef; by subst).
  change (__discard_false_states (load z2 ts (f :: fs) m)) with (load z2 ts fs m).
  destruct (quiet_step _ z2 ts fs m (walks_hook AFTER_LOOP_NO_BREAKS it) (leads_good true_of _ _ L2) Ef) as (y' & -> & L3 & _).
  destruct (use_breaks_load y' ts fs m (leads_good true_of _ _ L3) Ef) as (z' & -> & B). exists z, y', z'.
  split; [by destruct (negb _)|]. split; [done|]. split; [exact (leads_trans true_of _ _ _ L1 (leads_trans true_of _ _ _ L2 L3))|done].
Qed.

(** The ends of a loop, whichever it has. *)
Definition pre_loop_ends (split : option statement -> machine -> option machine) (n : nat) (it : statement) (name : list Z) (once : bool) (sm : option sm_state)
    (c : option expression) (body stmt : option statement) (post_c : option expression) (m : machine) : option machine :=
  scoped_guard ← is_scoped_guard_goto m body stmt;
  if (scoped_guard : bool) then Some (pre_loop_scoped_guard it name once m)
  else if is_forever_loop m c post_c then pre_loop_forever split it name stmt m
  else pre_loop_end split n it name once sm stmt c m.

Lemma pre_loop_ends_load n split it name once sm c body stmt post_c y ts f fs m :
  walkable_condition true_of n c -> walks (split stmt) (runs stmt) -> (forall m, split None m = Some (__process_post_op_stack m)) ->
  is_pre_loop c post_c -> (forall m, is_scoped_guard_goto m body stmt = Some false) ->
  (forall m, is_forever_loop m c post_c = false) \/ ((forall m, is_forever_loop m c post_c = true) /\ stmt = None /\ no_increments true_of) ->
  good y -> fake_cur_stree_stack m = [] -> wf_table (next y) f ->
  exists z y' z', pre_loop_ends split n it name once sm c body stmt post_c (load y ts (f :: fs) m) = Some (load z' ts fs m) /\
    continued y z /\ leads z y' /\ left_ (fun y s => holds (heap_of y) (hd [] (breaks y)) s) y' z' /\
    (forall s s1 s', holds (heap_of z) (cur z) s -> runs stmt Start s Falls s1 -> passes c s1 false s' -> holds (heap_of z') (cur z') s') /\
    (once = false -> forall s0 s, passes c s0 false s -> holds (heap_of y) f s -> holds (heap_of z') (cur z') s).
Proof.
  intros Wc Wp Sp Ip Ng Fo G Ef Wf. unfold pre_loop_ends. rewrite Ng. cbn [mbind option_bind]. destruct Fo as [Fo|(Fo & -> & Ni)].
  - rewrite Fo. destruct (pre_loop_end_load n split it name once sm stmt c y ts f fs m Wc Wp G Ef Wf) as (z & y' & z' & E & C & L & B & H1 & H2).
    exists z, y', z'. do 5 (split; [done|]). intros O s0 s _ Hs. by apply H2.
  - rewrite Fo. destruct (pre_loop_forever_load split it name y ts f fs m Sp Ni G Ef) as (z & y' & z' & E & C & L & B).
    assert (forall s s', ~ passes c s false s') as No.
    { intros s s' X. destruct c as [e|].
      - by apply (forever_is true_of (load y ts fs m) (Some e) post_c s false s' (Fo _)) in X.
      - by destruct X. }
    exists z, y', z'. do 4 (split; [done|]). split; [intros s s1 s' _ _ X|intros _ s0 s X]; by apply No in X.
Qed.

Lemma walks_pre_loop n split syms pre c body stmt post_c :
  let it := STMT_ITERATOR syms pre c body stmt post_c in
  is_pre_loop c post_c -> (pre <> None -> walks (split pre) (runs pre)) -> walkable_condition true_of n c ->
  walks (split body) (runs body) -> walks (split stmt) (runs stmt) -> (forall m, split None m = Some (__process_post_op_stack m)) ->
  (forall m, is_scoped_guard_goto m body stmt = Some false) ->
  (forall m, is_forever_loop m c post_c = false) \/ ((forall m, is_forever_loop m c post_c = true) /\ stmt = None /\ no_increments true_of) ->
  walks (handle_pre_loop split n it syms pre c body stmt post_c) (performs it).
Proof.
  intros it Ip Wpre Wc Wb Wp Sp Ng Fo x ts fs m G Ef. unfold walks_at, handle_pre_loop.
  destruct (pre_loop_head_load n split syms pre c body stmt post_c x ts fs m Wpre Wc G Ef) as (name & once & sm & x1 & y0 & f & E0 & L1 & L2 & Wf & Ht & Hf).
  fold it in E0. rewrite E0. cbn [mbind option_bind]. clear E0.
  destruct (Wb y0 ts (f :: fs) m (leads_good true_of _ _ L2) Ef) as (y & -> & L3 & H3). cbn [mbind option_bind].
  pose proof (leads_trans true_of _ _ _ L2 L3) as Ly.
  destruct (pre_loop_ends_load n split it name once sm c body stmt post_c y ts f fs m Wc Wp Sp Ip Ng Fo (leads_good true_of _ _ Ly) Ef) as
    (z & y' & z' & E & C & L6 & B & He & Ho); [eapply grows_wf; [exact (leads_grows true_of _ _ L3)|exact Wf]|].
  unfold pre_loop_ends in E. rewrite Ng in E |- *. cbn [mbind option_bind] in E |- *. rewrite E. cbn [mbind option_bind]. clear E.
  pose proof (loop_leads _ x1 y z y' z' (leads_good true_of _ _ L1) Ly C L6 B) as L7.
  destruct (quiet_step _ z' ts fs m (walks_comp_eq true_of _ _ _ (walks_vars true_of (fun v => set_loop_count (u32 (loop_count v - 1)) v) ltac:(done))
    (walks_do_scope true_of)) (l_good _ _ _ B) Ef) as (z2 & E2 & L8 & H8).
  exists z2. split; [f_equal; exact E2|]. split; [exact (leads_trans true_of _ _ _ L1 (leads_trans true_of _ _ _ L7 L8))|].
  assert (forall i s o s', enters true_of y0 i s -> turns c body stmt i s o s' -> leaves z2 o s') as Turn.
  { intros i s o s' Hi T. inversion T as [? ? ? ? ? ? R|? ? ? ? ? ? ? ? R|? ? ? ? ? ? R|? ? ? ? ? o1 s1 s2 ? R Hor Rp X]; subst.
    - apply H8, (l_holds _ _ _ B), (loop_breaks y z y' s' (leads_good true_of _ _ Ly) C L6). by apply (H3 i s Breaks).
    - apply (leads_keeps true_of _ _ L8 (Goes label sym)); [done|]. apply (loop_jumps _ y z y' z' label sym s' (leads_good true_of _ _ Ly) C L6 B). by apply (H3 i s (Goes label sym)).
    - done.
    - apply H8, (He s1 s2); [|done|done]. apply (c_holds _ _ C). destruct Hor as [->| ->]; [left|right]; [by apply (H3 i s Falls)|by apply (H3 i s Continues)]. }
  intros i s o s' Hi P. inversion P as [| | | | | | | | | | | | | |? ? ? ? ? ? ? s0 s1 ? _ D Bg Sk X|? ? ? ? ? ? ? s0 s1 s2 ? ? _ D Bg X T|? ? ? ? ? ? label sym ? ? ? _ T|]; subst.
  - destruct (Hf s s1 s') as [O Hs']; [done|by exists s0|done|done|]. apply H8, (Ho O s1); [done|]. by apply (holds_grows true_of _ _ _ _ (leads_grows true_of _ _ L3)).
  - apply (Turn Start s2); [|done]. apply (Ht s s1); [done|by exists s0|done].
  - apply (Turn (At label sym) s); [|done]. apply (leads_keeps true_of _ _ L2 (Goes label sym)); [done|]. by apply (leads_keeps true_of _ _ L1 (Goes label sym)).
  - by destruct Ip as [?|?].
Qed.

(** ** All statements *)

Lemma walks_walkable n stmt : walkable true_of n stmt -> walks (__split_stmt n stmt) (runs stmt).
Proof.
  revert stmt. induction n as [|n IH]; intros stmt H; [by inversion H|]. inversion H as [?|? st Hs]; subst; [by apply walks_null|].
  apply walks_stmt; [done..|].
  inversion Hs as [? pos|?|? d|?|? e P|? e P|? addr l F|? c t f St Wt Wf NL|? label sym stmt W|? addr target Nl|? syms pre c body stmt post_c Ip Wpre Wc Wb Wp Ng Fo|? syms pre body stmt c St Wb]; subst.
  - eapply walks_impl; [| |exact (walks_nothing true_of)]; [done|]. intros i s o s' R. by inversion R.
  - eapply walks_impl; [| |exact (walks_nothing true_of)]; [done|]. intros i s o s' R. by inversion R.
  - eapply walks_impl; [| |exact (walks_plain true_of _ _ (declaration_sets true_of d))]; [done|]. intros i s o s' R. by inversion R.
  - eapply walks_impl; [| |exact (walks_nothing true_of)]; [done|]. intros i s o s' R. by inversion R.
  - eapply walks_impl; [| |exact (walks_plain true_of _ _ (split_expr_plain true_of e P))]; [done|]. intros i s o s' R. by inversion R.
  - by apply walks_return.
  - apply walks_compound; [done..|]. eapply Forall_impl; [|exact F]. intros s. apply IH.
  - apply walks_if; auto.
  - apply walks_label_stmt; auto.
  - by apply walks_split_goto.
  - assert (walks (handle_pre_loop (__split_stmt n) n (STMT_ITERATOR syms pre c body stmt post_c) syms pre c body stmt post_c) (performs (STMT_ITERATOR syms pre c body stmt post_c))) as W.
    { apply walks_pre_loop; auto. intros m. inversion Wp; done. }
    destruct c, post_c; try exact W. by destruct Ip.
  - by apply walks_do; auto.
Qed.

End sound.
