(* ===== verification/FlowTheorems.v ===== *)
(** * The theorems about the walk over a function *)
From stdpp Require Import gmap.
From S2P Require Import Prelude Types Tokens Sval SvalFacts Syntax RangeList RangeFacts RangeBinopFacts Concrete Avl AvlFacts Stree StreeWorld Tables SmState Merge MergeFacts States MergeTheorems Conditions ConditionFacts ConditionSound ConditionTheorems Flow FlowSound FlowLoops.
#[local] Open Scope Z_scope.

Section sound.
Context `{Tgt : Target} `{Fp : FloatOps} `{Chk : Checks} `{Cor : Core} `{Wlk : Walk}.
Context {store : Type} `{Mean : Meaning store} `{SMean : StmtMeaning store}.
Context (true_of : sms -> table -> store -> Prop).
Context `{MOk : !MergeOk true_of} `{COk : !CoreOk true_of} `{WOk : !WalkOk true_of}.


End sound.

(** ** A function *)
Module Goto.
Import Sample.

#[export] Instance walk : Walk := {|
  __pass_stmt_to_client := fun _ _ m => m;
  __pass_case_to_client := fun _ _ m => m;
  __call_all_scope_hooks := fun m => m;
  split_declaration := fun _ m => m;
  fake_a_variable_assign := fun e => e;
  get_value := fun _ => None;
  get_type := fun _ => None;
  get_absolute_rl := fun _ _ => [];
  parsed_pos := fun _ => Position 1 1;
  option_assume_loops := false;
  option_project_kernel := false;
  once_through_hooks := [];
  is_skipped_function := false;
  taking_too_long := fun _ => false;
  fn_stmt := None;
  fn_inline_stmt := None;
  cur_func_returns_void := true;
  unknown_value_expression := EXPR_OTHER 0;
  __extra_handle_canonical_loops := fun _ m => (None, [], m);
  __iterator_unchanged := fun _ _ => false;
  __extra_pre_loop_hook_after := fun _ _ _ m => m;
  expr_to_chunk_sym_vsl := fun _ => None;
  separate_and_filter := fun _ _ _ m => ([], m);
  set_extra_nomod_vsl := fun _ _ _ m => m
|}.

#[export] Instance stmt_meaning : StmtMeaning (Z -> Z) := {|
  declares := fun _ s s' => s' = s;
  skips := fun _ _ => True
|}.

Lemma nothing_done (r : (Z -> Z) -> (Z -> Z) -> Prop) : (forall s s', r s s' -> s' = s) -> plain_step true_of (fun m => m) r.
Proof.
  intros R c pre ct cf h m W. exists c, h. split; [done|]. split; [apply grows_refl|]. split; [done|]. by intros s s' H ->%R.
Qed.

#[export] Instance walk_ok : WalkOk true_of.
Proof.
  split; try (intros; by apply nothing_done); try done; try (intros m stmt s H; discriminate H).
  - intros syms pre c body stmt post_c cur fake pre' ct cf h m W _. exists None, [], h. split; [done|]. split; [apply grows_refl|]. split; [apply wf_table_nil|].
    intros s s' _ _. constructor.
  - intros m c post_c s b s'. unfold is_forever_loop. destruct c as [e|]; [done|]. destruct post_c as [e|]; [done|]. by intros _ [-> _].
  - intros. apply describes_grows. cbn. lia.
Qed.

Definition x : expression := EXPR_OTHER 1.
Definition y : expression := EXPR_OTHER 2.
Definition out : list Z := [111; 117; 116].

(** { if (x) goto out; while (y) { if (x) break; } out: ; } *)
Definition body : statement :=
  STMT_COMPOUND 1 [
    STMT_IF x (Some (STMT_GOTO 2 None (Some (SYM_LABEL out 5)))) None;
    STMT_ITERATOR 0 None (Some y)
      (Some (STMT_COMPOUND 3 [STMT_IF x (Some (STMT_GOTO 4 None (Some (SYM_NODE name_break)))) None])) None None;
    STMT_LABEL out 5 (Some (STMT_EXPRESSION None))].





End Goto.

Section witness.
Import Sample Goto.


End witness.

(** ** Where the walk does not see an execution *)

(** States are sets of bits, as in [Bits].  A switch is about a variable that is 0, 1, 2 or 3;
    its state has a bit for every value. *)
Module Missed.
#[local] Existing Instance Bits.checks.

(** The core of [OneSided], which also knows that 0 is false. *)
#[export] Instance core : Core := {|
  __split_expr := OneSided.split_expr;
  Conditions.__split_stmt := fun _ m => m;
  Conditions.__split_label_stmt := fun _ m => m;
  __process_post_op_stack := fun m => m;
  __pass_to_client := OneSided.condition_hook;
  __push_scope_hooks := fun m => m;
  __call_scope_hooks := fun m => m;
  strip_expr_set_parent := fun _ e => Some e;
  strip_expr := fun _ e => e;
  expr_is_zero := fun _ _ => false;
  type_unsigned := fun _ => false;
  implied_condition_true := fun _ _ => false;
  implied_condition_false := fun _ _ => false;
  known_condition_true := fun _ _ => false;
  known_condition_false := fun _ e => match e with Some (EXPR_VALUE 0) => true | _ => false end
|}.

Definition v : list Z := [118].

Definition bits (rl : range_list) : Z :=
  foldr Z.lor 0 (map (fun z => if existsb (fun d => (value (rmin d) <=? z) && (z <=? value (rmax d))) rl then 2 ^ z else 0) [0; 1; 2; 3]).

#[export] Instance walk : Walk := {|
  __pass_stmt_to_client := fun _ _ m => m;
  __pass_case_to_client := fun _ _ m => m;
  __call_all_scope_hooks := fun m => m;
  split_declaration := fun _ m => m;
  fake_a_variable_assign := fun e => e;
  get_value := fun e => match e with EXPR_VALUE z => Some (sval_of int_ctype z) | _ => None end;
  get_type := fun _ => int_ctype;
  get_absolute_rl := fun _ _ => mk_rl int_ctype [(0, 3)];
  parsed_pos := fun _ => Position 1 1;
  option_assume_loops := false;
  option_project_kernel := false;
  once_through_hooks := [];
  is_skipped_function := false;
  taking_too_long := fun _ => false;
  fn_stmt := None;
  fn_inline_stmt := None;
  cur_func_returns_void := true;
  unknown_value_expression := EXPR_OTHER 0;
  __extra_handle_canonical_loops := fun _ m => (None, [], m);
  __iterator_unchanged := fun _ _ => false;
  __extra_pre_loop_hook_after := fun _ _ _ m => m;
  expr_to_chunk_sym_vsl := fun e => match e with EXPR_SYMBOL name => Some (name, 8) | _ => None end;
  separate_and_filter := fun _ _ _ m => ([], m);
  set_extra_nomod_vsl := fun name sym rl m => (set_state 1 name sym (bits rl) m).2
|}.

Definition jump (name : list Z) : statement := STMT_GOTO 1 None (Some (SYM_NODE name)).
Definition case (z : Z) (s : statement) : statement := STMT_CASE (Some (EXPR_VALUE z)) None s.
Definition default_ (s : statement) : statement := STMT_CASE None None s.
Definition empty : statement := STMT_EXPRESSION None.
Definition switch (l : list statement) : statement := STMT_SWITCH (EXPR_SYMBOL v) (STMT_COMPOUND 2 l).

(** The machine after a statement, from a path on which nothing is known. *)
Definition after (s : statement) : option machine := __split_stmt 9 (Some s) OneSided.start.

(** The values a switch leaves, and the state that OneSided.call sets. *)
Definition values (s : statement) : option (option Z) := m ← after s; Some (sm_st <$> tget (tracker 1 v 8) (cur_stree m)).
Definition called (s : statement) : option (option Z) := m ← after s; Some (sm_st <$> tget (tracker 1 OneSided.x 9) (cur_stree m)).

(** { goto in; if (cond) { in: ; } } *)
Definition into_branch (cond : expression) : statement :=
  STMT_COMPOUND 3 [STMT_GOTO 4 None (Some (SYM_LABEL [105; 110] 5)); STMT_IF cond (Some (STMT_LABEL [105; 110] 5 (Some empty))) None].

(** for (;; f()) { if (d) break; } *)
Definition endless : statement :=
  STMT_ITERATOR 0 None None (Some (STMT_IF (EXPR_OTHER 4) (Some (jump name_break)) None)) (Some (STMT_EXPRESSION (Some OneSided.call))) None.

End Missed.

(** executions that the walk does not see.  In a switch over a value from 0 to 3 whose only
    label is "case 1: default:" or "default: case 1:" the value is taken to be 1, while in
    "case 1: break; default:" it can be any.  A jump into a branch that is known not to be
    taken is lost: after goto in; if (0) { in: ; } nothing is reachable.  A state that is set
    at the end of the turns of for (;; f()) is taken over after the loop although the
    first turn was left by a break.  And after any label definitely_inside_loop() says that
    the code is in a loop, since the two constants for labels differ. *)
Theorem walk_misses :
  Missed.values (Missed.switch [Missed.case 1 Missed.empty; Missed.jump name_break; Missed.default_ Missed.empty]) = Some (Some 15) /\
  Missed.values (Missed.switch [Missed.case 1 (Missed.default_ Missed.empty)]) = Some (Some 2) /\
  Missed.values (Missed.switch [Missed.default_ (Missed.case 1 Missed.empty)]) = Some (Some 2) /\
  is_unreachable <$> Missed.after (Missed.into_branch (EXPR_OTHER 4)) = Some false /\
  is_unreachable <$> Missed.after (Missed.into_branch (EXPR_VALUE 0)) = Some true /\
  Missed.called Missed.endless = Some (Some 4) /\
  definitely_inside_loop <$> Missed.after (STMT_LABEL [105] 5 None) = Some true.
Proof. by vm_compute. Qed.
