(* ===== verification/Bits.v ===== *)
(** * Helpers for the bits of integers, bits.h

    The functions of bits.h on [long long]s, and what they are in terms of powers of two and
    reductions modulo 2^n, for sizes of 1 to 64 bits. *)
From stdpp Require Import base option.
From S2P Require Import Prelude.
#[local] Open Scope Z_scope.

(** ~z of an unsigned long long. *)
Definition lnot64 (z : Z) : Z := Z.lxor z ULLONG_MAX.

Definition sign_bit (size : Z) : Z := u64 (Z.shiftl 1 (size - 1)).
Definition sign_mask (size : Z) : Z := u64 (sign_bit size - 1).
Definition bits_mask (size : Z) : Z := Z.lor (sign_bit size) (u64 (sign_bit size - 1)).

(** A long long in its bits, and back. *)
Definition zero_extend (val size : Z) : Z := s64 (Z.land (u64 val) (bits_mask size)).
Definition sign_extend (val size : Z) : Z :=
  if negb (Z.land (u64 val) (sign_bit size) =? 0) then s64 (Z.lor (u64 val) (lnot64 (sign_mask size))) else val.
Definition sign_extend_safe (val size : Z) : Z :=
  if Z.land (u64 val) (lnot64 (bits_mask size)) =? 0 then sign_extend val size else val.
Definition bits_extend (val size : Z) (is_signed : bool) : Z :=
  let val := zero_extend val size in if is_signed then sign_extend val size else val.
Definition is_power_of_2 (val : Z) : bool := negb (val =? 0) && (Z.land (u64 val) (u64 (val - 1)) =? 0).
Definition log2_exact (val : Z) : Z := Z.log2 (u64 val).

(** ** Masks *)

Section masks.
Context (n : Z) (Hn : 1 <= n <= 64).

Lemma pow_half : 2 ^ n = 2 * 2 ^ (n - 1).
Proof. rewrite <- Z.pow_succ_r by lia. f_equal. lia. Qed.

Lemma pow_pos_half : 0 < 2 ^ (n - 1).
Proof. apply Z.pow_pos_nonneg; lia. Qed.

Lemma two64_split : two64 = 2 ^ (64 - n) * 2 ^ n.
Proof. rewrite <- Z.pow_add_r by lia. by replace (64 - n + n) with 64 by lia. Qed.

Lemma pow_le_64 : 2 ^ n <= two64.
Proof. change two64 with (2 ^ 64). apply Z.pow_le_mono_r; lia. Qed.

Lemma sign_bit_pow : sign_bit n = 2 ^ (n - 1).
Proof.
  unfold sign_bit. rewrite Z.shiftl_1_l. apply u64_small. pose proof pow_half. pose proof pow_le_64.
  pose proof pow_pos_half. unfold is_u64. lia.
Qed.

Lemma mask_pred : u64 (sign_bit n - 1) = Z.ones (n - 1).
Proof.
  rewrite sign_bit_pow, u64_small; [by rewrite Z.ones_equiv, Z.sub_1_r|].
  pose proof pow_half. pose proof pow_le_64. pose proof pow_pos_half. unfold is_u64. lia.
Qed.

Lemma mask_all : Z.lor (sign_bit n) (u64 (sign_bit n - 1)) = Z.ones n.
Proof.
  rewrite mask_pred, sign_bit_pow. apply Z.bits_inj'. intros i Hi.
  rewrite Z.lor_spec, Z.pow2_bits_eqb by lia. rewrite !Z.testbit_ones_nonneg by lia.
  destruct (Z.eqb_spec (n - 1) i), (Z.ltb_spec i (n - 1)), (Z.ltb_spec i n); reflexivity || lia.
Qed.

Lemma land_mask v : Z.land v (Z.lor (sign_bit n) (u64 (sign_bit n - 1))) = ucast n v.
Proof. rewrite mask_all. apply Z.land_ones. lia. Qed.

Lemma ucast_u64 v : ucast n (u64 v) = ucast n v.
Proof.
  unfold ucast, u64. rewrite two64_split. apply Z.mod_mod_divide. by exists (2 ^ (64 - n)).
Qed.

Lemma ucast_s64 v : ucast n (s64 v) = ucast n v.
Proof. by rewrite <- ucast_u64, u64_s64, ucast_u64. Qed.

Lemma ucast_scast v : ucast n (scast n v) = ucast n v.
Proof.
  unfold ucast, scast. rewrite Zminus_mod_idemp_l. f_equal. lia.
Qed.

Lemma testbit_sign v : 0 <= v < 2 ^ n -> Z.testbit v (n - 1) = negb (v <? 2 ^ (n - 1)).
Proof.
  intros Hv. pose proof pow_half. rewrite Z.testbit_odd, Z.shiftr_div_pow2 by lia.
  destruct (Z.ltb_spec v (2 ^ (n - 1))) as [Hlt|Hge].
  - by rewrite Z.div_small by lia.
  - replace (v / 2 ^ (n - 1)) with 1; [done|]. apply Z.div_unique with (r := v - 2 ^ (n - 1)); lia.
Qed.

Lemma land_sign_bit v : 0 <= v < 2 ^ n -> (Z.land v (sign_bit n) =? 0) = (v <? 2 ^ (n - 1)).
Proof.
  intros Hv. rewrite sign_bit_pow. pose proof (testbit_sign v Hv) as Hb.
  destruct (Z.eqb_spec (Z.land v (2 ^ (n - 1))) 0) as [H0|H0].
  - assert (Z.testbit (Z.land v (2 ^ (n - 1))) (n - 1) = false) as Ht by (by rewrite H0, Z.bits_0).
    rewrite Z.land_spec, Z.pow2_bits_true, andb_true_r in Ht by lia. rewrite Ht in Hb. by destruct (v <? _).
  - destruct (v <? 2 ^ (n - 1)); [|done]. destruct H0. apply Z.bits_inj'. intros i Hi.
    rewrite Z.land_spec, Z.pow2_bits_eqb, Z.bits_0 by lia.
    destruct (Z.eqb_spec (n - 1) i) as [<-|]; [by rewrite Hb|apply andb_false_r].
Qed.

Lemma testbit_above v i : 0 <= v < 2 ^ n -> n <= i -> Z.testbit v i = false.
Proof. intros Hv Hi. rewrite <- (Z.mod_small v (2 ^ n)) by done. apply Z.mod_pow2_bits_high. lia. Qed.

Ltac bit_cases :=
  repeat match goal with
  | |- context [?a <=? ?b] => destruct (Z.leb_spec a b)
  | |- context [?a <? ?b] => destruct (Z.ltb_spec a b)
  end; simpl; reflexivity || lia.

(** The bits from n up, set. *)
Lemma lnot_ones : lnot64 (Z.ones n) = Z.shiftl (Z.ones (64 - n)) n.
Proof.
  apply Z.bits_inj'. intros i Hi. unfold lnot64. change ULLONG_MAX with (Z.ones 64).
  rewrite Z.lxor_spec, Z.shiftl_spec, !Z.testbit_ones by lia. bit_cases.
Qed.

Lemma lor_high v : 0 <= v < 2 ^ n -> Z.lor v (lnot64 (Z.ones n)) = v - 2 ^ n + two64.
Proof.
  intros Hv. rewrite lnot_ones. pose proof (Z.add_lor_land v (Z.shiftl (Z.ones (64 - n)) n)) as Hadd.
  rewrite (Z.bits_inj' (Z.land v _) 0) in Hadd.
  - rewrite Z.shiftl_mul_pow2, Z.ones_equiv in * by lia. pose proof two64_split. lia.
  - intros i Hi. rewrite Z.land_spec, Z.shiftl_spec, Z.bits_0 by lia.
    destruct (Z.ltb_spec i n) as [|]; [rewrite (Z.testbit_neg_r _ (i - n)) by lia; apply andb_false_r|].
    by rewrite testbit_above.
Qed.

(** The bits above the sign, set. *)
Lemma lor_above v : 2 ^ (n - 1) <= v < 2 ^ n -> Z.lor v (lnot64 (u64 (sign_bit n - 1))) = v - 2 ^ n + two64.
Proof.
  intros Hv. pose proof pow_pos_half. rewrite mask_pred, <- lor_high by lia.
  apply Z.bits_inj'. intros i Hi. unfold lnot64. change ULLONG_MAX with (Z.ones 64).
  rewrite !Z.lor_spec, !Z.lxor_spec, !Z.testbit_ones by lia. destruct (Z.eqb_spec i (n - 1)) as [->|].
  - rewrite testbit_sign by lia. by destruct (Z.ltb_spec v (2 ^ (n - 1))); [lia|].
  - f_equal. bit_cases.
Qed.

Lemma lor_above_sign v : 2 ^ (n - 1) <= v < 2 ^ n ->
  Z.lor (Z.lor v (sign_bit n)) (lnot64 (u64 (sign_bit n - 1))) = v - 2 ^ n + two64.
Proof.
  intros Hv. pose proof pow_pos_half. rewrite <- lor_above, sign_bit_pow by done. f_equal.
  apply Z.bits_inj'. intros i Hi. rewrite Z.lor_spec, Z.pow2_bits_eqb by lia.
  destruct (Z.eqb_spec (n - 1) i) as [<-|]; [|apply orb_false_r].
  rewrite testbit_sign by lia. by destruct (Z.ltb_spec v (2 ^ (n - 1))); [lia|].
Qed.

Lemma scast_cases v : 0 <= v < 2 ^ n -> scast n v = if v <? 2 ^ (n - 1) then v else v - 2 ^ n.
Proof.
  intros Hv. pose proof pow_half. destruct (Z.ltb_spec v (2 ^ (n - 1))).
  - apply scast_small; lia.
  - unfold scast. replace (v + 2 ^ (n - 1)) with (v - 2 ^ (n - 1) + 1 * 2 ^ n) by lia.
    rewrite Z.mod_add by lia. rewrite Z.mod_small by lia. lia.
Qed.

Lemma scast_is_s64 v : is_s64 (scast n v).
Proof.
  pose proof (scast_range n v ltac:(lia)). pose proof pow_half. pose proof pow_le_64.
  unfold is_s64, two63, two64 in *. lia.
Qed.

Lemma s64_back z : s64 (z + two64) = s64 z.
Proof. wrap_lia. Qed.

End masks.

Lemma lnot64_opp v : is_u64 v -> lnot64 v = u64 (- v - 1).
Proof.
  intros Hv. apply Z.bits_inj'. intros i Hi. unfold lnot64. change ULLONG_MAX with (Z.ones 64).
  replace (- v - 1) with (Z.lnot v) by (unfold Z.lnot; lia).
  unfold u64. change two64 with (2 ^ 64). rewrite Z.lxor_spec, Z.testbit_ones_nonneg by lia.
  destruct (Z.ltb_spec i 64).
  - rewrite Z.mod_pow2_bits_low, Z.lnot_spec by lia. apply xorb_true_r.
  - rewrite Z.mod_pow2_bits_high, xorb_false_r by lia. apply (testbit_above 64); [lia| |lia]. apply Hv.
Qed.

