(* ===== verification/Expand.v ===== *)
(** * Constant expressions, expand.c

    The front end replaces an expression whose operands are constants by its value, and
    turns a conditional whose branches are cheap into a select, which evaluates both.
    This file has the integer part of expand.c over trees.  A tree is changed in place in
    C; here the new one is returned, with the cost.

    Floating point constants and initializers are left out.  What is not taken apart
    (symbols, calls, assignments, dereferences) is a leaf with a cost of its own; warnings,
    positions and the flags for constant expressions are left out.  A product of signed
    values that overflows 64 bits, which C leaves open, wraps around. *)
From stdpp Require Import base option.
From S2P Require Import Prelude Tokens Bits.
#[local] Open Scope Z_scope.
#[local] Set Warnings "-register-all".

(** ** Trees *)

(** What is read of the type of an expression. *)
Record ctype : Set := Ctype { bit_size : Z; is_unsigned : bool; is_bool : bool }.

Inductive expr : Type :=
  | VALUE (value taint : Z) (ct : ctype)
  | BINOP (op : op_tok) (left right : expr) (ct : ctype)
  | SAFELOGICAL (is_and : bool) (left right : expr) (ct : ctype)      (* EXPR_BINOP with && or || *)
  | LOGICAL (is_and : bool) (left right : expr) (ct : ctype)
  | COMPARE (op : op_tok) (left right : expr) (ct : ctype)
  | COMMA (left right : expr) (ct : ctype)
  | PREOP (op : op_tok) (unop : expr) (ct : ctype)
  | CAST (target : expr) (ct : ctype)
  | CONDITIONAL (is_select : bool) (cond : expr) (valt : option expr) (valf : expr) (ct : ctype)   (* or EXPR_SELECT *)
  | LEAF (id : Z) (ct : ctype).

Definition type_of (e : expr) : ctype :=
  match e with
  | VALUE _ _ ct | BINOP _ _ _ ct | SAFELOGICAL _ _ _ ct | LOGICAL _ _ _ ct | COMPARE _ _ _ ct | COMMA _ _ ct
  | PREOP _ _ ct | CAST _ ct | CONDITIONAL _ _ _ _ ct | LEAF _ ct => ct
  end.

Definition Taint_comma : Z := 1.
Definition SELECT_COST : Z := 20.
Definition BRANCH_COST : Z := 10.

(** ** Values *)

(** The value as a long long. *)
Definition get_longlong (value : Z) (ct : ctype) : Z :=
  let mask := sign_bit (bit_size ct) in
  let no_expand := is_unsigned ct || (Z.land value mask =? 0) in
  let andmask := Z.lor mask (u64 (mask - 1)) in
  let ormask := if no_expand then 0 else lnot64 andmask in
  s64 (Z.lor (Z.land value andmask) ormask).

(** cast_value() for integers. *)
Definition cast_value (newtype : ctype) (value : Z) (oldtype : ctype) : Z :=
  if bit_size oldtype =? bit_size newtype then value
  else
    let value := get_longlong value oldtype in
    if is_bool newtype then if value =? 0 then 0 else 1
    else
      let signmask := sign_bit (bit_size newtype) in
      let mask := Z.lor signmask (u64 (signmask - 1)) in
      Z.land (u64 value) mask.

Definition check_shift_count (ct : ctype) (right : Z) (rct : ctype) : bool :=
  let count := get_longlong right rct in (0 <=? count) && (count <? bit_size ct).

(** An operand with its sign, for the size of the mask. *)
Definition with_sign (is_signed : bool) (mask v : Z) : Z :=
  if is_signed && negb (Z.land v mask =? 0) then s64 (Z.lor v (lnot64 (u64 (mask - 1)))) else s64 v.

(** simplify_int_binop() of two constants; [rct] is the type of the right one. *)
Definition simplify_int_binop (op : op_tok) (ct : ctype) (l r : Z) (rct : ctype) : option Z :=
  let is_shift := op_eqb op SPECIAL_LEFTSHIFT || op_eqb op SPECIAL_RIGHTSHIFT in
  if is_shift && negb (check_shift_count ct r rct) then None
  else
    let is_signed := negb (is_unsigned ct) in
    let mask := sign_bit (bit_size ct) in
    let sl := with_sign is_signed mask l in
    let sr := with_sign is_signed mask r in
    v ← match op with
        | OP_ADD => Some (u64 (l + r))
        | OP_SUB => Some (u64 (l - r))
        | OP_AND => Some (Z.land l r)
        | OP_OR => Some (Z.lor l r)
        | OP_XOR => Some (Z.lxor l r)
        | OP_MUL => Some (if is_signed then u64 (sl * sr) else u64 (l * r))
        | OP_DIV =>
          if r =? 0 then None
          else if is_signed then if (l =? mask) && (sr =? -1) then None else Some (u64 (Z.quot sl sr))
          else Some (l / r)
        | OP_MOD =>
          if r =? 0 then None
          else if is_signed then if (l =? mask) && (sr =? -1) then None else Some (u64 (Z.rem sl sr))
          else Some (l mod r)
        | SPECIAL_LEFTSHIFT => Some (u64 (Z.shiftl l r))
        | SPECIAL_RIGHTSHIFT => Some (if is_signed then u64 (Z.shiftr sl r) else Z.shiftr l r)
        | _ => None
        end;
    Some (Z.land v (Z.lor mask (u64 (mask - 1)))).

(** simplify_cmp_binop(); for another operator the value is not set. *)
Definition simplify_cmp_binop (op : op_tok) (ct : ctype) (l r : Z) : option Z :=
  let mask := sign_bit (bit_size ct) in
  let sl := with_sign true mask l in
  let sr := with_sign true mask r in
  b ← match op with
      | OP_LT => Some (sl <? sr)
      | OP_GT => Some (sr <? sl)
      | SPECIAL_LTE => Some (sl <=? sr)
      | SPECIAL_GTE => Some (sr <=? sl)
      | SPECIAL_EQUAL => Some (l =? r)
      | SPECIAL_NOTEQUAL => Some (negb (l =? r))
      | SPECIAL_UNSIGNED_LT => Some (l <? r)
      | SPECIAL_UNSIGNED_GT => Some (r <? l)
      | SPECIAL_UNSIGNED_LTE => Some (l <=? r)
      | SPECIAL_UNSIGNED_GTE => Some (r <=? l)
      | _ => None
      end;
  Some (Z.b2z b).

Definition simplify_preop (op : op_tok) (ct : ctype) (v : Z) : option Z :=
  let mask := sign_bit (bit_size ct) in
  v ← match op with
      | OP_ADD => Some v
      | OP_SUB => if (v =? mask) && negb (is_unsigned ct) then None else Some (u64 (- v))
      | OP_NOT => Some (Z.b2z (v =? 0))
      | OP_TILDE => Some (lnot64 v)
      | _ => None
      end;
  Some (Z.land v (Z.lor mask (u64 (mask - 1)))).

(** ** Expansion *)

(** The cost of what is not taken apart. *)
Class Costs : Type := { leaf_cost : Z -> Z }.

Section expand.
Context `{Cst : Costs}.

Definition expand_binop (op : op_tok) (l r : Z * expr) (ct : ctype) : Z * expr :=
  let keep := (l.1 + r.1 + 1, BINOP op l.2 r.2 ct) in
  match l.2, r.2 with
  | VALUE a ta _, VALUE b tb rct =>
    match simplify_int_binop op ct a b rct with Some v => (0, VALUE v (Z.lor ta tb) ct) | None => keep end
  | _, _ => keep
  end.

Definition expand_logical (is_and : bool) (l : Z * expr) (r : Z * expr) (ct : ctype) : Z * expr :=
  let keep :=
    if r.1 <? BRANCH_COST then (l.1 + BRANCH_COST + (r.1 - (BRANCH_COST - 1)), SAFELOGICAL is_and l.2 r.2 ct)
    else (l.1 + BRANCH_COST + r.1, LOGICAL is_and l.2 r.2 ct) in
  match l.2 with
  | VALUE a ta _ =>
    if is_and && (a =? 0) then (0, VALUE 0 ta ct)
    else if negb is_and && negb (a =? 0) then (0, VALUE 1 ta ct)
    else match r.2 with
    | VALUE b tb _ => (0, VALUE (Z.b2z (negb (b =? 0))) (Z.lor ta tb) ct)
    | _ => keep
    end
  | _ => keep
  end.

(** A constant becomes tainted. *)
Definition add_taint (taint : Z) (e : expr) : expr := match e with VALUE v t ct => VALUE v (Z.lor t taint) ct | e => e end.

Definition expand_comma (l r : Z * expr) (ct : ctype) : Z * expr :=
  match l.2 with
  | VALUE _ ta _ => (l.1 + r.1, add_taint (Z.lor Taint_comma ta) r.2)
  | _ => (l.1 + r.1, COMMA l.2 r.2 ct)
  end.

Definition expand_compare (op : op_tok) (l r : Z * expr) (ct : ctype) : Z * expr :=
  let keep := (l.1 + r.1 + 1, COMPARE op l.2 r.2 ct) in
  match l.2, r.2 with
  | VALUE a ta lct, VALUE b tb _ =>
    match simplify_cmp_binop op lct a b with Some v => (0, VALUE v (Z.lor ta tb) ct) | None => keep end
  | _, _ => keep
  end.

(** expand_preop() for +, -, ! and ~. *)
Definition expand_preop (op : op_tok) (e : Z * expr) (ct : ctype) : Z * expr :=
  let keep := (e.1 + 1, PREOP op e.2 ct) in
  match e.2 with
  | VALUE v taint _ => match simplify_preop op ct v with Some v => (0, VALUE v taint ct) | None => keep end
  | _ => keep
  end.

Definition expand_cast (e : Z * expr) (ct : ctype) : Z * expr :=
  match e.2 with
  | VALUE v taint oct => (0, VALUE (cast_value ct v oct) taint ct)
  | _ => (e.1 + 1, CAST e.2 ct)
  end.

(** The branch is the condition itself in a ?: b. *)
Definition expand_conditional (is_select : bool) (c : Z * expr) (t : option (Z * expr)) (f : Z * expr) (ct : ctype) : Z * expr :=
  match c.2 with
  | VALUE a ta _ =>
    let '(cost, e) := if a =? 0 then f else match t with Some t => t | None => (0, c.2) end in
    (cost, add_taint ta e)
  | _ =>
    let cost := match t with Some t => t.1 | None => 0 end + f.1 in
    let '(is_select, cost) := if cost <? SELECT_COST then (true, cost - (BRANCH_COST - 1)) else (is_select, cost) in
    (cost + c.1 + BRANCH_COST, CONDITIONAL is_select c.2 (snd <$> t) f.2 ct)
  end.

Fixpoint expand_expression (e : expr) : Z * expr :=
  match e with
  | VALUE _ _ _ => (0, e)
  | BINOP op l r ct => expand_binop op (expand_expression l) (expand_expression r) ct
  | SAFELOGICAL is_and l r ct =>
    let '(cl, l) := expand_expression l in
    let '(cr, r) := expand_expression r in (cl + cr + 1, SAFELOGICAL is_and l r ct)
  | LOGICAL is_and l r ct => expand_logical is_and (expand_expression l) (expand_expression r) ct
  | COMPARE op l r ct => expand_compare op (expand_expression l) (expand_expression r) ct
  | COMMA l r ct => expand_comma (expand_expression l) (expand_expression r) ct
  | PREOP op e ct => expand_preop op (expand_expression e) ct
  | CAST e ct => expand_cast (expand_expression e) ct
  | CONDITIONAL is_select c t f ct =>
    expand_conditional is_select (expand_expression c)
      (match t with Some t => Some (expand_expression t) | None => None end) (expand_expression f) ct
  | LEAF id ct => (leaf_cost id, e)
  end.

(** __get_expression_value(), by the type the expression had; 0 with an error if it is not a constant. *)
Definition get_expression_value (e : expr) : option Z :=
  let ct := type_of e in
  match (expand_expression e).2 with
  | VALUE value _ _ =>
    let mask := sign_bit (bit_size ct) in
    Some (if negb (Z.land value mask =? 0) && negb (is_unsigned ct)
          then s64 (Z.lor (Z.lor value mask) (lnot64 (u64 (mask - 1)))) else s64 value)
  | _ => None
  end.

(** The right side of a comma decides. *)
Fixpoint truth_of (e : expr) : Z :=
  match e with
  | COMMA _ r _ => truth_of r
  | VALUE v _ _ => Z.b2z (negb (v =? 0))
  | _ => -1
  end.

Definition expr_truth_value (e : expr) : Z := truth_of (expand_expression e).2.

Definition is_zero_constant (e : expr) : bool :=
  match (expand_expression e).2 with VALUE v _ _ => v =? 0 | _ => false end.

End expand.
