(* ===== verification/ExpandFacts.v ===== *)
(** * What constants mean, and that the operations of expand.c compute it

    A constant of a type of n bits is kept as a number from 0 to 2^n - 1.  [cval] is the
    number it stands for in C; [ref_binop], [ref_cmp], [ref_preop] and [ref_cast] define
    the operators on these numbers.  Sums, differences and products wrap around; a division by
    zero, a quotient or a negation that does not fit and a shift by a count that is negative or
    not below the width have no value. *)
From stdpp Require Import base option.
From S2P Require Import Prelude Tokens Bits Expand.
#[local] Open Scope Z_scope.
#[local] Set Warnings "-register-all".

(** ** Types and constants *)

Record wf_ct (ct : ctype) : Prop := {
  wf_size : 1 <= bit_size ct <= 64;
  wf_bool : is_bool ct = true -> bit_size ct = 1
}.

Definition fits (ct : ctype) (v : Z) : Prop := 0 <= v < 2 ^ bit_size ct.

Definition cval (ct : ctype) (v : Z) : Z := if is_unsigned ct then v else scast (bit_size ct) v.

(** ** Reference operators *)

Definition shift_fits (ct : ctype) (count : Z) : bool := (0 <=? count) && (count <? bit_size ct).

Definition quot_fits (ct : ctype) (a b : Z) : bool :=
  negb (b =? 0) && (is_unsigned ct || negb ((a =? - 2 ^ (bit_size ct - 1)) && (b =? -1))).

Definition ref_binop (op : op_tok) (ct : ctype) (l r : Z) (rct : ctype) : option Z :=
  let a := cval ct l in
  let b := cval ct r in
  let count := cval rct r in
  ucast (bit_size ct) <$>
  match op with
  | OP_ADD => Some (a + b)
  | OP_SUB => Some (a - b)
  | OP_MUL => Some (a * b)
  | OP_AND => Some (Z.land a b)
  | OP_OR => Some (Z.lor a b)
  | OP_XOR => Some (Z.lxor a b)
  | OP_DIV => if quot_fits ct a b then Some (Z.quot a b) else None
  | OP_MOD => if quot_fits ct a b then Some (Z.rem a b) else None
  | SPECIAL_LEFTSHIFT => if shift_fits ct count then Some (a * 2 ^ count) else None
  | SPECIAL_RIGHTSHIFT => if shift_fits ct count then Some (a / 2 ^ count) else None
  | _ => None
  end.

Definition ref_cmp (op : op_tok) (ct : ctype) (l r : Z) : option Z :=
  let a := cval ct l in
  let b := cval ct r in
  Z.b2z <$>
  match op with
  | OP_LT | SPECIAL_UNSIGNED_LT => Some (a <? b)
  | OP_GT | SPECIAL_UNSIGNED_GT => Some (b <? a)
  | SPECIAL_LTE | SPECIAL_UNSIGNED_LTE => Some (a <=? b)
  | SPECIAL_GTE | SPECIAL_UNSIGNED_GTE => Some (b <=? a)
  | SPECIAL_EQUAL => Some (a =? b)
  | SPECIAL_NOTEQUAL => Some (negb (a =? b))
  | _ => None
  end.

(** The operator of a comparison says how its operands are compared. *)
Definition cmp_fits (op : op_tok) (ct : ctype) : bool :=
  match op with
  | OP_LT | OP_GT | SPECIAL_LTE | SPECIAL_GTE => negb (is_unsigned ct)
  | SPECIAL_UNSIGNED_LT | SPECIAL_UNSIGNED_GT | SPECIAL_UNSIGNED_LTE | SPECIAL_UNSIGNED_GTE => is_unsigned ct
  | SPECIAL_EQUAL | SPECIAL_NOTEQUAL => true
  | _ => false
  end.

Definition ref_preop (op : op_tok) (ct : ctype) (v : Z) : option Z :=
  let a := cval ct v in
  match op with
  | OP_ADD => Some v
  | OP_SUB => if negb (is_unsigned ct) && (a =? - 2 ^ (bit_size ct - 1)) then None else Some (ucast (bit_size ct) (- a))
  | OP_NOT => Some (Z.b2z (v =? 0))
  | OP_TILDE => Some (ucast (bit_size ct) (Z.lnot a))
  | _ => None
  end.

Definition ref_cast (newtype : ctype) (v : Z) (oldtype : ctype) : Z :=
  if is_bool newtype then Z.b2z (negb (v =? 0)) else ucast (bit_size newtype) (cval oldtype v).


(** ** The operations *)

Lemma with_sign_scast n v : 1 <= n <= 64 -> 0 <= v < 2 ^ n -> with_sign true (sign_bit n) v = scast n v.
Proof.
  intros Hn Hv. unfold with_sign. rewrite land_sign_bit, <- (s64_small (scast n v)), scast_cases by (done || by apply scast_is_s64).
  simpl. destruct (Z.ltb_spec v (2 ^ (n - 1))); [done|]. cbn [negb]. by rewrite lor_above, s64_back by lia.
Qed.

Lemma cval_mod ct v : wf_ct ct -> ucast (bit_size ct) (cval ct v) = ucast (bit_size ct) v.
Proof. intros [Hn _]. unfold cval. destruct (is_unsigned ct); [done|]. by apply ucast_scast. Qed.

Lemma fits_mod ct v : fits ct v -> ucast (bit_size ct) v = v.
Proof. apply ucast_small. Qed.

Lemma fits_u64 ct v : wf_ct ct -> fits ct v -> is_u64 v.
Proof. intros [Hn _] Hv. pose proof (pow_le_64 _ Hn). unfold fits, is_u64 in *. lia. Qed.

Lemma get_longlong_cval ct v : wf_ct ct -> fits ct v -> get_longlong v ct = s64 (cval ct v).
Proof.
  intros Hwf Hv. pose proof (wf_size _ Hwf) as Hn. unfold get_longlong, cval.
  rewrite land_mask, land_sign_bit, (fits_mod ct v) by done.
  destruct (is_unsigned ct); simpl; [by rewrite Z.lor_0_r|]. rewrite scast_cases by done.
  destruct (Z.ltb_spec v (2 ^ (bit_size ct - 1))); [by rewrite Z.lor_0_r|].
  by rewrite mask_all, lor_high, s64_back by done.
Qed.

Lemma with_sign_cval ct v : wf_ct ct -> fits ct v ->
  with_sign (negb (is_unsigned ct)) (sign_bit (bit_size ct)) v = if is_unsigned ct then s64 v else cval ct v.
Proof.
  intros Hwf Hv. unfold cval. destruct (is_unsigned ct); [done|]. apply with_sign_scast; [apply Hwf|done].
Qed.

(** Zero and the least value, by their bits. *)
Lemma cval_zero ct v : wf_ct ct -> fits ct v -> (cval ct v =? 0) = (v =? 0).
Proof.
  intros [Hn _] Hv. unfold cval. destruct (is_unsigned ct); [done|]. rewrite scast_cases by done.
  pose proof (pow_half _ Hn). unfold fits in Hv. destruct (Z.ltb_spec v (2 ^ (bit_size ct - 1))); [done|].
  destruct (Z.eqb_spec (v - 2 ^ bit_size ct) 0), (Z.eqb_spec v 0); reflexivity || lia.
Qed.

Lemma cval_least ct v : wf_ct ct -> fits ct v -> is_unsigned ct = false ->
  (cval ct v =? - 2 ^ (bit_size ct - 1)) = (v =? sign_bit (bit_size ct)).
Proof.
  intros [Hn _] Hv Hu. unfold cval. rewrite Hu, scast_cases, sign_bit_pow by done.
  pose proof (pow_half _ Hn). unfold fits in Hv. destruct (Z.ltb_spec v (2 ^ (bit_size ct - 1))).
  all: match goal with |- (?a =? ?b) = (?c =? ?d) => destruct (Z.eqb_spec a b), (Z.eqb_spec c d) end; reflexivity || lia.
Qed.

(** A valid count is its own bits. *)
Lemma shift_count_ok ct r rct : wf_ct ct -> wf_ct rct -> fits rct r ->
  check_shift_count ct r rct = shift_fits ct (cval rct r) /\
  (shift_fits ct (cval rct r) = true -> cval rct r = r).
Proof.
  intros [Hn _] Hr Hv. unfold check_shift_count, shift_fits. rewrite get_longlong_cval by done.
  pose proof (fits_u64 _ _ Hr Hv) as H64. unfold cval. destruct (is_unsigned rct).
  - split; [|done]. destruct (Z.ltb_spec r two63).
    + by rewrite s64_small by (unfold is_s64, is_u64, two63 in *; lia).
    + assert (s64 r < 0) by (unfold is_u64 in *; wrap_lia).
      destruct (Z.leb_spec 0 (s64 r)), (Z.ltb_spec r (bit_size ct)), (0 <=? r); simpl; (reflexivity || unfold two63 in *; lia).
  - rewrite s64_small by (apply scast_is_s64, Hr). split; [done|]. intros [Hp _]%andb_true_iff.
    apply Z.leb_le in Hp. rewrite scast_cases in * by (apply Hr || done).
    unfold fits in Hv. destruct (Z.ltb_spec r (2 ^ (bit_size rct - 1))); lia.
Qed.

Lemma bitwise_mod ct (f : Z -> Z -> Z) l r : wf_ct ct ->
  (forall a b, Z.land (f a b) (Z.ones (bit_size ct)) =
    Z.land (f (Z.land a (Z.ones (bit_size ct))) (Z.land b (Z.ones (bit_size ct)))) (Z.ones (bit_size ct))) ->
  ucast (bit_size ct) (f l r) = ucast (bit_size ct) (f (cval ct l) (cval ct r)).
Proof.
  intros Hwf Hf. pose proof (wf_size _ Hwf). unfold ucast. rewrite <- !Z.land_ones by lia.
  rewrite Hf, (Hf (cval ct l)), !Z.land_ones by lia. f_equal.
  pose proof (cval_mod ct l Hwf) as Hl. pose proof (cval_mod ct r Hwf) as Hr. unfold ucast in Hl, Hr. by rewrite Hl, Hr.
Qed.

Lemma arith_mod ct l r : wf_ct ct ->
  ucast (bit_size ct) (l + r) = ucast (bit_size ct) (cval ct l + cval ct r) /\
  ucast (bit_size ct) (l - r) = ucast (bit_size ct) (cval ct l - cval ct r) /\
  ucast (bit_size ct) (l * r) = ucast (bit_size ct) (cval ct l * cval ct r).
Proof.
  intros Hwf. pose proof (cval_mod ct l Hwf) as Hl. pose proof (cval_mod ct r Hwf) as Hr. unfold ucast in *.
  rewrite (Zplus_mod l), (Zplus_mod (cval ct l)), (Zminus_mod l), (Zminus_mod (cval ct l)),
    (Zmult_mod l), (Zmult_mod (cval ct l)), Hl, Hr. done.
Qed.

(** An operation on each bit, cut to n bits. *)
Lemma land_bits (f : Z -> Z -> Z) (g : bool -> bool -> bool) n :
  (forall a b i, 0 <= i -> Z.testbit (f a b) i = g (Z.testbit a i) (Z.testbit b i)) ->
  forall a b, Z.land (f a b) (Z.ones n) = Z.land (f (Z.land a (Z.ones n)) (Z.land b (Z.ones n))) (Z.ones n).
Proof.
  intros Hf a b. apply Z.bits_inj'. intros i Hi. rewrite !Z.land_spec, !Hf, !Z.land_spec by done.
  by destruct (Z.testbit (Z.ones n) i); rewrite ?andb_true_r, ?andb_false_r.
Qed.

(** What the right operand must be: of the type of the operation, or a count. *)
Definition is_shift (op : op_tok) : bool := op_eqb op SPECIAL_LEFTSHIFT || op_eqb op SPECIAL_RIGHTSHIFT.

Lemma simplify_shift op ct l r rct : is_shift op = true -> wf_ct ct -> wf_ct rct -> fits ct l -> fits rct r ->
  simplify_int_binop op ct l r rct = ref_binop op ct l r rct.
Proof.
  intros Hop Hwf Hrct Hl Hr. destruct (shift_count_ok ct r rct Hwf Hrct Hr) as [Hc Hv].
  pose proof (wf_size _ Hwf) as Hn. unfold simplify_int_binop, ref_binop. fold (is_shift op). rewrite Hop, Hc. simpl.
  assert (op = SPECIAL_LEFTSHIFT \/ op = SPECIAL_RIGHTSHIFT) as Hcases.
  { unfold is_shift, op_eqb in Hop. apply orb_true_iff in Hop as [?%bool_decide_eq_true|?%bool_decide_eq_true]; auto. }
  destruct (shift_fits ct (cval rct r)) eqn:Hfit; [|by destruct Hcases as [-> | ->]]. simpl. rewrite Hv by done.
  assert (0 <= r) as Hr0 by apply Hr. destruct Hcases as [-> | ->]; simpl; f_equal; rewrite land_mask by done.
  - rewrite ucast_u64, Z.shiftl_mul_pow2 by done. unfold ucast.
    rewrite (Zmult_mod l), (Zmult_mod (cval ct l)). f_equal. f_equal. symmetry. by apply cval_mod.
  - rewrite (with_sign_cval ct l) by done. destruct (is_unsigned ct) eqn:Hu; simpl.
    + unfold cval. by rewrite Hu, Z.shiftr_div_pow2.
    + by rewrite ucast_u64, Z.shiftr_div_pow2.
Qed.

Lemma simplify_quot op ct l r rct : op = OP_DIV \/ op = OP_MOD -> wf_ct ct -> fits ct l -> fits ct r ->
  simplify_int_binop op ct l r rct = ref_binop op ct l r rct.
Proof.
  intros Hop Hwf Hl Hr. pose proof (wf_size _ Hwf) as Hn. unfold simplify_int_binop, ref_binop, quot_fits.
  rewrite !with_sign_cval, cval_zero by done. destruct (is_unsigned ct) eqn:Hu; simpl.
  - destruct Hop as [-> | ->]; simpl; rewrite ?Hu; destruct (Z.eqb_spec r 0); try done; simpl; f_equal;
      rewrite land_mask by done; unfold cval; rewrite Hu; f_equal.
    + symmetry. apply Z.quot_div_nonneg; unfold fits in *; lia.
    + symmetry. apply Z.rem_mod_nonneg; unfold fits in *; lia.
  - rewrite cval_least by done.
    destruct Hop as [-> | ->]; simpl; rewrite ?Hu; destruct (Z.eqb_spec r 0); try done; simpl;
      destruct ((l =? _) && _); try done; simpl; f_equal; by rewrite land_mask, ucast_u64 by done.
Qed.

(** Every operator: the value of the reference, or none. *)
Lemma simplify_int_binop_ref op ct l r rct : wf_ct ct -> wf_ct rct -> fits ct l ->
  (if is_shift op then fits rct r else fits ct r) ->
  simplify_int_binop op ct l r rct = ref_binop op ct l r rct.
Proof.
  intros Hwf Hrct Hl Hr. pose proof (wf_size _ Hwf) as Hn. destruct (is_shift op) eqn:Hop; [by apply simplify_shift|].
  destruct (arith_mod ct l r Hwf) as (Hadd & Hsub & Hmul).
  destruct op; try done; try (by apply simplify_quot; auto); unfold simplify_int_binop, ref_binop; simpl; f_equal;
    rewrite ?land_mask, ?ucast_u64 by done; try done.
  - rewrite !with_sign_cval by done. destruct (is_unsigned ct) eqn:Hu; simpl; rewrite ucast_u64 by done; congruence.
  - apply bitwise_mod; [done|]. eapply land_bits. intros. apply Z.lor_spec.
  - apply bitwise_mod; [done|]. eapply land_bits. intros. apply Z.land_spec.
  - apply bitwise_mod; [done|]. eapply land_bits. intros. apply Z.lxor_spec.
Qed.

Lemma cval_eqb ct a b : wf_ct ct -> fits ct a -> fits ct b -> (cval ct a =? cval ct b) = (a =? b).
Proof.
  intros Hwf Ha Hb. destruct (Z.eqb_spec a b) as [->|Hne]; [apply Z.eqb_refl|].
  apply Z.eqb_neq. intros Heq. destruct Hne.
  by rewrite <- (fits_mod ct a), <- (fits_mod ct b), <- (cval_mod ct a), <- (cval_mod ct b), Heq by done.
Qed.

Lemma simplify_cmp_binop_ref op ct l r : wf_ct ct -> cmp_fits op ct = true -> fits ct l -> fits ct r ->
  simplify_cmp_binop op ct l r = ref_cmp op ct l r.
Proof.
  intros Hwf Hop Hl Hr. unfold simplify_cmp_binop, ref_cmp.
  rewrite !with_sign_scast by (apply Hwf || done).
  destruct op; try done; simpl in *; rewrite ?cval_eqb by done; try done; unfold cval;
    destruct (is_unsigned ct); done.
Qed.

Lemma ucast_opp ct v : wf_ct ct -> ucast (bit_size ct) (- v) = ucast (bit_size ct) (- cval ct v).
Proof.
  intros Hwf. pose proof (cval_mod ct v Hwf) as Hv. unfold ucast in *. rewrite <- !Z.sub_0_l.
  by rewrite (Zminus_mod 0 v), (Zminus_mod 0 (cval ct v)), Hv.
Qed.

Lemma ucast_lnot ct v : wf_ct ct -> fits ct v -> ucast (bit_size ct) (lnot64 v) = ucast (bit_size ct) (Z.lnot (cval ct v)).
Proof.
  intros Hwf Hv. rewrite lnot64_opp, ucast_u64 by (apply Hwf || by eapply fits_u64).
  replace (Z.lnot (cval ct v)) with (- cval ct v - 1) by (unfold Z.lnot; lia).
  pose proof (ucast_opp ct v Hwf) as Hc. unfold ucast in *.
  by rewrite (Zminus_mod (- v)), (Zminus_mod (- cval ct v)), Hc.
Qed.

Lemma simplify_preop_ref op ct v : wf_ct ct -> (op <> OP_NOT -> fits ct v) ->
  simplify_preop op ct v = ref_preop op ct v.
Proof.
  intros Hwf Hv. pose proof (wf_size _ Hwf) as Hn. unfold simplify_preop, ref_preop.
  destruct op; try done; try (specialize (Hv ltac:(done))); simpl; rewrite ?land_mask by done.
  - by rewrite fits_mod.
  - destruct (is_unsigned ct) eqn:Hu; simpl.
    + rewrite andb_false_r. simpl. rewrite land_mask, ucast_u64 by done. unfold cval. by rewrite Hu.
    + rewrite andb_true_r, cval_least by done. destruct (v =? _); [done|]. simpl. f_equal.
      by rewrite land_mask, ucast_u64, ucast_opp by done.
  - f_equal. apply ucast_small. pose proof (pow_pos_half _ Hn). pose proof (pow_half _ Hn). destruct (v =? 0); simpl; lia.
  - f_equal. by apply ucast_lnot.
Qed.

Lemma bool_fits ct : wf_ct ct -> is_bool ct = true -> forall v, fits ct v -> v = Z.b2z (negb (v =? 0)).
Proof. intros Hwf Hb v Hv. unfold fits in Hv. rewrite (wf_bool _ Hwf Hb) in Hv. by destruct (Z.eqb_spec v 0); simpl; lia. Qed.

Lemma cast_value_ref newtype v oldtype : wf_ct newtype -> wf_ct oldtype -> fits oldtype v ->
  cast_value newtype v oldtype = ref_cast newtype v oldtype.
Proof.
  intros Hnew Hold Hv. unfold cast_value, ref_cast. destruct (Z.eqb_spec (bit_size oldtype) (bit_size newtype)) as [Heq|_].
  - destruct (is_bool newtype) eqn:Hb.
    + apply (bool_fits newtype); try done. unfold fits. by rewrite <- Heq.
    + by rewrite <- Heq, cval_mod, fits_mod.
  - rewrite get_longlong_cval by done. destruct (is_bool newtype).
    + replace (s64 (cval oldtype v) =? 0) with (v =? 0); [by destruct (v =? 0)|].
      rewrite <- (cval_zero oldtype v) by done. pose proof (fits_u64 _ _ Hold Hv) as H64. unfold cval.
      destruct (is_unsigned oldtype); [|by rewrite s64_small by apply scast_is_s64, Hold].
      destruct (Z.eqb_spec v 0), (Z.eqb_spec (s64 v) 0); unfold is_u64 in H64; reflexivity || wrap_lia.
    + by rewrite land_mask, u64_s64, ucast_u64 by apply Hnew.
Qed.

(** ** The results fit *)

Lemma fits_ucast ct v : wf_ct ct -> fits ct (ucast (bit_size ct) v).
Proof. intros [Hn _]. apply ucast_range. lia. Qed.

Lemma fits_b2z ct b : wf_ct ct -> fits ct (Z.b2z b).
Proof. intros [Hn _]. pose proof (pow_pos_half _ Hn). pose proof (pow_half _ Hn). unfold fits. destruct b; simpl; lia. Qed.

Lemma ref_binop_fits op ct l r rct v : wf_ct ct -> ref_binop op ct l r rct = Some v -> fits ct v.
Proof. intros Hwf. unfold ref_binop. intros (x & _ & ->)%fmap_Some. by apply fits_ucast. Qed.

Lemma ref_cmp_bit op ct l r v : ref_cmp op ct l r = Some v -> exists b, v = Z.b2z b.
Proof. unfold ref_cmp. intros (x & _ & ->)%fmap_Some. by exists x. Qed.

Lemma ref_preop_fits op ct v w : wf_ct ct -> (op <> OP_NOT -> fits ct v) -> ref_preop op ct v = Some w -> fits ct w.
Proof.
  intros Hwf Hv. unfold ref_preop. destruct op; try done; try specialize (Hv ltac:(done)).
  - by intros [= <-].
  - case_if; [done|]. intros [= <-]. by apply fits_ucast.
  - intros [= <-]. by apply fits_b2z.
  - intros [= <-]. by apply fits_ucast.
Qed.

Lemma ref_cast_fits newtype v oldtype : wf_ct newtype -> fits newtype (ref_cast newtype v oldtype).
Proof. intros Hwf. unfold ref_cast. destruct (is_bool newtype); [by apply fits_b2z|by apply fits_ucast]. Qed.

(** The number of a constant, as get_expression_value() reads it. *)
Lemma value_number ct v : wf_ct ct -> fits ct v ->
  (if negb (Z.land v (sign_bit (bit_size ct)) =? 0) && negb (is_unsigned ct)
   then s64 (Z.lor (Z.lor v (sign_bit (bit_size ct))) (lnot64 (u64 (sign_bit (bit_size ct) - 1)))) else s64 v) =
  s64 (cval ct v).
Proof.
  intros [Hn _] Hv. rewrite land_sign_bit by done. unfold cval. destruct (is_unsigned ct); [by rewrite andb_false_r|].
  rewrite scast_cases by done. destruct (Z.ltb_spec v (2 ^ (bit_size ct - 1))); [done|]. simpl.
  by rewrite lor_above_sign, s64_back by (unfold fits in Hv; lia).
Qed.
