(* ===== verification/ExpandSound.v ===== *)
(** * Expansion keeps the meaning of an expression

    [ev] evaluates a tree in a store, with the operators of ExpandFacts.v; what is not
    taken apart is evaluated by a parameter, of which the costs say whether it is safe.
    Where the branches of conditionals and the right sides of && and || hold no operation
    without a value ([guarded]) the expanded tree evaluates to the same value and store;
    the constants that expansion finds are right for every tree, and it finds every
    constant. *)
From stdpp Require Import base option.
From S2P Require Import Prelude Tokens Bits Expand ExpandFacts.
#[local] Open Scope Z_scope.
#[local] Set Warnings "-register-all".

(** ** Evaluation *)

Class Leaves (store : Type) : Type := {
  leaf_type : Z -> ctype;
  leaf_ev : Z -> store -> option (Z * store)
}.

(** What the costs promise: an expression cheaper than a select has a value and no effect. *)
Class LeavesOk (store : Type) `{Cst : Costs} `{L : Leaves store} : Prop := {
  leaf_wf : forall id, wf_ct (leaf_type id);
  leaf_fits : forall id s v s', leaf_ev id s = Some (v, s') -> fits (leaf_type id) v;
  leaf_cost_pos : forall id, 0 <= leaf_cost id;
  leaf_cheap : forall id s, leaf_cost id < SELECT_COST -> exists v, leaf_ev id s = Some (v, s)
}.

Section sound.
Context {store : Type} `{Cst : Costs} `{L : Leaves store} `{Ok : !LeavesOk store}.

Fixpoint ev (e : expr) (s : store) : option (Z * store) :=
  match e with
  | VALUE v _ _ => Some (v, s)
  | BINOP op l r ct =>
    '(a, s) ← ev l s;
    '(b, s) ← ev r s;
    v ← ref_binop op ct a b (type_of r);
    Some (v, s)
  | SAFELOGICAL is_and l r _ =>
    '(a, s) ← ev l s;
    '(b, s) ← ev r s;
    Some (Z.b2z (if is_and then truth a && truth b else truth a || truth b), s)
  | LOGICAL is_and l r _ =>
    '(a, s) ← ev l s;
    if Bool.eqb (truth a) is_and then '(b, s) ← ev r s; Some (Z.b2z (truth b), s)
    else Some (Z.b2z (truth a), s)
  | COMPARE op l r _ =>
    '(a, s) ← ev l s;
    '(b, s) ← ev r s;
    v ← ref_cmp op (type_of l) a b;
    Some (v, s)
  | COMMA l r _ => '(_, s) ← ev l s; ev r s
  | PREOP op e ct => '(a, s) ← ev e s; v ← ref_preop op ct a; Some (v, s)
  | CAST e ct => '(a, s) ← ev e s; Some (ref_cast ct a (type_of e), s)
  | CONDITIONAL false c t f _ =>
    '(a, s) ← ev c s;
    if truth a then match t with Some t => ev t s | None => Some (a, s) end else ev f s
  | CONDITIONAL true c t f _ =>
    '(a, s) ← ev c s;
    '(x, s) ← match t with Some t => ev t s | None => Some (a, s) end;
    '(y, s) ← ev f s;
    Some (if truth a then x else y, s)
  | LEAF id _ => leaf_ev id s
  end.

(** ** Well typed trees, as the evaluation of types leaves them *)

Definition same_size (a b : ctype) : Prop := bit_size a = bit_size b.

Fixpoint wt (e : expr) : Prop :=
  match e with
  | VALUE v _ ct => wf_ct ct /\ fits ct v
  | BINOP op l r ct =>
    wt l /\ wt r /\ wf_ct ct /\ same_size (type_of l) ct /\ (is_shift op = false -> same_size (type_of r) ct)
  | SAFELOGICAL _ l r ct | LOGICAL _ l r ct => wt l /\ wt r /\ wf_ct ct
  | COMPARE op l r ct =>
    wt l /\ wt r /\ wf_ct ct /\ same_size (type_of r) (type_of l) /\ cmp_fits op (type_of l) = true
  | COMMA l r ct => wt l /\ wt r /\ type_of r = ct
  | PREOP op e ct => wt e /\ wf_ct ct /\ (op <> OP_NOT -> same_size (type_of e) ct)
  | CAST e ct => wt e /\ wf_ct ct
  | CONDITIONAL _ c t f ct =>
    wt c /\ match t with Some t => wt t /\ type_of t = ct | None => type_of c = ct end /\ wt f /\ type_of f = ct
  | LEAF id ct => leaf_type id = ct
  end.

(** Trees of the parser: no expression that expansion makes. *)
Fixpoint source (e : expr) : bool :=
  match e with
  | VALUE _ _ _ | LEAF _ _ => true
  | BINOP _ l r _ | LOGICAL _ l r _ | COMPARE _ l r _ | COMMA l r _ => source l && source r
  | SAFELOGICAL _ _ _ _ => false
  | PREOP _ e _ | CAST e _ => source e
  | CONDITIONAL sel c t f _ =>
    negb sel && source c && match t with Some t => source t | None => true end && source f
  end.

Fixpoint closed (e : expr) : bool :=
  match e with
  | VALUE _ _ _ => true
  | LEAF _ _ => false
  | BINOP _ l r _ | LOGICAL _ l r _ | SAFELOGICAL _ l r _ | COMPARE _ l r _ | COMMA l r _ => closed l && closed r
  | PREOP _ e _ | CAST e _ => closed e
  | CONDITIONAL _ c t f _ => closed c && match t with Some t => closed t | None => true end && closed f
  end.

(** ** Operations that always have a value *)

Definition binop_total (op : op_tok) (ct : ctype) (r : expr) : bool :=
  match op, r with
  | (OP_ADD | OP_SUB | OP_MUL | OP_AND | OP_OR | OP_XOR), _ => true
  | (OP_DIV | OP_MOD), VALUE b _ _ => negb (cval ct b =? 0) && (is_unsigned ct || negb (cval ct b =? -1))
  | (SPECIAL_LEFTSHIFT | SPECIAL_RIGHTSHIFT), VALUE b _ rct => shift_fits ct (cval rct b)
  | _, _ => false
  end.

Definition preop_total (op : op_tok) (ct : ctype) : bool :=
  match op with OP_ADD | OP_NOT | OP_TILDE => true | OP_SUB => is_unsigned ct | _ => false end.

Fixpoint no_trap (e : expr) : bool :=
  match e with
  | VALUE _ _ _ | LEAF _ _ => true
  | BINOP op l r ct => no_trap l && no_trap r && binop_total op ct r
  | LOGICAL _ l r _ | SAFELOGICAL _ l r _ | COMPARE _ l r _ | COMMA l r _ => no_trap l && no_trap r
  | PREOP op e ct => no_trap e && preop_total op ct
  | CAST e _ => no_trap e
  | CONDITIONAL _ c t f _ => no_trap c && match t with Some t => no_trap t | None => true end && no_trap f
  end.

(** What may be evaluated without being asked for has a value. *)
Fixpoint guarded (e : expr) : bool :=
  match e with
  | VALUE _ _ _ | LEAF _ _ => true
  | BINOP _ l r _ | SAFELOGICAL _ l r _ | COMPARE _ l r _ | COMMA l r _ => guarded l && guarded r
  | LOGICAL _ l r _ => guarded l && guarded r && no_trap r
  | PREOP _ e _ | CAST e _ => guarded e
  | CONDITIONAL _ c t f _ =>
    guarded c && match t with Some t => guarded t && no_trap t | None => true end && (guarded f && no_trap f)
  end.

(** ** Induction with the optional branch *)

Lemma expr_branch_ind (P : expr -> Prop) :
  (forall v t ct, P (VALUE v t ct)) ->
  (forall op l r ct, P l -> P r -> P (BINOP op l r ct)) ->
  (forall b l r ct, P l -> P r -> P (SAFELOGICAL b l r ct)) ->
  (forall b l r ct, P l -> P r -> P (LOGICAL b l r ct)) ->
  (forall op l r ct, P l -> P r -> P (COMPARE op l r ct)) ->
  (forall l r ct, P l -> P r -> P (COMMA l r ct)) ->
  (forall op e ct, P e -> P (PREOP op e ct)) ->
  (forall e ct, P e -> P (CAST e ct)) ->
  (forall b c t f ct, P c -> (forall t', t = Some t' -> P t') -> P f -> P (CONDITIONAL b c t f ct)) ->
  (forall id ct, P (LEAF id ct)) ->
  forall e, P e.
Proof.
  intros HV HB HS HL HCo HCm HP HCa HCd HLf. fix IH 1. intros [].
  - apply HV.
  - by apply HB.
  - by apply HS.
  - by apply HL.
  - by apply HCo.
  - by apply HCm.
  - by apply HP.
  - by apply HCa.
  - apply HCd; [done| |done]. destruct valt as [t|]; [|discriminate]. intros t' [= <-]. apply IH.
  - apply HLf.
Qed.

(** ** Types *)

Lemma type_of_taint taint e : type_of (add_taint taint e) = type_of e.
Proof. by destruct e. Qed.
Lemma wt_taint taint e : wt e -> wt (add_taint taint e).
Proof. by destruct e. Qed.
Lemma ev_taint taint e s : ev (add_taint taint e) s = ev e s.
Proof. by destruct e. Qed.

Lemma wt_type e : wt e -> wf_ct (type_of e).
Proof.
  induction e using expr_branch_ind; simpl; try tauto.
  - intros (_ & ? & <-). auto.
  - intros (_ & _ & ? & <-). auto.
  - intros <-. apply Ok.
Qed.

(** Take a computation apart. *)
Ltac unbind H :=
  repeat match type of H with
  | (_ ≫= _) = Some _ => apply bind_Some in H as ((? & ?) & ? & H); cbn beta iota in H
  | (_ ≫= _) = Some _ => apply bind_Some in H as (? & ? & H); cbn beta iota in H
  end.

Lemma fits_size a b v : same_size a b -> fits a v -> fits b v.
Proof. unfold fits, same_size. by intros ->. Qed.

Lemma ev_fits e s v s' : wt e -> ev e s = Some (v, s') -> fits (type_of e) v.
Proof.
  revert s v s'. induction e using expr_branch_ind; simpl; intros s w s' Hwt Hev.
  - simplify_eq. apply Hwt.
  - destruct Hwt as (_ & _ & Hwf & _). unbind Hev. simplify_eq. by eapply ref_binop_fits.
  - destruct Hwt as (_ & _ & Hwf). unbind Hev. simplify_eq. by apply fits_b2z.
  - destruct Hwt as (_ & _ & Hwf). unbind Hev. destruct (Bool.eqb _ _); unbind Hev; simplify_eq; by apply fits_b2z.
  - destruct Hwt as (_ & _ & Hwf & _). unbind Hev. simplify_eq.
    match goal with H : ref_cmp _ _ _ _ = _ |- _ => apply ref_cmp_bit in H as [? ->] end. by apply fits_b2z.
  - destruct Hwt as (_ & Hr & <-). unbind Hev. by eapply IHe2.
  - destruct Hwt as (He & Hwf & Hs). unbind Hev. simplify_eq. eapply ref_preop_fits; [done| |done].
    intros Hop. by eapply fits_size; [apply Hs|eapply IHe].
  - destruct Hwt as (_ & Hwf). unbind Hev. simplify_eq. by apply ref_cast_fits.
  - destruct Hwt as (Hc & Ht & Hf & <-).
    assert (forall a s1 s2 x s3, ev e1 s1 = Some (a, s2) -> match t with Some t => ev t s2 | None => Some (a, s2) end = Some (x, s3) ->
      fits (type_of e2) x) as Hbr.
    { intros a s1 s2 x s3 Ha Hx. destruct t as [t|]; [destruct Ht as [Ht <-]; by eapply H|].
      rewrite <- Ht. simplify_eq. by eapply IHe1. }
    destruct b; unbind Hev; destruct (truth _) eqn:?; simplify_eq; eauto.
  - subst. by eapply leaf_fits.
Qed.

(** ** Handlers *)

(** [e] stands for [e0] in a tree. *)
Record expands (e0 e : expr) : Prop := {
  expands_wt : wt e;
  expands_type : type_of e = type_of e0;
  expands_ev : forall s, ev e s = ev e0 s
}.

Lemma expands_refl e : wt e -> expands e e.
Proof. by split. Qed.

Lemma expand_binop_ok op l r ct : wt (BINOP op l.2 r.2 ct) -> expands (BINOP op l.2 r.2 ct) (expand_binop op l r ct).2.
Proof.
  intros Hwt. unfold expand_binop. destruct l.2 eqn:El, r.2 eqn:Er; try by apply expands_refl.
  destruct (simplify_int_binop _ _ _ _ _) as [v|] eqn:Hs; [|by apply expands_refl].
  simpl in Hwt. destruct Hwt as ((? & ?) & (? & ?) & Hwf & Hl & Hr).
  rewrite simplify_int_binop_ref in Hs; try done.
  - split; [split; [done|by eapply ref_binop_fits]|done|]. intros s. simpl. by rewrite Hs.
  - by eapply fits_size.
  - destruct (is_shift op); [done|]. by eapply fits_size; [apply Hr|].
Qed.

Lemma expand_compare_ok op l r ct : wt (COMPARE op l.2 r.2 ct) -> expands (COMPARE op l.2 r.2 ct) (expand_compare op l r ct).2.
Proof.
  intros Hwt. unfold expand_compare. destruct l.2 eqn:El, r.2 eqn:Er; try by apply expands_refl.
  destruct (simplify_cmp_binop _ _ _ _) as [v|] eqn:Hs; [|by apply expands_refl].
  simpl in Hwt. destruct Hwt as ((? & ?) & (? & ?) & Hwf & Hl & Hr).
  rewrite simplify_cmp_binop_ref in Hs by (done || by eapply fits_size).
  split; [|done|intros s; simpl; by rewrite Hs].
  split; [done|]. apply ref_cmp_bit in Hs as [? ->]. by apply fits_b2z.
Qed.

Lemma expand_preop_ok op e ct : wt (PREOP op e.2 ct) -> expands (PREOP op e.2 ct) (expand_preop op e ct).2.
Proof.
  intros Hwt. unfold expand_preop. destruct e.2 eqn:Ee; try by apply expands_refl.
  destruct (simplify_preop _ _ _) as [v|] eqn:Hs; [|by apply expands_refl].
  simpl in Hwt. destruct Hwt as ((? & ?) & Hwf & Hsz).
  assert (op <> OP_NOT -> fits ct value) as Hfit by (intros; by eapply fits_size; [apply Hsz|]).
  rewrite simplify_preop_ref in Hs by done.
  split; [|done|intros s; simpl; by rewrite Hs]. split; [done|]. by eapply ref_preop_fits.
Qed.

Lemma expand_cast_ok e ct : wt (CAST e.2 ct) -> expands (CAST e.2 ct) (expand_cast e ct).2.
Proof.
  intros Hwt. unfold expand_cast. destruct e.2 eqn:Ee; try by apply expands_refl.
  simpl in Hwt. destruct Hwt as ((? & ?) & Hwf). rewrite cast_value_ref by done.
  split; [|done|done]. split; [done|]. by apply ref_cast_fits.
Qed.

Lemma expand_comma_ok l r ct : wt (COMMA l.2 r.2 ct) -> expands (COMMA l.2 r.2 ct) (expand_comma l r ct).2.
Proof.
  intros Hwt. unfold expand_comma. destruct l.2 eqn:El; try by apply expands_refl.
  destruct Hwt as (_ & Hr & Heq). simpl. split; [by apply wt_taint|by rewrite type_of_taint|].
  intros s. by rewrite ev_taint.
Qed.

Lemma expand_logical_wt is_and l r ct : wt (LOGICAL is_and l.2 r.2 ct) ->
  wt (expand_logical is_and l r ct).2 /\ type_of (expand_logical is_and l r ct).2 = ct.
Proof.
  intros Hwt. unfold expand_logical. pose proof Hwt as (_ & _ & Hwf).
  assert (forall b t, wt (VALUE (Z.b2z b) t ct)) as Hb by (intros; split; [done|by apply fits_b2z]).
  destruct l.2; repeat case_if; try done; try (by split; [apply (Hb true)|]); try (by split; [apply (Hb false)|]);
    destruct r.2; repeat case_if; try done; by split; [apply Hb|].
Qed.

(** The right side, evaluated in any case. *)
Definition pure (e : expr) : Prop := forall s, exists v, ev e s = Some (v, s).

Definition is_value (e : expr) : bool := match e with VALUE _ _ _ => true | _ => false end.

Lemma expand_logical_const is_and l r ct s : is_value (expand_logical is_and l r ct).2 = true ->
  ev (expand_logical is_and l r ct).2 s = ev (LOGICAL is_and l.2 r.2 ct) s.
Proof.
  unfold expand_logical. destruct l.2 eqn:El; try (case_if; done).
  destruct (is_and && (value =? 0)) eqn:H0.
  { apply andb_true_iff in H0 as [-> H0]. simpl. unfold truth. by rewrite H0. }
  destruct (negb is_and && negb (value =? 0)) eqn:H1.
  { apply andb_true_iff in H1 as [Hn H1]. destruct is_and; [done|]. simpl. unfold truth. by rewrite H1. }
  destruct r.2 eqn:Er; try (case_if; done). intros _. simpl. unfold truth.
  by destruct is_and, (value =? 0).
Qed.

(** A tree is as costly as its parts, unless it became a constant. *)
Lemma expand_logical_cost is_and l r ct :
  is_value (expand_logical is_and l r ct).2 = true /\ (expand_logical is_and l r ct).1 = 0 \/
  r.1 < BRANCH_COST /\ expand_logical is_and l r ct = (l.1 + r.1 + 1, SAFELOGICAL is_and l.2 r.2 ct) \/
  BRANCH_COST <= r.1 /\ expand_logical is_and l r ct = (l.1 + BRANCH_COST + r.1, LOGICAL is_and l.2 r.2 ct).
Proof.
  assert (forall keep, keep = (if r.1 <? BRANCH_COST
      then (l.1 + BRANCH_COST + (r.1 - (BRANCH_COST - 1)), SAFELOGICAL is_and l.2 r.2 ct)
      else (l.1 + BRANCH_COST + r.1, LOGICAL is_and l.2 r.2 ct)) ->
    r.1 < BRANCH_COST /\ keep = (l.1 + r.1 + 1, SAFELOGICAL is_and l.2 r.2 ct) \/
    BRANCH_COST <= r.1 /\ keep = (l.1 + BRANCH_COST + r.1, LOGICAL is_and l.2 r.2 ct)) as Hkeep.
  { intros keep ->. destruct (Z.ltb_spec r.1 BRANCH_COST); [left|by right]. split; [done|]. f_equal. unfold BRANCH_COST. lia. }
  unfold expand_logical. destruct l.2; try (right; by apply Hkeep).
  destruct (is_and && _); [by left|]. destruct (negb is_and && _); [by left|].
  destruct r.2; try (right; by apply Hkeep). by left.
Qed.

Lemma expand_logical_ev is_and l r ct s : (r.1 < BRANCH_COST -> pure r.2) ->
  ev (expand_logical is_and l r ct).2 s = ev (LOGICAL is_and l.2 r.2 ct) s.
Proof.
  intros Hr. destruct (expand_logical_cost is_and l r ct) as [[Hv _]|[[Hlt ->]|[_ ->]]]; [by apply expand_logical_const| |done].
  simpl. destruct (ev l.2 s) as [[a s1]|]; [|done]. simpl. destruct (Hr Hlt s1) as [b ->]. simpl.
  by destruct is_and, (truth a), (truth b).
Qed.

(** The branch that is not taken is the condition itself in a ?: b. *)
Lemma expand_conditional_wt c t f ct :
  wt (CONDITIONAL false c.2 (snd <$> t) f.2 ct) ->
  wt (expand_conditional false c t f ct).2 /\ type_of (expand_conditional false c t f ct).2 = ct.
Proof.
  intros Hwt. pose proof Hwt as (Hc & Ht & Hf & Hct). unfold expand_conditional.
  destruct c.2 eqn:Ec; try (case_if; by simpl).
  destruct (value =? 0); [|destruct t as [t|]]; simpl in *.
  - destruct f. simpl in *. split; [by apply wt_taint|by rewrite type_of_taint].
  - destruct t. simpl in *. destruct Ht. split; [by apply wt_taint|by rewrite type_of_taint].
  - done.
Qed.

Definition branch_cost (t : option (Z * expr)) : Z := match t with Some t => t.1 | None => 0 end.

Lemma expand_conditional_cost b c t f ct :
  (exists taint br, (expand_conditional b c t f ct) = (br.1, add_taint taint br.2) /\
    is_value c.2 = true /\ (br = f \/ t = Some br \/ t = None /\ br = (0, c.2))) \/
  branch_cost t + f.1 < SELECT_COST /\
    expand_conditional b c t f ct = (branch_cost t + f.1 + c.1 + 1, CONDITIONAL true c.2 (snd <$> t) f.2 ct) \/
  SELECT_COST <= branch_cost t + f.1 /\
    expand_conditional b c t f ct = (branch_cost t + f.1 + c.1 + BRANCH_COST, CONDITIONAL b c.2 (snd <$> t) f.2 ct).
Proof.
  assert (forall keep, keep = (let '(sel, cost) := if branch_cost t + f.1 <? SELECT_COST
        then (true, branch_cost t + f.1 - (BRANCH_COST - 1)) else (b, branch_cost t + f.1) in
      (cost + c.1 + BRANCH_COST, CONDITIONAL sel c.2 (snd <$> t) f.2 ct)) ->
    branch_cost t + f.1 < SELECT_COST /\ keep = (branch_cost t + f.1 + c.1 + 1, CONDITIONAL true c.2 (snd <$> t) f.2 ct) \/
    SELECT_COST <= branch_cost t + f.1 /\ keep = (branch_cost t + f.1 + c.1 + BRANCH_COST, CONDITIONAL b c.2 (snd <$> t) f.2 ct)) as Hkeep.
  { intros keep ->. destruct (Z.ltb_spec (branch_cost t + f.1) SELECT_COST); [left|by right].
    split; [done|]. f_equal. unfold BRANCH_COST. lia. }
  unfold expand_conditional. destruct c.2 eqn:Ec; try (right; by apply Hkeep). left. destruct (value =? 0).
  - exists taint, f. destruct f. auto.
  - destruct t as [[]|]; [exists taint, (z, e)|exists taint, (0, VALUE value taint ct0)]; split_and!; auto 6.
Qed.

Lemma expand_conditional_select b c t f ct : branch_cost t + f.1 < SELECT_COST ->
  expand_conditional true c t f ct = expand_conditional b c t f ct.
Proof.
  unfold expand_conditional. fold (branch_cost t). intros Hlt. apply Z.ltb_lt in Hlt. rewrite Hlt. by destruct c.2.
Qed.

Lemma expand_conditional_const c t f ct s : is_value c.2 = true ->
  ev (expand_conditional false c t f ct).2 s = ev (CONDITIONAL false c.2 (snd <$> t) f.2 ct) s.
Proof.
  unfold expand_conditional. destruct c.2 eqn:Ec; try done. intros _.
  simpl. unfold truth. destruct (value =? 0); simpl.
  - destruct f. simpl. by rewrite ev_taint.
  - destruct t as [[]|]; simpl; [by rewrite ev_taint|done].
Qed.

Lemma expand_conditional_ev c t f ct s :
  (branch_cost t + f.1 < SELECT_COST -> (forall t', t = Some t' -> pure t'.2) /\ pure f.2) ->
  ev (expand_conditional false c t f ct).2 s = ev (CONDITIONAL false c.2 (snd <$> t) f.2 ct) s.
Proof.
  intros Hp. destruct (expand_conditional_cost false c t f ct) as [(? & ? & _ & Hv & _)|[[Hlt ->]|[_ ->]]];
    [by apply expand_conditional_const| |done].
  destruct (Hp Hlt) as [Ht Hf]. simpl. destruct (ev c.2 s) as [[a s1]|]; [|done]. simpl.
  destruct (Hf s1) as [y Hy]. destruct t as [t|]; simpl.
  - destruct (Ht t eq_refl s1) as [x Hx]. rewrite Hx. simpl. rewrite Hy. simpl. by destruct (truth a).
  - rewrite Hy. simpl. by destruct (truth a).
Qed.

(** ** Trees *)

Lemma binop_congr op l r l' r' ct s : type_of r' = type_of r ->
  (forall s, ev l' s = ev l s) -> (forall s, ev r' s = ev r s) -> ev (BINOP op l' r' ct) s = ev (BINOP op l r ct) s.
Proof. intros Ht Hl Hr. simpl. rewrite Hl, Ht. destruct (ev l s) as [[a s1]|]; simpl; [by rewrite Hr|done]. Qed.

Lemma expand_conditional_eq b c t f ct :
  expand_expression (CONDITIONAL b c t f ct) =
  expand_conditional b (expand_expression c) (expand_expression <$> t) (expand_expression f) ct.
Proof. by destruct t. Qed.

Lemma expand_wt e : wt e -> source e = true -> wt (expand_expression e).2 /\ type_of (expand_expression e).2 = type_of e.
Proof.
  induction e using expr_branch_ind; intros Hwt Hs; simpl in Hs; zbool.
  - done.
  - destruct Hwt as (Hl & Hr & Hwf & Hsl & Hsr). destruct (IHe1 Hl) as [? Ht1], (IHe2 Hr) as [? Ht2]; try done.
    destruct (expand_binop_ok op (expand_expression e1) (expand_expression e2) ct); [|done].
    simpl. by rewrite Ht1, Ht2.
  - done.
  - destruct Hwt as (Hl & Hr & Hwf). destruct (IHe1 Hl) as [? Ht1], (IHe2 Hr) as [? Ht2]; try done.
    by apply expand_logical_wt.
  - destruct Hwt as (Hl & Hr & Hwf & Hsl & Hsr). destruct (IHe1 Hl) as [? Ht1], (IHe2 Hr) as [? Ht2]; try done.
    destruct (expand_compare_ok op (expand_expression e1) (expand_expression e2) ct); [|done].
    simpl. by rewrite Ht1, Ht2.
  - destruct Hwt as (Hl & Hr & Heq). destruct (IHe1 Hl) as [? Ht1], (IHe2 Hr) as [? Ht2]; try done.
    destruct (expand_comma_ok (expand_expression e1) (expand_expression e2) ct); [|done].
    simpl. by rewrite Ht2.
  - destruct Hwt as (He & Hwf & Hsz). destruct (IHe He) as [? Ht1]; try done.
    destruct (expand_preop_ok op (expand_expression e) ct); [|done]. simpl. by rewrite Ht1.
  - destruct Hwt as (He & Hwf). destruct (IHe He) as [? Ht1]; try done.
    by destruct (expand_cast_ok (expand_expression e) ct).
  - destruct Hwt as (Hc & Ht & Hf & Heq). destruct b; [done|].
    destruct (IHe1 Hc) as [? Ht1], (IHe2 Hf) as [? Ht2]; try done.
    rewrite expand_conditional_eq. apply expand_conditional_wt. split; [done|]. split; [|split; [done|by rewrite Ht2]].
    destruct t as [t|]; [|change (type_of (expand_expression e1).2 = ct); by rewrite Ht1].
    destruct Ht as [Ht Htt]. destruct (H t eq_refl Ht) as [? Ht3]; [done|]. split; [done|]. by transitivity (type_of t).
  - done.
Qed.

(** ** Costs *)

Lemma value_pure e : is_value e = true -> pure e.
Proof. destruct e; try done. intros _ s. by eexists. Qed.

Lemma pure_taint taint e : pure e -> pure (add_taint taint e).
Proof. intros He s. rewrite ev_taint. apply He. Qed.

(** A tree is as costly as each of its parts, unless it became a constant. *)
Lemma expand_binop_cost op l r ct :
  is_value (expand_binop op l r ct).2 = true /\ (expand_binop op l r ct).1 = 0 \/
  expand_binop op l r ct = (l.1 + r.1 + 1, BINOP op l.2 r.2 ct).
Proof. unfold expand_binop. destruct l.2, r.2; auto. destruct (simplify_int_binop _ _ _ _ _); auto. Qed.

Lemma expand_compare_cost op l r ct :
  is_value (expand_compare op l r ct).2 = true /\ (expand_compare op l r ct).1 = 0 \/
  expand_compare op l r ct = (l.1 + r.1 + 1, COMPARE op l.2 r.2 ct).
Proof. unfold expand_compare. destruct l.2, r.2; auto. destruct (simplify_cmp_binop _ _ _ _); auto. Qed.

Lemma expand_preop_cost op e ct :
  is_value (expand_preop op e ct).2 = true /\ (expand_preop op e ct).1 = 0 \/
  expand_preop op e ct = (e.1 + 1, PREOP op e.2 ct).
Proof. unfold expand_preop. destruct e.2; auto. destruct (simplify_preop _ _ _); auto. Qed.

Lemma expand_cast_cost e ct :
  is_value (expand_cast e ct).2 = true /\ (expand_cast e ct).1 = 0 \/ expand_cast e ct = (e.1 + 1, CAST e.2 ct).
Proof. unfold expand_cast. destruct e.2; auto. Qed.

Lemma expand_comma_cost l r ct :
  (exists taint, is_value l.2 = true /\ expand_comma l r ct = (l.1 + r.1, add_taint taint r.2)) \/ expand_comma l r ct = (l.1 + r.1, COMMA l.2 r.2 ct).
Proof. unfold expand_comma. destruct l.2; eauto. Qed.

(** The induction hypotheses, for the parts at hand. *)
Ltac use_hyps :=
  repeat match goal with
  | IH : ?P -> _, H : ?P |- _ => match type of P with Prop => specialize (IH H) end
  end.

Lemma cost_pos e : source e = true -> 0 <= (expand_expression e).1.
Proof.
  induction e using expr_branch_ind; intros Hs; simpl in Hs; zbool; use_hyps.
  - done.
  - simpl. destruct (expand_binop_cost op (expand_expression e1) (expand_expression e2) ct) as [[_ ->]| ->]; simpl; lia.
  - done.
  - simpl. destruct (expand_logical_cost b (expand_expression e1) (expand_expression e2) ct) as [[_ ->]|[[_ ->]|[_ ->]]]; simpl; unfold BRANCH_COST; lia.
  - simpl. destruct (expand_compare_cost op (expand_expression e1) (expand_expression e2) ct) as [[_ ->]| ->]; simpl; lia.
  - simpl. destruct (expand_comma_cost (expand_expression e1) (expand_expression e2) ct) as [(? & _ & ->)| ->]; simpl; lia.
  - simpl. destruct (expand_preop_cost op (expand_expression e) ct) as [[_ ->]| ->]; simpl; lia.
  - simpl. destruct (expand_cast_cost (expand_expression e) ct) as [[_ ->]| ->]; simpl; lia.
  - rewrite expand_conditional_eq. destruct b; [done|].
    assert (0 <= branch_cost (expand_expression <$> t)) by (destruct t; simpl; [by apply H|lia]).
    destruct (expand_conditional_cost false (expand_expression e1) (expand_expression <$> t) (expand_expression e2) ct)
      as [(? & br & -> & _ & [-> |[Hbr|[_ ->]]])|[[_ ->]|[_ ->]]]; cbn [fst]; unfold BRANCH_COST; try lia.
    by rewrite Hbr in *.
  - apply Ok.
Qed.

(** ** Cheap trees are safe *)

Lemma binop_total_ok op ct r a b s : binop_total op ct r = true -> ev r s = Some (b, s) ->
  is_Some (ref_binop op ct a b (type_of r)).
Proof.
  intros Ht Hr. unfold ref_binop. apply fmap_is_Some.
  destruct op; try done; destruct r; try done; simpl in Hr; simplify_eq; simpl in *; unfold quot_fits; zbool.
  all: try by eexists.
  3, 4: rewrite Ht; by eexists.
  all: rewrite (proj2 (Z.eqb_neq _ _)) by done; destruct (is_unsigned ct); simpl in *; [by eexists|].
  all: destruct (cval ct b =? -1); [done|]; rewrite andb_false_r; by eexists.
Qed.

Lemma ref_cmp_total op ct a b : cmp_fits op ct = true -> is_Some (ref_cmp op ct a b).
Proof. unfold ref_cmp. intros H. apply fmap_is_Some. destruct op; try done; by eexists. Qed.

Lemma ref_preop_total op ct a : preop_total op ct = true -> is_Some (ref_preop op ct a).
Proof. unfold ref_preop. destruct op; try done; intros H; try by eexists. simpl in H. rewrite H. by eexists. Qed.

Lemma binop_pure op l r ct : pure l -> pure r -> binop_total op ct r = true -> pure (BINOP op l r ct).
Proof.
  intros Hl Hr Ht s. simpl. destruct (Hl s) as [a ->]. simpl. destruct (Hr s) as [b Hb]. rewrite Hb. simpl.
  destruct (binop_total_ok op ct r a b s Ht Hb) as [v ->]. by eexists.
Qed.

Lemma compare_pure op l r ct : pure l -> pure r -> cmp_fits op (type_of l) = true -> pure (COMPARE op l r ct).
Proof.
  intros Hl Hr Ht s. simpl. destruct (Hl s) as [a ->]. simpl. destruct (Hr s) as [b ->]. simpl.
  destruct (ref_cmp_total op (type_of l) a b Ht) as [v ->]. by eexists.
Qed.

Lemma preop_pure op e ct : pure e -> preop_total op ct = true -> pure (PREOP op e ct).
Proof.
  intros He Ht s. simpl. destruct (He s) as [a ->]. simpl. destruct (ref_preop_total op ct a Ht) as [v ->]. by eexists.
Qed.

Lemma safe_pure is_and l r ct : pure l -> pure r -> pure (SAFELOGICAL is_and l r ct).
Proof. intros Hl Hr s. simpl. destruct (Hl s) as [a ->]. simpl. destruct (Hr s) as [b ->]. by eexists. Qed.

Lemma select_pure c t f ct : pure c -> (forall t', t = Some t' -> pure t') -> pure f -> pure (CONDITIONAL true c t f ct).
Proof.
  intros Hc Ht Hf s. simpl. destruct (Hc s) as [a ->]. simpl. destruct (Hf s) as [y Hy]. destruct t as [t|]; simpl.
  - destruct (Ht t eq_refl s) as [x ->]. simpl. rewrite Hy. by eexists.
  - rewrite Hy. by eexists.
Qed.

Lemma binop_total_expand op ct r : binop_total op ct r = true -> binop_total op ct (expand_expression r).2 = true.
Proof. destruct op; try done; destruct r; done. Qed.

Lemma cheap_pure e : wt e -> source e = true -> no_trap e = true -> (expand_expression e).1 < SELECT_COST ->
  pure (expand_expression e).2.
Proof.
  induction e using expr_branch_ind; intros Hwt Hs Hn Hc; simpl in Hs, Hn, Hwt; zbool; destruct_and?; use_hyps.
  - by apply value_pure.
  - pose proof (cost_pos e1). pose proof (cost_pos e2). use_hyps. simpl in *.
    destruct (expand_binop_cost op (expand_expression e1) (expand_expression e2) ct) as [[Hv _]|Heq]; [by apply value_pure|].
    rewrite Heq in *. simpl in Hc. apply binop_pure; [apply IHe1; lia|apply IHe2; lia|by apply binop_total_expand].
  - done.
  - pose proof (cost_pos e1). pose proof (cost_pos e2). use_hyps. simpl in *.
    destruct (expand_logical_cost b (expand_expression e1) (expand_expression e2) ct) as [[Hv _]|[[_ Heq]|[? Heq]]]; [by apply value_pure| |];
    rewrite Heq in *; simpl in Hc; unfold BRANCH_COST, SELECT_COST in *; [apply safe_pure; [apply IHe1; lia|apply IHe2; lia]|lia].
  - pose proof (cost_pos e1). pose proof (cost_pos e2). destruct (expand_wt e1) as [_ Ht]; [done..|]. use_hyps. simpl in *.
    destruct (expand_compare_cost op (expand_expression e1) (expand_expression e2) ct) as [[Hv _]|Heq]; [by apply value_pure|].
    rewrite Heq in *. simpl in Hc. apply compare_pure; [apply IHe1; lia|apply IHe2; lia|by rewrite Ht].
  - pose proof (cost_pos e1). pose proof (cost_pos e2). use_hyps. simpl in *.
    destruct (expand_comma_cost (expand_expression e1) (expand_expression e2) ct) as [(? & _ & Heq)|Heq]; rewrite Heq in *; simpl in Hc.
    + apply pure_taint, IHe2. lia.
    + intros s. simpl. destruct (IHe1 ltac:(lia) s) as [a ->]. simpl. apply IHe2. lia.
  - pose proof (cost_pos e). use_hyps. simpl in *.
    destruct (expand_preop_cost op (expand_expression e) ct) as [[Hv _]|Heq]; [by apply value_pure|].
    rewrite Heq in *. simpl in Hc. apply preop_pure; [apply IHe; lia|done].
  - pose proof (cost_pos e). use_hyps. simpl in *.
    destruct (expand_cast_cost (expand_expression e) ct) as [[Hv _]|Heq]; [by apply value_pure|].
    rewrite Heq in *. simpl in Hc. intros s. simpl. destruct (IHe ltac:(lia) s) as [a ->]. by eexists.
  - destruct b; [done|]. pose proof (cost_pos e1). pose proof (cost_pos e2). use_hyps.
    assert (0 <= branch_cost (expand_expression <$> t) /\
      (branch_cost (expand_expression <$> t) < SELECT_COST -> forall t', expand_expression <$> t = Some t' -> pure t'.2)) as [Ht0 Htp].
    { destruct t as [t|]; [|done]. destruct_and?. split; [by apply cost_pos|]. simpl. intros ? ? [= <-]. by apply H. }
    rewrite expand_conditional_eq in *.
    destruct (expand_conditional_cost false (expand_expression e1) (expand_expression <$> t) (expand_expression e2) ct)
      as [(? & br & Heq & Hv & Hbr)|[[? Heq]|[? Heq]]]; rewrite Heq in *; cbn [fst snd] in *; unfold BRANCH_COST, SELECT_COST in *.
    + apply pure_taint. destruct Hbr as [-> |[Hbr|[_ ->]]]; [by apply IHe2| |by apply value_pure].
      rewrite Hbr in *. by apply Htp.
    + apply select_pure; [apply IHe1; lia| |apply IHe2; lia]. intros t' (x & Hx & ->)%fmap_Some. apply Htp; [lia|done].
    + lia.
  - intros s. by apply leaf_cheap.
Qed.

(** ** Expansion as a whole *)

(** The same value and the same store. *)
Lemma expand_ev e : wt e -> source e = true -> guarded e = true -> forall s, ev (expand_expression e).2 s = ev e s.
Proof.
  induction e using expr_branch_ind; intros Hwt Hs Hg s; simpl in Hs, Hg, Hwt; zbool; destruct_and?; use_hyps.
  - done.
  - destruct (expand_wt e1) as [? Ht1], (expand_wt e2) as [? Ht2]; [done..|]. simpl.
    rewrite (expands_ev _ _ (expand_binop_ok op (expand_expression e1) (expand_expression e2) ct ltac:(simpl; by rewrite Ht1, Ht2))).
    by apply binop_congr.
  - done.
  - simpl. rewrite expand_logical_ev.
    + simpl. rewrite IHe1. destruct (ev e1 s) as [[a s1]|]; [|done]. simpl. by rewrite IHe2.
    + intros Hc. apply cheap_pure; try done. unfold BRANCH_COST, SELECT_COST in *. lia.
  - destruct (expand_wt e1) as [? Ht1], (expand_wt e2) as [? Ht2]; [done..|]. simpl.
    rewrite (expands_ev _ _ (expand_compare_ok op (expand_expression e1) (expand_expression e2) ct ltac:(simpl; by rewrite Ht1, Ht2))).
    simpl. rewrite IHe1, Ht1. destruct (ev e1 s) as [[a s1]|]; [|done]. simpl. by rewrite IHe2.
  - destruct (expand_wt e1) as [? Ht1], (expand_wt e2) as [? Ht2]; [done..|]. simpl.
    rewrite (expands_ev _ _ (expand_comma_ok (expand_expression e1) (expand_expression e2) ct ltac:(simpl; by rewrite Ht2))).
    simpl. rewrite IHe1. destruct (ev e1 s) as [[a s1]|]; [|done]. simpl. by rewrite IHe2.
  - destruct (expand_wt e) as [? Ht]; [done..|]. simpl.
    rewrite (expands_ev _ _ (expand_preop_ok op (expand_expression e) ct ltac:(simpl; by rewrite Ht))).
    simpl. by rewrite IHe.
  - destruct (expand_wt e) as [? Ht]; [done..|]. simpl.
    rewrite (expands_ev _ _ (expand_cast_ok (expand_expression e) ct ltac:(done))).
    simpl. by rewrite IHe, Ht.
  - destruct b; [done|]. rewrite expand_conditional_eq, expand_conditional_ev.
    + simpl. rewrite IHe1. destruct (ev e1 s) as [[a s1]|]; [|done]. simpl. rewrite IHe2.
      destruct t as [t|]; [|done]. simpl in *. zbool. destruct_and?. by rewrite (H t).
    + pose proof (cost_pos e2 ltac:(done)). intros Hc.
      assert (0 <= branch_cost (expand_expression <$> t)) by (destruct t; simpl; [by apply cost_pos|done]).
      split; [|apply cheap_pure; try done; lia].
      destruct t as [t|]; [|done]. intros t' [= <-]. simpl in *. zbool. destruct_and?. apply cheap_pure; try done. lia.
  - done.
Qed.

(** *** Constants *)

Lemma is_value_taint taint e : is_value (add_taint taint e) = is_value e.
Proof. by destruct e. Qed.

Lemma expand_binop_value op l r ct : is_value (expand_binop op l r ct).2 = true -> is_value l.2 = true /\ is_value r.2 = true.
Proof. unfold expand_binop. by destruct l.2, r.2. Qed.

Lemma expand_compare_value op l r ct : is_value (expand_compare op l r ct).2 = true -> is_value l.2 = true /\ is_value r.2 = true.
Proof. unfold expand_compare. by destruct l.2, r.2. Qed.

Lemma expand_preop_value op e ct : is_value (expand_preop op e ct).2 = true -> is_value e.2 = true.
Proof. unfold expand_preop. by destruct e.2. Qed.

Lemma expand_cast_value e ct : is_value (expand_cast e ct).2 = true -> is_value e.2 = true.
Proof. unfold expand_cast. by destruct e.2. Qed.

Lemma expand_comma_value l r ct : is_value (expand_comma l r ct).2 = true -> is_value l.2 = true /\ is_value r.2 = true.
Proof. unfold expand_comma. destruct l.2; try done. simpl. by rewrite is_value_taint. Qed.

(** A constant left side decides, or the right side is constant too. *)
Lemma expand_logical_value is_and l r ct : is_value (expand_logical is_and l r ct).2 = true ->
  is_value l.2 = true /\ forall s a s', ev l.2 s = Some (a, s') -> Bool.eqb (truth a) is_and = true -> is_value r.2 = true.
Proof.
  unfold expand_logical. destruct l.2; try (case_if; done). intros H. split; [done|].
  simpl. intros s a s' [= <- <-] Ha. unfold truth in Ha.
  destruct is_and, (value =? 0); simpl in *; try done; destruct r.2; try done; by destruct (r.1 <? BRANCH_COST).
Qed.

(** The branch that is taken is constant. *)
Lemma expand_conditional_value c t f ct : is_value (expand_conditional false c t f ct).2 = true ->
  is_value c.2 = true /\ forall s a s', ev c.2 s = Some (a, s') ->
    if truth a then forall t', t = Some t' -> is_value t'.2 = true else is_value f.2 = true.
Proof.
  unfold expand_conditional. destruct c.2; try (case_if; done). intros H. split; [done|].
  simpl. intros s a s' [= <- <-]. unfold truth. destruct (value =? 0); simpl.
  - destruct f. simpl in *. by rewrite is_value_taint in H.
  - intros t' ->. destruct t'. simpl in *. by rewrite is_value_taint in H.
Qed.

(** A constant that expansion finds is the value of the tree, which has no effect. *)
Lemma expand_constant e : wt e -> source e = true -> is_value (expand_expression e).2 = true ->
  forall s, ev e s = ev (expand_expression e).2 s.
Proof.
  induction e using expr_branch_ind; intros Hwt Hs Hv s; simpl in Hs, Hwt; zbool; destruct_and?; use_hyps.
  - done.
  - destruct (expand_wt e1) as [? Ht1], (expand_wt e2) as [? Ht2]; [done..|]. simpl in Hv |- *.
    rewrite (expands_ev _ _ (expand_binop_ok op (expand_expression e1) (expand_expression e2) ct ltac:(simpl; by rewrite Ht1, Ht2))).
    destruct (expand_binop_value _ _ _ _ Hv). by apply (binop_congr op _ _ e1 e2); auto.
  - done.
  - simpl in Hv |- *. rewrite expand_logical_const by done. simpl.
    destruct (expand_logical_value _ _ _ _ Hv) as [Hl Hr]. rewrite IHe1 by done.
    destruct (ev (expand_expression e1).2 s) as [[a s1]|] eqn:Ha; [|done]. simpl.
    destruct (Bool.eqb (truth a) b) eqn:Hb; [|done]. by rewrite IHe2 by eauto.
  - destruct (expand_wt e1) as [? Ht1], (expand_wt e2) as [? Ht2]; [done..|]. simpl in Hv |- *.
    rewrite (expands_ev _ _ (expand_compare_ok op (expand_expression e1) (expand_expression e2) ct ltac:(simpl; by rewrite Ht1, Ht2))).
    destruct (expand_compare_value _ _ _ _ Hv). simpl. rewrite IHe1, Ht1 by done.
    destruct (ev (expand_expression e1).2 s) as [[a s1]|] eqn:Ha; [|done]. simpl. by rewrite IHe2 by eauto.
  - destruct (expand_wt e1) as [? Ht1], (expand_wt e2) as [? Ht2]; [done..|]. simpl in Hv |- *.
    rewrite (expands_ev _ _ (expand_comma_ok (expand_expression e1) (expand_expression e2) ct ltac:(simpl; by rewrite Ht2))).
    destruct (expand_comma_value _ _ _ Hv). simpl. rewrite IHe1 by done.
    destruct (ev (expand_expression e1).2 s) as [[a s1]|] eqn:Ha; [|done]. simpl. by rewrite IHe2 by eauto.
  - destruct (expand_wt e) as [? Ht]; [done..|]. simpl in Hv |- *.
    rewrite (expands_ev _ _ (expand_preop_ok op (expand_expression e) ct ltac:(simpl; by rewrite Ht))).
    simpl. by rewrite IHe by (by eapply expand_preop_value).
  - destruct (expand_wt e) as [? Ht]; [done..|]. simpl in Hv |- *.
    rewrite (expands_ev _ _ (expand_cast_ok (expand_expression e) ct ltac:(done))).
    simpl. by rewrite IHe, Ht by (by eapply expand_cast_value).
  - destruct b; [done|]. rewrite expand_conditional_eq in *.
    destruct (expand_conditional_value _ _ _ _ Hv) as [Hc Hbr]. rewrite expand_conditional_const by done.
    simpl. rewrite IHe1 by done. destruct (ev (expand_expression e1).2 s) as [[a s1]|] eqn:Ha; [|done]. simpl.
    specialize (Hbr _ _ _ Ha). destruct (truth a); [|by rewrite IHe2].
    destruct t as [t|]; [|done]. simpl in *. destruct_and?. rewrite (H t); auto.
  - done.
Qed.

(** Constant operands with a value become it. *)
Lemma expand_binop_folds op l r ct s : wt (BINOP op l.2 r.2 ct) -> is_value l.2 = true -> is_value r.2 = true ->
  is_Some (ev (BINOP op l.2 r.2 ct) s) -> is_value (expand_binop op l r ct).2 = true.
Proof.
  unfold expand_binop. destruct l.2, r.2; try done. intros Hwt _ _ [x Hx]. simpl in Hwt, Hx.
  destruct Hwt as ((? & ?) & (? & ?) & Hwf & Hl & Hr). rewrite simplify_int_binop_ref; try done.
  - by destruct (ref_binop _ _ _ _ _).
  - by eapply fits_size.
  - destruct (is_shift op); [done|]. by eapply fits_size; [apply Hr|].
Qed.

Lemma expand_compare_folds op l r ct : wt (COMPARE op l.2 r.2 ct) -> is_value l.2 = true -> is_value r.2 = true ->
  is_value (expand_compare op l r ct).2 = true.
Proof.
  unfold expand_compare. destruct l.2, r.2; try done. intros Hwt _ _. simpl in Hwt.
  destruct Hwt as ((? & ?) & (? & ?) & Hwf & Hl & Hr). rewrite simplify_cmp_binop_ref by (done || by eapply fits_size).
  by destruct (ref_cmp_total op ct0 value value0 Hr) as [? ->].
Qed.

Lemma expand_preop_folds op e ct s : wt (PREOP op e.2 ct) -> is_value e.2 = true ->
  is_Some (ev (PREOP op e.2 ct) s) -> is_value (expand_preop op e ct).2 = true.
Proof.
  unfold expand_preop. destruct e.2; try done. intros Hwt _ [x Hx]. simpl in Hwt, Hx. destruct Hwt as ((? & ?) & Hwf & Hsz).
  rewrite simplify_preop_ref; [by destruct (ref_preop _ _ _)|done|]. intros; by eapply fits_size; [apply Hsz|].
Qed.

Lemma expand_logical_folds is_and l r ct s : is_value l.2 = true ->
  (forall a s', ev l.2 s = Some (a, s') -> Bool.eqb (truth a) is_and = true -> is_value r.2 = true) ->
  is_value (expand_logical is_and l r ct).2 = true.
Proof.
  unfold expand_logical. destruct l.2; try done. intros _ Hr. specialize (Hr value s eq_refl). unfold truth in Hr.
  destruct is_and, (value =? 0); simpl in *; try done; specialize (Hr eq_refl); by destruct r.2.
Qed.

Lemma expand_conditional_folds c t f ct s : is_value c.2 = true ->
  (forall a s', ev c.2 s = Some (a, s') ->
    if truth a then forall t', t = Some t' -> is_value t'.2 = true else is_value f.2 = true) ->
  is_value (expand_conditional false c t f ct).2 = true.
Proof.
  unfold expand_conditional. destruct c.2; try done. intros _ H. specialize (H value s eq_refl). unfold truth in H.
  destruct (value =? 0); simpl in *.
  - destruct f. simpl. by rewrite is_value_taint.
  - destruct t as [[]|]; [|done]. simpl. rewrite is_value_taint. by apply (H (z, e)).
Qed.

(** Every closed tree with a value becomes it. *)
Lemma expand_closed e s x : wt e -> source e = true -> closed e = true -> ev e s = Some x -> is_value (expand_expression e).2 = true.
Proof.
  revert s x. induction e using expr_branch_ind; intros s x Hwt Hs Hcl Hev; simpl in Hs, Hwt, Hcl; zbool; destruct_and?; use_hyps.
  - done.
  - pose proof Hev as Hev'. simpl in Hev'. unbind Hev'.
    destruct (expand_wt e1) as [? Ht1], (expand_wt e2) as [? Ht2]; [done..|]. simpl.
    apply expand_binop_folds with s; [simpl; by rewrite Ht1, Ht2|by eapply IHe1|by eapply IHe2|].
    rewrite (binop_congr op e1 e2) by (done || intros; symmetry; apply expand_constant; eauto). by eexists.
  - done.
  - simpl in Hev |- *. unbind Hev. eapply (expand_logical_folds _ _ _ _ s); [by eapply IHe1|]. intros a s' Ha Hb.
    rewrite <- (expand_constant e1) in Ha by eauto. simplify_eq. rewrite Hb in Hev. unbind Hev. by eapply IHe2.
  - simpl in Hev |- *. unbind Hev. destruct (expand_wt e1) as [? Ht1], (expand_wt e2) as [? Ht2]; [done..|].
    apply expand_compare_folds; [simpl; by rewrite Ht1, Ht2|by eapply IHe1|by eapply IHe2].
  - simpl in Hev |- *. unbind Hev. unfold expand_comma.
    pose proof (IHe1 _ _ ltac:(done) ltac:(done) ltac:(done) ltac:(done)) as Hl. pose proof (IHe2 _ _ ltac:(done) ltac:(done) ltac:(done) ltac:(done)) as Hr.
    destruct (expand_expression e1).2; try done. simpl. by rewrite is_value_taint.
  - pose proof Hev as Hev'. simpl in Hev'. unbind Hev'. destruct (expand_wt e) as [? Ht]; [done..|]. simpl.
    apply expand_preop_folds with s; [simpl; by rewrite Ht|by eapply IHe|]. simpl in *.
    rewrite <- expand_constant by eauto. by rewrite Hev.
  - simpl in Hev |- *. unbind Hev. unfold expand_cast.
    pose proof (IHe _ _ ltac:(done) ltac:(done) ltac:(done) ltac:(done)) as Hl. by destruct (expand_expression e).2.
  - destruct b; [done|]. rewrite expand_conditional_eq. simpl in Hev. unbind Hev.
    apply expand_conditional_folds with s; [by eapply IHe1|]. intros a s' Ha.
    rewrite <- (expand_constant e1) in Ha by eauto. simplify_eq. destruct (truth _); [|by eapply IHe2].
    intros t' (t0 & -> & ->)%fmap_Some. simpl in *. destruct_and?. by eapply H.
  - done.
Qed.

(** ** Expanding again *)

(** A constant costs nothing. *)
Lemma value_cost e : is_value (expand_expression e).2 = true -> (expand_expression e).1 = 0.
Proof.
  induction e using expr_branch_ind; intros Hv.
  - done.
  - simpl in *. destruct (expand_binop_cost op (expand_expression e1) (expand_expression e2) ct) as [[_ ?]|Heq]; [done|by rewrite Heq in Hv].
  - simpl in Hv. by destruct (expand_expression e1), (expand_expression e2).
  - simpl in *. destruct (expand_logical_cost b (expand_expression e1) (expand_expression e2) ct) as [[_ ?]|[[_ Heq]|[_ Heq]]];
      [done|by rewrite Heq in Hv..].
  - simpl in *. destruct (expand_compare_cost op (expand_expression e1) (expand_expression e2) ct) as [[_ ?]|Heq]; [done|by rewrite Heq in Hv].
  - simpl in *. destruct (expand_comma_value _ _ _ Hv).
    destruct (expand_comma_cost (expand_expression e1) (expand_expression e2) ct) as [(? & _ & ->)|Heq]; [|by rewrite Heq in Hv].
    simpl. rewrite IHe1, IHe2; done.
  - simpl in *. destruct (expand_preop_cost op (expand_expression e) ct) as [[_ ?]|Heq]; [done|by rewrite Heq in Hv].
  - simpl in *. destruct (expand_cast_cost (expand_expression e) ct) as [[_ ?]|Heq]; [done|by rewrite Heq in Hv].
  - rewrite expand_conditional_eq in *. unfold expand_conditional in *.
    destruct (expand_expression e1).2; try (by repeat case_if).
    destruct (value =? 0).
    + destruct (expand_expression e2). simpl in *. rewrite is_value_taint in Hv. auto.
    + destruct t as [t|]; [|done]. simpl in *. specialize (H t eq_refl).
      destruct (expand_expression t). simpl in *. rewrite is_value_taint in Hv. auto.
  - done.
Qed.

Lemma expand_taint taint e : expand_expression (expand_expression e).2 = expand_expression e ->
  expand_expression (add_taint taint (expand_expression e).2) = ((expand_expression e).1, add_taint taint (expand_expression e).2).
Proof.
  intros IH. pose proof (value_cost e) as Hc. destruct (expand_expression e) as [c e'] eqn:He. simpl in *.
  destruct e'; simpl in *; try done. by rewrite Hc.
Qed.

Lemma expand_again e : expand_expression (expand_expression e).2 = expand_expression e.
Proof.
  induction e using expr_branch_ind.
  - done.
  - simpl. destruct (expand_binop_cost op (expand_expression e1) (expand_expression e2) ct) as [[Hv Hc]|Heq].
    + destruct (expand_binop _ _ _ _) as [? []]; try done; simpl in *; by subst.
    + rewrite Heq at 1. simpl. by rewrite IHe1, IHe2.
  - simpl. destruct (expand_expression e1) as [c1 l] eqn:E1, (expand_expression e2) as [c2 r] eqn:E2. simpl in *. by rewrite IHe1, IHe2.
  - simpl. destruct (expand_logical_cost b (expand_expression e1) (expand_expression e2) ct) as [[Hv Hc]|[[? Heq]|[? Heq]]].
    + destruct (expand_logical _ _ _ _) as [? []]; try done; simpl in *; by subst.
    + rewrite Heq. simpl. rewrite IHe1, IHe2. by destruct (expand_expression e1), (expand_expression e2).
    + rewrite Heq at 1. simpl. by rewrite IHe1, IHe2.
  - simpl. destruct (expand_compare_cost op (expand_expression e1) (expand_expression e2) ct) as [[Hv Hc]|Heq].
    + destruct (expand_compare _ _ _ _) as [? []]; try done; simpl in *; by subst.
    + rewrite Heq at 1. simpl. by rewrite IHe1, IHe2.
  - simpl. destruct (expand_comma_cost (expand_expression e1) (expand_expression e2) ct) as [(taint & Hv & Heq)|Heq].
    + rewrite Heq. simpl. by rewrite expand_taint, (value_cost e1 Hv) by done.
    + rewrite Heq at 1. simpl. by rewrite IHe1, IHe2.
  - simpl. destruct (expand_preop_cost op (expand_expression e) ct) as [[Hv Hc]|Heq].
    + destruct (expand_preop _ _ _) as [? []]; try done; simpl in *; by subst.
    + rewrite Heq at 1. simpl. by rewrite IHe.
  - simpl. destruct (expand_cast_cost (expand_expression e) ct) as [[Hv Hc]|Heq].
    + destruct (expand_cast _ _) as [? []]; try done; simpl in *; by subst.
    + rewrite Heq at 1. simpl. by rewrite IHe.
  - rewrite expand_conditional_eq.
    assert (expand_expression <$> (snd <$> (expand_expression <$> t)) = expand_expression <$> t) as Ht
      by (destruct t as [t|]; [simpl; by rewrite (H t)|done]).
    destruct (expand_conditional_cost b (expand_expression e1) (expand_expression <$> t) (expand_expression e2) ct)
      as [(taint & br & Heq & Hv & Hbr)|[[Hlt Heq]|[Hge Heq]]]; rewrite Heq; cbn [snd].
    + destruct Hbr as [-> |[(t0 & -> & ->)%fmap_Some|[_ ->]]]; [by apply expand_taint|by apply expand_taint, H|].
      by destruct (expand_expression e1) as [? []].
    + rewrite expand_conditional_eq, IHe1, IHe2, Ht, <- Heq. by apply expand_conditional_select.
    + by rewrite expand_conditional_eq, IHe1, IHe2, Ht, <- Heq.
  - done.
Qed.

(** ** Reading the result *)

Lemma truth_of_ev e s v s' : ev e s = Some (v, s') -> truth_of e = -1 \/ truth_of e = Z.b2z (truth v).
Proof.
  revert s v s'. induction e using expr_branch_ind; simpl; intros s w s' Hev; auto.
  - right. by simplify_eq.
  - unbind Hev. eauto.
Qed.
End sound.
