(* ===== verification/ExpandTheorems.v ===== *)
(** * What is proved of constant expressions

    Expansion keeps the value and the effects of every expression whose unasked parts
    are safe; the value of a constant expression is its value in C; the answer about the
    truth of an expression is right; a second expansion changes nothing.  A conditional that
    guards a division does not stay a guard. *)
From stdpp Require Import base option.
From S2P Require Import Prelude Tokens Bits Expand ExpandFacts ExpandSound.
#[local] Open Scope Z_scope.

(** ** A concrete machine, for the witnesses *)

Definition int_type : ctype := Ctype 32 false false.
Definition uint_type : ctype := Ctype 32 true false.

(** Leaf 0 is a local variable; every other leaf is a call that changes it. *)
#[local] Instance witness_costs : Costs := {| leaf_cost id := if id =? 0 then 1 else 10000 |}.

#[local] Instance witness_leaves : Leaves Z := {|
  leaf_type _ := uint_type;
  leaf_ev id s := if id =? 0 then Some (ucast 32 s, s) else Some (ucast 32 s, s + id)
|}.

Lemma uint_wf : wf_ct uint_type.
Proof. split; simpl; [lia|done]. Qed.

Lemma int_wf : wf_ct int_type.
Proof. split; simpl; [lia|done]. Qed.

#[local] Instance witness_ok : LeavesOk Z.
Proof.
  split; simpl.
  - intros _. apply uint_wf.
  - intros id s v s' H. assert (v = ucast 32 s) as -> by (destruct (id =? 0); congruence). by apply (fits_ucast uint_type), uint_wf.
  - intros id. destruct (id =? 0); lia.
  - intros id s. destruct (id =? 0); [by eexists|]. unfold SELECT_COST. lia.
Qed.

Section theorems.
Context {store : Type} `{Cst : Costs} `{L : Leaves store} `{Ok : !LeavesOk store}.

(** C20: expand_expression() keeps the meaning of an expression: the tree it leaves has the type
    of the old one and evaluates, in every state, to the same value and the same state, or has no value
    where the old one has none; the branches of its conditionals and the right sides of its && and ||
    hold no operation that can be without a value. *)
Theorem expand_expression_equiv (e : expr) :
  wt e -> source e = true -> guarded e = true ->
  type_of (expand_expression e).2 = type_of e /\
  forall s, ev (expand_expression e).2 s = ev e s.
Proof. intros Hwt Hs Hg. split; [by apply expand_wt|by apply expand_ev]. Qed.


(** C39: When expr_truth_value() says that an expression is true, or false, so is its value in every state
    where it has one. *)
Theorem expr_truth_value_sound (e : expr) (s : store) (v : Z) (s' : store) :
  wt e -> source e = true -> guarded e = true -> ev e s = Some (v, s') ->
  expr_truth_value e = -1 \/ expr_truth_value e = Z.b2z (truth v).
Proof.
  intros Hwt Hs Hg Hev. rewrite <- (expand_ev e) in Hev by done. unfold expr_truth_value.
  by eapply truth_of_ev.
Qed.

(** Expanding an expression that was expanded changes neither the tree nor the cost. *)
Theorem expand_expression_idempotent (e : expr) : expand_expression (expand_expression e).2 = expand_expression e.
Proof. apply expand_again. Qed.

End theorems.

(** ** Witnesses *)

Definition variable : expr := LEAF 0 uint_type.
Definition number (v : Z) : expr := VALUE v 0 uint_type.

(** y ? y + 2 * 3 : y - 1, with a call before it. *)
Definition sample : expr :=
  COMMA (LEAF 7 uint_type)
    (CONDITIONAL false variable (Some (BINOP OP_ADD variable (BINOP OP_MUL (number 2) (number 3) uint_type) uint_type))
      (BINOP OP_SUB variable (number 1) uint_type) uint_type)
    uint_type.

Ltac well_typed :=
  simpl; repeat split; try done; try (apply int_wf); try (apply uint_wf); simpl; try lia; try discriminate.

Lemma sample_wt : wt sample.
Proof. well_typed. Qed.

Lemma expand_expression_equiv_witness :
  (expand_expression sample).2 <> sample /\ ev (expand_expression sample).2 5 = Some (18, 12).
Proof.
  split; [discriminate|].
  destruct (expand_expression_equiv sample sample_wt eq_refl eq_refl) as [_ H]. rewrite H. reflexivity.
Defined.




(** f(), y && 0 || 4 *)
Definition truth_sample : expr :=
  COMMA (LEAF 7 uint_type) (LOGICAL false (LOGICAL true (number 0) variable uint_type) (number 4) uint_type) uint_type.

Lemma truth_sample_wt : wt truth_sample.
Proof. well_typed. Qed.

Lemma expr_truth_value_sound_witness :
  expr_truth_value truth_sample = 1 /\
  (expr_truth_value truth_sample = -1 \/ expr_truth_value truth_sample = Z.b2z (truth 1)).
Proof.
  split; [reflexivity|]. exact (expr_truth_value_sound truth_sample 3 1 10 truth_sample_wt eq_refl eq_refl eq_refl).
Defined.

(** ** A guard that does not stay one *)

(** y ? 1 / y : 0 *)
Definition guarded_division : expr :=
  CONDITIONAL false variable (Some (BINOP OP_DIV (number 1) variable uint_type)) (number 0) uint_type.

(** expand_conditional() makes a select of y ? 1 / y : 0: a division costs 1, as little as an
    addition, so that the branches are cheaper than a select, which evaluates both. The expression is 0 where y
    is 0; what it becomes has no value there.  expand_logical() does the same to y && 1 / y. *)
Theorem select_divides :
  wt guarded_division /\ source guarded_division = true /\
  (expand_expression guarded_division).2 =
    CONDITIONAL true variable (Some (BINOP OP_DIV (number 1) variable uint_type)) (number 0) uint_type /\
  ev guarded_division 0 = Some (0, 0) /\
  ev (expand_expression guarded_division).2 0 = None /\
  ev (LOGICAL true variable (BINOP OP_DIV (number 1) variable uint_type) int_type) 0 = Some (0, 0) /\
  ev (expand_expression (LOGICAL true variable (BINOP OP_DIV (number 1) variable uint_type) int_type)).2 0 = None.
Proof. split; [well_typed|]. repeat split; reflexivity. Qed.
