(* ===== verification/Simplify.v ===== *)
(** * Simplification of instructions, simplify.c

    The linearizer's instructions form a graph: a register is the result of one
    instruction, whose operands are pseudos.  simplify_instruction() looks at an
    instruction and at the definitions of its operands and rewrites both in place.
    Here the graph is a finite map from the numbers of registers to the instructions that
    define them; a function of the C code takes the graph and returns the new one with
    the flags REPEAT_*.

    The list of the users of a pseudo is what it is in C at all times: the operands of
    instructions that hold it.  Instructions that simplification of values does not look into
    (loads, stores, calls, phi nodes, branches) are [OP_OTHER]; they use pseudos, and the
    argument tells if they have effects and cannot be killed.  src3, itype and orig_type share
    their memory and are one field.  Floating point, memory operations, phi nodes and jumps
    are not modelled; warnings are left out. *)
From stdpp Require Import base option gmap list.
From S2P Require Import Prelude Bits.
#[local] Open Scope Z_scope.
#[local] Set Warnings "-register-all".

(** ** Pseudos, opcodes, instructions *)

Inductive pseudo : Set :=
  | VOID
  | UNDEF (id : Z)
  | PHI (nr : Z)
  | REG (nr : Z)
  | ARG (nr : Z)
  | SYM (sym : Z)
  | VAL (value : Z).

#[export] Instance pseudo_eq_dec : EqDecision pseudo.
Proof. solve_decision. Defined.

(** enum pseudo_type *)
Definition pseudo_type (p : pseudo) : Z :=
  match p with
  | VOID => 0 | UNDEF _ => 1 | PHI _ => 2 | REG _ => 3 | ARG _ => 4 | SYM _ => 5 | VAL _ => 6
  end.

Definition constant (p : pseudo) : bool := match p with VAL _ => true | _ => false end.

(** The field value; other pseudos are not asked for it. *)
Definition value_of (p : pseudo) : Z := match p with VAL v => v | _ => 0 end.

Definition is_zero (p : pseudo) : bool := match p with VAL v => v =? 0 | _ => false end.
Definition is_positive (p : pseudo) (size : Z) : bool :=
  match p with VAL v => Z.land (u64 v) (sign_bit size) =? 0 | _ => false end.
Definition is_pow2 (p : pseudo) : bool := match p with VAL v => is_power_of_2 v | _ => false end.
Definition is_reg (p : pseudo) : bool := match p with REG _ => true | _ => false end.
Definition peq (p q : pseudo) : bool := bool_decide (p = q).

(** Pseudos of constants are shared, so that equal values are equal pointers. *)
Definition value_pseudo (val : Z) : pseudo := VAL (s64 val).

Inductive opcode : Set :=
  | OP_BADOP
  | OP_ADD | OP_MUL | OP_SUB | OP_DIVU | OP_DIVS | OP_MODU | OP_MODS | OP_LSR | OP_ASR | OP_SHL
  | OP_AND | OP_OR | OP_XOR
  | OP_SET_EQ | OP_SET_LT | OP_SET_LE | OP_SET_GE | OP_SET_GT
  | OP_SET_B | OP_SET_BE | OP_SET_AE | OP_SET_A | OP_SET_NE
  | OP_NOT | OP_NEG | OP_TRUNC | OP_ZEXT | OP_SEXT | OP_UTPTR | OP_PTRTU | OP_SYMADDR
  | OP_SEL
  | OP_OTHER (effects : bool).

#[export] Instance opcode_eq_dec : EqDecision opcode.
Proof. solve_decision. Defined.

Definition oeq (a b : opcode) : bool := bool_decide (a = b).

(** *** opcode_table *)

Definition opcode_negate (op : opcode) : opcode :=
  match op with
  | OP_SET_EQ => OP_SET_NE | OP_SET_NE => OP_SET_EQ
  | OP_SET_LT => OP_SET_GE | OP_SET_LE => OP_SET_GT | OP_SET_GE => OP_SET_LT | OP_SET_GT => OP_SET_LE
  | OP_SET_B => OP_SET_AE | OP_SET_BE => OP_SET_A | OP_SET_AE => OP_SET_B | OP_SET_A => OP_SET_BE
  | _ => OP_BADOP
  end.

Definition opcode_swap (op : opcode) : opcode :=
  match op with
  | OP_SET_EQ => OP_SET_EQ | OP_SET_NE => OP_SET_NE
  | OP_SET_LT => OP_SET_GT | OP_SET_LE => OP_SET_GE | OP_SET_GE => OP_SET_LE | OP_SET_GT => OP_SET_LT
  | OP_SET_B => OP_SET_A | OP_SET_BE => OP_SET_AE | OP_SET_AE => OP_SET_BE | OP_SET_A => OP_SET_B
  | _ => OP_BADOP
  end.

(** The field sign, where OPF_SIGNED is set. *)
Definition opcode_unsigned (op : opcode) : opcode :=
  match op with
  | OP_SET_LT => OP_SET_B | OP_SET_LE => OP_SET_BE | OP_SET_GE => OP_SET_AE | OP_SET_GT => OP_SET_A
  | op => op
  end.

Definition OPF_COMPARE (op : opcode) : bool :=
  match op with
  | OP_SET_EQ | OP_SET_LT | OP_SET_LE | OP_SET_GE | OP_SET_GT
  | OP_SET_B | OP_SET_BE | OP_SET_AE | OP_SET_A | OP_SET_NE => true
  | _ => false
  end.

Definition OPF_BINOP (op : opcode) : bool :=
  match op with
  | OP_ADD | OP_MUL | OP_SUB | OP_DIVU | OP_DIVS | OP_MODU | OP_MODS | OP_LSR | OP_ASR | OP_SHL
  | OP_AND | OP_OR | OP_XOR => true
  | op => OPF_COMPARE op
  end.

Definition OPF_ASSOC (op : opcode) : bool :=
  match op with OP_ADD | OP_MUL | OP_AND | OP_OR | OP_XOR => true | _ => false end.

Definition OPF_COMMU (op : opcode) : bool :=
  match op with OP_SET_EQ | OP_SET_NE => true | op => OPF_ASSOC op end.

Definition OPF_UNOP (op : opcode) : bool := match op with OP_NOT | OP_NEG => true | _ => false end.

(** The number of operands in src1, src2 and src3. *)
Definition arity (op : opcode) : Z :=
  match op with
  | OP_BADOP | OP_OTHER _ => 0
  | OP_NOT | OP_NEG | OP_TRUNC | OP_ZEXT | OP_SEXT | OP_UTPTR | OP_PTRTU | OP_SYMADDR => 1
  | OP_SEL => 3
  | _ => 2
  end.

(** The memory of src3, itype and orig_type; of a type only the size is read. *)
Inductive slot : Set := Src3 (p : pseudo) | Typ (bit_size : Z).

Record insn : Set := Insn {
  op : opcode;
  tainted : bool;
  size : Z;
  bb : option Z;          (* NULL if it was killed *)
  src1 : pseudo;
  src2 : pseudo;
  u3 : slot;
  args : list pseudo      (* the operands of OP_OTHER *)
}.

Definition src3 (x : insn) : pseudo := match u3 x with Src3 p => p | Typ _ => VOID end.
Definition itype (x : insn) : Z := match u3 x with Typ n => n | Src3 _ => 0 end.
Definition orig_type (x : insn) : Z := itype x.

Definition set_op (o : opcode) (x : insn) : insn := Insn o (tainted x) (size x) (bb x) (src1 x) (src2 x) (u3 x) (args x).
Definition set_tainted (x : insn) : insn := Insn (op x) true (size x) (bb x) (src1 x) (src2 x) (u3 x) (args x).
Definition set_size (n : Z) (x : insn) : insn := Insn (op x) (tainted x) n (bb x) (src1 x) (src2 x) (u3 x) (args x).
Definition set_bb (b : option Z) (x : insn) : insn := Insn (op x) (tainted x) (size x) b (src1 x) (src2 x) (u3 x) (args x).
Definition set_src1 (p : pseudo) (x : insn) : insn := Insn (op x) (tainted x) (size x) (bb x) p (src2 x) (u3 x) (args x).
Definition set_src2 (p : pseudo) (x : insn) : insn := Insn (op x) (tainted x) (size x) (bb x) (src1 x) p (u3 x) (args x).
Definition set_src3 (p : pseudo) (x : insn) : insn := Insn (op x) (tainted x) (size x) (bb x) (src1 x) (src2 x) (Src3 p) (args x).
Definition set_itype (n : Z) (x : insn) : insn := Insn (op x) (tainted x) (size x) (bb x) (src1 x) (src2 x) (Typ n) (args x).
Definition set_args (l : list pseudo) (x : insn) : insn := Insn (op x) (tainted x) (size x) (bb x) (src1 x) (src2 x) (u3 x) l.

(** The address of an operand. *)
Inductive place : Set := P1 | P2 | P3.

Definition get (pl : place) (x : insn) : pseudo := match pl with P1 => src1 x | P2 => src2 x | P3 => src3 x end.
Definition set (pl : place) (p : pseudo) (x : insn) : insn :=
  match pl with P1 => set_src1 p x | P2 => set_src2 p x | P3 => set_src3 p x end.

Definition operands (x : insn) : list pseudo :=
  match op x with
  | OP_OTHER _ => args x
  | o => if arity o =? 1 then [src1 x] else if arity o =? 2 then [src1 x; src2 x]
         else if arity o =? 3 then [src1 x; src2 x; src3 x] else []
  end.

(** ** The graph *)

Record dag : Type := Dag {
  insns : gmap Z insn;
  bbs : gmap Z (list Z);    (* bb->insns *)
  repeat_phase : Z
}.

Definition set_insns (m : gmap Z insn) (d : dag) : dag := Dag m (bbs d) (repeat_phase d).
Definition modify (i : Z) (f : insn -> insn) (d : dag) : dag := set_insns (alter f i (insns d)) d.
Definition set_repeat (z : Z) (d : dag) : dag := Dag (insns d) (bbs d) z.

Definition REPEAT_CSE : Z := 1.

Definition no_insn : insn := Insn (OP_OTHER true) false 0 None VOID VOID (Src3 VOID) [].
Definition insn_at (d : dag) (i : Z) : insn := default no_insn (insns d !! i).

(** DEF_OPCODE, with the number of the register and the defining instruction. *)
Definition def_of (d : dag) (p : pseudo) : option (Z * insn) :=
  match p with REG r => pair r <$> insns d !! r | _ => None end.
Definition def_opcode (d : dag) (p : pseudo) : opcode :=
  match def_of d p with Some (_, x) => op x | None => OP_BADOP end.

(** *** Users *)

Definition uses (p : pseudo) (x : insn) : nat := length (filter (fun q => q = p) (operands x)).
Definition nbr_users (d : dag) (p : pseudo) : nat := map_fold (fun _ x n => (uses p x + n)%nat) 0%nat (insns d).
Definition has_users (d : dag) (p : pseudo) : bool := negb (nbr_users d p =? 0)%nat.
Definition one_use (d : dag) (p : pseudo) : bool := (nbr_users d p <=? 1)%nat.

(** ** Killing *)

(** [kill] is kill_instruction(), which is called for the definitions of operands without other users. *)
Definition rem_usage (kill : Z -> dag -> Z * dag) (p : pseudo) (d : dag) : dag :=
  match p with REG r => if has_users d p then d else (kill r d).2 | _ => d end.

Definition kill_use (kill : Z -> dag -> Z * dag) (i : Z) (pl : place) (d : dag) : dag :=
  let p := get pl (insn_at d i) in rem_usage kill p (modify i (set pl VOID) d).

Definition kill_use_list (kill : Z -> dag -> Z * dag) (i : Z) (d : dag) : dag :=
  foldl (fun d k =>
    let p := default VOID (args (insn_at d i) !! k) in
    rem_usage kill p (modify i (fun x => set_args (<[k := VOID]> (args x)) x) d)) d (seq 0 (length (args (insn_at d i)))).

(** The operands, as the switch of kill_insn() goes through them. *)
Definition kill_operands (kill : Z -> dag -> Z * dag) (i : Z) (d : dag) : dag :=
  match op (insn_at d i) with
  | OP_OTHER _ => kill_use_list kill i d
  | OP_SEL => kill_use kill i P1 (kill_use kill i P2 (kill_use kill i P3 d))
  | o => if arity o =? 2 then kill_use kill i P1 (kill_use kill i P2 d)
         else if arity o =? 1 then kill_use kill i P1 d else d
  end.

(** kill_insn() without force; one unit of fuel for each nested call. *)
Fixpoint kill_insn (fuel : nat) (i : Z) (d : dag) : Z * dag :=
  match fuel with
  | O => (0, d)
  | S fuel =>
    let x := insn_at d i in
    match bb x with
    | None => (0, d)
    | Some _ =>
      if oeq (op x) (OP_OTHER true) then (0, d)
      else
        let d := modify i (set_bb None) (kill_operands (kill_insn fuel) i d) in
        let d := set_repeat (Z.lor (repeat_phase d) REPEAT_CSE) d in (repeat_phase d, d)
    end
  end.

(** Every nested call comes after an operand was cleared. *)
Definition kill_fuel (d : dag) : nat := S (map_fold (fun _ x n => (length (operands x) + n)%nat) 0%nat (insns d)).

Definition kill_instruction (i : Z) (d : dag) : Z * dag := kill_insn (kill_fuel d) i d.

Definition remove_usage (p : pseudo) (d : dag) : dag := rem_usage kill_instruction p d.

(** ** Replacing *)

Definition subst (p q : pseudo) (x : insn) : insn :=
  let f r := if peq r p then q else r in
  match op x with
  | OP_OTHER _ => set_args (f <$> args x) x
  | o => if arity o =? 1 then set_src1 (f (src1 x)) x
         else if arity o =? 2 then set_src2 (f (src2 x)) (set_src1 (f (src1 x)) x)
         else if arity o =? 3 then set_src3 (f (src3 x)) (set_src2 (f (src2 x)) (set_src1 (f (src1 x)) x)) else x
  end.

Definition convert_instruction_target (i : Z) (src : pseudo) (d : dag) : dag :=
  if peq (REG i) src then d else set_insns (subst (REG i) src <$> insns d) d.

Definition replace_with_pseudo (i : Z) (p : pseudo) (d : dag) : Z * dag :=
  kill_instruction i (convert_instruction_target i p d).

Definition replace_with_value (i : Z) (val : Z) (d : dag) : Z * dag := replace_with_pseudo i (value_pseudo val) d.

Definition replace_pseudo (i : Z) (pl : place) (new : pseudo) (d : dag) : Z * dag :=
  let old := get pl (insn_at d i) in (REPEAT_CSE, remove_usage old (modify i (set pl new) d)).

Definition replace_with_unop (i : Z) (o : opcode) (src : pseudo) (d : dag) : Z * dag :=
  let old2 := src2 (insn_at d i) in
  let '(_, d) := replace_pseudo i P1 src (modify i (set_op o) d) in
  (REPEAT_CSE, remove_usage old2 d).

Definition replace_binop_value (i : Z) (o : opcode) (val : Z) (d : dag) : Z * dag :=
  (REPEAT_CSE, modify i (fun x => set_src2 (value_pseudo val) (set_op o x)) d).

Definition replace_binop (i : Z) (o : opcode) (a b : pseudo) (d : dag) : Z * dag :=
  let olda := src1 (insn_at d i) in
  let oldb := src2 (insn_at d i) in
  (REPEAT_CSE, remove_usage oldb (remove_usage olda (modify i (fun x => set_src2 b (set_src1 a (set_op o x))) d))).

Definition replace_opcode (i : Z) (o : opcode) (d : dag) : Z * dag := (REPEAT_CSE, modify i (set_op o) d).

(** OUT(IN(a, b), c).  What is killed does not depend on the opcodes of the two instructions, which are
    set first here. *)
Definition replace_insn_pair (out : Z) (op_out : opcode) (inn : Z) (op_in : opcode) (a b c : pseudo) (d : dag) : Z * dag :=
  let old_a := src1 (insn_at d inn) in
  let old_b := src2 (insn_at d inn) in
  let old_1 := src1 (insn_at d out) in
  let old_2 := src2 (insn_at d out) in
  let d := modify inn (fun x => set_src2 b (set_src1 a (set_op op_in x))) d in
  let d := modify out (fun x => set_src2 c (set_src1 (REG inn) (set_op op_out x))) d in
  (REPEAT_CSE, remove_usage old_2 (remove_usage old_1 (remove_usage old_b (remove_usage old_a d)))).

Definition swap_insn (out inn : Z) (a b c : pseudo) (d : dag) : Z * dag :=
  replace_insn_pair out (op (insn_at d inn)) inn (op (insn_at d out)) a b c d.

(** OUT(SELECT(a, b, c), e); src3 of OUT is given up with its other operands. *)
Definition swap_select (out inn : Z) (a b c e : pseudo) (d : dag) : Z * dag :=
  let old_3 := src3 (insn_at d out) in
  let '(_, d) := swap_insn out inn a b e (modify out (set_src3 VOID) (modify inn (set_src3 c) d)) in
  (REPEAT_CSE, remove_usage old_3 d).

Definition switch_pseudo (i1 : Z) (pl1 : place) (i2 : Z) (pl2 : place) (d : dag) : Z * dag :=
  let p1 := get pl1 (insn_at d i1) in
  let p2 := get pl2 (insn_at d i2) in
  (REPEAT_CSE, remove_usage p2 (remove_usage p1 (modify i2 (set pl2 p1) (modify i1 (set pl1 p2) d)))).

(** ** Constants *)

(** Do two sizes give the same signed value? *)
Definition is_signed_constant (val osize nsize : Z) : bool := bits_extend val osize true =? bits_extend val nsize true.

Definition value_size (value : Z) : Z :=
  if Z.shiftr value 8 =? 0 then 8 else if Z.shiftr value 16 =? 0 then 16 else if Z.shiftr value 32 =? 0 then 32 else 64.

Definition operand_size (d : dag) (x : insn) (p : pseudo) : Z :=
  match p with
  | REG _ =>
    match def_of d p with
    | Some (_, y) => if oeq (op y) OP_ZEXT && (orig_type y <? size x) then orig_type y else size x
    | None => size x
    end
  | VAL v => Z.min (value_size v) (size x)
  | _ => size x
  end.

(** The result as a long long, or none if it is undefined. *)
Definition eval_op (o : opcode) (size : Z) (p1 p2 : pseudo) : option pseudo :=
  let mask := s64 (sign_bit size) in
  let bits := s64 (bits_mask size) in
  let extend v := if Z.land v mask =? 0 then v else Z.lor v (Z.lnot bits) in
  let left := extend (value_of p1) in
  let right := extend (value_of p2) in
  let ul := u64 (Z.land left bits) in
  let ur := u64 (Z.land right bits) in
  let overflow := (left =? mask) && (right =? -1) in
  res ← match o with
    | OP_NEG => Some (- left)
    | OP_NOT => Some (lnot64 ul)
    | OP_ADD => Some (left + right)
    | OP_SUB => Some (left - right)
    | OP_MUL => Some (ul * ur)
    | OP_DIVU => if ur =? 0 then None else Some (ul / ur)
    | OP_DIVS => if right =? 0 then None else if overflow then None else Some (Z.quot left right)
    | OP_MODU => if ur =? 0 then None else Some (ul mod ur)
    | OP_MODS => if right =? 0 then None else if overflow then None else Some (Z.rem left right)
    | OP_SHL => if size <=? ur then None else Some (Z.shiftl left right)
    | OP_LSR => if size <=? ur then None else Some (Z.shiftr ul ur)
    | OP_ASR => if size <=? ur then None else Some (Z.shiftr left right)
    | OP_AND => Some (Z.land left right)
    | OP_OR => Some (Z.lor left right)
    | OP_XOR => Some (Z.lxor left right)
    | OP_SET_EQ => Some (Z.b2z (left =? right))
    | OP_SET_NE => Some (Z.b2z (negb (left =? right)))
    | OP_SET_LE => Some (Z.b2z (left <=? right))
    | OP_SET_GE => Some (Z.b2z (right <=? left))
    | OP_SET_LT => Some (Z.b2z (left <? right))
    | OP_SET_GT => Some (Z.b2z (right <? left))
    | OP_SET_B => Some (Z.b2z (ul <? ur))
    | OP_SET_A => Some (Z.b2z (ur <? ul))
    | OP_SET_BE => Some (Z.b2z (ul <=? ur))
    | OP_SET_AE => Some (Z.b2z (ur <=? ul))
    | _ => None
    end;
  Some (value_pseudo (Z.land (s64 res) bits)).

Definition eval_unop (o : opcode) (size : Z) (p : pseudo) : option pseudo := eval_op o size p VOID.

(** The result where there is one: the callers ask for +, -, * and logical operators. *)
Definition evaluated (o : option pseudo) : pseudo := default VOID o.

Definition eval_insn (x : insn) : option pseudo :=
  let size := if OPF_COMPARE (op x) then itype x else size x in
  eval_op (op x) size (src1 x) (src2 x).

(** ** Masks

    The mask is an unsigned long long. *)

(** f, and g if f changed nothing. *)
Definition or_else (f g : dag -> Z * dag) (d : dag) : Z * dag :=
  let '(rc, d) := f d in if rc =? 0 then g d else (rc, d).

(** MASK(OR(AND(x, M'), b), M) *)
Definition simplify_mask_or_and (i : Z) (mask : Z) (ora orb : pseudo) (d : dag) : Z * dag :=
  match def_of d ora with
  | Some (j, and_) =>
    if negb (oeq (op and_) OP_AND) then (0, d)
    else if negb (constant (src2 and_)) then (0, d)
    else
      let omask := u64 (value_of (src2 and_)) in
      let nmask := Z.land omask mask in
      if nmask =? 0 then replace_pseudo i P1 orb d
      else if negb (one_use d (src1 (insn_at d i))) then (0, d)
      else if nmask =? mask then
        match def_of d (src1 (insn_at d i)) with
        | Some (k, or_) => replace_pseudo k (if peq ora (src1 or_) then P1 else P2) (src1 and_) d
        | None => (0, d)
        end
      else if negb (nmask =? omask) && one_use d ora then (REPEAT_CSE, modify j (set_src2 (value_pseudo nmask)) d)
      else (0, d)
  | None => (0, d)
  end.

(** MASK(OR(a, b), M); [k] is the instruction with the OR. *)
Definition simplify_mask_or (i : Z) (mask : Z) (k : Z) (d : dag) : Z * dag :=
  let or_ := insn_at d k in
  let p1 := src1 or_ in
  let p2 := src2 or_ in
  or_else (fun d => if is_reg p1 then simplify_mask_or_and i mask p1 p2 d else (0, d))
    (fun d =>
      match p2 with
      | REG _ => simplify_mask_or_and i mask p2 p1 d
      | VAL v =>
        let oval := u64 v in
        let nval := Z.land oval mask in
        if nval =? 0 then replace_pseudo i P1 p1 d
        else if nval =? mask then replace_pseudo i P1 (value_pseudo mask) d
        else if negb (nval =? oval) && one_use d (REG k) then replace_pseudo k P2 (value_pseudo nval) d
        else (0, d)
      | _ => (0, d)
      end) d.

(** MASK(SHIFT(OR(a, b), S), M) *)
Definition simplify_mask_shift_or (sh : Z) (k : Z) (mask : Z) (d : dag) : Z * dag :=
  let x := insn_at d sh in
  let smask := bits_mask (size x) in
  let shift := scast 32 (value_of (src2 x)) in
  let mask := if oeq (op x) OP_LSR then u64 (Z.shiftl mask shift) else Z.shiftr mask shift in
  simplify_mask_or sh (Z.land smask mask) k d.

Definition simplify_mask_shift (sh : Z) (mask : Z) (d : dag) : Z * dag :=
  let x := insn_at d sh in
  if negb (constant (src2 x)) || tainted x then (0, d)
  else
    match def_of d (src1 x) with
    | Some (k, inner) =>
      if oeq (op inner) OP_OR && one_use d (REG sh) then simplify_mask_shift_or sh k mask d else (0, d)
    | None => (0, d)
    end.

(** ** Shifts *)

(** sizeof(int) * 8 of the target. *)
Definition bits_in_int : Z := 32.

(** The count, or -1; the instruction is marked once. *)
Definition check_shift_count (i : Z) (uval : Z) (d : dag) : Z * dag :=
  let x := insn_at d i in
  if tainted x then (-1, d)
  else if u64 uval <? size x then (uval, d)
  else
    let d := modify i set_tainted d in
    let sval := sign_extend_safe (sign_extend_safe uval (size x)) bits_in_int in
    (-1, if sval <? 0 then modify i (set_src2 (value_pseudo sval)) d else d).

(** The labels at the end of simplify_shift(). *)
Definition shift_new_value (i : Z) (n value : Z) (y : insn) (d : dag) : Z * dag :=
  if value <? n then replace_pseudo i P1 (src1 y) (modify i (set_src2 (value_pseudo value)) d)
  else replace_with_value i 0 d.

Definition shift_replace_mask (i : Z) (mask : Z) (y : insn) (d : dag) : Z * dag :=
  replace_pseudo i P1 (src1 y) (modify i (fun x => set_src2 (value_pseudo mask) (set_op OP_AND x)) d).

(** The label case_shift_shift. *)
Definition shift_shift (i : Z) (n value : Z) (j : Z) (y : insn) (d : dag) : Z * dag :=
  if j =? i then (0, d)
  else
    match src2 y with
    | VAL v =>
      let nval := u64 v in
      if size (insn_at d i) <? nval then (0, d) else shift_new_value i n (value + nval) y d
    | _ => (0, d)
    end.

Definition simplify_asr (i : Z) (p : pseudo) (value : Z) (d : dag) : Z * dag :=
  let x := insn_at d i in
  let n := size x in
  if n <=? value then (0, d)
  else
    match def_of d p with
    | Some (j, y) =>
      match op y with
      | OP_LSR | OP_ASR =>
        if j =? i then (0, d)
        else
          match src2 y with
          | VAL v =>
            let nval := u64 v in
            if (n <? nval) || (nval =? 0) then (0, d)
            else
              let value := value + nval in
              if oeq (op y) OP_LSR then shift_new_value i n value y (modify i (set_op OP_LSR) d)
              else shift_new_value i n (if n <=? value then n - 1 else value) y d
          | _ => (0, d)
          end
      | OP_ZEXT => (REPEAT_CSE, modify i (set_op OP_LSR) d)
      | _ => (0, d)
      end
    | None => (0, d)
    end.

Definition simplify_lsr (i : Z) (p : pseudo) (value : Z) (d : dag) : Z * dag :=
  let x := insn_at d i in
  let n := operand_size d x p in
  if n <=? value then replace_with_value i 0 d
  else
    match def_of d p with
    | Some (j, y) =>
      match op y with
      | OP_AND =>
        if negb (constant (src2 y)) then (0, d)
        else
          let mask := u64 (Z.shiftl (bits_mask (size x - value)) value) in
          let omask := u64 (value_of (src2 y)) in
          let nmask := Z.land omask mask in
          if nmask =? 0 then replace_with_value i 0 d
          else if nmask =? mask then replace_pseudo i P1 (src1 y) d
          else if negb (one_use d p) then (0, d)
          else
            let d := modify j (fun y => set_src2 (src2 x) (set_op OP_LSR y)) d in
            (REPEAT_CSE, modify i (fun x => set_src2 (value_pseudo (Z.shiftr omask value)) (set_op OP_AND x)) d)
      | OP_LSR => shift_shift i n value j y d
      | OP_OR => simplify_mask_shift_or i j (bits_mask n) d
      | OP_SHL =>
        if negb (peq (src2 y) (src2 x)) then (0, d)
        else shift_replace_mask i (bits_mask (size x - value)) y d
      | _ => (0, d)
      end
    | None => (0, d)
    end.

Definition simplify_shl (i : Z) (p : pseudo) (value : Z) (d : dag) : Z * dag :=
  let x := insn_at d i in
  let n := size x in
  if n <=? value then replace_with_value i 0 d
  else
    match def_of d p with
    | Some (j, y) =>
      match op y with
      | OP_AND =>
        if negb (constant (src2 y)) then (0, d)
        else
          let mask := Z.shiftr (bits_mask n) value in
          let nmask := Z.land (u64 (value_of (src2 y))) mask in
          if nmask =? 0 then replace_with_value i 0 d
          else if nmask =? mask then replace_pseudo i P1 (src1 y) d
          else (0, d)
      | OP_LSR =>
        if negb (peq (src2 y) (src2 x)) then (0, d)
        else shift_replace_mask i (u64 (Z.shiftl (bits_mask (n - value)) value)) y d
      | OP_OR => simplify_mask_shift_or i j (bits_mask n) d
      | OP_SHL => shift_shift i n value j y d
      | _ => (0, d)
      end
    | None => (0, d)
    end.

Definition simplify_shift (i : Z) (p : pseudo) (value : Z) (d : dag) : Z * dag :=
  if value =? 0 then replace_with_pseudo i p d
  else
    let '(value, d) := check_shift_count i value d in
    if value <? 0 then (0, d)
    else
      match op (insn_at d i) with
      | OP_ASR => simplify_asr i p value d
      | OP_LSR => simplify_lsr i p value d
      | OP_SHL => simplify_shl i p value d
      | _ => (0, d)
      end.

Definition simplify_mul_div (i : Z) (value : Z) (d : dag) : Z * dag :=
  let x := insn_at d i in
  let sbit := s64 (sign_bit (size x)) in
  let bits := s64 (bits_mask (size x)) in
  let negative (d : dag) :=
    if Z.land value sbit =? 0 then (0, d)
    else if Z.lor value (Z.lnot bits) =? -1 then (REPEAT_CSE, modify i (set_op OP_NEG) d) else (0, d) in
  if value =? 1 then replace_with_pseudo i (src1 x) d
  else
    match op x with
    | OP_MUL => if value =? 0 then replace_with_pseudo i (src2 x) d else negative d
    | OP_DIVS => negative d
    | _ => (0, d)
    end.

(** ** Comparisons with constants *)

Definition simplify_seteq_setne (i : Z) (value : Z) (d : dag) : Z * dag :=
  let x := insn_at d i in
  let old := src1 x in
  if negb (value =? 0) && negb (value =? 1) then (0, d)
  else
    match def_of d old with
    | Some (j, y) =>
      let inverse := Bool.eqb (oeq (op x) OP_SET_NE) (negb (value =? 0)) in
      if negb inverse && (size y =? 1) && (size x =? 1) then replace_with_pseudo i old d
      else if OPF_COMPARE (op y) then
        let o := if inverse then opcode_negate (op y) else op y in
        let d := modify i (fun x => set_src2 (src2 y) (set_src1 (src1 y) (set_itype (itype y) (set_op o x)))) d in
        (REPEAT_CSE, remove_usage old d)
      else
        let extension (d : dag) := replace_pseudo i P1 (src1 y) (modify i (set_itype (orig_type y)) d) in
        match op y with
        | OP_AND =>
          if inverse || negb (size y =? size x) then (0, d)
          else match src2 y with
          | VAL v => if v =? 1 then replace_with_pseudo i old d else (0, d)
          | _ => (0, d)
          end
        | OP_SEXT => if negb (value =? 0) && (orig_type y =? 1) then (0, d) else extension d
        | OP_ZEXT => extension d
        | OP_TRUNC =>
          if negb (one_use d old) then (0, d)
          else (REPEAT_CSE, modify j (fun y =>
                  set_src2 (value_pseudo (bits_mask (size y))) (set_size (orig_type y) (set_op OP_AND y))) d)
        | _ => (0, d)
        end
    | None => (0, d)
    end.

(** The first switch of simplify_compare_constant(): a result that is returned, or the flags with which
    the second begins. *)
Definition compare_bounds (i : Z) (value : Z) (d : dag) : (Z * dag) + (Z * dag) :=
  let x := insn_at d i in
  let n := itype x in
  let bits := bits_mask n in
  let uval := u64 value in
  let sbit := sign_bit n in
  let smask := sign_mask n in
  let negative := negb (Z.land uval sbit =? 0) in
  match op x with
  | OP_SET_LT =>
    if value =? 0 then inr (0, d)
    else if uval =? sbit then inl (replace_with_value i 0 d)
    else if uval =? smask then inl (replace_opcode i OP_SET_NE d)
    else if uval =? u64 (sbit + 1) then inl (replace_binop_value i OP_SET_EQ sbit d)
    else if negb negative then inr (replace_binop_value i OP_SET_LE (Z.land (u64 (value - 1)) bits) d)
    else inr (0, d)
  | OP_SET_LE =>
    if value =? 0 then inr (0, d)
    else if uval =? smask then inl (replace_with_value i 1 d)
    else if uval =? sbit then inl (replace_opcode i OP_SET_EQ d)
    else if uval =? u64 (smask - 1) then inl (replace_binop_value i OP_SET_NE smask d)
    else if negative then inr (replace_binop_value i OP_SET_LT (Z.land (u64 (value + 1)) bits) d)
    else inr (0, d)
  | OP_SET_GE =>
    if value =? 0 then inr (0, d)
    else if uval =? sbit then inl (replace_with_value i 1 d)
    else if uval =? smask then inl (replace_opcode i OP_SET_EQ d)
    else if uval =? u64 (sbit + 1) then inl (replace_binop_value i OP_SET_NE sbit d)
    else if negb negative then inr (replace_binop_value i OP_SET_GT (Z.land (u64 (value - 1)) bits) d)
    else inr (0, d)
  | OP_SET_GT =>
    if value =? 0 then inr (0, d)
    else if uval =? smask then inl (replace_with_value i 0 d)
    else if uval =? sbit then inl (replace_opcode i OP_SET_NE d)
    else if uval =? u64 (smask - 1) then inl (replace_binop_value i OP_SET_EQ smask d)
    else if negative then inr (replace_binop_value i OP_SET_GE (Z.land (u64 (value + 1)) bits) d)
    else inr (0, d)
  | OP_SET_B =>
    if value =? 0 then inl (replace_with_value i 0 d)
    else if value =? 1 then inl (replace_binop_value i OP_SET_EQ 0 d)
    else if uval =? bits then inl (replace_binop_value i OP_SET_NE value d)
    else inr (replace_binop_value i OP_SET_BE (Z.land (u64 (value - 1)) bits) d)
  | OP_SET_AE =>
    if value =? 0 then inl (replace_with_value i 1 d)
    else if value =? 1 then inl (replace_binop_value i OP_SET_NE 0 d)
    else if uval =? bits then inl (replace_binop_value i OP_SET_EQ value d)
    else inr (replace_binop_value i OP_SET_A (Z.land (u64 (value - 1)) bits) d)
  | OP_SET_BE =>
    if value =? 0 then inl (replace_opcode i OP_SET_EQ d)
    else if uval =? bits then inl (replace_with_value i 1 d)
    else if uval =? bits - 1 then inl (replace_binop_value i OP_SET_NE bits d)
    else if uval =? Z.shiftr bits 1 then inr (replace_binop_value i OP_SET_GE 0 d)
    else inr (0, d)
  | OP_SET_A =>
    if value =? 0 then inl (replace_opcode i OP_SET_NE d)
    else if uval =? bits then inl (replace_with_value i 0 d)
    else if uval =? bits - 1 then inl (replace_binop_value i OP_SET_EQ bits d)
    else if uval =? Z.shiftr bits 1 then inr (replace_binop_value i OP_SET_LT 0 d)
    else inr (0, d)
  | _ => inr (0, d)
  end.

(** The cases of the second switch, for the definition [y] of the left side. *)
Definition compare_and (i : Z) (y : insn) (value : Z) (changed : Z) (d : dag) : Z * dag :=
  let bits := u64 (value_of (src2 y)) in
  let uval := u64 value in
  let is_signed := negb (Z.land bits (sign_bit (size y)) =? 0) in
  let sval := sign_extend value (size y) in
  match op (insn_at d i) with
  | OP_SET_EQ =>
    if negb (Z.land uval bits =? uval) then replace_with_value i 0 d
    else if (uval =? bits) && is_power_of_2 (s64 bits) then replace_binop_value i OP_SET_NE 0 d
    else (changed, d)
  | OP_SET_NE =>
    if negb (Z.land uval bits =? uval) then replace_with_value i 1 d
    else if (uval =? bits) && is_power_of_2 (s64 bits) then replace_binop_value i OP_SET_EQ 0 d
    else (changed, d)
  | OP_SET_LE | OP_SET_LT =>
    let sval := if oeq (op (insn_at d i)) OP_SET_LT then s64 (sval - 1) else sval in
    if is_signed then (changed, d)
    else if sval <? 0 then replace_with_value i 0 d
    else if s64 bits <=? sval then replace_with_value i 1 d
    else if sval =? 0 then replace_opcode i OP_SET_EQ d
    else (changed, d)
  | OP_SET_GT | OP_SET_GE =>
    let sval := if oeq (op (insn_at d i)) OP_SET_GE then s64 (sval - 1) else sval in
    if is_signed then (changed, d)
    else if sval <? 0 then replace_with_value i 1 d
    else if s64 bits <=? sval then replace_with_value i 0 d
    else if sval =? 0 then replace_opcode i OP_SET_NE d
    else (changed, d)
  | OP_SET_B => if bits <? uval then replace_with_value i 1 d else (changed, d)
  | OP_SET_BE => if bits <=? uval then replace_with_value i 1 d else (changed, d)
  | OP_SET_AE => if bits <? uval then replace_with_value i 0 d else (changed, d)
  | OP_SET_A => if bits <=? uval then replace_with_value i 0 d else (changed, d)
  | _ => (changed, d)
  end.

Definition compare_or (i : Z) (y : insn) (value : Z) (changed : Z) (d : dag) : Z * dag :=
  let bits := u64 (value_of (src2 y)) in
  let uval := u64 value in
  let is_signed := negb (Z.land bits (sign_bit (size y)) =? 0) in
  match op (insn_at d i) with
  | OP_SET_EQ => if negb (Z.land uval bits =? bits) then replace_with_value i 0 d else (changed, d)
  | OP_SET_NE => if negb (Z.land uval bits =? bits) then replace_with_value i 1 d else (changed, d)
  | OP_SET_B => if uval <=? bits then replace_with_value i 0 d else (changed, d)
  | OP_SET_BE => if uval <? bits then replace_with_value i 0 d else (changed, d)
  | OP_SET_AE => if uval <? bits then replace_with_value i 1 d else (changed, d)
  | OP_SET_A => if uval <=? bits then replace_with_value i 1 d else (changed, d)
  | OP_SET_LT =>
    if is_signed && (-1 <=? sign_extend (s64 (value - 1)) (size y)) then replace_with_value i 1 d else (changed, d)
  | OP_SET_LE => if is_signed && (-1 <=? sign_extend value (size y)) then replace_with_value i 1 d else (changed, d)
  | OP_SET_GE =>
    if is_signed && (-1 <=? sign_extend (s64 (value - 1)) (size y)) then replace_with_value i 0 d else (changed, d)
  | OP_SET_GT => if is_signed && (-1 <=? sign_extend value (size y)) then replace_with_value i 0 d else (changed, d)
  | _ => (changed, d)
  end.

(** [n] is the size of the operands before a change of itype. *)
Definition compare_sext (i : Z) (n : Z) (y : insn) (value : Z) (changed : Z) (d : dag) : Z * dag :=
  let osize := orig_type y in
  let uval := u64 value in
  if is_signed_constant value osize n then
    replace_pseudo i P1 (src1 y) (modify i (fun x => set_src2 (value_pseudo (zero_extend value osize)) (set_itype osize x)) d)
  else
    match op (insn_at d i) with
    | OP_SET_BE =>
      if sign_bit osize <=? uval
      then replace_pseudo i P1 (src1 y) (replace_binop_value i OP_SET_GE 0 (modify i (set_itype osize) d)).2
      else (changed, d)
    | OP_SET_A =>
      if sign_bit osize <=? uval
      then replace_pseudo i P1 (src1 y) (replace_binop_value i OP_SET_LT 0 (modify i (set_itype osize) d)).2
      else (changed, d)
    | OP_SET_LT | OP_SET_LE => replace_with_value i (Z.b2z (uval <? sign_bit n)) d
    | OP_SET_GE | OP_SET_GT => replace_with_value i (Z.b2z (negb (uval <? sign_bit n))) d
    | _ => (changed, d)
    end.

Definition compare_trunc (i : Z) (n : Z) (j : Z) (y : insn) (changed : Z) (d : dag) : Z * dag :=
  let osize := orig_type y in
  match op (insn_at d i) with
  | OP_SET_EQ | OP_SET_NE =>
    if one_use d (REG j) then
      let d := modify i (set_itype osize) d in
      replace_opcode j OP_AND (modify j (fun y => set_src2 (value_pseudo (bits_mask n)) (set_size osize y)) d)
    else (changed, d)
  | _ => (changed, d)
  end.

Definition compare_zext (i : Z) (n : Z) (y : insn) (value : Z) (changed : Z) (d : dag) : Z * dag :=
  let osize := orig_type y in
  let bits := bits_mask osize in
  if u64 value <=? bits then
    replace_pseudo i P1 (src1 y) (modify i (fun x => set_itype osize (set_op (opcode_unsigned (op x)) x)) d)
  else
    let above := s64 bits <? sign_extend value n in
    match op (insn_at d i) with
    | OP_SET_LT | OP_SET_LE => replace_with_value i (Z.b2z above) d
    | OP_SET_GE | OP_SET_GT => replace_with_value i (Z.b2z (negb above)) d
    | OP_SET_B | OP_SET_BE => replace_with_value i 1 d
    | OP_SET_AE | OP_SET_A => replace_with_value i 0 d
    | _ => (changed, d)
    end.

Definition simplify_compare_constant (i : Z) (value : Z) (d : dag) : Z * dag :=
  let n := itype (insn_at d i) in
  match compare_bounds i value d with
  | inl r => r
  | inr (changed, d) =>
    let x := insn_at d i in
    let value := value_of (src2 x) in
    match def_of d (src1 x) with
    | Some (j, y) =>
      match op y with
      | OP_AND => if constant (src2 y) then compare_and i y value changed d else (changed, d)
      | OP_OR => if constant (src2 y) then compare_or i y value changed d else (changed, d)
      | OP_SEXT => compare_sext i n y value changed d
      | OP_TRUNC => compare_trunc i n j y changed d
      | OP_ZEXT => compare_zext i n y value changed d
      | _ => (changed, d)
      end
    | None => (changed, d)
    end
  end.

(** ** One constant operand *)

Definition simplify_constant_mask (i : Z) (mask : Z) (d : dag) : Z * dag :=
  let x := insn_at d i in
  let old := src1 x in
  let oldsize (osize : Z) :=
    let omask := u64 (Z.shiftl 1 osize - 1) in
    let nmask := Z.land mask omask in
    if nmask =? omask then replace_with_pseudo i old d
    else if negb (nmask =? mask) then (REPEAT_CSE, modify i (set_src2 (value_pseudo nmask)) d)
    else (0, d) in
  match def_of d old with
  | Some (j, y) =>
    if OPF_COMPARE (op y) then oldsize 1
    else
      match op y with
      | OP_OR => simplify_mask_or i mask j d
      | OP_LSR | OP_SHL => simplify_mask_shift j mask d
      | OP_ZEXT => oldsize (orig_type y)
      | _ => (0, d)
      end
  | None => (0, d)
  end.

(** (C - y) + D *)
Definition simplify_const_rightadd (y : insn) (i : Z) (d : dag) : Z * dag :=
  let x := insn_at d i in
  match op y with
  | OP_SUB =>
    if constant (src1 y) then
      let val := evaluated (eval_op OP_ADD (size x) (src1 y) (src2 x)) in
      replace_pseudo i P1 val (modify i (fun x => set_src2 (src2 y) (set_op OP_SUB x)) d)
    else (0, d)
  | _ => (0, d)
  end.

(** The case OP_ADD, which OP_SUB falls into. *)
Definition constant_rightadd (i : Z) (value : Z) (changed : Z) (d : dag) : Z * dag :=
  if value =? 0 then replace_with_pseudo i (src1 (insn_at d i)) d
  else
    match def_of d (src1 (insn_at d i)) with
    | Some (_, y) => let '(rc, d) := simplify_const_rightadd y i d in (Z.lor changed rc, d)
    | None => (changed, d)
    end.

Definition simplify_constant_rightside (i : Z) (d : dag) : Z * dag :=
  let x := insn_at d i in
  let value := value_of (src2 x) in
  let sbit := s64 (sign_bit (size x)) in
  let bits := s64 (bits_mask (size x)) in
  let all_ones := Z.land value bits =? bits in
  let neutral_zero (d : dag) := if value =? 0 then replace_with_pseudo i (src1 x) d else (0, d) in
  match op x with
  | OP_OR => if all_ones then replace_with_pseudo i (src2 x) d else neutral_zero d
  | OP_XOR => if all_ones then (REPEAT_CSE, modify i (set_op OP_NOT) d) else neutral_zero d
  | OP_SUB =>
    constant_rightadd i value REPEAT_CSE (modify i (fun x => set_src2 (evaluated (eval_unop OP_NEG (size x) (src2 x))) (set_op OP_ADD x)) d)
  | OP_ADD => constant_rightadd i value 0 d
  | OP_ASR | OP_SHL | OP_LSR => simplify_shift i (src1 x) value d
  | OP_MODU | OP_MODS => if value =? 1 then replace_with_value i 0 d else (0, d)
  | OP_DIVU | OP_DIVS | OP_MUL => simplify_mul_div i value d
  | OP_AND =>
    if value =? 0 then replace_with_pseudo i (src2 x) d
    else if all_ones then replace_with_pseudo i (src1 x) d
    else simplify_constant_mask i (u64 value) d
  | OP_SET_NE | OP_SET_EQ => or_else (simplify_seteq_setne i value) (simplify_compare_constant i value) d
  | OP_SET_LT | OP_SET_LE | OP_SET_GE | OP_SET_GT | OP_SET_B | OP_SET_BE | OP_SET_AE | OP_SET_A =>
    simplify_compare_constant i value d
  | _ => (0, d)
  end.

(** C - (y + D), C - (D - z) *)
Definition simplify_const_leftsub (i : Z) (y : insn) (d : dag) : Z * dag :=
  let x := insn_at d i in
  match op y with
  | OP_ADD =>
    if constant (src2 y) then
      replace_pseudo i P2 (src1 y) (modify i (set_src1 (evaluated (eval_op OP_SUB (size x) (src1 x) (src2 y)))) d)
    else (0, d)
  | OP_SUB =>
    if constant (src1 y) then
      let val := evaluated (eval_op OP_SUB (size x) (src1 x) (src1 y)) in
      replace_pseudo i P2 val (modify i (fun x => set_src1 (src2 y) (set_op OP_ADD x)) d)
    else (0, d)
  | _ => (0, d)
  end.

Definition simplify_constant_leftside (i : Z) (d : dag) : Z * dag :=
  let x := insn_at d i in
  let value := value_of (src1 x) in
  match op x with
  | OP_ADD | OP_OR | OP_XOR => if value =? 0 then replace_with_pseudo i (src2 x) d else (0, d)
  | OP_SHL | OP_LSR | OP_ASR | OP_AND | OP_MUL => if value =? 0 then replace_with_pseudo i (src1 x) d else (0, d)
  | OP_SUB =>
    if value =? 0 then replace_with_unop i OP_NEG (src2 x) d
    else match def_of d (src2 x) with Some (_, y) => simplify_const_leftsub i y d | None => (0, d) end
  | _ => (0, d)
  end.

Definition simplify_constant_binop (i : Z) (d : dag) : Z * dag :=
  match eval_insn (insn_at d i) with Some res => replace_with_pseudo i res d | None => (0, d) end.

Definition simplify_binop_same_args (i : Z) (arg : pseudo) (d : dag) : Z * dag :=
  match op (insn_at d i) with
  | OP_SET_NE | OP_SET_LT | OP_SET_GT | OP_SET_B | OP_SET_A | OP_SUB | OP_XOR => replace_with_value i 0 d
  | OP_SET_EQ | OP_SET_LE | OP_SET_GE | OP_SET_BE | OP_SET_AE => replace_with_value i 1 d
  | OP_AND | OP_OR => replace_with_pseudo i arg d
  | _ => (0, d)
  end.

Definition simplify_binop (i : Z) (d : dag) : Z * dag :=
  let x := insn_at d i in
  if constant (src1 x) then if constant (src2 x) then simplify_constant_binop i d else simplify_constant_leftside i d
  else if constant (src2 x) then simplify_constant_rightside i d
  else if peq (src1 x) (src2 x) then simplify_binop_same_args i (src1 x) d
  else (0, d).

(** ** Canonical order *)

(** Symbols are ordered by their addresses. *)
Definition canonical_order (p1 p2 : pseudo) : bool :=
  if pseudo_type p1 <? pseudo_type p2 then true
  else if pseudo_type p2 <? pseudo_type p1 then false
  else
    match p1, p2 with
    | SYM a, SYM b | REG a, REG b | ARG a, ARG b => a <=? b
    | _, _ => true
    end.

Definition canonicalize_commutative (i : Z) (d : dag) : Z * dag :=
  let x := insn_at d i in
  if canonical_order (src1 x) (src2 x) then (0, d)
  else
    let '(_, d) := switch_pseudo i P1 i P2 d in
    let d := set_repeat (Z.lor (repeat_phase d) REPEAT_CSE) d in (repeat_phase d, d).

Definition canonicalize_compare (i : Z) (d : dag) : Z * dag :=
  let x := insn_at d i in
  if canonical_order (src1 x) (src2 x) then (0, d)
  else
    let '(_, d) := switch_pseudo i P1 i P2 d in
    let d := modify i (fun x => set_op (opcode_swap (op x)) x) d in
    let d := set_repeat (Z.lor (repeat_phase d) REPEAT_CSE) d in (repeat_phase d, d).

Definition simple_pseudo (p : pseudo) : bool := match p with VAL _ | SYM _ => true | _ => false end.

(** Is x before y in the block? *)
Fixpoint insn_before (l : list Z) (x y : Z) : bool :=
  match l with
  | [] => false
  | i :: l => if i =? x then true else if i =? y then false else insn_before l x y
  end.

(** The dominator tree, flowgraph.c, over the numbers of blocks. *)
Class Domtree : Type := { domtree_dominates : Z -> Z -> bool }.

Section simplify.
Context `{Dom : Domtree}.

(** May the instruction [dst] use the pseudo? *)
Definition can_move_to (src : pseudo) (dst : Z) (d : dag) : bool :=
  if negb (one_use d (REG dst)) then false
  else
    match src with
    | REG r =>
      if r =? dst then false
      else
        match bb (insn_at d r), bb (insn_at d dst) with
        | Some bbs_, Some bbd =>
          if bbs_ =? bbd then insn_before (default [] (bbs d !! bbs_)) r dst else domtree_dominates bbs_ bbd
        | _, _ => false
        end
    | _ => true
    end.

Definition simplify_associative_binop (i : Z) (d : dag) : Z * dag :=
  let x := insn_at d i in
  if negb (simple_pseudo (src2 x)) then (0, d)
  else
    match def_of d (src1 x) with
    | Some (j, y) =>
      if (j =? i) || negb (oeq (op y) (op x)) || negb (simple_pseudo (src2 y)) then (0, d)
      else if constant (src2 y) && constant (src2 x) then
        replace_pseudo i P1 (src1 y) (modify i (set_src2 (evaluated (eval_op (op x) (size x) (src2 x) (src2 y)))) d)
      else if negb (canonical_order (src1 y) (src2 x)) && can_move_to (src2 x) j d then switch_pseudo j P1 i P2 d
      else (0, d)
    | None => (0, d)
    end.

(** (x * z) + (y * z) and the like: [y] and [z] are the definitions of the two sides, [k] the instruction of [z]. *)
Definition factor (i : Z) (y : insn) (k : Z) (z : insn) (d : dag) : Z * dag :=
  if peq (src2 z) (src2 y) && can_move_to (src2 y) k d then swap_insn i k (src1 y) (src1 z) (src2 y) d
  else if peq (src1 z) (src1 y) && can_move_to (src1 y) k d then swap_insn i k (src2 y) (src2 z) (src1 y) d
  else if peq (src1 z) (src2 y) && can_move_to (src1 y) k d then swap_insn i k (src1 y) (src2 z) (src2 y) d
  else (0, d).

(** SHIFT(x, s) & SHIFT(y, s) and the like. *)
Definition factor_shift (i : Z) (y : insn) (p2 : pseudo) (d : dag) : Z * dag :=
  match def_of d p2 with
  | Some (k, z) =>
    if oeq (op z) (op y) && peq (src2 z) (src2 y) && can_move_to (src1 y) k d
    then swap_insn i k (src1 y) (src1 z) (src2 y) d else (0, d)
  | None => (0, d)
  end.

Definition simplify_add_one_side (i : Z) (pl1 pl2 : place) (d : dag) : Z * dag :=
  let x := insn_at d i in
  let p1 := get pl1 x in
  let p2 := get pl2 x in
  match def_of d p1 with
  | Some (j, y) =>
    match op y with
    | OP_MUL =>
      match def_of d p2 with
      | Some (k, z) => if oeq (op z) OP_MUL then factor i y k z d else (0, d)
      | None => (0, d)
      end
    | OP_NEG => replace_binop i OP_SUB p2 (src1 y) d
    | OP_SUB => if peq (src2 y) p2 then replace_with_pseudo i (src1 y) d else (0, d)
    | _ => (0, d)
    end
  | None => (0, d)
  end.

(** The value of || in C. *)
Definition either (f g : dag -> Z * dag) (d : dag) : Z * dag :=
  let '(rc, d) := f d in
  if rc =? 0 then let '(rc, d) := g d in (Z.b2z (negb (rc =? 0)), d) else (1, d).

Definition simplify_add (i : Z) : dag -> Z * dag := either (simplify_add_one_side i P1 P2) (simplify_add_one_side i P2 P1).

Definition simplify_sub (i : Z) (d : dag) : Z * dag :=
  let x := insn_at d i in
  let p1 := src1 x in
  let p2 := src2 x in
  or_else
    (fun d => match def_of d p1 with
      | Some (_, y) =>
        if oeq (op y) OP_ADD then
          if peq (src1 y) p2 then replace_with_pseudo i (src2 y) d
          else if peq (src2 y) p2 then replace_with_pseudo i (src1 y) d
          else (0, d)
        else (0, d)
      | None => (0, d)
      end)
    (fun d => match def_of d p2 with
      | Some (_, y) =>
        match op y with
        | OP_ADD =>
          if peq p1 (src1 y) then replace_with_unop i OP_NEG (src2 y) d
          else if peq p1 (src2 y) then replace_with_unop i OP_NEG (src1 y) d
          else (0, d)
        | OP_NEG => replace_pseudo i P2 (src1 y) (modify i (set_op OP_ADD) d)
        | _ => (0, d)
        end
      | None => (0, d)
      end) d.

Definition is_same_op (d : dag) (src : pseudo) (o : opcode) (osize : Z) : option pseudo :=
  match def_of d src with
  | Some (_, z) => if oeq (op z) o && (orig_type z =? osize) then Some (src1 z) else None
  | None => None
  end.

Definition simplify_compare (i : Z) (d : dag) : Z * dag :=
  let x := insn_at d i in
  match def_of d (src1 x) with
  | Some (_, y) =>
    match op y with
    | OP_SEXT | OP_ZEXT =>
      match is_same_op d (src2 x) (op y) (orig_type y) with
      | Some src =>
        let o := if oeq (op y) OP_ZEXT then opcode_unsigned (op x) else op x in
        replace_binop i o (src1 y) src (modify i (set_itype (orig_type y)) d)
      | None => (0, d)
      end
    | _ => (0, d)
    end
  | None => (0, d)
  end.

(** Are the comparisons negations of each other? *)
Definition negated_compare (d : dag) (y : insn) (p2 : pseudo) : bool :=
  match def_of d p2 with
  | Some (_, z) => oeq (op z) (opcode_negate (op y)) && peq (src1 y) (src1 z) && peq (src2 y) (src2 z)
  | None => false
  end.

(** The cases of |, ^ and & that are alike; [o] is the operator that is factored out. *)
Definition simplify_logical_factor (o : opcode) (i : Z) (y : insn) (p2 : pseudo) (d : dag) : Z * dag :=
  match def_of d p2 with
  | Some (k, z) => if oeq (op z) o then factor i y k z d else (0, d)
  | None => (0, d)
  end.

Definition simplify_and_one_side (i : Z) (pl1 pl2 : place) (d : dag) : Z * dag :=
  let x := insn_at d i in
  let p2 := get pl2 x in
  match def_of d (get pl1 x) with
  | Some (j, y) =>
    if OPF_COMPARE (op y) then
      if negated_compare d y p2 then replace_with_value i 0 d
      else if oeq (op y) OP_SET_GE && is_zero (src2 y) then
        match def_of d p2 with
        | Some (_, z) =>
          if oeq (op z) OP_SET_LE && is_positive (src2 z) (itype z)
          then replace_binop i OP_SET_BE (src1 z) (src2 z) (modify i (set_itype (itype z)) d) else (0, d)
        | None => (0, d)
        end
      else (0, d)
    else
      match op y with
      | OP_NOT => if peq (src1 y) p2 then replace_with_value i 0 d else (0, d)
      | OP_OR => simplify_logical_factor OP_OR i y p2 d
      | OP_SHL | OP_LSR | OP_ASR => factor_shift i y p2 d
      | _ => (0, d)
      end
  | None => (0, d)
  end.

Definition simplify_and (i : Z) : dag -> Z * dag := either (simplify_and_one_side i P1 P2) (simplify_and_one_side i P2 P1).

Definition simplify_ior_one_side (i : Z) (pl1 pl2 : place) (d : dag) : Z * dag :=
  let x := insn_at d i in
  let p2 := get pl2 x in
  match def_of d (get pl1 x) with
  | Some (j, y) =>
    if OPF_COMPARE (op y) then if negated_compare d y p2 then replace_with_value i 1 d else (0, d)
    else
      match op y with
      | OP_AND => simplify_logical_factor OP_AND i y p2 d
      | OP_NOT => if peq (src1 y) p2 then replace_with_value i (bits_mask (size x)) d else (0, d)
      | OP_SHL | OP_LSR | OP_ASR => factor_shift i y p2 d
      | _ => (0, d)
      end
  | None => (0, d)
  end.

Definition simplify_ior (i : Z) : dag -> Z * dag := either (simplify_ior_one_side i P1 P2) (simplify_ior_one_side i P2 P1).

Definition simplify_xor_one_side (i : Z) (pl1 pl2 : place) (d : dag) : Z * dag :=
  let x := insn_at d i in
  let p2 := get pl2 x in
  match def_of d (get pl1 x) with
  | Some (j, y) =>
    if OPF_COMPARE (op y) then if negated_compare d y p2 then replace_with_value i 1 d else (0, d)
    else
      match op y with
      | OP_AND => simplify_logical_factor OP_AND i y p2 d
      | OP_NOT => if peq (src1 y) p2 then replace_with_value i (bits_mask (size x)) d else (0, d)
      | OP_SHL | OP_LSR | OP_ASR => factor_shift i y p2 d
      | _ => (0, d)
      end
  | None => (0, d)
  end.

Definition simplify_xor (i : Z) : dag -> Z * dag := either (simplify_xor_one_side i P1 P2) (simplify_xor_one_side i P2 P1).

(** ** Unary operators and casts *)

Definition simplify_constant_unop (i : Z) (d : dag) : Z * dag :=
  let x := insn_at d i in
  let val := value_of (src1 x) in
  let replace (res : Z) := replace_with_value i (Z.land (s64 res) (s64 (bits_mask (size x)))) d in
  match op x with
  | OP_NOT => replace (Z.lnot val)
  | OP_NEG => replace (- val)
  | OP_SEXT =>
    let mask := s64 (sign_bit (orig_type x)) in
    replace (if Z.land val mask =? 0 then val else Z.lor val (Z.lnot (s64 (bits_mask (orig_type x)))))
  | OP_ZEXT | OP_TRUNC => replace val
  | _ => (0, d)
  end.

Definition simplify_unop (i : Z) (d : dag) : Z * dag :=
  let x := insn_at d i in
  let src := src1 x in
  if constant src then simplify_constant_unop i d
  else
    match def_of d src with
    | Some (_, y) =>
      match op x, op y with
      | OP_NOT, OP_ADD =>                 (* ~(x + C) --> ~C - x *)
        if constant (src2 y) then
          replace_pseudo i P1 (evaluated (eval_unop OP_NOT (size x) (src2 y)))
            (modify i (fun x => set_src2 (src1 y) (set_op OP_SUB x)) d)
        else (0, d)
      | OP_NOT, OP_NEG =>                 (* ~(-x) --> x - 1 *)
        replace_pseudo i P1 (src1 y) (modify i (fun x => set_src2 (value_pseudo 1) (set_op OP_SUB x)) d)
      | OP_NOT, OP_NOT => replace_with_pseudo i (src1 y) d
      | OP_NOT, OP_SUB =>                 (* ~(C - x) --> x + ~C *)
        if constant (src1 y) then
          replace_pseudo i P1 (src2 y)
            (modify i (fun x => set_src2 (evaluated (eval_unop OP_NOT (size x) (src1 y))) (set_op OP_ADD x)) d)
        else (0, d)
      | OP_NOT, OP_XOR =>                 (* ~(x ^ C) --> x ^ ~C *)
        if constant (src2 y) then
          replace_pseudo i P1 (src1 y)
            (modify i (fun x => set_src2 (evaluated (eval_unop OP_NOT (size x) (src2 y))) (set_op OP_XOR x)) d)
        else (0, d)
      | OP_NEG, OP_ADD =>                 (* -(x + C) --> -C - x *)
        if constant (src2 y) then
          replace_pseudo i P1 (evaluated (eval_unop OP_NEG (size x) (src2 y)))
            (modify i (fun x => set_src2 (src1 y) (set_op OP_SUB x)) d)
        else (0, d)
      | OP_NEG, OP_NEG => replace_with_pseudo i (src1 y) d
      | OP_NEG, OP_NOT =>                 (* -(~x) --> x + 1 *)
        replace_pseudo i P1 (src1 y) (modify i (fun x => set_src2 (value_pseudo 1) (set_op OP_ADD x)) d)
      | OP_NEG, OP_SUB =>                 (* -(x - y) --> y - x *)
        replace_pseudo i P1 (src2 y) (modify i (fun x => set_src2 (src1 y) (set_op OP_SUB x)) d)
      | _, _ => (0, d)
      end
    | None => (0, d)
    end.

(** simplify_cast(), by the opcode that defines the source. *)

Definition cast_and (i j : Z) (y : insn) (d : dag) : Z * dag :=
  let x := insn_at d i in
  let zext (val : Z) (d : dag) :=
    if negb (one_use d (src1 x)) then (0, d)
    else
      let d := modify j (fun y => set_size (size x) (set_itype (orig_type x) (set_op OP_ZEXT y))) d in
      (REPEAT_CSE, modify i (fun x => set_src2 (VAL val) (set_op OP_AND x)) d) in
  match src2 y with
  | VAL val =>
    match op x with
    | OP_TRUNC =>
      if negb (one_use d (src1 x)) then (0, d)
      else
        let d := modify j (fun y => set_size (size x) (set_itype (size y) (set_op OP_TRUNC y))) d in
        let mask := Z.land (u64 val) (u64 (Z.shiftl 1 (size x) - 1)) in
        (REPEAT_CSE, modify i (fun x => set_src2 (value_pseudo mask) (set_op OP_AND x)) d)
    | OP_SEXT => if negb (Z.land val (scast 32 (Z.shiftl 1 (size y - 1))) =? 0) then (0, d) else zext val d
    | OP_ZEXT => zext val d
    | _ => (0, d)
    end
  | _ => (0, d)
  end.

Definition cast_compare (i : Z) (y : insn) (d : dag) : Z * dag :=
  let x := insn_at d i in
  let replace :=
    replace_pseudo i P1 (src1 y) (modify i (fun x => set_src2 (src2 y) (set_itype (itype y) (set_op (op y) x))) d) in
  match op x with
  | OP_SEXT => if size x =? 1 then (0, d) else replace
  | OP_ZEXT | OP_TRUNC => replace
  | _ => (0, d)
  end.

Definition cast_not (i j : Z) (d : dag) : Z * dag :=
  let x := insn_at d i in
  match op x with
  | OP_TRUNC =>
    if one_use d (src1 x) then
      let d := modify i (set_op OP_NOT) d in
      (REPEAT_CSE, modify j (fun y => set_size (size x) (set_op OP_TRUNC (set_itype (size y) y))) d)
    else (0, d)
  | _ => (0, d)
  end.

Definition cast_trunc (i : Z) (y : insn) (d : dag) : Z * dag :=
  let x := insn_at d i in
  match op x with
  | OP_TRUNC => replace_pseudo i P1 (src1 y) (modify i (set_itype (orig_type y)) d)
  | OP_SEXT =>
    if negb (size x =? orig_type y) then (0, d)
    else
      match def_of d (src1 y) with
      | Some (_, z) =>
        if oeq (op z) OP_LSR && peq (src2 z) (value_pseudo (size x - size y))
        then replace_pseudo i P1 (src1 z) (modify i (fun x => set_src2 (src2 z) (set_op OP_ASR x)) d)
        else (0, d)
      | None => (0, d)
      end
  | OP_ZEXT =>
    if negb (size x =? orig_type y) then (0, d)
    else replace_pseudo i P1 (src1 y)
           (modify i (fun x => set_src2 (value_pseudo (u64 (Z.shiftl 1 (size y) - 1))) (set_op OP_AND x)) d)
  | _ => (0, d)
  end.

(** TRUNC of an extension. *)
Definition cast_trunc_ext (i : Z) (y : insn) (d : dag) : Z * dag :=
  let x := insn_at d i in
  let osize := orig_type y in
  if size x =? osize then replace_with_pseudo i (src1 y) d
  else
    replace_pseudo i P1 (src1 y)
      (modify i (fun x => set_itype osize (if osize <? size x then set_op (op y) x else x)) d).

Definition cast_zext (i : Z) (y : insn) (d : dag) : Z * dag :=
  match op (insn_at d i) with
  | OP_SEXT | OP_ZEXT => replace_pseudo i P1 (src1 y) (modify i (fun x => set_itype (orig_type y) (set_op OP_ZEXT x)) d)
  | OP_TRUNC => cast_trunc_ext i y d
  | _ => (0, d)
  end.

Definition cast_sext (i : Z) (y : insn) (d : dag) : Z * dag :=
  match op (insn_at d i) with
  | OP_TRUNC => cast_trunc_ext i y d
  | OP_SEXT => replace_pseudo i P1 (src1 y) (modify i (set_itype (orig_type y)) d)
  | _ => (0, d)
  end.

Definition simplify_cast (i : Z) (d : dag) : Z * dag :=
  let x := insn_at d i in
  if constant (src1 x) then simplify_constant_unop i d
  else
    match def_of d (src1 x) with
    | Some (j, y) =>
      if OPF_COMPARE (op y) then cast_compare i y d
      else
        match op y with
        | OP_AND => cast_and i j y d
        | OP_NOT => cast_not i j d
        | OP_OR => if oeq (op x) OP_TRUNC then simplify_mask_or i (bits_mask (size x)) j d else (0, d)
        | OP_LSR | OP_SHL => if oeq (op x) OP_TRUNC then simplify_mask_shift j (bits_mask (size x)) d else (0, d)
        | OP_TRUNC => cast_trunc i y d
        | OP_ZEXT => cast_zext i y d
        | OP_SEXT => cast_sext i y d
        | _ => (0, d)
        end
    | None => (0, d)
    end.

(** ** Select *)

Definition is_negate_of (d : dag) (p ref : pseudo) : bool :=
  match def_of d p with Some (_, y) => oeq (op y) OP_NEG && peq (src1 y) ref | None => false end.

(** SEL(x, OP(y, z), y) and SEL(x, y, OP(y, z)) *)
Definition select_binop (i : Z) (cond p1 p2 : pseudo) (d : dag) : Z * dag :=
  or_else
    (fun d => match def_of d p1 with
      | Some (j, y) =>
        match op y with
        | OP_ADD | OP_OR | OP_XOR =>
          if peq (src1 y) p2 && can_move_to cond j d then swap_select i j cond (src2 y) (value_pseudo 0) p2 d
          else if peq (src2 y) p2 && can_move_to cond j d then swap_select i j cond (src1 y) (value_pseudo 0) p2 d
          else (0, d)
        | _ => (0, d)
        end
      | None => (0, d)
      end)
    (fun d => match def_of d p2 with
      | Some (j, y) =>
        match op y with
        | OP_ADD | OP_OR | OP_XOR =>
          if peq (src1 y) p1 && can_move_to cond j d then swap_select i j cond (value_pseudo 0) (src2 y) p1 d
          else if peq (src2 y) p1 && can_move_to cond j d then swap_select i j cond (value_pseudo 0) (src1 y) p1 d
          else (0, d)
        | _ => (0, d)
        end
      | None => (0, d)
      end) d.

(** SEL(x & A, B, 0) *)
Definition select_and (i : Z) (y : insn) (cond p1 p2 : pseudo) (next : dag -> Z * dag) (d : dag) : Z * dag :=
  let x := insn_at d i in
  if is_pow2 (src2 y) && is_pow2 p1 && is_zero p2 && (size x =? size y) && one_use d cond then
    let s1 := log2_exact (value_of (src2 y)) in
    let s2 := log2_exact (value_of (src2 x)) in
    if s1 =? s2 then replace_with_pseudo i cond d
    else
      let o := if s1 <? s2 then OP_SHL else OP_LSR in
      let shift := if s1 <? s2 then s2 - s1 else s1 - s2 in
      (REPEAT_CSE, modify i (fun x => set_src2 (value_pseudo shift) (set_op o x)) d)
  else next d.

(** The first switch of simplify_select(), on the definition of the condition. *)
Definition select_cond (i j : Z) (y : insn) (cond p1 p2 : pseudo) (next : dag -> Z * dag) (d : dag) : Z * dag :=
  let same := (peq p1 (src1 y) && peq p2 (src2 y)) || (peq p2 (src1 y) && peq p1 (src2 y)) in
  match op y with
  | OP_SET_EQ => if same then replace_with_pseudo i p2 d else next d
  | OP_SET_NE => if same then replace_with_pseudo i p1 d else next d
  | OP_SET_LE | OP_SET_LT | OP_SET_BE | OP_SET_B =>
    if negb (one_use d cond) then next d
    else switch_pseudo i P2 i P3 (modify j (fun y => set_op (opcode_negate (op y)) y) d)
  | OP_SET_GT =>
    if one_use d cond && is_zero (src2 y) && is_negate_of d p2 p1 then replace_opcode j OP_SET_GE d else next d
  | OP_SEL =>
    if constant (src2 y) && constant (src3 y) then
      if is_zero (src3 y) then
        if peq p1 (src2 y) && peq p2 (src3 y) then replace_with_pseudo i cond d
        else replace_pseudo i P1 (src1 y) d
      else if is_zero (src2 y) then replace_pseudo i P1 (src1 y) (switch_pseudo i P2 i P3 d).2
      else replace_with_pseudo i p1 d
    else select_and i y cond p1 p2 next d
  | OP_AND => select_and i y cond p1 p2 next d
  | _ => next d
  end.

Definition simplify_select (i : Z) (d : dag) : Z * dag :=
  let x := insn_at d i in
  let cond := src1 x in
  let p1 := src2 x in
  let p2 := src3 x in
  let rest (d : dag) :=
    if peq cond p2 && is_zero p1 then replace_with_pseudo i p1 d
    else if peq cond p1 && is_zero p2 then replace_with_pseudo i cond d
    else
      match def_of d cond with
      | Some (j, y) => select_cond i j y cond p1 p2 (select_binop i cond p1 p2) d
      | None => select_binop i cond p1 p2 d
      end in
  if constant cond then replace_with_pseudo i (if value_of cond =? 0 then p2 else p1) d
  else if peq p1 p2 then replace_with_pseudo i p1 d
  else if constant p1 && constant p2 && (Z.lor (value_of p1) (value_of p2) =? 1) then
    let o := if value_of p1 =? 0 then OP_SET_EQ else OP_SET_NE in
    let zero := if value_of p1 =? 0 then p1 else p2 in
    (REPEAT_CSE, modify i (fun x => set_src2 zero (set_itype (size x) (set_op o x))) d)
  else rest d.

(** ** An instruction *)

Definition simplify_value (i : Z) (d : dag) : Z * dag :=
  match op (insn_at d i) with
  | OP_ADD => simplify_add i d
  | OP_SUB => simplify_sub i d
  | OP_AND => simplify_and i d
  | OP_OR => simplify_ior i d
  | OP_XOR => simplify_xor i d
  | OP_SET_EQ | OP_SET_LT | OP_SET_LE | OP_SET_GE | OP_SET_GT
  | OP_SET_B | OP_SET_BE | OP_SET_AE | OP_SET_A | OP_SET_NE => simplify_compare i d
  | OP_SYMADDR | OP_UTPTR | OP_PTRTU => replace_with_pseudo i (src1 (insn_at d i)) d
  | OP_SEXT | OP_ZEXT | OP_TRUNC => simplify_cast i d
  | OP_SEL => simplify_select i d
  | _ => (0, d)
  end.

(** The operands in their order, at the beginning of simplify_instruction(). *)
Definition canonicalize (i : Z) (d : dag) : dag :=
  let o := op (insn_at d i) in
  let d := if OPF_COMMU o then (canonicalize_commutative i d).2 else d in
  if OPF_COMPARE o then (canonicalize_compare i d).2 else d.

(** simplify_instruction(), for the opcodes that compute values. *)
Definition simplify_instruction (i : Z) (d : dag) : Z * dag :=
  let o := op (insn_at d i) in
  match o with
  | OP_OTHER _ | OP_BADOP => (0, d)
  | _ =>
    if negb (has_users d (REG i)) then kill_instruction i d
    else
      let d := canonicalize i d in
      or_else (fun d => if OPF_BINOP o then simplify_binop i d else (0, d))
        (or_else (fun d => if OPF_ASSOC o then simplify_associative_binop i d else (0, d))
          (or_else (fun d => if OPF_UNOP o then simplify_unop i d else (0, d))
            (simplify_value i))) d
  end.

End simplify.
