(* ===== verification/SimplifyFacts.v ===== *)
(** * Graphs of instructions: meaning, users, killing, rewriting

    A valuation gives a value to every register.  It satisfies a graph if every instruction
    that computes a value is applied to operands of its size, is defined, and has its
    result as the value of its register, and the results of the others fit their sizes.  A rewriting is [sound] if from every valuation
    that satisfies the old graph one can go to one that satisfies the new, in which the other
    instructions (loads, stores, calls, jumps) get the same operands and have the same
    results.  Here are the general ways to show this: replacing a register by an equal pseudo,
    changing an instruction, changing the instructions whose results are used once, and
    killing what is not used. *)
From stdpp Require Import base option gmap list.
From S2P Require Import Prelude Bits Simplify.
#[local] Open Scope Z_scope.
#[local] Set Warnings "-register-all".

(** ** Meaning *)

Definition within (n v : Z) : Prop := 0 <= v < 2 ^ n.
Definition good_size (n : Z) : Prop := 1 <= n <= 64.

Definition valuation : Type := Z -> Z.

(** The values of arguments, symbols and undefined pseudos. *)
Class Atoms : Type := { atom : pseudo -> Z }.

(** The result of an operator; division by zero, a quotient that does not fit and a shift by too much have none. *)
Definition sem (x : insn) (a b c : Z) : option Z :=
  let n := size x in
  let m := itype x in
  match op x with
  | OP_ADD => Some (ucast n (a + b))
  | OP_SUB => Some (ucast n (a - b))
  | OP_MUL => Some (ucast n (a * b))
  | OP_DIVU => if b =? 0 then None else Some (a / b)
  | OP_MODU => if b =? 0 then None else Some (a mod b)
  | OP_DIVS =>
    if (b =? 0) || ((scast n a =? - 2 ^ (n - 1)) && (scast n b =? -1)) then None
    else Some (ucast n (Z.quot (scast n a) (scast n b)))
  | OP_MODS =>
    if (b =? 0) || ((scast n a =? - 2 ^ (n - 1)) && (scast n b =? -1)) then None
    else Some (ucast n (Z.rem (scast n a) (scast n b)))
  | OP_SHL => if b <? n then Some (ucast n (a * 2 ^ b)) else None
  | OP_LSR => if b <? n then Some (a / 2 ^ b) else None
  | OP_ASR => if b <? n then Some (ucast n (scast n a / 2 ^ b)) else None
  | OP_AND => Some (Z.land a b)
  | OP_OR => Some (Z.lor a b)
  | OP_XOR => Some (Z.lxor a b)
  | OP_SET_EQ => Some (Z.b2z (a =? b))
  | OP_SET_NE => Some (Z.b2z (negb (a =? b)))
  | OP_SET_LT => Some (Z.b2z (scast m a <? scast m b))
  | OP_SET_LE => Some (Z.b2z (scast m a <=? scast m b))
  | OP_SET_GT => Some (Z.b2z (scast m b <? scast m a))
  | OP_SET_GE => Some (Z.b2z (scast m b <=? scast m a))
  | OP_SET_B => Some (Z.b2z (a <? b))
  | OP_SET_BE => Some (Z.b2z (a <=? b))
  | OP_SET_A => Some (Z.b2z (b <? a))
  | OP_SET_AE => Some (Z.b2z (b <=? a))
  | OP_NOT => Some (ucast n (Z.lnot a))
  | OP_NEG => Some (ucast n (- a))
  | OP_TRUNC => Some (ucast n a)
  | OP_ZEXT => Some a
  | OP_SEXT => Some (ucast n (scast m a))
  | OP_UTPTR | OP_PTRTU | OP_SYMADDR => Some a
  | OP_SEL => Some (if a =? 0 then c else b)
  | OP_BADOP | OP_OTHER _ => None
  end.

(** The sizes of the operands.  A comparison for equality with 0 may be of any size: a select on a condition of
    another type becomes one. *)
Definition typed (x : insn) (a b c : Z) : Prop :=
  let n := size x in
  let m := itype x in
  good_size n /\
  match op x with
  | OP_ADD | OP_SUB | OP_MUL | OP_DIVU | OP_DIVS | OP_MODU | OP_MODS | OP_AND | OP_OR | OP_XOR => within n a /\ within n b
  | OP_SHL | OP_LSR | OP_ASR => within n a /\ within 64 b
  | OP_SET_EQ | OP_SET_NE => good_size m /\ within 64 a /\ within 64 b /\ (src2 x = VAL 0 \/ within m a /\ within m b)
  | OP_SET_LT | OP_SET_LE | OP_SET_GT | OP_SET_GE | OP_SET_B | OP_SET_BE | OP_SET_A | OP_SET_AE =>
    good_size m /\ within m a /\ within m b
  | OP_NOT | OP_NEG | OP_UTPTR | OP_PTRTU | OP_SYMADDR => within n a
  | OP_TRUNC => good_size m /\ n < m /\ within m a
  | OP_ZEXT => good_size m /\ m < n /\ within m a
  | OP_SEXT => good_size m /\ m < n /\ within m a
  | OP_SEL => within 64 a /\ within n b /\ within n c
  | OP_BADOP | OP_OTHER _ => True
  end.

Definition is_value_op (o : opcode) : bool := match o with OP_BADOP | OP_OTHER _ => false | _ => true end.
Definition live (x : insn) : Prop := bb x <> None.

Section graphs.
Context `{At : Atoms}.

Definition val (r : valuation) (p : pseudo) : Z := match p with VAL v => u64 v | REG i => r i | p => atom p end.

Definition holds (r : valuation) (i : Z) (x : insn) : Prop :=
  typed x (val r (src1 x)) (val r (src2 x)) (val r (src3 x)) /\
  sem x (val r (src1 x)) (val r (src2 x)) (val r (src3 x)) = Some (r i).

(** The results of other instructions fit their size. *)
Definition fits (r : valuation) (i : Z) (x : insn) : Prop := good_size (size x) -> within (size x) (r i).

Definition sat (r : valuation) (d : dag) : Prop :=
  forall i x, insns d !! i = Some x -> live x -> if is_value_op (op x) then holds r i x else fits r i x.

(** ** Well-formed graphs: operands are live, values do not depend on themselves, constants are [long long]s *)

Definition ranked (rank : Z -> nat) (d : dag) : Prop :=
  forall i x j, insns d !! i = Some x -> live x -> is_value_op (op x) = true -> REG j ∈ operands x -> (rank j < rank i)%nat.

Record wf (d : dag) : Prop := {
  wf_live : forall i x j y, insns d !! i = Some x -> live x -> REG j ∈ operands x -> insns d !! j = Some y -> live y;
  wf_rank : exists rank, ranked rank d;
  wf_vals : forall i x v, insns d !! i = Some x -> live x -> VAL v ∈ operands x -> is_s64 v
}.

(** ** What a rewriting keeps *)

(** The other instructions that are left have the same operands and results, and those with effects are left. *)
Definition keeps (r : valuation) (d : dag) (r' : valuation) (d' : dag) : Prop :=
  (forall i x', insns d' !! i = Some x' -> live x' -> is_value_op (op x') = false ->
    exists x, insns d !! i = Some x /\ live x /\ op x = op x' /\ r' i = r i /\ val r' <$> operands x' = val r <$> operands x) /\
  (forall i x, insns d !! i = Some x -> live x -> op x = OP_OTHER true ->
    exists x', insns d' !! i = Some x' /\ live x' /\ op x' = OP_OTHER true).

Definition sound (d d' : dag) : Prop :=
  wf d' /\ forall r, sat r d -> exists r', sat r' d' /\ keeps r d r' d'.

Lemma graph_keeps_refl r d : keeps r d r d.
Proof. split; [intros i x Hx Hl _; by exists x|intros i x Hx Hl Ho; by exists x]. Qed.

Lemma graph_keeps_trans r1 d1 r2 d2 r3 d3 : keeps r1 d1 r2 d2 -> keeps r2 d2 r3 d3 -> keeps r1 d1 r3 d3.
Proof.
  intros [H1 E1] [H2 E2]. split.
  - intros i x3 Hx3 Hl3 Hv3. destruct (H2 i x3 Hx3 Hl3 Hv3) as (x2 & Hx2 & Hl2 & Ho2 & Hr2 & Ha2).
    destruct (H1 i x2 Hx2 Hl2) as (x1 & Hx1 & Hl1 & Ho1 & Hr1 & Ha1); [by rewrite Ho2|].
    exists x1. split_and!; try done; congruence.
  - intros i x1 Hx1 Hl1 Ho1. destruct (E1 i x1 Hx1 Hl1 Ho1) as (x2 & Hx2 & Hl2 & Ho2). eauto.
Qed.

Lemma sound_refl d : wf d -> sound d d.
Proof. intros Hwf. split; [done|]. intros r Hr. exists r. split; [done|apply graph_keeps_refl]. Qed.

Lemma sound_trans d1 d2 d3 : sound d1 d2 -> (wf d2 -> sound d2 d3) -> sound d1 d3.
Proof.
  intros [Hwf H1] H2. destruct (H2 Hwf) as [Hwf3 H2']. split; [done|]. intros r Hr.
  destruct (H1 r Hr) as (r2 & Hr2 & Hk2). destruct (H2' r2 Hr2) as (r3 & Hr3 & Hk3).
  exists r3. split; [done|]. by eapply graph_keeps_trans.
Qed.

(** ** Users *)

Lemma nbr_users_sum d p : nbr_users d p = sum_list_with (fun ix : Z * insn => uses p ix.2) (map_to_list (insns d)).
Proof.
  unfold nbr_users. rewrite map_fold_foldr. induction (map_to_list (insns d)) as [|[i x] l IH]; [done|]. simpl. by rewrite IH.
Qed.

Lemma uses_elem p x : (0 < uses p x)%nat <-> p ∈ operands x.
Proof.
  unfold uses. split.
  - intros H. destruct (filter (fun q => q = p) (operands x)) as [|q l] eqn:E; [simpl in H; lia|].
    assert (q ∈ filter (fun q => q = p) (operands x)) as Hq by (rewrite E; left).
    by apply list_elem_of_filter in Hq as [-> ?].
  - intros H. assert (p ∈ filter (fun q => q = p) (operands x)) as Hq by (by apply list_elem_of_filter).
    destruct (filter _ _); [by apply not_elem_of_nil in Hq|simpl; lia].
Qed.

Lemma sum_zero {A} (f : A -> nat) (l : list A) : sum_list_with f l = 0%nat -> forall x, x ∈ l -> f x = 0%nat.
Proof. induction l as [|m l IH]; simpl; [by intros _ n ?%not_elem_of_nil|]. intros H n [-> |?]%elem_of_cons; [lia|]. apply IH; [lia|done]. Qed.

Definition unused (d : dag) (p : pseudo) : Prop := forall i x, insns d !! i = Some x -> p ∉ operands x.

Lemma has_users_false d p : has_users d p = false <-> unused d p.
Proof.
  unfold has_users. rewrite negb_false_iff, Nat.eqb_eq, nbr_users_sum. split.
  - intros H i x Hx Hp%uses_elem. assert (uses p x = 0%nat); [|lia].
    apply (sum_zero _ _ H (i, x)). by apply elem_of_map_to_list.
  - intros H. assert (forall l, (forall ix, ix ∈ l -> uses p ix.2 = 0%nat) -> sum_list_with (fun ix : Z * insn => uses p ix.2) l = 0%nat) as Hl.
    { induction l as [|ix l IH]; [done|]. intros Hz. simpl. rewrite Hz by left. apply IH. intros; apply Hz; by right. }
    apply Hl. intros [i x] Hix%elem_of_map_to_list. simpl. destruct (uses p x) eqn:E; [done|].
    destruct (H i x Hix). apply uses_elem. lia.
Qed.

(** One use: no other instruction, and not twice. *)
Lemma sum_one (l : list (Z * insn)) p : NoDup l -> (sum_list_with (fun ix : Z * insn => uses p ix.2) l <= 1)%nat ->
  forall a b, a ∈ l -> b ∈ l -> (0 < uses p a.2)%nat -> (0 < uses p b.2)%nat -> a = b.
Proof.
  assert (forall l ix, ix ∈ l -> (uses p ix.2 <= sum_list_with (fun ix : Z * insn => uses p ix.2) l)%nat) as Hle.
  { intros l' ix. induction l' as [|iy l' IH]; [by intros ?%not_elem_of_nil|]. intros [-> |H]%elem_of_cons; simpl in *; [lia|].
    specialize (IH H). lia. }
  induction l as [|c l IH]; intros Hnd Hs a b Ha Hb Hua Hub; [by apply not_elem_of_nil in Ha|].
  simpl in Hs. inversion_clear Hnd.
  apply elem_of_cons in Ha as [-> |Ha]; apply elem_of_cons in Hb as [-> |Hb]; try done.
  - pose proof (Hle l b Hb). lia.
  - pose proof (Hle l a Ha). lia.
  - apply IH; try done. lia.
Qed.

Lemma one_use_only d p i x j y : one_use d p = true ->
  insns d !! i = Some x -> p ∈ operands x -> insns d !! j = Some y -> p ∈ operands y -> i = j.
Proof.
  unfold one_use. rewrite Nat.leb_le, nbr_users_sum. intros Hs Hx Hpx%uses_elem Hy Hpy%uses_elem.
  assert ((i, x) = (j, y)) as [= -> ->]; [|done].
  apply (sum_one (map_to_list (insns d)) p); try done; [apply NoDup_map_to_list|by apply elem_of_map_to_list..].
Qed.

Lemma one_use_once d p i x : one_use d p = true -> insns d !! i = Some x -> (uses p x <= 1)%nat.
Proof.
  unfold one_use. rewrite Nat.leb_le, nbr_users_sum. intros Hs Hx%elem_of_map_to_list.
  revert Hs Hx. generalize (map_to_list (insns d)) as l.
  induction l as [|iy l IH]; [by intros _ ?%not_elem_of_nil|]. simpl. intros Hs [<- |H]%elem_of_cons; simpl in *; [lia|].
  apply IH; [lia|done].
Qed.

(** ** Changes of instructions *)

Lemma lookup_modify i f d : insns (modify i f d) !! i = f <$> insns d !! i.
Proof. apply lookup_alter_eq. Qed.

Lemma lookup_modify_ne i j f d : i <> j -> insns (modify i f d) !! j = insns d !! j.
Proof. apply lookup_alter_ne. Qed.

Lemma operands_set_void pl x p : p <> VOID -> p ∈ operands (set pl VOID x) -> p ∈ operands x.
Proof.
  intros Hp. unfold operands. destruct pl, x as [o ? ? ? ? ? ? ?]; simpl; destruct o; simpl; rewrite ?elem_of_cons; try tauto;
    unfold src3; simpl; intros; naive_solver.
Qed.

(** ** Killing *)

(** The instructions outside of [K], which are being killed, are unchanged or dead. *)
Record kills (K : Z -> Prop) (d d' : dag) : Prop := {
  kills_or : forall i, ~ K i -> insns d' !! i = insns d !! i \/
    exists x x', insns d !! i = Some x /\ insns d' !! i = Some x' /\ live x /\ bb x' = None /\ op x' = op x /\ op x <> OP_OTHER true;
  kills_shrinks : forall i x', insns d' !! i = Some x' -> exists x, insns d !! i = Some x /\ op x' = op x /\
    forall p, p <> VOID -> p ∈ operands x' -> p ∈ operands x;
  kills_unused : forall i x x', ~ K i -> insns d !! i = Some x -> live x -> insns d' !! i = Some x' -> bb x' = None ->
    unused d' (REG i);
  kills_dom : forall i, is_Some (insns d !! i) -> is_Some (insns d' !! i)
}.

Lemma kills_refl K d : kills K d d.
Proof. split; [by left|intros i x Hx; by exists x| |done]. intros i x x' _ Hx Hl Hx' Hd. simplify_eq. by destruct Hl. Qed.

Lemma unused_shrinks K d d' p : kills K d d' -> p <> VOID -> unused d p -> unused d' p.
Proof.
  intros Hk Hp Hu i x' Hx' Hin. destruct (kills_shrinks _ _ _ Hk i x' Hx') as (x & Hx & _ & Hs).
  by apply (Hu i x), Hs.
Qed.

Lemma kills_trans K d1 d2 d3 : kills K d1 d2 -> kills K d2 d3 -> kills K d1 d3.
Proof.
  intros H1 H2. split.
  - intros i Hi. destruct (kills_or _ _ _ H2 i Hi) as [-> |(x2 & x3 & Hx2 & Hx3 & Hl & Hd & Ho & Hn)].
    + by apply H1.
    + destruct (kills_or _ _ _ H1 i Hi) as [Heq|(x1 & x2' & Hx1 & Hx2' & Hl1 & Hd2 & Ho1 & Hn1)]; [|simplify_eq; by destruct Hl].
      right. exists x2, x3. rewrite <- Heq. auto 10.
  - intros i x3 Hx3. destruct (kills_shrinks _ _ _ H2 i x3 Hx3) as (x2 & Hx2 & Ho2 & Hs2).
    destruct (kills_shrinks _ _ _ H1 i x2 Hx2) as (x1 & Hx1 & Ho1 & Hs1). exists x1. split_and!; [done|congruence|auto].
  - intros i x1 x3 Hi Hx1 Hl1 Hx3 Hd3. destruct (kills_or _ _ _ H1 i Hi) as [Heq|(y1 & x2 & ? & Hx2 & _ & Hd2 & _)].
    + apply (kills_unused _ _ _ H2 i x1 x3); try done. by rewrite Heq.
    + eapply unused_shrinks; [done|done|]. by apply (kills_unused _ _ _ H1 i x1 x2).
  - intros i Hi. by apply (kills_dom _ _ _ H2), (kills_dom _ _ _ H1).
Qed.

Lemma kills_modify (K : Z -> Prop) i f d : K i -> (forall x, op (f x) = op x) ->
  (forall x p, p <> VOID -> p ∈ operands (f x) -> p ∈ operands x) -> kills K d (modify i f d).
Proof.
  intros Hi Ho Hs. split.
  - intros j Hj. left. apply lookup_modify_ne. by intros ->.
  - intros j x' Hx'. destruct (decide (i = j)) as [<-|Hne].
    + rewrite lookup_modify in Hx'. apply fmap_Some in Hx' as (x & Hx & ->). exists x. auto.
    + rewrite lookup_modify_ne in Hx' by done. by exists x'.
  - intros j x x' Hj Hx Hl Hx' Hd. rewrite lookup_modify_ne in Hx' by (by intros ->). simplify_eq. by destruct Hl.
  - intros j Hj. destruct (decide (i = j)) as [<-|Hne]; [by rewrite lookup_modify, fmap_is_Some|by rewrite lookup_modify_ne].
Qed.

(** Out of the instructions being killed goes the one that is dead and unused. *)
Lemma kills_finish (K : Z -> Prop) i d d' : kills (fun j => K j \/ j = i) d d' ->
  (exists x x', insns d !! i = Some x /\ insns d' !! i = Some x' /\ live x /\ bb x' = None /\ op x <> OP_OTHER true) ->
  (~ K i -> unused d (REG i)) -> kills K d d'.
Proof.
  intros Hk (x & x' & Hx & Hx' & Hl & Hd & Ho) Hu. split.
  - intros j Hj. destruct (decide (j = i)) as [-> |Hne]; [|apply Hk; tauto]. right. exists x, x'.
    destruct (kills_shrinks _ _ _ Hk i x' Hx') as (? & ? & ? & _). simplify_eq. auto 10.
  - apply Hk.
  - intros j y y' Hj Hy Hly Hy' Hdy. destruct (decide (j = i)) as [-> |Hne].
    + by eapply unused_shrinks; [|done|apply Hu].
    + eapply (kills_unused _ _ _ Hk j y y'); tauto.
  - apply Hk.
Qed.

Lemma kills_repeat K z d d' : kills K d d' -> kills K d (set_repeat z d').
Proof. intros []. by split. Qed.

Section kill.
Context (kill : Z -> dag -> Z * dag).
Context (IH : forall K i d, (~ K i -> unused d (REG i)) -> kills K d (kill i d).2).

Lemma rem_usage_kills K p d : kills K d (rem_usage kill p d).
Proof.
  unfold rem_usage. destruct p; try apply kills_refl. destruct (has_users d (REG nr)) eqn:Hu; [apply kills_refl|].
  apply IH. intros _. by apply has_users_false.
Qed.

Lemma kill_use_kills (K : Z -> Prop) i pl d : K i -> kills K d (kill_use kill i pl d).
Proof.
  intros Hi. unfold kill_use. eapply kills_trans; [|apply rem_usage_kills]. apply kills_modify; [done|by destruct pl|].
  intros x p. apply operands_set_void.
Qed.

Lemma operands_clear_arg k x p : p <> VOID -> p ∈ operands (set_args (<[k := VOID]> (args x)) x) -> p ∈ operands x.
Proof.
  intros Hp. unfold operands. destruct x as [o ? ? ? ? ? ? l]; simpl. destruct o; simpl; try done.
  intros [n Hn]%list_elem_of_lookup. apply list_elem_of_lookup. destruct (decide (k = n)) as [<-|Hne].
  - destruct (decide (k < length l)%nat) as [Hlt|Hge].
    + rewrite list_lookup_insert_eq in Hn by done. by simplify_eq.
    + rewrite list_insert_ge in Hn by lia. eauto.
  - rewrite list_lookup_insert_ne in Hn by done. eauto.
Qed.

Lemma kill_use_list_kills (K : Z -> Prop) i d : K i -> kills K d (kill_use_list kill i d).
Proof.
  intros Hi. unfold kill_use_list. generalize (seq 0 (length (args (insn_at d i)))) as l.
  intros l. revert d. induction l as [|k l IHl]; intros d; [apply kills_refl|]. simpl.
  eapply kills_trans; [|apply IHl]. eapply kills_trans; [|apply rem_usage_kills].
  apply kills_modify; [done|done|]. intros x p. apply operands_clear_arg.
Qed.

Lemma kill_operands_kills (K : Z -> Prop) i d : K i -> kills K d (kill_operands kill i d).
Proof.
  intros Hi. unfold kill_operands. pose proof (kill_use_kills K i) as Hk. pose proof (kill_use_list_kills K i) as Hl.
  destruct (op (insn_at d i)); simpl; repeat (eapply kills_trans; [|first [by apply Hk|by apply Hl]]); apply kills_refl.
Qed.
End kill.

Lemma kill_insn_kills fuel : forall K i d, (~ K i -> unused d (REG i)) -> kills K d (kill_insn fuel i d).2.
Proof.
  induction fuel as [|fuel IH]; intros K i d Hu; [apply kills_refl|]. simpl.
  destruct (bb (insn_at d i)) as [b|] eqn:Hb; [|apply kills_refl].
  destruct (oeq (op (insn_at d i)) (OP_OTHER true)) eqn:Ho; [apply kills_refl|]. simpl. apply kills_repeat.
  apply bool_decide_eq_false in Ho.
  unfold insn_at in Hb, Ho. destruct (insns d !! i) as [x|] eqn:Hx; [|done]. simpl in *.
  pose proof (kill_operands_kills (kill_insn fuel) IH (fun j => K j \/ j = i) i d (or_intror eq_refl)) as Hk.
  apply kills_finish with i; [| |done].
  - eapply kills_trans; [apply Hk|]. by apply kills_modify; [right| |].
  - destruct (kills_dom _ _ _ Hk i) as [x' Hx']; [by rewrite Hx|].
    exists x, (set_bb None x'). rewrite lookup_modify, Hx'. unfold live. rewrite Hb. split_and!; done.
Qed.

Definition nobody : Z -> Prop := fun _ => False.

Lemma kill_instruction_kills i d : unused d (REG i) -> kills nobody d (kill_instruction i d).2.
Proof. intros Hu. by apply kill_insn_kills. Qed.

Lemma remove_usage_kills p d : kills nobody d (remove_usage p d).
Proof.
  unfold remove_usage. apply rem_usage_kills. intros K i d' Hu. by apply kill_insn_kills.
Qed.

Lemma kills_remove p d d' : kills nobody d d' -> kills nobody d (remove_usage p d').
Proof. intros H. eapply kills_trans; [done|apply remove_usage_kills]. Qed.

(** Killing is sound. *)
Lemma kills_sound d d' : wf d -> kills nobody d d' -> sound d d'.
Proof.
  intros [Hlive [rank Hrank] Hvals] Hk.
  assert (forall i x', insns d' !! i = Some x' -> live x' -> insns d !! i = Some x') as Hsame.
  { intros i x' Hx' Hl. destruct (kills_or _ _ _ Hk i) as [<-|(x & x'' & _ & ? & _ & Hd & _)]; [tauto|done|].
    simplify_eq. by destruct Hl. }
  split; [split|].
  - intros i x j y Hx Hl Hin Hy Hdead.
    destruct (kills_shrinks _ _ _ Hk j y Hy) as (y0 & Hy0 & _).
    refine (kills_unused _ _ _ Hk j y0 y (fun H => H) Hy0 _ Hy Hdead i x Hx Hin). apply (Hlive i x j y0); auto.
  - exists rank. intros i x j Hx Hl. apply Hrank; auto.
  - intros i x v Hx Hl. apply (Hvals i); auto.
  - intros r Hr. exists r. split; [|split].
    + intros i x Hx Hl. apply Hr; auto.
    + intros i x' Hx' Hl _. exists x'. auto 10.
    + intros i x Hx Hl Ho. destruct (kills_or _ _ _ Hk i) as [Heq|(y & y' & Hy & _ & _ & _ & _ & Hn)]; [tauto| |simplify_eq].
      exists x. rewrite Heq. auto.
Qed.

(** ** What an instruction can see *)

(** The operands of an instruction, of their definitions, and so on. *)
Inductive below (d : dag) (i : Z) : pseudo -> Prop :=
  | below_operand x p : insns d !! i = Some x -> live x -> is_value_op (op x) = true -> p ∈ operands x -> below d i p
  | below_def j y p : below d i (REG j) -> insns d !! j = Some y -> is_value_op (op y) = true -> p ∈ operands y -> below d i p
  | below_value v : is_s64 v -> below d i (VAL v).

Lemma below_live d i p : wf d -> below d i p -> forall j y, p = REG j -> insns d !! j = Some y -> live y.
Proof.
  intros Hwf Hb. induction Hb as [x p Hx Hl Ho Hin|j y p Hb IH Hy Ho Hin|v Hv]; intros k z Heq Hz; [| |done].
  - subst p. by apply (wf_live _ Hwf i x k z).
  - subst p. apply (wf_live _ Hwf j y k z); try done. by apply (IH j y).
Qed.

Lemma below_rank d i rank p : wf d -> ranked rank d -> below d i p -> forall j, p = REG j -> (rank j < rank i)%nat.
Proof.
  intros Hwf Hr Hb. induction Hb as [x p Hx Hl Ho Hin|j y p Hb IH Hy Ho Hin|v Hv]; intros k Heq; [| |done].
  - subst p. by apply (Hr i x k).
  - subst p. specialize (IH j eq_refl). assert (rank k < rank j)%nat; [|lia].
    apply (Hr j y k); try done. by apply (below_live d i (REG j) Hwf Hb j y).
Qed.

Lemma below_s64 d i p : wf d -> below d i p -> forall v, p = VAL v -> is_s64 v.
Proof.
  intros Hwf Hb. destruct Hb as [x p Hx Hl Ho Hin|j y p Hb Hy Ho Hin|v Hv]; intros w Heq; [| |by simplify_eq].
  - subst p. by apply (wf_vals _ Hwf i x w).
  - subst p. apply (wf_vals _ Hwf j y w); try done. by apply (below_live d i (REG j) Hwf Hb j y).
Qed.

Lemma below_not_self d i : wf d -> ~ below d i (REG i).
Proof.
  intros Hwf Hb. destruct (wf_rank _ Hwf) as [rank Hr].
  pose proof (below_rank d i rank (REG i) Hwf Hr Hb i eq_refl). lia.
Qed.

(** ** Replacing a register *)

Definition swap_pseudo (p q r : pseudo) : pseudo := if peq r p then q else r.

Lemma operands_subst p q x : operands (subst p q x) = swap_pseudo p q <$> operands x.
Proof. destruct x as [o ? ? ? ? ? u ?]. destruct o; reflexivity. Qed.

Lemma val_swap r p q s : val r p = val r q -> val r (swap_pseudo p q s) = val r s.
Proof. intros H. unfold swap_pseudo, peq. case_bool_decide; [by subst|done]. Qed.

Lemma subst_fields p q x : op (subst p q x) = op x /\ size (subst p q x) = size x /\ bb (subst p q x) = bb x /\
  (op x <> OP_SEL -> u3 (subst p q x) = u3 x).
Proof. destruct x as [o ? ? ? ? ? u ?]. unfold subst. destruct o; simpl; done. Qed.

Lemma holds_subst r i p q x : p <> VAL 0 -> val r p = val r q -> is_value_op (op x) = true -> holds r i x -> holds r i (subst p q x).
Proof.
  intros Hp Hv Ho [Ht Hs]. unfold subst. destruct x as [o ta n b a1 a2 u l]. unfold holds, typed, sem, src3, itype in *; simpl in *.
  assert (forall s, val r (if peq s p then q else s) = val r s) as Hval by (intros s; apply val_swap, Hv).
  destruct o; try done; simpl in *; rewrite ?Hval; split; try done.
  all: destruct Ht as (? & ? & ? & ? & Hz); split_and!; try done; destruct Hz as [-> |?]; [left|by right].
  all: unfold peq; by rewrite bool_decide_eq_false_2.
Qed.

Lemma lookup_convert i q d j : REG i <> q ->
  insns (convert_instruction_target i q d) !! j = subst (REG i) q <$> insns d !! j.
Proof. intros Hne. unfold convert_instruction_target, peq. rewrite bool_decide_eq_false_2 by done. apply lookup_fmap. Qed.

Lemma live_subst p q x : live (subst p q x) <-> live x.
Proof. unfold live. by destruct (subst_fields p q x) as (_ & _ & -> & _). Qed.

Lemma op_subst p q x : op (subst p q x) = op x.
Proof. apply subst_fields. Qed.

Lemma elem_swap p q r (l : list pseudo) : r ∈ swap_pseudo p q <$> l -> r = q /\ p ∈ l \/ r ∈ l /\ r <> p.
Proof.
  intros (s & -> & Hs)%list_elem_of_fmap. unfold swap_pseudo, peq. case_bool_decide; subst; auto.
Qed.

(** A pseudo that the users of the instruction [i] may use in its place. *)
Record stands_in (d : dag) (i : Z) (q : pseudo) : Prop := {
  st_other : REG i <> q;
  st_live : forall j y, q = REG j -> insns d !! j = Some y -> live y;
  st_rank : exists rank, ranked rank d /\ forall j, q = REG j -> (rank j <= rank i)%nat;
  st_s64 : forall v, q = VAL v -> is_s64 v
}.

Lemma below_stands_in d i q : wf d -> below d i q -> stands_in d i q.
Proof.
  intros Hwf Hb. destruct (wf_rank _ Hwf) as [rank Hr]. split.
  - intros <-. by apply (below_not_self d i).
  - by apply (below_live d i).
  - exists rank. split; [done|]. intros j Hj. pose proof (below_rank d i rank q Hwf Hr Hb j Hj). lia.
  - by apply (below_s64 d i).
Qed.

Lemma convert_sound i q d : wf d -> stands_in d i q ->
  (forall r, sat r d -> val r q = r i) -> sound d (convert_instruction_target i q d).
Proof.
  intros Hwf [Hne Hlive (rank & Hr & Hrk) Hs64] Hv.
  assert (forall j x', insns (convert_instruction_target i q d) !! j = Some x' -> exists x, insns d !! j = Some x /\ x' = subst (REG i) q x) as Hlk.
  { intros j x'. rewrite lookup_convert by done. intros (y & Hy & ->)%fmap_Some. eauto. }
  split; [split|].
  - intros j y k z Hy Hl Hin Hz.
    destruct (Hlk _ _ Hy) as (y0 & Hy0 & ->), (Hlk _ _ Hz) as (z0 & Hz0 & ->).
    apply live_subst in Hl. apply live_subst. rewrite operands_subst in Hin.
    apply elem_swap in Hin as [[Hq Hi]|[Hin _]]; [|by apply (wf_live _ Hwf j y0 k z0)]. by apply (Hlive k z0).
  - exists rank. intros j y k Hy Hl Ho Hin. destruct (Hlk _ _ Hy) as (y0 & Hy0 & ->).
    apply live_subst in Hl. rewrite op_subst in Ho. rewrite operands_subst in Hin.
    apply elem_swap in Hin as [[Hq Hi]|[Hin _]]; [|by apply (Hr j y0 k)].
    pose proof (Hrk k (eq_sym Hq)). pose proof (Hr j y0 i Hy0 Hl Ho Hi). lia.
  - intros j y v Hy Hl Hin. destruct (Hlk _ _ Hy) as (y0 & Hy0 & ->). apply live_subst in Hl. rewrite operands_subst in Hin.
    apply elem_swap in Hin as [[Hq Hi]|[Hin _]]; [|by apply (wf_vals _ Hwf j y0 v)]. by apply Hs64.
  - intros r Hsat. specialize (Hv r Hsat). exists r. split; [|split].
    + intros j y Hy Hl. destruct (Hlk _ _ Hy) as (y0 & Hy0 & ->). rewrite op_subst.
      apply live_subst in Hl. specialize (Hsat j y0 Hy0 Hl). destruct (is_value_op (op y0)) eqn:Ho.
      * apply holds_subst; [done|by rewrite Hv|done|done].
      * unfold fits. by destruct (subst_fields (REG i) q y0) as (_ & -> & _).
    + intros j y Hy Hl Ho. destruct (Hlk _ _ Hy) as (y0 & Hy0 & ->). exists y0.
      apply live_subst in Hl. rewrite op_subst. split_and!; try done. rewrite operands_subst, <- list_fmap_compose.
      apply list_fmap_ext. intros k s _. by apply val_swap.
    + intros j y Hy Hl Ho. exists (subst (REG i) q y). rewrite lookup_convert, Hy, op_subst by done. rewrite live_subst. auto.
Qed.

(** An instruction gives way to a pseudo with its value. *)
Lemma stand_in_sound i q d : wf d -> stands_in d i q -> (forall r, sat r d -> val r q = r i) -> sound d (replace_with_pseudo i q d).2.
Proof.
  intros Hwf Hst Hv. pose proof (convert_sound i q d Hwf Hst Hv) as Hs.
  eapply sound_trans; [done|]. intros Hwf'. apply kills_sound; [done|]. apply kill_instruction_kills. pose proof (st_other _ _ _ Hst) as Hne.
  intros j y'. rewrite lookup_convert by done. intros (y & Hy & ->)%fmap_Some. rewrite operands_subst.
  intros [[Hq _]|[_ Hn]]%elem_swap; done.
Qed.

Lemma replace_with_pseudo_sound i q d : wf d -> below d i q -> (forall r, sat r d -> val r q = r i) -> sound d (replace_with_pseudo i q d).2.
Proof. intros Hwf Hb. by apply stand_in_sound, below_stands_in. Qed.

(** ** Changing instructions *)

(** Only the operands matter. *)
Lemma holds_ext r r' i x : (forall p, p ∈ operands x -> val r' p = val r p) -> r' i = r i ->
  is_value_op (op x) = true -> holds r i x -> holds r' i x.
Proof.
  intros Hval Hi Ho Hh. destruct x as [o ta n b a1 a2 u l].
  assert (arity o = 1 \/ arity o = 2 \/ arity o = 3) as Har by (destruct o; simpl; auto; done).
  assert (val r' a1 = val r a1) as H1 by (apply Hval; destruct o; try done; left).
  assert (2 <= arity o -> val r' a2 = val r a2) as H2
    by (intros Ha; apply Hval; destruct o; try done; simpl in Ha; try lia; right; left).
  assert (arity o = 3 -> val r' (src3 (Insn o ta n b a1 a2 u l)) = val r (src3 (Insn o ta n b a1 a2 u l))) as H3
    by (intros Ha; apply Hval; destruct o; try done; right; right; left).
  unfold holds in *. simpl in *. rewrite Hi, H1. clear Hval.
  destruct o; try done; simpl in *; rewrite ?H2, ?H3 by lia; exact Hh.
Qed.

(** The instructions of [S] change, and with them the values of the registers of [C], which only [S] uses. *)
Lemma update_sound (S C : Z -> Prop) d d1 : wf d1 -> (forall i, C i -> S i) ->
  (forall i, ~ S i -> insns d1 !! i = insns d !! i) ->
  (forall i, S i -> exists x x', insns d !! i = Some x /\ insns d1 !! i = Some x' /\
    is_value_op (op x) = true /\ is_value_op (op x') = true) ->
  (forall i x c, ~ S i -> insns d !! i = Some x -> live x -> C c -> REG c ∉ operands x) ->
  (forall i, S i \/ ~ S i) -> (forall i, C i \/ ~ C i) ->
  (forall r, sat r d -> exists r', (forall i, ~ C i -> r' i = r i) /\
    forall i x', S i -> insns d1 !! i = Some x' -> holds r' i x') ->
  sound d d1.
Proof.
  intros Hwf HCS Hout Hin Hun HdS HdC Hr. split; [done|]. intros r Hsat. destruct (Hr r Hsat) as (r' & Hsame & Hh).
  assert (forall i x, ~ S i -> insns d !! i = Some x -> live x -> forall p, p ∈ operands x -> val r' p = val r p) as Hval.
  { intros i x Hi Hx Hl p Hp. destruct p; try done. simpl. apply Hsame. intros Hc. by apply (Hun i x nr). }
  exists r'. split; [|split].
  - intros i x' Hx' Hl. destruct (HdS i) as [Hi|Hi].
    { destruct (Hin i Hi) as (x & x'' & _ & Heq & _ & Ho). rewrite Hx' in Heq. injection Heq as <-. rewrite Ho. by apply Hh. }
    rewrite Hout in Hx' by done. specialize (Hsat i x' Hx' Hl). destruct (is_value_op (op x')) eqn:Ho.
    + apply (holds_ext r r'); [by apply (Hval i x')|by rewrite Hsame; auto|done|done].
    + unfold fits. by rewrite Hsame by auto.
  - intros i x' Hx' Hl Ho. destruct (HdS i) as [Hi|Hi].
    + destruct (Hin i Hi) as (x & x'' & _ & ? & _ & ?). congruence.
    + rewrite Hout in Hx' by done. exists x'. split_and!; try done; [apply Hsame; auto|].
      apply list_fmap_ext. intros k p Hp%list_elem_of_lookup_2. by apply (Hval i x').
  - intros i x Hx Hl Ho. destruct (HdS i) as [Hi|Hi].
    + destruct (Hin i Hi) as (y & _ & ? & _ & Hv & _). simplify_eq. by rewrite Ho in Hv.
    + exists x. rewrite Hout by done. auto.
Qed.

Definition set_reg (k : Z) (v : Z) (r : valuation) : valuation := fun j => if j =? k then v else r j.

Lemma set_reg_eq k v r : set_reg k v r k = v.
Proof. unfold set_reg. by rewrite Z.eqb_refl. Qed.

Lemma set_reg_ne k v r j : j <> k -> set_reg k v r j = r j.
Proof. unfold set_reg. intros H%Z.eqb_neq. by rewrite H. Qed.

Lemma val_set_reg k v r p : p <> REG k -> val (set_reg k v r) p = val r p.
Proof. destruct p; try done. simpl. intros H. apply set_reg_ne. congruence. Qed.

(** A live instruction that computes a value. *)
Record computes (d : dag) (i : Z) (x : insn) : Prop := {
  c_lookup : insns d !! i = Some x;
  c_live : live x;
  c_op : is_value_op (op x) = true
}.

(** A register has one instruction. *)
Lemma computes_inj d i x y : computes d i x -> computes d i y -> y = x.
Proof. intros [Hx _ _] [Hy _ _]. congruence. Qed.

Lemma sat_computes r d i x : sat r d -> computes d i x -> holds r i x.
Proof. intros H [Hx Hl Ho]. specialize (H i x Hx Hl). by rewrite Ho in H. Qed.

Lemma below_of d i x p : computes d i x -> p ∈ operands x -> below d i p.
Proof. intros [] ?. by eapply below_operand. Qed.

Lemma computes_def d i p j y : wf d -> below d i p -> def_of d p = Some (j, y) -> is_value_op (op y) = true -> p = REG j /\ computes d j y.
Proof.
  intros Hwf Hb Hd Ho. destruct p; try done. simpl in Hd. apply fmap_Some in Hd as (z & Hz & [= -> ->]).
  split; [done|]. split; [done| |done]. by apply (below_live d i (REG nr) Hwf Hb nr z).
Qed.

Lemma below_trans d i j p : below d i (REG j) -> below d j p -> below d i p.
Proof.
  intros Hi Hj. induction Hj as [x p Hx Hl Ho Hin|k y p Hb IH Hy Ho Hin|v Hv].
  - by eapply below_def.
  - by eapply below_def.
  - by apply below_value.
Qed.

(** What an instruction changes to. *)
Record changes (d : dag) (i : Z) (f : insn -> insn) (x : insn) : Prop := {
  ch_live : live (f x);
  ch_op : is_value_op (op (f x)) = true;
  ch_below : forall p, p ∈ operands (f x) -> below d i p
}.

Lemma wf_change d i x f : wf d -> computes d i x -> changes d i f x -> wf (modify i f d).
Proof.
  intros Hwf [Hx Hl Ho] [Hl' Ho' Hb]. destruct (wf_rank _ Hwf) as [rank Hr].
  assert (forall j y', insns (modify i f d) !! j = Some y' -> j = i /\ y' = f x \/ j <> i /\ insns d !! j = Some y') as Hlk.
  { intros j y'. destruct (decide (i = j)) as [<-|Hne].
    - rewrite lookup_modify, Hx. intros [= <-]. auto.
    - rewrite lookup_modify_ne by done. auto. }
  split.
  - intros j y k z Hy Hly Hin Hz. destruct (Hlk _ _ Hz) as [[-> ->]|[_ Hz']]; [done|].
    destruct (Hlk _ _ Hy) as [[-> ->]|[_ Hy']]; [|by apply (wf_live _ Hwf j y k z)].
    by apply (below_live d i (REG k) Hwf (Hb _ Hin) k z).
  - exists rank. intros j y k Hy Hly Hoy Hin. destruct (Hlk _ _ Hy) as [[-> ->]|[_ Hy']]; [|by apply (Hr j y k)].
    by apply (below_rank d i rank (REG k) Hwf Hr (Hb _ Hin) k).
  - intros j y v Hy Hly Hin. destruct (Hlk _ _ Hy) as [[-> ->]|[_ Hy']]; [|by apply (wf_vals _ Hwf j y v)].
    by apply (below_s64 d i (VAL v) Hwf (Hb _ Hin) v).
Qed.

(** Is the register used by the instruction only? *)
Definition only_user (d : dag) (k i : Z) : Prop := forall j y, insns d !! j = Some y -> live y -> REG k ∈ operands y -> j = i.

Lemma one_use_user d k i x : one_use d (REG k) = true -> insns d !! i = Some x -> REG k ∈ operands x -> only_user d k i.
Proof. intros Hu Hx Hin j y Hy _ Hy'. by eapply one_use_only. Qed.

(** The instruction [i] changes, and an operand that no other instruction uses. *)
Lemma wf_change2 d i x f k y g : wf d -> computes d i x -> computes d k y -> i <> k -> only_user d k i ->
  changes d i f x -> changes d i g y -> REG k ∉ operands (g y) -> wf (modify i f (modify k g d)).
Proof.
  intros Hwf [Hx Hl Ho] [Hy Hly Hoy] Hne Hu [Hl' Ho' Hb] [Hly' Hoy' Hby] Hk. destruct (wf_rank _ Hwf) as [rank Hr].
  assert (forall j z, insns (modify i f (modify k g d)) !! j = Some z ->
    j = i /\ z = f x \/ j = k /\ z = g y \/ j <> i /\ j <> k /\ insns d !! j = Some z) as Hlk.
  { intros j z. destruct (decide (i = j)) as [<-|Hij].
    - rewrite lookup_modify, lookup_modify_ne, Hx by done. intros [= <-]. auto.
    - rewrite lookup_modify_ne by done. destruct (decide (k = j)) as [<-|Hkj].
      + rewrite lookup_modify, Hy. intros [= <-]. auto.
      + rewrite lookup_modify_ne by done. auto 10. }
  split.
  - intros j u m z Hju Hlu Hin Hz. destruct (Hlk _ _ Hz) as [[-> ->]|[[-> ->]|(_ & _ & Hz')]]; [done|done|].
    destruct (Hlk _ _ Hju) as [[-> ->]|[[-> ->]|(_ & _ & Hju')]].
    + by apply (below_live d i (REG m) Hwf (Hb _ Hin) m z).
    + by apply (below_live d i (REG m) Hwf (Hby _ Hin) m z).
    + by apply (wf_live _ Hwf j u m z).
  - exists (fun j => if (j =? k)%Z then (2 * rank i - 1)%nat else (2 * rank j)%nat).
    intros j u m Hju Hlu Hou Hin. destruct (Hlk _ _ Hju) as [[-> ->]|[[-> ->]|(Hji & Hjk & Hju')]].
    + apply Z.eqb_neq in Hne as ->. pose proof (below_rank d i rank (REG m) Hwf Hr (Hb _ Hin) m eq_refl).
      destruct (m =? k); lia.
    + rewrite Z.eqb_refl. destruct (Z.eqb_spec m k) as [-> |_]; [done|].
      pose proof (below_rank d i rank (REG m) Hwf Hr (Hby _ Hin) m eq_refl). lia.
    + apply Z.eqb_neq in Hjk as ->. destruct (Z.eqb_spec m k) as [-> |_]; [by destruct Hji; eapply Hu|].
      pose proof (Hr j u m Hju' Hlu Hou Hin). lia.
  - intros j u v Hju Hlu Hin. destruct (Hlk _ _ Hju) as [[-> ->]|[[-> ->]|(_ & _ & Hju')]].
    + by apply (below_s64 d i (VAL v) Hwf (Hb _ Hin) v).
    + by apply (below_s64 d i (VAL v) Hwf (Hby _ Hin) v).
    + by apply (wf_vals _ Hwf j u v).
Qed.

Lemma dec_in (l : list Z) i : i ∈ l \/ ~ i ∈ l.
Proof. destruct (decide (i ∈ l)); auto. Qed.

(** One instruction changes, in the same valuations. *)
Lemma change_sound d i x f : wf d -> computes d i x -> changes d i f x ->
  (forall r, sat r d -> holds r i (f x)) -> sound d (modify i f d).
Proof.
  intros Hwf Hc Hch Hh. apply (update_sound (fun j => j = i) (fun _ => False)); try done.
  - by eapply wf_change.
  - intros j Hj. apply lookup_modify_ne. congruence.
  - intros j ->. exists x, (f x). rewrite lookup_modify, (c_lookup _ _ _ Hc). split_and!; try done; [apply Hc|apply Hch].
  - intros j. destruct (decide (j = i)); auto.
  - auto.
  - intros r Hr. exists r. split; [done|]. intros j x' -> Hx'. rewrite lookup_modify, (c_lookup _ _ _ Hc) in Hx'.
    injection Hx' as <-. auto.
Qed.

(** It changes with an operand of its own. *)
Lemma inner_sound d i x f k y g : wf d -> computes d i x -> computes d k y -> i <> k -> only_user d k i ->
  changes d i f x -> changes d i g y -> REG k ∉ operands (g y) ->
  (forall r, sat r d -> exists v, holds (set_reg k v r) k (g y) /\ holds (set_reg k v r) i (f x)) ->
  sound d (modify i f (modify k g d)).
Proof.
  intros Hwf Hc Hck Hne Hu Hch Hchk Hk Hh. pose proof (c_lookup _ _ _ Hc) as Hx. pose proof (c_lookup _ _ _ Hck) as Hy.
  assert (insns (modify i f (modify k g d)) !! i = Some (f x)) as Hi by (by rewrite lookup_modify, lookup_modify_ne, Hx).
  assert (insns (modify i f (modify k g d)) !! k = Some (g y)) as Hk' by (by rewrite lookup_modify_ne, lookup_modify, Hy).
  apply (update_sound (fun j => j = i \/ j = k) (fun j => j = k)).
  - by eapply wf_change2.
  - auto.
  - intros j Hj. rewrite !lookup_modify_ne; intuition.
  - intros j [-> | ->]; [exists x, (f x)|exists y, (g y)]; split_and!; try done; apply Hc || apply Hck || apply Hch || apply Hchk.
  - intros j z c Hj Hz Hl -> Hin. apply Hj. left. by eapply Hu.
  - intros j. destruct (decide (j = i)), (decide (j = k)); intuition.
  - intros j. destruct (decide (j = k)); auto.
  - intros r Hr. destruct (Hh r Hr) as (v & Hhk & Hhi). exists (set_reg k v r). split; [intros; by apply set_reg_ne|].
    intros j x' [-> | ->] Hx'; [rewrite Hi in Hx'|rewrite Hk' in Hx']; by injection Hx' as <-.
Qed.

(** One instruction [t] changes in a chain: the registers of [cs] are used by the chain only. *)
Lemma chain_sound d i cs t y g : wf d -> computes d t y -> t ∈ i :: cs -> changes d t g y ->
  (forall j, j ∈ i :: cs -> exists x, computes d j x) ->
  (forall c j x, c ∈ cs -> insns d !! j = Some x -> live x -> REG c ∈ operands x -> j ∈ i :: cs) ->
  (forall r, sat r d -> exists r', (forall j, j ∉ cs -> r' j = r j) /\
    forall j x, j ∈ i :: cs -> computes d j x -> holds r' j (if j =? t then g x else x)) ->
  sound d (modify t g d).
Proof.
  intros Hwf Hc Ht Hch Hcs Hu Hh. apply (update_sound (fun j => j ∈ i :: cs) (fun j => j ∈ cs)).
  - by eapply wf_change.
  - intros j Hj. by right.
  - intros j Hj. apply lookup_modify_ne. congruence.
  - intros j Hj. destruct (Hcs j Hj) as [x Hx]. destruct (decide (j = t)) as [-> |Hne].
    + exists y, (g y). rewrite lookup_modify, (c_lookup _ _ _ Hc). split_and!; try done; [apply Hc|apply Hch].
    + exists x, x. rewrite lookup_modify_ne by done. split_and!; try apply Hx.
  - intros j x c Hj Hx Hl Hcc Hin. by apply Hj, (Hu c j x).
  - apply dec_in.
  - apply dec_in.
  - intros r Hr. destruct (Hh r Hr) as (r' & Hsame & Hh'). exists r'. split; [done|]. intros j x' Hj Hx'.
    destruct (Hcs j Hj) as [x Hx]. specialize (Hh' j x Hj Hx). destruct (Z.eqb_spec j t) as [-> |Hne].
    + rewrite lookup_modify, (c_lookup _ _ _ Hx) in Hx'. by injection Hx' as <-.
    + rewrite lookup_modify_ne, (c_lookup _ _ _ Hx) in Hx' by done. by injection Hx' as <-.
Qed.

Lemma sound_kills d d1 d2 : sound d d1 -> kills nobody d1 d2 -> sound d d2.
Proof. intros H Hk. eapply sound_trans; [done|]. intros Hwf. by apply kills_sound. Qed.

Lemma modify_modify i f g d : modify i g (modify i f d) = modify i (fun x => g (f x)) d.
Proof.
  unfold modify, set_insns. simpl. f_equal. apply map_eq. intros j. destruct (decide (i = j)) as [<-|Hne].
  - rewrite !lookup_alter_eq. by destruct (insns d !! i).
  - by rewrite !lookup_alter_ne.
Qed.

(** The changes that functions of the code make. *)
Lemma change_replace d i x f pl new : wf d -> computes d i x -> changes d i (fun x => set pl new (f x)) x ->
  (forall r, sat r d -> holds r i (set pl new (f x))) -> sound d (replace_pseudo i pl new (modify i f d)).2.
Proof.
  intros Hwf Hc Hch Hh. unfold replace_pseudo. simpl. eapply sound_kills; [|apply remove_usage_kills].
  rewrite modify_modify. by eapply change_sound.
Qed.

Lemma replace_pseudo_sound d i x pl new : wf d -> computes d i x -> changes d i (set pl new) x ->
  (forall r, sat r d -> holds r i (set pl new x)) -> sound d (replace_pseudo i pl new d).2.
Proof.
  intros Hwf Hc Hch Hh. unfold replace_pseudo. simpl. eapply sound_kills; [|apply remove_usage_kills]. by eapply change_sound.
Qed.

Lemma replace_with_value_sound d i x v : wf d -> computes d i x -> (forall r, sat r d -> u64 v = r i) ->
  sound d (replace_with_value i v d).2.
Proof.
  intros Hwf Hc Hv. unfold replace_with_value. apply replace_with_pseudo_sound; [done| |].
  - apply below_value, s64_range.
  - intros r Hr. simpl. rewrite u64_s64. auto.
Qed.

Lemma replace_binop_sound d i x o a b : wf d -> computes d i x -> changes d i (fun x => set_src2 b (set_src1 a (set_op o x))) x ->
  (forall r, sat r d -> holds r i (set_src2 b (set_src1 a (set_op o x)))) -> sound d (replace_binop i o a b d).2.
Proof.
  intros Hwf Hc Hch Hh. unfold replace_binop. simpl. eapply sound_kills; [|apply kills_remove, remove_usage_kills].
  by eapply change_sound.
Qed.

Lemma replace_with_unop_sound d i x o a : wf d -> computes d i x -> changes d i (fun x => set_src1 a (set_op o x)) x ->
  (forall r, sat r d -> holds r i (set_src1 a (set_op o x))) -> sound d (replace_with_unop i o a d).2.
Proof.
  intros Hwf Hc Hch Hh. unfold replace_with_unop. simpl. eapply sound_kills; [|apply remove_usage_kills].
  by eapply (change_replace d i x (set_op o) P1).
Qed.

(** OUT(IN(a, b), c) *)
Lemma swap_insn_sound d i x k y a b c : wf d -> computes d i x -> computes d k y -> i <> k -> only_user d k i ->
  changes d i (fun x => set_src2 c (set_src1 (REG k) (set_op (op y) x))) x ->
  changes d i (fun z => set_src2 b (set_src1 a (set_op (op x) z))) y ->
  REG k ∉ operands (set_src2 b (set_src1 a (set_op (op x) y))) ->
  (forall r, sat r d -> exists v, holds (set_reg k v r) k (set_src2 b (set_src1 a (set_op (op x) y))) /\
    holds (set_reg k v r) i (set_src2 c (set_src1 (REG k) (set_op (op y) x)))) ->
  sound d (swap_insn i k a b c d).2.
Proof.
  intros Hwf Hc Hck Hne Hu Hch Hchk Hk Hh. unfold swap_insn, replace_insn_pair. simpl.
  eapply sound_kills; [|apply kills_remove, kills_remove, kills_remove, remove_usage_kills].
  assert (insn_at d i = x) as -> by (unfold insn_at; by rewrite (c_lookup _ _ _ Hc)).
  assert (insn_at d k = y) as -> by (unfold insn_at; by rewrite (c_lookup _ _ _ Hck)).
  by eapply inner_sound.
Qed.

(** A pseudo that is still used is not killed with. *)
Lemma remove_usage_used p d i x : insns d !! i = Some x -> p ∈ operands x -> remove_usage p d = d.
Proof.
  intros Hx Hp. unfold remove_usage, rem_usage. destruct p; try done.
  destruct (has_users d (REG nr)) eqn:Hu; [done|]. apply has_users_false in Hu. by destruct (Hu i x).
Qed.
End graphs.
