(* ===== verification/SimplifyConst.v ===== *)
(** * Arithmetic on n bits and evaluation of constants, for the rules of simplify.c

    Reduction modulo 2^n commutes with the operations; the bits of sums, shifts and
    extensions; what a [long long] that holds an n-bit value is. *)
From stdpp Require Import base option gmap list.
From S2P Require Import Prelude Bits Simplify SimplifyFacts.
#[local] Open Scope Z_scope.

(** ** Modulo 2^n *)

Lemma ucast_add_l n a b : ucast n (ucast n a + b) = ucast n (a + b).
Proof. apply Zplus_mod_idemp_l. Qed.
Lemma ucast_add_r n a b : ucast n (a + ucast n b) = ucast n (a + b).
Proof. apply Zplus_mod_idemp_r. Qed.
Lemma ucast_sub_l n a b : ucast n (ucast n a - b) = ucast n (a - b).
Proof. apply Zminus_mod_idemp_l. Qed.
Lemma ucast_sub_r n a b : ucast n (a - ucast n b) = ucast n (a - b).
Proof. apply Zminus_mod_idemp_r. Qed.
Lemma ucast_mul_l n a b : ucast n (ucast n a * b) = ucast n (a * b).
Proof. apply Zmult_mod_idemp_l. Qed.
Lemma ucast_mul_r n a b : ucast n (a * ucast n b) = ucast n (a * b).
Proof. apply Zmult_mod_idemp_r. Qed.
Lemma ucast_opp_in n a : ucast n (- ucast n a) = ucast n (- a).
Proof. rewrite <- !Z.sub_0_l. apply ucast_sub_r. Qed.
Lemma ucast_ucast n a : ucast n (ucast n a) = ucast n a.
Proof. apply Zmod_mod. Qed.
Lemma ucast_opp_sub n a b : ucast n (- ucast n a - b) = ucast n (- a - b).
Proof. by rewrite <- ucast_sub_l, ucast_opp_in, ucast_sub_l. Qed.
Lemma lnot_eq a : Z.lnot a = - a - 1.
Proof. unfold Z.lnot. lia. Qed.

Create Rewrite HintDb umod.
#[export] Hint Rewrite ucast_add_l ucast_add_r ucast_sub_l ucast_sub_r ucast_mul_l ucast_mul_r ucast_opp_in ucast_opp_sub ucast_ucast lnot_eq : umod.

(** Equations between sums and products modulo 2^n. *)
Ltac umod := autorewrite with umod; f_equal; ring.

Lemma ucast_id n a : within n a -> ucast n a = a.
Proof. apply ucast_small. Qed.

Lemma within_ucast n a : 0 <= n -> within n (ucast n a).
Proof. apply ucast_range. Qed.

Lemma within_b2z n b : 1 <= n -> within n (Z.b2z b).
Proof.
  intros Hn. assert (2 ^ 1 <= 2 ^ n) by (apply Z.pow_le_mono_r; lia). unfold within. destruct b; simpl; lia.
Qed.

Lemma within_mono n m a : n <= m -> within n a -> within m a.
Proof. intros Hnm [H0 H1]. split; [done|]. eapply Z.lt_le_trans; [done|]. apply Z.pow_le_mono_r; lia. Qed.

Lemma within_0 n : 0 <= n -> within n 0.
Proof. intros. unfold within. lia. Qed.

(** ** Bits *)

Lemma testbit_ucast n a k : 0 <= n -> 0 <= k -> Z.testbit (ucast n a) k = (k <? n) && Z.testbit a k.
Proof.
  intros Hn Hk. unfold ucast. destruct (Z.ltb_spec k n).
  - by rewrite Z.mod_pow2_bits_low.
  - by rewrite Z.mod_pow2_bits_high by lia.
Qed.

Lemma testbit_within n a k : 0 <= n -> within n a -> n <= k -> Z.testbit a k = false.
Proof. intros Hn Ha Hk. rewrite <- (ucast_id n a Ha), testbit_ucast by lia. by destruct (Z.ltb_spec k n); [lia|]. Qed.

Lemma within_of_bits n a : 0 <= n -> 0 <= a -> (forall k, n <= k -> Z.testbit a k = false) -> within n a.
Proof.
  intros Hn Ha Hb. assert (ucast n a = a) as <-; [|by apply within_ucast]. apply Z.bits_inj'. intros k Hk.
  rewrite testbit_ucast by lia. destruct (Z.ltb_spec k n); [done|]. by rewrite Hb.
Qed.

Lemma within_land n a b : 0 <= n -> within n a -> 0 <= b -> within n (Z.land a b).
Proof.
  intros Hn Ha Hb. apply within_of_bits; [done|apply Z.land_nonneg; left; apply Ha|].
  intros k Hk. by rewrite Z.land_spec, (testbit_within n a).
Qed.

Lemma within_land_r n a b : 0 <= n -> 0 <= a -> within n b -> within n (Z.land a b).
Proof. intros. rewrite Z.land_comm. by apply within_land. Qed.

Lemma within_lor n a b : 0 <= n -> within n a -> within n b -> within n (Z.lor a b).
Proof.
  intros Hn Ha Hb. apply within_of_bits; [done|apply Z.lor_nonneg; split; [apply Ha|apply Hb]|].
  intros k Hk. by rewrite Z.lor_spec, (testbit_within n a), (testbit_within n b).
Qed.

Lemma within_lxor n a b : 0 <= n -> within n a -> within n b -> within n (Z.lxor a b).
Proof.
  intros Hn Ha Hb. apply within_of_bits; [done| |].
  - rewrite <- (ucast_id n a Ha), <- (ucast_id n b Hb). apply Z.lxor_nonneg. split; intros _; by apply within_ucast.
  - intros k Hk. by rewrite Z.lxor_spec, (testbit_within n a), (testbit_within n b).
Qed.

Lemma within_div n a k : within n a -> 0 <= k -> within n (a / 2 ^ k).
Proof.
  intros [H0 H1] Hk. split; [apply Z.div_pos; [done|apply Z.pow_pos_nonneg; lia]|].
  eapply Z.le_lt_trans; [|done]. apply Z.div_le_upper_bound; [apply Z.pow_pos_nonneg; lia|]. 
  assert (1 <= 2 ^ k) by (change 1 with (2 ^ 0); apply Z.pow_le_mono_r; lia). nia.
Qed.

Lemma testbit_scast n a k : 1 <= n -> 0 <= k -> Z.testbit (scast n a) k = Z.testbit a (Z.min k (n - 1)).
Proof.
  intros Hn Hk. destruct (Z.ltb_spec k n) as [Hlt|Hge].
  - rewrite Z.min_l by lia. assert (Z.testbit (ucast n (scast n a)) k = Z.testbit (ucast n a) k) as H.
    { f_equal. apply ucast_scast. }
    rewrite !testbit_ucast in H by lia. destruct (Z.ltb_spec k n); [done|lia].
  - rewrite Z.min_r by lia. pose proof (scast_range n a ltac:(lia)) as Hr.
    assert (2 ^ (n - 1) <= 2 ^ k) by (apply Z.pow_le_mono_r; lia).
    assert (Z.testbit (scast n a) k = (scast n a <? 0)) as ->.
    { rewrite Z.testbit_odd, Z.shiftr_div_pow2 by lia. destruct (Z.ltb_spec (scast n a) 0).
      - replace (scast n a / 2 ^ k) with (-1); [done|]. apply Z.div_unique with (r := scast n a + 2 ^ k); lia.
      - by rewrite Z.div_small by lia. }
    assert (Z.testbit (ucast n (scast n a)) (n - 1) = Z.testbit (ucast n a) (n - 1)) as Hs by (f_equal; apply ucast_scast).
    rewrite !testbit_ucast in Hs by lia. destruct (Z.ltb_spec (n - 1) n) as [_|]; [|lia]. simpl in Hs. rewrite <- Hs.
    rewrite Z.testbit_odd, Z.shiftr_div_pow2 by lia. destruct (Z.ltb_spec (scast n a) 0).
    + replace (scast n a / 2 ^ (n - 1)) with (-1); [done|]. apply Z.div_unique with (r := scast n a + 2 ^ (n - 1)); lia.
    + by rewrite Z.div_small by lia.
Qed.

(** ** Constants *)

Lemma bits_mask_ones n : good_size n -> bits_mask n = Z.ones n.
Proof. apply mask_all. Qed.

Lemma bits_mask_eq n : good_size n -> bits_mask n = 2 ^ n - 1.
Proof. intros Hn. rewrite bits_mask_ones by done. rewrite Z.ones_equiv. lia. Qed.

Lemma sign_mask_eq n : good_size n -> sign_mask n = 2 ^ (n - 1) - 1.
Proof. intros Hn. unfold sign_mask. rewrite mask_pred by done. rewrite Z.ones_equiv. lia. Qed.

Lemma land_bits_mask n a : good_size n -> Z.land a (bits_mask n) = ucast n a.
Proof. intros Hn. rewrite bits_mask_ones by done. apply Z.land_ones. unfold good_size in Hn. lia. Qed.

Lemma pow_le_two64 n : good_size n -> 2 <= 2 ^ n <= two64.
Proof.
  intros Hn. unfold good_size in *. split; [change 2 with (2 ^ 1) at 1; apply Z.pow_le_mono_r; lia|by apply pow_le_64].
Qed.

Lemma within_u64 n a : good_size n -> within n a -> is_u64 a.
Proof. intros Hn Ha. pose proof (pow_le_two64 n Hn). unfold within, is_u64 in *. lia. Qed.

Lemma u64_within n a : good_size n -> within n a -> u64 a = a.
Proof. intros Hn Ha. by apply u64_small, (within_u64 n). Qed.

Lemma u64_eqb v w : is_s64 v -> is_s64 w -> (u64 v =? u64 w) = (v =? w).
Proof.
  intros Hv Hw. destruct (Z.eqb_spec v w) as [-> |Hne]; [apply Z.eqb_refl|].
  apply Z.eqb_neq. intros H. by apply Hne, u64_inj_s64.
Qed.

Lemma u64_eqb_0 v : is_s64 v -> (v =? 0) = (u64 v =? 0).
Proof. intros Hv. rewrite <- (u64_eqb v 0) by (done || unfold is_s64, two63; lia). done. Qed.

Lemma u64_eqb_1 v : is_s64 v -> (v =? 1) = (u64 v =? 1).
Proof. intros Hv. rewrite <- (u64_eqb v 1) by (done || unfold is_s64, two63; lia). done. Qed.

Lemma u64_land_s64 a b : u64 (Z.land a b) = Z.land (u64 a) (u64 b).
Proof.
  apply Z.bits_inj'. intros k Hk. unfold u64. change two64 with (2 ^ 64).
  change (Z.testbit (ucast 64 (Z.land a b)) k = Z.testbit (Z.land (ucast 64 a) (ucast 64 b)) k).
  rewrite Z.land_spec, !testbit_ucast, Z.land_spec by lia. destruct (k <? 64); simpl; [done|by rewrite ?andb_false_r].
Qed.

Lemma u64_lor_s64 a b : u64 (Z.lor a b) = Z.lor (u64 a) (u64 b).
Proof.
  apply Z.bits_inj'. intros k Hk. change (Z.testbit (ucast 64 (Z.lor a b)) k = Z.testbit (Z.lor (ucast 64 a) (ucast 64 b)) k).
  rewrite Z.lor_spec, !testbit_ucast, Z.lor_spec by lia. by destruct (k <? 64).
Qed.

Lemma u64_lxor_s64 a b : u64 (Z.lxor a b) = Z.lxor (u64 a) (u64 b).
Proof.
  apply Z.bits_inj'. intros k Hk. change (Z.testbit (ucast 64 (Z.lxor a b)) k = Z.testbit (Z.lxor (ucast 64 a) (ucast 64 b)) k).
  rewrite Z.lxor_spec, !testbit_ucast, Z.lxor_spec by lia. by destruct (k <? 64).
Qed.

Lemma u64_lnot a : u64 (Z.lnot a) = lnot64 (u64 a).
Proof.
  rewrite lnot64_opp by apply u64_range. change (ucast 64 (Z.lnot a) = ucast 64 (- ucast 64 a - 1)).
  rewrite <- ucast_sub_l, ucast_opp_in, ucast_sub_l, lnot_eq. done.
Qed.

(** Operations on each bit stay in 64 bits. *)
Lemma s64_bitwise (f : Z -> Z -> Z) (g : bool -> bool -> bool) v w :
  (forall a b k, 0 <= k -> Z.testbit (f a b) k = g (Z.testbit a k) (Z.testbit b k)) ->
  is_s64 v -> is_s64 w -> is_s64 (f v w).
Proof.
  intros Hf Hv Hw. assert (s64 (f v w) = f v w) as <-; [|apply s64_range].
  apply Z.bits_inj'. intros k Hk. change (Z.testbit (scast 64 (f v w)) k = Z.testbit (f v w) k).
  rewrite testbit_scast, !Hf by lia.
  rewrite <- (s64_small v Hv), <- (s64_small w Hw). change s64 with (scast 64). rewrite !testbit_scast by lia.
  by rewrite <- Z.min_assoc, Z.min_id.
Qed.

Lemma s64_land_small v w : is_s64 v -> is_s64 w -> is_s64 (Z.land v w).
Proof. apply (s64_bitwise _ andb). intros. apply Z.land_spec. Qed.

Lemma s64_lor_small v w : is_s64 v -> is_s64 w -> is_s64 (Z.lor v w).
Proof. apply (s64_bitwise _ orb). intros. apply Z.lor_spec. Qed.

Lemma s64_lxor_small v w : is_s64 v -> is_s64 w -> is_s64 (Z.lxor v w).
Proof. apply (s64_bitwise _ xorb). intros. apply Z.lxor_spec. Qed.

Lemma s64_lnot_small v : is_s64 v -> is_s64 (Z.lnot v).
Proof. unfold is_s64, Z.lnot, two63. lia. Qed.

(** A negative value in n bits, with the bits above set. *)
Definition extend (n v : Z) : Z := if Z.land v (s64 (sign_bit n)) =? 0 then v else Z.lor v (Z.lnot (s64 (bits_mask n))).

Lemma extend_scast n v : is_s64 v -> good_size n -> within n (u64 v) -> extend n v = scast n (u64 v).
Proof.
  intros Hv Hn Hw. unfold extend. pose proof Hn as Hn'. unfold good_size in Hn'.
  assert ((Z.land v (s64 (sign_bit n)) =? 0) = (u64 v <? 2 ^ (n - 1))) as ->.
  { rewrite u64_eqb_0 by (apply s64_land_small; [done|apply s64_range]). rewrite u64_land_s64, u64_s64.
    rewrite (u64_small (sign_bit n)) by (unfold sign_bit; apply u64_range). by apply land_sign_bit. }
  rewrite scast_cases by done. destruct (Z.ltb_spec (u64 v) (2 ^ (n - 1))) as [Hlt|Hge].
  - rewrite u64_nonneg; try done. assert (2 ^ (n - 1) <= two63) by (change two63 with (2 ^ 63); apply Z.pow_le_mono_r; lia).
    unfold u64, is_s64, two63, two64 in *. Z.div_mod_to_equations. lia.
  - apply u64_inj_s64.
    + apply s64_lor_small; [done|]. apply s64_lnot_small, s64_range.
    + pose proof (scast_is_s64 n Hn (u64 v)) as Hs. rewrite scast_cases in Hs by done.
      by destruct (Z.ltb_spec (u64 v) (2 ^ (n - 1))); [lia|].
    + rewrite u64_lor_s64, u64_lnot, u64_s64, (u64_small (bits_mask n)), bits_mask_ones, lor_high; try done.
      * unfold u64 at 2. apply Z.mod_unique_pos with (-1); [|lia].
        pose proof (pow_half n Hn). pose proof (pow_le_two64 n Hn). unfold within in Hw. lia.
      * rewrite bits_mask_eq by done. pose proof (pow_le_two64 n Hn). unfold is_u64. lia.
Qed.

Lemma land_le a b : 0 <= b -> Z.land a b <= b.
Proof.
  intros Hb. assert (b - Z.land a b = Z.ldiff b (Z.land a b)) as He.
  { apply Z.sub_nocarry_ldiff. apply Z.bits_inj'. intros k Hk. rewrite Z.ldiff_spec, Z.land_spec, Z.testbit_0_l.
    by destruct (Z.testbit a k), (Z.testbit b k). }
  assert (0 <= Z.ldiff b (Z.land a b)); [|lia]. apply Z.ldiff_nonneg. auto.
Qed.

Lemma lor_ge a b : 0 <= a -> 0 <= b -> b <= Z.lor a b.
Proof.
  intros Ha Hb. assert (Z.lor a b - b = Z.ldiff (Z.lor a b) b) as He.
  { apply Z.sub_nocarry_ldiff. apply Z.bits_inj'. intros k Hk. rewrite Z.ldiff_spec, Z.lor_spec, Z.testbit_0_l.
    by destruct (Z.testbit a k), (Z.testbit b k). }
  assert (0 <= Z.ldiff (Z.lor a b) b); [|lia]. apply Z.ldiff_nonneg. left. by apply Z.lor_nonneg.
Qed.

(** ** Extensions and powers of two *)

Lemma sign_extend_scast n v : is_s64 v -> good_size n -> within n (u64 v) -> sign_extend v n = scast n (u64 v).
Proof.
  intros Hv Hn Hw. unfold sign_extend, sign_mask. rewrite land_sign_bit, scast_cases by done.
  destruct (Z.ltb_spec (u64 v) (2 ^ (n - 1))) as [Hlt|Hge]; simpl.
  - rewrite u64_nonneg; try done. unfold good_size in Hn.
    assert (2 ^ (n - 1) <= two63) by (change two63 with (2 ^ 63); apply Z.pow_le_mono_r; lia).
    unfold u64, is_s64, two63, two64 in *. Z.div_mod_to_equations. lia.
  - rewrite lor_above by (done || unfold within in Hw; lia). rewrite s64_back. apply s64_small.
    pose proof (scast_is_s64 n Hn (u64 v)) as Hs. rewrite scast_cases in Hs by done. by destruct (Z.ltb_spec (u64 v) (2 ^ (n - 1))); [lia|].
Qed.

Lemma zero_extend_ucast n v : good_size n -> u64 (zero_extend v n) = ucast n v.
Proof.
  intros Hn. unfold zero_extend. rewrite u64_s64, land_bits_mask, ucast_u64 by done. apply (u64_within n); [done|].
  apply within_ucast. unfold good_size in Hn. lia.
Qed.

Lemma power_of_2 b : 0 < b -> Z.land b (b - 1) = 0 -> b = 2 ^ Z.log2 b.
Proof.
  intros Hb Hl. destruct (Z.eq_dec b (2 ^ Z.log2 b)) as [|Hne]; [done|]. exfalso.
  pose proof (Z.log2_spec b Hb). pose proof (Z.log2_nonneg b).
  assert (Z.log2 (b - 1) = Z.log2 b) as He by (apply Z.log2_unique; lia).
  assert (0 < 2 ^ Z.log2 b) by (apply Z.pow_pos_nonneg; lia).
  assert (Z.testbit (Z.land b (b - 1)) (Z.log2 b) = true) as Ht.
  { rewrite Z.land_spec, Z.bit_log2 by done. rewrite <- He at 1. by rewrite Z.bit_log2 by lia. }
  by rewrite Hl, Z.testbit_0_l in Ht.
Qed.

Lemma is_power_of_2_eq v : is_s64 v -> is_power_of_2 v = true -> u64 v = 2 ^ Z.log2 (u64 v) /\ 0 < u64 v.
Proof.
  intros Hv Hp. unfold is_power_of_2 in Hp. apply andb_true_iff in Hp as [Hz%negb_true_iff Hl%Z.eqb_eq].
  rewrite u64_eqb_0 in Hz by done. apply Z.eqb_neq in Hz. pose proof (u64_range v) as Hr. unfold is_u64 in Hr.
  assert (0 < u64 v) as Hpos by lia. split; [|done]. apply power_of_2; [done|]. rewrite <- Hl. f_equal.
  unfold u64 in *. rewrite <- (Zminus_mod_idemp_l v), (Z.mod_small (v mod two64 - 1)) by lia. done.
Qed.

Lemma land_power a k : 0 <= k -> Z.land a (2 ^ k) = if Z.testbit a k then 2 ^ k else 0.
Proof.
  intros Hk. apply Z.bits_inj'. intros j Hj. rewrite Z.land_spec, Z.pow2_bits_eqb by done. destruct (Z.eqb_spec k j) as [<-|Hne].
  - rewrite andb_true_r. destruct (Z.testbit a k) eqn:E; [by rewrite Z.pow2_bits_true|by rewrite Z.testbit_0_l].
  - rewrite andb_false_r. destruct (Z.testbit a k); [by rewrite Z.pow2_bits_false|by rewrite Z.testbit_0_l].
Qed.

Lemma sign_extend_minus_one n : good_size n -> sign_extend (-1) n = -1.
Proof.
  intros Hn. unfold sign_extend. change (u64 (-1)) with (Z.ones 64). pose proof (pow_pos_half n Hn). pose proof (pow_half n Hn).
  pose proof (pow_le_two64 n Hn). rewrite sign_bit_pow, (Z.land_comm (Z.ones 64)), Z.land_ones by (done || lia).
  rewrite Z.mod_small by (change (2 ^ 64) with two64; lia). destruct (Z.eqb_spec (2 ^ (n - 1)) 0); [lia|]. simpl.
  assert (Z.lor (Z.ones 64) (lnot64 (sign_mask n)) = Z.ones 64) as ->; [|done].
  assert (is_u64 (lnot64 (sign_mask n))) as Hr by (rewrite lnot64_opp by apply u64_range; apply u64_range).
  rewrite Z.lor_comm. unfold is_u64 in Hr. destruct (Z.eq_dec (lnot64 (sign_mask n)) 0) as [-> |Hne]; [done|].
  apply Z.lor_ones_low; [lia|]. apply Z.log2_lt_pow2; [lia|]. change (2 ^ 64) with two64. lia.
Qed.

(** ** Evaluation of constants, and the lemmas that read a rule of simplify.c *)

(** The bits of a result. *)
Lemma result_bits n res : good_size n -> u64 (Z.land (s64 res) (s64 (bits_mask n))) = ucast n res.
Proof.
  intros Hn. rewrite u64_land_s64, !u64_s64, (u64_small (bits_mask n)), land_bits_mask by
    (done || rewrite bits_mask_eq by done; pose proof (pow_le_two64 n Hn); unfold is_u64; lia).
  by apply ucast_u64.
Qed.

Lemma extend_bits n v : is_s64 v -> good_size n -> within n (u64 v) -> u64 (Z.land (extend n v) (s64 (bits_mask n))) = u64 v.
Proof.
  intros Hv Hn Hw. rewrite extend_scast by done.
  rewrite <- (s64_small (scast n (u64 v))), result_bits, ucast_scast, ucast_id by (done || by apply scast_is_s64). done.
Qed.

Lemma shift_within n b : good_size n -> 0 <= b < n -> within n b.
Proof. intros Hn Hb. pose proof (Z.pow_gt_lin_r 2 n). unfold good_size, within in *. lia. Qed.

Lemma scast_nonneg_small n b : good_size n -> 0 <= b < 2 ^ (n - 1) -> scast n b = b.
Proof. intros Hn Hb. apply scast_small; unfold good_size in *; lia. Qed.

(** The operation that eval_op() performs, on the values with and without their signs. *)
Definition eval_bin (o : opcode) (n left right ul ur : Z) : option Z :=
  let overflow := (left =? s64 (sign_bit n)) && (right =? -1) in
  match o with
  | OP_NEG => Some (- left)
  | OP_NOT => Some (lnot64 ul)
  | OP_ADD => Some (left + right)
  | OP_SUB => Some (left - right)
  | OP_MUL => Some (ul * ur)
  | OP_DIVU => if ur =? 0 then None else Some (ul / ur)
  | OP_DIVS => if right =? 0 then None else if overflow then None else Some (Z.quot left right)
  | OP_MODU => if ur =? 0 then None else Some (ul mod ur)
  | OP_MODS => if right =? 0 then None else if overflow then None else Some (Z.rem left right)
  | OP_SHL => if n <=? ur then None else Some (Z.shiftl left right)
  | OP_LSR => if n <=? ur then None else Some (Z.shiftr ul ur)
  | OP_ASR => if n <=? ur then None else Some (Z.shiftr left right)
  | OP_AND => Some (Z.land left right)
  | OP_OR => Some (Z.lor left right)
  | OP_XOR => Some (Z.lxor left right)
  | OP_SET_EQ => Some (Z.b2z (left =? right))
  | OP_SET_NE => Some (Z.b2z (negb (left =? right)))
  | OP_SET_LE => Some (Z.b2z (left <=? right))
  | OP_SET_GE => Some (Z.b2z (right <=? left))
  | OP_SET_LT => Some (Z.b2z (left <? right))
  | OP_SET_GT => Some (Z.b2z (right <? left))
  | OP_SET_B => Some (Z.b2z (ul <? ur))
  | OP_SET_A => Some (Z.b2z (ur <? ul))
  | OP_SET_BE => Some (Z.b2z (ul <=? ur))
  | OP_SET_AE => Some (Z.b2z (ur <=? ul))
  | _ => None
  end.

Lemma eval_op_bin o n p1 p2 :
  eval_op o n p1 p2 =
  res ← eval_bin o n (extend n (value_of p1)) (extend n (value_of p2))
    (u64 (Z.land (extend n (value_of p1)) (s64 (bits_mask n)))) (u64 (Z.land (extend n (value_of p2)) (s64 (bits_mask n))));
  Some (value_pseudo (Z.land (s64 res) (s64 (bits_mask n)))).
Proof. reflexivity. Qed.

Lemma ucast_land n a b : ucast n (Z.land a b) = Z.land (ucast n a) (ucast n b).
Proof.
  destruct (Z.leb_spec 0 n) as [Hn|Hn].
  - apply Z.bits_inj'. intros k Hk. rewrite Z.land_spec, !testbit_ucast, Z.land_spec by done. destruct (k <? n); simpl; [done|by rewrite ?andb_false_r].
  - unfold ucast. by rewrite !Z.pow_neg_r, !Z.mod_0_r by done.
Qed.

Lemma ucast_bitwise n (f : Z -> Z -> Z) (g : bool -> bool -> bool) a b : 0 <= n -> g false false = false ->
  (forall a b k, 0 <= k -> Z.testbit (f a b) k = g (Z.testbit a k) (Z.testbit b k)) ->
  ucast n (f a b) = f (ucast n a) (ucast n b).
Proof.
  intros Hn Hg Hf. apply Z.bits_inj'. intros k Hk. rewrite Hf, !testbit_ucast, Hf by done. by destruct (k <? n).
Qed.

Lemma ucast_lor n a b : 0 <= n -> ucast n (Z.lor a b) = Z.lor (ucast n a) (ucast n b).
Proof. intros Hn. apply (ucast_bitwise n Z.lor orb); [done|done|]. intros. apply Z.lor_spec. Qed.

Lemma ucast_lxor n a b : 0 <= n -> ucast n (Z.lxor a b) = Z.lxor (ucast n a) (ucast n b).
Proof. intros Hn. apply (ucast_bitwise n Z.lxor xorb); [done|done|]. intros. apply Z.lxor_spec. Qed.

(** Sums and differences of signed values, and their sign in n bits. *)
Lemma ucast_add_scast n a b : good_size n -> ucast n (scast n a + scast n b) = ucast n (a + b).
Proof. intros Hn. rewrite <- ucast_add_l, ucast_scast, ucast_add_l, <- ucast_add_r, ucast_scast, ucast_add_r by done. done. Qed.

Lemma ucast_sub_scast n a b : good_size n -> ucast n (scast n a - scast n b) = ucast n (a - b).
Proof. intros Hn. rewrite <- ucast_sub_l, ucast_scast, ucast_sub_l, <- ucast_sub_r, ucast_scast, ucast_sub_r by done. done. Qed.

Lemma ucast_mul_scast n a b : good_size n -> ucast n (scast n a * b) = ucast n (a * b).
Proof. intros Hn. by rewrite <- ucast_mul_l, ucast_scast, ucast_mul_l by done. Qed.

Lemma scast_inj n a b : good_size n -> within n a -> within n b -> scast n a = scast n b -> a = b.
Proof. intros Hn Ha Hb H. rewrite <- (ucast_id n a Ha), <- (ucast_id n b Hb), <- (ucast_scast n a), H. by apply ucast_scast. Qed.

Lemma scast_eqb n a b : good_size n -> within n a -> within n b -> (scast n a =? scast n b) = (a =? b).
Proof.
  intros Hn Ha Hb. destruct (Z.eqb_spec a b) as [-> |Hne]; [apply Z.eqb_refl|]. apply Z.eqb_neq. intros H. by apply Hne, (scast_inj n).
Qed.

Lemma scast_0 n : good_size n -> scast n 0 = 0.
Proof. intros Hn. apply scast_small; pose proof (pow_pos_half n Hn); unfold good_size in *; lia. Qed.

Lemma scast_eqb_0 n a : good_size n -> within n a -> (scast n a =? 0) = (a =? 0).
Proof. intros Hn Ha. rewrite <- (scast_0 n Hn) at 1. apply scast_eqb; try done. apply within_0. unfold good_size in *; lia. Qed.

Lemma size_le_half n : good_size n -> n <= 2 ^ (n - 1).
Proof. intros Hn. unfold good_size in Hn. pose proof (Z.pow_gt_lin_r 2 (n - 1)). lia. Qed.

Lemma within_div_le n a b : within n a -> 0 <= b -> within n (a / b).
Proof.
  intros [H0 H1] Hb. destruct (Z.eq_dec b 0) as [-> |Hne]; [rewrite Z.div_0_r; unfold within; lia|].
  split; [apply Z.div_pos; lia|]. eapply Z.le_lt_trans; [|done]. apply Z.div_le_upper_bound; nia.
Qed.

Lemma within_mod n a b : within n b -> b <> 0 -> within n (a mod b).
Proof. intros [H0 H1] Hb. pose proof (Z.mod_pos_bound a b). unfold within. lia. Qed.

(** The value of an operator on values of the size of its operands. *)
Lemma eval_bin_sem x a b c w res : OPF_BINOP (op x) = true ->
  let m := if OPF_COMPARE (op x) then itype x else size x in
  within m a -> within m b -> typed x a b c -> sem x a b c = Some w ->
  eval_bin (op x) m (scast m a) (scast m b) a b = Some res -> good_size m /\ ucast m res = w.
Proof.
  intros Hb m Ha Hw Ht Hs He. destruct x as [o ta n bx p q u l]. unfold typed, sem in *. subst m. simpl in *.
  assert (good_size (if OPF_COMPARE o then itype (Insn o ta n bx p q u l) else n)) as Hn by (destruct o; simpl in *; tauto).
  split; [done|]. destruct Ht as [_ Ht].
  destruct o; try done; simpl in *; try (simplify_eq; rewrite ?scast_eqb by done; apply ucast_id, within_b2z; unfold good_size in Hn; lia);
    assert (0 <= n) as Hn0 by (unfold good_size in Hn; lia).
  - simplify_eq. by apply ucast_add_scast.
  - by simplify_eq.
  - simplify_eq. by apply ucast_sub_scast.
  - destruct (b =? 0); simplify_eq. apply ucast_id, within_div_le; [done|apply Hw].
  - rewrite scast_eqb_0 in He by done. destruct (b =? 0); simpl in *; [done|]. repeat case_match; by simplify_eq.
  - destruct (Z.eqb_spec b 0); simplify_eq. apply ucast_id, within_mod; [apply Hw|done].
  - rewrite scast_eqb_0 in He by done. destruct (b =? 0); simpl in *; [done|]. repeat case_match; by simplify_eq.
  - destruct (Z.ltb_spec b n), (Z.leb_spec n b); simplify_eq; try lia.
    rewrite Z.shiftr_div_pow2 by apply Hw. apply ucast_id, within_div; [done|apply Hw].
  - destruct (Z.ltb_spec b n), (Z.leb_spec n b); simplify_eq; try lia.
    rewrite (scast_nonneg_small n b) by (done || pose proof (size_le_half n Hn); unfold within in Hw; lia).
    rewrite Z.shiftr_div_pow2 by apply Hw. done.
  - destruct (Z.ltb_spec b n), (Z.leb_spec n b); simplify_eq; try lia.
    rewrite (scast_nonneg_small n b) by (done || pose proof (size_le_half n Hn); unfold within in Hw; lia).
    rewrite Z.shiftl_mul_pow2 by apply Hw. by apply ucast_mul_scast.
  - simplify_eq. by rewrite ucast_land, !ucast_scast, !ucast_id by done.
  - simplify_eq. by rewrite ucast_lor, !ucast_scast, !ucast_id by done.
  - simplify_eq. by rewrite ucast_lxor, !ucast_scast, !ucast_id by done.
Qed.

Lemma eval_op_val o n v w : is_s64 v -> is_s64 w -> good_size n -> within n (u64 v) -> within n (u64 w) ->
  eval_op o n (VAL v) (VAL w) =
  res ← eval_bin o n (scast n (u64 v)) (scast n (u64 w)) (u64 v) (u64 w);
  Some (value_pseudo (Z.land (s64 res) (s64 (bits_mask n)))).
Proof. intros. rewrite eval_op_bin. simpl. by rewrite !extend_bits, !extend_scast by done. Qed.

(** ** Comparisons *)

Definition cmp_val (o : opcode) (m a b : Z) : bool :=
  match o with
  | OP_SET_EQ => a =? b
  | OP_SET_NE => negb (a =? b)
  | OP_SET_LT => scast m a <? scast m b
  | OP_SET_LE => scast m a <=? scast m b
  | OP_SET_GT => scast m b <? scast m a
  | OP_SET_GE => scast m b <=? scast m a
  | OP_SET_B => a <? b
  | OP_SET_BE => a <=? b
  | OP_SET_A => b <? a
  | _ => b <=? a
  end.

Lemma cmp_negate o m a b : OPF_COMPARE o = true -> cmp_val (opcode_negate o) m a b = negb (cmp_val o m a b).
Proof.
  destruct o; try done; intros _; simpl; rewrite ?negb_involutive, ?Z.leb_antisym, ?negb_involutive; done.
Qed.

Lemma cmp_swap o m a b : OPF_COMPARE o = true -> cmp_val (opcode_swap o) m a b = cmp_val o m b a.
Proof. destruct o; try done; intros _; simpl; [|f_equal]; apply Z.eqb_sym. Qed.

(** What a comparison needs of its operands. *)
Definition cmp_typed (x : insn) (a b : Z) : Prop :=
  within (itype x) a /\ within (itype x) b \/
  (op x = OP_SET_EQ \/ op x = OP_SET_NE) /\ src2 x = VAL 0 /\ within 64 a /\ within 64 b.

Section const.
Context `{At : Atoms}.

Lemma val_result r n res : good_size n -> val r (value_pseudo (Z.land (s64 res) (s64 (bits_mask n)))) = ucast n res.
Proof. intros Hn. simpl. rewrite u64_s64. by apply result_bits. Qed.

(** An operator is replaced by its value. *)
Lemma eval_insn_sound r i x v w q : src1 x = VAL v -> src2 x = VAL w -> is_s64 v -> is_s64 w -> OPF_BINOP (op x) = true ->
  holds r i x -> eval_insn x = Some q -> val r q = r i.
Proof.
  intros H1 H2 Hv Hw Ho [Ht Hs] He. rewrite H1, H2 in Ht, Hs. simpl in Ht, Hs. unfold eval_insn in He. rewrite H1, H2 in He.
  set (m := if OPF_COMPARE (op x) then itype x else size x) in *.
  assert (within m (u64 v) /\ within m (u64 w) \/ (op x = OP_SET_EQ \/ op x = OP_SET_NE) /\ w = 0) as [[Ha Hb]|[Hz ->]].
  { subst m. destruct x as [o ta n b x1 x2 u l]. unfold typed, sem in *. simpl in *. destruct Ht as [Hn Ht].
    destruct o; try done; simpl in *; try tauto; simplify_eq.
    1-3: left; split; [tauto|]; destruct (Z.ltb_spec (u64 w) n); [|done]; apply shift_within; [done|]; pose proof (u64_range w); unfold is_u64 in *; lia.
    all: destruct Ht as (_ & _ & _ & [[= ->]|?]); [right|left]; auto. }
  - assert (good_size m) as Hm by (subst m; destruct x as [o ta n b x1 x2 u l]; unfold typed in *; destruct o; simpl in *; tauto).
    rewrite eval_op_val in He by done. destruct (eval_bin _ _ _ _ _ _) as [res|] eqn:Hres; simplify_eq/=.
    rewrite u64_s64, result_bits by done. by apply (eval_bin_sem x (u64 v) (u64 w) (val r (src3 x)) (r i) res).
  - assert (m = itype x) as -> by (subst m; by destruct Hz as [-> | ->]).
    assert (good_size (itype x)) as Hm by (unfold typed in Ht; destruct Hz as [Hz|Hz]; rewrite Hz in Ht; tauto).
    rewrite eval_op_bin in He. simpl in He. change (extend (itype x) 0) with 0 in He.
    assert ((extend (itype x) v =? 0) = (u64 v =? 0)) as Hx.
    { rewrite <- u64_eqb_0 by done. unfold extend. destruct (Z.eqb_spec (Z.land v (s64 (sign_bit (itype x)))) 0); [done|].
      destruct (Z.eqb_spec v 0) as [-> |]; [done|]. apply Z.eqb_neq. intros [H _]%Z.lor_eq_0_iff. done. }
    unfold sem in Hs. destruct Hz as [Hz|Hz]; rewrite Hz in He, Hs; simplify_eq/=; rewrite Hx in *;
      rewrite <- Hs, u64_s64, result_bits by done; apply ucast_id, within_b2z; unfold good_size in Hm; lia.
Qed.

(** The operators with which the rules fold constants always have a value. *)
Definition folds (o : opcode) : bool :=
  match o with OP_ADD | OP_SUB | OP_MUL | OP_AND | OP_OR | OP_XOR | OP_NOT | OP_NEG => true | _ => false end.

Lemma folds_value o n p q : folds o = true -> exists z, evaluated (eval_op o n p q) = VAL z /\ is_s64 z.
Proof. intros Ho. destruct o; try done; eexists; (split; [reflexivity|apply s64_range]). Qed.

Definition fold_val (o : opcode) (a b : Z) : Z :=
  match o with
  | OP_ADD => a + b | OP_SUB => a - b | OP_MUL => a * b | OP_AND => Z.land a b | OP_OR => Z.lor a b | OP_XOR => Z.lxor a b
  | OP_NOT => Z.lnot a | _ => - a
  end.

Lemma val_folds r o n p q v w : folds o = true -> p = VAL v -> q = VAL w -> is_s64 v -> is_s64 w -> good_size n ->
  within n (u64 v) -> within n (u64 w) -> val r (evaluated (eval_op o n p q)) = ucast n (fold_val o (u64 v) (u64 w)).
Proof.
  intros Ho -> -> Hv Hw Hn Ha Hb. rewrite eval_op_val by done. assert (0 <= n) by (unfold good_size in Hn; lia).
  destruct o; try done; simpl; rewrite u64_s64, result_bits by done.
  - by apply ucast_add_scast.
  - done.
  - by apply ucast_sub_scast.
  - by rewrite ucast_land, !ucast_scast, <- ucast_land by done.
  - by rewrite ucast_lor, !ucast_scast, <- ucast_lor by done.
  - by rewrite ucast_lxor, !ucast_scast, <- ucast_lxor by done.
  - rewrite lnot64_opp by apply u64_range. rewrite ucast_u64 by done. by rewrite lnot_eq.
  - by rewrite <- ucast_opp_in, ucast_scast, ucast_opp_in.
Qed.

Lemma val_eval_unop r o n p v : o = OP_NOT \/ o = OP_NEG -> p = VAL v -> is_s64 v -> good_size n -> within n (u64 v) ->
  val r (evaluated (eval_unop o n p)) = ucast n (fold_val o (u64 v) 0).
Proof.
  intros Ho -> Hv Hn Ha. change (eval_unop o n (VAL v)) with (eval_op o n (VAL v) (VAL 0)).
  destruct Ho as [-> | ->]; apply (val_folds r _ n (VAL v) (VAL 0) v 0); try done; apply within_0; unfold good_size in Hn; lia.
Qed.

Lemma holds_cmp r i x : OPF_COMPARE (op x) = true -> holds r i x <->
  good_size (size x) /\ good_size (itype x) /\ cmp_typed x (val r (src1 x)) (val r (src2 x)) /\
  r i = Z.b2z (cmp_val (op x) (itype x) (val r (src1 x)) (val r (src2 x))).
Proof.
  intros Ho. destruct x as [o t n b p q u l]. unfold holds, typed, sem, cmp_typed. simpl in *.
  assert (forall v, within (itype (Insn o t n b p q u l)) v -> good_size (itype (Insn o t n b p q u l)) -> within 64 v) as Hw.
  { intros v Hv Hm. eapply within_mono; [|done]. unfold good_size in Hm. lia. }
  destruct o; try done; simpl; split; intros H; repeat match goal with H : _ /\ _ |- _ => destruct H end;
    repeat match goal with H : Some _ = Some _ |- _ => apply (inj Some) in H end; split_and?; try done; try congruence; try tauto.
  all: match goal with H : _ \/ _ |- _ => destruct H as [(? & ?)|H] end; try done; try (destruct H; tauto); eauto.
  all: try (destruct H1 as ([? | ?] & ? & ? & ?); done).
Qed.

(** ** Values fit *)

Lemma within_quot n a b : good_size n -> within n (ucast n (Z.quot (scast n a) (scast n b))).
Proof. intros Hn. apply within_ucast. unfold good_size in Hn. lia. Qed.

(** The result of an operator on operands of its size is of its size. *)
Lemma sem_within x a b c w : typed x a b c -> sem x a b c = Some w -> within (size x) w.
Proof.
  intros Ht Hs. destruct x as [o t n bx p q u l]. unfold typed, sem in *. simpl in *. destruct Ht as [Hn Ht].
  assert (0 <= n) as Hn0 by (unfold good_size in Hn; lia). assert (1 <= n) as Hn1 by (unfold good_size in Hn; lia).
  destruct o; try done; try (injection Hs as <-); try (by apply within_ucast); try (by apply within_b2z).
  all: repeat case_match; try done; try (injection Hs as <-); try (by apply within_ucast); try tauto.
  - apply within_div_le; [tauto|]. apply Ht.
  - apply within_mod; [tauto|]. by apply Z.eqb_neq.
  - apply within_div; [tauto|]. apply Ht.
  - apply within_land; [done|tauto|]. apply Ht.
  - by apply within_lor; [|apply Ht..].
  - by apply within_lxor; [|apply Ht..].
  - eapply within_mono; [|apply Ht]. lia.
Qed.

Lemma def_within r d p j y : sat r d -> def_of d p = Some (j, y) -> live y -> good_size (size y) -> within (size y) (val r p).
Proof.
  intros Hr Hd Hl Hn. destruct p; try done. simpl in *. apply fmap_Some in Hd as (z & Hz & [= -> ->]).
  specialize (Hr nr z Hz Hl). destruct (is_value_op (op z)); [|by apply Hr]. destruct Hr as [Ht Hs]. by eapply sem_within.
Qed.
End const.
