(* ===== verification/SimplifyRules.v ===== *)
(** * Rules of simplify.c for one instruction and constants

    Each rule gives the instruction, or an operand that only it uses, a form with the same
    value.  The lemmas are about the functions of Simplify.v, one for each. *)
From stdpp Require Import base option gmap list.
From S2P Require Import Prelude Bits Simplify SimplifyFacts SimplifyConst.
#[local] Open Scope Z_scope.

Section rules.
Context `{At : Atoms}.

(** ** Reading the graph *)

Lemma at_computes d i x : computes d i x -> insn_at d i = x.
Proof. intros Hc. unfold insn_at. by rewrite (c_lookup _ _ _ Hc). Qed.

Lemma below_all d i x : computes d i x -> Forall (below d i) (operands x).
Proof. intros Hc. apply Forall_forall. intros p Hp%list_elem_of_In. by apply (below_of d i x). Qed.

Lemma below_src1 d i x : computes d i x -> below d i (src1 x).
Proof. intros Hc. apply (below_of d i x _ Hc). pose proof (c_op _ _ _ Hc). destruct x as [[] ? ? ? ? ? ? ?]; try done; left. Qed.

Lemma below_src2 d i x : computes d i x -> arity (op x) = 2 -> below d i (src2 x).
Proof. intros Hc Ha. apply (below_of d i x _ Hc). destruct x as [[] ? ? ? ? ? ? ?]; try done; right; left. Qed.

Lemma def_computes d i p j y : wf d -> below d i p -> def_of d p = Some (j, y) -> is_value_op (op y) = true ->
  p = REG j /\ computes d j y /\ j <> i.
Proof.
  intros Hwf Hb Hd Ho. destruct (computes_def d i p j y Hwf Hb Hd Ho) as [-> Hc]. split_and!; try done.
  intros ->. by apply (below_not_self d i).
Qed.

(** A step of simplification is right, and says so if it changed anything. *)
Definition ok (d : dag) (res : Z * dag) : Prop := sound d res.2 /\ (res.1 = 0 -> res.2 = d).

Lemma ok_same d (z : Z) : wf d -> ok d (z, d).
Proof. intros Hwf. split; [by apply sound_refl|done]. Qed.

Lemma ok_lor d changed rc d' : ok d (rc, d') -> ok d (Z.lor changed rc, d').
Proof. intros [H1 H2]. split; [done|]. simpl in *. rewrite Z.lor_eq_0_iff. tauto. Qed.

Lemma ok_changed d d' : sound d d' -> ok d (REPEAT_CSE, d').
Proof. by split. Qed.

Lemma kill_changes d i x : insns d !! i = Some x -> live x -> op x <> OP_OTHER true -> (kill_instruction i d).1 <> 0.
Proof.
  intros Hx Hl Ho. unfold kill_instruction, kill_fuel. simpl. unfold insn_at. rewrite Hx. simpl. unfold live in Hl.
  destruct (bb x); [|done]. unfold oeq. rewrite bool_decide_eq_false_2 by done. simpl. unfold REPEAT_CSE.
  rewrite Z.lor_eq_0_iff. by intros [_ ?].
Qed.

Lemma replace_changes i x q d : computes d i x -> REG i <> q -> (replace_with_pseudo i q d).1 <> 0.
Proof.
  intros Hc Hne. apply kill_changes with (subst (REG i) q x); [by rewrite lookup_convert, (c_lookup _ _ _ Hc)|by apply live_subst, Hc|].
  rewrite op_subst. pose proof (c_op _ _ _ Hc). intros E. by rewrite E in *.
Qed.

Lemma replace_with_pseudo_ok i x q d : wf d -> computes d i x -> below d i q -> (forall r, sat r d -> val r q = r i) ->
  ok d (replace_with_pseudo i q d).
Proof.
  intros Hwf Hc Hb Hv. split; [by apply replace_with_pseudo_sound|]. intros Hz. exfalso. revert Hz.
  apply (replace_changes i x); [done|]. intros <-. by apply (below_not_self d i).
Qed.

Lemma replace_with_value_ok d i x v : wf d -> computes d i x -> (forall r, sat r d -> u64 v = r i) -> ok d (replace_with_value i v d).
Proof.
  intros Hwf Hc Hv. eapply replace_with_pseudo_ok; [done|done|apply below_value, s64_range|].
  intros r Hr. simpl. rewrite u64_s64. auto.
Qed.

Lemma change_ok d i x f : wf d -> computes d i x -> changes d i f x -> (forall r, sat r d -> holds r i (f x)) ->
  ok d (REPEAT_CSE, modify i f d).
Proof. intros. by eapply ok_changed, change_sound. Qed.

Lemma change_replace_ok d i x f pl new : wf d -> computes d i x -> changes d i (fun x => set pl new (f x)) x ->
  (forall r, sat r d -> holds r i (set pl new (f x))) -> ok d (replace_pseudo i pl new (modify i f d)).
Proof. intros. split; [by eapply change_replace|done]. Qed.

Lemma replace_pseudo_ok d i x pl new : wf d -> computes d i x -> changes d i (set pl new) x ->
  (forall r, sat r d -> holds r i (set pl new x)) -> ok d (replace_pseudo i pl new d).
Proof. intros. split; [by eapply replace_pseudo_sound|done]. Qed.

Lemma replace_binop_ok d i x o a b : wf d -> computes d i x -> changes d i (fun x => set_src2 b (set_src1 a (set_op o x))) x ->
  (forall r, sat r d -> holds r i (set_src2 b (set_src1 a (set_op o x)))) -> ok d (replace_binop i o a b d).
Proof. intros. split; [by eapply replace_binop_sound|done]. Qed.

Lemma change_binop_ok d i x f o a b : wf d -> computes d i x -> changes d i (fun x => set_src2 b (set_src1 a (set_op o (f x)))) x ->
  (forall r, sat r d -> holds r i (set_src2 b (set_src1 a (set_op o (f x))))) -> ok d (replace_binop i o a b (modify i f d)).
Proof.
  intros Hwf Hc Hch Hh. split; [|done]. unfold replace_binop. simpl.
  eapply sound_kills; [|apply kills_remove, remove_usage_kills]. rewrite modify_modify. by eapply change_sound.
Qed.

Lemma replace_with_unop_ok d i x o a : wf d -> computes d i x -> changes d i (fun x => set_src1 a (set_op o x)) x ->
  (forall r, sat r d -> holds r i (set_src1 a (set_op o x))) -> ok d (replace_with_unop i o a d).
Proof. intros. split; [by eapply replace_with_unop_sound|done]. Qed.

Lemma or_else_ok f g d : ok d (f d) -> ok d (g d) -> ok d (or_else f g d).
Proof.
  intros Hf Hg. unfold or_else. destruct (f d) as [rc d'] eqn:E. destruct (Z.eqb_spec rc 0) as [-> |]; [|done].
  destruct Hf as [_ Hf]. simpl in Hf. by rewrite Hf.
Qed.

Lemma either_ok f g d : ok d (f d) -> ok d (g d) -> ok d (either f g d).
Proof.
  intros Hf Hg. unfold either. destruct (f d) as [rc d'] eqn:E. destruct (Z.eqb_spec rc 0) as [-> |].
  - destruct Hf as [_ Hf]. simpl in Hf. rewrite Hf by done. destruct (g d) as [rc2 d2]. destruct Hg as [Hg1 Hg2].
    split; [done|]. simpl in *. destruct (Z.eqb_spec rc2 0); [auto|done].
  - split; [apply Hf|done].
Qed.
End rules.

Create HintDb sound.
#[export] Hint Resolve ok_same : sound.
Create HintDb below.
#[export] Hint Resolve below_trans below_value s64_range : below.

#[global] Opaque eval_op.
#[global] Arguments Z.lnot : simpl never.

(** An instruction as a record of its fields, with a known opcode. *)
Ltac opened x :=
  let o := fresh "o" in let t := fresh "t" in let n := fresh "n" in let b := fresh "b" in
  let p := fresh "p" in let q := fresh "q" in let u := fresh "u" in let l := fresh "l" in
  destruct x as [o t n b p q u l]; simpl in *; subst.

(** What is known of the operands of the instructions. *)
Ltac belows :=
  repeat match goal with
  | Hc : computes ?d ?i ?x |- _ =>
    lazymatch goal with
    | _ : Forall (below d i) _ |- _ => fail
    | |- _ => let H := fresh "Hbelow" in pose proof (below_all d i x Hc) as H; unfold operands in H; simpl in H
    end
  end;
  repeat match goal with
  | H : Forall (below _ _) (_ :: _) |- _ => apply Forall_cons_iff in H as [? ?]
  | H : Forall (below _ _) [] |- _ => clear H
  end;
  repeat match goal with
  | Hwf : wf ?d, Hb : below ?d ?i (VAL ?v) |- _ =>
    lazymatch goal with _ : is_s64 v |- _ => fail | |- _ => pose proof (below_s64 d i (VAL v) Hwf Hb v eq_refl) end
  end.

(** An operand of a changed instruction can be seen by it. *)
Ltac chg :=
  belows; split; [match goal with Hc : computes _ _ _ |- _ => solve [apply (c_live _ _ _ Hc)] end|done|];
  let p := fresh "p" in let Hp := fresh "Hp" in
  intros p Hp; unfold operands in Hp; simpl in Hp;
  repeat (apply elem_of_cons in Hp as [-> |Hp]; [eauto with below|]); by apply not_elem_of_nil in Hp.

(** The instructions that have one hold a type in their third slot. *)
Lemma no_type : ~ good_size 0.
Proof. unfold good_size. lia. Qed.

Ltac slots :=
  repeat match goal with
  | H : good_size (itype (Insn _ _ _ _ _ _ ?u _)) |- _ =>
    is_var u; let m := fresh "m" in
    destruct u as [|m]; [destruct (no_type H)|]; cbn [itype u3] in *
  end.

(** What a valuation satisfies. *)
Ltac sems Hr :=
  belows;
  repeat match goal with
  | Hc : computes ?d ?i ?x |- _ =>
    let T := fresh "T" in let S := fresh "S" in
    destruct (sat_computes _ d i x Hr Hc) as [T S]; unfold typed, sem in T, S; simpl in T, S; clear Hc
  end;
  repeat match goal with H : _ /\ _ |- _ => destruct H end;
  repeat match goal with H : Some _ = Some _ |- _ => apply (inj Some) in H end;
  slots; unfold holds, typed, sem; simpl; rewrite ?u64_s64; change (u64 0) with 0 in *; change (u64 1) with 1 in *.

(** The value of the instruction, by its definition. *)
Ltac result :=
  lazymatch goal with
  | |- Some _ = Some _ => f_equal
  | |- _ => idtac
  end;
  lazymatch goal with |- _ = ?v => match goal with H : _ = v |- _ => rewrite <- H end end;
  repeat match goal with H : _ = ?r ?j |- context [?r ?j] => is_var r; rewrite <- H end; simpl.

(** The rule does nothing. *)
Ltac same := solve [eauto with sound|by apply sound_refl].

(** The definition of an operand; rules look at those that compute values. *)
Ltac visible :=
  match goal with Hc : computes ?d ?i ?x |- below ?d ?i _ =>
    apply (below_of d i x _ Hc); destruct x; simpl in *; subst; unfold operands; simpl; set_solver end.
Tactic Notation "defined" ident(y) :=
  let j := fresh "j" in let Hd := fresh "Hd" in let Hv := fresh "Hv" in let Hy := fresh "Hy" in let Hne := fresh "Hne" in let Hp := fresh "Hp" in
  match goal with |- context [def_of ?d ?p] =>
    destruct (def_of d p) as [[j y]|] eqn:Hd; [|same];
    destruct (is_value_op (op y)) eqn:Hv; [|destruct y as [[] ? ? ? ? ? ? ?]; first [discriminate Hv|apply ok_same; assumption]];
    match goal with Hwf : wf d, Hc : computes d ?i ?x |- _ =>
      destruct (def_computes d i p j y Hwf) as (Hp & Hy & Hne); [visible|exact Hd|exact Hv|]
    end
  end.

Section rules.
Context `{At : Atoms}.

(** ** Two constants, equal operands *)

Lemma simplify_constant_binop_ok d i x v w : wf d -> computes d i x -> OPF_BINOP (op x) = true ->
  src1 x = VAL v -> src2 x = VAL w -> ok d (simplify_constant_binop i d).
Proof.
  intros Hwf Hc Ho H1 H2. unfold simplify_constant_binop. rewrite (at_computes _ _ _ Hc).
  destruct (eval_insn x) as [q|] eqn:Hq; [|same].
  assert (is_s64 v /\ is_s64 w) as [Hv Hw].
  { opened x. destruct o; try done; belows; done. }
  eapply replace_with_pseudo_ok; [done|done| |].
  - unfold eval_insn in Hq. rewrite eval_op_bin in Hq. apply bind_Some in Hq as (res & _ & [= <-]). apply below_value, s64_range.
  - intros r Hr. eapply eval_insn_sound; try done. by eapply sat_computes.
Qed.

Lemma simplify_binop_same_args_ok d i x : wf d -> computes d i x -> src1 x = src2 x ->
  ok d (simplify_binop_same_args i (src1 x) d).
Proof.
  intros Hwf Hc He. unfold simplify_binop_same_args. rewrite (at_computes _ _ _ Hc). opened x.
  destruct o; try same; try (eapply replace_with_value_ok; [done|done|]; intros r Hr; sems Hr).
  all: try (eapply replace_with_pseudo_ok; [done|done|belows; done|]; intros r Hr; sems Hr).
  all: result; rewrite ?Z.sub_diag, ?Z.land_diag, ?Z.lor_diag, ?Z.lxor_nilpotent, ?Z.eqb_refl, ?Z.ltb_irrefl, ?Z.leb_refl; done.
Qed.

(** ** The order of the operands *)

Lemma switch_args d i x : computes d i x -> arity (op x) = 2 ->
  (switch_pseudo i P1 i P2 d).2 = modify i (fun z => set_src2 (src1 x) (set_src1 (src2 x) z)) d.
Proof.
  intros Hc Ha. unfold switch_pseudo. rewrite (at_computes _ _ _ Hc). simpl. rewrite modify_modify.
  assert (insns (modify i (fun z => set_src2 (src1 x) (set_src1 (src2 x) z)) d) !! i = Some (set_src2 (src1 x) (set_src1 (src2 x) x))) as Hx.
  { by rewrite lookup_modify, (c_lookup _ _ _ Hc). }
  assert (operands (set_src2 (src1 x) (set_src1 (src2 x) x)) = [src2 x; src1 x]) as Ho by (opened x; by destruct o).
  simpl. rewrite (remove_usage_used (src1 x) _ i _ Hx), (remove_usage_used (src2 x) _ i _ Hx); [done|rewrite Ho..]; set_solver.
Qed.

Lemma repeat_sound d d' z : sound d d' -> sound d (set_repeat z d').
Proof. intros H. eapply sound_kills; [done|]. apply kills_repeat, kills_refl. Qed.

Lemma canonical_val p v : canonical_order p (VAL v) = true.
Proof. by destruct p. Qed.

Lemma canonicalize_commutative_sound d i x : wf d -> computes d i x -> OPF_COMMU (op x) = true ->
  sound d (canonicalize_commutative i d).2.
Proof.
  intros Hwf Hc Ho. unfold canonicalize_commutative. rewrite (at_computes _ _ _ Hc).
  destruct (canonical_order (src1 x) (src2 x)) eqn:Hcan; [same|].
  assert (src2 x <> VAL 0) by (intros Hz; by rewrite Hz, canonical_val in Hcan).
  assert (arity (op x) = 2) as Ha by (destruct (op x); done).
  pose proof (switch_args d i x Hc Ha) as Hsw. destruct (switch_pseudo i P1 i P2 d) as [z d'] eqn:E. simpl in *. subst d'.
  apply repeat_sound, (change_sound d i x); [done|done| |].
  - opened x. destruct o; try done; chg.
  - intros r Hr. opened x. destruct o; try done; sems Hr.
    all: split; [tauto|result].
    all: first [apply Z.land_comm|apply Z.lor_comm|apply Z.lxor_comm|f_equal; first [ring|apply Z.eqb_sym|f_equal; apply Z.eqb_sym]].
Qed.

Lemma canonicalize_compare_sound d i x : wf d -> computes d i x -> OPF_COMPARE (op x) = true ->
  sound d (canonicalize_compare i d).2.
Proof.
  intros Hwf Hc Ho. unfold canonicalize_compare. rewrite (at_computes _ _ _ Hc).
  destruct (canonical_order (src1 x) (src2 x)) eqn:Hcan; [same|].
  assert (src2 x <> VAL 0) by (intros Hz; by rewrite Hz, canonical_val in Hcan).
  assert (arity (op x) = 2) as Ha by (destruct (op x); done).
  pose proof (switch_args d i x Hc Ha) as Hsw. destruct (switch_pseudo i P1 i P2 d) as [z d'] eqn:E. simpl in *. subst d'.
  rewrite modify_modify. apply repeat_sound, (change_sound d i x); [done|done| |].
  - opened x. destruct o; try done; chg.
  - intros r Hr. opened x. destruct o; try done; sems Hr.
    all: split; [tauto|result; f_equal; first [done|apply Z.eqb_sym|f_equal; apply Z.eqb_sym]].
Qed.

(** ** A constant on the left *)

Lemma constant_inv p : constant p = true -> exists v, p = VAL v.
Proof. destruct p; try done. eauto. Qed.

Lemma folded_below d i o n p q : folds o = true -> below d i (evaluated (eval_op o n p q)).
Proof. intros Ho. destruct (folds_value o n p q Ho) as (z & -> & Hz). by apply below_value. Qed.

Lemma unop_below d i o n p : folds o = true -> below d i (evaluated (eval_unop o n p)).
Proof. apply folded_below. Qed.

Lemma good_nonneg n : good_size n -> 0 <= n.
Proof. unfold good_size. lia. Qed.

Lemma within_1 n : good_size n -> within n 1.
Proof. intros Hn. pose proof (pow_le_two64 n Hn). unfold within. lia. Qed.
End rules.

#[export] Hint Resolve folded_below unop_below : below.
Create HintDb within.
#[export] Hint Resolve good_nonneg within_ucast within_0 within_1 within_land within_lor within_lxor within_div : within.

(** Goals of types: sizes and ranges. *)
Ltac ranges := split_and?; eauto 4 with within.

Section rules.
Context `{At : Atoms}.

Lemma simplify_const_leftsub_ok d i x j y v : wf d -> computes d i x -> computes d j y -> op x = OP_SUB ->
  src1 x = VAL v -> src2 x = REG j -> size y = size x -> ok d (simplify_const_leftsub i y d).
Proof.
  intros Hwf Hc Hy Ho H1 H2 Hsz. unfold simplify_const_leftsub. rewrite (at_computes _ _ _ Hc). opened x. opened y.
  destruct o; try same.
  - destruct (constant q) eqn:Hk; [|same]. apply constant_inv in Hk as [w ->].
    eapply change_replace_ok; [done|done|chg|]. intros r Hr. sems Hr.
    rewrite (val_folds r OP_SUB _ _ _ v w) by done. split; [ranges|result]. umod.
  - destruct (constant p) eqn:Hk; [|same]. apply constant_inv in Hk as [w ->].
    eapply change_replace_ok; [done|done|chg|]. intros r Hr. sems Hr.
    rewrite (val_folds r OP_SUB _ _ _ v w) by done. split; [ranges|result]. umod.
Qed.

(** The definition of an operand has the size [n]. *)
Definition sized (d : dag) (p : pseudo) (n : Z) : Prop := forall j y, def_of d p = Some (j, y) -> size y = n.

(** An operand by its value. *)
Lemma pseudo_ok d i x p : wf d -> computes d i x -> p ∈ operands x -> (forall r, sat r d -> val r p = r i) ->
  ok d (replace_with_pseudo i p d).
Proof. intros Hwf Hc Hp Hv. eapply replace_with_pseudo_ok; [done|done|by eapply below_of|done]. Qed.

Lemma simplify_constant_leftside_ok d i x v : wf d -> computes d i x -> src1 x = VAL v ->
  (op x = OP_SUB -> sized d (src2 x) (size x)) -> ok d (simplify_constant_leftside i d).
Proof.
  intros Hwf Hc H1 Hsz. unfold simplify_constant_leftside. rewrite (at_computes _ _ _ Hc), H1. simpl.
  destruct (op x) eqn:Ho; try same; destruct (Z.eqb_spec v 0) as [-> |Hv]; try same.
  all: try (opened x; eapply pseudo_ok; [done|done|unfold operands; simpl; set_solver|]; intros r Hr; sems Hr; result;
    change (u64 0) with 0; rewrite ?Z.add_0_l, ?Z.lor_0_l, ?Z.lxor_0_l, ?Z.land_0_l, ?Z.mul_0_l, ?ucast_id; done).
  - opened x. eapply replace_with_unop_ok; [done|done|chg|]. intros r Hr. sems Hr. split; [ranges|result]. umod.
  - defined y. eapply simplify_const_leftsub_ok; try done. by eapply Hsz.
  - opened x. eapply pseudo_ok; [done|done|unfold operands; simpl; set_solver|]. intros r Hr. sems Hr. case_match; [|done].
    apply (inj Some) in S. by rewrite <- S, Zdiv_0_l.
  - opened x. eapply pseudo_ok; [done|done|unfold operands; simpl; set_solver|]. intros r Hr. sems Hr. case_match; [|done].
    apply (inj Some) in S. by rewrite <- S, scast_0, Zdiv_0_l.
  - opened x. eapply pseudo_ok; [done|done|unfold operands; simpl; set_solver|]. intros r Hr. sems Hr. case_match; [|done].
    apply (inj Some) in S. by rewrite <- S.
Qed.

(** ** A constant on the right *)

Lemma simplify_const_rightadd_ok d i x j y v : wf d -> computes d i x -> computes d j y -> op x = OP_ADD ->
  src1 x = REG j -> src2 x = VAL v -> size y = size x -> ok d (simplify_const_rightadd y i d).
Proof.
  intros Hwf Hc Hy Ho H1 H2 Hsz. unfold simplify_const_rightadd. rewrite (at_computes _ _ _ Hc). opened x. opened y.
  destruct o; try same. destruct (constant p) eqn:Hk; [|same]. apply constant_inv in Hk as [w ->].
  eapply change_replace_ok; [done|done|chg|]. intros r Hr. sems Hr.
  rewrite (val_folds r OP_ADD _ _ _ w v) by done. split; [ranges|result]. umod.
Qed.

Lemma constant_rightadd_ok d i x v value changed : wf d -> computes d i x -> op x = OP_ADD -> src2 x = VAL v ->
  (value = 0 -> u64 v = 0) -> sized d (src1 x) (size x) -> ok d (constant_rightadd i value changed d).
Proof.
  intros Hwf Hc Ho H2 H0 Hsz. unfold constant_rightadd. rewrite (at_computes _ _ _ Hc).
  destruct (Z.eqb_spec value 0) as [Hz|_].
  - specialize (H0 Hz). opened x. eapply pseudo_ok; [done|done|unfold operands; simpl; set_solver|]. intros r Hr. sems Hr.
    result. by rewrite H0, Z.add_0_r, ucast_id.
  - defined y. pose proof (simplify_const_rightadd_ok d i x j y v Hwf Hc Hy Ho Hp H2 (Hsz j y Hd)) as H.
    destruct (simplify_const_rightadd y i d) as [rc d']. by apply ok_lor.
Qed.

Lemma sized_modify d i f p n : p <> REG i -> sized d p n -> sized (modify i f d) p n.
Proof.
  intros Hp Hs j y. destruct p; try done. unfold def_of. rewrite lookup_modify_ne by congruence. apply Hs.
Qed.

Lemma computes_modify d i f x : computes d i x -> changes d i f x -> computes (modify i f d) i (f x).
Proof. intros Hc Hch. split; [by rewrite lookup_modify, (c_lookup _ _ _ Hc)|apply Hch|apply Hch]. Qed.

(** x - C becomes x + (-C). *)
Lemma constant_rightsub_ok d i x v : wf d -> computes d i x -> op x = OP_SUB -> src2 x = VAL v ->
  sized d (src1 x) (size x) ->
  ok d (constant_rightadd i v REPEAT_CSE
    (modify i (fun x => set_src2 (evaluated (eval_unop OP_NEG (size x) (src2 x))) (set_op OP_ADD x)) d)).
Proof.
  intros Hwf Hc Ho H2 Hsz. destruct (folds_value OP_NEG (size x) (src2 x) VOID eq_refl) as (w & Hw & Hw64).
  set (f := fun x => set_src2 (evaluated (eval_unop OP_NEG (size x) (src2 x))) (set_op OP_ADD x)).
  assert (changes d i f x) as Hch by (subst f; opened x; chg).
  assert (src1 x <> REG i) as Hne by (intros Hs; apply (below_not_self d i Hwf); rewrite <- Hs; by apply below_src1).
  pose proof (computes_modify d i f x Hc Hch) as Hc'.
  assert (sound d (modify i f d)) as Hs1.
  { apply (change_sound d i x f); try done. intros r Hr. subst f. opened x. sems Hr.
    rewrite (val_eval_unop r OP_NEG n (VAL v) v) by auto. split; [ranges|result]. umod. }
  assert (ok (modify i f d) (constant_rightadd i v REPEAT_CSE (modify i f d))) as [Hs2 Hrc].
  { apply (constant_rightadd_ok _ i (f x) w); try done; [apply Hs1| |by apply sized_modify].
    intros ->. rewrite H2 in Hw. by injection Hw as <-. }
  split; [by eapply sound_trans|]. intros Hz. exfalso. revert Hz. unfold constant_rightadd. destruct (v =? 0) eqn:Hv.
  - apply (replace_changes i (f x)); [done|]. by rewrite (at_computes _ _ _ Hc').
  - case_match; [|done]. destruct p. destruct (simplify_const_rightadd _ _ _) as [rc d']. simpl. rewrite Z.lor_eq_0_iff. by intros [? _].
Qed.

(** Division by 1 and by -1. *)
Lemma quot_one n a : good_size n -> within n a -> (scast n a =? - 2 ^ (n - 1)) && (scast n 1 =? -1) = false ->
  ucast n (Z.quot (scast n a) (scast n 1)) = a.
Proof.
  intros Hn Ha Ho. destruct (Z.eqb_spec n 1) as [-> |Hne].
  - assert (a = 0 \/ a = 1) as [-> | ->] by (unfold within in Ha; lia); [done|]. by vm_compute in Ho.
  - rewrite (scast_nonneg_small n 1), Z.quot_1_r, ucast_scast, ucast_id; try done.
    assert (2 ^ 1 <= 2 ^ (n - 1)); [apply Z.pow_le_mono_r; unfold good_size in Hn; lia|lia].
Qed.

Lemma minus_one n v : is_s64 v -> good_size n -> within n (u64 v) ->
  Z.land v (s64 (sign_bit n)) <> 0 -> Z.lor v (Z.lnot (s64 (bits_mask n))) = -1 -> scast n (u64 v) = -1.
Proof.
  intros Hv Hn Hw Hs Ho. rewrite <- extend_scast by done. unfold extend. by apply Z.eqb_neq in Hs as ->.
Qed.

Lemma ucast_mul_opp n a b : good_size n -> scast n b = -1 -> ucast n (a * b) = ucast n (- a).
Proof. intros Hn Hb. rewrite Z.mul_comm, <- ucast_mul_scast, Hb by done. apply (f_equal (ucast n)); lia. Qed.

Lemma simplify_mul_div_ok d i x v : wf d -> computes d i x -> op x = OP_MUL \/ op x = OP_DIVU \/ op x = OP_DIVS ->
  src2 x = VAL v -> ok d (simplify_mul_div i v d).
Proof.
  intros Hwf Hc Ho H2. unfold simplify_mul_div. rewrite (at_computes _ _ _ Hc). destruct (Z.eqb_spec v 1) as [-> |Hv1].
  { opened x. destruct Ho as [-> |[-> | ->]]; (eapply pseudo_ok; [done|done|unfold operands; simpl; set_solver|]);
      intros r Hr; sems Hr.
    - result. by rewrite Z.mul_1_r, ucast_id.
    - result. by rewrite Z.div_1_r.
    - simpl in *. destruct (_ && _) eqn:Hov; [done|]. apply (inj Some) in S. by rewrite <- S, quot_one. }
  opened x. destruct Ho as [-> |[-> | ->]]; [destruct (Z.eqb_spec v 0) as [-> |_]| |]; try same.
  { eapply pseudo_ok; [done|done|unfold operands; simpl; set_solver|]. intros r Hr. sems Hr. result. by rewrite Z.mul_0_r. }
  all: destruct (Z.eqb_spec (Z.land v (s64 (sign_bit n))) 0) as [|Hs]; [same|];
    destruct (Z.eqb_spec (Z.lor v (Z.lnot (s64 (bits_mask n)))) (-1)) as [Hm|]; [|same]; simpl;
    (eapply change_ok; [done|done|chg|]); intros r Hr; sems Hr;
    assert (scast n (u64 v) = -1) as Hsc by (apply minus_one; assumption).
  - split; [ranges|result]. by rewrite ucast_mul_opp.
  - rewrite Hsc, Z.eqb_refl, andb_true_r in S. destruct (_ || _); [done|]. apply (inj Some) in S.
    split; [ranges|result]. rewrite <- (Z.quot_unique_exact (scast n (val r p)) (-1) (- scast n (val r p))) by lia.
    by rewrite <- (ucast_opp_in n (scast n _)), ucast_scast, ucast_opp_in by done.
Qed.

(** ** Unary operators *)

Lemma masked_ok d i x res : wf d -> computes d i x ->
  (forall r, sat r d -> good_size (size x) /\ ucast (size x) res = r i) ->
  ok d (replace_with_value i (Z.land (s64 res) (s64 (bits_mask (size x)))) d).
Proof.
  intros Hwf Hc Hr. eapply replace_with_value_ok; [done|done|]. intros r Hs. destruct (Hr r Hs) as [Hn <-]. by apply result_bits.
Qed.

Lemma ucast_within_64 n v : is_s64 v -> good_size n -> ucast n v = ucast n (u64 v).
Proof. intros Hv Hn. by rewrite ucast_u64. Qed.

Lemma simplify_constant_unop_ok d i x v : wf d -> computes d i x -> src1 x = VAL v -> ok d (simplify_constant_unop i d).
Proof.
  intros Hwf Hc H1. unfold simplify_constant_unop. rewrite (at_computes _ _ _ Hc), H1. simpl.
  destruct (op x) eqn:Ho; try same; (eapply masked_ok; [done|done|]); intros r Hr; opened x; sems Hr; (split; [done|]);
    result; rewrite ?ucast_u64 by done.
  - by rewrite !lnot_eq, <- (ucast_sub_l n (- u64 v)), <- ucast_opp_in, ucast_u64, ucast_opp_in, ucast_sub_l.
  - by rewrite <- (ucast_opp_in n (u64 v)), ucast_u64, ucast_opp_in.
  - done.
  - rewrite <- ucast_u64 by done. apply ucast_id. apply (within_mono m); [lia|done].
  - change (ucast n (extend m v) = ucast n (scast m (u64 v))). by rewrite extend_scast.
Qed.

Lemma simplify_unop_ok d i x : wf d -> computes d i x -> op x = OP_NOT \/ op x = OP_NEG ->
  sized d (src1 x) (size x) -> ok d (simplify_unop i d).
Proof.
  intros Hwf Hc Ho Hsz. unfold simplify_unop. rewrite (at_computes _ _ _ Hc).
  destruct (constant (src1 x)) eqn:Hk; [apply constant_inv in Hk as [v Hv]; by eapply simplify_constant_unop_ok|].
  destruct (def_of d (src1 x)) as [[j y]|] eqn:Hd; [|same].
  destruct (is_value_op (op y)) eqn:Hv; [|destruct Ho as [-> | ->], (op y); done || same].
  destruct (def_computes d i (src1 x) j y Hwf) as (Hp & Hy & Hne);
    [by apply below_src1|done|done|].
  specialize (Hsz j y Hd). clear Hd Hk. opened x. opened y.
  destruct Ho as [-> | ->], o0; try same.
  all: try (destruct (constant q0) eqn:Hk; [|same]; apply constant_inv in Hk as [w ->]).
  all: try (destruct (constant p) eqn:Hk; [|same]; apply constant_inv in Hk as [w ->]).
  all: try (eapply change_replace_ok; [done|done|chg|]).
  all: try (eapply replace_with_pseudo_ok; [done|done|belows; eauto with below|]).
  all: intros r Hr; sems Hr.
  all: repeat (rewrite (val_eval_unop r OP_NOT _ _ w) by auto).
  all: repeat (rewrite (val_eval_unop r OP_NEG _ _ w) by auto).
  all: try (split; [ranges|]).
  all: result; try umod.
  - by rewrite Z.lnot_lxor_r, ucast_lxor, (ucast_id n (val r p)) by eauto with within.
  - rewrite <- (ucast_id n (val r p)) at 1 by done. umod.
  - rewrite <- (ucast_id n (val r p)) at 1 by done. umod.
Qed.
End rules.
