(* ===== verification/SimplifyAlgebra.v ===== *)
(** * Rules of simplify.c for operators of operators

    Sums, differences, logical operators and comparisons whose operands are themselves
    results of operators: cancellation, factoring, and comparisons of extended values. *)
From stdpp Require Import base option gmap list.
From S2P Require Import Prelude Bits Simplify SimplifyFacts SimplifyConst SimplifyRules.
#[local] Open Scope Z_scope.

(** ** The five operators that factor *)

Definition folds2 (o : opcode) : bool := match o with OP_ADD | OP_MUL | OP_AND | OP_OR | OP_XOR => true | _ => false end.

Lemma fold_comm o a b : folds2 o = true -> fold_val o a b = fold_val o b a.
Proof. destruct o; try done; intros _; simpl; [lia|lia|apply Z.land_comm|apply Z.lor_comm|apply Z.lxor_comm]. Qed.

Lemma ucast_fold_l o n a b : 0 <= n -> folds2 o = true -> ucast n (fold_val o (ucast n a) b) = ucast n (fold_val o a b).
Proof.
  intros Hn. destruct o; try done; intros _; simpl.
  - apply ucast_add_l.
  - apply ucast_mul_l.
  - by rewrite !ucast_land, ucast_ucast.
  - by rewrite !ucast_lor, ucast_ucast.
  - by rewrite !ucast_lxor, ucast_ucast.
Qed.

Lemma ucast_fold_r o n a b : 0 <= n -> folds2 o = true -> ucast n (fold_val o a (ucast n b)) = ucast n (fold_val o a b).
Proof. intros Hn Ho. rewrite fold_comm, ucast_fold_l, fold_comm by done. done. Qed.

Lemma fold_assoc o a b c : folds2 o = true -> fold_val o (fold_val o a b) c = fold_val o a (fold_val o b c).
Proof. destruct o; try done; intros _; simpl; [lia|lia|symmetry; apply Z.land_assoc|symmetry; apply Z.lor_assoc|apply Z.lxor_assoc]. Qed.

Lemma fold_rotate o a b c : folds2 o = true -> fold_val o (fold_val o a c) b = fold_val o (fold_val o b c) a.
Proof. intros Ho. by rewrite (fold_comm o _ a), (fold_comm o b c), fold_assoc by done. Qed.

(** Which operator distributes over which: [o2] over [o]. *)
Definition distributes (o o2 : opcode) : bool :=
  match o, o2 with OP_ADD, OP_MUL | OP_AND, OP_OR | OP_OR, OP_AND | OP_XOR, OP_AND => true | _, _ => false end.

Lemma fold_distributes o o2 a b c : distributes o o2 = true ->
  fold_val o (fold_val o2 a b) (fold_val o2 c b) = fold_val o2 (fold_val o a c) b.
Proof.
  destruct o, o2; try done; intros _; simpl; [lia| | |].
  - by rewrite Z.lor_land_distr_l.
  - by rewrite Z.land_lor_distr_l.
  - apply Z.bits_inj'. intros k Hk. rewrite !Z.land_spec, !Z.lxor_spec, !Z.land_spec.
    by destruct (Z.testbit a k), (Z.testbit b k), (Z.testbit c k).
Qed.

Lemma distributes_folds o o2 : distributes o o2 = true -> folds2 o = true /\ folds2 o2 = true.
Proof. by destruct o, o2. Qed.

(** ** Shifts move each bit *)

Definition shifts (o : opcode) : bool := match o with OP_SHL | OP_LSR | OP_ASR => true | _ => false end.
Definition bitwise (o : opcode) : bool := match o with OP_AND | OP_OR | OP_XOR => true | _ => false end.

Definition shift_val (o : opcode) (n a s : Z) : Z :=
  match o with
  | OP_SHL => ucast n (Z.shiftl a s)
  | OP_LSR => Z.shiftr a s
  | _ => ucast n (Z.shiftr (scast n a) s)
  end.

(** The bit that comes to a place, if one does. *)
Definition shift_bit (o : opcode) (n s k : Z) : bool * Z :=
  match o with
  | OP_SHL => (k <? n, k - s)
  | OP_LSR => (true, k + s)
  | _ => (k <? n, Z.min (k + s) (n - 1))
  end.

Lemma testbit_shift o n a s k : good_size n -> 0 <= s -> 0 <= k ->
  Z.testbit (shift_val o n a s) k = (shift_bit o n s k).1 && Z.testbit a (shift_bit o n s k).2.
Proof.
  intros Hn Hs Hk. pose proof (good_nonneg n Hn). unfold good_size in Hn.
  assert (Z.testbit (ucast n (Z.shiftr (scast n a) s)) k = (k <? n) && Z.testbit a (Z.min (k + s) (n - 1))) as Hasr.
  { by rewrite testbit_ucast, Z.shiftr_spec, testbit_scast by lia. }
  destruct o; try exact Hasr; simpl.
  - by rewrite Z.shiftr_spec.
  - by rewrite testbit_ucast, Z.shiftl_spec.
Qed.

Lemma shift_bitwise o o2 n a b s : bitwise o = true -> good_size n -> 0 <= s ->
  fold_val o (shift_val o2 n a s) (shift_val o2 n b s) = shift_val o2 n (fold_val o a b) s.
Proof.
  intros Ho Hn Hs. apply Z.bits_inj'. intros k Hk. rewrite testbit_shift by done.
  destruct o; try done; simpl; rewrite ?Z.land_spec, ?Z.lor_spec, ?Z.lxor_spec, !testbit_shift by done;
    destruct (shift_bit o2 n s k) as [[] m]; simpl; rewrite ?Z.land_spec, ?Z.lor_spec, ?Z.lxor_spec; done.
Qed.

Lemma within_shift o n a s : good_size n -> 0 <= s -> within n a -> within n (shift_val o n a s).
Proof.
  intros Hn Hs Ha. pose proof (good_nonneg n Hn). destruct o; try (by apply within_ucast).
  simpl. rewrite Z.shiftr_div_pow2 by done. by apply within_div.
Qed.

(** A value of n bits as a remainder. *)
Ltac lift := lazymatch goal with |- ?v = ucast ?n _ => transitivity (ucast n v); [symmetry; by apply ucast_id|] end.

(** The cases of an element of a list. *)
Ltac elems H :=
  simpl in H; repeat (apply elem_of_cons in H as [-> |H]); try (exfalso; by apply not_elem_of_nil in H).

Section algebra.
Context `{At : Atoms}.

Lemma holds_fold r i x : folds2 (op x) = true -> holds r i x <->
  good_size (size x) /\ within (size x) (val r (src1 x)) /\ within (size x) (val r (src2 x)) /\
  r i = ucast (size x) (fold_val (op x) (val r (src1 x)) (val r (src2 x))).
Proof.
  intros Ho. opened x. unfold holds, typed, sem. destruct o; try done; simpl; split.
  all: try (intros [(Hn & H1 & H2) Hs]; split_and!; [done..|]; apply (inj Some) in Hs; rewrite <- Hs).
  all: try (intros (Hn & H1 & H2 & Hs); split; [done|]; rewrite Hs).
  all: rewrite ?ucast_land, ?ucast_lor, ?ucast_lxor, ?(ucast_id n (val r p)), ?(ucast_id n (val r q)); eauto using good_nonneg.
Qed.

Lemma arity_folds2 o : folds2 o = true -> arity o = 2 /\ is_value_op o = true.
Proof. by destruct o. Qed.

Lemma operands_2 x : arity (op x) = 2 -> operands x = [src1 x; src2 x].
Proof. opened x. by destruct o. Qed.

(** ** Two operations change their order: OUT(IN1(a, b), IN2(c, b)) becomes IN(OUT(a, c), b) *)

Lemma swap_ok d i x j y k z a c b : wf d -> computes d i x -> computes d j y -> computes d k z ->
  operands x = [REG j; REG k] \/ operands x = [REG k; REG j] -> arity (op x) = 2 -> arity (op y) = 2 -> op z = op y ->
  one_use d (REG k) = true -> a ∈ operands y -> b ∈ operands y -> b ∈ operands z -> c ∈ operands z ->
  (forall r, sat r d -> exists v, forall r', r' = set_reg k v r ->
    val r' a = val r a -> val r' b = val r b -> val r' c = val r c -> r' k = v -> r' i = r i ->
    holds r' k (set_src2 c (set_src1 a (set_op (op x) z))) /\ holds r' i (set_src2 b (set_src1 (REG k) (set_op (op y) x)))) ->
  ok d (swap_insn i k a c b d).
Proof.
  intros Hwf Hx Hy Hz Hops Hax Hay Hoz Hone Ha Hb Hbz Hc Hh.
  assert (REG k ∈ operands x /\ REG j ∈ operands x) as [Hk Hj] by (destruct Hops as [-> | ->]; rewrite !elem_of_cons; auto).
  assert (below d i (REG k) /\ below d i (REG j)) as [Hbk Hbj] by (split; by apply (below_of d i x)).
  assert (j <> i) as Hji by (intros ->; by apply (below_not_self d i)).
  assert (k <> i) as Hki by (intros ->; by apply (below_not_self d i)).
  pose proof (one_use_user d k i x Hone (c_lookup _ _ _ Hx) Hk) as Huser.
  assert (j <> k) as Hjk.
  { intros ->. pose proof (one_use_once d (REG k) i x Hone (c_lookup _ _ _ Hx)) as H. unfold uses in H.
    destruct Hops as [E|E]; rewrite E in H; rewrite !filter_cons_True in H by done; simpl in H; lia. }
  assert (forall p, p ∈ operands y -> p <> REG k) as Hyk
    by (intros p Hp ->; apply Hji, (Huser j y (c_lookup _ _ _ Hy) (c_live _ _ _ Hy) Hp)).
  assert (forall p, p ∈ operands z -> p <> REG k) as Hzk.
  { intros p Hp ->. apply (below_not_self d k Hwf). by apply (below_of d k z). }
  assert (forall p, p ∈ operands y -> below d i p) as Hyb by (intros p Hp; apply below_trans with j; [done|by apply (below_of d j y)]).
  assert (forall p, p ∈ operands z -> below d i p) as Hzb by (intros p Hp; apply below_trans with k; [done|by apply (below_of d k z)]).
  pose proof (c_op _ _ _ Hx). pose proof (c_op _ _ _ Hy).
  split; [|done]. apply (swap_insn_sound d i x k z a c b); try done; rewrite ?Hoz.
  - split; [apply Hx|done|]. intros p Hp. rewrite operands_2 in Hp by done. elems Hp; auto.
  - split; [apply Hz|done|]. intros p Hp. rewrite operands_2 in Hp by done. elems Hp; auto.
  - rewrite operands_2 by done. simpl. intros [E|[E|E%not_elem_of_nil]%elem_of_cons]%elem_of_cons; [|by apply (Hzk c Hc)|done].
    by apply (Hyk a Ha).
  - intros r Hr. destruct (Hh r Hr) as (v & Hv). exists v. apply Hv; try done.
    + apply val_set_reg. auto.
    + apply val_set_reg. auto.
    + apply val_set_reg. auto.
    + apply set_reg_eq.
    + by apply set_reg_ne.
Qed.

(** The values of x = y o z where y = a o2 b and z = c o2 b. *)
Lemma factor_values d i x j y k z a c b : wf d -> computes d i x -> computes d j y -> computes d k z ->
  operands x = [REG j; REG k] \/ operands x = [REG k; REG j] -> distributes (op x) (op y) = true -> op z = op y ->
  size y = size x -> size z = size x -> one_use d (REG k) = true ->
  (src1 y = a /\ src2 y = b \/ src2 y = a /\ src1 y = b) -> (src1 z = c /\ src2 z = b \/ src2 z = c /\ src1 z = b) ->
  ok d (swap_insn i k a c b d).
Proof.
  intros Hwf Hx Hy Hz Hops Hd Hoz Hsy Hsz Hone Hab Hcb. destruct (distributes_folds _ _ Hd) as [Fx Fy].
  destruct (arity_folds2 _ Fx) as [Ax _], (arity_folds2 _ Fy) as [Ay _].
  assert (operands y = [src1 y; src2 y] /\ operands z = [src1 z; src2 z]) as [Oy Oz] by (split; apply operands_2; congruence).
  assert (a ∈ operands y /\ b ∈ operands y) as [] by (rewrite Oy, !elem_of_cons; intuition).
  assert (b ∈ operands z /\ c ∈ operands z) as [] by (rewrite Oz, !elem_of_cons; intuition).
  apply (swap_ok d i x j y k z a c b); try done.
  intros r Hr. assert (folds2 (op z) = true) as Fz by congruence.
  apply (sat_computes r) in Hx, Hy, Hz; try done. rewrite holds_fold in Hx, Hy, Hz by done.
  destruct Hx as (Gn & X1 & X2 & Xi), Hy as (_ & Y1 & Y2 & Yj), Hz as (_ & Z1 & Z2 & Zk).
  rewrite Hsy in Y1, Y2, Yj. rewrite Hsz in Z1, Z2, Zk. rewrite Hoz in Zk. set (n := size x) in *. pose proof (good_nonneg n Gn) as Hn.
  assert (r j = ucast n (fold_val (op y) (val r a) (val r b)) /\ within n (val r a) /\ within n (val r b)) as (Ej & Wa & Wb).
  { destruct Hab as [[<- <-]|[<- <-]]; [done|]. by rewrite fold_comm. }
  assert (r k = ucast n (fold_val (op y) (val r c) (val r b)) /\ within n (val r c)) as (Ek & Wc).
  { destruct Hcb as [[<- <-]|[<- <-]]; [done|]. by rewrite fold_comm. }
  assert (r i = ucast n (fold_val (op x) (r j) (r k))) as Ei.
  { rewrite operands_2 in Hops by done. destruct Hops as [[= E1 E2]|[= E1 E2]]; rewrite E1, E2 in Xi; simpl in Xi; [done|].
    by rewrite fold_comm. }
  exists (ucast n (fold_val (op x) (val r a) (val r c))). intros r' _ Ra Rb Rc Rk Ri.
  split; apply holds_fold; try done; simpl; rewrite ?Hsz, ?Ra, ?Rb, ?Rc, ?Rk, ?Ri; fold n.
  - done.
  - split_and!; try done; [by apply within_ucast|].
    rewrite Ei, Ej, Ek, ucast_fold_l, ucast_fold_r, fold_distributes, ucast_fold_l by done. done.
Qed.

Lemma holds_shift r i x : shifts (op x) = true -> holds r i x <->
  good_size (size x) /\ within (size x) (val r (src1 x)) /\ 0 <= val r (src2 x) < size x /\
  r i = shift_val (op x) (size x) (val r (src1 x)) (val r (src2 x)).
Proof.
  intros Ho. opened x. unfold holds, typed, sem.
  assert (forall s, 0 <= s < n -> good_size n -> within 64 s) as Hw by (unfold within, good_size; lia).
  assert (forall s, within 64 s -> 0 <= s) as Hp by (unfold within; lia).
  destruct o; try done; simpl; (split; [intros [(Hn & H1 & H2) Hs]; destruct (Z.ltb_spec (val r q) n); [|done];
    split_and!; auto; apply (inj Some) in Hs; rewrite <- Hs|intros (Hn & H1 & H2 & Hs); split_and!; eauto;
    destruct (Z.ltb_spec (val r q) n); [|lia]; rewrite Hs; f_equal]).
  all: rewrite ?Z.shiftr_div_pow2, ?Z.shiftl_mul_pow2 by auto with lia; done.
Qed.

Lemma factor_shift_values d i x j y k z b : wf d -> computes d i x -> computes d j y -> computes d k z ->
  operands x = [REG j; REG k] \/ operands x = [REG k; REG j] -> bitwise (op x) = true -> shifts (op y) = true -> op z = op y ->
  size y = size x -> size z = size x -> one_use d (REG k) = true -> src2 y = b -> src2 z = b ->
  ok d (swap_insn i k (src1 y) (src1 z) b d).
Proof.
  intros Hwf Hx Hy Hz Hops Hbx Sy Hoz Hsy Hsz Hone Hb Hbz.
  assert (folds2 (op x) = true) as Fx by (by destruct (op x)). assert (arity (op y) = 2) as Ay by (by destruct (op y)).
  destruct (arity_folds2 _ Fx) as [Ax _]. assert (shifts (op z) = true) as Sz by congruence.
  assert (operands y = [src1 y; b] /\ operands z = [src1 z; b]) as [Oy Oz] by (split; rewrite operands_2 by congruence; congruence).
  apply (swap_ok d i x j y k z (src1 y) (src1 z) b); try done; try (rewrite ?Oy, ?Oz, !elem_of_cons; auto).
  intros r Hr. apply (sat_computes r) in Hx, Hy, Hz; try done. rewrite holds_fold in Hx by done. rewrite holds_shift in Hy, Hz by done.
  destruct Hx as (Gn & X1 & X2 & Xi), Hy as (_ & Y1 & Y2 & Yj), Hz as (_ & Z1 & Z2 & Zk).
  rewrite Hsy in Y1, Y2, Yj. rewrite Hb in Y2, Yj. rewrite Hsz in Z1, Z2, Zk. rewrite Hbz in Z2, Zk. rewrite Hoz in Zk. set (n := size x) in *. pose proof (good_nonneg n Gn) as Hn.
  set (v := fold_val (op x) (val r (src1 y)) (val r (src1 z))).
  assert (within n v) as Hv.
  { subst v. destruct (op x); try done; simpl; [apply within_land|apply within_lor|apply within_lxor]; try done. apply Z1. }
  assert (r i = fold_val (op x) (r j) (r k)) as Ei.
  { rewrite Xi, operands_2 in * by done. 
    assert (ucast n (fold_val (op x) (r j) (r k)) = fold_val (op x) (r j) (r k)) as Hu.
    { apply ucast_id. rewrite Yj, Zk, shift_bitwise by (done || lia). apply within_shift; [done|lia|done]. }
    destruct Hops as [[= E1 E2]|[= E1 E2]]; rewrite E1, E2; simpl; [done|]. by rewrite fold_comm. }
  exists v. intros r' _ Ra Rb Rc Rk Ri. split.
  - apply holds_fold; [done|]. simpl. rewrite Hsz, Ra, Rc, Rk. fold n. split_and!; try done. symmetry. by apply ucast_id.
  - apply holds_shift; [done|]. simpl. rewrite Rb, Rk, Ri. fold n. split_and!; try done; try lia.
    rewrite Ei, Yj, Zk. apply shift_bitwise; [done|done|lia].
Qed.
End algebra.

Section algebra.
Context `{At : Atoms} `{Dom : Domtree}.

Lemma move_one_use p k d : can_move_to p k d = true -> one_use d (REG k) = true.
Proof. unfold can_move_to. by destruct (one_use d (REG k)). Qed.

Lemma peq_true p q : peq p q = true -> p = q.
Proof. unfold peq. by case_bool_decide. Qed.

Lemma factor_ok d i x j y k z : wf d -> computes d i x -> computes d j y -> computes d k z ->
  operands x = [REG j; REG k] \/ operands x = [REG k; REG j] -> distributes (op x) (op y) = true -> op z = op y ->
  size y = size x -> size z = size x -> ok d (factor i y k z d).
Proof.
  intros. unfold factor. destruct (peq _ _ && _) eqn:E; [|clear E; destruct (peq _ _ && _) eqn:E; [|clear E; destruct (peq _ _ && _) eqn:E; [|same]]].
  all: apply andb_true_iff in E as [E%peq_true Hm%move_one_use]; apply (factor_values d i x j y k z); auto.
Qed.

Lemma factor_shift_ok d i x j y p2 : wf d -> computes d i x -> computes d j y -> p2 ∈ operands x ->
  operands x = [REG j; p2] \/ operands x = [p2; REG j] -> bitwise (op x) = true -> shifts (op y) = true ->
  size y = size x -> sized d p2 (size x) -> ok d (factor_shift i y p2 d).
Proof.
  intros Hwf Hc Hy Hin Hops Hb Hs Hsy Hsz. unfold factor_shift.
  destruct (def_of d p2) as [[k z]|] eqn:Hd; [|same]. destruct (_ && _) eqn:E; [|same].
  apply andb_true_iff in E as [[Ho%bool_decide_eq_true E%peq_true]%andb_true_iff Hm%move_one_use].
  destruct (def_computes d i p2 k z Hwf) as (-> & Hz & Hne); [by apply (below_of d i x)|done|rewrite Ho; by destruct (op y)|].
  apply (factor_shift_values d i x j y k z); auto. by apply (Hsz k z).
Qed.

(** ** The two sides of an operator *)

(** The sides of an instruction, in either order. *)
Definition sides (x : insn) (pl1 pl2 : place) : Prop := pl1 = P1 /\ pl2 = P2 \/ pl1 = P2 /\ pl2 = P1.

Definition sized2 (d : dag) (x : insn) : Prop := sized d (src1 x) (size x) /\ sized d (src2 x) (size x).

Lemma sides_operands d i x pl1 pl2 : computes d i x -> arity (op x) = 2 -> sides x pl1 pl2 ->
  (operands x = [get pl1 x; get pl2 x] \/ operands x = [get pl2 x; get pl1 x]) /\
  below d i (get pl1 x) /\ below d i (get pl2 x).
Proof.
  intros Hc Ha Hs. pose proof (below_src1 d i x Hc). pose proof (below_src2 d i x Hc Ha). rewrite operands_2 by done.
  destruct Hs as [[-> ->]|[-> ->]]; simpl; auto.
Qed.

Lemma sides_sized d x pl1 pl2 : sides x pl1 pl2 -> sized2 d x -> sized d (get pl1 x) (size x) /\ sized d (get pl2 x) (size x).
Proof. intros [[-> ->]|[-> ->]] []; done. Qed.

Lemma sides_fold r i x pl1 pl2 : folds2 (op x) = true -> sides x pl1 pl2 -> holds r i x ->
  good_size (size x) /\ within (size x) (val r (get pl1 x)) /\ within (size x) (val r (get pl2 x)) /\
  r i = ucast (size x) (fold_val (op x) (val r (get pl1 x)) (val r (get pl2 x))).
Proof.
  intros Ho Hs (Hn & H1 & H2 & Hi)%holds_fold; [|done]. destruct Hs as [[-> ->]|[-> ->]]; simpl; [done|].
  split_and!; try done. by rewrite fold_comm.
Qed.

(** The definition of the first side. *)
Lemma side_def d i x pl1 pl2 j y : wf d -> computes d i x -> arity (op x) = 2 -> sides x pl1 pl2 -> sized2 d x ->
  def_of d (get pl1 x) = Some (j, y) -> is_value_op (op y) = true ->
  get pl1 x = REG j /\ computes d j y /\ size y = size x /\ (forall p, p ∈ operands y -> below d i p) /\
  (operands x = [REG j; get pl2 x] \/ operands x = [get pl2 x; REG j]).
Proof.
  intros Hwf Hc Ha Hs Hsz Hd Hv. destruct (sides_operands d i x pl1 pl2 Hc Ha Hs) as (Hops & Hb1 & Hb2).
  destruct (sides_sized d x pl1 pl2 Hs Hsz) as [Hs1 Hs2].
  destruct (def_computes d i _ j y Hwf Hb1 Hd Hv) as (Hp & Hy & Hne). rewrite Hp in Hops.
  split_and!; try done; [by apply (Hs1 j y)|].
  intros p Hin. apply below_trans with j; [by rewrite <- Hp|by apply (below_of d j y)].
Qed.

Lemma side_def2 d i x pl1 pl2 k z : wf d -> computes d i x -> arity (op x) = 2 -> sides x pl1 pl2 -> sized2 d x ->
  def_of d (get pl2 x) = Some (k, z) -> is_value_op (op z) = true ->
  get pl2 x = REG k /\ computes d k z /\ size z = size x /\ (forall p, p ∈ operands z -> below d i p).
Proof.
  intros Hwf Hc Ha Hs Hsz Hd Hv. destruct (side_def d i x pl2 pl1 k z) as (? & ? & ? & ? & _); try done.
  destruct Hs as [[-> ->]|[-> ->]]; [by right|by left].
Qed.
End algebra.

(** The definitions of the first side, and the rules that need none. *)
Ltac first_side Hwf Hc Ha Hs Hsz :=
  let Hd := fresh "Hd" in let Hv := fresh "Hv" in let j := fresh "j" in let y := fresh "y" in
  lazymatch goal with |- context [def_of ?d (get ?pl1 ?x)] =>
    destruct (def_of d (get pl1 x)) as [[j y]|] eqn:Hd; [|same];
    destruct (is_value_op (op y)) eqn:Hv; [|destruct (op y); first [discriminate Hv|same]];
    let Hp := fresh "Hp" in let Hy := fresh "Hy" in let Hsy := fresh "Hsy" in let Hby := fresh "Hby" in let Hops := fresh "Hops" in
    destruct (side_def d _ x pl1 _ j y Hwf Hc Ha Hs Hsz Hd Hv) as (Hp & Hy & Hsy & Hby & Hops)
  end.

Section algebra.
Context `{At : Atoms} `{Dom : Domtree}.

(** The factor of two products, of two sums of bits. *)
Lemma logical_factor_ok d i x pl1 pl2 j y : wf d -> computes d i x -> sides x pl1 pl2 -> sized2 d x -> get pl1 x = REG j ->
  computes d j y -> size y = size x -> (operands x = [REG j; get pl2 x] \/ operands x = [get pl2 x; REG j]) ->
  distributes (op x) (op y) = true -> ok d (simplify_logical_factor (op y) i y (get pl2 x) d).
Proof.
  intros Hwf Hc Hs Hsz Hp Hy Hsy Hops Hdi. destruct (distributes_folds _ _ Hdi) as [Hf1 Hf2].
  unfold simplify_logical_factor. destruct (def_of d (get pl2 x)) as [[k z]|] eqn:Hd2; [|same].
  destruct (oeq (op z) (op y)) eqn:Hoz; [|same]. apply bool_decide_eq_true in Hoz.
  destruct (side_def2 d i x pl1 pl2 k z) as (Hp2 & Hz & Hsz2 & _); try done; [by apply arity_folds2|rewrite Hoz; by apply arity_folds2|].
  rewrite Hp2 in Hops. by apply (factor_ok d i x j y k z).
Qed.

Lemma simplify_add_one_side_ok d i x pl1 pl2 : wf d -> computes d i x -> op x = OP_ADD -> sides x pl1 pl2 -> sized2 d x ->
  ok d (simplify_add_one_side i pl1 pl2 d).
Proof.
  intros Hwf Hc Ho Hs Hsz. assert (arity (op x) = 2) as Ha by (by rewrite Ho). assert (folds2 (op x) = true) as Hf by (by rewrite Ho).
  unfold simplify_add_one_side. rewrite (at_computes _ _ _ Hc). first_side Hwf Hc Ha Hs Hsz.
  destruct (op y) eqn:Hoy; try same.
  - pose proof (logical_factor_ok d i x pl1 pl2 j y) as H. rewrite Hoy, Ho in H. by apply H.
  - destruct (peq (src2 y) (get pl2 x)) eqn:He; [|same]. apply peq_true in He.
    apply (replace_with_pseudo_ok i x); [done|done| |].
    + apply Hby. rewrite operands_2 by (by rewrite Hoy). left.
    + intros r Hr. destruct (sides_fold r i x pl1 pl2 Hf Hs (sat_computes r d i x Hr Hc)) as (Hn & W1 & W2 & ->).
      rewrite Hp, Ho, <- He. simpl. clear Hd Hsz Hc. opened y. sems Hr. rewrite <- S.
      rewrite <- (ucast_id (size x) (val r p)) at 1 by done. umod.
  - apply (replace_binop_ok d i x); [done|done| |].
    + split; [apply Hc|done|]. intros p Hin. rewrite operands_2 in Hin by done. elems Hin.
      * by destruct (sides_operands d i x pl1 pl2 Hc Ha Hs) as (_ & _ & ?).
      * apply Hby. clear -Hoy. opened y. left.
    + intros r Hr. destruct (sides_fold r i x pl1 pl2 Hf Hs (sat_computes r d i x Hr Hc)) as (Hn & W1 & W2 & Hi).
      rewrite Hp, Ho in Hi. clear Hd Hsz Hc. opened y. sems Hr. split; [ranges|]. f_equal. rewrite Hi, <- S. umod.
Qed.

Lemma simplify_add_ok d i x : wf d -> computes d i x -> op x = OP_ADD -> sized2 d x -> ok d (simplify_add i d).
Proof.
  intros. apply either_ok; apply (simplify_add_one_side_ok d i x); try done; unfold sides; auto.
Qed.

(** Two comparisons of the same size, one of which negates the other. *)
Definition same_types (d : dag) (y : insn) (p2 : pseudo) : Prop :=
  forall k z, def_of d p2 = Some (k, z) -> OPF_COMPARE (op y) = true -> OPF_COMPARE (op z) = true -> src1 z = src1 y -> itype z = itype y.

Lemma compare_negated o : OPF_COMPARE o = true -> OPF_COMPARE (opcode_negate o) = true.
Proof. by destruct o. Qed.

Lemma negated_compare_val d i x pl1 pl2 j y r : wf d -> computes d i x -> arity (op x) = 2 -> sides x pl1 pl2 -> sized2 d x ->
  get pl1 x = REG j -> computes d j y -> OPF_COMPARE (op y) = true -> negated_compare d y (get pl2 x) = true ->
  same_types d y (get pl2 x) -> sat r d ->
  exists b, val r (get pl1 x) = Z.b2z b /\ val r (get pl2 x) = Z.b2z (negb b).
Proof.
  intros Hwf Hc Ha Hs Hsz Hp Hy Hoy Hn Ht Hr. unfold negated_compare in Hn.
  destruct (def_of d (get pl2 x)) as [[k z]|] eqn:Hd; [|done].
  apply andb_true_iff in Hn as [[Hoz%bool_decide_eq_true E1%peq_true]%andb_true_iff E2%peq_true].
  assert (OPF_COMPARE (op z) = true) as Hcz by (rewrite Hoz; by apply compare_negated).
  specialize (Ht k z Hd Hoy Hcz (eq_sym E1)).
  destruct (side_def2 d i x pl1 pl2 k z) as (Hp2 & Hz & _ & _); try done; [by destruct (op z)|].
  apply (sat_computes r) in Hy, Hz; try done. apply holds_cmp in Hy as (_ & _ & _ & Hj), Hz as (_ & _ & _ & Hk); try done.
  rewrite Hp, Hp2. simpl. eexists. split; [exact Hj|]. by rewrite Hk, Hoz, Ht, <- E1, <- E2, cmp_negate.
Qed.

(** x and ~x *)
Lemma lnot_bits n a k : good_size n -> within n a -> 0 <= k ->
  Z.testbit (ucast n (Z.lnot a)) k = (k <? n) && negb (Z.testbit a k).
Proof. intros Hn Ha Hk. by rewrite testbit_ucast, Z.lnot_spec by (done || by apply good_nonneg). Qed.

Lemma not_val o n a : good_size n -> within n a -> bitwise o = true ->
  fold_val o (ucast n (Z.lnot a)) a = if oeq o OP_AND then 0 else bits_mask n.
Proof.
  intros Hn Ha Ho. pose proof (good_nonneg n Hn). apply Z.bits_inj'. intros k Hk. destruct o; try done; simpl.
  - rewrite Z.land_spec, lnot_bits, Z.testbit_0_l by done. by destruct (k <? n), (Z.testbit a k).
  - rewrite Z.lor_spec, lnot_bits, bits_mask_ones, Z.testbit_ones_nonneg by done.
    destruct (Z.ltb_spec k n); simpl; [by destruct (Z.testbit a k)|]. by apply (testbit_within n).
  - rewrite Z.lxor_spec, lnot_bits, bits_mask_ones, Z.testbit_ones_nonneg by done.
    destruct (Z.ltb_spec k n); simpl; [by destruct (Z.testbit a k)|]. by apply (testbit_within n).
Qed.

(** The rules that &, | and ^ share. *)
Lemma logical_not_ok d i x pl1 pl2 j y : wf d -> computes d i x -> sides x pl1 pl2 -> get pl1 x = REG j -> computes d j y ->
  size y = size x -> op y = OP_NOT -> src1 y = get pl2 x -> bitwise (op x) = true ->
  ok d (replace_with_value i (if oeq (op x) OP_AND then 0 else bits_mask (size x)) d).
Proof.
  intros Hwf Hc Hs Hp Hy Hsy Hoy E Hb. assert (folds2 (op x) = true) as Hf by (by destruct (op x)).
  apply (replace_with_value_ok d i x); [done|done|]. intros r Hr.
  destruct (sides_fold r i x pl1 pl2 Hf Hs (sat_computes r d i x Hr Hc)) as (Hn & W1 & W2 & ->). rewrite Hp. simpl.
  assert (r j = ucast (size x) (Z.lnot (val r (get pl2 x)))) as ->.
  { clear Hc Hs. opened y. sems Hr. by rewrite <- S. }
  rewrite not_val by done. pose proof (pow_le_two64 (size x) Hn). destruct (oeq (op x) OP_AND); [done|].
  rewrite bits_mask_eq, u64_small, ucast_id by (done || unfold is_u64, within; lia). done.
Qed.

Lemma negated_ok d i x pl1 pl2 j y : wf d -> computes d i x -> sides x pl1 pl2 -> sized2 d x -> get pl1 x = REG j -> computes d j y ->
  OPF_COMPARE (op y) = true -> negated_compare d y (get pl2 x) = true -> same_types d y (get pl2 x) -> bitwise (op x) = true ->
  ok d (replace_with_value i (if oeq (op x) OP_AND then 0 else 1) d).
Proof.
  intros Hwf Hc Hs Hsz Hp Hy Hoy Hn Ht Hb. assert (folds2 (op x) = true) as Hf by (by destruct (op x)).
  apply (replace_with_value_ok d i x); [done|done|]. intros r Hr.
  destruct (negated_compare_val d i x pl1 pl2 j y r) as (b & E1 & E2); try done; [by apply arity_folds2|].
  destruct (sides_fold r i x pl1 pl2 Hf Hs (sat_computes r d i x Hr Hc)) as (Hg & _ & _ & ->). rewrite E1, E2.
  destruct (op x); try done; destruct b; simpl; symmetry; apply ucast_id; eauto with within.
Qed.

(** What is not modelled by a rule: (x >= 0) & (y <= C) for other x and y. *)
Definition same_range (d : dag) (y : insn) (p2 : pseudo) : Prop :=
  forall k z, def_of d p2 = Some (k, z) -> op y = OP_SET_GE -> is_zero (src2 y) = true ->
    op z = OP_SET_LE -> is_positive (src2 z) (itype z) = true -> src1 z = src1 y.

Lemma range_val m a c : good_size m -> within m a -> within m c -> c < 2 ^ (m - 1) ->
  Z.land (Z.b2z (scast m 0 <=? scast m a)) (Z.b2z (scast m a <=? scast m c)) = Z.b2z (a <=? c).
Proof.
  intros Hm Ha Hc Hlt. pose proof (pow_half m Hm). unfold within in *. rewrite scast_0, !scast_cases by done.
  destruct (Z.ltb_spec a (2 ^ (m - 1))), (Z.ltb_spec c (2 ^ (m - 1))), (Z.leb_spec a c); try lia;
    repeat match goal with |- context [?u <=? ?v] => destruct (Z.leb_spec u v) end; try lia; done.
Qed.

Lemma positive_lt p m v : good_size m -> is_positive p m = true -> p = VAL v -> within m (u64 v) -> u64 v < 2 ^ (m - 1).
Proof. intros Hm Hp -> Hw. simpl in Hp. rewrite land_sign_bit in Hp by done. lia. Qed.

Lemma is_zero_val p : is_zero p = true -> p = VAL 0.
Proof. destruct p; try done. simpl. by intros ->%Z.eqb_eq. Qed.

Lemma range_ok d i x pl1 pl2 j y k z : wf d -> computes d i x -> op x = OP_AND -> sides x pl1 pl2 -> sized2 d x ->
  def_of d (get pl1 x) = Some (j, y) -> get pl1 x = REG j -> computes d j y -> op y = OP_SET_GE -> is_zero (src2 y) = true ->
  def_of d (get pl2 x) = Some (k, z) -> op z = OP_SET_LE -> is_positive (src2 z) (itype z) = true ->
  itype z = itype y -> src1 z = src1 y ->
  ok d (replace_binop i OP_SET_BE (src1 z) (src2 z) (modify i (set_itype (itype z)) d)).
Proof.
  intros Hwf Hc Ho Hs Hsz Hd Hp Hy Hoy Hzero Hd2 Hoz Hpos Ht E.
  destruct (side_def2 d i x pl1 pl2 k z) as (Hp2 & Hz & _ & Hbz); try done; [by rewrite Ho|by rewrite Hoz|].
  assert (operands z = [src1 z; src2 z]) as Oz by (apply operands_2; by rewrite Hoz).
  apply (change_binop_ok d i x); [done|done| |].
  - split; [apply Hc|done|]. intros p Hin. rewrite operands_2 in Hin by done. apply Hbz. by rewrite Oz.
  - intros r Hr. assert (folds2 (op x) = true) as Hf by (by rewrite Ho).
    destruct (sides_fold r i x pl1 pl2 Hf Hs (sat_computes r d i x Hr Hc)) as (Hn & W1 & W2 & Hi).
    apply (sat_computes r) in Hy, Hz; try done.
    apply holds_cmp in Hy as (_ & _ & Ty & Hj); [|by rewrite Hoy]. apply holds_cmp in Hz as (_ & Gz & Tz & Hk); [|by rewrite Hoz].
    unfold cmp_typed in Ty, Tz. rewrite Hoy in *. rewrite Hoz in *.
    destruct Ty as [[Ya Yb]|([|] & _)]; try done. destruct Tz as [[Za Zb]|([|] & _)]; try done.
    apply holds_cmp; [done|]. simpl. split_and!; try done; [by left|].
    apply is_zero_val in Hzero. rewrite Hzero, <- E, <- Ht in Hj. change (val r (VAL 0)) with 0 in Hj.
    rewrite Hi, Hp, Hp2, Ho. simpl. rewrite Hj, Hk.
    destruct (src2 z) as [| | | | | |v] eqn:Hv; try done. change (val r (VAL v)) with (u64 v) in *.
    simpl. rewrite range_val; try done; [|by eapply positive_lt].
    apply ucast_id, within_b2z. unfold good_size in Hn. lia.
Qed.

End algebra.

(** The rules that &, | and ^ share, by the opcode of the first side. *)
Ltac logical_rules d i x pl1 pl2 j y Ho Hoy Hops :=
  first
  [ apply (factor_shift_ok d i x j y); try done;
      [destruct Hops as [-> | ->]; rewrite !elem_of_cons; auto|by rewrite Ho|by rewrite Hoy|by eapply sides_sized]
  | let H := fresh in pose proof (logical_factor_ok d i x pl1 pl2 j y) as H; rewrite Hoy, Ho in H; by apply H
  | destruct (peq (src1 y) (get pl2 x)) eqn:?E; [|same];
    let H := fresh in pose proof (logical_not_ok d i x pl1 pl2 j y) as H; rewrite Ho in H; apply H; by (done || apply peq_true) ].

Section algebra.
Context `{At : Atoms} `{Dom : Domtree}.

Lemma simplify_and_one_side_ok d i x pl1 pl2 : wf d -> computes d i x -> op x = OP_AND -> sides x pl1 pl2 -> sized2 d x ->
  (forall j y, def_of d (get pl1 x) = Some (j, y) -> same_types d y (get pl2 x) /\ same_range d y (get pl2 x)) ->
  ok d (simplify_and_one_side i pl1 pl2 d).
Proof.
  intros Hwf Hc Ho Hs Hsz Hside. assert (arity (op x) = 2) as Ha by (by rewrite Ho).
  unfold simplify_and_one_side. rewrite (at_computes _ _ _ Hc). first_side Hwf Hc Ha Hs Hsz.
  destruct (Hside j y eq_refl) as [Ht Hrg]. destruct (OPF_COMPARE (op y)) eqn:Hcy.
  - destruct (negated_compare d y (get pl2 x)) eqn:Hn.
    + pose proof (negated_ok d i x pl1 pl2 j y) as H. rewrite Ho in H. by apply H.
    + destruct (_ && _) eqn:E; [|same]. apply andb_true_iff in E as [Hoy%bool_decide_eq_true Hz].
      destruct (def_of d (get pl2 x)) as [[k z]|] eqn:Hd2; [|same]. destruct (_ && _) eqn:E; [|same].
      apply andb_true_iff in E as [Hoz%bool_decide_eq_true Hpos].
      assert (src1 z = src1 y) by (by apply (Hrg k z)).
      apply (range_ok d i x pl1 pl2 j y k z); try done. by apply (Ht k z); try done; rewrite Hoz.
  - destruct (op y) eqn:Hoy; try same.
    all: logical_rules d i x pl1 pl2 j y Ho Hoy Hops.
Qed.

Lemma simplify_and_ok d i x : wf d -> computes d i x -> op x = OP_AND -> sized2 d x ->
  (forall j y, def_of d (src1 x) = Some (j, y) -> same_types d y (src2 x) /\ same_range d y (src2 x)) ->
  (forall j y, def_of d (src2 x) = Some (j, y) -> same_types d y (src1 x) /\ same_range d y (src1 x)) ->
  ok d (simplify_and i d).
Proof. intros. apply either_ok; apply (simplify_and_one_side_ok d i x); try done; unfold sides; auto. Qed.

Lemma simplify_ior_one_side_ok d i x pl1 pl2 : wf d -> computes d i x -> op x = OP_OR -> sides x pl1 pl2 -> sized2 d x ->
  (forall j y, def_of d (get pl1 x) = Some (j, y) -> same_types d y (get pl2 x)) ->
  ok d (simplify_ior_one_side i pl1 pl2 d).
Proof.
  intros Hwf Hc Ho Hs Hsz Hside. assert (arity (op x) = 2) as Ha by (by rewrite Ho).
  unfold simplify_ior_one_side. rewrite (at_computes _ _ _ Hc). first_side Hwf Hc Ha Hs Hsz.
  pose proof (Hside j y eq_refl) as Ht. destruct (OPF_COMPARE (op y)) eqn:Hcy.
  - destruct (negated_compare d y (get pl2 x)) eqn:Hn; [|same].
    pose proof (negated_ok d i x pl1 pl2 j y) as H. rewrite Ho in H. by apply H.
  - destruct (op y) eqn:Hoy; try same.
    all: logical_rules d i x pl1 pl2 j y Ho Hoy Hops.
Qed.

Lemma simplify_ior_ok d i x : wf d -> computes d i x -> op x = OP_OR -> sized2 d x ->
  (forall j y, def_of d (src1 x) = Some (j, y) -> same_types d y (src2 x)) ->
  (forall j y, def_of d (src2 x) = Some (j, y) -> same_types d y (src1 x)) -> ok d (simplify_ior i d).
Proof. intros. apply either_ok; apply (simplify_ior_one_side_ok d i x); try done; unfold sides; auto. Qed.

Lemma simplify_xor_one_side_ok d i x pl1 pl2 : wf d -> computes d i x -> op x = OP_XOR -> sides x pl1 pl2 -> sized2 d x ->
  (forall j y, def_of d (get pl1 x) = Some (j, y) -> same_types d y (get pl2 x)) ->
  ok d (simplify_xor_one_side i pl1 pl2 d).
Proof.
  intros Hwf Hc Ho Hs Hsz Hside. assert (arity (op x) = 2) as Ha by (by rewrite Ho).
  unfold simplify_xor_one_side. rewrite (at_computes _ _ _ Hc). first_side Hwf Hc Ha Hs Hsz.
  pose proof (Hside j y eq_refl) as Ht. destruct (OPF_COMPARE (op y)) eqn:Hcy.
  - destruct (negated_compare d y (get pl2 x)) eqn:Hn; [|same].
    pose proof (negated_ok d i x pl1 pl2 j y) as H. rewrite Ho in H. by apply H.
  - destruct (op y) eqn:Hoy; try same.
    all: logical_rules d i x pl1 pl2 j y Ho Hoy Hops.
Qed.

Lemma simplify_xor_ok d i x : wf d -> computes d i x -> op x = OP_XOR -> sized2 d x ->
  (forall j y, def_of d (src1 x) = Some (j, y) -> same_types d y (src2 x)) ->
  (forall j y, def_of d (src2 x) = Some (j, y) -> same_types d y (src1 x)) -> ok d (simplify_xor i d).
Proof. intros. apply either_ok; apply (simplify_xor_one_side_ok d i x); try done; unfold sides; auto. Qed.

(** ** Differences *)

Lemma simplify_sub_ok d i x : wf d -> computes d i x -> op x = OP_SUB -> sized2 d x -> ok d (simplify_sub i d).
Proof.
  intros Hwf Hc Ho [Hs1 Hs2]. unfold simplify_sub. rewrite (at_computes _ _ _ Hc). apply or_else_ok.
  - defined y. destruct (oeq (op y) OP_ADD) eqn:Hoy; [|same]. apply bool_decide_eq_true in Hoy. specialize (Hs1 j y Hd).
    destruct (peq (src1 y) (src2 x)) eqn:E; [|clear E; destruct (peq (src2 y) (src2 x)) eqn:E; [|same]]; apply peq_true in E.
    all: clear Hd Hs2; opened x; opened y; (eapply replace_with_pseudo_ok; [done|exact Hc|belows; eauto with below|]); intros r Hr; sems Hr; result; lift; umod.
  - destruct (def_of d (src2 x)) as [[j y]|] eqn:Hd; [|same].
    destruct (is_value_op (op y)) eqn:Hv; [|destruct (op y); first [done|same]].
    destruct (def_computes d i (src2 x) j y Hwf) as (Hp & Hy & Hne); [by apply below_src2; [|rewrite Ho]|done|done|].
    specialize (Hs2 j y Hd). clear Hd Hs1. destruct (op y) eqn:Hoy; try same.
    + destruct (peq (src1 x) (src1 y)) eqn:E; [|clear E; destruct (peq (src1 x) (src2 y)) eqn:E; [|same]]; apply peq_true in E.
      all: opened x; opened y; (eapply replace_with_unop_ok; [done|exact Hc|chg|]); intros r Hr; sems Hr; (split; [ranges|result; umod]).
    + opened x. opened y. eapply change_replace_ok; [done|exact Hc|chg|]. intros r Hr; sems Hr. split; [ranges|result; umod].
Qed.

(** ** Comparisons of extended values *)

Lemma scast_ucast n a : good_size n -> scast n (ucast n a) = scast n a.
Proof. intros _. unfold scast, ucast. by rewrite Zplus_mod_idemp_l. Qed.

Lemma scast_range_mono m k a : good_size m -> m <= k -> - 2 ^ (k - 1) <= scast m a < 2 ^ (k - 1).
Proof.
  intros Hm Hk. unfold good_size in Hm. pose proof (scast_range m a ltac:(lia)).
  assert (2 ^ (m - 1) <= 2 ^ (k - 1)) by (apply Z.pow_le_mono_r; lia). lia.
Qed.

(** A sign extension keeps the order. *)
Lemma sext_cases m k a : good_size m -> good_size k -> m <= k -> within m a ->
  ucast k (scast m a) = if a <? 2 ^ (m - 1) then a else a - 2 ^ m + 2 ^ k.
Proof.
  intros Hm Hk Hle Ha. rewrite scast_cases by done. pose proof (pow_half m Hm).
  assert (2 ^ m <= 2 ^ k) by (apply Z.pow_le_mono_r; unfold good_size in Hm; lia). unfold within in Ha.
  destruct (Z.ltb_spec a (2 ^ (m - 1))).
  - apply ucast_id. unfold within. lia.
  - unfold ucast. symmetry. apply Z.mod_unique_pos with (-1); lia.
Qed.

Lemma scast_sext m k a : good_size m -> good_size k -> m <= k -> scast k (ucast k (scast m a)) = scast m a.
Proof. intros Hm Hk Hle. rewrite scast_ucast by done. apply scast_small; [unfold good_size in Hk; lia|by apply scast_range_mono]. Qed.

Lemma bool_of (b c : bool) : (b = true <-> c = true) -> b = c.
Proof. destruct b, c; intuition. Qed.

Lemma cmp_sext o m k a b : good_size m -> good_size k -> m <= k -> within m a -> within m b -> OPF_COMPARE o = true ->
  cmp_val o k (ucast k (scast m a)) (ucast k (scast m b)) = cmp_val o m a b.
Proof.
  intros Hm Hk Hle Ha Hb Ho. pose proof (pow_half m Hm). assert (2 ^ m <= 2 ^ k) by (apply Z.pow_le_mono_r; unfold good_size in Hm; lia).
  destruct o; try done; simpl; rewrite ?scast_sext by done; try done; rewrite !sext_cases by done; unfold within in *.
  all: destruct (Z.ltb_spec a (2 ^ (m - 1))), (Z.ltb_spec b (2 ^ (m - 1))); apply bool_of; lia.
Qed.

Lemma cmp_zext o m k a b : good_size m -> good_size k -> m < k -> within m a -> within m b -> OPF_COMPARE o = true ->
  cmp_val o k a b = cmp_val (opcode_unsigned o) m a b.
Proof.
  intros Hm Hk Hle Ha Hb Ho. assert (2 ^ m <= 2 ^ (k - 1)) by (apply Z.pow_le_mono_r; unfold good_size in Hm; lia). unfold within in *.
  destruct o; try done; simpl; rewrite !(scast_nonneg_small k) by (done || lia); done.
Qed.

Lemma compare_unsigned o : OPF_COMPARE o = true -> OPF_COMPARE (opcode_unsigned o) = true.
Proof. by destruct o. Qed.

(** A comparison has sides of its type. *)
Definition cmp_sized (d : dag) (x : insn) : Prop :=
  (op x = OP_SET_EQ \/ op x = OP_SET_NE) /\ src2 x = VAL 0 \/ sized d (src1 x) (itype x) /\ sized d (src2 x) (itype x).

Lemma simplify_compare_ok d i x : wf d -> computes d i x -> OPF_COMPARE (op x) = true -> cmp_sized d x -> ok d (simplify_compare i d).
Proof.
  intros Hwf Hc Ho Hsz. unfold simplify_compare. rewrite (at_computes _ _ _ Hc).
  assert (arity (op x) = 2) as Ha by (by destruct (op x)).
  destruct (def_of d (src1 x)) as [[j y]|] eqn:Hd; [|same].
  destruct (oeq (op y) OP_SEXT || oeq (op y) OP_ZEXT) eqn:Hoy; [|destruct (op y); first [done|same]].
  assert (op y = OP_SEXT \/ op y = OP_ZEXT) as Hoy' by (apply orb_true_iff in Hoy as [?%bool_decide_eq_true|?%bool_decide_eq_true]; auto).
  destruct (def_computes d i (src1 x) j y Hwf) as (Hp & Hy & Hne); [by apply below_src1|done|by destruct Hoy' as [-> | ->]|].
  destruct (is_same_op d (src2 x) (op y) (orig_type y)) as [src|] eqn:Hsame; [|destruct Hoy' as [-> | ->]; same].
  unfold is_same_op in Hsame. destruct (def_of d (src2 x)) as [[k z]|] eqn:Hd2; [|done].
  destruct (_ && _) eqn:E; [|done]. apply andb_true_iff in E as [Hoz%bool_decide_eq_true Et%Z.eqb_eq]. injection Hsame as <-.
  destruct (def_computes d i (src2 x) k z Hwf) as (Hp2 & Hz & Hne2); [by apply below_src2|done|rewrite Hoz; by destruct Hoy' as [-> | ->]|].
  destruct Hsz as [[_ Hz0]|[Hs1 Hs2]]; [by rewrite Hz0 in Hp2|]. specialize (Hs1 j y Hd). specialize (Hs2 k z Hd2).
  set (o := if oeq (op y) OP_ZEXT then opcode_unsigned (op x) else op x).
  assert (OPF_COMPARE o = true) as Hco by (subst o; destruct (oeq (op y) OP_ZEXT); [by apply compare_unsigned|done]).
  assert (ok d (replace_binop i o (src1 y) (src1 z) (modify i (set_itype (orig_type y)) d))) as Hok; [|destruct Hoy' as [E|E]; by rewrite E in *].
  apply (change_binop_ok d i x); [done|done| |].
  - split; [apply Hc|by destruct o|]. intros p Hin. rewrite operands_2 in Hin by (by destruct o). elems Hin.
    + apply below_trans with j; [rewrite <- Hp; by apply below_src1|by apply below_src1].
    + apply below_trans with k; [rewrite <- Hp2; by apply below_src2|by apply below_src1].
  - intros r Hr. apply holds_cmp; [done|]. simpl.
    apply (sat_computes r) in Hc; [|done]. apply holds_cmp in Hc as (Gn & Gm & Tx & Hi); [|done]. rewrite Hi. clear Hi.
    destruct Tx as [[T1 T2]|(_ & E0 & _)]; [|by rewrite Hp2 in E0]. rewrite Hp, Hp2 in *. simpl in *. unfold orig_type in *.
    clear Hd Hd2. destruct Hoy' as [Hoy'|Hoy']; rewrite Hoy' in *; opened y; opened z; sems Hr; simpl in *; subst m0;
      (split_and!; [done|done|by left|]); change (itype _) with m at 2; subst o; apply (f_equal Z.b2z).
    + by rewrite <- S, <- S0, cmp_sext by (done || lia).
    + rewrite <- S, <- S0. apply cmp_zext; done || lia.
Qed.

(** ** Associativity *)

Lemma fold_constants_ok d i x j y : wf d -> computes d i x -> computes d j y -> folds2 (op x) = true -> op y = op x ->
  src1 x = REG j -> size y = size x -> constant (src2 y) = true -> constant (src2 x) = true ->
  ok d (replace_pseudo i P1 (src1 y) (modify i (set_src2 (evaluated (eval_op (op x) (size x) (src2 x) (src2 y)))) d)).
Proof.
  intros Hwf Hc Hy Hf Hoy Hp Hsy [w Hw]%constant_inv [v Hv]%constant_inv. destruct (arity_folds2 _ Hf) as [Ha Hvo].
  assert (is_s64 v /\ is_s64 w) as [Hv64 Hw64].
  { split; [apply (below_s64 d i (VAL v) Hwf)|apply (below_s64 d j (VAL w) Hwf)]; try done; rewrite <- ?Hv, <- ?Hw; apply below_src2; congruence. }
  apply (change_replace_ok d i x); [done|done| |].
  - split; [apply Hc|done|]. intros p Hin. rewrite operands_2 in Hin by done. elems Hin.
    + apply below_trans with j; [rewrite <- Hp; by apply below_src1|by apply below_src1].
    + apply folded_below. by destruct (op x).
  - intros r Hr. apply (sat_computes r) in Hc, Hy; try done.
    apply holds_fold in Hc as (Gn & X1 & X2 & Xi); [|done]. apply holds_fold in Hy as (_ & Y1 & Y2 & Yj); [|congruence].
    apply holds_fold; [done|]. simpl. rewrite Hp in X1, Xi. rewrite Hv in X2, Xi. rewrite Hsy in Y1, Y2, Yj. rewrite Hw in Y2, Yj. rewrite Hoy in Yj. simpl in *.
    rewrite (val_folds r (op x) (size x) _ _ v w); try done; [|by destruct (op x)]. pose proof (good_nonneg _ Gn).
    split_and!; try done; [by apply within_ucast|].
    rewrite Xi, Yj, ucast_fold_l, ucast_fold_r, fold_assoc, (fold_comm (op x) (u64 w)) by done. done.
Qed.

Lemma switch_simple_ok d i x j y : wf d -> computes d i x -> computes d j y -> folds2 (op x) = true -> op y = op x ->
  src1 x = REG j -> size y = size x -> simple_pseudo (src2 x) = true -> simple_pseudo (src2 y) = true -> one_use d (REG j) = true ->
  ok d (switch_pseudo j P1 i P2 d).
Proof.
  intros Hwf Hc Hy Hf Hoy Hp Hsy S1 S2 Hu. destruct (arity_folds2 _ Hf) as [Ha Hvo].
  pose proof (below_src1 d i x Hc) as Hb1. rewrite Hp in Hb1. pose proof (below_src2 d i x Hc Ha) as Hb2.
  pose proof (below_trans d i j _ Hb1 (below_src1 d j y Hy)) as Hb3.
  pose proof (below_trans d i j _ Hb1 (below_src2 d j y Hy ltac:(congruence))) as Hb4.
  assert (j <> i) as Hne by (intros ->; by apply (below_not_self d i)).
  assert (src1 y <> REG j) as Hne1 by (intros E; apply (below_not_self d j Hwf); rewrite <- E; by apply below_src1).
  assert (src2 x <> REG j /\ src2 y <> REG j) as [Hne2 Hne3] by (split; intros E; by rewrite E in *).
  split; [|done]. unfold switch_pseudo. rewrite (at_computes _ _ _ Hc), (at_computes _ _ _ Hy). simpl.
  eapply sound_kills; [|apply kills_remove, remove_usage_kills].
  apply (inner_sound d i x (set_src2 (src1 y)) j y (set_src1 (src2 x))); try done.
  - apply (one_use_user d j i x); [done|apply Hc|]. rewrite operands_2, Hp by done. left.
  - split; [apply Hc|done|]. intros p Hin. rewrite operands_2 in Hin by done. simpl in Hin. rewrite Hp in Hin. by elems Hin.
  - split; [apply Hy|simpl; congruence|]. intros p Hin. rewrite operands_2 in Hin by (simpl; congruence). by elems Hin.
  - rewrite operands_2 by (simpl; congruence). simpl. rewrite !elem_of_cons, elem_of_nil. intuition.
  - intros r Hr. apply (sat_computes r) in Hc, Hy; try done.
    apply holds_fold in Hc as (Gn & X1 & X2 & Xi); [|done]. apply holds_fold in Hy as (_ & Y1 & Y2 & Yj); [|congruence].
    rewrite Hp in X1, Xi. rewrite Hsy in Y1, Y2, Yj. rewrite Hoy in Yj. simpl in X1, Xi. pose proof (good_nonneg _ Gn).
    exists (ucast (size x) (fold_val (op x) (val r (src2 x)) (val r (src2 y)))).
    split; apply holds_fold; simpl; rewrite ?Hoy, ?Hp, ?Hsy; try done; simpl; rewrite ?val_set_reg, ?set_reg_eq by done.
    + done.
    + split_and!; try done; [by apply within_ucast|]. rewrite set_reg_ne, Xi, Yj, !ucast_fold_l by done. by rewrite fold_rotate.
Qed.

Lemma simplify_associative_binop_ok d i x : wf d -> computes d i x -> OPF_ASSOC (op x) = true -> sized d (src1 x) (size x) ->
  ok d (simplify_associative_binop i d).
Proof.
  intros Hwf Hc Ho Hsz. assert (folds2 (op x) = true) as Hf by (by destruct (op x)).
  unfold simplify_associative_binop. rewrite (at_computes _ _ _ Hc). destruct (simple_pseudo (src2 x)) eqn:S1; [|same]. simpl.
  destruct (def_of d (src1 x)) as [[j y]|] eqn:Hd; [|same]. destruct (_ || _) eqn:E; [same|].
  apply orb_false_iff in E as [[_ Hoy%negb_false_iff%bool_decide_eq_true]%orb_false_iff S2%negb_false_iff].
  destruct (arity_folds2 _ Hf) as [Ha Hvo].
  destruct (def_computes d i (src1 x) j y Hwf) as (Hp & Hy & Hne); [by apply below_src1|done|by rewrite Hoy|]. specialize (Hsz j y Hd).
  destruct (constant (src2 y) && constant (src2 x)) eqn:K.
  - apply andb_true_iff in K as [K1 K2]. by apply (fold_constants_ok d i x j y).
  - clear K. destruct (_ && _) eqn:E; [|same]. apply andb_true_iff in E as [_ Hu%move_one_use]. by apply (switch_simple_ok d i x j y).
Qed.
End algebra.
