(* ===== verification/SimplifyCompare.v ===== *)
(** * Comparisons with constants, simplify_compare_constant() and simplify_seteq_setne() *)
From stdpp Require Import base option gmap list.
From S2P Require Import Prelude Bits Simplify SimplifyFacts SimplifyConst SimplifyRules SimplifyAlgebra.
#[local] Open Scope Z_scope.

(** ** The bounds of a type *)

Lemma shiftr_bits m : good_size m -> Z.shiftr (bits_mask m) 1 = 2 ^ (m - 1) - 1.
Proof.
  intros Hm. rewrite bits_mask_eq, Z.shiftr_div_pow2 by (done || lia). pose proof (pow_half m Hm).
  symmetry. apply Z.div_unique with 1; lia.
Qed.

Lemma half_bounds m : good_size m -> 1 <= 2 ^ (m - 1) <= two63 /\ 2 ^ m = 2 * 2 ^ (m - 1).
Proof.
  intros Hm. pose proof (pow_half m Hm). pose proof (pow_pos_half m Hm). unfold good_size in Hm.
  assert (2 ^ (m - 1) <= 2 ^ 63) by (apply Z.pow_le_mono_r; lia). change (2 ^ 63) with two63 in *. lia.
Qed.

Lemma u64_above m : good_size m -> u64 (2 ^ (m - 1) + 1) = 2 ^ (m - 1) + 1.
Proof. intros Hm. pose proof (half_bounds m Hm). apply u64_small. unfold is_u64, two63, two64 in *. lia. Qed.

Lemma u64_below2 m : good_size m -> u64 (2 ^ (m - 1) - 2) = if 2 ^ (m - 1) =? 1 then two64 - 1 else 2 ^ (m - 1) - 2.
Proof.
  intros Hm. pose proof (half_bounds m Hm). destruct (Z.eqb_spec (2 ^ (m - 1)) 1) as [-> |]; [done|].
  apply u64_small. unfold is_u64, two63, two64 in *. lia.
Qed.

(** A constant plus a number, in the bits of the type. *)
Lemma u64_masked m v k : good_size m -> is_s64 v -> u64 (Z.land (u64 (v + k)) (bits_mask m)) = ucast m (u64 v + k).
Proof.
  intros Hm Hv. rewrite land_bits_mask, ucast_u64 by done. rewrite u64_small.
  - rewrite <- ucast_add_l, <- (ucast_u64 m Hm v), ucast_add_l. done.
  - pose proof (within_ucast m (v + k) ltac:(unfold good_size in Hm; lia)). by apply (within_u64 m).
Qed.

Lemma val_pred m v : good_size m -> is_s64 v -> within m (u64 v) -> 1 <= u64 v ->
  u64 (s64 (Z.land (u64 (v - 1)) (bits_mask m))) = u64 v - 1.
Proof.
  intros Hm Hv Hw H1. rewrite u64_s64, <- Z.add_opp_r, u64_masked by done. apply ucast_id. unfold within in *. lia.
Qed.

Lemma val_succ m v : good_size m -> is_s64 v -> within m (u64 v) ->
  u64 (s64 (Z.land (u64 (v + 1)) (bits_mask m))) = if u64 v =? 2 ^ m - 1 then 0 else u64 v + 1.
Proof.
  intros Hm Hv Hw. rewrite u64_s64, u64_masked by done. destruct (Z.eqb_spec (u64 v) (2 ^ m - 1)) as [-> |].
  - unfold ucast. rewrite Z.sub_add. by rewrite Z_mod_same_full.
  - apply ucast_id. unfold within in *. lia.
Qed.

Lemma val_mask m z : good_size m -> 0 <= z < 2 ^ m -> u64 (s64 z) = z.
Proof. intros Hm Hz. rewrite u64_s64. by apply (u64_within m). Qed.

(** The truth of the conditions of the rules, as inequalities. *)
Lemma is_sign_bit m c : good_size m -> (c =? sign_bit m) = (c =? 2 ^ (m - 1)).
Proof. intros Hm. by rewrite sign_bit_pow. Qed.
Lemma is_sign_mask m c : good_size m -> (c =? sign_mask m) = (c =? 2 ^ (m - 1) - 1).
Proof. intros Hm. by rewrite sign_mask_eq. Qed.
Lemma is_above m c : good_size m -> (c =? u64 (sign_bit m + 1)) = (c =? 2 ^ (m - 1) + 1).
Proof. intros Hm. by rewrite sign_bit_pow, u64_above. Qed.
Lemma is_below m c : good_size m -> c < 2 ^ m -> (c =? u64 (sign_mask m - 1)) = (c =? 2 ^ (m - 1) - 2) && (1 <? 2 ^ (m - 1)).
Proof.
  intros Hm Hc. rewrite sign_mask_eq by done. replace (2 ^ (m - 1) - 1 - 1) with (2 ^ (m - 1) - 2) by lia.
  pose proof (half_bounds m Hm). rewrite u64_below2 by done. apply eq_true_iff_eq.
  destruct (Z.eqb_spec (2 ^ (m - 1)) 1); unfold two64, two63 in *; lia.
Qed.
Lemma is_bits m c : good_size m -> (c =? bits_mask m) = (c =? 2 ^ m - 1).
Proof. intros Hm. by rewrite bits_mask_eq. Qed.
Lemma is_bits_pred m c : good_size m -> (c =? bits_mask m - 1) = (c =? 2 ^ m - 2).
Proof. intros Hm. rewrite bits_mask_eq by done. f_equal. lia. Qed.
Lemma is_half_bits m c : good_size m -> (c =? Z.shiftr (bits_mask m) 1) = (c =? 2 ^ (m - 1) - 1).
Proof. intros Hm. by rewrite shiftr_bits. Qed.

(** Rewrites the conditions of the rules and the signed values; what is left is linear. *)
Ltac conditions :=
  repeat match goal with
  | Hm : good_size ?m, H : context [_ =? sign_bit ?m] |- _ => rewrite (is_sign_bit m) in H by exact Hm
  | Hm : good_size ?m, H : context [_ =? sign_mask ?m] |- _ => rewrite (is_sign_mask m) in H by exact Hm
  | Hm : good_size ?m, H : context [_ =? u64 (sign_bit ?m + 1)] |- _ => rewrite (is_above m) in H by exact Hm
  | Hm : good_size ?m, Hw : within ?m ?c, H : context [?c =? u64 (sign_mask ?m - 1)] |- _ => rewrite (is_below m) in H by (exact Hm || apply Hw)
  | Hm : good_size ?m, H : context [_ =? bits_mask ?m] |- _ => rewrite (is_bits m) in H by exact Hm
  | Hm : good_size ?m, H : context [_ =? bits_mask ?m - 1] |- _ => rewrite (is_bits_pred m) in H by exact Hm
  | Hm : good_size ?m, H : context [_ =? Z.shiftr (bits_mask ?m) 1] |- _ => rewrite (is_half_bits m) in H by exact Hm
  | Hm : good_size ?m, Hw : within ?m ?c, H : context [Z.land ?c (sign_bit ?m)] |- _ => rewrite (land_sign_bit m Hm c Hw) in H
  end.

Ltac constants :=
  repeat match goal with
  | Hm : good_size ?m |- context [u64 (s64 (sign_bit ?m))] => rewrite (sign_bit_pow m Hm)
  | Hm : good_size ?m |- context [u64 (s64 (sign_mask ?m))] => rewrite (sign_mask_eq m Hm)
  | Hm : good_size ?m |- context [u64 (s64 (bits_mask ?m))] => rewrite (bits_mask_eq m Hm)
  | Hm : good_size ?m |- context [u64 (s64 (2 ^ (?m - 1)))] => rewrite (val_mask m (2 ^ (m - 1)) Hm) by lia
  | Hm : good_size ?m |- context [u64 (s64 (2 ^ (?m - 1) - 1))] => rewrite (val_mask m (2 ^ (m - 1) - 1) Hm) by lia
  | Hm : good_size ?m |- context [u64 (s64 (2 ^ ?m - 1))] => rewrite (val_mask m (2 ^ m - 1) Hm) by lia
  | Hm : good_size ?m |- context [u64 (s64 (Z.land (u64 (?v - 1)) (bits_mask ?m)))] => rewrite (val_pred m v Hm) by (done || lia)
  | Hm : good_size ?m |- context [u64 (s64 (Z.land (u64 (?v + 1)) (bits_mask ?m)))] => rewrite (val_succ m v Hm) by (done || lia)
  | |- context [u64 (s64 0)] => change (u64 (s64 0)) with 0
  | |- context [u64 (s64 ?v)] => rewrite (u64_s64 v)
  end.

Ltac signed :=
  repeat match goal with
  | Hm : good_size ?m, Hw : within ?m ?a |- context [scast ?m ?a] => rewrite (scast_cases m Hm a Hw)
  | Hm : good_size ?m |- context [scast ?m 0] => rewrite (scast_0 m Hm)
  end.

Ltac decide_all :=
  repeat match goal with |- context [if ?u <? ?v then _ else _] => destruct (Z.ltb_spec u v) end;
  repeat match goal with |- context [if ?u =? ?v then _ else _] => destruct (Z.eqb_spec u v) end.

Ltac bounds_facts :=
  match goal with Hm : good_size ?m, Hv : is_s64 ?v, Hw : within ?m (u64 ?v) |- _ =>
    pose proof (half_bounds m Hm); rewrite ?(u64_eqb_0 v Hv), ?(u64_eqb_1 v Hv) in *; conditions;
    let W := fresh "W" in pose proof Hw as W; unfold within in W
  end.

(** Another constant of the type, next to the first. *)
Ltac neighbours :=
  repeat match goal with
  | Hm : good_size ?m |- context [scast ?m (?c - 1)] =>
    lazymatch goal with _ : within m (c - 1) |- _ => fail | |- _ => assert (within m (c - 1)) by (unfold within; lia) end
  | Hm : good_size ?m |- context [scast ?m (?c + 1)] =>
    lazymatch goal with _ : within m (c + 1) |- _ => fail | |- _ => assert (within m (c + 1)) by (unfold within; lia) end
  end.

(** An equation between comparisons. *)
Ltac cmp_solve :=
  bounds_facts; constants; simpl; decide_all; neighbours; signed; decide_all; unfold within in *; try apply bool_of; lia.

Section compare.
Context `{At : Atoms}.

(** A comparison with a constant gets another opcode and constant with the same result. *)
Lemma cmp_rule d i x v o w f : wf d -> computes d i x -> OPF_COMPARE (op x) = true -> src2 x = VAL v -> OPF_COMPARE o = true ->
  is_s64 w -> f x = set_src2 (VAL w) (set_op o x) ->
  (forall r a, let m := itype x in sat r d -> a = val r (src1 x) -> good_size m -> is_s64 v -> within m a -> within m (u64 v) ->
    within m (u64 w) /\ cmp_val o m a (u64 w) = cmp_val (op x) m a (u64 v)) ->
  (op x = OP_SET_EQ \/ op x = OP_SET_NE -> v <> 0) -> changes d i f x /\ sound d (modify i f d).
Proof.
  intros Hwf Hc Hx H2 Ho Hw Hf Hcmp Hnz. assert (arity (op x) = 2) as Ha by (by destruct (op x)).
  assert (arity o = 2 /\ is_value_op o = true) as [Hao Hvo] by (by destruct o).
  assert (is_s64 v) as Hv by (apply (below_s64 d i (VAL v) Hwf); [rewrite <- H2; by apply below_src2|done]).
  assert (changes d i f x) as Hch.
  { split; rewrite Hf; [apply Hc|done|]. intros p Hin. rewrite operands_2 in Hin by done. elems Hin.
    - by apply below_src1. - by apply below_value. }
  split; [done|]. apply (change_sound d i x f); try done. rewrite Hf. intros r Hr. apply (sat_computes r) in Hc; [|done].
  apply holds_cmp in Hc as (Gn & Gm & Tx & Hi); [|done]. rewrite H2 in Tx, Hi. simpl in Tx, Hi.
  destruct Tx as [[T1 T2]|(Hz & [= ->]%(eq_trans (eq_sym H2)) & _)]; [|by destruct (Hnz Hz)].
  destruct (Hcmp r _ Hr eq_refl Gm Hv T1 T2) as [Hww Hval]. apply holds_cmp; [done|]. simpl. split_and!; try done; [by left|]. by rewrite Hi, <- Hval.
Qed.

(** The result of a comparison with a constant is known. *)
Lemma cmp_known d i x v (b : bool) : wf d -> computes d i x -> OPF_COMPARE (op x) = true -> src2 x = VAL v ->
  (forall r a, let m := itype x in sat r d -> a = val r (src1 x) -> good_size m -> is_s64 v -> cmp_typed x a (u64 v) ->
    cmp_val (op x) m a (u64 v) = b) -> ok d (replace_with_value i (Z.b2z b) d).
Proof.
  intros Hwf Hc Hx H2 Hcmp. assert (arity (op x) = 2) as Ha by (by destruct (op x)).
  assert (is_s64 v) as Hv by (apply (below_s64 d i (VAL v) Hwf); [rewrite <- H2; by apply below_src2|done]).
  apply (replace_with_value_ok d i x); [done|done|]. intros r Hr. pose proof (sat_computes r d i x Hr Hc) as Hh.
  apply holds_cmp in Hh as (Gn & Gm & Tx & Hi); [|done]. rewrite H2 in Tx, Hi. simpl in Tx, Hi.
  rewrite Hi, (Hcmp r _ Hr eq_refl Gm Hv Tx). by destruct b.
Qed.

(** ** The first switch *)

(** What is left of <, <=, > and >= after the first switch. *)
Definition bounded (o : opcode) (m c : Z) : Prop :=
  match o with
  | OP_SET_LT | OP_SET_GE => c = 0 \/ 2 ^ (m - 1) < c
  | OP_SET_LE | OP_SET_GT => c < 2 ^ (m - 1)
  | _ => True
  end.

Definition is_equality (o : opcode) : bool := match o with OP_SET_EQ | OP_SET_NE => true | _ => false end.

Lemma cmp_opcode_ok d i x v o : wf d -> computes d i x -> OPF_COMPARE (op x) = true -> is_equality (op x) = false ->
  src2 x = VAL v -> OPF_COMPARE o = true ->
  (forall r a, let m := itype x in sat r d -> a = val r (src1 x) -> good_size m -> is_s64 v -> within m a -> within m (u64 v) ->
    cmp_val o m a (u64 v) = cmp_val (op x) m a (u64 v)) -> ok d (replace_opcode i o d).
Proof.
  intros Hwf Hc Hx Heq H2 Ho Hcmp. assert (arity (op x) = 2) as Ha by (by destruct (op x)).
  assert (is_s64 v) as Hv by (apply (below_s64 d i (VAL v) Hwf); [rewrite <- H2; by apply below_src2|done]).
  assert (set_op o x = set_src2 (VAL v) (set_op o x)) as Hf by (destruct x; simpl in *; by subst).
  destruct (cmp_rule d i x v o v (set_op o) Hwf Hc Hx H2 Ho Hv Hf) as [_ Hs]; [by intros; split; eauto| |by split].
  intros [E|E]; by rewrite E in Heq.
Qed.

Lemma cmp_value_ok d i x v o w : wf d -> computes d i x -> OPF_COMPARE (op x) = true -> is_equality (op x) = false ->
  src2 x = VAL v -> OPF_COMPARE o = true ->
  (forall a, let m := itype x in good_size m -> is_s64 v -> within m a -> within m (u64 v) ->
    within m (u64 (s64 w)) /\ cmp_val o m a (u64 (s64 w)) = cmp_val (op x) m a (u64 v)) ->
  let f := fun x => set_src2 (VAL (s64 w)) (set_op o x) in changes d i f x /\ sound d (modify i f d).
Proof.
  intros Hwf Hc Hx Heq H2 Ho Hcmp f. apply (cmp_rule d i x v o (s64 w) f); try done; [apply s64_range|by intros; apply Hcmp|].
  intros [E|E]; by rewrite E in Heq.
Qed.

(** The result of the first switch: it returns, or goes on with a comparison within bounds. *)
Definition bounds_result (d : dag) (i : Z) (x : insn) (v : Z) (res : (Z * dag) + (Z * dag)) : Prop :=
  match res with
  | inl res => ok d res
  | inr (changed, d') => exists o w, OPF_COMPARE o = true /\ is_s64 w /\
    (changed = 0 /\ d' = d /\ o = op x /\ w = v \/
     changed = REPEAT_CSE /\ is_equality (op x) = false /\ is_equality o = false /\
     let f := fun x => set_src2 (VAL w) (set_op o x) in d' = modify i f d /\ changes d i f x /\ sound d d') /\
    (good_size (itype x) -> within (itype x) (u64 v) -> bounded o (itype x) (u64 w))
  end.

Lemma bounds_same d i x v : OPF_COMPARE (op x) = true -> is_s64 v ->
  (good_size (itype x) -> within (itype x) (u64 v) -> bounded (op x) (itype x) (u64 v)) -> bounds_result d i x v (inr (0, d)).
Proof. intros Ho Hv Hb. exists (op x), v. split_and!; auto. Qed.

Lemma bounds_changed d i x v o w : wf d -> computes d i x -> OPF_COMPARE (op x) = true -> is_equality (op x) = false ->
  is_equality o = false -> src2 x = VAL v -> OPF_COMPARE o = true ->
  (forall a, let m := itype x in good_size m -> is_s64 v -> within m a -> within m (u64 v) ->
    within m (u64 (s64 w)) /\ cmp_val o m a (u64 (s64 w)) = cmp_val (op x) m a (u64 v)) ->
  (good_size (itype x) -> is_s64 v -> within (itype x) (u64 v) -> bounded o (itype x) (u64 (s64 w))) ->
  bounds_result d i x v (inr (replace_binop_value i o w d)).
Proof.
  intros Hwf Hc Hx Hq Hqo H2 Ho Hcmp Hb. assert (arity (op x) = 2) as Ha by (by destruct (op x)).
  assert (is_s64 v) as Hv by (apply (below_s64 d i (VAL v) Hwf); [rewrite <- H2; by apply below_src2|done]).
  exists o, (s64 w). split_and!; [done|apply s64_range| |auto]. right.
  destruct (cmp_value_ok d i x v o w Hwf Hc Hx Hq H2 Ho Hcmp) as [Hch Hs]. by split_and!.
Qed.

Lemma bounds_value d i x v o w : wf d -> computes d i x -> OPF_COMPARE (op x) = true -> is_equality (op x) = false ->
  src2 x = VAL v -> OPF_COMPARE o = true ->
  (forall a, let m := itype x in good_size m -> is_s64 v -> within m a -> within m (u64 v) ->
    within m (u64 (s64 w)) /\ cmp_val o m a (u64 (s64 w)) = cmp_val (op x) m a (u64 v)) ->
  bounds_result d i x v (inl (replace_binop_value i o w d)).
Proof. intros. apply ok_changed. by eapply cmp_value_ok. Qed.

Lemma bounds_known d i x v (b : bool) : wf d -> computes d i x -> OPF_COMPARE (op x) = true -> is_equality (op x) = false ->
  src2 x = VAL v ->
  (forall a, let m := itype x in good_size m -> is_s64 v -> within m a -> within m (u64 v) -> cmp_val (op x) m a (u64 v) = b) ->
  bounds_result d i x v (inl (replace_with_value i (Z.b2z b) d)).
Proof.
  intros Hwf Hc Hx Hq H2 Hcmp. apply (cmp_known d i x v b); try done. intros r a m _ _ Hm Hv [[T1 T2]|([E|E] & _)]; [auto|..]; by rewrite E in Hq.
Qed.

Lemma compare_bounds_ok d i x v : wf d -> computes d i x -> OPF_COMPARE (op x) = true -> src2 x = VAL v ->
  bounds_result d i x v (compare_bounds i v d).
Proof.
  intros Hwf Hc Ho H2. assert (arity (op x) = 2) as Ha by (by destruct (op x)).
  assert (is_s64 v) as Hv by (apply (below_s64 d i (VAL v) Hwf); [rewrite <- H2; by apply below_src2|done]).
  unfold compare_bounds. rewrite (at_computes _ _ _ Hc).
  destruct (op x) eqn:Hox; try done; try (apply bounds_same; [by rewrite Hox|done|by rewrite Hox]).
  all: repeat (case_match; try (apply bounds_same; [by rewrite Hox|done|rewrite Hox; intros Hm Hw; bounds_facts; simpl; lia])).
  all: first
    [ apply (bounds_known d i x v true); try done; [by rewrite Hox|by rewrite Hox|]; intros a m Hm Hv' Ha' Hw; subst m; rewrite Hox; cmp_solve
    | apply (bounds_known d i x v false); try done; [by rewrite Hox|by rewrite Hox|]; intros a m Hm Hv' Ha' Hw; subst m; rewrite Hox; cmp_solve
    | apply (cmp_opcode_ok d i x v); try done; [by rewrite Hox|by rewrite Hox|]; intros r a m _ _ Hm Hv' Ha' Hw; subst m; rewrite Hox; cmp_solve
    | apply (bounds_value d i x v); try done; [by rewrite Hox|by rewrite Hox|];
      intros a m Hm Hv' Ha' Hw; subst m; rewrite Hox; bounds_facts; constants; split; [decide_all; unfold within; lia|cmp_solve]
    | apply (bounds_changed d i x v); try done; try (by rewrite Hox);
      first [intros a m Hm Hv' Ha' Hw; subst m; rewrite Hox; bounds_facts; constants; split; [decide_all; unfold within; lia|cmp_solve]
            |intros Hm Hv' Hw; bounds_facts; constants; decide_all; simpl; lia] ].
Qed.

(** ** The second switch *)

(** The sides of a comparison with the result of [y]: of one type, or for equality with 0. *)
Definition cmp_of (x y : insn) (v : Z) : Prop := is_equality (op x) = true /\ v = 0 \/ size y = itype x.

Lemma cmp_of_typed x y v a : src2 x = VAL v -> cmp_of x y v -> cmp_typed x a (u64 v) -> within (size y) a ->
  is_equality (op x) = true /\ v = 0 \/ size y = itype x /\ within (itype x) a /\ within (itype x) (u64 v).
Proof.
  intros H2 [Hz|Hs] [[T1 T2]|([E|E] & E0 & _)] Hw; auto; left; rewrite E; (split; [done|congruence]).
Qed.

(** The signed values in a comparison of a value that is not negative. *)
Lemma masked_signed m a v b : good_size m -> is_s64 v -> within m a -> within m (u64 v) -> within m (u64 b) -> a <= u64 b ->
  (Z.land (u64 b) (sign_bit m) =? 0) = true ->
  sign_extend v m = scast m (u64 v) /\ scast m a = a /\ s64 (u64 b) = u64 b.
Proof.
  intros Hm Hv Wa Wv Wb Hle Hs. pose proof (half_bounds m Hm). rewrite land_sign_bit in Hs by done.
  rewrite sign_extend_scast, (scast_cases m Hm a) by done. unfold within in *.
  destruct (Z.ltb_spec a (2 ^ (m - 1))); [|lia]. split_and!; try done. apply s64_small. unfold is_s64. lia.
Qed.

Lemma bounded_pred m v : good_size m -> within m (u64 v) -> u64 v = 0 \/ 2 ^ (m - 1) < u64 v ->
  s64 (scast m (u64 v) - 1) = scast m (u64 v) - 1.
Proof.
  intros Hm Wv Hb. pose proof (half_bounds m Hm). apply s64_small. rewrite scast_cases by done. unfold within, is_s64 in *.
  destruct (Z.ltb_spec (u64 v) (2 ^ (m - 1))); lia.
Qed.

Lemma bounded_pred_extend m v : good_size m -> is_s64 v -> within m (u64 v) -> u64 v = 0 \/ 2 ^ (m - 1) < u64 v ->
  sign_extend (s64 (v - 1)) m = scast m (u64 v) - 1.
Proof.
  intros Hm Hv Wv Hb. pose proof (half_bounds m Hm). destruct (Z.eq_dec v 0) as [-> |Hne].
  - change (u64 0) with 0. by rewrite scast_0, sign_extend_minus_one by done.
  - assert (u64 v <> 0) by (intros E; apply Hne; apply Z.eqb_eq; rewrite u64_eqb_0 by done; by apply Z.eqb_eq).
    assert (u64 (s64 (v - 1)) = u64 v - 1) as E.
    { rewrite u64_s64. pose proof (u64_range v) as Hr. unfold is_u64, u64 in *. rewrite <- (Zminus_mod_idemp_l v), (Z.mod_small (v mod two64 - 1)) by lia. done. }
    assert (within m (u64 v - 1)) by (unfold within in *; lia).
    rewrite sign_extend_scast by (done || (apply s64_range) || by rewrite E). rewrite E, !scast_cases by done.
    destruct (Z.ltb_spec (u64 v) (2 ^ (m - 1))), (Z.ltb_spec (u64 v - 1) (2 ^ (m - 1))); lia.
Qed.

Lemma land_lor_absorb b p : Z.land b (Z.lor b p) = b.
Proof. apply Z.bits_inj'. intros k Hk. rewrite Z.land_spec, Z.lor_spec. by destruct (Z.testbit b k). Qed.

Lemma power_cases p b : u64 b = 2 ^ Z.log2 (u64 b) -> Z.land p (u64 b) = 0 \/ Z.land p (u64 b) = u64 b.
Proof. intros ->. rewrite land_power by apply Z.log2_nonneg. destruct (Z.testbit p _); auto. Qed.

(** A comparison with a constant, of the result of an instruction with a constant. *)
Record cmp_const (d : dag) (i : Z) (x : insn) (j : Z) (y : insn) (v b : Z) : Prop := {
  cc_wf : wf d;
  cc_x : computes d i x;
  cc_y : computes d j y;
  cc_op : OPF_COMPARE (op x) = true;
  cc_src1 : src1 x = REG j;
  cc_src2 : src2 x = VAL v;
  cc_arity : arity (op y) = 2;
  cc_const : src2 y = VAL b;
  cc_of : cmp_of x y v
}.

Lemma cc_s64 d i x j y v b : cmp_const d i x j y v b -> is_s64 v /\ is_s64 b.
Proof.
  intros [Hwf Hc Hy Ho Hp H2 Ha Hb _]. split; [apply (below_s64 d i (VAL v) Hwf)|apply (below_s64 d j (VAL b) Hwf)]; try done;
    rewrite <- ?H2, <- ?Hb; apply below_src2; try done. by destruct (op x).
Qed.

Lemma cc_known d i x j y v b (bo : bool) : cmp_const d i x j y v b ->
  (forall r, sat r d -> good_size (itype x) -> cmp_typed x (r j) (u64 v) -> cmp_val (op x) (itype x) (r j) (u64 v) = bo) ->
  ok d (replace_with_value i (Z.b2z bo) d).
Proof.
  intros [] H. apply (cmp_known d i x v bo); try done. intros r a m Hr Ha Hm _ Ht. rewrite cc_src3 in Ha. simpl in Ha. rewrite Ha in *. by apply H.
Qed.

Section and_or.
Context (d : dag) (i : Z) (x : insn) (j : Z) (y : insn) (v b changed : Z) (CC : cmp_const d i x j y v b).
Context (Hbd : good_size (itype x) -> within (itype x) (u64 v) -> bounded (op x) (itype x) (u64 v)).

(** The value of p & C. *)
Lemma and_value r : op y = OP_AND -> sat r d -> cmp_typed x (r j) (u64 v) -> exists p, r j = Z.land p (u64 b) /\ 0 <= r j <= u64 b /\
  (is_equality (op x) = true /\ v = 0 \/ size y = itype x /\ within (itype x) (r j) /\ within (itype x) (u64 v) /\ within (itype x) (u64 b)).
Proof using CC.
  clear Hbd. intros Hoy Hr Ht. destruct CC as [Hwf Hc Hy Ho Hp H2 Ha Hb Hof].
  assert (good_size (size y) /\ r j = Z.land (val r (src1 y)) (u64 b) /\ within (size y) (r j) /\ within (size y) (u64 b) /\ 0 <= r j <= u64 b)
    as (Hn & E & W1 & W2 & R).
  { clear Hof Hc. opened y. sems Hr. pose proof (land_le (val r p) (u64 b)).
    pose proof (within_land_r n (val r p) (u64 b)). unfold within, good_size in *.
    assert (0 <= Z.land (val r p) (u64 b)) by (apply Z.land_nonneg; lia). rewrite <- S. split_and!; auto with lia. }
  exists (val r (src1 y)). split_and!; try done; try lia.
  destruct (cmp_of_typed x y v (r j) H2 Hof Ht W1) as [?|(E2 & ? & ?)]; [auto|]. rewrite E2 in W2. auto.
Qed.

(** Equality with a mask of one bit. *)
Lemma and_power_ok o : op y = OP_AND -> (op x = OP_SET_EQ /\ o = OP_SET_NE \/ op x = OP_SET_NE /\ o = OP_SET_EQ) -> u64 v = u64 b ->
  is_power_of_2 (s64 (u64 b)) = true -> ok d (replace_binop_value i o 0 d).
Proof using CC.
  clear Hbd. intros Hoy Hoo Evb Hpow. destruct (cc_s64 _ _ _ _ _ _ _ CC) as [Hv Hb64].
  apply is_power_of_2_eq in Hpow as [Epow Hpos]; [|apply s64_range]. rewrite u64_s64 in Epow, Hpos.
  rewrite (u64_small (u64 b)) in Epow, Hpos by apply u64_range.
  assert (OPF_COMPARE o = true) as Hco by (by destruct Hoo as [[_ ->]|[_ ->]]).
  destruct (cmp_rule d i x v o (s64 0) (fun x => set_src2 (VAL (s64 0)) (set_op o x)) (cc_wf _ _ _ _ _ _ _ CC) (cc_x _ _ _ _ _ _ _ CC)
    (cc_op _ _ _ _ _ _ _ CC) (cc_src2 _ _ _ _ _ _ _ CC) Hco (s64_range 0) eq_refl) as [_ Hs]; [| |by apply ok_changed].
  - intros r a m Hr Ha Hm _ Wa Wv. rewrite (cc_src1 _ _ _ _ _ _ _ CC) in Ha. simpl in Ha. subst a.
    destruct (and_value r Hoy Hr) as (p & E & R & _); [by left|]. split; [apply within_0; unfold good_size in Hm; lia|].
    rewrite Evb. destruct (power_cases p b Epow) as [Ep|Ep]; rewrite <- E in Ep; rewrite Ep;
      destruct Hoo as [[-> ->]|[-> ->]]; cbn [cmp_val]; change (u64 (s64 0)) with 0; apply bool_of; lia.
  - intros _ ->. change (u64 0) with 0 in Evb. lia.
Qed.

Ltac and_leaf r Hoy Hr Hm Ht Hox :=
  let p := fresh "p" in let E := fresh "E" in let R := fresh "R" in let W1 := fresh "W" in let W2 := fresh "W" in let W3 := fresh "W" in
  destruct (and_value r Hoy Hr Ht) as (p & E & R & [[? _]|(_ & W1 & W2 & W3)]); [by rewrite Hox in *|];
  specialize (Hbd Hm W2); rewrite Hox in *; cbn [bounded cmp_val val] in *;
  try match goal with H : negb _ = false |- _ => apply negb_false_iff in H;
    let S1 := fresh "S" in let S2 := fresh "S" in let S3 := fresh "S" in
    destruct (masked_signed (itype x) (r j) v b Hm ltac:(apply (cc_s64 _ _ _ _ _ _ _ CC)) W1 W2 W3 ltac:(lia) H) as (S1 & S2 & S3);
    rewrite S1, ?S3 in *; rewrite ?S2 end;
  try (rewrite (bounded_pred (itype x) v Hm W2) in * by lia);
  pose proof (half_bounds _ Hm); rewrite ?(scast_cases _ Hm _ W2) in *; unfold within in *;
  repeat match goal with H : context [if ?u <? ?w then _ else _] |- _ => destruct (Z.ltb_spec u w) end;
  try apply bool_of; lia.

Lemma compare_and_ok : op y = OP_AND -> ok d (compare_and i y v changed d).
Proof using CC Hbd.
  intros Hoy. pose proof (cc_s64 _ _ _ _ _ _ _ CC) as [Hv Hb64]. pose proof CC as [Hwf Hc Hy Ho Hp H2 Ha Hb Hof].
  unfold compare_and. rewrite (at_computes _ _ _ Hc), Hb. simpl.
  assert (is_equality (op x) = false -> size y = itype x) as Hsize by (intros He; destruct Hof as [[? _]|?]; [congruence|done]).
  destruct (op x) eqn:Hox; try done.
  1,10: destruct (Z.eqb_spec (Z.land (u64 v) (u64 b)) (u64 v)) as [|Hne]; simpl;
    [destruct (_ && _) eqn:E; [|same]; apply andb_true_iff in E as [Evb%Z.eqb_eq Hpow]; apply and_power_ok; auto|].
  1-2: match goal with |- ok _ (replace_with_value _ ?z _) => apply (cc_known d i x j y v b (z =? 1) CC) end;
    intros r Hr Hm Ht; destruct (and_value r Hoy Hr Ht) as (p & E & _); rewrite Hox; cbn [cmp_val];
    assert (r j <> u64 v) as Hd by (intros E2; rewrite <- E2, E, <- Z.land_assoc, Z.land_diag in Hne; done); apply bool_of; lia.
  all: change (oeq OP_SET_LT OP_SET_LT) with true; change (oeq OP_SET_LE OP_SET_LT) with false;
    change (oeq OP_SET_GE OP_SET_GE) with true; change (oeq OP_SET_GT OP_SET_GE) with false; cbv iota.
  all: specialize (Hsize eq_refl); rewrite ?Hsize; repeat (case_match; try same).
  all: first
    [ apply (cc_known d i x j y v b true CC); intros r Hr Hm Ht; and_leaf r Hoy Hr Hm Ht Hox
    | apply (cc_known d i x j y v b false CC); intros r Hr Hm Ht; and_leaf r Hoy Hr Hm Ht Hox
    | apply (cmp_opcode_ok d i x v); try done; [by rewrite Hox|by rewrite Hox|]; intros r a m Hr -> Hm _ Wa Wv; subst m; rewrite Hp in Wa |- *; simpl in Wa;
      assert (cmp_typed x (r j) (u64 v)) as Ht by (by left); and_leaf r Hoy Hr Hm Ht Hox ].
Qed.

(** The value of p | C. *)
Lemma or_value r : op y = OP_OR -> sat r d -> cmp_typed x (r j) (u64 v) -> exists p, r j = Z.lor p (u64 b) /\ u64 b <= r j /\
  (is_equality (op x) = true /\ v = 0 \/ size y = itype x /\ within (itype x) (r j) /\ within (itype x) (u64 v) /\ within (itype x) (u64 b)).
Proof using CC.
  clear Hbd. intros Hoy Hr Ht. destruct CC as [Hwf Hc Hy Ho Hp H2 Ha Hb Hof].
  assert (good_size (size y) /\ r j = Z.lor (val r (src1 y)) (u64 b) /\ within (size y) (r j) /\ within (size y) (u64 b) /\ u64 b <= r j)
    as (Hn & E & W1 & W2 & R).
  { clear Hof Hc. opened y. sems Hr. pose proof (lor_ge (val r p) (u64 b)).
    pose proof (within_lor n (val r p) (u64 b)). unfold within, good_size in *. rewrite <- S. split_and!; auto with lia. }
  exists (val r (src1 y)). split_and!; try done; try lia.
  destruct (cmp_of_typed x y v (r j) H2 Hof Ht W1) as [?|(E2 & ? & ?)]; [auto|]. rewrite E2 in W2. auto.
Qed.

Ltac or_leaf r Hoy Hr Hm Ht Hox :=
  let p := fresh "p" in let E := fresh "E" in let R := fresh "R" in let W1 := fresh "W" in let W2 := fresh "W" in let W3 := fresh "W" in
  destruct (or_value r Hoy Hr Ht) as (p & E & R & [[? _]|(_ & W1 & W2 & W3)]); [by rewrite Hox in *|];
  specialize (Hbd Hm W2); rewrite Hox in *; cbn [bounded cmp_val val] in *;
  rewrite ?(land_sign_bit _ Hm _ W3) in *;
  try (rewrite (bounded_pred_extend (itype x) v Hm ltac:(apply (cc_s64 _ _ _ _ _ _ _ CC)) W2) in * by lia);
  rewrite ?(sign_extend_scast (itype x) v ltac:(apply (cc_s64 _ _ _ _ _ _ _ CC)) Hm W2) in *;
  pose proof (half_bounds _ Hm); rewrite ?(scast_cases _ Hm _ W2), ?(scast_cases _ Hm _ W1) in *; unfold within in *;
  repeat match goal with |- context [if ?u <? ?w then _ else _] => destruct (Z.ltb_spec u w) end;
  try apply bool_of; lia.

(** The case of > takes p | C > C for true. *)
Lemma compare_or_ok : op y = OP_OR -> (op x = OP_SET_A -> u64 v <> u64 b) -> ok d (compare_or i y v changed d).
Proof using CC Hbd.
  intros Hoy HA. pose proof (cc_s64 _ _ _ _ _ _ _ CC) as [Hv Hb64]. pose proof CC as [Hwf Hc Hy Ho Hp H2 Ha Hb Hof].
  unfold compare_or. rewrite (at_computes _ _ _ Hc), Hb. simpl.
  assert (is_equality (op x) = false -> size y = itype x) as Hsize by (intros He; destruct Hof as [[? _]|?]; [congruence|done]).
  destruct (op x) eqn:Hox; try done.
  1,10: destruct (Z.eqb_spec (Z.land (u64 v) (u64 b)) (u64 b)) as [|Hne]; [same|]; simpl;
    match goal with |- ok _ (replace_with_value _ ?z _) => apply (cc_known d i x j y v b (z =? 1) CC) end;
    intros r Hr Hm Ht; destruct (or_value r Hoy Hr Ht) as (p & E & _); rewrite Hox; cbn [cmp_val];
    assert (r j <> u64 v) as Hd by (intros E2; rewrite <- E2, E, Z.land_comm, Z.lor_comm in Hne; by apply Hne, land_lor_absorb);
    apply bool_of; lia.
  all: specialize (Hsize eq_refl); rewrite ?Hsize; repeat (case_match; try same).
  all: first
    [ apply (cc_known d i x j y v b true CC); intros r Hr Hm Ht; try specialize (HA eq_refl); or_leaf r Hoy Hr Hm Ht Hox
    | apply (cc_known d i x j y v b false CC); intros r Hr Hm Ht; or_leaf r Hoy Hr Hm Ht Hox ].
Qed.
End and_or.

(** ** Comparisons of extended values with constants *)

Lemma scast_ucast_mono m k a : good_size m -> m <= k -> scast m (ucast k a) = scast m a.
Proof.
  intros Hm Hk. unfold good_size in Hm. rewrite <- (scast_ucast m (ucast k a)), <- (scast_ucast m a) by done. f_equal.
  unfold ucast. replace k with (m + (k - m)) by lia. rewrite Z.pow_add_r by lia.
  assert (2 ^ m <> 0) by (apply Z.pow_nonzero; lia). assert (2 ^ (k - m) <> 0) by (apply Z.pow_nonzero; lia).
  rewrite Z.rem_mul_r by lia. rewrite (Z.mul_comm (2 ^ m)), Z_mod_plus_full. by apply Zmod_mod.
Qed.

Lemma scast_u64 m v : good_size m -> scast m (u64 v) = scast m v.
Proof. intros Hm. apply (scast_ucast_mono m 64); [done|unfold good_size in Hm; lia]. Qed.

Lemma bits_extend_scast n v : good_size n -> bits_extend v n true = scast n v.
Proof.
  intros Hn. unfold bits_extend. rewrite sign_extend_scast; [|apply s64_range|done|].
  - rewrite zero_extend_ucast by done. by apply scast_ucast.
  - rewrite zero_extend_ucast by done. apply within_ucast. unfold good_size in Hn. lia.
Qed.

(** A constant that a sign extension gives. *)
Lemma signed_constant o n v : good_size o -> good_size n -> o <= n -> within n (u64 v) -> is_signed_constant v o n = true ->
  u64 v = ucast n (scast o (ucast o v)).
Proof.
  intros Ho Hn Hle Hw Hs. unfold is_signed_constant in Hs. rewrite !bits_extend_scast in Hs by done. apply Z.eqb_eq in Hs.
  by rewrite scast_ucast, Hs, <- (scast_u64 n), ucast_scast, ucast_id by done.
Qed.

(** One that it does not give is out of its range. *)
Lemma not_signed_constant o n v : good_size o -> good_size n -> o <= n -> is_signed_constant v o n = false ->
  scast n (u64 v) < - 2 ^ (o - 1) \/ 2 ^ (o - 1) <= scast n (u64 v).
Proof.
  intros Ho Hn Hle Hs. unfold is_signed_constant in Hs. rewrite !bits_extend_scast in Hs by done. apply Z.eqb_neq in Hs.
  rewrite scast_u64 by done. destruct (Z.lt_ge_cases (scast n v) (- 2 ^ (o - 1))); [auto|].
  destruct (Z.lt_ge_cases (scast n v) (2 ^ (o - 1))); [|auto]. destruct Hs. symmetry.
  rewrite <- (scast_small o (scast n v)) by (unfold good_size in Ho; lia).
  by rewrite <- (scast_ucast_mono o n), ucast_scast, scast_ucast_mono by done.
Qed.

(** The comparison of the source of an extension. *)
Lemma ext_change_ok d i x j y o m w f : wf d -> computes d i x -> computes d j y -> OPF_COMPARE (op x) = true -> OPF_COMPARE o = true ->
  src1 x = REG j -> is_s64 w -> set_src1 (src1 y) (f x) = set_src1 (src1 y) (set_src2 (VAL w) (set_op o (set_itype m x))) ->
  (forall r, sat r d -> good_size m /\ within m (val r (src1 y)) /\ within m (u64 w) /\
    cmp_val o m (val r (src1 y)) (u64 w) = cmp_val (op x) (itype x) (r j) (val r (src2 x))) ->
  ok d (replace_pseudo i P1 (src1 y) (modify i f d)).
Proof.
  intros Hwf Hc Hy Hx Ho Hp Hw Hf Hv. assert (arity o = 2 /\ is_value_op o = true) as [Hao Hvo] by (by destruct o).
  apply (change_replace_ok d i x); [done|done| |]; cbn [set].
  - split; cbn [set]; rewrite Hf; [apply Hc|done|]. intros p Hin. rewrite operands_2 in Hin by done. elems Hin; [|by apply below_value].
    apply below_trans with j; [rewrite <- Hp; by apply below_src1|by apply below_src1].
  - intros r Hr. destruct (Hv r Hr) as (Hm & W1 & W2 & Hcmp). apply (sat_computes r) in Hc; [|done].
    apply holds_cmp in Hc as (Gn & Gm & Tx & Hi); [|done]. rewrite Hp in Hi. rewrite Hf. apply holds_cmp; [done|]. simpl.
    split_and!; try done; [by left|]. rewrite Hi. cbn [val]. by rewrite <- Hcmp.
Qed.

(** The value of an extension, in a comparison. *)
Lemma ext_value d i x j y v r : computes d i x -> computes d j y -> OPF_COMPARE (op x) = true -> src1 x = REG j ->
  src2 x = VAL v -> cmp_of x y v -> op y = OP_SEXT \/ op y = OP_ZEXT -> sat r d ->
  good_size (itype y) /\ good_size (size y) /\ itype y < size y /\ within (itype y) (val r (src1 y)) /\
  r j = (if oeq (op y) OP_SEXT then ucast (size y) (scast (itype y) (val r (src1 y))) else val r (src1 y)) /\
  good_size (itype x) /\ (is_equality (op x) = true /\ v = 0 \/ size y = itype x /\ within (itype x) (r j) /\ within (itype x) (u64 v)).
Proof.
  intros Hc Hy Hx Hp H2 Hof Hoy Hr. apply (sat_computes r) in Hc; [|done]. apply holds_cmp in Hc as (Gn & Gm & Tx & Hi); [|done].
  rewrite Hp, H2 in Tx. simpl in Tx.
  assert (within (size y) (r j)) as Wj by (apply (sat_computes r) in Hy as [? ?]; [by eapply sem_within|done]).
  pose proof (cmp_of_typed x y v (r j) H2 Hof Tx Wj) as Ht. clear Hof Tx Wj.
  destruct Hoy as [Hoy|Hoy]; opened y; sems Hr; simpl in *; split_and!; auto.
Qed.

Lemma sext_eq_0 o n p : good_size o -> good_size n -> o <= n -> within o p -> (ucast n (scast o p) =? 0) = (p =? 0).
Proof.
  intros Ho Hn Hle Wp. rewrite sext_cases by done. pose proof (half_bounds o Ho).
  assert (2 ^ o <= 2 ^ n) by (apply Z.pow_le_mono_r; unfold good_size in *; lia). unfold within in Wp.
  destruct (Z.ltb_spec p (2 ^ (o - 1))); apply bool_of; lia.
Qed.

Lemma cmp_eq_0 o m k a b : is_equality o = true -> (a =? 0) = (b =? 0) -> cmp_val o m a 0 = cmp_val o k b 0.
Proof. intros Ho E. destruct o; try done; simpl; by rewrite E. Qed.

(** A comparison with a constant that is not in the range of the extension. *)
Lemma sext_out_of_range o n p c : good_size o -> good_size n -> o <= n -> within o p -> within n c ->
  scast n c < - 2 ^ (o - 1) \/ 2 ^ (o - 1) <= scast n c ->
  let a := ucast n (scast o p) in
  (a <=? c) = (0 <=? scast o p) /\ (scast n a <? scast n c) = (c <? 2 ^ (n - 1)) /\ (scast n a <=? scast n c) = (c <? 2 ^ (n - 1)) /\
  2 ^ (o - 1) <= c.
Proof.
  intros Ho Hn Hle Wp Wc Hc a. subst a. rewrite scast_sext by done. pose proof (half_bounds o Ho). pose proof (half_bounds n Hn).
  assert (2 ^ (o - 1) <= 2 ^ (n - 1)) by (apply Z.pow_le_mono_r; unfold good_size in *; lia).
  rewrite sext_cases by done. rewrite (scast_cases n) in * by done. rewrite (scast_cases o) by done. unfold within in *.
  split_and!; try apply bool_of; destruct (Z.ltb_spec p (2 ^ (o - 1))), (Z.ltb_spec c (2 ^ (n - 1))); lia.
Qed.

Lemma compare_sext_ok d i x j y v changed : wf d -> computes d i x -> computes d j y -> OPF_COMPARE (op x) = true ->
  src1 x = REG j -> src2 x = VAL v -> op y = OP_SEXT -> cmp_of x y v -> ok d (compare_sext i (itype x) y v changed d).
Proof.
  intros Hwf Hc Hy Ho Hp H2 Hoy Hof. unfold compare_sext. rewrite (at_computes _ _ _ Hc). unfold orig_type.
  assert (forall r, sat r d -> _) as Hval by (intros r Hr; exact (ext_value d i x j y v r Hc Hy Ho Hp H2 Hof (or_introl Hoy) Hr)).
  rewrite Hoy in Hval. change (oeq OP_SEXT OP_SEXT) with true in Hval. cbv iota in Hval.
  destruct (is_signed_constant v (itype y) (itype x)) eqn:Hs.
  - apply (ext_change_ok d i x j y (op x) (itype y) (s64 (zero_extend v (itype y)))); try done; [apply s64_range|].
    intros r Hr. destruct (Hval r Hr) as (Go & Gy & Hlt & Wp & -> & Gx & Hz). rewrite H2, u64_s64, zero_extend_ucast by done.
    split_and!; [done|done|apply within_ucast; unfold good_size in Go; lia|]. simpl. destruct Hz as [[Heq ->]|(Es & W1 & W2)].
    + change (ucast (itype y) 0) with (0 mod 2 ^ itype y). rewrite Zmod_0_l. change (u64 0) with 0.
      apply cmp_eq_0; [done|]. symmetry. apply sext_eq_0; try done. lia.
    + rewrite Es in *. rewrite (signed_constant (itype y) (itype x) v) by (done || lia).
      symmetry. apply cmp_sext; try done; [lia|]. apply within_ucast. unfold good_size in Go; lia.
  - assert (forall r, sat r d -> is_equality (op x) = false -> exists p, good_size (itype y) /\ good_size (itype x) /\ within (itype y) p /\
      p = val r (src1 y) /\ r j = ucast (itype x) (scast (itype y) p) /\ within (itype x) (u64 v) /\
      (r j <=? u64 v) = (0 <=? scast (itype y) p) /\ (scast (itype x) (r j) <? scast (itype x) (u64 v)) = (u64 v <? 2 ^ (itype x - 1)) /\
      (scast (itype x) (r j) <=? scast (itype x) (u64 v)) = (u64 v <? 2 ^ (itype x - 1))) as Hout.
    { intros r Hr Hq. destruct (Hval r Hr) as (Go & Gy & Hlt & Wp & E & Gx & [[? _]|(Es & W1 & W2)]); [congruence|].
      rewrite Es in *. exists (val r (src1 y)). rewrite E in *.
      destruct (sext_out_of_range (itype y) (itype x) (val r (src1 y)) (u64 v)) as (R1 & R2 & R3 & _); try done; try lia.
      apply not_signed_constant; done || lia. }
    clear Hval. destruct (op x) eqn:Hox; try same.
    1-4: apply (cmp_known d i x v); try done; [by rewrite Hox|]; intros r a m Hr Ha Hm _ _; subst m; rewrite Hp in Ha; simpl in Ha; subst a;
      destruct (Hout r Hr eq_refl) as (p & Go & Gx & Wp & Ep & E & W2 & R1 & R2 & R3); rewrite Hox; cbn [cmp_val]; rewrite sign_bit_pow by done;
      rewrite ?R2, ?R3; try done; rewrite Z.leb_antisym || rewrite Z.ltb_antisym; by rewrite ?R2, ?R3.
    1-2: destruct (_ <=? _); [|same]; unfold replace_binop_value; cbn [snd]; rewrite modify_modify;
      match goal with |- context [set_op ?o _] => apply (ext_change_ok d i x j y o (itype y) (s64 0)) end;
      [done|done|done|by rewrite Hox|reflexivity|done|apply s64_range|reflexivity|];
      intros r Hr; destruct (Hout r Hr eq_refl) as (p & Go & Gx & Wp & Ep & E & W2 & R1 & R2 & R3); rewrite <- Ep, H2, Hox;
      change (u64 (s64 0)) with 0; cbn [cmp_val val]; rewrite scast_0 by done;
      (split_and!; [done|done|apply within_0; unfold good_size in Go; lia|]); rewrite ?R1; try done.
    by rewrite Z.ltb_antisym, (Z.ltb_antisym (r j)), R1.
Qed.

(** x < C and the like for a zero-extended x and a C that is not in its range. *)
Lemma zext_out_of_range o n p v : good_size o -> good_size n -> o < n -> within o p -> is_s64 v -> within n (u64 v) -> bits_mask o < u64 v ->
  (s64 (bits_mask o) <? sign_extend v n) = (scast n p <? scast n (u64 v)) /\
  (s64 (bits_mask o) <? sign_extend v n) = (scast n p <=? scast n (u64 v)) /\ p < u64 v.
Proof.
  intros Ho Hn Hlt Wp Hv Wv Hb. rewrite bits_mask_eq in * by done. pose proof (half_bounds o Ho). pose proof (half_bounds n Hn).
  assert (2 ^ o <= 2 ^ (n - 1)) by (apply Z.pow_le_mono_r; unfold good_size in *; lia). assert (within n p) as Wp' by (unfold within in *; lia).
  rewrite s64_small by (unfold is_s64; lia). rewrite sign_extend_scast, !scast_cases by done. unfold within in *.
  split_and!; try apply bool_of; destruct (Z.ltb_spec p (2 ^ (n - 1))), (Z.ltb_spec (u64 v) (2 ^ (n - 1))); lia.
Qed.

Lemma compare_zext_ok d i x j y v changed : wf d -> computes d i x -> computes d j y -> OPF_COMPARE (op x) = true ->
  src1 x = REG j -> src2 x = VAL v -> op y = OP_ZEXT -> cmp_of x y v -> ok d (compare_zext i (itype x) y v changed d).
Proof.
  intros Hwf Hc Hy Ho Hp H2 Hoy Hof. unfold compare_zext. rewrite (at_computes _ _ _ Hc). unfold orig_type.
  assert (is_s64 v) as Hv64 by (apply (below_s64 d i (VAL v) Hwf); [rewrite <- H2; apply below_src2; [done|by destruct (op x)]|done]).
  assert (forall r, sat r d -> _) as Hval by (intros r Hr; exact (ext_value d i x j y v r Hc Hy Ho Hp H2 Hof (or_intror Hoy) Hr)).
  rewrite Hoy in Hval. change (oeq OP_ZEXT OP_SEXT) with false in Hval. cbv iota in Hval.
  destruct (Z.leb_spec (u64 v) (bits_mask (itype y))) as [Hle|Hgt].
  - apply (ext_change_ok d i x j y (opcode_unsigned (op x)) (itype y) v); try done; [by apply compare_unsigned|by destruct x; simpl in *; subst|].
    intros r Hr. destruct (Hval r Hr) as (Go & Gy & Hlt & Wp & -> & Gx & Hz). rewrite H2, bits_mask_eq in * by done.
    assert (within (itype y) (u64 v)) as Wv by (pose proof (u64_range v); unfold within, is_u64 in *; lia). split_and!; try done.
    cbn [val]. destruct Hz as [[Heq ->]|(Es & W1 & W2)].
    + change (u64 0) with 0. by destruct (op x).
    + rewrite Es in *. symmetry. by apply cmp_zext.
  - assert (forall r, sat r d -> is_equality (op x) = false -> good_size (itype y) /\ r j < u64 v /\
      (s64 (bits_mask (itype y)) <? sign_extend v (itype x)) = (scast (itype x) (r j) <? scast (itype x) (u64 v)) /\
      (s64 (bits_mask (itype y)) <? sign_extend v (itype x)) = (scast (itype x) (r j) <=? scast (itype x) (u64 v))) as Hout.
    { intros r Hr Hq. destruct (Hval r Hr) as (Go & Gy & Hlt & Wp & E & Gx & [[? _]|(Es & W1 & W2)]); [congruence|].
      rewrite Es in *. rewrite E. destruct (zext_out_of_range (itype y) (itype x) (val r (src1 y)) v) as (R1 & R2 & R3); try done. }
    clear Hval. destruct (op x) eqn:Hox; try same.
    all: match goal with |- ok _ (replace_with_value _ (Z.b2z ?b) _) => apply (cmp_known d i x v b)
         | |- ok _ (replace_with_value _ 1 _) => apply (cmp_known d i x v true) | |- ok _ (replace_with_value _ 0 _) => apply (cmp_known d i x v false) end; try done; [by rewrite Hox|].
    all: intros r a m Hr Ha Hm _ _; subst m; rewrite Hp in Ha; simpl in Ha; subst a;
      destruct (Hout r Hr eq_refl) as (Go & R1 & R2 & R3); rewrite Hox; cbn [cmp_val];
      first [by rewrite R2|by rewrite R3|by rewrite R2, Z.leb_antisym|by rewrite R3, Z.ltb_antisym|apply bool_of; lia].
Qed.

Lemma modify_comm i j f g d : i <> j -> modify i f (modify j g d) = modify j g (modify i f d).
Proof.
  intros Hne. unfold modify, set_insns. simpl. f_equal. apply map_eq. intros k.
  destruct (decide (i = k)) as [<-|Hi]; [by rewrite lookup_alter_eq, !lookup_alter_ne, lookup_alter_eq by done|].
  rewrite lookup_alter_ne by done. destruct (decide (j = k)) as [<-|Hj]; [by rewrite !lookup_alter_eq, lookup_alter_ne|].
  by rewrite !lookup_alter_ne.
Qed.

(** An instruction and the only use of its result change together, with the values they had. *)
Lemma inner_same_ok d i x f j y g : wf d -> computes d i x -> computes d j y -> src1 x = REG j -> one_use d (REG j) = true ->
  changes d i f x -> changes d j g y ->
  (forall r, sat r d -> holds r j (g y) /\ holds r i (f x)) -> sound d (modify i f (modify j g d)).
Proof.
  intros Hwf Hc Hy Hp Hu Hch Hchy Hh.
  assert (below d i (REG j)) as Hb by (rewrite <- Hp; by apply below_src1).
  assert (i <> j) as Hne by (intros ->; by apply (below_not_self d j)).
  apply (inner_sound d i x f j y g); try done.
  - apply (one_use_user d j i x); [done|apply Hc|]. rewrite <- Hp. pose proof (c_op _ _ _ Hc). destruct x as [[] ? ? ? ? ? ? ?]; try done; left.
  - destruct Hchy as [? ? Hbj]. split; try done. intros p Hin. apply below_trans with j; [done|]. by apply Hbj.
  - destruct Hchy as [? ? Hbj]. intros Hin. apply (below_not_self d j Hwf). by apply Hbj.
  - intros r Hr. exists (r j). destruct (Hh r Hr) as [H1 H2].
    assert (forall p, val (set_reg j (r j) r) p = val r p) as Hv.
    { intros p. destruct p; try done. simpl. unfold set_reg. destruct (Z.eqb_spec nr j) as [-> |]; done. }
    split; (eapply holds_ext; [intros; apply Hv| | |]); [| | | | |]; try done.
    + apply set_reg_eq. + apply Hchy. + by rewrite set_reg_ne. + apply Hch.
Qed.

Lemma trunc_value d j y r : computes d j y -> op y = OP_TRUNC -> sat r d ->
  good_size (size y) /\ good_size (itype y) /\ size y < itype y /\ within (itype y) (val r (src1 y)) /\
  r j = ucast (size y) (val r (src1 y)) /\ within (size y) (r j).
Proof.
  intros Hy Hoy Hr. assert (within (size y) (r j)) as Wj by (apply (sat_computes r) in Hy as [? ?]; [by eapply sem_within|done]).
  opened y. sems Hr. simpl in *. auto 10.
Qed.

Lemma compare_trunc_ok d i x j y v changed : wf d -> computes d i x -> computes d j y -> OPF_COMPARE (op x) = true ->
  src1 x = REG j -> src2 x = VAL v -> op y = OP_TRUNC -> size y = itype x \/ one_use d (REG j) = false \/ is_equality (op x) = false ->
  ok d (compare_trunc i (itype x) j y changed d).
Proof.
  intros Hwf Hc Hy Ho Hp H2 Hoy Hsz. unfold compare_trunc. rewrite (at_computes _ _ _ Hc). unfold orig_type.
  destruct (is_equality (op x)) eqn:Hq; [|destruct (op x); first [done|same]].
  destruct (one_use d (REG j)) eqn:Hu; [|destruct (op x); first [done|same]].
  assert (size y = itype x) as Hsy by (destruct Hsz as [?|[?|?]]; done).
  assert (arity (op x) = 2) as Ha by (by destruct (op x)).
  assert (below d i (REG j)) as Hb by (rewrite <- Hp; by apply below_src1).
  assert (i <> j) as Hne by (intros ->; by apply (below_not_self d j)).
  assert (ok d (replace_opcode j OP_AND (modify j (fun z => set_src2 (value_pseudo (bits_mask (itype x))) (set_size (itype y) z))
    (modify i (set_itype (itype y)) d)))) as Hok; [|destruct (op x); first [exact Hok|done]].
  apply ok_changed. rewrite modify_modify, modify_comm by done.
  apply (inner_same_ok d i x _ j y); try done.
  - split; [apply Hc|apply (c_op _ _ _ Hc)|]. intros p Hin. rewrite operands_2 in Hin by done. elems Hin; [by apply below_src1|by apply below_src2].
  - split; [apply Hy|done|]. intros p Hin. rewrite operands_2 in Hin by done. elems Hin; [by apply below_src1|apply below_value, s64_range].
  - intros r Hr.
    destruct (trunc_value d j y r Hy Hoy Hr) as (Gy & Gm & Hlt & Wp & Ej & Wj).
    pose proof (pow_le_two64 (size y) Gy). assert (2 ^ size y <= 2 ^ itype y) by (apply Z.pow_le_mono_r; lia).
    assert (within (itype y) (r j)) as Wj' by (apply (within_mono (size y)); [lia|done]).
    split.
    + apply holds_fold; [done|]. simpl. rewrite u64_s64, <- Hsy, bits_mask_eq, u64_small by (done || unfold is_u64; lia).
      split_and!; try done; [unfold within; lia|]. rewrite <- bits_mask_eq, land_bits_mask, <- Ej by done. symmetry. by apply ucast_id.
    + apply (sat_computes r) in Hc; [|done]. apply holds_cmp in Hc as (Gn & Gx & Tx & Hi); [|done].
      rewrite H2, Hp in Tx, Hi. simpl in Tx, Hi. apply holds_cmp; [done|]. simpl. rewrite Hp, H2. simpl.
      split_and!; try done.
      * destruct Tx as [[T1 T2]|(He & Hz & T1 & T2)]; [left|right; exact (conj He (conj Hz (conj T1 T2)))]. split; [done|]. apply (within_mono (itype x)); [|done].
        change (itype x <= itype y). lia.
      * rewrite Hi. by destruct (op x).
Qed.

(** ** The whole of simplify_compare_constant() *)

Definition compare_def (i n : Z) (x : insn) (j : Z) (y : insn) (value changed : Z) (d : dag) : Z * dag :=
  match op y with
  | OP_AND => if constant (src2 y) then compare_and i y value changed d else (changed, d)
  | OP_OR => if constant (src2 y) then compare_or i y value changed d else (changed, d)
  | OP_SEXT => compare_sext i n y value changed d
  | OP_TRUNC => compare_trunc i n j y changed d
  | OP_ZEXT => compare_zext i n y value changed d
  | _ => (changed, d)
  end.

Lemma value_changes i x z d : computes d i x -> (replace_with_value i z d).1 <> 0.
Proof. intros Hc. by apply (replace_changes i x). Qed.

(** What changed stays changed. *)
Lemma compare_def_changed i n x j y value d : computes d i x -> (compare_def i n x j y value REPEAT_CSE d).1 <> 0.
Proof.
  intros Hc. unfold compare_def, compare_and, compare_or, compare_sext, compare_trunc, compare_zext. rewrite (at_computes _ _ _ Hc).
  destruct (op y); try done; destruct (op x); repeat case_match; try done; by apply (value_changes i x).
Qed.

(** The conditions under which the second switch is right. *)
Definition trunc_fits (d : dag) (x : insn) : Prop := forall j y, def_of d (src1 x) = Some (j, y) -> op y = OP_TRUNC ->
  size y = itype x \/ one_use d (REG j) = false \/ is_equality (op x) = false.
Definition or_above (x y : insn) (v : Z) : Prop := forall b, op y = OP_OR -> src2 y = VAL b -> op x = OP_SET_A -> u64 v <> u64 b.

Lemma compare_def_ok d i x j y v changed : wf d -> computes d i x -> OPF_COMPARE (op x) = true -> src2 x = VAL v ->
  def_of d (src1 x) = Some (j, y) -> cmp_of x y v -> trunc_fits d x -> or_above x y v ->
  (good_size (itype x) -> within (itype x) (u64 v) -> bounded (op x) (itype x) (u64 v)) ->
  ok d (compare_def i (itype x) x j y v changed d).
Proof.
  intros Hwf Hc Ho H2 Hd Hof Htr Hor Hbd. unfold compare_def.
  destruct (is_value_op (op y)) eqn:Hv; [|destruct (op y); first [done|same]].
  destruct (def_computes d i (src1 x) j y Hwf) as (Hp & Hy & Hne); [by apply below_src1|done|done|].
  destruct (op y) eqn:Hoy; try same.
  - destruct (constant (src2 y)) eqn:Hk; [|same]. apply constant_inv in Hk as [b Hb]. eapply compare_and_ok; try done. split; try done. by rewrite Hoy.
  - destruct (constant (src2 y)) eqn:Hk; [|same]. apply constant_inv in Hk as [b Hb]. eapply compare_or_ok; try done; [split; try done; by rewrite Hoy|].
    intros HA. by apply Hor.
  - apply (compare_trunc_ok d i x j y v); try done. by apply Htr.
  - by apply (compare_zext_ok d i x j y v).
  - by apply (compare_sext_ok d i x j y v).
Qed.

Lemma simplify_compare_constant_ok d i x v : wf d -> computes d i x -> OPF_COMPARE (op x) = true -> src2 x = VAL v -> cmp_sized d x ->
  trunc_fits d x -> (is_equality (op x) = false -> good_size (itype x) -> within (itype x) (u64 v)) ->
  (forall changed d' j y, compare_bounds i v d = inr (changed, d') -> def_of d (src1 x) = Some (j, y) ->
    or_above (insn_at d' i) y (value_of (src2 (insn_at d' i)))) ->
  ok d (simplify_compare_constant i v d).
Proof.
  intros Hwf Hc Ho H2 Hsz Htr Hvw Hor. unfold simplify_compare_constant. rewrite (at_computes _ _ _ Hc).
  assert (forall j y, def_of d (src1 x) = Some (j, y) -> cmp_of x y v) as Hof.
  { intros j y Hd. destruct Hsz as [[Hq Hz]|[Hs _]]; [left|right; by apply (Hs j y)]. rewrite H2 in Hz. injection Hz as ->.
    by destruct Hq as [-> | ->]. }
  pose proof (compare_bounds_ok d i x v Hwf Hc Ho H2) as Hb. destruct (compare_bounds i v d) as [res|[changed d']] eqn:E; [done|].
  destruct Hb as (o & w & Hco & Hw & Hcase & Hbd).
  destruct Hcase as [(-> & -> & -> & ->)|(-> & Hq & Hqo & -> & Hch & Hs)].
  - rewrite (at_computes _ _ _ Hc), H2. simpl. destruct (def_of d (src1 x)) as [[j y]|] eqn:Hd; [|same].
    apply (compare_def_ok d i x j y v 0); try done; [exact (Hof j y eq_refl)|].
    specialize (Hor 0 d j y eq_refl eq_refl). by rewrite (at_computes _ _ _ Hc), H2 in Hor.
  - set (f := fun x0 => set_src2 (VAL w) (set_op o x0)) in *. pose proof (computes_modify d i f x Hc Hch) as Hc'.
    rewrite (at_computes _ _ _ Hc'). simpl.
    assert (def_of (modify i f d) (src1 x) = def_of d (src1 x)) as Hdef.
    { destruct (src1 x) as [| | |k| | |] eqn:Hk; try done. unfold def_of. rewrite lookup_modify_ne; [done|].
      intros <-. apply (below_not_self d i Hwf). rewrite <- Hk. by apply below_src1. }
    rewrite Hdef. destruct (def_of d (src1 x)) as [[j y]|] eqn:Hd; [|by apply ok_changed].
    assert (ok (modify i f d) (compare_def i (itype x) (f x) j y w REPEAT_CSE (modify i f d))) as [Hs2 _].
    { apply (compare_def_ok (modify i f d) i (f x)); try done; [apply Hs| | | |by intros Gm _; apply Hbd; [|apply Hvw]].
      - destruct (Hof j y eq_refl) as [[? _]|?]; [congruence|by right].
      - intros j' y' _ _. right. right. done.
      - specialize (Hor REPEAT_CSE (modify i f d) j y eq_refl eq_refl). by rewrite (at_computes _ _ _ Hc') in Hor. }
    split; [by eapply sound_trans|]. intros Hz. exfalso. revert Hz. by apply (compare_def_changed i (itype x) (f x) j y w (modify i f d)).
Qed.

(** ** simplify_seteq_setne() *)

Definition inverse (o : opcode) (v : Z) : bool := Bool.eqb (oeq o OP_SET_NE) (negb (v =? 0)).

Lemma seteq_bool o m (c : bool) v : is_equality o = true -> v = 0 \/ v = 1 ->
  cmp_val o m (Z.b2z c) (u64 v) = if inverse o v then negb c else c.
Proof. intros Ho [-> | ->]; destruct o; try done; by destruct c. Qed.

Lemma within_one a : within 1 a -> exists c, a = Z.b2z c.
Proof. unfold within. intros H. assert (a = 0 \/ a = 1) as [-> | ->] by lia; [by exists false|by exists true]. Qed.

(** The result of the comparison is its operand. *)
Lemma seteq_operand_ok d i x v : wf d -> computes d i x -> is_equality (op x) = true -> src2 x = VAL v -> v = 0 \/ v = 1 ->
  inverse (op x) v = false -> (forall r, sat r d -> exists c, val r (src1 x) = Z.b2z c) -> ok d (replace_with_pseudo i (src1 x) d).
Proof.
  intros Hwf Hc Hq H2 Hv Hi Hb. apply (replace_with_pseudo_ok i x); [done|done|by apply below_src1|].
  intros r Hr. destruct (Hb r Hr) as [c Hc']. apply (sat_computes r) in Hc; [|done].
  apply holds_cmp in Hc as (_ & _ & _ & ->); [|by destruct (op x)]. rewrite H2, Hc'. simpl. by rewrite seteq_bool, Hi.
Qed.

(** A comparison of a comparison. *)
Lemma seteq_compare_ok d i x j y v : wf d -> computes d i x -> computes d j y -> is_equality (op x) = true -> src1 x = REG j ->
  src2 x = VAL v -> v = 0 \/ v = 1 -> OPF_COMPARE (op y) = true ->
  let o := if inverse (op x) v then opcode_negate (op y) else op y in
  ok d (REPEAT_CSE, remove_usage (src1 x) (modify i (fun x => set_src2 (src2 y) (set_src1 (src1 y) (set_itype (itype y) (set_op o x)))) d)).
Proof.
  intros Hwf Hc Hy Hq Hp H2 Hv Hoy o.
  assert (OPF_COMPARE o = true) as Hco by (subst o; destruct (inverse _ _); [by apply compare_negated|done]).
  assert (arity o = 2 /\ is_value_op o = true /\ arity (op y) = 2) as (Hao & Hvo & Hay) by (by destruct o, (op y)).
  apply ok_changed. eapply sound_kills; [|apply remove_usage_kills]. apply (change_sound d i x); [done|done| |].
  - split; [apply Hc|done|]. intros p Hin. rewrite operands_2 in Hin by done.
    assert (below d i (REG j)) as Hb by (rewrite <- Hp; by apply below_src1).
    elems Hin; apply below_trans with j; try done; [by apply below_src1|by apply below_src2].
  - intros r Hr. apply (sat_computes r) in Hc, Hy; try done. apply holds_cmp in Hc as (Gx & _ & _ & Hi); [|by destruct (op x)].
    apply holds_cmp in Hy as (_ & Gy & Ty & Hj); [|done]. rewrite Hp, H2 in Hi. simpl in Hi. rewrite Hj, seteq_bool in Hi by done.
    apply holds_cmp; [done|]. simpl. split_and!; try done.
    + destruct Ty as [?|(Hoe & Hz & W)]; [by left|right]. split; [|done]. simpl. subst o.
      destruct (inverse _ _); [|done]. destruct Hoe as [-> | ->]; auto.
    + rewrite Hi. subst o. destruct (inverse _ _); [by rewrite cmp_negate|done].
Qed.

(** A comparison of an extended value. *)
Lemma seteq_ext_ok d i x j y v : wf d -> computes d i x -> computes d j y -> is_equality (op x) = true -> src1 x = REG j ->
  src2 x = VAL v -> v = 0 \/ v = 1 -> op y = OP_SEXT \/ op y = OP_ZEXT -> (op y = OP_SEXT -> v <> 0 -> itype y <> 1) ->
  ok d (replace_pseudo i P1 (src1 y) (modify i (set_itype (itype y)) d)).
Proof.
  intros Hwf Hc Hy Hq Hp H2 Hv Hoy Hne. assert (OPF_COMPARE (op x) = true) as Hco by (by destruct (op x)).
  apply (ext_change_ok d i x j y (op x) (itype y) v); try done; [destruct Hv as [-> | ->]; unfold is_s64, two63; lia|destruct x; simpl in *; by subst|].
  intros r Hr. assert (within (size y) (r j)) as Wj by (apply (sat_computes r) in Hy as [? ?]; [by eapply sem_within|done]).
  assert (good_size (itype y) /\ good_size (size y) /\ itype y < size y /\ within (itype y) (val r (src1 y)) /\
    r j = (if oeq (op y) OP_SEXT then ucast (size y) (scast (itype y) (val r (src1 y))) else val r (src1 y))) as (Go & Gy & Hlt & Wp & E).
  { clear Hne. destruct Hoy as [Hoy|Hoy]; opened y; sems Hr; simpl in *; auto. }
  split_and!; try done; [destruct Hv as [-> | ->]; eauto with within|]. rewrite H2. simpl.
  assert ((val r (src1 y) =? u64 v) = (r j =? u64 v)) as Heq; [|by destruct (op x); try done; simpl; rewrite Heq].
  rewrite E. destruct Hoy as [Hoy|Hoy]; rewrite Hoy; [|done]. change (oeq OP_SEXT OP_SEXT) with true. cbv iota.
  destruct Hv as [-> | ->]; [symmetry; apply sext_eq_0; done || lia|]. specialize (Hne Hoy ltac:(done)). change (u64 1) with 1.
  rewrite sext_cases by (done || lia). pose proof (half_bounds _ Go).
  assert (2 ^ itype y <= 2 ^ size y) by (apply Z.pow_le_mono_r; unfold good_size in *; lia).
  assert (2 ^ 1 <= 2 ^ (itype y - 1)) by (apply Z.pow_le_mono_r; unfold good_size in *; lia). unfold within in Wp.
  destruct (Z.ltb_spec (val r (src1 y)) (2 ^ (itype y - 1))); apply bool_of; lia.
Qed.

(** The truncated value becomes a masked one, of the size of the source. *)
Lemma trunc_to_and_ok d j y : wf d -> computes d j y -> op y = OP_TRUNC ->
  ok d (REPEAT_CSE, modify j (fun y => set_src2 (value_pseudo (bits_mask (size y))) (set_size (orig_type y) (set_op OP_AND y))) d).
Proof.
  intros Hwf Hy Hoy. apply (change_ok d j y); [done|done| |].
  - split; [apply Hy|done|]. intros p Hin. rewrite operands_2 in Hin by done. elems Hin; [by apply below_src1|apply below_value, s64_range].
  - intros r Hr. destruct (trunc_value d j y r Hy Hoy Hr) as (Gy & Gm & Hlt & Wp & Ej & Wj).
    pose proof (pow_le_two64 (size y) Gy). assert (2 ^ size y <= 2 ^ itype y) by (apply Z.pow_le_mono_r; lia).
    apply holds_fold; [done|]. simpl. rewrite u64_s64, bits_mask_eq, u64_small by (done || unfold is_u64; lia). unfold orig_type.
    split_and!; try done; [unfold within; lia|]. rewrite <- bits_mask_eq, land_bits_mask, <- Ej by done. symmetry. apply ucast_id.
    apply (within_mono (size y)); [lia|done].
Qed.

Lemma simplify_seteq_setne_ok d i x v : wf d -> computes d i x -> is_equality (op x) = true -> src2 x = VAL v ->
  ok d (simplify_seteq_setne i v d).
Proof.
  intros Hwf Hc Hq H2. unfold simplify_seteq_setne. rewrite (at_computes _ _ _ Hc).
  destruct (negb (v =? 0) && negb (v =? 1)) eqn:Hv; [same|].
  assert (v = 0 \/ v = 1) as Hv' by (destruct (Z.eqb_spec v 0), (Z.eqb_spec v 1); auto; done). clear Hv.
  destruct (def_of d (src1 x)) as [[j y]|] eqn:Hd; [|same]. fold (inverse (op x) v).
  destruct (_ && _) eqn:E.
  { apply andb_true_iff in E as [[Hi%negb_true_iff Hsy%Z.eqb_eq]%andb_true_iff _]. apply (seteq_operand_ok d i x v); try done.
    intros r Hr. apply within_one. rewrite <- Hsy. eapply def_within; [done|done| |by rewrite Hsy].
    destruct (src1 x) as [| | |k| | |] eqn:Hk; try done. simpl in Hd. apply fmap_Some in Hd as (z & Hz & [= -> ->]).
    apply (below_live d i (REG k) Hwf) with (j := k); try done. rewrite <- Hk. by apply below_src1. }
  clear E. destruct (is_value_op (op y)) eqn:Hvo; [|destruct (op y); first [done|same]].
  destruct (def_computes d i (src1 x) j y Hwf) as (Hp & Hy & Hne); [by apply below_src1|done|done|].
  destruct (OPF_COMPARE (op y)) eqn:Hcy; [by apply (seteq_compare_ok d i x j y v)|].
  destruct (op y) eqn:Hoy; try same; unfold orig_type.
  - destruct (inverse (op x) v || _) eqn:E; [same|]. apply orb_false_iff in E as [Hi _].
    destruct (src2 y) as [| | | | | |w] eqn:Hw; try same. destruct (Z.eqb_spec w 1) as [-> |]; [|same].
    apply (seteq_operand_ok d i x v); try done. intros r Hr. rewrite Hp. simpl.
    exists (Z.testbit (val r (src1 y)) 0). clear Hd Hp Hc. opened y. sems Hr. rewrite <- S, (land_power _ 0) by done. simpl. by destruct (Z.odd (val r p)).
  - destruct (one_use d (src1 x)); [|same]. by apply (trunc_to_and_ok d j y).
  - apply (seteq_ext_ok d i x j y v); try done; [by right|]. by rewrite Hoy.
  - destruct (negb (v =? 0) && (itype y =? 1)) eqn:E; [same|]. apply (seteq_ext_ok d i x j y v); try done; [by left|].
    intros _ Hvn Hi. rewrite Hi in E. apply Z.eqb_neq in Hvn. by rewrite Hvn in E.
Qed.
End compare.
