(* ===== verification/SimplifyMask.v ===== *)
(** * Masks of disjunctions, simplify_mask_or() and the shifts around it

    The result of AND, TRUNC and shifts depends on some bits of the operand only.  An
    operand OR(a, b), or what is under it, may change in the other bits, if nothing else
    uses it. *)
From stdpp Require Import base option gmap list.
From S2P Require Import Prelude Bits Simplify SimplifyFacts SimplifyConst SimplifyRules SimplifyAlgebra SimplifyCompare.
#[local] Open Scope Z_scope.

Section mask.
Context `{At : Atoms}.

(** The instruction holds with another value of its first operand. *)
Definition holds_with (r : valuation) (i : Z) (x : insn) (v : Z) : Prop :=
  typed x v (val r (src2 x)) (val r (src3 x)) /\ sem x v (val r (src2 x)) (val r (src3 x)) = Some (r i).

(** The instruction [i], inside of [top] (which is [i], or the only user of [i]), looks at the bits of the mask in an
    operand of [w] bits. *)
Record mask_ctx (d : dag) (top i : Z) (x : insn) (w mask : Z) : Prop := {
  mc_wf : wf d;
  mc_x : computes d i x;
  mc_top : exists y, computes d top y;
  mc_user : top = i \/ only_user d i top /\ below d top (REG i);
  mc_vals : forall r v, sat r d -> within w v -> Z.land v mask = Z.land (val r (src1 x)) mask ->
    exists r', (forall j, j <> i \/ top = i -> r' j = r j) /\ (forall y, top <> i -> computes d top y -> holds r' top y) /\ holds_with r' i x v;
  mc_range : forall r, sat r d -> good_size w /\ within w mask /\ within w (val r (src1 x))
}.

Lemma ctx_val d top i x w mask r' r p : mask_ctx d top i x w mask -> (forall j, j <> i \/ top = i -> r' j = r j) -> below d i p -> val r' p = val r p.
Proof.
  intros Hm Hr Hb. destruct p; try done. simpl. apply Hr. left. intros ->. by apply (below_not_self d i (mc_wf _ _ _ _ _ _ Hm)).
Qed.

Lemma holds_with_src1 r i x v p : val r p = v -> holds_with r i x v -> holds r i (set_src1 p x).
Proof. intros Hv [Ht Hs]. destruct x. unfold holds. simpl in *. rewrite Hv. by split. Qed.

(** Another operand with the same bits in the mask. *)
Lemma mask_replace_ok d top i x w mask p : mask_ctx d top i x w mask -> below d i p ->
  (forall r, sat r d -> within w (val r p) /\ Z.land (val r p) mask = Z.land (val r (src1 x)) mask) -> ok d (replace_pseudo i P1 p d).
Proof.
  intros Hm Hb Hv. pose proof (mc_wf _ _ _ _ _ _ Hm) as Hwf. pose proof (mc_x _ _ _ _ _ _ Hm) as Hc.
  split; [|done]. unfold replace_pseudo. simpl. eapply sound_kills; [|apply remove_usage_kills].
  assert (changes d i (set_src1 p) x) as Hch.
  { split; [apply Hc|apply Hc|]. intros q Hq. pose proof (c_op _ _ _ Hc). pose proof (below_of d i x) as Hbo.
    destruct x as [o ? ? ? ? ? ? ?]. unfold operands in *. simpl in *.
    destruct o; try done; simpl in *; apply elem_of_cons in Hq as [-> |Hq]; try done; apply Hbo; try done; by right. }
  apply (chain_sound d top (if decide (top = i) then [] else [i]) i x); try done.
  - case_decide; [subst; left|right; left].
  - intros j Hj. destruct (mc_top _ _ _ _ _ _ Hm) as [y Hy]. apply elem_of_cons in Hj as [-> |Hj]; [by exists y|].
    case_decide; [by apply not_elem_of_nil in Hj|]. apply list_elem_of_singleton in Hj as ->. by exists x.
  - intros c j y Hcs Hy Hl Hin. case_decide; [by apply not_elem_of_nil in Hcs|]. apply list_elem_of_singleton in Hcs as ->.
    destruct (mc_user _ _ _ _ _ _ Hm) as [?|[Hu _]]; [done|]. rewrite (Hu j y Hy Hl Hin). left.
  - intros r Hr. destruct (Hv r Hr) as [Ww E]. destruct (mc_vals _ _ _ _ _ _ Hm r (val r p) Hr Ww E) as (r' & Hsame & Htop & Hi).
    exists r'. split.
    + intros j Hj. apply Hsame. case_decide; [auto|]. left. intros ->. apply Hj. left.
    + intros j y Hj Hy. destruct (Z.eqb_spec j i) as [-> |Hne].
      * assert (y = x) as -> by exact (computes_inj _ _ _ _ Hc Hy).
        apply (holds_with_src1 r' i x (val r p)); auto. by eapply ctx_val.
      * assert (j = top) as -> by (case_decide; apply elem_of_cons in Hj as [? |Hj]; try done; [by apply not_elem_of_nil in Hj|by apply list_elem_of_singleton in Hj]).
        by apply Htop.
Qed.

(** The operands but the first are constants. *)
Definition one_operand (x : insn) : Prop := arity (op x) = 1 \/ arity (op x) = 2 /\ constant (src2 x) = true.

Lemma holds_with_ext r r' i x v : one_operand x -> is_value_op (op x) = true -> val r (src1 x) = v -> r i = r' i -> holds_with r' i x v -> holds r i x.
Proof.
  intros Ho Hv H1 Hi [Ht Hs]. destruct x as [o t n b p q u l]. unfold holds. simpl in *. rewrite H1, Hi. unfold one_operand in Ho. simpl in Ho.
  assert (arity o = 2 -> val r q = val r' q) as Hq by (intros Ha; destruct Ho as [?|[_ [w ->]%constant_inv]]; [congruence|done]).
  assert (arity o <> 3) by (destruct Ho as [?|[? _]]; congruence).
  destruct o; try done; simpl in *; rewrite ?Hq by done; done.
Qed.

(** Registers below the masked instruction are neither it nor its user. *)
Lemma below_mask_fresh d top i x w mask c : mask_ctx d top i x w mask -> below d i (REG c) -> c <> i /\ c <> top.
Proof.
  intros Hm Hb. pose proof (mc_wf _ _ _ _ _ _ Hm) as Hwf. assert (c <> i) as Hni by (intros ->; by apply (below_not_self d i)).
  split; [done|]. intros ->. destruct (mc_user _ _ _ _ _ _ Hm) as [-> |[_ Hbt]]; [done|].
  destruct (wf_rank _ Hwf) as [rank Hrk]. pose proof (below_rank d i rank _ Hwf Hrk Hb top eq_refl).
  pose proof (below_rank d top rank _ Hwf Hrk Hbt i eq_refl). lia.
Qed.

(** The instructions of [ks], under the first operand of [i] and used there only, change in other bits. *)
Lemma mask_inner_sound d top i x w mask k ks t y g : mask_ctx d top i x w mask -> one_operand x -> src1 x = REG k -> k ∈ ks ->
  (forall c, c ∈ ks -> below d i (REG c) /\ (exists z, computes d c z) /\
    forall j z, insns d !! j = Some z -> live z -> REG c ∈ operands z -> j ∈ i :: ks) ->
  t ∈ ks -> computes d t y -> changes d t g y ->
  (forall r, sat r d -> exists rk, (forall c, c ∉ ks -> rk c = r c) /\ within w (rk k) /\ Z.land (rk k) mask = Z.land (r k) mask /\
    forall c z, c ∈ ks -> computes d c z -> holds rk c (if c =? t then g z else z)) ->
  sound d (modify t g d).
Proof.
  intros Hm Hone Hk Hkin Hks Ht Hy Hch Hv. pose proof (mc_wf _ _ _ _ _ _ Hm) as Hwf. pose proof (mc_x _ _ _ _ _ _ Hm) as Hc.
  set (up := if decide (top = i) then [] else [i]).
  assert (forall c, c ∈ ks -> c <> i /\ c <> top) as Hfresh by (intros c Hin; apply (below_mask_fresh d top i x w mask c Hm); by apply Hks).
  assert (i ∈ top :: up) as Hiup by (subst up; case_decide; [subst; left|right; left]).
  assert (forall j, j ∈ top :: up -> j = i \/ j = top /\ top <> i) as Hup.
  { intros j Hj. subst up. case_decide; apply elem_of_cons in Hj as [-> |Hj]; auto; [by apply not_elem_of_nil in Hj|].
    apply list_elem_of_singleton in Hj. auto. }
  apply (chain_sound d top (up ++ ks) t y); try done.
  - rewrite elem_of_cons, elem_of_app. auto.
  - intros j Hj. rewrite app_comm_cons, elem_of_app in Hj. destruct Hj as [[-> |[-> _]]%Hup|Hj]; [by exists x|apply Hm|by apply (Hks j)].
  - intros c j z Hcs Hz Hl Hin. rewrite app_comm_cons, elem_of_app. apply elem_of_app in Hcs as [Hcu|Hck].
    + left. subst up. case_decide; [by apply not_elem_of_nil in Hcu|]. apply list_elem_of_singleton in Hcu as ->.
      destruct (mc_user _ _ _ _ _ _ Hm) as [?|[Hu _]]; [done|]. rewrite (Hu j z Hz Hl Hin). left.
    + destruct (Hks c Hck) as (_ & _ & Hu). specialize (Hu j z Hz Hl Hin). apply elem_of_cons in Hu as [-> |?]; auto.
  - intros r Hr. destruct (Hv r Hr) as (rk & Hrk & Ww & E & Hhk).
    destruct (mc_vals _ _ _ _ _ _ Hm r (rk k) Hr Ww) as (r' & Hsame & Htop & Hi); [by rewrite Hk|].
    set (r2 := fun j => if decide (j ∈ ks) then rk j else r' j).
    assert (forall j, j ∈ ks -> r2 j = rk j) as H2in by (intros j Hj; subst r2; simpl; by rewrite decide_True).
    assert (forall j, j ∉ ks -> r2 j = r' j) as H2out by (intros j Hj; subst r2; simpl; by rewrite decide_False).
    assert (forall p, below d i p -> val r2 p = val rk p) as Hval.
    { intros p Hb. destruct p; try done. simpl. destruct (decide (nr ∈ ks)) as [Hn|Hn]; [by apply H2in|].
      rewrite H2out, Hrk by done. apply Hsame. left. intros ->. by apply (below_not_self d i). }
    exists r2. split.
    + intros j Hj. rewrite elem_of_app in Hj. rewrite H2out by tauto. apply Hsame. subst up. case_decide; [by right|left].
      intros ->. apply Hj. left. left.
    + intros j z Hj Hz. rewrite app_comm_cons, elem_of_app in Hj. destruct (decide (j ∈ ks)) as [Hjk|Hjk].
      * specialize (Hhk j z Hjk Hz). assert (forall q, q ∈ operands (if j =? t then g z else z) -> below d i q) as Hbq.
        { intros q Hq. apply below_trans with j; [by apply Hks|]. destruct (Z.eqb_spec j t) as [-> |]; [|by apply (below_of d j z)].
          assert (z = y) as -> by exact (computes_inj _ _ _ _ Hy Hz). by apply Hch. }
        eapply holds_ext; [intros q Hq; apply Hval; by apply Hbq|by apply H2in| |done].
        destruct (Z.eqb_spec j t) as [-> |]; [|apply Hz].
        assert (z = y) as -> by exact (computes_inj _ _ _ _ Hy Hz). apply Hch.
      * assert (j <> t) as Hjt by (intros ->; done). apply Z.eqb_neq in Hjt as ->. destruct Hj as [Hj|?]; [|done].
        assert (forall j, j = i \/ j = top -> j ∉ ks) as Hno by (intros ? [-> | ->] Hin; by destruct (Hfresh _ Hin)).
        destruct (Hup j Hj) as [-> |[-> Hne]].
        -- assert (z = x) as -> by exact (computes_inj _ _ _ _ Hc Hz).
           apply (holds_with_ext r2 r' i x (rk k)); try done; [apply Hc|by rewrite Hk; simpl; apply H2in|by apply H2out, Hno; auto].
        -- specialize (Htop z Hne Hz). eapply holds_ext; [|by apply H2out, Hno; auto|apply Hz|done].
           intros q Hq. destruct q; try done. simpl. apply H2out. intros Hq'.
           destruct (Hks nr Hq') as (_ & _ & Hu). specialize (Hu top z (c_lookup _ _ _ Hz) (c_live _ _ _ Hz) Hq). apply elem_of_cons in Hu as [?|Htk]; [done|]. by destruct (Hfresh _ Htk).
Qed.

(** ** The bits of (p & M') | b under a mask *)

Lemma mask_or_zero p b om m : Z.land om m = 0 -> Z.land b m = Z.land (Z.lor (Z.land p om) b) m.
Proof.
  intros E. apply Z.bits_inj'. intros k Hk. rewrite !Z.land_spec, Z.lor_spec, Z.land_spec.
  assert (Z.testbit (Z.land om m) k = false) as H by (by rewrite E, Z.testbit_0_l). rewrite Z.land_spec in H.
  by destruct (Z.testbit p k), (Z.testbit b k), (Z.testbit om k), (Z.testbit m k).
Qed.

Lemma mask_or_all p b om m : Z.land om m = m -> Z.land (Z.lor p b) m = Z.land (Z.lor (Z.land p om) b) m.
Proof.
  intros E. apply Z.bits_inj'. intros k Hk. rewrite !Z.land_spec, !Z.lor_spec, Z.land_spec.
  assert (Z.testbit (Z.land om m) k = Z.testbit m k) as H by (by rewrite E). rewrite Z.land_spec in H.
  by destruct (Z.testbit p k), (Z.testbit b k), (Z.testbit om k), (Z.testbit m k).
Qed.

Lemma mask_or_some p b om m : Z.land (Z.lor (Z.land p (Z.land om m)) b) m = Z.land (Z.lor (Z.land p om) b) m.
Proof.
  apply Z.bits_inj'. intros k Hk. rewrite !Z.land_spec, !Z.lor_spec, !Z.land_spec.
  by destruct (Z.testbit p k), (Z.testbit b k), (Z.testbit om k), (Z.testbit m k).
Qed.

(** ** MASK(OR(AND(p, M'), b), M) *)

(** The operand OR(ora, orb), in either order. *)
Record or_of (d : dag) (x : insn) (k : Z) (y : insn) (w : Z) (ora orb : pseudo) : Prop := {
  oo_src1 : src1 x = REG k;
  oo_y : computes d k y;
  oo_op : op y = OP_OR;
  oo_size : size y = w;
  oo_sides : src1 y = ora /\ src2 y = orb \/ src1 y = orb /\ src2 y = ora
}.

Lemma or_value2 d x k y w ora orb r : or_of d x k y w ora orb -> sat r d ->
  good_size w /\ within w (val r ora) /\ within w (val r orb) /\ r k = Z.lor (val r ora) (val r orb).
Proof.
  intros [_ Hy Ho Hs Hsd] Hr. apply (sat_computes r) in Hy as [Ht Hsem]; [|done]. unfold typed, sem in *. rewrite Ho in *.
  apply (inj Some) in Hsem. rewrite <- Hsem, Hs in *. destruct Ht as (Hn & W1 & W2). destruct Hsd as [[<- <-]|[<- <-]]; [done|].
  split_and!; try done. apply Z.lor_comm.
Qed.

Lemma or_operands d x k y w ora orb : or_of d x k y w ora orb -> operands y = [src1 y; src2 y].
Proof. intros [_ _ Ho _ _]. apply operands_2. by rewrite Ho. Qed.

(** The other side, in the instruction that changes. *)
Definition other (pl : place) (y : insn) : pseudo := match pl with P1 => src2 y | _ => src1 y end.

Lemma or_replace_sound d top i x mask w k y ora orb pl p : mask_ctx d top i x w mask -> one_operand x -> or_of d x k y w ora orb ->
  one_use d (REG k) = true -> (pl = P1 /\ src1 y = ora \/ pl = P2 /\ src2 y = ora) -> below d k p ->
  (forall r, sat r d -> within w (val r p) /\
    Z.land (Z.lor (val r p) (val r (other pl y))) mask = Z.land (r k) mask) ->
  ok d (replace_pseudo k pl p d).
Proof.
  intros Hm Hone Hor Hu Hpl Hb Hv. pose proof (mc_wf _ _ _ _ _ _ Hm) as Hwf. pose proof (mc_x _ _ _ _ _ _ Hm) as Hc.
  pose proof (or_operands _ _ _ _ _ _ _ Hor) as Hops. destruct Hor as [Hk Hy Ho Hs Hsd] eqn:EQ. clear EQ.
  split; [|done]. unfold replace_pseudo. simpl. eapply sound_kills; [|apply remove_usage_kills].
  assert (REG k ∈ operands x) as Hin.
  { rewrite <- Hk. pose proof (c_op _ _ _ Hc). destruct x as [[] ? ? ? ? ? ? ?]; try done; left. }
  assert (changes d k (set pl p) y) as Hch.
  { split; [by destruct pl, Hpl as [[] | []]; apply Hy|by destruct pl, y; simpl in *; subst|]. intros q Hq.
    assert (arity (op (set pl p y)) = 2) as Ha by (destruct pl; simpl; by rewrite Ho).
    rewrite operands_2 in Hq by done.
    assert (q = p \/ q = src1 y \/ q = src2 y) as [-> |[-> | ->]]; [|done|by apply below_src1|apply below_src2; [done|by rewrite Ho]].
    destruct Hpl as [[-> _]|[-> _]]; simpl in Hq; elems Hq; auto. }
  apply (mask_inner_sound d top i x w mask k [k] k y (set pl p)); try done; try left.
  - intros c Hcin. apply list_elem_of_singleton in Hcin as ->. split_and!; [by apply (below_of d i x)|by exists y|].
    intros j z Hz Hl Hzin. rewrite (one_use_user d k i x Hu (c_lookup _ _ _ Hc) Hin j z Hz Hl Hzin). left.
  - intros r Hr. set (o := other pl y) in *. destruct (Hv r Hr) as [Wp E].
    destruct (or_value2 d x k y w ora orb r) as (Hn & W1 & W2 & _); [by split|done|].
    assert (within w (val r (src1 y)) /\ within w (val r (src2 y))) as [Y1 Y2] by (destruct Hsd as [[-> ->]|[-> ->]]; done).
    assert (within w (val r o)) as Wo by (by subst o; destruct Hpl as [[-> _]|[-> _]]).
    assert (o <> REG k /\ p <> REG k) as [Hok Hpk].
    { split; intros H; apply (below_not_self d k Hwf); [|by rewrite <- H]. rewrite <- H. subst o.
      destruct Hpl as [[-> ?]|[-> ?]]; [apply below_src2; [done|by rewrite Ho]|by apply below_src1]. }
    exists (set_reg k (Z.lor (val r p) (val r o)) r). rewrite set_reg_eq. split_and!; try done.
    + intros c Hcn. apply set_reg_ne. intros ->. apply Hcn. left.
    + apply within_lor; [by apply good_nonneg|done|done].
    + intros c z Hcin Hz. apply list_elem_of_singleton in Hcin as ->. rewrite Z.eqb_refl.
      assert (z = y) as -> by exact (computes_inj _ _ _ _ Hy Hz).
      apply holds_fold; [destruct pl; simpl; by rewrite Ho|]. subst o.
      destruct Hpl as [[-> ?]|[-> ?]]; simpl; rewrite !val_set_reg, set_reg_eq, Ho, Hs by done; simpl; split_and!; try done;
        symmetry; rewrite ?(Z.lor_comm (val r (src1 y))); apply ucast_id, within_lor; try done; by apply good_nonneg.
Qed.

(** The AND below an OR, used once, is not another operand of the two, nor is the OR. *)
Lemma or_and_apart d x k y w ora orb j z : wf d -> or_of d x k y w ora orb -> ora = REG j -> computes d j z -> op z = OP_AND ->
  one_use d (REG j) = true ->
  REG j ∈ operands y /\ below d k (REG j) /\ j <> k /\ orb <> REG j /\ orb <> REG k /\ src1 z <> REG j /\ src1 z <> REG k.
Proof.
  intros Hwf Hor Hora Hz Hoz Huj. pose proof (or_operands _ _ _ _ _ _ _ Hor) as Hops. pose proof Hor as [Hk Hy Ho Hs Hsd].
  assert (REG j ∈ operands y) as Hjin by (rewrite Hops, !elem_of_cons; destruct Hsd as [[-> ->]|[-> ->]]; auto).
  assert (below d k (REG j)) as Hbj by (by apply (below_of d k y)).
  split_and!; [done|done| | | | |].
  - intros ->. by apply (below_not_self d k).
  - intros E. pose proof (one_use_once d (REG j) k y Huj (c_lookup _ _ _ Hy)) as H. unfold uses in H. rewrite Hops in H.
    destruct Hsd as [[E1 E2]|[E1 E2]]; rewrite E1, E2, E, Hora in H; rewrite !filter_cons_True in H by done; simpl in H; lia.
  - intros E. apply (below_not_self d k Hwf). rewrite <- E. apply (below_of d k y); [done|]. rewrite Hops, !elem_of_cons.
    destruct Hsd as [[-> ->]|[-> ->]]; auto.
  - intros E. apply (below_not_self d j Hwf). rewrite <- E. by apply below_src1.
  - intros E. apply (below_not_self d k Hwf). apply below_trans with j; [done|]. rewrite <- E. by apply below_src1.
Qed.

(** The mask below shrinks: it and the disjunction change in other bits. *)
Lemma and_shrink_sound d top i x mask w k y ora orb j z om : mask_ctx d top i x w mask -> one_operand x -> or_of d x k y w ora orb ->
  one_use d (REG k) = true -> ora = REG j -> computes d j z -> op z = OP_AND -> size z = w -> src2 z = VAL om -> one_use d (REG j) = true ->
  sound d (modify j (set_src2 (value_pseudo (Z.land (u64 om) mask))) d).
Proof.
  intros Hm Hone Hor Hu Hora Hz Hoz Hsz Hom Huj. pose proof (mc_wf _ _ _ _ _ _ Hm) as Hwf. pose proof (mc_x _ _ _ _ _ _ Hm) as Hc.
  pose proof (or_operands _ _ _ _ _ _ _ Hor) as Hops. pose proof Hor as [Hk Hy Ho Hs Hsd].
  assert (REG k ∈ operands x) as Hin.
  { rewrite <- Hk. pose proof (c_op _ _ _ Hc). destruct x as [[] ? ? ? ? ? ? ?]; try done; left. }
  assert (below d i (REG k)) as Hbk by (by apply (below_of d i x)).
  destruct (or_and_apart d x k y w ora orb j z) as (Hjin & Hbj & Hjk & Horb & Horbk & Hz1 & Hz2); [done..|].
  apply (mask_inner_sound d top i x w mask k [k; j] j z); try done; try (rewrite !elem_of_cons; auto).
  - intros c Hcin. apply elem_of_cons in Hcin as [-> |Hcin]; [|apply list_elem_of_singleton in Hcin as ->].
    + split_and!; [done|by exists y|]. intros l u Hl Hlu Hlin. rewrite (one_use_user d k i x Hu (c_lookup _ _ _ Hc) Hin l u Hl Hlu Hlin). left.
    + split_and!; [by apply below_trans with k|by exists z|]. intros l u Hl Hlu Hlin.
      rewrite (one_use_user d j k y Huj (c_lookup _ _ _ Hy) Hjin l u Hl Hlu Hlin). right. left.
  - split; [apply Hz|simpl; by rewrite Hoz|]. intros q Hq. rewrite operands_2 in Hq by (simpl; by rewrite Hoz). elems Hq; [by apply below_src1|apply below_value, s64_range].
  - intros r Hr. destruct (or_value2 d x k y w ora orb r Hor Hr) as (Hn & W1 & W2 & E). pose proof (good_nonneg w Hn) as Hn0.
    destruct (mc_range _ _ _ _ _ _ Hm r Hr) as (_ & Wm & _).
    assert (within w (val r (src1 z)) /\ within w (u64 om) /\ r j = Z.land (val r (src1 z)) (u64 om)) as (Wp & Wom & Ej).
    { apply (sat_computes r) in Hz as [Ht Hsem]; [|done]. unfold typed, sem in *. rewrite Hoz, Hom, Hsz in *. apply (inj Some) in Hsem.
      destruct Ht as (_ & ? & ?). done. }
    rewrite Hora in E, W1. simpl in E, W1. set (a := Z.land (val r (src1 z)) (Z.land (u64 om) mask)).
    assert (within w (Z.land (u64 om) mask)) as Wn by (apply within_land; [done|done|apply Wm]).
    assert (within w a) as Wa by (apply within_land; [done|done|apply Wn]).
    assert (within w (Z.lor a (val r orb))) as Wk by (by apply within_lor).
    exists (set_reg k (Z.lor a (val r orb)) (set_reg j a r)). rewrite set_reg_eq. split_and!; try done.
    + intros c Hcn. rewrite !set_reg_ne; [done| |]; intros ->; apply Hcn; rewrite !elem_of_cons; auto.
    + rewrite E, Ej. apply mask_or_some.
    + intros c u Hcin Hcu. apply elem_of_cons in Hcin as [-> |Hcin]; [|apply list_elem_of_singleton in Hcin as ->].
      * assert (u = y) as -> by exact (computes_inj _ _ _ _ Hy Hcu).
        assert ((k =? j) = false) as -> by (apply Z.eqb_neq; congruence).
        assert (val (set_reg k (Z.lor a (val r orb)) (set_reg j a r)) ora = a) as Va.
        { rewrite Hora. simpl. by rewrite set_reg_ne, set_reg_eq. }
        assert (val (set_reg k (Z.lor a (val r orb)) (set_reg j a r)) orb = val r orb) as Vb by (by rewrite !val_set_reg).
        apply holds_fold; [by rewrite Ho|]. rewrite Ho, Hs, set_reg_eq.
        destruct Hsd as [[-> ->]|[-> ->]]; rewrite Va, Vb; simpl; split_and!; try done; symmetry; rewrite ?(Z.lor_comm (val r orb)); by apply ucast_id.
      * assert (u = z) as -> by exact (computes_inj _ _ _ _ Hz Hcu).
        rewrite Z.eqb_refl. apply holds_fold; [simpl; by rewrite Hoz|]. simpl. rewrite !val_set_reg, set_reg_ne, set_reg_eq, Hoz, Hsz by done.
        rewrite u64_s64, (u64_within w) by done. split_and!; try done. symmetry. by apply ucast_id.
Qed.

Lemma peq_false p q : peq p q = false -> p <> q.
Proof. unfold peq. by case_bool_decide. Qed.

Lemma simplify_mask_or_and_ok d top i x mask w k y ora orb : mask_ctx d top i x w mask -> one_operand x -> or_of d x k y w ora orb ->
  sized d ora w -> ok d (simplify_mask_or_and i mask ora orb d).
Proof.
  intros Hm Hone Hor Hsz. pose proof (mc_wf _ _ _ _ _ _ Hm) as Hwf. pose proof (mc_x _ _ _ _ _ _ Hm) as Hc. pose proof Hor as [Hk Hy Ho Hs Hsd].
  pose proof (or_operands _ _ _ _ _ _ _ Hor) as Hops.
  unfold simplify_mask_or_and. rewrite (at_computes _ _ _ Hc).
  destruct (def_of d ora) as [[j z]|] eqn:Hd; [|same]. destruct (oeq (op z) OP_AND) eqn:Hoz; [|same]. apply bool_decide_eq_true in Hoz. simpl.
  destruct (constant (src2 z)) eqn:Hcon; [|same]. apply constant_inv in Hcon as [om Hom]. simpl. rewrite Hom. simpl.
  assert (below d i (REG k)) as Hbk by (rewrite <- Hk; by apply below_src1).
  assert (below d k ora /\ below d k orb) as [Hbo Hbb] by (destruct Hsd as [[<- <-]|[<- <-]]; split; try (by apply below_src1); apply below_src2; try done; by rewrite Ho).
  destruct (def_computes d k ora j z Hwf Hbo Hd) as (Hora & Hz & Hne); [by rewrite Hoz|]. specialize (Hsz j z Hd).
  assert (forall r, sat r d -> within w (val r (src1 z)) /\ within w (u64 om) /\ r j = Z.land (val r (src1 z)) (u64 om)) as Hzv.
  { intros r Hr. apply (sat_computes r) in Hz as [Ht Hsem]; [|done]. unfold typed, sem in *. rewrite Hoz, Hom, Hsz in *. apply (inj Some) in Hsem.
    destruct Ht as (_ & ? & ?). done. }
  destruct (Z.eqb_spec (Z.land (u64 om) mask) 0) as [E0|_].
  { apply (mask_replace_ok d top i x w mask); [done|by apply below_trans with k|]. intros r Hr.
    destruct (or_value2 d x k y w ora orb r Hor Hr) as (Hn & W1 & W2 & E). destruct (Hzv r Hr) as (_ & _ & Ej). rewrite Hk. simpl.
    split; [done|]. rewrite E, Hora. simpl. rewrite Ej. by apply mask_or_zero. }
  rewrite Hk. destruct (one_use d (REG k)) eqn:Hu; [|same]. simpl. unfold def_of. rewrite (c_lookup _ _ _ Hy). simpl.
  destruct (Z.eqb_spec (Z.land (u64 om) mask) mask) as [Em|_].
  { apply (or_replace_sound d top i x mask w k y ora orb); try done.
    - destruct (peq ora (src1 y)) eqn:Hpe; [left|right]; (split; [done|]); [by apply peq_true in Hpe|].
      apply peq_false in Hpe. destruct Hsd as [[? _]|[_ ?]]; [congruence|done].
    - apply below_trans with j; [by rewrite <- Hora|by apply below_src1].
    - intros r Hr. destruct (Hzv r Hr) as (Wp & _ & Ej). split; [done|].
      destruct (or_value2 d x k y w ora orb r Hor Hr) as (Hn & W1 & W2 & E).
      assert (other (if peq ora (src1 y) then P1 else P2) y = orb) as ->.
      { destruct (peq ora (src1 y)) eqn:Hpe; simpl; [apply peq_true in Hpe|apply peq_false in Hpe]; destruct Hsd as [[? ?]|[? ?]]; congruence. }
      rewrite E, Hora. simpl. rewrite Ej. by apply mask_or_all. }
  destruct (_ && _) eqn:E; [|same]. apply andb_true_iff in E as [_ Huj]. rewrite Hora in Huj.
  apply ok_changed. by apply (and_shrink_sound d top i x mask w k y ora orb j z om).
Qed.

Lemma simplify_mask_or_ok d top i x mask w k y : mask_ctx d top i x w mask -> one_operand x -> or_of d x k y w (src1 y) (src2 y) ->
  sized d (src1 y) w -> sized d (src2 y) w -> ok d (simplify_mask_or i mask k d).
Proof.
  intros Hm Hone Hor Hs1 Hs2. pose proof (mc_wf _ _ _ _ _ _ Hm) as Hwf. pose proof (mc_x _ _ _ _ _ _ Hm) as Hc. pose proof Hor as [Hk Hy Ho Hs _].
  assert (or_of d x k y w (src2 y) (src1 y)) as Hor2 by (split; auto).
  unfold simplify_mask_or. rewrite (at_computes _ _ _ Hy). apply or_else_ok.
  { destruct (is_reg (src1 y)); [|same]. by apply (simplify_mask_or_and_ok d top i x mask w k y). }
  assert (below d i (REG k)) as Hbk by (rewrite <- Hk; by apply below_src1).
  destruct (src2 y) as [| | |nr| | |v] eqn:Hv; try same; rewrite <- ?Hv in *; [by apply (simplify_mask_or_and_ok d top i x mask w k y)|].
  assert (is_s64 v) as Hv64 by (apply (below_s64 d k (VAL v) Hwf); [rewrite <- Hv; apply below_src2; [done|by rewrite Ho]|done]).
  assert (forall r, sat r d -> good_size w /\ within w (val r (src1 y)) /\ within w (u64 v) /\ r k = Z.lor (val r (src1 y)) (u64 v)) as Hval.
  { intros r Hr. destruct (or_value2 _ _ _ _ _ _ _ r Hor Hr) as (Hn & W1 & W2 & E). by rewrite Hv in W2, E. }
  destruct (Z.eqb_spec (Z.land (u64 v) mask) 0) as [E0|_].
  { apply (mask_replace_ok d top i x w mask); [done|apply below_trans with k; [done|by apply below_src1]|]. intros r Hr.
    destruct (Hval r Hr) as (Hn & W1 & W2 & E). split; [done|]. rewrite Hk. simpl. rewrite E, Z.land_lor_distr_l, E0. by rewrite Z.lor_0_r. }
  destruct (Z.eqb_spec (Z.land (u64 v) mask) mask) as [Em|_].
  { apply (mask_replace_ok d top i x w mask); [done|apply below_value, s64_range|]. intros r Hr.
    destruct (Hval r Hr) as (Hn & W1 & W2 & E). destruct (mc_range _ _ _ _ _ _ Hm r Hr) as (_ & Wm & _).
    simpl. rewrite u64_s64, (u64_within w) by done. split; [done|]. rewrite Hk. simpl. rewrite E, Z.land_diag, Z.land_lor_distr_l, Em.
    apply Z.bits_inj'. intros n Hn'. rewrite Z.lor_spec, Z.land_spec. by destruct (Z.testbit mask n), (Z.testbit (val r (src1 y)) n). }
  destruct (_ && _) eqn:E; [|same]. apply andb_true_iff in E as [_ Hu].
  apply (or_replace_sound d top i x mask w k y (src2 y) (src1 y)); try done; [by right|apply below_value, s64_range|].
  intros r Hr. destruct (Hval r Hr) as (Hn & W1 & W2 & E). destruct (mc_range _ _ _ _ _ _ Hm r Hr) as (_ & Wm & _).
  assert (within w (Z.land (u64 v) mask)) as Wn by (apply within_land; [by apply good_nonneg|done|apply Wm]).
  simpl. rewrite u64_s64, (u64_within w) by done. split; [done|]. rewrite E. apply Z.bits_inj'. intros n Hn'.
  rewrite !Z.land_spec, !Z.lor_spec, Z.land_spec. by destruct (Z.testbit mask n), (Z.testbit (val r (src1 y)) n), (Z.testbit (u64 v) n).
Qed.

(** ** The instructions that look at some bits *)

(** AND with a constant. *)
Lemma and_ctx d i x v : wf d -> computes d i x -> op x = OP_AND -> src2 x = VAL v -> mask_ctx d i i x (size x) (u64 v).
Proof.
  intros Hwf Hc Ho H2. split; try done; [by exists x|by left| |].
  - intros r a Hr Wa E. exists r. split_and!; try done. apply (sat_computes r) in Hc as [Ht Hsem]; [|done].
    unfold holds_with, typed, sem in *. rewrite Ho, H2 in *. simpl in *. apply (inj Some) in Hsem. rewrite E, Hsem. intuition.
  - intros r Hr. apply (sat_computes r) in Hc as [Ht _]; [|done]. unfold typed in Ht. rewrite Ho, H2 in Ht. intuition.
Qed.

Lemma trunc_ctx d i x : wf d -> computes d i x -> op x = OP_TRUNC -> mask_ctx d i i x (itype x) (bits_mask (size x)).
Proof.
  intros Hwf Hc Ho. split; try done; [by exists x|by left| |].
  - intros r a Hr Wa E. exists r. split_and!; try done. apply (sat_computes r) in Hc as [Ht Hsem]; [|done].
    unfold holds_with, typed, sem in *. rewrite Ho in *. simpl in *. destruct Ht as (Hn & Hm & Hlt & W). rewrite !land_bits_mask in E by done.
    rewrite E. done.
  - intros r Hr. apply (sat_computes r) in Hc as [Ht _]; [|done]. unfold typed in Ht. rewrite Ho in Ht. destruct Ht as (Hn & Hm & Hlt & W).
    split_and!; try done. rewrite bits_mask_eq by done. assert (2 ^ size x <= 2 ^ itype x) by (apply Z.pow_le_mono_r; lia).
    pose proof (pow_le_two64 _ Hn). unfold within. lia.
Qed.

(** The bits that a shift brings to those of a mask. *)
Definition shift_mask (o : opcode) (n s mask : Z) : Z := Z.land (bits_mask n) (if oeq o OP_LSR then u64 (Z.shiftl mask s) else Z.shiftr mask s).

Lemma shift_mask_bits o n s mask a b : o = OP_LSR \/ o = OP_SHL -> good_size n -> 0 <= s < n -> 0 <= mask -> within n a -> within n b ->
  Z.land a (shift_mask o n s mask) = Z.land b (shift_mask o n s mask) ->
  Z.land (shift_val o n a s) mask = Z.land (shift_val o n b s) mask.
Proof.
  intros Ho Hn Hs Hm Wa Wb E. pose proof (good_nonneg n Hn). apply Z.bits_inj'. intros k Hk. rewrite !Z.land_spec, !testbit_shift by (done || lia).
  assert (forall l, 0 <= l -> Z.testbit (Z.land a (shift_mask o n s mask)) l = Z.testbit (Z.land b (shift_mask o n s mask)) l) as Hb by (intros; by rewrite E).
  unfold shift_mask in Hb. destruct Ho as [-> | ->]; simpl.
  - change (oeq OP_LSR OP_LSR) with true in Hb. cbv iota in Hb.
    destruct (Z.ltb_spec (k + s) n) as [Hlt|Hge]; [|by rewrite (testbit_within n a), (testbit_within n b) by (done || lia)].
    specialize (Hb (k + s) ltac:(lia)). rewrite !Z.land_spec, bits_mask_ones, Z.testbit_ones_nonneg in Hb by (done || lia).
    change (u64 (Z.shiftl mask s)) with (ucast 64 (Z.shiftl mask s)) in Hb. rewrite testbit_ucast, Z.shiftl_spec in Hb by lia.
    destruct (Z.ltb_spec (k + s) n); [|lia]. destruct (Z.ltb_spec (k + s) 64); [|unfold good_size in Hn; lia].
    replace (k + s - s) with k in Hb by lia. simpl in Hb. by destruct (Z.testbit mask k), (Z.testbit a (k + s)), (Z.testbit b (k + s)).
  - change (oeq OP_SHL OP_LSR) with false in Hb. cbv iota in Hb. destruct (Z.ltb_spec k n) as [Hlt|Hge]; [|done]. simpl.
    destruct (Z.ltb_spec k s) as [Hks|Hks]; [by rewrite !(Z.testbit_neg_r _ (k - s)) by lia|].
    specialize (Hb (k - s) ltac:(lia)). rewrite !Z.land_spec, bits_mask_ones, Z.testbit_ones_nonneg, Z.shiftr_spec in Hb by (done || lia).
    destruct (Z.ltb_spec (k - s) n); [|lia]. replace (k - s + s) with k in Hb by lia. simpl in Hb.
    by destruct (Z.testbit mask k), (Z.testbit a (k - s)), (Z.testbit b (k - s)).
Qed.

Lemma shift_mask_within o n s mask : good_size n -> within n (shift_mask o n s mask) \/ mask < 0.
Proof.
  intros Hn. pose proof (good_nonneg n Hn). destruct (Z.lt_ge_cases mask 0); [by right|left]. unfold shift_mask. rewrite bits_mask_eq by done.
  apply within_land; [done|pose proof (pow_le_two64 n Hn); unfold within; lia|]. destruct (oeq o OP_LSR); [apply u64_range|by apply Z.shiftr_nonneg].
Qed.

(** The count of a shift, as an int. *)
Lemma shift_count n v : good_size n -> is_s64 v -> u64 v < n -> scast 32 v = u64 v /\ 0 <= u64 v.
Proof.
  intros Hn Hv Hlt. pose proof (u64_range v) as Hr. unfold is_u64, good_size in *. split; [|lia].
  rewrite <- (scast_u64 32) by (unfold good_size; lia). apply scast_small; [lia|]. change (2 ^ (32 - 1)) with 2147483648. lia.
Qed.

Record shift_insn (d : dag) (i : Z) (x : insn) (v : Z) : Prop := {
  si_x : computes d i x;
  si_op : op x = OP_LSR \/ op x = OP_SHL;
  si_const : src2 x = VAL v;
  si_s64 : is_s64 v
}.

Lemma shift_holds d i x v r : shift_insn d i x v -> sat r d ->
  good_size (size x) /\ within (size x) (val r (src1 x)) /\ 0 <= u64 v < size x /\ scast 32 v = u64 v /\
  r i = shift_val (op x) (size x) (val r (src1 x)) (u64 v).
Proof.
  intros [Hc Ho H2 Hv] Hr. apply (sat_computes r) in Hc; [|done]. apply holds_shift in Hc as (Hn & W & Hs & E); [|by destruct Ho as [-> | ->]].
  rewrite H2 in *. simpl in *. destruct (shift_count (size x) v Hn Hv ltac:(lia)) as [Ec _]. split_and!; done || lia.
Qed.

Lemma shift_holds_with r i x v a : op x = OP_LSR \/ op x = OP_SHL -> src2 x = VAL v -> good_size (size x) -> within (size x) a ->
  0 <= u64 v < size x -> r i = shift_val (op x) (size x) a (u64 v) -> holds_with r i x a.
Proof.
  intros Ho H2 Hn Ha Hs E. unfold holds_with, typed, sem. rewrite H2, E. simpl. assert (within 64 (u64 v)) by (unfold within, good_size in *; lia).
  destruct Ho as [-> | ->]; simpl; destruct (Z.ltb_spec (u64 v) (size x)); try lia; (split; [done|]); f_equal;
    rewrite ?Z.shiftr_div_pow2, ?Z.shiftl_mul_pow2 by lia; done.
Qed.

Lemma shift_ctx d i x v : wf d -> shift_insn d i x v ->
  mask_ctx d i i x (size x) (shift_mask (op x) (size x) (scast 32 v) (bits_mask (size x))).
Proof.
  intros Hwf Hs. pose proof Hs as [Hc Ho H2 Hv]. split; try done; [by exists x|by left| |].
  - intros r a Hr Wa E. destruct (shift_holds d i x v r Hs Hr) as (Hn & W & Hlt & Ec & Ei). exists r. split_and!; try done.
    apply (shift_holds_with r i x v a); try done. rewrite Ei. rewrite Ec in E. pose proof (pow_le_two64 _ Hn).
    assert (0 <= bits_mask (size x)) by (rewrite bits_mask_eq by done; lia).
    pose proof (shift_mask_bits (op x) (size x) (u64 v) (bits_mask (size x)) a (val r (src1 x)) Ho Hn Hlt H0 Wa W E) as H3.
    rewrite !land_bits_mask, !ucast_id in H3 by (done || apply within_shift; done || lia). done.
  - intros r Hr. destruct (shift_holds d i x v r Hs Hr) as (Hn & W & Hlt & Ec & Ei). split_and!; try done.
    destruct (shift_mask_within (op x) (size x) (scast 32 v) (bits_mask (size x)) Hn) as [?|Hneg]; [done|].
    rewrite bits_mask_eq in Hneg by done. pose proof (pow_le_two64 _ Hn). lia.
Qed.

(** A shift inside of an instruction that looks at some of its bits. *)
Lemma inner_shift_ctx d top t i x v mask : mask_ctx d top top t (size x) mask -> one_operand t -> src1 t = REG i -> one_use d (REG i) = true ->
  shift_insn d i x v -> mask_ctx d top i x (size x) (shift_mask (op x) (size x) (scast 32 v) mask).
Proof.
  intros Hm Hone Hi Hu Hs. pose proof (mc_wf _ _ _ _ _ _ Hm) as Hwf. pose proof (mc_x _ _ _ _ _ _ Hm) as Ht. pose proof Hs as [Hc Ho H2 Hv].
  assert (below d top (REG i)) as Hb by (rewrite <- Hi; by apply below_src1).
  assert (i <> top) as Hne by (intros ->; by apply (below_not_self d top)).
  assert (REG i ∈ operands t) as Hin.
  { rewrite <- Hi. pose proof (c_op _ _ _ Ht). destruct t as [[] ? ? ? ? ? ? ?]; try done; left. }
  split; try done; [by exists t| | |].
  - right. split; [|done]. by apply (one_use_user d i top t Hu (c_lookup _ _ _ Ht)).
  - intros r a Hr Wa E. destruct (shift_holds d i x v r Hs Hr) as (Hn & W & Hlt & Ec & Ei). rewrite Ec in E.
    destruct (mc_range _ _ _ _ _ _ Hm r Hr) as (_ & Wm & _).
    pose proof (shift_mask_bits (op x) (size x) (u64 v) mask a (val r (src1 x)) Ho Hn Hlt ltac:(apply Wm) Wa W E) as Hbits.
    set (b := shift_val (op x) (size x) a (u64 v)) in *. assert (within (size x) b) as Wb by (apply within_shift; done || lia).
    destruct (mc_vals _ _ _ _ _ _ Hm r b Hr Wb) as (r1 & Hr1 & _ & Htop); [rewrite Hi; simpl; by rewrite Ei|].
    exists (set_reg i b r). split_and!.
    + intros j [?|?]; [by apply set_reg_ne|done].
    + intros y _ Hy. assert (y = t) as -> by exact (computes_inj _ _ _ _ Ht Hy).
      apply (holds_with_ext _ r1 top t b); try done; [apply Ht|by rewrite Hi; simpl; apply set_reg_eq|].
      rewrite Hr1 by auto. by apply set_reg_ne.
    + apply (shift_holds_with _ i x v a); try done. by rewrite set_reg_eq.
  - intros r Hr. destruct (shift_holds d i x v r Hs Hr) as (Hn & W & _). destruct (mc_range _ _ _ _ _ _ Hm r Hr) as (_ & Wm & _).
    split_and!; try done. destruct (shift_mask_within (op x) (size x) (scast 32 v) mask Hn) as [?|?]; [done|]. unfold within in Wm. lia.
Qed.

(** simplify_mask_shift_or(), in a context. *)
Lemma simplify_mask_shift_or_ok d top i x v mask k y : mask_ctx d top i x (size x) (shift_mask (op x) (size x) (scast 32 v) mask) ->
  shift_insn d i x v -> or_of d x k y (size x) (src1 y) (src2 y) -> sized d (src1 y) (size x) -> sized d (src2 y) (size x) ->
  ok d (simplify_mask_shift_or i k mask d).
Proof.
  intros Hm Hs Hor Hs1 Hs2. pose proof Hs as [Hc Ho H2 Hv]. unfold simplify_mask_shift_or. rewrite (at_computes _ _ _ Hc), H2. simpl.
  apply (simplify_mask_or_ok d top i x _ (size x) k y); try done. right. rewrite H2. by destruct Ho as [-> | ->].
Qed.

Lemma simplify_mask_shift_ok d top t i x mask : mask_ctx d top top t (size x) mask -> one_operand t -> src1 t = REG i -> computes d i x ->
  op x = OP_LSR \/ op x = OP_SHL -> sized d (src1 x) (size x) ->
  (forall k y, def_of d (src1 x) = Some (k, y) -> op y = OP_OR -> sized d (src1 y) (size y) /\ sized d (src2 y) (size y)) ->
  ok d (simplify_mask_shift i mask d).
Proof.
  intros Hm Hone Hi Hc Ho Hsz Hsz2. pose proof (mc_wf _ _ _ _ _ _ Hm) as Hwf. unfold simplify_mask_shift. rewrite (at_computes _ _ _ Hc).
  destruct (constant (src2 x)) eqn:Hk; simpl; [|same]. apply constant_inv in Hk as [v H2]. destruct (tainted x); [same|].
  destruct (def_of d (src1 x)) as [[k y]|] eqn:Hd; [|same]. destruct (_ && _) eqn:E; [|same].
  apply andb_true_iff in E as [Hoy%bool_decide_eq_true Hu].
  destruct (def_computes d i (src1 x) k y Hwf) as (Hp & Hy & Hne); [by apply below_src1|done|by rewrite Hoy|].
  destruct (Hsz2 k y eq_refl Hoy) as [S1 S2]. pose proof (Hsz k y Hd) as Hsy. rewrite Hsy in S1, S2.
  assert (shift_insn d i x v) as Hsi.
  { split; try done. apply (below_s64 d i (VAL v) Hwf); [|done]. rewrite <- H2. apply below_src2; [done|]. by destruct Ho as [-> | ->]. }
  apply (simplify_mask_shift_or_ok d top i x v mask k y); try done; [by apply inner_shift_ctx with t|]. split; auto.
Qed.
End mask.
