(* ===== verification/SimplifyShift.v ===== *)
(** * Shifts and masks by constants, simplify_shift() and simplify_constant_mask() *)
From stdpp Require Import base option gmap list.
From S2P Require Import Prelude Bits Simplify SimplifyFacts SimplifyConst SimplifyRules SimplifyAlgebra SimplifyCompare SimplifyMask.
#[local] Open Scope Z_scope.

(** ** Shifts of shifts *)

(** Bits above the size and below 0 are not set. *)
Lemma bit_out n p k : good_size n -> within n p -> n <= k \/ k < 0 -> Z.testbit p k = false.
Proof.
  intros Hn Hp [Hk|Hk]; [apply (testbit_within n); try done; by apply good_nonneg|by apply Z.testbit_neg_r].
Qed.

(** The bit that a shift brings. *)
Ltac bit := cbn [shift_bit fst snd andb].

Lemma lsr_lsr n p a b : good_size n -> within n p -> 0 <= a -> 0 <= b ->
  shift_val OP_LSR n (shift_val OP_LSR n p b) a = if a + b <? n then shift_val OP_LSR n p (a + b) else 0.
Proof.
  intros Hn Hp Ha Hb. apply Z.bits_inj'. intros k Hk. rewrite testbit_shift by (done || lia). bit. rewrite testbit_shift by (done || lia). bit.
  destruct (Z.ltb_spec (a + b) n); [rewrite testbit_shift by (done || lia); bit; f_equal; lia|].
  rewrite Z.testbit_0_l. apply (bit_out n); try done. lia.
Qed.

Lemma shl_shl n p a b : good_size n -> within n p -> 0 <= a -> 0 <= b ->
  shift_val OP_SHL n (shift_val OP_SHL n p b) a = if a + b <? n then shift_val OP_SHL n p (a + b) else 0.
Proof.
  intros Hn Hp Ha Hb. apply Z.bits_inj'. intros k Hk. rewrite testbit_shift by done. bit.
  assert (Z.testbit (shift_val OP_SHL n p b) (k - a) = (k - a <? n) && Z.testbit p (k - a - b)) as E.
  { destruct (Z.ltb_spec (k - a) 0); [rewrite !Z.testbit_neg_r by lia; by rewrite andb_false_r|]. by rewrite testbit_shift by done. }
  rewrite E. destruct (Z.ltb_spec (a + b) n).
  - rewrite testbit_shift by (done || lia). bit. replace (k - (a + b)) with (k - a - b) by lia.
    destruct (Z.ltb_spec k n), (Z.ltb_spec (k - a) n); try done; lia.
  - rewrite Z.testbit_0_l. destruct (Z.ltb_spec k n); [|done]. rewrite (Z.testbit_neg_r p) by lia. by rewrite andb_false_r.
Qed.

Lemma asr_asr n p a b : good_size n -> within n p -> 0 <= a -> 0 <= b ->
  shift_val OP_ASR n (shift_val OP_ASR n p b) a = shift_val OP_ASR n p (if n <=? a + b then n - 1 else a + b).
Proof.
  intros Hn Hp Ha Hb. apply Z.bits_inj'. intros k Hk. unfold good_size in Hn. rewrite testbit_shift by (done || lia). bit.
  rewrite testbit_shift by (unfold good_size; lia). bit.
  rewrite testbit_shift by (unfold good_size; destruct (n <=? a + b); lia). bit.
  destruct (Z.ltb_spec k n); [|done]. bit. destruct (Z.ltb_spec (Z.min (k + a) (n - 1)) n); [|lia]. bit. f_equal.
  destruct (Z.leb_spec n (a + b)); lia.
Qed.

Lemma asr_lsr n p a b : good_size n -> within n p -> 0 <= a -> 0 < b ->
  shift_val OP_ASR n (shift_val OP_LSR n p b) a = if a + b <? n then shift_val OP_LSR n p (a + b) else 0.
Proof.
  intros Hn Hp Ha Hb. apply Z.bits_inj'. intros k Hk. rewrite testbit_shift by (done || lia). bit. unfold good_size in Hn.
  rewrite testbit_shift by (unfold good_size; lia). bit.
  assert ((if a + b <? n then Z.testbit p (k + (a + b)) else false) = (k <? n) && Z.testbit p (Z.min (k + a) (n - 1) + b)) as E.
  { destruct (Z.ltb_spec k n); bit.
    - destruct (Z.leb_spec (k + a) (n - 1)); [rewrite Z.min_l by lia|rewrite Z.min_r by lia; rewrite !(bit_out n p) by (done || lia); by destruct (a + b <? n)].
      destruct (Z.ltb_spec (a + b) n); [f_equal; lia|]. symmetry. apply (bit_out n); try done. lia.
    - destruct (Z.ltb_spec (a + b) n); [|done]. apply (bit_out n); try done. lia. }
  rewrite <- E. destruct (Z.ltb_spec (a + b) n); [by rewrite testbit_shift by (unfold good_size; lia)|by rewrite Z.testbit_0_l].
Qed.

(** The bits that two opposite shifts leave. *)
Lemma lsr_shl n p s : good_size n -> within n p -> 0 <= s < n ->
  shift_val OP_LSR n (shift_val OP_SHL n p s) s = Z.land p (bits_mask (n - s)).
Proof.
  intros Hn Hp Hs. apply Z.bits_inj'. intros k Hk. rewrite testbit_shift by (done || lia). bit. rewrite testbit_shift by (done || lia). bit.
  rewrite Z.land_spec, bits_mask_ones, Z.testbit_ones_nonneg by (unfold good_size in *; lia). rewrite andb_comm.
  replace (k + s - s) with k by lia. f_equal. apply bool_of. lia.
Qed.

Lemma shl_lsr n p s : good_size n -> within n p -> 0 <= s < n ->
  shift_val OP_SHL n (shift_val OP_LSR n p s) s = Z.land p (u64 (Z.shiftl (bits_mask (n - s)) s)).
Proof.
  intros Hn Hp Hs. apply Z.bits_inj'. intros k Hk. rewrite testbit_shift by (done || lia). simpl.
  rewrite Z.land_spec. change (u64 (Z.shiftl (bits_mask (n - s)) s)) with (ucast 64 (Z.shiftl (bits_mask (n - s)) s)).
  rewrite testbit_ucast, Z.shiftl_spec, bits_mask_ones by (unfold good_size in *; lia). unfold good_size in Hn.
  destruct (Z.ltb_spec k s).
  - rewrite !(Z.testbit_neg_r _ (k - s)) by lia. by rewrite !andb_false_r.
  - rewrite Z.testbit_ones_nonneg by lia. rewrite Z.shiftr_spec by lia. replace (k - s + s) with k by lia.
    destruct (Z.ltb_spec k n), (Z.ltb_spec k 64), (Z.ltb_spec (k - s) (n - s)); try lia; bit; by rewrite ?andb_true_r, ?andb_false_r.
Qed.

(** ** Shifts of masked values *)

Lemma high_mask_bit n s k : good_size n -> 0 <= s < n -> 0 <= k ->
  Z.testbit (u64 (Z.shiftl (bits_mask (n - s)) s)) k = (s <=? k) && (k <? n).
Proof.
  intros Hn Hs Hk. change (u64 (Z.shiftl (bits_mask (n - s)) s)) with (ucast 64 (Z.shiftl (bits_mask (n - s)) s)).
  rewrite testbit_ucast, Z.shiftl_spec, bits_mask_ones by (unfold good_size in *; lia). unfold good_size in Hn.
  destruct (Z.leb_spec s k); simpl; [|rewrite (Z.testbit_neg_r _ (k - s)) by lia; by rewrite andb_false_r].
  rewrite Z.testbit_ones_nonneg by lia. apply bool_of. lia.
Qed.

Lemma low_mask_bit n s k : good_size n -> 0 <= s < n -> 0 <= k -> Z.testbit (Z.shiftr (bits_mask n) s) k = (k <? n - s).
Proof.
  intros Hn Hs Hk. rewrite Z.shiftr_spec, bits_mask_ones, Z.testbit_ones_nonneg by (done || unfold good_size in Hn; lia). apply bool_of. lia.
Qed.

(** The mask has all the bits that the shift keeps, or none. *)
Lemma mask_bits m mask k (b : bool) : 0 <= k -> Z.land m mask = (if b then mask else 0) -> Z.testbit mask k = true -> Z.testbit m k = b.
Proof.
  intros Hk E Hb. assert (Z.testbit (Z.land m mask) k = b) as H; [|by rewrite Z.land_spec, Hb, andb_true_r in H].
  rewrite E. destruct b; [done|apply Z.testbit_0_l].
Qed.

Lemma lsr_masked n p m s (b : bool) : good_size n -> within n p -> 0 <= s < n -> 0 <= m ->
  Z.land m (u64 (Z.shiftl (bits_mask (n - s)) s)) = (if b then u64 (Z.shiftl (bits_mask (n - s)) s) else 0) ->
  shift_val OP_LSR n (Z.land p m) s = if b then shift_val OP_LSR n p s else 0.
Proof.
  intros Hn Hp Hs Hm E. apply Z.bits_inj'. intros k Hk. rewrite testbit_shift by (done || lia). bit. rewrite Z.land_spec.
  assert (Z.testbit (if b then shift_val OP_LSR n p s else 0) k = b && Z.testbit p (k + s)) as ->.
  { destruct b; [by rewrite testbit_shift by (done || lia)|apply Z.testbit_0_l]. }
  destruct (Z.ltb_spec (k + s) n); [|rewrite !(bit_out n p) by (done || lia); by rewrite andb_false_r].
  rewrite (mask_bits m _ (k + s) b) by (try exact E; try lia; rewrite high_mask_bit by (done || lia); apply andb_true_iff; lia).
  apply andb_comm.
Qed.

Lemma shl_masked n p m s (b : bool) : good_size n -> within n p -> 0 <= s < n -> 0 <= m ->
  Z.land m (Z.shiftr (bits_mask n) s) = (if b then Z.shiftr (bits_mask n) s else 0) ->
  shift_val OP_SHL n (Z.land p m) s = if b then shift_val OP_SHL n p s else 0.
Proof.
  intros Hn Hp Hs Hm E. apply Z.bits_inj'. intros k Hk. rewrite testbit_shift by (done || lia). bit.
  assert (Z.testbit (if b then shift_val OP_SHL n p s else 0) k = b && ((k <? n) && Z.testbit p (k - s))) as ->.
  { destruct b; [by rewrite testbit_shift by (done || lia)|apply Z.testbit_0_l]. }
  destruct (Z.ltb_spec k n); [|by rewrite andb_false_r]. simpl. destruct (Z.ltb_spec k s).
  { rewrite !(Z.testbit_neg_r _ (k - s)) by lia. by rewrite andb_false_r. }
  rewrite Z.land_spec, (mask_bits m _ (k - s) b) by (try exact E; try lia; rewrite low_mask_bit by (done || lia); lia).
  apply andb_comm.
Qed.

Lemma lsr_land n p m s : 0 <= s -> shift_val OP_LSR n (Z.land p m) s = Z.land (shift_val OP_LSR n p s) (Z.shiftr m s).
Proof. intros Hs. apply Z.shiftr_land. Qed.

Section shift.
Context `{At : Atoms}.

(** ** A shift by a constant *)

Lemma nonneg_s64 v : is_s64 v -> u64 v < two63 -> v = u64 v.
Proof. intros Hv Hlt. unfold is_s64, u64, two63, two64 in *. Z.div_mod_to_equations. lia. Qed.

Record const_shift (d : dag) (i : Z) (x : insn) (v : Z) : Prop := {
  cs_wf : wf d;
  cs_x : computes d i x;
  cs_op : shifts (op x) = true;
  cs_const : src2 x = VAL v;
  cs_sized : sized d (src1 x) (size x)
}.

Lemma cs_s64 d i x v : const_shift d i x v -> is_s64 v.
Proof.
  intros [Hwf Hc Ho H2 _]. apply (below_s64 d i (VAL v) Hwf); [|done]. rewrite <- H2. apply below_src2; [done|]. by destruct (op x).
Qed.

Lemma cs_value d i x v r : const_shift d i x v -> sat r d ->
  good_size (size x) /\ within (size x) (val r (src1 x)) /\ 0 <= v < size x /\ u64 v = v /\
  r i = shift_val (op x) (size x) (val r (src1 x)) v.
Proof.
  intros Hs Hr. pose proof (cs_s64 _ _ _ _ Hs) as Hv. pose proof Hs as [Hwf Hc Ho H2 _].
  apply (sat_computes r) in Hc; [|done]. apply holds_shift in Hc as (Hn & W & Hlt & E); [|done]. rewrite H2 in *. simpl in *.
  assert (v = u64 v) as Ev by (apply nonneg_s64; [done|]; unfold good_size, two63 in *; lia). rewrite <- Ev in *. split_and!; try done; lia.
Qed.

(** The instruction becomes an operator of a pseudo below and a constant. *)
Lemma shift_change_ok d i x j y o w f : wf d -> computes d i x -> computes d j y -> src1 x = REG j -> is_s64 w -> arity o = 2 -> is_value_op o = true ->
  set_src1 (src1 y) (f x) = set_src1 (src1 y) (set_src2 (VAL w) (set_op o x)) ->
  (forall r, sat r d -> holds r i (set_src1 (src1 y) (set_src2 (VAL w) (set_op o x)))) ->
  ok d (replace_pseudo i P1 (src1 y) (modify i f d)).
Proof.
  intros Hwf Hc Hy Hp Hw Ha Hv Hf Hh. apply (change_replace_ok d i x); [done|done| |]; cbn [set].
  - split; cbn [set]; rewrite Hf; [apply Hc|done|]. intros q Hin. rewrite operands_2 in Hin by done. elems Hin; [|by apply below_value].
    apply below_trans with j; [rewrite <- Hp; by apply below_src1|by apply below_src1].
  - rewrite Hf. done.
Qed.

Lemma count_within n v : good_size n -> 0 <= v < n -> u64 (s64 v) = v.
Proof. intros Hn Hv. rewrite u64_s64. apply u64_small. unfold is_u64, good_size, two64 in *. lia. Qed.

Lemma shift_new_value_ok d i x j y value : wf d -> computes d i x -> shifts (op x) = true -> computes d j y -> src1 x = REG j ->
  (forall r, sat r d -> good_size (size x) /\ within (size x) (val r (src1 y)) /\ 0 <= value /\
    r i = if value <? size x then shift_val (op x) (size x) (val r (src1 y)) value else 0) ->
  ok d (shift_new_value i (size x) value y d).
Proof.
  intros Hwf Hc Ho Hy Hp Hv. unfold shift_new_value. destruct (Z.ltb_spec value (size x)) as [Hlt|Hge].
  - apply (shift_change_ok d i x j y (op x) (s64 value)); try done; [apply s64_range|by destruct (op x)|apply Hc|].
    intros r Hr. destruct (Hv r Hr) as (Hn & W & H0 & E). apply holds_shift; [done|]. simpl. rewrite (count_within (size x)) by (done || lia). done.
  - apply (replace_with_value_ok d i x); [done|done|]. intros r Hr. by destruct (Hv r Hr) as (_ & _ & _ & ->).
Qed.

Lemma shift_replace_mask_ok d i x j y mask : wf d -> computes d i x -> computes d j y -> src1 x = REG j ->
  (forall r, sat r d -> good_size (size x) /\ within (size x) (val r (src1 y)) /\ within (size x) mask /\ r i = Z.land (val r (src1 y)) mask) ->
  ok d (shift_replace_mask i mask y d).
Proof.
  intros Hwf Hc Hy Hp Hv. apply (shift_change_ok d i x j y OP_AND (s64 mask)); try done; [apply s64_range|].
  intros r Hr. destruct (Hv r Hr) as (Hn & W & Wm & E). apply holds_fold; [done|]. simpl. rewrite u64_s64, (u64_within (size x)) by done.
  split_and!; try done. rewrite E. symmetry. apply ucast_id, within_land; [by apply good_nonneg|done|apply Wm].
Qed.

(** The definition of the first operand, a shift too. *)
Lemma inner_value d i x v j y w r : const_shift d i x v -> src1 x = REG j -> computes d j y -> size y = size x -> shifts (op y) = true ->
  src2 y = VAL w -> sat r d ->
  within (size x) (val r (src1 y)) /\ 0 <= u64 w < size x /\
  r i = shift_val (op x) (size x) (shift_val (op y) (size x) (val r (src1 y)) (u64 w)) v.
Proof.
  intros Hs Hp Hy Hsy Hoy Hw Hr. destruct (cs_value _ _ _ _ r Hs Hr) as (Hn & W & Hlt & Ev & E). rewrite Hp in E. simpl in E.
  apply (sat_computes r) in Hy; [|done]. apply holds_shift in Hy as (_ & Wy & Hl & Ej); [|done]. rewrite Hsy, Hw in *. simpl in *.
  rewrite E, Ej. done.
Qed.

Lemma shift_shift_ok d i x v j y : const_shift d i x v -> src1 x = REG j -> computes d j y -> op y = op x -> op x = OP_LSR \/ op x = OP_SHL ->
  ok d (shift_shift i (size x) v j y d).
Proof.
  intros Hs Hp Hy Hoy Ho. pose proof Hs as [Hwf Hc Hsh H2 Hsz]. unfold shift_shift. rewrite (at_computes _ _ _ Hc).
  assert (size y = size x) as Hsy by (apply (Hsz j y); rewrite Hp; unfold def_of; by rewrite (c_lookup _ _ _ Hy)).
  destruct (j =? i); [same|]. destruct (src2 y) as [| | | | | |w] eqn:Hw; try same. destruct (size x <? u64 w); [same|].
  apply (shift_new_value_ok d i x j); try done. intros r Hr. destruct (cs_value _ _ _ _ r Hs Hr) as (Hn & _ & Hlt & _).
  destruct (inner_value d i x v j y w r) as (W & Hl & E); try done; [by rewrite Hoy|]. split_and!; try done; try lia. rewrite E, Hoy.
  destruct Ho as [-> | ->]; [apply lsr_lsr|apply shl_shl]; done || lia.
Qed.

Lemma zext_value d j y r : computes d j y -> op y = OP_ZEXT -> sat r d ->
  good_size (itype y) /\ itype y < size y /\ within (itype y) (r j) /\ good_size (size y).
Proof. intros Hy Hoy Hr. opened y. sems Hr. simpl in *. rewrite <- S. auto. Qed.

Lemma asr_changes d i x v : const_shift d i x v -> op x = OP_ASR -> changes d i (set_op OP_LSR) x.
Proof.
  intros [Hwf Hc Hsh _ _] Ho. split; [apply Hc|done|]. intros q Hin. rewrite operands_2 in Hin by done.
  elems Hin; [by apply below_src1|apply below_src2; [done|by rewrite Ho]].
Qed.

(** The operand is a logical shift: both shifts are one logical shift. *)
Lemma asr_of_lsr d i x v j y w : const_shift d i x v -> op x = OP_ASR -> src1 x = REG j -> computes d j y -> j <> i ->
  op y = OP_LSR -> size y = size x -> src2 y = VAL w -> u64 w <> 0 ->
  sound d (shift_new_value i (size x) (v + u64 w) y (modify i (set_op OP_LSR) d)).2.
Proof.
  intros Hs Ho Hp Hy Hne Ely Hsy Hw Hz. pose proof Hs as [Hwf Hc Hsh H2 Hsz]. pose proof (asr_changes d i x v Hs Ho) as Hch.
  assert (shifts (op y) = true) as Hshy by (by rewrite Ely).
  eapply sound_trans; [apply (change_sound d i x (set_op OP_LSR)); try done|].
  { intros r Hr. destruct (cs_value _ _ _ _ r Hs Hr) as (Hn & W & Hlt & Ev & _).
    destruct (inner_value d i x v j y w r) as (Wy & Hl & E); try done. rewrite Ho, Ely in E.
    apply holds_shift; [done|]. simpl. rewrite H2. simpl. rewrite Ev. split_and!; try done; try lia.
    rewrite E, asr_lsr by (done || lia). rewrite <- lsr_lsr by (done || lia). rewrite Hp. simpl. do 2 f_equal.
    apply (sat_computes r) in Hy; [|done]. apply holds_shift in Hy as (_ & _ & _ & ->); [|done]. by rewrite Ely, Hsy, Hw. }
  intros Hwf1. pose proof (computes_modify d i _ x Hc Hch) as Hc1.
  assert (computes (modify i (set_op OP_LSR) d) j y) as Hy1 by (destruct Hy; split; try done; by rewrite lookup_modify_ne).
  assert (const_shift (modify i (set_op OP_LSR) d) i (set_op OP_LSR x) v) as Hs1.
  { split; try done. apply sized_modify; [|done]. simpl. rewrite Hp. congruence. }
  apply (shift_new_value_ok (modify i (set_op OP_LSR) d) i (set_op OP_LSR x) j y); try done.
  intros r Hr. destruct (cs_value _ _ _ _ r Hs1 Hr) as (Hn & _ & Hlt & _).
  destruct (inner_value _ i _ v j y w r Hs1) as (Wy & Hl & E); try done. rewrite Ely in E. simpl in *. split_and!; try done; try lia.
  rewrite E. by apply lsr_lsr; try lia.
Qed.

(** The operand is an arithmetic shift: the shifts add up, to the sign at most. *)
Lemma asr_of_asr d i x v j y w : const_shift d i x v -> op x = OP_ASR -> src1 x = REG j -> computes d j y -> j <> i ->
  op y = OP_ASR -> size y = size x -> src2 y = VAL w -> u64 w <> 0 ->
  sound d (shift_new_value i (size x) (if size x <=? v + u64 w then size x - 1 else v + u64 w) y d).2.
Proof.
  intros Hs Ho Hp Hy Hne Eay Hsy Hw Hz. pose proof Hs as [Hwf Hc Hsh H2 Hsz].
  assert (shifts (op y) = true) as Hshy by (by rewrite Eay).
  apply (shift_new_value_ok d i x j); try done. intros r Hr. destruct (cs_value _ _ _ _ r Hs Hr) as (Hn & _ & Hlt & _).
  destruct (inner_value d i x v j y w r) as (W & Hl & E); try done. rewrite Eay, Ho in *. rewrite asr_asr in E by (done || lia).
  unfold good_size in Hn. destruct (Z.leb_spec (size x) (v + u64 w)).
  - destruct (Z.ltb_spec (size x - 1) (size x)); [|lia]. split_and!; try done; lia.
  - destruct (Z.ltb_spec (v + u64 w) (size x)); [|lia]. split_and!; try done; lia.
Qed.

(** The operand is an extension by zeros: the sign is 0. *)
Lemma asr_of_zext d i x v j y : const_shift d i x v -> op x = OP_ASR -> src1 x = REG j -> computes d j y -> op y = OP_ZEXT ->
  size y = size x -> sound d (modify i (set_op OP_LSR) d).
Proof.
  intros Hs Ho Hp Hy Hoy Hsy. pose proof Hs as [Hwf Hc Hsh H2 Hsz]. apply (change_sound d i x); try done; [by apply (asr_changes d i x v)|].
  intros r Hr. destruct (cs_value _ _ _ _ r Hs Hr) as (Hn & W & Hlt & Ev & E). destruct (zext_value d j y r Hy Hoy Hr) as (Gm & Hl & Wj & _).
  apply holds_shift; [done|]. simpl. rewrite H2. simpl. rewrite Ev. split_and!; try done; try lia. rewrite E, Ho, Hp in *. simpl in *.
  assert (2 ^ itype y <= 2 ^ (size x - 1)) by (apply Z.pow_le_mono_r; unfold good_size in *; lia).
  rewrite (scast_nonneg_small (size x)) by (done || unfold within in *; lia). apply ucast_id. rewrite Z.shiftr_div_pow2 by lia. by apply within_div; [|lia].
Qed.

Lemma simplify_asr_sound d i x v : const_shift d i x v -> op x = OP_ASR -> sound d (simplify_asr i (src1 x) v d).2.
Proof.
  intros Hs Ho. pose proof Hs as [Hwf Hc Hsh H2 Hsz]. unfold simplify_asr. rewrite (at_computes _ _ _ Hc).
  destruct (size x <=? v); [by apply sound_refl|]. destruct (def_of d (src1 x)) as [[j y]|] eqn:Hd; [|by apply sound_refl].
  assert (size y = size x) as Hsy by (by apply (Hsz j y)).
  destruct (is_value_op (op y)) eqn:Hv; [|destruct (op y); first [done|by apply sound_refl]].
  destruct (def_computes d i (src1 x) j y Hwf) as (Hp & Hy & Hne); [by apply below_src1|done|done|].
  destruct (op y) eqn:Hoy; try (by apply sound_refl); try done; [| |by apply (asr_of_zext d i x v j y)];
    (destruct (j =? i); [by apply sound_refl|]); destruct (src2 y) as [| | | | | |w] eqn:Hw; try (by apply sound_refl);
    (destruct (_ || _) eqn:Hz; [by apply sound_refl|]); apply orb_false_iff in Hz as [_ Hz%Z.eqb_neq].
  - by apply (asr_of_lsr d i x v j y w).
  - by apply (asr_of_asr d i x v j y w).
Qed.

(** A shift of a masked value. *)
Lemma masked_value d i x v j y m r : const_shift d i x v -> src1 x = REG j -> computes d j y -> size y = size x -> op y = OP_AND ->
  src2 y = VAL m -> sat r d ->
  within (size x) (val r (src1 y)) /\ within (size x) (u64 m) /\ r i = shift_val (op x) (size x) (Z.land (val r (src1 y)) (u64 m)) v.
Proof.
  intros Hs Hp Hy Hsy Hoy Hm Hr. destruct (cs_value _ _ _ _ r Hs Hr) as (Hn & W & Hlt & Ev & E). rewrite Hp in E. simpl in E.
  apply (sat_computes r) in Hy as [Ht Hsem]; [|done]. unfold typed, sem in *. rewrite Hoy, Hm, Hsy in *. simpl in *. apply (inj Some) in Hsem.
  rewrite E, <- Hsem. tauto.
Qed.

(** (p & M) >> C becomes (p >> C) & (M >> C). *)
Lemma lsr_and_swap_sound d i x v j y m : const_shift d i x v -> op x = OP_LSR -> src1 x = REG j -> computes d j y -> size y = size x ->
  op y = OP_AND -> src2 y = VAL m -> one_use d (REG j) = true ->
  sound d (modify i (fun x => set_src2 (value_pseudo (Z.shiftr (u64 m) v)) (set_op OP_AND x)) (modify j (fun y => set_src2 (src2 x) (set_op OP_LSR y)) d)).
Proof.
  intros Hs Ho Hp Hy Hsy Hoy Hm Hu. pose proof Hs as [Hwf Hc Hsh H2 Hsz].
  assert (below d i (REG j)) as Hb by (rewrite <- Hp; by apply below_src1).
  assert (i <> j) as Hne by (intros ->; by apply (below_not_self d j)).
  assert (is_s64 v) as Hv by (by eapply cs_s64).
  assert (src1 y <> REG j) as Hyj by (intros E; apply (below_not_self d j Hwf); rewrite <- E; by apply below_src1).
  apply (inner_sound d i x _ j y); try done.
  - apply (one_use_user d j i x); [done|apply Hc|]. rewrite operands_2, Hp by (by rewrite Ho). left.
  - split; [apply Hc|done|]. intros q Hin. rewrite operands_2 in Hin by done. elems Hin; [by apply below_src1|apply below_value, s64_range].
  - split; [apply Hy|done|]. intros q Hin. rewrite operands_2 in Hin by done. elems Hin; [apply below_trans with j; [done|by apply below_src1]|].
    rewrite H2. by apply below_value.
  - rewrite operands_2 by done. simpl. rewrite H2, !elem_of_cons, elem_of_nil. intuition congruence.
  - intros r Hr. destruct (cs_value _ _ _ _ r Hs Hr) as (Hn & _ & Hlt & Ev & _). pose proof (good_nonneg _ Hn).
    destruct (masked_value d i x v j y m r) as (W & Wm & E); try done. rewrite Ho, lsr_land in E by lia.
    exists (shift_val OP_LSR (size x) (val r (src1 y)) v).
    assert (within (size x) (Z.shiftr (u64 m) v)) as Wm' by (rewrite Z.shiftr_div_pow2 by lia; apply within_div; [done|lia]).
    split.
    + apply holds_shift; [done|]. simpl. rewrite H2, val_set_reg, set_reg_eq, Hsy by done. simpl. rewrite Ev. split_and!; done || lia.
    + apply holds_fold; [done|]. simpl. rewrite Hp. simpl. rewrite set_reg_eq, set_reg_ne, u64_s64, (u64_within (size x)) by done.
      assert (within (size x) (Z.shiftr (val r (src1 y)) v)) as Wy' by (rewrite Z.shiftr_div_pow2 by lia; apply within_div; [done|lia]).
      split_and!; try done. rewrite E. simpl. symmetry. apply ucast_id, within_land; [done|done|apply Wm'].
Qed.

Lemma or_context d i x v k y : const_shift d i x v -> op x = OP_LSR \/ op x = OP_SHL -> def_of d (src1 x) = Some (k, y) -> op y = OP_OR ->
  (forall k y, def_of d (src1 x) = Some (k, y) -> op y = OP_OR -> sized d (src1 y) (size y) /\ sized d (src2 y) (size y)) ->
  ok d (simplify_mask_shift_or i k (bits_mask (size x)) d).
Proof.
  intros Hs Ho Hd Hoy Hsz2. pose proof (cs_s64 _ _ _ _ Hs) as Hv. pose proof Hs as [Hwf Hc Hsh H2 Hsz].
  destruct (def_computes d i (src1 x) k y Hwf) as (Hp & Hy & Hne); [by apply below_src1|done|by rewrite Hoy|].
  destruct (Hsz2 k y Hd Hoy) as [S1 S2]. pose proof (Hsz k y Hd) as Hsy. rewrite Hsy in S1, S2.
  apply (simplify_mask_shift_or_ok d i i x v _ k y); try done; [by apply shift_ctx|]. split; auto.
Qed.

(** The width that a shift to the right can see: the size, or that of a value that was extended. *)
Lemma operand_size_def d x j y : def_of d (src1 x) = Some (j, y) -> op y <> OP_ZEXT -> operand_size d x (src1 x) = size x.
Proof.
  intros Hd Ho. unfold operand_size. destruct (src1 x) as [| | |k| | |] eqn:Hp; try done. rewrite Hd. unfold oeq. by rewrite bool_decide_eq_false_2.
Qed.

Lemma operand_size_zero d i x v : const_shift d i x v -> op x = OP_LSR -> constant (src1 x) = false -> operand_size d x (src1 x) <= v ->
  ok d (replace_with_value i 0 d).
Proof.
  intros Hs Ho Hk Hle. pose proof Hs as [Hwf Hc Hsh H2 Hsz]. apply (replace_with_value_ok d i x); [done|done|]. intros r Hr.
  destruct (cs_value _ _ _ _ r Hs Hr) as (Hn & W & Hlt & Ev & ->). rewrite Ho. change (u64 0) with 0. symmetry.
  assert (operand_size d x (src1 x) = size x \/ exists j y, def_of d (src1 x) = Some (j, y) /\ op y = OP_ZEXT /\ operand_size d x (src1 x) = itype y) as [E|(j & y & Hd & Hoy & E)].
  { unfold operand_size. destruct (src1 x) as [| | |k| | |]; try (by left). destruct (def_of d (REG k)) as [[j y]|] eqn:Hd; auto.
    destruct (oeq (op y) OP_ZEXT && (orig_type y <? size x)) eqn:E; auto. apply andb_true_iff in E as [E%bool_decide_eq_true _]. right. exists j, y. auto. }
  - lia.
  - destruct (def_computes d i (src1 x) j y Hwf) as (Hp & Hy & Hne); [by apply below_src1|done|by rewrite Hoy|].
    destruct (zext_value d j y r Hy Hoy Hr) as (Gm & Hl & Wj & _). rewrite Hp. simpl. rewrite Z.shiftr_div_pow2 by lia. apply Z.div_small.
    assert (2 ^ itype y <= 2 ^ v) by (apply Z.pow_le_mono_r; lia). unfold within in Wj. lia.
Qed.

Definition or_sized (d : dag) (x : insn) : Prop :=
  forall k y, def_of d (src1 x) = Some (k, y) -> op y = OP_OR -> sized d (src1 y) (size y) /\ sized d (src2 y) (size y).

Lemma simplify_lsr_ok d i x v : const_shift d i x v -> op x = OP_LSR -> constant (src1 x) = false -> or_sized d x ->
  ok d (simplify_lsr i (src1 x) v d).
Proof.
  intros Hs Ho Hk Hor. pose proof Hs as [Hwf Hc Hsh H2 Hsz]. unfold simplify_lsr. rewrite (at_computes _ _ _ Hc).
  destruct (Z.leb_spec (operand_size d x (src1 x)) v) as [Hle|Hgt]; [by eapply operand_size_zero|]. clear Hgt.
  destruct (def_of d (src1 x)) as [[j y]|] eqn:Hd; [|same]. assert (size y = size x) as Hsy by (by apply (Hsz j y)).
  destruct (is_value_op (op y)) eqn:Hv; [|destruct (op y); first [done|same]].
  destruct (def_computes d i (src1 x) j y Hwf) as (Hp & Hy & Hne); [by apply below_src1|done|done|].
  destruct (op y) eqn:Hoy; try same; rewrite ?(operand_size_def d x j y) by (done || congruence).
  - apply (shift_shift_ok d i x v j y); try done; [congruence|by left].
  - destruct (peq (src2 y) (src2 x)) eqn:E; [|same]. apply peq_true in E. rewrite H2 in E.
    apply (shift_replace_mask_ok d i x j y); try done. intros r Hr. destruct (cs_value _ _ _ _ r Hs Hr) as (Hn & _ & Hlt & Ev & _).
    destruct (inner_value d i x v j y v r) as (W & Hl & E2); try done; [by rewrite Hoy|]. rewrite Ev, Ho, Hoy, lsr_shl in E2 by done.
    split_and!; try done. assert (good_size (size x - v)) as Hg by (unfold good_size in *; lia). rewrite bits_mask_eq by done.
    assert (2 ^ (size x - v) <= 2 ^ size x) by (apply Z.pow_le_mono_r; lia). pose proof (pow_le_two64 _ Hg). unfold within. lia.
  - destruct (constant (src2 y)) eqn:Hcm; [|same]. apply constant_inv in Hcm as [m Hm]. rewrite Hm. simpl.
    assert (forall r, sat r d -> (good_size (size x) /\ 0 <= v < size x) /\ within (size x) (val r (src1 y)) /\ within (size x) (u64 m) /\
      r i = shift_val OP_LSR (size x) (Z.land (val r (src1 y)) (u64 m)) v) as Hval.
    { intros r Hr. destruct (cs_value _ _ _ _ r Hs Hr) as (Hn & _ & Hlt & Ev & _).
      destruct (masked_value d i x v j y m r) as (W & Wm & E); try done. by rewrite Ho in E. }
    destruct (Z.eqb_spec (Z.land (u64 m) (u64 (Z.shiftl (bits_mask (size x - v)) v))) 0) as [E0|_].
    { apply (replace_with_value_ok d i x); [done|done|]. intros r Hr. destruct (Hval r Hr) as ([Hn Hlt] & W & Wm & ->).
      symmetry. by apply (lsr_masked (size x) _ _ v false); try done; apply Wm. }
    destruct (Z.eqb_spec (Z.land (u64 m) (u64 (Z.shiftl (bits_mask (size x - v)) v))) (u64 (Z.shiftl (bits_mask (size x - v)) v))) as [E1|_].
    { apply (replace_pseudo_ok d i x); try done.
      - split; [apply Hc|apply Hc|]. intros q Hin. rewrite operands_2 in Hin by (simpl; by rewrite Ho). elems Hin.
        + apply below_trans with j; [rewrite <- Hp; by apply below_src1|by apply below_src1].
        + apply below_src2; [done|by rewrite Ho].
      - intros r Hr. destruct (Hval r Hr) as ([Hn Hlt] & W & Wm & E). destruct (cs_value _ _ _ _ r Hs Hr) as (_ & _ & _ & Ev & _).
        apply holds_shift; [simpl; by rewrite Ho|]. simpl. rewrite H2. simpl. rewrite Ev, Ho. split_and!; try done; try lia.
        rewrite E. by apply (lsr_masked (size x) _ _ v true); try done; apply Wm. }
    rewrite Hp. destruct (one_use d (REG j)) eqn:Hu; [|same]. simpl. apply ok_changed. by apply (lsr_and_swap_sound d i x v j y m).
  - apply (or_context d i x v j y); try done; by left.
Qed.

Lemma simplify_shl_ok d i x v : const_shift d i x v -> op x = OP_SHL -> or_sized d x -> ok d (simplify_shl i (src1 x) v d).
Proof.
  intros Hs Ho Hor. pose proof Hs as [Hwf Hc Hsh H2 Hsz]. unfold simplify_shl. rewrite (at_computes _ _ _ Hc).
  destruct (Z.leb_spec (size x) v) as [Hle|_].
  { apply (replace_with_value_ok d i x); [done|done|]. intros r Hr. destruct (cs_value _ _ _ _ r Hs Hr) as (Hn & _ & Hlt & Ev & _). lia. }
  destruct (def_of d (src1 x)) as [[j y]|] eqn:Hd; [|same]. assert (size y = size x) as Hsy by (by apply (Hsz j y)).
  destruct (is_value_op (op y)) eqn:Hv; [|destruct (op y); first [done|same]].
  destruct (def_computes d i (src1 x) j y Hwf) as (Hp & Hy & Hne); [by apply below_src1|done|done|].
  destruct (op y) eqn:Hoy; try same.
  - destruct (peq (src2 y) (src2 x)) eqn:E; [|same]. apply peq_true in E. rewrite H2 in E.
    apply (shift_replace_mask_ok d i x j y); try done. intros r Hr. destruct (cs_value _ _ _ _ r Hs Hr) as (Hn & _ & Hlt & Ev & _).
    destruct (inner_value d i x v j y v r) as (W & Hl & E2); try done; [by rewrite Hoy|]. rewrite Ev, Ho, Hoy, shl_lsr in E2 by done.
    split_and!; try done. apply within_of_bits; [by apply good_nonneg|apply u64_range|]. intros k Hk'. pose proof (good_nonneg _ Hn).
    rewrite high_mask_bit by (done || lia). apply andb_false_iff. right. lia.
  - apply (shift_shift_ok d i x v j y); try done; [congruence|by right].
  - destruct (constant (src2 y)) eqn:Hcm; [|same]. apply constant_inv in Hcm as [m Hm]. rewrite Hm. simpl.
    assert (forall r, sat r d -> (good_size (size x) /\ 0 <= v < size x) /\ within (size x) (val r (src1 y)) /\ within (size x) (u64 m) /\
      r i = shift_val OP_SHL (size x) (Z.land (val r (src1 y)) (u64 m)) v) as Hval.
    { intros r Hr. destruct (cs_value _ _ _ _ r Hs Hr) as (Hn & _ & Hlt & Ev & _).
      destruct (masked_value d i x v j y m r) as (W & Wm & E); try done. by rewrite Ho in E. }
    destruct (Z.eqb_spec (Z.land (u64 m) (Z.shiftr (bits_mask (size x)) v)) 0) as [E0|_].
    { apply (replace_with_value_ok d i x); [done|done|]. intros r Hr. destruct (Hval r Hr) as ([Hn Hlt] & W & Wm & ->).
      symmetry. by apply (shl_masked (size x) _ _ v false); try done; apply Wm. }
    destruct (Z.eqb_spec (Z.land (u64 m) (Z.shiftr (bits_mask (size x)) v)) (Z.shiftr (bits_mask (size x)) v)) as [E1|_]; [|same].
    apply (replace_pseudo_ok d i x); try done.
    + split; [apply Hc|apply Hc|]. intros q Hin. rewrite operands_2 in Hin by (simpl; by rewrite Ho). elems Hin.
      * apply below_trans with j; [rewrite <- Hp; by apply below_src1|by apply below_src1].
      * apply below_src2; [done|by rewrite Ho].
    + intros r Hr. destruct (Hval r Hr) as ([Hn Hlt] & W & Wm & E). destruct (cs_value _ _ _ _ r Hs Hr) as (_ & _ & _ & Ev & _).
      apply holds_shift; [simpl; by rewrite Ho|]. simpl. rewrite H2. simpl. rewrite Ev, Ho. split_and!; try done; try lia.
      rewrite E. by apply (shl_masked (size x) _ _ v true); try done; apply Wm.
  - apply (or_context d i x v j y); try done; by right.
Qed.

(** ** simplify_shift() *)

Lemma shift_zero o n a : good_size n -> within n a -> shifts o = true -> shift_val o n a 0 = a.
Proof.
  intros Hn Ha Ho. destruct o; try done; simpl.
  - rewrite Z.shiftr_0_r, ucast_scast. by apply ucast_id.
  - rewrite Z.shiftl_0_r. by apply ucast_id.
Qed.

(** An instruction without a value in any valuation can become anything. *)
Lemma undefined_sound d i x f : wf d -> computes d i x -> changes d i f x -> (forall r, ~ sat r d) -> sound d (modify i f d).
Proof. intros Hwf Hc Hch Hn. apply (change_sound d i x f); try done. intros r Hr. by destruct (Hn r). Qed.

Lemma changes_tainted d i x : computes d i x -> changes d i set_tainted x.
Proof. intros Hc. split; [apply Hc|apply Hc|]. intros p Hp. by apply (below_of d i x). Qed.

Lemma check_shift_count_sound d i x v : const_shift d i x v ->
  let res := check_shift_count i v d in
  res = (-1, d) \/ res = (v, d) /\ u64 v < size x \/ res.1 = -1 /\ sound d res.2.
Proof.
  intros Hs. pose proof Hs as [Hwf Hc Hsh H2 Hsz]. unfold check_shift_count. rewrite (at_computes _ _ _ Hc). destruct (tainted x); [by left|].
  destruct (Z.ltb_spec (u64 v) (size x)) as [Hlt|Hge]; [by right; left|]. right. right. simpl. split; [done|].
  assert (forall r, ~ sat r d) as Hn by (intros r Hr; destruct (cs_value _ _ _ _ r Hs Hr) as (_ & _ & Hl & Ev & _); lia).
  assert (changes d i (fun z => set_src2 (value_pseudo (sign_extend_safe (sign_extend_safe v (size x)) bits_in_int)) (set_tainted z)) x) as Hch.
  { split; [apply Hc|apply Hc|]. intros p Hp. rewrite operands_2 in Hp by (simpl; by destruct (op x)). elems Hp; [by apply below_src1|apply below_value, s64_range]. }
  destruct (_ <? 0); [rewrite modify_modify|]; apply (undefined_sound d i x); try done. by apply changes_tainted.
Qed.

Lemma simplify_shift_sound d i x v : const_shift d i x v -> constant (src1 x) = false -> or_sized d x ->
  sound d (simplify_shift i (src1 x) v d).2.
Proof.
  intros Hs Hk Hor. pose proof Hs as [Hwf Hc Hsh H2 Hsz]. unfold simplify_shift. destruct (Z.eqb_spec v 0) as [-> |_].
  { apply (replace_with_pseudo_ok i x); [done|done|by apply below_src1|]. intros r Hr.
    destruct (cs_value _ _ _ _ r Hs Hr) as (Hn & W & _ & _ & ->). symmetry. by apply shift_zero. }
  destruct (check_shift_count_sound d i x v Hs) as [-> |[[-> Hlt]|[Hrc Hs']]].
  - simpl. by apply sound_refl.
  - destruct (v <? 0); [by apply sound_refl|]. rewrite (at_computes _ _ _ Hc). destruct (op x) eqn:Ho; try (by apply sound_refl).
    + by apply simplify_lsr_ok.
    + by apply simplify_asr_sound.
    + by apply simplify_shl_ok.
  - destruct (check_shift_count i v d) as [rc d']. simpl in *. by subst rc.
Qed.

(** ** simplify_constant_mask() *)

(** A mask on a value of [o] bits. *)
Lemma oldsize_ok d i x v o : wf d -> computes d i x -> op x = OP_AND -> src2 x = VAL v ->
  (forall r, sat r d -> good_size o /\ o < 64 /\ within o (val r (src1 x))) ->
  let omask := u64 (Z.shiftl 1 o - 1) in let nmask := Z.land (u64 v) omask in
  ok d (if nmask =? omask then replace_with_pseudo i (src1 x) d
        else if negb (nmask =? u64 v) then (REPEAT_CSE, modify i (set_src2 (value_pseudo nmask)) d) else (0, d)).
Proof.
  intros Hwf Hc Ho H2 Hv omask nmask.
  assert (forall r, sat r d -> good_size (size x) /\ within (size x) (val r (src1 x)) /\ within (size x) (u64 v) /\
    r i = Z.land (val r (src1 x)) (u64 v) /\ Z.land (val r (src1 x)) omask = val r (src1 x) /\ 0 <= omask) as Hval.
  { intros r Hr. destruct (Hv r Hr) as (Go & H64 & Wo). apply (sat_computes r) in Hc as [Ht Hsem]; [|done]. unfold typed, sem in *. rewrite Ho, H2 in *.
    simpl in *. apply (inj Some) in Hsem. destruct Ht as (Hn & W1 & W2). split_and!; try done; [|apply u64_range].
    assert (omask = Z.ones o) as ->; [|rewrite Z.land_ones by (by apply good_nonneg); by apply ucast_id].
    subst omask. pose proof (pow_le_two64 o Go). rewrite Z.shiftl_1_l, u64_small by (unfold is_u64; lia). rewrite Z.ones_equiv. lia. }
  destruct (Z.eqb_spec nmask omask) as [E|_].
  - apply (replace_with_pseudo_ok i x); [done|done|by apply below_src1|]. intros r Hr. destruct (Hval r Hr) as (_ & _ & _ & -> & Em & _).
    rewrite <- Em at 2. rewrite <- Z.land_assoc, (Z.land_comm omask). change (Z.land (u64 v) omask) with nmask. by rewrite E, Em.
  - destruct (Z.eqb_spec nmask (u64 v)) as [_|_]; simpl; [same|]. apply (change_ok d i x); [done|done| |].
    + split; [apply Hc|simpl; by rewrite Ho|]. intros p Hin. rewrite operands_2 in Hin by (simpl; by rewrite Ho). elems Hin; [by apply below_src1|apply below_value, s64_range].
    + intros r Hr. destruct (Hval r Hr) as (Hn & W1 & W2 & Ei & Em & Hom). pose proof (good_nonneg _ Hn).
      assert (within (size x) nmask) as Wn by (by apply within_land).
      apply holds_fold; [simpl; by rewrite Ho|]. simpl. rewrite u64_s64, (u64_within (size x)), Ho by done. simpl. split_and!; try done.
      assert (Z.land (val r (src1 x)) nmask = r i) as ->.
      { subst nmask. rewrite Ei, (Z.land_comm (u64 v)), Z.land_assoc. by rewrite Em. }
      symmetry. apply ucast_id. rewrite Ei. apply within_land; [done|done|apply W2].
Qed.

Lemma simplify_constant_mask_ok d i x v : wf d -> computes d i x -> op x = OP_AND -> src2 x = VAL v -> sized d (src1 x) (size x) ->
  (forall j y, def_of d (src1 x) = Some (j, y) -> op y = OP_OR \/ shifts (op y) = true -> sized d (src1 y) (size y) /\
    (op y = OP_OR -> sized d (src2 y) (size y)) /\ or_sized d y) ->
  ok d (simplify_constant_mask i (u64 v) d).
Proof.
  intros Hwf Hc Ho H2 Hsz Hdeep. unfold simplify_constant_mask. rewrite (at_computes _ _ _ Hc).
  destruct (def_of d (src1 x)) as [[j y]|] eqn:Hd; [|same]. pose proof (Hsz j y Hd) as Hsy.
  destruct (is_value_op (op y)) eqn:Hv; [|destruct (op y); first [done|same]].
  destruct (def_computes d i (src1 x) j y Hwf) as (Hp & Hy & Hne); [by apply below_src1|done|done|].
  assert (one_operand x) as Hone by (right; rewrite Ho, H2; done).
  destruct (OPF_COMPARE (op y)) eqn:Hcy.
  - apply (oldsize_ok d i x v 1); try done. intros r Hr. split_and!; [unfold good_size; lia|lia|]. rewrite Hp. simpl.
    apply (sat_computes r) in Hy; [|done]. apply holds_cmp in Hy as (_ & _ & _ & ->); [|done]. apply within_b2z. lia.
  - destruct (op y) eqn:Hoy; try same.
    + destruct (Hdeep j y eq_refl) as (S1 & _ & S3); [rewrite Hoy; auto|].
      apply (simplify_mask_shift_ok d i x j y); try done; [rewrite Hsy; by apply and_ctx|by rewrite Hoy; left].
    + destruct (Hdeep j y eq_refl) as (S1 & _ & S3); [rewrite Hoy; auto|].
      apply (simplify_mask_shift_ok d i x j y); try done; [rewrite Hsy; by apply and_ctx|by rewrite Hoy; right].
    + destruct (Hdeep j y eq_refl) as (S1 & S2 & _); [auto|]. specialize (S2 Hoy). rewrite Hsy in S1, S2.
      apply (simplify_mask_or_ok d i i x (u64 v) (size x) j y); try done; [by apply and_ctx|]. split; auto.
    + apply (oldsize_ok d i x v (orig_type y)); try done. intros r Hr. destruct (zext_value d j y r Hy Hoy Hr) as (Gm & Hl & Wj & Gy).
      rewrite Hp. split_and!; try done. unfold orig_type, good_size in *. lia.
Qed.
End shift.
