(* ===== verification/SimplifyBinop.v ===== *)
(** * Binary operators: simplify_binop()

    The sizes that operands have, and the rules for operators with a constant operand put together. *)
From stdpp Require Import base option gmap list.
From S2P Require Import Prelude Bits Simplify SimplifyFacts SimplifyConst SimplifyRules SimplifyAlgebra SimplifyCompare SimplifyMask SimplifyShift.
#[local] Open Scope Z_scope.

(** ** Sizes of operands *)

Definition operand_fits (d : dag) (n : Z) (p : pseudo) : bool :=
  match p with
  | VAL v => u64 v <? 2 ^ n
  | p => match def_of d p with Some (_, y) => size y =? n | None => true end
  end.

(** Comparisons of the same value have the same type. *)
Definition same_compares (d : dag) (x : insn) : bool :=
  match def_of d (src1 x), def_of d (src2 x) with
  | Some (_, y), Some (_, z) => negb (OPF_COMPARE (op y) && OPF_COMPARE (op z) && peq (src1 y) (src1 z)) || (itype y =? itype z)
  | _, _ => true
  end.

Definition insn_sized (d : dag) (x : insn) : bool :=
  let both (n : Z) := operand_fits d n (src1 x) && operand_fits d n (src2 x) in
  match op x with
  | OP_BADOP | OP_OTHER _ => true
  | OP_ADD | OP_SUB | OP_MUL | OP_DIVU | OP_DIVS | OP_MODU | OP_MODS => both (size x)
  | OP_AND | OP_OR | OP_XOR => both (size x) && same_compares d x
  | OP_SHL | OP_LSR | OP_ASR | OP_NOT | OP_NEG | OP_UTPTR | OP_PTRTU | OP_SYMADDR => operand_fits d (size x) (src1 x)
  | OP_SET_EQ | OP_SET_NE => is_zero (src2 x) || both (itype x)
  | OP_SET_LT | OP_SET_LE | OP_SET_GE | OP_SET_GT | OP_SET_B | OP_SET_BE | OP_SET_AE | OP_SET_A => both (itype x)
  | OP_TRUNC | OP_ZEXT | OP_SEXT => operand_fits d (orig_type x) (src1 x)
  | OP_SEL => operand_fits d (size x) (src2 x) && operand_fits d (size x) (src3 x)
  end.

Definition well_sized (d : dag) : bool := forallb (fun ix : Z * insn => insn_sized d ix.2) (map_to_list (insns d)).

Lemma well_sized_at d i x : well_sized d = true -> insns d !! i = Some x -> insn_sized d x = true.
Proof.
  intros Hs Hx. unfold well_sized in Hs. rewrite forallb_forall in Hs. apply (Hs (i, x)). apply list_elem_of_In. by apply elem_of_map_to_list.
Qed.

Lemma fits_sized d n p : operand_fits d n p = true -> sized d p n.
Proof. unfold operand_fits. intros H j y Hd. destruct p; try done. rewrite Hd in H. by apply Z.eqb_eq. Qed.

Lemma fits_within d n v : operand_fits d n (VAL v) = true -> within n (u64 v).
Proof. simpl. intros H%Z.ltb_lt. pose proof (u64_range v). unfold within, is_u64 in *. lia. Qed.

(** A comparison of the kind that is wrong: p | C > C. *)
Definition above_or (i : Z) (d : dag) : bool :=
  let x := insn_at d i in
  match compare_bounds i (value_of (src2 x)) d, def_of d (src1 x) with
  | inr (_, d'), Some (_, y) =>
    oeq (op y) OP_OR && oeq (op (insn_at d' i)) OP_SET_A && constant (src2 y) &&
    (u64 (value_of (src2 y)) =? u64 (value_of (src2 (insn_at d' i))))
  | _, _ => false
  end.

Section binop.
Context `{At : Atoms}.

Lemma sized_two d i x : well_sized d = true -> computes d i x -> folds2 (op x) = true \/ op x = OP_SUB -> sized2 d x.
Proof.
  intros Hs Hc Ho. pose proof (well_sized_at d i x Hs (c_lookup _ _ _ Hc)) as H. unfold insn_sized in H.
  assert (operand_fits d (size x) (src1 x) = true /\ operand_fits d (size x) (src2 x) = true) as [H1 H2].
  { destruct (op x); first [by destruct Ho|by apply andb_true_iff|apply andb_true_iff in H as [H _]; by apply andb_true_iff]. }
  split; by apply fits_sized.
Qed.

Lemma sized_cmp d i x : well_sized d = true -> computes d i x -> OPF_COMPARE (op x) = true -> cmp_sized d x.
Proof.
  intros Hs Hc Ho. pose proof (well_sized_at d i x Hs (c_lookup _ _ _ Hc)) as H. unfold insn_sized in H. unfold cmp_sized.
  destruct (op x); try done; try (right; apply andb_true_iff in H as [? ?]; split; by apply fits_sized).
  all: apply orb_true_iff in H as [H%is_zero_val|[? ?]%andb_true_iff]; [left; by auto|right; split; by apply fits_sized].
Qed.

Lemma sized_shift d i x : well_sized d = true -> computes d i x -> shifts (op x) = true \/ op x = OP_NOT \/ op x = OP_NEG -> sized d (src1 x) (size x).
Proof.
  intros Hs Hc Ho. pose proof (well_sized_at d i x Hs (c_lookup _ _ _ Hc)) as H. unfold insn_sized in H.
  destruct (op x); try (by destruct Ho as [?|[?|?]]); by apply fits_sized.
Qed.

Lemma sized_or d p k y : well_sized d = true -> def_of d p = Some (k, y) -> op y = OP_OR -> sized d (src1 y) (size y) /\ sized d (src2 y) (size y).
Proof.
  intros Hs Hd Ho. destruct p; try done. simpl in Hd. apply fmap_Some in Hd as (z & Hz & [= -> ->]).
  pose proof (well_sized_at d nr z Hs Hz) as H. unfold insn_sized in H. rewrite Ho in H.
  apply andb_true_iff in H as [[? ?]%andb_true_iff _]. split; by apply fits_sized.
Qed.

Lemma sized_or_under d x : well_sized d = true -> or_sized d x.
Proof. intros Hs k y Hd Ho. by apply (sized_or d (src1 x) k). Qed.

(** ** A constant on the right *)

Lemma all_ones n v : is_s64 v -> good_size n -> within n (u64 v) -> Z.land v (s64 (bits_mask n)) = s64 (bits_mask n) -> u64 v = bits_mask n.
Proof.
  intros Hv Hn Hw H. apply (f_equal u64) in H. rewrite u64_land_s64, !u64_s64 in H.
  assert (u64 (bits_mask n) = bits_mask n) as E.
  { rewrite bits_mask_eq by done. apply u64_small. pose proof (pow_le_two64 n Hn). unfold is_u64. lia. }
  rewrite E, land_bits_mask, ucast_id in H by done. done.
Qed.

Lemma logical_ones o n a : good_size n -> within n a -> o = OP_OR \/ o = OP_XOR ->
  fold_val o a (bits_mask n) = if oeq o OP_OR then bits_mask n else ucast n (Z.lnot a).
Proof.
  intros Hn Ha Ho. pose proof (good_nonneg n Hn). apply Z.bits_inj'. intros k Hk. rewrite bits_mask_ones by done.
  pose proof (testbit_within n a k ltac:(done) Ha) as Hbig.
  destruct Ho as [-> | ->]; simpl; [rewrite Z.lor_spec|rewrite Z.lxor_spec, testbit_ucast, Z.lnot_spec by done];
    rewrite Z.testbit_ones by done; destruct (Z.leb_spec 0 k); try lia; destruct (Z.ltb_spec k n); simpl;
    rewrite ?orb_true_r, ?xorb_true_r, ?Hbig by lia; done.
Qed.

(** The operand that a logical operator does not change. *)
Lemma neutral_zero_ok d i x v : wf d -> computes d i x -> op x = OP_OR \/ op x = OP_XOR -> src2 x = VAL v ->
  ok d (if v =? 0 then replace_with_pseudo i (src1 x) d else (0, d)).
Proof.
  intros Hwf Hc Ho H2. destruct (Z.eqb_spec v 0) as [-> |_]; [|same].
  apply (replace_with_pseudo_ok i x); [done|done|by apply below_src1|]. intros r Hr.
  apply (sat_computes r) in Hc; [|done]. apply holds_fold in Hc as (Hn & W & _ & ->); [|by destruct Ho as [-> | ->]].
  rewrite H2. simpl. symmetry. destruct Ho as [-> | ->]; simpl; rewrite ?Z.lor_0_r, ?Z.lxor_0_r; by apply ucast_id.
Qed.

Lemma constant_logical_ok d i x v : wf d -> computes d i x -> op x = OP_OR \/ op x = OP_XOR -> src2 x = VAL v ->
  Z.land v (s64 (bits_mask (size x))) = s64 (bits_mask (size x)) ->
  ok d (if oeq (op x) OP_OR then replace_with_pseudo i (src2 x) d else (REPEAT_CSE, modify i (set_op OP_NOT) d)).
Proof.
  intros Hwf Hc Ho H2 H. assert (folds2 (op x) = true) as Hf by (by destruct Ho as [-> | ->]).
  assert (below d i (src2 x)) as Hb by (apply below_src2; [done|by apply arity_folds2]).
  assert (is_s64 v) as Hv by (by apply (below_s64 d i (src2 x))).
  assert (forall r, sat r d -> good_size (size x) /\ within (size x) (val r (src1 x)) /\ val r (src2 x) = bits_mask (size x) /\
    r i = if oeq (op x) OP_OR then bits_mask (size x) else ucast (size x) (Z.lnot (val r (src1 x)))) as Hval.
  { intros r Hr. apply (sat_computes r) in Hc; [|done]. apply holds_fold in Hc as (Hn & W1 & W2 & ->); [|done]. rewrite H2 in *. simpl in *.
    rewrite (all_ones (size x) v), logical_ones by done. split_and!; try done. destruct Ho as [-> | ->]; simpl; [|by rewrite ucast_ucast].
    rewrite bits_mask_eq by done. apply ucast_id. pose proof (pow_le_two64 _ Hn). unfold within. lia. }
  destruct (oeq (op x) OP_OR) eqn:E.
  - apply (replace_with_pseudo_ok i x); [done|done|done|]. intros r Hr. destruct (Hval r Hr) as (_ & _ & -> & ->). done.
  - apply (change_ok d i x); [done|done| |].
    + split; [apply Hc|done|]. intros p Hp. change (p ∈ [src1 x]) in Hp. elems Hp. by apply below_src1.
    + intros r Hr. destruct (Hval r Hr) as (Hn & W & _ & E2). split; [by split|]. unfold sem. simpl. by rewrite E2.
Qed.

Lemma constant_and_ok d i x v : wf d -> computes d i x -> op x = OP_AND -> src2 x = VAL v -> well_sized d = true ->
  ok d (if v =? 0 then replace_with_pseudo i (src2 x) d
        else if Z.land v (s64 (bits_mask (size x))) =? s64 (bits_mask (size x)) then replace_with_pseudo i (src1 x) d
        else simplify_constant_mask i (u64 v) d).
Proof.
  intros Hwf Hc Ho H2 Hs. assert (arity (op x) = 2) as Ha by (by rewrite Ho).
  assert (is_s64 v) as Hv by (apply (below_s64 d i (src2 x)); [done|by apply below_src2|done]).
  assert (forall r, sat r d -> good_size (size x) /\ within (size x) (val r (src1 x)) /\ within (size x) (u64 v) /\ r i = Z.land (val r (src1 x)) (u64 v)) as Hval.
  { intros r Hr. apply (sat_computes r) in Hc as [Ht Hsem]; [|done]. unfold typed, sem in *. rewrite Ho, H2 in *. simpl in *.
    apply (inj Some) in Hsem. destruct Ht as (? & ? & ?). by split_and!. }
  destruct (Z.eqb_spec v 0) as [-> |_].
  { apply (replace_with_pseudo_ok i x); [done|done|by apply below_src2|]. intros r Hr. destruct (Hval r Hr) as (_ & _ & _ & ->).
    rewrite H2. simpl. by rewrite Z.land_0_r. }
  destruct (Z.eqb_spec (Z.land v (s64 (bits_mask (size x)))) (s64 (bits_mask (size x)))) as [E|_].
  { apply (replace_with_pseudo_ok i x); [done|done|by apply below_src1|]. intros r Hr. destruct (Hval r Hr) as (Hn & W1 & W2 & ->).
    rewrite (all_ones (size x) v), land_bits_mask by done. symmetry. by apply ucast_id. }
  apply (simplify_constant_mask_ok d i x v); try done.
  - apply (sized_two d i x); try done. left. by rewrite Ho.
  - intros j y Hd Hoy. destruct (src1 x) as [| | |k| | |] eqn:Hk; try done. simpl in Hd. apply fmap_Some in Hd as (z & Hz & [= -> ->]).
    assert (def_of d (REG k) = Some (k, z)) as Hdk by (simpl; by rewrite Hz).
    split_and!; [|intros Hor; by apply (sized_or d (REG k) k z)|by apply sized_or_under].
    destruct Hoy as [Hor|Hsh]; [by apply (sized_or d (REG k) k z)|].
    apply (sized_shift d k z); [done| |by left]. split; [done| |by destruct (op z)].
    apply (below_live d i (REG k) Hwf) with (j := k); try done. rewrite <- Hk. by apply below_src1.
Qed.

Lemma mod_one_ok d i x v : wf d -> computes d i x -> op x = OP_MODU \/ op x = OP_MODS -> src2 x = VAL v ->
  ok d (if v =? 1 then replace_with_value i 0 d else (0, d)).
Proof.
  intros Hwf Hc Ho H2. destruct (Z.eqb_spec v 1) as [-> |_]; [|same].
  apply (replace_with_value_ok d i x); [done|done|]. intros r Hr. apply (sat_computes r) in Hc as [Ht Hsem]; [|done].
  unfold typed, sem in *. rewrite H2 in *. change (val r (VAL 1)) with 1 in *. destruct Ho as [Ho|Ho]; rewrite Ho in *; cbv beta iota in *.
  - rewrite Z.mod_1_r in Hsem. by injection Hsem as <-.
  - destruct (_ || _) eqn:E; [done|]. injection Hsem as <-. destruct Ht as (Hn & _ & _).
    destruct (Z.eqb_spec (size x) 1) as [E1|Hne].
    + rewrite E1. change (scast 1 1) with (-1). by rewrite <- Z.rem_opp_r', Z.rem_1_r.
    + rewrite (scast_nonneg_small (size x) 1), Z.rem_1_r; [done|done|]. split; [lia|]. apply (Z.pow_gt_1 2 (size x - 1)); unfold good_size in Hn; lia.
Qed.

(** ** Comparisons with constants *)

(** A truncated value that is compared with 0 was changed already, if it has one user. *)
Lemma seteq_trunc d i x : computes d i x -> is_equality (op x) = true -> src2 x = VAL 0 -> (simplify_seteq_setne i 0 d).1 = 0 -> trunc_fits d x.
Proof.
  intros Hc Hq H2 H j y Hd Hoy. right. left. unfold simplify_seteq_setne in H. rewrite (at_computes _ _ _ Hc), Hd in H. simpl in H.
  assert (src1 x = REG j) as Hp by (destruct (src1 x); try done; simpl in Hd; by apply fmap_Some in Hd as (z & Hz & [= -> ->])).
  rewrite Hoy in H. destruct (_ && _) eqn:E in H.
  - exfalso. apply (replace_changes i x (src1 x) d Hc); [|done]. intros Hi. rewrite <- Hi in Hp. injection Hp as <-.
    rewrite <- Hi in Hd. simpl in Hd. rewrite (c_lookup _ _ _ Hc) in Hd. injection Hd as <-. by rewrite Hoy in Hq.
  - simpl in H. rewrite <- Hp. by destruct (one_use d (src1 x)).
Qed.

Lemma cmp_constant_fits d i x v : well_sized d = true -> computes d i x -> OPF_COMPARE (op x) = true -> src2 x = VAL v ->
  is_equality (op x) = false -> within (itype x) (u64 v).
Proof.
  intros Hs Hc Ho H2 Hq. pose proof (well_sized_at d i x Hs (c_lookup _ _ _ Hc)) as H. unfold insn_sized in H.
  apply (fits_within d). destruct (op x); try done; apply andb_true_iff in H as [_ H]; by rewrite H2 in H.
Qed.

Lemma not_above_or d i x v : computes d i x -> src2 x = VAL v -> above_or i d = false ->
  forall changed d' j y, compare_bounds i v d = inr (changed, d') -> def_of d (src1 x) = Some (j, y) ->
    or_above (insn_at d' i) y (value_of (src2 (insn_at d' i))).
Proof.
  intros Hc H2 H changed d' j y Hb Hd b Hoy Hb2 Ho. unfold above_or in H. rewrite (at_computes _ _ _ Hc), H2, Hd in H. simpl in H. rewrite Hb in H.
  rewrite Hoy, Ho, Hb2 in H. simpl in H. apply Z.eqb_neq in H. congruence.
Qed.

Lemma constant_compare_ok d i x v : wf d -> computes d i x -> OPF_COMPARE (op x) = true -> src2 x = VAL v -> well_sized d = true ->
  above_or i d = false -> trunc_fits d x -> ok d (simplify_compare_constant i v d).
Proof.
  intros Hwf Hc Ho H2 Hs Ha Ht. apply (simplify_compare_constant_ok d i x v); try done.
  - by apply (sized_cmp d i x).
  - intros Hq _. by apply (cmp_constant_fits d i x v).
  - by apply (not_above_or d i x v).
Qed.

Lemma trunc_other d x : is_equality (op x) = false -> trunc_fits d x.
Proof. intros H j y _ _. auto. Qed.

Lemma constant_equality_ok d i x v : wf d -> computes d i x -> is_equality (op x) = true -> src2 x = VAL v -> well_sized d = true ->
  above_or i d = false -> ok d (or_else (simplify_seteq_setne i v) (simplify_compare_constant i v) d).
Proof.
  intros Hwf Hc Hq H2 Hs Ha. pose proof (simplify_seteq_setne_ok d i x v Hwf Hc Hq H2) as H1. unfold or_else.
  destruct (simplify_seteq_setne i v d) as [rc d1] eqn:E. destruct (Z.eqb_spec rc 0) as [-> |_]; [|done].
  destruct H1 as [_ H1]. simpl in H1. rewrite H1 in E |- * by done. clear H1.
  assert (OPF_COMPARE (op x) = true) as Ho by (by destruct (op x)).
  apply (constant_compare_ok d i x v); try done. destruct (Z.eqb_spec v 0) as [-> |Hv].
  - apply (seteq_trunc d i x); try done. by rewrite E.
  - intros j y Hd _. left. destruct (sized_cmp d i x Hs Hc Ho) as [[_ Hz]|[Hz _]]; [congruence|by apply (Hz j y)].
Qed.

(** ** All of them *)

Lemma constant_rightside_ok d i x v : wf d -> computes d i x -> src2 x = VAL v -> OPF_BINOP (op x) = true -> shifts (op x) = false ->
  well_sized d = true -> (OPF_COMPARE (op x) = true -> above_or i d = false) -> ok d (simplify_constant_rightside i d).
Proof.
  intros Hwf Hc H2 Hb Hsh Hs Ha. unfold simplify_constant_rightside. rewrite (at_computes _ _ _ Hc), H2.
  change (value_of (VAL v)) with v. destruct (op x) eqn:Ho; try done;
    try solve [apply (constant_compare_ok d i x v); try done; [by rewrite Ho|by apply Ha|apply trunc_other; by rewrite Ho]].
  - apply (constant_rightadd_ok d i x v); try done; [by intros ->|]. apply (sized_two d i x); try done. left. by rewrite Ho.
  - apply (simplify_mul_div_ok d i x); auto.
  - apply (constant_rightsub_ok d i x v); try done. apply (sized_two d i x); auto.
  - apply (simplify_mul_div_ok d i x); auto.
  - apply (simplify_mul_div_ok d i x); auto.
  - apply (mod_one_ok d i x v); auto.
  - apply (mod_one_ok d i x v); auto.
  - rewrite <- H2. by apply (constant_and_ok d i x v).
  - destruct (Z.eqb_spec (Z.land v (s64 (bits_mask (size x)))) (s64 (bits_mask (size x)))) as [E|_].
    + pose proof (constant_logical_ok d i x v Hwf Hc) as H. rewrite Ho, H2 in H. by apply H; auto.
    + by apply (neutral_zero_ok d i x v); auto.
  - destruct (Z.eqb_spec (Z.land v (s64 (bits_mask (size x)))) (s64 (bits_mask (size x)))) as [E|_].
    + pose proof (constant_logical_ok d i x v Hwf Hc) as H. rewrite Ho in H. by apply H; auto.
    + by apply (neutral_zero_ok d i x v); auto.
  - apply (constant_equality_ok d i x v); try done; [by rewrite Ho|by apply Ha].
  - apply (constant_equality_ok d i x v); try done; [by rewrite Ho|by apply Ha].
Qed.

(** ** A shift stays one, if nothing changed *)

Lemma new_value_changes i x n value y d : computes d i x -> (shift_new_value i n value y d).1 <> 0.
Proof. intros Hc. unfold shift_new_value. destruct (value <? n); [done|by apply (value_changes i x)]. Qed.

Lemma computes_changed d i x f : computes d i x -> live (f x) -> is_value_op (op (f x)) = true -> computes (modify i f d) i (f x).
Proof. intros Hc Hl Ho. split; [|done|done]. by rewrite lookup_modify, (c_lookup _ _ _ Hc). Qed.

Lemma asr_same d i x p v : computes d i x -> (simplify_asr i p v d).1 = 0 -> (simplify_asr i p v d).2 = d.
Proof.
  intros Hc. unfold simplify_asr. rewrite (at_computes _ _ _ Hc). destruct (_ <=? v); [done|].
  assert (forall n w y, (shift_new_value i n w y (modify i (set_op OP_LSR) d)).1 <> 0) as Hlsr.
  { intros n w y. apply (new_value_changes i (set_op OP_LSR x)). apply computes_changed; [done|apply Hc|done]. }
  destruct (def_of d p) as [[j y]|]; [|done].
  destruct (op y); try done; (destruct (j =? i); [done|]); destruct (src2 y); try done; destruct (_ || _); try done; intros H; exfalso; revert H;
    first [apply Hlsr|by apply (new_value_changes i x)].
Qed.

Lemma shift_stays d i x v : const_shift d i x v -> constant (src1 x) = false -> or_sized d x ->
  (simplify_shift i (src1 x) v d).1 = 0 -> shifts (op (insn_at (simplify_shift i (src1 x) v d).2 i)) = true.
Proof.
  intros Hs Hk Hor. pose proof Hs as [Hwf Hc Hsh H2 Hsz]. unfold simplify_shift. destruct (v =? 0).
  { intros H. exfalso. revert H. apply (replace_changes i x); [done|]. intros E. apply (below_not_self d i Hwf). rewrite E. by apply below_src1. }
  unfold check_shift_count. rewrite (at_computes _ _ _ Hc). destruct (tainted x); [by intros _; simpl; rewrite (at_computes _ _ _ Hc)|].
  destruct (u64 v <? size x).
  - destruct (v <? 0); [by intros _; simpl; rewrite (at_computes _ _ _ Hc)|]. rewrite (at_computes _ _ _ Hc). destruct (op x) eqn:Ho; try done.
    + intros H. destruct (simplify_lsr_ok d i x v Hs Ho Hk Hor) as [_ E]. by rewrite (E H), (at_computes _ _ _ Hc), Ho.
    + intros H. by rewrite (asr_same d i x _ _ Hc H), (at_computes _ _ _ Hc), Ho.
    + intros H. destruct (simplify_shl_ok d i x v Hs Ho Hor) as [_ E]. by rewrite (E H), (at_computes _ _ _ Hc), Ho.
  - intros _. simpl. destruct (_ <? 0); [rewrite modify_modify|]; unfold insn_at; by rewrite lookup_modify, (c_lookup _ _ _ Hc).
Qed.

Lemma constant_shift_sound d i x v : wf d -> computes d i x -> src2 x = VAL v -> shifts (op x) = true -> constant (src1 x) = false ->
  well_sized d = true -> sound d (simplify_constant_rightside i d).2 /\
  ((simplify_constant_rightside i d).1 = 0 -> shifts (op (insn_at (simplify_constant_rightside i d).2 i)) = true).
Proof.
  intros Hwf Hc H2 Hsh Hk Hs. unfold simplify_constant_rightside. rewrite (at_computes _ _ _ Hc), H2. change (value_of (VAL v)) with v.
  assert (const_shift d i x v) as Hcs by (split; try done; apply (sized_shift d i x); auto).
  pose proof (sized_or_under d x Hs). destruct (op x); try done; (split; [by apply (simplify_shift_sound d i x v)|by apply (shift_stays d i x v)]).
Qed.

(** A shift may be marked when it is returned as unchanged. *)
Lemma simplify_binop_ok d i x : wf d -> computes d i x -> OPF_BINOP (op x) = true -> well_sized d = true ->
  (OPF_COMPARE (op x) = true -> constant (src2 x) = true -> above_or i d = false) ->
  if shifts (op x) then sound d (simplify_binop i d).2 /\ ((simplify_binop i d).1 = 0 -> shifts (op (insn_at (simplify_binop i d).2 i)) = true)
  else ok d (simplify_binop i d).
Proof.
  intros Hwf Hc Hb Hs Ha. unfold simplify_binop. rewrite (at_computes _ _ _ Hc).
  assert (forall res, ok d res -> if shifts (op x) then sound d res.2 /\ (res.1 = 0 -> shifts (op (insn_at res.2 i)) = true) else ok d res) as Hok.
  { intros res [H1 H2]. destruct (shifts (op x)) eqn:Hsh; [|done]. split; [done|]. intros H. by rewrite H2, (at_computes _ _ _ Hc). }
  destruct (constant (src1 x)) eqn:H1; [apply constant_inv in H1 as [v H1]|]; (destruct (constant (src2 x)) eqn:H2; [apply constant_inv in H2 as [w H2]|]).
  - by apply Hok, (simplify_constant_binop_ok d i x v w).
  - apply Hok, (simplify_constant_leftside_ok d i x v); try done. intros Ho. apply (sized_two d i x); auto.
  - destruct (shifts (op x)) eqn:Hsh; [by apply (constant_shift_sound d i x w)|apply (constant_rightside_ok d i x w); auto].
  - apply Hok. destruct (peq (src1 x) (src2 x)) eqn:E; [|same]. apply peq_true in E. by apply (simplify_binop_same_args_ok d i x).
Qed.
End binop.
