(* ===== verification/SimplifyCast.v ===== *)
(** * Casts: simplify_cast() *)
From stdpp Require Import base option gmap list.
From S2P Require Import Prelude Bits Simplify SimplifyFacts SimplifyConst SimplifyRules SimplifyAlgebra SimplifyCompare SimplifyMask SimplifyShift SimplifyBinop.
#[local] Open Scope Z_scope.

Definition is_cast (o : opcode) : bool := match o with OP_TRUNC | OP_ZEXT | OP_SEXT => true | _ => false end.

(** The value of a cast from [m] to [n] bits. *)
Definition cast_val (o : opcode) (n m a : Z) : Z :=
  match o with OP_TRUNC => ucast n a | OP_ZEXT => a | _ => ucast n (scast m a) end.

Definition cast_sizes (o : opcode) (n m : Z) : Prop := good_size n /\ good_size m /\ match o with OP_TRUNC => n < m | _ => m < n end.

(** The rules that are wrong: the sign of a comparison of one bit, and of a value whose sign is above an int. *)
Definition fragile_cast (d : dag) (x : insn) : bool :=
  match op x, def_of d (src1 x) with
  | OP_SEXT, Some (_, y) => (OPF_COMPARE (op y) && (orig_type x =? 1)) || (oeq (op y) OP_AND && (32 <? orig_type x))
  | _, _ => false
  end.

Section cast.
Context `{At : Atoms}.

Lemma holds_cast r i x : is_cast (op x) = true -> holds r i x <->
  cast_sizes (op x) (size x) (itype x) /\ within (itype x) (val r (src1 x)) /\ r i = cast_val (op x) (size x) (itype x) (val r (src1 x)).
Proof.
  intros Ho. unfold holds, typed, sem, cast_sizes. destruct (op x); try done; simpl; (split; [intros ((? & ? & ? & ?) & [= <-])|intros ((? & ? & ?) & ? & ->)]); tauto.
Qed.

Lemma operands_1 x : arity (op x) = 1 -> operands x = [src1 x].
Proof. unfold operands. by destruct (op x). Qed.

Lemma cast_arity o : is_cast o = true -> arity o = 1 /\ is_value_op o = true.
Proof. by destruct o. Qed.

(** ** Values *)

Lemma scast_bool m (b : bool) : good_size m -> m <> 1 -> scast m (Z.b2z b) = Z.b2z b.
Proof.
  intros Hm H1. apply scast_nonneg_small; [done|]. assert (1 < 2 ^ (m - 1)) by (apply Z.pow_gt_1; unfold good_size in Hm; lia). destruct b; simpl; lia.
Qed.

Lemma cast_bool o n m (b : bool) : is_cast o = true -> cast_sizes o n m -> (o = OP_SEXT -> m <> 1) -> cast_val o n m (Z.b2z b) = Z.b2z b.
Proof.
  intros Ho (Hn & Hm & _) H1. assert (within n (Z.b2z b)) by (apply within_b2z; unfold good_size in Hn; lia).
  destruct o; try done; simpl; [by apply ucast_id|]. rewrite scast_bool by auto. by apply ucast_id.
Qed.

Lemma ucast_ucast_le n m a : 0 <= n <= m -> ucast n (ucast m a) = ucast n a.
Proof.
  intros Hn. apply Z.bits_inj'. intros k Hk. rewrite !testbit_ucast by lia.
  destruct (Z.ltb_spec k n), (Z.ltb_spec k m); simpl; try done; lia.
Qed.

Lemma ucast_scast_le n m a : good_size n -> good_size m -> n <= m -> ucast n (scast m a) = ucast n a.
Proof.
  intros Hn Hm Hle. unfold good_size in *. rewrite <- (ucast_ucast_le n m), ucast_scast, ucast_ucast_le by lia. done.
Qed.

(** A truncated extension of [a], from [m] to [k] and to [n] bits. *)
Lemma trunc_ext o n k m a : o = OP_ZEXT \/ o = OP_SEXT -> good_size n -> good_size m -> good_size k -> n < k -> within m a ->
  ucast n (cast_val o k m a) = if n =? m then a else cast_val (if m <? n then o else OP_TRUNC) n m a.
Proof.
  intros Ho Hn Hm Hk Hlt Ha.
  assert (ucast n (cast_val o k m a) = if m <? n then cast_val o n m a else ucast n a) as ->.
  { destruct Ho as [-> | ->]; simpl; destruct (Z.ltb_spec m n); try done.
    - apply ucast_id. apply (within_mono m); [lia|done].
    - apply ucast_ucast_le. unfold good_size in *. lia.
    - rewrite ucast_ucast_le by (unfold good_size in *; lia). by apply ucast_scast_le. }
  destruct (Z.eqb_spec n m) as [-> |Hne]; [|by destruct (m <? n)]. rewrite Z.ltb_irrefl. by apply ucast_id.
Qed.

(** SEXT(TRUNC(LSR(p, n - m))) *)
Lemma sext_trunc_lsr n m p : good_size n -> good_size m -> m < n -> within n p ->
  ucast n (scast m (ucast m (shift_val OP_LSR n p (n - m)))) = shift_val OP_ASR n p (n - m).
Proof.
  intros Hn Hm Hlt Hp. pose proof (good_nonneg n Hn). pose proof (good_nonneg m Hm). rewrite scast_ucast by done. apply Z.bits_inj'. intros k Hk.
  rewrite testbit_ucast, testbit_scast, !testbit_shift by (done || unfold good_size in *; lia). bit.
  destruct (Z.ltb_spec k n); [|done]. cbn [andb]. f_equal. lia.
Qed.

Lemma ucast_land_mask m a : good_size m -> Z.land a (u64 (Z.shiftl 1 m - 1)) = ucast m a.
Proof.
  intros Hm. pose proof (pow_le_two64 m Hm). rewrite Z.shiftl_1_l, u64_small by (unfold is_u64; lia). rewrite <- bits_mask_eq by done.
  by apply land_bits_mask.
Qed.

(** ** The definition of the operand *)

(** A cast [i] of the value [j], whose size is the one that is cast from. *)
Record cast_of (d : dag) (i : Z) (x : insn) (j : Z) (y : insn) : Prop := {
  co_wf : wf d;
  co_x : computes d i x;
  co_y : computes d j y;
  co_op : is_cast (op x) = true;
  co_src : src1 x = REG j;
  co_size : size y = itype x
}.

Lemma co_below d i x j y : cast_of d i x j y -> below d i (REG j).
Proof. intros [Hwf Hc Hy Ho Hp Hs]. rewrite <- Hp. by apply below_src1. Qed.

Lemma co_value d i x j y r : cast_of d i x j y -> sat r d ->
  cast_sizes (op x) (size x) (size y) /\ within (size y) (r j) /\ r i = cast_val (op x) (size x) (size y) (r j).
Proof.
  intros [Hwf Hc Hy Ho Hp Hs] Hr. apply (sat_computes r) in Hc; [|done]. apply holds_cast in Hc; [|done]. by rewrite Hp, <- Hs in Hc.
Qed.

(** The cast becomes one of the operand of [y]. *)
Lemma recast_ok d i x j y f o m : cast_of d i x j y -> is_cast o = true ->
  set_src1 (src1 y) (f x) = set_src1 (src1 y) (set_itype m (set_op o x)) ->
  (forall r, sat r d -> cast_sizes o (size x) m /\ within m (val r (src1 y)) /\ r i = cast_val o (size x) m (val r (src1 y))) ->
  ok d (replace_pseudo i P1 (src1 y) (modify i f d)).
Proof.
  intros Hco Ho E Hv. pose proof Hco as [Hwf Hc Hy _ Hp _]. apply (change_replace_ok d i x); [done|done| |].
  - split; cbv beta; cbn [set]; rewrite E; [apply Hc|simpl; by apply cast_arity|]. intros p Hin. rewrite operands_1 in Hin by (simpl; by apply cast_arity). elems Hin.
    apply below_trans with j; [by apply (co_below d i x j y)|by apply below_src1].
  - intros r Hr. cbn [set]. rewrite E. apply holds_cast; [done|]. simpl. by apply Hv.
Qed.

Lemma cast_compare_ok d i x j y : cast_of d i x j y -> OPF_COMPARE (op y) = true -> (op x = OP_SEXT -> itype x <> 1) -> ok d (cast_compare i y d).
Proof.
  intros Hco Hcy H1. pose proof Hco as [Hwf Hc Hy Ho Hp Hs]. unfold cast_compare. rewrite (at_computes _ _ _ Hc).
  assert (ok d (replace_pseudo i P1 (src1 y) (modify i (fun x => set_src2 (src2 y) (set_itype (itype y) (set_op (op y) x))) d))) as H.
  { assert (arity (op y) = 2) as Ha by (by destruct (op y)). apply (change_replace_ok d i x); [done|done| |].
    - split; [apply Hc|by destruct (op y)|]. intros p Hin. rewrite operands_2 in Hin by done. pose proof (co_below d i x j y Hco).
      elems Hin; apply below_trans with j; try done; [by apply below_src1|by apply below_src2].
    - intros r Hr. destruct (co_value d i x j y r Hco Hr) as (Hsz & _ & E). apply (sat_computes r) in Hy; [|done].
      apply holds_cmp in Hy as (_ & Gy & Ty & Ej); [|done]. apply holds_cmp; [done|]. simpl. rewrite Ej, cast_bool in E; try done.
      + split_and!; try done; apply Hsz.
      + intros Hox. rewrite Hs. auto. }
  destruct (op x); try done. by destruct (size x =? 1); [same|].
Qed.

Lemma cast_trunc_ext_ok d i x j y : cast_of d i x j y -> op x = OP_TRUNC -> op y = OP_ZEXT \/ op y = OP_SEXT -> ok d (cast_trunc_ext i y d).
Proof.
  intros Hco Ho Hoy. pose proof Hco as [Hwf Hc Hy _ Hp Hs]. unfold cast_trunc_ext, orig_type. rewrite (at_computes _ _ _ Hc).
  assert (forall r, sat r d -> good_size (size x) /\ good_size (itype y) /\ within (itype y) (val r (src1 y)) /\
    r i = if size x =? itype y then val r (src1 y)
          else cast_val (if itype y <? size x then op y else OP_TRUNC) (size x) (itype y) (val r (src1 y))) as Hval.
  { intros r Hr. destruct (co_value d i x j y r Hco Hr) as (Hsz & _ & E). rewrite Ho in Hsz, E. destruct Hsz as (Gn & Gy & Hlt).
    apply (sat_computes r) in Hy; [|done]. apply holds_cast in Hy as ((_ & Gm & _) & W & Ej); [|by destruct Hoy as [-> | ->]].
    split_and!; try done. rewrite E, Ej. simpl. by rewrite trunc_ext. }
  destruct (Z.eqb_spec (size x) (itype y)) as [E|Hne].
  - apply (replace_with_pseudo_ok i x); [done|done| |intros r Hr; by destruct (Hval r Hr) as (_ & _ & _ & ->)].
    apply below_trans with j; [by apply (co_below d i x j y)|by apply below_src1].
  - apply (recast_ok d i x j y _ (if itype y <? size x then op y else OP_TRUNC) (itype y)); try done.
    + destruct (itype y <? size x); [by destruct Hoy as [-> | ->]|done].
    + simpl. destruct (itype y <? size x); [done|]. destruct x; simpl in *. by subst.
    + intros r Hr. destruct (Hval r Hr) as (Gn & Gm & W & E). split_and!; try done. split_and!; try done.
      destruct (Z.ltb_spec (itype y) (size x)); [by destruct Hoy as [-> | ->]|]. lia.
Qed.

Lemma zext_small m k a : good_size m -> good_size k -> m < k -> within m a -> scast k a = a.
Proof.
  intros Hm Hk Hlt Ha. apply scast_nonneg_small; [done|]. unfold within in Ha. assert (2 ^ m <= 2 ^ (k - 1)) by (apply Z.pow_le_mono_r; lia). lia.
Qed.

Lemma cast_zext_ok d i x j y : cast_of d i x j y -> op y = OP_ZEXT -> ok d (cast_zext i y d).
Proof.
  intros Hco Hoy. pose proof Hco as [Hwf Hc Hy Ho Hp Hs]. unfold cast_zext. rewrite (at_computes _ _ _ Hc).
  assert (op x <> OP_TRUNC -> ok d (replace_pseudo i P1 (src1 y) (modify i (fun x => set_itype (orig_type y) (set_op OP_ZEXT x)) d))) as H.
  { intros Hnt. apply (recast_ok d i x j y _ OP_ZEXT (itype y)); try done. intros r Hr.
    destruct (co_value d i x j y r Hco Hr) as (Hsz & _ & E). apply (sat_computes r) in Hy; [|done].
    apply holds_cast in Hy as ((_ & Gm & Hlt) & W & Ej); [|by rewrite Hoy]. rewrite Hoy in *. simpl in Ej.
    assert (good_size (size x) /\ size y < size x /\ good_size (size y)) as (Gx & Hl & Gy) by (destruct Hsz as (? & ? & ?); by destruct (op x)).
    split_and!; try done; [simpl; split_and!; try done; lia|]. rewrite E, Ej. destruct (op x); try done. simpl.
    rewrite (zext_small (itype y)) by done. apply ucast_id. apply (within_mono (itype y)); [lia|done]. }
  destruct (op x) eqn:Hox; try done; [|by apply H|by apply H]. apply (cast_trunc_ext_ok d i x j y); auto.
Qed.

Lemma cast_sext_ok d i x j y : cast_of d i x j y -> op y = OP_SEXT -> ok d (cast_sext i y d).
Proof.
  intros Hco Hoy. pose proof Hco as [Hwf Hc Hy Ho Hp Hs]. unfold cast_sext. rewrite (at_computes _ _ _ Hc).
  destruct (op x) eqn:Hox; try done; [apply (cast_trunc_ext_ok d i x j y); auto|same|].
  apply (recast_ok d i x j y _ OP_SEXT (itype y)); try done; [destruct x; simpl in *; by subst|]. intros r Hr.
  destruct (co_value d i x j y r Hco Hr) as ((Gx & Gy & Hl) & _ & E). apply (sat_computes r) in Hy; [|done].
  apply holds_cast in Hy as ((_ & Gm & Hlt) & W & Ej); [|by rewrite Hoy]. rewrite Hoy, Hox in *. simpl in *.
  split_and!; try done; [split_and!; try done; lia|]. rewrite E, Ej, scast_sext by (done || lia). done.
Qed.

(** ** A truncated operand *)

Lemma trunc_zext_ok d i x j y : cast_of d i x j y -> op x = OP_ZEXT -> op y = OP_TRUNC -> size x = itype y ->
  ok d (replace_pseudo i P1 (src1 y) (modify i (fun x => set_src2 (value_pseudo (u64 (Z.shiftl 1 (size y) - 1))) (set_op OP_AND x)) d)).
Proof.
  intros Hco Ho Hoy Hsz. pose proof Hco as [Hwf Hc Hy _ Hp Hs]. apply (change_replace_ok d i x); [done|done| |].
  - split; [apply Hc|done|]. intros p Hin. rewrite operands_2 in Hin by done. elems Hin; [|apply below_value, s64_range].
    apply below_trans with j; [by apply (co_below d i x j y)|by apply below_src1].
  - intros r Hr. destruct (co_value d i x j y r Hco Hr) as ((Gx & Gy & Hl) & W & E). rewrite Ho in *. simpl in E, Hl.
    destruct (trunc_value d j y r Hy Hoy Hr) as (_ & _ & _ & Wp & Ej & _). rewrite <- Hsz in Wp.
    pose proof (pow_le_two64 (size y) Gy). pose proof (Z.pow_lt_mono_r 2 (size y) (size x) ltac:(lia) ltac:(unfold good_size in *; lia) Hl).
    apply holds_fold; [done|]. simpl. rewrite u64_s64, u64_small by apply u64_range.
    split_and!; try done; [rewrite Z.shiftl_1_l, u64_small by (unfold is_u64; lia); unfold within; lia|].
    rewrite ucast_land_mask, <- Ej, E by done. symmetry. apply ucast_id. apply (within_mono (size y)); [lia|done].
Qed.

Lemma trunc_sext_ok d i x j y k z : cast_of d i x j y -> op x = OP_SEXT -> op y = OP_TRUNC -> size x = itype y ->
  computes d k z -> src1 y = REG k -> size z = itype y -> op z = OP_LSR -> src2 z = value_pseudo (size x - size y) ->
  ok d (replace_pseudo i P1 (src1 z) (modify i (fun x => set_src2 (src2 z) (set_op OP_ASR x)) d)).
Proof.
  intros Hco Ho Hoy Hsz Hz Hk Hzs Hoz H2. pose proof Hco as [Hwf Hc Hy _ Hp Hs]. pose proof (co_below d i x j y Hco) as Hb.
  assert (below d i (REG k)) as Hbk by (apply below_trans with j; [done|rewrite <- Hk; by apply below_src1]).
  apply (change_replace_ok d i x); [done|done| |].
  - split; [apply Hc|done|]. intros p Hin. rewrite operands_2 in Hin by done.
    elems Hin; apply below_trans with k; try done; [by apply below_src1|apply below_src2; [done|by rewrite Hoz]].
  - intros r Hr. destruct (co_value d i x j y r Hco Hr) as ((Gx & Gy & Hl) & W & E). rewrite Ho in *. simpl in E, Hl.
    destruct (trunc_value d j y r Hy Hoy Hr) as (_ & _ & _ & _ & Ej & _).
    apply (sat_computes r) in Hz; [|done]. apply holds_shift in Hz as (_ & Wz & Hc2 & Ek); [|by rewrite Hoz]. rewrite Hoz, Hzs, <- Hsz in *.
    assert (val r (src2 z) = size x - size y) as Ev.
    { rewrite H2. simpl. rewrite u64_s64. apply u64_small. unfold is_u64, two64, good_size in *. lia. }
    apply holds_shift; [done|]. cbn [set set_src1 set_src2 set_op op size src1 src2]. rewrite Ev in *. split_and!; try done; try lia.
    rewrite E, Ej, Hk. simpl val. rewrite Ek. by apply sext_trunc_lsr.
Qed.

Lemma cast_trunc_ok d i x j y : cast_of d i x j y -> op y = OP_TRUNC -> sized d (src1 y) (itype y) -> ok d (cast_trunc i y d).
Proof.
  intros Hco Hoy Hsy. pose proof Hco as [Hwf Hc Hy Ho Hp Hs]. unfold cast_trunc, orig_type. rewrite (at_computes _ _ _ Hc).
  destruct (op x) eqn:Hox; try done.
  - apply (recast_ok d i x j y _ OP_TRUNC (itype y)); try done; [destruct x; simpl in *; by subst|]. intros r Hr.
    destruct (co_value d i x j y r Hco Hr) as ((Gx & Gy & Hl) & _ & E). destruct (trunc_value d j y r Hy Hoy Hr) as (_ & Gm & Hlt & W & Ej & _).
    rewrite Hox in *. simpl in *. split_and!; try done; [split_and!; try done; lia|]. rewrite E, Ej. apply ucast_ucast_le. unfold good_size in *. lia.
  - destruct (Z.eqb_spec (size x) (itype y)) as [E|_]; simpl; [|same]. by apply (trunc_zext_ok d i x j y).
  - destruct (Z.eqb_spec (size x) (itype y)) as [E|_]; simpl; [|same]. destruct (def_of d (src1 y)) as [[k z]|] eqn:Hd; [|same].
    destruct (_ && _) eqn:Hz; [|same]. apply andb_true_iff in Hz as [Hoz%bool_decide_eq_true H2%peq_true].
    destruct (def_computes d j (src1 y) k z Hwf) as (Hk & Hz & _); [by apply below_src1|done|by rewrite Hoz|].
    apply (trunc_sext_ok d i x j y k z); try done. by apply (Hsy k z).
Qed.

(** ** Casts that go inside of the operand *)

(** The operand becomes the cast. *)
Lemma cast_inside_ok d i x j y f g : cast_of d i x j y -> one_use d (REG j) = true ->
  live (f x) -> is_value_op (op (f x)) = true -> (forall p, p ∈ operands (f x) -> p = REG j \/ exists v, p = VAL v /\ is_s64 v) ->
  live (g y) -> is_cast (op (g y)) = true -> src1 (g y) = src1 y ->
  (forall r, sat r d -> exists v, forall r', val r' (src1 y) = val r (src1 y) -> r' j = v -> r' i = r i ->
    holds r' j (g y) /\ holds r' i (f x)) -> sound d (modify i f (modify j g d)).
Proof.
  intros Hco Hu Hlx Hox Hpx Hly Hoy Hpy Hv. pose proof Hco as [Hwf Hc Hy Ho Hp Hs]. pose proof (co_below d i x j y Hco) as Hb.
  assert (i <> j) as Hne by (intros <-; by apply (below_not_self d i)). pose proof (cast_arity _ Hoy) as [Ha Hvo].
  assert (src1 y <> REG j) as Hns by (intros E; apply (below_not_self d j); [done|rewrite <- E; by apply below_src1]).
  apply (inner_sound d i x f j y g); try done.
  - apply (one_use_user d j i x); [done|apply Hc|]. rewrite operands_1 by (by apply cast_arity). rewrite Hp. set_solver.
  - split; [done|done|]. intros p Hin. destruct (Hpx p Hin) as [-> |(v & -> & Hs64)]; [done|by apply below_value].
  - split; [done|done|]. intros p Hin. rewrite operands_1, Hpy in Hin by done. elems Hin. apply below_trans with j; [done|by apply below_src1].
  - rewrite operands_1, Hpy by done. intros Hin. apply list_elem_of_singleton in Hin. congruence.
  - intros r Hr. destruct (Hv r Hr) as [v H]. exists v. apply H; [by apply val_set_reg|apply set_reg_eq|by apply set_reg_ne].
Qed.

Lemma cast_not_ok d i x j y : cast_of d i x j y -> op y = OP_NOT -> ok d (cast_not i j d).
Proof.
  intros Hco Hoy. pose proof Hco as [Hwf Hc Hy Ho Hp Hs]. unfold cast_not. rewrite (at_computes _ _ _ Hc), Hp.
  destruct (op x) eqn:Hox; try done; try same. destruct (one_use d (REG j)) eqn:Hu; [|same]. apply ok_changed.
  assert (i <> j) as Hne by (intros <-; apply (below_not_self d i); [done|by apply (co_below d i x i y)]).
  rewrite modify_comm by congruence. apply (cast_inside_ok d i x j y); try done; [apply Hc| |apply Hy|].
  - intros p Hin. rewrite operands_1 in Hin by done. elems Hin. rewrite Hp. auto.
  - intros r Hr. destruct (co_value d i x j y r Hco Hr) as ((Gx & Gy & Hl) & _ & E). apply (sat_computes r) in Hy as [Ht Hsem]; [|done].
    rewrite Hox in *. unfold typed, sem in Ht, Hsem. rewrite Hoy in *. injection Hsem as Ej. destruct Ht as [_ W].
    pose proof (good_nonneg _ Gx).
    exists (ucast (size x) (val r (src1 y))). intros r' E1 Ej' Ei'. split; [apply holds_cast; [done|]; simpl; by rewrite E1|].
    split; [split; [done|]; simpl; rewrite Hp; simpl; rewrite Ej'; by apply within_ucast|].
    unfold sem. simpl. rewrite Hp. simpl. rewrite Ej', Ei', E, <- Ej. f_equal. simpl. rewrite ucast_ucast_le by (unfold good_size in *; lia). umod.
Qed.

(** The value p & M, as the operand of a cast. *)
Lemma and_operand d j y v r : wf d -> computes d j y -> op y = OP_AND -> src2 y = VAL v -> sat r d ->
  is_s64 v /\ good_size (size y) /\ within (size y) (val r (src1 y)) /\ within (size y) (u64 v) /\ r j = Z.land (val r (src1 y)) (u64 v).
Proof.
  intros Hwf Hy Ho H2 Hr. assert (is_s64 v) as Hv by (apply (below_s64 d j (src2 y)); [done|apply below_src2; [done|by rewrite Ho]|done]).
  apply (sat_computes r) in Hy as [Ht Hs]; [|done]. unfold typed, sem in *. rewrite Ho, H2 in *. simpl in *.
  apply (inj Some) in Hs. by destruct Ht as (? & ? & ?).
Qed.

Lemma cast_and_trunc_sound d i x j y v : cast_of d i x j y -> op x = OP_TRUNC -> op y = OP_AND -> src2 y = VAL v -> one_use d (REG j) = true ->
  sound d (modify i (fun z => set_src2 (value_pseudo (Z.land (u64 v) (u64 (Z.shiftl 1 (size x) - 1)))) (set_op OP_AND z))
    (modify j (fun y => set_size (size x) (set_itype (size y) (set_op OP_TRUNC y))) d)).
Proof.
  intros Hco Ho Hoy H2 Hu. pose proof Hco as [Hwf Hc Hy _ Hp Hs]. apply (cast_inside_ok d i x j y); try done; [apply Hc| |apply Hy|].
  - intros p Hin. rewrite operands_2 in Hin by done. elems Hin; [by left|right]. eexists. split; [done|apply s64_range].
  - intros r Hr. destruct (co_value d i x j y r Hco Hr) as ((Gx & Gy & Hl) & _ & E). rewrite Ho in *. simpl in E, Hl.
    destruct (and_operand d j y v r) as (Hv & _ & W1 & W2 & Ej); try done. pose proof (good_nonneg _ Gx).
    exists (ucast (size x) (val r (src1 y))). intros r' E1 Ej' Ei'. split; [apply holds_cast; [done|]; simpl; by rewrite E1|].
    assert (within (size x) (ucast (size x) (u64 v))) as Wv by (by apply within_ucast).
    apply holds_fold; [done|]. simpl. rewrite Hp. simpl.
    rewrite u64_s64, ucast_land_mask, (u64_within (size x)), Ej', Ei', E, Ej, ucast_land by done.
    split_and!; try done; [by apply within_ucast|]. symmetry. apply ucast_id. by apply within_land; [done|apply within_ucast|apply within_ucast].
Qed.

(** The mask leaves no sign. *)
Lemma masked_positive n p v : good_size n -> n <= 32 -> is_s64 v -> within n p -> Z.land v (scast 32 (Z.shiftl 1 (n - 1))) = 0 ->
  scast n (Z.land p (u64 v)) = Z.land p (u64 v).
Proof.
  intros Hn H32 Hv Hp H. pose proof (good_nonneg n Hn). pose proof (u64_range v) as [Hv0 _].
  assert (Z.testbit (u64 v) (n - 1) = false) as Hb.
  { apply (f_equal (fun a => Z.testbit a (n - 1))) in H. rewrite Z.land_spec, testbit_scast, Z.min_l, Z.shiftl_1_l, Z.pow2_bits_true, andb_true_r, Z.testbit_0_l in H
      by (unfold good_size in *; lia).
    change (Z.testbit (ucast 64 v) (n - 1) = false). rewrite testbit_ucast, H by (unfold good_size in *; lia). by rewrite andb_false_r. }
  apply scast_nonneg_small; [done|]. apply within_of_bits; [unfold good_size in Hn; lia|apply Z.land_nonneg; by right|].
  intros k Hk. rewrite Z.land_spec. destruct (Z.eqb_spec k (n - 1)) as [-> |Hne]; [by rewrite Hb, andb_false_r|].
  rewrite (testbit_within n p) by (done || lia). done.
Qed.

Lemma cast_and_ext_sound d i x j y v : cast_of d i x j y -> op x = OP_ZEXT \/ op x = OP_SEXT -> op y = OP_AND -> src2 y = VAL v ->
  one_use d (REG j) = true -> (op x = OP_SEXT -> itype x <= 32 /\ Z.land v (scast 32 (Z.shiftl 1 (size y - 1))) = 0) ->
  sound d (modify i (fun x => set_src2 (VAL v) (set_op OP_AND x))
    (modify j (fun y => set_size (size x) (set_itype (orig_type x) (set_op OP_ZEXT y))) d)).
Proof.
  intros Hco Ho Hoy H2 Hu Hpos. pose proof Hco as [Hwf Hc Hy _ Hp Hs]. apply (cast_inside_ok d i x j y); try done; [apply Hc| |apply Hy|].
  - intros p Hin. rewrite operands_2 in Hin by done. elems Hin; [by left|right]. exists v. split; [done|].
    apply (below_s64 d j (src2 y)); [done|apply below_src2; [done|by rewrite Hoy]|done].
  - intros r Hr. destruct (co_value d i x j y r Hco Hr) as ((Gx & Gy & Hl) & Wj & E).
    assert (size y < size x) as Hlt by (by destruct Ho as [Ho|Ho]; rewrite Ho in Hl).
    destruct (and_operand d j y v r) as (Hv & _ & W1 & W2 & Ej); try done.
    assert (forall a, within (size y) a -> within (size x) a) as Wm by (intros a; apply within_mono; lia).
    assert (r i = Z.land (val r (src1 y)) (u64 v)) as Ei.
    { rewrite E. destruct Ho as [Ho|Ho]; rewrite Ho; simpl; [done|]. destruct (Hpos Ho) as [H32 Hm].
      rewrite Ej, masked_positive by (done || lia). apply ucast_id, Wm. by rewrite <- Ej. }
    exists (val r (src1 y)). intros r' E1 Ej' Ei'.
    split; [apply holds_cast; [done|]; simpl; unfold orig_type; rewrite E1, <- Hs; by split_and!|].
    apply holds_fold; [done|]. simpl. rewrite Hp. simpl. rewrite Ej', Ei', Ei. split_and!; try by auto.
    symmetry. apply ucast_id, Wm. by rewrite <- Ej.
Qed.

Lemma cast_and_ok d i x j y : cast_of d i x j y -> op y = OP_AND -> (op x = OP_SEXT -> itype x <= 32) -> ok d (cast_and i j y d).
Proof.
  intros Hco Hoy H32. pose proof Hco as [Hwf Hc Hy Ho Hp Hs]. unfold cast_and. rewrite (at_computes _ _ _ Hc), Hp.
  destruct (src2 y) as [| | | | | |v] eqn:H2; try same. destruct (op x) eqn:Hox; try done.
  - destruct (one_use d (REG j)) eqn:Hu; simpl; [|same]. apply ok_changed. by apply (cast_and_trunc_sound d i x j y v).
  - destruct (one_use d (REG j)) eqn:Hu; simpl; [|same]. apply ok_changed. apply (cast_and_ext_sound d i x j y v); auto. by rewrite Hox.
  - destruct (Z.eqb_spec (Z.land v (scast 32 (Z.shiftl 1 (size y - 1)))) 0) as [E|_]; cbn [negb]; [|same].
    destruct (one_use d (REG j)) eqn:Hu; cbn [negb]; [|same]. apply ok_changed. apply (cast_and_ext_sound d i x j y v); auto.
Qed.

(** ** All of them *)

Lemma sized_cast d i x : well_sized d = true -> computes d i x -> is_cast (op x) = true -> sized d (src1 x) (itype x).
Proof.
  intros Hs Hc Ho. pose proof (well_sized_at d i x Hs (c_lookup _ _ _ Hc)) as H. unfold insn_sized in H.
  by destruct (op x); try done; apply fits_sized.
Qed.

Lemma simplify_cast_ok d i x : wf d -> computes d i x -> is_cast (op x) = true -> well_sized d = true -> fragile_cast d x = false ->
  ok d (simplify_cast i d).
Proof.
  intros Hwf Hc Ho Hs Hf. unfold simplify_cast. rewrite (at_computes _ _ _ Hc).
  destruct (constant (src1 x)) eqn:Hk; [apply constant_inv in Hk as [v Hv]; by eapply simplify_constant_unop_ok|].
  pose proof (sized_cast d i x Hs Hc Ho) as Hsz. unfold fragile_cast in Hf.
  destruct (def_of d (src1 x)) as [[j y]|] eqn:Hd; [|same]. pose proof (Hsz j y Hd) as Hsy.
  destruct (is_value_op (op y)) eqn:Hv; [|destruct (op y); first [done|same]].
  destruct (def_computes d i (src1 x) j y Hwf) as (Hp & Hy & Hne); [by apply below_src1|done|done|].
  assert (cast_of d i x j y) as Hco by (by split). assert (one_operand x) as Hone by (left; by apply cast_arity).
  destruct (OPF_COMPARE (op y)) eqn:Hcy.
  { apply (cast_compare_ok d i x j y); try done. intros Hox E. by rewrite Hox in Hf; unfold orig_type in Hf; rewrite E in Hf. }
  destruct (op y) eqn:Hoy; try same.
  - destruct (oeq (op x) OP_TRUNC) eqn:E; [apply bool_decide_eq_true in E|same].
    apply (simplify_mask_shift_ok d i x j y); try done; [rewrite Hsy; by apply trunc_ctx|rewrite Hoy; by left|apply (sized_shift d j y); try done; rewrite Hoy; by left|by apply sized_or_under].
  - destruct (oeq (op x) OP_TRUNC) eqn:E; [apply bool_decide_eq_true in E|same].
    apply (simplify_mask_shift_ok d i x j y); try done; [rewrite Hsy; by apply trunc_ctx|rewrite Hoy; by right|apply (sized_shift d j y); try done; rewrite Hoy; by left|by apply sized_or_under].
  - apply (cast_and_ok d i x j y); try done. intros Hox. rewrite Hox in Hf. simpl in Hf. apply Z.ltb_ge in Hf. done.
  - destruct (oeq (op x) OP_TRUNC) eqn:E; [apply bool_decide_eq_true in E|same]. destruct (sized_or d (src1 x) j y Hs Hd Hoy) as [S1 S2].
    rewrite Hsy in S1, S2. apply (simplify_mask_or_ok d i i x (bits_mask (size x)) (itype x) j y); try done; [by apply trunc_ctx|]. split; auto.
  - by apply (cast_not_ok d i x j y).
  - apply (cast_trunc_ok d i x j y); try done. apply (sized_cast d j y); try done. by rewrite Hoy.
  - by apply (cast_zext_ok d i x j y).
  - by apply (cast_sext_ok d i x j y).
Qed.
End cast.
