(* ===== verification/SimplifySelect.v ===== *)
(** * Conditional values: simplify_select() *)
From stdpp Require Import base option gmap list.
From S2P Require Import Prelude Bits Simplify SimplifyFacts SimplifyConst SimplifyRules SimplifyAlgebra SimplifyCompare SimplifyMask SimplifyShift SimplifyBinop.
#[local] Open Scope Z_scope.

(** The rules that are wrong: SEL(x > 0, a, -a) for other x and a, SEL(SEL(x, 0, 0), a, b), and a select that is
    taken for an AND. *)
Definition fragile_select (d : dag) (x : insn) : bool :=
  match def_of d (src1 x) with
  | Some (_, y) =>
    match op y with
    | OP_SET_GT => one_use d (src1 x) && is_zero (src2 y) && is_negate_of d (src3 x) (src2 x) && negb (peq (src1 y) (src2 x))
    | OP_SEL =>
      if constant (src2 y) && constant (src3 y) then is_zero (src2 y) && is_zero (src3 y)
      else is_pow2 (src2 y) && is_pow2 (src2 x) && is_zero (src3 x) && (size x =? size y) && one_use d (src1 x)
    | _ => false
    end
  | None => false
  end.

Ltac member := rewrite !elem_of_cons; simpl; auto.

Section select.
Context `{At : Atoms}.

Lemma holds_sel r i x : op x = OP_SEL -> holds r i x <->
  good_size (size x) /\ within 64 (val r (src1 x)) /\ within (size x) (val r (src2 x)) /\ within (size x) (val r (src3 x)) /\
  r i = if val r (src1 x) =? 0 then val r (src3 x) else val r (src2 x).
Proof.
  intros Ho. unfold holds, typed, sem. rewrite Ho. split; [intros ((? & ? & ? & ?) & [= <-])|intros (? & ? & ? & ? & ->)]; tauto.
Qed.

Lemma operands_3 x : op x = OP_SEL -> operands x = [src1 x; src2 x; src3 x].
Proof. intros Ho. unfold operands. by rewrite Ho. Qed.

Lemma src3_set p x : src3 (set_src3 p x) = p.
Proof. done. Qed.

Lemma modify_id i d : modify i (fun x => x) d = d.
Proof.
  unfold modify, set_insns. destruct d as [m b p]. simpl. f_equal. apply map_eq. intros j. destruct (decide (i = j)) as [<-|Hne].
  - rewrite lookup_alter_eq. by destruct (m !! i).
  - by rewrite lookup_alter_ne.
Qed.

Lemma at_modify_ne d i j f x : computes d i x -> i <> j -> insn_at (modify j f d) i = x.
Proof. intros Hc Hne. unfold insn_at. by rewrite lookup_modify_ne, (c_lookup _ _ _ Hc) by congruence. Qed.

(** A select. *)
Record select (d : dag) (i : Z) (x : insn) : Prop := {
  se_wf : wf d;
  se_x : computes d i x;
  se_op : op x = OP_SEL
}.

Lemma se_below d i x p : select d i x -> p = src1 x \/ p = src2 x \/ p = src3 x -> below d i p.
Proof. intros [Hwf Hc Ho] Hp. apply (below_of d i x); [done|]. rewrite operands_3, !elem_of_cons by done. tauto. Qed.

Lemma se_value d i x r : select d i x -> sat r d ->
  good_size (size x) /\ within 64 (val r (src1 x)) /\ within (size x) (val r (src2 x)) /\ within (size x) (val r (src3 x)) /\
  r i = if val r (src1 x) =? 0 then val r (src3 x) else val r (src2 x).
Proof. intros [Hwf Hc Ho] Hr. apply (sat_computes r) in Hc; [|done]. by apply holds_sel in Hc. Qed.

Lemma se_def d i x p j y : select d i x -> p = src1 x \/ p = src2 x \/ p = src3 x -> def_of d p = Some (j, y) -> is_value_op (op y) = true ->
  p = REG j /\ computes d j y /\ j <> i.
Proof. intros Hs Hp Hd Hv. pose proof Hs as [Hwf _ _]. apply (def_computes d i p j y Hwf); try done. by apply (se_below d i x). Qed.

(** One of the operands. *)
Lemma sel_pseudo_ok d i x p : select d i x -> p = src1 x \/ p = src2 x \/ p = src3 x -> (forall r, sat r d -> val r p = r i) ->
  ok d (replace_with_pseudo i p d).
Proof. intros Hs Hp Hv. pose proof Hs as [Hwf Hc _]. apply (replace_with_pseudo_ok i x); try done. by apply (se_below d i x). Qed.

(** ** No condition *)

Lemma sel_constant_ok d i x v : select d i x -> src1 x = VAL v -> ok d (replace_with_pseudo i (if v =? 0 then src3 x else src2 x) d).
Proof.
  intros Hs H1. assert (is_s64 v) as Hv by (apply (below_s64 d i (src1 x)); [apply Hs|apply (se_below d i x); auto|done]).
  apply (sel_pseudo_ok d i x); [done|destruct (v =? 0); auto|]. intros r Hr. destruct (se_value d i x r Hs Hr) as (_ & _ & _ & _ & ->).
  rewrite H1. simpl. rewrite <- u64_eqb_0 by done. by destruct (v =? 0).
Qed.

Lemma sel_same_ok d i x : select d i x -> src2 x = src3 x -> ok d (replace_with_pseudo i (src2 x) d).
Proof.
  intros Hs E. apply (sel_pseudo_ok d i x); auto. intros r Hr. destruct (se_value d i x r Hs Hr) as (_ & _ & _ & _ & ->).
  rewrite <- E. by destruct (_ =? 0).
Qed.

(** SEL(x, 1, 0) and SEL(x, 0, 1) *)
Lemma sel_bool_ok d i x v w : select d i x -> src2 x = VAL v -> src3 x = VAL w -> v <> w -> Z.lor v w = 1 ->
  ok d (REPEAT_CSE, modify i (fun x' => set_src2 (if v =? 0 then src2 x else src3 x) (set_itype (size x')
    (set_op (if v =? 0 then OP_SET_EQ else OP_SET_NE) x'))) d).
Proof.
  intros Hs H2 H3 Hne Hor. pose proof Hs as [Hwf Hc Ho].
  assert (v = 0 /\ w = 1 \/ v = 1 /\ w = 0) as Hvw.
  { assert (0 <= v /\ 0 <= w) as [Hv Hw] by (apply Z.lor_nonneg; lia). pose proof (lor_ge v w Hv Hw). pose proof (lor_ge w v Hw Hv) as H'.
    rewrite Z.lor_comm in H'. lia. }
  assert (forall o, src2 (set_src2 (if v =? 0 then src2 x else src3 x) (set_itype (size x) (set_op o x))) = VAL 0) as Hz.
  { intros o. simpl. rewrite H2, H3. by destruct Hvw as [[-> ->]|[-> ->]]. }
  apply (change_ok d i x); [done|done| |].
  - split; [apply Hc|by destruct (v =? 0)|]. intros p Hin. rewrite operands_2, Hz in Hin by (by destruct (v =? 0)). simpl in Hin.
    elems Hin; [apply (se_below d i x); auto|apply below_value; unfold is_s64, two63; lia].
  - intros r Hr. destruct (se_value d i x r Hs Hr) as (Gn & W & _ & _ & E). apply holds_cmp; [by destruct (v =? 0)|].
    rewrite Hz. cbn [size itype u3 set_src2 set_itype set_op src1 op]. split_and!; try done.
    + right. split_and!; try done. destruct (v =? 0); auto.
    + rewrite E, H2, H3. destruct Hvw as [[-> ->]|[-> ->]]; simpl; change (u64 0) with 0; by destruct (val r (src1 x) =? 0).
Qed.

Lemma sel_zero_cond_ok d i x : select d i x -> src1 x = src3 x -> is_zero (src2 x) = true -> ok d (replace_with_pseudo i (src2 x) d).
Proof.
  intros Hs E Hz%is_zero_val. apply (sel_pseudo_ok d i x); auto. intros r Hr. destruct (se_value d i x r Hs Hr) as (_ & _ & _ & _ & ->).
  rewrite <- E, Hz. simpl. by destruct (Z.eqb_spec (val r (src1 x)) 0).
Qed.

Lemma sel_cond_zero_ok d i x : select d i x -> src1 x = src2 x -> is_zero (src3 x) = true -> ok d (replace_with_pseudo i (src1 x) d).
Proof.
  intros Hs E Hz%is_zero_val. apply (sel_pseudo_ok d i x); auto. intros r Hr. destruct (se_value d i x r Hs Hr) as (_ & _ & _ & _ & ->).
  rewrite <- E, Hz. simpl. by destruct (Z.eqb_spec (val r (src1 x)) 0).
Qed.

(** ** The condition is a comparison *)

(** SEL(a == b, a, b), SEL(a == b, b, a) and the same for a != b *)
Lemma sel_equal_ok d i x j y : select d i x -> src1 x = REG j -> computes d j y -> is_equality (op y) = true ->
  (src2 x = src1 y /\ src3 x = src2 y \/ src3 x = src1 y /\ src2 x = src2 y) ->
  ok d (replace_with_pseudo i (if oeq (op y) OP_SET_EQ then src3 x else src2 x) d).
Proof.
  intros Hs Hp Hy Hq Hsame. assert (OPF_COMPARE (op y) = true) as Hcy by (by destruct (op y)).
  apply (sel_pseudo_ok d i x); [done|destruct (oeq _ _); auto|]. intros r Hr. destruct (se_value d i x r Hs Hr) as (_ & _ & _ & _ & ->).
  apply (sat_computes r) in Hy; [|done]. apply holds_cmp in Hy as (_ & _ & _ & Ej); [|done]. rewrite Hp. simpl. rewrite Ej.
  destruct (op y); try done; simpl; destruct (Z.eqb_spec (val r (src1 y)) (val r (src2 y))); simpl; destruct Hsame as [[E2 E3]|[E2 E3]]; congruence.
Qed.

(** The condition, which has no other user, changes with the select. *)
Lemma sel_inner_sound d i x j y f g : select d i x -> src1 x = REG j -> computes d j y -> one_use d (REG j) = true ->
  live (f x) -> op (f x) = OP_SEL -> src1 (f x) = REG j -> src2 (f x) ∈ [src2 x; src3 x] -> src3 (f x) ∈ [src2 x; src3 x] ->
  changes d j g y ->
  (forall r, sat r d -> exists v, forall r', (forall p, p <> REG j -> val r' p = val r p) -> r' j = v -> r' i = r i -> src2 x <> REG j -> src3 x <> REG j ->
    (forall p, p ∈ operands (g y) -> p <> REG j) -> holds r' j (g y) /\ holds r' i (f x)) -> sound d (modify i f (modify j g d)).
Proof.
  intros Hs Hp Hy Hu Hlf Hof H1 H2 H3 Hch Hv. pose proof Hs as [Hwf Hc Ho]. destruct Hch as [Hlg Hog Hbg].
  assert (below d i (REG j)) as Hb by (rewrite <- Hp; apply (se_below d i x); auto).
  assert (i <> j) as Hne by (intros <-; by apply (below_not_self d i)).
  assert (forall p, p ∈ operands (g y) -> p <> REG j) as Hself by (intros p Hin ->; apply (below_not_self d j); auto).
  assert (src2 x <> REG j /\ src3 x <> REG j) as [N2 N3].
  { pose proof (one_use_once d (REG j) i x Hu (c_lookup _ _ _ Hc)) as Hone. unfold uses in Hone. rewrite operands_3, Hp in Hone by done.
    split; intros E; rewrite E, !filter_cons in Hone; repeat case_decide; simpl in Hone; congruence || lia. }
  apply (inner_sound d i x f j y g); try done.
  - apply (one_use_user d j i x); [done|apply Hc|]. rewrite operands_3, Hp by done. apply list_elem_of_here.
  - split; [done|by rewrite Hof|]. intros p Hin. rewrite operands_3, H1 in Hin by done. elems Hin; [done| |].
    + elems H2; apply (se_below d i x); auto.
    + elems H3; apply (se_below d i x); auto.
  - split; [done|done|]. intros p Hin. apply below_trans with j; auto.
  - intros Hin. by apply (Hself (REG j)).
  - intros r Hr. destruct (Hv r Hr) as [v H]. exists v. apply H; try done; [intros p; by apply val_set_reg|apply set_reg_eq|by apply set_reg_ne].
Qed.

Lemma changes_compare d j y o : computes d j y -> OPF_COMPARE (op y) = true -> OPF_COMPARE o = true -> changes d j (set_op o) y.
Proof.
  intros Hy Hcy Hco. split; [apply Hy|by destruct o|]. intros p Hin. apply (below_of d j y); [done|].
  rewrite operands_2 in Hin by (by destruct o). by rewrite operands_2 by (by destruct (op y)).
Qed.

Lemma switch_arms d i x : computes d i x -> op x = OP_SEL ->
  (switch_pseudo i P2 i P3 d).2 = modify i (fun z => set_src3 (src2 x) (set_src2 (src3 x) z)) d.
Proof.
  intros Hc Ho. unfold switch_pseudo. rewrite (at_computes _ _ _ Hc). simpl. rewrite modify_modify.
  assert (insns (modify i (fun z => set_src3 (src2 x) (set_src2 (src3 x) z)) d) !! i = Some (set_src3 (src2 x) (set_src2 (src3 x) x))) as Hx.
  { by rewrite lookup_modify, (c_lookup _ _ _ Hc). }
  assert (operands (set_src3 (src2 x) (set_src2 (src3 x) x)) = [src1 x; src3 x; src2 x]) as Hops by (by rewrite operands_3).
  simpl. rewrite (remove_usage_used (src2 x) _ i _ Hx), (remove_usage_used (src3 x) _ i _ Hx); [done|rewrite Hops..]; member.
Qed.

(** SEL(a < b, p, q) becomes SEL(a >= b, q, p). *)
Lemma sel_negate_ok d i x j y : select d i x -> src1 x = REG j -> computes d j y -> OPF_COMPARE (op y) = true -> one_use d (REG j) = true ->
  ok d (switch_pseudo i P2 i P3 (modify j (fun y => set_op (opcode_negate (op y)) y) d)).
Proof.
  intros Hs Hp Hy Hcy Hu. pose proof Hs as [Hwf Hc Ho].
  assert (i <> j) as Hne by (intros <-; apply (below_not_self d i); [done|rewrite <- Hp; apply (se_below d i x); auto]).
  assert (computes (modify j (fun y => set_op (opcode_negate (op y)) y) d) i x) as Hc'.
  { split; [rewrite lookup_modify_ne by congruence|..]; apply Hc. }
  pose proof (switch_arms _ i x Hc' Ho) as E. destruct (switch_pseudo _ _ _ _ _) as [rc d'] eqn:Esw. simpl in E. subst d'.
  assert (rc = REPEAT_CSE) as -> by (by injection Esw). apply ok_changed. apply (sel_inner_sound d i x j y); try done; try solve [member].
  - apply Hc.
  - pose proof (changes_compare d j y (opcode_negate (op y)) Hy Hcy (compare_negated _ Hcy)) as [? ? ?]. by split.
  - intros r Hr. destruct (se_value d i x r Hs Hr) as (Gn & W1 & W2 & W3 & E). apply (sat_computes r) in Hy; [|done].
    apply holds_cmp in Hy as (Gy & Gt & Ty & Ej); [|done].
    set (c := cmp_val (op y) (itype y) (val r (src1 y)) (val r (src2 y))) in *. exists (Z.b2z (negb c)).
    intros r' Hval Ej' Ei' N2 N3 Hops. assert (operands (set_op (opcode_negate (op y)) y) = [src1 y; src2 y]) as Hopy.
    { rewrite operands_2; [done|]. simpl. by destruct (op y). }
    assert (val r' (src1 y) = val r (src1 y)) as V1 by (apply Hval, Hops; rewrite Hopy; member).
    assert (val r' (src2 y) = val r (src2 y)) as V2 by (apply Hval, Hops; rewrite Hopy; member). split.
    + apply holds_cmp; [simpl; by apply compare_negated|]. simpl. rewrite V1, V2, cmp_negate, Ej' by done. split_and!; try done.
      destruct Ty as [?|(Hq & ?)]; [by left|right]. simpl. split; [|done]. destruct Hq as [-> | ->]; auto.
    + apply holds_sel; [done|]. rewrite src3_set. simpl. rewrite Hp in *. simpl in *. rewrite Ej', Ei', E, Ej, (Hval (src2 x)), (Hval (src3 x)) by done.
      split_and!; try done; [by apply within_b2z|]. by destruct c.
Qed.

(** SEL(a > 0, a, -a) becomes SEL(a >= 0, a, -a). *)
Lemma sel_abs_ok d i x j y k z : select d i x -> src1 x = REG j -> computes d j y -> op y = OP_SET_GT -> one_use d (REG j) = true ->
  src2 y = VAL 0 -> src1 y = src2 x -> src3 x = REG k -> computes d k z -> op z = OP_NEG -> src1 z = src2 x ->
  ok d (replace_opcode j OP_SET_GE d).
Proof.
  intros Hs Hp Hy Hoy Hu H2 H1 H3 Hz Hoz Hz1. pose proof Hs as [Hwf Hc Ho]. apply ok_changed. rewrite <- (modify_id i (modify j _ d)).
  apply (sel_inner_sound d i x j y); try done; try solve [member]; [apply Hc|apply changes_compare; by rewrite ?Hoy|].
  intros r Hr. destruct (se_value d i x r Hs Hr) as (Gn & W1 & W2 & W3 & E). apply (sat_computes r) in Hy; [|done].
  apply holds_cmp in Hy as (Gy & Gt & Ty & Ej); [|by rewrite Hoy]. rewrite Hoy, H1, H2 in *. simpl in Ej. change (u64 0) with 0 in Ej.
  assert (within (itype y) (val r (src2 x)) /\ within (itype y) 0) as [Wt W0] by (destruct Ty as [[? ?]|([?|?] & _)]; [done|congruence..]).
  apply (sat_computes r) in Hz as [[Gz _] Hk]; [|done]. unfold sem in Hk. rewrite Hoz, Hz1 in Hk. injection Hk as Hk.
  exists (Z.b2z (scast (itype y) 0 <=? scast (itype y) (val r (src2 x)))). intros r' Hval Ej' Ei' N2 N3 _. split.
  - apply holds_cmp; [done|]. simpl. rewrite H1, H2, (Hval (src2 x)) by done. simpl. change (u64 0) with 0. split_and!; try done. by left.
  - apply holds_sel; [done|]. rewrite Hp, H3 in *. simpl in *. rewrite Ej', Ei', E, Ej, (Hval (src2 x)) by done.
    specialize (Hval (REG k) N3). simpl in Hval. rewrite Hval, <- Hk in *. split_and!; try done; [by apply within_b2z|].
    destruct (Z.eqb_spec (val r (src2 x)) 0) as [E0|Hn0].
    + rewrite E0, Z.leb_refl, Z.ltb_irrefl. cbn [Z.b2z Z.eqb]. change (- 0) with 0. apply ucast_id, within_0. by apply good_nonneg.
    + destruct (Z.ltb_spec (scast (itype y) 0) (scast (itype y) (val r (src2 x)))), (Z.leb_spec (scast (itype y) 0) (scast (itype y) (val r (src2 x)))); try done; [lia|].
      exfalso. apply Hn0. apply (scast_inj (itype y)); try done. lia.
Qed.

(** ** The condition is a select *)

Lemma u64_zero v : is_s64 v -> u64 v = 0 -> v = 0.
Proof. intros Hv H. apply Z.eqb_eq. rewrite u64_eqb_0 by done. by apply Z.eqb_eq. Qed.

(** The select on another condition. *)
Lemma sel_recond_ok d i x j y f : select d i x -> src1 x = REG j -> computes d j y -> op y = OP_SEL ->
  live (f x) -> op (f x) = OP_SEL -> src2 (f x) ∈ [src2 x; src3 x] -> src3 (f x) ∈ [src2 x; src3 x] -> size (f x) = size x ->
  (forall r, sat r d -> (r j =? 0) = (val r (src1 y) =? 0) /\ src2 (f x) = src2 x /\ src3 (f x) = src3 x \/
    (r j =? 0) = negb (val r (src1 y) =? 0) /\ src2 (f x) = src3 x /\ src3 (f x) = src2 x) ->
  ok d (replace_pseudo i P1 (src1 y) (modify i f d)).
Proof.
  intros Hs Hp Hy Hoy Hlf Hof H2 H3 Hsz Hv. pose proof Hs as [Hwf Hc Ho]. apply (change_replace_ok d i x); [done|done| |].
  - split; [done|simpl; by rewrite Hof|]. intros p Hin. rewrite operands_3 in Hin by done.
    change (p ∈ [src1 y; src2 (f x); src3 (f x)]) in Hin.
    elems Hin; [|elems H2; apply (se_below d i x); auto|elems H3; apply (se_below d i x); auto].
    apply below_trans with j; [rewrite <- Hp; apply (se_below d i x); auto|by apply below_src1].
  - intros r Hr. destruct (se_value d i x r Hs Hr) as (Gn & W1 & W2 & W3 & E). apply (sat_computes r) in Hy; [|done].
    apply holds_sel in Hy as (_ & Wy & _ & _ & _); [|done]. apply holds_sel; [done|].
    change (src3 (set P1 (src1 y) (f x))) with (src3 (f x)). cbn [set set_src1 src1 src2 size]. rewrite Hsz, E, Hp. simpl.
    destruct (Hv r Hr) as [(-> & -> & ->)|(-> & -> & ->)]; [by split_and!|]. split_and!; try done. by destruct (val r (src1 y) =? 0).
Qed.

Lemma nested_value d j y v w r : wf d -> computes d j y -> op y = OP_SEL -> src2 y = VAL v -> src3 y = VAL w -> sat r d ->
  is_s64 v /\ is_s64 w /\ r j = if val r (src1 y) =? 0 then u64 w else u64 v.
Proof.
  intros Hwf Hy Ho H2 H3 Hr. assert (select d j y) as Hs by (by split). destruct (se_value d j y r Hs Hr) as (_ & _ & _ & _ & E).
  rewrite H2, H3 in E. split_and!; [apply (below_s64 d j (src2 y)); auto|apply (below_s64 d j (src3 y)); auto|done]; apply (se_below d j y); auto.
Qed.

Lemma sel_nested_ok d i x j y v w : select d i x -> src1 x = REG j -> computes d j y -> op y = OP_SEL -> src2 y = VAL v -> src3 y = VAL w ->
  ~ (v = 0 /\ w = 0) ->
  ok d (if is_zero (src3 y) then
          if peq (src2 x) (src2 y) && peq (src3 x) (src3 y) then replace_with_pseudo i (src1 x) d else replace_pseudo i P1 (src1 y) d
        else if is_zero (src2 y) then replace_pseudo i P1 (src1 y) (switch_pseudo i P2 i P3 d).2
        else replace_with_pseudo i (src2 x) d).
Proof.
  intros Hs Hp Hy Hoy H2 H3 Hnz. pose proof Hs as [Hwf Hc Ho]. rewrite H2, H3. cbn [is_zero].
  pose proof (fun r => nested_value d j y v w r Hwf Hy Hoy H2 H3) as Hval. destruct (Z.eqb_spec w 0) as [-> |Hw].
  - destruct (peq (src2 x) (VAL v) && peq (src3 x) (VAL 0)) eqn:E.
    + apply andb_true_iff in E as [E2%peq_true E3%peq_true]. apply (sel_pseudo_ok d i x); auto. intros r Hr.
      destruct (se_value d i x r Hs Hr) as (_ & _ & _ & _ & ->). destruct (Hval r Hr) as (Hv & _ & Ej). rewrite Hp, E2, E3. simpl. rewrite Ej.
      change (u64 0) with 0. destruct (val r (src1 y) =? 0); [done|]. by destruct (Z.eqb_spec (u64 v) 0).
    + pose proof (sel_recond_ok d i x j y (fun z => z)) as H. rewrite modify_id in H.
      apply H; try done; [apply Hc|member|member|]. intros r Hr. left.
      destruct (Hval r Hr) as (Hv & _ & ->). split_and!; try done. change (u64 0) with 0. destruct (val r (src1 y) =? 0); [done|].
      apply Z.eqb_neq. intros E0. apply Hnz. split; [by apply u64_zero|done].
  - destruct (Z.eqb_spec v 0) as [-> |Hv0].
    + rewrite (switch_arms d i x) by done. apply (sel_recond_ok d i x j y); try done; [apply Hc|member|member|]. intros r Hr. right.
      destruct (Hval r Hr) as (_ & Hw64 & ->). split_and!; try done. destruct (val r (src1 y) =? 0); [|done].
      apply Z.eqb_neq. intros E0. by apply Hw, u64_zero.
    + apply (sel_pseudo_ok d i x); auto. intros r Hr. destruct (se_value d i x r Hs Hr) as (_ & _ & _ & _ & ->).
      destruct (Hval r Hr) as (Hv & Hw64 & Ej). rewrite Hp. simpl. destruct (Z.eqb_spec (r j) 0) as [E0|_]; [|done].
      exfalso. rewrite Ej in E0. destruct (val r (src1 y) =? 0); [by apply Hw, u64_zero|by apply Hv0, u64_zero].
Qed.

(** ** The condition is a bit *)

Lemma pow2_val p : is_pow2 p = true -> exists v, p = VAL v /\ is_power_of_2 v = true.
Proof. destruct p; try done. simpl. eauto. Qed.

Lemma pow2_shift n a b p : good_size n -> 0 <= a -> 0 <= b -> within n (2 ^ a) -> within n (2 ^ b) -> p = 0 \/ p = 2 ^ a -> a <> b ->
  let s := if a <? b then b - a else a - b in
  0 <= s < n /\ shift_val (if a <? b then OP_SHL else OP_LSR) n p s = if p =? 0 then 0 else 2 ^ b.
Proof.
  intros Hn Ha Hb Wa Wb Hp Hne s. assert (a < n /\ b < n) as [La Lb] by (unfold within, good_size in *; split; apply (Z.pow_lt_mono_r_iff 2); lia).
  split; [subst s; destruct (Z.ltb_spec a b); lia|]. destruct Hp as [-> | ->].
  - change (0 =? 0) with true. cbv iota. apply Z.bits_inj'. intros k Hk. subst s.
    destruct (Z.ltb_spec a b); rewrite testbit_shift by (done || lia); by rewrite Z.testbit_0_l, andb_false_r, Z.testbit_0_l.
  - assert ((2 ^ a =? 0) = false) as -> by (apply Z.eqb_neq; pose proof (Z.pow_pos_nonneg 2 a); lia). apply Z.bits_inj'. intros k Hk. subst s.
    destruct (Z.ltb_spec a b); rewrite testbit_shift by (done || lia); bit; rewrite !Z.pow2_bits_eqb by done.
    + destruct (Z.ltb_spec k n), (Z.eqb_spec a (k - (b - a))), (Z.eqb_spec b k); simpl; try done; lia.
    + destruct (Z.eqb_spec a (k + (a - b))), (Z.eqb_spec b k); simpl; try done; lia.
Qed.

Lemma sel_bit_ok d i x j y v w : select d i x -> src1 x = REG j -> computes d j y -> op y = OP_AND -> src2 y = VAL v -> is_power_of_2 v = true ->
  src2 x = VAL w -> is_power_of_2 w = true -> src3 x = VAL 0 -> size x = size y ->
  let s1 := log2_exact v in let s2 := log2_exact w in
  ok d (if s1 =? s2 then replace_with_pseudo i (src1 x) d
    else (REPEAT_CSE, modify i (fun x => set_src2 (value_pseudo (if s1 <? s2 then s2 - s1 else s1 - s2))
            (set_op (if s1 <? s2 then OP_SHL else OP_LSR) x)) d)).
Proof.
  intros Hs Hp Hy Hoy Hv Pv Hw Pw H3 Hsz s1 s2. pose proof Hs as [Hwf Hc Ho]. subst s1 s2. unfold log2_exact.
  assert (is_s64 v) as V64 by (apply (below_s64 d j (src2 y)); [done|apply below_src2; [done|by rewrite Hoy]|done]).
  assert (is_s64 w) as W64 by (apply (below_s64 d i (src2 x)); [done|apply (se_below d i x); auto|done]).
  destruct (is_power_of_2_eq v V64 Pv) as [Ev Hv0]. destruct (is_power_of_2_eq w W64 Pw) as [Ew Hw0].
  assert (forall r, sat r d -> good_size (size x) /\ within (size x) (u64 v) /\ within (size x) (u64 w) /\ within (size x) (r j) /\
    (r j = 0 \/ r j = u64 v) /\ r i = if r j =? 0 then 0 else u64 w) as Hval.
  { intros r Hr. destruct (se_value d i x r Hs Hr) as (Gn & _ & Ww & _ & E). rewrite Hw, H3, Hp in *. simpl in *.
    apply (sat_computes r) in Hy as [Ht Hsem]; [|done]. pose proof (sem_within _ _ _ _ _ Ht Hsem). unfold typed, sem in *. rewrite Hoy, Hv in *. simpl in *.
    injection Hsem as Ej. rewrite Hsz in *. split_and!; try done; [apply Ht|]. rewrite <- Ej. by apply power_cases. }
  destruct (Z.eqb_spec (Z.log2 (u64 v)) (Z.log2 (u64 w))) as [El|Hnl].
  - apply (sel_pseudo_ok d i x); auto. intros r Hr. destruct (Hval r Hr) as (_ & _ & _ & _ & Hj & ->). rewrite Hp. simpl.
    assert (u64 w = u64 v) as -> by (rewrite Ev, Ew; congruence). destruct Hj as [-> | ->]; [done|]. by destruct (Z.eqb_spec (u64 v) 0).
  - apply (change_ok d i x); [done|done| |].
    + split; [apply Hc|simpl; by destruct (_ <? _)|]. intros p Hin. rewrite operands_2 in Hin by (simpl; by destruct (_ <? _)). simpl in Hin.
      elems Hin; [apply (se_below d i x); auto|apply below_value, s64_range].
    + intros r Hr. destruct (Hval r Hr) as (Gn & Wv & Ww & Wj & Hj & E). rewrite Ev in Wv, Hj. rewrite Ew in Ww, E.
      destruct (pow2_shift (size x) _ _ (r j) Gn (Z.log2_nonneg _) (Z.log2_nonneg _) Wv Ww Hj Hnl) as [Hlt Esh].
      apply holds_shift; [simpl; by destruct (_ <? _)|]. cbn [set_src2 set_op op size src1 src2]. rewrite Hp. simpl val.
      rewrite (count_within (size x)) by done. split_and!; try done; try lia; by rewrite Esh.
Qed.
End select.

Section select.
Context `{At : Atoms} `{Dom : Domtree}.

(** ** An operation on one side *)

Definition sel_folds (o : opcode) : bool := match o with OP_ADD | OP_OR | OP_XOR => true | _ => false end.

Lemma fold_zero o e : sel_folds o = true -> fold_val o 0 e = e.
Proof. destruct o; try done; intros _; simpl; rewrite ?Z.lxor_0_l; done. Qed.

Lemma move_not_self p k d : can_move_to p k d = true -> p <> REG k.
Proof. unfold can_move_to. intros H ->. destruct (one_use d (REG k)); [|done]. simpl in H. by rewrite Z.eqb_refl in H. Qed.

Lemma swap_select_eq d i x j y a b c e : computes d i x -> computes d j y -> i <> j ->
  exists p1 p2 p3 p4 p5, swap_select i j a b c e d = (REPEAT_CSE,
    remove_usage p1 (remove_usage p2 (remove_usage p3 (remove_usage p4 (remove_usage p5
      (modify i (fun z => set_src2 e (set_src1 (REG j) (set_op (op y) (set_src3 VOID z))))
        (modify j (fun z => set_src2 b (set_src1 a (set_op (op x) (set_src3 c z)))) d))))))).
Proof.
  intros Hx Hy Hne. unfold swap_select, swap_insn, replace_insn_pair. do 5 eexists. f_equal. do 5 f_equal.
  set (d0 := modify i (set_src3 VOID) (modify j (set_src3 c) d)).
  assert (insn_at d0 i = set_src3 VOID x) as ->.
  { unfold insn_at, d0. by rewrite lookup_modify, lookup_modify_ne, (c_lookup _ _ _ Hx). }
  assert (insn_at d0 j = set_src3 c y) as ->.
  { unfold insn_at, d0. by rewrite lookup_modify_ne, lookup_modify, (c_lookup _ _ _ Hy). }
  unfold d0. rewrite (modify_comm j i), !modify_modify by done. done.
Qed.

(** SEL(c, OP(e, z), e) becomes OP(SEL(c, z, 0), e), and the same on the other side. *)
Lemma swap_select_ok d i x j y e z b c : select d i x -> computes d j y -> sel_folds (op y) = true -> size y = size x ->
  can_move_to (src1 x) j d = true -> (src1 y = e /\ src2 y = z \/ src2 y = e /\ src1 y = z) ->
  (src2 x = REG j /\ src3 x = e /\ b = z /\ c = VAL 0 \/ src3 x = REG j /\ src2 x = e /\ b = VAL 0 /\ c = z) ->
  ok d (swap_select i j (src1 x) b c e d).
Proof.
  intros Hs Hy Hoy Hsz Hm Hez Hside. pose proof Hs as [Hwf Hc Ho]. assert (folds2 (op y) = true) as Hf by (by destruct (op y)).
  assert (below d i (REG j)) as Hb by (destruct Hside as [(<- & _)|(<- & _)]; apply (se_below d i x); auto).
  assert (i <> j) as Hne by (intros <-; by apply (below_not_self d i)).
  assert (below d j e /\ below d j z) as [Be Bz].
  { destruct Hez as [[<- <-]|[<- <-]]; split; first [by apply below_src1|apply below_src2; [done|by apply arity_folds2]]. }
  assert (e <> REG j /\ z <> REG j) as [Ne Nz] by (split; intros ->; by apply (below_not_self d j)).
  pose proof (move_not_self _ _ _ Hm) as Nc. pose proof (move_one_use _ _ _ Hm) as Hu.
  destruct (swap_select_eq d i x j y (src1 x) b c e Hc Hy Hne) as (p1 & p2 & p3 & p4 & p5 & ->). apply ok_changed.
  eapply sound_kills; [|do 4 apply kills_remove; apply remove_usage_kills]. rewrite Ho.
  set (gy := set_src2 b (set_src1 (src1 x) (set_op OP_SEL (set_src3 c y)))). set (fx := set_src2 e (set_src1 (REG j) (set_op (op y) (set_src3 VOID x)))).
  assert (operands gy = [src1 x; b; c]) as Og by done.
  assert (operands fx = [REG j; e]) as Of by (rewrite operands_2; [done|by apply arity_folds2]).
  apply (inner_sound d i x _ j y); try done.
  - apply (one_use_user d j i x); [done|apply Hc|]. rewrite operands_3 by done. destruct Hside as [(<- & _)|(<- & _)]; member.
  - split; [apply Hc|by apply arity_folds2|]. intros p Hin. change (p ∈ operands fx) in Hin. rewrite Of in Hin. elems Hin; [done|by apply below_trans with j].
  - split; [apply Hy|done|]. intros p Hin. change (p ∈ operands gy) in Hin. rewrite Og in Hin.
    assert (below d i (VAL 0)) by (apply below_value; unfold is_s64, two63; lia). assert (below d i z) by (by apply below_trans with j).
    elems Hin; [apply (se_below d i x); auto|destruct Hside as [(_ & _ & -> & _)|(_ & _ & -> & _)]; done|destruct Hside as [(_ & _ & _ & ->)|(_ & _ & _ & ->)]; done].
  - change (REG j ∉ operands gy). rewrite Og, !not_elem_of_cons. split_and!; [congruence| | |apply not_elem_of_nil];
      destruct Hside as [(_ & _ & -> & ->)|(_ & _ & -> & ->)]; congruence.
  - intros r Hr. fold gy fx. destruct (se_value d i x r Hs Hr) as (Gn & W1 & W2 & W3 & E).
    apply (sat_computes r) in Hy; [|done]. apply holds_fold in Hy as (Gy & Wy1 & Wy2 & Ej); [|done].
    assert (r j = ucast (size y) (fold_val (op y) (val r z) (val r e)) /\ within (size y) (val r e) /\ within (size y) (val r z)) as (Ej' & We & Wz).
    { destruct Hez as [[<- <-]|[<- <-]]; [by rewrite fold_comm by done|done]. }
    exists (if val r (src1 x) =? 0 then val r c else val r b). set (v := if _ =? 0 then _ else _). pose proof (good_nonneg _ Gy).
    assert (within (size y) (val r b) /\ within (size y) (val r c)) as [Wb Wc].
    { destruct Hside as [(_ & _ & -> & ->)|(_ & _ & -> & ->)]; split; try done; by apply within_0. }
    assert (forall p, p <> REG j -> val (set_reg j v r) p = val r p) as Hval by (intros p; by apply val_set_reg).
    assert (b <> REG j /\ c <> REG j) as [Nb Nc'] by (by destruct Hside as [(_ & _ & -> & ->)|(_ & _ & -> & ->)]). split.
    + apply holds_sel; [done|]. change (src3 gy) with c. cbn [gy size src1 src2 set_src2 set_src1 set_op set_src3].
      rewrite !Hval, set_reg_eq by done. by split_and!.
    + apply holds_fold; [done|]. cbn [fx op size src1 src2 set_src2 set_src1 set_op set_src3]. simpl val at 1 3. rewrite Hval, set_reg_eq, set_reg_ne by done.
      rewrite <- Hsz. split_and!; try done; [subst v; by destruct (_ =? 0)|]. rewrite E. subst v.
      destruct Hside as [(H2 & H3 & -> & ->)|(H3 & H2 & -> & ->)]; rewrite H2, H3; simpl; change (u64 0) with 0;
        destruct (val r (src1 x) =? 0); rewrite ?Ej', ?fold_zero by done; try done; symmetry; by apply ucast_id.
Qed.

Lemma sized_sel d i x : well_sized d = true -> select d i x -> sized d (src2 x) (size x) /\ sized d (src3 x) (size x).
Proof.
  intros Hs [_ Hc Ho]. pose proof (well_sized_at d i x Hs (c_lookup _ _ _ Hc)) as H. unfold insn_sized in H. rewrite Ho in H.
  apply andb_true_iff in H as [H2 H3]. split; by apply fits_sized.
Qed.

(** One of the two switches; [e] is the other side. *)
Lemma select_side_ok d i x j y e (b c : pseudo -> pseudo) : select d i x -> computes d j y -> size y = size x ->
  (src2 x = REG j /\ src3 x = e /\ b = id /\ c = (fun _ => VAL 0) \/ src3 x = REG j /\ src2 x = e /\ b = (fun _ => VAL 0) /\ c = id) ->
  ok d (match op y with
        | OP_ADD | OP_OR | OP_XOR =>
          if peq (src1 y) e && can_move_to (src1 x) j d then swap_select i j (src1 x) (b (src2 y)) (c (src2 y)) e d
          else if peq (src2 y) e && can_move_to (src1 x) j d then swap_select i j (src1 x) (b (src1 y)) (c (src1 y)) e d
          else (0, d)
        | _ => (0, d)
        end).
Proof.
  intros Hs Hy Hsz Hside. pose proof Hs as [Hwf _ _].
  assert (sel_folds (op y) = true -> ok d
    (if peq (src1 y) e && can_move_to (src1 x) j d then swap_select i j (src1 x) (b (src2 y)) (c (src2 y)) e d
     else if peq (src2 y) e && can_move_to (src1 x) j d then swap_select i j (src1 x) (b (src1 y)) (c (src1 y)) e d else (0, d))) as H.
  { intros Hf. destruct (peq (src1 y) e && _) eqn:E1; [|destruct (peq (src2 y) e && _) eqn:E2; [|same]].
    - apply andb_true_iff in E1 as [E1%peq_true Hm]. apply (swap_select_ok d i x j y e (src2 y)); auto.
      destruct Hside as [(? & ? & -> & ->)|(? & ? & -> & ->)]; auto.
    - apply andb_true_iff in E2 as [E2%peq_true Hm]. apply (swap_select_ok d i x j y e (src1 y)); auto.
      destruct Hside as [(? & ? & -> & ->)|(? & ? & -> & ->)]; auto. }
  destruct (op y); first [same|by apply H].
Qed.

Lemma select_binop_ok d i x : select d i x -> well_sized d = true -> ok d (select_binop i (src1 x) (src2 x) (src3 x) d).
Proof.
  intros Hs Hw. pose proof Hs as [Hwf _ _]. destruct (sized_sel d i x Hw Hs) as [S2 S3]. apply or_else_ok.
  - destruct (def_of d (src2 x)) as [[j y]|] eqn:Hd; [|same]. destruct (is_value_op (op y)) eqn:Hv; [|destruct (op y); first [done|same]].
    destruct (se_def d i x (src2 x) j y) as (Hp & Hy & _); auto. apply (select_side_ok d i x j y (src3 x) id (fun _ => VAL 0)); auto.
    by apply (S2 j y).
  - destruct (def_of d (src3 x)) as [[j y]|] eqn:Hd; [|same]. destruct (is_value_op (op y)) eqn:Hv; [|destruct (op y); first [done|same]].
    destruct (se_def d i x (src3 x) j y) as (Hp & Hy & _); auto. apply (select_side_ok d i x j y (src2 x) (fun _ => VAL 0) id); auto.
    by apply (S3 j y).
Qed.

Lemma select_and_ok d i x j y next : select d i x -> src1 x = REG j -> computes d j y -> op y = OP_AND -> ok d (next d) ->
  ok d (select_and i y (src1 x) (src2 x) (src3 x) next d).
Proof.
  intros Hs Hp Hy Hoy Hn. unfold select_and. rewrite (at_computes _ _ _ (se_x _ _ _ Hs)). destruct (_ && _) eqn:E; [|done].
  apply andb_true_iff in E as [[[[(v & Hv & Pv)%pow2_val (w & Hw & Pw)%pow2_val]%andb_true_iff H3%is_zero_val]%andb_true_iff Hsz%Z.eqb_eq]%andb_true_iff _].
  rewrite Hv, Hw. by apply (sel_bit_ok d i x j y v w).
Qed.

Lemma select_cond_ok d i x j y next : select d i x -> src1 x = REG j -> def_of d (src1 x) = Some (j, y) -> computes d j y ->
  fragile_select d x = false -> ok d (next d) -> ok d (select_cond i j y (src1 x) (src2 x) (src3 x) next d).
Proof.
  intros Hs Hp Hd Hy Hf Hn. pose proof Hs as [Hwf Hc Ho]. unfold select_cond, fragile_select in *. rewrite Hd in Hf.
  assert (forall o, op y = o -> is_equality o = true ->
    ok d (if (peq (src2 x) (src1 y) && peq (src3 x) (src2 y)) || (peq (src3 x) (src1 y) && peq (src2 x) (src2 y))
          then replace_with_pseudo i (if oeq o OP_SET_EQ then src3 x else src2 x) d else next d)) as Heq.
  { intros o Hoy Hq. destruct (_ || _) eqn:E; [|done]. rewrite <- Hoy in Hq |- *. apply (sel_equal_ok d i x j y); try done.
    apply orb_true_iff in E as [[E1%peq_true E2%peq_true]%andb_true_iff|[E1%peq_true E2%peq_true]%andb_true_iff]; auto. }
  assert (OPF_COMPARE (op y) = true ->
    ok d (if negb (one_use d (src1 x)) then next d
          else switch_pseudo i P2 i P3 (modify j (fun y => set_op (opcode_negate (op y)) y) d))) as Hneg.
  { intros Hcy. destruct (one_use d (src1 x)) eqn:Hu; simpl negb; [|done]. rewrite Hp in Hu. by apply (sel_negate_ok d i x j y). }
  destruct (op y) eqn:Hoy; try done; first [by apply Hneg|by apply (select_and_ok d i x j y)|by apply (Heq OP_SET_EQ)|by apply (Heq OP_SET_NE)|idtac].
  - destruct (one_use d (src1 x) && is_zero (src2 y) && is_negate_of d (src3 x) (src2 x)) eqn:E; [|done]. simpl in Hf.
    apply negb_false_iff, peq_true in Hf. apply andb_true_iff in E as [[Hu H2%is_zero_val]%andb_true_iff Hng]. rewrite Hp in Hu.
    unfold is_negate_of in Hng. destruct (def_of d (src3 x)) as [[k z]|] eqn:Hdz; [|done]. apply andb_true_iff in Hng as [Hoz%bool_decide_eq_true Hz1%peq_true].
    destruct (se_def d i x (src3 x) k z) as (Hp3 & Hz & _); auto; [by rewrite Hoz|]. by apply (sel_abs_ok d i x j y k z).
  - destruct (constant (src2 y) && constant (src3 y)) eqn:E.
    + apply andb_true_iff in E as [[v Hv]%constant_inv [w Hw]%constant_inv]. apply (sel_nested_ok d i x j y v w); try done.
      intros [-> ->]. by rewrite Hv, Hw in Hf.
    + unfold select_and. by rewrite (at_computes _ _ _ Hc), Hf.
Qed.

Lemma simplify_select_ok d i x : select d i x -> well_sized d = true -> fragile_select d x = false -> ok d (simplify_select i d).
Proof.
  intros Hs Hw Hf. pose proof Hs as [Hwf Hc Ho]. unfold simplify_select. rewrite (at_computes _ _ _ Hc).
  destruct (constant (src1 x)) eqn:Hk; [apply constant_inv in Hk as [v Hv]; rewrite Hv; by apply (sel_constant_ok d i x v)|].
  destruct (peq (src2 x) (src3 x)) eqn:E; [apply peq_true in E; by apply (sel_same_ok d i x)|]. apply peq_false in E.
  destruct (constant (src2 x) && constant (src3 x) && _) eqn:E2.
  { apply andb_true_iff in E2 as [[[v Hv]%constant_inv [w Hw']%constant_inv]%andb_true_iff E2%Z.eqb_eq].
    pose proof (sel_bool_ok d i x v w Hs Hv Hw') as H. rewrite Hv, Hw' in *. apply H; [congruence|done]. }
  clear E2. destruct (peq (src1 x) (src3 x) && is_zero (src2 x)) eqn:E3.
  { apply andb_true_iff in E3 as [E3%peq_true Hz]. by apply (sel_zero_cond_ok d i x). }
  destruct (peq (src1 x) (src2 x) && is_zero (src3 x)) eqn:E4.
  { apply andb_true_iff in E4 as [E4%peq_true Hz]. by apply (sel_cond_zero_ok d i x). }
  pose proof (select_binop_ok d i x Hs Hw) as Hb. destruct (def_of d (src1 x)) as [[j y]|] eqn:Hd; [|done].
  destruct (is_value_op (op y)) eqn:Hv; [|unfold select_cond; by destruct (op y)].
  destruct (se_def d i x (src1 x) j y) as (Hp & Hy & _); auto. by apply select_cond_ok.
Qed.
End select.
