(* ===== verification/SimplifyTheorems.v ===== *)
(** * One instruction: simplify_instruction() *)
From stdpp Require Import base option gmap list.
From S2P Require Import Prelude Bits Simplify SimplifyFacts SimplifyConst SimplifyRules SimplifyAlgebra SimplifyCompare SimplifyMask SimplifyShift SimplifyBinop SimplifyCast SimplifySelect.
#[local] Open Scope Z_scope.

(** (x >= 0) & (y <= C) for other x and y *)
Definition range_mismatch (d : dag) (p1 p2 : pseudo) : bool :=
  match def_of d p1, def_of d p2 with
  | Some (_, y), Some (_, z) =>
    oeq (op y) OP_SET_GE && is_zero (src2 y) && oeq (op z) OP_SET_LE && is_positive (src2 z) (itype z) && negb (peq (src1 z) (src1 y))
  | _, _ => false
  end.

(** The instruction is one of those that the rules get wrong. *)
Definition fragile (i : Z) (d : dag) : bool :=
  let x := insn_at d i in
  match op x with
  | OP_AND => range_mismatch d (src1 x) (src2 x) || range_mismatch d (src2 x) (src1 x)
  | OP_SEXT => fragile_cast d x
  | OP_SEL => fragile_select d x
  | o => OPF_COMPARE o && constant (src2 x) && above_or i d
  end.

Section top.
Context `{At : Atoms} `{Dom : Domtree}.

(** ** The order of operands *)

Lemma computes_switched d i x f z : computes d i x -> live (f x) -> is_value_op (op (f x)) = true -> computes (set_repeat z (modify i f d)) i (f x).
Proof. intros Hc Hl Ho. by destruct (computes_changed d i x f Hc Hl Ho). Qed.

Lemma commutative_computes d i x : computes d i x -> arity (op x) = 2 ->
  exists x', computes (canonicalize_commutative i d).2 i x' /\ op x' = op x.
Proof.
  intros Hc Ha. unfold canonicalize_commutative. rewrite (at_computes _ _ _ Hc). destruct (canonical_order _ _); [by exists x|].
  pose proof (switch_args d i x Hc Ha) as E. destruct (switch_pseudo _ _ _ _ _) as [rc d']. simpl in E |- *. subst d'.
  eexists. split; [apply computes_switched; [done|apply Hc|apply Hc]|done].
Qed.

Lemma compare_computes d i x : computes d i x -> OPF_COMPARE (op x) = true ->
  exists x', computes (canonicalize_compare i d).2 i x' /\ (op x' = op x \/ op x' = opcode_swap (op x)).
Proof.
  intros Hc Ho. unfold canonicalize_compare. rewrite (at_computes _ _ _ Hc). destruct (canonical_order _ _); [exists x; auto|].
  pose proof (switch_args d i x Hc ltac:(by destruct (op x))) as E. destruct (switch_pseudo _ _ _ _ _) as [rc d']. simpl in E |- *. subst d'.
  rewrite modify_modify. eexists. split; [apply computes_switched; [done|apply Hc|simpl; by destruct (op x)]|]. auto.
Qed.

(** The kinds of opcode that the order does not change. *)
Record same_kind (a b : opcode) : Prop := {
  sk_binop : OPF_BINOP a = OPF_BINOP b;
  sk_assoc : OPF_ASSOC a = OPF_ASSOC b;
  sk_unop : OPF_UNOP a = OPF_UNOP b;
  sk_compare : OPF_COMPARE a = OPF_COMPARE b;
  sk_other : OPF_COMPARE b = false -> a = b
}.

Lemma same_kind_refl a : same_kind a a.
Proof. by split. Qed.

Lemma canonicalize_computes d i x : wf d -> computes d i x ->
  sound d (canonicalize i d) /\ exists x', computes (canonicalize i d) i x' /\ same_kind (op x') (op x).
Proof.
  intros Hwf Hc. unfold canonicalize. rewrite (at_computes _ _ _ Hc). set (d1 := if OPF_COMMU (op x) then _ else _).
  assert (sound d d1 /\ exists x1, computes d1 i x1 /\ op x1 = op x) as [Hs1 (x1 & Hc1 & E1)].
  { subst d1. destruct (OPF_COMMU (op x)) eqn:Hco; [|split; [by apply sound_refl|by exists x]].
    split; [by apply (canonicalize_commutative_sound d i x)|]. apply commutative_computes; [done|]. by destruct (op x). }
  destruct (OPF_COMPARE (op x)) eqn:Ho; [|split; [done|]; exists x1; rewrite E1; auto using same_kind_refl].
  rewrite <- E1 in Ho |- *. split; [eapply sound_trans; [done|intros Hwf1; by apply (canonicalize_compare_sound d1 i x1)]|].
  destruct (compare_computes d1 i x1 Hc1 Ho) as (x2 & Hc2 & E2). exists x2. split; [done|].
  destruct E2 as [-> | ->]; [apply same_kind_refl|]. split; destruct (op x1); try done.
Qed.

(** ** The rules *)

Lemma logical_types d i x : well_sized d = true -> computes d i x -> bitwise (op x) = true ->
  (forall j y, def_of d (src1 x) = Some (j, y) -> same_types d y (src2 x)) /\ (forall j y, def_of d (src2 x) = Some (j, y) -> same_types d y (src1 x)).
Proof.
  intros Hs Hc Ho. pose proof (well_sized_at d i x Hs (c_lookup _ _ _ Hc)) as H. unfold insn_sized in H.
  assert (same_compares d x = true) as Hsc by (destruct (op x); try done; by apply andb_true_iff in H as [_ H]). unfold same_compares in Hsc.
  assert (forall p q, p = q -> peq p q = true) as Hpeq by (intros p q ->; by apply bool_decide_eq_true).
  split; intros j y Hy k z Hz Hcy Hcz E; rewrite Hy, Hz, Hcy, Hcz, Hpeq in Hsc by done; simpl in Hsc; apply Z.eqb_eq in Hsc; congruence.
Qed.

Lemma matching_range d p1 p2 j y : range_mismatch d p1 p2 = false -> def_of d p1 = Some (j, y) -> same_range d y p2.
Proof.
  unfold range_mismatch. intros H Hy k z Hz Hoy H2 Hoz Hpos. rewrite Hy, Hz, Hoy, H2, Hoz, Hpos in H. simpl in H.
  by apply negb_false_iff, peq_true in H.
Qed.

(** The switch of simplify_instruction(). *)
Lemma simplify_value_ok d i x : wf d -> computes d i x -> well_sized d = true -> fragile i d = false -> ok d (simplify_value i d).
Proof.
  intros Hwf Hc Hs Hf. unfold simplify_value, fragile in *. rewrite (at_computes _ _ _ Hc) in *.
  assert (op x = OP_UTPTR \/ op x = OP_PTRTU \/ op x = OP_SYMADDR -> ok d (replace_with_pseudo i (src1 x) d)) as Hid.
  { intros Ho. apply (replace_with_pseudo_ok i x); [done|done|by apply below_src1|]. intros r Hr.
    apply (sat_computes r) in Hc as [_ Hsem]; [|done]. unfold sem in Hsem. by destruct Ho as [Ho|[Ho|Ho]]; rewrite Ho in Hsem; injection Hsem. }
  assert (OPF_COMPARE (op x) = true -> ok d (simplify_compare i d)) as Hcmp.
  { intros Ho. apply (simplify_compare_ok d i x); try done. by apply (sized_cmp d i x). }
  assert (folds2 (op x) = true \/ op x = OP_SUB -> sized2 d x) as Hsz by apply (sized_two d i x Hs Hc).
  pose proof (logical_types d i x Hs Hc) as Hlt. destruct (op x) eqn:Ho; try same; auto.
  - apply (simplify_add_ok d i x); auto.
  - apply (simplify_sub_ok d i x); auto.
  - apply orb_false_iff in Hf as [Hf1 Hf2]. destruct (Hlt eq_refl) as [H1 H2].
    apply (simplify_and_ok d i x); auto; intros j y Hd; (split; [eauto|by eapply matching_range]).
  - destruct (Hlt eq_refl) as [H1 H2]. apply (simplify_ior_ok d i x); auto.
  - destruct (Hlt eq_refl) as [H1 H2]. apply (simplify_xor_ok d i x); auto.
  - apply (simplify_cast_ok d i x); try done; [by rewrite Ho|]. unfold fragile_cast. by rewrite Ho.
  - apply (simplify_cast_ok d i x); try done; [by rewrite Ho|]. unfold fragile_cast. by rewrite Ho.
  - apply (simplify_cast_ok d i x); try done. by rewrite Ho.
  - by apply (simplify_select_ok d i x).
Qed.

Lemma not_fragile_above d i x : computes d i x -> fragile i d = false -> OPF_COMPARE (op x) = true -> constant (src2 x) = true -> above_or i d = false.
Proof. intros Hc Hf Ho Hk. unfold fragile in Hf. rewrite (at_computes _ _ _ Hc), Hk in Hf. by destruct (op x). Qed.

(** The rules one after the other, on a graph whose operands are in order. *)
Lemma rules_sound d i x o : wf d -> computes d i x -> same_kind (op x) o -> well_sized d = true -> fragile i d = false ->
  sound d (or_else (fun d => if OPF_BINOP o then simplify_binop i d else (0, d))
    (or_else (fun d => if OPF_ASSOC o then simplify_associative_binop i d else (0, d))
      (or_else (fun d => if OPF_UNOP o then simplify_unop i d else (0, d)) (simplify_value i))) d).2.
Proof.
  intros Hwf Hc [E1 E2 E3 _ _] Hs Hf. rewrite <- E1, <- E2, <- E3.
  assert (ok d (simplify_value i d)) as Hv by (by apply (simplify_value_ok d i x)).
  pose proof (not_fragile_above d i x Hc Hf) as Ha. destruct (shifts (op x)) eqn:Hsh.
  - assert (OPF_BINOP (op x) = true /\ OPF_ASSOC (op x) = false /\ OPF_UNOP (op x) = false) as (Hb & -> & ->) by (by destruct (op x)).
    pose proof (simplify_binop_ok d i x Hwf Hc Hb Hs Ha) as Hok. rewrite Hb, Hsh in *. destruct Hok as [Hsd Hst]. unfold or_else.
    destruct (simplify_binop i d) as [rc d1]. simpl in *. destruct (Z.eqb_spec rc 0) as [-> |_]; [|done]. unfold simplify_value.
    specialize (Hst eq_refl). by destruct (op (insn_at d1 i)).
  - apply or_else_ok; [|apply or_else_ok; [|apply or_else_ok; [|done]]].
    + destruct (OPF_BINOP (op x)) eqn:Hb; [|same]. pose proof (simplify_binop_ok d i x Hwf Hc Hb Hs Ha) as Hok. by rewrite Hsh in Hok.
    + destruct (OPF_ASSOC (op x)) eqn:Hb; [|same]. apply (simplify_associative_binop_ok d i x); try done.
      apply (sized_two d i x); try done. left. by destruct (op x).
    + destruct (OPF_UNOP (op x)) eqn:Hb; [|same]. apply (simplify_unop_ok d i x); try done; [by destruct (op x); auto|].
      apply (sized_shift d i x); try done. right. by destruct (op x); auto.
Qed.

Lemma unused_kill_sound d i : wf d -> has_users d (REG i) = false -> sound d (kill_instruction i d).2.
Proof. intros Hwf Hu. apply kills_sound; [done|]. apply kill_instruction_kills. by apply has_users_false. Qed.

Lemma instruction_sound d i x : wf d -> computes d i x -> well_sized (canonicalize i d) = true -> fragile i (canonicalize i d) = false ->
  sound d (simplify_instruction i d).2.
Proof.
  intros Hwf Hc Hs Hf. unfold simplify_instruction. rewrite (at_computes _ _ _ Hc). pose proof (c_op _ _ _ Hc) as Hv.
  destruct (canonicalize_computes d i x Hwf Hc) as [Hsd (x' & Hc' & Hk)].
  assert (sound d (if negb (has_users d (REG i)) then kill_instruction i d
    else or_else (fun d => if OPF_BINOP (op x) then simplify_binop i d else (0, d))
      (or_else (fun d => if OPF_ASSOC (op x) then simplify_associative_binop i d else (0, d))
        (or_else (fun d => if OPF_UNOP (op x) then simplify_unop i d else (0, d)) (simplify_value i))) (canonicalize i d)).2) as H.
  { destruct (has_users d (REG i)) eqn:Hu; simpl negb; [|by apply unused_kill_sound]. cbv iota.
    eapply sound_trans; [done|]. intros Hwf'. by apply (rules_sound _ i x'). }
  by destruct (op x).
Qed.

(** ** A check of graphs whose registers are numbered in the order of their definitions *)

Definition operand_wf (d : dag) (i : Z) (value : bool) (p : pseudo) : bool :=
  match p with
  | REG j => match insns d !! j with Some y => bool_decide (bb y <> None) | None => true end && (negb value || ((0 <=? j) && (j <? i)))
  | VAL v => (- two63 <=? v) && (v <? two63)
  | _ => true
  end.

Definition ordered (d : dag) : bool :=
  forallb (fun ix : Z * insn => forallb (operand_wf d ix.1 (is_value_op (op ix.2))) (operands ix.2)) (map_to_list (insns d)).

Lemma ordered_at d i x p : ordered d = true -> insns d !! i = Some x -> p ∈ operands x -> operand_wf d i (is_value_op (op x)) p = true.
Proof.
  unfold ordered. rewrite forallb_forall. intros H Hx Hp. specialize (H (i, x)). rewrite forallb_forall in H.
  apply H; [apply list_elem_of_In; by apply elem_of_map_to_list|by apply list_elem_of_In].
Qed.

Lemma ordered_wf d : ordered d = true -> wf d.
Proof.
  intros H. split.
  - intros i x j y Hx _ Hin Hy. pose proof (ordered_at d i x _ H Hx Hin) as Ho. simpl in Ho. rewrite Hy in Ho.
    apply andb_true_iff in Ho as [Ho _]. by apply bool_decide_eq_true in Ho.
  - exists Z.to_nat. intros i x j Hx _ Hv Hin. pose proof (ordered_at d i x _ H Hx Hin) as Ho. simpl in Ho. rewrite Hv in Ho.
    apply andb_true_iff in Ho as [_ Ho]. simpl in Ho. lia.
  - intros i x v Hx _ Hin. pose proof (ordered_at d i x _ H Hx Hin) as Ho. simpl in Ho. unfold is_s64. lia.
Qed.
End top.

(** ** Theorems on the simplification of instructions *)

(** ** Graphs of examples *)

(** An instruction of a block 0. *)
Definition mk (o : opcode) (n : Z) (a b : pseudo) (u : slot) : insn := Insn o false n (Some 0) a b u [].

(** An instruction that uses the register, as a return does. *)
Definition user (r : Z) : insn := Insn (OP_OTHER true) false 0 (Some 0) VOID VOID (Src3 VOID) [REG r].

Definition graph (l : list insn) : dag :=
  let nrs := Z.of_nat <$> seq 1 (length l) in Dag (list_to_map (zip nrs l)) {[0 := nrs]} 0.

(** A bit field that is set and read: ((x & ~0xf0) | (7 << 4)) >> 4) & 15 *)
Definition field : dag :=
  graph [mk OP_AND 32 (ARG 1) (VAL 0xffffff0f) (Typ 0); mk OP_OR 32 (REG 1) (VAL 0x70) (Typ 0);
         mk OP_LSR 32 (REG 2) (VAL 4) (Typ 0); mk OP_AND 32 (REG 3) (VAL 15) (Typ 0); user 4].

(** The graphs on which the rules are wrong, with the instruction and the values of two arguments.
    (x >= 0) & (y <= 5); x | 1 > 1; the sign of a comparison of one bit; the sign of a masked value of 40 bits;
    SEL(x > 0, y, -y); SEL(SEL(x, 0, 0), 3, 5); SEL(SEL(x, 4, y), 8, 0). *)
Definition counterexamples : list (dag * Z * (Z * Z)) := [
  (graph [mk OP_SET_GE 32 (ARG 1) (VAL 0) (Typ 32); mk OP_SET_LE 32 (ARG 2) (VAL 5) (Typ 32); mk OP_AND 32 (REG 1) (REG 2) (Typ 0); user 3],
    3, (0xffffffff, 3));
  (graph [mk OP_OR 32 (ARG 1) (VAL 1) (Typ 0); mk OP_SET_A 32 (REG 1) (VAL 1) (Typ 32); user 2], 2, (0, 0));
  (graph [mk OP_SET_LT 1 (ARG 1) (ARG 2) (Typ 32); mk OP_SEXT 32 (REG 1) VOID (Typ 1); user 2], 2, (0, 1));
  (graph [mk OP_AND 40 (ARG 1) (VAL 0x8000000001) (Typ 0); mk OP_SEXT 64 (REG 1) VOID (Typ 40); user 2], 2, (0x8000000000, 0));
  (graph [mk OP_SET_GT 32 (ARG 1) (VAL 0) (Typ 32); mk OP_NEG 32 (ARG 2) VOID (Typ 0);
          mk OP_SEL 32 (REG 1) (ARG 2) (Src3 (REG 2)); user 3], 3, (0, 1));
  (graph [mk OP_SEL 32 (ARG 1) (VAL 0) (Src3 (VAL 0)); mk OP_SEL 32 (REG 1) (VAL 3) (Src3 (VAL 5)); user 2], 2, (1, 0));
  (graph [mk OP_SEL 32 (ARG 1) (VAL 4) (Src3 (ARG 2)); mk OP_SEL 32 (REG 1) (VAL 8) (Src3 (VAL 0)); user 2], 2, (0, 1))
].

Definition two_args (a b : Z) : Atoms := {| atom p := match p with ARG 1 => a | ARG 2 => b | _ => 0 end |}.
Definition no_blocks : Domtree := {| domtree_dominates _ _ := false |}.

(** ** Values of graphs *)

#[export] Instance typed_dec x a b c : Decision (typed x a b c).
Proof. unfold typed, within, good_size. destruct (op x); apply _. Defined.

#[export] Instance holds_dec `{At : Atoms} r i x : Decision (holds r i x).
Proof. unfold holds. apply _. Defined.

#[export] Instance fits_dec r i x : Decision (fits r i x).
Proof. unfold fits, within, good_size. apply _. Defined.

#[export] Instance live_dec x : Decision (live x).
Proof. unfold live. apply _. Defined.

Definition satisfied `{At : Atoms} (r : valuation) (i : Z) (x : insn) : Prop := live x -> if is_value_op (op x) then holds r i x else fits r i x.

#[export] Instance satisfied_dec `{At : Atoms} r i x : Decision (satisfied r i x).
Proof. unfold satisfied. destruct (is_value_op (op x)); apply _. Defined.

(** The value of a pseudo, by the definitions of registers. *)
Fixpoint eval `{At : Atoms} (fuel : nat) (d : dag) (p : pseudo) : option Z :=
  match p, fuel with
  | REG i, S fuel =>
    x ← insns d !! i;
    if is_value_op (op x) && bool_decide (live x) then
      a ← eval fuel d (src1 x); b ← eval fuel d (src2 x); c ← eval fuel d (src3 x); sem x a b c
    else None
  | REG _, O => None
  | VAL v, _ => Some (u64 v)
  | p, _ => Some (atom p)
  end.

Lemma eval_val `{At : Atoms} r d fuel p v : sat r d -> eval fuel d p = Some v -> val r p = v.
Proof.
  intros Hr. revert p v. induction fuel as [|fuel IH]; intros p v; destruct p; simpl; try congruence.
  destruct (insns d !! nr) as [x|] eqn:Hx; simpl; [|done]. destruct (is_value_op (op x)) eqn:Ho; simpl; [|done].
  destruct (bool_decide_reflect (live x)) as [Hl|]; [|done]. specialize (Hr nr x Hx Hl). rewrite Ho in Hr. destruct Hr as [_ Hs].
  destruct (eval fuel d (src1 x)) as [a|] eqn:E1; simpl; [|done]. destruct (eval fuel d (src2 x)) as [b|] eqn:E2; simpl; [|done].
  destruct (eval fuel d (src3 x)) as [c|] eqn:E3; simpl; [|done]. rewrite <- (IH _ _ E1), <- (IH _ _ E2), <- (IH _ _ E3). congruence.
Qed.

Definition values `{At : Atoms} (d : dag) : valuation := fun i => default 0 (eval 9 d (REG i)).

(** The last instruction, which has effects, gets another value. *)
Definition differs `{At : Atoms} (d d' : dag) : bool :=
  let k := Z.of_nat (length (map_to_list (insns d))) in
  match insns d !! k, insns d' !! k with
  | Some x, Some x' =>
    match args x, args x' with
    | [p], [p'] => bool_decide (map_Forall (satisfied (values d)) (insns d)) && bool_decide (live x) && oeq (op x) (OP_OTHER true) &&
        match eval 9 d' p' with Some w => negb (val (values d) p =? w) | None => false end
    | _, _ => false
    end
  | _, _ => false
  end.

Lemma differs_unsound `{At : Atoms} d d' : differs d d' = true -> ~ sound d d'.
Proof.
  unfold differs. set (k := Z.of_nat _). destruct (insns d !! k) as [x|] eqn:Hx; [|done]. destruct (insns d' !! k) as [x'|] eqn:Hx'; [|done].
  destruct (args x) as [|p [|]] eqn:Hp; try done. destruct (args x') as [|p' [|]] eqn:Hp'; try done.
  intros [[[Hsat%bool_decide_eq_true Hl%bool_decide_eq_true]%andb_true_iff Ho%bool_decide_eq_true]%andb_true_iff He]%andb_true_iff [_ H].
  destruct (eval 9 d' p') as [w|] eqn:Ew; [|done]. destruct (Z.eqb_spec (val (values d) p) w) as [|Hne]; [done|].
  destruct (H (values d)) as (r' & Hr' & Hk1 & Hk2); [intros i y Hy; by apply (Hsat i y)|].
  destruct (Hk2 k x Hx Hl Ho) as (y' & Hy' & Hl' & Ho'). simplify_eq.
  destruct (Hk1 k x' Hx' Hl') as (y & Hy & _ & _ & _ & E); [by rewrite Ho'|]. simplify_eq. unfold operands in E. rewrite Ho, Ho', Hp, Hp' in E.
  injection E as E. apply Hne. rewrite <- E. by apply (eval_val r' d' 9).
Qed.

(** ** The theorems *)

(** C12: simplify_instruction() keeps the meaning of a program: whatever values the registers have that follow from
    the instructions, the instructions of the new graph have values with which all the instructions that are not
    simplified (loads, stores, calls, branches) have the operands and results that they had, none with effects is
    lost, and the new graph is well formed.  The operands have the sizes of their instructions, and the instruction
    is not one of the kinds that [fragile] lists. *)
Theorem simplify_instruction_sound `{At : Atoms} `{Dom : Domtree} d i x : wf d -> computes d i x ->
  well_sized (canonicalize i d) = true -> fragile i (canonicalize i d) = false -> sound d (simplify_instruction i d).2.
Proof. apply instruction_sound. Qed.

(** The field that is read loses what was masked out. *)
Lemma simplify_instruction_sound_witness : @sound (two_args 0xabcd 0) field (@simplify_instruction no_blocks 4 field).2.
Proof.
  apply (@simplify_instruction_sound (two_args 0xabcd 0) no_blocks field 4 (mk OP_AND 32 (REG 3) (VAL 15) (Typ 0))).
  - apply ordered_wf. vm_compute. reflexivity.
  - split; [vm_compute; reflexivity|discriminate|reflexivity].
  - vm_compute. reflexivity.
  - vm_compute. reflexivity.
Defined.

(** C32: each of the kinds of instruction that [fragile] lists is simplified to something else: on these graphs, which are
    well formed and sized, the result is not sound for the values of the arguments. *)
Theorem fragile_rules_unsound : Forall (fun c : dag * Z * (Z * Z) => let '(d, i, (a, b)) := c in
  wf d /\ well_sized (canonicalize i d) = true /\ fragile i (canonicalize i d) = true /\
  ~ @sound (two_args a b) d (@simplify_instruction no_blocks i d).2) counterexamples.
Proof.
  assert (forallb (fun c : dag * Z * (Z * Z) => let '(d, i, (a, b)) := c in
    ordered d && well_sized (canonicalize i d) && fragile i (canonicalize i d) &&
    @differs (two_args a b) d (@simplify_instruction no_blocks i d).2) counterexamples = true) as H by (vm_compute; reflexivity).
  rewrite forallb_forall in H. apply Forall_forall. intros [[d i] [a b]] Hin. specialize (H _ Hin). cbv beta iota in H.
  apply andb_true_iff in H as [[[Hw Hs]%andb_true_iff Hf]%andb_true_iff Hd]. split_and!; try done; [by apply ordered_wf|by apply differs_unsound].
Qed.
