(* ===== verification/Flowgraph.v ===== *)
(** * Flow graphs, flowgraph.c

    The blocks of a function by their numbers.  cfg_postorder() numbers the blocks that can be reached from the
    entry and puts them in reverse postorder, domtree_build() computes the dominators by the iteration of Cooper,
    Harvey and Kennedy, and domtree_dominates() asks for them.

    The lists of parents and children are those of the C structures; the arrays and lists that live only during a
    call are values here.  [None] stands for a failed assertion or the use of a NULL pointer, and for a loop that
    does not end within its fuel. *)
From stdpp Require Import base option gmap list.
From S2P Require Import Prelude.
#[local] Open Scope Z_scope.

Record basic_block : Set := Block {
  parents : list Z;
  children : list Z;
  generation : Z;
  postorder_nr : Z;
  idom : option Z;
  bb_doms : list Z;         (* doms *)
  dom_level : Z
}.

Definition set_generation (z : Z) (b : basic_block) : basic_block :=
  Block (parents b) (children b) z (postorder_nr b) (idom b) (bb_doms b) (dom_level b).
Definition set_postorder_nr (z : Z) (b : basic_block) : basic_block :=
  Block (parents b) (children b) (generation b) z (idom b) (bb_doms b) (dom_level b).
Definition set_idom (p : option Z) (b : basic_block) : basic_block :=
  Block (parents b) (children b) (generation b) (postorder_nr b) p (bb_doms b) (dom_level b).
Definition set_bb_doms (l : list Z) (b : basic_block) : basic_block :=
  Block (parents b) (children b) (generation b) (postorder_nr b) (idom b) l (dom_level b).
Definition set_dom_level (z : Z) (b : basic_block) : basic_block :=
  Block (parents b) (children b) (generation b) (postorder_nr b) (idom b) (bb_doms b) z.

Record entrypoint : Type := Entrypoint {
  blocks : gmap Z basic_block;
  entry : Z;                (* entry->bb *)
  ep_bbs : list Z;          (* bbs *)
  dom_levels : Z;
  bb_generation : Z         (* a variable of its own in C *)
}.

Definition set_blocks (m : gmap Z basic_block) (ep : entrypoint) : entrypoint :=
  Entrypoint m (entry ep) (ep_bbs ep) (dom_levels ep) (bb_generation ep).
Definition set_ep_bbs (l : list Z) (ep : entrypoint) : entrypoint :=
  Entrypoint (blocks ep) (entry ep) l (dom_levels ep) (bb_generation ep).
Definition set_dom_levels (z : Z) (ep : entrypoint) : entrypoint :=
  Entrypoint (blocks ep) (entry ep) (ep_bbs ep) z (bb_generation ep).
Definition set_bb_generation (z : Z) (ep : entrypoint) : entrypoint :=
  Entrypoint (blocks ep) (entry ep) (ep_bbs ep) (dom_levels ep) z.

(** ** Postorder *)

(** The blocks, and the list and the counter of struct cfg_info. *)
Record walk : Type := Walk {
  wk_blocks : gmap Z basic_block;
  wk_list : list Z;
  wk_nr : Z
}.

(** Enough fuel is the number of blocks; [None] also for a child that is not a block. *)
Fixpoint label_postorder (fuel : nat) (gen : Z) (b : Z) (w : walk) : option walk :=
  match fuel with
  | O => None
  | S fuel =>
    x ← wk_blocks w !! b;
    if generation x =? gen then Some w
    else
      let w := Walk (<[b := set_generation gen x]> (wk_blocks w)) (wk_list w) (wk_nr w) in
      w ← foldl (fun w child => w ← w; label_postorder fuel gen child w) (Some w) (reverse (children x));
      Some (Walk (alter (set_postorder_nr (wk_nr w)) b (wk_blocks w)) (wk_list w ++ [b]) (wk_nr w + 1))
  end.

Definition reverse_bbs (src : list Z) : list Z := reverse src.

(** The number of blocks, and the function with the new order of its blocks. *)
Definition cfg_postorder (ep : entrypoint) : option (Z * entrypoint) :=
  let gen := bb_generation ep + 1 in
  w ← label_postorder (S (base.size (blocks ep))) gen (entry ep) (Walk (blocks ep) [] 0);
  Some (wk_nr w, set_ep_bbs (reverse_bbs (wk_list w)) (set_blocks (wk_blocks w) (set_bb_generation gen ep))).

(** ** Dominators *)

Section build.
Context (m : gmap Z basic_block).

(** The array of pointers is a map from postorder numbers; no entry is NULL. *)
Definition nr (b : Z) : option Z := postorder_nr <$> m !! b.

(** One of the inner loops of intersect_dom(). *)
Fixpoint climb (fuel : nat) (doms : gmap Z Z) (b f : Z) : option Z :=
  match fuel with
  | O => None
  | S fuel => f1 ← nr b; if f1 <? f then b ← doms !! f1; climb fuel doms b f else Some b
  end.

Fixpoint intersect_dom (fuel inner : nat) (doms : gmap Z Z) (b1 b2 : Z) : option Z :=
  match fuel with
  | O => None
  | S fuel =>
    f1 ← nr b1; f2 ← nr b2;
    if f1 =? f2 then Some b1
    else
      b1 ← climb inner doms b1 f2; f1 ← nr b1;
      b2 ← climb inner doms b2 f1; intersect_dom fuel inner doms b1 b2
  end.

(** A parent that has a dominator already. *)
Definition dom_step (fuel : nat) (doms : gmap Z Z) (new_idom : option (option Z)) (p : Z) : option (option Z) :=
  new ← new_idom; pnr ← nr p;
  match doms !! pnr, new with
  | None, _ => Some new
  | Some _, None => Some (Some p)
  | Some _, Some n => Some <$> intersect_dom fuel fuel doms p n
  end.

(** A block in the loop; the assertion is the match. *)
Definition dom_block (fuel : nat) (entry : Z) (st : option (gmap Z Z * bool)) (b : Z) : option (gmap Z Z * bool) :=
  '(doms, changed) ← st;
  if b =? entry then Some (doms, changed)
  else
    x ← m !! b;
    new_idom ← foldl (dom_step fuel doms) (Some None) (parents x);
    match new_idom with
    | None => None
    | Some n => Some (if bool_decide (doms !! postorder_nr x = Some n) then (doms, changed) else (<[postorder_nr x := n]> doms, true))
    end.

Definition dom_pass (fuel : nat) (entry : Z) (l : list Z) (doms : gmap Z Z) : option (gmap Z Z * bool) :=
  foldl (dom_block fuel entry) (Some (doms, false)) l.

Fixpoint dom_loop (fuel inner : nat) (entry : Z) (l : list Z) (doms : gmap Z Z) : option (gmap Z Z) :=
  match fuel with
  | O => None
  | S fuel => '(doms, changed) ← dom_pass inner entry l doms; if changed : bool then dom_loop fuel inner entry l doms else Some doms
  end.
End build.

(** The links of a block; [doms] are those of the loops. *)
Definition set_links (entry : Z) (doms : gmap Z Z) (m : option (gmap Z basic_block)) (b : Z) : option (gmap Z basic_block) :=
  m ← m; x ← m !! b; d ← doms !! postorder_nr x;
  Some (if b =? entry then m else alter (fun y => set_bb_doms (bb_doms y ++ [b]) y) d (alter (set_idom (Some d)) b m)).

(** The level of a block, and the greatest level. *)
Definition set_level (st : option (gmap Z basic_block * Z)) (b : Z) : option (gmap Z basic_block * Z) :=
  '(m, max_level) ← st; x ← m !! b;
  level ← match idom x with Some d => y ← m !! d; Some (dom_level y + 1) | None => Some 0 end;
  Some (alter (set_dom_level level) b m, Z.max max_level level).

(** Rounds of the loop, and steps up the tree: one more than there are blocks. *)
Definition domtree_build (ep : entrypoint) : option entrypoint :=
  '(size, ep) ← cfg_postorder ep;
  e ← blocks ep !! entry ep;
  if negb (postorder_nr e =? size - 1) then None
  else
    let fuel := S (S (Z.to_nat size)) in
    doms ← dom_loop (blocks ep) fuel fuel (entry ep) (ep_bbs ep) {[size - 1 := entry ep]};
    let m := foldl (fun m b => alter (set_bb_doms []) b m) (blocks ep) (ep_bbs ep) in
    m ← foldl (set_links (entry ep) doms) (Some m) (ep_bbs ep);
    let m := alter (set_idom None) (entry ep) m in
    '(m, max_level) ← foldl set_level (Some (m, 0)) (ep_bbs ep);
    Some (set_dom_levels (max_level + 1) (set_blocks m ep)).

(** Up the tree from [b]. *)
Fixpoint walk_up (fuel : nat) (m : gmap Z basic_block) (a : Z) (b : option Z) : bool :=
  match fuel, b with
  | S fuel, Some b => if b =? a then true else walk_up fuel m a (x ← m !! b; idom x)
  | _, _ => false
  end.

Definition domtree_dominates (ep : entrypoint) (a b : Z) : bool :=
  match blocks ep !! a, blocks ep !! b with
  | Some xa, Some xb =>
    if a =? b then true
    else if bool_decide (Some a = idom xb) then true
    else if bool_decide (Some b = idom xa) then false
    else if dom_level xb <=? dom_level xa then false
    else walk_up (length (ep_bbs ep)) (blocks ep) a (idom xb)
  | _, _ => false
  end.

