(* ===== verification/FlowgraphDfs.v ===== *)
(** * The numbering of blocks: cfg_postorder() *)
From stdpp Require Import base option gmap list relations.
From S2P Require Import Prelude Flowgraph.
#[local] Open Scope Z_scope.

(** What the walk does not change. *)
Definition links (x : basic_block) : list Z * list Z := (parents x, children x).

Definition edge (m : gmap Z basic_block) (a b : Z) : Prop := exists x, m !! a = Some x /\ b ∈ children x.

Definition marked (gen : Z) (w : walk) (b : Z) : Prop := exists x, wk_blocks w !! b = Some x /\ generation x = gen.

(** Children are blocks. *)
Definition closed (m : gmap Z basic_block) : Prop := forall a b, edge m a b -> is_Some (m !! b).

(** The walk from the blocks [roots] adds the blocks [new]. *)
Record visits (gen : Z) (roots : list Z) (w : walk) (new : list Z) (w' : walk) : Prop := {
  vi_list : wk_list w' = wk_list w ++ new;
  vi_nr : wk_nr w' = wk_nr w + Z.of_nat (length new);
  vi_links : forall c, links <$> wk_blocks w' !! c = links <$> wk_blocks w !! c;
  vi_marked : forall c, marked gen w' c <-> marked gen w c \/ c ∈ new;
  vi_fresh : forall c, c ∈ new -> is_Some (wk_blocks w !! c) /\ ~ marked gen w c;
  vi_nodup : NoDup new;
  vi_roots : forall c, c ∈ roots -> marked gen w' c;
  vi_closed : forall c ch, c ∈ new -> edge (wk_blocks w) c ch -> marked gen w' ch;
  vi_reach : forall c, c ∈ new -> exists r, r ∈ roots /\ rtc (edge (wk_blocks w)) r c;
  vi_parent : forall i c, new !! i = Some c -> c ∈ roots \/ exists j p, (i < j)%nat /\ new !! j = Some p /\ edge (wk_blocks w) p c;
  vi_number : forall i c, new !! i = Some c -> nr (wk_blocks w') c = Some (wk_nr w + Z.of_nat i);
  vi_keep : forall c, c ∉ new -> nr (wk_blocks w') c = nr (wk_blocks w) c
}.

Section links.
Context (m m' : gmap Z basic_block) (Hl : forall c, links <$> m' !! c = links <$> m !! c).

Lemma links_lookup c x : m !! c = Some x -> exists x', m' !! c = Some x' /\ children x' = children x /\ parents x' = parents x.
Proof.
  intros Hx. specialize (Hl c). rewrite Hx in Hl. destruct (m' !! c) as [x'|]; [|done]. injection Hl as Hp Hc. by exists x'.
Qed.

Lemma links_lookup_inv c x' : m' !! c = Some x' -> exists x, m !! c = Some x /\ children x' = children x /\ parents x' = parents x.
Proof.
  intros Hx. specialize (Hl c). rewrite Hx in Hl. destruct (m !! c) as [x|]; [|done]. injection Hl as Hp Hc. by exists x.
Qed.

Lemma links_edge a b : edge m' a b <-> edge m a b.
Proof.
  split; intros (x & Hx & Hb).
  - destruct (links_lookup_inv a x Hx) as (y & Hy & E & _). exists y. by rewrite <- E.
  - destruct (links_lookup a x Hx) as (y & Hy & E & _). exists y. by rewrite E.
Qed.

Lemma links_rtc a b : rtc (edge m') a b <-> rtc (edge m) a b.
Proof. split; induction 1 as [|a c b He _ IH]; try done; (eapply rtc_l; [by apply links_edge|done]). Qed.

Lemma links_closed : closed m -> closed m'.
Proof. intros H a b He%links_edge%H. destruct He as [x Hx]. destruct (links_lookup b x Hx) as (y & Hy & _). by exists y. Qed.
End links.

Lemma visits_nil gen w : visits gen [] w [] w.
Proof.
  split; try done; [by rewrite app_nil_r|simpl; lia| | |apply NoDup_nil_2|..]; intros c; intros; rewrite ?elem_of_nil in *; tauto.
Qed.

Lemma visits_trans gen r1 w new1 w1 r2 new2 w2 : visits gen r1 w new1 w1 -> visits gen r2 w1 new2 w2 -> visits gen (r1 ++ r2) w (new1 ++ new2) w2.
Proof.
  intros V1 V2. pose proof (vi_links _ _ _ _ _ V1) as L1.
  assert (forall c, c ∈ new2 -> c ∉ new1) as Hdis.
  { intros c H2 H1. apply (vi_fresh _ _ _ _ _ V2 c H2). apply (vi_marked _ _ _ _ _ V1). by right. }
  split.
  - by rewrite (vi_list _ _ _ _ _ V2), (vi_list _ _ _ _ _ V1), app_assoc.
  - rewrite (vi_nr _ _ _ _ _ V2), (vi_nr _ _ _ _ _ V1), length_app. lia.
  - intros c. by rewrite (vi_links _ _ _ _ _ V2), L1.
  - intros c. rewrite (vi_marked _ _ _ _ _ V2), (vi_marked _ _ _ _ _ V1), elem_of_app. tauto.
  - intros c [H|H]%elem_of_app; [by apply V1|]. destruct (vi_fresh _ _ _ _ _ V2 c H) as [[x Hx] Hm].
    destruct (links_lookup_inv _ _ L1 c x Hx) as (y & Hy & _). split; [by exists y|]. intros Hm'. apply Hm, (vi_marked _ _ _ _ _ V1). by left.
  - apply list.NoDup_app. split_and!; [apply V1|intros c H1 H2; by apply (Hdis c)|apply V2].
  - intros c [H|H]%elem_of_app; [apply (vi_marked _ _ _ _ _ V2); left|]; by eapply vi_roots.
  - intros c ch [H|H]%elem_of_app He; [apply (vi_marked _ _ _ _ _ V2); left; by eapply vi_closed|].
    apply (vi_closed _ _ _ _ _ V2 c); [done|by apply (links_edge _ _ L1)].
  - intros c [H|H]%elem_of_app.
    + destruct (vi_reach _ _ _ _ _ V1 c H) as (r & Hr & Hp). exists r. set_solver.
    + destruct (vi_reach _ _ _ _ _ V2 c H) as (r & Hr & Hp). exists r. split; [set_solver|by apply (links_rtc _ _ L1)].
  - intros i c [Hi|[Hle Hi]]%lookup_app_Some.
    + destruct (vi_parent _ _ _ _ _ V1 i c Hi) as [?|(j & p & Hij & Hj & He)]; [left; set_solver|]. right. exists j, p.
      split_and!; try done. by apply lookup_app_l_Some.
    + destruct (vi_parent _ _ _ _ _ V2 _ c Hi) as [?|(j & p & Hij & Hj & He)]; [left; set_solver|]. right. exists (length new1 + j)%nat, p.
      split_and!; [lia|by rewrite lookup_app_r, Nat.add_comm, Nat.add_sub by lia|by apply (links_edge _ _ L1)].
  - intros i c [Hi|[Hle Hi]]%lookup_app_Some.
    + rewrite (vi_keep _ _ _ _ _ V2); [by apply V1|]. intros H2. apply (Hdis c H2). by apply list_elem_of_lookup_2 in Hi.
    + rewrite (vi_number _ _ _ _ _ V2 _ _ Hi), (vi_nr _ _ _ _ _ V1). f_equal. lia.
  - intros c Hc. rewrite (vi_keep _ _ _ _ _ V2), (vi_keep _ _ _ _ _ V1) by set_solver. done.
Qed.

(** ** Visiting a block *)

Definition mark (gen b : Z) (x : basic_block) (w : walk) : walk := Walk (<[b := set_generation gen x]> (wk_blocks w)) (wk_list w) (wk_nr w).

Lemma marked_dec gen w c : marked gen w c \/ ~ marked gen w c.
Proof.
  destruct (wk_blocks w !! c) as [x|] eqn:Hx; [|right; intros (x & Hx' & _); congruence].
  destruct (Z.eq_dec (generation x) gen) as [E|Hne]; [left; by exists x|right; intros (y & Hy & E); congruence].
Qed.

Section block.
Context (gen b : Z) (x : basic_block) (w : walk) (Hb : wk_blocks w !! b = Some x) (Hu : generation x <> gen).

Lemma mark_links c : links <$> wk_blocks (mark gen b x w) !! c = links <$> wk_blocks w !! c.
Proof. simpl. destruct (decide (b = c)) as [<-|Hne]; [by rewrite lookup_insert_eq, Hb|by rewrite lookup_insert_ne]. Qed.

Lemma mark_marked c : marked gen (mark gen b x w) c <-> marked gen w c \/ c = b.
Proof.
  unfold marked. simpl. destruct (decide (b = c)) as [<-|Hne].
  - rewrite lookup_insert_eq. split; [by right|intros _; eexists; by split].
  - rewrite lookup_insert_ne by done. split; [auto|intros [?|?]; [done|congruence]].
Qed.

Lemma mark_nr c : nr (wk_blocks (mark gen b x w)) c = nr (wk_blocks w) c.
Proof. unfold nr. simpl. destruct (decide (b = c)) as [<-|Hne]; [by rewrite lookup_insert_eq, Hb|by rewrite lookup_insert_ne]. Qed.

Lemma not_marked : ~ marked gen w b.
Proof. intros (y & Hy & E). congruence. Qed.

(** The block is added after all that is reached from it. *)
Definition finish (w : walk) : walk := Walk (alter (set_postorder_nr (wk_nr w)) b (wk_blocks w)) (wk_list w ++ [b]) (wk_nr w + 1).

Lemma finish_links v c : links <$> wk_blocks (finish v) !! c = links <$> wk_blocks v !! c.
Proof.
  simpl. destruct (decide (b = c)) as [<-|Hne]; [rewrite lookup_alter_eq; by destruct (wk_blocks v !! b)|by rewrite lookup_alter_ne].
Qed.

Lemma finish_marked v c : marked gen (finish v) c <-> marked gen v c.
Proof.
  unfold marked. simpl. destruct (decide (b = c)) as [<-|Hne]; [|by rewrite lookup_alter_ne].
  rewrite lookup_alter_eq. split; intros (y & Hy & E).
  - destruct (wk_blocks v !! b) as [z|]; [|done]. injection Hy as <-. by exists z.
  - rewrite Hy. simpl. eexists. by split.
Qed.

Lemma finish_nr_ne v c : c <> b -> nr (wk_blocks (finish v)) c = nr (wk_blocks v) c.
Proof. intros Hne. unfold nr. simpl. by rewrite lookup_alter_ne. Qed.

Lemma visits_block new v : visits gen (reverse (children x)) (mark gen b x w) new v -> visits gen [b] w (new ++ [b]) (finish v).
Proof.
  intros V. pose proof mark_links as L. assert (b ∉ new) as Hnb.
  { intros H. apply (vi_fresh _ _ _ _ _ V b H), mark_marked. by right. }
  assert (forall c, marked gen (finish v) c <-> marked gen w c \/ c ∈ new ++ [b]) as Hm.
  { intros c. rewrite finish_marked, (vi_marked _ _ _ _ _ V), mark_marked, elem_of_app, list_elem_of_singleton. tauto. }
  split.
  - simpl. by rewrite (vi_list _ _ _ _ _ V), app_assoc.
  - simpl. rewrite (vi_nr _ _ _ _ _ V), length_app. simpl. lia.
  - intros c. by rewrite finish_links, (vi_links _ _ _ _ _ V), L.
  - done.
  - intros c [H| ->%list_elem_of_singleton]%elem_of_app; [|split; [by exists x|apply not_marked]].
    destruct (vi_fresh _ _ _ _ _ V c H) as [[y Hy] Hn]. destruct (links_lookup_inv _ _ L c y Hy) as (z & Hz & _).
    split; [by exists z|]. intros Hc. apply Hn, mark_marked. by left.
  - apply list.NoDup_app. split_and!; [apply V|intros c Hc ->%list_elem_of_singleton; done|apply NoDup_singleton].
  - intros c ->%list_elem_of_singleton. apply Hm. right. rewrite elem_of_app. right. apply list_elem_of_here.
  - intros c ch [H| ->%list_elem_of_singleton]%elem_of_app He; apply finish_marked.
    + apply (vi_closed _ _ _ _ _ V c); [done|by apply (links_edge _ _ L)].
    + apply (vi_roots _ _ _ _ _ V). destruct He as (y & Hy & Hch). simplify_eq. by apply elem_of_reverse.
  - intros c [H| ->%list_elem_of_singleton]%elem_of_app; exists b; (split; [apply list_elem_of_here|]); [|apply rtc_refl].
    destruct (vi_reach _ _ _ _ _ V c H) as (r & Hr & Hp). rewrite elem_of_reverse in Hr. apply rtc_l with r; [by exists x|by apply (links_rtc _ _ L)].
  - intros i c [Hi|[Hle Hi]]%lookup_app_Some.
    + right. destruct (vi_parent _ _ _ _ _ V i c Hi) as [Hr|(j & p & Hij & Hj & He)].
      * rewrite elem_of_reverse in Hr. exists (length new), b. split_and!; [by eapply lookup_lt_Some|by rewrite lookup_app_r, Nat.sub_diag|by exists x].
      * exists j, p. split_and!; [done|by apply lookup_app_l_Some|by apply (links_edge _ _ L)].
    + left. apply list_lookup_singleton_Some in Hi as [_ <-]. apply list_elem_of_here.
  - intros i c [Hi|[Hle Hi]]%lookup_app_Some.
    + assert (c ∈ new) by (by eapply list_elem_of_lookup_2). rewrite finish_nr_ne by (by intros ->). apply (vi_number _ _ _ _ _ V i c Hi).
    + apply list_lookup_singleton_Some in Hi as [Hi <-]. assert (marked gen v b) as (y & Hy & _) by (apply (vi_marked _ _ _ _ _ V); left; apply mark_marked; by right).
      unfold nr. simpl. rewrite lookup_alter_eq, Hy. simpl. f_equal. rewrite (vi_nr _ _ _ _ _ V). simpl. lia.
  - intros c [H1 H2%not_elem_of_cons]%not_elem_of_app. rewrite finish_nr_ne, (vi_keep _ _ _ _ _ V) by tauto. apply mark_nr.
Qed.
End block.

(** ** The walk ends *)

Definition unmarked (gen : Z) (w : walk) : gset Z := dom (filter (fun kv : Z * basic_block => generation kv.2 <> gen) (wk_blocks w)).

Lemma elem_of_unmarked gen w c : c ∈ unmarked gen w <-> is_Some (wk_blocks w !! c) /\ ~ marked gen w c.
Proof.
  unfold unmarked, marked. rewrite elem_of_dom. split.
  - intros [x [Hx Hg]%map_lookup_filter_Some]. split; [by exists x|]. intros (y & Hy & E). simpl in Hg. congruence.
  - intros [[x Hx] Hn]. exists x. apply map_lookup_filter_Some. split; [done|]. simpl. intros E. apply Hn. by exists x.
Qed.

Lemma visits_unmarked gen r w new w' : visits gen r w new w' -> unmarked gen w' ⊆ unmarked gen w.
Proof.
  intros V c [[x Hx] Hn]%elem_of_unmarked. destruct (links_lookup_inv _ _ (vi_links _ _ _ _ _ V) c x Hx) as (y & Hy & _).
  apply elem_of_unmarked. split; [by exists y|]. intros Hm. apply Hn, (vi_marked _ _ _ _ _ V). by left.
Qed.

Lemma mark_unmarked gen b x w : wk_blocks w !! b = Some x -> generation x <> gen -> (base.size (unmarked gen (mark gen b x w)) < base.size (unmarked gen w))%nat.
Proof.
  intros Hb Hu. apply subset_size. split.
  - intros c [[y Hy] Hn]%elem_of_unmarked. apply elem_of_unmarked. destruct (links_lookup_inv _ _ (mark_links gen b x w Hb) c y Hy) as (z & Hz & _).
    split; [by exists z|]. intros Hm. apply Hn, mark_marked. by left.
  - intros Hs. assert (b ∈ unmarked gen w) as H%Hs%elem_of_unmarked.
    { apply elem_of_unmarked. split; [by exists x|]. by apply (not_marked gen b x). }
    apply H, mark_marked. by right.
Qed.

Lemma label_visits gen fuel : forall b w, closed (wk_blocks w) -> is_Some (wk_blocks w !! b) -> (base.size (unmarked gen w) < fuel)%nat ->
  exists new w', label_postorder fuel gen b w = Some w' /\ visits gen [b] w new w' /\ (~ marked gen w b -> exists l, new = l ++ [b]).
Proof.
  induction fuel as [|fuel IH]; intros b w Hc [x Hx] Hf; [lia|]. simpl. rewrite Hx. simpl. destruct (Z.eqb_spec (generation x) gen) as [E|Hne].
  { exists [], w. split; [done|]. split; [|intros Hn; exfalso; apply Hn; by exists x]. pose proof (visits_nil gen w) as [].
    split; try done; intros c.
    - intros ->%list_elem_of_singleton. by exists x.
    - by intros Hin%elem_of_nil. }
  assert (forall cs v, closed (wk_blocks v) -> Forall (fun c => is_Some (wk_blocks v !! c)) cs -> (base.size (unmarked gen v) < fuel)%nat ->
    exists new v', foldl (fun w child => w ← w; label_postorder fuel gen child w) (Some v) cs = Some v' /\ visits gen cs v new v') as Hfold.
  { induction cs as [|c cs IHcs]; intros v Hv Hcs Hs; [exists [], v; split; [done|apply visits_nil]|]. apply list.Forall_cons in Hcs as [Hsc Hcs].
    destruct (IH c v Hv Hsc Hs) as (new1 & v1 & E1 & V1 & _). simpl. rewrite E1. pose proof (vi_links _ _ _ _ _ V1) as L1.
    destruct (IHcs v1) as (new2 & v2 & E2 & V2).
    - by apply (links_closed _ _ L1).
    - apply (list.Forall_impl _ _ _ Hcs). intros a [y Hy]. destruct (links_lookup _ _ L1 a y Hy) as (z & Hz & _). by exists z.
    - eapply Nat.le_lt_trans; [|done]. by apply subseteq_size, (visits_unmarked _ _ _ _ _ V1).
    - exists (new1 ++ new2), v2. split; [done|]. by apply (visits_trans gen [c] v new1 v1 cs). }
  pose proof (mark_links gen b x w Hx) as L. destruct (Hfold (reverse (children x)) (mark gen b x w)) as (new & v & E & V).
  - by apply (links_closed _ _ L).
  - apply list.Forall_forall. intros c Hin. rewrite elem_of_reverse in Hin. destruct (Hc b c) as [y Hy]; [by exists x|].
    destruct (links_lookup _ _ L c y Hy) as (z & Hz & _). by exists z.
  - pose proof (mark_unmarked gen b x w Hx Hne). lia.
  - unfold mark in E. rewrite E. exists (new ++ [b]), (finish b v). split; [done|]. split; [by apply (visits_block gen b x w)|by exists new].
Qed.

(** ** What cfg_postorder() promises *)

(** The numbers are the places in [po], which holds the blocks that can be reached, each after a child of it, the entry last. *)
Record postordered (m : gmap Z basic_block) (ent : Z) (po : list Z) : Prop := {
  po_nr : forall i b, po !! i = Some b -> nr m b = Some (Z.of_nat i);
  po_nodup : NoDup po;
  po_last : exists l, po = l ++ [ent];
  po_reach : forall b, b ∈ po <-> rtc (edge m) ent b;
  po_parent : forall i b, po !! i = Some b -> b <> ent -> exists j p, (i < j)%nat /\ po !! j = Some p /\ edge m p b
}.

(** Graphs as the rest of the program keeps them: children are blocks, the generations are old, and the parents of a block
    that can be reached are the blocks it is a child of, which can be reached too (unreachable blocks are removed first). *)
Record cfg_ok (ep : entrypoint) : Prop := {
  cfg_entry : is_Some (blocks ep !! entry ep);
  cfg_closed : closed (blocks ep);
  cfg_generation : forall b x, blocks ep !! b = Some x -> generation x <= bb_generation ep;
  cfg_parents : forall b x p, blocks ep !! b = Some x -> rtc (edge (blocks ep)) (entry ep) b ->
    p ∈ parents x <-> edge (blocks ep) p b /\ rtc (edge (blocks ep)) (entry ep) p
}.

Lemma visits_all gen ent w new w' : wk_list w = [] -> wk_nr w = 0 -> (forall c, ~ marked gen w c) -> visits gen [ent] w (new ++ [ent]) w' ->
  postordered (wk_blocks w') ent (new ++ [ent]).
Proof.
  intros Hl Hn Hm V. pose proof (vi_links _ _ _ _ _ V) as L.
  assert (forall c, marked gen w' c <-> c ∈ new ++ [ent]) as Hin.
  { intros c. rewrite (vi_marked _ _ _ _ _ V). split; [intros [H|H]; [by destruct (Hm c)|done]|by right]. }
  split.
  - intros i b Hi. rewrite (vi_number _ _ _ _ _ V i b Hi), Hn. done.
  - apply V.
  - by exists new.
  - intros b. rewrite (links_rtc _ _ L). split.
    + intros Hb. destruct (vi_reach _ _ _ _ _ V b Hb) as (r & ->%list_elem_of_singleton & Hr). done.
    + assert (forall a c, rtc (edge (wk_blocks w)) a c -> a ∈ new ++ [ent] -> c ∈ new ++ [ent]) as H.
      { induction 1 as [|a d c He _ IH]; [done|]. intros Ha. apply IH, Hin. by apply (vi_closed _ _ _ _ _ V a). }
      intros Hr. apply (H ent); [done|]. rewrite elem_of_app. right. apply list_elem_of_here.
  - intros i b Hi Hne. destruct (vi_parent _ _ _ _ _ V i b Hi) as [->%list_elem_of_singleton|(j & p & Hij & Hj & He)]; [done|].
    exists j, p. split_and!; try done. by apply (links_edge _ _ L).
Qed.

Lemma cfg_postorder_spec ep : cfg_ok ep -> exists m po,
  let ep' := set_ep_bbs (reverse po) (set_blocks m (set_bb_generation (bb_generation ep + 1) ep)) in
  cfg_postorder ep = Some (Z.of_nat (length po), ep') /\ (forall c, links <$> m !! c = links <$> blocks ep !! c) /\ postordered m (entry ep) po.
Proof.
  intros [He Hc Hg _]. unfold cfg_postorder. set (gen := bb_generation ep + 1). set (w := Walk (blocks ep) [] 0).
  assert (forall c, ~ marked gen w c) as Hm.
  { intros c (x & Hx & E). specialize (Hg c x Hx). unfold gen in E. lia. }
  destruct (label_visits gen (S (base.size (blocks ep))) (entry ep) w) as (new & w' & E & V & Hnew); [done|done| |].
  { unfold unmarked. rewrite size_dom. pose proof (map_subseteq_size _ _ (map_filter_subseteq (fun kv : Z * basic_block => generation kv.2 <> gen) (blocks ep))).
    simpl. lia. }
  destruct (Hnew (Hm _)) as [l ->]. rewrite E. simpl. exists (wk_blocks w'), (l ++ [entry ep]). split_and!.
  - rewrite (vi_list _ _ _ _ _ V), (vi_nr _ _ _ _ _ V). done.
  - apply V.
  - by apply (visits_all gen _ w).
Qed.
