(* ===== verification/FlowgraphDom.v ===== *)
(** * The dominators that domtree_build() computes

    A block dominates another when it is on every path to it from the entry.  The tree of the iteration always holds the
    dominators of a block among its ancestors; after [k] passes the ancestors are on every path that goes against the
    numbering at most [k] times. *)
From stdpp Require Import base option gmap list relations.
From S2P Require Import Prelude Flowgraph FlowgraphDfs.
#[local] Open Scope Z_scope.

(** ** Paths from the entry, the last block first *)

Inductive path (m : gmap Z basic_block) (ent : Z) : Z -> list Z -> Prop :=
| path_ent : path m ent ent [ent]
| path_edge p b l : path m ent p l -> edge m p b -> path m ent b (b :: l).

Definition dominates (m : gmap Z basic_block) (ent a b : Z) : Prop := forall l, path m ent b l -> a ∈ l.

Lemma path_last m ent b l : path m ent b l -> exists l', l = b :: l'.
Proof. destruct 1; eauto. Qed.

(** Up to a block on the path. *)
Lemma path_at m ent b l a : path m ent b l -> a ∈ l -> exists l1 l2, l = l1 ++ l2 /\ path m ent a l2.
Proof.
  induction 1 as [|p b l Hp IH He]; intros Ha.
  - apply list_elem_of_singleton in Ha as ->. exists [], [ent]. split; [done|constructor].
  - apply elem_of_cons in Ha as [->|Ha]; [exists [], (b :: l); split; [done|by econstructor]|].
    destruct (IH Ha) as (l1 & l2 & -> & H2). by exists (b :: l1), l2.
Qed.

Lemma path_short m ent b l : path m ent b l -> exists l', path m ent b l' /\ l' ⊆ l /\ NoDup l'.
Proof.
  induction 1 as [|p b l Hp (l' & Hp' & Hs & Hn) He]; [exists [ent]; split_and!; [constructor|done|apply NoDup_singleton]|].
  destruct (decide (b ∈ l')) as [Hb|Hb].
  - destruct (path_at m ent p l' b Hp' Hb) as (l1 & l2 & -> & H2). clear Hp' Hb. exists l2. split_and!; [done|set_solver|]. by apply list.NoDup_app in Hn as (_ & _ & ?).
  - exists (b :: l'). split_and!; [by econstructor|by apply list_subseteq_skip|by apply NoDup_cons_2].
Qed.

Lemma path_rtc m ent b l : path m ent b l -> forall a, a ∈ l -> rtc (edge m) ent a.
Proof.
  induction 1 as [|p b l Hp IH He]; intros a.
  - intros ->%list_elem_of_singleton. apply rtc_refl.
  - intros [->|Ha]%elem_of_cons; [|by apply IH]. apply rtc_r with p; [|done]. apply IH. destruct (path_last _ _ _ _ Hp) as [l' ->]. apply list_elem_of_here.
Qed.

Lemma rtc_path m ent b : rtc (edge m) ent b -> exists l, path m ent b l.
Proof.
  revert b. apply rtc_ind_r; [exists [ent]; constructor|]. intros b c _ He [l Hl]. exists (c :: l). by econstructor.
Qed.

Section dom.
Context (m : gmap Z basic_block) (ent : Z) (po : list Z) (Hpo : postordered m ent po).
Context (Hpar : forall b x p, b ∈ po -> m !! b = Some x -> p ∈ parents x <-> edge m p b /\ p ∈ po).

Definition num (b : Z) : Z := default 0 (nr m b).

Definition total : Z := Z.of_nat (length po).

Lemma num_lookup i b : po !! i = Some b -> num b = Z.of_nat i.
Proof. intros Hi. unfold num. by rewrite (po_nr _ _ _ Hpo i b Hi). Qed.

Lemma nr_num b : b ∈ po -> nr m b = Some (num b).
Proof. intros [i Hi]%list_elem_of_lookup_1. unfold num. by rewrite (po_nr _ _ _ Hpo i b Hi). Qed.

Lemma num_bounds b : b ∈ po -> 0 <= num b < total.
Proof. intros [i Hi]%list_elem_of_lookup_1. rewrite (num_lookup i b Hi). apply lookup_lt_Some in Hi. unfold total. lia. Qed.

Lemma block_num_inj a b : a ∈ po -> b ∈ po -> num a = num b -> a = b.
Proof.
  intros [i Hi]%list_elem_of_lookup_1 [j Hj]%list_elem_of_lookup_1. rewrite (num_lookup i a Hi), (num_lookup j b Hj). intros E.
  assert (i = j) as -> by lia. congruence.
Qed.

Lemma num_block b : b ∈ po -> exists x, m !! b = Some x /\ postorder_nr x = num b.
Proof. intros Hb%nr_num. unfold nr in Hb. destruct (m !! b) as [x|] eqn:Hx; [|done]. injection Hb as E. by exists x. Qed.

Lemma ent_in : ent ∈ po.
Proof. apply (po_reach _ _ _ Hpo), rtc_refl. Qed.

Lemma num_ent : num ent = total - 1.
Proof. destruct (po_last _ _ _ Hpo) as [l E]. rewrite (num_lookup (length l)); [unfold total; rewrite E, length_app; simpl; lia|]. by rewrite E, lookup_app_r, Nat.sub_diag. Qed.

Lemma num_lt b : b ∈ po -> b <> ent -> num b < total - 1.
Proof. intros Hb Hne. pose proof (num_bounds b Hb). pose proof num_ent. destruct (Z.eq_dec (num b) (num ent)) as [E|]; [|lia]. destruct Hne. apply block_num_inj; [done|apply ent_in|done]. Qed.

Lemma edge_in p b : p ∈ po -> edge m p b -> b ∈ po.
Proof. rewrite !(po_reach _ _ _ Hpo). intros Hp He. by apply rtc_r with p. Qed.

Lemma path_in b l a : path m ent b l -> a ∈ l -> a ∈ po.
Proof. intros Hp Ha. apply (po_reach _ _ _ Hpo). by eapply path_rtc. Qed.

Lemma path_to b l : path m ent b l -> b ∈ po.
Proof. intros Hp. apply (path_in b l); [done|]. destruct (path_last _ _ _ _ Hp) as [l' ->]. apply list_elem_of_here. Qed.

Lemma path_for b : b ∈ po -> exists l, path m ent b l.
Proof. rewrite (po_reach _ _ _ Hpo). apply rtc_path. Qed.

(** The edges of a path that go against the numbering. *)
Fixpoint retreats (l : list Z) : nat :=
  match l with
  | b :: ((p :: _) as l) => (if num p <=? num b then 1 else 0) + retreats l
  | _ => 0
  end.

Lemma retreats_length l : (retreats l <= length l)%nat.
Proof. induction l as [|b [|p l] IH]; simpl in *; [lia|lia|]. destruct (num p <=? num b); lia. Qed.

Lemma retreats_app l1 l2 : (retreats l2 <= retreats (l1 ++ l2))%nat.
Proof. induction l1 as [|b l1 IH]; [done|]. simpl. destruct (l1 ++ l2) eqn:E; simpl in *; [lia|]. destruct (_ <=? _); lia. Qed.

Lemma retreats_edge p b l : path m ent p l -> retreats (b :: l) = ((if (num p <=? num b)%Z then 1 else 0) + retreats l)%nat.
Proof. intros Hp. by destruct (path_last _ _ _ _ Hp) as [l' ->]. Qed.

Lemma path_few b l : path m ent b l -> exists l', path m ent b l' /\ l' ⊆ l /\ (retreats l' <= length po)%nat.
Proof.
  intros Hp. destruct (path_short _ _ _ _ Hp) as (l' & Hp' & Hs & Hn). exists l'. split_and!; [done|done|].
  etrans; [apply retreats_length|]. apply submseteq_length, NoDup_submseteq; [done|]. intros a Ha. by apply (path_in b l').
Qed.

(** A path from [d] down to a block, through blocks of smaller numbers than [d]. *)
Inductive lower (d : Z) : Z -> Prop :=
| lower_refl : lower d d
| lower_edge p b : lower d p -> edge m p b -> num b < num d -> lower d b.

Lemma lower_trans a d b : lower a d -> num d <= num a -> lower d b -> lower a b.
Proof. intros Ha Hle. induction 1 as [|p b Hp IH He Hlt]; [done|]. apply lower_edge with p; [done|done|lia]. Qed.

(** A dominator above [d] is not on the way down. *)
Lemma lower_dominates a d b : lower d b -> num d < num a -> dominates m ent a b -> dominates m ent a d.
Proof.
  intros Hl Hlt. induction Hl as [|p b Hp IH He Hb]; [done|]. intros Hd. apply IH. intros l Hpl.
  assert (a ∈ b :: l) as Ha by (apply Hd; by econstructor). apply elem_of_cons in Ha as [->|]; [lia|done].
Qed.

(** ** The tree *)

Section tree.
Context (doms : gmap Z Z).

Definition processed (b : Z) : Prop := b ∈ po /\ is_Some (doms !! num b).

Definition up (b d : Z) : Prop := b ∈ po /\ b <> ent /\ doms !! num b = Some d.

Definition anc : Z -> Z -> Prop := rtc up.

Record tree_ok : Prop := {
  tr_ent : doms !! (total - 1) = Some ent;
  tr_up : forall b d, up b d -> processed d /\ num b < num d /\ lower d b;
  tr_dom : forall a b, processed b -> dominates m ent a b -> anc b a
}.

(** The ancestors of [b] are on the paths that go against the numbering at most [k] times. *)
Definition on_paths (k : nat) (b : Z) : Prop := forall a l, anc b a -> path m ent b l -> (retreats l <= k)%nat -> a ∈ l.

Context (Ht : tree_ok).

Lemma processed_ent : processed ent.
Proof. split; [apply ent_in|]. rewrite num_ent, (tr_ent Ht). by eexists. Qed.

Lemma anc_ent a : anc ent a -> a = ent.
Proof. intros H. inversion H as [|? d ? (_ & Hne & _)]; [done|]. done. Qed.

Lemma anc_processed b a : anc b a -> processed b -> processed a.
Proof. induction 1 as [|b d a Hu _ IH]; [done|]. intros _. apply IH. by apply (tr_up Ht b). Qed.

Lemma anc_num b a : anc b a -> b = a \/ num b < num a.
Proof. induction 1 as [|b d a Hu _ IH]; [by left|]. right. destruct (tr_up Ht b d Hu) as (_ & Hlt & _). destruct IH as [->|IH]; lia. Qed.

Lemma anc_le b a : anc b a -> num b <= num a.
Proof. intros [->|H]%anc_num; lia. Qed.

Lemma anc_lower b a : anc b a -> lower a b.
Proof.
  induction 1 as [|b d a Hu Ha IH]; [constructor|]. destruct (tr_up Ht b d Hu) as (_ & _ & Hlow).
  apply lower_trans with d; [done|by apply anc_le|done].
Qed.

Lemma processed_up b : processed b -> b <> ent -> exists d, up b d.
Proof. intros [Hb [d Hd]] Hne. by exists d. Qed.

Lemma up_fun b d d' : up b d -> up b d' -> d = d'.
Proof. intros (_ & _ & H1) (_ & _ & H2). congruence. Qed.

Lemma anc_step b d a : up b d -> anc b a -> a = b \/ anc d a.
Proof. intros Hu H. inversion H as [|? d' ? Hu' Ha]; subst; [by left|]. right. by rewrite (up_fun b d d'). Qed.

Lemma climb_spec f fuel b : processed b -> f < total -> total - num b <= Z.of_nat fuel ->
  exists c, climb m fuel doms b f = Some c /\ anc b c /\ f <= num c /\ forall a, anc b a -> f <= num a -> anc c a.
Proof.
  intros Hb Hf. revert b Hb. induction fuel as [|fuel IH]; intros b Hb Hfu; [pose proof (num_bounds b (proj1 Hb)); lia|].
  simpl. rewrite nr_num by apply Hb. simpl. destruct (Z.ltb_spec (num b) f) as [Hlt|Hge].
  - assert (b <> ent) as Hne by (intros ->; pose proof num_ent; lia). destruct (processed_up b Hb Hne) as [d Hu].
    destruct (tr_up Ht b d Hu) as (Hd & Hnd & _). destruct (IH d Hd) as (c & Hc & Ha & Hfc & Hmin); [lia|].
    exists c. destruct Hu as (Hin & _ & Hlook). rewrite Hlook. split_and!; [done|by apply rtc_l with d|done|].
    intros a [->|Hda]%(anc_step b d) Hfa; [lia|by apply Hmin|done].
  - exists b. split_and!; [done|apply rtc_refl|done|done].
Qed.

Definition meet (b1 b2 n : Z) : Prop := anc b1 n /\ anc b2 n /\ forall a, anc b1 a -> anc b2 a -> anc n a.

Lemma meet_climb b1 b2 c1 c2 n : anc b1 c1 -> anc b2 c2 -> (forall a, anc b1 a -> num b2 <= num a -> anc c1 a) ->
  (forall a, anc b2 a -> num c1 <= num a -> anc c2 a) -> meet c1 c2 n -> meet b1 b2 n.
Proof.
  intros H1 H2 Hm1 Hm2 (A1 & A2 & Hmin). split_and!; [by etrans|by etrans|]. intros a Ha1 Ha2.
  assert (anc c1 a) as Hc1 by (apply Hm1; [done|by apply anc_le]). apply Hmin; [done|]. apply Hm2; [done|by apply anc_le].
Qed.

(** A round of intersect_dom(). *)
Lemma intersect_round fuel inner b1 b2 : processed b1 -> processed b2 -> total <= Z.of_nat inner -> num b1 <> num b2 ->
  exists c1 c2, processed c1 /\ processed c2 /\ num b2 <= num c1 <= num c2 /\ (forall n, meet c1 c2 n -> meet b1 b2 n) /\
    intersect_dom m (S fuel) inner doms b1 b2 = intersect_dom m fuel inner doms c1 c2.
Proof.
  intros H1 H2 Hin Hne. pose proof (num_bounds b1 (proj1 H1)). pose proof (num_bounds b2 (proj1 H2)).
  destruct (climb_spec (num b2) inner b1 H1) as (c1 & E1 & A1 & L1 & M1); [lia|lia|].
  assert (processed c1) as P1 by (by apply (anc_processed b1)). pose proof (num_bounds c1 (proj1 P1)).
  destruct (climb_spec (num c1) inner b2 H2) as (c2 & E2 & A2 & L2 & M2); [lia|lia|].
  assert (processed c2) as P2 by (by apply (anc_processed b2)). exists c1, c2. split_and!; try done.
  - intros n. by apply meet_climb.
  - simpl. rewrite (nr_num b1), (nr_num b2) by (apply H1 || apply H2). simpl. destruct (Z.eqb_spec (num b1) (num b2)); [done|].
    rewrite E1. simpl. rewrite (nr_num c1) by apply P1. simpl. by rewrite E2.
Qed.

Lemma meet_same b : meet b b b.
Proof. split_and!; [apply rtc_refl|apply rtc_refl|done]. Qed.

Lemma intersect_same fuel inner b1 b2 : processed b1 -> processed b2 -> num b1 = num b2 ->
  exists n, intersect_dom m (S fuel) inner doms b1 b2 = Some n /\ meet b1 b2 n.
Proof.
  intros [H1 _] [H2 _] E. rewrite (block_num_inj b1 b2 H1 H2 E). exists b2. split; [|apply meet_same].
  simpl. rewrite (nr_num b2 H2). simpl. by rewrite Z.eqb_refl.
Qed.

Lemma intersect_ordered inner fuel b1 b2 : processed b1 -> processed b2 -> total <= Z.of_nat inner -> num b1 <= num b2 -> total - num b1 <= Z.of_nat fuel ->
  exists n, intersect_dom m fuel inner doms b1 b2 = Some n /\ meet b1 b2 n.
Proof.
  intros H1 H2 Hin. revert b1 b2 H1 H2. induction fuel as [|fuel IH]; intros b1 b2 H1 H2 Hle Hfu; [pose proof (num_bounds b1 (proj1 H1)); lia|].
  destruct (Z.eq_dec (num b1) (num b2)) as [E|Hne]; [by apply intersect_same|].
  destruct (intersect_round fuel inner b1 b2) as (c1 & c2 & P1 & P2 & Hc & Hm & ->); try done.
  destruct (IH c1 c2) as (n & E & M); [done|done|lia|lia|]. exists n. split; [done|by apply Hm].
Qed.

Lemma intersect_spec fuel b1 b2 : processed b1 -> processed b2 -> total < Z.of_nat fuel ->
  exists n, intersect_dom m fuel fuel doms b1 b2 = Some n /\ meet b1 b2 n.
Proof.
  intros H1 H2 Hf. destruct fuel as [|fuel]; [unfold total in Hf; lia|]. destruct (Z.eq_dec (num b1) (num b2)) as [E|Hne]; [by apply intersect_same|].
  destruct (intersect_round fuel (S fuel) b1 b2) as (c1 & c2 & P1 & P2 & Hc & Hm & ->); try done; [lia|].
  pose proof (num_bounds c1 (proj1 P1)). destruct (intersect_ordered (S fuel) fuel c1 c2) as (n & E & M); [done|done|lia|lia|lia|].
  exists n. split; [done|by apply Hm].
Qed.

(** What the fold over the parents [ps] finds. *)
Definition meets (ps : list Z) (o : option Z) : Prop :=
  match o with
  | None => forall p, p ∈ ps -> ~ processed p
  | Some n => processed n /\ (exists p, p ∈ ps /\ processed p) /\ (forall p, p ∈ ps -> processed p -> anc p n) /\
    forall a, (forall p, p ∈ ps -> processed p -> anc p a) -> anc n a
  end.

Lemma meets_step fuel ps o p : total < Z.of_nat fuel -> p ∈ po -> meets ps o -> exists o', dom_step m fuel doms (Some o) p = Some o' /\ meets (ps ++ [p]) o'.
Proof.
  intros Hf Hp Ho. unfold dom_step. simpl. rewrite (nr_num p Hp). simpl.
  assert (forall q (P : Prop), q ∈ ps ++ [p] -> (q ∈ ps -> P) -> (q = p -> P) -> P) as Hcase.
  { intros q P [H|H]%elem_of_app H1 H2; [by apply H1|]. apply H2. by apply list_elem_of_singleton in H. }
  assert (forall q, q ∈ ps -> q ∈ ps ++ [p]) as Hps by (intros q Hq; rewrite elem_of_app; by left).
  assert (p ∈ ps ++ [p]) as Hlast by (rewrite elem_of_app; right; apply list_elem_of_here).
  destruct (doms !! num p) as [d|] eqn:Hd.
  - assert (processed p) as Hpp by (split; [done|by eexists]). destruct o as [n|].
    + destruct Ho as (Hn & (q & Hq & Hqp) & Hall & Hmin). destruct (intersect_spec fuel p n Hpp Hn Hf) as (c & -> & A1 & A2 & Hm).
      exists (Some c). split; [done|]. split_and!; [by apply (anc_processed p)|exists p; by split| |].
      * intros r Hr Hrp. apply (Hcase r); [done|intros Hr'; etrans; [by apply Hall|done]|by intros ->].
      * intros a Ha. apply Hm; [by apply Ha|]. apply Hmin. intros r Hr Hrp. apply Ha; [by apply Hps|done].
    + exists (Some p). split; [done|]. split_and!; [done|exists p; by split| |].
      * intros r Hr Hrp. apply (Hcase r); [done|intros Hr'; by destruct (Ho r Hr')|intros ->; apply rtc_refl].
      * intros a Ha. by apply Ha.
  - assert (~ processed p) as Hnp by (intros [_ [d' Hd']]; congruence). exists o. split; [done|]. destruct o as [n|]; simpl in *.
    + destruct Ho as (Hn & (q & Hq & Hqp) & Hall & Hmin). split_and!; [done|exists q; split; [by apply Hps|done]| |].
      * intros r Hr Hrp. apply (Hcase r); [done|auto|by intros ->].
      * intros a Ha. apply Hmin. intros r Hr Hrp. apply Ha; [by apply Hps|done].
    + intros r Hr. apply (Hcase r); [done|auto|by intros ->].
Qed.

Lemma meets_fold fuel ps : total < Z.of_nat fuel -> Forall (.∈ po) ps -> exists o, foldl (dom_step m fuel doms) (Some None) ps = Some o /\ meets ps o.
Proof.
  intros Hf. induction ps as [|p ps IH] using rev_ind; intros Hps; [exists None; split; [done|]; by intros p Hp%elem_of_nil|].
  apply list.Forall_app in Hps as [Hps [Hp _]%list.Forall_cons]. destruct (IH Hps) as (o & E & Ho).
  rewrite foldl_app, E. by apply meets_step.
Qed.
End tree.

(** ** A new dominator for a block *)

Section update.
Context (doms : gmap Z Z) (Ht : tree_ok doms) (b n : Z) (x : basic_block) (Hb : b ∈ po) (Hne : b <> ent) (Hx : m !! b = Some x).
Context (Hn : meets doms (parents x) (Some n)) (Habove : forall c, c ∈ po -> num b < num c -> processed doms c).

Local Definition doms' : gmap Z Z := <[num b := n]> doms.

Lemma parent_in p : edge m p b -> p ∈ po -> p ∈ parents x.
Proof. intros. by apply (Hpar b). Qed.

Lemma parent_above : exists p, p ∈ parents x /\ processed doms p /\ num b < num p.
Proof.
  pose proof Hb as [i Hi]%list_elem_of_lookup_1. destruct (po_parent _ _ _ Hpo i b Hi Hne) as (j & p & Hij & Hj & He).
  assert (p ∈ po) as Hp by (by eapply list_elem_of_lookup_2). assert (num b < num p) by (rewrite (num_lookup i b Hi), (num_lookup j p Hj); lia).
  exists p. split_and!; [by apply parent_in|by apply Habove|done].
Qed.

Lemma new_above : num b < num n.
Proof. destruct parent_above as (p & Hp & Hpp & Hlt). destruct Hn as (_ & _ & Hall & _). pose proof (anc_le doms Ht p n (Hall p Hp Hpp)). lia. Qed.

Lemma lookup_new c : c ∈ po -> c <> b -> doms' !! num c = doms !! num c.
Proof. intros Hc Hcb. apply lookup_insert_ne. intros E. by apply Hcb, block_num_inj. Qed.

Lemma up_new_ne c d : c <> b -> up doms' c d <-> up doms c d.
Proof. intros Hcb. split; intros (Hc & Hce & H); (split_and!; [done|done|]); [rewrite <- lookup_new|rewrite lookup_new]; done. Qed.

Lemma up_new d : up doms' b d <-> d = n.
Proof. unfold up, doms'. rewrite lookup_insert_eq. split; [intros (_ & _ & E); congruence|by intros ->]. Qed.

Lemma processed_new c : processed doms' c <-> processed doms c \/ c = b.
Proof.
  unfold processed. destruct (decide (c = b)) as [->|Hcb].
  - unfold doms'. rewrite lookup_insert_eq. split; [by right|]. intros _. split; [done|by eexists].
  - split; [intros [Hc H]; rewrite lookup_new in H; tauto|intros [[Hc H]|]; [|done]]. by rewrite lookup_new.
Qed.

Lemma anc_above c a : num b < num c -> anc doms' c a <-> anc doms c a.
Proof.
  intros Hc. split; intros Ha; induction Ha as [|c d a Hu _ IH]; try apply rtc_refl; (assert (c <> b) as Hcb by (intros ->; lia));
    assert (up doms c d) as Hu0 by (done || by apply up_new_ne); destruct (tr_up doms Ht c d Hu0) as (_ & Hlt & _); apply rtc_l with d;
    (done || (by apply up_new_ne) || (apply IH; lia)).
Qed.

Lemma anc_new a : anc doms' b a <-> a = b \/ anc doms n a.
Proof.
  pose proof new_above. split.
  - intros Ha. inversion Ha as [|? d ? Hu Hd]; subst; [by left|]. right. apply up_new in Hu as ->. by apply anc_above.
  - intros [->|Ha]; [apply rtc_refl|]. apply rtc_l with n; [by apply up_new|by apply anc_above].
Qed.

Lemma dominates_parent a p : dominates m ent a b -> a <> b -> edge m p b -> dominates m ent a p.
Proof. intros Hd Hab He l Hl. assert (a ∈ b :: l) as [?|?]%elem_of_cons by (apply Hd; by econstructor); done. Qed.

Lemma dominates_new a : dominates m ent a b -> anc doms' b a.
Proof.
  intros Hd. apply anc_new. destruct (decide (a = b)) as [|Hab]; [by left|]. right. destruct Hn as (_ & _ & _ & Hmin). apply Hmin.
  intros p Hp Hpp. apply (tr_dom doms Ht); [done|]. apply dominates_parent; [done|done|by apply (Hpar b x)].
Qed.

Lemma dominates_keep c a : anc doms c a -> dominates m ent a c -> anc doms' c a.
Proof.
  induction 1 as [|c d a Hu Ha IH]; [intros; apply rtc_refl|]. intros Hd. destruct (decide (c = b)) as [->|Hcb]; [by apply dominates_new|].
  apply rtc_l with d; [by apply up_new_ne|]. destruct (anc_num doms Ht d a Ha) as [->|Hlt]; [apply rtc_refl|].
  apply IH, (lower_dominates a d c); [by apply (tr_up doms Ht)|done|done].
Qed.

Lemma lower_new : lower n b.
Proof.
  destruct Hn as (_ & (p & Hp & Hpp) & Hall & _). apply lower_edge with p; [by apply (anc_lower doms Ht), Hall|by apply (Hpar b x)|apply new_above].
Qed.

Lemma tree_new : tree_ok doms'.
Proof.
  split.
  - unfold doms'. rewrite lookup_insert_ne; [apply Ht|]. pose proof (num_lt b Hb Hne). lia.
  - intros c d Hu. rewrite processed_new. destruct (decide (c = b)) as [->|Hcb].
    + apply up_new in Hu as ->. split_and!; [left; apply Hn|apply new_above|apply lower_new].
    + apply up_new_ne in Hu; [|done]. destruct (tr_up doms Ht c d Hu) as (? & ? & ?). auto.
  - intros a c Hc Hd. destruct (decide (c = b)) as [->|Hcb]; [by apply dominates_new|]. apply dominates_keep; [|done].
    apply (tr_dom doms Ht); [|done]. apply processed_new in Hc as [?|?]; done.
Qed.

Lemma on_paths_new k : (forall p l, edge m p b -> path m ent p l -> (retreats (b :: l) <= k)%nat -> processed doms p /\ forall a, anc doms p a -> a ∈ l) ->
  on_paths doms' k b.
Proof.
  intros Hk a l Ha Hp Hr. apply anc_new in Ha as [->|Ha]; [destruct (path_last _ _ _ _ Hp) as [l' ->]; apply list_elem_of_here|].
  inversion Hp as [|p ? l' Hpp He]; subst; [done|]. apply elem_of_cons. right. destruct (Hk p l' He Hpp Hr) as [Hpr Hanc]. apply Hanc.
  destruct Hn as (_ & _ & Hall & _). etrans; [|done]. apply Hall; [|done]. apply parent_in; [done|by apply (path_to p l')].
Qed.

Lemma anc_split c a : anc doms' c a -> anc doms c a \/ anc doms c b /\ anc doms' b a.
Proof.
  induction 1 as [|c d a Hu Ha IH]; [left; apply rtc_refl|]. destruct (decide (c = b)) as [->|Hcb].
  - right. split; [apply rtc_refl|by apply rtc_l with d].
  - apply up_new_ne in Hu; [|done]. destruct IH as [IH|[IH1 IH2]]; [left|right; split; [|done]]; by apply rtc_l with d.
Qed.

Lemma on_paths_keep k c : on_paths doms k c -> on_paths doms' k b -> on_paths doms' k c.
Proof.
  intros Hc Hk a l [Ha|[Ha1 Ha2]]%anc_split Hp Hr; [by apply Hc|]. destruct (path_at _ _ _ _ _ Hp (Hc b l Ha1 Hp Hr)) as (l1 & l2 & -> & Hp2).
  rewrite elem_of_app. right. apply Hk; [done|done|]. pose proof (retreats_app l1 l2). lia.
Qed.
End update.

(** ** The passes *)

(** In pass [k]: the blocks from the number [t] on are done. *)
Definition ready (doms : gmap Z Z) (k : nat) (t : Z) : Prop := forall c, c ∈ po ->
  if t <=? num c then processed doms c /\ on_paths doms k c
  else match k with O => doms !! num c = None | S k => processed doms c /\ on_paths doms k c end.

Definition exact (doms : gmap Z Z) : Prop := forall c, c ∈ po -> processed doms c /\ forall k, on_paths doms k c.

Lemma on_paths_ent doms k : on_paths doms k ent.
Proof. intros a l ->%anc_ent Hp _. destruct (path_last _ _ _ _ Hp) as [l' ->]. apply list_elem_of_here. Qed.

Lemma on_paths_le doms j k c : (j <= k)%nat -> on_paths doms k c -> on_paths doms j c.
Proof. intros Hjk H a l Ha Hp Hr. apply (H a l); [done|done|lia]. Qed.

Lemma exact_ready doms k t : exact doms -> ready doms (S k) t.
Proof. intros H c Hc. destruct (H c Hc) as [Hp Hk]. destruct (t <=? num c); auto. Qed.

Lemma exact_dominates doms : tree_ok doms -> exact doms -> forall a b, b ∈ po -> anc doms b a <-> dominates m ent a b.
Proof.
  intros Ht He a b Hb. destruct (He b Hb) as [Hp Hk]. split; [|by apply (tr_dom doms Ht)].
  intros Ha l Hl. by apply (Hk (retreats l) a l).
Qed.

(** On a path no longer than the function. *)
Lemma on_paths_all doms c : on_paths doms (length po) c -> forall k, on_paths doms k c.
Proof. intros H k a l Ha Hp _. destruct (path_few c l Hp) as (l' & Hp' & Hs & Hr). by apply Hs, (H a l'). Qed.

Section block.
Context (doms : gmap Z Z) (k : nat) (b n : Z) (x : basic_block) (Ht : tree_ok doms) (Hr : ready doms k (num b + 1)).
Context (Hb : b ∈ po) (Hne : b <> ent) (Hx : m !! b = Some x) (Hn : meets doms (parents x) (Some n)).

Lemma ready_above c : c ∈ po -> num b < num c -> processed doms c.
Proof. intros Hc Hlt. specialize (Hr c Hc). rewrite (proj2 (Z.leb_le _ _)) in Hr by lia. apply Hr. Qed.

Lemma ready_parent p l : edge m p b -> path m ent p l -> (retreats (b :: l) <= k)%nat -> processed doms p /\ forall a, anc doms p a -> a ∈ l.
Proof.
  intros He Hp Hl. rewrite (retreats_edge p b l Hp) in Hl. specialize (Hr p (path_to p l Hp)).
  destruct (Z.leb_spec (num p) (num b)) as [Hle|Hlt].
  - rewrite (proj2 (Z.leb_gt _ _)) in Hr by lia. destruct k as [|k']; [lia|]. destruct Hr as [Hpr Hon]. split; [done|]. intros a Ha. apply Hon; [done|done|lia].
  - rewrite (proj2 (Z.leb_le _ _)) in Hr by lia. destruct Hr as [Hpr Hon]. split; [done|]. intros a Ha. apply Hon; [done|done|lia].
Qed.

Lemma ready_new : ready (doms' doms b n) k (num b).
Proof.
  pose proof (on_paths_new doms Ht b n x Hb Hne Hx Hn ready_above k ready_parent) as Hk. intros c Hc. destruct (Z.eq_dec (num c) (num b)) as [E|Hcb].
  { assert (c = b) as -> by (by apply block_num_inj). rewrite Z.leb_refl. split; [by apply processed_new; auto|done]. }
  specialize (Hr c Hc). destruct (Z.leb_spec (num b) (num c)) as [Hle|Hlt].
  - rewrite (proj2 (Z.leb_le _ _)) in Hr by lia. destruct Hr as [Hp Hon]. split; [apply processed_new; auto|]. by apply on_paths_keep.
  - rewrite (proj2 (Z.leb_gt _ _)) in Hr by lia. destruct k as [|k']; [unfold doms'; by rewrite lookup_insert_ne by done|].
    destruct Hr as [Hp Hon]. split; [apply processed_new; auto|]. apply on_paths_keep; [done|done|]. by apply (on_paths_le _ k' (S k')); [lia|].
Qed.

(** Nothing changes when the dominators are found. *)
Lemma exact_same : exact doms -> doms !! num b = Some n.
Proof.
  intros He. destruct (He b Hb) as [Hp Hk]. destruct (processed_up doms b Hp Hne) as [d Hu]. pose proof Hu as (_ & _ & Hd). rewrite Hd. f_equal.
  pose proof (tr_up doms Ht b d Hu) as (Hdp & Hlt & _). pose proof (new_above doms Ht b n x Hb Hne Hx Hn ready_above) as Hgt.
  pose proof (anc_new doms Ht b n x Hb Hne Hx Hn ready_above) as Hanc.
  assert (dominates m ent d b) as D1 by (apply (exact_dominates doms Ht He); [done|by apply rtc_once]).
  assert (dominates m ent n b) as D2.
  { intros l Hl. apply (on_paths_new doms Ht b n x Hb Hne Hx Hn ready_above (retreats l)) with (l := l); [|apply Hanc; right; apply rtc_refl|done|done].
    intros p l' Hpe Hp' _. destruct (He p (path_to p l' Hp')) as [Hpp Hpk]. split; [done|]. intros a Ha. by apply (Hpk (retreats l') a l'). }
  apply (dominates_new doms Ht b n x Hb Hne Hx Hn ready_above), Hanc in D1 as [->|D1%(anc_le doms Ht)]; [lia|].
  apply (exact_dominates doms Ht He), (anc_step doms b d) in D2 as [->|D2%(anc_le doms Ht)]; [lia| |done|done].
  apply block_num_inj; [apply Hdp|apply Hn|lia].
Qed.
End block.

Lemma block_spec fuel doms ch k b : total < Z.of_nat fuel -> tree_ok doms -> ready doms k (num b + 1) -> b ∈ po -> b <> ent ->
  exists doms1 ch1, dom_block m fuel ent (Some (doms, ch)) b = Some (doms1, ch1) /\ tree_ok doms1 /\ ready doms1 k (num b) /\
    (doms1 = doms /\ ch1 = ch \/ ch1 = true /\ ~ exact doms).
Proof.
  intros Hf Ht Hr Hb Hne. destruct (num_block b Hb) as (x & Hx & Enr). unfold dom_block. simpl. destruct (Z.eqb_spec b ent) as [|_]; [done|]. rewrite Hx. simpl.
  destruct (meets_fold doms Ht fuel (parents x) Hf) as (o & -> & Ho); [apply list.Forall_forall; intros p Hp; by apply (Hpar b x)|].
  pose proof (ready_above doms k b Hr) as Habove. simpl. destruct o as [n|]; [|by destruct (parent_above doms b x Hb Hne Hx Habove) as (p & Hp & Hpp & _); destruct (Ho p Hp)].
  pose proof (ready_new doms k b n x Ht Hr Hb Hne Hx Ho) as Hnew. pose proof (tree_new doms Ht b n x Hb Hne Hx Ho Habove) as Htn. rewrite Enr.
  case_bool_decide as E; eexists _, _; (split; [done|]).
  - assert (doms' doms b n = doms) as Es by (by apply insert_id). rewrite Es in *. split_and!; auto.
  - split_and!; [done|done|]. right. split; [done|]. intros He. by apply E, (exact_same doms k b n x).
Qed.

Lemma pass_from fuel k r l doms ch : total < Z.of_nat fuel -> po = l ++ r -> r <> [] -> tree_ok doms -> ready doms k (Z.of_nat (length l)) ->
  exists doms1 ch1, foldl (dom_block m fuel ent) (Some (doms, ch)) (reverse l) = Some (doms1, ch1) /\ tree_ok doms1 /\ ready doms1 k 0 /\
    (doms1 = doms /\ ch1 = ch \/ ch1 = true /\ ~ exact doms).
Proof.
  intros Hf. revert r doms ch. induction l as [|b l IH] using rev_ind; intros r doms ch Epo Hr Ht Hrd; [exists doms, ch; split_and!; auto|].
  rewrite reverse_snoc. cbn [foldl]. rewrite <- app_assoc in Epo. assert (po !! length l = Some b) as Hi by (by rewrite Epo, lookup_app_r, Nat.sub_diag).
  assert (b ∈ po) as Hb by (by eapply list_elem_of_lookup_2). pose proof (num_lookup _ _ Hi) as Enum.
  assert (b <> ent) as Hne.
  { intros ->. pose proof num_ent. unfold total in *. rewrite Epo, length_app in H. destruct r; [done|]. simpl in H. lia. }
  rewrite length_app, Nat2Z.inj_add in Hrd. simpl in Hrd. rewrite <- Enum in Hrd.
  destruct (block_spec fuel doms ch k b Hf Ht Hrd Hb Hne) as (d1 & c1 & -> & Ht1 & Hr1 & Hc1). rewrite Enum in Hr1.
  destruct (IH ([b] ++ r) d1 c1 Epo) as (d2 & c2 & E2 & Ht2 & Hr2 & Hc2); [done|done|done|]. exists d2, c2. split_and!; [done|done|done|].
  destruct Hc1 as [[-> ->]|[-> Hx]]; [done|]. destruct Hc2 as [[-> ->]|[-> _]]; by right.
Qed.

(** A pass: every ancestor is on the paths of [k] retreats. *)
Lemma pass_spec fuel k doms : total < Z.of_nat fuel -> tree_ok doms -> ready doms k (total - 1) ->
  exists doms1 ch, dom_pass m fuel ent (reverse po) doms = Some (doms1, ch) /\ tree_ok doms1 /\ ready doms1 k 0 /\
    (doms1 = doms /\ ch = false \/ ch = true /\ ~ exact doms).
Proof.
  intros Hf Ht Hr. destruct (po_last _ _ _ Hpo) as [l E]. unfold dom_pass. assert (reverse po = ent :: reverse l) as -> by (by rewrite E, reverse_snoc). cbn [foldl]. unfold dom_block at 2. simpl. rewrite Z.eqb_refl.
  apply (pass_from fuel k [ent] l); try done. unfold total in Hr. rewrite E, length_app in Hr. simpl in Hr. by replace (Z.of_nat (length l + 1) - 1) with (Z.of_nat (length l)) in Hr by lia.
Qed.

Lemma ready_next doms k : tree_ok doms -> ready doms k 0 -> ready doms (S k) (total - 1).
Proof.
  intros Ht Hr c Hc. specialize (Hr c Hc). pose proof (num_bounds c Hc). rewrite (proj2 (Z.leb_le _ _)) in Hr by lia.
  destruct (Z.leb_spec (total - 1) (num c)); [|done]. split; [apply Hr|].
  assert (c = ent) as -> by (apply block_num_inj; [done|apply ent_in|]; rewrite num_ent; lia). apply on_paths_ent.
Qed.

Lemma ready_exact doms k : (length po <= k)%nat -> ready doms k 0 -> exact doms.
Proof.
  intros Hk Hr c Hc. specialize (Hr c Hc). pose proof (num_bounds c Hc). rewrite (proj2 (Z.leb_le _ _)) in Hr by lia. split; [apply Hr|].
  apply on_paths_all. by apply (on_paths_le _ _ k); [|apply Hr].
Qed.

(** A pass that changes nothing has found the dominators. *)
Lemma fixed_exact fuel doms k : total < Z.of_nat fuel -> tree_ok doms -> dom_pass m fuel ent (reverse po) doms = Some (doms, false) -> ready doms k 0 -> exact doms.
Proof.
  intros Hf Ht E Hr. assert (forall j, ready doms (j + k) 0) as Hall.
  { induction j as [|j IH]; [done|]. destruct (pass_spec fuel (S (j + k)) doms Hf Ht) as (d1 & c1 & E1 & _ & Hr1 & _); [by apply ready_next|].
    rewrite E in E1. by injection E1 as <- <-. }
  apply (ready_exact doms (length po + k)); [lia|done].
Qed.

Lemma loop_spec inner fuel k doms : total < Z.of_nat inner -> (length po + 2 <= k + fuel)%nat -> tree_ok doms -> ready doms k (total - 1) ->
  (length po < k -> exact doms)%nat -> (0 < fuel)%nat ->
  exists doms1, dom_loop m fuel inner ent (reverse po) doms = Some doms1 /\ tree_ok doms1 /\ exact doms1.
Proof.
  intros Hin. revert k doms. induction fuel as [|fuel IH]; intros k doms Hf Ht Hr He H0; [lia|]. simpl.
  destruct (pass_spec inner k doms Hin Ht Hr) as (d1 & c1 & E & Ht1 & Hr1 & [[-> ->]|[-> Hne]]); rewrite E; simpl.
  - exists doms. split_and!; [done|done|]. by apply (fixed_exact inner doms k).
  - destruct (decide (length po < k)%nat) as [Hlt|Hge]; [by destruct (Hne (He Hlt))|].
    apply (IH (S k)); [lia|done|by apply ready_next| |lia]. intros Hlt. apply (ready_exact d1 k); [lia|done].
Qed.

Definition start : gmap Z Z := {[total - 1 := ent]}.

Lemma start_lookup b : b ∈ po -> b <> ent -> start !! num b = None.
Proof. intros Hb Hne. apply lookup_singleton_ne. pose proof (num_lt b Hb Hne). lia. Qed.

Lemma start_ok : tree_ok start /\ ready start 0 (total - 1).
Proof.
  assert (tree_ok start) as Ht.
  { split; [by apply lookup_singleton_eq| |].
    - intros b d (Hb & Hne & H). by rewrite start_lookup in H.
    - intros a b [Hb [d Hd]] Hdom. destruct (decide (b = ent)) as [->|Hne]; [|by rewrite start_lookup in Hd].
      specialize (Hdom [ent] (path_ent m ent)). apply list_elem_of_singleton in Hdom as ->. apply rtc_refl. }
  split; [done|]. intros c Hc. destruct (Z.leb_spec (total - 1) (num c)).
  - assert (c = ent) as -> by (apply block_num_inj; [done|apply ent_in|]; rewrite num_ent; pose proof (num_bounds c Hc); lia).
    split; [by apply processed_ent|apply on_paths_ent].
  - apply start_lookup; [done|]. intros ->. rewrite num_ent in H. lia.
Qed.

Lemma dom_loop_spec : let fuel := S (S (length po)) in exists doms, dom_loop m fuel fuel ent (reverse po) start = Some doms /\ tree_ok doms /\ exact doms.
Proof. cbv zeta. destruct start_ok as [Ht Hr]. apply (loop_spec _ _ 0); try done; unfold total; lia. Qed.
End dom.

(** ** The dominator tree in the blocks, and the questions to it *)

Section tree.
Context (m : gmap Z basic_block) (ent : Z) (po : list Z) (Hpo : postordered m ent po).
Context (doms : gmap Z Z) (Ht : tree_ok m ent po doms) (He : exact m ent po doms).

Local Notation num := (num m).
Local Notation up := (up m ent po doms).
Local Notation anc := (anc m ent po doms).

Lemma up_total b : b ∈ po -> exists d, doms !! num b = Some d /\ d ∈ po /\ (b <> ent -> up b d).
Proof.
  intros Hb. destruct (decide (b = ent)) as [->|Hne].
  - exists ent. rewrite (num_ent m ent po Hpo). split_and!; [apply Ht|by apply ent_in with (m := m)|done].
  - destruct (processed_up m ent po doms b (proj1 (He b Hb)) Hne) as [d Hu]. exists d. split_and!; [apply Hu|by apply (tr_up _ _ _ _ Ht b d)|done].
Qed.

(** ** The links *)

(** A block after the loop has gone over [l]. *)
Definition linked (l : list Z) (c : Z) (x : basic_block) : basic_block :=
  Block (parents x) (children x) (generation x) (postorder_nr x) (if bool_decide (c ∈ l /\ c <> ent) then doms !! postorder_nr x else idom x)
    (bb_doms x ++ filter (fun b => b <> ent /\ doms !! num b = Some c) l) (dom_level x).

(** The blocks of [m1] have the numbers of [m]. *)
Definition numbered (m1 : gmap Z basic_block) : Prop := forall b, b ∈ po -> exists x, m1 !! b = Some x /\ postorder_nr x = num b.

(** One more block in the list. *)
Lemma linked_other l b c x : c <> b -> ~ (b <> ent /\ doms !! num b = Some c) -> linked (l ++ [b]) c x = linked l c x.
Proof.
  intros Hcb Hd. unfold linked. rewrite list.filter_app, filter_cons_False, filter_nil, app_nil_r by done. f_equal.
  rewrite (bool_decide_ext (c ∈ l ++ [b] /\ c <> ent) (c ∈ l /\ c <> ent)) by (rewrite elem_of_app, list_elem_of_singleton; tauto). done.
Qed.

Lemma linked_ent l x : linked (l ++ [ent]) ent x = linked l ent x.
Proof.
  unfold linked. rewrite list.filter_app, filter_cons_False, filter_nil, app_nil_r by (by intros []). f_equal.
  rewrite (bool_decide_ext (ent ∈ l ++ [ent] /\ ent <> ent) (ent ∈ l /\ ent <> ent)) by tauto. done.
Qed.

Lemma linked_idom l b d x : b <> ent -> doms !! num b = Some d -> postorder_nr x = num b -> b <> d -> linked (l ++ [b]) b x = set_idom (Some d) (linked l b x).
Proof.
  intros Hne Hd Hx Hbd. unfold linked. rewrite list.filter_app, filter_cons_False, filter_nil, app_nil_r by (intros [_ E]; congruence).
  unfold set_idom. simpl. f_equal. rewrite bool_decide_eq_true_2; [congruence|]. split; [|done]. rewrite elem_of_app. right. apply list_elem_of_here.
Qed.

Lemma linked_child l b d x : b <> ent -> doms !! num b = Some d -> b <> d ->
  linked (l ++ [b]) d x = set_bb_doms (bb_doms (linked l d x) ++ [b]) (linked l d x).
Proof.
  intros Hne Hd Hbd. unfold linked, set_bb_doms. simpl. rewrite list.filter_app, filter_cons_True, filter_nil, app_assoc by done. f_equal.
  rewrite (bool_decide_ext (d ∈ l ++ [b] /\ d <> ent) (d ∈ l /\ d <> ent)) by (rewrite elem_of_app, list_elem_of_singleton; split; [intros [[?| ->] ?]|intros []]; auto; done). done.
Qed.

Lemma links_fold m1 l : numbered m1 -> Forall (.∈ po) l -> exists m2, foldl (set_links ent doms) (Some m1) l = Some m2 /\ forall c, m2 !! c = linked l c <$> m1 !! c.
Proof.
  intros Hm. induction l as [|b l IH] using rev_ind; intros Hl.
  { exists m1. split; [done|]. intros c. destruct (m1 !! c) as [[]|]; [|done]. unfold linked. simpl. by rewrite app_nil_r. }
  apply list.Forall_app in Hl as [Hl [Hb _]%list.Forall_cons]. destruct (IH Hl) as (m2 & E & H2). rewrite foldl_app, E. simpl.
  destruct (Hm b Hb) as (x & Hx & Enr). rewrite H2, Hx. simpl. rewrite Enr. destruct (up_total b Hb) as (d & Hd & Hdin & Hup). rewrite Hd. simpl.
  eexists. split; [done|]. intros c. destruct (Z.eqb_spec b ent) as [->|Hne].
  - rewrite H2. destruct (m1 !! c) as [y|]; [|done]. simpl. f_equal. symmetry. destruct (decide (c = ent)) as [->|Hc]; [|by apply linked_other; [|intros []]].
    apply linked_ent.
  - destruct (tr_up _ _ _ _ Ht b d (Hup Hne)) as (_ & Hlt & _). assert (b <> d) as Hbd by (intros ->; lia).
    destruct (decide (c = d)) as [->|Hcd]; [|destruct (decide (c = b)) as [->|Hcb]].
    + rewrite lookup_alter_eq, lookup_alter_ne, H2 by done. destruct (m1 !! d) as [y|]; [|done]. simpl. f_equal. symmetry. by apply linked_child.
    + rewrite lookup_alter_ne, lookup_alter_eq, H2, Hx by done. simpl. f_equal. symmetry. by apply linked_idom.
    + rewrite !lookup_alter_ne, H2 by done. destruct (m1 !! c) as [y|]; [|done]. simpl. f_equal. symmetry. apply linked_other; [done|]. intros [_ ?]. congruence.
Qed.

(** ** The levels *)

(** All but the level. *)
Definition body (x : basic_block) : basic_block := set_dom_level 0 x.

(** The blocks of [m1] have their dominators. *)
Definition treed (m1 : gmap Z basic_block) : Prop := forall b, b ∈ po -> exists x, m1 !! b = Some x /\ idom x = (if b =? ent then None else doms !! num b).

Definition level (m1 : gmap Z basic_block) (b : Z) : Z := default 0 (dom_level <$> m1 !! b).

Definition level_ok (m1 : gmap Z basic_block) (b : Z) : Prop := if b =? ent then level m1 b = 0 else forall d, up b d -> level m1 b = level m1 d + 1.

Lemma before_in q1 b q2 d : reverse po = q1 ++ b :: q2 -> d ∈ po -> num b < num d -> d ∈ q1.
Proof.
  intros E Hd Hlt. assert (po = (reverse q2 ++ [b]) ++ reverse q1) as Epo by (by rewrite <- (reverse_involutive po), E, reverse_app, reverse_cons).
  assert (po !! length (reverse q2) = Some b) as Hb by (by rewrite Epo, <- app_assoc, lookup_app_r, Nat.sub_diag).
  rewrite (num_lookup m ent po Hpo _ b Hb) in Hlt. apply list_elem_of_lookup_1 in Hd as [i Hi]. rewrite (num_lookup m ent po Hpo i d Hi) in Hlt.
  rewrite Epo, lookup_app_r in Hi by (rewrite length_app; simpl; lia). apply list_elem_of_lookup_2 in Hi. by rewrite elem_of_reverse in Hi.
Qed.

(** The step of a block of known level. *)
Lemma level_alter m2 b lv c x : m2 !! b = Some x -> level (alter (set_dom_level lv) b m2) c = if c =? b then lv else level m2 c.
Proof.
  intros Hx. unfold level. destruct (Z.eqb_spec c b) as [->|Hne]; [by rewrite lookup_alter_eq, Hx|by rewrite lookup_alter_ne].
Qed.

Lemma body_alter (m2 : gmap Z basic_block) b lv c : body <$> alter (set_dom_level lv) b m2 !! c = body <$> m2 !! c.
Proof. destruct (decide (c = b)) as [->|Hne]; [rewrite lookup_alter_eq; by destruct (m2 !! b)|by rewrite lookup_alter_ne]. Qed.

Lemma set_level_spec m2 mx b : treed m2 -> b ∈ po -> exists lv, set_level (Some (m2, mx)) b = Some (alter (set_dom_level lv) b m2, Z.max mx lv) /\
  if b =? ent then lv = 0 else forall d, up b d -> lv = level m2 d + 1.
Proof.
  intros Hm Hb. destruct (Hm b Hb) as (x & Hx & Eid). simpl. rewrite Hx. simpl. rewrite Eid. destruct (Z.eqb_spec b ent) as [->|Hne]; [by exists 0|].
  destruct (up_total b Hb) as (d & -> & Hd & Hup). destruct (Hm d Hd) as (y & Hy & _). rewrite Hy. simpl. exists (dom_level y + 1). split; [done|].
  intros d' Hu. rewrite <- (up_fun _ _ _ _ _ _ _ (Hup Hne) Hu). unfold level. by rewrite Hy.
Qed.

Lemma body_treed m1 m2 : (forall c, body <$> m2 !! c = body <$> m1 !! c) -> treed m1 -> treed m2.
Proof.
  intros Hbody Hm b Hb. destruct (Hm b Hb) as (x & Hx & <-). specialize (Hbody b). rewrite Hx in Hbody. destruct (m2 !! b) as [y|]; [|done].
  injection Hbody as _ _ _ _ Hi _. by exists y.
Qed.

(** The blocks of [q] have levels, at most [mx]. *)
Definition leveled (m1 : gmap Z basic_block) (q : list Z) (mx : Z) : Prop := 0 <= mx /\
  forall b, b ∈ q -> 0 <= level m1 b <= mx /\ level_ok m1 b /\ forall d, up b d -> d ∈ q.

Lemma leveled_step m2 q1 mx b lv : treed m2 -> leveled m2 q1 mx -> b ∈ po -> b ∉ q1 -> (forall d, up b d -> d ∈ q1) ->
  (if b =? ent then lv = 0 else forall d, up b d -> lv = level m2 d + 1) -> leveled (alter (set_dom_level lv) b m2) (q1 ++ [b]) (Z.max mx lv).
Proof.
  intros Hm [H0 Hq] Hb Hnb Hup Hlv. destruct (Hm b Hb) as (x & Hx & _). pose proof (fun c => level_alter m2 b lv c x Hx) as Hal. split; [lia|].
  assert (forall c, c ∈ q1 -> level (alter (set_dom_level lv) b m2) c = level m2 c) as Hold.
  { intros c Hc. rewrite Hal. by destruct (Z.eqb_spec c b) as [->|]. }
  intros c Hc. rewrite elem_of_app, list_elem_of_singleton in Hc. destruct Hc as [Hc| ->].
  - destruct (Hq c Hc) as (Hl & Hok & Hd). rewrite Hold by done. split_and!; [lia|lia| |intros d Hu; rewrite elem_of_app; left; by apply Hd].
    unfold level_ok in *. rewrite Hold by done. destruct (c =? ent); [done|]. intros d Hu. rewrite Hold by (by apply Hd). by apply Hok.
  - assert (level (alter (set_dom_level lv) b m2) b = lv) as El by (rewrite Hal; by rewrite Z.eqb_refl). unfold level_ok. rewrite El. split; [|split].
    + split; [|lia]. destruct (Z.eqb_spec b ent) as [->|Hne]; [lia|]. destruct (up_total b Hb) as (d & _ & _ & Hu). specialize (Hu Hne).
      rewrite (Hlv d Hu). destruct (Hq d (Hup d Hu)) as ([] & _). lia.
    + destruct (b =? ent); [done|]. intros d Hu. rewrite Hold by (by apply Hup). by apply Hlv.
    + intros d Hu. rewrite elem_of_app. left. by apply Hup.
Qed.

Lemma levels_fold m1 q1 q2 : treed m1 -> reverse po = q1 ++ q2 -> exists m2 mx, foldl set_level (Some (m1, 0)) q1 = Some (m2, mx) /\
  (forall c, body <$> m2 !! c = body <$> m1 !! c) /\ leveled m2 q1 mx.
Proof.
  intros Hm. revert q2. induction q1 as [|b q1 IH] using rev_ind; intros q2 Eq; [exists m1, 0; split; [done|split; [done|split; [lia|by intros b Hb%elem_of_nil]]]|].
  rewrite <- app_assoc in Eq. destruct (IH _ Eq) as (m2 & mx & E & Hbody & Hlev). rewrite foldl_app, E.
  assert (b ∈ po) as Hb by (apply elem_of_reverse; rewrite Eq, elem_of_app; right; apply list_elem_of_here).
  assert (b ∉ q1) as Hnb.
  { pose proof (po_nodup _ _ _ Hpo) as Hn. rewrite <- (reverse_Permutation po), Eq in Hn. apply list.NoDup_app in Hn as (_ & Hn & _).
    intros H. apply (Hn b H), list_elem_of_here. }
  pose proof (body_treed m1 m2 Hbody Hm) as Hm2. destruct (set_level_spec m2 mx b Hm2 Hb) as (lv & Es & Hlv).
  exists (alter (set_dom_level lv) b m2), (Z.max mx lv). split; [done|]. split; [intros c; by rewrite body_alter|].
  apply leveled_step; try done. intros d Hu. destruct (tr_up _ _ _ _ Ht b d Hu) as ([Hd _] & Hlt & _). by apply (before_in q1 b q2).
Qed.

(** ** Questions to the tree *)

Section query.
Context (m1 : gmap Z basic_block) (mx : Z) (Hm : treed m1) (Hlev : leveled m1 (reverse po) mx).

Lemma up_level b d : up b d -> level m1 d < level m1 b.
Proof.
  intros Hu. assert (b ∈ reverse po) as Hb by (apply elem_of_reverse, Hu). destruct Hlev as [_ Hl]. destruct (Hl b Hb) as (_ & Hok & _).
  unfold level_ok in Hok. destruct (Z.eqb_spec b ent) as [->|Hne]; [by destruct Hu as (_ & ? & _)|]. rewrite (Hok d Hu). lia.
Qed.

Lemma anc_level b a : anc b a -> b = a \/ level m1 a < level m1 b.
Proof. induction 1 as [|b d a Hu _ IH]; [by left|]. right. pose proof (up_level b d Hu). destruct IH as [->|IH]; lia. Qed.

Lemma walk_up_none fuel a : walk_up fuel m1 a None = false.
Proof. by destruct fuel. Qed.

Lemma walk_up_spec fuel a b : b ∈ po -> total po - num b <= Z.of_nat fuel -> walk_up fuel m1 a (Some b) = true <-> anc b a.
Proof.
  revert b. induction fuel as [|fuel IH]; intros b Hb Hf; [pose proof (num_bounds m ent po Hpo b Hb); lia|]. simpl.
  destruct (Z.eqb_spec b a) as [->|Hba]; [split; [intros _; apply rtc_refl|done]|]. destruct (Hm b Hb) as (x & -> & Eid). simpl. rewrite Eid.
  destruct (Z.eqb_spec b ent) as [->|Hne].
  - rewrite walk_up_none. split; [done|]. by intros ->%anc_ent.
  - destruct (up_total b Hb) as (d & -> & Hd & Hup). specialize (Hup Hne). destruct (tr_up _ _ _ _ Ht b d Hup) as (_ & Hlt & _).
    rewrite IH by (done || lia). split; [by apply rtc_l|]. intros [->|Ha]%(anc_step _ _ _ _ b d); done.
Qed.

Lemma level_of b x : m1 !! b = Some x -> dom_level x = level m1 b.
Proof. intros Hx. unfold level. by rewrite Hx. Qed.

Lemma idom_up b x d : b ∈ po -> m1 !! b = Some x -> idom x = Some d <-> up b d.
Proof.
  intros Hb Hx. destruct (Hm b Hb) as (x' & Hx' & Eid). simplify_eq. rewrite Eid. destruct (Z.eqb_spec b ent) as [->|Hne].
  - split; [done|]. by intros (_ & ? & _).
  - split; [|by intros (_ & _ & ?)]. intros H. by split_and!.
Qed.

Lemma query_spec ep a b xa : blocks ep = m1 -> ep_bbs ep = reverse po -> m1 !! a = Some xa -> b ∈ po -> domtree_dominates ep a b = true <-> anc b a.
Proof.
  intros Em El Ha Hb. unfold domtree_dominates. destruct (Hm b Hb) as (xb & Hxb & Eid). rewrite Em, Ha, Hxb.
  destruct (Z.eqb_spec a b) as [->|Hab]; [split; [intros _; apply rtc_refl|done]|].
  case_bool_decide as H1; [split; [intros _|done]; apply rtc_once, (idom_up b xb); [done|done|congruence]|].
  assert (anc b a -> level m1 a < level m1 b) as Hanc by (intros [->|?]%anc_level; [done|lia]).
  assert (anc b a -> a ∈ po) as Hain by (intros H; apply (anc_processed _ _ _ _ Ht b a H); by apply He).
  case_bool_decide as H2.
  { split; [done|]. intros H. specialize (Hanc H). symmetry in H2. apply (idom_up a xa) in H2; [|by apply Hain|done]. apply up_level in H2. lia. }
  rewrite (level_of a xa Ha), (level_of b xb Hxb). destruct (Z.leb_spec (level m1 b) (level m1 a)) as [Hle|Hlt].
  { split; [done|]. intros H. specialize (Hanc H). lia. }
  destruct (idom xb) as [d|] eqn:Ed.
  - pose proof Ed as Hu. apply (idom_up b xb) in Hu; [|done|done]. destruct (tr_up _ _ _ _ Ht b d Hu) as ([Hd _] & _).
    rewrite walk_up_spec; [|done|rewrite El, length_reverse; unfold total; pose proof (num_bounds m ent po Hpo d Hd); lia].
    split; [by apply rtc_l|]. intros [->|H]%(anc_step _ _ _ _ b d); done.
  - rewrite walk_up_none. split; [done|]. intros [->|(d & Hu & _)]%rtc_inv; [done|]. apply (idom_up b xb) in Hu; [congruence|done|done].
Qed.
End query.
End tree.
