(* ===== verification/FlowgraphTheorems.v ===== *)
(** * Flow graphs: theorems *)
From stdpp Require Import base option gmap list relations.
From S2P Require Import Prelude Simplify Flowgraph FlowgraphDfs FlowgraphDom.
#[local] Open Scope Z_scope.

#[local] Arguments dom_loop : simpl never.

(** ** The composition *)

Lemma path_links m m' ent b l : (forall c, links <$> m' !! c = links <$> m !! c) -> path m' ent b l -> path m ent b l.
Proof. intros Hl. induction 1 as [|p b l _ IH He]; [constructor|]. apply path_edge with p; [done|by apply (links_edge m m' Hl)]. Qed.

Lemma dominates_links m m' ent a b : (forall c, links <$> m' !! c = links <$> m !! c) -> dominates m' ent a b <-> dominates m ent a b.
Proof. intros Hl. split; intros Hd l Hp; apply Hd; revert Hp; apply path_links; done. Qed.

Lemma clear_fold (m : gmap Z basic_block) l c : foldl (fun m b => alter (set_bb_doms []) b m) m l !! c = (fun x => if bool_decide (c ∈ l) then set_bb_doms [] x else x) <$> m !! c.
Proof.
  induction l as [|b l IH] using rev_ind; [simpl; by destruct (m !! c)|]. rewrite foldl_app. simpl. destruct (decide (c = b)) as [->|Hne].
  - rewrite lookup_alter_eq, IH. destruct (m !! b) as [x|]; [|done]. simpl. rewrite (bool_decide_eq_true_2 (b ∈ l ++ [b])) by (rewrite elem_of_app; right; apply list_elem_of_here).
    f_equal. by case_bool_decide.
  - rewrite lookup_alter_ne, IH by done. destruct (m !! c) as [x|]; [|done]. simpl. f_equal.
    by rewrite (bool_decide_ext (c ∈ l ++ [b]) (c ∈ l)) by (rewrite elem_of_app, list_elem_of_singleton; tauto).
Qed.

(** What domtree_build() leaves in the blocks. *)
Record built (ep ep' : entrypoint) (m : gmap Z basic_block) (po : list Z) (doms : gmap Z Z) : Prop := {
  bu_links : forall c, links <$> m !! c = links <$> blocks ep !! c;
  bu_po : postordered m (entry ep) po;
  bu_tree : tree_ok m (entry ep) po doms;
  bu_exact : exact m (entry ep) po doms;
  bu_treed : treed m (entry ep) po doms (blocks ep');
  bu_leveled : leveled m (entry ep) po doms (blocks ep') (reverse po) (dom_levels ep' - 1);
  bu_links' : forall c, links <$> blocks ep' !! c = links <$> blocks ep !! c;
  bu_bbs : ep_bbs ep' = reverse po;
  bu_entry : entry ep' = entry ep;
  bu_doms : forall b x, b ∈ po -> blocks ep' !! b = Some x -> bb_doms x = filter (fun c => c <> entry ep /\ doms !! num m c = Some b) (reverse po)
}.

(** The blocks before the levels. *)
Section build.
Context (m : gmap Z basic_block) (ent : Z) (po : list Z) (doms : gmap Z Z) (Hpo : postordered m ent po).
Context (Ht : tree_ok m ent po doms) (He : exact m ent po doms).

Lemma build_links : let m1 := foldl (fun m b => alter (set_bb_doms []) b m) m (reverse po) in
  exists m2, foldl (set_links ent doms) (Some m1) (reverse po) = Some m2 /\ treed m ent po doms (alter (set_idom None) ent m2) /\
    (forall c, links <$> alter (set_idom None) ent m2 !! c = links <$> m !! c) /\
    forall b x, b ∈ po -> alter (set_idom None) ent m2 !! b = Some x -> bb_doms x = filter (fun c => c <> ent /\ doms !! num m c = Some b) (reverse po).
Proof.
  cbv zeta. set (m1 := foldl _ m _). assert (forall c, m1 !! c = (fun x => if bool_decide (c ∈ reverse po) then set_bb_doms [] x else x) <$> m !! c) as H1 by (apply clear_fold).
  assert (forall b x, b ∈ po -> m !! b = Some x -> m1 !! b = Some (set_bb_doms [] x)) as Hin.
  { intros b x Hb Hx. rewrite H1, Hx. simpl. by rewrite bool_decide_eq_true_2 by (by apply elem_of_reverse). }
  destruct (links_fold m ent po Hpo doms Ht He m1 (reverse po)) as (m2 & E & H2).
  { intros b Hb. destruct (num_block m ent po Hpo b Hb) as (x & Hx & Enr). exists (set_bb_doms [] x). by rewrite (Hin b x). }
  { apply list.Forall_forall. intros b Hb. by rewrite elem_of_reverse in Hb. }
  exists m2. split; [done|].
  assert (forall b x, b ∈ po -> m !! b = Some x -> alter (set_idom None) ent m2 !! b =
    Some (if b =? ent then set_idom None (linked m ent doms (reverse po) b (set_bb_doms [] x)) else linked m ent doms (reverse po) b (set_bb_doms [] x))) as H3.
  { intros b x Hb Hx. destruct (Z.eqb_spec b ent) as [->|Hne]; [rewrite lookup_alter_eq|rewrite lookup_alter_ne by done]; by rewrite H2, (Hin _ x). }
  split_and!.
  - intros b Hb. destruct (num_block m ent po Hpo b Hb) as (x & Hx & Enr). eexists. split; [by apply H3|]. destruct (Z.eqb_spec b ent) as [->|Hne]; [done|].
    simpl. rewrite bool_decide_eq_true_2 by (by rewrite elem_of_reverse). by rewrite Enr.
  - intros c. assert (links <$> m2 !! c = links <$> m !! c) as <-.
    { rewrite H2, H1. destruct (m !! c); [|done]. simpl. by case_bool_decide. }
    destruct (decide (c = ent)) as [->|Hne]; [rewrite lookup_alter_eq; by destruct (m2 !! ent)|by rewrite lookup_alter_ne].
  - intros b x Hb Hx. destruct (num_block m ent po Hpo b Hb) as (y & Hy & _). rewrite (H3 b y Hb Hy) in Hx. by destruct (b =? ent); injection Hx as <-.
Qed.
End build.

Lemma body_links (m m' : gmap Z basic_block) : (forall c, body <$> m' !! c = body <$> m !! c) -> forall c, links <$> m' !! c = links <$> m !! c.
Proof. intros H c. specialize (H c). destruct (m' !! c), (m !! c); try done. simpl in *. injection H as E1 E2. unfold links. congruence. Qed.

Lemma built_spec ep : cfg_ok ep -> exists ep' m po doms, domtree_build ep = Some ep' /\ built ep ep' m po doms.
Proof.
  intros Hok. destruct (cfg_postorder_spec ep Hok) as (m & po & E & Hl & Hpo). unfold domtree_build. rewrite E. simpl.
  assert (forall b x p, b ∈ po -> m !! b = Some x -> p ∈ parents x <-> edge m p b /\ p ∈ po) as Hpar.
  { intros b x p Hb Hx. rewrite (po_reach _ _ _ Hpo) in Hb. apply (links_rtc _ _ Hl) in Hb. destruct (links_lookup_inv _ _ Hl b x Hx) as (y & Hy & _ & ->).
    rewrite (cfg_parents ep Hok b y p Hy Hb), (po_reach _ _ _ Hpo), (links_edge _ _ Hl), (links_rtc _ _ Hl). done. }
  pose proof (ent_in _ _ _ Hpo) as Hent. destruct (num_block _ _ _ Hpo _ Hent) as (x & -> & Enr). simpl. rewrite Enr, (num_ent _ _ _ Hpo), Z.eqb_refl, Nat2Z.id. simpl.
  destruct (dom_loop_spec m (entry ep) po Hpo Hpar) as (doms & Ed & Ht & He). unfold start, total in Ed. rewrite Ed. simpl.
  destruct (build_links m (entry ep) po doms Hpo Ht He) as (m2 & E2 & Htr & Hl2 & Hd2). rewrite E2. simpl.
  destruct (levels_fold m (entry ep) po Hpo doms Ht He (alter (set_idom None) (entry ep) m2) (reverse po) [] Htr) as (m3 & mx & E3 & Hbody & Hlev); [by rewrite app_nil_r|].
  rewrite E3. simpl. eexists _, m, po, doms. split; [done|]. split; simpl; try done.
  - by apply (body_treed _ _ _ _ (alter (set_idom None) (entry ep) m2)).
  - by replace (mx + 1 - 1) with mx by lia.
  - intros c. by rewrite (body_links _ _ Hbody), Hl2, Hl.
  - intros b y Hb Hy. specialize (Hbody b). rewrite Hy in Hbody. destruct (alter (set_idom None) (entry ep) m2 !! b) as [z|] eqn:Hz; [|done].
    rewrite <- (Hd2 b z Hb Hz). by injection Hbody as _ _ _ _ _ ->.
Qed.

(** The answers of domtree_dominates(). *)
Lemma dominates_answer ep : cfg_ok ep -> exists ep', domtree_build ep = Some ep' /\
  forall a b, is_Some (blocks ep !! a) -> rtc (edge (blocks ep)) (entry ep) b -> domtree_dominates ep' a b = true <-> dominates (blocks ep) (entry ep) a b.
Proof.
  intros Hok. destruct (built_spec ep Hok) as (ep' & m & po & doms & E & [Hl Hpo Ht He Htr Hlev Hl' Hbbs _ _]). exists ep'. split; [done|].
  intros a b [xa Ha] Hb. rewrite <- (links_rtc _ _ Hl), <- (po_reach _ _ _ Hpo) in Hb. destruct (links_lookup _ _ Hl' a xa Ha) as (ya & Hya & _).
  rewrite (query_spec m (entry ep) po Hpo doms Ht He (blocks ep') _ Htr Hlev ep' a b ya), (exact_dominates _ _ _ doms Ht He), (dominates_links _ _ _ _ _ Hl); done.
Qed.

(** ** A graph with a loop of two entries *)

Definition plain (ps cs : list Z) : basic_block := Block ps cs 0 0 None [] 0.

Definition loops : entrypoint := Entrypoint
  (list_to_map [(0, plain [] [1; 2]); (1, plain [0; 2] [2; 3]); (2, plain [0; 1] [1]); (3, plain [1; 6] [4; 5]);
    (4, plain [3] [6]); (5, plain [3] [6]); (6, plain [4; 5] [3])]) 0 [] 0 0.

(** The parts of [cfg_ok] that can be computed. *)
Definition graph_ok (ep : entrypoint) : bool :=
  bool_decide (is_Some (blocks ep !! entry ep)) &&
  bool_decide (map_Forall (fun a x => generation x <= bb_generation ep /\
    Forall (fun c => is_Some (blocks ep !! c) /\ a ∈ default [] (parents <$> blocks ep !! c)) (children x) /\
    Forall (fun p => a ∈ default [] (children <$> blocks ep !! p)) (parents x)) (blocks ep)).

Lemma graph_ok_cfg ep : graph_ok ep = true -> (forall b, is_Some (blocks ep !! b) -> rtc (edge (blocks ep)) (entry ep) b) -> cfg_ok ep.
Proof.
  intros [He%bool_decide_eq_true H%bool_decide_eq_true]%andb_true_iff Hr. split.
  - done.
  - intros a b (x & Hx & Hb). destruct (H a x Hx) as (_ & Hc & _). rewrite list.Forall_forall in Hc. by apply Hc.
  - intros b x Hx. by apply (H b x Hx).
  - intros b x p Hx Hb. split.
    + intros Hp. destruct (H b x Hx) as (_ & _ & Hps). rewrite list.Forall_forall in Hps. specialize (Hps p Hp).
      destruct (blocks ep !! p) as [y|] eqn:Hy; [|by apply elem_of_nil in Hps]. split; [by exists y|]. apply Hr. by eexists.
    + intros [(y & Hy & Hc) _]. destruct (H p y Hy) as (_ & Hcs & _). rewrite list.Forall_forall in Hcs. destruct (Hcs b Hc) as [_ Hin]. by rewrite Hx in Hin.
Qed.

Lemma edge_compute (m : gmap Z basic_block) a b : bool_decide (b ∈ default [] (children <$> m !! a)) = true -> edge m a b.
Proof. intros H%bool_decide_eq_true. destruct (m !! a) as [x|] eqn:Hx; [by exists x|by apply elem_of_nil in H]. Qed.

Ltac go a := apply rtc_l with a; [apply edge_compute; vm_compute; reflexivity|].

Lemma loops_reached b : is_Some (blocks loops !! b) -> rtc (edge (blocks loops)) (entry loops) b.
Proof.
  intros Hb. assert (b ∈ dom (blocks loops)) as H by (by apply elem_of_dom). replace (dom (blocks loops)) with ({[0; 1; 2; 3; 4; 5; 6]} : gset Z) in H by (vm_compute; reflexivity).
  rewrite !elem_of_union, !elem_of_singleton in H. destruct H as [[[[[[->| ->]| ->]| ->]| ->]| ->]| ->]; simpl.
  - apply rtc_refl.
  - go 1. apply rtc_refl.
  - go 2. apply rtc_refl.
  - go 1. go 3. apply rtc_refl.
  - go 1. go 3. go 4. apply rtc_refl.
  - go 1. go 3. go 5. apply rtc_refl.
  - go 1. go 3. go 4. go 6. apply rtc_refl.
Qed.

Lemma loops_ok : cfg_ok loops.
Proof. apply graph_ok_cfg; [vm_compute; reflexivity|apply loops_reached]. Qed.

(** ** The theorems *)

(** C26: cfg_postorder() succeeds on every function: its result is the number of the blocks that can be reached from the entry, it leaves
    them, each once, in the list of the blocks, and it gives each one its distance from the end of that list; the entry
    is the first of the list and every other block comes after one of its parents.  The edges are kept. *)
Theorem cfg_postorder_numbers ep : cfg_ok ep -> exists ep', cfg_postorder ep = Some (Z.of_nat (length (ep_bbs ep')), ep') /\
  NoDup (ep_bbs ep') /\ (forall b, b ∈ ep_bbs ep' <-> rtc (edge (blocks ep)) (entry ep) b) /\ head (ep_bbs ep') = Some (entry ep) /\
  (forall i b, ep_bbs ep' !! i = Some b -> nr (blocks ep') b = Some (Z.of_nat (length (ep_bbs ep')) - 1 - Z.of_nat i)) /\
  (forall i b, ep_bbs ep' !! i = Some b -> b <> entry ep -> exists j p, (j < i)%nat /\ ep_bbs ep' !! j = Some p /\ edge (blocks ep) p b) /\
  (forall c, links <$> blocks ep' !! c = links <$> blocks ep !! c).
Proof.
  intros Hok. destruct (cfg_postorder_spec ep Hok) as (m & po & E & Hl & Hpo). cbv zeta in E.
  exists (set_ep_bbs (reverse po) (set_blocks m (set_bb_generation (bb_generation ep + 1) ep))). simpl. rewrite length_reverse. split; [done|].
  assert (forall i b, reverse po !! i = Some b -> (i < length po)%nat /\ po !! (length po - 1 - i)%nat = Some b) as Hi.
  { intros i b H. assert (i < length po)%nat by (rewrite <- length_reverse; by eapply lookup_lt_Some). split; [done|].
    rewrite reverse_lookup in H by done. by replace (length po - 1 - i)%nat with (length po - S i)%nat by lia. }
  split_and!.
  - rewrite (reverse_Permutation po). apply Hpo.
  - intros b. rewrite elem_of_reverse, (po_reach _ _ _ Hpo). apply (links_rtc _ _ Hl).
  - destruct (po_last _ _ _ Hpo) as [l ->]. by rewrite reverse_snoc.
  - intros i b [Hlt H]%Hi. rewrite (po_nr _ _ _ Hpo _ _ H). f_equal. lia.
  - intros i b [Hlt H]%Hi Hne. destruct (po_parent _ _ _ Hpo _ _ H Hne) as (j & p & Hij & Hj & He). apply lookup_lt_Some in Hj as Hjl.
    exists (length po - 1 - j)%nat, p. split_and!; [lia| |by apply (links_edge _ _ Hl)]. rewrite reverse_lookup by lia. rewrite <- Hj. f_equal. lia.
  - done.
Qed.

Lemma cfg_postorder_numbers_witness : exists ep', cfg_postorder loops = Some (Z.of_nat (length (ep_bbs ep')), ep') /\ head (ep_bbs ep') = Some 0.
Proof. destruct (cfg_postorder_numbers loops loops_ok) as (ep' & E & _ & _ & H & _). exists ep'. by split. Defined.

(** C14: domtree_build() ends on every function, however its loops are entered: the block it links a block to is its immediate dominator (a
    dominator of it other than itself that every other one dominates), the entry has none, the blocks a block is linked from are the
    elements of its list, and the level of a block is one more than that of its immediate dominator, from 0 at the entry, and less than
    the number of levels. *)
Theorem domtree_build_immediate ep : cfg_ok ep -> exists ep', domtree_build ep = Some ep' /\
  (forall c, links <$> blocks ep' !! c = links <$> blocks ep !! c) /\
  forall b, rtc (edge (blocks ep)) (entry ep) b -> exists x, blocks ep' !! b = Some x /\ 0 <= dom_level x < dom_levels ep' /\
    (forall c, c ∈ bb_doms x <-> rtc (edge (blocks ep)) (entry ep) c /\ exists y, blocks ep' !! c = Some y /\ idom y = Some b) /\
    match idom x with
    | None => b = entry ep /\ dom_level x = 0
    | Some d => b <> entry ep /\ d <> b /\ dominates (blocks ep) (entry ep) d b /\
      (forall a, dominates (blocks ep) (entry ep) a b -> a = b \/ dominates (blocks ep) (entry ep) a d) /\
      exists y, blocks ep' !! d = Some y /\ dom_level x = dom_level y + 1
    end.
Proof.
  intros Hok. destruct (built_spec ep Hok) as (ep' & m & po & doms & E & [Hl Hpo Ht He Htr Hlev Hl' Hbbs _ Hd]). exists ep'. split; [done|]. split; [done|].
  intros b Hb. assert (forall c, rtc (edge (blocks ep)) (entry ep) c <-> c ∈ po) as Hre by (intros c; by rewrite (po_reach _ _ _ Hpo), (links_rtc _ _ Hl)).
  rewrite Hre in Hb. destruct (Htr b Hb) as (x & Hx & Ei). exists x. pose proof (fun c y => idom_up m (entry ep) po doms (blocks ep') Htr c y) as Hup.
  destruct Hlev as [_ Hlev]. destruct (Hlev b) as (Hr & Hlo & _); [by apply elem_of_reverse|]. pose proof (level_of (blocks ep') b x Hx) as El. rewrite <- El in Hr.
  split_and!; [done|lia|lia| |].
  - intros c. rewrite (Hd b x Hb Hx), list_elem_of_filter, elem_of_reverse, Hre. split.
    + intros [[Hne Hc] Hin]. split; [done|]. destruct (Htr c Hin) as (y & Hy & _). exists y. split; [done|]. by apply (Hup c y).
    + intros [Hin (y & Hy & Hi)]. apply (Hup c y b Hin Hy) in Hi as (_ & Hne & Hc). done.
  - assert (forall a c, c ∈ po -> dominates (blocks ep) (entry ep) a c <-> anc m (entry ep) po doms c a) as Hdom.
    { intros a c Hc. rewrite <- (dominates_links _ _ _ _ _ Hl). by rewrite (exact_dominates _ _ _ doms Ht He). }
    unfold level_ok in Hlo. rewrite <- El in Hlo. destruct (idom x) as [d|] eqn:Ed.
    + apply (Hup b x d Hb Hx) in Ed. destruct (tr_up _ _ _ _ Ht b d Ed) as ([Hdin _] & Hlt & _). pose proof Ed as (_ & Hne & _).
      split_and!; [done|intros ->; lia|by apply Hdom; [|apply rtc_once]| |].
      * intros a Ha%Hdom; [|done]. apply (anc_step _ _ _ _ b d) in Ha as [->|Ha]; [by left|right; by apply Hdom|done].
      * destruct (Htr d Hdin) as (y & Hy & _). exists y. split; [done|]. rewrite (level_of _ d y Hy). destruct (Z.eqb_spec b (entry ep)); [done|]. by apply Hlo.
    + destruct (Z.eqb_spec b (entry ep)) as [->|Hne]; [done|]. destruct (up_total m (entry ep) po Hpo doms Ht He b Hb) as (d & Hdm & _). congruence.
Qed.

Lemma domtree_build_immediate_witness : exists ep' x, domtree_build loops = Some ep' /\ blocks ep' !! 6 = Some x /\ idom x = Some 3 /\ dominates (blocks loops) 0 3 6.
Proof.
  destruct (domtree_build_immediate loops loops_ok) as (ep' & E & _ & H). destruct (H 6) as (x & Hx & _ & _ & Hi).
  { go 1. go 3. go 4. go 6. apply rtc_refl. }
  exists ep', x. split; [done|]. split; [done|]. assert (idom x = Some 3) as Ei.
  { assert (idom <$> (ep ← domtree_build loops; blocks ep !! 6) = Some (Some 3)) as Hc by (vm_compute; reflexivity). rewrite E in Hc. simpl in Hc. rewrite Hx in Hc. by injection Hc. }
  split; [done|]. rewrite Ei in Hi. apply Hi.
Defined.

(** C13: After domtree_build(), domtree_dominates() says of a block [a] and a block [b] that can be reached from the entry whether [a] is on
    every path from the entry to [b]. *)
Theorem domtree_dominates_correct ep : cfg_ok ep -> exists ep', domtree_build ep = Some ep' /\
  forall a b, is_Some (blocks ep !! a) -> rtc (edge (blocks ep)) (entry ep) b -> domtree_dominates ep' a b = true <-> dominates (blocks ep) (entry ep) a b.
Proof. apply dominates_answer. Qed.

Lemma domtree_dominates_correct_witness : exists ep', domtree_build loops = Some ep' /\ (domtree_dominates ep' 1 6 = true <-> dominates (blocks loops) 0 1 6) /\ domtree_dominates ep' 1 2 = false.
Proof.
  destruct (domtree_dominates_correct loops loops_ok) as (ep' & E & H). exists ep'. split; [done|]. split.
  - apply H; [vm_compute; by eexists|]. go 1. go 3. go 4. go 6. apply rtc_refl.
  - assert ((fun ep => domtree_dominates ep 1 2) <$> domtree_build loops = Some false) as Hc by (vm_compute; reflexivity). rewrite E in Hc. by injection Hc.
Defined.

(** ** Moving instructions: can_move_to() over the dominator tree

    simplify.c asks flowgraph.c whether a block dominates another through the class [Domtree]; the tree that
    domtree_build() leaves is an instance. *)

#[export] Instance built_domtree (ep : entrypoint) : Domtree := {| Simplify.domtree_dominates := Flowgraph.domtree_dominates ep |}.

(** ** What runs before an instruction *)

Fixpoint upto (l : list Z) (y : Z) : list Z :=
  match l with
  | [] => []
  | i :: l => if i =? y then [] else i :: upto l y
  end.

(** The instructions that run on a path, the last block first, before [y] of its last block. *)
Definition executed (d : dag) (l : list Z) (y : Z) : list Z :=
  match l with
  | [] => []
  | b :: l => foldl (fun acc c => default [] (bbs d !! c) ++ acc) (upto (default [] (bbs d !! b)) y) l
  end.

Lemma upto_before l x y : x <> y -> insn_before l x y = true -> x ∈ upto l y.
Proof.
  intros Hxy. induction l as [|i l IH]; simpl; [done|]. destruct (Z.eqb_spec i x) as [->|Hix].
  - intros _. destruct (Z.eqb_spec x y); [done|apply list_elem_of_here].
  - destruct (i =? y); [done|]. intros H%IH. by apply list_elem_of_further.
Qed.

Lemma executed_keep d l r acc : r ∈ acc -> r ∈ foldl (fun acc c => default [] (bbs d !! c) ++ acc) acc l.
Proof. revert acc. induction l as [|c l IH]; intros acc H; [done|]. simpl. apply IH. rewrite elem_of_app. by right. Qed.

Lemma executed_block d l r b acc : b ∈ l -> r ∈ default [] (bbs d !! b) -> r ∈ foldl (fun acc c => default [] (bbs d !! c) ++ acc) acc l.
Proof.
  intros Hb Hr. revert acc. induction Hb as [b l|b c l _ IH]; intros acc; simpl; [|by apply IH].
  apply executed_keep. rewrite elem_of_app. by left.
Qed.

(** C15: An instruction that can_move_to(), with the tree of domtree_build(), lets another one use has run on every path from the entry
    to that other one: it is in an earlier block of the path, or earlier in the last block. *)
Theorem can_move_to_executed ep ep' d r dst b c l : cfg_ok ep -> domtree_build ep = Some ep' ->
  bb (insn_at d r) = Some b -> bb (insn_at d dst) = Some c -> is_Some (blocks ep !! b) -> rtc (edge (blocks ep)) (entry ep) c -> r ∈ default [] (bbs d !! b) ->
  @can_move_to (built_domtree ep') (REG r) dst d = true -> path (blocks ep) (entry ep) c l -> r ∈ executed d l dst.
Proof.
  intros Hok Hbuild Hr Hdst Hb Hc Hin Hm Hp. unfold can_move_to in Hm. destruct (one_use d (REG dst)); [|done]. simpl in Hm.
  destruct (Z.eqb_spec r dst) as [|Hne]; [done|]. rewrite Hr, Hdst in Hm. destruct (path_last _ _ _ _ Hp) as [l' El]. subst l. simpl.
  destruct (Z.eqb_spec b c) as [->|Hbc]; [by apply executed_keep, upto_before|].
  destruct (dominates_answer ep Hok) as (ep2 & E2 & Hd). rewrite Hbuild in E2. injection E2 as <-. apply Hd in Hm; [|done|done].
  specialize (Hm _ Hp). apply elem_of_cons in Hm as [->|Hm]; [done|]. by apply (executed_block d l' r b).
Qed.

Definition two_blocks : dag := Dag (<[1 := set_bb (Some 1) no_insn]> {[2 := set_bb (Some 6) no_insn]}) (<[1 := [1]]> {[6 := [2]]}) 0.

Lemma can_move_to_executed_witness : exists ep', domtree_build loops = Some ep' /\ 1 ∈ executed two_blocks [6; 4; 3; 1; 0] 2.
Proof.
  destruct (dominates_answer loops loops_ok) as (ep' & E & _). exists ep'. split; [done|].
  apply (can_move_to_executed loops ep' two_blocks 1 2 1 6); [apply loops_ok|done|reflexivity|reflexivity|vm_compute; by eexists| |vm_compute; left| |].
  - go 1. go 3. go 4. go 6. apply rtc_refl.
  - assert ((fun ep => @can_move_to (built_domtree ep) (REG 1) 2 two_blocks) <$> domtree_build loops = Some true) as Hc by (vm_compute; reflexivity).
    rewrite E in Hc. by injection Hc.
  - apply (path_edge _ _ 4); [|apply edge_compute; vm_compute; reflexivity]. apply (path_edge _ _ 3); [|apply edge_compute; vm_compute; reflexivity].
    apply (path_edge _ _ 1); [|apply edge_compute; vm_compute; reflexivity]. apply (path_edge _ _ 0); [|apply edge_compute; vm_compute; reflexivity]. constructor.
Defined.
