(* ===== verification/Sort.v ===== *)
(** * Sorting pointer lists, sort.c

    sort_list() sorts a list in place: the blocks one by one, then sequences of blocks are merged, twice as long in each
    pass.  A list is here the sequence of its blocks from the head on, each with its address and its entries; a
    block that is pulled out and plugged in elsewhere in the ring is moved in the sequence, which is what the code does to prev and next.  The buffer of 2 * LIST_NODE_NR entries
    is a list; [merging_room] in SortTheorems.v shows that it does not overflow.  [None] stands for a loop
    that does not end within its fuel. *)
From stdpp Require Import base option list.
From S2P Require Import Prelude.
#[local] Open Scope Z_scope.

Definition block : Set := Z * list Z.

(** All the entries. *)
Definition entries (l : list block) : list Z := l ≫= snd.

Section sort.
Context (cmp : Z -> Z -> Z).

(** ** One block *)

(** The inner loop of array_sort(): makes room for [p] from the index [j > 0] down and puts it there. *)
Fixpoint shift_down (j : nat) (p : Z) (ptr : list Z) : list Z :=
  match j with
  | O => <[O := p]> ptr
  | S k =>
    let ptr := <[j := ptr !!! k]> ptr in
    match k with
    | O => <[k := p]> ptr
    | S k' => if cmp (ptr !!! k') p >? 0 then shift_down k p ptr else <[k := p]> ptr
    end
  end.

Definition array_step (ptr : list Z) (i : nat) : list Z :=
  let p := ptr !!! i in
  if cmp (ptr !!! pred i) p >? 0 then shift_down i p ptr else ptr.

Definition array_sort (ptr : list Z) : list Z := foldl array_step ptr (seq 1 (pred (length ptr))).

(** ** Merging *)

(** FLUSH_TO: the block filled from the buffer, and the rest of the buffer. *)
Definition FLUSH_TO (b : block) (buffer : list Z) : block * list Z :=
  let nr := length b.2 in ((b.1, take nr buffer), drop nr buffer).

(** DUMP_TO: the buffer over the first entries of the block. *)
Definition DUMP_TO (b : block) (buffer : list Z) : block := (b.1, buffer ++ drop (length buffer) b.2).

(** FLUSH_TO for the blocks between the two sequences. *)
Fixpoint flush_gap (gap : list block) (buffer : list Z) : list block * list Z :=
  match gap with
  | [] => ([], buffer)
  | b :: gap => let '(b, buffer) := FLUSH_TO b buffer in let '(gap, buffer) := flush_gap gap buffer in (b :: gap, buffer)
  end.

(** The blocks without entries that a sequence begins with, and the others. *)
Fixpoint skip_empty (l : list block) : list block * list block :=
  match l with
  | [] => ([], [])
  | b :: l' => if (length b.2 =? 0)%nat then let '(e, r) := skip_empty l' in (b :: e, r) else ([], l)
  end.

(** The state of the loop: the blocks that are done, the current block of each sequence with the index in it, the
    blocks after them, the empty blocks between the sequences, and the buffer. *)
Record merging : Set := Merging {
  before : list block;
  b1 : block;
  i1 : nat;
  rest1 : list block;
  gap : list block;
  b2 : block;
  i2 : nat;
  rest2 : list block;
  buffer : list Z
}.

(** A turn of the loop: the merged sequence, or the next state. *)
Definition merge_step (s : merging) : list block + merging :=
  let d1 := (b1 s).2 !!! i1 s in
  let d2 := (b2 s).2 !!! i2 s in
  if cmp d1 d2 <=? 0 then
    let buffer := buffer s ++ [d1] in
    let i1 := S (i1 s) in
    if (length (b1 s).2 <=? i1)%nat then
      let '(b, buffer) := FLUSH_TO (b1 s) buffer in
      let '(e, r) := skip_empty (rest1 s) in
      match r with
      | [] =>
        let '(gap, buffer) := flush_gap (gap s) buffer in
        inl (before s ++ b :: e ++ gap ++ DUMP_TO (b2 s) buffer :: rest2 s)
      | b' :: r => inr (Merging (before s ++ b :: e) b' 0 r (gap s) (b2 s) (i2 s) (rest2 s) buffer)
      end
    else inr (Merging (before s) (b1 s) i1 (rest1 s) (gap s) (b2 s) (i2 s) (rest2 s) buffer)
  else
    let buffer := buffer s ++ [d2] in
    let i2 := S (i2 s) in
    if (length (b2 s).2 <=? i2)%nat then
      let '(l, buffer) := FLUSH_TO (b2 s) buffer in
      let '(e, r) := skip_empty (rest2 s) in
      match r with
      | [] => inl (before s ++ l :: DUMP_TO (b1 s) buffer :: rest1 s ++ gap s ++ e)
      | b' :: r => inr (Merging (before s ++ [l]) (b1 s) (i1 s) (rest1 s) (gap s ++ e) b' 0 r buffer)
      end
    else inr (Merging (before s) (b1 s) (i1 s) (rest1 s) (gap s) (b2 s) i2 (rest2 s) buffer).

Fixpoint merge_turns (fuel : nat) (s : merging) : option (list block) :=
  match fuel with
  | O => None
  | S fuel => match merge_step s with inl l => Some l | inr s => merge_turns fuel s end
  end.

(** The blocks of the first sequence whose entries are all before the entry [d] of the second, and the others. *)
Fixpoint quick_skip (d : Z) (l : list block) : list block * list block :=
  match l with
  | [] => ([], [])
  | b :: l' =>
    if (length b.2 =? 0)%nat || (cmp (b.2 !!! pred (length b.2)) d <? 0) then let '(e, r) := quick_skip d l' in (b :: e, r) else ([], l)
  end.

(** Each turn takes an entry. *)
Definition merge_block_seqs (s1 s2 : list block) : option (list block) :=
  match skip_empty s2 with
  | (e2, []) => Some (s1 ++ s2)
  | (e2, b2 :: r2) =>
    match quick_skip (b2.2 !!! 0%nat) s1 with
    | (e1, []) => Some (s1 ++ s2)
    | (e1, b1 :: r1) => merge_turns (length (entries s1) + length (entries s2)) (Merging e1 b1 0 r1 e2 b2 0 r2 [])
    end
  end.

(** ** The passes *)

(** The place of a block in the ring. *)
Fixpoint index (a : Z) (l : list block) : nat :=
  match l with
  | [] => 0
  | b :: l => if b.1 =? a then 0 else S (index a l)
  end.

(** The inner loop from the block at the place [block1]: [inl] is the return, [inr] the end of the pass. *)
Fixpoint merge_pass (fuel : nat) (blocks : nat) (block1 : nat) (ring : list block) : option (list block + list block) :=
  match fuel with
  | O => None
  | S fuel =>
    let pre := take block1 ring in
    let tail := drop block1 ring in
    if (length tail <=? blocks)%nat then Some (if (block1 =? 0)%nat then inl ring else inr ring)
    else
      let s1 := take blocks tail in
      let s2 := take blocks (drop blocks tail) in
      let rest := drop blocks (drop blocks tail) in
      s ← merge_block_seqs s1 s2;
      let ring' := pre ++ s ++ rest in
      match rest with
      | _ :: _ => merge_pass fuel blocks (length (pre ++ s)) ring'
      | [] =>
        (* the next block is the old head *)
        let next := match ring with b :: _ => index b.1 ring' | [] => 0%nat end in
        if (next =? 0)%nat then Some (inr ring') else merge_pass fuel blocks next ring'
      end
  end.

Fixpoint sort_passes (fuel : nat) (blocks : nat) (ring : list block) : option (list block) :=
  match fuel with
  | O => None
  | S fuel =>
    r ← merge_pass (S (length ring)) blocks 0 ring;
    match r with inl ring => Some ring | inr ring => sort_passes fuel (blocks + blocks) ring end
  end.

(** A list that is not NULL. *)
Definition sort_list (ring : list block) : option (list block) :=
  sort_passes (S (length ring)) 1 (map (fun b : block => (b.1, array_sort b.2)) ring).
End sort.

