(* ===== verification/SortTheorems.v ===== *)
(** * sort_list() is a stable sort

    Whatever the comparison says the entries are permuted, and every block keeps its address and its number of entries; for
    a comparison that is an order the entries come out as insertion sort leaves them, which is stable. *)
From stdpp Require Import base option list sorting.
From S2P Require Import Prelude Sort.
#[local] Open Scope Z_scope.

Section sort.
Context (cmp : Z -> Z -> Z).

(** ** The reference *)

(** [x] before the first entry that is not smaller. *)
Fixpoint ins (x : Z) (l : list Z) : list Z :=
  match l with
  | [] => [x]
  | y :: l' => if cmp x y <=? 0 then x :: l else y :: ins x l'
  end.

Definition insertion_sort (l : list Z) : list Z := foldr ins [] l.

Fixpoint merged (l1 : list Z) : list Z -> list Z :=
  fix go (l2 : list Z) : list Z :=
  match l1, l2 with
  | [], _ => l2
  | _, [] => l1
  | x :: l1', y :: l2' => if cmp x y <=? 0 then x :: merged l1' l2 else y :: go l2'
  end.

Lemma merged_nil_l l : merged [] l = l.
Proof. by destruct l. Qed.

Lemma merged_nil_r l : merged l [] = l.
Proof. by destruct l. Qed.

Lemma merged_cons x l1 y l2 : merged (x :: l1) (y :: l2) = if cmp x y <=? 0 then x :: merged l1 (y :: l2) else y :: merged (x :: l1) l2.
Proof. done. Qed.

Lemma ins_perm x l : ins x l ≡ₚ x :: l.
Proof. induction l as [|y l IH]; simpl; [done|]. destruct (cmp x y <=? 0); [done|]. rewrite IH. by constructor. Qed.

Lemma insertion_sort_perm l : insertion_sort l ≡ₚ l.
Proof. induction l as [|x l IH]; simpl; [done|]. by rewrite ins_perm, IH. Qed.

Lemma merged_perm l1 l2 : merged l1 l2 ≡ₚ l1 ++ l2.
Proof.
  revert l2. induction l1 as [|x l1 IH1]; intros l2; [by rewrite merged_nil_l|]. induction l2 as [|y l2 IH2]; [by rewrite merged_nil_r, app_nil_r|].
  rewrite merged_cons. destruct (cmp x y <=? 0); [by rewrite IH1|]. rewrite IH2. simpl. rewrite <- Permutation_middle. by constructor.
Qed.

(** ** Blocks *)

Definition shape (b : block) : Z * nat := (b.1, length b.2).

Lemma ring_entries_app l1 l2 : entries (l1 ++ l2) = entries l1 ++ entries l2.
Proof. apply bind_app. Qed.

Lemma ring_entries_cons b l : entries (b :: l) = b.2 ++ entries l.
Proof. done. Qed.

Definition empties (l : list block) : Prop := Forall (fun b => b.2 = []) l.

Lemma entries_empties l : empties l -> entries l = [].
Proof. induction 1 as [|b l Hb _ IH]; [done|]. by rewrite ring_entries_cons, Hb, IH. Qed.

Lemma skip_empty_spec l e r : skip_empty l = (e, r) -> l = e ++ r /\ empties e /\ match r with b :: _ => (0 < length b.2)%nat | [] => True end.
Proof.
  revert e. induction l as [|b l IH]; intros e; simpl; [intros [= <- <-]; by repeat constructor|].
  destruct (Nat.eqb_spec (length b.2) 0) as [E|Hne]; [|intros [= <- <-]; split_and!; [done|constructor|lia]].
  destruct (skip_empty l) as [e' r'] eqn:Es. intros [= <- <-]. destruct (IH e' eq_refl) as (-> & He & Hr). split_and!; [done| |done].
  constructor; [by apply nil_length_inv|done].
Qed.

Lemma flush_gap_empty g buf : empties g -> flush_gap g buf = (g, buf).
Proof. induction 1 as [|b g Hb _ IH]; [done|]. simpl. rewrite Hb. simpl. rewrite drop_0, IH. destruct b as [a l]. simpl in *. by rewrite Hb. Qed.

Lemma flush_spec b buf bo buf' : (length b.2 <= length buf)%nat -> FLUSH_TO b buf = (bo, buf') -> shape bo = shape b /\ bo.2 ++ buf' = buf /\ length buf' = (length buf - length b.2)%nat.
Proof.
  intros Hle [= <- <-]. unfold shape. simpl. split_and!; [by rewrite length_take_le|apply take_drop|apply length_drop].
Qed.

Lemma dump_shape b buf : (length buf <= length b.2)%nat -> shape (DUMP_TO b buf) = shape b.
Proof. intros H. unfold shape, DUMP_TO. simpl. rewrite length_app, length_drop. f_equal. lia. Qed.

(** ** The merge of sequences *)

Record merging_ok (s : merging) : Prop := {
  mg_i1 : (i1 s < length (b1 s).2)%nat;
  mg_i2 : (i2 s < length (b2 s).2)%nat;
  mg_buffer : length (buffer s) = (i1 s + i2 s)%nat;
  mg_gap : empties (gap s)
}.

(** There is room for one more entry in buffer[2 * LIST_NODE_NR] before every turn, if no block has more than [n], LIST_NODE_NR, entries. *)
Lemma merging_room s n : merging_ok s -> (length (b1 s).2 <= n)%nat -> (length (b2 s).2 <= n)%nat -> (S (length (buffer s)) <= 2 * n)%nat.
Proof. intros [H1 H2 -> _]. lia. Qed.

Definition left1 (s : merging) : list Z := drop (i1 s) (b1 s).2 ++ entries (rest1 s).
Definition left2 (s : merging) : list Z := drop (i2 s) (b2 s).2 ++ entries (rest2 s).
Definition all_blocks (s : merging) : list block := before s ++ b1 s :: rest1 s ++ gap s ++ b2 s :: rest2 s.

(** What is written so far, and what the rest of the merge makes of it. *)
Definition outcome (s : merging) : list Z := entries (before s) ++ buffer s ++ merged (left1 s) (left2 s).

(** What a turn promises. *)
Definition step_ok (s : merging) (r : list block + merging) : Prop :=
  match r with
  | inl l => entries l = outcome s /\ shape <$> l ≡ₚ shape <$> all_blocks s
  | inr s' => merging_ok s' /\ outcome s' = outcome s /\ shape <$> all_blocks s' ≡ₚ shape <$> all_blocks s /\
    (length (left1 s') + length (left2 s') < length (left1 s) + length (left2 s))%nat
  end.

Lemma taken_step (l : list Z) i : (i < length l)%nat -> drop i l = l !!! i :: drop (S i) l.
Proof. intros H. apply drop_S. by apply list_lookup_lookup_total_lt. Qed.

Ltac shapes := unfold all_blocks; simpl; rewrite ?fmap_app, ?fmap_cons, ?fmap_app, ?fmap_cons, ?fmap_app; simpl.

(** An entry of the first sequence. *)
Lemma step_first s d : merging_ok s -> d = (b1 s).2 !!! i1 s -> (cmp d ((b2 s).2 !!! i2 s) <=? 0) = true -> step_ok s (merge_step cmp s).
Proof.
  intros [H1 H2 Hb Hg] Hd Hc. unfold merge_step. rewrite <- Hd, Hc. pose proof (taken_step _ _ H1) as E1. pose proof (taken_step _ _ H2) as E2. rewrite <- Hd in E1.
  assert (merged (left1 s) (left2 s) = d :: merged (drop (S (i1 s)) (b1 s).2 ++ entries (rest1 s)) (left2 s)) as Em.
  { unfold left1, left2. rewrite E1, E2, <- !app_comm_cons, merged_cons, Hc. done. }
  destruct (Nat.leb_spec (length (b1 s).2) (S (i1 s))) as [Hle|Hlt].
  - assert (drop (S (i1 s)) (b1 s).2 = []) as En by (by apply drop_ge). rewrite En in Em. simpl in Em.
    destruct (FLUSH_TO (b1 s) (buffer s ++ [d])) as [bo buf] eqn:Ef. apply flush_spec in Ef as (Hsh & Hbuf & Hlen); [|rewrite length_app; simpl; lia].
    assert (length buf = i2 s) as Hl2 by (rewrite Hlen, length_app; simpl; lia).
    destruct (skip_empty (rest1 s)) as [e r] eqn:Es. apply skip_empty_spec in Es as (Er & He & Hr). pose proof (entries_empties e He) as Ee.
    assert (outcome s = entries (before s) ++ buffer s ++ d :: merged (entries r) (left2 s)) as Eo by (unfold outcome; by rewrite Em, Er, ring_entries_app, Ee).
    destruct r as [|b' r].
    + rewrite (flush_gap_empty _ _ Hg). split.
      * rewrite Eo, !ring_entries_app, ring_entries_cons, !ring_entries_app, ring_entries_cons, Ee, (entries_empties _ Hg). simpl. rewrite Hl2, merged_nil_l. unfold left2.
        rewrite <- app_assoc. rewrite (app_assoc bo.2), Hbuf, <- app_assoc. done.
      * rewrite app_nil_r in Er. shapes. rewrite Hsh, dump_shape, Er by lia. done.
    + split_and!.
      * split; simpl; [lia|done|lia|done].
      * rewrite Eo. unfold outcome, left1, left2. simpl. rewrite ring_entries_app, ring_entries_cons, Ee, app_nil_r, <- !app_assoc, (app_assoc bo.2), Hbuf, <- app_assoc. done.
      * shapes. rewrite Hsh, Er. shapes. by rewrite <- !app_assoc.
      * unfold left1, left2. simpl. rewrite E1, En, Er, ring_entries_app, Ee, ring_entries_cons. simpl. rewrite drop_0, !length_app. lia.
  - split_and!.
    + split; simpl; [lia|done|rewrite length_app; simpl; lia|done].
    + unfold outcome. rewrite Em. unfold left1, left2. simpl. by rewrite <- app_assoc.
    + done.
    + unfold left1, left2. simpl. rewrite E1. simpl. lia.
Qed.

(** An entry of the second sequence. *)
Lemma step_second s d : merging_ok s -> d = (b2 s).2 !!! i2 s -> (cmp ((b1 s).2 !!! i1 s) d <=? 0) = false -> step_ok s (merge_step cmp s).
Proof.
  intros [H1 H2 Hb Hg] Hd Hc. unfold merge_step. rewrite <- Hd, Hc. pose proof (taken_step _ _ H1) as E1. pose proof (taken_step _ _ H2) as E2. rewrite <- Hd in E2.
  assert (merged (left1 s) (left2 s) = d :: merged (left1 s) (drop (S (i2 s)) (b2 s).2 ++ entries (rest2 s))) as Em.
  { unfold left1, left2. rewrite E1, E2, <- !app_comm_cons, merged_cons, Hc. done. }
  destruct (Nat.leb_spec (length (b2 s).2) (S (i2 s))) as [Hle|Hlt].
  - assert (drop (S (i2 s)) (b2 s).2 = []) as En by (by apply drop_ge). rewrite En in Em. simpl in Em.
    destruct (FLUSH_TO (b2 s) (buffer s ++ [d])) as [l buf] eqn:Ef. apply flush_spec in Ef as (Hsh & Hbuf & Hlen); [|rewrite length_app; simpl; lia].
    assert (length buf = i1 s) as Hl1 by (rewrite Hlen, length_app; simpl; lia).
    destruct (skip_empty (rest2 s)) as [e r] eqn:Es. apply skip_empty_spec in Es as (Er & He & Hr). pose proof (entries_empties e He) as Ee.
    assert (outcome s = entries (before s) ++ buffer s ++ d :: merged (left1 s) (entries r)) as Eo by (unfold outcome; by rewrite Em, Er, ring_entries_app, Ee).
    destruct r as [|b' r].
    + split.
      * rewrite Eo, !ring_entries_app, !ring_entries_cons, !ring_entries_app, Ee, (entries_empties _ Hg), !app_nil_r. simpl. rewrite Hl1, merged_nil_r. unfold left1.
        rewrite <- app_assoc, (app_assoc l.2), Hbuf, <- app_assoc. done.
      * rewrite app_nil_r in Er. shapes. rewrite Hsh, dump_shape, Er by lia. solve_Permutation.
    + split_and!.
      * split; simpl; [done|lia|lia|]. by apply list.Forall_app.
      * rewrite Eo. unfold outcome, left1, left2. simpl. rewrite ring_entries_app, ring_entries_cons, app_nil_r, <- !app_assoc, (app_assoc l.2), Hbuf, <- app_assoc. done.
      * shapes. rewrite Hsh, Er. shapes. solve_Permutation.
      * unfold left1, left2. simpl. rewrite E2, En, Er, ring_entries_app, Ee, ring_entries_cons. simpl. rewrite drop_0, !length_app. simpl. rewrite ?length_app. lia.
  - split_and!.
    + split; simpl; [done|lia|rewrite length_app; simpl; lia|done].
    + unfold outcome. rewrite Em. unfold left1, left2. simpl. by rewrite <- app_assoc.
    + done.
    + unfold left1, left2. simpl. rewrite E2. simpl. rewrite !length_app. simpl. lia.
Qed.

Lemma loop_spec_sort fuel s : merging_ok s -> (length (left1 s) + length (left2 s) <= fuel)%nat ->
  exists l, merge_turns cmp fuel s = Some l /\ entries l = outcome s /\ shape <$> l ≡ₚ shape <$> all_blocks s.
Proof.
  revert s. induction fuel as [|fuel IH]; intros s Hs Hf.
  - destruct Hs as [H1 _ _ _]. unfold left1 in Hf. rewrite length_app, length_drop in Hf. lia.
  - simpl. assert (step_ok s (merge_step cmp s)) as Hok by (destruct (cmp ((b1 s).2 !!! i1 s) ((b2 s).2 !!! i2 s) <=? 0) eqn:E; [by eapply step_first|by eapply step_second]).
    destruct (merge_step cmp s) as [l|s']; [by exists l|]. destruct Hok as (Hs' & Ho & Hsh & Hlt). destruct (IH s' Hs') as (l & E & El & Hl); [lia|].
    exists l. rewrite E, El, Ho, Hl. by split_and!.
Qed.

Lemma quick_skip_spec d l e r : quick_skip cmp d l = (e, r) ->
  l = e ++ r /\ Forall (fun b => b.2 = [] \/ cmp (b.2 !!! pred (length b.2)) d < 0) e /\ match r with b :: _ => (0 < length b.2)%nat | [] => True end.
Proof.
  revert e. induction l as [|b l IH]; intros e; simpl; [intros [= <- <-]; by repeat constructor|].
  destruct ((length b.2 =? 0)%nat || _) eqn:E.
  - destruct (quick_skip cmp d l) as [e' r'] eqn:Es. intros [= <- <-]. destruct (IH e' eq_refl) as (-> & He & Hr). split_and!; [done| |done]. constructor; [|done].
    apply orb_true_iff in E as [E%Nat.eqb_eq|E%Z.ltb_lt]; [left; by apply nil_length_inv|by right].
  - intros [= <- <-]. apply orb_false_iff in E as [E%Nat.eqb_neq _]. split_and!; [done|constructor|lia].
Qed.

(** The blocks that are skipped, and a merge of the others. *)
Lemma merge_block_seqs_spec s1 s2 : exists s, merge_block_seqs cmp s1 s2 = Some s /\ shape <$> s ≡ₚ shape <$> (s1 ++ s2) /\
  exists e r, s1 = e ++ r /\ entries s = entries e ++ merged (entries r) (entries s2) /\
    (entries s2 <> [] -> exists d w, entries s2 = d :: w /\ Forall (fun b => b.2 = [] \/ cmp (b.2 !!! pred (length b.2)) d < 0) e).
Proof.
  unfold merge_block_seqs. destruct (skip_empty s2) as [e2 r2] eqn:E2. apply skip_empty_spec in E2 as (-> & He2 & Hr2).
  pose proof (entries_empties e2 He2) as Ee2. destruct r2 as [|b2 r2].
  { exists (s1 ++ e2 ++ []). split_and!; [done|done|]. exists [], s1. rewrite !ring_entries_app, Ee2. simpl. rewrite merged_nil_r, app_nil_r. by split_and!. }
  assert (entries (e2 ++ b2 :: r2) = b2.2 !!! 0%nat :: drop 1 b2.2 ++ entries r2) as Ed.
  { rewrite ring_entries_app, Ee2, ring_entries_cons. simpl. by rewrite <- (drop_0 b2.2) at 1; rewrite (taken_step b2.2 0). }
  destruct (quick_skip cmp (b2.2 !!! 0%nat) s1) as [e1 r1] eqn:E1. apply quick_skip_spec in E1 as (-> & He1 & Hr1). destruct r1 as [|b1 r1].
  { exists ((e1 ++ []) ++ e2 ++ b2 :: r2). split_and!; [done|done|]. exists e1, []. rewrite !app_nil_r, ring_entries_app, merged_nil_l. split_and!; [done|done|eauto]. }
  destruct (loop_spec_sort (length (entries (e1 ++ b1 :: r1)) + length (entries (e2 ++ b2 :: r2))) (Merging e1 b1 0 r1 e2 b2 0 r2 [])) as (l & E & El & Hl).
  - by split.
  - unfold left1, left2. simpl. rewrite !drop_0, !ring_entries_app, !ring_entries_cons, !length_app. lia.
  - exists l. split_and!; [done| |].
    + rewrite Hl. unfold all_blocks. simpl. by rewrite <- app_assoc.
    + exists e1, (b1 :: r1). split_and!; [done| |eauto]. rewrite El. unfold outcome, left1, left2. simpl. by rewrite !drop_0, !ring_entries_app, Ee2.
Qed.

(** ** One block *)

(** [p] goes below the greater entries at the end of [u]. *)
Definition placed (u : list Z) (p : Z) (v : list Z) : Prop := exists u1 u2, u = u1 ++ u2 /\ v = u1 ++ p :: u2 /\
  Forall (fun q => cmp q p > 0) u2 /\ forall l q, u1 = l ++ [q] -> cmp q p <= 0.

Lemma insert_middle (u : list Z) x y v : <[length u := y]> (u ++ x :: v) = u ++ y :: v.
Proof. rewrite insert_app_r_alt by lia. by rewrite Nat.sub_diag. Qed.

Lemma lookup_middle (u : list Z) x v : (u ++ x :: v) !!! length u = x.
Proof. by rewrite lookup_total_app_r, Nat.sub_diag. Qed.

Lemma shift_spec p u x v : (forall l q, u = l ++ [q] -> cmp q p > 0) -> exists w, shift_down cmp (length u) p (u ++ x :: v) = w ++ v /\ placed u p w.
Proof.
  revert x v. induction u as [|q u IH] using rev_ind; intros x v Hu.
  { exists [p]. split; [done|]. exists [], []. split_and!; [done|done|constructor|]. by intros [] ? ?. }
  specialize (Hu u q eq_refl). rewrite length_app. simpl. rewrite Nat.add_1_r. simpl. rewrite <- app_assoc. simpl. rewrite lookup_middle.
  assert (<[S (length u) := q]> (u ++ q :: x :: v) = u ++ q :: q :: v) as ->.
  { replace (u ++ q :: x :: v) with ((u ++ [q]) ++ x :: v) by (by rewrite <- app_assoc). replace (S (length u)) with (length (u ++ [q])) by (rewrite length_app; simpl; lia).
    rewrite insert_middle. by rewrite <- app_assoc. }
  assert (exists w, u ++ p :: q :: v = w ++ v /\ ((forall l q', u = l ++ [q'] -> cmp q' p <= 0) -> placed (u ++ [q]) p w)) as (w & Ew & Hw).
  { exists (u ++ [p; q]). split; [by rewrite <- app_assoc|]. intros H. exists u, [q]. split_and!; [done|done|by repeat constructor|done]. }
  destruct (length u) as [|k'] eqn:El.
  { apply nil_length_inv in El as ->. simpl. exists w. split; [done|]. apply Hw. by intros [] ? ?. }
  destruct (exists_last (l := u)) as (u' & q' & Eu); [by intros ->|]. assert (k' = length u') as -> by (rewrite Eu, length_app in El; simpl in El; lia).
  assert ((u ++ q :: q :: v) !!! length u' = q') as -> by (rewrite Eu, <- app_assoc; apply lookup_middle).
  destruct (Z.gtb_spec (cmp q' p) 0) as [Hgt|Hle].
  - destruct (IH q (q :: v)) as (w' & E & u1 & u2 & E1 & -> & H2 & H1); [intros l q0 E0; rewrite Eu in E0; apply app_inj_tail in E0 as [_ <-]; lia|].
    exists (u1 ++ p :: u2 ++ [q]). split; [rewrite E; by rewrite <- !app_assoc; simpl; rewrite <- app_assoc|].
    exists u1, (u2 ++ [q]). split_and!; [by rewrite E1, app_assoc|done|by apply list.Forall_app; repeat constructor|done].
  - exists w. rewrite <- El, insert_middle. split; [done|]. apply Hw. intros l q0 E0. rewrite Eu in E0. apply app_inj_tail in E0 as [_ <-]. lia.
Qed.

Lemma array_step_spec u p v : u <> [] -> exists w, array_step cmp (u ++ p :: v) (length u) = w ++ v /\ placed u p w.
Proof.
  intros Hu. destruct (exists_last Hu) as (u' & q & Eu). unfold array_step. rewrite lookup_middle.
  assert ((u ++ p :: v) !!! pred (length u) = q) as ->.
  { rewrite Eu, length_app, <- app_assoc. simpl. rewrite Nat.add_1_r. apply lookup_middle. }
  destruct (Z.gtb_spec (cmp q p) 0) as [Hgt|Hle].
  - apply shift_spec. intros l q' E. rewrite Eu in E. apply app_inj_tail in E as [_ <-]. lia.
  - exists (u ++ [p]). split; [by rewrite <- app_assoc|]. exists u, []. rewrite app_nil_r. split_and!; [done|done|constructor|].
    intros l q' E. rewrite Eu in E. apply app_inj_tail in E as [_ <-]. lia.
Qed.

(** The first entries after some turns. *)
Inductive arranged : list Z -> list Z -> Prop :=
| arranged_one x : arranged [x] [x]
| arranged_more u v p w : arranged u v -> placed v p w -> arranged (u ++ [p]) w.

Lemma placed_perm u p w : placed u p w -> w ≡ₚ u ++ [p].
Proof. intros (u1 & u2 & -> & -> & _). rewrite Permutation_cons_append, <- app_assoc. solve_Permutation. Qed.

Lemma arranged_perm u v : arranged u v -> v ≡ₚ u.
Proof. induction 1 as [|u v p w _ IH Hp]; [done|]. by rewrite (placed_perm _ _ _ Hp), IH. Qed.

Lemma array_prefix l k : (k < length l)%nat -> exists v, foldl (array_step cmp) l (seq 1 k) = v ++ drop (S k) l /\ arranged (take (S k) l) v.
Proof.
  induction k as [|k IH]; intros Hk.
  - destruct l as [|x l]; [simpl in Hk; lia|]. exists [x]. split; [done|]. simpl. rewrite take_0. constructor.
  - destruct IH as (v & E & Ha); [lia|]. rewrite seq_S, foldl_app, E. destruct (lookup_lt_is_Some_2 l (S k) Hk) as [p Hp].
    rewrite (drop_S _ _ _ Hp). assert (length v = S k) as Hl by (rewrite (arranged_perm _ _ Ha), length_take; lia). simpl. rewrite <- Hl.
    destruct (array_step_spec v p (drop (S (S k)) l)) as (w & Ew & Hw); [by intros ->|]. rewrite Hl in Ew |- *. exists w. split; [done|].
    rewrite (take_S_r _ _ _ Hp). by apply arranged_more with v.
Qed.

Lemma array_sort_spec l : l = [] /\ array_sort cmp l = [] \/ arranged l (array_sort cmp l).
Proof.
  destruct l as [|x l]; [by left|]. right. unfold array_sort. simpl length. destruct (array_prefix (x :: l) (length l)) as (v & E & Ha); [simpl; lia|].
  simpl pred. rewrite E. simpl. rewrite drop_ge, app_nil_r by lia. simpl in Ha. by rewrite take_ge in Ha by lia.
Qed.

Lemma array_sort_perm l : array_sort cmp l ≡ₚ l.
Proof. destruct (array_sort_spec l) as [[-> ->]|H]; [done|by apply arranged_perm]. Qed.

(** ** Any comparison: nothing is lost *)

Lemma entries_shape_length l l' : shape <$> l ≡ₚ shape <$> l' -> length l = length l'.
Proof. intros H%Permutation_length. by rewrite !length_fmap in H. Qed.

Definition same_entries (l l' : list block) : Prop := entries l ≡ₚ entries l' /\ shape <$> l ≡ₚ shape <$> l'.

Lemma same_entries_middle pre s s' rest : same_entries s s' -> same_entries (pre ++ s ++ rest) (pre ++ s' ++ rest).
Proof. intros [H1 H2]. split; [by rewrite !ring_entries_app, H1|by rewrite !fmap_app, H2]. Qed.

Lemma merge_block_seqs_same s1 s2 : exists s, merge_block_seqs cmp s1 s2 = Some s /\ same_entries s (s1 ++ s2).
Proof.
  destruct (merge_block_seqs_spec s1 s2) as (s & E & Hsh & e & r & -> & Ee & _). exists s. split; [done|]. split; [|done].
  by rewrite Ee, merged_perm, !ring_entries_app, app_assoc.
Qed.

Lemma pass_same k fuel b ring : (0 < k)%nat -> (0 < fuel)%nat -> (length ring < fuel + b)%nat ->
  exists r, merge_pass cmp fuel k b ring = Some r /\ same_entries (match r with inl l => l | inr l => l end) ring.
Proof.
  intros Hk. revert b ring. induction fuel as [|fuel IH]; intros b ring H0 Hf; [lia|]. cbn [merge_pass]. cbv zeta.
  destruct (Nat.leb_spec (length (drop b ring)) k) as [Hle|Hlt]; [eexists; split; [done|]; by destruct (b =? 0)%nat|]. rewrite length_drop in Hlt.
  set (tail := drop b ring). destruct (merge_block_seqs_same (take k tail) (take k (drop k tail))) as (s & E & Hs). rewrite E. simpl.
  assert (ring = take b ring ++ (take k tail ++ take k (drop k tail)) ++ drop k (drop k tail)) as Er.
  { rewrite <- app_assoc. rewrite (take_drop k (drop k tail)), (take_drop k tail). unfold tail. by rewrite take_drop. }
  assert (same_entries (take b ring ++ s ++ drop k (drop k tail)) ring) as Hring by (rewrite Er at 2; by apply same_entries_middle).
  assert (length (take b ring ++ s ++ drop k (drop k tail)) = length ring) as Hlen by (apply entries_shape_length, Hring).
  assert (b < length (take b ring ++ s))%nat as Hbs.
  { rewrite length_app, length_take. destruct Hs as [_ Hs%entries_shape_length]. rewrite Hs, length_app, length_take. unfold tail. rewrite length_drop. lia. }
  destruct (drop k (drop k tail)) as [|c rest].
  - destruct (Nat.eqb_spec (match ring with [] => 0%nat | b0 :: _ => index b0.1 (take b ring ++ s ++ []) end) 0) as [En|En]; [by eexists|].
    destruct (IH (match ring with [] => 0%nat | b0 :: _ => index b0.1 (take b ring ++ s ++ []) end) (take b ring ++ s ++ [])) as (r & E' & Hr); [lia| |].
    + rewrite Hlen. destruct b as [|b]; [lia|]. destruct ring as [|b0 ring]; [done|]. simpl in En. by rewrite Z.eqb_refl in En.
    + rewrite E'. exists r. split; [done|]. destruct Hr as [Hr1 Hr2], Hring as [Hg1 Hg2]. split; by etrans.
  - destruct (IH (length (take b ring ++ s)) (take b ring ++ s ++ c :: rest)) as (r & E' & Hr); [lia|rewrite Hlen; lia|].
    rewrite E'. exists r. split; [done|]. destruct Hr as [Hr1 Hr2], Hring as [Hg1 Hg2]. split; by etrans.
Qed.

Lemma pass_last k fuel ring : (length ring <= k)%nat -> merge_pass cmp (S fuel) k 0 ring = Some (inl ring).
Proof. intros H. cbn [merge_pass]. rewrite drop_0, (proj2 (Nat.leb_le _ _) H). done. Qed.

Lemma sort_passes_same fuel k ring : (0 < k)%nat -> (length ring < k + fuel)%nat -> (0 < fuel)%nat -> exists ring', sort_passes cmp fuel k ring = Some ring' /\ same_entries ring' ring.
Proof.
  revert k ring. induction fuel as [|fuel IH]; intros k ring Hk Hf H0; [lia|]. cbn [sort_passes]. destruct (Nat.le_gt_cases (length ring) k) as [Hle|Hgt].
  { rewrite pass_last by done. simpl. by exists ring. }
  destruct (pass_same k (S (length ring)) 0 ring) as (r & E & Hr); [lia..|]. rewrite E. simpl. destruct r as [l|l]; [by exists l|].
  destruct (IH (k + k)%nat l) as (l' & E' & Hl'); [lia| |lia|].
  - destruct Hr as [_ ->%entries_shape_length]. lia.
  - exists l'. split; [done|]. destruct Hl' as [A1 A2], Hr as [B1 B2]. split; by etrans.
Qed.

Lemma array_sort_blocks ring : same_entries (map (fun b : block => (b.1, array_sort cmp b.2)) ring) ring.
Proof.
  induction ring as [|[a l] ring [IH1 IH2]]; [done|]. split; cbn [map].
  - by rewrite !ring_entries_cons, IH1, (array_sort_perm l).
  - rewrite !fmap_cons, IH2. unfold shape at 1 3. simpl. by rewrite (array_sort_perm l).
Qed.

(** ** Orders *)

Section order.
Context (cmp_flip : forall x y, cmp x y > 0 <-> cmp y x < 0) (cmp_trans : forall x y z, cmp x y <= 0 -> cmp y z <= 0 -> cmp x z <= 0).

Local Notation le := (fun x y => cmp x y <= 0).
Local Notation sorted := (StronglySorted le).
Local Notation isort := (insertion_sort).

Lemma not_le x y : (cmp x y <=? 0) = false -> cmp y x <= 0 /\ ~ cmp x y <= 0.
Proof. intros H%Z.leb_gt. assert (cmp x y > 0) as H'%cmp_flip by lia. lia. Qed.

Lemma strongly_sorted_app l1 l2 : sorted (l1 ++ l2) <-> sorted l1 /\ sorted l2 /\ Forall (fun x => Forall (le x) l2) l1.
Proof.
  induction l1 as [|x l1 IH]; simpl.
  - split; [intros H; split_and!; [constructor|done|constructor]|by intros (_ & ? & _)].
  - split.
    + intros H. inversion H as [|? ? Hs Hf]; subst. apply IH in Hs as (S1 & S2 & S3). apply list.Forall_app in Hf as [F1 F2]. split_and!; [by constructor|done|by constructor].
    + intros (S1 & S2 & S3). inversion S1 as [|? ? Hs Hf]; subst. inversion S3; subst. constructor; [by apply IH|by apply list.Forall_app].
Qed.

Lemma ins_sorted x l : sorted l -> sorted (ins x l).
Proof.
  induction 1 as [|y l Hs IH Hf]; simpl; [by repeat constructor|]. destruct (Z.leb_spec (cmp x y) 0) as [Hle|Hgt].
  - constructor; [by constructor|]. constructor; [done|]. apply (list.Forall_impl _ _ _ Hf). intros z. by apply cmp_trans.
  - constructor; [done|]. rewrite (ins_perm x l). constructor; [|done]. apply not_le. lia.
Qed.

Lemma isort_sorted l : sorted (isort l).
Proof. induction l as [|x l IH]; simpl; [constructor|by apply ins_sorted]. Qed.

Lemma ins_first x l : Forall (le x) l -> ins x l = x :: l.
Proof. destruct 1 as [|y l H _]; [done|]. simpl. by rewrite (proj2 (Z.leb_le _ _)) by done. Qed.

Lemma isort_id l : sorted l -> isort l = l.
Proof. induction 1 as [|x l _ IH Hf]; [done|]. simpl. rewrite IH. by apply ins_first. Qed.

Lemma ins_merged_first x l1 l2 : Forall (le x) l1 -> ins x (merged l1 l2) = merged (x :: l1) l2.
Proof.
  intros H1. induction l2 as [|y l2 IH]; [rewrite !merged_nil_r; by apply ins_first|]. rewrite merged_cons. destruct (cmp x y <=? 0) eqn:E.
  - destruct l1 as [|z l1]; [rewrite merged_nil_l; simpl; by rewrite E|]. inversion H1 as [|? ? Hz _]; subst. rewrite merged_cons.
    destruct (cmp z y <=? 0); simpl; [by rewrite (proj2 (Z.leb_le _ _)) by done|by rewrite E].
  - rewrite <- IH. destruct l1 as [|z l1]; [rewrite !merged_nil_l; simpl; by rewrite E|]. inversion H1 as [|? ? Hz _]; subst. rewrite merged_cons.
    destruct (Z.leb_spec (cmp z y) 0) as [Hzy|_]; [|simpl; by rewrite E]. apply not_le in E as [_ E]. destruct E. by apply (cmp_trans x z y).
Qed.

Lemma ins_merged x l1 l2 : sorted l1 -> ins x (merged l1 l2) = merged (ins x l1) l2.
Proof.
  intros H. revert l2. induction H as [|z l1 Hs IH Hf]; intros l2; [apply ins_merged_first; constructor|].
  simpl ins at 2. destruct (cmp x z <=? 0) eqn:E.
  - apply ins_merged_first. apply Z.leb_le in E. constructor; [done|]. apply (list.Forall_impl _ _ _ Hf). intros w. by apply cmp_trans.
  - induction l2 as [|y l2 IH2]; [rewrite !merged_nil_r; simpl; by rewrite E|]. rewrite !merged_cons. destruct (cmp z y <=? 0) eqn:Ez; simpl.
    + rewrite E. f_equal. apply IH.
    + apply not_le in Ez as [Hyz _]. apply not_le in E as [Hzx Hxz]. destruct (Z.leb_spec (cmp x y) 0) as [Hxy|_].
      * destruct Hxz. by apply (cmp_trans x y z).
      * f_equal. apply IH2.
Qed.

Lemma isort_app l1 l2 : isort (l1 ++ l2) = merged (isort l1) (isort l2).
Proof. induction l1 as [|x l1 IH]; simpl; [by rewrite merged_nil_l|]. rewrite IH. apply ins_merged, isort_sorted. Qed.

Lemma merged_isort l1 l2 : sorted l1 -> sorted l2 -> merged l1 l2 = isort (l1 ++ l2).
Proof. intros H1 H2. by rewrite isort_app, !isort_id. Qed.

Lemma isort_isort l : isort (isort l) = isort l.
Proof. apply isort_id, isort_sorted. Qed.

(** A part of a list may be sorted first. *)
Lemma isort_middle u l l' v : isort l = isort l' -> isort (u ++ l ++ v) = isort (u ++ l' ++ v).
Proof. intros E. by rewrite !isort_app, E. Qed.

Lemma merged_below u v d w : Forall (fun q => cmp q d <= 0) u -> merged (u ++ v) (d :: w) = u ++ merged v (d :: w).
Proof. induction 1 as [|q u Hq _ IH]; [done|]. simpl app. rewrite merged_cons, (proj2 (Z.leb_le _ _)) by done. by rewrite IH. Qed.

Lemma placed_isort u p w : sorted u -> placed u p w -> w = isort (u ++ [p]).
Proof.
  intros Hs (u1 & u2 & -> & -> & H2 & H1). rewrite isort_app, isort_id by done. simpl. apply strongly_sorted_app in Hs as (S1 & S2 & _). rewrite merged_below.
  - f_equal. destruct H2 as [|q u2 Hq _]; [done|]. by rewrite merged_cons, (proj2 (Z.leb_gt _ _)), merged_nil_r by lia.
  - destruct u1 as [|q u1] using rev_ind; [constructor|]. specialize (H1 u1 q eq_refl). apply strongly_sorted_app in S1 as (_ & _ & Hq). apply list.Forall_app. split; [|by repeat constructor].
    apply (list.Forall_impl _ _ _ Hq). intros x Hx. inversion Hx; subst. by apply (cmp_trans x q p).
Qed.

Lemma arranged_isort u v : arranged u v -> v = isort u.
Proof.
  induction 1 as [|u v p w _ IH Hp]; [done|]. rewrite (placed_isort v p w) by (done || (rewrite IH; apply isort_sorted)).
  by rewrite IH, !isort_app, isort_isort.
Qed.

Lemma array_sort_isort l : array_sort cmp l = isort l.
Proof. destruct (array_sort_spec l) as [[-> ->]|H]; [done|by apply arranged_isort]. Qed.

(** ** Chunks of blocks *)

Definition in_order (l : list block) : Prop := sorted (entries l).

Lemma in_order_app l1 l2 : in_order (l1 ++ l2) -> in_order l1 /\ in_order l2.
Proof. unfold in_order. rewrite ring_entries_app. intros (H1 & H2 & _)%strongly_sorted_app. done. Qed.

(** The sequence is made of chunks of [k] blocks in order, the last may be shorter. *)
Inductive chunks (k : nat) : list block -> Prop :=
| chunks_last s : (length s <= k)%nat -> in_order s -> chunks k s
| chunks_cons s l : length s = k -> in_order s -> chunks k l -> chunks k (s ++ l).

(** Made of whole chunks. *)
Inductive full (k : nat) : list block -> Prop :=
| full_nil : full k []
| full_snoc l s : full k l -> length s = k -> in_order s -> full k (l ++ s).

Lemma full_chunks k pre l : full k pre -> chunks k l -> chunks k (pre ++ l).
Proof. intros H. revert l. induction H as [|pre s _ IH Hk Hs]; intros l Hl; [done|]. rewrite <- app_assoc. by apply IH, chunks_cons. Qed.

Lemma chunks_take k l : chunks k l -> in_order (take k l) /\ chunks k (drop k l).
Proof.
  destruct 1 as [s Hk Hs|s l Hk Hs Hl].
  - rewrite take_ge, drop_ge by done. split; [done|]. apply chunks_last; [simpl; lia|constructor].
  - by rewrite take_app_length', drop_app_length'.
Qed.

Lemma chunks_short k l : chunks k l -> (length l <= k)%nat -> in_order l.
Proof. intros H%chunks_take Hl. rewrite take_ge in H by done. apply H. Qed.

Lemma in_order_chunks k l : (0 < k)%nat -> in_order l -> chunks k l.
Proof.
  intros Hk. remember (length l) as n eqn:Hn. revert l Hn. induction n as [n IH] using lt_wf_ind. intros l -> Hl.
  destruct (Nat.le_gt_cases (length l) k) as [Hle|Hgt]; [by apply chunks_last|]. rewrite <- (take_drop k l) in Hl. apply in_order_app in Hl as [H1 H2].
  rewrite <- (take_drop k l). apply chunks_cons; [rewrite length_take; lia|done|]. apply (IH (length (drop k l))); [rewrite length_drop; lia|done|done].
Qed.

(** A merge of sequences in order. *)
Lemma merge_in_order s1 s2 s : in_order s1 -> in_order s2 -> merge_block_seqs cmp s1 s2 = Some s ->
  entries s = isort (entries (s1 ++ s2)) /\ in_order s /\ length s = length (s1 ++ s2).
Proof.
  intros H1 H2 E. destruct (merge_block_seqs_spec s1 s2) as (s' & E' & Hsh & e & r & -> & Ee & Hd). rewrite E in E'. injection E' as <-.
  apply entries_shape_length in Hsh. assert (entries s = isort (entries ((e ++ r) ++ s2))) as Es; [|split_and!; [done|unfold in_order; rewrite Es; apply isort_sorted|done]].
  rewrite (ring_entries_app (e ++ r)), <- merged_isort, Ee, ring_entries_app by done. destruct (entries s2) as [|d0 w0] eqn:E2; [by rewrite !merged_nil_r|].
  destruct Hd as (d & w & [= <- <-] & Hd); [done|]. symmetry. apply merged_below. apply in_order_app in H1 as [H1 _]. clear -H1 Hd cmp_trans.
  induction Hd as [|b e Hb _ IH]; [constructor|]. apply (in_order_app [b] e) in H1 as [Hs He]. rewrite ring_entries_cons. apply list.Forall_app. split; [|by apply IH].
  destruct Hb as [->|Hb]; [constructor|]. unfold in_order in Hs. rewrite ring_entries_cons, app_nil_r in Hs.
  destruct (b.2) as [|q u] using rev_ind; [constructor|]. rewrite length_app in Hb. simpl in Hb. rewrite Nat.add_1_r in Hb. simpl in Hb. rewrite lookup_middle in Hb.
  apply strongly_sorted_app in Hs as (_ & _ & Hq). apply list.Forall_app. split; [|repeat constructor; lia].
  apply (list.Forall_impl _ _ _ Hq). intros x Hx. inversion Hx; subst. apply (cmp_trans x q d0); [done|lia].
Qed.

(** ** The passes *)

Definition pass_inv (k b : nat) (ring : list block) : Prop := full (k + k) (take b ring) /\ chunks k (drop b ring) \/ in_order ring.

Definition pass_ok (k : nat) (ring : list block) (r : list block + list block) : Prop :=
  match r with
  | inl l => in_order l /\ isort (entries l) = isort (entries ring)
  | inr l => chunks (k + k) l /\ isort (entries l) = isort (entries ring)
  end.

Lemma pass_ok_trans k ring ring' r : isort (entries ring') = isort (entries ring) -> pass_ok k ring' r -> pass_ok k ring r.
Proof. intros E. destruct r; intros [H E']; (split; [done|congruence]). Qed.

(** Two chunks merged in the middle. *)
Lemma pass_merge k b ring s : (0 < k)%nat -> (k < length (drop b ring))%nat -> pass_inv k b ring ->
  let tail := drop b ring in let rest := drop k (drop k tail) in
  merge_block_seqs cmp (take k tail) (take k (drop k tail)) = Some s ->
  isort (entries (take b ring ++ s ++ rest)) = isort (entries ring) /\
  (in_order (take b ring ++ s ++ rest) \/ full (k + k) (take b ring) /\ in_order s /\ (length s <= k + k)%nat /\ (rest <> [] -> length s = k + k)%nat /\ chunks k rest).
Proof.
  intros Hk Hlt Hinv tail rest E. fold tail in Hlt.
  assert (ring = take b ring ++ (take k tail ++ take k (drop k tail)) ++ rest) as Er.
  { unfold rest. rewrite <- app_assoc, (take_drop k (drop k tail)), (take_drop k tail). unfold tail. by rewrite take_drop. }
  assert (in_order (take k tail) /\ in_order (take k (drop k tail)) /\ (in_order ring \/ full (k + k) (take b ring) /\ chunks k rest)) as (H1 & H2 & H3).
  { destruct Hinv as [[Hf Hc]|Ho].
    - apply chunks_take in Hc as [H1 Hc]. apply chunks_take in Hc as [H2 Hc]. auto.
    - pose proof Ho as Ho'. rewrite Er in Ho'. apply in_order_app in Ho' as [_ [[H1 H2]%in_order_app _]%in_order_app]. auto. }
  destruct (merge_in_order _ _ _ H1 H2 E) as (Es & Hs & Hl).
  assert (isort (entries (take b ring ++ s ++ rest)) = isort (entries ring)) as Eiso.
  { rewrite Er at 2. rewrite !ring_entries_app. apply isort_middle. rewrite <- ring_entries_app, Es. apply isort_isort. }
  split; [done|]. destruct H3 as [Ho|[Hf Hc]].
  - left. unfold in_order. assert (entries (take b ring ++ s ++ rest) = entries ring) as ->; [|done]. rewrite Er at 2. rewrite !ring_entries_app. f_equal. f_equal.
    rewrite Es, <- ring_entries_app. apply isort_id. rewrite Er in Ho. by apply in_order_app in Ho as [_ [Ho _]%in_order_app].
  - right. split_and!; [done|done| | |done].
    + rewrite Hl, length_app, !length_take. lia.
    + intros Hr. rewrite Hl, length_app, !length_take. assert (0 < length rest)%nat by (destruct rest; [done|simpl; lia]). unfold rest in H. rewrite !length_drop in H. rewrite length_drop. lia.
Qed.

Lemma index_head b l : index b.1 (b :: l) = 0%nat.
Proof. simpl. by rewrite Z.eqb_refl. Qed.

Lemma pass_sorts k fuel b ring r : (0 < k)%nat -> pass_inv k b ring -> merge_pass cmp fuel k b ring = Some r -> pass_ok k ring r.
Proof.
  intros Hk. revert b ring. induction fuel as [|fuel IH]; intros b ring Hinv; [done|]. cbn [merge_pass]. cbv zeta.
  destruct (Nat.leb_spec (length (drop b ring)) k) as [Hle|Hlt].
  { intros [= <-]. destruct (Nat.eqb_spec b 0) as [->|_]; (split; [|done]).
    - destruct Hinv as [[_ Hc]|Ho]; [rewrite drop_0 in *; by apply (chunks_short k)|done].
    - destruct Hinv as [[Hf Hc]|Ho]; [|apply in_order_chunks; [lia|done]]. rewrite <- (take_drop b ring). apply full_chunks; [done|].
      apply chunks_last; [lia|by apply (chunks_short k)]. }
  destruct (merge_block_seqs cmp _ _) as [s|] eqn:E; [|done]. simpl. destruct (pass_merge k b ring s Hk Hlt Hinv E) as [Eiso Hcase].
  set (rest := drop k (drop k (drop b ring))) in *. destruct rest as [|c rest'] eqn:Erest.
  - rewrite app_nil_r in *. assert (chunks (k + k) (take b ring ++ s)) as Hch.
    { destruct Hcase as [Ho|(Hf & Hs & Hl & _)]; [apply in_order_chunks; [lia|done]|]. apply full_chunks; [done|by apply chunks_last]. }
    destruct (Nat.eqb_spec (match ring with [] => 0%nat | b0 :: _ => index b0.1 (take b ring ++ s) end) 0) as [En|En]; [by intros [= <-]|].
    intros Hp. apply (pass_ok_trans k ring (take b ring ++ s)); [done|]. revert Hp. apply IH. right. destruct Hcase as [Ho|(_ & Hs & _)]; [done|].
    destruct b as [|b]; [by rewrite take_0|]. destruct ring as [|b0 ring]; [done|]. simpl in En. by rewrite Z.eqb_refl in En.
  - intros Hp. apply (pass_ok_trans k ring (take b ring ++ s ++ c :: rest')); [done|]. revert Hp. apply IH.
    destruct Hcase as [Ho|(Hf & Hs & _ & Hl & Hc)]; [by right|left]. rewrite app_assoc, take_app_length, drop_app_length. split; [|done].
    apply full_snoc; [done|by apply Hl|done].
Qed.

Lemma passes_sorts fuel k ring ring' : (0 < k)%nat -> chunks k ring -> sort_passes cmp fuel k ring = Some ring' -> entries ring' = isort (entries ring).
Proof.
  revert k ring. induction fuel as [|fuel IH]; intros k ring Hk Hc; [done|]. cbn [sort_passes]. destruct (merge_pass cmp _ k 0 ring) as [r|] eqn:E; [|done]. simpl.
  apply pass_sorts in E; [|done|left; rewrite drop_0; split; [constructor|done]]. destruct r as [l|l]; destruct E as [Hl Ei].
  - intros [= <-]. rewrite <- Ei. by rewrite isort_id.
  - intros H. rewrite (IH (k + k)%nat l); [done|lia|done|done].
Qed.

Lemma sorted_blocks ring : let l := map (fun b : block => (b.1, array_sort cmp b.2)) ring in chunks 1 l /\ isort (entries l) = isort (entries ring).
Proof.
  simpl. induction ring as [|[a l] ring [IH1 IH2]]; [split; [apply chunks_last; [simpl; lia|constructor]|done]|]. cbn [map].
  assert (in_order [(a, array_sort cmp l)]) as Ho.
  { unfold in_order. rewrite ring_entries_cons. simpl. rewrite app_nil_r, array_sort_isort. apply isort_sorted. }
  split; [by apply (chunks_cons 1 [_])|]. rewrite !ring_entries_cons, !isort_app, IH2. simpl. by rewrite array_sort_isort, isort_isort.
Qed.

Lemma ins_stable z x l : filter (fun y => cmp z y = 0) (ins x l) = filter (fun y => cmp z y = 0) (x :: l).
Proof.
  induction l as [|y l IH]; [done|]. simpl ins. destruct (cmp x y <=? 0) eqn:E; [done|]. apply not_le in E as [_ E].
  rewrite filter_cons, IH, !filter_cons. destruct (decide (cmp z y = 0)) as [Hy|Hy], (decide (cmp z x = 0)) as [Hx|Hx]; try done.
  destruct E. apply (cmp_trans x z y); [|lia]. destruct (Z.le_gt_cases (cmp x z) 0) as [|H]; [done|]. assert (cmp x z > 0) as H'%cmp_flip by lia. lia.
Qed.

Lemma isort_stable z l : filter (fun y => cmp z y = 0) (isort l) = filter (fun y => cmp z y = 0) l.
Proof. induction l as [|x l IH]; [done|]. simpl. by rewrite ins_stable, !filter_cons, IH. Qed.
End order.
End sort.

(** ** The theorems *)

(** Any comparison. *)
Lemma sorted_same cmp ring : exists ring', sort_list cmp ring = Some ring' /\ entries ring' ≡ₚ entries ring /\
  (fun b : block => (b.1, length b.2)) <$> ring' ≡ₚ (fun b : block => (b.1, length b.2)) <$> ring.
Proof.
  pose proof (array_sort_blocks cmp ring) as [H1 H2]. unfold sort_list. destruct (sort_passes_same cmp (S (length ring)) 1 (map (fun b : block => (b.1, array_sort cmp b.2)) ring)) as (l & E & A1 & A2).
  - lia.
  - rewrite length_map. lia.
  - lia.
  - exists l. split; [done|]. split; by etrans.
Qed.

(** C19: sort_list() ends whatever the comparison says, its result is a permutation of the entries, and the blocks of the list are the same, each with as
    many entries as before. If the comparison is an order it is a stable sort: the entries come out in order, and those that compare equal
    stay in the order they had. *)
Theorem sort_list_correct cmp ring : exists ring', sort_list cmp ring = Some ring' /\ entries ring' ≡ₚ entries ring /\
  (fun b : block => (b.1, length b.2)) <$> ring' ≡ₚ (fun b : block => (b.1, length b.2)) <$> ring /\
  ((forall x y, cmp x y > 0 <-> cmp y x < 0) -> (forall x y z, cmp x y <= 0 -> cmp y z <= 0 -> cmp x z <= 0) ->
    StronglySorted (fun x y => cmp x y <= 0) (entries ring') /\ forall x, filter (fun y => cmp x y = 0) (entries ring') = filter (fun y => cmp x y = 0) (entries ring)).
Proof.
  destruct (sorted_same cmp ring) as (ring' & E & Hp & Hs). exists ring'. split_and!; [done|done|done|]. intros Hf Ht. destruct (sorted_blocks cmp Hf Ht ring) as [Hc Hi].
  unfold sort_list in E. apply (passes_sorts cmp Hf Ht) in E; [|lia|done]. rewrite Hi in E. rewrite E. split; [by apply isort_sorted|intros x; by apply isort_stable].
Qed.

(** By the tens. *)
Definition tens (x y : Z) : Z := x / 10 - y / 10.

Lemma sort_list_correct_witness : exists ring', sort_list tens [(1, [35; 12; 31]); (2, []); (3, [11; 30; 5])] = Some ring' /\ entries ring' = [5; 12; 11; 35; 31; 30] /\
  StronglySorted (fun x y => tens x y <= 0) (entries ring').
Proof.
  destruct (sort_list_correct tens [(1, [35; 12; 31]); (2, []); (3, [11; 30; 5])]) as (l & E & _ & _ & H).
  exists l. split; [done|]. split; [vm_compute in E; by injection E as <-|]. apply H; unfold tens; lia.
Defined.
