(* ===== verification/Cse.v ===== *)
(** * Common subexpressions, cse.c

    cse_collect() puts the instructions that compute a value in a hash table, and cse_eliminate() sorts the chains of the table,
    compares the neighbours and lets one of two equal instructions do the work of both, if it runs
    before the other or can be moved to the block before both.

    The addresses of pseudos, which decide about the order, are a parameter.  Phi nodes, labels, the constants of OP_SETVAL and floating
    point are [OP_OTHER] in the graph, and are not collected here. *)
From stdpp Require Import base option gmap list.
From S2P Require Import Prelude Bits Simplify Flowgraph Sort.
#[local] Open Scope Z_scope.

(** Different pseudos have different addresses. *)
Class Addresses : Type := { address : pseudo -> Z; address_inj : forall p q, address p = address q -> p = q }.

(** The values of enum opcode; those of [OP_OTHER] are not asked for. *)
Definition opcode_nr (o : opcode) : Z :=
  match o with
  | OP_BADOP | OP_OTHER _ => 0
  | OP_ADD => 8 | OP_MUL => 9 | OP_SUB => 10 | OP_DIVU => 11 | OP_DIVS => 12 | OP_MODU => 13 | OP_MODS => 14
  | OP_LSR => 15 | OP_ASR => 16 | OP_SHL => 17 | OP_AND => 22 | OP_OR => 23 | OP_XOR => 24
  | OP_SET_EQ => 39 | OP_SET_LT => 40 | OP_SET_LE => 41 | OP_SET_GE => 42 | OP_SET_GT => 43
  | OP_SET_B => 44 | OP_SET_BE => 45 | OP_SET_AE => 46 | OP_SET_A => 47 | OP_SET_NE => 48
  | OP_NOT => 49 | OP_NEG => 50 | OP_TRUNC => 52 | OP_ZEXT => 53 | OP_SEXT => 54
  | OP_UTPTR => 60 | OP_PTRTU => 61 | OP_SYMADDR => 63 | OP_SEL => 65
  end.

Definition INSN_HASH_SIZE : Z := 256.

(** The chains that are not NULL. *)
Notation insn_hash_table := (gmap Z (list Z)) (only parsing).

Section cse.
Context `{Ad : Addresses}.

Definition hashval (p : pseudo) : Z := address p.

(** ** The table *)

(** The part of the hash that the operands give, none for an instruction that is not collected. *)
Definition hash_operands (x : insn) : option Z :=
  match op x with
  | OP_SEL => Some (hashval (src3 x) + hashval (src2 x) + hashval (src1 x))
  | OP_NOT | OP_NEG | OP_SYMADDR => Some (hashval (src1 x))
  | OP_SEXT | OP_ZEXT | OP_TRUNC | OP_UTPTR | OP_PTRTU =>
    match u3 x with
    | Typ n => if n <? 0 then None else Some (hashval (src1 x) + n)
    | Src3 _ => None
    end
  | OP_BADOP | OP_OTHER _ => None
  | _ => Some (hashval (src2 x) + hashval (src1 x))
  end.

Definition cse_hash (x : insn) : option Z :=
  h ← hash_operands x;
  let hash := u64 (Z.shiftl (opcode_nr (op x)) 3 + Z.shiftr (size x) 3 + h) in
  let hash := u64 (hash + Z.shiftr hash 16) in
  Some (Z.land hash (INSN_HASH_SIZE - 1)).

Definition cse_collect (i : Z) (d : dag) (t : insn_hash_table) : insn_hash_table :=
  match cse_hash (insn_at d i) with
  | Some hash => <[hash := default [] (t !! hash) ++ [i]]> t
  | None => t
  end.

(** ** The order *)

Definition three_way (a b : Z) : Z := if a <? b then -1 else 1.

Definition size_compare (x y : insn) : Z := if size x =? size y then 0 else three_way (size x) (size y).

Definition unop_compare (x y : insn) : Z := if peq (src1 x) (src1 y) then size_compare x y else three_way (address (src1 x)) (address (src1 y)).

Definition binop_compare (x y : insn) : Z := if peq (src2 x) (src2 y) then unop_compare x y else three_way (address (src2 x)) (address (src2 y)).

Definition insn_compare (x y : insn) : Z :=
  if negb (oeq (op x) (op y)) then three_way (opcode_nr (op x)) (opcode_nr (op y))
  else
    match op x with
    | OP_ADD | OP_MUL | OP_AND | OP_OR | OP_XOR | OP_SET_EQ | OP_SET_NE =>
      if peq (src1 x) (src2 y) && peq (src2 x) (src1 y) then 0 else binop_compare x y
    | OP_SEL => if peq (src3 x) (src3 y) then binop_compare x y else three_way (address (src3 x)) (address (src3 y))
    | OP_NOT | OP_NEG | OP_SYMADDR => unop_compare x y
    | OP_SEXT | OP_ZEXT | OP_TRUNC | OP_UTPTR | OP_PTRTU =>
      if negb (peq (src1 x) (src1 y)) then three_way (address (src1 x)) (address (src1 y))
      else if negb (orig_type x =? orig_type y) then three_way (orig_type x) (orig_type y)
      else size_compare x y
    | OP_BADOP | OP_OTHER _ => size_compare x y
    | _ => binop_compare x y
    end.

(** The blocks of a list that was made by add_instruction(): all are full but the last. *)
Fixpoint chain_from (fuel : nat) (a : Z) (l : list Z) : list block :=
  match fuel, l with
  | S fuel, _ :: _ => (a, take 13 l) :: chain_from fuel (a + 1) (drop 13 l)
  | _, _ => []
  end.

Definition chain (l : list Z) : list block := chain_from (length l) 1 l.

Definition sort_instruction_list (d : dag) (l : list Z) : option (list Z) :=
  entries <$> sort_list (fun i j => insn_compare (insn_at d i) (insn_at d j)) (chain l).

(** ** Elimination *)

Definition cse_one_instruction (insn def : Z) (d : dag) : dag :=
  let '(_, d) := replace_with_pseudo insn (REG def) d in
  set_repeat (Z.lor (repeat_phase d) REPEAT_CSE) d.

Definition trivial_common_parent (ep : entrypoint) (bb1 bb2 : Z) : option Z :=
  match parents <$> blocks ep !! bb1, parents <$> blocks ep !! bb2 with
  | Some [p], Some [q] => if q =? p then Some p else None
  | _, _ => None
  end.

Definition set_bbs (f : list Z -> list Z) (b : Z) (d : dag) : dag := Dag (insns d) (<[b := f (default [] (bbs d !! b))]> (bbs d)) (repeat_phase d).

Fixpoint remove_first (i : Z) (l : list Z) : list Z :=
  match l with
  | [] => []
  | j :: l => if j =? i then l else j :: remove_first i l
  end.

Definition remove_instruction (b i : Z) (d : dag) : dag := set_bbs (remove_first i) b d.

(** Before the last one, 0 for the NULL of an empty block. *)
Definition insert_last_instruction (b i : Z) (d : dag) : dag :=
  modify i (set_bb (Some b)) (set_bbs (fun l => removelast l ++ [i; List.last l 0]) b d).

(** The first of the two in the block. *)
Fixpoint first_of (l : list Z) (i1 i2 : Z) : option Z :=
  match l with
  | [] => None
  | i :: l => if i =? i1 then Some i1 else if i =? i2 then Some i2 else first_of l i1 i2
  end.

(** The instruction that is left, of two that compare equal. *)
Definition try_to_cse (ep : entrypoint) (i1 i2 : Z) (d : dag) : Z * dag :=
  match bb (insn_at d i1), bb (insn_at d i2) with
  | Some b1, Some b2 =>
    if b1 =? b2 then
      match first_of (default [] (bbs d !! b1)) i1 i2 with
      | Some i => if i =? i1 then (i1, cse_one_instruction i2 i1 d) else (i2, cse_one_instruction i1 i2 d)
      | None => (i1, d)
      end
    else if Flowgraph.domtree_dominates ep b1 b2 then (i1, cse_one_instruction i2 i1 d)
    else if Flowgraph.domtree_dominates ep b2 b1 then (i2, cse_one_instruction i1 i2 d)
    else
      match trivial_common_parent ep b1 b2 with
      | Some common => (i1, insert_last_instruction common i1 (remove_instruction b1 i1 (cse_one_instruction i2 i1 d)))
      | None => (i2, d)
      end
  | _, _ => (i1, d)
  end.

(** An instruction of a chain; [last] is the one before it. *)
Definition cse_step (ep : entrypoint) (st : option Z * dag) (insn : Z) : option Z * dag :=
  let '(last, d) := st in
  match bb (insn_at d insn) with
  | None => (last, d)
  | Some _ =>
    match last with
    | Some l =>
      if insn_compare (insn_at d l) (insn_at d insn) =? 0 then let '(i, d) := try_to_cse ep l insn d in (Some i, d)
      else (Some insn, d)
    | None => (Some insn, d)
    end
  end.

Definition cse_chain (ep : entrypoint) (l : list Z) (d : dag) : option dag :=
  if (1 <? length l)%nat then
    l ← sort_instruction_list d l;
    Some (foldl (cse_step ep) (None, d) l).2
  else Some d.

(** The table is empty afterwards. *)
Definition cse_eliminate (ep : entrypoint) (t : insn_hash_table) (d : dag) : option dag :=
  foldl (fun d i => d ← d; match t !! i with Some l => cse_chain ep l d | None => Some d end) (Some d) (seqZ 0 INSN_HASH_SIZE).
End cse.

