(* ===== verification/CseFacts.v ===== *)
(** * Elimination keeps the values

    Instructions that compare equal compute equal values, if operands of one size are compared or added; one of them can
    do the work of both. *)
From stdpp Require Import base option gmap list.
From S2P Require Import Prelude Bits Simplify SimplifyFacts Flowgraph Sort SortTheorems Cse.
#[local] Open Scope Z_scope.

Section cse.
Context `{Ad : Addresses} `{At : Atoms}.

(** ** What compares equal *)

Definition is_cast (o : opcode) : bool := match o with OP_SEXT | OP_ZEXT | OP_TRUNC | OP_UTPTR | OP_PTRTU => true | _ => false end.

Definition is_signed_order (o : opcode) : bool := match o with OP_SET_LT | OP_SET_LE | OP_SET_GT | OP_SET_GE => true | _ => false end.

Lemma three_way_not_0 a b : three_way a b <> 0.
Proof. unfold three_way. by destruct (a <? b). Qed.

Lemma size_compare_0 x y : size_compare x y = 0 -> size x = size y.
Proof. unfold size_compare. destruct (Z.eqb_spec (size x) (size y)); [done|]. by intros ?%three_way_not_0. Qed.

Lemma unop_compare_0 x y : unop_compare x y = 0 -> src1 x = src1 y /\ size x = size y.
Proof. unfold unop_compare, peq. case_bool_decide as E; [|by intros ?%three_way_not_0]. intros H%size_compare_0. done. Qed.

Lemma binop_compare_0 x y : binop_compare x y = 0 -> src1 x = src1 y /\ src2 x = src2 y /\ size x = size y.
Proof. unfold binop_compare, peq. case_bool_decide as E; [|by intros ?%three_way_not_0]. intros [? ?]%unop_compare_0. done. Qed.

(** The same operands, or swapped ones. *)
Inductive alike (x y : insn) : Prop :=
| alike_same : op x = op y -> src1 x = src1 y -> (arity (op x) <> 1 -> src2 x = src2 y) -> (arity (op x) = 3 -> src3 x = src3 y) ->
    size x = size y -> (is_cast (op x) = true -> itype x = itype y) -> alike x y
| alike_swapped : op x = op y -> OPF_COMMU (op x) = true -> src1 x = src2 y -> src2 x = src1 y -> alike x y.

Lemma insn_compare_0 x y : is_value_op (op x) = true -> insn_compare x y = 0 -> alike x y.
Proof.
  intros Hv. unfold insn_compare. destruct (oeq (op x) (op y)) eqn:Eo; simpl; [|by intros ?%three_way_not_0]. apply bool_decide_eq_true in Eo.
  assert (binop_compare x y = 0 -> arity (op x) = 2 -> is_cast (op x) = false -> alike x y) as Hbin.
  { intros (? & ? & ?)%binop_compare_0 Ha Hc. apply alike_same; try done; [lia|by rewrite Hc]. }
  assert (forall h, OPF_COMMU (op x) = true -> (if peq (src1 x) (src2 y) && peq (src2 x) (src1 y) then 0 else h) = 0 -> alike x y \/ h = 0) as Hcom.
  { intros h Hc. destruct (peq (src1 x) (src2 y) && peq (src2 x) (src1 y)) eqn:E; [|by right]. intros _. left.
    apply andb_true_iff in E as [E1%bool_decide_eq_true E2%bool_decide_eq_true]. by apply alike_swapped. }
  destruct (op x) eqn:Ox; try done;
    first [ intros [?|?]%Hcom; [done|by apply Hbin|done] | intros H; by apply Hbin
          | intros [? ?]%unop_compare_0; apply alike_same; rewrite ?Ox; done
          | unfold peq; case_bool_decide as E1; simpl; [|by intros ?%three_way_not_0]; destruct (Z.eqb_spec (orig_type x) (orig_type y)) as [E2|E2]; simpl; [|by intros ?%three_way_not_0];
            intros ?%size_compare_0; apply alike_same; rewrite ?Ox; done
          | unfold peq; case_bool_decide as E1; [|by intros ?%three_way_not_0]; intros (? & ? & ?)%binop_compare_0; apply alike_same; rewrite ?Ox; done ].
Qed.

Lemma alike_op x y : alike x y -> op x = op y.
Proof. by destruct 1. Qed.

Lemma alike_operands x y p : is_value_op (op x) = true -> alike x y -> p ∈ operands x <-> p ∈ operands y.
Proof.
  intros Hv Ha. pose proof (alike_op x y Ha) as Eo. unfold operands. rewrite <- Eo. destruct Ha as [_ E1 E2 E3 _ _|_ Hc E1 E2].
  - destruct (op x); try done; cbn in *; rewrite ?E1, ?E2, ?E3 by done; done.
  - rewrite E1, E2. destruct (op x); try done; simpl; rewrite !elem_of_cons; tauto.
Qed.

(** ** Sizes *)

(** The sizes of pseudos are those of the instructions; the operands of a sum and of a signed comparison have its size, one of them is not a
    constant; and comparisons for equality that are in one chain have results of one size: [label] is the chain of an instruction.  Two of
    different sizes are in one chain only if their hashes collide, since the size is part of the hash. *)
Record evenly_sized (f : pseudo -> Z) (eq_size : Z -> Z) (label : Z -> Z) (d : dag) : Prop := {
  ws_reg : forall j y, insns d !! j = Some y -> live y -> f (REG j) = size y;
  ws_eq : forall j y, insns d !! j = Some y -> live y -> op y = OP_SET_EQ \/ op y = OP_SET_NE -> size y = eq_size (label j);
  ws_sum : forall i x, insns d !! i = Some x -> live x -> OPF_ASSOC (op x) = true ->
    (exists p, p ∈ operands x /\ constant p = false) /\ forall p, p ∈ operands x -> constant p = false -> f p = size x;
  ws_order : forall i x, insns d !! i = Some x -> live x -> is_signed_order (op x) = true ->
    (exists p, p ∈ operands x /\ constant p = false) /\ forall p, p ∈ operands x -> constant p = false -> f p = itype x
}.

Section sizes.
Context (f : pseudo -> Z) (es label : Z -> Z) (d : dag) (Hw : evenly_sized f es label d).

Lemma alike_size i x j y : label i = label j -> insns d !! i = Some x -> live x -> insns d !! j = Some y -> live y -> is_value_op (op x) = true -> alike x y -> size x = size y.
Proof.
  intros El Hx Hlx Hy Hly Hv Ha. pose proof (alike_op x y Ha) as Eo. pose proof (fun p => alike_operands x y p Hv Ha) as Hop.
  destruct Ha as [_ _ _ _ Es _|_ Hc _ _]; [done|]. destruct (OPF_ASSOC (op x)) eqn:Hs.
  - destruct (ws_sum _ _ _ _ Hw i x Hx Hlx Hs) as [(p & Hp & Hpc) Hfx]. destruct (ws_sum _ _ _ _ Hw j y Hy Hly) as [_ Hfy]; [by rewrite <- Eo|].
    rewrite <- (Hfx p Hp Hpc). apply Hfy; [by apply Hop|done].
  - assert (op x = OP_SET_EQ \/ op x = OP_SET_NE) as He by (destruct (op x); try done; auto).
    rewrite (ws_eq _ _ _ _ Hw i x Hx Hlx He), El. symmetry. apply (ws_eq _ _ _ _ Hw j y Hy Hly). by rewrite <- Eo.
Qed.

Lemma alike_itype i x j y : insns d !! i = Some x -> live x -> insns d !! j = Some y -> live y -> is_value_op (op x) = true -> alike x y ->
  is_signed_order (op x) = true -> itype x = itype y.
Proof.
  intros Hx Hlx Hy Hly Hv Ha Hs. pose proof (alike_op x y Ha) as Eo. pose proof (fun p => alike_operands x y p Hv Ha) as Hop.
  destruct (ws_order _ _ _ _ Hw i x Hx Hlx Hs) as [(p & Hp & Hpc) Hfx]. destruct (ws_order _ _ _ _ Hw j y Hy Hly) as [_ Hfy]; [by rewrite <- Eo|].
  rewrite <- (Hfx p Hp Hpc). apply Hfy; [by apply Hop|done].
Qed.

(** ** Values *)

Lemma sem_alike x y a b c a' b' c' : op x = op y -> size x = size y -> (is_cast (op x) = true \/ is_signed_order (op x) = true -> itype x = itype y) ->
  a = a' -> (arity (op x) <> 1 -> b = b') -> (arity (op x) = 3 -> c = c') -> sem x a b c = sem y a' b' c'.
Proof.
  intros Eo Es Ei -> Hb Hc. unfold sem. rewrite <- Eo, <- Es. destruct (op x); cbn in *; rewrite ?Hb, ?Hc, ?Ei by (done || auto); try done.
Qed.

Lemma sem_swapped x y a b c c' : op x = op y -> size x = size y -> OPF_COMMU (op x) = true -> sem x a b c = sem y b a c'.
Proof.
  intros Eo Es Hc. unfold sem. rewrite <- Eo, <- Es. destruct (op x); try done.
  - by rewrite Z.add_comm.
  - by rewrite Z.mul_comm.
  - by rewrite Z.land_comm.
  - by rewrite Z.lor_comm.
  - by rewrite Z.lxor_comm.
  - by rewrite Z.eqb_sym.
  - by rewrite Z.eqb_sym.
Qed.

(** The results are equal in every valuation. *)
Lemma alike_sem i x j y r : label i = label j -> computes d i x -> computes d j y -> alike x y ->
  sem x (val r (src1 x)) (val r (src2 x)) (val r (src3 x)) = sem y (val r (src1 y)) (val r (src2 y)) (val r (src3 y)).
Proof.
  intros El [Hx Hlx Hvx] [Hy Hly Hvy] Ha. pose proof (alike_size i x j y El Hx Hlx Hy Hly Hvx Ha) as Es.
  pose proof (alike_itype i x j y Hx Hlx Hy Hly Hvx Ha) as Ei. destruct Ha as [Eo E1 E2 E3 _ Et|Eo Hc E1 E2].
  - apply sem_alike; try done; [intros [?|?]; auto|by rewrite E1|intros H; by rewrite E2|intros H; by rewrite E3].
  - rewrite E1, E2. by apply sem_swapped.
Qed.

Lemma alike_values i x j y r : label i = label j -> computes d i x -> computes d j y -> alike x y -> sat r d -> r i = r j.
Proof.
  intros El Hx Hy Ha Hr. destruct (sat_computes r d i x Hr Hx) as [_ Sx]. destruct (sat_computes r d j y Hr Hy) as [_ Sy].
  pose proof (alike_sem i x j y r El Hx Hy Ha). congruence.
Qed.

(** One stands in for the other. *)
Lemma alike_stands_in i x j y : wf d -> computes d i x -> computes d j y -> alike x y -> i <> j -> stands_in d i (REG j).
Proof.
  intros Hwf Hx Hy Ha Hne. destruct Hx as [Hx Hlx Hvx], Hy as [Hy Hly Hvy]. split.
  - intros [= ?]. done.
  - intros k z [= <-] Hz. by simplify_eq.
  - destruct (wf_rank _ Hwf) as [rank Hr]. exists (fun k => if k =? j then Nat.min (rank i) (rank j) else rank k). split.
    + intros k z l Hz Hl Hv Hin. specialize (Hr k z l Hz Hl Hv Hin) as Hlt. destruct (Z.eqb_spec k j) as [->|Hkj].
      * simplify_eq. assert (rank l < rank i)%nat by (apply (Hr i x l); [done|done|done|]; by apply (alike_operands x y)). destruct (Z.eqb_spec l j) as [->|_]; lia.
      * destruct (Z.eqb_spec l j) as [->|_]; lia.
    + intros k [= <-]. rewrite Z.eqb_refl. destruct (Z.eqb_spec i j); [done|]. lia.
  - done.
Qed.
End sizes.

(** ** Killing the other one *)

(** Nothing but the instruction [i] changes. *)
Definition only (i : Z) (d d' : dag) : Prop := (forall k, k <> i -> insns d' !! k = insns d !! k) /\ bbs d' = bbs d.

Lemma only_refl i d : only i d d.
Proof. done. Qed.

Lemma only_trans i d1 d2 d3 : only i d1 d2 -> only i d2 d3 -> only i d1 d3.
Proof. intros [H1 B1] [H2 B2]. split; [intros k Hk; by rewrite H2, H1|congruence]. Qed.

Lemma only_modify i f d : only i d (modify i f d).
Proof. split; [intros k Hk; by apply lookup_modify_ne|done]. Qed.

Section kill.
Context (kill : Z -> dag -> Z * dag) (i j : Z) (y : insn) (Hij : i <> j).

(** An operand that [j] uses too is left alone. *)
Lemma rem_usage_shared p d : insns d !! j = Some y -> (is_reg p = true -> p ∈ operands y) -> rem_usage kill p d = d.
Proof.
  intros Hy Hp. destruct p; try done. simpl. destruct (has_users d (REG nr)) eqn:E; [done|]. rewrite has_users_false in E.
  destruct (E j y Hy). by apply Hp.
Qed.

Lemma kill_use_shared pl d : insns d !! j = Some y -> (is_reg (get pl (insn_at d i)) = true -> get pl (insn_at d i) ∈ operands y) -> kill_use kill i pl d = modify i (set pl VOID) d.
Proof. intros Hy Hp. unfold kill_use. apply rem_usage_shared; [by rewrite lookup_modify_ne|done]. Qed.

Lemma kill_operands_shared d x : insns d !! i = Some x -> insns d !! j = Some y -> is_value_op (op x) = true -> (forall p, p ∈ operands x -> p ∈ operands y) ->
  only i d (kill_operands kill i d).
Proof.
  intros Hx Hy Hv Hop. unfold kill_operands. assert (insn_at d i = x) as Ex by (unfold insn_at; by rewrite Hx). rewrite Ex.
  assert (forall pl (g : insn -> insn), get pl x ∈ operands x -> get pl (g x) = get pl x -> kill_use kill i pl (modify i g d) = modify i (set pl VOID) (modify i g d)) as Hkill.
  { intros pl g Hg Eg. apply kill_use_shared; [by rewrite lookup_modify_ne|]. unfold insn_at. rewrite lookup_modify, Hx. simpl. rewrite Eg. intros _. by apply Hop. }
  assert (modify i id d = d) as Eid by (unfold modify, set_insns; destruct d; simpl; f_equal; by apply alter_id).
  assert (forall pl, get pl x ∈ operands x -> kill_use kill i pl d = modify i (set pl VOID) d) as Hkill1 by (intros pl Hp; specialize (Hkill pl id Hp eq_refl); by rewrite Eid in Hkill).
  assert (operands x = if arity (op x) =? 1 then [src1 x] else if arity (op x) =? 2 then [src1 x; src2 x] else if arity (op x) =? 3 then [src1 x; src2 x; src3 x] else []) as Eop by (unfold operands; by destruct (op x)).
  assert (get P1 x ∈ operands x -> get P2 x ∈ operands x -> kill_use kill i P1 (kill_use kill i P2 d) = modify i (set P1 VOID) (modify i (set P2 VOID) d)) as H2 by (intros; rewrite (Hkill1 P2), (Hkill P1); done).
  destruct (op x) eqn:Ox; try done; cbn in Eop |- *; rewrite Eop in Hkill1, H2, Hkill.
  all: try (rewrite H2 by (simpl; rewrite !elem_of_cons; tauto); eapply only_trans; apply only_modify).
  all: try (rewrite Hkill1 by (simpl; rewrite !elem_of_cons; tauto); apply only_modify).
  rewrite (Hkill1 P3), (Hkill P2) by (done || (simpl; rewrite !elem_of_cons; tauto)). rewrite modify_modify, (Hkill P1) by (done || (simpl; rewrite !elem_of_cons; tauto)).
  eapply only_trans; apply only_modify.
Qed.
End kill.

Lemma kill_shared d i x j y : computes d i x -> insns d !! j = Some y -> i <> j -> (forall p, p ∈ operands x -> p ∈ operands y) ->
  only i d (kill_instruction i d).2.
Proof.
  intros [Hx Hl Hv] Hy Hij Hop. unfold kill_instruction, kill_fuel. cbn [kill_insn]. assert (insn_at d i = x) as Ex by (unfold insn_at; by rewrite Hx). rewrite Ex.
  unfold live in Hl. destruct (bb x) as [b|]; [|done]. destruct (oeq (op x) (OP_OTHER true)); [done|]. simpl.
  eapply only_trans; [by eapply kill_operands_shared|]. eapply only_trans; [apply (only_modify i (set_bb None))|]. done.
Qed.

(** ** One instruction *)

Section one.
Context (f : pseudo -> Z) (es label : Z -> Z) (d : dag) (i j : Z) (x y : insn).
Context (Hwf : wf d) (Hw : evenly_sized f es label d) (El : label i = label j) (Hx : computes d i x) (Hy : computes d j y) (Ha : alike x y) (Hij : i <> j).

Lemma cse_one_sound : sound d (cse_one_instruction i j d).
Proof.
  unfold cse_one_instruction. assert (sound d (replace_with_pseudo i (REG j) d).2) as Hs.
  { apply stand_in_sound; [done|by apply (alike_stands_in d i x j y)|]. intros r Hr. simpl. symmetry. by apply (alike_values f es label d Hw i x j y). }
  destruct (replace_with_pseudo i (REG j) d) as [z d1]. apply (sound_kills d d1); [done|]. apply kills_repeat, kills_refl.
Qed.

(** The others have [j] where they had [i]. *)
Lemma cse_one_lookup k : k <> i -> insns (cse_one_instruction i j d) !! k = subst (REG i) (REG j) <$> insns d !! k.
Proof.
  intros Hk. unfold cse_one_instruction, replace_with_pseudo. assert (REG i <> REG j) as Hne by (intros [= ?]; done).
  destruct (wf_rank _ Hwf) as [rank Hr]. destruct Hx as [Hlx Hlive Hv].
  assert (REG i ∉ operands x) as Hnx by (intros Hin; pose proof (Hr i x i Hlx Hlive Hv Hin); lia).
  assert (forall p, p ∈ operands (subst (REG i) (REG j) x) -> p ∈ operands (subst (REG i) (REG j) y)) as Hop.
  { intros p. rewrite !operands_subst. intros (q & -> & Hq)%list_elem_of_fmap. apply list_elem_of_fmap. exists q. split; [done|]. by apply (alike_operands x y). }
  destruct (kill_shared (convert_instruction_target i (REG j) d) i (subst (REG i) (REG j) x) j (subst (REG i) (REG j) y)) as [Hk1 _]; try done.
  - split; [by rewrite lookup_convert, Hlx|by apply live_subst|by rewrite op_subst].
  - rewrite lookup_convert by done. by rewrite (c_lookup _ _ _ Hy).
  - destruct (kill_instruction i (convert_instruction_target i (REG j) d)) as [z d1] eqn:Ek. simpl in *. rewrite Hk1 by done. by apply lookup_convert.
Qed.

Lemma cse_one_bbs : bbs (cse_one_instruction i j d) = bbs d.
Proof.
  unfold cse_one_instruction, replace_with_pseudo. assert (REG i <> REG j) as Hne by (intros [= ?]; done). destruct Hx as [Hlx Hlive Hv].
  assert (forall p, p ∈ operands (subst (REG i) (REG j) x) -> p ∈ operands (subst (REG i) (REG j) y)) as Hop.
  { intros p. rewrite !operands_subst. intros (q & -> & Hq)%list_elem_of_fmap. apply list_elem_of_fmap. exists q. split; [done|]. by apply (alike_operands x y). }
  destruct (kill_shared (convert_instruction_target i (REG j) d) i (subst (REG i) (REG j) x) j (subst (REG i) (REG j) y)) as [_ Hb]; try done.
  - split; [by rewrite lookup_convert, Hlx|by apply live_subst|by rewrite op_subst].
  - rewrite lookup_convert by done. by rewrite (c_lookup _ _ _ Hy).
  - destruct (kill_instruction i (convert_instruction_target i (REG j) d)) as [z d1] eqn:Ek. simpl in *. rewrite Hb. unfold convert_instruction_target, peq. by case_bool_decide.
Qed.

(** The other one is dead. *)
Lemma cse_one_dead z : insns (cse_one_instruction i j d) !! i = Some z -> bb z = None.
Proof.
  unfold cse_one_instruction, replace_with_pseudo. assert (REG i <> REG j) as Hne by (intros [= ?]; done). destruct Hx as [Hlx Hlive Hv].
  set (d1 := convert_instruction_target i (REG j) d). assert (insn_at d1 i = subst (REG i) (REG j) x) as Ex by (unfold insn_at, d1; by rewrite lookup_convert, Hlx).
  unfold kill_instruction, kill_fuel. cbn [kill_insn]. rewrite Ex. destruct (subst_fields (REG i) (REG j) x) as (_ & _ & Eb & _). rewrite Eb, op_subst.
  unfold live in Hlive. destruct (bb x) as [b|]; [|done]. destruct (oeq (op x) (OP_OTHER true)) eqn:Eo; [apply bool_decide_eq_true in Eo; by rewrite Eo in Hv|].
  simpl. rewrite lookup_alter_eq. by intros (w & _ & ->)%fmap_Some.
Qed.

Lemma cse_one_live k z : insns (cse_one_instruction i j d) !! k = Some z -> live z -> k <> i /\ exists z0, insns d !! k = Some z0 /\ live z0 /\ z = subst (REG i) (REG j) z0.
Proof.
  intros Hz Hl. destruct (decide (k = i)) as [->|Hk]; [destruct Hl; by apply cse_one_dead|]. split; [done|]. rewrite cse_one_lookup in Hz by done.
  apply fmap_Some in Hz as (z0 & Hz0 & ->). exists z0. split_and!; [done| |done]. by apply live_subst in Hl.
Qed.

Lemma subst_itype p q z : is_signed_order (op z) = true -> itype (subst p q z) = itype z.
Proof. unfold subst. destruct z as [o ? ? ? ? ? ? ?]. by destruct o. Qed.

Lemma f_swap p : f (REG i) = f (REG j) -> f (swap_pseudo (REG i) (REG j) p) = f p.
Proof. intros E. unfold swap_pseudo, peq. case_bool_decide as Ep; [by rewrite Ep|done]. Qed.

Lemma constant_swap p : constant (swap_pseudo (REG i) (REG j) p) = constant p.
Proof. unfold swap_pseudo, peq. case_bool_decide as Ep; [by rewrite Ep|done]. Qed.

Lemma cse_one_sized : evenly_sized f es label (cse_one_instruction i j d).
Proof.
  assert (f (REG i) = f (REG j)) as Ef.
  { rewrite (ws_reg _ _ _ _ Hw i x), (ws_reg _ _ _ _ Hw j y) by (apply Hx || apply Hy). apply (alike_size f es label d Hw i x j y); done || apply Hx || apply Hy. }
  assert (forall (z : insn) n, (exists p, p ∈ operands z /\ constant p = false) /\ (forall p, p ∈ operands z -> constant p = false -> f p = n) ->
    (exists p, p ∈ operands (subst (REG i) (REG j) z) /\ constant p = false) /\ forall p, p ∈ operands (subst (REG i) (REG j) z) -> constant p = false -> f p = n) as Hsub.
  { intros z n [(p & Hp & Hc) Hf]. rewrite operands_subst. split.
    - exists (swap_pseudo (REG i) (REG j) p). split; [by apply list_elem_of_fmap_2|by rewrite constant_swap].
    - intros q (p' & -> & Hp')%list_elem_of_fmap. rewrite constant_swap, f_swap by done. by apply Hf. }
  split.
  - intros k z Hz Hl. destruct (cse_one_live k z Hz Hl) as (_ & z0 & Hz0 & Hl0 & ->). rewrite (ws_reg _ _ _ _ Hw k z0 Hz0 Hl0). symmetry. apply subst_fields.
  - intros k z Hz Hl. destruct (cse_one_live k z Hz Hl) as (_ & z0 & Hz0 & Hl0 & ->). rewrite op_subst. intros Ho. destruct (subst_fields (REG i) (REG j) z0) as (_ & -> & _).
    by apply (ws_eq _ _ _ _ Hw k z0).
  - intros k z Hz Hl. destruct (cse_one_live k z Hz Hl) as (_ & z0 & Hz0 & Hl0 & ->). rewrite op_subst. intros Ho. destruct (subst_fields (REG i) (REG j) z0) as (_ & -> & _).
    apply Hsub. by apply (ws_sum _ _ _ _ Hw k z0).
  - intros k z Hz Hl. destruct (cse_one_live k z Hz Hl) as (_ & z0 & Hz0 & Hl0 & ->). rewrite op_subst. intros Ho. rewrite subst_itype by done.
    apply Hsub. by apply (ws_order _ _ _ _ Hw k z0).
Qed.
End one.

(** ** Moves between blocks *)

(** The same instructions, in blocks that may be others. *)
Definition moved (d d' : dag) : Prop := forall k, match insns d !! k, insns d' !! k with
  | Some z, Some z' => (live z <-> live z') /\ z' = set_bb (bb z') z
  | None, None => True
  | _, _ => False
  end.

Lemma moved_lookup d d' k z' : moved d d' -> insns d' !! k = Some z' -> exists z b, insns d !! k = Some z /\ (live z <-> live z') /\ z' = set_bb b z.
Proof. intros H Hz'. specialize (H k). rewrite Hz' in H. destruct (insns d !! k) as [z|]; [|done]. destruct H as [Hl E]. eauto. Qed.

Lemma moved_lookup_old d d' k z : moved d d' -> insns d !! k = Some z -> exists b, insns d' !! k = Some (set_bb b z) /\ (live z <-> live (set_bb b z)).
Proof. intros H Hz. specialize (H k). rewrite Hz in H. destruct (insns d' !! k) as [z'|]; [|done]. destruct H as [Hl E]. exists (bb z'). by rewrite <- E. Qed.

Lemma moved_modify d i c x : insns d !! i = Some x -> live x -> forall d', insns d' = insns (modify i (set_bb (Some c)) d) -> moved d d'.
Proof.
  intros Hx Hl d' E k. rewrite E. destruct (decide (k = i)) as [->|Hk].
  - rewrite Hx, lookup_modify, Hx. simpl. split; [|done]. unfold live. simpl. done.
  - rewrite lookup_modify_ne by done. destruct (insns d !! k) as [z|]; [|done]. split; [done|]. by destruct z.
Qed.

Lemma moved_sound d d' : wf d -> moved d d' -> sound d d'.
Proof.
  intros Hwf Hm. pose proof (fun k z' => moved_lookup d d' k z' Hm) as Hlk. split; [split|].
  - intros i x' j y' Hx Hlx Hin Hy. destruct (Hlk _ _ Hx) as (x & bx & Hx0 & Hx1 & ->), (Hlk _ _ Hy) as (y & by_ & Hy0 & Hy1 & ->).
    apply Hy1, (wf_live _ Hwf i x j y); try done. by apply Hx1.
  - destruct (wf_rank _ Hwf) as [rank Hr]. exists rank. intros i x' j Hx Hl Hv Hin. destruct (Hlk _ _ Hx) as (x & bx & Hx0 & Hx1 & ->).
    apply (Hr i x j); try done. by apply Hx1.
  - intros i x' v Hx Hl Hin. destruct (Hlk _ _ Hx) as (x & bx & Hx0 & Hx1 & ->). apply (wf_vals _ Hwf i x v); try done. by apply Hx1.
  - intros r Hr. exists r. split; [|split].
    + intros i x' Hx Hl. destruct (Hlk _ _ Hx) as (x & bx & Hx0 & Hx1 & ->). apply (Hr i x Hx0). by apply Hx1.
    + intros i x' Hx Hl Ho. destruct (Hlk _ _ Hx) as (x & bx & Hx0 & Hx1 & ->). exists x. split_and!; try done. by apply Hx1.
    + intros i x Hx Hl Ho. destruct (moved_lookup_old d d' i x Hm Hx) as (b & Hx' & Hl'). exists (set_bb b x). split_and!; [done|by apply Hl'|done].
Qed.

Lemma moved_sized f es label d d' : moved d d' -> evenly_sized f es label d -> evenly_sized f es label d'.
Proof.
  intros Hm Hw. pose proof (fun k z' => moved_lookup d d' k z' Hm) as Hlk.
  split; intros k z' Hz Hl; destruct (Hlk _ _ Hz) as (z & b & Hz0 & Hl0 & ->); apply Hl0 in Hl.
  - by apply (ws_reg _ _ _ _ Hw k z).
  - by apply (ws_eq _ _ _ _ Hw k z).
  - by apply (ws_sum _ _ _ _ Hw k z).
  - by apply (ws_order _ _ _ _ Hw k z).
Qed.

(** ** Chains and the table *)

Definition good (f : pseudo -> Z) (es label : Z -> Z) (d : dag) : Prop := wf d /\ evenly_sized f es label d.

(** A computation among the instructions of [d]. *)
Definition computing (d : dag) (i : Z) : Prop := exists x, computes d i x.

Lemma computing_at d i b : bb (insn_at d i) = Some b -> is_value_op (op (insn_at d i)) = true -> computes d i (insn_at d i).
Proof.
  unfold insn_at. destruct (insns d !! i) as [x|] eqn:Hx; [|done]. simpl. intros Hb Hv. split; [done|unfold live; by rewrite Hb|done].
Qed.

Lemma cse_one_keeps f es label d i j x y k : good f es label d -> computes d i x -> computes d j y -> alike x y -> i <> j -> k <> i -> computing d k -> computing (cse_one_instruction i j d) k.
Proof.
  intros [Hwf Hw] Hx Hy Ha Hij Hk [z [Hz Hl Hv]]. exists (subst (REG i) (REG j) z).
  split; [by rewrite (cse_one_lookup d i j x y), Hz|by apply live_subst|by rewrite op_subst].
Qed.

Lemma cse_one_dead_keeps f es label d i j x y k : good f es label d -> computes d i x -> computes d j y -> alike x y -> i <> j -> k <> i -> bb (insn_at d k) = None ->
  bb (insn_at (cse_one_instruction i j d) k) = None.
Proof.
  intros [Hwf Hw] Hx Hy Ha Hij Hk. unfold insn_at. rewrite (cse_one_lookup d i j x y) by done. destruct (insns d !! k) as [z|]; [|done]. simpl.
  by destruct (subst_fields (REG i) (REG j) z) as (_ & _ & -> & _).
Qed.

Lemma moved_dead d d' k : moved d d' -> bb (insn_at d k) = None -> bb (insn_at d' k) = None.
Proof.
  intros H. specialize (H k). unfold insn_at. destruct (insns d !! k) as [z|], (insns d' !! k) as [z'|]; try done. destruct H as [Hl _]. simpl. intros Hb.
  destruct (bb z') eqn:E; [|done]. assert (live z') as H' by (unfold live; by rewrite E). apply Hl in H'. done.
Qed.

(** Gone, or a computation. *)
Definition okay (d : dag) (i : Z) : Prop := bb (insn_at d i) = None \/ computing d i.

Lemma alike_sym x y : alike x y -> alike y x.
Proof.
  destruct 1 as [Eo E1 E2 E3 Es Et|Eo Hc E1 E2].
  - apply alike_same; rewrite <- ?Eo; try done; intros; symmetry; auto.
  - apply alike_swapped; [done|by rewrite <- Eo|done|done].
Qed.

(** What a step of a chain promises: [k] still computes, if it is not one of the two. *)
Lemma try_to_cse_spec f es label ep d i1 i2 : good f es label d -> label i1 = label i2 -> computing d i1 -> computing d i2 -> i1 <> i2 -> insn_compare (insn_at d i1) (insn_at d i2) = 0 ->
  let '(i, d') := try_to_cse ep i1 i2 d in sound d d' /\ evenly_sized f es label d' /\ computing d' i /\ (i = i1 \/ i = i2) /\ forall k, k <> i1 -> k <> i2 -> okay d k -> okay d' k.
Proof.
  intros [Hwf Hw] El [x Hx] [y Hy] Hne Hc. assert (insn_at d i1 = x) as Ex by (unfold insn_at; by rewrite (c_lookup _ _ _ Hx)).
  assert (insn_at d i2 = y) as Ey by (unfold insn_at; by rewrite (c_lookup _ _ _ Hy)). rewrite Ex, Ey in Hc.
  assert (alike x y) as Ha by (apply insn_compare_0; [apply Hx|done]).
  assert (sound d d /\ evenly_sized f es label d) as Hd by (split; [by apply sound_refl|done]).
  assert (computing d i1 /\ computing d i2) as [C1 C2] by (split; eexists; done).
  pose proof (cse_one_sound f es label d i2 i1 y x Hwf Hw (eq_sym El) Hy Hx (alike_sym x y Ha) ltac:(done)) as S21.
  pose proof (cse_one_sound f es label d i1 i2 x y Hwf Hw El Hx Hy Ha ltac:(done)) as S12.
  pose proof (cse_one_sized f es label d i2 i1 y x Hwf Hw (eq_sym El) Hy Hx (alike_sym x y Ha) ltac:(done)) as W21.
  pose proof (cse_one_sized f es label d i1 i2 x y Hwf Hw El Hx Hy Ha ltac:(done)) as W12.
  pose proof (fun k => cse_one_keeps f es label d i2 i1 y x k (conj Hwf Hw) Hy Hx (alike_sym x y Ha) ltac:(done)) as K21.
  pose proof (fun k => cse_one_keeps f es label d i1 i2 x y k (conj Hwf Hw) Hx Hy Ha ltac:(done)) as K12.
  assert (forall k, k <> i1 -> k <> i2 -> okay d k -> okay (cse_one_instruction i2 i1 d) k) as O21.
  { intros k H1 H2 [Hk|Hk]; [left; by apply (cse_one_dead_keeps f es label d i2 i1 y x); [..|apply alike_sym| | |]|right; by apply K21]. }
  assert (forall k, k <> i1 -> k <> i2 -> okay d k -> okay (cse_one_instruction i1 i2 d) k) as O12.
  { intros k H1 H2 [Hk|Hk]; [left; by apply (cse_one_dead_keeps f es label d i1 i2 x y)|right; by apply K12]. }
  unfold try_to_cse. rewrite Ex, Ey. destruct (bb x) as [b1|], (bb y) as [b2|]; try (split_and!; auto; apply Hd).
  destruct (b1 =? b2).
  { destruct (first_of _ i1 i2) as [i|]; [|split_and!; auto; apply Hd]. destruct (i =? i1); split_and!; auto. }
  destruct (domtree_dominates ep b1 b2); [split_and!; auto|]. destruct (domtree_dominates ep b2 b1); [split_and!; auto|].
  destruct (trivial_common_parent ep b1 b2) as [c|]; [|split_and!; auto; apply Hd].
  destruct (K21 i1 Hne C1) as [z [Hz Hl Hv]].
  assert (moved (cse_one_instruction i2 i1 d) (insert_last_instruction c i1 (remove_instruction b1 i1 (cse_one_instruction i2 i1 d)))) as Hm.
  { by apply (moved_modify _ i1 c z Hz Hl). }
  split; [apply (sound_trans _ _ _ S21); intros Hwf'; by apply moved_sound|]. split; [by apply (moved_sized _ _ _ _ _ Hm)|].
  assert (forall k, computing (cse_one_instruction i2 i1 d) k -> computing (insert_last_instruction c i1 (remove_instruction b1 i1 (cse_one_instruction i2 i1 d))) k) as Hmc.
  { intros k [w [Hw1 Hw2 Hw3]]. destruct (moved_lookup_old _ _ k w Hm Hw1) as (b & Hb & Hlb). exists (set_bb b w). split; [done|by apply Hlb|done]. }
  split; [apply Hmc; by exists z|]. split; [by left|]. intros k Hk1 Hk2 Hk.
  destruct (O21 k Hk1 Hk2 Hk) as [Hd'|Hc']; [left; by apply (moved_dead _ _ k Hm)|right; by apply Hmc].
Qed.

Lemma sound_wf d d' : sound d d' -> wf d'.
Proof. by intros [? _]. Qed.

Section walk.
Context (f : pseudo -> Z) (es label : Z -> Z) (ep : entrypoint).

(** What else the steps keep. *)
Context (P : dag -> Prop).
Context (HP : forall d i1 i2, wf d -> evenly_sized f es label d -> label i1 = label i2 -> P d -> computing d i1 -> computing d i2 -> i1 <> i2 ->
  insn_compare (insn_at d i1) (insn_at d i2) = 0 -> P (try_to_cse ep i1 i2 d).2).

Definition kept (d : dag) : Prop := evenly_sized f es label d /\ P d.

Lemma cse_walk_sound h l last d : wf d -> kept d -> NoDup l -> Forall (okay d) l -> Forall (fun i => label i = h) l ->
  (match last with Some k => (k ∉ l) /\ computing d k /\ label k = h | None => True end) ->
  sound d (foldl (cse_step ep) (last, d) l).2 /\ kept (foldl (cse_step ep) (last, d) l).2 /\
  forall k, k ∉ l -> last <> Some k -> okay d k -> okay (foldl (cse_step ep) (last, d) l).2 k.
Proof.
  revert last d. induction l as [|i l IH]; intros last d Hwf Hw Hnd Hok Hlab Hlast; [split; [by apply sound_refl|done]|].
  apply list.NoDup_cons in Hnd as [Hni Hnd]. apply list.Forall_cons in Hok as [Hi Hok]. apply list.Forall_cons in Hlab as [Hli Hlab].
  cbn [foldl]. unfold cse_step at 2 4 6. destruct (bb (insn_at d i)) as [b|] eqn:Eb.
  2:{ destruct (IH last d Hwf Hw Hnd Hok Hlab) as (H1 & H2 & H3); [destruct last as [k|]; [|done]; destruct Hlast as [Hk ?]; split; [by apply not_elem_of_cons in Hk as [_ ?]|done]|].
      split; [done|]. split; [done|]. intros k [_ Hk]%not_elem_of_cons. by apply H3. }
  destruct Hi as [Hi|Hi]; [congruence|]. destruct last as [k|].
  - destruct Hlast as ([Hki Hkl]%not_elem_of_cons & Hk & Hlk). destruct (Z.eqb_spec (insn_compare (insn_at d k) (insn_at d i)) 0) as [Ec|_].
    + assert (label k = label i) as El by congruence. pose proof (try_to_cse_spec f es label ep d k i (conj Hwf (proj1 Hw)) El Hk Hi Hki Ec) as Hspec.
      pose proof (HP d k i Hwf (proj1 Hw) El (proj2 Hw) Hk Hi Hki Ec) as HP'. destruct (try_to_cse ep k i d) as [w d'].
      destruct Hspec as (Hs & Hw' & Hcw & Hwk & Hkeep). destruct (IH (Some w) d' (sound_wf _ _ Hs) (conj Hw' HP') Hnd) as (H1 & H2 & H3).
      * apply list.Forall_forall. intros u Hu; rewrite list.Forall_forall in Hok; apply Hkeep; [by intros ->|by intros ->|by apply Hok].
      * done.
      * split; [|split; [done|]]; destruct Hwk as [->| ->]; done.
      * split; [by apply (sound_trans _ _ _ Hs)|]. split; [done|]. intros u [Hui Hul]%not_elem_of_cons Hlu Hu. assert (u <> k) by congruence.
        apply H3; [done|destruct Hwk as [->| ->]; congruence|by apply Hkeep].
    + destruct (IH (Some i) d Hwf Hw Hnd Hok Hlab) as (H1 & H2 & H3); [done|]. split; [done|]. split; [done|]. intros u [Hui Hul]%not_elem_of_cons _ Hu. apply H3; [done|congruence|done].
  - destruct (IH (Some i) d Hwf Hw Hnd Hok Hlab) as (H1 & H2 & H3); [done|]. split; [done|]. split; [done|]. intros u [Hui Hul]%not_elem_of_cons _ Hu. apply H3; [done|congruence|done].
Qed.

End walk.

Lemma chain_entries fuel a l : (length l <= fuel)%nat -> entries (chain_from fuel a l) = l.
Proof.
  revert a l. induction fuel as [|fuel IH]; intros a l Hf; [by destruct l; [|simpl in Hf; lia]|]. destruct l as [|x l]; [done|]. cbn [chain_from]. rewrite ring_entries_cons, IH.
  - apply take_drop.
  - rewrite length_drop. simpl in *. lia.
Qed.

Lemma sort_instruction_list_perm d l : exists l', sort_instruction_list d l = Some l' /\ l' ≡ₚ l.
Proof.
  unfold sort_instruction_list. destruct (sorted_same (fun i j => insn_compare (insn_at d i) (insn_at d j)) (chain l)) as (r & -> & Hr & _).
  exists (entries r). split; [done|]. rewrite Hr. unfold chain. by rewrite chain_entries.
Qed.

Section chains.
Context (f : pseudo -> Z) (es label : Z -> Z) (ep : entrypoint) (P : dag -> Prop).
Context (HP : forall d i1 i2, wf d -> evenly_sized f es label d -> label i1 = label i2 -> P d -> computing d i1 -> computing d i2 -> i1 <> i2 ->
  insn_compare (insn_at d i1) (insn_at d i2) = 0 -> P (try_to_cse ep i1 i2 d).2).

Lemma cse_chain_sound h l d : wf d -> kept f es label P d -> NoDup l -> Forall (okay d) l -> Forall (fun i => label i = h) l -> exists d', cse_chain ep l d = Some d' /\ sound d d' /\ kept f es label P d' /\
  forall k, k ∉ l -> okay d k -> okay d' k.
Proof.
  intros Hwf Hg Hnd Hok Hlab. unfold cse_chain. destruct (1 <? length l)%nat; [|exists d; split; [done|]; split; [by apply sound_refl|done]].
  destruct (sort_instruction_list_perm d l) as (l' & -> & Hl). simpl. eexists. split; [done|].
  destruct (cse_walk_sound f es label ep P HP h l' None d Hwf Hg) as (H1 & H2 & H3); [by rewrite Hl|by rewrite Hl|by rewrite Hl|done|]. split; [done|]. split; [done|]. intros k Hk. apply H3; [by rewrite Hl|done].
Qed.

(** The chains hold computations, each instruction once. *)
Record table_ok (t : insn_hash_table) (d : dag) : Prop := {
  tb_nodup : forall h l, t !! h = Some l -> NoDup l;
  tb_okay : forall h l, t !! h = Some l -> Forall (okay d) l;
  tb_apart : forall h1 l1 h2 l2 i, t !! h1 = Some l1 -> t !! h2 = Some l2 -> i ∈ l1 -> i ∈ l2 -> h1 = h2
}.

Lemma cse_eliminate_spec t d : wf d -> kept f es label P d -> table_ok t d -> (forall h l, t !! h = Some l -> Forall (fun i => label i = h) l) -> exists d', cse_eliminate ep t d = Some d' /\ sound d d' /\ kept f es label P d'.
Proof.
  intros Hwf Hg [Hn Hok Ha] Hlab. unfold cse_eliminate.
  assert (forall hs d1, NoDup hs -> wf d1 -> kept f es label P d1 -> (forall h l, h ∈ hs -> t !! h = Some l -> Forall (okay d1) l) ->
    exists d2, foldl (fun d i => d ← d; match t !! i with Some l => cse_chain ep l d | None => Some d end) (Some d1) hs = Some d2 /\ sound d1 d2 /\ kept f es label P d2) as H.
  { induction hs as [|h hs IH]; intros d1 Hnd Hwf1 Hg1 Hok1; [exists d1; split; [done|]; split; [by apply sound_refl|done]|].
    apply list.NoDup_cons in Hnd as [Hnh Hnd]. simpl. destruct (t !! h) as [l|] eqn:Hl.
    - destruct (cse_chain_sound h l d1 Hwf1 Hg1 (Hn h l Hl) (Hok1 h l ltac:(by left) Hl) (Hlab h l Hl)) as (d2 & -> & S2 & W2 & K2).
      destruct (IH d2 Hnd (sound_wf _ _ S2) W2) as (d3 & E3 & S3 & W3).
      + intros h' l' Hh' Hl'. apply list.Forall_forall. intros i Hi. apply K2.
        * intros Hil. assert (h = h') as -> by (by apply (Ha h l h' l' i)). done.
        * assert (Forall (okay d1) l') as Hf by (apply (Hok1 h'); [by right|done]). rewrite list.Forall_forall in Hf. by apply Hf.
      + exists d3. split; [done|]. split; [by apply (sound_trans _ _ _ S2)|done].
    - apply IH; [done|done|done|]. intros h' l' Hh' Hl'. apply (Hok1 h'); [by right|done]. }
  apply H; [apply NoDup_seqZ|done|done|]. intros h l _ Hl. by apply (Hok h).
Qed.
End chains.

(** ** Collecting *)

Definition collect (d : dag) (l : list Z) : insn_hash_table := foldl (fun t i => cse_collect i d t) ∅ l.

Lemma cse_hash_op x h : cse_hash x = Some h -> is_value_op (op x) = true.
Proof. unfold cse_hash, hash_operands. by destruct (op x). Qed.

Lemma cse_hash_range x h : cse_hash x = Some h -> 0 <= h < INSN_HASH_SIZE.
Proof.
  unfold cse_hash. destruct (hash_operands x) as [k|]; [|done]. simpl. intros [= <-]. change (INSN_HASH_SIZE - 1) with (Z.ones 8). rewrite Z.land_ones by lia.
  unfold INSN_HASH_SIZE. change 256 with (2 ^ 8). apply Z.mod_pos_bound. lia.
Qed.

Lemma collect_elem d l h c i : collect d l !! h = Some c -> i ∈ c -> i ∈ l /\ cse_hash (insn_at d i) = Some h.
Proof.
  revert h c i. unfold collect. induction l as [|j l IH] using rev_ind; intros h c i; [intros H; cbn [foldl] in H; by rewrite lookup_empty in H|]. rewrite foldl_app. simpl. unfold cse_collect.
  assert (forall c', foldl (fun t i => cse_collect i d t) ∅ l !! h = Some c' -> i ∈ c' -> i ∈ l ++ [j] /\ cse_hash (insn_at d i) = Some h) as Hold.
  { intros c' Hc Hi. destruct (IH h c' i Hc Hi). split; [rewrite elem_of_app; auto|done]. }
  destruct (cse_hash (insn_at d j)) as [hj|] eqn:Eh; [|apply Hold]. destruct (decide (hj = h)) as [->|Hne]; [|rewrite lookup_insert_ne by done; apply Hold].
  rewrite lookup_insert_eq. intros [= <-] [Hi|Hi]%elem_of_app.
  - destruct (foldl _ ∅ l !! h) as [c'|] eqn:Ec; [by apply (Hold c')|by apply elem_of_nil in Hi].
  - apply list_elem_of_singleton in Hi as ->. split; [rewrite elem_of_app; right; apply list_elem_of_here|done].
Qed.

Lemma collect_nodup d l h c : NoDup l -> collect d l !! h = Some c -> NoDup c.
Proof.
  revert h c. unfold collect. induction l as [|j l IH] using rev_ind; intros h c Hnd; [intros H; cbn [foldl] in H; by rewrite lookup_empty in H|]. rewrite foldl_app. simpl. unfold cse_collect.
  apply list.NoDup_app in Hnd as (Hl & Hj & _). destruct (cse_hash (insn_at d j)) as [hj|] eqn:Eh; [|by apply IH].
  destruct (decide (hj = h)) as [->|Hne]; [|rewrite lookup_insert_ne by done; by apply IH]. rewrite lookup_insert_eq. intros [= <-].
  apply list.NoDup_app. destruct (foldl _ ∅ l !! h) as [c'|] eqn:Ec; simpl; (split_and!; [|intros i Hi ->%list_elem_of_singleton|apply NoDup_singleton]).
  - by apply (IH h).
  - destruct (collect_elem d l h c' j Ec Hi) as [Hin _]. apply (Hj j Hin), list_elem_of_here.
  - apply NoDup_nil_2.
  - by apply elem_of_nil in Hi.
Qed.

Lemma collect_ok d l : NoDup l -> table_ok (collect d l) d.
Proof.
  intros Hnd. split.
  - intros h c. by apply collect_nodup.
  - intros h c Hc. apply list.Forall_forall. intros i Hi. destruct (collect_elem d l h c i Hc Hi) as [_ Hh]. destruct (bb (insn_at d i)) as [b|] eqn:Eb; [right|by left].
    exists (insn_at d i). apply (computing_at d i b); [done|by apply cse_hash_op in Hh].
  - intros h1 l1 h2 l2 i H1 H2 Hi1 Hi2. destruct (collect_elem d l h1 l1 i H1 Hi1) as [_ E1]. destruct (collect_elem d l h2 l2 i H2 Hi2) as [_ E2]. congruence.
Qed.

(** The chain of an instruction. *)
Definition chain_of (d : dag) (i : Z) : Z := default (-1) (cse_hash (insn_at d i)).

Lemma collect_labels d l h c : collect d l !! h = Some c -> Forall (fun i => chain_of d i = h) c.
Proof. intros Hc. apply list.Forall_forall. intros i Hi. unfold chain_of. by destruct (collect_elem d l h c i Hc Hi) as [_ ->]. Qed.

(** Equal instructions are in one chain. *)
Lemma alike_hash x y hx hy : alike x y -> size x = size y -> cse_hash x = Some hx -> cse_hash y = Some hy -> hx = hy.
Proof.
  intros Ha Es Hx Hy. pose proof (cse_hash_op x hx Hx) as Hv. pose proof (alike_op x y Ha) as Eo. enough (hash_operands x = hash_operands y) as E.
  { unfold cse_hash in Hx, Hy. rewrite E, Eo, Es in Hx. congruence. }
  unfold cse_hash in Hx, Hy. destruct (hash_operands x) as [kx|] eqn:Kx; [|done]. destruct (hash_operands y) as [ky|] eqn:Ky; [|done]. clear Hx Hy. rewrite <- Kx, <- Ky.
  unfold hash_operands in *. rewrite <- Eo in *. destruct Ha as [_ E1 E2 E3 _ Et|_ Hc E1 E2].
  - unfold itype in Et. destruct (op x); try done; cbn in *; rewrite ?E1, ?E2, ?E3 by done; try done; destruct (u3 x), (u3 y); try done; by rewrite Et.
  - rewrite E1, E2. destruct (op x); try done; f_equal; lia.
Qed.
End cse.
