(* ===== verification/CsePlaces.v ===== *)
(** * Common subexpressions: executions

    What runs on a path through the blocks, the instructions in their places, and the executions of a graph along a path.  Elimination
    keeps the instructions in their places, and what the other instructions (loads, stores, calls, jumps) are given. *)
From stdpp Require Import base option gmap list relations.
From S2P Require Import Prelude Bits Simplify SimplifyFacts Flowgraph FlowgraphDfs FlowgraphDom FlowgraphTheorems Sort SortTheorems Cse CseFacts.
#[local] Open Scope Z_scope.

(** ** What has run *)

Definition insns_of (d : dag) (b : Z) : list Z := default [] (bbs d !! b).

Lemma executed_fold d l acc r : r ∈ foldl (fun acc c => default [] (bbs d !! c) ++ acc) acc l <-> (exists e, e ∈ l /\ r ∈ insns_of d e) \/ r ∈ acc.
Proof.
  revert acc. induction l as [|c l IH]; intros acc; simpl.
  - split; [by right|]. intros [(e & He & _)|?]; [by apply elem_of_nil in He|done].
  - rewrite IH, elem_of_app. split.
    + intros [(e & He & Hr)|[Hr|Hr]]; [left; exists e; split; [by right|done]|left; exists c; split; [by left|done]|by right].
    + intros [(e & [->|He]%elem_of_cons & Hr)|Hr]; [by right; left|left; by exists e|by right; right].
Qed.

Lemma executed_elem d c l u r : r ∈ executed d (c :: l) u <-> (exists e, e ∈ l /\ r ∈ insns_of d e) \/ r ∈ upto (insns_of d c) u.
Proof. apply executed_fold. Qed.

Lemma upto_elem l u r : r ∈ upto l u -> r ∈ l.
Proof.
  induction l as [|i l IH]; simpl; [done|]. destruct (i =? u); [by intros ?%elem_of_nil|]. intros [->|H]%elem_of_cons; [by left|right; by apply IH].
Qed.

Lemma upto_all l u r : u ∉ l -> r ∈ l -> r ∈ upto l u.
Proof.
  induction l as [|i l IH]; simpl; [done|]. intros [Hu Hul]%not_elem_of_cons. destruct (Z.eqb_spec i u); [congruence|]. intros [->|H]%elem_of_cons; [by left|right; by apply IH].
Qed.

Lemma upto_self l u : u ∉ upto l u.
Proof. induction l as [|i l IH]; simpl; [apply not_elem_of_nil|]. destruct (Z.eqb_spec i u); [apply not_elem_of_nil|]. by apply not_elem_of_cons. Qed.

Lemma upto_trans l j i u : j ∈ upto l i -> i ∈ upto l u -> j ∈ upto l u.
Proof.
  induction l as [|k l IH]; simpl; [done|]. destruct (Z.eqb_spec k i) as [->|Hki]; [by intros ?%elem_of_nil|]. destruct (Z.eqb_spec k u); [by intros _ ?%elem_of_nil|].
  intros [->|Hj]%elem_of_cons; [by left|]. intros [->|Hi]%elem_of_cons; [done|]. right. by apply IH.
Qed.

Lemma upto_app l1 l2 u r : u ∉ l1 -> r ∈ upto (l1 ++ l2) u <-> r ∈ l1 \/ r ∈ upto l2 u.
Proof.
  induction l1 as [|i l1 IH]; simpl; [intros _; split; [by right|intros [?%elem_of_nil|?]; done]|]. intros [Hu Hul]%not_elem_of_cons.
  destruct (Z.eqb_spec i u); [congruence|]. rewrite !elem_of_cons, IH by done. tauto.
Qed.

Lemma upto_app_in l1 l2 u : u ∈ l1 -> upto (l1 ++ l2) u = upto l1 u.
Proof. induction l1 as [|i l1 IH]; simpl; [by intros ?%elem_of_nil|]. destruct (Z.eqb_spec i u); [done|]. intros [?|H]%elem_of_cons; [congruence|]. by rewrite IH. Qed.

Lemma first_of_before l i1 i2 i : i1 <> i2 -> first_of l i1 i2 = Some i -> (i1 ∈ l) -> (i2 ∈ l) ->
  i = i1 /\ i1 ∈ upto l i2 \/ i = i2 /\ i2 ∈ upto l i1.
Proof.
  intros Hne. induction l as [|k l IH]; [done|]. simpl. destruct (Z.eqb_spec k i1) as [->|H1].
  - intros [= <-] _ _. left. destruct (Z.eqb_spec i1 i2); [done|]. split; [done|by left].
  - destruct (Z.eqb_spec k i2) as [->|H2]; [intros [= <-] _ _; right; split; [done|by left]|].
    intros E [?|Hi1]%elem_of_cons [?|Hi2]%elem_of_cons; try congruence. destruct (IH E Hi1 Hi2) as [[-> H]|[-> H]]; [left|right]; (split; [done|by right]).
Qed.

Lemma remove_first_elem i l k : k <> i -> k ∈ remove_first i l <-> k ∈ l.
Proof.
  intros Hk. induction l as [|j l IH]; simpl; [done|]. destruct (Z.eqb_spec j i) as [->|Hj]; rewrite elem_of_cons; [split; [by right|intros [?|?]; done]|]. by rewrite elem_of_cons, IH.
Qed.

Lemma remove_first_gone i l : NoDup l -> i ∉ remove_first i l.
Proof.
  induction l as [|j l IH]; simpl; [intros _; apply not_elem_of_nil|]. intros [Hj Hn]%list.NoDup_cons. destruct (Z.eqb_spec j i) as [->|Hji]; [done|].
  apply not_elem_of_cons. split; [done|by apply IH].
Qed.

Lemma remove_first_nodup i l : NoDup l -> NoDup (remove_first i l).
Proof.
  induction l as [|j l IH]; simpl; [done|]. intros [Hj Hn]%list.NoDup_cons. destruct (Z.eqb_spec j i) as [->|Hji]; [done|].
  apply NoDup_cons_2; [|by apply IH]. by rewrite remove_first_elem.
Qed.

Lemma remove_first_upto i l u r : u <> i -> r <> i -> r ∈ upto l u -> r ∈ upto (remove_first i l) u.
Proof.
  intros Hu Hr. induction l as [|j l IH]; simpl; [done|]. destruct (Z.eqb_spec j u) as [->|Hj]; [by intros ?%elem_of_nil|].
  intros H. destruct (Z.eqb_spec j i) as [->|Hji].
  - by apply elem_of_cons in H as [?|H].
  - simpl. destruct (Z.eqb_spec j u); [done|]. apply elem_of_cons in H as [->|H]; [by left|right; by apply IH].
Qed.

Lemma last_split (l : list Z) : l <> [] -> l = removelast l ++ [List.last l 0].
Proof. apply app_removelast_last. Qed.

(** ** Executions *)

(** The result of an instruction is written to its register. *)
Definition write (r : valuation) (i v : Z) : valuation := fun k => if k =? i then v else r k.

(** One of the other instructions has run: its operands and its result. *)
Record event : Type := Event { ev_insn : Z; ev_op : opcode; ev_args : list Z; ev_result : Z }.

Section steps.
Context `{At : Atoms}.

(** The values of the operands of an instruction, put together. *)
Definition result (r : valuation) (x : insn) : option Z := sem x (val r (src1 x)) (val r (src2 x)) (val r (src3 x)).

(** [steps d r l t r']: the instructions [l] run one after the other, from the registers [r] to [r'], with the events [t].  What
    was killed does not run; an operator that has no result, such as a division by zero, stops the execution; what the
    other instructions give back is up to their surroundings. *)
Inductive steps (d : dag) : valuation -> list Z -> list event -> valuation -> Prop :=
| steps_done r : steps d r [] [] r
| steps_dead r i l t r' : (forall x, insns d !! i = Some x -> bb x = None) -> steps d r l t r' -> steps d r (i :: l) t r'
| steps_value r i x l t v r' : insns d !! i = Some x -> live x -> is_value_op (op x) = true -> result r x = Some v ->
    steps d (write r i v) l t r' -> steps d r (i :: l) t r'
| steps_other r i x l t v r' : insns d !! i = Some x -> live x -> is_value_op (op x) = false ->
    steps d (write r i v) l t r' -> steps d r (i :: l) (Event i (op x) (val r <$> operands x) v :: t) r'.

(** All instructions of the blocks of a path, whose last block is the head of the list. *)
Fixpoint whole (d : dag) (l : list Z) : list Z :=
  match l with
  | [] => []
  | b :: l => whole d l ++ insns_of d b
  end.

Lemma write_same r i v : write r i v i = v.
Proof. unfold write. by rewrite Z.eqb_refl. Qed.

Lemma write_other r i v k : k <> i -> write r i v k = r k.
Proof. intros H. unfold write. by destruct (Z.eqb_spec k i). Qed.

Lemma steps_app d r l1 l2 t r' : steps d r (l1 ++ l2) t r' <-> exists t1 t2 r1, t = t1 ++ t2 /\ steps d r l1 t1 r1 /\ steps d r1 l2 t2 r'.
Proof.
  split.
  - revert r t. induction l1 as [|i l1 IH]; intros r t; [intros H; exists [], t, r; split_and!; [done|constructor|done]|].
    cbn [app]. intros H. inversion H as [|? ? ? ? ? Hd Hs|? ? x ? ? v ? Hx Hl Hv Hr Hs|? ? x ? t0 v ? Hx Hl Hv Hs]; subst.
    + destruct (IH r t Hs) as (t1 & t2 & r1 & -> & J1 & J2). exists t1, t2, r1. split_and!; [done|by apply steps_dead|done].
    + destruct (IH (write r i v) t Hs) as (t1 & t2 & r1 & -> & J1 & J2). exists t1, t2, r1. split_and!; [done|by eapply steps_value|done].
    + destruct (IH (write r i v) t0 Hs) as (t1 & t2 & r1 & -> & J1 & J2). eexists (_ :: t1), t2, r1. split_and!; [reflexivity|by eapply steps_other|done].
  - intros (t1 & t2 & r1 & -> & H1 & H2). induction H1; cbn; [done|by apply steps_dead; auto|eapply steps_value; eauto|eapply steps_other; eauto].
Qed.

(** A register that no live instruction writes. *)
Lemma steps_keep d r l t r' k : steps d r l t r' -> (forall x, insns d !! k = Some x -> live x -> k ∉ l) -> r' k = r k.
Proof.
  induction 1 as [|r i l t r' Hd Hs IH|r i x l t v r' Hx Hl Hv Hr Hs IH|r i x l t v r' Hx Hl Hv Hs IH]; intros Hk; [done|..].
  - apply IH. intros x Hx Hl Hin. apply (Hk x Hx Hl). by right.
  - assert (k <> i) by (intros ->; apply (Hk x Hx Hl), list_elem_of_here). rewrite IH; [by apply write_other|]. intros y Hy Hly Hin. apply (Hk y Hy Hly). by right.
  - assert (k <> i) by (intros ->; apply (Hk x Hx Hl), list_elem_of_here). rewrite IH; [by apply write_other|]. intros y Hy Hly Hin. apply (Hk y Hy Hly). by right.
Qed.

Lemma executed_whole d b l u : executed d (b :: l) u = whole d l ++ upto (insns_of d b) u.
Proof.
  unfold executed. change (default [] (bbs d !! b)) with (insns_of d b). generalize (upto (insns_of d b) u). induction l as [|c l IH]; intros acc; [done|].
  cbn [foldl whole]. rewrite IH. change (default [] (bbs d !! c)) with (insns_of d c). by rewrite <- app_assoc.
Qed.

(** The result depends on the operands. *)
Lemma result_operands r r' x x' : op x' = op x -> size x' = size x -> (op x <> OP_SEL -> itype x' = itype x) -> is_value_op (op x) = true ->
  val r' <$> operands x' = val r <$> operands x -> result r' x' = result r x.
Proof.
  intros Eo Es Ei Hv Hop. unfold result. symmetry. unfold operands in Hop. rewrite Eo in Hop.
  apply sem_alike; [done|done| |destruct (op x); done || (injection Hop; congruence)..].
  intros H. symmetry. apply Ei. intros E. rewrite E in H. by destruct H.
Qed.
End steps.

Lemma upto_split l k u m : NoDup l -> l = k ++ u :: m -> upto l u = k.
Proof.
  intros Hn ->. apply list.NoDup_app in Hn as (_ & Hk & _). assert (u ∉ k) as Hu by (intros H; apply (Hk u H); apply list_elem_of_here). clear Hk.
  induction k as [|a k IH]; cbn; [by rewrite Z.eqb_refl|]. apply not_elem_of_cons in Hu as [Hua Hu]. destruct (Z.eqb_spec a u); [congruence|]. by rewrite IH.
Qed.

Lemma upto_prefix l u : exists m, l = upto l u ++ m.
Proof. induction l as [|a l [m IH]]; [by exists []|]. cbn. destruct (a =? u); [by exists (a :: l)|]. exists m. cbn. by rewrite <- IH. Qed.

Lemma app_cons_inv {A} (k1 k2 l1 l2 : list A) a : k1 ++ k2 = l1 ++ a :: l2 ->
  (exists k, k1 = l1 ++ a :: k /\ l2 = k ++ k2) \/ (exists k, l1 = k1 ++ k /\ k2 = k ++ a :: l2).
Proof.
  intros [(k & -> & E)|(k & -> & ->)]%app_eq_inv; [|by right; exists k]. destruct k as [|b k]; [right; exists []; rewrite !app_nil_r; by split|].
  injection E as -> ->. left. by exists k.
Qed.

Lemma last_occurrence (l : list Z) i : i ∈ l -> exists l1 l2, l = l1 ++ i :: l2 /\ i ∉ l2.
Proof.
  induction l as [|a l IH]; [by intros ?%elem_of_nil|]. intros Hi. destruct (decide (i ∈ l)) as [Hl|Hl].
  - destruct (IH Hl) as (l1 & l2 & -> & Hn). by exists (a :: l1), l2.
  - apply elem_of_cons in Hi as [<-|?]; [|done]. by exists [], l.
Qed.

(** ** Instructions in their places *)

Section places.
Context `{Ad : Addresses} `{At : Atoms} (ep : entrypoint).

#[local] Abbreviation paths := (path (blocks ep) (entry ep)).
#[local] Abbreviation reached := (rtc (edge (blocks ep)) (entry ep)).

(** A live instruction is in its block, which can be reached, and in no other; a block ends with an instruction that defines nothing; and a register that
    is used has run on every path to its use. *)
Record in_place (d : dag) : Prop := {
  ip_in : forall i x b, insns d !! i = Some x -> bb x = Some b -> i ∈ insns_of d b;
  ip_unique : forall i x b c, insns d !! i = Some x -> bb x = Some b -> i ∈ insns_of d c -> c = b;
  ip_nodup : forall b, NoDup (insns_of d b);
  ip_reach : forall i x b, insns d !! i = Some x -> bb x = Some b -> reached b;
  ip_last : forall b, is_Some (blocks ep !! b) -> insns_of d b <> [] /\ ~ computing d (List.last (insns_of d b) 0) /\
    forall i x, insns d !! i = Some x -> live x -> REG (List.last (insns_of d b) 0) ∉ operands x;
  ip_run : forall u x b r y l, insns d !! u = Some x -> bb x = Some b -> REG r ∈ operands x -> insns d !! r = Some y -> paths b l -> r ∈ executed d l u
}.

Lemma live_bb x : live x -> exists b, bb x = Some b.
Proof. unfold live. destruct (bb x) as [b|]; [by exists b|done]. Qed.

Lemma bb_live x b : bb x = Some b -> live x.
Proof. unfold live. by intros ->. Qed.

(** What runs before [i] runs before what [i] runs before. *)
Lemma run_trans d i x b j : in_place d -> insns d !! i = Some x -> bb x = Some b -> (forall l, paths b l -> j ∈ executed d l i) ->
  forall u c l, paths c l -> i ∈ executed d l u -> j ∈ executed d l u.
Proof.
  intros Hp Hx Hb Hbefore u c l Hl. destruct (path_last _ _ _ _ Hl) as [l' ->]. rewrite !executed_elem. intros [(e & He & Hi)|Hi].
  - assert (e = b) as -> by (by apply (ip_unique _ Hp i x b e)). destruct (path_at _ _ _ _ b Hl) as (l1 & l2 & El & Hl2); [by right|].
    left. destruct (path_last _ _ _ _ Hl2) as [l2' ->]. specialize (Hbefore _ Hl2). rewrite executed_elem in Hbefore.
    destruct Hbefore as [(e & He' & Hj)|Hj%upto_elem]; [|by exists b]. exists e. split; [|done]. destruct l1 as [|a l1]; injection El as -> ->; [done|].
    rewrite elem_of_app. right. by right.
  - assert (c = b) as -> by (apply (ip_unique _ Hp i x b c Hx Hb); by apply upto_elem in Hi). specialize (Hbefore _ Hl). rewrite executed_elem in Hbefore.
    destruct Hbefore as [?|Hj]; [by left|right]. by apply upto_trans with i.
Qed.

Section one.
Context (d : dag) (i j : Z) (x y : insn) (bi bj : Z).
Context (Hwf : wf d) (Hp : in_place d) (Hx : computes d i x) (Hy : computes d j y) (Ha : alike x y) (Hij : i <> j) (Hbi : bb x = Some bi) (Hbj : bb y = Some bj).

Lemma cse_one_of k z : insns (cse_one_instruction i j d) !! k = Some z -> live z ->
  k <> i /\ exists z0, insns d !! k = Some z0 /\ live z0 /\ bb z0 = bb z /\ forall p, p ∈ operands z -> p = REG j /\ REG i ∈ operands z0 \/ p ∈ operands z0 /\ p <> REG i.
Proof.
  intros Hz Hl. destruct (cse_one_live d i j x y Hwf Hx Hy Ha Hij k z Hz Hl) as (Hk & z0 & Hz0 & Hl0 & ->). split; [done|]. exists z0. split_and!; [done|done| |].
  - symmetry. apply subst_fields.
  - intros p. rewrite operands_subst. apply elem_swap.
Qed.

Lemma cse_one_computing k : computing (cse_one_instruction i j d) k -> computing d k.
Proof.
  intros [z [Hz Hl Hv]]. destruct (cse_one_live d i j x y Hwf Hx Hy Ha Hij k z Hz Hl) as (Hk & z0 & Hz0 & Hl0 & ->). exists z0. split; [done|done|]. by rewrite op_subst in Hv.
Qed.

Lemma insns_of_one b : insns_of (cse_one_instruction i j d) b = insns_of d b.
Proof. unfold insns_of. by rewrite (cse_one_bbs d i j x y). Qed.

Lemma executed_one l u : executed (cse_one_instruction i j d) l u = executed d l u.
Proof. destruct l; [done|]. simpl. by rewrite (cse_one_bbs d i j x y). Qed.

(** All but the last property, wherever the two are. *)
Lemma cse_one_last b : is_Some (blocks ep !! b) -> insns_of d b <> [] /\ ~ computing (cse_one_instruction i j d) (List.last (insns_of d b) 0) /\
  forall k z, insns (cse_one_instruction i j d) !! k = Some z -> live z -> REG (List.last (insns_of d b) 0) ∉ operands z.
Proof.
  intros Hb. destruct (ip_last _ Hp b Hb) as (Hn & Hc & Hu). split_and!; [done|intros H; by apply Hc, cse_one_computing|].
  intros k z Hz Hl Hin. destruct (cse_one_of k z Hz Hl) as (_ & z0 & Hz0 & Hl0 & _ & Hop). destruct (Hop _ Hin) as [[[= E] _]|[H _]].
  - apply Hc. rewrite E. by exists y.
  - by apply (Hu k z0).
Qed.

Lemma cse_one_in_place : (forall l, paths bi l -> j ∈ executed d l i) -> in_place (cse_one_instruction i j d).
Proof.
  intros Hbefore. split.
  - intros k z b Hz Hb. destruct (cse_one_of k z Hz (bb_live z b Hb)) as (_ & z0 & Hz0 & _ & Eb & _). rewrite insns_of_one. apply (ip_in _ Hp k z0 b Hz0). congruence.
  - intros k z b c Hz Hb. destruct (cse_one_of k z Hz (bb_live z b Hb)) as (_ & z0 & Hz0 & _ & Eb & _). rewrite insns_of_one. apply (ip_unique _ Hp k z0 b c Hz0). congruence.
  - intros b. rewrite insns_of_one. apply Hp.
  - intros k z b Hz Hb. destruct (cse_one_of k z Hz (bb_live z b Hb)) as (_ & z0 & Hz0 & _ & Eb & _). apply (ip_reach _ Hp k z0 b Hz0). congruence.
  - intros b Hb. rewrite insns_of_one. by apply cse_one_last.
  - intros u z b r w l Hz Hb Hr Hw Hl. rewrite executed_one. destruct (cse_one_of u z Hz (bb_live z b Hb)) as (_ & z0 & Hz0 & _ & Eb & Hop). rewrite Hb in Eb.
    destruct (Hop _ Hr) as [[[= ->] Hi]|[Hr0 Hri]].
    + apply (run_trans d i x bi j Hp (c_lookup _ _ _ Hx) Hbi Hbefore u b l Hl). by apply (ip_run _ Hp u z0 b i x l Hz0 Eb Hi (c_lookup _ _ _ Hx)).
    + assert (r <> i) as Hri' by congruence. rewrite (cse_one_lookup d i j x y) in Hw by done. apply fmap_Some in Hw as (w0 & Hw0 & _).
      by apply (ip_run _ Hp u z0 b r w0 l).
Qed.
End one.

(** *** A move to the block before both *)

Context (Hpar : forall b x p, blocks ep !! b = Some x -> reached b -> p ∈ parents x <-> edge (blocks ep) p b /\ reached p).
Context (Hent : forall x, blocks ep !! entry ep = Some x -> parents x = []).
Context (Hblocks : forall b, reached b -> is_Some (blocks ep !! b)).
Context (Hdom : forall a b, is_Some (blocks ep !! a) -> reached b -> domtree_dominates ep a b = true -> dominates (blocks ep) (entry ep) a b).

Definition only_parent (c b : Z) : Prop := parents <$> blocks ep !! b = Some [c].

Lemma only_parent_path c b l : only_parent c b -> paths b l -> exists l', l = b :: c :: l' /\ paths c (c :: l').
Proof.
  intros Hc Hl. unfold only_parent in Hc. destruct (blocks ep !! b) as [x|] eqn:Hx; [|done]. injection Hc as Hc.
  assert (reached b) as Hb by (destruct (path_last _ _ _ _ Hl) as [l' E]; apply (path_rtc _ _ _ _ Hl); rewrite E; apply list_elem_of_here).
  inversion Hl as [E|p b' l' Hp He]; subst; [by rewrite (Hent x Hx) in Hc|]. destruct (path_last _ _ _ _ Hp) as [l0 E0].
  assert (reached p) as Hrp by (apply (path_rtc _ _ _ _ Hp); rewrite E0; apply list_elem_of_here).
  assert (p ∈ parents x) as Hin by (by apply (Hpar b)). rewrite Hc in Hin. apply list_elem_of_singleton in Hin as ->. subst l'. eauto.
Qed.

Lemma only_parent_reached c b : only_parent c b -> reached b -> reached c /\ is_Some (blocks ep !! c) /\ c <> b /\ edge (blocks ep) c b.
Proof.
  intros Hc Hb. pose proof Hc as Hc'. unfold only_parent in Hc'. destruct (blocks ep !! b) as [x|] eqn:Hx; [|done]. injection Hc' as Hc'.
  destruct (proj1 (Hpar b x c Hx Hb)) as [He Hrc]; [rewrite Hc'; apply list_elem_of_here|]. split_and!; [done|destruct He as (z & Hz & _); by exists z| |done].
  destruct (rtc_path _ _ _ Hb) as [l Hl]. destruct (path_short _ _ _ _ Hl) as (l' & Hl' & _ & Hn). destruct (only_parent_path c b l' Hc Hl') as (l0 & -> & _).
  apply list.NoDup_cons in Hn as [Hn _]. apply not_elem_of_cons in Hn as [? _]. done.
Qed.

Lemma remove_first_last i l : l <> [] -> List.last l 0 <> i -> remove_first i l <> [] /\ List.last (remove_first i l) 0 = List.last l 0.
Proof.
  induction l as [|j l IH]; [done|]. intros _ Hl. simpl remove_first. destruct (Z.eqb_spec j i) as [->|Hji].
  - destruct l as [|k l]; [done|]. done.
  - destruct l as [|k l]; [done|]. destruct IH as [H1 H2]; [done|done|]. split; [done|].
    destruct (remove_first i (k :: l)) as [|m r] eqn:E; [done|]. change (List.last (j :: m :: r) 0) with (List.last (m :: r) 0). by rewrite H2.
Qed.

Section move.
Context (d : dag) (i j : Z) (x y : insn) (bi bj c : Z).
Context (Hwf : wf d) (Hp : in_place d) (Hx : computes d i x) (Hy : computes d j y) (Ha : alike x y) (Hij : i <> j) (Hbi : bb x = Some bi) (Hbj : bb y = Some bj).
Context (Hne : bi <> bj) (Hci : only_parent c bi) (Hcj : only_parent c bj).

Local Definition d1 : dag := cse_one_instruction i j d.
Local Definition d2 : dag := insert_last_instruction c j (remove_instruction bj j d1).

Lemma common_reached : reached c /\ is_Some (blocks ep !! c) /\ c <> bj /\ edge (blocks ep) c bj.
Proof. apply only_parent_reached; [done|]. by apply (ip_reach _ Hp j y bj (c_lookup _ _ _ Hy)). Qed.

Lemma insns_of_move b : insns_of d2 b =
  if b =? c then removelast (insns_of d c) ++ [j; List.last (insns_of d c) 0] else if b =? bj then remove_first j (insns_of d bj) else insns_of d b.
Proof.
  destruct common_reached as (_ & _ & Hcb & _). unfold d2, insert_last_instruction, remove_instruction, set_bbs, insns_of. simpl.
  assert (bbs d1 = bbs d) as E1 by (by apply (cse_one_bbs d i j x y)). rewrite E1.
  destruct (Z.eqb_spec b c) as [->|Hbc].
  - rewrite lookup_insert_eq. simpl. by rewrite lookup_insert_ne by done.
  - rewrite lookup_insert_ne by done. destruct (Z.eqb_spec b bj) as [->|Hbb]; [by rewrite lookup_insert_eq|by rewrite lookup_insert_ne].
Qed.

Lemma common_split : insns_of d c = removelast (insns_of d c) ++ [List.last (insns_of d c) 0].
Proof. apply last_split. destruct common_reached as (_ & Hc & _). by apply (ip_last _ Hp c Hc). Qed.

Lemma elem_move k b : k <> j -> k ∈ insns_of d2 b <-> k ∈ insns_of d b.
Proof.
  intros Hk. rewrite insns_of_move. destruct (Z.eqb_spec b c) as [->|Hbc].
  - rewrite common_split at 3. rewrite !elem_of_app, !elem_of_cons, !elem_of_nil. tauto.
  - destruct (Z.eqb_spec b bj) as [->|Hbb]; [by apply remove_first_elem|done].
Qed.

Lemma not_in_common : j ∉ insns_of d c.
Proof. intros H. destruct common_reached as (_ & _ & Hcb & _). apply Hcb. by apply (ip_unique _ Hp j y bj c (c_lookup _ _ _ Hy)). Qed.

Lemma in_common_now : j ∈ insns_of d2 c.
Proof. rewrite insns_of_move, Z.eqb_refl, elem_of_app. right. by left. Qed.

Lemma move_of k z b : insns d2 !! k = Some z -> bb z = Some b -> exists z1, insns d1 !! k = Some z1 /\ live z1 /\ op z1 = op z /\ operands z1 = operands z /\ (k = j /\ b = c \/ k <> j /\ bb z1 = Some b).
Proof.
  unfold d2, insert_last_instruction. intros Hz Hb. destruct (decide (k = j)) as [->|Hk].
  - rewrite lookup_modify in Hz. apply fmap_Some in Hz as (z1 & Hz1 & ->). simpl in Hb. injection Hb as <-. exists z1. split_and!; [done| |done|done|by left].
    change (insns d1 !! j = Some z1) in Hz1. unfold d1 in Hz1. rewrite (cse_one_lookup d i j x y), (c_lookup _ _ _ Hy) in Hz1 by done. injection Hz1 as <-. apply live_subst. apply Hy.
  - rewrite lookup_modify_ne in Hz by done. exists z. split_and!; [done|by apply (bb_live z b)|done|done|right; done].
Qed.

(** The operands of the two run before the end of the common block. *)
Lemma operands_before r w l : REG r ∈ operands y -> insns d !! r = Some w -> paths c (c :: l) -> exists e, e ∈ c :: l /\ r ∈ insns_of d e.
Proof.
  intros Hr Hw Hl. assert (forall b, only_parent c b -> reached b -> paths b (b :: c :: l)) as Hext.
  { intros b Hb Hrb. destruct (only_parent_reached c b Hb Hrb) as (_ & _ & _ & He). by econstructor. }
  pose proof (ip_run _ Hp j y bj r w _ (c_lookup _ _ _ Hy) Hbj Hr Hw (Hext bj Hcj (ip_reach _ Hp j y bj (c_lookup _ _ _ Hy) Hbj))) as H1.
  assert (REG r ∈ operands x) as Hr' by (apply (alike_operands x y); [apply Hx|done|done]).
  pose proof (ip_run _ Hp i x bi r w _ (c_lookup _ _ _ Hx) Hbi Hr' Hw (Hext bi Hci (ip_reach _ Hp i x bi (c_lookup _ _ _ Hx) Hbi))) as H2.
  rewrite executed_elem in H1, H2. destruct H1 as [?|H1%upto_elem]; [done|]. destruct H2 as [?|H2%upto_elem]; [done|].
  assert (live w) as (bw & Hbw)%live_bb by (by apply (wf_live _ Hwf j y r w (c_lookup _ _ _ Hy) (c_live _ _ _ Hy))).
  destruct Hne. rewrite (ip_unique _ Hp r w bw bi Hw Hbw H2), (ip_unique _ Hp r w bw bj Hw Hbw H1). done.
Qed.

(** Where one of the two has run, the common block has. *)
Lemma common_before k z b u e l : insns d !! k = Some z -> bb z = Some b -> only_parent c b -> paths e (e :: l) -> k ∈ executed d (e :: l) u -> c ∈ l.
Proof.
  intros Hz Hb Hcb Hl Hk. assert (e = b \/ b ∈ l) as Hbl.
  { rewrite executed_elem in Hk. destruct Hk as [(e' & He' & Hk)|Hk%upto_elem]; [right; by rewrite <- (ip_unique _ Hp k z b e' Hz Hb Hk)|left; by apply (ip_unique _ Hp k z b e Hz Hb)]. }
  destruct Hbl as [->|Hbl].
  - destruct (only_parent_path c b _ Hcb Hl) as (l' & [= ->] & _). by left.
  - destruct (path_at _ _ _ _ b Hl) as (l1 & l2 & El & Hl2); [by right|]. destruct (only_parent_path c b _ Hcb Hl2) as (l' & -> & _).
    destruct l1 as [|a l1]; injection El as -> ->; [by left|]. rewrite elem_of_app. right. by right; left.
Qed.

Lemma upto_move r u b : r <> j -> u <> j -> u ∈ insns_of d b -> r ∈ upto (insns_of d b) u -> r ∈ upto (insns_of d2 b) u.
Proof.
  intros Hr Hu Hub. rewrite insns_of_move. destruct (Z.eqb_spec b c) as [->|Hbc].
  - rewrite common_split at 1. destruct (decide (u ∈ removelast (insns_of d c))) as [Hin|Hin]; [by rewrite !upto_app_in|]. rewrite !upto_app by done.
    intros [?|H]; [by left|]. rewrite common_split, elem_of_app in Hub. destruct Hub as [?| ->%list_elem_of_singleton]; [done|].
    simpl in H. rewrite Z.eqb_refl in H. by apply elem_of_nil in H.
  - destruct (Z.eqb_spec b bj) as [->|Hbb]; [by apply remove_first_upto|done].
Qed.

(** Neither uses itself or the other. *)
Lemma no_self_use : (REG i ∉ operands y) /\ (REG j ∉ operands y).
Proof.
  destruct (wf_rank _ Hwf) as [rank Hrk]. split; intros H.
  - apply (alike_operands x y) in H; [|apply Hx|done]. pose proof (Hrk i x i (c_lookup _ _ _ Hx) (c_live _ _ _ Hx) (c_op _ _ _ Hx) H). lia.
  - pose proof (Hrk j y j (c_lookup _ _ _ Hy) (c_live _ _ _ Hy) (c_op _ _ _ Hy) H). lia.
Qed.

Lemma lookup_before_move r w : r <> i -> r <> j -> insns d2 !! r = Some w -> exists w0, insns d !! r = Some w0.
Proof.
  intros Hri Hrj Hw. unfold d2, insert_last_instruction in Hw. rewrite lookup_modify_ne in Hw by done. change (insns d1 !! r = Some w) in Hw. unfold d1 in Hw.
  rewrite (cse_one_lookup d i j x y) in Hw by done. apply fmap_Some in Hw as (w0 & Hw0 & _). by exists w0.
Qed.

(** The operands of the instruction that was moved. *)
Lemma run_moved_self r w l : REG r ∈ operands y -> insns d2 !! r = Some w -> paths c (c :: l) -> r ∈ executed d2 (c :: l) j.
Proof.
  intros Hry Hw Hl. destruct no_self_use as [Hni Hnj]. assert (r <> j /\ r <> i) as [Hrj Hri] by (split; congruence). rewrite executed_elem.
  destruct (lookup_before_move r w Hri Hrj Hw) as [w0 Hw0]. destruct (operands_before r w0 l Hry Hw0 Hl) as (e & [->|He]%elem_of_cons & Hre).
  - right. rewrite insns_of_move, Z.eqb_refl. rewrite common_split, elem_of_app in Hre. assert (j ∉ removelast (insns_of d c)) as Hnr.
    { intros H. apply not_in_common. rewrite common_split, elem_of_app. by left. }
    apply upto_app; [done|]. destruct Hre as [?|Hre]; [by left|]. apply list_elem_of_singleton in Hre. subst r. destruct common_reached as (_ & Hc & _).
    by destruct (ip_last _ Hp c Hc) as (_ & _ & Hlast); destruct (Hlast j y (c_lookup _ _ _ Hy) (c_live _ _ _ Hy)).
  - left. exists e. split; [done|]. by apply elem_move.
Qed.

(** The uses of the two. *)
Lemma run_moved_use k u z b l : k = i \/ k = j -> insns d !! u = Some z -> bb z = Some b -> REG k ∈ operands z -> paths b (b :: l) -> exists e, e ∈ l /\ j ∈ insns_of d2 e.
Proof.
  intros Hk Hz Hbz Hin Hl. exists c. split; [|apply in_common_now].
  destruct Hk as [->| ->]; [apply (common_before i x bi u b l (c_lookup _ _ _ Hx) Hbi Hci Hl)|apply (common_before j y bj u b l (c_lookup _ _ _ Hy) Hbj Hcj Hl)].
  - by apply (ip_run _ Hp u z b i x _ Hz Hbz Hin (c_lookup _ _ _ Hx)).
  - by apply (ip_run _ Hp u z b j y _ Hz Hbz Hin (c_lookup _ _ _ Hy)).
Qed.

Lemma run_moved u z b r w l : insns d2 !! u = Some z -> bb z = Some b -> REG r ∈ operands z -> insns d2 !! r = Some w -> paths b l -> r ∈ executed d2 l u.
Proof.
  intros Hz Hb Hr Hw Hl. destruct (move_of u z b Hz Hb) as (z1 & Hz1 & Hl1 & _ & Hop & Hcase). rewrite <- Hop in Hr.
  destruct (cse_one_of d i j x y Hwf Hx Hy Ha Hij u z1 Hz1 Hl1) as (Hui & z0 & Hz0 & Hl0 & Eb & Hof). destruct (path_last _ _ _ _ Hl) as [l' ->].
  destruct Hcase as [[-> ->]|[Huj Hbz]].
  - rewrite (c_lookup _ _ _ Hy) in Hz0. injection Hz0 as <-. destruct no_self_use as [Hni _]. destruct (Hof _ Hr) as [[_ H]|[Hry _]]; [done|]. by apply (run_moved_self r w).
  - rewrite executed_elem. assert (bb z0 = Some b) as Hb0 by congruence. destruct (Hof _ Hr) as [[[= ->] Hi]|[Hr0 Hri]]; [left; by apply (run_moved_use i u z0 b); [left|..]|].
    destruct (decide (r = j)) as [->|Hrj]; [left; by apply (run_moved_use j u z0 b); [right|..]|]. assert (r <> i) as Hri' by congruence.
    destruct (lookup_before_move r w Hri' Hrj Hw) as [w0 Hw0].
    pose proof (ip_run _ Hp u z0 b r w0 _ Hz0 Hb0 Hr0 Hw0 Hl) as Hrun. rewrite executed_elem in Hrun. destruct Hrun as [(e & He & Hre)|Hre].
    + left. exists e. split; [done|]. by apply elem_move.
    + right. apply upto_move; [done|done|by apply (ip_in _ Hp u z0 b)|done].
Qed.

Lemma move_old k z b : insns d2 !! k = Some z -> bb z = Some b -> k <> j -> exists z0, insns d !! k = Some z0 /\ bb z0 = Some b.
Proof.
  intros Hz Hb Hk. destruct (move_of k z b Hz Hb) as (z1 & Hz1 & Hl1 & _ & _ & [[? _]|[_ Hb1]]); [done|].
  destruct (cse_one_of d i j x y Hwf Hx Hy Ha Hij k z1 Hz1 Hl1) as (_ & z0 & Hz0 & _ & Eb & _). exists z0. split; [done|congruence].
Qed.

Lemma move_bb z b : insns d2 !! j = Some z -> bb z = Some b -> b = c.
Proof. intros Hz Hb. by destruct (move_of j z b Hz Hb) as (z1 & _ & _ & _ & _ & [[_ ?]|[? _]]). Qed.

Lemma move_last b : is_Some (blocks ep !! b) -> insns_of d2 b <> [] /\ List.last (insns_of d2 b) 0 = List.last (insns_of d b) 0.
Proof.
  intros Hb. destruct (ip_last _ Hp b Hb) as (Hn & Hc & _). rewrite insns_of_move. destruct (Z.eqb_spec b c) as [->|Hbc].
  - split; [by destruct (removelast (insns_of d c))|]. replace (removelast (insns_of d c) ++ [j; List.last (insns_of d c) 0]) with ((removelast (insns_of d c) ++ [j]) ++ [List.last (insns_of d c) 0]) by (by rewrite <- app_assoc).
    apply last_last.
  - destruct (Z.eqb_spec b bj) as [->|Hbb]; [|done]. apply remove_first_last; [done|]. intros E. apply Hc. rewrite E. by exists y.
Qed.

Lemma move_in_place : in_place d2.
Proof.
  destruct common_reached as (Hrc & Hsc & Hcb & _). split.
  - intros k z b Hz Hb. destruct (decide (k = j)) as [->|Hk]; [rewrite (move_bb z b Hz Hb); apply in_common_now|].
    destruct (move_old k z b Hz Hb Hk) as (z0 & Hz0 & Hb0). apply elem_move; [done|by apply (ip_in _ Hp k z0)].
  - intros k z b e Hz Hb He. destruct (decide (k = j)) as [->|Hk].
    + rewrite (move_bb z b Hz Hb). rewrite insns_of_move in He. destruct (Z.eqb_spec e c) as [|Hec]; [done|]. destruct (Z.eqb_spec e bj) as [->|Heb].
      * by apply remove_first_gone in He; [|apply Hp].
      * destruct Heb. by apply (ip_unique _ Hp j y bj e (c_lookup _ _ _ Hy)).
    + destruct (move_old k z b Hz Hb Hk) as (z0 & Hz0 & Hb0). rewrite elem_move in He by done. by apply (ip_unique _ Hp k z0 b e).
  - intros b. rewrite insns_of_move. destruct (Z.eqb_spec b c) as [->|Hbc].
    + pose proof (ip_nodup _ Hp c) as Hn. pose proof not_in_common as Hj. rewrite common_split in Hn, Hj. apply (NoDup_Permutation_proper _ (j :: removelast (insns_of d c) ++ [List.last (insns_of d c) 0])); [solve_Permutation|by apply NoDup_cons_2].
    + destruct (Z.eqb_spec b bj) as [->|Hbb]; [apply remove_first_nodup, Hp|apply Hp].
  - intros k z b Hz Hb. destruct (decide (k = j)) as [->|Hk]; [by rewrite (move_bb z b Hz Hb)|].
    destruct (move_old k z b Hz Hb Hk) as (z0 & Hz0 & Hb0). by apply (ip_reach _ Hp k z0).
  - intros b Hb. destruct (move_last b Hb) as [Hn ->]. destruct (cse_one_last d i j x y Hwf Hp Hx Hy Ha Hij b Hb) as (_ & Hc & Hu). split_and!; [done| |].
    + intros [z [Hz Hl Hv]]. destruct (live_bb z Hl) as [bz Hbz]. destruct (move_of _ z bz Hz Hbz) as (z1 & Hz1 & Hl1 & Ho & _). apply Hc. exists z1. split; [done|done|by rewrite Ho].
    + intros k z Hz Hl. destruct (live_bb z Hl) as [bz Hbz]. destruct (move_of k z bz Hz Hbz) as (z1 & Hz1 & Hl1 & _ & <- & _). by apply (Hu k z1).
  - apply run_moved.
Qed.
End move.

(** ** What holds at a use

    Along a path an instruction may run several times.  At a place to which every path goes through it, its register still has the value
    of the operands it has now. *)

Section equations.
Context (d : dag) (Hwf : wf d) (Hp : in_place d).

(** A path to the end of the way of another one. *)
Lemma replay_whole b l q bq w S1 S2 lq : insns d !! q = Some w -> bb w = Some bq -> paths b l -> whole d l = S1 ++ q :: S2 -> paths bq lq ->
  exists l', paths b l' /\ whole d l' = executed d lq q ++ q :: S2.
Proof.
  intros Hq Hb Hl. revert S2. induction Hl as [|p b l Hl IH He]; intros S2 E Hlq; cbn [whole] in E; apply app_cons_inv in E as [(k & E1 & ->)|(k & -> & E2)].
  - by destruct S1.
  - assert (entry ep = bq) as <- by (apply (ip_unique _ Hp q w bq _ Hq Hb); rewrite E2, elem_of_app; right; by left).
    exists lq. split; [done|]. destruct (path_last _ _ _ _ Hlq) as [l' ->]. rewrite executed_whole. cbn [whole].
    rewrite (upto_split _ k q S2 (ip_nodup _ Hp _) E2), E2. by rewrite <- app_assoc.
  - destruct (IH k E1 Hlq) as (l' & Hl' & Ew). exists (b :: l'). split; [by econstructor|]. cbn [whole]. by rewrite Ew, <- app_assoc.
  - assert (b = bq) as <- by (apply (ip_unique _ Hp q w bq _ Hq Hb); rewrite E2, elem_of_app; right; by left).
    exists lq. split; [done|]. destruct (path_last _ _ _ _ Hlq) as [l' ->]. rewrite executed_whole. cbn [whole].
    rewrite (upto_split _ k q S2 (ip_nodup _ Hp _) E2), E2. by rewrite <- app_assoc.
Qed.

Lemma replay b l u q bq w S1 S2 lq : insns d !! q = Some w -> bb w = Some bq -> paths b (b :: l) -> executed d (b :: l) u = S1 ++ q :: S2 -> paths bq lq ->
  exists l', paths b l' /\ executed d l' u = executed d lq q ++ q :: S2.
Proof.
  intros Hq Hb Hl E Hlq. rewrite executed_whole in E. apply app_cons_inv in E as [(k & E1 & ->)|(k & -> & E2)].
  - inversion Hl as [|p b' l' Hl' He]; subst; [by destruct S1|]. destruct (replay_whole p l q bq w S1 k lq Hq Hb Hl' E1 Hlq) as (l' & Hp' & Ew).
    exists (b :: l'). split; [by econstructor|]. by rewrite executed_whole, Ew, <- app_assoc.
  - destruct (upto_prefix (insns_of d b) u) as [m Em]. rewrite E2, <- app_assoc in Em. cbn in Em.
    assert (b = bq) as <- by (apply (ip_unique _ Hp q w bq _ Hq Hb); rewrite Em, elem_of_app; right; by left).
    exists lq. split; [done|]. destruct (path_last _ _ _ _ Hlq) as [l' ->]. rewrite !executed_whole, E2.
    rewrite (upto_split _ k q (S2 ++ m) (ip_nodup _ Hp _) Em). by rewrite <- app_assoc.
Qed.

(** There is a path to an operand that does not go through the instruction. *)
Lemma avoiding i x q w bq : insns d !! i = Some x -> live x -> REG q ∈ operands x -> insns d !! q = Some w -> bb w = Some bq -> exists lq, paths bq lq /\ i ∉ executed d lq q.
Proof.
  intros Hx [bi Hbi]%live_bb Hin Hq Hb. destruct (rtc_path _ _ _ (ip_reach _ Hp q w bq Hq Hb)) as [l Hl]. destruct (path_short _ _ _ _ Hl) as (lq & Hlq & _ & Hn).
  exists lq. split; [done|]. intros Hi. destruct (path_last _ _ _ _ Hlq) as [l' ->]. apply list.NoDup_cons in Hn as [Hn1 Hn2]. rewrite executed_elem in Hi. destruct Hi as [(e & He & Hi)|Hi].
  - assert (e = bi) as -> by (by apply (ip_unique _ Hp i x bi e)). destruct (path_at _ _ _ _ bi Hlq) as (l1 & l2 & El & Hl2); [by right|].
    assert (l2 ⊆ l') as Hs.
    { destruct l1 as [|a l1]; cbn in El; [|injection El as _ ->; intros e He'; rewrite elem_of_app; by right]. subst l2. destruct (path_last _ _ _ _ Hl2) as [? [= <- _]]. done. }
    pose proof (ip_run _ Hp i x bi q w l2 Hx Hbi Hin Hq Hl2) as Hr. destruct (path_last _ _ _ _ Hl2) as [l3 ->]. rewrite executed_elem in Hr.
    assert (bq ∈ bi :: l3) as Hbq.
    { destruct Hr as [(e & He' & Hqe)|Hqe%upto_elem]; [right; by rewrite <- (ip_unique _ Hp q w bq e Hq Hb Hqe)|]. rewrite (ip_unique _ Hp q w bq bi Hq Hb Hqe). left. }
    by apply Hn1, Hs.
  - assert (bq = bi) as <- by (apply (ip_unique _ Hp i x bi bq Hx Hbi); by apply upto_elem in Hi).
    pose proof (ip_run _ Hp i x bq q w _ Hx Hbi Hin Hq Hlq) as Hr. rewrite executed_elem in Hr. destruct Hr as [(e & He & Hqe)|Hqe].
    + apply Hn1. by rewrite <- (ip_unique _ Hp q w bq e Hq Hb Hqe).
    + apply (upto_self (insns_of d bq) i). by apply (upto_trans _ _ q).
Qed.

Lemma equation b l u r0 t r i x : paths b (b :: l) -> steps d r0 (executed d (b :: l) u) t r -> computes d i x ->
  (forall l', paths b l' -> i ∈ executed d l' u) -> result r x = Some (r i).
Proof.
  intros Hl Hs [Hx Hlive Hv] Hall. destruct (last_occurrence _ i (Hall _ Hl)) as (T1 & T2 & ET & Hn). rewrite ET in Hs. apply steps_app in Hs as (t1 & t2 & r1 & -> & _ & Hs).
  assert (exists v t2', result r1 x = Some v /\ steps d (write r1 i v) T2 t2' r) as (v & t2' & Hres & Hs2).
  { inversion Hs as [|? ? ? ? ? Hd|? ? x0 ? ? v ? Hx0 ? ? Hr|? ? x0 ? ? v ? Hx0 ? Hv0]; simplify_eq; [by destruct Hlive; apply Hd|eauto|congruence]. }
  assert (forall q, REG q ∈ operands x -> r q = r1 q) as Hops.
  { intros q Hq. assert (q <> i) as Hqi. { intros ->. destruct (wf_rank _ Hwf) as [rank Hrk]. pose proof (Hrk i x i Hx Hlive Hv Hq). lia. }
    rewrite (steps_keep _ _ _ _ _ q Hs2), write_other; [done|done|]. intros w Hw [bw Hbw]%live_bb Hin. apply list_elem_of_split in Hin as (S1 & S2 & ->).
    destruct (avoiding i x q w bw Hx Hlive Hq Hw Hbw) as (lq & Hlq & Hav).
    destruct (replay b l u q bw w (T1 ++ i :: S1) S2 lq Hw Hbw Hl) as (l' & Hl' & E'); [by rewrite ET, <- app_assoc|done|].
    specialize (Hall l' Hl'). rewrite E', elem_of_app, elem_of_cons in Hall. destruct Hall as [?|[?|?]]; [done|done|]. apply Hn. rewrite elem_of_app, elem_of_cons. auto. }
  rewrite (steps_keep _ _ _ _ _ i Hs2), write_same; [|done]. rewrite <- Hres. apply result_operands; try done.
  apply list_fmap_ext. intros k p Hk%list_elem_of_lookup_2. destruct p; try done. cbn. by apply Hops.
Qed.
End equations.

(** ** The two executions

    In [d'] the instruction [j] does the work of [i], perhaps from an earlier block.  Both graphs run side by side; the registers agree but
    for these two, and where one of the two is used the register of [j] has the right value. *)

(** What an execution of [d] gives to the other instructions on a path, [d'] gives to them on the same path. *)
Definition simulates (d d' : dag) : Prop := forall b l r t r1, paths b l -> steps d r (whole d l) t r1 -> exists r2, steps d' r (whole d' l) t r2.

Lemma simulates_refl d : simulates d d.
Proof. intros b l r t r1 _ Hs. by exists r1. Qed.

Lemma simulates_trans d1 d2 d3 : simulates d1 d2 -> simulates d2 d3 -> simulates d1 d3.
Proof. intros H1 H2 b l r t r1 Hl Hs. destruct (H1 b l r t r1 Hl Hs) as [r2 Hs2]. by apply (H2 b l r t r2 Hl). Qed.

(** [j] stands where [i] stood, and is in the block that [nb] says. *)
Record replaced (i j : Z) (d d' : dag) : Prop := {
  rp_lookup : exists nb : Z -> insn -> option Z, (forall k z, nb k z = None <-> bb z = None) /\
    forall k, k <> i -> insns d' !! k = (fun z => set_bb (nb k z) (subst (REG i) (REG j) z)) <$> insns d !! k;
  rp_dead : forall z, insns d' !! i = Some z -> bb z = None;
  rp_lists : forall b, filter (fun k => k <> i /\ k <> j) (insns_of d' b) = filter (fun k => k <> i /\ k <> j) (insns_of d b)
}.

Section simulation.
Context (d d' : dag) (i j : Z) (x y : insn).
Context (Hwf : wf d) (Hwf' : wf d') (Hp : in_place d) (Hp' : in_place d') (Hij : i <> j).
Context (Hx : computes d i x) (Hy : computes d j y) (Ha : alike x y) (Hrep : replaced i j d d').
Context (Hsem : forall r, result r x = result r y).

Definition related (r r' : valuation) : Prop := forall k, k <> i -> k <> j -> r' k = r k.

Lemma related_write r r' k v : related r r' -> related (write r k v) (write r' k v).
Proof. intros H m Hi Hj. unfold write. destruct (m =? k); [done|by apply H]. Qed.

Lemma related_left r r' k v : k = i \/ k = j -> related r r' -> related (write r k v) r'.
Proof. intros Hk H m Hi Hj. rewrite write_other by (destruct Hk as [->| ->]; done). by apply H. Qed.

Lemma related_right r r' v : related r r' -> related r (write r' j v).
Proof. intros H m Hi Hj. rewrite write_other by done. by apply H. Qed.

(** Neither uses itself or the other. *)
Lemma not_used : (REG i ∉ operands y) /\ (REG j ∉ operands y).
Proof.
  destruct (wf_rank _ Hwf) as [rank Hrk]. split; intros H.
  - apply (alike_operands x y) in H; [|apply Hx|done]. pose proof (Hrk i x i (c_lookup _ _ _ Hx) (c_live _ _ _ Hx) (c_op _ _ _ Hx) H). lia.
  - pose proof (Hrk j y j (c_lookup _ _ _ Hy) (c_live _ _ _ Hy) (c_op _ _ _ Hy) H). lia.
Qed.

(** An instruction in the two graphs. *)
Lemma new_insn k z : k <> i -> insns d !! k = Some z -> exists z', insns d' !! k = Some z' /\ (live z' <-> live z) /\ op z' = op z /\
  operands z' = swap_pseudo (REG i) (REG j) <$> operands z /\
  forall r r', is_value_op (op z) = true -> val r' <$> operands z' = val r <$> operands z -> result r' z' = result r z.
Proof.
  intros Hk Hz. destruct (rp_lookup _ _ _ _ Hrep) as (nb & Hnb & Hlk). eexists. split; [rewrite Hlk, Hz by done; reflexivity|].
  destruct (subst_fields (REG i) (REG j) z) as (Eo & Es & _ & Eu). split_and!.
  - unfold live. cbn. by rewrite Hnb.
  - done.
  - rewrite <- operands_subst. done.
  - intros r r' Hv Ho. apply result_operands; [done|done| |done|done]. intros Hne. unfold itype. cbn. by rewrite Eu.
Qed.

Lemma dead_both k : k <> i -> (forall z, insns d !! k = Some z -> bb z = None) -> forall z, insns d' !! k = Some z -> bb z = None.
Proof.
  intros Hk Hd z'. destruct (rp_lookup _ _ _ _ Hrep) as (nb & Hnb & ->); [|done]. intros (z & Hz & ->)%fmap_Some. cbn. by apply Hnb, Hd.
Qed.

(** The work of [j] in the two graphs. *)
Lemma result_j r r' y' : related r r' -> insns d' !! j = Some y' -> result r' y' = result r y.
Proof.
  intros Hr Hy'. destruct (new_insn j y ltac:(done) (c_lookup _ _ _ Hy)) as (y0 & Hy0 & _ & _ & Ho & Hres). rewrite Hy' in Hy0. injection Hy0 as <-.
  apply Hres; [apply Hy|]. rewrite Ho, <- list_fmap_compose. apply list_fmap_ext. intros n p Hn%list_elem_of_lookup_2. destruct not_used as [Ni Nj]. cbn.
  unfold swap_pseudo, peq. rewrite bool_decide_false by congruence. destruct p as [| | |q| | |]; try done. cbn. apply Hr; congruence.
Qed.

(** The part of a block before [u], on a path. *)
Definition before (g : dag) (b : Z) (l : list Z) (P : list Z) (r0 : valuation) (t : list event) (r : valuation) : Prop :=
  paths b (b :: l) /\ (exists L, insns_of g b = P ++ L) /\ steps g r0 (whole g l ++ P) t r.

Lemma before_executed g b l P u L r0 t r : in_place g -> insns_of g b = P ++ u :: L -> before g b l P r0 t r -> steps g r0 (executed g (b :: l) u) t r.
Proof. intros Hg E (_ & _ & Hs). by rewrite executed_whole, (upto_split _ P u L (ip_nodup _ Hg b) E). Qed.

(** The operands of an instruction that both run. *)
Lemma same_operands b l u z z' P L P' L' r0 t r t' r' :
  insns_of d b = P ++ u :: L -> insns_of d' b = P' ++ u :: L' -> before d b l P r0 t r -> before d' b l P' r0 t' r' -> related r r' ->
  u <> i -> u <> j -> insns d !! u = Some z -> live z -> insns d' !! u = Some z' -> val r' <$> operands z' = val r <$> operands z.
Proof.
  intros E E' Hb Hb' Hr Hui Huj Hz Hl Hz'. destruct (new_insn u z Hui Hz) as (z0 & Hz0 & Hl0 & _ & Ho & _). rewrite Hz' in Hz0. injection Hz0 as <-.
  pose proof (before_executed d b l P u L r0 t r Hp E Hb) as Hs. pose proof (before_executed d' b l P' u L' r0 t' r' Hp' E' Hb') as Hs'.
  destruct Hb as (Hpath & _ & _). pose proof (proj2 Hl0 Hl) as Hl'.
  assert (bb z = Some b) as Hbz.
  { destruct (live_bb z Hl) as [bz Hbz]. rewrite Hbz. f_equal. symmetry. apply (ip_unique _ Hp u z bz b Hz Hbz). rewrite E, elem_of_app. right. by left. }
  assert (bb z' = Some b) as Hbz'.
  { destruct (live_bb z' Hl') as [bz Hbz']. rewrite Hbz'. f_equal. symmetry. apply (ip_unique _ Hp' u z' bz b Hz' Hbz'). rewrite E', elem_of_app. right. by left. }
  destruct (new_insn j y ltac:(done) (c_lookup _ _ _ Hy)) as (y' & Hy' & Hly & Hoy & _).
  assert (computes d' j y') as Hcy by (split; [done|apply Hly, Hy|rewrite Hoy; apply Hy]).
  assert (REG j ∈ operands z' -> Some (r' j) = result r y) as Hj'.
  { intros Hin. rewrite <- (equation d' Hwf' Hp' b l u r0 t' r' j y' Hpath Hs' Hcy); [by apply result_j|]. intros l' Hl2. by apply (ip_run _ Hp' u z' b j y' l' Hz' Hbz' Hin). }
  assert (forall k w, computes d k w -> REG k ∈ operands z -> result r w = Some (r k)) as Hk.
  { intros k w Hw Hin. apply (equation d Hwf Hp b l u r0 t r k w Hpath Hs Hw). intros l' Hl2. by apply (ip_run _ Hp u z b k w l' Hz Hbz Hin), Hl2; apply Hw. }
  rewrite Ho in Hj' |- *. rewrite <- list_fmap_compose. apply list_fmap_ext. intros n p Hn%list_elem_of_lookup_2. cbn.
  pose proof (list_elem_of_fmap_2 (swap_pseudo (REG i) (REG j)) _ _ Hn) as Hn'. unfold swap_pseudo, peq in *. case_bool_decide as Ep.
  - subst p. cbn. specialize (Hj' Hn'). rewrite <- Hsem, (Hk i x Hx Hn) in Hj'. by injection Hj'.
  - destruct p as [| | |q| | |]; try done. cbn. destruct (decide (q = j)) as [->|Hqj]; [|apply Hr; congruence].
    specialize (Hj' Hn'). rewrite (Hk j y Hy Hn) in Hj'. by injection Hj'.
Qed.

Lemma before_next g b l P u L r0 t r t1 r1 : insns_of g b = P ++ u :: L -> before g b l P r0 t r -> steps g r [u] t1 r1 -> before g b l (P ++ [u]) r0 (t ++ t1) r1.
Proof.
  intros E (Hl & _ & Hs) Hu. split; [done|]. split; [exists L; by rewrite <- app_assoc|]. rewrite app_assoc. apply steps_app. by exists t, t1, r.
Qed.

(** An instruction that both run. *)
Lemma both_step b l u P L P' L' r0 t r t' r' t1 r1 :
  insns_of d b = P ++ u :: L -> insns_of d' b = P' ++ u :: L' -> before d b l P r0 t r -> before d' b l P' r0 t' r' -> related r r' ->
  u <> i -> u <> j -> steps d r [u] t1 r1 -> exists r1', steps d' r' [u] t1 r1' /\ related r1 r1'.
Proof.
  intros E E' Hb Hb' Hr Hui Huj Hs. inversion Hs as [|? ? ? ? ? Hd Hn|? ? z ? ? v ? Hz Hl Hv Hres Hn|? ? z ? t0 v ? Hz Hl Hv Hn]; subst; inversion Hn; subst.
  - exists r'. split; [|done]. apply steps_dead; [by apply (dead_both u)|constructor].
  - destruct (new_insn u z Hui Hz) as (z' & Hz' & Hl' & Eo & _ & Hre). exists (write r' u v). split; [|by apply related_write].
    eapply steps_value; [done|by apply Hl'|by rewrite Eo| |constructor]. rewrite (Hre r r' Hv); [done|]. by eapply same_operands.
  - destruct (new_insn u z Hui Hz) as (z' & Hz' & Hl' & Eo & _ & Hre). exists (write r' u v). split; [|by apply related_write].
    rewrite <- Eo, <- (same_operands b l u z z' P L P' L' r0 t r t' r' E E' Hb Hb' Hr Hui Huj Hz Hl Hz'). eapply steps_other; [done|by apply Hl'|by rewrite Eo|constructor].
Qed.

(** Only [d] runs one of the two. *)
Lemma left_step u r r' t1 r1 : u = i \/ u = j -> related r r' -> steps d r [u] t1 r1 -> t1 = [] /\ related r1 r'.
Proof.
  intros Hu Hr Hs. assert (exists w, computes d u w) as (w & [Hw Hlw Hvw]) by (destruct Hu as [->| ->]; eauto).
  inversion Hs as [|? ? ? ? ? Hd Hn|? ? z ? ? v ? Hz Hl Hv Hres Hn|? ? z ? t0 v ? Hz Hl Hv Hn]; subst; inversion Hn; subst.
  - done.
  - split; [done|by apply related_left].
  - simplify_eq. congruence.
Qed.

(** [d'] skips [i]. *)
Lemma right_skip r' : steps d' r' [i] [] r'.
Proof. apply steps_dead; [apply Hrep|constructor]. Qed.

(** [d'] runs [j], if there is a result. *)
Lemma right_step r r' : related r r' -> is_Some (result r y) -> exists r1', steps d' r' [j] [] r1' /\ related r r1'.
Proof.
  intros Hr [v Hv]. destruct (new_insn j y ltac:(done) (c_lookup _ _ _ Hy)) as (y' & Hy' & Hl & Eo & _ & _). exists (write r' j v). split; [|by apply related_right].
  eapply steps_value; [done|apply Hl, Hy|rewrite Eo; apply Hy| |constructor]. by rewrite (result_j r r' y' Hr Hy').
Qed.

Lemma one_of u : ~ (u <> i /\ u <> j) -> u = i \/ u = j.
Proof. intros H. destruct (decide (u = i)) as [|Hi]; [by left|]. destruct (decide (u = j)) as [|Hj]; [by right|]. by destruct H. Qed.

(** *** Nothing is moved *)

Lemma block_same b l L : forall P r0 t r t' r' t1 r1, insns_of d b = P ++ L -> insns_of d' b = P ++ L -> before d b l P r0 t r -> before d' b l P r0 t' r' -> related r r' ->
  steps d r L t1 r1 -> exists r1', steps d' r' L t1 r1' /\ related r1 r1'.
Proof.
  induction L as [|u L IH]; intros P r0 t r t' r' t1 r1 E E' Hb Hb' Hr Hs; [inversion Hs; subst; exists r'; split; [constructor|done]|].
  apply (steps_app d r [u] L) in Hs as (tu & t2 & ru & -> & Hu & Hs).
  assert (exists ru', steps d' r' [u] tu ru' /\ related ru ru') as (ru' & Hu' & Hr').
  { destruct (decide (u = i)) as [->|Hui]; [|destruct (decide (u = j)) as [->|Huj]].
    - destruct (left_step i r r' tu ru) as [-> ?]; [by left|done|done|]. exists r'. split; [apply right_skip|done].
    - destruct (left_step j r r' tu ru) as [-> Hl]; [by right|done|done|]. assert (is_Some (result r y)) as Hres.
      { inversion Hu as [|? ? ? ? ? Hd Hn|? ? z ? ? v ? Hz Hl2 Hv Hres Hn|]; subst; [by destruct (c_live _ _ _ Hy); apply Hd, Hy|].
        rewrite (c_lookup _ _ _ Hy) in Hz. injection Hz as <-. by exists v. }
      destruct (right_step r r' Hr Hres) as (r1' & Hs' & Hr1). exists r1'. split; [done|].
      intros k Hki Hkj. rewrite (Hr1 k Hki Hkj). symmetry. apply (steps_keep _ _ _ _ _ k Hu). by intros ? _ _ ?%list_elem_of_singleton.
    - by eapply both_step. }
  destruct (IH (P ++ [u]) r0 (t ++ tu) ru (t' ++ tu) ru' t2 r1) as (r1' & Hs' & Hr1); try done; [by rewrite <- app_assoc|by rewrite <- app_assoc|by eapply before_next|by eapply before_next|].
  exists r1'. split; [|done]. apply (steps_app d' r' [u] L). by exists tu, t2, ru'.
Qed.

(** *** [j] is moved and always has a result *)

Lemma block_moved b l : (forall r, is_Some (result r y)) -> forall L L' P P' r0 t r t' r' t1 r1, insns_of d b = P ++ L -> insns_of d' b = P' ++ L' ->
  filter (fun k => k <> i /\ k <> j) L' = filter (fun k => k <> i /\ k <> j) L -> before d b l P r0 t r -> before d' b l P' r0 t' r' -> related r r' ->
  steps d r L t1 r1 -> exists r1', steps d' r' L' t1 r1' /\ related r1 r1'.
Proof.
  intros Htot L L'. remember (length L + length L')%nat as n eqn:En. revert L L' En. induction n as [n IH] using lt_wf_ind. intros L L' -> P P' r0 t r t' r' t1 r1 E E' Ef Hb Hb' Hr Hs.
  destruct L' as [|u' L'].
  - destruct L as [|u L]; [inversion Hs; subst; exists r'; split; [constructor|done]|]. apply (steps_app d r [u] L) in Hs as (tu & t2 & ru & -> & Hu & Hs).
    rewrite filter_cons in Ef. case_decide as Hd; [done|]. destruct (left_step u r r' tu ru) as [-> Hr1]; [by apply one_of|done|done|].
    destruct (IH (length L + 0)%nat ltac:(simpl; lia) L [] eq_refl (P ++ [u]) P' r0 (t ++ []) ru t' r' t2 r1) as (r1' & Hs' & Hr2); try done; [by rewrite <- app_assoc|by eapply before_next|]. by exists r1'.
  - destruct (decide (u' <> i /\ u' <> j)) as [Hd'|Hd'].
    + destruct L as [|u L]; [rewrite filter_cons, decide_True in Ef by done; done|]. apply (steps_app d r [u] L) in Hs as (tu & t2 & ru & -> & Hu & Hs).
      destruct (decide (u <> i /\ u <> j)) as [Hd|Hd].
      * rewrite !filter_cons, !decide_True in Ef by done. injection Ef as -> Ef. destruct (both_step b l u P L P' L' r0 t r t' r' tu ru E E' Hb Hb' Hr (proj1 Hd) (proj2 Hd) Hu) as (ru' & Hu' & Hr').
        destruct (IH (length L + length L')%nat ltac:(simpl; lia) L L' eq_refl (P ++ [u]) (P' ++ [u]) r0 (t ++ tu) ru (t' ++ tu) ru' t2 r1) as (r1' & Hs' & Hr1); try done;
          [by rewrite <- app_assoc|by rewrite <- app_assoc|by eapply before_next|by eapply before_next|].
        exists r1'. split; [|done]. apply (steps_app d' r' [u] L'). by exists tu, t2, ru'.
      * destruct (left_step u r r' tu ru) as [-> Hr1]; [by apply one_of|done|done|].
        rewrite (filter_cons _ u L), (decide_False (P := u <> i /\ u <> j)) in Ef by done.
        destruct (IH (length L + length (u' :: L'))%nat ltac:(simpl; lia) L (u' :: L') eq_refl (P ++ [u]) P' r0 (t ++ []) ru t' r' t2 r1) as (r1' & Hs' & Hr2); try done; [by rewrite <- app_assoc|by eapply before_next|]. by exists r1'.
    + assert (exists ru', steps d' r' [u'] [] ru' /\ related r ru') as (ru' & Hu' & Hr').
      { destruct (decide (u' = i)) as [->|Hui]; [exists r'; split; [apply right_skip|done]|]. destruct (one_of u' Hd') as [?| ->]; [done|]. by apply right_step. }
      rewrite (filter_cons _ u' L'), (decide_False (P := u' <> i /\ u' <> j)) in Ef by done.
      destruct (IH (length L + length L')%nat ltac:(simpl; lia) L L' eq_refl P (P' ++ [u']) r0 t r (t' ++ []) ru' t1 r1) as (r1' & Hs' & Hr1); try done; [by rewrite <- app_assoc|by eapply before_next|].
      exists r1'. split; [|done]. apply (steps_app d' r' [u'] L'). by exists [], t1, ru'.
Qed.

(** *** Paths *)

Lemma replaced_simulates : (forall b, insns_of d' b = insns_of d b) \/ (forall r, is_Some (result r y)) -> simulates d d'.
Proof.
  intros Hcase. assert (forall b l r0 t r t1 r1 r', paths b (b :: l) -> steps d r0 (whole d l) t r -> steps d' r0 (whole d' l) t r' -> related r r' ->
    steps d r (insns_of d b) t1 r1 -> exists r1', steps d' r' (insns_of d' b) t1 r1' /\ related r1 r1') as Hblock.
  { intros b l r0 t r t1 r1 r' Hl Hs Hs' Hr Hsb.
    assert (before d b l [] r0 t r) as Hb by (split; [done|]; split; [by exists (insns_of d b)|by rewrite app_nil_r]).
    assert (before d' b l [] r0 t r') as Hb' by (split; [done|]; split; [by exists (insns_of d' b)|by rewrite app_nil_r]).
    destruct Hcase as [Hsame|Htot].
    - rewrite Hsame. by apply (block_same b l (insns_of d b) [] r0 t r t r').
    - by apply (block_moved b l Htot (insns_of d b) (insns_of d' b) [] [] r0 t r t r' t1 r1); try done; apply Hrep. }
  assert (forall b l, paths b l -> forall r t r1, steps d r (whole d l) t r1 -> exists r2, steps d' r (whole d' l) t r2 /\ related r1 r2) as H.
  { intros b l Hl. induction Hl as [|p b l Hl IH He]; intros r t r1 Hs; cbn [whole] in Hs |- *.
    - apply (Hblock (entry ep) [] r [] r t r1 r); [constructor|constructor|constructor|done|done].
    - apply steps_app in Hs as (t1 & t2 & rm & -> & H1 & H2). destruct (IH r t1 rm H1) as (rm' & H1' & Hr).
      destruct (Hblock b l r t1 rm t2 r1 rm') as (r2 & H2' & Hr2); [by econstructor|done..|]. exists r2. split; [|done]. apply steps_app. by exists t1, t2, rm'. }
  intros b l r t r1 Hl Hs. destruct (H b l Hl r t r1 Hs) as (r2 & Hs2 & _). by exists r2.
Qed.
End simulation.

(** ** What is moved must not fail *)

(** The operator has a result whatever the other operands are. *)
Definition always_defined (x : insn) : bool :=
  match op x with
  | OP_DIVU | OP_MODU => match src2 x with VAL v => negb (u64 v =? 0) | _ => false end
  | OP_DIVS | OP_MODS => match src2 x with VAL v => negb (u64 v =? 0) && negb (scast (size x) (u64 v) =? -1) | _ => false end
  | OP_SHL | OP_LSR | OP_ASR => match src2 x with VAL v => u64 v <? size x | _ => false end
  | _ => true
  end.

Lemma defined_result r x : is_value_op (op x) = true -> always_defined x = true -> is_Some (result r x).
Proof.
  unfold always_defined, result, sem. destruct (op x); try done; destruct (src2 x); try done; cbn [val]; intros _ H; rewrite ?H; try done.
  all: try (apply andb_true_iff in H as [H1 H2]; apply negb_true_iff in H1, H2; rewrite H1, H2, andb_false_r; done).
  all: apply negb_true_iff in H; by rewrite H.
Qed.

Lemma defined_subst i j z : always_defined (subst (REG i) (REG j) z) = always_defined z.
Proof.
  unfold always_defined, subst. destruct z as [o ? ? ? ? s2 ? ?]. destruct o; try done; cbn; unfold peq; case_bool_decide as E; try done; by subst.
Qed.

Lemma alike_defined x y : alike x y -> always_defined x = false -> always_defined y = false.
Proof.
  intros Ha. pose proof (alike_op x y Ha) as Eo. unfold always_defined. rewrite <- Eo.
  destruct Ha as [_ _ E2 _ Es _|_ Hc _ _]; [|by destruct (op x)]. destruct (op x); try done; cbn in E2; rewrite E2 by done; rewrite ?Es; done.
Qed.

(** No two operators of one kind that can fail are in two branches that have the same block before them. *)
Definition no_speculation (d : dag) : Prop := forall i1 i2 x1 x2 b1 b2, computes d i1 x1 -> computes d i2 x2 -> bb x1 = Some b1 -> bb x2 = Some b2 ->
  op x1 = op x2 -> always_defined x1 = false -> always_defined x2 = false -> b1 <> b2 -> trivial_common_parent ep b1 b2 = None.

(** What can fail stays in its block. *)
Definition steady (d0 d : dag) : Prop := forall k z, computes d k z -> exists z0, computes d0 k z0 /\ op z0 = op z /\ always_defined z0 = always_defined z /\
  (always_defined z = false -> bb z0 = bb z).

Lemma steady_refl d : steady d d.
Proof. intros k z Hz. by exists z. Qed.

Lemma steady_trans d1 d2 d3 : steady d1 d2 -> steady d2 d3 -> steady d1 d3.
Proof.
  intros H1 H2 k z Hz. destruct (H2 k z Hz) as (z2 & Hz2 & E2 & D2 & B2). destruct (H1 k z2 Hz2) as (z1 & Hz1 & E1 & D1 & B1).
  exists z1. split_and!; [done|congruence|congruence|]. intros Hd. rewrite B1; [by apply B2|congruence].
Qed.

(** ** A step *)

Lemma set_bb_same b z : bb z = b -> set_bb b z = z.
Proof. intros <-. by destruct z. Qed.

Lemma cse_one_replaced d i j x y : wf d -> computes d i x -> computes d j y -> alike x y -> i <> j -> replaced i j d (cse_one_instruction i j d).
Proof.
  intros Hwf Hx Hy Ha Hij. split.
  - exists (fun _ z => bb z). split; [done|]. intros k Hk. rewrite (cse_one_lookup d i j x y) by done. apply option_fmap_ext. intros z. symmetry. apply set_bb_same, subst_fields.
  - intros z Hz. by apply (cse_one_dead d i j x Hx).
  - intros b. by rewrite (insns_of_one d i j x y).
Qed.

Lemma cse_one_steady d i j x y : wf d -> computes d i x -> computes d j y -> alike x y -> i <> j -> steady d (cse_one_instruction i j d).
Proof.
  intros Hwf Hx Hy Ha Hij k z [Hz Hl Hv]. destruct (cse_one_live d i j x y Hwf Hx Hy Ha Hij k z Hz Hl) as (_ & z0 & Hz0 & Hl0 & ->).
  exists z0. rewrite op_subst in *. split_and!; [by split|done|by rewrite defined_subst|]. intros _. symmetry. apply subst_fields.
Qed.

Lemma filter_remove_first i j l : filter (fun k => k <> i /\ k <> j) (remove_first j l) = filter (fun k => k <> i /\ k <> j) l.
Proof.
  induction l as [|k l IH]; [done|]. cbn [remove_first]. destruct (Z.eqb_spec k j) as [->|Hk].
  - rewrite filter_cons, decide_False; [done|]. by intros [_ ?].
  - rewrite !filter_cons, IH. done.
Qed.

Lemma filter_insert_last i j l : l <> [] -> filter (fun k => k <> i /\ k <> j) (removelast l ++ [j; List.last l 0]) = filter (fun k => k <> i /\ k <> j) l.
Proof.
  intros Hl. rewrite (last_split l Hl) at 3. rewrite !list.filter_app. f_equal. rewrite (filter_cons _ j), decide_False; [done|]. by intros [_ ?].
Qed.

Lemma move_replaced d i j x y bj c : wf d -> computes d i x -> computes d j y -> alike x y -> i <> j -> c <> bj -> insns_of d c <> [] ->
  replaced i j d (insert_last_instruction c j (remove_instruction bj j (cse_one_instruction i j d))).
Proof.
  intros Hwf Hx Hy Ha Hij Hcb Hn. set (d1 := cse_one_instruction i j d). split.
  - exists (fun k z => if k =? j then (fun _ => c) <$> bb z else bb z). split; [intros k z; destruct (k =? j); [by destruct (bb z)|done]|].
    intros k Hk. unfold insert_last_instruction. destruct (Z.eqb_spec k j) as [->|Hkj].
    + rewrite lookup_modify. change (insns (set_bbs _ c _)) with (insns d1). unfold d1. rewrite (cse_one_lookup d i j x y), (c_lookup _ _ _ Hy) by done. cbn.
      pose proof (c_live _ _ _ Hy) as Hl. unfold live in Hl. by destruct (bb y).
    + rewrite lookup_modify_ne by done. change (insns (set_bbs _ c _)) with (insns d1). unfold d1. rewrite (cse_one_lookup d i j x y) by done.
      apply option_fmap_ext. intros z. symmetry. apply set_bb_same, subst_fields.
  - intros z. unfold insert_last_instruction. rewrite lookup_modify_ne by done. intros Hz. by apply (cse_one_dead d i j x Hx).
  - intros b. unfold insert_last_instruction, remove_instruction, set_bbs, insns_of. cbn. unfold d1. rewrite (cse_one_bbs d i j x y) by done.
    destruct (decide (b = c)) as [->|Hbc].
    + rewrite lookup_insert_eq, (lookup_insert_ne _ bj c) by done. by apply filter_insert_last.
    + rewrite lookup_insert_ne by done. destruct (decide (b = bj)) as [->|Hbb]; [rewrite lookup_insert_eq; apply filter_remove_first|by rewrite lookup_insert_ne].
Qed.

Lemma move_steady d d' : moved d d' -> (forall k z, computes d k z -> always_defined z = false -> insns d' !! k = insns d !! k) -> steady d d'.
Proof.
  intros Hm Hsame k z [Hz Hl Hv]. destruct (moved_lookup d d' k z Hm Hz) as (z0 & b & Hz0 & Hl0 & ->). assert (computes d k z0) as Hc by (split; [done|by apply Hl0|done]).
  exists z0. split_and!; [done|done|done|]. intros Hd. rewrite (Hsame k z0 Hc Hd), Hz0 in Hz. by injection Hz as <-.
Qed.

Lemma common_parent_spec b1 b2 c : trivial_common_parent ep b1 b2 = Some c -> only_parent c b1 /\ only_parent c b2.
Proof.
  unfold trivial_common_parent, only_parent. destruct (parents <$> blocks ep !! b1) as [[|p [|]]|], (parents <$> blocks ep !! b2) as [[|q [|]]|]; try done.
  destruct (Z.eqb_spec q p) as [->|]; [|done]. by intros [= ->].
Qed.

(** A block that dominates another one has run before. *)
Lemma dominates_before d j y bj i bi : in_place d -> insns d !! j = Some y -> bb y = Some bj -> bj <> bi -> dominates (blocks ep) (entry ep) bj bi -> forall l, paths bi l -> j ∈ executed d l i.
Proof.
  intros Hp Hy Hbj Hne Hd l Hl. specialize (Hd l Hl). destruct (path_last _ _ _ _ Hl) as [l' ->]. apply elem_of_cons in Hd as [?|Hd]; [done|].
  apply executed_elem. left. exists bj. split; [done|by apply (ip_in _ Hp j y)].
Qed.

Lemma try_to_cse_in_place d i1 i2 : wf d -> in_place d ->
  computing d i1 -> computing d i2 -> i1 <> i2 -> insn_compare (insn_at d i1) (insn_at d i2) = 0 -> in_place (try_to_cse ep i1 i2 d).2.
Proof.
  intros Hwf Hp [x Hx] [y Hy] Hne Hc. assert (insn_at d i1 = x) as Ex by (unfold insn_at; by rewrite (c_lookup _ _ _ Hx)).
  assert (insn_at d i2 = y) as Ey by (unfold insn_at; by rewrite (c_lookup _ _ _ Hy)). rewrite Ex, Ey in Hc.
  assert (alike x y) as Ha by (apply insn_compare_0; [apply Hx|done]). pose proof (alike_sym x y Ha) as Ha'.
  unfold try_to_cse. rewrite Ex, Ey. destruct (bb x) as [b1|] eqn:Hb1; [|done]. destruct (bb y) as [b2|] eqn:Hb2; [|done].
  pose proof (c_lookup _ _ _ Hx) as Lx. pose proof (c_lookup _ _ _ Hy) as Ly.
  pose proof (cse_one_in_place d i1 i2 x y b1 Hwf Hp Hx Hy Ha Hne Hb1) as P12. pose proof (cse_one_in_place d i2 i1 y x b2 Hwf Hp Hy Hx Ha' ltac:(done) Hb2) as P21.
  destruct (Z.eqb_spec b1 b2) as [<-|Hb].
  - destruct (first_of _ i1 i2) as [i|] eqn:Ef; [|done].
    assert (forall k1 k2, k1 ∈ upto (insns_of d b1) k2 -> forall l, paths b1 l -> k1 ∈ executed d l k2) as Hup.
    { intros k1 k2 Hk l Hl. destruct (path_last _ _ _ _ Hl) as [l' ->]. apply executed_elem. by right. }
    destruct (first_of_before _ i1 i2 i Hne Ef) as [[-> Hbef]|[-> Hbef]]; [by apply (ip_in _ Hp i1 x)|by apply (ip_in _ Hp i2 y)|..].
    + rewrite Z.eqb_refl. apply P21. by apply Hup.
    + destruct (Z.eqb_spec i2 i1); [done|]. apply P12. by apply Hup.
  - destruct (domtree_dominates ep b1 b2) eqn:D1.
    { apply P21. apply (dominates_before d i1 x b1); try done. apply Hdom; [by apply Hblocks, (ip_reach _ Hp i1 x)|by apply (ip_reach _ Hp i2 y)|done]. }
    destruct (domtree_dominates ep b2 b1) eqn:D2.
    { apply P12. apply (dominates_before d i2 y b2); try done. apply Hdom; [by apply Hblocks, (ip_reach _ Hp i2 y)|by apply (ip_reach _ Hp i1 x)|done]. }
    destruct (trivial_common_parent ep b1 b2) as [c|] eqn:Et; [|done]. apply common_parent_spec in Et as [H1 H2].
    by apply (move_in_place d i2 i1 y x b2 b1 c).
Qed.
(** A step keeps the executions, and what can fail stays where it is. *)
Lemma try_to_cse_keeps f es label d0 d i1 i2 : wf d -> evenly_sized f es label d -> label i1 = label i2 -> in_place d -> no_speculation d0 -> steady d0 d ->
  computing d i1 -> computing d i2 -> i1 <> i2 -> insn_compare (insn_at d i1) (insn_at d i2) = 0 -> simulates d (try_to_cse ep i1 i2 d).2 /\ steady d (try_to_cse ep i1 i2 d).2.
Proof.
  intros Hwf Hw El Hp Hno Hst Hc1 Hc2 Hne Hc. pose proof (try_to_cse_in_place d i1 i2 Hwf Hp Hc1 Hc2 Hne Hc) as Hp'.
  pose proof (try_to_cse_spec f es label ep d i1 i2 (conj Hwf Hw) El Hc1 Hc2 Hne Hc) as Hspec. destruct Hc1 as [x Hx], Hc2 as [y Hy].
  assert (insn_at d i1 = x) as Ex by (unfold insn_at; by rewrite (c_lookup _ _ _ Hx)). assert (insn_at d i2 = y) as Ey by (unfold insn_at; by rewrite (c_lookup _ _ _ Hy)).
  rewrite Ex, Ey in Hc. assert (alike x y) as Ha by (apply insn_compare_0; [apply Hx|done]). pose proof (alike_sym x y Ha) as Ha'.
  assert (forall r, result r x = result r y) as Hsem by (intros r; by apply (alike_sem f es label d Hw i1 x i2 y)).
  assert (wf (try_to_cse ep i1 i2 d).2) as Hwf' by (destruct (try_to_cse ep i1 i2 d); apply (sound_wf d), Hspec). clear Hspec.
  assert (simulates d d /\ steady d d) as Hid by (split; [apply simulates_refl|apply steady_refl]).
  assert (forall i j w z, i = i1 /\ j = i2 /\ w = x /\ z = y \/ i = i2 /\ j = i1 /\ w = y /\ z = x -> wf (cse_one_instruction i j d) -> in_place (cse_one_instruction i j d) ->
    simulates d (cse_one_instruction i j d) /\ steady d (cse_one_instruction i j d)) as Hone.
  { intros i j w z Hcase W I. assert (i <> j /\ computes d i w /\ computes d j z /\ alike w z /\ forall r, result r w = result r z) as (H1 & H2 & H3 & H4 & H5).
    { destruct Hcase as [(-> & -> & -> & ->)|(-> & -> & -> & ->)]; split_and!; done. }
    split; [|by apply (cse_one_steady d i j w z)]. apply (replaced_simulates d _ i j w z); try done; [by apply (cse_one_replaced d i j w z)|]. left. intros b. by apply (insns_of_one d i j w z). }
  unfold try_to_cse in *. rewrite Ex, Ey in *. destruct (bb x) as [b1|] eqn:Hb1; [|done]. destruct (bb y) as [b2|] eqn:Hb2; [|done].
  destruct (Z.eqb_spec b1 b2) as [<-|Hb].
  { destruct (first_of _ i1 i2) as [i|]; [|done]. destruct (i =? i1); [by apply (Hone i2 i1 y x); [right|..]|by apply (Hone i1 i2 x y); [left|..]]. }
  destruct (domtree_dominates ep b1 b2); [by apply (Hone i2 i1 y x); [right|..]|]. destruct (domtree_dominates ep b2 b1); [by apply (Hone i1 i2 x y); [left|..]|].
  destruct (trivial_common_parent ep b1 b2) as [c|] eqn:Et; [|done]. pose proof Et as [H1 H2]%common_parent_spec.
  assert (always_defined x = true) as Hdef.
  { destruct (always_defined x) eqn:Dx; [done|]. pose proof (alike_defined x y Ha Dx) as Dy. destruct (Hst i1 x Hx) as (x0 & Hx0 & Ox & Dx0 & Bx), (Hst i2 y Hy) as (y0 & Hy0 & Oy & Dy0 & By).
    rewrite (Hno i1 i2 x0 y0 b1 b2) in Et; [done|done|done|by rewrite Bx|by rewrite By|by rewrite Ox, Oy, (alike_op x y Ha)|congruence|congruence|done]. }
  destruct (only_parent_reached c b1 H1 (ip_reach _ Hp i1 x b1 (c_lookup _ _ _ Hx) Hb1)) as (_ & Hsc & Hcb & _). destruct (ip_last _ Hp c Hsc) as [Hn _].
  pose proof (move_replaced d i2 i1 y x b1 c Hwf Hy Hx Ha' ltac:(done) Hcb Hn) as Hrep. split.
  - apply (replaced_simulates d _ i2 i1 y x); try done. right. intros r. apply defined_result; [apply Hx|done].
  - eapply steady_trans; [by apply (cse_one_steady d i2 i1 y x)|].
    pose proof (cse_one_lookup d i2 i1 y x Hwf Hy Hx Ha' ltac:(done) i1 ltac:(done)) as Lk. rewrite (c_lookup _ _ _ Hx) in Lk. cbn in Lk. apply move_steady.
    + apply (moved_modify _ i1 c _ Lk); [apply live_subst, Hx|done].
    + intros k z [Hz _ _] Hd. cbn [snd]. unfold insert_last_instruction. destruct (decide (k = i1)) as [->|Hk]; [|by rewrite lookup_modify_ne].
      rewrite Lk in Hz. injection Hz as <-. rewrite defined_subst in Hd. congruence.
Qed.
End places.

