(* ===== verification/CseTheorems.v ===== *)
(** * Common subexpressions: theorems *)
From stdpp Require Import base option gmap list relations.
From S2P Require Import Prelude Bits Simplify SimplifyFacts Flowgraph FlowgraphDfs FlowgraphDom FlowgraphTheorems Sort SortTheorems Cse CseFacts CsePlaces SimplifyTheorems.
#[local] Open Scope Z_scope.

(** ** An example: the same sum on the two sides of a branch *)

(** Addresses to try it with. *)
Definition spread (z : Z) : Z := if z <? 0 then - 2 * z - 1 else 2 * z.

Definition plain_address (p : pseudo) : Z :=
  match p with
  | VOID => 0 | UNDEF n => 7 * spread n + 1 | PHI n => 7 * spread n + 2 | REG n => 7 * spread n + 3
  | ARG n => 7 * spread n + 4 | SYM n => 7 * spread n + 5 | VAL n => 7 * spread n + 6
  end.

Lemma spread_inj a b : spread a = spread b -> a = b.
Proof. unfold spread. destruct (Z.ltb_spec a 0), (Z.ltb_spec b 0); lia. Qed.

Lemma plain_address_inj p q : plain_address p = plain_address q -> p = q.
Proof. destruct p, q; simpl; intros E; try done; try (f_equal; apply spread_inj; lia); lia. Qed.

Definition plain_addresses : Addresses := {| address := plain_address; address_inj := plain_address_inj |}.

Definition sum (b : Z) (p q : pseudo) : insn := Insn OP_ADD false 32 (Some b) p q (Typ 0) [].
Definition effect (b : Z) (l : list pseudo) : insn := Insn (OP_OTHER true) false 0 (Some b) VOID VOID (Src3 VOID) l.

(** a + b in the block 4 and b + a in the block 5; every block ends with a jump. *)
Definition sums : dag := Dag
  (list_to_map [(1, sum 4 (ARG 1) (ARG 2)); (2, sum 5 (ARG 2) (ARG 1)); (3, effect 4 [REG 1]); (4, effect 5 [REG 2]); (10, effect 0 []); (11, effect 1 []);
    (12, effect 2 []); (13, effect 3 []); (14, effect 4 []); (15, effect 5 []); (16, effect 6 [])])
  (list_to_map [(0, [10]); (1, [11]); (2, [12]); (3, [13]); (4, [1; 3; 14]); (5, [2; 4; 15]); (6, [16])]) 0.

(** All uses are in the block of the definition: what can be computed. *)
Definition local_use (d : dag) (b i : Z) (p : pseudo) : Prop := match p with REG r => r ∈ upto (insns_of d b) i | _ => True end.

#[export] Instance local_use_dec d b i p : Decision (local_use d b i p).
Proof. unfold local_use. destruct p; apply _. Defined.

Definition at_home (ep : entrypoint) (d : dag) (i b : Z) (x : insn) : Prop :=
  i ∈ insns_of d b /\ is_Some (blocks ep !! b) /\ map_Forall (fun c l => i ∈ l -> c = b) (bbs d) /\ Forall (local_use d b i) (operands x).

#[export] Instance at_home_dec ep d i b x : Decision (at_home ep d i b x).
Proof. unfold at_home. apply _. Defined.

Definition local_ok (ep : entrypoint) (d : dag) : bool :=
  forallb (fun ix : Z * insn => match bb ix.2 with Some b => bool_decide (at_home ep d ix.1 b ix.2) | None => true end) (map_to_list (insns d)) &&
  bool_decide (map_Forall (fun _ l => NoDup l) (bbs d)) &&
  bool_decide (map_Forall (fun b _ => insns_of d b <> [] /\ is_value_op (op (insn_at d (List.last (insns_of d b) 0))) = false /\
    map_Forall (fun _ x => REG (List.last (insns_of d b) 0) ∉ operands x) (insns d)) (blocks ep)).

Lemma local_in_place ep d : local_ok ep d = true -> (forall b, is_Some (blocks ep !! b) -> rtc (edge (blocks ep)) (entry ep) b) -> in_place ep d.
Proof.
  intros [[H1 H2%bool_decide_eq_true]%andb_true_iff H3%bool_decide_eq_true]%andb_true_iff Hr. rewrite forallb_forall in H1.
  assert (forall i x b, insns d !! i = Some x -> bb x = Some b -> at_home ep d i b x) as H.
  { intros i x b Hx Hb. specialize (H1 (i, x)). simpl in H1. rewrite Hb in H1. apply (bool_decide_eq_true_1 (at_home ep d i b x)), H1. apply list_elem_of_In. by apply elem_of_map_to_list. }
  split.
  - intros i x b Hx Hb. by apply (H i x b).
  - intros i x b c Hx Hb Hc. destruct (H i x b Hx Hb) as (_ & _ & Hu & _). unfold insns_of in Hc. destruct (bbs d !! c) as [l|] eqn:El; [by apply (Hu c l)|by apply elem_of_nil in Hc].
  - intros b. unfold insns_of. destruct (bbs d !! b) as [l|] eqn:El; [by apply (H2 b l)|apply NoDup_nil_2].
  - intros i x b Hx Hb. apply Hr. by apply (H i x b).
  - intros b [x Hx]. destruct (H3 b x Hx) as (A & B & C). split_and!; [done| |intros i y Hy _; by apply (C i y)].
    intros [y [Hy _ Hv]]. unfold insn_at in B. rewrite Hy in B. simpl in B. congruence.
  - intros u x b r y l Hx Hb Hin _ Hl. destruct (H u x b Hx Hb) as (_ & _ & _ & Hf). rewrite list.Forall_forall in Hf. specialize (Hf _ Hin). unfold local_use in Hf.
    destruct (path_last _ _ _ _ Hl) as [l' ->]. apply executed_elem. by right.
Qed.

(** ** The theorems *)

Lemma built_paths ep0 ep : cfg_ok ep0 -> domtree_build ep0 = Some ep -> (forall c, links <$> blocks ep !! c = links <$> blocks ep0 !! c) /\ entry ep = entry ep0 /\
  forall a b, is_Some (blocks ep !! a) -> rtc (edge (blocks ep)) (entry ep) b -> domtree_dominates ep a b = true -> dominates (blocks ep) (entry ep) a b.
Proof.
  intros Hok Hb. destruct (built_spec ep0 Hok) as (ep' & m & po & doms & E & [Hl Hpo Ht He Htr Hlev Hl' Hbbs Hen _]). rewrite Hb in E. injection E as <-. split_and!; [done|done|].
  intros a b [xa Ha] Hrb Hd. rewrite Hen in *. destruct (dominates_answer ep0 Hok) as (ep2 & E2 & Hans). rewrite Hb in E2. injection E2 as <-.
  apply (dominates_links _ _ _ _ _ Hl'), Hans; [|by apply (links_rtc _ _ Hl')|done]. destruct (links_lookup_inv _ _ Hl' a xa Ha) as (y & Hy & _). by exists y.
Qed.

(** C16: cse_eliminate() on the chains that cse_collect() makes of the instructions of a function, with the dominator tree of domtree_build(): it ends,
    every register is still used only where it has run before on every path from the entry, also when an instruction is moved to the block before
    the two that it replaces, and every execution of the function along a path is one of the new function along the same path, in which loads,
    stores, calls and jumps get the same operands and give the same results.  A path may go through loops; an instruction that has no result, such as a division by 0,
    stops the execution.  The graph is well formed and in place; the operands of sums and signed comparisons have their size, comparisons for
    equality in one chain have results of one size ([evenly_sized]); and no two divisions, remainders or shifts of one kind by what is not a
    harmless constant are in two branches of one block ([no_speculation]): these the code moves to where nothing guards them ([cse_speculates]). *)
Theorem cse_eliminate_sound `{Ad : Addresses} `{At : Atoms} ep0 ep f eq_size d l : cfg_ok ep0 -> (forall x, blocks ep0 !! entry ep0 = Some x -> parents x = []) ->
  domtree_build ep0 = Some ep -> wf d -> evenly_sized f eq_size (chain_of d) d -> in_place ep d -> no_speculation ep d -> NoDup l ->
  exists d', cse_eliminate ep (collect d l) d = Some d' /\ wf d' /\ in_place ep d' /\
    forall b p r t r1, path (blocks ep) (entry ep) b p -> steps d r (whole d p) t r1 -> exists r2, steps d' r (whole d' p) t r2.
Proof.
  intros Hok Hent Hb Hwf Hs Hp Hno Hnd. destruct (built_paths ep0 ep Hok Hb) as (Hl & Een & Hdom).
  assert (forall b x p, blocks ep !! b = Some x -> rtc (edge (blocks ep)) (entry ep) b -> p ∈ parents x <-> edge (blocks ep) p b /\ rtc (edge (blocks ep)) (entry ep) p) as Hpar.
  { intros b x p Hx Hrb. destruct (links_lookup_inv _ _ Hl b x Hx) as (y & Hy & _ & ->). rewrite Een in *. rewrite (links_rtc _ _ Hl) in Hrb.
    rewrite (cfg_parents ep0 Hok b y p Hy Hrb). by rewrite (links_edge _ _ Hl), (links_rtc _ _ Hl). }
  assert (forall x, blocks ep !! entry ep = Some x -> parents x = []) as Hent'.
  { intros x Hx. rewrite Een in Hx. destruct (links_lookup_inv _ _ Hl _ x Hx) as (y & Hy & _ & ->). by apply Hent. }
  assert (forall b, rtc (edge (blocks ep)) (entry ep) b -> is_Some (blocks ep !! b)) as Hall.
  { intros b Hrb. apply rtc_inv_r in Hrb as [<-|(p & _ & He)].
    - rewrite Een. destruct (cfg_entry ep0 Hok) as [y Hy]. destruct (links_lookup _ _ Hl _ y Hy) as (z & Hz & _). by exists z.
    - by apply (links_closed _ _ Hl (cfg_closed ep0 Hok) p). }
  destruct (cse_eliminate_spec f eq_size (chain_of d) ep (fun d1 => in_place ep d1 /\ simulates ep d d1 /\ steady d d1)) with (t := collect d l) (d := d)
    as (d' & E & Hsd & _ & Hp' & Hsim & _).
  - intros d1 i1 i2 Hwf1 Hw1 El (Hp1 & Hs1 & Ht1) Hi1 Hi2 Hne Hc. split; [by apply try_to_cse_in_place|].
    destruct (try_to_cse_keeps ep Hpar Hent' Hall Hdom f eq_size (chain_of d) d d1 i1 i2 Hwf1 Hw1 El Hp1 Hno Ht1 Hi1 Hi2 Hne Hc) as [Hs2 Ht2].
    split; [by eapply simulates_trans|by eapply steady_trans].
  - done.
  - split; [done|]. split; [done|]. split; [apply simulates_refl|apply steady_refl].
  - by apply collect_ok.
  - intros h c. apply collect_labels.
  - exists d'. split; [done|]. split; [by apply (sound_wf d)|]. by split.
Qed.

Definition sum_sizes (p : pseudo) : Z := match p with REG 1 | REG 2 => 32 | REG _ => 0 | _ => 32 end.

Lemma sums_sized label : evenly_sized sum_sizes (fun _ => 32) label sums.
Proof.
  assert (forall i x, insns sums !! i = Some x -> (i, x) ∈ map_to_list (insns sums)) as Hin by (intros; by apply elem_of_map_to_list).
  assert (map_Forall (fun i x => (match i with 1 | 2 => 32 | _ => 0 end) = size x /\ op x <> OP_SET_EQ /\ op x <> OP_SET_NE /\ is_signed_order (op x) = false /\
    (OPF_ASSOC (op x) = true -> operands x = [ARG 1; ARG 2] \/ operands x = [ARG 2; ARG 1]) /\ (OPF_ASSOC (op x) = true -> size x = 32)) (insns sums)) as H.
  { apply (bool_decide_eq_true_1 _). vm_compute. reflexivity. }
  split.
  - intros j y Hy _. by destruct (H j y Hy) as (<- & _); destruct j as [|[[]|[]|]|]. 
  - intros j y Hy _ Ho. destruct (H j y Hy) as (_ & A & B & _). tauto.
  - intros i x Hx _ Ho. destruct (H i x Hx) as (_ & _ & _ & _ & A & B). split.
    + destruct (A Ho) as [->| ->]; [exists (ARG 1)|exists (ARG 2)]; (split; [by left|done]).
    + intros p Hp Hc. rewrite (B Ho). destruct (A Ho) as [E|E]; rewrite E in Hp; apply elem_of_cons in Hp as [->|Hp]; [done| |done|]; by apply list_elem_of_singleton in Hp as ->.
  - intros i x Hx _ Ho. destruct (H i x Hx) as (_ & _ & _ & A & _). congruence.
Qed.

Lemma sums_defined ep : no_speculation ep sums.
Proof.
  assert (map_Forall (fun _ x => always_defined x = true) (insns sums)) as H by (apply (bool_decide_eq_true_1 _); vm_compute; reflexivity).
  intros i1 i2 x1 x2 b1 b2 [H1 _ _] _ _ _ _ D. specialize (H i1 x1 H1). cbn in H. congruence.
Qed.

Lemma cse_eliminate_sound_witness : exists ep d', domtree_build loops = Some ep /\ @cse_eliminate plain_addresses ep (@collect plain_addresses sums [1; 2]) sums = Some d' /\
  bb (insn_at d' 1) = Some 3 /\ bb (insn_at d' 2) = None /\ in_place ep d' /\
  forall b p r t r1, path (blocks ep) (entry ep) b p -> @steps (two_args 0 0) sums r (whole sums p) t r1 -> exists r2, @steps (two_args 0 0) d' r (whole d' p) t r2.
Proof.
  destruct (dominates_answer loops loops_ok) as (ep & E & _). exists ep. destruct (built_paths loops ep loops_ok E) as (Hl & Een & _).
  assert (in_place ep sums) as Hp.
  { apply local_in_place.
    - assert ((fun ep => local_ok ep sums) <$> domtree_build loops = Some true) as Hc by (vm_compute; reflexivity). rewrite E in Hc. by injection Hc.
    - intros b [x Hx]. destruct (links_lookup_inv _ _ Hl b x Hx) as (y & Hy & _). rewrite Een. apply (links_rtc _ _ Hl), loops_reached. by exists y. }
  destruct (@cse_eliminate_sound plain_addresses (two_args 0 0) loops ep sum_sizes (fun _ => 32) sums [1; 2] loops_ok) as (d' & E' & _ & Hp' & Hs').
  - intros x Hx. vm_compute in Hx. by injection Hx as <-.
  - done.
  - apply ordered_wf. vm_compute. reflexivity.
  - apply sums_sized.
  - done.
  - apply sums_defined.
  - apply NoDup_cons_2; [by intros ?%list_elem_of_singleton|apply NoDup_singleton].
  - exists d'. split; [exact E|]. split; [exact E'|].
    assert ((fun d => (bb (insn_at d 1), bb (insn_at d 2))) <$> (ep ← domtree_build loops; @cse_eliminate plain_addresses ep (@collect plain_addresses sums [1; 2]) sums) = Some (Some 3, None)) as Hc by (vm_compute; reflexivity).
    rewrite E in Hc. cbn [mbind option_bind] in Hc. rewrite E' in Hc. injection Hc as H1 H2. split; [exact H1|split; [exact H2|split; [exact Hp'|exact Hs']]].
Defined.

(** *** A division that is moved

    A switch with three branches: in two of them 1 / y is used, in the third one it is not. *)

Definition three_ways : entrypoint := Entrypoint (list_to_map [(0, plain [] [1; 2; 3]); (1, plain [0] []); (2, plain [0] []); (3, plain [0] [])]) 0 [] 0 0.

Definition quotient (b : Z) : insn := Insn OP_DIVU false 32 (Some b) (VAL 1) (ARG 1) (Typ 0) [].

Definition guarded : dag := Dag
  (list_to_map [(1, quotient 1); (2, quotient 2); (10, effect 0 [ARG 1]); (11, effect 1 [REG 1]); (12, effect 2 [REG 2]); (13, effect 3 [])])
  (list_to_map [(0, [10]); (1, [1; 11]); (2, [2; 12]); (3, [13])]) 0.

(** cse_eliminate() moves the division before the switch.  If y is 0 then the function can be executed along the third branch, and the new one cannot. *)
Theorem cse_speculates : exists ep d', domtree_build three_ways = Some ep /\
  @cse_eliminate plain_addresses ep (@collect plain_addresses guarded [1; 2]) guarded = Some d' /\ path (blocks ep) (entry ep) 3 [3; 0] /\
  (forall r, exists t r1, @steps (two_args 0 0) guarded r (whole guarded [3; 0]) t r1) /\
  forall r t r1, ~ @steps (two_args 0 0) d' r (whole d' [3; 0]) t r1.
Proof.
  destruct (domtree_build three_ways) as [ep|] eqn:E; [|by vm_compute in E]. destruct (@cse_eliminate plain_addresses ep (@collect plain_addresses guarded [1; 2]) guarded) as [d'|] eqn:E'.
  2:{ assert ((ep ← domtree_build three_ways; @cse_eliminate plain_addresses ep (@collect plain_addresses guarded [1; 2]) guarded) <> None) as H by (by vm_compute). rewrite E in H. by destruct H. }
  exists ep, d'. split; [done|]. split; [done|]. split_and!.
  - assert ((fun ep => (entry ep, children <$> blocks ep !! 0)) <$> domtree_build three_ways = Some (0, Some [1; 2; 3])) as H by (vm_compute; reflexivity).
    rewrite E in H. injection H as He Hc. rewrite He. apply path_edge with 0; [constructor|]. destruct (blocks ep !! 0) as [x|] eqn:Ex; [|done].
    exists x. split; [done|]. injection Hc as ->. by right; right; left.
  - intros r. eexists _, _. eapply (steps_other _ _ _ _ _ _ 0); [reflexivity|done|done|]. eapply (steps_other _ _ _ _ _ _ 0); [reflexivity|done|done|]. constructor.
  - intros r t r1 Hs.
    assert ((fun d => (insns d !! 1, insns_of d 0)) <$> (ep ← domtree_build three_ways; @cse_eliminate plain_addresses ep (@collect plain_addresses guarded [1; 2]) guarded) =
      Some (Some (set_bb (Some 0) (quotient 1)), [1; 10])) as H by (vm_compute; reflexivity).
    rewrite E in H. cbn [mbind option_bind] in H. rewrite E' in H. injection H as H1 H0. cbn [whole app] in Hs. rewrite H0 in Hs.
    inversion Hs as [|? ? ? ? ? Hd|? ? x ? ? v ? Hx _ _ Hr|? ? x ? ? v ? Hx _ Hv]; subst.
    + by specialize (Hd _ H1).
    + rewrite H1 in Hx. injection Hx as <-. by vm_compute in Hr.
    + rewrite H1 in Hx. injection Hx as <-. done.
Qed.

(** Instructions of one size that insn_compare() takes for equal, also those with swapped operands, are put in the same chain by cse_collect(). *)
Theorem cse_hash_equal `{Ad : Addresses} x y hx hy : insn_compare x y = 0 -> size x = size y -> cse_hash x = Some hx -> cse_hash y = Some hy -> hx = hy.
Proof. intros Hc Hs Hx Hy. apply (alike_hash x y); try done. apply insn_compare_0; [by apply (cse_hash_op x hx)|done]. Qed.

(** c + a, b + b and a + c in one block, where the address of b is between the two others. *)
Definition between : dag := Dag
  (list_to_map [(1, sum 0 (ARG 3) (ARG 1)); (2, sum 0 (ARG 2) (ARG 2)); (3, sum 0 (ARG 1) (ARG 3)); (4, effect 0 [REG 1; REG 2; REG 3])])
  (list_to_map [(0, [1; 2; 3; 4])]) 0.

(** insn_compare() is not an order: of two sums with swapped operands, which it takes for equal, one can be before and one after a third. The sort
    then leaves the third between them, and cse_eliminate() keeps both; and swapped operands compare equal whatever the sizes of the results are. *)
Theorem insn_compare_no_order :
  let cmp := @insn_compare plain_addresses in
  let x i := insn_at between i in
  cmp (x 1) (x 3) = 0 /\ cmp (x 1) (x 2) = -1 /\ cmp (x 3) (x 2) = 1 /\
  (fun d => bb <$> [insn_at d 1; insn_at d 2; insn_at d 3]) <$> @cse_chain plain_addresses loops [1; 2; 3] between = Some [Some 0; Some 0; Some 0] /\
  (fun d => bb <$> [insn_at d 1; insn_at d 2; insn_at d 3]) <$> @cse_chain plain_addresses loops [1; 3] between = Some [Some 0; Some 0; None] /\
  cmp (set_size 1 (set_op OP_SET_EQ (x 1))) (set_op OP_SET_EQ (x 3)) = 0.
Proof. vm_compute. split_and!; reflexivity. Qed.
