(* ===== verification/Liveness.v ===== *)
(** * Liveness of pseudos, liveness.c

    track_pseudo_liveness() computes for every block the pseudos it needs from its parents and those it defines
    for its children; track_pseudo_death() puts a note before the last use of a pseudo.

    Instructions are not changed here, so that lists hold the instructions themselves; the field def of a pseudo, also
    never changed, is a parameter.  The first member of the union in struct instruction, which is called
    src, cond, func, phi_src or src1, is [lsrc1]; an operand can be NULL.  [None] stands for a failed assertion, the
    use of a NULL pointer or a loop that does not end within its fuel. *)
From stdpp Require Import base option gmap list.
From S2P Require Import Prelude Simplify.
#[local] Open Scope Z_scope.
#[local] Set Warnings "-register-all".

(** ** Opcodes, by their numbers *)

Definition RET : Z := 2.
Definition CBR : Z := 4.
Definition SWITCH : Z := 5.
Definition COMPUTEDGOTO : Z := 7.
Definition BINARY : Z := 8.
Definition BINARY_END : Z := 24.
Definition FPCMP : Z := 25.
Definition FPCMP_END : Z := 38.
Definition BINCMP : Z := 39.
Definition BINCMP_END : Z := 48.
Definition UNOP : Z := 49.
Definition UNOP_END : Z := 62.
Definition SYMADDR : Z := 63.
Definition SLICE : Z := 64.
Definition SEL : Z := 65.
Definition FMADD : Z := 66.
Definition LOAD : Z := 67.
Definition STORE : Z := 68.
Definition PHISOURCE : Z := 69.
Definition PHINODE : Z := 70.
Definition LABEL : Z := 71.
Definition SETVAL : Z := 72.
Definition SETFVAL : Z := 73.
Definition CALL : Z := 74.
Definition DEATHNOTE : Z := 77.
Definition ASM : Z := 78.
Definition OPRANGE : Z := 80.
Definition COPY : Z := 81.

(** The columns of opcode.def for the number of operands and for OPF_TARGET, in its order. *)
Definition opcode_arity : list Z :=
  [0; 0; 1; 0; 1; 1; 0; 1] ++
  replicate 17 2 ++ replicate 14 2 ++ replicate 10 2 ++ replicate 14 1 ++
  [1; 1; 3; 3; 1; 1; 1; 0; 0; 0; 0; 1; 0; 0; 0; 0; 0; 3; 1].

Definition opcode_target : list bool :=
  replicate 8 false ++
  replicate 17 true ++ replicate 14 true ++ replicate 10 true ++ replicate 14 true ++
  [true; true; true; true; true; false; true; true; true; true; true; true; false; false; false; false; false; false; true].

(** ** Instructions and blocks *)

Record instruction : Set := Instruction {
  lop : Z;                          (* opcode *)
  lbb : option Z;                   (* bb, NULL if the instruction was removed *)
  ltarget : option pseudo;
  lsrc1 : option pseudo;
  lsrc2 : option pseudo;
  lsrc3 : option pseudo;
  lphis : list pseudo;              (* phi_list *)
  larguments : list pseudo;
  linputs : list (pseudo * bool);   (* asm_rules: a pseudo and is_memory *)
  loutputs : list (pseudo * bool)
}.

#[export] Instance instruction_eq_dec : EqDecision instruction.
Proof. solve_decision. Defined.

Record lblock : Set := LBlock {
  lparents : list Z;
  lchildren : list Z;
  linsns : list instruction;
  needs : list pseudo;
  defines : list pseudo
}.

Definition set_needs (l : list pseudo) (x : lblock) : lblock := LBlock (lparents x) (lchildren x) (linsns x) l (defines x).
Definition set_defines (l : list pseudo) (x : lblock) : lblock := LBlock (lparents x) (lchildren x) (linsns x) (needs x) l.
Definition set_linsns (l : list instruction) (x : lblock) : lblock := LBlock (lparents x) (lchildren x) l (needs x) (defines x).

(** The blocks and the variable liveness_changed. *)
Record lives : Set := Lives { lblocks : gmap Z lblock; liveness_changed : bool }.

Definition in_ops (o lo hi : Z) : bool := (lo <=? o) && (o <=? hi).

Definition trackable_pseudo (p : option pseudo) : bool :=
  match p with Some (REG _) | Some (ARG _) => true | _ => false end.

Section liveness.
Context (def_of : pseudo -> option instruction).

(** ** What an instruction uses and defines *)

Section usage.
Context {S : Type} (def use : Z -> option pseudo -> S -> option S).

Definition each {A} (f : A -> S -> option S) (l : list A) (s : option S) : option S := foldl (fun s a => s ← s; f a s) s l.

Definition phi_defines (phi_node : instruction) (target : option pseudo) (s : S) : option S :=
  each (fun phi s =>
    if peq phi VOID then Some s
    else
      match x ← def_of phi; lbb x with
      | Some b => def b target s
      | None => Some s
      end) (lphis phi_node) (Some s).

Definition asm_liveness (b : Z) (x : instruction) (s : S) : option S :=
  each (fun '(p, is_memory) s => if is_memory : bool then use b (Some p) s else def b (Some p) s) (loutputs x)
    (each (fun '(p, _) s => use b (Some p) s) (linputs x) (Some s)).

Definition track_instruction_usage (b : Z) (x : instruction) (s : S) : option S :=
  let o := lop x in
  if (o =? RET) || (o =? COMPUTEDGOTO) then use b (lsrc1 x) s
  else if (o =? CBR) || (o =? SWITCH) then use b (lsrc1 x) s
  else if in_ops o BINARY BINARY_END || in_ops o FPCMP FPCMP_END || in_ops o BINCMP BINCMP_END then
    s ← use b (lsrc1 x) s; s ← use b (lsrc2 x) s; def b (ltarget x) s
  else if in_ops o UNOP UNOP_END || (o =? SYMADDR) || (o =? SLICE) then
    s ← use b (lsrc1 x) s; def b (ltarget x) s
  else if o =? SEL then
    s ← use b (lsrc1 x) s; s ← use b (lsrc2 x) s; s ← use b (lsrc3 x) s; def b (ltarget x) s
  else if o =? LOAD then s ← use b (lsrc1 x) s; def b (ltarget x) s
  else if o =? STORE then s ← use b (lsrc1 x) s; use b (ltarget x) s
  else if (o =? LABEL) || (o =? SETVAL) || (o =? SETFVAL) then def b (ltarget x) s
  else if o =? PHINODE then phi_defines x (ltarget x) s
  else if o =? PHISOURCE then use b (lsrc1 x) s
  else if o =? CALL then
    s ← use b (lsrc1 x) s;
    s ← (if bool_decide (ltarget x = Some VOID) then Some s else def b (ltarget x) s);
    each (fun p s => use b (Some p) s) (larguments x) (Some s)
  else if o =? ASM then asm_liveness b x s
  else if o =? OPRANGE then s ← use b (lsrc1 x) s; s ← use b (lsrc2 x) s; use b (lsrc3 x) s
  else Some s.
End usage.

(** ** Liveness between blocks *)

Definition add_pseudo_exclusive (l : list pseudo) (p : pseudo) (changed : bool) : list pseudo * bool :=
  if bool_decide (p ∈ l) then (l, changed) else (l ++ [p], true).

(** add_pseudo_exclusive() to the needs of a block. *)
Definition add_need (b : Z) (p : pseudo) (s : lives) : option lives :=
  x ← lblocks s !! b;
  let '(l, c) := add_pseudo_exclusive (needs x) p (liveness_changed s) in
  Some (Lives (<[b := set_needs l x]> (lblocks s)) c).

Definition insn_uses (b : Z) (p : option pseudo) (s : lives) : option lives :=
  match p with
  | Some p =>
    if trackable_pseudo (Some p) then
      if is_reg p then
        d ← def_of p;
        if negb (bool_decide (lbb d = Some b)) || (lop d =? PHINODE) then add_need b p s else Some s
      else add_need b p s
    else Some s
  | None => Some s
  end.

(** The assertion is the match. *)
Definition insn_defines (b : Z) (p : option pseudo) (s : lives) : option lives :=
  match p with
  | Some p =>
    if trackable_pseudo (Some p) then
      x ← lblocks s !! b; Some (Lives (<[b := set_defines (defines x ++ [p]) x]> (lblocks s)) (liveness_changed s))
    else None
  | None => None
  end.

(** If a block is its own parent the list that is gone through does not change, as the pseudo is in it. *)
Definition track_parent (p : pseudo) (parent : Z) (s : lives) : option lives :=
  x ← lblocks s !! parent; if bool_decide (p ∈ defines x) then Some s else add_need parent p s.

Definition track_bb_liveness (b : Z) (s : lives) : option lives :=
  x ← lblocks s !! b;
  each (fun p s => each (track_parent p) (lparents x) (Some s)) (needs x) (Some s).

Definition clear_liveness (bbs : list Z) (m : gmap Z lblock) : gmap Z lblock :=
  foldl (fun m b => alter (fun x => set_defines [] (set_needs [] x)) b m) m bbs.

Definition track_insn (b : Z) (x : instruction) (s : lives) : option lives :=
  match lbb x with
  | None => Some s
  | Some b' => if b' =? b then track_instruction_usage insn_defines insn_uses b x s else None
  end.

Definition track_usage (bbs : list Z) (s : lives) : option lives :=
  each (fun b s => x ← lblocks s !! b; each (track_insn b) (linsns x) (Some s)) bbs (Some s).

Fixpoint liveness_loop (fuel : nat) (bbs : list Z) (s : lives) : option lives :=
  match fuel with
  | O => None
  | Datatypes.S fuel =>
    s ← each track_bb_liveness (reverse bbs) (Some (Lives (lblocks s) false));
    if liveness_changed s then liveness_loop fuel bbs s else Some s
  end.

(** A round that changes something adds one of the pseudos that are needed somewhere to the needs of a block. *)
Definition all_needs (m : gmap Z lblock) : list pseudo := concat ((fun e => needs e.2) <$> map_to_list m).

Definition rounds (m : gmap Z lblock) : nat := Datatypes.S (base.size m * length (all_needs m)).

Definition is_used (m : gmap Z lblock) (x : lblock) (p : pseudo) : bool :=
  existsb (fun c => match m !! c with Some y => bool_decide (p ∈ needs y) | None => false end) (lchildren x).

Definition remove_internal (bbs : list Z) (m : gmap Z lblock) : gmap Z lblock :=
  foldl (fun m b => alter (fun x => set_defines (List.filter (is_used m x) (defines x)) x) b m) m bbs.

Definition track_pseudo_liveness (bbs : list Z) (s : lives) : option lives :=
  s ← track_usage bbs s;
  s ← liveness_loop (rounds (lblocks s)) bbs s;
  Some (Lives (remove_internal bbs (lblocks s)) (liveness_changed s)).

(** ** Death notes *)

Definition merge_pseudo_list (src : list pseudo) (st : list pseudo * bool) : list pseudo * bool :=
  foldl (fun st p => add_pseudo_exclusive st.1 p st.2) st src.

Definition track_phi_uses (x : instruction) : option unit :=
  each (fun phi u =>
    if peq phi VOID then Some u
    else match def_of phi with None => Some u | Some d => if lop d =? PHISOURCE then Some u else None end) (lphis x) (Some tt).

Definition track_bb_phi_uses (x : lblock) : option unit :=
  each (fun x u => if bool_decide (lbb x = None) || negb (lop x =? PHINODE) then Some u else track_phi_uses x) (linsns x) (Some tt).

(** live_list and dead_list. *)
Definition death_def (b : Z) (p : option pseudo) (st : list pseudo * list pseudo) : option (list pseudo * list pseudo) := Some st.

Definition death_use (b : Z) (p : option pseudo) (st : list pseudo * list pseudo) : option (list pseudo * list pseudo) :=
  match p with
  | Some p =>
    if trackable_pseudo (Some p) && negb (bool_decide (p ∈ st.1)) then Some (st.1 ++ [p], st.2 ++ [p]) else Some st
  | None => Some st
  end.

Definition deathnote (b : Z) (p : pseudo) : instruction := Instruction DEATHNOTE (Some b) (Some p) None None None [] [] [] [].

(** The instructions from the last to the first; the notes, one by one, go right before the instruction. *)
Fixpoint add_deathnotes (b : Z) (rev_insns : list instruction) (live : list pseudo) (done : list instruction) : option (list instruction) :=
  match rev_insns with
  | [] => Some done
  | x :: rest =>
    match lbb x with
    | None => add_deathnotes b rest live (x :: done)
    | Some _ =>
      '(live, dead) ← track_instruction_usage death_def death_use b x (live, []);
      add_deathnotes b rest live (foldl (fun l p => deathnote b p :: l) (x :: done) dead)
    end
  end.

Definition track_pseudo_death_bb (b : Z) (s : lives) : option lives :=
  x ← lblocks s !! b;
  '(live, c) ← each (fun child st => y ← lblocks s !! child; Some (merge_pseudo_list (needs y) st))
                 (lchildren x) (Some ([], liveness_changed s));
  l ← add_deathnotes b (reverse (linsns x)) live [];
  Some (Lives (<[b := set_linsns l x]> (lblocks s)) c).

Definition track_pseudo_death (bbs : list Z) (s : lives) : option lives :=
  _ ← each (fun b u => x ← lblocks s !! b; _ ← track_bb_phi_uses x; Some u) bbs (Some tt);
  each track_pseudo_death_bb bbs (Some s).
End liveness.
