(* ===== verification/LivenessTheorems.v ===== *)
(** * What liveness.c computes

    The operands and results of instructions are taken from the columns of opcode.def.  A pseudo is live at the start of a block if a
    path leads from there to a use without a block that defines it before; track_pseudo_liveness() computes this
    exactly, and the notes of track_pseudo_death() are where a pseudo stops being live. *)
From stdpp Require Import base option gmap list.
From S2P Require Import Prelude Simplify Liveness.
#[local] Open Scope Z_scope.
#[local] Set Warnings "-register-all,-clear-no-such-hyp".

(** ** Loops *)

Lemma each_cons {S A} (f : A -> S -> option S) a l s : each f (a :: l) (Some s) = s ← f a s; each f l (Some s).
Proof. unfold each; cbn. destruct (f a s) as [s'|]; [done|]. cbn. induction l; [done|]. by cbn. Qed.

Lemma each_nil {S A} (f : A -> S -> option S) s : each f [] s = s.
Proof. done. Qed.

Lemma each_app {S A} (f : A -> S -> option S) l k s : each f (l ++ k) s = each f k (each f l s).
Proof. apply foldl_app. Qed.

Lemma each_fmap {S A B} (f : A -> S -> option S) (g : B -> A) l s : each f (g <$> l) s = each (f ∘ g) l s.
Proof. unfold each. revert s. by induction l; intros; cbn. Qed.

Lemma each_None {S A} (f : A -> S -> option S) l : each f l None = None.
Proof. unfold each. by induction l. Qed.

Lemma each_ext {S A} (f g : A -> S -> option S) l s : (forall a s, f a s = g a s) -> each f l s = each g l s.
Proof. intros H. unfold each. revert s. induction l as [|a l IH]; intros s; cbn; [done|]. destruct s; cbn; by rewrite ?H, IH. Qed.

(** A loop whose steps keep an invariant [I] and move along [R]; a step for [a] establishes [Q a], which stays. *)
Lemma each_ind {S A} (f : A -> S -> option S) (I : S -> Prop) (R : relation S) `{!PreOrder R} (Q : A -> S -> Prop) l s :
  (forall a s, a ∈ l -> I s -> exists s', f a s = Some s' /\ R s s' /\ I s' /\ Q a s') ->
  (forall a s s', Q a s -> R s s' -> Q a s') -> I s ->
  exists s', each f l (Some s) = Some s' /\ R s s' /\ I s' /\ forall a, a ∈ l -> Q a s'.
Proof.
  intros Hf HQ. revert s. induction l as [|a l IH]; intros s Hi.
  { exists s. split; [done|]. split; [done|]. split; [done|]. intros a. by rewrite elem_of_nil. }
  destruct (Hf a s) as (s1 & E1 & R1 & I1 & Q1); [left|done|].
  destruct (IH ltac:(intros; apply Hf; [by right|done]) s1 I1) as (s2 & E2 & R2 & I2 & Q2).
  exists s2. rewrite each_cons, E1. split; [done|]. split; [by etransitivity|]. split; [done|].
  intros a' [->|?]%elem_of_cons; [by eapply HQ|by apply Q2].
Qed.

Section facts.
Context (def_of : pseudo -> option instruction).

(** ** What instructions use and define *)

(** The first operands, as many as opcode.def says. *)
Definition table_operands (x : instruction) : list (option pseudo) :=
  take (Z.to_nat (nth (Z.to_nat (lop x)) opcode_arity 0)) [lsrc1 x; lsrc2 x; lsrc3 x].

(** The operands of a call and of an asm() are lists; a store has the value it stores in its target. *)
Definition used (x : instruction) : list (option pseudo) :=
  table_operands x ++ (if lop x =? STORE then [ltarget x] else []) ++
  (if lop x =? CALL then Some <$> larguments x else []) ++
  (if lop x =? ASM then (Some <$> (linputs x).*1) ++ (Some <$> (List.filter snd (loutputs x)).*1) else []).

(** The blocks with the sources of a phi node. *)
Definition phi_blocks (x : instruction) : list Z :=
  omap (fun phi => if peq phi VOID then None else d ← def_of phi; lbb d) (lphis x).

(** A phi node is executed at its sources, which have no result of their own. *)
Definition written (b : Z) (x : instruction) : list (Z * option pseudo) :=
  if lop x =? PHINODE then (fun c => (c, ltarget x)) <$> phi_blocks x
  else if lop x =? ASM then (fun p => (b, Some p)) <$> (List.filter (fun o => negb o.2) (loutputs x)).*1
  else if (lop x =? PHISOURCE) || (lop x =? CALL) && bool_decide (ltarget x = Some VOID) then []
  else if nth (Z.to_nat (lop x)) opcode_target false then [(b, ltarget x)] else [].

(** Uses and definitions in the order of the code. *)
Inductive event : Set := EUse (b : Z) (p : option pseudo) | EDef (b : Z) (p : option pseudo).

Definition asm_event (b : Z) (o : pseudo * bool) : event := if o.2 then EUse b (Some o.1) else EDef b (Some o.1).

Definition events (b : Z) (x : instruction) : list event :=
  if lop x =? ASM then ((fun o => EUse b (Some o.1)) <$> linputs x) ++ (asm_event b <$> loutputs x)
  else (EUse b <$> table_operands x ++ (if lop x =? STORE then [ltarget x] else [])) ++
       ((fun w => EDef w.1 w.2) <$> written b x) ++
       (if lop x =? CALL then (fun p => EUse b (Some p)) <$> larguments x else []).

Lemma in_fmap_use b (l : list (option pseudo)) c p : EUse c p ∈ EUse b <$> l <-> c = b /\ p ∈ l.
Proof. set_solver. Qed.

Lemma in_fmap_def (l : list (Z * option pseudo)) c p : EDef c p ∈ ((fun w => EDef w.1 w.2) <$> l) <-> (c, p) ∈ l.
Proof.
  rewrite list_elem_of_fmap. split; [intros ([] & [= -> ->] & ?); done|]. intros. by exists (c, p).
Qed.

Lemma asm_event_use b (l : list (pseudo * bool)) c p : EUse c p ∈ asm_event b <$> l <-> c = b /\ p ∈ Some <$> (List.filter snd l).*1.
Proof. induction l as [|[q []] l IH]; cbn; rewrite ?elem_of_nil, ?elem_of_cons, ?IH; naive_solver. Qed.

Lemma asm_event_def b (l : list (pseudo * bool)) c p :
  EDef c p ∈ asm_event b <$> l <-> (c, p) ∈ ((fun p => (b, Some p)) <$> (List.filter (fun o => negb o.2) l).*1).
Proof. induction l as [|[q []] l IH]; cbn; rewrite ?elem_of_nil, ?elem_of_cons, ?IH; naive_solver. Qed.

Lemma in_events_use b x c p : EUse c p ∈ events b x <-> c = b /\ p ∈ used x.
Proof.
  unfold events, used. destruct (Z.eqb_spec (lop x) ASM) as [E|E].
  - unfold table_operands. rewrite E. cbn -[elem_of fmap list_fmap]. rewrite !elem_of_app, asm_event_use. set_solver.
  - rewrite app_nil_r, !elem_of_app, in_fmap_use, !elem_of_app. destruct (lop x =? CALL); set_solver.
Qed.

Lemma in_events_def b x c p : EDef c p ∈ events b x <-> (c, p) ∈ written b x.
Proof.
  unfold events. destruct (Z.eqb_spec (lop x) ASM) as [E|E].
  - unfold written. rewrite E. cbn -[elem_of fmap list_fmap]. rewrite !elem_of_app, asm_event_def. set_solver.
  - rewrite !elem_of_app, in_fmap_def. destruct (lop x =? CALL); set_solver.
Qed.

(** The opcodes of opcode.def that track_instruction_usage() knows; it has no case for the other two. *)
Definition known_opcode (o : Z) : bool := (0 <=? o) && (o <? 82) && negb (o =? FMADD) && negb (o =? COPY).

Definition on_event {S} (def use : Z -> option pseudo -> S -> option S) (e : event) : S -> option S :=
  match e with EUse b p => use b p | EDef b p => def b p end.

Lemma known_opcode_in o : known_opcode o = true -> o ∈ seqZ 0 82 /\ o <> FMADD /\ o <> COPY.
Proof. unfold known_opcode. intros H. rewrite elem_of_seqZ. unfold FMADD, COPY in *. lia. Qed.

Lemma phi_defines_events {S} (def use : Z -> option pseudo -> S -> option S) b x s : lop x = PHINODE ->
  phi_defines def_of def x (ltarget x) s = each (on_event def use) (events b x) (Some s).
Proof.
  intros E. unfold events, written, table_operands, phi_defines, phi_blocks. rewrite E.
  change (PHINODE =? ASM) with false. change (PHINODE =? STORE) with false. change (PHINODE =? CALL) with false.
  change (PHINODE =? PHINODE) with true. cbn [app]. rewrite !each_app, !each_fmap. change (take _ _ ++ []) with (@nil (option pseudo)).
  rewrite !each_nil. generalize (lphis x) as l. intros l. revert s.
  induction l as [|phi l IH]; intros s; [done|]. rewrite each_cons. cbn [omap list_omap].
  destruct (peq phi VOID); [by apply IH|]. destruct (def_of phi) as [d|]; [|by apply IH].
  cbn [mbind option_bind]. destruct (lbb d) as [c|]; [|by apply IH]. rewrite each_cons.
  cbn -[each]. destruct (def c (ltarget x) s); [by apply IH|done].
Qed.

Lemma asm_events {S} (def use : Z -> option pseudo -> S -> option S) b x s : lop x = ASM ->
  asm_liveness def use b x s = each (on_event def use) (events b x) (Some s).
Proof.
  intros E. unfold events, asm_liveness. rewrite E. change (ASM =? ASM) with true. cbn [negb].
  rewrite each_app, !each_fmap. apply eq_trans with (each (on_event def use ∘ asm_event b) (loutputs x)
    (each (fun '(p, _) s => use b (Some p) s) (linputs x) (Some s))).
  - apply each_ext. by intros [p []] s'.
  - f_equal. apply each_ext. by intros [] s'.
Qed.

Lemma call_events {S} (def use : Z -> option pseudo -> S -> option S) b x s : lop x = CALL ->
  track_instruction_usage def_of def use b x s = each (on_event def use) (events b x) (Some s).
Proof.
  intros E. unfold events, table_operands, written, track_instruction_usage. rewrite E.
  change (CALL =? ASM) with false. change (CALL =? STORE) with false. change (CALL =? CALL) with true.
  change (CALL =? PHINODE) with false. change (CALL =? PHISOURCE) with false. cbn [andb orb].
  change (take _ _ ++ []) with [lsrc1 x]. change (nth _ _ false) with true. rewrite !each_app. cbn -[each].
  rewrite each_cons. cbn -[each]. destruct (use b (lsrc1 x) s) as [s1|]; cbn -[each]; [|by rewrite !each_None].
  rewrite each_nil, each_fmap. case_bool_decide; cbn -[each]; [done|].
  rewrite each_cons. cbn -[each]. by destruct (def b (ltarget x) s1) as [s2|]; cbn -[each]; rewrite ?each_None.
Qed.

(** The switch of track_instruction_usage() agrees with opcode.def. *)
Lemma track_instruction_usage_events {S} (def use : Z -> option pseudo -> S -> option S) b x s :
  known_opcode (lop x) = true ->
  track_instruction_usage def_of def use b x s = each (on_event def use) (events b x) (Some s).
Proof.
  intros (Ho & N1 & N2)%known_opcode_in.
  destruct (decide (lop x = PHINODE)) as [Ep|Np].
  { rewrite <- phi_defines_events by done. unfold track_instruction_usage. by rewrite Ep. }
  destruct (decide (lop x = ASM)) as [Ea|Na].
  { rewrite <- asm_events by done. unfold track_instruction_usage. by rewrite Ea. }
  destruct (decide (lop x = CALL)) as [Ec|Nc]; [by apply call_events|].
  apply list_elem_of_In in Ho. destruct x as [o ? t p q r ? ? ? ?]; cbn [lop] in *. cbv in Ho.
  repeat (destruct Ho as [<-|Ho]; [try done; vm_compute;
    repeat (match goal with |- context [use ?a ?c ?d] => destruct (use a c d) end); reflexivity|]).
  done.
Qed.

(** ** States *)

Definition needs_at (m : gmap Z lblock) (b : Z) : list pseudo := match m !! b with Some x => needs x | None => [] end.
Definition defines_at (m : gmap Z lblock) (b : Z) : list pseudo := match m !! b with Some x => defines x | None => [] end.

(** What liveness does not change. *)
Definition shape (m : gmap Z lblock) : gmap Z (list Z * list Z * list instruction) :=
  (fun x => (lparents x, lchildren x, linsns x)) <$> m.

Lemma shape_lookup m m' b x : shape m' = shape m -> m !! b = Some x ->
  exists y, m' !! b = Some y /\ lparents y = lparents x /\ lchildren y = lchildren x /\ linsns y = linsns x.
Proof.
  intros H Hx. apply (f_equal (lookup b)) in H. unfold shape in H. rewrite !lookup_fmap, Hx in H.
  destruct (m' !! b) as [y|]; [|done]. exists y. cbn in H. by simplify_eq.
Qed.

Lemma shape_insert m b x y : m !! b = Some x ->
  lparents y = lparents x -> lchildren y = lchildren x -> linsns y = linsns x -> shape (<[b := y]> m) = shape m.
Proof.
  intros Hx E1 E2 E3. unfold shape. rewrite fmap_insert. apply insert_id. rewrite lookup_fmap, Hx. cbn. by rewrite E1, E2, E3.
Qed.

Lemma needs_at_insert m b y c : needs_at (<[b := y]> m) c = if bool_decide (b = c) then needs y else needs_at m c.
Proof. unfold needs_at. case_bool_decide as E; [subst; by rewrite lookup_insert_eq|by rewrite lookup_insert_ne]. Qed.

Lemma defines_at_insert m b y c : defines_at (<[b := y]> m) c = if bool_decide (b = c) then defines y else defines_at m c.
Proof. unfold defines_at. case_bool_decide as E; [subst; by rewrite lookup_insert_eq|by rewrite lookup_insert_ne]. Qed.

(** A pseudo that is used in a block comes from outside: an argument, or defined in another block or by a phi node. *)
Definition from_outside (b : Z) (p : pseudo) : bool :=
  trackable_pseudo (Some p) &&
  (negb (is_reg p) || match def_of p with Some d => negb (bool_decide (lbb d = Some b)) || (lop d =? PHINODE) | None => false end).

(** The effect of uses and definitions on the lists of the blocks. *)
Record marked (evs : list event) (s s' : lives) : Prop := {
  mk_shape : shape (lblocks s') = shape (lblocks s);
  mk_needs : forall b p, p ∈ needs_at (lblocks s') b <-> p ∈ needs_at (lblocks s) b \/ EUse b (Some p) ∈ evs /\ from_outside b p = true;
  mk_defines : forall b p, p ∈ defines_at (lblocks s') b <-> p ∈ defines_at (lblocks s) b \/ EDef b (Some p) ∈ evs;
  mk_nodup : (forall b, NoDup (needs_at (lblocks s) b)) -> forall b, NoDup (needs_at (lblocks s') b)
}.

Lemma marked_nil s : marked [] s s.
Proof. split; [done|set_solver|set_solver|done]. Qed.

Lemma marked_app e1 e2 s1 s2 s3 : marked e1 s1 s2 -> marked e2 s2 s3 -> marked (e1 ++ e2) s1 s3.
Proof.
  intros [A1 A2 A3 A4] [B1 B2 B3 B4]. split; [congruence| | |auto]; intros b p.
  - rewrite B2, A2, elem_of_app. tauto.
  - rewrite B3, A3, elem_of_app. tauto.
Qed.

Lemma marked_each {A} (f : A -> lives -> option lives) (g : A -> list event) l s :
  (forall a s', a ∈ l -> shape (lblocks s') = shape (lblocks s) -> exists s'', f a s' = Some s'' /\ marked (g a) s' s'') ->
  exists s', each f l (Some s) = Some s' /\ marked (l ≫= g) s s'.
Proof.
  intros H. set (sh := shape (lblocks s)) in H. assert (shape (lblocks s) = sh) as Hs by done. clearbody sh. revert s Hs.
  induction l as [|a l IH]; intros s Hs; [exists s; split; [done|apply marked_nil]|].
  destruct (H a s) as (s1 & E1 & M1); [left|done|]. rewrite each_cons, E1. cbn -[each].
  destruct (IH ltac:(intros; apply H; [by right|done]) s1) as (s2 & E2 & M2); [by rewrite (mk_shape _ _ _ M1)|].
  exists s2. split; [done|]. by eapply marked_app.
Qed.

(** *** One use, one definition *)

Lemma add_need_spec b p s x : lblocks s !! b = Some x ->
  exists l, add_need b p s = Some (Lives (<[b := set_needs l x]> (lblocks s)) (liveness_changed s || bool_decide (p ∉ needs x))) /\
    (l = needs x /\ p ∈ needs x \/ l = needs x ++ [p] /\ p ∉ needs x).
Proof.
  intros Hx. unfold add_need, add_pseudo_exclusive. rewrite Hx. cbn. case_bool_decide as E.
  - exists (needs x). rewrite bool_decide_false by (intros ?; done). rewrite orb_false_r. auto.
  - exists (needs x ++ [p]). rewrite bool_decide_true, orb_true_r by done. auto.
Qed.

Lemma add_need_elem l x (p q : pseudo) : l = needs x /\ p ∈ needs x \/ l = needs x ++ [p] /\ p ∉ needs x ->
  q ∈ l <-> q ∈ needs x \/ q = p.
Proof. intros [[-> ?]|[-> ?]]; set_solver. Qed.

Lemma add_need_nodup l x (p : pseudo) : l = needs x /\ p ∈ needs x \/ l = needs x ++ [p] /\ p ∉ needs x -> NoDup (needs x) -> NoDup l.
Proof. intros [[-> ?]|[-> ?]]; [done|]. intros. apply list.NoDup_app. split; [done|]. split; [set_solver|apply NoDup_singleton]. Qed.

Lemma needs_at_self (m : gmap Z lblock) b x : m !! b = Some x -> needs_at m b = needs x.
Proof. unfold needs_at. by intros ->. Qed.

Lemma defines_at_self (m : gmap Z lblock) b x : m !! b = Some x -> defines_at m b = defines x.
Proof. unfold defines_at. by intros ->. Qed.

Lemma marked_skip b p s : match p with Some p => from_outside b p = false | None => True end -> marked [EUse b p] s s.
Proof. intros H. split; [done| |set_solver|done]. intros c q. rewrite list_elem_of_singleton. split; [auto|]. intros [?|[[= -> <-] ?]]; [done|congruence]. Qed.

Lemma add_need_marked b p s x : lblocks s !! b = Some x -> from_outside b p = true ->
  exists s', add_need b p s = Some s' /\ marked [EUse b (Some p)] s s'.
Proof.
  intros Hx Ho. destruct (add_need_spec b p s x Hx) as (l & -> & Hl). eexists. split; [done|].
  split; cbn; [by apply (shape_insert _ _ x)| | |].
  - intros c q. rewrite needs_at_insert, list_elem_of_singleton. case_bool_decide as E.
    + subst c. cbn. rewrite (add_need_elem l x p q Hl), (needs_at_self _ _ _ Hx). naive_solver.
    + naive_solver.
  - intros c q. rewrite defines_at_insert. case_bool_decide as E; [|set_solver].
    subst c. cbn. rewrite (defines_at_self _ _ _ Hx). set_solver.
  - intros Hn c. rewrite needs_at_insert. case_bool_decide as E; [|done]. cbn.
    eapply add_need_nodup; [exact Hl|]. rewrite <- (needs_at_self _ _ _ Hx). apply Hn.
Qed.

(** An event that the code can handle: it does not use a register without a definition, nor assign to what is not a register. *)
Definition event_okb (bbs : list Z) (e : event) : bool :=
  match e with
  | EUse _ None => true
  | EUse _ (Some p) => negb (is_reg p) || bool_decide (is_Some (def_of p))
  | EDef b p => bool_decide (b ∈ bbs) && trackable_pseudo p
  end.

Lemma on_event_marked bbs e s :
  event_okb bbs e = true -> (forall b p, e = EUse b p -> b ∈ bbs) -> (forall b, b ∈ bbs -> is_Some (lblocks s !! b)) ->
  exists s', on_event insn_defines (insn_uses def_of) e s = Some s' /\ marked [e] s s'.
Proof.
  intros Ok Hb Hm. destruct e as [b [p|]|b [p|]]; cbn in Ok; cbn [on_event].
  - destruct (Hm b) as [x Hx]; [by eapply Hb|].
    assert (from_outside b p = true /\ insn_uses def_of b (Some p) s = add_need b p s \/
            from_outside b p = false /\ insn_uses def_of b (Some p) s = Some s) as [[Ho E]|[Ho E]].
    { unfold from_outside. destruct p as [| | |n| | |]; cbn in *; auto.
      apply bool_decide_eq_true in Ok as [d Hd]. rewrite Hd. cbn. destruct (_ || _); auto. }
    + rewrite E. by apply (add_need_marked _ _ _ x).
    + exists s. split; [done|]. by apply marked_skip.
  - exists s. split; [done|]. by apply marked_skip.
  - apply andb_true_iff in Ok as [Hin%bool_decide_eq_true Et]. destruct (Hm b Hin) as [x Hx].
    eexists. split; [destruct p; try done; cbn; by rewrite Hx|].
    split; cbn; [by apply (shape_insert _ _ x)| | |].
    + intros c q. rewrite needs_at_insert, list_elem_of_singleton. case_bool_decide; [subst; cbn; rewrite (needs_at_self _ _ _ Hx)|]; naive_solver.
    + intros c q. rewrite defines_at_insert, list_elem_of_singleton. case_bool_decide; [|naive_solver].
      subst. cbn. rewrite (defines_at_self _ _ _ Hx), elem_of_app, list_elem_of_singleton. naive_solver.
    + intros Hn c. rewrite needs_at_insert. case_bool_decide; [|done]. cbn. rewrite <- (needs_at_self _ _ _ Hx). apply Hn.
  - by destruct (bool_decide _).
Qed.

(** ** Functions *)

(** The sources of a phi node are phi sources. *)
Definition phi_okb (phi : pseudo) : bool :=
  peq phi VOID || match def_of phi with None => true | Some d => lop d =? PHISOURCE end.

Definition insn_okb (bbs : list Z) (b : Z) (x : instruction) : bool :=
  match lbb x with
  | None => true
  | Some c =>
    (c =? b) && known_opcode (lop x) && forallb (event_okb bbs) (events b x) &&
    (negb (lop x =? PHINODE) || forallb phi_okb (lphis x))
  end.

Definition block_okb (bbs : list Z) (b : Z) (x : lblock) : bool :=
  forallb (fun c => bool_decide (c ∈ bbs)) (lparents x ++ lchildren x) && forallb (insn_okb bbs b) (linsns x).

(** The blocks of a function, with edges between them; their instructions have the block they are in, an opcode
    that liveness.c knows, registers with definitions as operands and registers as results. *)
Definition function_ok (bbs : list Z) (m : gmap Z lblock) : Prop :=
  NoDup bbs /\ dom m = list_to_set (C := gset Z) bbs /\ map_Forall (fun b x => block_okb bbs b x = true) m.

Definition in_block (m : gmap Z lblock) (b : Z) (x : instruction) : Prop :=
  exists y, m !! b = Some y /\ x ∈ linsns y /\ lbb x = Some b.

Lemma function_ok_block bbs m b : function_ok bbs m -> b ∈ bbs <-> is_Some (m !! b).
Proof. intros (_ & Hd & _). rewrite <- elem_of_dom, Hd. set_solver. Qed.

Lemma function_ok_edge bbs m b x c : function_ok bbs m -> m !! b = Some x -> c ∈ lparents x \/ c ∈ lchildren x -> is_Some (m !! c).
Proof.
  intros Hok Hx Hc. rewrite <- (function_ok_block bbs) by done. destruct Hok as (_ & _ & Hok). specialize (Hok b x Hx). cbn in Hok.
  apply andb_true_iff in Hok as [He _]. rewrite forallb_forall in He. specialize (He c). rewrite bool_decide_eq_true in He.
  apply He, list_elem_of_In, elem_of_app. tauto.
Qed.

Lemma function_ok_insn bbs m b x i : function_ok bbs m -> m !! b = Some x -> i ∈ linsns x ->
  lbb i = None \/ lbb i = Some b /\ known_opcode (lop i) = true /\ Forall (fun e => event_okb bbs e = true) (events b i) /\
    (lop i = PHINODE -> Forall (fun phi => phi_okb phi = true) (lphis i)).
Proof.
  intros (_ & _ & Hok) Hx Hi. specialize (Hok b x Hx). cbn in Hok. apply andb_true_iff in Hok as [_ Hok].
  rewrite forallb_forall in Hok. specialize (Hok i (proj1 (list_elem_of_In _ _) Hi)). unfold insn_okb in Hok.
  destruct (lbb i) as [c|]; [right|by left]. rewrite !andb_true_iff, orb_true_iff, negb_true_iff in Hok. destruct Hok as [[[Hc Hk] He] Hp].
  rewrite !List.Forall_forall. rewrite forallb_forall in He. split; [f_equal; lia|]. split; [done|]. split; [done|].
  intros Ep. rewrite Ep in Hp. destruct Hp as [?|Hp]; [done|]. by rewrite forallb_forall in Hp.
Qed.

(** *** The first pass *)

Definition block_events (m : gmap Z lblock) (b : Z) : list event :=
  match m !! b with
  | Some x => linsns x ≫= fun i => match lbb i with Some _ => events b i | None => [] end
  | None => []
  end.

Lemma track_insn_marked bbs m b x i s : function_ok bbs m -> m !! b = Some x -> i ∈ linsns x -> shape (lblocks s) = shape m ->
  exists s', track_insn def_of b i s = Some s' /\ marked (match lbb i with Some _ => events b i | None => [] end) s s'.
Proof.
  intros Hok Hx Hi Hs. unfold track_insn.
  destruct (function_ok_insn bbs m b x i Hok Hx Hi) as [->|(-> & Hk & He & _)]; [exists s; split; [done|apply marked_nil]|].
  rewrite Z.eqb_refl, track_instruction_usage_events by done.
  destruct (marked_each (on_event insn_defines (insn_uses def_of)) (fun e => [e]) (events b i) s) as (s' & E & M).
  { intros e s' Hin Hs'. apply (on_event_marked bbs); [by eapply (proj1 (list.Forall_forall _ _) He)| |].
    - intros c p ->. apply in_events_use in Hin as [-> _]. apply (function_ok_block bbs m b Hok). eauto.
    - intros c Hc. apply (function_ok_block bbs m c Hok) in Hc as [y Hy].
      destruct (shape_lookup m (lblocks s') c y) as (z & -> & _); [congruence|done|eauto]. }
  exists s'. split; [done|]. replace (events b i) with (events b i ≫= fun e => [e]); [done|].
  clear. induction (events b i) as [|e l IH]; [done|]. cbn. by f_equal.
Qed.

Lemma track_usage_marked bbs m s : function_ok bbs m -> shape (lblocks s) = shape m ->
  exists s', track_usage def_of bbs s = Some s' /\ marked (bbs ≫= block_events m) s s'.
Proof.
  intros Hok Hs. unfold track_usage. apply marked_each. intros b s' Hb Hs'.
  apply (function_ok_block bbs m b Hok) in Hb as [x Hx]. unfold block_events. rewrite Hx.
  destruct (shape_lookup m (lblocks s') b x) as (y & -> & _ & _ & Ei); [congruence|done|]. cbn -[each]. rewrite Ei.
  apply marked_each. intros i s'' Hi Hs''. apply (track_insn_marked bbs m b x); [done|done|done|congruence].
Qed.

(** ** The rounds *)

Definition total (m : gmap Z lblock) : nat := map_fold (fun _ x n => length (needs x) + n)%nat 0%nat m.

Lemma total_insert m b x y : m !! b = Some x -> (total (<[b := y]> m) + length (needs x) = total m + length (needs y))%nat.
Proof.
  intros Hx. unfold total. rewrite (map_fold_delete_L _ _ b x m), (map_fold_delete_L _ _ b y (<[b := y]> m));
    [|intros; lia|by rewrite lookup_insert_eq|intros; lia|done]. rewrite delete_insert_eq. lia.
Qed.

Lemma total_bound m k : (forall b, length (needs_at m b) <= k)%nat -> (total m <= base.size m * k)%nat.
Proof.
  induction m as [|b x m Hb IH] using map_ind; intros H; [done|].
  unfold total. rewrite map_fold_insert_L by (done || intros; lia). fold (total m). rewrite map_size_insert_None by done.
  pose proof (H b) as Hx. rewrite needs_at_insert, bool_decide_true in Hx by done.
  assert (total m <= base.size m * k)%nat; [|lia]. apply IH. intros c. specialize (H c). rewrite needs_at_insert in H.
  case_bool_decide as E; [|done]. subst c. unfold needs_at. rewrite Hb. cbn. lia.
Qed.

(** The needs of blocks grow, and the flag tells of it. *)
Record grows (s s' : lives) : Prop := {
  gr_shape : shape (lblocks s') = shape (lblocks s);
  gr_defines : forall b, defines_at (lblocks s') b = defines_at (lblocks s) b;
  gr_needs : forall b p, p ∈ needs_at (lblocks s) b -> p ∈ needs_at (lblocks s') b;
  gr_changed : s' = s \/ liveness_changed s' = true /\ (total (lblocks s) < total (lblocks s'))%nat
}.

#[local] Instance grows_preorder : PreOrder grows.
Proof.
  split; [by split; auto|]. intros s1 s2 s3 [A1 A2 A3 A4] [B1 B2 B3 B4].
  split; [congruence|intros; by rewrite B2, A2|auto|]. destruct B4 as [->|[? ?]]; [done|right].
  split; [done|]. destruct A4 as [->|[? ?]]; lia.
Qed.

Lemma grows_total s s' : grows s s' -> (total (lblocks s) <= total (lblocks s'))%nat.
Proof. intros [_ _ _ [->|[? ?]]]; lia. Qed.

Lemma add_need_grows b p s x : lblocks s !! b = Some x -> exists s', add_need b p s = Some s' /\ grows s s'.
Proof.
  intros Hx. destruct (add_need_spec b p s x Hx) as (l & -> & Hl). eexists. split; [done|].
  split; cbn; [by apply (shape_insert _ _ x)| | |].
  - intros c. rewrite defines_at_insert. case_bool_decide; [subst; cbn; by rewrite (defines_at_self _ _ _ Hx)|done].
  - intros c q. rewrite needs_at_insert. case_bool_decide; [|done]. subst. cbn. rewrite (needs_at_self _ _ _ Hx).
    intros ?. apply (add_need_elem l x p q Hl). auto.
  - destruct Hl as [[-> Hin]|[-> Hin]]; [left|right].
    + rewrite bool_decide_false, orb_false_r by (intros ?; done). destruct s as [m c]; cbn in *. f_equal. rewrite insert_id; [done|]. by destruct x.
    + rewrite bool_decide_true, orb_true_r by done. split; [done|]. pose proof (total_insert _ _ _ (set_needs (needs x ++ [p]) x) Hx) as T.
      cbn in T. rewrite length_app in T. cbn in T. lia.
Qed.

Section loop.
Context (bbs : list Z) (m0 : gmap Z lblock) (Hok : function_ok bbs m0).

(** From the blocks that need a pseudo to begin with, up to those that define it. *)
Inductive flows (p : pseudo) : Z -> Prop :=
  | flows_here b : p ∈ needs_at m0 b -> flows p b
  | flows_up b c y : m0 !! c = Some y -> b ∈ lparents y -> p ∉ defines_at m0 b -> flows p c -> flows p b.

Record during (s : lives) : Prop := {
  du_shape : shape (lblocks s) = shape m0;
  du_defines : forall b, defines_at (lblocks s) b = defines_at m0 b;
  du_start : forall b p, p ∈ needs_at m0 b -> p ∈ needs_at (lblocks s) b;
  du_flows : forall b p, p ∈ needs_at (lblocks s) b -> flows p b;
  du_nodup : forall b, NoDup (needs_at (lblocks s) b)
}.

Lemma during_lookup s b : during s -> is_Some (m0 !! b) -> is_Some (lblocks s !! b).
Proof. intros [Hs _ _ _ _] [x Hx]. destruct (shape_lookup m0 (lblocks s) b x) as (y & -> & _); eauto. Qed.

Lemma track_parent_during p b c y s :
  m0 !! c = Some y -> b ∈ lparents y -> flows p c -> during s ->
  exists s', track_parent p b s = Some s' /\ grows s s' /\ during s' /\ (p ∈ needs_at (lblocks s') b \/ p ∈ defines_at m0 b).
Proof.
  intros Hc Hb Hp Hd. destruct (during_lookup s b) as [x Hx]; [done|by eapply (function_ok_edge bbs m0 c y); eauto|].
  unfold track_parent. rewrite Hx. cbn. rewrite <- (defines_at_self _ _ _ Hx), (du_defines _ Hd).
  case_bool_decide as Ed; [exists s; do 2 (split; [done|]); auto|].
  destruct (add_need_grows b p s x Hx) as (s' & E & G). exists s'. split; [done|]. split; [done|].
  destruct (add_need_spec b p s x Hx) as (l & E' & Hl). rewrite E in E'. injection E' as ->. clear E. cbn in *.
  pose proof (needs_at_self _ _ _ Hx) as Nx.
  assert (forall c q, q ∈ needs_at (<[b := set_needs l x]> (lblocks s)) c <-> q ∈ needs_at (lblocks s) c \/ c = b /\ q = p) as Hn.
  { clear G. intros d q. rewrite needs_at_insert. case_bool_decide as E1; [subst d; cbn; rewrite (add_need_elem l x p q Hl), Nx|]; naive_solver. }
  split; [|left; apply Hn; auto]. destruct G as [G1 G2 _ _]. cbn in G1, G2. split; cbn.
  - rewrite G1. apply Hd.
  - intros d. rewrite G2. apply Hd.
  - intros d q Hq. apply Hn. left. by apply Hd.
  - intros d q [Hq|[-> ->]]%Hn; [by apply Hd|]. by eapply flows_up.
  - intros d. rewrite needs_at_insert. case_bool_decide; [|apply Hd]. cbn. eapply add_need_nodup; [exact Hl|]. rewrite <- Nx. apply Hd.
Qed.

(** What a block needs is needed in its parents or defined there. *)
Definition passed_up (b : Z) (s s' : lives) : Prop :=
  forall y p c, m0 !! b = Some y -> p ∈ needs_at (lblocks s) b -> c ∈ lparents y -> p ∈ needs_at (lblocks s') c \/ p ∈ defines_at m0 c.

Lemma track_bb_liveness_during b s : b ∈ bbs -> during s ->
  exists s', track_bb_liveness b s = Some s' /\ grows s s' /\ during s' /\ passed_up b s s'.
Proof.
  intros [y Hy]%(function_ok_block bbs m0 b Hok) Hd.
  destruct (shape_lookup m0 (lblocks s) b y) as (x & Hx & Ep & _ & _); [apply Hd|done|].
  unfold track_bb_liveness. rewrite Hx. cbn -[each]. rewrite Ep.
  destruct (each_ind (fun p s => each (track_parent p) (lparents y) (Some s)) during grows
    (fun p s => forall c, c ∈ lparents y -> p ∈ needs_at (lblocks s) c \/ p ∈ defines_at m0 c) (needs x) s) as (s' & E & G & D & Q); [| |done|].
  - intros p s1 Hp D1. apply (each_ind (track_parent p) during grows (fun c s => p ∈ needs_at (lblocks s) c \/ p ∈ defines_at m0 c)); [| |done].
    + intros c s2 Hc D2. apply (track_parent_during p c b y); try done. apply Hd. by rewrite (needs_at_self _ _ _ Hx).
    + intros c s2 s3 [?|?] G; [left; by apply (gr_needs _ _ G)|by right].
  - intros p s2 s3 Hp G c Hc. destruct (Hp c Hc); [left; by apply (gr_needs _ _ G)|by right].
  - exists s'. do 3 (split; [done|]). intros y' p c Hy' Hp Hc. rewrite Hy in Hy'. injection Hy' as <-.
    rewrite (needs_at_self _ _ _ Hx) in Hp. by apply Q.
Qed.

Lemma round_during s : during s ->
  exists s', each track_bb_liveness (reverse bbs) (Some s) = Some s' /\ grows s s' /\ during s' /\
    (s' = s -> forall b, b ∈ bbs -> passed_up b s s).
Proof.
  intros Hd.
  destruct (each_ind track_bb_liveness (fun t => during t /\ grows s t) grows
    (fun b t => exists sb, grows s sb /\ grows sb t /\ passed_up b sb t) (reverse bbs) s) as (s' & E & G & [D _] & Q); [| |done|].
  - intros b t Hb [Dt Gt]. rewrite elem_of_reverse in Hb. destruct (track_bb_liveness_during b t Hb Dt) as (t' & E & G & D & P).
    exists t'. split; [done|]. split; [done|]. split; [split; [done|by etransitivity]|]. by exists t.
  - intros b t t' (sb & G1 & G2 & P) G. exists sb. split; [done|]. split; [by etransitivity|].
    intros y p c Hy Hp Hc. destruct (P y p c Hy Hp Hc); [left; by apply (gr_needs _ _ G)|by right].
  - exists s'. do 3 (split; [done|]). intros -> b Hb. destruct (Q b) as (sb & G1 & G2 & P); [by apply elem_of_reverse|].
    apply grows_total in G2. destruct (gr_changed _ _ G1) as [->|[_ ?]]; [done|lia].
Qed.

Lemma passed_up_flows s : during s -> (forall b, b ∈ bbs -> passed_up b s s) ->
  forall b p, p ∈ needs_at (lblocks s) b <-> flows p b.
Proof.
  intros Hd Hp b p. split; [apply Hd|]. induction 1 as [b Hb|b c y Hc Hb Hn Hf IH]; [by apply Hd|].
  destruct (Hp c ltac:(apply (function_ok_block bbs m0 c Hok); eauto) y p b Hc IH Hb); done.
Qed.

Lemma flows_all_needs p b : flows p b -> p ∈ all_needs m0.
Proof.
  induction 1 as [b Hb|]; [|done]. unfold needs_at in Hb. destruct (m0 !! b) as [x|] eqn:Hx; [|by apply elem_of_nil in Hb].
  unfold all_needs. apply list_elem_of_In, in_concat. exists (needs x). rewrite <- !list_elem_of_In. split; [|done]. apply list_elem_of_fmap.
  exists (b, x). split; [done|]. by apply elem_of_map_to_list.
Qed.

Lemma during_bound s : during s -> (total (lblocks s) <= base.size m0 * length (all_needs m0))%nat.
Proof.
  intros Hd. assert (base.size m0 = base.size (lblocks s)) as ->.
  { pose proof (f_equal base.size (du_shape _ Hd)) as E. unfold shape in E. by rewrite !map_size_fmap in E. }
  apply total_bound. intros b. apply submseteq_length, NoDup_submseteq; [apply Hd|]. intros p Hp. by apply (flows_all_needs p b), Hd.
Qed.

Lemma liveness_loop_flows fuel s : during s ->
  (base.size m0 * length (all_needs m0) < fuel + total (lblocks s))%nat ->
  exists s', liveness_loop fuel bbs s = Some s' /\ during s' /\ forall b p, p ∈ needs_at (lblocks s') b <-> flows p b.
Proof.
  revert s. induction fuel as [|fuel IH]; intros s Hd Hf; [pose proof (during_bound s Hd); lia|]. cbn -[each].
  destruct (round_during (Lives (lblocks s) false)) as (s' & -> & G & D & P); [by destruct Hd; split|]. cbn -[each].
  destruct (liveness_changed s') eqn:Ec.
  - apply IH; [done|]. destruct (gr_changed _ _ G) as [->|[_ Ht]]; [done|]. cbn in Ht. lia.
  - exists s'. split; [done|]. split; [done|]. apply passed_up_flows; [done|].
    destruct (gr_changed _ _ G) as [->|[? _]]; [by apply P|congruence].
Qed.
End loop.

(** ** The lists at the end *)

Lemma alter_each (F : gmap Z lblock -> lblock -> lblock) l m :
  NoDup l -> (forall m' x, (forall c, m' !! c = m !! c \/ m' !! c = F m <$> m !! c) -> F m' x = F m x) ->
  forall b, foldl (fun m b => alter (F m) b m) m l !! b = if bool_decide (b ∈ l) then F m <$> m !! b else m !! b.
Proof.
  intros Hl HF. induction l as [|c l IH] using rev_ind; intros b; [done|].
  apply list.NoDup_app in Hl as (Hl & Hc & _). specialize (IH Hl). rewrite foldl_snoc. set (m' := foldl _ m l) in *.
  destruct (decide (c = b)) as [->|Ne].
  - rewrite lookup_alter_eq, IH, bool_decide_false, bool_decide_true by set_solver. destruct (m !! b); [|done]. cbn. f_equal.
    apply HF. intros d. rewrite IH. case_bool_decide; auto.
  - rewrite lookup_alter_ne, IH by done. by rewrite (bool_decide_ext (b ∈ l ++ [c]) (b ∈ l)) by set_solver.
Qed.

Lemma alter_all (F : gmap Z lblock -> lblock -> lblock) bbs m b : function_ok bbs m ->
  (forall m' x, (forall c, m' !! c = m !! c \/ m' !! c = F m <$> m !! c) -> F m' x = F m x) ->
  foldl (fun m b => alter (F m) b m) m bbs !! b = F m <$> m !! b.
Proof.
  intros Hok HF. rewrite alter_each; [|apply Hok|done]. case_bool_decide as E; [done|].
  rewrite (function_ok_block bbs m b Hok) in E. by destruct (m !! b); [destruct E|].
Qed.

Lemma clear_liveness_block bbs m b : function_ok bbs m ->
  clear_liveness bbs m !! b = (fun x => set_defines [] (set_needs [] x)) <$> m !! b.
Proof. intros Hok. by apply (alter_all (fun _ x => set_defines [] (set_needs [] x))). Qed.

Lemma is_used_iff m x p : is_used m x p = true <-> exists c, c ∈ lchildren x /\ p ∈ needs_at m c.
Proof.
  unfold is_used, needs_at. rewrite existsb_exists. setoid_rewrite <- list_elem_of_In. split; intros (c & Hc & Hp); exists c; (split; [done|]).
  - destruct (m !! c); [|done]. by apply bool_decide_eq_true in Hp.
  - destruct (m !! c); [by apply bool_decide_eq_true|by apply elem_of_nil in Hp].
Qed.

Lemma remove_internal_block bbs m b : function_ok bbs m ->
  remove_internal bbs m !! b = (fun x => set_defines (List.filter (is_used m x) (defines x)) x) <$> m !! b.
Proof.
  intros Hok. apply (alter_all (fun m x => set_defines (List.filter (is_used m x) (defines x)) x)); [done|].
  intros m' x Hm. f_equal. apply filter_ext. intros p. apply eq_true_iff_eq. rewrite !is_used_iff.
  assert (forall c, needs_at m' c = needs_at m c) as Hn; [|by setoid_rewrite Hn].
  intros c. unfold needs_at. destruct (Hm c) as [-> | ->]; [done|]. by destruct (m !! c).
Qed.

(** ** Liveness *)

(** A use of a pseudo that comes from outside the block. *)
Definition exposed (m : gmap Z lblock) (p : pseudo) (b : Z) : Prop :=
  (exists x, in_block m b x /\ Some p ∈ used x) /\ from_outside b p = true.

(** By an instruction of the block, or by a phi node that has a source there. *)
Definition defined (m : gmap Z lblock) (p : pseudo) (b : Z) : Prop :=
  exists c x, in_block m c x /\ (b, Some p) ∈ written c x.

(** A path leads to a use without a definition in the blocks before. *)
Inductive live_in (m : gmap Z lblock) (p : pseudo) : Z -> Prop :=
  | live_use b : exposed m p b -> live_in m p b
  | live_edge b c y : m !! c = Some y -> b ∈ lparents y -> ~ defined m p b -> live_in m p c -> live_in m p b.

Lemma in_function_events bbs m e : function_ok bbs m ->
  e ∈ bbs ≫= block_events m <-> exists b x, in_block m b x /\ e ∈ events b x.
Proof.
  intros Hok. rewrite list_elem_of_bind. unfold in_block. split.
  - intros (b & He & Hb). unfold block_events in He. destruct (m !! b) as [y|] eqn:Hy; [|by apply elem_of_nil in He].
    apply list_elem_of_bind in He as (i & He & Hi). exists b, i.
    destruct (function_ok_insn bbs m b y i Hok Hy Hi) as [E|(E & _)]; rewrite E in He; [by apply elem_of_nil in He|]. eauto.
  - intros (b & x & (y & Hy & Hx & Hb) & He). exists b. split; [|apply (function_ok_block bbs m b Hok); eauto].
    unfold block_events. rewrite Hy. apply list_elem_of_bind. exists x. by rewrite Hb.
Qed.

Lemma function_ok_shape bbs m m' : shape m' = shape m -> function_ok bbs m -> function_ok bbs m'.
Proof.
  intros Hs (H1 & H2 & H3). split; [done|]. split.
  - rewrite <- H2. rewrite <- (dom_fmap_L (fun x => (lparents x, lchildren x, linsns x)) m). fold (shape m). rewrite <- Hs.
    unfold shape. by rewrite dom_fmap_L.
  - intros b x Hx. destruct (shape_lookup m' m b x) as (y & Hy & E1 & E2 & E3); [done|done|].
    specialize (H3 b y Hy). cbn in H3. unfold block_okb in *. by rewrite <- E1, <- E2, <- E3.
Qed.

Lemma clear_liveness_shape bbs m : function_ok bbs m -> shape (clear_liveness bbs m) = shape m.
Proof.
  intros Hok. apply map_eq. intros b. unfold shape. rewrite !lookup_fmap, clear_liveness_block by done. by destruct (m !! b).
Qed.

Lemma track_usage_clear bbs m c : function_ok bbs m ->
  exists s, track_usage def_of bbs (Lives (clear_liveness bbs m) c) = Some s /\ shape (lblocks s) = shape m /\
    (forall b, NoDup (needs_at (lblocks s) b)) /\
    (forall b p, p ∈ needs_at (lblocks s) b <-> exposed m p b) /\ (forall b p, p ∈ defines_at (lblocks s) b <-> defined m p b).
Proof.
  intros Hok. pose proof (clear_liveness_shape bbs m Hok) as Hs.
  destruct (track_usage_marked bbs m (Lives (clear_liveness bbs m) c) Hok Hs) as (s & E & [M1 M2 M3 M4]). cbn [lblocks] in *.
  assert (forall b, needs_at (clear_liveness bbs m) b = []) as Cn
    by (intros b; unfold needs_at; rewrite clear_liveness_block by done; by destruct (m !! b)).
  assert (forall b, defines_at (clear_liveness bbs m) b = []) as Cd
    by (intros b; unfold defines_at; rewrite clear_liveness_block by done; by destruct (m !! b)).
  exists s. split; [done|]. split; [congruence|]. split; [apply M4; intros b; rewrite Cn; apply NoDup_nil_2|].
  split; intros b p.
  - rewrite M2, Cn, elem_of_nil, (in_function_events bbs m) by done. unfold exposed. setoid_rewrite in_events_use. naive_solver.
  - rewrite M3, Cd, elem_of_nil, (in_function_events bbs m) by done. unfold defined. setoid_rewrite in_events_def. naive_solver.
Qed.

Lemma flows_live m m1 p b : shape m1 = shape m ->
  (forall b p, p ∈ needs_at m1 b <-> exposed m p b) -> (forall b p, p ∈ defines_at m1 b <-> defined m p b) ->
  flows m1 p b <-> live_in m p b.
Proof.
  intros Hs Hn Hd. split; induction 1 as [b Hb|b c y Hc Hb Hx _ IH].
  - apply live_use. by apply Hn.
  - destruct (shape_lookup m1 m c y) as (z & Hz & E & _); [done|done|]. rewrite Hd in Hx. by eapply live_edge; [|rewrite E| |].
  - apply flows_here. by apply Hn.
  - destruct (shape_lookup m m1 c y) as (z & Hz & E & _); [done|done|]. rewrite <- Hd in Hx. by eapply flows_up; [|rewrite E| |].
Qed.

Lemma track_pseudo_liveness_live bbs m c : function_ok bbs m ->
  exists s, track_pseudo_liveness def_of bbs (Lives (clear_liveness bbs m) c) = Some s /\ shape (lblocks s) = shape m /\
    (forall b, NoDup (needs_at (lblocks s) b)) /\ (forall b p, p ∈ needs_at (lblocks s) b <-> live_in m p b) /\
    (forall b x p, lblocks s !! b = Some x -> p ∈ defines x <-> defined m p b /\ exists c, c ∈ lchildren x /\ live_in m p c).
Proof.
  intros Hok. destruct (track_usage_clear bbs m c Hok) as (s1 & E1 & Hs1 & N1 & L1 & D1). unfold track_pseudo_liveness. rewrite E1. cbn -[rounds].
  pose proof (function_ok_shape bbs m (lblocks s1) Hs1 Hok) as Hok1.
  destruct (liveness_loop_flows bbs (lblocks s1) Hok1 (rounds (lblocks s1)) s1) as (s2 & -> & [S2 D2 _ _ N2] & F2).
  { split; auto. intros b p. by apply flows_here. }
  { unfold rounds. lia. }
  assert (forall b p, p ∈ needs_at (lblocks s2) b <-> live_in m p b) as L2.
  { intros b p. rewrite F2. by apply flows_live. }
  pose proof (function_ok_shape bbs (lblocks s1) (lblocks s2) S2 Hok1) as Hok2.
  assert (forall b, needs_at (remove_internal bbs (lblocks s2)) b = needs_at (lblocks s2) b) as Hn.
  { intros b. unfold needs_at. rewrite remove_internal_block by done. by destruct (lblocks s2 !! b). }
  eexists. split; [done|]. cbn [lblocks]. split; [|split; [|split]].
  - rewrite <- Hs1, <- S2. apply map_eq. intros b. unfold shape. rewrite !lookup_fmap, remove_internal_block by done. by destruct (lblocks s2 !! b).
  - intros b. rewrite Hn. apply N2.
  - intros b p. by rewrite Hn.
  - intros b x p. rewrite remove_internal_block by done. destruct (lblocks s2 !! b) as [y|] eqn:Hy; [|done]. intros [= <-]. cbn.
    rewrite list_elem_of_In, filter_In, <- list_elem_of_In, is_used_iff, <- (defines_at_self _ _ _ Hy), D2, D1. by setoid_rewrite L2.
Qed.

(** ** Death notes *)

Lemma death_events evs live dead :
  exists l, each (on_event death_def death_use) evs (Some (live, dead)) = Some (live ++ l, dead ++ l) /\ NoDup l /\
    forall p, p ∈ l <-> (exists b, EUse b (Some p) ∈ evs) /\ trackable_pseudo (Some p) = true /\ p ∉ live.
Proof.
  revert live dead. induction evs as [|e evs IH]; intros live dead.
  { exists []. rewrite !app_nil_r. split; [done|]. split; [apply NoDup_nil_2|]. set_solver. }
  rewrite each_cons.
  assert ((exists b p, e = EUse b (Some p) /\ trackable_pseudo (Some p) = true /\ (p ∉ live) /\
            on_event death_def death_use e (live, dead) = Some (live ++ [p], dead ++ [p])) \/
          (forall b p, e = EUse b (Some p) -> trackable_pseudo (Some p) = true -> p ∈ live) /\
            (on_event death_def death_use e (live, dead) = Some (live, dead))) as [(b & p & -> & Ht & Hl & E)|[Hn E]].
  { destruct e as [b [p|]|]; [|right; done|right; done]. unfold on_event, death_use.
    destruct (trackable_pseudo (Some p)) eqn:Et; cbn [andb fst snd].
    - case_bool_decide; cbn [negb]; [right|left].
      + split; [by intros ? ? [= <- <-]|done].
      + by exists b, p.
    - right. split; [intros ? ? [= <- <-]; congruence|done]. }
  - rewrite E. cbn -[each]. destruct (IH (live ++ [p]) (dead ++ [p])) as (l & -> & Hnd & Hp). exists (p :: l).
    rewrite <- !app_assoc. split; [done|]. split; [apply list.NoDup_cons; split; [rewrite Hp; set_solver|done]|].
    intros q. rewrite elem_of_cons, Hp, not_elem_of_app, list_elem_of_singleton. setoid_rewrite elem_of_cons.
    destruct (decide (q = p)); naive_solver.
  - rewrite E. cbn -[each]. destruct (IH live dead) as (l & -> & Hnd & Hp). exists l. split; [done|]. split; [done|].
    intros q. rewrite Hp. setoid_rewrite elem_of_cons. naive_solver.
Qed.

(** Instructions with notes: before each one the pseudos that it uses, that no later one uses and that are not in [out]. *)
Definition used_in (l : list instruction) (p : pseudo) : Prop := exists x, x ∈ l /\ lbb x <> None /\ Some p ∈ used x.

Inductive noted (b : Z) (out : pseudo -> Prop) : list instruction -> list instruction -> Prop :=
  | noted_nil : noted b out [] []
  | noted_removed x l k : lbb x = None -> noted b out l k -> noted b out (x :: l) (x :: k)
  | noted_insn x ps l k : lbb x <> None -> NoDup ps ->
      (forall p, p ∈ ps <-> Some p ∈ used x /\ trackable_pseudo (Some p) = true /\ ~ used_in l p /\ ~ out p) ->
      noted b out l k -> noted b out (x :: l) ((deathnote b <$> ps) ++ x :: k).

Lemma used_in_cons x l p : used_in (x :: l) p <-> lbb x <> None /\ Some p ∈ used x \/ used_in l p.
Proof. unfold used_in. setoid_rewrite elem_of_cons. naive_solver. Qed.

Lemma foldl_notes b ps l : foldl (fun l p => deathnote b p :: l) l ps = (deathnote b <$> reverse ps) ++ l.
Proof.
  revert l. induction ps as [|p ps IH]; intros l; [done|]. cbn [foldl]. by rewrite IH, reverse_cons, fmap_app, <- app_assoc.
Qed.

Lemma add_deathnotes_noted b out rev l k live :
  Forall (fun x => lbb x = None \/ known_opcode (lop x) = true) rev ->
  (forall p, trackable_pseudo (Some p) = true -> p ∈ live <-> out p \/ used_in l p) -> noted b out l k ->
  exists k', add_deathnotes def_of b rev live k = Some k' /\ noted b out (reverse rev ++ l) k'.
Proof.
  intros Hk. revert l k live. induction Hk as [|x rev Hx Hk IH]; intros l k live Hl Hn; [by exists k|].
  rewrite reverse_cons, <- app_assoc. cbn -[track_instruction_usage]. destruct (lbb x) as [c|] eqn:Ec.
  - destruct Hx as [?|Hx]; [done|]. rewrite track_instruction_usage_events by done.
    destruct (death_events (events b x) live []) as (ps & -> & Hd & Hp). cbn.
    assert (forall p, p ∈ ps <-> Some p ∈ used x /\ trackable_pseudo (Some p) = true /\ p ∉ live) as Hp'.
    { intros p. rewrite Hp. setoid_rewrite in_events_use. naive_solver. }
    rewrite foldl_notes. apply IH.
    + intros p Ht. rewrite elem_of_app, Hp', used_in_cons, Ec, (Hl p Ht). destruct (decide (p ∈ live)) as [Hin|Hin]; rewrite (Hl p Ht) in Hin; naive_solver.
    + apply noted_insn; [by rewrite Ec|by rewrite reverse_Permutation| |done]. intros p. rewrite elem_of_reverse, Hp'.
      split; intros (? & Ht & Hx'); (split; [done|]); (split; [done|]); rewrite (Hl p Ht) in *; tauto.
  - apply IH; [|by apply noted_removed]. intros p Ht. rewrite used_in_cons, Ec, (Hl p Ht). naive_solver.
Qed.

Lemma merge_pseudo_list_elem src st p : p ∈ (merge_pseudo_list src st).1 <-> p ∈ st.1 \/ p ∈ src.
Proof.
  unfold merge_pseudo_list. revert st. induction src as [|q src IH]; intros st; [set_solver|]. cbn [foldl]. rewrite IH.
  unfold add_pseudo_exclusive. case_bool_decide; set_solver.
Qed.

Lemma merge_children (m : gmap Z lblock) l st : (forall c, c ∈ l -> is_Some (m !! c)) ->
  exists st', each (fun child st => y ← m !! child; Some (merge_pseudo_list (needs y) st)) l (Some st) = Some st' /\
    forall p, p ∈ st'.1 <-> p ∈ st.1 \/ exists c, c ∈ l /\ p ∈ needs_at m c.
Proof.
  revert st. induction l as [|c l IH]; intros st Hl; [exists st; set_solver|]. rewrite each_cons.
  destruct (Hl c ltac:(left)) as [y Hy]. rewrite Hy. cbn -[each].
  destruct (IH (merge_pseudo_list (needs y) st)) as (st' & -> & H); [intros; apply Hl; by right|].
  exists st'. split; [done|]. intros p. rewrite H, merge_pseudo_list_elem. setoid_rewrite elem_of_cons.
  rewrite <- (needs_at_self _ _ _ Hy). naive_solver.
Qed.

(** What the children of a block need. *)
Definition needed_after (m : gmap Z lblock) (x : lblock) (p : pseudo) : Prop := exists c, c ∈ lchildren x /\ p ∈ needs_at m c.

Lemma track_pseudo_death_bb_noted bbs m b x s : function_ok bbs m -> m !! b = Some x ->
  lblocks s !! b = Some x -> (forall c, needs_at (lblocks s) c = needs_at m c) -> (forall c, is_Some (m !! c) -> is_Some (lblocks s !! c)) ->
  exists k s', track_pseudo_death_bb def_of b s = Some s' /\ lblocks s' = <[b := set_linsns k x]> (lblocks s) /\
    noted b (needed_after m x) (linsns x) k.
Proof.
  intros Hok Hx Hs Hn Hc. unfold track_pseudo_death_bb. rewrite Hs. cbn -[each].
  destruct (merge_children (lblocks s) (lchildren x) ([], liveness_changed s)) as ([live c] & -> & Hl).
  { intros d Hd. apply Hc. eapply (function_ok_edge bbs m b x); eauto. }
  cbn -[each] in *. destruct (add_deathnotes_noted b (needed_after m x) (reverse (linsns x)) [] [] live) as (k & -> & Hk).
  - apply list.Forall_forall. intros i Hi. rewrite elem_of_reverse in Hi.
    destruct (function_ok_insn bbs m b x i Hok Hx Hi) as [?|(_ & ? & _)]; auto.
  - intros p _. rewrite Hl. unfold needed_after, used_in. setoid_rewrite Hn. set_solver.
  - constructor.
  - rewrite reverse_involutive, app_nil_r in Hk. by exists k, (Lives (<[b := set_linsns k x]> (lblocks s)) c).
Qed.

Lemma death_blocks bbs m l s : function_ok bbs m -> NoDup l -> (forall b, b ∈ l -> is_Some (m !! b) /\ lblocks s !! b = m !! b) ->
  (forall c, needs_at (lblocks s) c = needs_at m c) -> (forall c, is_Some (m !! c) -> is_Some (lblocks s !! c)) ->
  exists s', each (track_pseudo_death_bb def_of) l (Some s) = Some s' /\
    (forall b, b ∉ l -> lblocks s' !! b = lblocks s !! b) /\
    (forall b x, b ∈ l -> m !! b = Some x -> exists k, lblocks s' !! b = Some (set_linsns k x) /\ noted b (needed_after m x) (linsns x) k).
Proof.
  intros Hok Hl. revert s. induction Hl as [|b l Hb Hl IH]; intros s Hs Hn Hc; [exists s; set_solver|].
  destruct (Hs b ltac:(left)) as [[x Hx] Hsx]. rewrite Hx in Hsx. rewrite each_cons.
  destruct (track_pseudo_death_bb_noted bbs m b x s) as (k & s1 & -> & E1 & Hk); [done..|]. cbn -[each].
  destruct (IH s1) as (s' & E & Hr & Hw); rewrite ?E1.
  - intros c Hin. rewrite lookup_insert_ne by set_solver. apply Hs. by right.
  - intros c. rewrite needs_at_insert. case_bool_decide; [subst|apply Hn]. cbn. by rewrite <- Hn, (needs_at_self _ _ _ Hsx).
  - intros c Hm. destruct (decide (b = c)) as [->|?]; [rewrite lookup_insert_eq; eauto|rewrite lookup_insert_ne by done; auto].
  - exists s'. split; [done|]. split.
    + intros c Hin. rewrite Hr, E1 by set_solver. apply lookup_insert_ne. set_solver.
    + intros c y [->|Hin]%elem_of_cons Hy; [|by apply Hw]. rewrite Hx in Hy. injection Hy as <-.
      exists k. split; [|done]. rewrite Hr, E1 by done. apply lookup_insert_eq.
Qed.

Lemma each_checks {A} (f : A -> unit -> option unit) l u : (forall a u, a ∈ l -> f a u = Some u) -> each f l (Some u) = Some u.
Proof.
  induction l as [|a l IH]; intros H; [done|]. rewrite each_cons, H by left. cbn -[each]. apply IH. intros. apply H. by right.
Qed.

Lemma track_phi_ok bbs m b x : function_ok bbs m -> m !! b = Some x -> track_bb_phi_uses def_of x = Some tt.
Proof.
  intros Hok Hx. unfold track_bb_phi_uses. apply each_checks. intros i u Hi.
  destruct (function_ok_insn bbs m b x i Hok Hx Hi) as [E|(E & _ & _ & Hp)]; rewrite E; cbn; [done|].
  destruct (Z.eqb_spec (lop i) PHINODE) as [Eo|]; [|done]. cbn. destruct u. unfold track_phi_uses. apply each_checks.
  intros phi u Hphi. specialize (Hp Eo). rewrite list.Forall_forall in Hp. specialize (Hp phi Hphi). unfold phi_okb in Hp.
  destruct (peq phi VOID); [done|]. cbn in Hp. destruct (def_of phi); [|done]. by rewrite Hp.
Qed.

Lemma track_pseudo_death_noted bbs s : function_ok bbs (lblocks s) ->
  exists s', track_pseudo_death def_of bbs s = Some s' /\
    forall b x, lblocks s !! b = Some x ->
      exists k, lblocks s' !! b = Some (set_linsns k x) /\ noted b (needed_after (lblocks s) x) (linsns x) k.
Proof.
  intros Hok. unfold track_pseudo_death. rewrite each_checks; [cbn -[each]|].
  - destruct (death_blocks bbs (lblocks s) bbs s) as (s' & E & _ & H); [done|apply Hok| |done|done|].
    { intros b Hb. split; [by apply (function_ok_block bbs)|done]. }
    exists s'. split; [done|]. intros b x Hx. apply H; [|done]. apply (function_ok_block bbs _ b Hok). eauto.
  - intros b u Hb. apply (function_ok_block bbs _ b Hok) in Hb as [x Hx]. rewrite Hx. cbn. by rewrite (track_phi_ok bbs (lblocks s) b x).
Qed.

Lemma noted_ext b out out' l k : (forall p, out p <-> out' p) -> noted b out l k -> noted b out' l k.
Proof.
  intros H. induction 1 as [|x l k ? ? IH|x ps l k ? ? Hp ? IH]; [constructor|by constructor|]. apply noted_insn; [done..| |done].
  intros p. by rewrite Hp, H.
Qed.

Lemma noted_erase b out l k : Forall (fun x => lop x <> DEATHNOTE) l -> noted b out l k -> List.filter (fun x => negb (lop x =? DEATHNOTE)) k = l.
Proof.
  intros Hf Hn. induction Hn as [|x l k Hx Hn IH|x ps l k Hx Hd Hp Hn IH]; [done| |]; inversion_clear Hf; cbn.
  - rewrite (proj2 (Z.eqb_neq _ _)) by done. cbn. by rewrite IH.
  - assert (List.filter (fun x => negb (lop x =? DEATHNOTE)) (deathnote b <$> ps) = []) as E by (clear; by induction ps).
    rewrite filter_app, E.
    cbn. rewrite (proj2 (Z.eqb_neq _ _)) by done. cbn. by rewrite IH.
Qed.

(** ** The properties *)

(** C17: track_pseudo_liveness() on a function whose lists were cleared ends, and a block needs exactly the pseudos that
    are live at its start, each once: those for which a path leads to a use of a value from outside its block, with no definition in the
    blocks before it.  What is left of its definitions are those that are live at the start of a child.  The function has no OP_FMADD and no OP_COPY ([function_ok]). *)
Theorem track_pseudo_liveness_exact bbs m c : function_ok bbs m ->
  exists s, track_pseudo_liveness def_of bbs (Lives (clear_liveness bbs m) c) = Some s /\
    forall b x, m !! b = Some x -> exists x', lblocks s !! b = Some x' /\
      lparents x' = lparents x /\ lchildren x' = lchildren x /\ linsns x' = linsns x /\
      NoDup (needs x') /\ (forall p, p ∈ needs x' <-> live_in m p b) /\
      (forall p, p ∈ defines x' <-> defined m p b /\ exists c, c ∈ lchildren x /\ live_in m p c).
Proof.
  intros Hok. destruct (track_pseudo_liveness_live bbs m c Hok) as (s & E & Hs & Hn & Hl & Hd). exists s. split; [done|].
  intros b x Hx. destruct (shape_lookup m (lblocks s) b x Hs Hx) as (x' & Hx' & E1 & E2 & E3). exists x'.
  do 4 (split; [done|]). rewrite <- (needs_at_self _ _ _ Hx'). split; [apply Hn|]. split; [intros; apply Hl|].
  intros p. by rewrite (Hd b x' p Hx'), E2.
Qed.

(** C18: track_pseudo_death() after track_pseudo_liveness() keeps the instructions of a block, and puts notes for exactly those pseudos before
    an instruction that it uses, that no later instruction of the block uses and that are not live at the start of any child.  The function has no OP_FMADD and no OP_COPY ([function_ok]). *)
Theorem track_pseudo_death_exact bbs m c : function_ok bbs m ->
  exists s s', track_pseudo_liveness def_of bbs (Lives (clear_liveness bbs m) c) = Some s /\
    track_pseudo_death def_of bbs s = Some s' /\
    forall b x, m !! b = Some x -> exists x', lblocks s' !! b = Some x' /\
      noted b (fun p => exists c, c ∈ lchildren x /\ live_in m p c) (linsns x) (linsns x') /\
      (Forall (fun i => lop i <> DEATHNOTE) (linsns x) -> List.filter (fun i => negb (lop i =? DEATHNOTE)) (linsns x') = linsns x).
Proof.
  intros Hok. destruct (track_pseudo_liveness_live bbs m c Hok) as (s & E & Hs & _ & Hl & _).
  destruct (track_pseudo_death_noted bbs s) as (s' & E' & H); [by eapply function_ok_shape|]. exists s, s'. do 2 (split; [done|]).
  intros b x Hx. destruct (shape_lookup m (lblocks s) b x Hs Hx) as (y & Hy & _ & E2 & E3).
  destruct (H b y Hy) as (k & Hk & Hn). exists (set_linsns k y). cbn. rewrite E3 in Hn. split; [done|].
  split; [|intros; by eapply noted_erase]. eapply noted_ext; [|exact Hn].
  intros p. unfold needed_after. rewrite E2. by setoid_rewrite Hl.
Qed.
End facts.

(** ** Examples *)

Definition plain (o b : Z) (t a1 a2 a3 : option pseudo) : instruction := Instruction o (Some b) t a1 a2 a3 [] [] [] [].

(** [for (i = 0; i < n; i++) ; return i;] *)
Module Loop.
Definition i0 := plain SETVAL 0 (Some (REG 0)) None None None.
Definition i1 := plain PHISOURCE 0 (Some (PHI 1)) (Some (REG 0)) None None.
Definition i2 := Instruction PHINODE (Some 1) (Some (REG 2)) None None None [PHI 1; PHI 5] [] [] [].
Definition i3 := plain 40 1 (Some (REG 3)) (Some (REG 2)) (Some (ARG 1)) None.
Definition i4 := plain 8 2 (Some (REG 4)) (Some (REG 2)) (Some (VAL 1)) None.
Definition i5 := plain PHISOURCE 2 (Some (PHI 5)) (Some (REG 4)) None None.
Definition cbr := plain CBR 1 None (Some (REG 3)) None None.
Definition ret := plain RET 3 None (Some (REG 2)) None None.
Definition br (b : Z) := plain 3 b None None None None.

Definition loop_def (p : pseudo) : option instruction :=
  match p with
  | REG 0 => Some i0 | PHI 1 => Some i1 | REG 2 => Some i2 | REG 3 => Some i3 | REG 4 => Some i4 | PHI 5 => Some i5
  | _ => None
  end.

Definition blocks : gmap Z lblock :=
  {[ 0 := LBlock [] [1] [i0; i1; br 0] [] []; 1 := LBlock [0; 2] [2; 3] [i2; i3; cbr] [] [];
     2 := LBlock [1] [1] [i4; i5; br 2] [] []; 3 := LBlock [1] [] [ret] [] [] ]}.

Lemma loop_ok : function_ok loop_def [0; 1; 2; 3] blocks.
Proof. apply (bool_decide_unpack _). vm_compute. exact I. Qed.
End Loop.

Lemma track_pseudo_liveness_exact_witness :
  function_ok Loop.loop_def [0; 1; 2; 3] Loop.blocks /\
  exists s, track_pseudo_liveness Loop.loop_def [0; 1; 2; 3] (Lives (clear_liveness [0; 1; 2; 3] Loop.blocks) false) = Some s /\
    forall b x, Loop.blocks !! b = Some x -> exists x', lblocks s !! b = Some x' /\ forall p, p ∈ needs x' <-> live_in Loop.loop_def Loop.blocks p b.
Proof.
  split; [exact Loop.loop_ok|].
  destruct (track_pseudo_liveness_exact Loop.loop_def [0; 1; 2; 3] Loop.blocks false Loop.loop_ok) as (s & E & H). exists s. split; [exact E|].
  intros b x Hx. destruct (H b x Hx) as (x' & Hx' & _ & _ & _ & _ & Hn & _). exists x'. split; [exact Hx'|exact Hn].
Defined.

Lemma track_pseudo_death_exact_witness :
  function_ok Loop.loop_def [0; 1; 2; 3] Loop.blocks /\
  exists s s', track_pseudo_liveness Loop.loop_def [0; 1; 2; 3] (Lives (clear_liveness [0; 1; 2; 3] Loop.blocks) false) = Some s /\
    track_pseudo_death Loop.loop_def [0; 1; 2; 3] s = Some s' /\
    forall b x, Loop.blocks !! b = Some x -> exists x', lblocks s' !! b = Some x' /\
      noted b (fun p => exists c, c ∈ lchildren x /\ live_in Loop.loop_def Loop.blocks p c) (linsns x) (linsns x').
Proof.
  split; [exact Loop.loop_ok|].
  destruct (track_pseudo_death_exact Loop.loop_def [0; 1; 2; 3] Loop.blocks false Loop.loop_ok) as (s & s' & E & E' & H). exists s, s'.
  split; [exact E|]. split; [exact E'|]. intros b x Hx. destruct (H b x Hx) as (x' & Hx' & Hn & _). exists x'. split; [exact Hx'|exact Hn].
Defined.

(** [y = -x; return fma(y, y, x);] over two blocks. *)
Module Fma.
Definition f0 := plain SETFVAL 0 (Some (REG 0)) None None None.
Definition f1 := plain 51 0 (Some (REG 1)) (Some (REG 0)) None None.
Definition f2 := plain FMADD 0 (Some (REG 2)) (Some (REG 1)) (Some (REG 1)) (Some (REG 0)).
Definition ret := plain RET 1 None (Some (REG 2)) None None.

Definition fma_def (p : pseudo) : option instruction :=
  match p with REG 0 => Some f0 | REG 1 => Some f1 | REG 2 => Some f2 | _ => None end.

Definition blocks : gmap Z lblock := {[ 0 := LBlock [] [1] [f0; f1; f2; Loop.br 0] [] []; 1 := LBlock [0] [] [ret] [] [] ]}.
End Fma.

(** track_instruction_usage() has no case for OP_FMADD.  The note that a pseudo dies is put before an instruction although the fused
    multiplication after it uses the pseudo, and the result of the multiplication is needed at the entry of the function. *)
Theorem fmadd_is_missed :
  exists s s' x, track_pseudo_liveness Fma.fma_def [0; 1] (Lives (clear_liveness [0; 1] Fma.blocks) false) = Some s /\
    track_pseudo_death Fma.fma_def [0; 1] s = Some s' /\ lblocks s' !! 0 = Some x /\
    linsns x = [Fma.f0; deathnote 0 (REG 0); Fma.f1; Fma.f2; Loop.br 0] /\ Some (REG 0) ∈ used Fma.f2 /\
    REG 2 ∈ needs x /\ (0, Some (REG 2)) ∈ written Fma.fma_def 0 Fma.f2.
Proof.
  do 3 eexists. split; [vm_compute; reflexivity|]. split; [vm_compute; reflexivity|]. split; [vm_compute; reflexivity|].
  split; [reflexivity|]. split; [vm_compute; set_solver|]. split; [vm_compute; set_solver|vm_compute; set_solver].
Qed.
